(* ===== verification/_CoqProject ===== *)
-Q . S2P
Prelude.v
Floats.v
Kinds.v
Size.v
Extern.v
Bitmap.v
Adjacency.v
ValueIndex.v
Filter.v
FilterParser.v
Text.v
Taxonomy.v
Xeto.v
Namespace.v
Fitting.v
NamespaceFacts.v
FittingFacts.v
SpecSemantics.v
NamespaceInv.v
Controlled.v
ControlledFacts.v
ControlledSafety.v
Changelog.v
Graph.v
GraphInv.v
Prepared.v
PreparedFacts.v
BatchFacts.v
Recovery.v
Query.v
QueryFacts.v
GraphValidation.v
Hierarchy.v
System.v
Application.v
MeterFacts.v
Units.v
Sanitize.v
SanitizeFacts.v
View.v
Reading.v
ReadingFacts.v
CatalogPages.v
ReadService.v
ReadServiceFacts.v
Command.v
CommandExecute.v
CommandFacts.v
CommandRuns.v
Shared.v
SharedFacts.v
FilterParserFacts.v
FilterPrint.v
RecoveryFacts.v
OntologyTheorems.v
AppTheorems.v
WireText.v
TypedPayload.v
TypedFacts.v
EntityWire.v
EntityWireFacts.v
EntityWireLaws.v
Feed.v
FeedFacts.v
WireTheorems.v
Mutation.v
MutationFacts.v
SubscriptionWire.v
Subscription.v
SubscriptionFacts.v
SubscriptionRuns.v
SubscriptionAnswers.v
ServiceTheorems.v
Demo.v
Theorems.v
Witnesses.v
OntologyWitnesses.v
AppWitnesses.v
WireWitnesses.v
ServiceWitnesses.v
