(* ===== verification/Prelude.v ===== *)
(** * rusty-haystack: a verification development of the graph engine, its
      ontology and the application layer

    The repository is a Project Haystack implementation in Rust.  Its core,
    [src/haystack-core], keeps an in-memory graph of entities (dicts of typed
    tags that refer to each other), answers filter queries over it, with or
    without an ontology, tracks changes for subscribers and recovers the graph
    from durable images.  The application crate, [src/haystack-app], serves
    this graph to callers: every request runs under a budget and a policy,
    sees only what the policy shows, and reads in pages that cursors continue;
    a simulator accepts commands on writable points; batches of entity
    operations are submitted under identities with receipts, a feed serves
    the changes of the graph, and sessions subscribe to the state of the
    entities they watch.  Servers, clients, analytics, command
    line and bindings are built on the two.  This development models the
    graph engine, the filter language, the ontology with its fitting, the
    typed wire format with the messages of the entity and subscription
    protocols, and the reads, commands, mutations, change feed and state
    subscriptions of the application layer as executable definitions
    translated from the source, and proves them correct.

    ** The parts and where they are modelled

    Foundations
    - [Prelude.v]: results and the [?] operator, machine integers, lists,
      hash and ordered maps, automation.
    - [Floats.v], [Kinds.v]: f64 as bit patterns with the IEEE and the total
      order; [kinds/], [data/dict.rs] and [data/grid.rs]: values, dicts and
      grids.  [Text.v]: the string functions of the code.  [Units.v]:
      [kinds/units.rs], the registry of units.
    - [Size.v]: [graph/size.rs], the work and byte budget of the graph.
    - [Extern.v]: the interfaces of third-party containers, the roaring
      bitmap and the insertion-ordered map, with concrete instances; and the
      interface [RowIndex] that the three indexes implement.

    The graph
    - [Bitmap.v], [Adjacency.v], [ValueIndex.v]: [graph/bitmap.rs],
      [graph/adjacency.rs] and [graph/value_index.rs]; each file ends with a
      proof that the index describes the live rows ([models]) after every
      operation.
    - [Filter.v], [FilterParser.v]: [filter/ast.rs], [filter/eval.rs] and
      [filter/parser.rs].  [FilterParserFacts.v] proves the parser total and
      bounded, [FilterPrint.v] proves that it inverts a printer.
    - [Changelog.v]: [graph/changelog.rs] and the log of the graph: commit
      units, eviction of whole units, cursors.
    - [Graph.v], [Query.v]: [graph/entity_graph.rs].  [EntityGraph.t] has the
      fields of the struct; one definition per method.  [GraphInv.v] states
      the invariant [inv] and the abstract graph [GraphSpec] (a finite map of
      entities and a revision) that the mutations refine; [QueryFacts.v] and
      [Hierarchy.v] are about the queries.
    - [Prepared.v]: [graph/prepared.rs] and the [prepare_changes] and
      [apply_prepared] methods of the indexes.  [PreparedFacts.v] proves the
      index overlays right, [BatchFacts.v] that a published plan is its
      operations one by one.
    - [Recovery.v], [RecoveryFacts.v]: [graph/recovery.rs].
    - [System.v]: the step relation of the graph, one rule per public
      operation, and what holds along its runs.
    - [Shared.v], [SharedFacts.v]: [graph/shared.rs] and
      [graph/subscriber.rs].  A write is a section under the lock, which ends
      with its release, and then the announcements one by one ([release],
      [send]); writers and a subscriber are interleavings of these steps.

    The ontology
    - [Taxonomy.v]: [ontology/taxonomy.rs] and [ontology/conjunct.rs].  [Xeto.v]: [xeto/spec.rs] and the interface of
      strict catalogs.  [Namespace.v]: [ontology/def.rs], [lib.rs],
      [namespace.rs], [validation.rs] and, in the module [TrioLoader],
      [trio_loader.rs].
      [Fitting.v]: [xeto/fitting.rs].
    - [NamespaceFacts.v], [NamespaceInv.v]: the invariant of namespaces and
      their steps.  [FittingFacts.v], [SpecSemantics.v]: what fitting means
      ([satisfies]).  [GraphValidation.v]: fitting over a
      graph and [ontology/graph_validation.rs].
    - [Controlled.v]: [filter/controlled.rs], the evaluator over an
      environment that charges, hides and stops.  [ControlledFacts.v] proves
      it equal to the plain evaluation where nothing is hidden,
      [ControlledSafety.v] that hiding never adds a match, and, in
      [Unmetered], that metering changes no answer: evaluation in any
      environment is that over what it shows, or stopped.

    The application layer
    - [Application.v]: [types.rs], [policy.rs] and [budget.rs]: identities,
      limits, policies, and the monad [Meter.B] of metered computations.
      [MeterFacts.v]: a logic of costs for it.
    - [Sanitize.v], [View.v]: [sanitize.rs], the copy of a record a policy
      allows, and the view of a caller as a query environment.
      [SanitizeFacts.v] proves the copy exact, within its cost, and that it
      discloses nothing.
    - [Reading.v]: the pages of [service.rs] and the grid of [output.rs].
      [ReadingFacts.v], [CatalogPages.v]: pages of entities and of
      declarations are exact.
    - [ReadService.v], [ReadServiceFacts.v]: cursors, the cursor table and
      [execute_on_graph].
    - [Command.v], [CommandExecute.v]: [command.rs] and [command/state.rs],
      the simulator of commands.  [CommandFacts.v]: its store and expiry.
      [CommandRuns.v]: a weakest-precondition calculus for its computations
      and what every command does.

    The wire
    - [WireText.v]: reading and writing of integers and hexadecimal text.
    - [TypedPayload.v]: [codecs/typed.rs] and [NominalScalar::new] of
      [kinds/rich.rs]: the typed payload of every kind of value.
      [TypedFacts.v]: reading inverts writing, and what is read is typed.
    - [EntityWire.v]: [codecs/entity.rs]: batches, receipt requests,
      outcomes, feed requests and pages as values ([EntityWire]), their
      bytes, and the grids that carry them.  [EntityWireFacts.v],
      [EntityWireLaws.v]: reading and writing are inverse for each message
      ([EntityWireLaws]).

    Mutations and the feed
    - [Mutation.v]: [mutation.rs] with the ephemeral store: submission,
      reservation of a receipt, publication, acknowledgement, reconciliation.
      [MutationFacts.v]: its runs as a step relation, and their invariant.
    - [Feed.v]: [feed.rs], cursors and pages of the change feed.
      [FeedFacts.v]: what a page holds, and that its bytes decode.

    Subscriptions
    - [SubscriptionWire.v]: [codecs/subscription.rs], the requests and
      outcomes as instances of [EntityWire] and of its laws.
    - [Subscription.v]: [subscription.rs] of the application, with the
      sessions of [session.rs] and the records of typed watches of
      [subscription/watch.rs].  Entries are reference counted cells, so the
      state is a heap of entries and a registry of addresses.  A request is
      its lookup and a list of rounds; a round looks at its entry, decides an
      [Intent], and acts on the state it then meets.
    - [SubscriptionFacts.v]: deliveries as a client applies them.
      [SubscriptionRuns.v]: the steps of the system (creations, rounds that
      looked at any earlier state, maintenance, removals, a shutdown) and the
      invariant of its runs.  [SubscriptionAnswers.v]: what a request can be
      answered, and that it is answered.

    [Demo.v] is a concrete instance.  [Theorems.v], [OntologyTheorems.v],
    [AppTheorems.v], [WireTheorems.v] and [ServiceTheorems.v] hold the
    properties; [Witnesses.v], [OntologyWitnesses.v], [AppWitnesses.v],
    [WireWitnesses.v] and [ServiceWitnesses.v] evaluate each of them on
    concrete inputs.

    How they interact: a mutation of the graph checks and sizes the change,
    updates the rows, the three indexes and the log; a query parses the
    filter, plans with the tag and value indexes, evaluates the filter on the
    candidates and caches the answer; a spec term of a filter asks the
    namespace, which fits the entity and follows its query slots through the
    graph; a batch is planned on a borrowed graph and published later, if
    nothing changed; recovery captures rows and log and rebuilds the rest
    through [add]; a shared graph runs mutations under its lock and wakes
    subscribers after releasing it, which fetch changes from the log; a read is admitted by its
    policy, normalized, evaluated by the controlled evaluator over the view
    of its caller, and leaves a cursor stamped with the state of the graph; a
    command reads the schema of its point from the graph, and is published in
    the simulator's store only if the graph is still the same; a submitted
    batch is planned on the graph, gets a receipt under its identity and is
    published through the shared graph; the feed reads the units of the log,
    masks each change for its caller and encodes them as a message of the
    entity protocol; a subscription captures the rows its caller may see of
    the ids it watches, compares them with the rows its client has
    acknowledged, and publishes the difference as a delivery if neither the
    watch nor the graph has moved meanwhile.

    ** How the code is translated

    - [usize], [u64] and [u32] are [N] with their bounds written out
      ([checked_add], [saturating_add], the [as u32] truncation); [f64] is
      its 64 bits.
    - A [Result] is a [result]; a function that could panic (an [expect], an
      indexed map, an out of range conversion) returns an option whose [None]
      is the panic, and the theorems show that it does not happen.
    - [&mut self] methods return the new state with their result.  [read_all]
      takes [&self] but changes two caches behind mutexes, so it returns the
      graph too.
    - A [HashMap] is a [gmap] with an arbitrary enumeration order
      ([HashOrder]); no theorem depends on the order.  A [BTreeMap] is a
      [gmap] enumerated in key order.
    - An [Arc] is a value with the address that [ptr_eq] compares.
    - What the code reads from outside (clock, random incarnation, allocator
      outcome, capacities, struct sizes, lock acquisition) is an argument; at
      the checks of a budget it is the class [Ambient], a sequence of moments
      about which nothing is assumed.
    - State that several requests share is an argument at each point where a
      request sees it: the cursor table at the lookup and at the insertion,
      the simulator's store at the one critical section of a command, the
      receipts at the lookup and at the reservation of a submission, the
      watches at the lookup of a request and at the two halves of each of its
      rounds.
    - Third-party code is an interface with documented laws and a concrete
      instance: the roaring bitmap, the index map, the broadcast channel, the
      Unicode tables ([Lexical], [Casing]), regular expressions
      ([RegexCrate]), the text of floats ([FloatText]), the codes of cursors
      ([CursorCrypto], [FeedCursorLaws]), the JSON of [serde_json]
      ([SerdeJson]), Base64 ([Base64]), the calendar of [chrono] ([Chrono]),
      the derived text of a principal ([PrincipalText]).  So are the parts of the repository not modelled here:
      the strict Xeto catalog ([StrictCatalog], [StrictFit]), its activation
      ([Catalog]) and the Zinc scalar reader ([Lexical]).
    - Interfaces between the modelled parts: [RowIndex] (the indexes, used by
      the graph), [Ontology] (used by the graph, instantiated by
      [Fitting.namespace_ontology]), [FilterSyntax] (instantiated by the
      modelled parser), [QueryEnvironment] (used by the controlled evaluator,
      instantiated by [View.environment]), [EntityWire] with [EntityWireLaws]
      (the messages, used by the codec and the feed), [ProviderLaws] (what a
      provider may do with a plan; the ephemeral one is an instance).
    - Effects are small monads: [Controlled.C] over an environment,
      [Meter.B] over a budget, [Reading.R], [Simulate.K] and [Mutation.R] over
      a budget, with panics, [Subscription.C] over a budget with the errors of
      a capture.

    ** Fuel and bounds

    The parser's productions take fuel: [3 * (length + 1)] units for the
    unread input, proved enough for every input.  Its inner loops take one
    unit more than the bytes left.  Eviction takes one round per entry of the
    log plus one.  Draining a channel takes one round more than the messages
    pending.  [build_subtree] recurses on the levels left of its depth limit,
    and the value budget, masking and measuring on the levels left of their
    depth.  The walks of the taxonomy take a round per edge not yet followed,
    those along spec bases and query slots one more than the specs and the
    entities there are.  The controlled evaluator takes the sum of the three.
    The tries of a command take one round more than its limit of work, since
    a try that fails is charged.  The rounds of a subscription request are a
    list; each observes the clock, so one more than the observations before
    its deadline is enough.

    ** What is proved

    - The graph (C1 - C8): queries agree with evaluation over all rows; the
      mutations refine the abstract graph on every branch; every reachable
      graph satisfies the invariant; changes replay; batches are atomic and
      the errors of their preparation genuine.
    - Sharing and recovery (C9, C10): subscribers follow the graph and never
      sleep on stale data; images restore.
    - The filter language (C11, C12): parsing inverts printing, is total and
      bounded.
    - The ontology (C13 - C19): what a spec term selects; the controlled
      evaluator agrees with the plain one and is sound under hiding, in
      namespaces that are [plain]; graph
      validation; the invariant of namespaces; memos are invisible; the
      closures of the hierarchy.
    - Reads (C20 - C24): a record is copied exactly and within its cost,
      nothing hidden is disclosed, filters are evaluated over what is shown,
      pages add up to the answer, a served request is the page its cursor
      asks for.  C22 - C24 hold for policies that hide parts of the catalog
      and for namespaces with a selected strict catalog, whose fitter is a
      parameter; C22 also says where the answer is that of the plain
      evaluation over the masked rows.
    - Commands (C25 - C27): the invariant of the store, the effect of a
      command on every path, honest outcomes under every race with the
      caller.
    - The wire (C28, C30): payloads read back, messages are read exactly when
      they are written.
    - Catalog reads (C29): a page of declarations holds the visible ones the
      query selects, in order.
    - The feed (C31, C32): a page holds the masked changes of whole units; a
      client that follows the cursors while the graph goes on changing gets
      every change once.
    - Mutations (C33, C34): a batch is performed at most once and its receipt
      tells what happened to the graph; the answers of submissions are true.
    - Subscriptions (C35 - C40): messages are read exactly when they are
      written; a client holds the rows of what it watches at the revision it
      acknowledged, in every interleaving; publications are serial; the
      registry stays within its limits; every answer passes the check of the
      client; requests return.

    The theorem files hold further properties without a number: indexes,
    candidate sets, lookups, grids, hierarchies, retention, sizes, membership,
    derivation from catalogs, errors of the controlled evaluator, announcements, cursor tokens and the cursor table, expiry,
    messages in grids, cursors of the feed, the finality of receipts, the
    answers of reconciliation, and three behaviours that differ from what the
    code documents.

    ** What is not modelled

    The text formats (Zinc, Trio, CSV, Jeto and the JSON of grids), the Xeto
    text loader and strict catalog, unit conversion and time zones,
    [SharedGraph::activate_catalog], the history and lifecycle services,
    durable storage (also as a backend of mutations), and the other crates.
    Of a read: the encoding of the page, requests as wire bodies, the queue
    and the worker tasks, which also run submissions, the feed and
    subscriptions.  Of a command: decoding its arguments.  Of subscriptions:
    the requests of typed watches and the adapters of legacy clients, the
    check of raw JSON before a grid is decoded, and the wake channel, on which
    no answer depends.  Memory exhaustion and the unwinding of a panicking
    closure are not modelled.  What would come next: the requests of typed
    watches over the same registry; the lifecycle of the application; the
    Zinc scalar codec, which would replace the interface [Lexical]; catalog
    activation. *)

From stdpp Require Export prelude gmap strings sorting.
From stdpp Require Import pretty.

(** ** Fallible code *)

(** Rust's [Result<A, E>]. *)
Inductive result (E A : Type) : Type :=
| Ok (a : A)
| Err (e : E).
Arguments Ok {E A} a.
Arguments Err {E A} e.

Declare Scope haystack_scope.
Delimit Scope haystack_scope with haystack.
Open Scope haystack_scope.

(** The [?] operator: evaluate, and leave the function on an error. *)
Notation "'let?' x := e 'in' k" :=
  (match e with Ok x => k | Err err => Err err end)
  (at level 10, x pattern, e at level 100, k at level 200,
   format "'[v' 'let?'  x  :=  e  'in' '/' k ']'") : haystack_scope.

(** The same in code that may also panic ([None]). *)
Notation "'let!' x := e 'in' k" :=
  (match e with Some (Ok x) => k | Some (Err err) => Some (Err err) | None => None end)
  (at level 10, x pattern, e at level 100, k at level 200,
   format "'[v' 'let!'  x  :=  e  'in' '/' k ']'") : haystack_scope.

Definition map_err {E F A} (f : E → F) (r : result E A) : result F A :=
  match r with Ok a => Ok a | Err e => Err (f e) end.

(** [Option::ok_or]. *)
Definition ok_or {E A} (o : option A) (e : E) : result E A :=
  match o with Some a => Ok a | None => Err e end.

(** [Result::ok]. *)
Definition to_option {E A} (r : result E A) : option A :=
  match r with Ok a => Some a | Err _ => None end.

Definition is_ok {E A} (r : result E A) : bool :=
  match r with Ok _ => true | Err _ => false end.

(** A [for] loop over a fallible body. *)
Fixpoint try_fold {E A S} (f : S → A → result E S) (s : S) (l : list A) : result E S :=
  match l with
  | [] => Ok s
  | a :: l => let? s := f s a in try_fold f s l
  end.

Lemma try_fold_app {E A S} (f : S → A → result E S) s l1 l2 :
  try_fold f s (l1 ++ l2) = let? s := try_fold f s l1 in try_fold f s l2.
Proof.
  revert s. induction l1 as [|a l1 IH]; intros s; simpl; [done|].
  destruct (f s a); simpl; auto.
Qed.

(** ** Machine integers

    [usize], [u64] and [u32] are kept as [N] with their bound written where
    the code checks it; [usize] is 64 bits wide. *)

Definition usize_max : N := (2 ^ 64 - 1)%N.
Definition u64_max : N := (2 ^ 64 - 1)%N.
Definition u32_max : N := (2 ^ 32 - 1)%N.

Definition checked_add (max a b : N) : option N :=
  if decide (a + b ≤ max)%N then Some (a + b)%N else None.
Definition saturating_add (a b : N) : N := N.min usize_max (a + b).
Definition saturating_mul (a b : N) : N := N.min usize_max (a * b).

Lemma checked_add_Some max a b c :
  checked_add max a b = Some c ↔ c = (a + b)%N ∧ (a + b ≤ max)%N.
Proof. unfold checked_add. case_decide; naive_solver. Qed.

Lemma checked_add_None max a b :
  checked_add max a b = None ↔ (max < a + b)%N.
Proof. unfold checked_add. case_decide; split; intros; first [done | lia]. Qed.

(** [Vec::len] and [str::len] as a [usize]. *)
Definition len {A} (l : list A) : N := N.of_nat (length l).
Definition str_len (s : string) : N := N.of_nat (String.length s).

Lemma len_app {A} (l k : list A) : len (l ++ k) = (len l + len k)%N.
Proof. unfold len. rewrite length_app. lia. Qed.
Lemma len_cons {A} (x : A) l : len (x :: l) = (1 + len l)%N.
Proof. unfold len. simpl. lia. Qed.
Lemma len_nil {A} : len (@nil A) = 0%N.
Proof. done. Qed.

(** [Vec::is_empty]. *)
Definition is_nil {A} (l : list A) : bool := match l with [] => true | _ => false end.
Lemma is_nil_true {A} (l : list A) : is_nil l = true ↔ l = [].
Proof. by destruct l. Qed.
Lemma is_nil_app {A} (l k : list A) : is_nil (l ++ k) = is_nil l && is_nil k.
Proof. by destruct l. Qed.
Lemma is_nil_concat {A B} (f : A → list B) (l : list A) :
  is_nil (concat (f <$> l)) = forallb (λ a, is_nil (f a)) l.
Proof. induction l as [|a l IH]; [done|]. cbn. rewrite is_nil_app. f_equal. exact IH. Qed.
Lemma is_nil_fmap {A B} (f : A → B) (l : list A) : is_nil (f <$> l) = is_nil l.
Proof. by destruct l. Qed.
Lemma is_nil_filter {A} (f : A → bool) (l : list A) :
  is_nil (List.filter f l) = forallb (λ a, negb (f a)) l.
Proof. induction l as [|a l IH]; [done|]. simpl. by destruct (f a). Qed.

(** [join]: the strings with a separator between them. *)
Fixpoint join (sep : string) (l : list string) : string :=
  match l with
  | [] => ""
  | [s] => s
  | s :: l => s +:+ sep +:+ join sep l
  end.

(** The interval [lo, lo + n) in order. *)
Definition seqN (lo n : N) : list N := N.of_nat <$> seq (N.to_nat lo) (N.to_nat n).

Lemma length_seqN lo n : length (seqN lo n) = N.to_nat n.
Proof. unfold seqN. by rewrite length_fmap, length_seq. Qed.

Lemma lookup_seqN lo n i v :
  seqN lo n !! i = Some v ↔ v = (lo + N.of_nat i)%N ∧ (N.of_nat i < n)%N.
Proof.
  unfold seqN. rewrite list_lookup_fmap_Some. setoid_rewrite lookup_seq. split.
  - intros (k & -> & -> & Hlt). lia.
  - intros (-> & Hlt). exists (N.to_nat lo + i). lia.
Qed.

Lemma seqN_app lo n m : seqN lo (n + m) = seqN lo n ++ seqN (lo + n) m.
Proof.
  unfold seqN. rewrite N2Nat.inj_add, seq_app, fmap_app. do 2 f_equal.
  by rewrite N2Nat.inj_add.
Qed.

Lemma elem_of_seqN lo n v : v ∈ seqN lo n ↔ (lo ≤ v < lo + n)%N.
Proof.
  rewrite list_elem_of_lookup. setoid_rewrite lookup_seqN. split.
  - intros (i & -> & ?). lia.
  - intros [? ?]. exists (N.to_nat (v - lo)). lia.
Qed.

Lemma seqN_1 lo : seqN lo 1 = [lo].
Proof. unfold seqN. simpl. by rewrite N2Nat.id. Qed.

Lemma NoDup_seqN lo n : NoDup (seqN lo n).
Proof. unfold seqN. apply NoDup_fmap_2; [apply _|apply NoDup_seq]. Qed.

Lemma len_fmap {A B} (f : A → B) l : len (f <$> l) = len l.
Proof. unfold len. by rewrite length_fmap. Qed.

(** ** Partial maps over lists *)

Lemma NoDup_omap {A B} (f : A → option B) (l : list A) :
  (∀ x y b, x ∈ l → y ∈ l → f x = Some b → f y = Some b → x = y) →
  NoDup l → NoDup (omap f l).
Proof.
  intros Hinj. induction 1 as [|x l Hx Hnd IH]; simpl; [constructor|].
  assert (NoDup (omap f l)) as Hl.
  { apply IH. intros a b c Ha Hb. apply Hinj; by right. }
  destruct (f x) as [b|] eqn:Hb; [|done]. constructor; [|done].
  intros (y & Hy & Hfy)%list_elem_of_omap. apply Hx.
  rewrite (Hinj x y b); [done|left|by right|done|done].
Qed.

Lemma list_filter_all {A} (P : A → Prop) `{∀ x, Decision (P x)} (l : list A) :
  (∀ x, x ∈ l → P x) → filter P l = l.
Proof.
  induction l as [|a l IH]; intros Hall; [done|].
  rewrite filter_cons_True by (apply Hall; left). f_equal. apply IH. intros x Hx. apply Hall. by right.
Qed.
Lemma list_filter_none {A} (P : A → Prop) `{∀ x, Decision (P x)} (l : list A) :
  (∀ x, x ∈ l → ¬ P x) → filter P l = [].
Proof.
  induction l as [|a l IH]; intros Hall; [done|].
  rewrite filter_cons_False by (apply Hall; left). apply IH. intros x Hx. apply Hall. by right.
Qed.
Lemma list_nil_iff {A} (l : list A) : l = [] ↔ ∀ x, x ∉ l.
Proof. split; [intros ->; by intros x ?%elem_of_nil|apply elem_of_nil_inv]. Qed.

Lemma omap_fmap_Some {A B C} (f : A → option B) (g : B → C) (l : list A) :
  g <$> omap f l = omap (λ a, g <$> f a) l.
Proof. induction l as [|a l IH]; [done|]. cbn. destruct (f a); cbn; [f_equal|]; exact IH. Qed.

Lemma elem_of_concat {A} (x : A) (ls : list (list A)) :
  x ∈ concat ls ↔ ∃ l, l ∈ ls ∧ x ∈ l.
Proof.
  induction ls as [|l ls IH]; cbn.
  - setoid_rewrite elem_of_nil. naive_solver.
  - rewrite elem_of_app, IH. setoid_rewrite elem_of_cons. naive_solver.
Qed.

Lemma omap_compose {A B C} (f : A → option B) (g : B → option C) (l : list A) :
  omap g (omap f l) = omap (λ a, f a ≫= g) l.
Proof.
  induction l as [|a l IH]; [done|]. cbn. destruct (f a) as [b|]; cbn; [|exact IH].
  destruct (g b); [f_equal|]; exact IH.
Qed.

Lemma omap_ext_in {A B} (f g : A → option B) (l : list A) :
  (∀ a, a ∈ l → f a = g a) → omap f l = omap g l.
Proof.
  induction l as [|a l IH]; intros Hfg; [done|]. cbn. rewrite (Hfg a) by left.
  assert (IH' : omap f l = omap g l) by (apply IH; intros; apply Hfg; by right).
  destruct (g a); [f_equal|]; exact IH'.
Qed.

(** ** Closures of relations *)

Lemma tc_iff {A} (R1 R2 : relation A) x y : (∀ a b, R1 a b ↔ R2 a b) → tc R1 x y ↔ tc R2 x y.
Proof.
  intros Heq. split; induction 1 as [a b Hab|a b c Hab _ IH];
    first [by apply tc_once, Heq | eapply tc_l; [by apply Heq|exact IH]].
Qed.
Lemma rtc_iff {A} (R1 R2 : relation A) x y : (∀ a b, R1 a b ↔ R2 a b) → rtc R1 x y ↔ rtc R2 x y.
Proof.
  intros Heq. split; induction 1 as [a|a b c Hab _ IH];
    first [apply rtc_refl | eapply rtc_l; [by apply Heq|exact IH]].
Qed.

(** ** Iteration order of hash maps

    [std::collections::HashMap] iterates in an unspecified order.  The models
    take that order as a parameter, an arbitrary enumeration of the bindings;
    no theorem depends on which one it is. *)
Class HashOrder : Type :=
  hash_iter : ∀ (K V : Type) `{Countable K}, gmap K V → list (K * V).
Arguments hash_iter {_} {K V _ _} m : rename.

Class HashOrderLaws `{HashOrder} : Prop :=
  hash_iter_perm : ∀ (K V : Type) `{Countable K} (m : gmap K V),
    hash_iter m ≡ₚ map_to_list m.
Arguments hash_iter_perm {_ _} {K V _ _} m : rename.

(** One admissible order, for the witnesses. *)
Definition canonical_order : HashOrder := λ K V _ _ m, map_to_list m.
Lemma canonical_order_laws : @HashOrderLaws canonical_order.
Proof. by intros K V ? ? m. Qed.

Section hash_order.
Context `{HashOrderLaws}.
Context {K V : Type} `{Countable K}.
Implicit Types m : gmap K V.

Definition hash_keys m : list K := (hash_iter m).*1.
Definition hash_values m : list V := (hash_iter m).*2.

Lemma elem_of_hash_iter m k v : (k, v) ∈ hash_iter m ↔ m !! k = Some v.
Proof. rewrite hash_iter_perm. apply elem_of_map_to_list. Qed.

Lemma NoDup_hash_keys m : NoDup (hash_keys m).
Proof. unfold hash_keys. rewrite hash_iter_perm. apply NoDup_fst_map_to_list. Qed.

Lemma NoDup_hash_iter m : NoDup (hash_iter m).
Proof. rewrite hash_iter_perm. apply NoDup_map_to_list. Qed.

Lemma elem_of_hash_keys m k : k ∈ hash_keys m ↔ is_Some (m !! k).
Proof.
  unfold hash_keys. rewrite list_elem_of_fmap. split.
  - intros [[k' v] [-> Hin]]. apply elem_of_hash_iter in Hin. by eexists.
  - intros [v Hv]. exists (k, v). split; [done|]. by apply elem_of_hash_iter.
Qed.

Lemma NoDup_hash_values m :
  (∀ k1 k2 v, m !! k1 = Some v → m !! k2 = Some v → k1 = k2) → NoDup (hash_values m).
Proof.
  intros Hinj. unfold hash_values. rewrite hash_iter_perm.
  apply NoDup_fmap_2_strong; [|apply NoDup_map_to_list].
  intros [k1 v1] [k2 v2] Hk1%elem_of_map_to_list Hk2%elem_of_map_to_list Heq. simpl in Heq.
  subst v2. by rewrite (Hinj k1 k2 v1).
Qed.
Lemma elem_of_hash_values m v : v ∈ hash_values m ↔ ∃ k, m !! k = Some v.
Proof.
  unfold hash_values. rewrite list_elem_of_fmap. split.
  - intros [[k v'] [-> Hin]]. exists k. by apply elem_of_hash_iter in Hin.
  - intros [k Hv]. exists (k, v). split; [done|]. by apply elem_of_hash_iter.
Qed.
End hash_order.

(** ** Ordered maps

    A [BTreeMap<String, V>] is a finite map enumerated in byte order of the
    keys. *)
Definition key_le {V} (a b : string * V) : Prop := String.le a.1 b.1.
#[export] Instance key_le_dec {V} : RelDecision (@key_le V).
Proof. intros a b. unfold key_le. apply _. Defined.

Definition btree_iter {V} (m : gmap string V) : list (string * V) :=
  merge_sort key_le (map_to_list m).

#[export] Instance key_le_total {V} : Total (@key_le V).
Proof. intros a b. unfold key_le. apply String.le_total. Qed.
#[export] Instance key_le_trans {V} : Transitive (@key_le V).
Proof. intros a b c. unfold key_le. by etrans. Qed.

Lemma btree_iter_perm {V} (m : gmap string V) : btree_iter m ≡ₚ map_to_list m.
Proof. apply merge_sort_Permutation. Qed.

Lemma btree_iter_sorted {V} (m : gmap string V) : StronglySorted key_le (btree_iter m).
Proof. apply StronglySorted_merge_sort; apply _. Qed.

Lemma elem_of_btree_iter {V} (m : gmap string V) k v :
  (k, v) ∈ btree_iter m ↔ m !! k = Some v.
Proof. rewrite btree_iter_perm. apply elem_of_map_to_list. Qed.

Lemma NoDup_btree_keys {V} (m : gmap string V) : NoDup (btree_iter m).*1.
Proof. rewrite btree_iter_perm. apply NoDup_fst_map_to_list. Qed.

(** ** Automation

    The database [haystack] holds the length equations of lists counted in
    [N] and the absence of duplicates in the enumerations of maps. *)
Create HintDb haystack.
#[export] Hint Rewrite @len_app @len_cons @len_nil @len_fmap : haystack.
#[export] Hint Resolve NoDup_hash_keys NoDup_hash_iter NoDup_btree_keys NoDup_seqN : haystack.

(** Arithmetic on lengths. *)
Ltac len_lia := autorewrite with haystack in *; lia.

(** Follows the successful outcome of a [?] or of an option in the goal;
    closes the goal on the other one. *)
Tactic Notation "on_ok" constr(e) "as" simple_intropattern(pat) ident(H) :=
  destruct e as pat eqn:H; [|done].
