(* ===== verification/Floats.v ===== *)
(** * Binary64 floats by their bits

    [f64] is a 64-bit pattern.  [partial_cmp] is the IEEE 754 comparison the
    filter evaluator uses and [total_cmp] the total order of [f64::total_cmp]
    that keys the value index; both are computed from the bits, the second
    with the shifts and the exclusive or of its implementation.  The lemmas
    say where the two orders agree: everywhere but on NaN and on the two
    zeros. *)

From S2P Require Import Prelude.

Module F64.

(** A bit pattern; the bound is carried so that equal bits are equal floats. *)
Record f64 : Type := mk {
  to_bits : Z;
  to_bits_lt : bool_decide (0 ≤ to_bits < 2 ^ 64)%Z
}.

Lemma to_bits_inj (a b : f64) : to_bits a = to_bits b → a = b.
Proof.
  destruct a as [x Hx], b as [y Hy]; simpl; intros ->.
  f_equal. apply proof_irrel.
Qed.

#[global] Instance f64_eq_dec : EqDecision f64.
Proof.
  intros a b. destruct (decide (to_bits a = to_bits b)) as [E|E].
  - left. by apply to_bits_inj.
  - right. congruence.
Defined.

Lemma from_bits_lt (n : Z) : bool_decide (0 ≤ n `mod` 2 ^ 64 < 2 ^ 64)%Z.
Proof. apply bool_decide_pack. by apply Z.mod_pos_bound. Qed.

(** [f64::from_bits]. *)
Definition from_bits (n : Z) : f64 := mk (n `mod` 2 ^ 64) (from_bits_lt n).

(** The fields of the IEEE 754 format. *)
Definition sign_bit (a : f64) : bool := bool_decide (2 ^ 63 ≤ to_bits a)%Z.
Definition magnitude (a : f64) : Z := to_bits a `mod` 2 ^ 63.
Definition is_nan (a : f64) : bool := bool_decide (0x7FF0000000000000 < magnitude a)%Z.
(** [x == 0.0]: both signs of zero. *)
Definition is_zero (a : f64) : bool := bool_decide (magnitude a = 0)%Z.

(** The value's rank among the reals: for numbers that are not NaN the
    magnitudes order as the bit patterns do. *)
Definition ieee_rank (a : f64) : Z :=
  if sign_bit a then (- magnitude a)%Z else magnitude a.

(** [f64::partial_cmp]. *)
Definition partial_cmp (a b : f64) : option comparison :=
  if is_nan a || is_nan b then None else Some (ieee_rank a ?= ieee_rank b)%Z.

(** The [==] of [f64]. *)
Definition float_eq (a b : f64) : bool :=
  match partial_cmp a b with Some Eq => true | _ => false end.

(** [self.to_bits() as i64]. *)
Definition as_i64 (n : Z) : Z := if decide (2 ^ 63 ≤ n)%Z then (n - 2 ^ 64)%Z else n.

(** The key of [f64::total_cmp]: [left ^= (((left >> 63) as u64) >> 1) as i64]. *)
Definition total_key (a : f64) : Z :=
  let left := as_i64 (to_bits a) in
  Z.lxor left (Z.shiftr (Z.shiftr left 63 `mod` 2 ^ 64) 1).

(** [f64::total_cmp]. *)
Definition total_cmp (a b : f64) : comparison := (total_key a ?= total_key b)%Z.

(** The [<] and [>] of [f64]. *)
Definition float_lt (a b : f64) : bool :=
  match partial_cmp a b with Some Lt => true | _ => false end.
Definition float_gt (a b : f64) : bool :=
  match partial_cmp a b with Some Gt => true | _ => false end.

(** The binary64 number nearest to [q * 2 ^ e] (ties to even), where [q] is
    positive, [sticky] says that a positive fraction below [q] was cut off
    (then [q] has at least 54 bits) and the result is a normal number. *)
Definition round_normal (q : Z) (sticky : bool) (e : Z) : f64 :=
  let top := Z.log2 q in
  if decide (top ≤ 52)%Z
  then from_bits ((top + e + 1023) * 2 ^ 52 + (q * 2 ^ (52 - top) - 2 ^ 52))
  else
    let cut := (top - 52)%Z in
    let m := (q `div` 2 ^ cut)%Z in
    let rest := (q `mod` 2 ^ cut)%Z in
    let half := (2 ^ (cut - 1))%Z in
    let up := bool_decide (half < rest)%Z
              || bool_decide (rest = half) && (sticky || Z.odd m) in
    from_bits ((top + e + 1023) * 2 ^ 52 + (m - 2 ^ 52) + (if up then 1 else 0)).

(** [n as f64] for a [usize]. *)
Definition of_usize (n : N) : f64 :=
  if decide (n = 0)%N then from_bits 0 else round_normal (Z.of_N n) false 0.

(** [(a as f64) / (b as f64)] for counts, [b] positive: the quotient of two
    such numbers is normal or zero. *)
Definition significand (a : f64) : Z := (to_bits a `mod` 2 ^ 52 + 2 ^ 52)%Z.
Definition exponent (a : f64) : Z := (magnitude a `div` 2 ^ 52 - 1075)%Z.
Definition div_counts (a b : N) : f64 :=
  if decide (a = 0)%N then from_bits 0
  else
    let x := of_usize a in
    let y := of_usize b in
    let num := (significand x * 2 ^ 55)%Z in
    let den := significand y in
    round_normal (num `div` den) (bool_decide (num `mod` den ≠ 0)%Z)
      (exponent x - exponent y - 55).

Lemma to_bits_bound (a : f64) : (0 ≤ to_bits a < 2 ^ 64)%Z.
Proof. destruct a as [n Hn]; simpl. by apply bool_decide_unpack in Hn. Qed.

Lemma magnitude_bound (a : f64) : (0 ≤ magnitude a < 2 ^ 63)%Z.
Proof. by apply Z.mod_pos_bound. Qed.

Lemma to_bits_split (a : f64) :
  to_bits a = ((if sign_bit a then 2 ^ 63 else 0) + magnitude a)%Z.
Proof.
  pose proof (to_bits_bound a). unfold sign_bit, magnitude.
  case_bool_decide.
  - rewrite Z.mod_eq by done.
    replace (to_bits a `div` 2 ^ 63)%Z with 1%Z; [lia|].
    apply Z.div_unique with (to_bits a - 2 ^ 63)%Z; lia.
  - rewrite Z.mod_small by lia. lia.
Qed.

(** Complementing the low 63 bits of a negative [i64]. *)
Lemma lxor_low_ones (s : Z) :
  (- 2 ^ 63 ≤ s < 0)%Z → Z.lxor s (2 ^ 63 - 1) = (- 2 ^ 63 - 1 - s)%Z.
Proof.
  intros Hs. set (t := Z.lnot s).
  assert (Ht : (0 ≤ t < 2 ^ 63)%Z) by (unfold t, Z.lnot; lia).
  replace s with (Z.lnot t) by (unfold t; apply Z.lnot_involutive).
  replace (2 ^ 63 - 1)%Z with (Z.ones 63) by done.
  rewrite <-Z.lnot_lxor_l.
  assert (E : Z.lxor t (Z.ones 63) = (Z.ones 63 - t)%Z).
  { rewrite Z.sub_nocarry_ldiff.
    - apply Z.bits_inj'. intros n Hn.
      rewrite Z.lxor_spec, Z.ldiff_spec.
      destruct (decide (n < 63)%Z).
      + rewrite Z.ones_spec_low by lia. by destruct (Z.testbit t n).
      + rewrite Z.ones_spec_high by lia.
        rewrite (Z.bits_above_log2 t n); [done|lia|].
        destruct (decide (t = 0)%Z) as [->|]; [simpl; lia|].
        apply Z.log2_lt_pow2; [lia|].
        eapply Z.lt_le_trans; [apply Ht|]. apply Z.pow_le_mono_r; lia.
    - apply Z.ldiff_ones_r_low; [lia|].
      destruct (decide (t = 0)%Z) as [->|]; [simpl; lia|].
      apply Z.log2_lt_pow2; lia. }
  rewrite E. unfold Z.lnot. rewrite Z.ones_equiv. lia.
Qed.

(** The total key in closed form: negative patterns are mirrored below zero. *)
Lemma total_key_eq (a : f64) :
  total_key a = if sign_bit a then (- 1 - magnitude a)%Z else magnitude a.
Proof.
  pose proof (magnitude_bound a) as Hm. pose proof (to_bits_split a) as Hs.
  unfold total_key, as_i64. unfold sign_bit in *.
  destruct (decide (2 ^ 63 ≤ to_bits a)%Z) as [Hge|Hlt].
  - rewrite bool_decide_eq_true_2 in * by done.
    set (s := (to_bits a - 2 ^ 64)%Z).
    assert (Hrange : (- 2 ^ 63 ≤ s < 0)%Z) by (unfold s; lia).
    assert (Z.shiftr s 63 = (-1)%Z) as ->.
    { rewrite Z.shiftr_div_pow2 by lia. symmetry.
      apply Z.div_unique with (s + 2 ^ 63)%Z; lia. }
    change (Z.shiftr ((-1) `mod` 2 ^ 64) 1) with (2 ^ 63 - 1)%Z.
    rewrite lxor_low_ones by done. unfold s. lia.
  - rewrite bool_decide_eq_false_2 in * by done.
    assert (Z.shiftr (to_bits a) 63 = 0%Z) as ->.
    { rewrite Z.shiftr_div_pow2 by lia. apply Z.div_small. lia. }
    change (Z.shiftr (0 `mod` 2 ^ 64) 1) with 0%Z. rewrite Z.lxor_0_r. lia.
Qed.

(** [total_cmp] is equality of bits. *)
Lemma total_cmp_Eq (a b : f64) : total_cmp a b = Eq ↔ a = b.
Proof.
  unfold total_cmp. rewrite Z.compare_eq_iff, !total_key_eq.
  pose proof (magnitude_bound a). pose proof (magnitude_bound b).
  pose proof (to_bits_split a). pose proof (to_bits_split b).
  split; [|by intros ->]. intros E. apply to_bits_inj.
  destruct (sign_bit a), (sign_bit b); lia.
Qed.

(** On numbers that differ as reals both orders agree. *)
Lemma partial_lt_total (a b : f64) :
  partial_cmp a b = Some Lt → (total_key a < total_key b)%Z.
Proof.
  unfold partial_cmp. destruct (is_nan a || is_nan b); [done|].
  intros [= E]. apply (proj1 (Z.compare_lt_iff _ _)) in E. rewrite !total_key_eq.
  pose proof (magnitude_bound a). pose proof (magnitude_bound b).
  unfold ieee_rank in E. destruct (sign_bit a), (sign_bit b); lia.
Qed.

(** Numbers equal as reals have equal bits, unless they are zeros. *)
Lemma partial_eq_bits (a b : f64) :
  partial_cmp a b = Some Eq → is_zero b = false → a = b.
Proof.
  unfold partial_cmp. destruct (is_nan a || is_nan b); [done|].
  intros [= E] Hz%bool_decide_eq_false_1. apply Z.compare_eq_iff in E.
  pose proof (magnitude_bound a). pose proof (magnitude_bound b).
  pose proof (to_bits_split a). pose proof (to_bits_split b).
  apply to_bits_inj. unfold ieee_rank in E.
  destruct (sign_bit a), (sign_bit b); lia.
Qed.

Lemma partial_cmp_antisym (a b : f64) :
  partial_cmp b a = CompOpp <$> partial_cmp a b.
Proof.
  unfold partial_cmp. rewrite orb_comm.
  destruct (is_nan a || is_nan b); [done|]. simpl. by rewrite Z.compare_antisym.
Qed.

Lemma partial_gt_total (a b : f64) :
  partial_cmp a b = Some Gt → (total_key b < total_key a)%Z.
Proof.
  intros E. apply partial_lt_total. by rewrite partial_cmp_antisym, E.
Qed.

End F64.
