(* ===== verification/Kinds.v ===== *)
(** * Values, dicts and grids

    The value type [Kind] of [haystack-core/src/kinds] with the equality its
    [PartialEq] implementations define, and the dict and grid containers of
    [haystack-core/src/data].

    Strings are UTF-8 bytes ([string]); [HashMap<String, Kind>] is a [gmap];
    the [scan_bound] field of [HDict], a bound on allocated buckets, is not
    modelled.  The values of the [chrono] crate are kept by what its
    comparison uses: a date by its day number, a time by seconds and
    fraction, a date-time by its instant in UTC (the offset is carried and
    ignored by comparison, as [DateTime]'s [PartialEq] and [PartialOrd] do). *)

From S2P Require Import Prelude Floats.

Record Number : Type := mkNumber { num_val : F64.f64; num_unit : option string }.
Record HRef : Type := mkHRef { ref_val : string; ref_dis : option string }.
Record Coord : Type := mkCoord { coord_lat : F64.f64; coord_lng : F64.f64 }.
Record XStr : Type := mkXStr { xstr_type : string; xstr_val : string }.
Record NominalScalar : Type := mkNominal {
  nom_spec : string; nom_catalog : string; nom_revision : string; nom_text : string }.
Record NaiveTime : Type := mkTime { time_secs : Z; time_frac : Z }.
Record HDateTime : Type := mkDateTime { dt_instant : Z; dt_offset : Z; dt_tz : string }.

(** [HCol] and [HGrid], over the type of the values they hold. *)
Record HColOf (A : Type) : Type := mkHCol { col_name : string; col_meta : gmap string A }.
Arguments mkHCol {A}.
Arguments col_name {A}.
Arguments col_meta {A}.
Record HGridOf (A : Type) : Type := mkHGrid {
  grid_meta : gmap string A;
  grid_cols : list (HColOf A);
  grid_rows : list (gmap string A) }.
Arguments mkHGrid {A}.
Arguments grid_meta {A}.
Arguments grid_cols {A}.
Arguments grid_rows {A}.

#[warnings="-register-all"]
Inductive Kind : Type :=
| KNull
| KNone
| KInt (v : Z)
| KFloat (v : F64.f64)
| KBuf (v : list Byte.byte)
| KNominal (v : NominalScalar)
| KMarker
| KNA
| KRemove
| KBool (v : bool)
| KNumber (v : Number)
| KStr (v : string)
| KRef (v : HRef)
| KUri (v : string)
| KSymbol (v : string)
| KDate (v : Z)
| KTime (v : NaiveTime)
| KDateTime (v : HDateTime)
| KCoord (v : Coord)
| KXStr (v : XStr)
| KList (v : list Kind)
| KDict (v : gmap string Kind)
| KGrid (v : HGridOf Kind).

Abbreviation HDict := (gmap string Kind).
Abbreviation HCol := (HColOf Kind).
Abbreviation HGrid := (HGridOf Kind).

#[export] Instance Number_eq_dec : EqDecision Number.
Proof. solve_decision. Defined.
#[export] Instance Coord_eq_dec : EqDecision Coord.
Proof. solve_decision. Defined.
#[export] Instance XStr_eq_dec : EqDecision XStr.
Proof. solve_decision. Defined.
#[export] Instance NominalScalar_eq_dec : EqDecision NominalScalar.
Proof. solve_decision. Defined.
#[export] Instance NaiveTime_eq_dec : EqDecision NaiveTime.
Proof. solve_decision. Defined.
#[export] Instance byte_eq_dec : EqDecision Byte.byte := Byte.byte_eq_dec.

(** ** Equality *)

(** [Vec::eq]. *)
Fixpoint vec_eqb {A} (f : A → A → bool) (l k : list A) : bool :=
  match l, k with
  | [], [] => true
  | x :: l, y :: k => f x y && vec_eqb f l k
  | _, _ => false
  end.

(** [HashMap::eq]: the same length and every binding found in the other. *)
Definition hash_eqb {A} (f : A → A → bool) (d e : gmap string A) : bool :=
  bool_decide (size d = size e) &&
  map_fold (λ k x acc, (match e !! k with Some y => f x y | None => false end) && acc) true d.

(** [HRef::eq]: the display name is cosmetic. *)
Definition HRef_eqb (a b : HRef) : bool := bool_decide (ref_val a = ref_val b).

(** [HDateTime::eq]: the same instant and the same zone name. *)
Definition HDateTime_eqb (a b : HDateTime) : bool :=
  bool_decide (dt_instant a = dt_instant b) && bool_decide (dt_tz a = dt_tz b).

(** [Number::eq]: all float bits and the exact unit. *)
Definition Number_eqb (a b : Number) : bool :=
  bool_decide (F64.to_bits (num_val a) = F64.to_bits (num_val b)) &&
  bool_decide (num_unit a = num_unit b).

(** The derived [PartialEq] of [Kind], [HDict], [HCol] and [HGrid]. *)
Fixpoint kind_eqb (a b : Kind) {struct a} : bool :=
  match a, b with
  | KNull, KNull | KNone, KNone | KMarker, KMarker | KNA, KNA | KRemove, KRemove => true
  | KInt x, KInt y => bool_decide (x = y)
  | KFloat x, KFloat y => bool_decide (F64.to_bits x = F64.to_bits y)
  | KBuf x, KBuf y => bool_decide (x = y)
  | KNominal x, KNominal y => bool_decide (x = y)
  | KBool x, KBool y => bool_decide (x = y)
  | KNumber x, KNumber y => Number_eqb x y
  | KStr x, KStr y => bool_decide (x = y)
  | KRef x, KRef y => HRef_eqb x y
  | KUri x, KUri y => bool_decide (x = y)
  | KSymbol x, KSymbol y => bool_decide (x = y)
  | KDate x, KDate y => bool_decide (x = y)
  | KTime x, KTime y => bool_decide (x = y)
  | KDateTime x, KDateTime y => HDateTime_eqb x y
  | KCoord x, KCoord y => bool_decide (x = y)
  | KXStr x, KXStr y => bool_decide (x = y)
  | KList x, KList y => vec_eqb kind_eqb x y
  | KDict x, KDict y => hash_eqb kind_eqb x y
  | KGrid x, KGrid y =>
      hash_eqb kind_eqb (grid_meta x) (grid_meta y) &&
      vec_eqb (λ c e, bool_decide (col_name c = col_name e) &&
                      hash_eqb kind_eqb (col_meta c) (col_meta e))
              (grid_cols x) (grid_cols y) &&
      vec_eqb (hash_eqb kind_eqb) (grid_rows x) (grid_rows y)
  | _, _ => false
  end.

(** [Number::partial_cmp]: numbers of different units are not comparable. *)
Definition Number_partial_cmp (a b : Number) : option comparison :=
  if decide (num_unit a = num_unit b)
  then F64.partial_cmp (num_val a) (num_val b)
  else None.

(** [NaiveTime]'s order. *)
Definition NaiveTime_cmp (a b : NaiveTime) : comparison :=
  match (time_secs a ?= time_secs b)%Z with
  | Eq => (time_frac a ?= time_frac b)%Z
  | c => c
  end.

(** ** HDict *)

Module HDict.

Definition new : HDict := ∅.
Definition has (d : HDict) (name : string) : bool := bool_decide (is_Some (d !! name)).
Definition get (d : HDict) (name : string) : option Kind := d !! name.
Definition missing (d : HDict) (name : string) : bool := negb (has d name).

Definition id (d : HDict) : option HRef :=
  match d !! "id" with Some (KRef r) => Some r | _ => None end.

Definition dis (d : HDict) : option string :=
  match d !! "dis" with
  | Some (KStr s) => Some s
  | _ => match id d with Some r => ref_dis r | None => None end
  end.

Definition is_empty (d : HDict) : bool := bool_decide (d = ∅).
Definition length (d : HDict) : N := N.of_nat (size d).
Definition set (d : HDict) (name : string) (v : Kind) : HDict := <[name := v]> d.
Definition remove_tag (d : HDict) (name : string) : option Kind * HDict :=
  (d !! name, delete name d).

Section order.
Context `{HashOrder}.

(** [HDict::iter]. *)
Definition iter (d : HDict) : list (string * Kind) := hash_iter d.
(** [HDict::tag_names]. *)
Definition tag_names (d : HDict) : list string := hash_keys d.
(** [HDict::sorted_tags]. *)
Definition sorted_tags (d : HDict) : list (string * Kind) := merge_sort key_le (iter d).

(** [HDict::merge]: overwrite, or delete on [Remove]. *)
Definition merge (d other : HDict) : HDict :=
  foldl (λ d '(k, v), match v with KRemove => delete k d | _ => set d k v end)
        d (hash_iter other).
End order.

Section lemmas.
Context `{HashOrderLaws}.
Implicit Types d e : HDict.

Lemma elem_of_iter d k v : (k, v) ∈ iter d ↔ d !! k = Some v.
Proof. apply elem_of_hash_iter. Qed.

Lemma elem_of_tag_names d k : k ∈ tag_names d ↔ is_Some (d !! k).
Proof. apply elem_of_hash_keys. Qed.

(** What a patch leaves at a tag. *)
Definition patched (old new : option Kind) : option Kind :=
  match new with
  | Some KRemove => None
  | Some v => Some v
  | None => old
  end.

Lemma merge_lookup d e k : merge d e !! k = patched (d !! k) (e !! k).
Proof.
  unfold merge.
  assert (Hgen : ∀ l d, NoDup l.*1 →
    foldl (λ d '(k, v), match v with KRemove => delete k d | _ => set d k v end) d l !! k
    = patched (d !! k) (list_to_map (M:=HDict) l !! k)).
  { clear d e. induction l as [|[k' v] l IH]; intros d Hnd; [done|].
    apply NoDup_cons in Hnd as [Hnotin Hnd]. simpl.
    rewrite IH by done. destruct (decide (k' = k)) as [->|Hne].
    - rewrite lookup_insert_eq, (not_elem_of_list_to_map_1 l k) by done.
      destruct v; simpl; unfold set; by simplify_map_eq.
    - rewrite lookup_insert_ne by done.
      destruct v; simpl; unfold set; by simplify_map_eq. }
  rewrite Hgen by apply NoDup_hash_keys.
  rewrite (list_to_map_proper _ (map_to_list e)) by
    (first [apply NoDup_hash_keys | apply hash_iter_perm]).
  by rewrite list_to_map_to_list.
Qed.

Lemma merge_empty d : merge d ∅ = d.
Proof. apply map_eq. intros k. by rewrite merge_lookup, lookup_empty. Qed.

Lemma id_lookup d r : id d = Some r ↔ d !! "id" = Some (KRef r).
Proof. unfold id. split; [|by intros ->]. repeat case_match; naive_solver. Qed.
End lemmas.

End HDict.

(** The grid constructors used by queries. *)
Module HGrid.
Definition new : HGrid := mkHGrid ∅ [] [].
Definition col_new (name : string) : HCol := mkHCol name ∅.
Definition from_parts (meta : HDict) (cols : list HCol) (rows : list HDict) : HGrid :=
  mkHGrid meta cols rows.
End HGrid.
