(* ===== verification/Size.v ===== *)
(** * Bounded accounting of retained values

    [haystack-core/src/graph/size.rs]: a budget of work and bytes that is
    charged before a value is cloned, and the size of a changelog entry.  The
    recursion of [value] and [dict] is cut by the budget's depth, which is
    the fuel of the model.  The accounting is characterised by a cost
    function ([value_at_pay], [dict_at_pay]): charging piece by piece
    succeeds exactly when the whole cost fits, whatever order the dicts are
    enumerated in. *)

From S2P Require Import Prelude Floats Kinds.

Module ValueBudget.

Record t : Type := mk {
  work_left : N; bytes_left : N; initial_bytes : N; max_depth : N }.

Definition new (work bytes depth : N) : t := mk work bytes bytes depth.

(** [ValueBudget::charge]. *)
Definition charge (work bytes : N) (b : t) : result unit t :=
  if decide (work_left b < work ∨ bytes_left b < bytes)%N then Err ()
  else Ok (mk (work_left b - work) (bytes_left b - bytes) (initial_bytes b) (max_depth b)).

(** [ValueBudget::used_bytes]. *)
Definition used_bytes (b : t) : N := (initial_bytes b - bytes_left b)%N.

Definition opt_len (s : option string) : N :=
  match s with Some s => str_len s | None => 0%N end.

(** The bytes a value owns besides its children. *)
Definition own_bytes (v : Kind) : N :=
  match v with
  | KStr s => str_len s
  | KNumber n => opt_len (num_unit n)
  | KRef r => saturating_add (str_len (ref_val r)) (opt_len (ref_dis r))
  | KUri s => str_len s
  | KSymbol s => str_len s
  | KDateTime d => str_len (dt_tz d)
  | KXStr x => saturating_add (str_len (xstr_type x)) (str_len (xstr_val x))
  | KBuf l => len l
  | KNominal s =>
      saturating_add (saturating_add (saturating_add
        (str_len (nom_spec s)) (str_len (nom_catalog s)))
        (str_len (nom_revision s))) (str_len (nom_text s))
  | _ => 0%N
  end.

(** The levels left at nesting depth [depth]: none once it exceeds the limit. *)
Definition levels (max depth : N) : nat :=
  if decide (max < depth)%N then 0 else S (N.to_nat (max - depth)).

Section model.
Context `{HashOrder}.

(** [ValueBudget::dict] and [ValueBudget::value] with [n] levels left; the
    code's [depth + 1] at each call is one level less. *)
Fixpoint dict_at (n : nat) (d : HDict) (b : t) : result unit t :=
  match n with
  | 0 => Err ()
  | S n =>
      let? b := charge 1 128 b in
      try_fold (λ b '(name, v),
        let? b := charge (saturating_add (str_len name) 1) (saturating_add (str_len name) 64) b in
        value_at n v b) b (HDict.iter d)
  end
with value_at (n : nat) (v : Kind) (b : t) : result unit t :=
  match n with
  | 0 => Err ()
  | S n =>
      let? b := charge (saturating_add (own_bytes v) 1) (saturating_add (own_bytes v) 512) b in
      match v with
      | KList items => try_fold (λ b item, value_at n item b) b items
      | KDict d => dict_at n d b
      | KGrid g =>
          let? b := dict_at n (grid_meta g) b in
          let? b := try_fold (λ b c,
            let? b := charge (saturating_add (str_len (col_name c)) 1)
                             (saturating_add (str_len (col_name c)) 64) b in
            dict_at n (col_meta c) b) b (grid_cols g) in
          try_fold (λ b row, dict_at n row b) b (grid_rows g)
      | _ => Ok b
      end
  end.

Definition dict (b : t) (d : HDict) (depth : N) : result unit t :=
  dict_at (levels (max_depth b) depth) d b.
Definition value (b : t) (v : Kind) (depth : N) : result unit t :=
  value_at (levels (max_depth b) depth) v b.

(** [diff_bytes]. *)
Definition diff_bytes (id : string) (rows : list HDict) (limit : N) : option N :=
  to_option (
    let? b := charge 1 (saturating_add (str_len id) 256) (new usize_max limit 64) in
    let? b := try_fold (λ b row, dict b row 1) b rows in
    Ok (used_bytes b)).

(** [patch_diff_bytes]. *)
Definition patch_diff_bytes (id : string) (old changes : HDict) (limit : N) : option N :=
  to_option (
    let? b := charge 1 (saturating_add (str_len id) 384) (new usize_max limit 64) in
    let? b := dict b changes 1 in
    let? b := try_fold (λ b '(name, _),
      match HDict.get old name with
      | Some v =>
          let? b := charge (saturating_add (str_len name) 1)
                           (saturating_add (str_len name) 64) b in
          value b v 2
      | None => Ok b
      end) b (HDict.iter changes) in
    Ok (used_bytes b)).
End model.

(** ** The cost of a value *)

(** A cost in work and bytes; [None] for a value nested too deep. *)
Definition cost : Type := option (N * N).
Definition add_cost (x y : cost) : cost :=
  '(w, c) ← x; '(w', c') ← y; Some (w + w', c + c')%N.
Definition sum_cost {A} (f : A → cost) (l : list A) : cost :=
  foldr (λ a c, add_cost (f a) c) (Some (0, 0)%N) l.

(** Paying a whole cost at once. *)
Definition pay (c : cost) (b : t) : result unit t :=
  match c with Some (w, y) => charge w y b | None => Err () end.

#[global] Instance add_cost_comm : Comm (=) add_cost.
Proof. intros [[]|] [[]|]; simpl; try done; do 2 f_equal; lia. Qed.
#[global] Instance add_cost_assoc : Assoc (=) add_cost.
Proof. intros [[]|] [[]|] [[]|]; simpl; try done; do 2 f_equal; lia. Qed.

Lemma pay_add c c' b : pay (add_cost c c') b = let? b := pay c b in pay c' b.
Proof.
  destruct c as [[w y]|], c' as [[w' y']|]; simpl; unfold charge;
    repeat case_decide; simpl in *; try done; try lia; do 2 f_equal; lia.
Qed.

Lemma pay_Some w y b : pay (Some (w, y)) b = charge w y b.
Proof. done. Qed.

Lemma pay_zero b : pay (Some (0, 0)%N) b = Ok b.
Proof.
  unfold pay, charge. case_decide; [lia|]. rewrite !N.sub_0_r. by destruct b.
Qed.

#[global] Arguments pay : simpl never.
#[global] Arguments add_cost : simpl never.
#[global] Arguments charge : simpl never.

Lemma try_fold_pay {A} (step : t → A → result unit t) (f : A → cost) (l : list A) b :
  (∀ b a, a ∈ l → step b a = pay (f a) b) →
  try_fold step b l = pay (sum_cost f l) b.
Proof.
  revert b. induction l as [|a l IH]; intros b Hstep.
  - symmetry. apply pay_zero.
  - simpl. rewrite pay_add, Hstep by left. destruct (pay (f a) b); [|done].
    apply IH. intros b' a' Ha'. apply Hstep. by right.
Qed.

Lemma sum_cost_perm {A} (f : A → cost) (l k : list A) :
  l ≡ₚ k → sum_cost f l = sum_cost f k.
Proof.
  induction 1 as [|a l k _ IH|a b l|l k m _ IH1 _ IH2]; simpl;
    [done|by rewrite IH|by rewrite !assoc, (comm add_cost (f b)) by apply _|congruence].
Qed.

Section cost.
Context `{HashOrder}.

Fixpoint dict_cost (n : nat) (d : HDict) : cost :=
  match n with
  | 0 => None
  | S n => add_cost (Some (1, 128)%N) (sum_cost (λ '(name, v),
      add_cost (Some (saturating_add (str_len name) 1, saturating_add (str_len name) 64))
               (value_cost n v)) (HDict.iter d))
  end
with value_cost (n : nat) (v : Kind) : cost :=
  match n with
  | 0 => None
  | S n => add_cost
      (Some (saturating_add (own_bytes v) 1, saturating_add (own_bytes v) 512))
      match v with
      | KList items => sum_cost (value_cost n) items
      | KDict d => dict_cost n d
      | KGrid g =>
          add_cost (dict_cost n (grid_meta g)) (add_cost
            (sum_cost (λ c, add_cost
               (Some (saturating_add (str_len (col_name c)) 1,
                      saturating_add (str_len (col_name c)) 64))
               (dict_cost n (col_meta c))) (grid_cols g))
            (sum_cost (dict_cost n) (grid_rows g)))
      | _ => Some (0, 0)%N
      end
  end.

(** Piecewise charging pays exactly the cost. *)
Lemma dict_value_at_pay n :
  (∀ d b, dict_at n d b = pay (dict_cost n d) b) ∧
  (∀ v b, value_at n v b = pay (value_cost n v) b).
Proof.
  induction n as [|n [IHd IHv]]; [done|]. split.
  - intros d b. simpl. rewrite pay_add, pay_Some.
    destruct (charge 1 128 b); [|done]. apply try_fold_pay.
    intros b' [name v] _. rewrite pay_add, pay_Some.
    destruct (charge _ _ b'); [|done]. apply IHv.
  - intros v b. simpl. rewrite pay_add, pay_Some.
    destruct (charge _ _ b) as [b'|]; [|done].
    destruct v; rewrite ?pay_zero; auto using try_fold_pay.
    rewrite pay_add, IHd. destruct (pay _ b') as [b2|]; [|done].
    rewrite pay_add, (try_fold_pay _ (λ c, add_cost
               (Some (saturating_add (str_len (col_name c)) 1,
                      saturating_add (str_len (col_name c)) 64))
               (dict_cost n (col_meta c)))).
    2:{ intros b3 c _. rewrite pay_add, pay_Some. destruct (charge _ _ b3); [|done]. apply IHd. }
    destruct (pay _ b2); [|done]. auto using try_fold_pay.
Qed.
End cost.

#[global] Arguments levels : simpl never.

(** ** Bounds *)

Lemma pay_used c b b' :
  pay c b = Ok b' →
  (bytes_left b ≤ initial_bytes b)%N →
  (bytes_left b' ≤ initial_bytes b')%N ∧ initial_bytes b' = initial_bytes b ∧
  max_depth b' = max_depth b ∧ (used_bytes b ≤ used_bytes b')%N.
Proof.
  destruct c as [[w y]|]; [|done]. unfold pay, charge. case_decide; [done|].
  intros [= <-] Hle. unfold used_bytes. simpl. lia.
Qed.

Section bounds.
Context `{HashOrder}.

Lemma dict_pay b d depth :
  dict b d depth = pay (dict_cost (levels (max_depth b) depth) d) b.
Proof. apply dict_value_at_pay. Qed.
Lemma value_pay b v depth :
  value b v depth = pay (value_cost (levels (max_depth b) depth) v) b.
Proof. apply dict_value_at_pay. Qed.

Lemma charge_depth w y b b' : charge w y b = Ok b' → max_depth b' = max_depth b.
Proof. unfold charge. case_decide; [done|]. by intros [= <-]. Qed.

(** An entry's size as one payment. *)
Definition diff_cost (id : string) (rows : list HDict) : cost :=
  add_cost (Some (1, saturating_add (str_len id) 256)%N)
           (sum_cost (dict_cost (levels 64 1)) rows).

Lemma pay_depth c b b' : pay c b = Ok b' → max_depth b' = max_depth b.
Proof. destruct c as [[w y]|]; [apply charge_depth|done]. Qed.

(** Like [try_fold_pay], for steps that read the budget's depth limit. *)
Lemma try_fold_pay_depth {A} D (step : t → A → result unit t) (f : A → cost) (l : list A) b :
  max_depth b = D →
  (∀ b a, max_depth b = D → step b a = pay (f a) b) →
  try_fold step b l = pay (sum_cost f l) b.
Proof.
  intros Hb Hstep. revert b Hb. induction l as [|a l IH]; intros b Hb.
  - symmetry. apply pay_zero.
  - simpl. rewrite pay_add, Hstep by done. on_ok (pay (f a) b) as [b'|] Hp.
    apply IH. by rewrite (pay_depth _ _ _ Hp).
Qed.

Lemma diff_bytes_pay id rows limit :
  diff_bytes id rows limit =
  used_bytes <$> to_option (pay (diff_cost id rows) (new usize_max limit 64)).
Proof.
  unfold diff_bytes, diff_cost. rewrite pay_add, pay_Some.
  destruct (charge _ _ _) as [b|] eqn:Hc; [|done].
  apply charge_depth in Hc. simpl in Hc.
  rewrite (try_fold_pay_depth 64%N _ (dict_cost (levels 64 1))); [by destruct (pay _ b)|done|].
  intros b2 r Hb2. by rewrite dict_pay, Hb2.
Qed.

Definition previous_cost (old : HDict) (change : string * Kind) : cost :=
  match HDict.get old change.1 with
  | Some v => add_cost
      (Some (saturating_add (str_len change.1) 1, saturating_add (str_len change.1) 64))
      (value_cost (levels 64 2) v)
  | None => Some (0, 0)%N
  end.

Definition patch_cost (id : string) (old changes : HDict) : cost :=
  add_cost (Some (1, saturating_add (str_len id) 384)%N)
    (add_cost (dict_cost (levels 64 1) changes)
      (sum_cost (previous_cost old) (HDict.iter changes))).

Lemma patch_diff_bytes_pay id old changes limit :
  patch_diff_bytes id old changes limit =
  used_bytes <$> to_option (pay (patch_cost id old changes) (new usize_max limit 64)).
Proof.
  unfold patch_diff_bytes, patch_cost. rewrite pay_add, pay_Some.
  destruct (charge _ _ _) as [b|] eqn:Hc; [|done].
  apply charge_depth in Hc. simpl in Hc. rewrite pay_add, dict_pay, Hc.
  destruct (pay _ b) as [b'|] eqn:Hp; [|done]. apply pay_depth in Hp.
  rewrite (try_fold_pay_depth 64%N _ (previous_cost old)).
  - by destruct (pay _ b').
  - congruence.
  - intros b2 [name v] Hb2. unfold previous_cost; cbn [fst]. destruct (HDict.get old name) as [v'|].
    + rewrite pay_add, pay_Some. destruct (charge _ _ b2) as [b3|] eqn:H3; [|done].
      apply charge_depth in H3. rewrite value_pay, H3, Hb2. reflexivity.
    + by rewrite pay_zero.
Qed.

(** A recorded size never exceeds the limit it was computed under. *)
Lemma used_bytes_le_limit c limit b :
  pay c (new usize_max limit 64) = Ok b → (used_bytes b ≤ limit)%N.
Proof.
  intros Hp. destruct (pay_used _ _ _ Hp) as (Hle & Hi & _ & _); [simpl; lia|].
  unfold used_bytes. rewrite Hi. simpl. lia.
Qed.

Lemma diff_bytes_le id rows limit n :
  diff_bytes id rows limit = Some n → (n ≤ limit)%N.
Proof.
  rewrite diff_bytes_pay. destruct (pay _ _) as [b|] eqn:Hp; [|done].
  simpl. intros [= <-]. by eapply used_bytes_le_limit.
Qed.

Lemma patch_diff_bytes_le id old changes limit n :
  patch_diff_bytes id old changes limit = Some n → (n ≤ limit)%N.
Proof.
  rewrite patch_diff_bytes_pay. destruct (pay _ _) as [b|] eqn:Hp; [|done].
  simpl. intros [= <-]. by eapply used_bytes_le_limit.
Qed.
End bounds.

(** ** Order independence *)

Lemma sum_cost_ext {A} (f g : A → cost) l :
  (∀ a, f a = g a) → sum_cost f l = sum_cost g l.
Proof. intros Hfg. induction l as [|a l IH]; simpl; [done|]. by rewrite Hfg, IH. Qed.


(** The cost does not depend on the enumeration order. *)
Lemma cost_order (o1 o2 : HashOrder) n :
  @HashOrderLaws o1 → @HashOrderLaws o2 →
  (∀ d, @dict_cost o1 n d = @dict_cost o2 n d) ∧
  (∀ v, @value_cost o1 n v = @value_cost o2 n v).
Proof.
  intros L1 L2. induction n as [|n [IHd IHv]]; [done|]. split.
  - intros d. simpl. f_equal.
    rewrite (sum_cost_perm _ _ (@HDict.iter o2 d)).
    2:{ unfold HDict.iter. by rewrite (@hash_iter_perm o1 L1), (@hash_iter_perm o2 L2). }
    apply sum_cost_ext. intros [name v]. by rewrite IHv.
  - intros v. simpl. f_equal. destruct v; auto using sum_cost_ext.
    rewrite IHd. do 2 f_equal; auto using sum_cost_ext.
    apply sum_cost_ext. intros c. by rewrite IHd.
Qed.
(** ** Sizes in closed form *)

Lemma add_cost_0_l c : add_cost (Some (0, 0)%N) c = c.
Proof. by destruct c as [[]|]. Qed.

(** What a cost amounts to under a byte limit. *)
Definition fits (c : cost) (limit : N) : option N :=
  match c with
  | Some (w, y) => if decide (w ≤ usize_max ∧ y ≤ limit)%N then Some y else None
  | None => None
  end.

Lemma pay_fits c limit :
  used_bytes <$> to_option (pay c (new usize_max limit 64)) = fits c limit.
Proof.
  destruct c as [[w y]|]; [|done]. rewrite pay_Some. unfold charge, fits, used_bytes. simpl.
  case_decide as H1; case_decide as H2; simpl; try done; try lia. f_equal. lia.
Qed.

Lemma diff_bytes_limit `{HashOrder} id rows limit limit' n :
  diff_bytes id rows limit = Some n → (n ≤ limit')%N → diff_bytes id rows limit' = Some n.
Proof.
  rewrite !diff_bytes_pay, !pay_fits. destruct (diff_cost id rows) as [[w y]|]; [|done].
  unfold fits. case_decide as Hf; [|done]. intros [= <-] Hle. destruct Hf. by rewrite decide_True.
Qed.

(** Work never exceeds bytes. *)
Definition thrifty (c : cost) : Prop :=
  match c with Some (w, y) => (w ≤ y)%N | None => True end.

Lemma thrifty_add c c' : thrifty c → thrifty c' → thrifty (add_cost c c').
Proof. destruct c as [[]|], c' as [[]|]; unfold add_cost; simpl; try done. lia. Qed.
Lemma thrifty_sum {A} (f : A → cost) l : (∀ a, thrifty (f a)) → thrifty (sum_cost f l).
Proof.
  intros Hf. induction l as [|a l IH]; simpl; [lia|]. by apply thrifty_add.
Qed.
Lemma thrifty_sat n k : (1 ≤ k)%N → thrifty (Some (saturating_add n 1, saturating_add n k)).
Proof. unfold thrifty, saturating_add. lia. Qed.

Section thrifty.
Context `{HashOrder}.

Lemma thrifty_costs n : (∀ d, thrifty (dict_cost n d)) ∧ (∀ v, thrifty (value_cost n v)).
Proof.
  induction n as [|n [IHd IHv]]; [done|]. split.
  - intros d. simpl. apply thrifty_add; [simpl; lia|]. apply thrifty_sum. intros [name v].
    apply thrifty_add; [apply thrifty_sat; lia|apply IHv].
  - intros v. simpl. apply thrifty_add; [apply thrifty_sat; lia|].
    destruct v; try (simpl; lia); try (by apply thrifty_sum); try apply IHd.
    apply thrifty_add; [apply IHd|]. apply thrifty_add; apply thrifty_sum; [|apply IHd].
    intros c. apply thrifty_add; [apply thrifty_sat; lia|apply IHd].
Qed.
End thrifty.

Lemma dict_cost_ge `{HashOrder} n d w y : dict_cost n d = Some (w, y) → (128 ≤ y)%N.
Proof.
  destruct n as [|n]; [done|]. simpl. destruct (sum_cost _ _) as [[w' y']|]; [|done].
  unfold add_cost. cbn [mbind option_bind]. intros [= _ <-]. lia.
Qed.

(** The previous values of the patched tags, as the patch is enumerated. *)
Lemma previous_perm `{HashOrderLaws} (old changes prev : HDict) :
  (∀ k, prev !! k = match changes !! k with Some _ => old !! k | None => None end) →
  HDict.iter prev ≡ₚ omap (λ kv, (λ v, (kv.1, v)) <$> old !! kv.1) (HDict.iter changes).
Proof.
  intros Hprev. apply NoDup_Permutation.
  - apply NoDup_hash_iter.
  - apply NoDup_omap; [|apply NoDup_hash_iter].
    intros [k1 v1] [k2 v2] [k v] H1%HDict.elem_of_iter H2%HDict.elem_of_iter.
    intros (x1 & _ & Hx1)%fmap_Some (x2 & _ & Hx2)%fmap_Some.
    apply (f_equal fst) in Hx1, Hx2. simpl in Hx1, Hx2. subst k1 k2.
    rewrite H1 in H2. by injection H2 as ->.
  - intros [k v]. rewrite HDict.elem_of_iter, Hprev, list_elem_of_omap. split.
    + on_ok (changes !! k) as [c|] Hc. intros Hv. exists (k, c).
      rewrite HDict.elem_of_iter. simpl. by rewrite Hv.
    + intros ([k' c] & Hc%HDict.elem_of_iter & (v' & Hv & Heq)%fmap_Some).
      simpl in Hv, Heq. injection Heq as -> ->. by rewrite Hc.
Qed.

(** The size of an update is the size of an entry that holds its two dicts:
    what recovery recomputes is what was recorded. *)
Lemma patch_as_diff `{HashOrderLaws} id old changes prev limit n limit' :
  (∀ k, prev !! k = match changes !! k with Some _ => old !! k | None => None end) →
  (limit ≤ usize_max)%N → patch_diff_bytes id old changes limit = Some n → (n ≤ limit')%N →
  diff_bytes id [changes; prev] limit' = Some n.
Proof.
  intros Hprev Hlimit. rewrite patch_diff_bytes_pay, diff_bytes_pay, !pay_fits. unfold patch_cost, diff_cost.
  set (entry := λ kv : string * Kind, add_cost
    (Some (saturating_add (str_len kv.1) 1, saturating_add (str_len kv.1) 64))
    (value_cost (levels 64 2) kv.2)).
  assert (Hsum : sum_cost (previous_cost old) (HDict.iter changes) = sum_cost entry (HDict.iter prev)).
  { rewrite (sum_cost_perm entry (HDict.iter prev)
      (omap (λ kv, (λ v, (kv.1, v)) <$> old !! kv.1) (HDict.iter changes))).
    - induction (HDict.iter changes) as [|[k v] l IH]; [done|]. cbn [sum_cost foldr omap list_omap].
      unfold previous_cost at 1, HDict.get. cbn [fst]. fold (sum_cost (previous_cost old) l).
      destruct (old !! k) as [v'|]; cbn [fmap option_fmap option_map].
      + cbn [sum_cost foldr]. f_equal. exact IH.
      + rewrite IH. apply add_cost_0_l.
    - by apply previous_perm. }
  rewrite Hsum. cbn [sum_cost foldr]. change (dict_cost (levels 64 1) prev) with
    (add_cost (Some (1, 128)%N) (sum_cost (λ '(name, v),
      add_cost (Some (saturating_add (str_len name) 1, saturating_add (str_len name) 64))
               (value_cost (levels 64 2) v)) (HDict.iter prev))).
  rewrite (sum_cost_ext (λ '(name, v), add_cost _ _) entry) by by intros [].
  pose proof (proj1 (thrifty_costs (levels 64 1)) changes) as Hc.
  assert (He : thrifty (sum_cost entry (HDict.iter prev))).
  { apply thrifty_sum. intros kv. apply thrifty_add; [apply thrifty_sat; lia|apply thrifty_costs]. }
  on_ok (dict_cost (levels 64 1) changes) as [[w1 y1]|] Hchanges.
  apply dict_cost_ge in Hchanges.
  destruct (sum_cost entry (HDict.iter prev)) as [[w2 y2]|]; [|done].
  clear Hsum. unfold thrifty in Hc, He. unfold add_cost, fits. cbn [mbind option_bind].
  case_decide as Hfits; [|done]. intros [= <-] Hle. unfold saturating_add in *.
  assert (384 ≤ usize_max)%N by (unfold usize_max; lia).
  rewrite decide_True; [f_equal; lia|]. lia.
Qed.

End ValueBudget.
