(* ===== verification/Extern.v ===== *)
(** * Interfaces of the crates the engine builds on

    [RoaringBitmap] (crate [roaring]) is a set of [u32] iterated in ascending
    order, and [IndexMap] (crate [indexmap]) a map that keeps its bindings in
    a list.  Their code is not part of the repository: each is a class of
    operations with the laws the engine relies on, and an instance that shows
    the laws can be met.  [RowIndex] is the interface the three secondary
    indexes of the graph implement for it. *)

From S2P Require Import Prelude Floats Kinds.

(** ** Roaring bitmaps *)

Class Roaring : Type := {
  RoaringBitmap : Type;
  rb_new : RoaringBitmap;
  rb_insert : N → RoaringBitmap → RoaringBitmap;
  rb_remove : N → RoaringBitmap → RoaringBitmap;
  rb_and : RoaringBitmap → RoaringBitmap → RoaringBitmap;
  rb_or : RoaringBitmap → RoaringBitmap → RoaringBitmap;
  rb_sub : RoaringBitmap → RoaringBitmap → RoaringBitmap;
  rb_iter : RoaringBitmap → list N;
  rb_is_empty : RoaringBitmap → bool;
  rb_len : RoaringBitmap → N;
  rb_serialized_size : RoaringBitmap → N
}.

Class RoaringLaws `{Roaring} : Prop := {
  rb_iter_new : rb_iter rb_new = [];
  elem_of_rb_insert x y b : x ∈ rb_iter (rb_insert y b) ↔ x = y ∨ x ∈ rb_iter b;
  elem_of_rb_remove x y b : x ∈ rb_iter (rb_remove y b) ↔ x ≠ y ∧ x ∈ rb_iter b;
  elem_of_rb_and x a b : x ∈ rb_iter (rb_and a b) ↔ x ∈ rb_iter a ∧ x ∈ rb_iter b;
  elem_of_rb_or x a b : x ∈ rb_iter (rb_or a b) ↔ x ∈ rb_iter a ∨ x ∈ rb_iter b;
  elem_of_rb_sub x a b : x ∈ rb_iter (rb_sub a b) ↔ x ∈ rb_iter a ∧ x ∉ rb_iter b;
  rb_iter_sorted b : StronglySorted N.lt (rb_iter b);
  rb_is_empty_spec b : rb_is_empty b = true ↔ rb_iter b = [];
  rb_len_spec b : rb_len b = len (rb_iter b)
}.

(** Finite sets listed in ascending order satisfy the laws. *)
Definition set_roaring : Roaring := {|
  RoaringBitmap := gset N;
  rb_new := ∅;
  rb_insert x b := {[x]} ∪ b;
  rb_remove x b := b ∖ {[x]};
  rb_and a b := a ∩ b;
  rb_or a b := a ∪ b;
  rb_sub a b := a ∖ b;
  rb_iter b := merge_sort N.le (elements b);
  rb_is_empty b := bool_decide (b = ∅);
  rb_len b := N.of_nat (size b);
  rb_serialized_size b := (8 + 4 * N.of_nat (size b))%N
|}.

Lemma StronglySorted_lt_N (l : list N) :
  NoDup l → StronglySorted N.le l → StronglySorted N.lt l.
Proof.
  induction 2 as [|x l Hs IH Hall]; [constructor|].
  apply NoDup_cons in H as [Hx Hnd]. constructor; [by apply IH|].
  apply Forall_forall. intros y Hy. rewrite Forall_forall in Hall.
  specialize (Hall y Hy). assert (x ≠ y) by (by intros ->). lia.
Qed.

Lemma NoDup_sorted_lt (l : list N) : StronglySorted N.lt l → NoDup l.
Proof.
  induction 1 as [|x l Hs IH Hall]; constructor; [|done].
  intros Hx. rewrite Forall_forall in Hall. specialize (Hall x Hx). lia.
Qed.

Lemma set_roaring_laws : @RoaringLaws set_roaring.
Proof.
  assert (Hin : ∀ x (b : gset N), x ∈ merge_sort N.le (elements b) ↔ x ∈ b).
  { intros x b. rewrite merge_sort_Permutation. apply elem_of_elements. }
  split; simpl; intros; rewrite ?Hin; try set_solver.
  - apply StronglySorted_lt_N.
    + rewrite merge_sort_Permutation. apply NoDup_elements.
    + apply StronglySorted_merge_sort; [intros ???; lia|intros x y; lia].
  - rewrite bool_decide_eq_true. split.
    + by intros ->.
    + intros Hnil. apply set_eq. intros x. rewrite <-Hin, Hnil. set_solver.
  - unfold len. rewrite (Permutation_length (merge_sort_Permutation N.le (elements b))).
    reflexivity.
Qed.

(** ** Insertion-ordered maps *)

Section index_map.
Context {K V : Type} `{EqDecision K}.

(** The position of a key in a list of bindings. *)
Fixpoint key_index (k : K) (l : list (K * V)) : option nat :=
  match l with
  | [] => None
  | (k', _) :: l => if decide (k = k') then Some 0 else S <$> key_index k l
  end.
Fixpoint assoc (k : K) (l : list (K * V)) : option V :=
  match l with
  | [] => None
  | (k', v) :: l => if decide (k = k') then Some v else assoc k l
  end.
(** [insert]: replace in place, or append. *)
Fixpoint assoc_insert (k : K) (v : V) (l : list (K * V)) : list (K * V) :=
  match l with
  | [] => [(k, v)]
  | (k', v') :: l => if decide (k = k') then (k, v) :: l else (k', v') :: assoc_insert k v l
  end.
(** [move_index(from, to)] to the last position. *)
Definition move_to_back (i : nat) (l : list (K * V)) : list (K * V) :=
  match l !! i with
  | Some b => delete i l ++ [b]
  | None => l
  end.
End index_map.

Class IndexMap (K V : Type) `{EqDecision K} : Type := {
  IndexMapT : Type;
  im_new : IndexMapT;
  im_list : IndexMapT → list (K * V);
  im_get_index_of : K → IndexMapT → option nat;
  im_move_index : nat → nat → IndexMapT → IndexMapT;
  im_get : K → IndexMapT → option V;
  im_insert : K → V → IndexMapT → IndexMapT;
  im_shift_remove_index : nat → IndexMapT → IndexMapT;
  im_retain : (K → V → bool) → IndexMapT → IndexMapT
}.
Arguments IndexMapT K V {_ _}.

Class IndexMapLaws (K V : Type) `{IndexMap K V} : Prop := {
  im_new_list : im_list im_new = [];
  im_get_index_of_list k m : im_get_index_of k m = key_index k (im_list m);
  im_move_index_list i m : i < length (im_list m) →
    im_list (im_move_index i (pred (length (im_list m))) m) = move_to_back i (im_list m);
  im_get_list k m : im_get k m = assoc k (im_list m);
  im_insert_list k v m : im_list (im_insert k v m) = assoc_insert k v (im_list m);
  im_shift_remove_index_list i m :
    im_list (im_shift_remove_index i m) = delete i (im_list m);
  im_retain_list p m :
    im_list (im_retain p m) = filter (λ kv, p kv.1 kv.2 = true) (im_list m)
}.

(** Lists of bindings satisfy the laws. *)
Definition list_index_map (K V : Type) `{EqDecision K} : IndexMap K V := {|
  IndexMapT := list (K * V);
  im_new := [];
  im_list := λ l, l;
  im_get_index_of := key_index;
  im_move_index i _ l := move_to_back i l;
  im_get := assoc;
  im_insert := assoc_insert;
  im_shift_remove_index i l := delete i l;
  im_retain p l := filter (λ kv, p kv.1 kv.2 = true) l
|}.

Lemma list_index_map_laws (K V : Type) `{EqDecision K} :
  @IndexMapLaws K V _ (list_index_map K V).
Proof. by split. Qed.

Section index_map_lemmas.
Context {K V : Type} `{EqDecision K}.
Implicit Types (l : list (K * V)).

Lemma assoc_elem k v l : assoc k l = Some v → (k, v) ∈ l.
Proof.
  induction l as [|[k' v'] l IH]; simpl; [done|]. case_decide; intros Ha.
  - simplify_eq. left.
  - right. by apply IH.
Qed.

Lemma elem_of_assoc_insert x k v l : x ∈ assoc_insert k v l → x = (k, v) ∨ x ∈ l.
Proof.
  induction l as [|[k' v'] l IH]; simpl; [set_solver|]. case_decide; [set_solver|].
  intros [->|Hin]%elem_of_cons; [right; left|]. destruct (IH Hin); [by left|by right; right].
Qed.

Lemma assoc_insert_assoc k v l : assoc k (assoc_insert k v l) = Some v.
Proof.
  induction l as [|[k' v'] l IH]; simpl; [by rewrite decide_True|].
  destruct (decide (k = k')); simpl; [by rewrite decide_True|by rewrite decide_False].
Qed.

Lemma length_assoc_insert k v l : length (assoc_insert k v l) ≤ S (length l).
Proof. induction l as [|[k' v'] l IH]; simpl; [done|]. case_decide; simpl; lia. Qed.

Lemma move_to_back_perm i l : move_to_back i l ≡ₚ l.
Proof.
  unfold move_to_back. on_ok (l !! i) as [b|] Hb.
  rewrite (delete_Permutation l i b Hb) at 2. by rewrite Permutation_app_comm.
Qed.

(** Insertion keeps keys apart. *)
Lemma assoc_insert_keys k v l : NoDup l.*1 → NoDup (assoc_insert k v l).*1.
Proof.
  assert (Hin : ∀ k' l, k' ∈ (assoc_insert k v l).*1 → k' = k ∨ k' ∈ l.*1).
  { intros k' l'. rewrite !list_elem_of_fmap.
    intros ([k0 v0] & -> & [[= -> ->]|?]%elem_of_assoc_insert); [by left|right; eauto]. }
  induction l as [|[k' v'] l IH]; cbn [assoc_insert].
  { intros _. apply NoDup_singleton. }
  rewrite fmap_cons. intros [Hk Hnd]%NoDup_cons. cbn [fst] in Hk. case_decide as Hd.
  - subst. rewrite fmap_cons. by apply NoDup_cons.
  - rewrite fmap_cons. apply NoDup_cons. split; [|by apply IH]. cbn [fst].
    intros [->|?]%Hin; done.
Qed.

(** With distinct keys, a binding is found wherever it stands. *)
Lemma assoc_NoDup k v l : NoDup l.*1 → assoc k l = Some v ↔ (k, v) ∈ l.
Proof.
  intros Hnd. split; [apply assoc_elem|]. revert Hnd.
  induction l as [|[k' v'] l IH]; [by intros _ ?%elem_of_nil|].
  rewrite fmap_cons. intros [Hk Hnd]%NoDup_cons [[= -> ->]|Hin]%elem_of_cons; cbn [assoc].
  - by rewrite decide_True.
  - rewrite decide_False; [by apply IH|]. intros ->. apply Hk, list_elem_of_fmap.
    by exists (k', v).
Qed.

Lemma key_index_lt k l i : key_index k l = Some i → i < length l.
Proof.
  revert i. induction l as [|[k' v'] l IH]; intros i; simpl; [done|].
  case_decide; [intros [= <-]; lia|]. intros (j & Hj & ->)%fmap_Some. apply IH in Hj. lia.
Qed.

Lemma key_index_None k l : key_index k l = None ↔ assoc k l = None.
Proof.
  induction l as [|[k' v'] l IH]; simpl; [done|]. case_decide; [done|].
  rewrite fmap_None. apply IH.
Qed.
End index_map_lemmas.

(** ** Row indexes *)

(** A secondary index over the rows of a graph, by numeric id: what it takes
    to insert and remove a row ([None] is a panic), and which rows it
    describes. *)
Class RowIndex (I : Type) : Type := {
  ri_insert : N → HDict → I → option I;
  ri_remove : N → HDict → I → option I;
  ri_models : I → gmap N HDict → Prop
}.

Class RowIndexLaws (I : Type) `{RowIndex I} : Prop := {
  ri_insert_models i rows id row :
    ri_models i rows → rows !! id = None → (id ≤ u32_max)%N →
    ∃ i', ri_insert id row i = Some i' ∧ ri_models i' (<[id := row]> rows);
  ri_remove_models i rows id row :
    ri_models i rows → rows !! id = Some row → (id ≤ u32_max)%N →
    ∃ i', ri_remove id row i = Some i' ∧ ri_models i' (delete id rows)
}.
