(* ===== verification/Bitmap.v ===== *)
(** * Tag bitmap index

    [haystack-core/src/graph/bitmap.rs]: tag name to the bitmap of the numeric
    ids whose entity carries the tag.  It implements [RowIndex]: its bitmaps
    are exactly the tag columns of the rows, and no bitmap is empty. *)

From S2P Require Import Prelude Floats Kinds Extern.

(** [u32::try_from]: [None] out of range. *)
Definition u32_try_from (n : N) : option N := if decide (n ≤ u32_max)%N then Some n else None.

Lemma u32_try_from_le n : (n ≤ u32_max)%N → u32_try_from n = Some n.
Proof. intros Hn. unfold u32_try_from. by rewrite decide_True by done. Qed.

Module TagBitmapIndex.
Section model.
Context `{Roaring}.

Record t : Type := mk { bitmaps : gmap string RoaringBitmap }.

Definition new : t := mk ∅.

(** [entry(tag).or_default().insert(eid)]. *)
Definition set_bit (eid : N) (bms : gmap string RoaringBitmap) (tag : string)
    : gmap string RoaringBitmap :=
  <[tag := rb_insert eid (default rb_new (bms !! tag))]> bms.
(** [get_mut(tag)] and [remove(eid)]. *)
Definition clear_bit (eid : N) (bms : gmap string RoaringBitmap) (tag : string)
    : gmap string RoaringBitmap :=
  match bms !! tag with
  | Some bm => <[tag := rb_remove eid bm]> bms
  | None => bms
  end.

(** [TagBitmapIndex::add]; an id over [u32::MAX] panics. *)
Definition add (idx : t) (entity_id : N) (tags : list string) : option t :=
  eid ← u32_try_from entity_id;
  Some (mk (foldl (set_bit eid) (bitmaps idx) tags)).

(** [TagBitmapIndex::remove]: clear the bits, then drop every empty bitmap. *)
Definition remove (idx : t) (entity_id : N) (tags : list string) : option t :=
  eid ← u32_try_from entity_id;
  let bms := foldl (clear_bit eid) (bitmaps idx) tags in
  Some (mk (filter (λ '(_, bm), rb_is_empty bm = false) bms)).

Definition has_tag (idx : t) (tag : string) : option RoaringBitmap := bitmaps idx !! tag.

Definition intersect (bms : list RoaringBitmap) : RoaringBitmap :=
  match bms with
  | [] => rb_new
  | bm :: rest => foldl rb_and bm rest
  end.

Definition union (bms : list RoaringBitmap) : RoaringBitmap := foldl rb_or rb_new bms.

Definition negate (bm universe : RoaringBitmap) : RoaringBitmap := rb_sub universe bm.

Definition iter_set_bits (bm : RoaringBitmap) : list N := rb_iter bm.
Definition count_ones (bm : RoaringBitmap) : N := rb_len bm.
End model.

Section lemmas.
Context `{RoaringLaws, HashOrderLaws}.
Implicit Types (idx : t) (rows : gmap N HDict).

(** The ids recorded for a tag. *)
Definition bits (bms : gmap string RoaringBitmap) (tag : string) : list N :=
  match bms !! tag with Some bm => rb_iter bm | None => [] end.

(** The index describes the rows: a bit is set exactly for the rows that
    carry the tag, and no bitmap is empty. *)
Definition models idx rows : Prop :=
  (∀ tag id, id ∈ bits (bitmaps idx) tag ↔
     ∃ row, rows !! id = Some row ∧ is_Some (row !! tag)) ∧
  (∀ tag bm, bitmaps idx !! tag = Some bm → rb_iter bm ≠ []).

Lemma bits_insert bms t bm tag :
  bits (<[t := bm]> bms) tag = if decide (t = tag) then rb_iter bm else bits bms tag.
Proof. unfold bits. rewrite lookup_insert. by case_decide. Qed.

Lemma add_bits eid tags bms tag id :
  id ∈ bits (foldl (set_bit eid) bms tags) tag
  ↔ (id = eid ∧ tag ∈ tags) ∨ id ∈ bits bms tag.
Proof.
  revert bms. induction tags as [|t tags IH]; intros bms; simpl; [set_solver|].
  rewrite IH. unfold set_bit. rewrite bits_insert. case_decide as E.
  - subst t. rewrite elem_of_rb_insert. unfold bits.
    destruct (bms !! tag); simpl; rewrite ?rb_iter_new; set_solver.
  - set_solver.
Qed.

Lemma add_nonempty eid tags bms :
  (∀ tag bm, bms !! tag = Some bm → rb_iter bm ≠ []) →
  ∀ tag bm, foldl (set_bit eid) bms tags !! tag = Some bm → rb_iter bm ≠ [].
Proof.
  revert bms. induction tags as [|t tags IH]; intros bms Hne; simpl; [done|].
  apply IH. intros tag bm. unfold set_bit. rewrite lookup_insert. case_decide; [|apply Hne].
  intros [= <-] Hnil.
  assert (eid ∈ rb_iter (rb_insert eid (default rb_new (bms !! t)))) as Hin
    by (apply elem_of_rb_insert; by left).
  rewrite Hnil in Hin. set_solver.
Qed.

Lemma remove_bits eid tags bms tag id :
  id ∈ bits (foldl (clear_bit eid) bms tags) tag
  ↔ id ∈ bits bms tag ∧ ¬ (id = eid ∧ tag ∈ tags).
Proof.
  revert bms. induction tags as [|t tags IH]; intros bms; simpl; [set_solver|].
  rewrite IH. unfold clear_bit. destruct (bms !! t) as [bm|] eqn:Ht.
  - rewrite bits_insert. case_decide as E; [|set_solver].
    subst t. rewrite elem_of_rb_remove. unfold bits. rewrite Ht. set_solver.
  - destruct (decide (t = tag)) as [->|]; [|set_solver].
    unfold bits. rewrite Ht. set_solver.
Qed.

Lemma bits_filter_nonempty bms tag :
  bits (filter (λ '(_, bm), rb_is_empty bm = false) bms) tag = bits bms tag.
Proof.
  unfold bits. rewrite map_lookup_filter.
  destruct (bms !! tag) as [bm|]; simpl; [|done].
  case_guard as Hg; simpl; [done|].
  destruct (rb_is_empty bm) eqn:He; [|done]. by rewrite (proj1 (rb_is_empty_spec _) He).
Qed.

(** [TagBitmapIndex] as a row index: the tag names of the row. *)
#[global] Instance tag_row_index : RowIndex t := {|
  ri_insert id row idx := add idx id (HDict.tag_names row);
  ri_remove id row idx := remove idx id (HDict.tag_names row);
  ri_models := models
|}.

#[global] Instance tag_row_index_laws : RowIndexLaws t.
Proof.
  split; simpl; intros idx rows id row [Hbits Hne] Hrow Hid; unfold add, remove;
    rewrite u32_try_from_le by done; simpl; eexists; (split; [done|]); split; simpl.
  - intros tag id'. rewrite add_bits, Hbits, HDict.elem_of_tag_names.
    setoid_rewrite lookup_insert_Some. split.
    + intros [[-> Ht]|(row' & Hr & Ht)]; [naive_solver|].
      exists row'. split; [right; split; [congruence|done]|done].
    + intros (row' & [[<- <-]|[? Hr]] & Ht); naive_solver.
  - by apply add_nonempty.
  - intros tag id'. rewrite bits_filter_nonempty, remove_bits, Hbits, HDict.elem_of_tag_names.
    setoid_rewrite lookup_delete_Some. split.
    + intros [(row' & Hr & Ht) Hno]. exists row'. split; [split; [|done]|done].
      intros <-. apply Hno. split; [done|]. by simplify_eq.
    + intros (row' & [Hne' Hr] & Ht). split; [by exists row'|]. by intros [-> _].
  - intros tag bm. rewrite map_lookup_filter_Some. intros [_ Hemp] Hnil.
    apply rb_is_empty_spec in Hnil. congruence.
Qed.

Lemma new_models : models new ∅.
Proof.
  split.
  - intros tag id. unfold bits. simpl. rewrite lookup_empty.
    setoid_rewrite lookup_empty. set_solver.
  - intros tag bm. simpl. by rewrite lookup_empty.
Qed.

Lemma elem_of_intersect bms id :
  bms ≠ [] → id ∈ iter_set_bits (intersect bms) ↔ ∀ bm, bm ∈ bms → id ∈ iter_set_bits bm.
Proof.
  destruct bms as [|b bms]; [done|]. intros _. unfold intersect, iter_set_bits.
  revert b. induction bms as [|c bms IH]; intros b; simpl; [set_solver|].
  rewrite IH. split.
  - intros Hall. assert (Hbc : id ∈ rb_iter (rb_and b c)) by (apply Hall; left).
    apply elem_of_rb_and in Hbc as [Hb Hc].
    intros bm [->|[->|Hbm]%elem_of_cons]%elem_of_cons; [done..|]. apply Hall. by right.
  - intros Hall bm [->|Hbm]%elem_of_cons.
    + apply elem_of_rb_and. split; apply Hall; [by left|by right; left].
    + apply Hall. by do 2 right.
Qed.

Lemma elem_of_union bms id :
  id ∈ iter_set_bits (union bms) ↔ ∃ bm, bm ∈ bms ∧ id ∈ iter_set_bits bm.
Proof.
  unfold union, iter_set_bits.
  assert (Hgen : ∀ acc, id ∈ rb_iter (foldl rb_or acc bms) ↔
    id ∈ rb_iter acc ∨ ∃ bm, bm ∈ bms ∧ id ∈ rb_iter bm).
  { induction bms as [|c bms IH]; intros acc; simpl; [set_solver|].
    rewrite IH, elem_of_rb_or. set_solver. }
  rewrite Hgen, rb_iter_new. set_solver.
Qed.
End lemmas.
End TagBitmapIndex.
