(* ===== verification/Adjacency.v ===== *)
(** * Reference adjacency

    [haystack-core/src/graph/adjacency.rs]: the outgoing references of each
    numeric id and, for each referenced id, the tags and numeric ids that
    point at it.  It implements [RowIndex]: the two maps hold exactly the
    [Ref] tags of the rows other than [id], each edge once, and no empty
    entry. *)

From S2P Require Import Prelude Floats Kinds Extern.

(** The entry of a map of lists, with [or_default]. *)
Definition edges {K A} `{Countable K} (m : gmap K (list A)) (k : K) : list A :=
  default [] (m !! k).

Module RefAdjacency.

Record t : Type := mk {
  forward : gmap N (list (string * string));
  reverse : gmap string (list (string * N))
}.

Definition new : t := mk ∅ ∅.

(** [RefAdjacency::add]. *)
Definition add (adj : t) (entity_id : N) (ref_tag target : string) : t :=
  mk (<[entity_id := edges (forward adj) entity_id ++ [(ref_tag, target)]]> (forward adj))
     (<[target := edges (reverse adj) target ++ [(ref_tag, entity_id)]]> (reverse adj)).

(** One step of [remove]: drop the edge from its target's list, and the list
    when it becomes empty. *)
Definition unlink (entity_id : N) (rev : gmap string (list (string * N)))
    (edge : string * string) : gmap string (list (string * N)) :=
  let '(ref_tag, target) := edge in
  match rev !! target with
  | Some l =>
      let l' := filter (λ '(rt, sid), ¬ (rt = ref_tag ∧ sid = entity_id)) l in
      if decide (l' = []) then delete target rev else <[target := l']> rev
  | None => rev
  end.

#[global] Arguments unlink : simpl never.

(** [RefAdjacency::remove]. *)
Definition remove (adj : t) (entity_id : N) : t :=
  match forward adj !! entity_id with
  | Some es => mk (delete entity_id (forward adj)) (foldl (unlink entity_id) (reverse adj) es)
  | None => adj
  end.

(** [ref_type.is_none_or(|t| rt == t)]. *)
Definition ref_type_ok (ref_type : option string) (rt : string) : Prop :=
  match ref_type with None => True | Some t => rt = t end.
#[global] Instance ref_type_ok_dec ref_type rt : Decision (ref_type_ok ref_type rt).
Proof. destruct ref_type; simpl; apply _. Defined.

Definition targets_from (adj : t) (entity_id : N) (ref_type : option string) : list string :=
  match forward adj !! entity_id with
  | Some es => (filter (λ '(rt, _), ref_type_ok ref_type rt) es).*2
  | None => []
  end.

Definition sources_to (adj : t) (target : string) (ref_type : option string) : list N :=
  match reverse adj !! target with
  | Some es => (filter (λ '(rt, _), ref_type_ok ref_type rt) es).*2
  | None => []
  end.

Definition sources_for (adj : t) (ref_tag target : string) : list N :=
  match reverse adj !! target with
  | Some es => (filter (λ '(rt, _), rt = ref_tag) es).*2
  | None => []
  end.

Section order.
Context `{HashOrder}.

(** [EntityGraph::index_refs]: an edge for every [Ref] tag but [id]. *)
Definition index_refs (adj : t) (entity_id : N) (entity : HDict) : t :=
  foldl (λ adj '(name, val), match val with
           | KRef r => if decide (name ≠ "id") then add adj entity_id name (ref_val r) else adj
           | _ => adj
           end) adj (HDict.iter entity).

(** The edges of a row. *)
Definition ref_edge (tag : string * Kind) : option (string * string) :=
  match tag with
  | (name, KRef r) => if decide (name ≠ "id") then Some (name, ref_val r) else None
  | _ => None
  end.
Definition refs_of (row : HDict) : list (string * string) := omap ref_edge (HDict.iter row).
End order.

Section lemmas.
Context `{HashOrderLaws}.
Implicit Types (adj : t) (rows : gmap N HDict) (row : HDict).

Lemma ref_edge_Some tag tgt kv :
  ref_edge kv = Some (tag, tgt) ↔
  tag ≠ "id" ∧ ∃ r, kv = (tag, KRef r) ∧ ref_val r = tgt.
Proof.
  destruct kv as [name v]. unfold ref_edge. split.
  - destruct v; try done. case_decide; [|done]. naive_solver.
  - intros (Hid & r & [= -> ->] & <-). by rewrite decide_True.
Qed.

Lemma elem_of_refs_of row tag tgt :
  (tag, tgt) ∈ refs_of row ↔
  tag ≠ "id" ∧ ∃ r, row !! tag = Some (KRef r) ∧ ref_val r = tgt.
Proof.
  unfold refs_of. rewrite list_elem_of_omap. setoid_rewrite ref_edge_Some.
  setoid_rewrite <-HDict.elem_of_iter. naive_solver.
Qed.

Lemma NoDup_refs_of row : NoDup (refs_of row).
Proof.
  unfold refs_of. pose proof (NoDup_hash_keys row) as Hnd.
  unfold hash_keys in Hnd. fold (HDict.iter row) in Hnd.
  induction (HDict.iter row) as [|kv l IH]; simpl in *; [constructor|].
  apply NoDup_cons in Hnd as [Hk Hnd].
  destruct (ref_edge kv) as [[tag tgt]|] eqn:E; [|by apply IH].
  constructor; [|by apply IH]. intros Hin. apply Hk.
  apply ref_edge_Some in E as (_ & r & -> & _).
  apply list_elem_of_omap in Hin as (kv & Hkv & (_ & r' & -> & _)%ref_edge_Some).
  apply list_elem_of_fmap. by exists (tag, KRef r').
Qed.

(** [index_refs] adds the edges of the row one by one. *)
Lemma index_refs_foldl adj id row :
  index_refs adj id row = foldl (λ adj '(tag, tgt), add adj id tag tgt) adj (refs_of row).
Proof.
  unfold index_refs, refs_of. generalize (HDict.iter row) as l. intros l. revert adj.
  induction l as [|[name v] l IH]; intros adj; simpl; [done|].
  destruct v; simpl; auto. case_decide; simpl; auto.
Qed.

(** The two maps hold the edges of the rows. *)
Record models adj rows : Prop := {
  models_forward id :
    edges (forward adj) id ≡ₚ match rows !! id with Some row => refs_of row | None => [] end;
  models_forward_ne id : forward adj !! id ≠ Some [];
  models_reverse tgt tag id :
    (tag, id) ∈ edges (reverse adj) tgt ↔
    ∃ row, rows !! id = Some row ∧ (tag, tgt) ∈ refs_of row;
  models_reverse_nodup tgt : NoDup (edges (reverse adj) tgt);
  models_reverse_ne tgt : reverse adj !! tgt ≠ Some []
}.

Lemma edges_insert {K A} `{Countable K} (m : gmap K (list A)) k l k' :
  edges (<[k := l]> m) k' = if decide (k = k') then l else edges m k'.
Proof. unfold edges. rewrite lookup_insert. by case_decide. Qed.

Lemma edges_delete {K A} `{Countable K} (m : gmap K (list A)) k k' :
  edges (delete k m) k' = if decide (k = k') then [] else edges m k'.
Proof. unfold edges. rewrite lookup_delete. by case_decide. Qed.

Definition add_all id adj es : t := foldl (λ adj '(tag, tgt), add adj id tag tgt) adj es.

Lemma add_all_cons id adj tag tgt es :
  add_all id adj ((tag, tgt) :: es) = add_all id (add adj id tag tgt) es.
Proof. done. Qed.

Lemma add_all_forward id es adj id' :
  edges (forward (add_all id adj es)) id' =
  edges (forward adj) id' ++ (if decide (id = id') then es else []).
Proof.
  revert adj. induction es as [|[tag tgt] es IH]; intros adj.
  - simpl. case_decide; by rewrite app_nil_r.
  - rewrite add_all_cons, IH. simpl. rewrite edges_insert.
    case_decide as E; [subst|done]. by rewrite <-app_assoc.
Qed.

Lemma add_all_forward_ne id es adj :
  (∀ id, forward adj !! id ≠ Some []) →
  ∀ id', forward (add_all id adj es) !! id' ≠ Some [].
Proof.
  revert adj. induction es as [|[tag tgt] es IH]; intros adj Hne; [done|].
  rewrite add_all_cons. apply IH. intros id'. simpl. rewrite lookup_insert. case_decide; [|done].
  by destruct (edges (forward adj) id).
Qed.

Lemma add_all_reverse_ne id es adj :
  (∀ tgt, reverse adj !! tgt ≠ Some []) →
  ∀ tgt, reverse (add_all id adj es) !! tgt ≠ Some [].
Proof.
  revert adj. induction es as [|[tag tgt] es IH]; intros adj Hne; [done|].
  rewrite add_all_cons. apply IH. intros tgt'. simpl. rewrite lookup_insert. case_decide; [|done].
  by destruct (edges (reverse adj) tgt).
Qed.

Lemma add_all_reverse id es adj tgt tag id' :
  (tag, id') ∈ edges (reverse (add_all id adj es)) tgt ↔
  (tag, id') ∈ edges (reverse adj) tgt ∨ (id' = id ∧ (tag, tgt) ∈ es).
Proof.
  revert adj. induction es as [|[tag0 tgt0] es IH]; intros adj; [simpl; set_solver|].
  rewrite add_all_cons, IH. simpl. rewrite edges_insert. case_decide as E.
  - subst. set_solver.
  - set_solver.
Qed.

Lemma add_all_reverse_nodup id es adj :
  NoDup es →
  (∀ tgt, NoDup (edges (reverse adj) tgt)) →
  (∀ tgt tag, (tag, tgt) ∈ es → (tag, id) ∉ edges (reverse adj) tgt) →
  ∀ tgt, NoDup (edges (reverse (add_all id adj es)) tgt).
Proof.
  revert adj. induction es as [|[tag tgt] es IH]; intros adj Hes Hnd Hfresh; [done|].
  apply NoDup_cons in Hes as [Hnotin Hes]. rewrite add_all_cons. apply IH; [done| |].
  - intros tgt'. simpl. rewrite edges_insert. case_decide; [|done].
    apply NoDup_app. split; [apply Hnd|]. split; [|apply NoDup_singleton].
    intros x Hx ->%list_elem_of_singleton. by apply (Hfresh tgt tag); [left|].
  - intros tgt' tag' Hin. simpl. rewrite edges_insert. case_decide as E.
    + subst tgt'. rewrite elem_of_app, list_elem_of_singleton. intros [Hold|[= ->]].
      * by apply (Hfresh tgt tag'); [right|].
      * done.
    + apply Hfresh. by right.
Qed.

Lemma unlink_edges id rev tag tgt tgt' :
  edges (unlink id rev (tag, tgt)) tgt' =
  if decide (tgt = tgt') then filter (λ '(rt, sid), ¬ (rt = tag ∧ sid = id)) (edges rev tgt')
  else edges rev tgt'.
Proof.
  unfold unlink. destruct (rev !! tgt) as [l|] eqn:E.
  - case_decide as Hnil.
    + rewrite edges_delete. case_decide; [subst|done]. unfold edges. by rewrite E.
    + rewrite edges_insert. case_decide; [subst|done]. unfold edges. by rewrite E.
  - case_decide; [subst|done]. unfold edges. by rewrite E.
Qed.

Lemma unlink_ne id rev e :
  (∀ tgt, rev !! tgt ≠ Some []) → ∀ tgt, unlink id rev e !! tgt ≠ Some [].
Proof.
  intros Hne tgt. destruct e as [tag tgt0]. unfold unlink.
  destruct (rev !! tgt0); [|done]. case_decide.
  - rewrite lookup_delete. by case_decide.
  - rewrite lookup_insert. case_decide; [congruence|done].
Qed.

Lemma unlink_all_edges id es rev tgt tag' id' :
  (tag', id') ∈ edges (foldl (unlink id) rev es) tgt ↔
  (tag', id') ∈ edges rev tgt ∧ ¬ (id' = id ∧ (tag', tgt) ∈ es).
Proof.
  revert rev. induction es as [|[tag0 tgt0] es IH]; intros rev; simpl; [set_solver|].
  rewrite IH, unlink_edges. case_decide as E.
  - subst. rewrite list_elem_of_filter. set_solver.
  - set_solver.
Qed.

Lemma unlink_all_nodup id es rev :
  (∀ tgt, NoDup (edges rev tgt)) → ∀ tgt, NoDup (edges (foldl (unlink id) rev es) tgt).
Proof.
  revert rev. induction es as [|[tag0 tgt0] es IH]; intros rev Hnd; simpl; [done|].
  apply IH. intros tgt. rewrite unlink_edges. case_decide; [|done]. by apply NoDup_filter.
Qed.

Lemma unlink_all_ne id es rev :
  (∀ tgt, rev !! tgt ≠ Some []) → ∀ tgt, foldl (unlink id) rev es !! tgt ≠ Some [].
Proof.
  revert rev. induction es as [|e es IH]; intros rev Hne; simpl; [done|].
  apply IH. by apply unlink_ne.
Qed.

#[global] Instance adjacency_row_index : RowIndex t := {|
  ri_insert id row adj := Some (index_refs adj id row);
  ri_remove id row adj := Some (remove adj id);
  ri_models := models
|}.

Lemma index_refs_models adj rows id row :
  models adj rows → rows !! id = None → models (index_refs adj id row) (<[id := row]> rows).
Proof.
  intros M Hid. rewrite index_refs_foldl. fold (add_all id adj (refs_of row)). split.
  - intros id'. rewrite add_all_forward, (models_forward _ _ M), lookup_insert.
    case_decide; [subst; by rewrite Hid|by rewrite app_nil_r].
  - apply add_all_forward_ne, M.
  - intros tgt tag id'. rewrite add_all_reverse, (models_reverse _ _ M).
    setoid_rewrite lookup_insert_Some. split.
    + intros [(row' & Hr & He)|[-> He]]; [|naive_solver].
      exists row'. split; [right; split; congruence|done].
    + intros (row' & [[<- <-]|[Hne Hr]] & He); [by right|left; eauto].
  - apply add_all_reverse_nodup; [apply NoDup_refs_of|apply M|].
    intros tgt tag _ (row' & Hr & _)%(models_reverse _ _ M). congruence.
  - apply add_all_reverse_ne, M.
Qed.

Lemma remove_models adj rows id row :
  models adj rows → rows !! id = Some row → models (remove adj id) (delete id rows).
Proof.
  intros M Hid.
  assert (Hfw : edges (forward adj) id ≡ₚ refs_of row).
  { rewrite (models_forward _ _ M). by rewrite Hid. }
  assert (Heq : remove adj id =
    mk (delete id (forward adj)) (foldl (unlink id) (reverse adj) (edges (forward adj) id))).
  { unfold remove, edges. destruct (forward adj !! id) eqn:E; [done|].
    simpl. rewrite delete_id by done. by destruct adj. }
  rewrite Heq. split; simpl.
  - intros id'. rewrite edges_delete, lookup_delete. case_decide; [done|apply M].
  - intros id'. rewrite lookup_delete. case_decide; [done|apply M].
  - intros tgt tag id'. rewrite unlink_all_edges, (models_reverse _ _ M).
    setoid_rewrite Hfw. setoid_rewrite lookup_delete_Some. split.
    + intros [(row' & Hr & He) Hno]. exists row'. split; [split; [|done]|done].
      intros <-. apply Hno. split; [done|]. by simplify_eq.
    + intros (row' & [Hne Hr] & He). split; [by exists row'|]. by intros [-> _].
  - apply unlink_all_nodup, M.
  - apply unlink_all_ne, M.
Qed.

#[global] Instance adjacency_row_index_laws : RowIndexLaws t.
Proof.
  split; simpl; eauto using index_refs_models, remove_models.
Qed.

Lemma new_models_adj : models new ∅.
Proof.
  split; intros; unfold edges; simpl; rewrite ?lookup_empty; try done.
  - split; [set_solver|naive_solver].
  - constructor.
Qed.

(** ** Lookups *)

Lemma elem_of_sources_to adj rows tgt ref_type id :
  models adj rows →
  id ∈ sources_to adj tgt ref_type ↔
  ∃ row tag, rows !! id = Some row ∧ (tag, tgt) ∈ refs_of row ∧ ref_type_ok ref_type tag.
Proof.
  intros M. assert (sources_to adj tgt ref_type
    = (filter (λ '(rt, _), ref_type_ok ref_type rt) (edges (reverse adj) tgt)).*2) as ->.
  { unfold sources_to, edges. by destruct (reverse adj !! tgt). }
  rewrite list_elem_of_fmap. split.
  - intros ([tag id'] & -> & [Hok Hin]%list_elem_of_filter).
    apply (models_reverse _ _ M) in Hin as (row & Hr & He). by exists row, tag.
  - intros (row & tag & Hr & He & Hok). exists (tag, id). split; [done|].
    apply list_elem_of_filter. split; [done|]. apply (models_reverse _ _ M). eauto.
Qed.

Lemma targets_from_perm adj rows id ref_type row :
  models adj rows → rows !! id = Some row →
  targets_from adj id ref_type ≡ₚ
  (filter (λ '(rt, _), ref_type_ok ref_type rt) (refs_of row)).*2.
Proof.
  intros M Hid. pose proof (models_forward _ _ M id) as Hf. rewrite Hid in Hf.
  unfold edges in Hf. unfold targets_from. destruct (forward adj !! id); simpl in Hf.
  - by rewrite Hf.
  - apply Permutation_nil in Hf. by rewrite Hf.
Qed.
End lemmas.
End RefAdjacency.
