(* ===== verification/ValueIndex.v ===== *)
(** * Value indexes

    [haystack-core/src/graph/value_index.rs]: per registered field, an ordered
    map from numbers and strings to the numeric ids that hold them.  It
    implements [RowIndex]: a bucket holds exactly the rows with that value,
    each once.  The lookups are related to the filter comparison in
    [Query.v]. *)

From S2P Require Import Prelude Floats Kinds Extern Adjacency.

#[global] Instance f64_countable : Countable F64.f64.
Proof.
  refine (inj_countable' F64.to_bits F64.from_bits _).
  intros a. apply F64.to_bits_inj. simpl. apply Z.mod_small, F64.to_bits_bound.
Defined.

Module OrderableKind.

(** [OrderableKind]: the kinds that are indexed. *)
Inductive t : Type :=
| Num (v : F64.f64)
| Str (v : string).

#[global] Instance eq_dec : EqDecision t.
Proof. solve_decision. Defined.

#[global] Instance countable : Countable t.
Proof.
  refine (inj_countable'
    (λ k, match k with Num v => inl v | Str v => inr v end)
    (λ s, match s with inl v => Num v | inr v => Str v end) _).
  by intros [].
Defined.

(** [Ord for OrderableKind]. *)
Definition cmp (a b : t) : comparison :=
  match a, b with
  | Num a, Num b => F64.total_cmp a b
  | Str a, Str b => String.compare a b
  | Num _, Str _ => Lt
  | Str _, Num _ => Gt
  end.

(** [OrderableKind::from_kind]. *)
Definition from_kind (k : Kind) : option t :=
  match k with
  | KNumber n => Some (Num (num_val n))
  | KStr s => Some (Str s)
  | _ => None
  end.

Lemma string_compare_eq (a b : string) : String.compare a b = Eq ↔ a = b.
Proof.
  split; [apply String.compare_eq_iff|]. intros ->.
  destruct (String.compare b b) eqn:E; [done|..];
    pose proof (String.compare_antisym b b) as A; rewrite E in A; done.
Qed.

(** Keys that compare equal are the same key. *)
Lemma cmp_Eq a b : cmp a b = Eq ↔ a = b.
Proof.
  destruct a, b; simpl; try (split; congruence).
  - rewrite F64.total_cmp_Eq. naive_solver.
  - rewrite string_compare_eq. naive_solver.
Qed.

(** The order of the tree's keys. *)
Definition le (a b : t) : Prop := cmp a b ≠ Gt.
#[global] Instance le_dec : RelDecision le.
Proof. intros a b. unfold le. apply _. Defined.
Definition entry_le {V} (a b : t * V) : Prop := le a.1 b.1.
#[global] Instance entry_le_dec {V} : RelDecision (@entry_le V).
Proof. intros a b. unfold entry_le. apply _. Defined.

End OrderableKind.

Module ValueIndex.

Notation tree := (gmap OrderableKind.t (list N)).

Record t : Type := mk { indexes : gmap string tree }.

Definition new : t := mk ∅.

(** [ValueIndex::index_field]: [entry(field).or_default()]. *)
Definition index_field (vi : t) (field : string) : t :=
  mk (<[field := default ∅ (indexes vi !! field)]> (indexes vi)).

Definition has_index (vi : t) (field : string) : bool :=
  bool_decide (is_Some (indexes vi !! field)).

(** [ValueIndex::add]. *)
Definition add (vi : t) (entity_id : N) (field : string) (value : Kind) : t :=
  match indexes vi !! field, OrderableKind.from_kind value with
  | Some tr, Some key =>
      mk (<[field := <[key := edges tr key ++ [entity_id]]> tr]> (indexes vi))
  | _, _ => vi
  end.

(** [ValueIndex::remove]. *)
Definition remove (vi : t) (entity_id : N) (field : string) (value : Kind) : t :=
  match indexes vi !! field, OrderableKind.from_kind value with
  | Some tr, Some key =>
      match tr !! key with
      | Some ids =>
          let ids' := filter (λ id, id ≠ entity_id) ids in
          mk (<[field := if decide (ids' = []) then delete key tr else <[key := ids']> tr]>
                (indexes vi))
      | None => vi
      end
  | _, _ => vi
  end.

(** The entries of a tree in key order. *)
Definition tree_iter (tr : tree) : list (OrderableKind.t * list N) :=
  merge_sort OrderableKind.entry_le (map_to_list tr).

(** [tree.range(..)] over the keys that satisfy a bound, with the ids appended. *)
Definition range (P : OrderableKind.t → bool) (tr : tree) : list N :=
  concat ((filter (λ kv, P kv.1 = true) (tree_iter tr)).*2).

(** The shape of the four range lookups. *)
Definition range_lookup (P : comparison → bool) (vi : t) (field : string) (val : Kind) : list N :=
  match OrderableKind.from_kind val with
  | None => []
  | Some key =>
      match indexes vi !! field with
      | None => []
      | Some tr => range (λ k, P (OrderableKind.cmp k key)) tr
      end
  end.

Definition gt_lookup := range_lookup (λ c, match c with Gt => true | _ => false end).
Definition ge_lookup := range_lookup (λ c, match c with Lt => false | _ => true end).
Definition lt_lookup := range_lookup (λ c, match c with Lt => true | _ => false end).
Definition le_lookup := range_lookup (λ c, match c with Gt => false | _ => true end).

(** [ValueIndex::eq_lookup]. *)
Definition eq_lookup (vi : t) (field : string) (val : Kind) : list N :=
  match OrderableKind.from_kind val with
  | None => []
  | Some key =>
      match indexes vi !! field with
      | Some tr => match tr !! key with Some ids => ids | None => [] end
      | None => []
      end
  end.

(** [ValueIndex::ne_lookup]. *)
Definition ne_lookup (vi : t) (field : string) (val : Kind) : list N :=
  match OrderableKind.from_kind val with
  | None => []
  | Some key =>
      match indexes vi !! field with
      | None => []
      | Some tr =>
          let exclude := match tr !! key with Some ids => ids | None => [] end in
          if decide (exclude = []) then concat (tree_iter tr).*2
          else concat ((filter (λ kv, kv.1 ≠ key) (tree_iter tr)).*2)
      end
  end.

(** [ValueIndex::clear]. *)
Definition clear (vi : t) : t := mk ((λ _, ∅) <$> indexes vi).

Section order.
Context `{HashOrder}.

(** The value-index part of [EntityGraph::index_tags]. *)
Definition index_values (vi : t) (entity_id : N) (entity : HDict) : t :=
  foldl (λ vi '(name, val), if has_index vi name then add vi entity_id name val else vi)
        vi (HDict.iter entity).

(** The value-index part of [EntityGraph::remove_indexing]. *)
Definition remove_values (vi : t) (entity_id : N) (entity : HDict) : t :=
  foldl (λ vi '(name, val), if has_index vi name then remove vi entity_id name val else vi)
        vi (HDict.iter entity).
End order.

(** The ids in the bucket of a field's value. *)
Definition bucket (vi : t) (field : string) (key : OrderableKind.t) : list N :=
  edges (default ∅ (indexes vi !! field)) key.

Section lemmas.
Context `{HashOrderLaws}.
Implicit Types (vi : t) (rows : gmap N HDict).

(** The row holds an indexed value in the field. *)
Definition holds (row : HDict) (field : string) (key : OrderableKind.t) : Prop :=
  ∃ v, row !! field = Some v ∧ OrderableKind.from_kind v = Some key.

Record models vi rows : Prop := {
  models_bucket field key id : is_Some (indexes vi !! field) →
    id ∈ bucket vi field key ↔ ∃ row, rows !! id = Some row ∧ holds row field key;
  models_bucket_nodup field key : NoDup (bucket vi field key);
  models_bucket_ne field tr key :
    indexes vi !! field = Some tr → tr !! key ≠ Some []
}.

Lemma add_indexed vi id f v field :
  is_Some (indexes (add vi id f v) !! field) ↔ is_Some (indexes vi !! field).
Proof.
  unfold add. destruct (indexes vi !! f) eqn:E; [|done].
  destruct (OrderableKind.from_kind v); [|done].
  simpl. rewrite lookup_insert. case_decide; [subst|done].
  rewrite E. by split; eexists.
Qed.

Lemma remove_indexed vi id f v field :
  is_Some (indexes (remove vi id f v) !! field) ↔ is_Some (indexes vi !! field).
Proof.
  unfold remove. on_ok (indexes vi !! f) as [tr|] E.
  destruct (OrderableKind.from_kind v) as [k|]; [|done]. destruct (tr !! k); [|done].
  simpl. rewrite lookup_insert. case_decide; [subst|done].
  rewrite E. by split; eexists.
Qed.

Lemma add_bucket vi id f v field key :
  bucket (add vi id f v) field key =
  if decide (f = field ∧ OrderableKind.from_kind v = Some key ∧ is_Some (indexes vi !! f))
  then bucket vi field key ++ [id] else bucket vi field key.
Proof.
  unfold add. destruct (indexes vi !! f) as [tr|] eqn:E.
  2:{ rewrite decide_False; [done|]. intros (_ & _ & [? ?]). congruence. }
  destruct (OrderableKind.from_kind v) as [k|] eqn:Ek.
  2:{ rewrite decide_False; [done|]. naive_solver. }
  unfold bucket at 1. simpl. rewrite lookup_insert. case_decide as Ef.
  - subst f. simpl. rewrite RefAdjacency.edges_insert. case_decide as Ekk.
    + subst k. rewrite decide_True by (split_and!; [done..|eauto]).
      unfold bucket. by rewrite E.
    + rewrite decide_False by naive_solver. unfold bucket. by rewrite E.
  - rewrite decide_False by naive_solver. done.
Qed.

Lemma remove_bucket vi id f v field key :
  bucket (remove vi id f v) field key =
  if decide (f = field ∧ OrderableKind.from_kind v = Some key)
  then filter (λ x, x ≠ id) (bucket vi field key) else bucket vi field key.
Proof.
  unfold remove. destruct (indexes vi !! f) as [tr|] eqn:E.
  2:{ case_decide as Hd; [|done]. destruct Hd as [-> _]. unfold bucket. by rewrite E. }
  destruct (OrderableKind.from_kind v) as [k|] eqn:Ek.
  2:{ rewrite decide_False; [done|]. naive_solver. }
  destruct (tr !! k) as [ids|] eqn:Eids.
  - unfold bucket at 1. simpl. rewrite lookup_insert. case_decide as Ef.
    + subst f. simpl. assert (edges (if decide (filter (λ x, x ≠ id) ids = []) then delete k tr
        else <[k:=filter (λ x, x ≠ id) ids]> tr) key = if decide (k = key)
        then filter (λ x, x ≠ id) ids else edges tr key) as ->.
      { destruct (decide (filter _ ids = [])) as [Hn|Hn].
        - rewrite RefAdjacency.edges_delete. case_decide; congruence.
        - by rewrite RefAdjacency.edges_insert. }
      unfold bucket. rewrite E. simpl. case_decide as Ekk.
      * subst k. rewrite decide_True by done. unfold edges. by rewrite Eids.
      * rewrite decide_False by naive_solver. done.
    + rewrite decide_False by naive_solver. done.
  - case_decide as Hd; [|done]. destruct Hd as [-> [= ->]].
    unfold bucket, edges. rewrite E. simpl. by rewrite Eids.
Qed.

Lemma add_bucket_ne vi id f v :
  (∀ field tr key, indexes vi !! field = Some tr → tr !! key ≠ Some []) →
  ∀ field tr key, indexes (add vi id f v) !! field = Some tr → tr !! key ≠ Some [].
Proof.
  intros Hne field tr key. unfold add. destruct (indexes vi !! f) as [tr0|] eqn:E; [|apply Hne].
  destruct (OrderableKind.from_kind v) as [k|]; [|apply Hne].
  simpl. rewrite lookup_insert. case_decide; [|apply Hne].
  intros [= <-]. rewrite lookup_insert. case_decide; [|by eapply Hne].
  by destruct (edges tr0 k).
Qed.

Lemma remove_bucket_ne vi id f v :
  (∀ field tr key, indexes vi !! field = Some tr → tr !! key ≠ Some []) →
  ∀ field tr key, indexes (remove vi id f v) !! field = Some tr → tr !! key ≠ Some [].
Proof.
  intros Hne field tr key. unfold remove.
  destruct (indexes vi !! f) as [tr0|] eqn:E; [|apply Hne].
  destruct (OrderableKind.from_kind v) as [k|]; [|apply Hne].
  destruct (tr0 !! k) as [ids|] eqn:Eids; [|apply Hne].
  simpl. rewrite lookup_insert. case_decide; [|apply Hne].
  intros [= <-]. case_decide.
  - rewrite lookup_delete. case_decide; [done|by eapply Hne].
  - rewrite lookup_insert. case_decide; [congruence|by eapply Hne].
Qed.

(** One field of the loop of [index_tags], and of [remove_indexing]. *)
Definition add_step (id : N) (vi : t) (kv : string * Kind) : t :=
  if has_index vi kv.1 then add vi id kv.1 kv.2 else vi.
Definition remove_step (id : N) (vi : t) (kv : string * Kind) : t :=
  if has_index vi kv.1 then remove vi id kv.1 kv.2 else vi.

Lemma add_step_add id vi kv : add_step id vi kv = add vi id kv.1 kv.2.
Proof.
  unfold add_step, has_index. case_bool_decide as E; [done|].
  unfold add. destruct (indexes vi !! kv.1); [|done]. by destruct E.
Qed.
Lemma remove_step_remove id vi kv : remove_step id vi kv = remove vi id kv.1 kv.2.
Proof.
  unfold remove_step, has_index. case_bool_decide as E; [done|].
  unfold remove. destruct (indexes vi !! kv.1); [|done]. by destruct E.
Qed.

Lemma index_values_steps vi id row :
  index_values vi id row = foldl (add_step id) vi (HDict.iter row).
Proof.
  unfold index_values. generalize (HDict.iter row). intros l. revert vi.
  induction l as [|[k v] l IH]; intros vi; simpl; auto.
Qed.
Lemma remove_values_steps vi id row :
  remove_values vi id row = foldl (remove_step id) vi (HDict.iter row).
Proof.
  unfold remove_values. generalize (HDict.iter row). intros l. revert vi.
  induction l as [|[k v] l IH]; intros vi; simpl; auto.
Qed.

Lemma add_steps_bucket id l vi field key id' :
  is_Some (indexes vi !! field) →
  id' ∈ bucket (foldl (add_step id) vi l) field key ↔
  id' ∈ bucket vi field key ∨
  (id' = id ∧ ∃ v, (field, v) ∈ l ∧ OrderableKind.from_kind v = Some key).
Proof.
  revert vi. induction l as [|[k v] l IH]; intros vi Hix; simpl; [set_solver|].
  rewrite add_step_add. rewrite IH by (by apply add_indexed).
  rewrite add_bucket. case_decide as Hd; simpl in Hd.
  - destruct Hd as (-> & Hk & _). rewrite elem_of_app, list_elem_of_singleton.
    setoid_rewrite elem_of_cons. naive_solver.
  - setoid_rewrite elem_of_cons. split; [naive_solver|].
    intros [?|(-> & v' & [[= -> ->]|?] & Hv')]; [by left|naive_solver|naive_solver].
Qed.

Lemma remove_steps_bucket id l vi field key id' :
  id' ∈ bucket (foldl (remove_step id) vi l) field key ↔
  id' ∈ bucket vi field key ∧
  ¬ (id' = id ∧ ∃ v, (field, v) ∈ l ∧ OrderableKind.from_kind v = Some key).
Proof.
  revert vi. induction l as [|[k v] l IH]; intros vi; simpl; [set_solver|].
  rewrite remove_step_remove, IH, remove_bucket. setoid_rewrite elem_of_cons.
  case_decide as Hd; simpl in Hd.
  - destruct Hd as (-> & Hk). rewrite list_elem_of_filter. naive_solver.
  - naive_solver.
Qed.

Lemma add_steps_nodup id l vi :
  NoDup l.*1 →
  (∀ field key, NoDup (bucket vi field key)) →
  (∀ field key, field ∈ l.*1 → id ∉ bucket vi field key) →
  ∀ field key, NoDup (bucket (foldl (add_step id) vi l) field key).
Proof.
  revert vi. induction l as [|[k v] l IH]; intros vi Hl Hnd Hfresh; simpl; [done|].
  apply NoDup_cons in Hl as [Hk Hl]. rewrite add_step_add. apply IH; [done| |].
  - intros field key. rewrite add_bucket. case_decide as Hd; [|done].
    destruct Hd as (Hf & _ & _). simpl in Hf. subst k.
    apply NoDup_app. split; [done|]. split; [|apply NoDup_singleton].
    intros x Hx ->%list_elem_of_singleton. by apply (Hfresh field key); [left|].
  - intros field key Hin. rewrite add_bucket. rewrite decide_False.
    + apply Hfresh. by right.
    + simpl. by intros (-> & _ & _).
Qed.

Lemma remove_steps_nodup id l vi :
  (∀ field key, NoDup (bucket vi field key)) →
  ∀ field key, NoDup (bucket (foldl (remove_step id) vi l) field key).
Proof.
  revert vi. induction l as [|[k v] l IH]; intros vi Hnd; simpl; [done|].
  rewrite remove_step_remove. apply IH. intros field key.
  rewrite remove_bucket. case_decide; [by apply NoDup_filter|done].
Qed.

Lemma add_steps_indexed id l vi field :
  is_Some (indexes (foldl (add_step id) vi l) !! field) ↔ is_Some (indexes vi !! field).
Proof.
  revert vi. induction l as [|kv l IH]; intros vi; simpl; [done|].
  rewrite IH, add_step_add. apply add_indexed.
Qed.
Lemma remove_steps_indexed id l vi field :
  is_Some (indexes (foldl (remove_step id) vi l) !! field) ↔ is_Some (indexes vi !! field).
Proof.
  revert vi. induction l as [|kv l IH]; intros vi; simpl; [done|].
  rewrite IH, remove_step_remove. apply remove_indexed.
Qed.

Lemma add_steps_ne id l vi :
  (∀ field tr key, indexes vi !! field = Some tr → tr !! key ≠ Some []) →
  ∀ field tr key, indexes (foldl (add_step id) vi l) !! field = Some tr → tr !! key ≠ Some [].
Proof.
  revert vi. induction l as [|kv l IH]; intros vi Hne; simpl; [done|].
  apply IH. rewrite add_step_add. by apply add_bucket_ne.
Qed.
Lemma remove_steps_ne id l vi :
  (∀ field tr key, indexes vi !! field = Some tr → tr !! key ≠ Some []) →
  ∀ field tr key, indexes (foldl (remove_step id) vi l) !! field = Some tr → tr !! key ≠ Some [].
Proof.
  revert vi. induction l as [|kv l IH]; intros vi Hne; simpl; [done|].
  apply IH. rewrite remove_step_remove. by apply remove_bucket_ne.
Qed.

Lemma bucket_unindexed vi field key :
  ¬ is_Some (indexes vi !! field) → bucket vi field key = [].
Proof. unfold bucket. destruct (indexes vi !! field); [|done]. by intros []. Qed.

#[global] Instance value_row_index : RowIndex t := {|
  ri_insert id row vi := Some (index_values vi id row);
  ri_remove id row vi := Some (remove_values vi id row);
  ri_models := models
|}.

Lemma index_values_models vi rows id row :
  models vi rows → rows !! id = None → models (index_values vi id row) (<[id := row]> rows).
Proof.
  intros M Hid. rewrite index_values_steps. split.
  - intros field key id' Hix. apply add_steps_indexed in Hix.
    rewrite add_steps_bucket, (models_bucket _ _ M) by done.
    unfold holds. setoid_rewrite lookup_insert_Some. setoid_rewrite HDict.elem_of_iter. split.
    + intros [(row' & Hr & Hv)|(-> & Hv)]; [|by exists row; eauto].
      exists row'. split; [right; split; congruence|done].
    + intros (row' & [[<- <-]|[Hne Hr]] & Hv); [by right|left; eauto].
  - apply add_steps_nodup; [apply NoDup_hash_keys|apply M|].
    intros field key _. destruct (decide (is_Some (indexes vi !! field))) as [Hix|Hix].
    + rewrite (models_bucket _ _ M) by done. intros (row' & Hr & _). congruence.
    + rewrite bucket_unindexed by done. set_solver.
  - apply add_steps_ne, M.
Qed.

Lemma remove_values_models vi rows id row :
  models vi rows → rows !! id = Some row → models (remove_values vi id row) (delete id rows).
Proof.
  intros M Hid. rewrite remove_values_steps. split.
  - intros field key id' Hix. apply remove_steps_indexed in Hix.
    rewrite remove_steps_bucket, (models_bucket _ _ M) by done.
    unfold holds. setoid_rewrite lookup_delete_Some. setoid_rewrite HDict.elem_of_iter. split.
    + intros [(row' & Hr & Hv) Hno]. exists row'. split; [split; [|done]|done].
      intros <-. apply Hno. simplify_eq. done.
    + intros (row' & [Hne Hr] & Hv). split; [by exists row'|]. by intros [-> _].
  - apply remove_steps_nodup, M.
  - apply remove_steps_ne, M.
Qed.

#[global] Instance value_row_index_laws : RowIndexLaws t.
Proof. split; simpl; eauto using index_values_models, remove_values_models. Qed.

(** ** Lookups *)

Lemma elem_of_range P tr id :
  id ∈ range P tr ↔ ∃ key, P key = true ∧ id ∈ edges tr key.
Proof.
  unfold range. rewrite elem_of_concat. setoid_rewrite list_elem_of_fmap. split.
  - intros (ids & ([key ids'] & -> & [HP Hin]%list_elem_of_filter) & Hid).
    exists key. split; [done|]. unfold tree_iter in Hin.
    rewrite merge_sort_Permutation, elem_of_map_to_list in Hin. unfold edges. by rewrite Hin.
  - intros (key & HP & Hid). unfold edges in Hid.
    destruct (tr !! key) as [ids|] eqn:Htr; simpl in Hid; [|set_solver].
    exists ids. split; [|done]. exists (key, ids). split; [done|]. apply list_elem_of_filter.
    split; [done|]. unfold tree_iter. by rewrite merge_sort_Permutation, elem_of_map_to_list.
Qed.

Lemma elem_of_range_lookup P vi field val key id :
  is_Some (indexes vi !! field) → OrderableKind.from_kind val = Some key →
  id ∈ range_lookup P vi field val ↔
  ∃ k, P (OrderableKind.cmp k key) = true ∧ id ∈ bucket vi field k.
Proof.
  intros [tr Htr] Hkey. unfold range_lookup, bucket. rewrite Hkey, Htr. simpl. apply elem_of_range.
Qed.

Lemma elem_of_eq_lookup vi field val key id :
  OrderableKind.from_kind val = Some key →
  id ∈ eq_lookup vi field val ↔ id ∈ bucket vi field key.
Proof.
  intros Hkey. unfold eq_lookup, bucket, edges. rewrite Hkey.
  destruct (indexes vi !! field) as [tr|]; simpl.
  - by destruct (tr !! key).
  - rewrite lookup_empty. done.
Qed.

(** ** Filling an index from a list of rows *)

Section fill.
Context (part : HDict → list (string * Kind)).

(** The values of a row that are added: one field, or all. *)
Definition fill_step vi (r : N * HDict) : t := foldl (add_step r.1) vi (part r.2).

Lemma fill_indexed l vi field :
  is_Some (indexes (foldl fill_step vi l) !! field) ↔ is_Some (indexes vi !! field).
Proof.
  revert vi. induction l as [|r l IH]; intros vi; cbn [foldl]; [done|].
  rewrite IH. apply add_steps_indexed.
Qed.

Lemma fill_bucket l vi field key id :
  is_Some (indexes vi !! field) →
  id ∈ bucket (foldl fill_step vi l) field key ↔
  id ∈ bucket vi field key ∨
  ∃ row v, (id, row) ∈ l ∧ (field, v) ∈ part row ∧ OrderableKind.from_kind v = Some key.
Proof.
  revert vi. induction l as [|[i row] l IH]; intros vi Hf; cbn [foldl]; [set_solver|].
  rewrite IH by (by apply add_steps_indexed). unfold fill_step at 1. simpl.
  rewrite add_steps_bucket by done. split.
  - intros [[?|[-> (v & ? & ?)]]|(row' & v & ? & ? & ?)]; [by left|right..].
    + exists row, v. split; [left|done].
    + exists row', v. split; [by right|done].
  - intros [?|(row' & v & [[= -> ->]|?]%elem_of_cons & ? & ?)]; [by left; left|..].
    + left. right. split; [done|]. by exists v.
    + right. by exists row', v.
Qed.

Lemma fill_nodup l vi :
  (∀ row, NoDup (part row).*1) → NoDup l.*1 →
  (∀ field key, NoDup (bucket vi field key)) →
  (∀ id row field key, (id, row) ∈ l → field ∈ (part row).*1 → id ∉ bucket vi field key) →
  ∀ field key, NoDup (bucket (foldl fill_step vi l) field key).
Proof.
  intros Hpart. revert vi. induction l as [|[i row] l IH]; intros vi Hnd Hb Hfresh; cbn [foldl]; [done|].
  simpl in Hnd. apply NoDup_cons in Hnd as [Hi Hnd]. apply IH; [done|..].
  - unfold fill_step. apply add_steps_nodup; [by apply Hpart|done|].
    intros field key Hf. apply (Hfresh i row); [left|done].
  - intros id row' field key Hin Hf. unfold fill_step. simpl.
    destruct (decide (is_Some (indexes vi !! field))) as [Hs|Hs].
    + rewrite add_steps_bucket by done. intros [Hin'|[-> _]].
      * eapply (Hfresh id row'); [by right|done|done].
      * apply Hi. apply list_elem_of_fmap. by exists (i, row').
    + rewrite bucket_unindexed by (by rewrite add_steps_indexed). set_solver.
Qed.

Lemma fill_ne l vi :
  (∀ field tr key, indexes vi !! field = Some tr → tr !! key ≠ Some []) →
  ∀ field tr key, indexes (foldl fill_step vi l) !! field = Some tr → tr !! key ≠ Some [].
Proof.
  revert vi. induction l as [|r l IH]; intros vi Hne; cbn [foldl]; [done|].
  apply IH. by apply add_steps_ne.
Qed.
End fill.

Lemma index_field_indexes vi f field :
  indexes (index_field vi f) !! field =
  if decide (f = field) then Some (default ∅ (indexes vi !! field)) else indexes vi !! field.
Proof. unfold index_field. simpl. rewrite lookup_insert. by case_decide; subst. Qed.

Lemma index_field_bucket vi f field key :
  bucket (index_field vi f) field key = bucket vi field key.
Proof. unfold bucket. rewrite index_field_indexes. by case_decide. Qed.

Lemma clear_bucket vi field key : bucket (clear vi) field key = [].
Proof.
  unfold bucket, clear. simpl. rewrite lookup_fmap.
  destruct (indexes vi !! field); simpl; unfold edges; by rewrite lookup_empty.
Qed.

Lemma clear_indexed vi field :
  is_Some (indexes (clear vi) !! field) ↔ is_Some (indexes vi !! field).
Proof. unfold clear. simpl. by rewrite lookup_fmap, fmap_is_Some. Qed.

(** An empty index over no rows, whatever the registered fields. *)
Lemma new_models_fields fields : models (foldl index_field new fields) ∅.
Proof.
  assert (Hb : ∀ fields vi, (∀ field key, bucket vi field key = []) →
    (∀ field tr key, indexes vi !! field = Some tr → tr !! key = None) →
    models (foldl index_field vi fields) ∅).
  { clear fields. induction fields as [|f fields IH]; intros vi Hb Hn; cbn [foldl].
    - split.
      + intros field key id _. rewrite Hb, elem_of_nil. setoid_rewrite lookup_empty. naive_solver.
      + intros field key. rewrite Hb. constructor.
      + intros field tr key Htr. by rewrite (Hn field tr key).
    - apply IH; [intros; by rewrite index_field_bucket|].
      intros field tr key. rewrite index_field_indexes. case_decide; [|by apply Hn].
      intros [= <-]. destruct (indexes vi !! field) eqn:Ht; simpl; [by eapply Hn|].
      apply lookup_empty. }
  apply Hb; [done|]. by intros.
Qed.

(** Registering a field and backfilling it from the rows. *)
Definition field_part (f : string) (row : HDict) : list (string * Kind) :=
  match row !! f with Some v => [(f, v)] | None => [] end.

Lemma backfill_models vi rows f l :
  models vi rows → indexes vi !! f = None → l ≡ₚ map_to_list rows →
  models (foldl (fill_step (field_part f)) (index_field vi f) l) rows.
Proof.
  intros [Hb Hnd Hne] Hf Hl.
  assert (Hempty : ∀ key, bucket vi f key = []).
  { intros key. apply bucket_unindexed. rewrite Hf. by intros []. }
  split.
  - intros field key id. rewrite fill_indexed. intros Hs. rewrite fill_bucket by done.
    rewrite index_field_bucket. rewrite index_field_indexes in Hs.
    setoid_rewrite Hl. setoid_rewrite elem_of_map_to_list. unfold field_part, holds.
    case_decide as E; [subst field; rewrite Hempty|rewrite Hb by done].
    + split; [intros [?%elem_of_nil|(row & v & Hr & Hv & Hk)]; [done|]|].
      * exists row. split; [done|]. exists v. destruct (row !! f); set_solver.
      * intros (row & Hr & v & Hv & Hk). right. exists row, v. rewrite Hv. set_solver.
    + split; [|by left]. intros [?|(row & v & _ & Hv & _)]; [done|].
      destruct (row !! f); set_solver.
  - apply fill_nodup.
    + intros row. unfold field_part. destruct (row !! f); [apply NoDup_singleton|constructor].
    + rewrite Hl. apply NoDup_fst_map_to_list.
    + intros. by rewrite index_field_bucket.
    + intros id row field key _ Hin. rewrite index_field_bucket.
      assert (field = f) as ->; [|rewrite Hempty; set_solver].
      unfold field_part in Hin. destruct (row !! f); set_solver.
  - apply fill_ne. intros field tr key. rewrite index_field_indexes.
    case_decide; [subst; rewrite Hf; intros [= <-]; simpl; by rewrite lookup_empty|by apply Hne].
Qed.

(** Rebuilding every registered field from the rows. *)
Lemma rebuild_models vi rows l :
  l ≡ₚ map_to_list rows → models (foldl (fill_step HDict.iter) (clear vi) l) rows.
Proof.
  intros Hl. split.
  - intros field key id. rewrite fill_indexed. intros Hs. rewrite fill_bucket by done.
    rewrite clear_bucket. setoid_rewrite Hl. setoid_rewrite elem_of_map_to_list.
    setoid_rewrite HDict.elem_of_iter. unfold holds. set_solver.
  - apply fill_nodup.
    + intros row. apply NoDup_hash_keys.
    + rewrite Hl. apply NoDup_fst_map_to_list.
    + intros. rewrite clear_bucket. constructor.
    + intros. rewrite clear_bucket. set_solver.
  - apply fill_ne. intros field tr key. unfold clear. simpl. rewrite lookup_fmap.
    destruct (indexes vi !! field); simpl; [|done]. intros [= <-]. by rewrite lookup_empty.
Qed.
End lemmas.
End ValueIndex.
