(* ===== verification/Filter.v ===== *)
(** * Filters: syntax and evaluation

    [haystack-core/src/filter/ast.rs] and [filter/eval.rs].  The ontology
    namespace that answers spec terms ([haystack-core/src/ontology]) is an
    interface here: evaluation only asks it whether a term resolves and
    whether an entity fits it. *)

From S2P Require Import Prelude Floats Kinds.

Inductive CmpOp : Type := CEq | CNe | CLt | CLe | CGt | CGe.
#[export] Instance CmpOp_eq_dec : EqDecision CmpOp.
Proof. solve_decision. Defined.

(** A dotted path; the parser builds non-empty ones only. *)
Abbreviation Path := (list string).

Inductive FilterNode : Type :=
| Has (path : Path)
| Missing (path : Path)
| Cmp (path : Path) (op : CmpOp) (val : Kind)
| And (left right : FilterNode)
| Or (left right : FilterNode)
| SpecMatch (spec : string).

(** [Path::is_single]. *)
Definition is_single (path : Path) : bool := bool_decide (length path = 1).

(** [QueryContext] of [xeto/fitting.rs]: following a reference, and finding
    the entities that point at one through a tag.  [ctx_fuel] is not in the
    source: how many references a traversal through the context may follow,
    which makes traversals total functions.  The graph gives as many as it
    has entities and one more, which is enough ([Fitting.v]). *)
Record QueryContext : Type := mkQueryContext {
  ctx_forward : HRef → option HDict;
  ctx_inverse : option (HRef → string → list HDict);
  ctx_fuel : nat
}.

(** What is reported about an entity by validation. *)
Record ValidationIssue : Type := mkIssue {
  issue_entity : option string; issue_type : string; issue_detail : string }.

(** The ontology namespace as its clients see it. *)
Class Ontology : Type := {
  DefNamespace : Type;
  resolve_spec_term : DefNamespace → string → bool;
  fits_spec_term_with : DefNamespace → HDict → string → option QueryContext → bool;
  validate_entity : DefNamespace → HDict → list ValidationIssue
}.

(** No namespace: the instance for graphs that carry none. *)
Definition no_ontology : Ontology := {|
  DefNamespace := Empty_set;
  resolve_spec_term _ _ := false;
  fits_spec_term_with _ _ _ _ := false;
  validate_entity _ _ := []
|}.

(** ** Paths *)

(** The loop of [resolve_path]: every segment but the last is a [Ref]. *)
Fixpoint walk_path (forward : HRef → option HDict) (entity : HDict) (path : Path)
    : option Kind :=
  match path with
  | [] => None
  | [last] => HDict.get entity last
  | seg :: rest =>
      match HDict.get entity seg with
      | Some (KRef r) => entity' ← forward r; walk_path forward entity' rest
      | _ => None
      end
  end.

(** [resolve_path]. *)
Definition resolve_path (path : Path) (entity : HDict) (ctx : option QueryContext)
    : option Kind :=
  match path with
  | [name] => HDict.get entity name
  | _ => ctx ← ctx; walk_path (ctx_forward ctx) entity path
  end.

(** ** Comparison *)

(** The ordering of two values, when they are comparable. *)
Definition kind_partial_cmp (actual expected : Kind) : option comparison :=
  match actual, expected with
  | KNumber a, KNumber b => Number_partial_cmp a b
  | KInt a, KInt b => Some (a ?= b)%Z
  | KFloat a, KFloat b => F64.partial_cmp a b
  | KStr a, KStr b => Some (String.compare a b)
  | KDate a, KDate b => Some (a ?= b)%Z
  | KTime a, KTime b => Some (NaiveTime_cmp a b)
  | KDateTime a, KDateTime b => Some (dt_instant a ?= dt_instant b)%Z
  | _, _ => None
  end.

(** [ordered_cmp]. *)
Definition ordered_cmp (actual : Kind) (op : CmpOp) (expected : Kind) : bool :=
  match kind_partial_cmp actual expected with
  | Some ord =>
      match op, ord with
      | CLt, Lt => true
      | CLe, (Lt | Eq) => true
      | CGt, Gt => true
      | CGe, (Gt | Eq) => true
      | _, _ => false
      end
  | None => false
  end.

(** [compare] on [CmpOp::Eq]. *)
Definition compare_eq (actual expected : Kind) : bool :=
  match actual, expected with
  | KFloat a, KFloat b => F64.float_eq a b
  | _, _ => kind_eqb actual expected
  end.

(** [compare]. *)
Definition compare (actual : Kind) (op : CmpOp) (expected : Kind) : bool :=
  match op with
  | CEq => compare_eq actual expected
  | CNe => negb (compare_eq actual expected)
  | _ => ordered_cmp actual op expected
  end.

(** ** Evaluation *)

Section eval.
Context `{Ontology}.

(** [matches_with_ns]. *)
Fixpoint matches_with_ns (node : FilterNode) (entity : HDict) (ctx : option QueryContext)
    (namespace : option DefNamespace) : bool :=
  match node with
  | Has path => bool_decide (is_Some (resolve_path path entity ctx))
  | Missing path => negb (bool_decide (is_Some (resolve_path path entity ctx)))
  | Cmp path op val =>
      match resolve_path path entity ctx with
      | Some actual => compare actual op val
      | None => false
      end
  | And l r =>
      matches_with_ns l entity ctx namespace && matches_with_ns r entity ctx namespace
  | Or l r =>
      matches_with_ns l entity ctx namespace || matches_with_ns r entity ctx namespace
  | SpecMatch spec =>
      match namespace with
      | Some ns => fits_spec_term_with ns entity spec ctx
      | None => false
      end
  end.

(** [matches]. *)
Definition matches (node : FilterNode) (entity : HDict) (ctx : option QueryContext) : bool :=
  matches_with_ns node entity ctx None.

(** [collect_unresolved], with the accumulated output. *)
Fixpoint collect_unresolved (node : FilterNode) (namespace : option DefNamespace)
    (out : list string) : list string :=
  match node with
  | SpecMatch spec =>
      let known := match namespace with Some ns => resolve_spec_term ns spec | None => false end in
      if negb known && bool_decide (spec ∉ out) then out ++ [spec] else out
  | And l r | Or l r => collect_unresolved r namespace (collect_unresolved l namespace out)
  | Has _ | Missing _ | Cmp _ _ _ => out
  end.

(** [unresolved_specs]. *)
Definition unresolved_specs (node : FilterNode) (namespace : option DefNamespace) : list string :=
  collect_unresolved node namespace [].

(** The spec terms of a filter. *)
Fixpoint spec_terms (node : FilterNode) : list string :=
  match node with
  | SpecMatch spec => [spec]
  | And l r | Or l r => spec_terms l ++ spec_terms r
  | _ => []
  end.

Definition known_term (namespace : option DefNamespace) (spec : string) : bool :=
  match namespace with Some ns => resolve_spec_term ns spec | None => false end.

Lemma collect_unresolved_spec node namespace out :
  NoDup out →
  NoDup (collect_unresolved node namespace out) ∧
  ∀ spec, spec ∈ collect_unresolved node namespace out ↔
    spec ∈ out ∨ (spec ∈ spec_terms node ∧ known_term namespace spec = false).
Proof.
  revert out. induction node as [| | |l IHl r IHr|l IHl r IHr|s]; intros out Hnd; simpl.
  1-3: split; [done|]; set_solver.
  1-2: destruct (IHl out Hnd) as [Hndl Hl]; destruct (IHr _ Hndl) as [Hndr Hr];
    (split; [done|]); intros spec; rewrite Hr, Hl, elem_of_app; tauto.
  fold (known_term namespace s).
  destruct (known_term namespace s) eqn:Hk; simpl; [|case_bool_decide as Hin].
  - split; [done|]. intros spec. rewrite list_elem_of_singleton.
    split; [by left|]. intros [?|[-> ?]]; [done|congruence].
  - split.
    + apply NoDup_app. split; [done|]. split; [|apply NoDup_singleton].
      by intros x Hx ->%list_elem_of_singleton.
    + intros spec. rewrite elem_of_app, list_elem_of_singleton.
      split; [intros [?| ->]; auto|intros [?|[-> _]]; auto].
  - split; [done|]. intros spec. rewrite list_elem_of_singleton.
    split; [by left|]. by intros [?|[-> ?]].
Qed.
End eval.
