(* ===== verification/FilterParser.v ===== *)
(** * Filter parser

    [haystack-core/src/filter/parser.rs], the recursive descent parser.  Its
    state is the unread input with its position, the nesting depth, the
    number of AST nodes and the state of the caller's checkpoint callback.
    The input is UTF-8 bytes; only [at_keyword] looks at a character beyond
    ASCII, whose class comes from the Unicode tables ([unicode_alphanumeric]).
    Scalar literals are read by the Zinc codec, an interface here.

    The productions recurse on fuel: every call spends one unit, and
    [3 * (length + 1)] units are enough for any input
    ([parse_controlled_spec] in [FilterParserFacts.v]), so [None], fuel exhaustion, is never returned. *)

From Stdlib Require Import Ascii.
From stdpp Require Import pretty.
From S2P Require Import Prelude Floats Kinds Filter.

(** ** Characters *)

Definition ascii_in (lo hi : N) (c : ascii) : bool :=
  bool_decide (lo ≤ N_of_ascii c ≤ hi)%N.
Definition is_ascii_alphabetic (c : ascii) : bool := ascii_in 65 90 c || ascii_in 97 122 c.
Definition is_ascii_alphanumeric (c : ascii) : bool := is_ascii_alphabetic c || ascii_in 48 57 c.
Definition name_char (c : ascii) : bool := is_ascii_alphanumeric c || bool_decide (c = "_"%char).

(** The code point [chars().next()] decodes from well-formed UTF-8. *)
Definition byte_at (s : string) (i : nat) : N :=
  match String.get i s with Some c => N_of_ascii c | None => 0%N end.
Definition next_char (s : string) : option N :=
  match s with
  | EmptyString => None
  | String c _ =>
      let b := N_of_ascii c in
      let cont (i : nat) := (byte_at s i `mod` 64)%N in
      Some (if decide (b < 128)%N then b
            else if decide (b < 224)%N then b `mod` 32 * 64 + cont 1%nat
            else if decide (b < 240)%N then b `mod` 16 * 4096 + cont 1%nat * 64 + cont 2%nat
            else b `mod` 8 * 262144 + cont 1%nat * 4096 + cont 2%nat * 64 + cont 3%nat)%N
  end.

(** What the parser takes from the Unicode tables and from the Zinc codec:
    the class of a character, and reading one scalar, with the number of
    bytes it takes, or an error as displayed. *)
Class Lexical : Type := {
  unicode_alphanumeric : N → bool;
  zinc_read_val : string → result string (Kind * N)
}.

Class LexicalLaws `{Lexical} : Prop :=
  zinc_read_val_le : ∀ s v n, zinc_read_val s = Ok (v, n) → (n ≤ str_len s)%N.

(** ** State and errors *)

Inductive FilterError : Type :=
| Parse (pos : N) (message : string)
| Limit
| Interrupted.

Record FilterParseLimits : Type := mkLimits { max_bytes : N; max_nodes : N; max_depth : N }.

Definition MAX_DEPTH : N := 100.

Record ParsedNode : Type := mkParsed { pn_ast : FilterNode; pn_depth : N }.

Fixpoint drop_str (n : nat) (s : string) : string :=
  match n, s with
  | 0, _ => s
  | S n, String _ s => drop_str n s
  | S _, EmptyString => EmptyString
  end.

Module FilterParser.
Section model.
Context `{Lexical} {C : Type} (check : C → result FilterError C) (limits : FilterParseLimits).

Record t : Type := mk { rest : string; pos : N; depth : N; nodes : N; chk : C }.

Definition set_input r p st := mk r p (depth st) (nodes st) (chk st).
Definition set_depth d st := mk (rest st) (pos st) d (nodes st) (chk st).
Definition set_nodes n st := mk (rest st) (pos st) (depth st) n (chk st).
Definition set_chk c st := mk (rest st) (pos st) (depth st) (nodes st) c.

(** Parsing actions: [None] when the fuel runs out. *)
Definition M (A : Type) : Type := t → option (result FilterError (A * t)).
#[global] Instance M_ret : MRet M := λ A a st, Some (Ok (a, st)).
#[global] Instance M_bind : MBind M := λ A B k m st,
  match m st with
  | Some (Ok (a, st)) => k a st
  | Some (Err e) => Some (Err e)
  | None => None
  end.
Definition gets {A} (f : t → A) : M A := λ st, Some (Ok (f st, st)).
Definition modify (f : t → t) : M unit := λ st, Some (Ok ((), f st)).
Definition fail {A} (e : FilterError) : M A := λ _, Some (Err e).
(** [self.err(msg)] as the error. *)
Definition err {A} (msg : string) : M A := λ st, Some (Err (Parse (pos st) msg)).
Definition out_of_fuel {A} : M A := λ _, None.

Definition run_check : M unit := λ st,
  match check (chk st) with
  | Ok c => Some (Ok ((), set_chk c st))
  | Err e => Some (Err e)
  end.

Definition reserve_node (d : N) : M unit :=
  run_check;;
  n ← gets nodes;
  if bool_decide (max_nodes limits ≤ n)%N || bool_decide (max_depth limits < d)%N then fail Limit
  else modify (set_nodes (n + 1)).

Definition enter_depth : M unit :=
  run_check;;
  d ← gets depth;
  modify (set_depth (d + 1));;
  if decide (MAX_DEPTH < d + 1)%N then err "filter expression exceeds maximum nesting depth"
  else mret ().

Definition exit_depth : M unit := modify (λ st, set_depth (depth st - 1) st).

Definition at_end : M bool := gets (λ st, bool_decide (rest st = "")).

Definition peek_str (s : string) : option ascii :=
  match s with EmptyString => None | String c _ => Some c end.
Definition peek : M (option ascii) := gets (λ st, peek_str (rest st)).

(** [self.pos += n]. *)
Definition advance (n : nat) : M unit :=
  modify (λ st, set_input (drop_str n (rest st)) (pos st + N.of_nat n) st).

Fixpoint spaces (s : string) : nat :=
  match s with
  | String c s => if bool_decide (c = " "%char) || bool_decide (c = "009"%char)
                  then S (spaces s) else 0
  | EmptyString => 0
  end.
Definition skip_spaces : M unit := n ← gets (λ st, spaces (rest st)); advance n.

(** A position the parser may return to. *)
Definition mark : M (string * N) := gets (λ st, (rest st, pos st)).
Definition restore (m : string * N) : M unit := modify (set_input m.1 m.2).

Definition is_alphanumeric (c : N) : bool :=
  if decide (c < 128)%N then is_ascii_alphanumeric (ascii_of_N c) else unicode_alphanumeric c.

Definition keyword_here (kw s : string) : bool :=
  String.prefix kw s &&
  match next_char (drop_str (String.length kw) s) with
  | None => true
  | Some c => negb (is_alphanumeric c) && bool_decide (c ≠ N_of_ascii "_"%char)
  end.
Definition at_keyword (kw : string) : M bool := gets (λ st, keyword_here kw (rest st)).

Definition consume_keyword (kw : string) : M bool :=
  b ← at_keyword kw;
  if b : bool then advance (String.length kw);; mret true else mret false.

(** The name at the front of the input. *)
Fixpoint name_chars (s : string) : string :=
  match s with
  | String c s => if name_char c then String c (name_chars s) else EmptyString
  | EmptyString => EmptyString
  end.
Definition name_at (s : string) : option string :=
  match s with
  | String c s => if is_ascii_alphabetic c then Some (String c (name_chars s)) else None
  | EmptyString => None
  end.
Definition read_name : M (option string) :=
  n ← gets (λ st, name_at (rest st));
  match n with
  | Some name => advance (String.length name);; mret (Some name)
  | None => mret None
  end.

Definition try_consume_str (s : string) : M bool :=
  b ← gets (λ st, String.prefix s (rest st));
  if b : bool then advance (String.length s);; mret true else mret false.

(** The hyphenated parts of [read_spec_type_name]. *)
Fixpoint spec_parts (fuel : nat) (name : string) : M (option string) :=
  match fuel with
  | 0 => out_of_fuel
  | S fuel =>
      hyphen ← gets (λ st, match rest st with
                 | String "-"%char (String c _) => is_ascii_alphabetic c
                 | _ => false
                 end);
      if hyphen : bool then
        advance 1;;
        part ← read_name;
        match part with
        | Some part => spec_parts fuel (name +:+ "-" +:+ part)
        | None => mret None
        end
      else mret (Some name)
  end.
Definition read_spec_type_name : M (option string) :=
  name ← read_name;
  match name with
  | Some name => fuel ← gets (λ st, S (String.length (rest st))); spec_parts fuel name
  | None => mret None
  end.

(** The segments after [->]. *)
Fixpoint path_parts (fuel : nat) (segments : list string) : M Path :=
  match fuel with
  | 0 => out_of_fuel
  | S fuel =>
      arrow ← try_consume_str "->";
      if arrow : bool then
        seg ← read_name;
        match seg with
        | Some seg => path_parts fuel (segments ++ [seg])
        | None => err "expected tag name after '->'"
        end
      else mret segments
  end.
Definition path_rest (first : string) : M Path :=
  fuel ← gets (λ st, S (String.length (rest st))); path_parts fuel [first].
Definition read_path : M Path :=
  first ← read_name;
  match first with
  | Some first => path_rest first
  | None => err "expected tag name"
  end.

Definition read_cmp_op : M (option CmpOp) :=
  skip_spaces;;
  b ← try_consume_str "=="; if b : bool then mret (Some CEq) else
  b ← try_consume_str "!="; if b : bool then mret (Some CNe) else
  b ← try_consume_str "<="; if b : bool then mret (Some CLe) else
  b ← try_consume_str ">="; if b : bool then mret (Some CGe) else
  b ← try_consume_str "<"; if b : bool then mret (Some CLt) else
  b ← try_consume_str ">"; if b : bool then mret (Some CGt) else mret None.

Definition read_val : M Kind :=
  run_check;; skip_spaces;;
  v ← gets (λ st, zinc_read_val (rest st));
  match v with
  | Err e => err ("invalid value: " +:+ e)
  | Ok (val, n) => advance (N.to_nat n);; run_check;; mret val
  end.

(** The type name after [::], which makes a spec match. *)
Definition spec_match (qualifier : string) : M ParsedNode :=
  type_name ← read_spec_type_name;
  match type_name with
  | Some type_name => mret (mkParsed (SpecMatch (qualifier +:+ "::" +:+ type_name)) 1)
  | None => err "expected type name after '::'"
  end.

(** The loop over dotted names: a spec match, or the dotted name read. *)
Fixpoint dotted_parts (fuel : nat) (full_name : string) (dot_pos : string * N)
    : M (ParsedNode + string) :=
  match fuel with
  | 0 => out_of_fuel
  | S fuel =>
      c ← peek;
      if decide (c = Some "."%char) then
        advance 1;;
        seg ← read_name;
        match seg with
        | Some seg =>
            let full_name := full_name +:+ "." +:+ seg in
            dot_pos ← mark;
            colons ← try_consume_str "::";
            if colons : bool then node ← spec_match full_name; mret (inl node)
            else dotted_parts fuel full_name dot_pos
        | None => restore dot_pos;; mret (inr full_name)
        end
      else mret (inr full_name)
  end.

(** [full_name.contains('.')]. *)
Fixpoint contains_dot (s : string) : bool :=
  match s with
  | String c s => bool_decide (c = "."%char) || contains_dot s
  | EmptyString => false
  end.

(** The rest of a term that starts with a name: a path, with or without a
    comparison. *)
Definition cmp_or_has (first_name : string) : M ParsedNode :=
  path ← path_rest first_name;
  pre_op_pos ← mark;
  op ← read_cmp_op;
  match op with
  | Some op => val ← read_val; mret (mkParsed (Cmp path op val) 1)
  | None => restore pre_op_pos;; mret (mkParsed (Has path) 1)
  end.

(** A term that is not parenthesised: [not] and a path, a spec match, or a
    path with or without a comparison. *)
Definition atom_body : M ParsedNode :=
  not_here ← at_keyword "not";
  if not_here : bool then
    consume_keyword "not";; skip_spaces;;
    path ← read_path;
    mret (mkParsed (Missing path) 1)
  else
    first ← read_name;
    match first with
    | None => err "expected tag name, 'not', or '('"
    | Some first_name =>
        colons ← try_consume_str "::";
        if colons : bool then spec_match first_name
        else
          after_first ← mark;
          fuel ← gets (λ st, S (String.length (rest st)));
          dotted ← dotted_parts fuel first_name after_first;
          match dotted with
          | inl node => mret node
          | inr full_name =>
              (if contains_dot full_name then restore after_first else mret ());;
              cmp_or_has first_name
          end
    end.
Definition parse_atom : M ParsedNode := reserve_node 1;; atom_body.

(** ** Productions *)

Fixpoint parse_cond_or (fuel : nat) : M ParsedNode :=
  match fuel with
  | 0 => out_of_fuel
  | S fuel =>
      enter_depth;;
      left ← parse_cond_and fuel;
      left ← or_loop fuel left;
      exit_depth;; mret left
  end
with or_loop (fuel : nat) (left : ParsedNode) : M ParsedNode :=
  match fuel with
  | 0 => out_of_fuel
  | S fuel =>
      skip_spaces;;
      b ← consume_keyword "or";
      if b : bool then
        skip_spaces;;
        right ← parse_cond_and fuel;
        let d := (1 + N.max (pn_depth left) (pn_depth right))%N in
        reserve_node d;;
        or_loop fuel (mkParsed (Or (pn_ast left) (pn_ast right)) d)
      else mret left
  end
with parse_cond_and (fuel : nat) : M ParsedNode :=
  match fuel with
  | 0 => out_of_fuel
  | S fuel =>
      enter_depth;;
      left ← parse_term fuel;
      left ← and_loop fuel left;
      exit_depth;; mret left
  end
with and_loop (fuel : nat) (left : ParsedNode) : M ParsedNode :=
  match fuel with
  | 0 => out_of_fuel
  | S fuel =>
      skip_spaces;;
      b ← consume_keyword "and";
      if b : bool then
        skip_spaces;;
        right ← parse_term fuel;
        let d := (1 + N.max (pn_depth left) (pn_depth right))%N in
        reserve_node d;;
        and_loop fuel (mkParsed (And (pn_ast left) (pn_ast right)) d)
      else mret left
  end
with parse_term (fuel : nat) : M ParsedNode :=
  match fuel with
  | 0 => out_of_fuel
  | S fuel =>
      skip_spaces;;
      c ← peek;
      if decide (c = Some "("%char) then
        advance 1;; skip_spaces;;
        inner ← parse_cond_or fuel;
        skip_spaces;;
        c ← peek;
        if decide (c = Some ")"%char) then advance 1;; mret inner
        else err "expected closing ')'"
      else parse_atom
  end.

Definition fuel_for (s : string) : nat := 3 * (String.length s + 1).

(** The body of [parse_filter_controlled] after the limits. *)
Definition parse_all : M FilterNode :=
  skip_spaces;;
  e ← at_end;
  if e : bool then err "empty filter expression"
  else
    fuel ← gets (λ st, fuel_for (rest st));
    node ← parse_cond_or fuel;
    skip_spaces;; run_check;;
    e ← at_end;
    if e : bool then mret (pn_ast node) else err "unexpected trailing input".
End model.

(** [parse_filter_controlled]; [None] stands for fuel exhaustion. *)
Definition parse_filter_controlled `{Lexical} {C} (check : C → result FilterError C) (c : C)
    (limits : FilterParseLimits) (expr : string) : option (result FilterError FilterNode) :=
  match check c with
  | Err e => Some (Err e)
  | Ok c =>
      if bool_decide (max_bytes limits < str_len expr)%N || bool_decide (max_nodes limits = 0%N)
         || bool_decide (max_depth limits = 0%N)
      then Some (Err Limit)
      else match parse_all check limits (mk expr 0 0 0 c) with
           | Some (Ok (node, _)) => Some (Ok node)
           | Some (Err e) => Some (Err e)
           | None => None
           end
  end.

(** [parse_filter]. *)
Definition parse_filter `{Lexical} (expr : string) : option (result FilterError FilterNode) :=
  parse_filter_controlled Ok () (mkLimits usize_max usize_max usize_max) expr.

(** [Display for FilterError]. *)
Definition display (e : FilterError) : string :=
  match e with
  | Parse pos message =>
      "filter parse error at position " +:+ pretty pos +:+ ": " +:+ message
  | Limit => "filter resource limit exceeded"
  | Interrupted => "filter parsing interrupted"
  end.
End FilterParser.
