(* ===== verification/Text.v ===== *)
(** * Text

    The string operations of the standard library that the ontology uses,
    on UTF-8 bytes: splitting at ASCII separators (no byte of a multi-byte
    character is ASCII, so bytes and characters agree there), white space,
    and letter case.  The case tables of Unicode and the decimal printing of
    floats are parameters. *)

From Stdlib Require Import Ascii.
From S2P Require Import Prelude Floats.

(** [str::contains(char)]. *)
Fixpoint contains_char (c : ascii) (s : string) : bool :=
  match s with
  | EmptyString => false
  | String a s => bool_decide (a = c) || contains_char c s
  end.

(** [str::split(char)]: the pieces between the separators, at least one. *)
Fixpoint split_on (c : ascii) (s : string) : list string :=
  match s with
  | EmptyString => [""]
  | String a s =>
      if decide (a = c) then "" :: split_on c s
      else match split_on c s with
           | p :: ps => String a p :: ps
           | [] => [String a ""]
           end
  end.

(** The text before and after the last occurrence of a separator, when there
    is one: [rsplit_once], and the first item of [rsplit]. *)
Fixpoint rsplit_once (sep s : string) : option (string * string) :=
  match s with
  | EmptyString => None
  | String a s' =>
      match rsplit_once sep s' with
      | Some (l, r) => Some (String a l, r)
      | None =>
          if String.prefix sep s
          then Some ("", String.substring (String.length sep) (String.length s) s)
          else None
      end
  end.

(** The text before and after the first occurrence of a separator:
    [split_once]. *)
Fixpoint split_once (sep s : string) : option (string * string) :=
  if String.prefix sep s
  then Some ("", String.substring (String.length sep) (String.length s) s)
  else match s with
       | EmptyString => None
       | String a s' =>
           match split_once sep s' with
           | Some (l, r) => Some (String a l, r)
           | None => None
           end
       end.

(** [str::contains(&str)], for a separator that is not empty. *)
Definition contains_str (sep s : string) : bool := bool_decide (is_Some (rsplit_once sep s)).

(** [strip_suffix(char)]. *)
Fixpoint strip_suffix (c : ascii) (s : string) : option string :=
  match s with
  | EmptyString => None
  | String a EmptyString => if decide (a = c) then Some "" else None
  | String a s => String a <$> strip_suffix c s
  end.

(** The string without a character. *)
Fixpoint remove_char (c : ascii) (s : string) : string :=
  match s with
  | EmptyString => ""
  | String a s => if decide (a = c) then remove_char c s else String a (remove_char c s)
  end.

(** The number of bytes that satisfy a test. *)
Fixpoint count_bytes (f : ascii → bool) (s : string) : N :=
  match s with
  | EmptyString => 0
  | String a s => (if f a then 1 else 0) + count_bytes f s
  end%N.

(** [s.trim().is_empty()]: only characters of the Unicode property
    White_Space, by their UTF-8 encodings. *)
Fixpoint all_whitespace (s : string) : bool :=
  match s with
  | EmptyString => true
  | String a s1 =>
      let b := N_of_ascii a in
      if bool_decide (9 ≤ b ≤ 13)%N || bool_decide (b = 32)%N then all_whitespace s1
      else match s1 with
      | EmptyString => false
      | String a2 s2 =>
          let b2 := N_of_ascii a2 in
          if bool_decide (b = 0xC2)%N && (bool_decide (b2 = 0x85)%N || bool_decide (b2 = 0xA0)%N)
          then all_whitespace s2
          else match s2 with
          | EmptyString => false
          | String a3 s3 =>
              let b3 := N_of_ascii a3 in
              if (bool_decide (b = 0xE1 ∧ b2 = 0x9A ∧ b3 = 0x80)%N
                  || bool_decide (b = 0xE2 ∧ b2 = 0x80 ∧ 0x80 ≤ b3 ≤ 0x8A)%N
                  || bool_decide (b = 0xE2 ∧ b2 = 0x80 ∧ b3 = 0xA8)%N
                  || bool_decide (b = 0xE2 ∧ b2 = 0x80 ∧ b3 = 0xA9)%N
                  || bool_decide (b = 0xE2 ∧ b2 = 0x80 ∧ b3 = 0xAF)%N
                  || bool_decide (b = 0xE2 ∧ b2 = 0x81 ∧ b3 = 0x9F)%N
                  || bool_decide (b = 0xE3 ∧ b2 = 0x80 ∧ b3 = 0x80)%N)
              then all_whitespace s3 else false
          end
      end
  end.

(** [str::trim]: without the white space at both ends. *)
Definition space_rest (s : string) : option string :=
  match s with
  | EmptyString => None
  | String a s1 =>
      if all_whitespace (String a "") then Some s1
      else match s1 with
      | EmptyString => None
      | String a2 s2 =>
          if all_whitespace (String a (String a2 "")) then Some s2
          else match s2 with
          | EmptyString => None
          | String a3 s3 =>
              if all_whitespace (String a (String a2 (String a3 ""))) then Some s3 else None
          end
      end
  end.
Fixpoint trim_start (n : nat) (s : string) : string :=
  match n with
  | 0 => s
  | S n => match space_rest s with Some s => trim_start n s | None => s end
  end.
Fixpoint trim_end (s : string) : string :=
  if all_whitespace s then "" else match s with EmptyString => "" | String a s => String a (trim_end s) end.
Definition trim (s : string) : string := trim_end (trim_start (String.length s) s).

(** Lower case: [str::to_lowercase] (which treats a final sigma apart) and
    [chars().flat_map(char::to_lowercase)]. *)
Class Casing : Type := {
  to_lowercase : string → string;
  lower_chars : string → string
}.

Definition ascii_lower (a : ascii) : ascii :=
  let b := N_of_ascii a in
  if bool_decide (65 ≤ b ≤ 90)%N then ascii_of_N (b + 32) else a.
Fixpoint lower_ascii (s : string) : string :=
  match s with EmptyString => "" | String a s => String (ascii_lower a) (lower_ascii s) end.
Fixpoint is_ascii (s : string) : bool :=
  match s with
  | EmptyString => true
  | String a s => bool_decide (N_of_ascii a < 128)%N && is_ascii s
  end.

(** On ASCII text both map the letters. *)
Class CasingLaws `{Casing} : Prop := {
  to_lowercase_ascii s : is_ascii s = true → to_lowercase s = lower_ascii s;
  lower_chars_ascii s : is_ascii s = true → lower_chars s = lower_ascii s
}.

Definition ascii_casing : Casing := {| to_lowercase := lower_ascii; lower_chars := lower_ascii |}.
Lemma ascii_casing_laws : @CasingLaws ascii_casing.
Proof. by split. Qed.

(** [Display] of [f64]: used in messages only. *)
Class FloatText : Type := float_text : F64.f64 → string.

(** ** Facts *)

Lemma split_on_ne c s : split_on c s ≠ [].
Proof. destruct s as [|a s]; simpl; [done|]. case_decide; [done|]. by destruct (split_on c s). Qed.

Lemma split_on_no_sep c s p : p ∈ split_on c s → contains_char c p = false.
Proof.
  revert p. induction s as [|a s IH]; simpl; intros p.
  - intros ->%list_elem_of_singleton. done.
  - case_decide as Ha.
    + intros [->|Hp]%elem_of_cons; [done|by apply IH].
    + pose proof (split_on_ne c s) as Hne. destruct (split_on c s) as [|q qs]; [done|].
      intros [->|Hp]%elem_of_cons; simpl.
      * rewrite bool_decide_false by done. apply IH. left.
      * apply IH. by right.
Qed.

Lemma split_on_join c s : join (String c "") (split_on c s) = s.
Proof.
  induction s as [|a s IH]; simpl; [done|].
  pose proof (split_on_ne c s) as Hne.
  case_decide as Ha; [subst|]; destruct (split_on c s) as [|q qs]; try done.
  - simpl in *. by rewrite IH.
  - simpl in IH |- *. destruct qs; simpl in *; by rewrite <-IH.
Qed.

Lemma split_on_whole c s : contains_char c s = false → split_on c s = [s].
Proof.
  induction s as [|a s IH]; simpl; [done|]. intros [Ha Hs]%orb_false_iff.
  apply bool_decide_eq_false in Ha. rewrite decide_False by done. by rewrite IH.
Qed.
