(* ===== verification/Taxonomy.v ===== *)
(** * The type hierarchy of the ontology

    [haystack-core/src/ontology/taxonomy.rs] and [ontology/conjunct.rs].  The
    searches over the hierarchy are loops over a queue; they take one unit of
    fuel per element dequeued, and [pending] (the edges out of the types not
    visited yet) bounds how many that can be.

    [TaxonomyTree] memoises two answers behind locks; the methods that fill a
    memo return the tree with it. *)

From Stdlib Require Import Ascii.
From S2P Require Import Prelude Floats Text.

(** ** Finite maps of lists, and what is reachable through them *)

(** [entry(k).or_default()]. *)
Definition or_default {A} (k : string) (m : gmap string (list A)) : gmap string (list A) :=
  <[k := default [] (m !! k)]> m.

(** [entry(k).or_default().push(v)]. *)
Definition push_entry {A} (k : string) (v : A) (m : gmap string (list A)) : gmap string (list A) :=
  <[k := default [] (m !! k) ++ [v]]> m.

(** The same, unless the list already has the value. *)
Definition push_new (k v : string) (m : gmap string (list string)) : gmap string (list string) :=
  let l := default [] (m !! k) in
  <[k := if decide (v ∈ l) then l else l ++ [v]]> m.

(** The targets of a node. *)
Definition targets (m : gmap string (list string)) (k : string) : list string :=
  default [] (m !! k).

(** The edge relation of such a map. *)
Definition edge (m : gmap string (list string)) (x y : string) : Prop := y ∈ targets m x.

(** The number of edges that leave nodes outside [seen]. *)
Definition pending (m : gmap string (list string)) (seen : gset string) : nat :=
  map_fold (λ k l n, if decide (k ∈ seen) then n else length l + n) 0 m.

(** The iteration of a [HashSet]. *)
Definition hash_elems `{HashOrder} (s : gset string) : list string :=
  hash_keys (gset_to_gmap () s).
Lemma elem_of_hash_elems `{HashOrderLaws} (s : gset string) x : x ∈ hash_elems s ↔ x ∈ s.
Proof.
  unfold hash_elems. rewrite elem_of_hash_keys, lookup_gset_to_gmap. split.
  - intros (u & (? & _)%bind_Some). naive_solver.
  - intros Hx. rewrite option_guard_True by done. eauto.
Qed.

Module TaxonomyTree.

Record t : Type := mk {
  parents : gmap string (list string);
  children : gmap string (list string);
  mandatory_cache : gmap string (gset string);
  descendant_cache : gmap string (gset string)
}.

Definition new : t := mk ∅ ∅ ∅ ∅.

(** [Clone]: the memos start empty. *)
Definition clone (tr : t) : t := mk (parents tr) (children tr) ∅ ∅.

(** The body of the loop of [add]. *)
Definition add_parent (name : string) (acc : gmap string (list string) * gmap string (list string))
    (parent : string) : gmap string (list string) * gmap string (list string) :=
  (or_default parent (push_new name parent acc.1), push_new parent name acc.2).

Definition add (tr : t) (name : string) (supertypes : list string) : t :=
  let '(ps, cs) := foldl (add_parent name) (or_default name (parents tr), children tr) supertypes in
  mk ps cs ∅ ∅.

(** The loop of [is_subtype]. *)
Fixpoint is_subtype_loop (fuel : nat) (tr : t) (parent : string) (queue : list string)
    (visited : gset string) : bool :=
  match fuel, queue with
  | S fuel, current :: queue =>
      if decide (current ∈ visited) then is_subtype_loop fuel tr parent queue visited
      else
        let ps := targets (parents tr) current in
        if decide (parent ∈ ps) then true
        else is_subtype_loop fuel tr parent (queue ++ ps) ({[current]} ∪ visited)
  | _, _ => false
  end.

Definition is_subtype (tr : t) (child parent : string) : bool :=
  if decide (child = parent) then true
  else is_subtype_loop (S (pending (parents tr) ∅)) tr parent [child] ∅.

(** The loop that [supertypes_of] and [all_subtypes] share, over the map they
    walk. *)
Fixpoint walk (fuel : nat) (m : gmap string (list string)) (queue : list string)
    (visited : gset string) (result : list string) : list string :=
  match fuel, queue with
  | S fuel, current :: queue =>
      if decide (current ∈ visited) then walk fuel m queue visited result
      else walk fuel m (queue ++ targets m current) ({[current]} ∪ visited) (result ++ [current])
  | _, _ => result
  end.
Definition walk_from (m : gmap string (list string)) (name : string) : list string :=
  let queue := targets m name in
  walk (length queue + pending m ∅) m queue ∅ [].

Definition supertypes_of (tr : t) (name : string) : list string := walk_from (parents tr) name.
Definition subtypes_of (tr : t) (name : string) : list string := targets (children tr) name.
Definition all_subtypes (tr : t) (name : string) : list string := walk_from (children tr) name.

(** What [mandatory_tags] computes when its memo has no entry. *)
Definition mandatory_set (tr : t) (name : string) (mandatory_defs : gset string) : gset string :=
  foldl (λ tags sup, if decide (sup ∈ mandatory_defs) then {[sup]} ∪ tags else tags)
    (if decide (name ∈ mandatory_defs) then {[name]} else ∅) (supertypes_of tr name).

Definition mandatory_tags (tr : t) (name : string) (mandatory_defs : gset string) : gset string * t :=
  match mandatory_cache tr !! name with
  | Some cached => (cached, tr)
  | None =>
      let tags := mandatory_set tr name mandatory_defs in
      (tags, mk (parents tr) (children tr) (<[name := tags]> (mandatory_cache tr))
               (descendant_cache tr))
  end.

(** The inner loop of [descendants_of]: enqueue the children not seen yet. *)
Fixpoint enqueue_new (kids queue : list string) (out : gset string) : list string * gset string :=
  match kids with
  | [] => (queue, out)
  | k :: kids =>
      if decide (k ∈ out) then enqueue_new kids queue out
      else enqueue_new kids (queue ++ [k]) ({[k]} ∪ out)
  end.
Fixpoint descendants_loop (fuel : nat) (tr : t) (queue : list string) (out : gset string)
    : gset string :=
  match fuel, queue with
  | S fuel, current :: queue =>
      let '(queue, out) := enqueue_new (targets (children tr) current) queue out in
      descendants_loop fuel tr queue out
  | _, _ => out
  end.
Definition descendants_of (tr : t) (name : string) : gset string :=
  descendants_loop (S (pending (children tr) ∅)) tr [name] {[name]}.

Definition any_is_subtype (tr : t) (tags : list string) (name : string) : bool * t :=
  match descendant_cache tr !! name with
  | Some cached => (existsb (λ tag, bool_decide (tag ∈ cached)) tags, tr)
  | None =>
      let set := descendants_of tr name in
      (existsb (λ tag, bool_decide (tag ∈ set)) tags,
       mk (parents tr) (children tr) (mandatory_cache tr) (<[name := set]> (descendant_cache tr)))
  end.

Definition contains (tr : t) (name : string) : bool := bool_decide (is_Some (parents tr !! name)).
Definition len (tr : t) : N := N.of_nat (size (parents tr)).
Definition is_empty (tr : t) : bool := bool_decide (parents tr = ∅).
Definition clear_cache (tr : t) : t := mk (parents tr) (children tr) ∅ ∅.

End TaxonomyTree.

(** ** Searching a finite graph *)

Section search.
Implicit Types m : gmap string (list string).

Lemma targets_empty x : targets ∅ x = [].
Proof. unfold targets. by rewrite lookup_empty. Qed.

Lemma pending_insert_fresh m k l seen :
  m !! k = None →
  pending (<[k := l]> m) seen = (if decide (k ∈ seen) then 0 else length l) + pending m seen.
Proof.
  intros Hk. unfold pending. rewrite map_fold_insert_L; [by case_decide| |done].
  intros. repeat case_decide; lia.
Qed.

(** Visiting a node pays for the edges that leave it. *)
Lemma pending_visit m seen c :
  c ∉ seen → pending m ({[c]} ∪ seen) + length (targets m c) = pending m seen.
Proof.
  intros Hc. induction m as [|k l m Hk IH] using map_ind; [done|].
  rewrite !pending_insert_fresh by done. unfold targets in *.
  destruct (decide (k = c)) as [->|Hne].
  - rewrite lookup_insert_eq. rewrite Hk in IH. simpl in IH |- *.
    rewrite decide_True by set_solver. rewrite decide_False by done. lia.
  - rewrite lookup_insert_ne by done. repeat case_decide; first [lia | set_solver].
Qed.

(** A set closed under edges contains what is reachable from it. *)
Lemma closed_reachable m (s : gset string) x y :
  (∀ a b, a ∈ s → edge m a b → b ∈ s) → x ∈ s → rtc (edge m) x y → y ∈ s.
Proof. intros Hcl Hx Hr. revert Hx. induction Hr; eauto. Qed.

(** What a breadth first search has done when it stands at a queue and a
    visited set: the successors of visited nodes are visited or queued. *)
Definition frontier m (queue : list string) (visited : gset string) : Prop :=
  ∀ a b, a ∈ visited → edge m a b → b ∈ visited ∨ b ∈ queue.

Lemma frontier_empty m queue : frontier m queue ∅.
Proof. by intros a b ?%elem_of_empty. Qed.

Lemma frontier_skip m c queue visited :
  c ∈ visited → frontier m (c :: queue) visited → frontier m queue visited.
Proof. intros Hc Hf a b Ha Hab. destruct (Hf a b Ha Hab); set_solver. Qed.

Lemma frontier_visit m c queue visited :
  frontier m (c :: queue) visited → frontier m (queue ++ targets m c) ({[c]} ∪ visited).
Proof.
  intros Hf a b Ha Hab. apply elem_of_union in Ha as [->%elem_of_singleton|Ha].
  - right. apply elem_of_app. by right.
  - destruct (Hf a b Ha Hab); set_solver.
Qed.

Lemma frontier_reach m queue visited a x :
  frontier m queue visited → a ∈ visited → rtc (edge m) a x →
  x ∈ visited ∨ ∃ q, q ∈ queue ∧ rtc (edge m) q x.
Proof.
  intros Hf Ha Hr. revert Ha. induction Hr as [a|a z x Haz Hr IH]; intros Ha; [by left|].
  destruct (Hf a z Ha Haz) as [Hz|Hz]; [by apply IH|right; eauto].
Qed.
End search.

Module TaxonomyFacts.
Import TaxonomyTree.

(** *** [is_subtype] is reachability through the parents *)

Section is_subtype.
Context (tr : t) (parent : string).
Abbreviation R := (edge (parents tr)).

Lemma is_subtype_loop_sound fuel queue visited :
  is_subtype_loop fuel tr parent queue visited = true → ∃ q, q ∈ queue ∧ tc R q parent.
Proof.
  revert queue visited. induction fuel as [|fuel IH]; intros [|c queue] visited; try done; simpl.
  case_decide as Hv.
  - intros (q & Hq & Hr)%IH. exists q. split; [by right|done].
  - case_decide as Hp.
    + intros _. exists c. split; [left|]. by apply tc_once.
    + intros (q & Hq & Hr)%IH. apply elem_of_app in Hq as [Hq|Hq].
      * exists q. split; [by right|done].
      * exists c. split; [left|]. by eapply tc_l.
Qed.

Lemma is_subtype_loop_complete fuel queue visited :
  length queue + pending (parents tr) visited ≤ fuel →
  frontier (parents tr) queue visited → (∀ a, a ∈ visited → ¬ R a parent) →
  is_subtype_loop fuel tr parent queue visited = false →
  ∃ s : gset string, visited ⊆ s ∧ (∀ q, q ∈ queue → q ∈ s) ∧
    (∀ a b, a ∈ s → R a b → b ∈ s) ∧ (∀ a, a ∈ s → ¬ R a parent).
Proof.
  revert queue visited. induction fuel as [|fuel IH]; intros [|c queue] visited Hfuel Hf Hno; simpl in *.
  1,3: intros _; exists visited; split_and!; [done|set_solver| |done];
    intros a b Ha Hab; destruct (Hf a b Ha Hab) as [|Hb]; [done|by apply elem_of_nil in Hb].
  { lia. }
  case_decide as Hv.
  - intros Hl. apply IH in Hl as (s & ? & ? & ? & ?); [|lia|by eapply frontier_skip|done].
    exists s. set_solver.
  - case_decide as Hp; [done|]. intros Hl.
    pose proof (pending_visit (parents tr) visited c Hv) as Hpay.
    apply IH in Hl as (s & Hs1 & Hs2 & Hs3 & Hs4).
    + exists s. split_and!; [set_solver| |done|done]. intros q [->|Hq]%elem_of_cons; [set_solver|].
      apply Hs2, elem_of_app. by left.
    + rewrite length_app. lia.
    + by apply frontier_visit.
    + intros a [->%elem_of_singleton|Ha]%elem_of_union; [done|by apply Hno].
Qed.

Lemma is_subtype_spec child : is_subtype tr child parent = true ↔ rtc R child parent.
Proof.
  unfold is_subtype. case_decide as Hc; [subst; split; [intros; apply rtc_refl|done]|]. split.
  - intros (q & ->%list_elem_of_singleton & Hr)%is_subtype_loop_sound. by apply tc_rtc.
  - intros Hr. apply not_false_is_true. intros Hl.
    apply is_subtype_loop_complete in Hl as (s & _ & Hs & Hcl & Hno); simpl; [|lia|apply frontier_empty|set_solver].
    apply rtc_inv_r in Hr as [->|(z & Hz & Hlast)]; [done|].
    eapply Hno; [|exact Hlast]. eapply closed_reachable; [exact Hcl| |exact Hz]. apply Hs. set_solver.
Qed.
End is_subtype.

(** *** The breadth first walks *)

Lemma walk_spec fuel m queue visited result :
  length queue + pending m visited ≤ fuel →
  frontier m queue visited → NoDup result → (∀ x, x ∈ result ↔ x ∈ visited) →
  NoDup (walk fuel m queue visited result) ∧
  ∀ x, x ∈ walk fuel m queue visited result ↔ x ∈ visited ∨ ∃ q, q ∈ queue ∧ rtc (edge m) q x.
Proof.
  revert queue visited result. induction fuel as [|fuel IH];
    intros [|c queue] visited result Hfuel Hf Hnd Hres; simpl in *.
  1,3: split; [done|]; intros x; rewrite Hres; split; [by left|];
    intros [?|(q & Hq & _)]; [done|by apply elem_of_nil in Hq].
  { lia. }
  case_decide as Hv.
  - apply frontier_skip in Hf; [|done].
    destruct (IH queue visited result) as [Hnd' Hx]; [lia|done..|].
    split; [done|]. intros x. rewrite Hx. setoid_rewrite elem_of_cons.
    split; [naive_solver|]. intros [?|(q & [->|Hq] & Hr)]; [by left| |right; eauto].
    by eapply frontier_reach.
  - pose proof (pending_visit m visited c Hv) as Hpay.
    destruct (IH (queue ++ targets m c) ({[c]} ∪ visited) (result ++ [c])) as [Hnd' Hx].
    + rewrite length_app. lia.
    + by apply frontier_visit.
    + apply NoDup_app. split_and!; [done| |apply NoDup_singleton].
      intros x Hx ->%list_elem_of_singleton. by apply Hv, Hres.
    + set_solver.
    + split; [done|]. intros x. rewrite Hx. setoid_rewrite elem_of_app.
      setoid_rewrite elem_of_cons. rewrite elem_of_union, elem_of_singleton. split.
      * intros [[->|?]|(q & [Hq|Hq] & Hr)]; [|by left| |]; right.
        -- exists c. split; [by left|apply rtc_refl].
        -- exists q. auto.
        -- exists c. split; [by left|]. by eapply rtc_l.
      * intros [?|(q & [->|Hq] & Hr)]; [by left; right| |right; eauto].
        apply rtc_inv in Hr as [->|(z & Hz & Hr)]; [by left; left|right; eauto].
Qed.

Lemma walk_from_spec m name :
  NoDup (walk_from m name) ∧ ∀ x, x ∈ walk_from m name ↔ tc (edge m) name x.
Proof.
  unfold walk_from. destruct (walk_spec (length (targets m name) + pending m ∅) m
    (targets m name) ∅ []) as [Hnd Hx]; [done|apply frontier_empty|constructor|set_solver|].
  split; [done|]. intros x. rewrite Hx, elem_of_empty. split.
  - intros [[]|(q & Hq & Hr)]. eapply tc_rtc_r; [by apply tc_once|done].
  - intros Hr. right. inversion Hr; subst; [by exists x|]. eexists. split; [done|]. by apply tc_rtc.
Qed.

(** *** Descendant sets *)

Lemma enqueue_new_spec kids queue out :
  ∃ fresh, enqueue_new kids queue out = (queue ++ fresh, list_to_set fresh ∪ out) ∧
    length fresh ≤ length kids ∧ NoDup fresh ∧
    (∀ x, x ∈ fresh → x ∈ kids ∧ x ∉ out) ∧ (∀ x, x ∈ kids → x ∈ fresh ∨ x ∈ out).
Proof.
  revert queue out. induction kids as [|k kids IH]; intros queue out; simpl.
  { exists []. rewrite app_nil_r. split_and!; [f_equal; set_solver|done|constructor|set_solver..]. }
  case_decide as Hk.
  - destruct (IH queue out) as (fresh & -> & Hlen & Hnd & H1 & H2). exists fresh.
    split_and!; [done|lia|done|set_solver|set_solver].
  - destruct (IH (queue ++ [k]) ({[k]} ∪ out)) as (fresh & -> & Hlen & Hnd & H1 & H2).
    exists (k :: fresh). rewrite <-app_assoc. split_and!.
    + f_equal. set_solver.
    + simpl. lia.
    + constructor; [|done]. intros Hin. set_solver.
    + set_solver.
    + set_solver.
Qed.

Lemma descendants_loop_spec fuel tr queue out done :
  length queue + pending (children tr) done ≤ fuel →
  NoDup queue → (∀ x, x ∈ out ↔ x ∈ done ∨ x ∈ queue) → (∀ x, x ∈ queue → x ∉ done) →
  frontier (children tr) queue done →
  ∀ x, x ∈ descendants_loop fuel tr queue out ↔
    x ∈ out ∨ ∃ q, q ∈ queue ∧ rtc (edge (children tr)) q x.
Proof.
  revert queue out done. induction fuel as [|fuel IH];
    intros [|c queue] out done Hfuel Hnd Hout Hdis Hf x; simpl in *.
  1,3: split; [by left|]; intros [?|(q & Hq & _)]; [done|by apply elem_of_nil in Hq].
  { lia. }
  destruct (enqueue_new_spec (targets (children tr) c) queue out)
    as (fresh & -> & Hlen & Hndf & Hfr1 & Hfr2).
  apply NoDup_cons in Hnd as [Hc Hnd].
  assert (Hcd : c ∉ done) by (apply Hdis; left).
  pose proof (pending_visit (children tr) done c Hcd) as Hpay.
  assert (Hf' : frontier (children tr) (queue ++ fresh) ({[c]} ∪ done)).
  { intros a b [->%elem_of_singleton|Ha]%elem_of_union Hab.
    - destruct (Hfr2 b Hab) as [?|Hb]; [set_solver|]. apply Hout in Hb. set_solver.
    - destruct (Hf a b Ha Hab); set_solver. }
  rewrite (IH (queue ++ fresh) _ ({[c]} ∪ done)); [|rewrite length_app; lia| | | |exact Hf'].
  - setoid_rewrite elem_of_app. setoid_rewrite elem_of_cons.
    rewrite elem_of_union, elem_of_list_to_set. split.
    + intros [[Hx|?]|(q & [?|Hq] & Hr)]; [right|by left|right; eauto|right]; exists c;
        (split; [by left|]); [apply rtc_once|eapply rtc_l; [|done]]; by apply Hfr1.
    + intros [?|(q & [->|Hq] & Hr)]; [by left; right| |right; eauto].
      destruct (frontier_reach _ _ _ c x Hf') as [Hx|(q & Hq & Hqx)]; [set_solver|done| |].
      * left. right. apply Hout. set_solver.
      * right. exists q. by rewrite <-elem_of_app.
  - apply NoDup_app. split_and!; [done| |done]. intros y Hy Hyf. apply Hfr1 in Hyf as [_ Hyo].
    apply Hyo, Hout. right. by right.
  - set_solver.
  - intros y [Hy|Hy]%elem_of_app; [set_solver|]. apply Hfr1 in Hy as [_ Hy].
    intros [->%elem_of_singleton|Hyd]%elem_of_union; apply Hy, Hout; set_solver.
Qed.

Lemma elem_of_descendants_of tr name x :
  x ∈ descendants_of tr name ↔ rtc (edge (children tr)) name x.
Proof.
  unfold descendants_of. rewrite (descendants_loop_spec _ _ _ _ ∅);
    [|simpl; lia|apply NoDup_singleton|set_solver|set_solver|apply frontier_empty].
  rewrite elem_of_singleton. setoid_rewrite list_elem_of_singleton. split.
  - intros [->|(q & -> & Hr)]; [apply rtc_refl|done].
  - intros Hr. right. by exists name.
Qed.

(** *** The two edge maps are inverse to each other *)

Record wf (tr : t) : Prop := {
  wf_inverse c p : edge (children tr) p c ↔ edge (parents tr) c p;
  wf_registered c p : edge (parents tr) c p → is_Some (parents tr !! p)
}.

Lemma targets_or_default k (m : gmap string (list string)) x :
  targets (or_default k m) x = targets m x.
Proof.
  unfold targets, or_default. destruct (decide (k = x)) as [->|?]; by simplify_map_eq.
Qed.

Lemma edge_push_new k v m x y : edge (push_new k v m) x y ↔ edge m x y ∨ (x = k ∧ y = v).
Proof.
  unfold edge, targets, push_new. destruct (decide (k = x)) as [->|?]; simplify_map_eq; [|naive_solver].
  case_decide; set_solver.
Qed.

Lemma registered_or_default {A} k (m : gmap string (list A)) x :
  is_Some (or_default k m !! x) ↔ is_Some (m !! x) ∨ x = k.
Proof. unfold or_default. rewrite lookup_insert_is_Some'. naive_solver. Qed.

Lemma registered_push_new k v m x : is_Some (push_new k v m !! x) ↔ is_Some (m !! x) ∨ x = k.
Proof. unfold push_new. rewrite lookup_insert_is_Some'. naive_solver. Qed.

Lemma add_parents_spec name ss ps cs :
  let r := foldl (add_parent name) (ps, cs) ss in
  (∀ x y, edge r.1 x y ↔ edge ps x y ∨ (x = name ∧ y ∈ ss)) ∧
  (∀ x y, edge r.2 x y ↔ edge cs x y ∨ (x ∈ ss ∧ y = name)) ∧
  (∀ x, is_Some (ps !! name) → is_Some (r.1 !! x) ↔ is_Some (ps !! x) ∨ x ∈ ss).
Proof.
  revert ps cs. induction ss as [|s ss IH]; intros ps cs; cbn [foldl].
  { split_and!; set_solver. }
  unfold add_parent at 2 4 6; cbn [fst snd].
  destruct (IH (or_default s (push_new name s ps)) (push_new s name cs)) as (H1 & H2 & H3).
  split_and!.
  - intros x y. rewrite H1. unfold edge at 1. rewrite targets_or_default.
    fold (edge (push_new name s ps) x y). rewrite edge_push_new, elem_of_cons. tauto.
  - intros x y. rewrite H2, edge_push_new, elem_of_cons. tauto.
  - intros x Hn. rewrite H3 by (rewrite registered_or_default, registered_push_new; auto).
    rewrite registered_or_default, registered_push_new, elem_of_cons. naive_solver.
Qed.

(** What [add] does to the hierarchy. *)
Lemma add_type_spec tr name ss :
  (∀ x y, edge (parents (add tr name ss)) x y ↔ edge (parents tr) x y ∨ (x = name ∧ y ∈ ss)) ∧
  (∀ x y, edge (children (add tr name ss)) x y ↔ edge (children tr) x y ∨ (x ∈ ss ∧ y = name)) ∧
  (∀ x, contains (add tr name ss) x = contains tr x || bool_decide (x = name) || bool_decide (x ∈ ss)).
Proof.
  unfold add, contains.
  destruct (add_parents_spec name ss (or_default name (parents tr)) (children tr)) as (H1 & H2 & H3).
  destruct (foldl _ _ _) as [ps cs]. cbn [fst snd parents children] in *. split_and!.
  - intros x y. rewrite H1. unfold edge at 1. by rewrite targets_or_default.
  - done.
  - intros x. rewrite <-!bool_decide_or. apply bool_decide_ext.
    rewrite H3 by (rewrite registered_or_default; auto). rewrite registered_or_default. tauto.
Qed.

Lemma contains_true tr x : contains tr x = true ↔ is_Some (parents tr !! x).
Proof. apply bool_decide_eq_true. Qed.

Lemma add_wf tr name ss : wf tr → wf (add tr name ss).
Proof.
  intros [Hinv Hreg]. destruct (add_type_spec tr name ss) as (H1 & H2 & H3). split; intros c p.
  - rewrite H1, H2, Hinv. tauto.
  - rewrite H1, <-contains_true, H3, !orb_true_iff, !bool_decide_eq_true, contains_true. naive_solver.
Qed.

Lemma new_wf : wf new.
Proof.
  assert (Hno : ∀ x y, ¬ edge ∅ x y).
  { intros x y. unfold edge, targets. rewrite lookup_empty. apply not_elem_of_nil. }
  split; intros c p; simpl.
  - split; intros H; by apply Hno in H.
  - intros H. by apply Hno in H.
Qed.

Lemma rtc_children_parents tr x name :
  wf tr → rtc (edge (children tr)) name x ↔ rtc (edge (parents tr)) x name.
Proof.
  intros [Hinv _]. split.
  - induction 1 as [|a b c Hab _ IH]; [apply rtc_refl|]. eapply rtc_r; [exact IH|]. by apply Hinv.
  - induction 1 as [|a b c Hab _ IH]; [apply rtc_refl|]. eapply rtc_r; [exact IH|]. by apply Hinv.
Qed.
Lemma tc_children_parents tr x name :
  wf tr → tc (edge (children tr)) name x ↔ tc (edge (parents tr)) x name.
Proof.
  intros [Hinv _]. split.
  - induction 1 as [a b Hab|a b c Hab _ IH]; [by apply tc_once, Hinv|].
    eapply tc_r; [exact IH|]. by apply Hinv.
  - induction 1 as [a b Hab|a b c Hab _ IH]; [by apply tc_once, Hinv|].
    eapply tc_r; [exact IH|]. by apply Hinv.
Qed.

(** *** The memos never change an answer *)

Record memo_ok (mandatory_defs : gset string) (tr : t) : Prop := {
  memo_mandatory name s :
    mandatory_cache tr !! name = Some s → s = mandatory_set tr name mandatory_defs;
  memo_descendants name s :
    descendant_cache tr !! name = Some s → s = descendants_of tr name
}.

(** The same hierarchy, whatever the memos hold. *)
Definition same_tree (a b : t) : Prop := parents a = parents b ∧ children a = children b.
#[global] Instance same_tree_equiv : Equivalence same_tree.
Proof.
  split.
  - by intros a.
  - intros a b []. by split.
  - intros a b c [] []. split; by etrans.
Qed.

Lemma loop_memo_irrelevant fuel a b queue out :
  same_tree a b → descendants_loop fuel a queue out = descendants_loop fuel b queue out.
Proof.
  intros [_ Hc]. revert queue out. induction fuel as [|fuel IH]; intros [|c queue] out; try done.
  simpl. rewrite Hc. destruct (enqueue_new _ _ _) as [q o]. apply IH.
Qed.
#[global] Instance descendants_of_proper : Proper (same_tree ==> (=) ==> (=)) descendants_of.
Proof.
  intros a b Hab n ? <-. unfold descendants_of. rewrite (loop_memo_irrelevant _ a b) by done.
  by destruct Hab as [_ ->].
Qed.
#[global] Instance supertypes_of_proper : Proper (same_tree ==> (=) ==> (=)) supertypes_of.
Proof. intros a b [Hp _] n ? <-. unfold supertypes_of. by rewrite Hp. Qed.
#[global] Instance mandatory_set_proper : Proper (same_tree ==> (=) ==> (=) ==> (=)) mandatory_set.
Proof. intros a b Hab n ? <- d ? <-. unfold mandatory_set. by rewrite (supertypes_of_proper a b Hab n n). Qed.

Lemma elem_of_mandatory_set tr name mandatory_defs tag :
  tag ∈ mandatory_set tr name mandatory_defs ↔
  tag ∈ mandatory_defs ∧ rtc (edge (parents tr)) name tag.
Proof.
  unfold mandatory_set.
  assert (Hfold : ∀ (l : list string) (s : gset string), tag ∈ foldl (λ tags sup, if decide (sup ∈ mandatory_defs)
      then {[sup]} ∪ tags else tags) s l ↔ tag ∈ s ∨ (tag ∈ l ∧ tag ∈ mandatory_defs)).
  { induction l as [|x l IH]; intros s; cbn [foldl]; [set_solver|].
    rewrite IH. case_decide; set_solver. }
  rewrite Hfold. unfold supertypes_of. rewrite (proj2 (walk_from_spec _ _)). split.
  - intros [Hin|[Htc ?]]; [|split; [done|by apply tc_rtc]].
    case_decide; [|set_solver]. apply elem_of_singleton in Hin as ->. split; [done|apply rtc_refl].
  - intros [Hm Hr]. apply rtc_tc in Hr as [->|Htc]; [|by right].
    left. rewrite decide_True by done. set_solver.
Qed.

Lemma memo_ok_same mandatory_defs tr tr' :
  same_tree tr' tr →
  (∀ name s, mandatory_cache tr' !! name = Some s → s = mandatory_set tr name mandatory_defs) →
  (∀ name s, descendant_cache tr' !! name = Some s → s = descendants_of tr name) →
  memo_ok mandatory_defs tr'.
Proof.
  intros Hs Hm Hd. split; intros name s Hc.
  - rewrite (mandatory_set_proper _ _ Hs name name eq_refl _ _ eq_refl). by apply Hm.
  - rewrite (descendants_of_proper _ _ Hs name name eq_refl). by apply Hd.
Qed.

Lemma mandatory_tags_spec mandatory_defs tr name :
  memo_ok mandatory_defs tr → ∃ tr',
    mandatory_tags tr name mandatory_defs = (mandatory_set tr name mandatory_defs, tr') ∧
    same_tree tr' tr ∧ memo_ok mandatory_defs tr'.
Proof.
  intros [Hm Hd]. unfold mandatory_tags. destruct (mandatory_cache tr !! name) eqn:Hc.
  - exists tr. split_and!; [f_equal; by apply Hm|done|by split].
  - eexists. split_and!; [done|done|]. apply (memo_ok_same _ tr); [done| |exact Hd].
    cbn. intros n s [[<- <-]|[_ Hs]]%lookup_insert_Some; [done|]. by apply Hm.
Qed.

Lemma any_is_subtype_spec mandatory_defs tr tags name :
  wf tr → memo_ok mandatory_defs tr → ∃ tr',
    any_is_subtype tr tags name = (existsb (λ tag, is_subtype tr tag name) tags, tr') ∧
    same_tree tr' tr ∧ memo_ok mandatory_defs tr'.
Proof.
  intros Hwf [Hm Hd].
  assert (Heq : ∀ s, s = descendants_of tr name →
    existsb (λ tag, bool_decide (tag ∈ s)) tags = existsb (λ tag, is_subtype tr tag name) tags).
  { intros s ->. induction tags as [|x tags IH]; [done|]. simpl. rewrite IH. f_equal.
    apply eq_bool_prop_intro. rewrite bool_decide_spec, elem_of_descendants_of,
      rtc_children_parents, <-is_subtype_spec by done. by rewrite Is_true_true. }
  unfold any_is_subtype. destruct (descendant_cache tr !! name) as [s|] eqn:Hc.
  - exists tr. split_and!; [f_equal; by apply Heq, Hd|done|by split].
  - eexists. split_and!; [by rewrite Heq|done|]. apply (memo_ok_same _ tr); [done|exact Hm|].
    cbn. intros n s [[<- <-]|[_ Hs]]%lookup_insert_Some; [done|]. by apply Hd.
Qed.

Lemma memo_ok_empty mandatory_defs ps cs : memo_ok mandatory_defs (mk ps cs ∅ ∅).
Proof. split; simpl; intros ? ? H; by rewrite lookup_empty in H. Qed.
End TaxonomyFacts.

(** ** Conjuncts

    [haystack-core/src/ontology/conjunct.rs]: compound names such as
    [hot-water], their components, and the lookup of a name by its spelling
    without case and hyphens. *)

Module ConjunctIndex.
Section model.
Context `{Casing}.

Record t : Type := mk {
  parts : gmap string (list string);
  normalized : gmap string (option string)
}.

(** Lower case without hyphens. *)
Definition normalize (name : string) : string := lower_chars (remove_char "-"%char name).

Definition new : t := mk ∅ ∅.

Definition register (ix : t) (conjunct : string) (ps : list string) : t :=
  let key := normalize conjunct in
  mk (<[conjunct := ps]> (parts ix))
     (match normalized ix !! key with
      | None => <[key := Some conjunct]> (normalized ix)
      | Some e => if decide (e = Some conjunct) then normalized ix
                  else <[key := None]> (normalized ix)
      end).

Definition resolve_normalized (ix : t) (name : string) : option string :=
  e ← normalized ix !! normalize name; e.

Definition decompose (ix : t) (name : string) : option (list string) := parts ix !! name.
Definition contains (ix : t) (name : string) : bool := bool_decide (is_Some (parts ix !! name)).
Definition len (ix : t) : N := N.of_nat (size (parts ix)).
Definition is_empty (ix : t) : bool := bool_decide (parts ix = ∅).

(** ** The lookup finds the only conjunct of a spelling *)

Record wf (ix : t) : Prop := {
  wf_known k c : normalized ix !! k = Some (Some c) →
    normalize c = k ∧ ∀ d, is_Some (parts ix !! d) → normalize d = k → d = c;
  wf_registered k c : normalized ix !! k = Some (Some c) → is_Some (parts ix !! c);
  wf_absent k : normalized ix !! k = None → ∀ d, is_Some (parts ix !! d) → normalize d ≠ k;
  wf_clash k : normalized ix !! k = Some None →
    ∃ c d, c ≠ d ∧ normalize c = k ∧ normalize d = k ∧
           is_Some (parts ix !! c) ∧ is_Some (parts ix !! d)
}.

Lemma new_conjuncts_wf : wf new.
Proof. split; simpl; intros *; rewrite ?lookup_empty; try done. intros _ d Hd. by rewrite lookup_empty in Hd; destruct Hd. Qed.

Lemma register_wf ix c ps : wf ix → wf (register ix c ps).
Proof.
  intros [Hk Hr Ha Hc]. unfold register.
  assert (Hin : ∀ d, is_Some (<[c := ps]> (parts ix) !! d) ↔ d = c ∨ is_Some (parts ix !! d)).
  { intros d. rewrite lookup_insert_is_Some'. naive_solver. }
  destruct (normalized ix !! normalize c) as [e|] eqn:He; [case_decide as Hd|].
  - subst e. destruct (Hk _ _ He) as [_ Hu]. split; simpl; intros k; setoid_rewrite Hin.
    + intros d Hkd. destruct (Hk _ _ Hkd) as [Hn Hud]. split; [done|].
      intros d' [->|Hd'] Hn'; [|auto]. subst. congruence.
    + intros d Hkd. right. eauto.
    + intros Hkn d [->|Hd]; [congruence|by apply Ha].
    + intros (x & y & ? & ? & ? & ? & ?)%Hc. eauto 10.
  - split; simpl; intros k; setoid_rewrite Hin.
    + intros d [[_ ?]|[Hne Hkd]]%lookup_insert_Some; [done|]. destruct (Hk _ _ Hkd) as [Hn Hud].
      split; [done|]. intros d' [->|Hd'] Hn'; [congruence|auto].
    + intros d [[_ ?]|[Hne Hkd]]%lookup_insert_Some; [done|]. right. eauto.
    + intros [Hkn Hne]%lookup_insert_None d [->|Hd']; [congruence|by apply Ha].
    + intros [[<- _]|[Hne Hkd]]%lookup_insert_Some.
      * destruct e as [d|].
        -- destruct (Hk _ _ He) as [Hn _]. exists d, c. split_and!; eauto. congruence.
        -- destruct (Hc _ He) as (x & y & ? & ? & ? & ? & ?). eauto 10.
      * destruct (Hc _ Hkd) as (x & y & ? & ? & ? & ? & ?). eauto 10.
  - split; simpl; intros k; setoid_rewrite Hin.
    + intros d [[<- [= ->]]|[Hne Hkd]]%lookup_insert_Some.
      * split; [done|]. intros d' [->|Hd'] Hn'; [done|]. by destruct (Ha _ He d' Hd').
      * destruct (Hk _ _ Hkd) as [Hn Hud]. split; [done|].
        intros d' [->|Hd'] Hn'; [congruence|auto].
    + intros d [[<- [= ->]]|[Hne Hkd]]%lookup_insert_Some; [by left|right; eauto].
    + intros [Hkn Hne]%lookup_insert_None d [->|Hd']; [congruence|by apply Ha].
    + intros [[_ ?]|[Hne Hkd]]%lookup_insert_Some; [done|].
      destruct (Hc _ Hkd) as (x & y & ? & ? & ? & ? & ?). eauto 10.
Qed.

(** A name resolves exactly when one registered conjunct has its spelling. *)
Lemma resolve_normalized_spec ix name c :
  wf ix → resolve_normalized ix name = Some c ↔
    is_Some (parts ix !! c) ∧ normalize c = normalize name ∧
    ∀ d, is_Some (parts ix !! d) → normalize d = normalize name → d = c.
Proof.
  intros [Hk Hr Ha Hc]. unfold resolve_normalized. split.
  - destruct (normalized ix !! normalize name) as [[d|]|] eqn:He; simpl; [|done..].
    intros [= ->]. destruct (Hk _ _ He). eauto.
  - intros (Hp & Hn & Hu). destruct (normalized ix !! normalize name) as [[d|]|] eqn:He; simpl.
    + f_equal. destruct (Hk _ _ He). apply Hu; eauto.
    + destruct (Hc _ He) as (x & y & Hne & Hx & Hy & Hpx & Hpy). destruct Hne.
      rewrite (Hu x), (Hu y) by done. done.
    + by destruct (Ha _ He c Hp).
Qed.
End model.
End ConjunctIndex.
