(* ===== verification/Xeto.v ===== *)
(** * Xeto specs

    [haystack-core/src/xeto/spec.rs]: resolved specs and slots, and the slots
    a spec has with those it inherits.  A spec names its base; chains of
    bases may be cyclic, so the walk carries the names it has visited, and
    recurses on fuel: one unit per spec of the map and one for the spec
    itself. *)

From S2P Require Import Prelude Floats Kinds.

#[warnings="-register-all"]
Inductive Slot : Type := mkSlot {
  slot_name : string;
  slot_type_ref : option string;
  slot_meta : gmap string Kind;
  slot_default : option Kind;
  slot_is_marker : bool;
  slot_is_query : bool;
  slot_children : list Slot
}.

Record Spec : Type := mkSpec {
  spec_qname : string;
  spec_name : string;
  spec_lib : string;
  spec_base : option string;
  spec_meta : gmap string Kind;
  spec_slots : list Slot;
  spec_is_abstract : bool;
  spec_doc : string
}.

Definition is_maybe (s : Slot) : bool := bool_decide (is_Some (slot_meta s !! "maybe")).

Module Spec.

Definition new (qname lib name : string) : Spec := mkSpec qname name lib None ∅ [] false "".

Definition markers (s : Spec) : list string :=
  slot_name <$> List.filter slot_is_marker (spec_slots s).

Definition mandatory_markers (s : Spec) : list string :=
  slot_name <$> List.filter (λ x, slot_is_marker x && negb (is_maybe x)) (spec_slots s).

(** [collect_effective_slots]: [None] is fuel exhaustion. *)
Fixpoint collect_effective_slots (fuel : nat) (specs : gmap string Spec) (visited : gset string)
    (s : Spec) : option (list Slot) :=
  match fuel with
  | 0 => None
  | S fuel =>
      if decide (spec_qname s ∈ visited) then Some []
      else
        inherited ← match spec_base s ≫= λ b, specs !! b with
                    | Some base => collect_effective_slots fuel specs ({[spec_qname s]} ∪ visited) base
                    | None => Some []
                    end;
        let own := slot_name <$> spec_slots s in
        Some (List.filter (λ x, bool_decide (slot_name x ∉ own)) inherited ++ spec_slots s)
  end.

Definition effective_slots (s : Spec) (specs : gmap string Spec) : option (list Slot) :=
  collect_effective_slots (S (S (size specs))) specs ∅ s.

Definition point_specs (s : Spec) : list Slot :=
  match List.find (λ x, bool_decide (slot_name x = "points")) (spec_slots s) with
  | Some x => slot_children x
  | None => []
  end.

(** ** From the syntax tree

    [SlotDef] and [SpecDef] of [xeto/ast.rs], and the resolved forms made of
    them.  The optional and query attributes of a slot definition reach the
    slot through its metadata, which the parser fills alongside. *)

#[warnings="-register-all"]
Inductive SlotDef : Type := mkSlotDef {
  sd_name : string;
  sd_type_ref : option string;
  sd_meta : gmap string Kind;
  sd_default : option Kind;
  sd_is_marker : bool;
  sd_is_query : bool;
  sd_is_maybe : bool;
  sd_is_global : bool;
  sd_query_of : option string;
  sd_query_via : option string;
  sd_query_inverse : option string;
  sd_children : list SlotDef;
  sd_doc : string
}.

Record SpecDef : Type := mkSpecDef {
  sp_name : string;
  sp_is_augmentation : bool;
  sp_base : option string;
  sp_meta : gmap string Kind;
  sp_slots : list SlotDef;
  sp_doc : string;
  sp_default : option Kind
}.

(** [Slot::from]. *)
Fixpoint slot_from (d : SlotDef) : Slot :=
  mkSlot (sd_name d) (sd_type_ref d) (sd_meta d) (sd_default d) (sd_is_marker d) (sd_is_query d)
    (map slot_from (sd_children d)).

Definition spec_from_def (d : SpecDef) (lib_name : string) : Spec :=
  mkSpec (lib_name +:+ "::" +:+ sp_name d) (sp_name d) lib_name (sp_base d)
    (match sp_default d with
     | Some v => <["val" := v]> (sp_meta d)
     | None => sp_meta d
     end)
    (map slot_from (sp_slots d)) (bool_decide (is_Some (sp_meta d !! "abstract"))) (sp_doc d).

(** ** Effective slots *)

(** The specs a spec takes slots from: itself, and the chain of its bases up
    to the first name met twice. *)
Inductive lineage (specs : gmap string Spec) : gset string → Spec → list Spec → Prop :=
| lineage_seen visited s : spec_qname s ∈ visited → lineage specs visited s []
| lineage_base visited s b base l :
    spec_qname s ∉ visited → spec_base s = Some b → specs !! b = Some base →
    lineage specs ({[spec_qname s]} ∪ visited) base l → lineage specs visited s (s :: l)
| lineage_root visited s :
    spec_qname s ∉ visited → spec_base s ≫= (λ b, specs !! b) = None →
    lineage specs visited s [s].

(** The definition of a slot nearest to the spec. *)
Definition nearest (l : list Spec) (name : string) : list Slot :=
  match List.find (λ s, bool_decide (name ∈ slot_name <$> spec_slots s)) l with
  | Some s => List.filter (λ x, bool_decide (slot_name x = name)) (spec_slots s)
  | None => []
  end.

(** The specs of the map whose names are not visited yet. *)
Definition unvisited (specs : gmap string Spec) (visited : gset string) : gmap string Spec :=
  filter (λ kv, spec_qname kv.2 ∉ visited) specs.

Lemma unvisited_shrinks specs visited b s :
  specs !! b = Some s → spec_qname s ∉ visited →
  size (unvisited specs ({[spec_qname s]} ∪ visited)) < size (unvisited specs visited).
Proof.
  intros Hb Hs. apply map_subset_size. split.
  - apply map_subseteq_spec. intros k x [Hk Hx]%map_lookup_filter_Some.
    apply map_lookup_filter_Some. set_solver.
  - intros Hsub. assert (Hin : unvisited specs visited !! b = Some s)
      by (by apply map_lookup_filter_Some).
    apply (map_subseteq_spec _ _) with (1:=Hsub) in Hin.
    apply map_lookup_filter_Some in Hin as [_ Hin]. set_solver.
Qed.

Lemma filter_named_app name (l k : list Slot) :
  List.filter (λ x, bool_decide (slot_name x = name)) (l ++ k) =
  List.filter (λ x, bool_decide (slot_name x = name)) l ++
  List.filter (λ x, bool_decide (slot_name x = name)) k.
Proof. apply List.filter_app. Qed.

Lemma filter_named_own name (own : list string) (l : list Slot) :
  List.filter (λ x, bool_decide (slot_name x = name))
    (List.filter (λ x, bool_decide (slot_name x ∉ own)) l) =
  if decide (name ∈ own) then [] else List.filter (λ x, bool_decide (slot_name x = name)) l.
Proof.
  induction l as [|x l IH]; simpl; [by case_decide|].
  repeat case_bool_decide; simpl; repeat case_bool_decide; subst; rewrite IH; repeat case_decide;
    first [done|congruence|set_solver].
Qed.

Lemma filter_named_none name (l : list Slot) :
  name ∉ slot_name <$> l → List.filter (λ x, bool_decide (slot_name x = name)) l = [].
Proof.
  induction l as [|x l IH]; simpl; [done|]. intros [Hne Hin]%not_elem_of_cons.
  rewrite bool_decide_false by congruence. by apply IH.
Qed.

(** Every slot name has its definition nearest to the spec, and the fuel
    given is enough. *)
Lemma collect_spec fuel specs visited s :
  0 < fuel →
  spec_qname s ∈ visited ∨ size (unvisited specs ({[spec_qname s]} ∪ visited)) + 1 < fuel →
  ∃ slots l, collect_effective_slots fuel specs visited s = Some slots ∧
    lineage specs visited s l ∧
    ∀ name, List.filter (λ x, bool_decide (slot_name x = name)) slots = nearest l name.
Proof.
  revert visited s. induction fuel as [|fuel IH]; intros visited s Hpos Hfuel; [lia|]. simpl.
  case_decide as Hv; [exists [], []; split_and!; [done|by constructor|done]|].
  destruct Hfuel as [|Hfuel]; [done|].
  assert (Hstep : ∀ inherited l,
    (∀ name, List.filter (λ x, bool_decide (slot_name x = name)) inherited = nearest l name) →
    ∀ name, List.filter (λ x, bool_decide (slot_name x = name))
      (List.filter (λ x, bool_decide (slot_name x ∉ slot_name <$> spec_slots s)) inherited
        ++ spec_slots s) = nearest (s :: l) name).
  { intros inh l Hinh name. rewrite filter_named_app, filter_named_own. unfold nearest. simpl.
    case_decide as Hin; [by rewrite bool_decide_true|].
    rewrite bool_decide_false by done. rewrite (filter_named_none name (spec_slots s)) by done.
    by rewrite app_nil_r, Hinh. }
  destruct (spec_base s ≫= λ b, specs !! b) as [base|] eqn:Hb.
  - apply bind_Some in Hb as (b & Hb & Hbase).
    destruct (IH ({[spec_qname s]} ∪ visited) base) as (slots & l & Hc & Hl & Hn); [lia| |].
    { destruct (decide (spec_qname base ∈ {[spec_qname s]} ∪ visited)) as [|Hbv]; [by left|right].
      pose proof (unvisited_shrinks _ _ _ _ Hbase Hbv). lia. }
    rewrite Hc. simpl. eexists _, (s :: l). split_and!; [done|by econstructor|by apply Hstep].
  - simpl. eexists _, [s]. split_and!; [done|by constructor|by apply (Hstep [] [])].
Qed.

Lemma effective_slots_spec s specs :
  ∃ slots l, effective_slots s specs = Some slots ∧ lineage specs ∅ s l ∧
    ∀ name, List.filter (λ x, bool_decide (slot_name x = name)) slots = nearest l name.
Proof.
  apply collect_spec; [lia|right].
  pose proof (map_size_filter (λ kv, spec_qname kv.2 ∉ ({[spec_qname s]} ∪ ∅ : gset string)) specs).
  unfold unvisited. lia.
Qed.
End Spec.
