(* ===== verification/Namespace.v ===== *)
(** * The namespace of definitions

    [haystack-core/src/ontology/def.rs], [lib.rs], [validation.rs] and
    [namespace.rs]: the symbols, libraries and specs a graph is typed with,
    and the indexes derived from them.

    The methods that read through the memos of the taxonomy take [&self] in
    the source and fill the memos behind a lock.  They are computations of
    the monad [M], which passes the namespace along.

    The strict Xeto catalog a namespace may be derived from
    ([xeto/catalog.rs]) is the interface [StrictCatalog]. *)

From Stdlib Require Import Ascii.
From stdpp Require Import pretty.
From S2P Require Import Prelude Floats Kinds Text Taxonomy Xeto Filter.

(** ** Definitions and libraries *)

Inductive DefKind : Type :=
| DMarker | DVal | DEntity | DFeature | DConjunct | DChoice | DLib.
#[export] Instance DefKind_eq_dec : EqDecision DefKind.
Proof. solve_decision. Defined.

Record Def : Type := mkDef {
  def_symbol : string;
  def_lib : string;
  def_is : list string;
  def_tag_on : list string;
  def_of : option string;
  def_mandatory : bool;
  def_doc : string;
  def_tags : HDict
}.

(** [Def::kind]. *)
Definition def_kind (d : Def) : DefKind :=
  if decide ("lib" ∈ def_is d) then DLib
  else if decide ("choice" ∈ def_is d) then DChoice
  else if decide ("entity" ∈ def_is d) then DEntity
  else if decide ("val" ∈ def_is d ∨ "scalar" ∈ def_is d) then DVal
  else if decide ("feature" ∈ def_is d) then DFeature
  else if contains_char "-"%char (def_symbol d) then DConjunct
  else DMarker.

(** [Def::eq]: the symbol and the library. *)
Definition def_eqb (a b : Def) : bool :=
  bool_decide (def_symbol a = def_symbol b) && bool_decide (def_lib a = def_lib b).

Record Lib : Type := mkLib {
  lib_name : string;
  lib_version : string;
  lib_doc : string;
  lib_depends : list string;
  lib_defs : gmap string Def
}.
Definition new_lib (name : string) : Lib := mkLib name "" "" [] ∅.

Inductive LibSource : Type :=
| Bundled
| Trio (text : string)
| XetoText (text : string)
| Directory (path : string).

Inductive SpecTerm : Type :=
| TSpec (spec : Spec)
| TDef (symbol : string).

(** ** Issues *)

Inductive FitIssue : Type :=
| MissingMarker (tag spec : string)
| WrongType (tag expected actual : string)
| InvalidRef (tag expected actual : string)
| MissingChoice (tag : string) (options : list string)
| ConstraintViolation (tag constraint detail : string)
| InvalidChoice (tag value : string) (valid_options : list string)
| UnknownType (spec : string).
#[export] Instance FitIssue_eq_dec : EqDecision FitIssue.
Proof. solve_decision. Defined.

Definition quoted (s : string) : string := "'" +:+ s +:+ "'".

(** [Display] of [FitIssue] and of [ValidationIssue]. *)
Definition fit_issue_text (i : FitIssue) : string :=
  match i with
  | UnknownType spec => "unknown type " +:+ quoted spec +:+ ": not registered in this namespace"
  | MissingMarker tag spec =>
      "missing mandatory marker " +:+ quoted tag +:+ " for spec " +:+ quoted spec
  | WrongType tag expected actual =>
      "wrong type for " +:+ quoted tag +:+ ": expected " +:+ expected +:+ ", got " +:+ actual
  | InvalidRef tag expected actual =>
      "invalid ref for " +:+ quoted tag +:+ ": expected " +:+ expected +:+ ", got " +:+ actual
  | MissingChoice tag options =>
      "missing choice for " +:+ quoted tag +:+ ": options are " +:+ join ", " options
  | ConstraintViolation tag constraint detail =>
      "constraint " +:+ quoted constraint +:+ " violated on " +:+ quoted tag +:+ ": " +:+ detail
  | InvalidChoice tag value valid_options =>
      "invalid choice for " +:+ quoted tag +:+ ": " +:+ quoted value +:+ " not in [" +:+
      join ", " valid_options +:+ "]"
  end.
Definition validation_issue_text (i : ValidationIssue) : string :=
  "[" +:+ issue_type i +:+ "] " +:+ default "?" (issue_entity i) +:+ ": " +:+ issue_detail i.

(** ** The strict catalog *)

Class StrictCatalog : Type := {
  SCatalog : Type;
  declarations : SCatalog → list Spec;
  declaration : SCatalog → string → option Spec;
  strict_fits : SCatalog → string → HDict → option (HRef → option HDict) → bool
}.

(** The declarations are the values of a map keyed by qualified name. *)
Class StrictCatalogLaws `{StrictCatalog} : Prop := {
  declarations_nodup c : NoDup (spec_qname <$> declarations c);
  declaration_spec c q s : declaration c q = Some s ↔ s ∈ declarations c ∧ spec_qname s = q
}.

Definition no_strict : StrictCatalog := {|
  SCatalog := Empty_set; declarations _ := []; declaration _ _ := None;
  strict_fits _ _ _ _ := false
|}.
Lemma no_strict_laws : @StrictCatalogLaws no_strict.
Proof. by split; intros []. Qed.

Module Namespace.
Section model.
Context `{HashOrder, Casing, StrictCatalog}.

Record t : Type := mk {
  defs : gmap string Def;
  libs : gmap string Lib;
  taxonomy : TaxonomyTree.t;
  conjuncts : ConjunctIndex.t;
  mandatory_defs : gset string;
  tag_on_index : gmap string (list string);
  choice_index : gmap string (list string);
  specs : gmap string Spec;
  selected : option SCatalog;
  shadowed : gmap string (option Spec);
  spec_libs : gmap string (list string);
  lib_sources : gmap string LibSource
}.

Definition new : t :=
  mk ∅ ∅ TaxonomyTree.new ConjunctIndex.new ∅ ∅ ∅ ∅ None ∅ ∅ ∅.

Definition set_specs sp sl ns : t :=
  mk (defs ns) (libs ns) (taxonomy ns) (conjuncts ns) (mandatory_defs ns) (tag_on_index ns)
     (choice_index ns) sp (selected ns) (shadowed ns) sl (lib_sources ns).
Definition set_selected sel sh ns : t :=
  mk (defs ns) (libs ns) (taxonomy ns) (conjuncts ns) (mandatory_defs ns) (tag_on_index ns)
     (choice_index ns) (specs ns) sel sh (spec_libs ns) (lib_sources ns).
Definition set_taxonomy tx ns : t :=
  mk (defs ns) (libs ns) tx (conjuncts ns) (mandatory_defs ns) (tag_on_index ns)
     (choice_index ns) (specs ns) (selected ns) (shadowed ns) (spec_libs ns) (lib_sources ns).
Definition set_defs ds ns : t :=
  mk ds (libs ns) (taxonomy ns) (conjuncts ns) (mandatory_defs ns) (tag_on_index ns)
     (choice_index ns) (specs ns) (selected ns) (shadowed ns) (spec_libs ns) (lib_sources ns).
Definition set_libs ls src ns : t :=
  mk (defs ns) ls (taxonomy ns) (conjuncts ns) (mandatory_defs ns) (tag_on_index ns)
     (choice_index ns) (specs ns) (selected ns) (shadowed ns) (spec_libs ns) src.
Definition set_indexes tx cj md ton ci ns : t :=
  mk (defs ns) (libs ns) tx cj md ton ci (specs ns) (selected ns) (shadowed ns) (spec_libs ns)
     (lib_sources ns).

(** [Clone]: a copy whose memos are empty. *)
Definition clone (ns : t) : t := set_taxonomy (TaxonomyTree.clone (taxonomy ns)) ns.

(** ** The spec registry *)

Definition register_spec (ns : t) (s : Spec) : t :=
  set_specs (<[spec_qname s := s]> (specs ns))
    (push_entry (spec_lib s) (spec_qname s) (spec_libs ns)) ns.

Definition unindex_spec (ns : t) (qname : string) : t :=
  match specs ns !! qname with
  | None => ns
  | Some s =>
      let sp := delete qname (specs ns) in
      match spec_libs ns !! spec_lib s with
      | None => set_specs sp (spec_libs ns) ns
      | Some names =>
          let names := filter (λ n, n ≠ qname) names in
          set_specs sp (if decide (names = []) then delete (spec_lib s) (spec_libs ns)
                        else <[spec_lib s := names]> (spec_libs ns)) ns
      end
  end.

(** The loop that gives displaced specs back. *)
Definition restore_shadowed (ns : t) : t :=
  foldl (λ ns '(qname, original),
    let ns := unindex_spec ns qname in
    match original with Some s => register_spec ns s | None => ns end)
    (set_selected None ∅ ns) (hash_iter (shadowed ns)).

Definition select_declaration (ns : t) (s : Spec) : t :=
  let displaced := specs ns !! spec_qname s in
  let ns := unindex_spec ns (spec_qname s) in
  register_spec (set_selected (selected ns) (<[spec_qname s := displaced]> (shadowed ns)) ns) s.

Definition with_catalog (ns : t) (catalog : SCatalog) : t :=
  let ns := if selected ns then restore_shadowed ns else ns in
  let ns := foldl select_declaration ns (declarations catalog) in
  set_selected (Some catalog) (shadowed ns) ns.

Definition get_spec (ns : t) (qname : string) : option Spec := specs ns !! qname.

(** [specs(lib)]. *)
Definition list_specs (ns : t) (lib : option string) : list Spec :=
  match lib with
  | Some name =>
      match spec_libs ns !! name with
      | Some qnames => omap (λ q, specs ns !! q) qnames
      | None => []
      end
  | None => hash_values (specs ns)
  end.

(** ** Libraries *)

(** The conjunct entry of a symbol. *)
Definition index_conjunct (cj : ConjunctIndex.t) (symbol : string) : ConjunctIndex.t :=
  if contains_char "-"%char symbol
  then ConjunctIndex.register cj symbol (split_on "-"%char symbol) else cj.
Definition index_tag_on (ton : gmap string (list string)) (symbol : string) (targets : list string)
    : gmap string (list string) :=
  foldl (λ ton target, push_entry target symbol ton) ton targets.

(** What [register_def_basic] and [rebuild_derived_indexes] do to the
    indexes for one definition. *)
Definition index_def (ns : t) (d : Def) : t :=
  set_indexes (TaxonomyTree.add (taxonomy ns) (def_symbol d) (def_is d))
    (index_conjunct (conjuncts ns) (def_symbol d))
    (if def_mandatory d then {[def_symbol d]} ∪ mandatory_defs ns else mandatory_defs ns)
    (index_tag_on (tag_on_index ns) (def_symbol d) (def_tag_on d)) (choice_index ns) ns.

Definition register_def_basic (ns : t) (d : Def) : t :=
  let ns := index_def ns d in
  set_defs (<[def_symbol d := d]> (defs ns)) ns.

Definition register_def_choice_index (ns : t) (symbol : string) : t :=
  match defs ns !! symbol with
  | None => ns
  | Some d =>
      set_indexes (taxonomy ns) (conjuncts ns) (mandatory_defs ns) (tag_on_index ns)
        (foldl (λ ci parent,
           match defs ns !! parent with
           | Some pd => if decide (def_kind pd = DChoice) then push_entry parent symbol ci else ci
           | None => ci
           end) (choice_index ns) (def_is d)) ns
  end.

Definition register_lib (ns : t) (lib : Lib) : t :=
  let ds := hash_values (lib_defs lib) in
  let ns := set_libs (<[lib_name lib := lib]> (libs ns)) (lib_sources ns) ns in
  let ns := foldl register_def_basic ns ds in
  foldl register_def_choice_index ns (def_symbol <$> ds).

Definition set_lib_source (ns : t) (name : string) (source : LibSource) : t :=
  set_libs (libs ns) (<[name := source]> (lib_sources ns)) ns.
Definition lib_source (ns : t) (name : string) : option LibSource := lib_sources ns !! name.

Definition rebuild_derived_indexes (ns : t) : t :=
  let snapshot := hash_values (defs ns) in
  let ns := set_indexes TaxonomyTree.new ConjunctIndex.new ∅ ∅ ∅ ns in
  let ns := foldl index_def ns snapshot in
  foldl register_def_choice_index ns (def_symbol <$> snapshot).

(** The first library, in iteration order, that depends on another. *)
Definition dependent (ns : t) (name : string) : option string :=
  match List.find (λ nl : string * Lib, bool_decide (nl.1 ≠ name) &&
                     bool_decide (name ∈ lib_depends nl.2)) (hash_iter (libs ns)) with
  | Some (n, _) => Some n
  | None => None
  end.

Definition unload_lib (ns : t) (name : string) : t * result string unit :=
  match dependent ns name with
  | Some d => (ns, Err ("cannot unload " +:+ quoted name +:+ ": library " +:+ quoted d +:+
                        " depends on it"))
  | None =>
      match lib_sources ns !! name with
      | Some Bundled => (ns, Err ("cannot unload bundled library " +:+ quoted name))
      | _ =>
          let sp := match spec_libs ns !! name with
                    | Some qnames => foldl (λ sp q, delete q sp) (specs ns) qnames
                    | None => specs ns
                    end in
          let ns := set_specs sp (delete name (spec_libs ns)) ns in
          let ns := set_defs (filter (λ kv, def_lib kv.2 ≠ name) (defs ns)) ns in
          let ns := set_libs (delete name (libs ns)) (delete name (lib_sources ns)) ns in
          (rebuild_derived_indexes ns, Ok ())
      end
  end.

(** Loading, over what the loaders return ([ontology/trio_loader.rs],
    [xeto/loader.rs]). *)
Definition load_trio_str {E} (loaded : result E (list Lib)) (ns : t) : t * result E (list Lib) :=
  match loaded with
  | Ok ls => (foldl register_lib ns ls, Ok ls)
  | Err e => (ns, Err e)
  end.
Definition load_xeto {E} (loaded : result E (Lib * list Spec)) (name : string) (source : LibSource)
    (ns : t) : t * result E (list string) :=
  match loaded with
  | Ok (lib, sps) =>
      (set_lib_source (foldl register_spec (register_lib ns lib) sps) name source,
       Ok (spec_qname <$> sps))
  | Err e => (ns, Err e)
  end.
Definition load_bundled_h4 {E} (loaded : result E (list Lib)) : result E t :=
  let? ls := loaded in
  Ok (foldl (λ ns lib, set_lib_source (register_lib ns lib) (lib_name lib) Bundled) new ls).
(** One bundled Xeto library of [load_standard], with what loading it gave. *)
Definition load_bundled_xeto {E} (ns : t) (bundled : string * result E (Lib * list Spec)) : t :=
  match bundled with
  | (name, Ok (lib, sps)) =>
      let ns := if bool_decide (is_Some (libs ns !! lib_name lib)) then ns
                else register_lib ns lib in
      set_lib_source (foldl register_spec ns sps) name Bundled
  | (_, Err _) => ns
  end.

(** ** Lookups *)

Definition get_def (ns : t) (symbol : string) : option Def := defs ns !! symbol.
Definition contains (ns : t) (name : string) : bool := bool_decide (is_Some (defs ns !! name)).
Definition len (ns : t) : N := N.of_nat (size (defs ns)).
Definition is_empty (ns : t) : bool := bool_decide (defs ns = ∅).
Definition is_a (ns : t) (name supertype : string) : bool :=
  TaxonomyTree.is_subtype (taxonomy ns) name supertype.
Definition subtypes (ns : t) (name : string) : list string :=
  TaxonomyTree.subtypes_of (taxonomy ns) name.
Definition supertypes (ns : t) (name : string) : list string :=
  TaxonomyTree.supertypes_of (taxonomy ns) name.
Definition has_type (ns : t) (name : string) : bool := TaxonomyTree.contains (taxonomy ns) name.
Definition conjunct_parts (ns : t) (name : string) : option (list string) :=
  ConjunctIndex.decompose (conjuncts ns) name.

Definition tags_for (ns : t) (name : string) : gset string :=
  foldl (λ tags sup, list_to_set (targets (tag_on_index ns) sup) ∪ tags)
    (list_to_set (targets (tag_on_index ns) name))
    (TaxonomyTree.supertypes_of (taxonomy ns) name).

Definition choices (ns : t) (choice_name : string) : list string :=
  match defs ns !! choice_name with
  | None => []
  | Some d =>
      match def_of d with
      | Some target => TaxonomyTree.all_subtypes (taxonomy ns) target
      | None => targets (choice_index ns) choice_name
      end
  end.

(** The name after the last [::]. *)
Definition bare_name (term : string) : string :=
  match rsplit_once "::" term with Some (_, bare) => bare | None => term end.

Definition resolve_spec_term (ns : t) (term : string) : option SpecTerm :=
  match specs ns !! term with
  | Some s => Some (TSpec s)
  | None =>
      let bare := bare_name term in
      if has_type ns bare then Some (TDef bare)
      else
        let lowered := to_lowercase bare in
        if has_type ns lowered then Some (TDef lowered)
        else TDef <$> ConjunctIndex.resolve_normalized (conjuncts ns) bare
  end.

(** ** Methods that read through the memos *)

Definition M (A : Type) : Type := t → A * t.
#[global] Instance M_ret : MRet M := λ A a ns, (a, ns).
#[global] Instance M_bind : MBind M := λ A B k m ns, let '(a, ns') := m ns in k a ns'.
Definition reads {A} (f : t → A) : M A := λ ns, (f ns, ns).

(** [iter().all] and [iter().filter] with a body that reads the memos. *)
Fixpoint all_m {A} (f : A → M bool) (l : list A) : M bool :=
  match l with
  | [] => mret true
  | a :: l => b ← f a; if b : bool then all_m f l else mret false
  end.
Fixpoint filter_m {A} (f : A → M bool) (l : list A) : M (list A) :=
  match l with
  | [] => mret []
  | a :: l => b ← f a; r ← filter_m f l; mret (if b : bool then a :: r else r)
  end.
(** A loop that appends. *)
Fixpoint collect_m {A B} (f : A → M (list B)) (l : list A) : M (list B) :=
  match l with
  | [] => mret []
  | a :: l => b ← f a; r ← collect_m f l; mret (b ++ r)
  end.

Definition mandatory_tags (name : string) : M (gset string) := λ ns,
  let '(tags, tx) := TaxonomyTree.mandatory_tags (taxonomy ns) name (mandatory_defs ns) in
  (tags, set_taxonomy tx ns).

Definition any_is_subtype (tags : list string) (name : string) : M bool := λ ns,
  let '(hit, tx) := TaxonomyTree.any_is_subtype (taxonomy ns) tags name in
  (hit, set_taxonomy tx ns).

Definition fits (entity : HDict) (type_name : string) : M bool :=
  known ← reads (λ ns, has_type ns type_name);
  if known : bool then
    mandatory ← mandatory_tags type_name;
    mret (forallb (HDict.has entity) (hash_elems mandatory))
  else mret false.

Definition fits_explain (entity : HDict) (type_name : string) : M (list FitIssue) :=
  known ← reads (λ ns, has_type ns type_name);
  if known : bool then
    mandatory ← mandatory_tags type_name;
    mret ((λ tag, MissingMarker tag type_name) <$>
          List.filter (HDict.missing entity) (hash_elems mandatory))
  else mret [UnknownType type_name].

(** The marker tags of an entity. *)
Definition marker_tags (entity : HDict) : list string :=
  omap (λ kv : string * Kind, match kv.2 with KMarker => Some kv.1 | _ => None end)
    (HDict.iter entity).

Definition MAX_CONJUNCT_DEPTH : nat := 8.

(** [entity_is_a_depth]; [levels] is what is left of [MAX_CONJUNCT_DEPTH]. *)
Fixpoint entity_is_a_depth (levels : nat) (entity : HDict) (type_name : string) : M bool :=
  known ← reads (λ ns, has_type ns type_name);
  if known : bool then
    parts ← reads (λ ns, conjunct_parts ns type_name);
    match levels, parts with
    | S levels, Some parts =>
        if decide (parts = []) then mret false
        else all_m (entity_is_a_depth levels entity) parts
    | _, _ => any_is_subtype (marker_tags entity) type_name
    end
  else mret false.
Definition entity_is_a (entity : HDict) (type_name : string) : M bool :=
  entity_is_a_depth MAX_CONJUNCT_DEPTH entity type_name.

Definition missing_marker_issue (entity : option string) (tag m : string) : ValidationIssue :=
  mkIssue entity "missing_marker"
    ("Entity claims " +:+ quoted tag +:+ " but is missing mandatory marker " +:+ quoted m).

Definition validate_entity (entity : HDict) : M (list ValidationIssue) :=
  let ref_str := ref_val <$> HDict.id entity in
  collect_m (λ tag,
    known ← reads (λ ns, contains ns tag);
    match HDict.get entity tag with
    | Some KMarker =>
        if known : bool then
          mandatory ← mandatory_tags tag;
          mret (missing_marker_issue ref_str tag <$>
                List.filter (HDict.missing entity) (hash_elems mandatory))
        else mret []
    | _ => mret []
    end) (HDict.tag_names entity).
End model.
End Namespace.

(** ** Definitions from Trio rows

    [haystack-core/src/ontology/trio_loader.rs]: the rows of a decoded Trio
    document become definitions grouped by library.  Decoding the text is
    the Trio codec's, so the model starts from the rows. *)

Module TrioLoader.

Definition to_symbol_str (v : Kind) : option string :=
  match v with
  | KSymbol s => Some s
  | KRef r => Some (ref_val r)
  | KStr s => Some s
  | _ => None
  end.

Definition symbol_list (row : HDict) (tag : string) : list string :=
  match HDict.get row tag with
  | None => []
  | Some (KList items) => omap to_symbol_str items
  | Some v => match to_symbol_str v with Some s => [s] | None => [] end
  end.

Definition str_val (row : HDict) (tag default : string) : string :=
  match HDict.get row tag with Some (KStr s) => s | _ => default end.

(** [strip_prefix("lib:")]. *)
Definition strip_lib (s : string) : string :=
  if String.prefix "lib:" s then String.substring 4 (String.length s) s else s.

Definition row_to_def (row : HDict) : option Def :=
  raw ← HDict.get row "def";
  symbol ← to_symbol_str raw;
  let lib := match HDict.get row "lib" with
             | Some v => strip_lib (default "" (to_symbol_str v))
             | None => ""
             end in
  Some (mkDef symbol lib (symbol_list row "is") (symbol_list row "tagOn")
          (HDict.get row "of" ≫= to_symbol_str)
          (match HDict.get row "mandatory" with Some KMarker => true | _ => false end)
          (str_val row "doc" "") row).

(** The two maps [load_trio] fills: definitions by library and symbol, and
    the rows that define libraries. *)
Definition load_row (acc : gmap string (gmap string Def) * gmap string HDict) (row : HDict)
    : gmap string (gmap string Def) * gmap string HDict :=
  match row_to_def row with
  | None => acc
  | Some d =>
      let '(ls, rows) := acc in
      (<[def_lib d := <[def_symbol d := d]> (default ∅ (ls !! def_lib d))]> ls,
       if decide (def_kind d = DLib) then <[def_lib d := row]> rows else rows)
  end.

Definition lib_of (rows : gmap string HDict) (nd : string * gmap string Def) : Lib :=
  let row := default HDict.new (rows !! nd.1) in
  mkLib nd.1 (str_val row "version" "") (str_val row "doc" "") (symbol_list row "depends") nd.2.

Definition load_trio `{HashOrder} (rows : list HDict) : list Lib :=
  let '(ls, lib_rows) := foldl load_row (∅, ∅) rows in
  lib_of lib_rows <$> hash_iter ls.

(** The dependencies of a library are those its row lists, as written. *)
Lemma load_rows_libs rows acc name row :
  (foldl load_row acc rows).2 !! name = Some row → row ∈ rows ∨ acc.2 !! name = Some row.
Proof.
  revert acc. induction rows as [|r rows IH]; intros acc; cbn [foldl]; [by right|].
  intros [?|Hr]%IH; [left; by right|]. unfold load_row in Hr.
  destruct (row_to_def r) as [d|]; [|by right]. destruct acc as [ls lr]. cbn [snd] in *.
  case_decide; [|by right]. apply lookup_insert_Some in Hr as [[_ <-]|[_ ?]]; [left; left|by right].
Qed.
Lemma load_trio_depends `{HashOrder} rows lib d :
  lib ∈ load_trio rows → d ∈ lib_depends lib →
  ∃ row, row ∈ rows ∧ d ∈ symbol_list row "depends".
Proof.
  unfold load_trio. pose proof (load_rows_libs rows (∅, ∅)) as Hrows.
  destruct (foldl load_row (∅, ∅) rows) as [ls lr]. cbn [snd] in Hrows.
  intros (nd & -> & _)%list_elem_of_fmap. unfold lib_of. cbn [lib_depends].
  destruct (lr !! nd.1) as [row|] eqn:Hr; cbn [default].
  - intros Hd. destruct (Hrows nd.1 row Hr) as [?|Hno]; [eauto|].
    by rewrite lookup_empty in Hno.
  - by intros ?%elem_of_nil.
Qed.
End TrioLoader.
