(* ===== verification/Fitting.v ===== *)
(** * Structural fitting against Xeto specs

    [haystack-core/src/xeto/fitting.rs], with the two methods of
    [ontology/namespace.rs] that call it ([fits_spec_term] and
    [fits_spec_term_with]).

    In the source fitting is recursive: checking a query slot asks whether a
    reached entity is of a type, which may be a spec again.  That inner check
    is given no query context, so it evaluates no query slots and the
    recursion is one level deep.  The definitions follow that: [explain_plain]
    is the check without a context, [fits_spec_term] and [fits_of] are built on it, and
    [explain_against_spec_with_specs] adds the query slots.

    The regular expressions of crate [regex] are the interface [RegexCrate]. *)

From Stdlib Require Import Ascii.
From stdpp Require Import pretty.
From S2P Require Import Prelude Floats Kinds Text Taxonomy Xeto Filter Namespace.

(** ** Regular expressions *)

Inductive RegexError : Type :=
| RegexSyntax (message : string)
| RegexTooBig (limit : N).

(** [Regex::new], [RegexBuilder] with both size limits set to a number of
    bytes, [is_match] and the [Display] of errors. *)
Class RegexCrate : Type := {
  Regex : Type;
  regex_new : string → result RegexError Regex;
  regex_with_limit : N → string → result RegexError Regex;
  regex_is_match : Regex → string → bool;
  regex_error_text : RegexError → string
}.

(** The size limit [Regex::new] applies. *)
Definition DEFAULT_REGEX_LIMIT : N := (10 * 2 ^ 20)%N.

(** A pattern is a syntax error whatever the limit, and a smaller limit
    refuses more patterns but never changes what an accepted one matches. *)
Class RegexLaws `{RegexCrate} : Prop := {
  regex_limit_match limit pattern re : (limit ≤ DEFAULT_REGEX_LIMIT)%N →
    regex_with_limit limit pattern = Ok re →
    ∃ re', regex_new pattern = Ok re' ∧ ∀ s, regex_is_match re' s = regex_is_match re s;
  regex_limit_syntax limit pattern m :
    regex_with_limit limit pattern = Err (RegexSyntax m) →
    ∃ m', regex_new pattern = Err (RegexSyntax m')
}.

(** Patterns that are plain text, matched by equality. *)
Definition literal_regex : RegexCrate := {|
  Regex := string;
  regex_new pattern :=
    if String.prefix "(" pattern then Err (RegexSyntax "unclosed group") else Ok pattern;
  regex_with_limit limit pattern :=
    if String.prefix "(" pattern then Err (RegexSyntax "unclosed group")
    else if decide (limit < str_len pattern)%N then Err (RegexTooBig limit) else Ok pattern;
  regex_is_match re s := bool_decide (re = s);
  regex_error_text e := match e with RegexSyntax m => m | RegexTooBig _ => "too big" end
|}.
Lemma literal_regex_laws : @RegexLaws literal_regex.
Proof.
  split; simpl; intros limit pattern; destruct (String.prefix "(" pattern); try done.
  - intros re _. case_decide; [done|]. intros [= ->]. by exists re.
  - intros m _. by exists "unclosed group".
  - case_decide; done.
Qed.

Module Fitting.

(** [str_meta]. *)
Definition str_meta (s : Slot) (key : string) : option string :=
  match slot_meta s !! key with Some (KStr x) => Some x | _ => None end.
Definition num_meta (s : Slot) (key : string) : option F64.f64 :=
  match slot_meta s !! key with Some (KNumber n) => Some (num_val n) | _ => None end.
Definition has_meta (s : Slot) (key : string) : bool := bool_decide (is_Some (slot_meta s !! key)).

(** [split_via]: the tag of a path and whether it is transitive. *)
Definition split_via (via : string) : string * bool :=
  match strip_suffix "+"%char via with Some s => (s, true) | None => (via, false) end.

(** [kind_type_name]. *)
Definition kind_type_name (v : Kind) : string :=
  match v with
  | KNull => "Null" | KNone => "None" | KInt _ => "Int" | KFloat _ => "Float" | KBuf _ => "Buf"
  | KNominal _ => "Nominal" | KMarker => "Marker" | KNA => "NA" | KRemove => "Remove"
  | KBool _ => "Bool" | KNumber _ => "Number" | KStr _ => "Str" | KRef _ => "Ref" | KUri _ => "Uri"
  | KSymbol _ => "Symbol" | KDate _ => "Date" | KTime _ => "Time" | KDateTime _ => "DateTime"
  | KCoord _ => "Coord" | KXStr _ => "XStr" | KList _ => "List" | KDict _ => "Dict"
  | KGrid _ => "Grid"
  end.

(** The types [check_slot_types] knows; any other type reference is
    accepted. *)
Definition checked_types : list string :=
  ["Str"; "Number"; "Ref"; "Bool"; "Date"; "Time"; "DateTime"; "Uri"; "Coord"; "List"; "Dict";
   "Grid"; "Marker"].
Definition type_ok (type_ref : string) (v : Kind) : bool :=
  if decide (type_ref ∈ checked_types) then bool_decide (kind_type_name v = type_ref) else true.

(** [check_slot_types], one slot. *)
Definition check_slot_type (entity : HDict) (s : Slot) : list FitIssue :=
  if slot_is_marker s || slot_is_query s || is_maybe s then []
  else match slot_type_ref s, HDict.get entity (slot_name s) with
  | Some type_ref, Some v =>
      if type_ok type_ref v then [] else [WrongType (slot_name s) type_ref (kind_type_name v)]
  | _, _ => []
  end.
Definition check_slot_types (entity : HDict) (spec : Spec) : list FitIssue :=
  concat (check_slot_type entity <$> spec_slots spec).

(** The loop of [check_mandatory_markers] over the chain of bases, from the
    base's name. *)
Fixpoint inherited_markers (fuel : nat) (specs : gmap string Spec) (base : option string)
    (visited acc : gset string) : gset string :=
  match fuel, base with
  | S fuel, Some name =>
      if decide (name ∈ visited) then acc
      else match specs !! name with
      | Some s => inherited_markers fuel specs (spec_base s) ({[name]} ∪ visited)
                    (list_to_set (Spec.mandatory_markers s) ∪ acc)
      | None => acc
      end
  | _, _ => acc
  end.
Definition all_mandatory (spec : Spec) (specs : gmap string Spec) : gset string :=
  inherited_markers (S (size specs)) specs (spec_base spec) ∅
    (list_to_set (Spec.mandatory_markers spec)).

(** ** Traversal of references *)

(** [traverse_refs]: the stack is a list, top first. *)
Fixpoint traverse_loop (fuel : nat) (resolve : HRef → option HDict) (ref_tag : string)
    (transitive : bool) (queue : list HRef) (visited : gset string) : list HDict :=
  match fuel, queue with
  | S fuel, r :: queue =>
      if decide (ref_val r ∈ visited)
      then traverse_loop fuel resolve ref_tag transitive queue visited
      else
        let visited := {[ref_val r]} ∪ visited in
        match resolve r with
        | Some target =>
            let queue := match HDict.get target ref_tag with
                         | Some (KRef next) => if transitive then next :: queue else queue
                         | _ => queue
                         end in
            target :: traverse_loop fuel resolve ref_tag transitive queue visited
        | None => traverse_loop fuel resolve ref_tag transitive queue visited
        end
  | _, _ => []
  end.
Definition traverse_refs (fuel : nat) (entity : HDict) (ref_tag : string) (transitive : bool)
    (resolve : HRef → option HDict) : list HDict :=
  let queue := match HDict.get entity ref_tag with Some (KRef r) => [r] | _ => [] end in
  traverse_loop fuel resolve ref_tag transitive queue ∅.

(** [traverse_refs_inverse]. *)
Definition push_sources (visited : gset string) (queue : list HRef) (sources : list HDict)
    : list HRef :=
  foldl (λ queue source,
    match HDict.get source "id" with
    | Some (KRef id) => if decide (ref_val id ∈ visited) then queue else id :: queue
    | _ => queue
    end) queue sources.
Fixpoint inverse_loop (fuel : nat) (reverse : HRef → string → list HDict) (ref_tag : string)
    (transitive : bool) (queue : list HRef) (visited : gset string) : list HDict :=
  match fuel, queue with
  | S fuel, target :: queue =>
      if decide (ref_val target ∈ visited)
      then inverse_loop fuel reverse ref_tag transitive queue visited
      else
        let visited := {[ref_val target]} ∪ visited in
        let sources := reverse target ref_tag in
        sources ++
        (if transitive
         then inverse_loop fuel reverse ref_tag transitive (push_sources visited queue sources) visited
         else [])
  | _, _ => []
  end.
Definition traverse_refs_inverse (fuel : nat) (entity : HDict) (ref_tag : string)
    (transitive : bool) (reverse : HRef → string → list HDict) : list HDict :=
  match HDict.get entity "id" with
  | Some (KRef start) => inverse_loop fuel reverse ref_tag transitive [start] ∅
  | _ => []
  end.

(** [resolve_inverse_via]. *)
Definition resolve_inverse_via (inverse : string) (specs : gmap string Spec)
    : option (string * bool) :=
  '(qname, slot) ← rsplit_once "." inverse;
  target ← specs !! qname;
  s ← List.find (λ s, bool_decide (slot_name s = slot)) (spec_slots target);
  if slot_is_query s then split_via <$> str_meta s "via" else None.

Section model.
Context `{HashOrder, Casing, StrictCatalog, RegexCrate, FloatText}.
Import Namespace.

Definition check_mandatory_markers (entity : HDict) (spec : Spec) (specs : gmap string Spec)
    : list FitIssue :=
  (λ tag, MissingMarker tag (spec_qname spec)) <$>
  List.filter (HDict.missing entity) (hash_elems (all_mandatory spec specs)).

(** [check_value_constraints] *)

Definition violation (s : Slot) (constraint detail : string) : FitIssue :=
  ConstraintViolation (slot_name s) constraint detail.

Definition number_issues (s : Slot) (num : Number) : list FitIssue :=
  (match num_meta s "minVal" with
   | Some min => if F64.float_lt (num_val num) min
                 then [violation s "minVal" (float_text (num_val num) +:+ " < " +:+ float_text min)]
                 else []
   | None => []
   end) ++
  (match num_meta s "maxVal" with
   | Some max => if F64.float_gt (num_val num) max
                 then [violation s "maxVal" (float_text (num_val num) +:+ " > " +:+ float_text max)]
                 else []
   | None => []
   end) ++
  (match num_unit num with
   | Some unit => if has_meta s "unitless"
                  then [violation s "unitless" ("expected no unit, got " +:+ quoted unit)] else []
   | None => []
   end) ++
  (match str_meta s "unit" with
   | Some expected =>
       match num_unit num with
       | Some u => if decide (u = expected) then []
                   else [violation s "unit" ("expected unit " +:+ quoted expected +:+ ", got " +:+
                                             quoted u)]
       | None => [violation s "unit" ("expected unit " +:+ quoted expected +:+ ", got unitless")]
       end
   | None => []
   end).

(** [minSize] and [maxSize], for a string or a list of [n] elements. *)
Definition size_issues (s : Slot) (what : string) (n : N) : list FitIssue :=
  (match num_meta s "minSize" with
   | Some min => if F64.float_lt (F64.of_usize n) min
                 then [violation s "minSize" (what +:+ pretty n +:+ " < " +:+ float_text min)] else []
   | None => []
   end) ++
  (match num_meta s "maxSize" with
   | Some max => if F64.float_gt (F64.of_usize n) max
                 then [violation s "maxSize" (what +:+ pretty n +:+ " > " +:+ float_text max)] else []
   | None => []
   end).

Definition pattern_issues (s : Slot) (text : string) : list FitIssue :=
  match str_meta s "pattern" with
  | Some pattern =>
      match regex_new pattern with
      | Ok re => if regex_is_match re text then []
                 else [violation s "pattern" (quoted text +:+ " does not match pattern " +:+
                                              quoted pattern)]
      | Err e => [violation s "pattern" ("invalid regex pattern " +:+ quoted pattern +:+ ": " +:+
                                         regex_error_text e)]
      end
  | None => []
  end.

Definition string_issues (s : Slot) (text : string) : list FitIssue :=
  size_issues s "length " (str_len text) ++
  (if has_meta s "nonEmpty" && all_whitespace text
   then [violation s "nonEmpty" "string is empty or whitespace only"] else []) ++
  pattern_issues s text.

Definition check_slot_value (entity : HDict) (s : Slot) : list FitIssue :=
  if slot_is_marker s || slot_is_query s then []
  else match HDict.get entity (slot_name s) with
  | Some (KNumber num) => number_issues s num
  | Some (KStr text) => string_issues s text
  | Some (KList items) => size_issues s "list length " (Prelude.len items)
  | _ => []
  end.
Definition check_value_constraints (entity : HDict) (spec : Spec) : list FitIssue :=
  concat (check_slot_value entity <$> spec_slots spec).

(** [explain_against_spec_with_specs] without a context. *)
Definition explain_plain (entity : HDict) (spec : Spec) (specs : gmap string Spec) : list FitIssue :=
  check_mandatory_markers entity spec specs ++ check_slot_types entity spec ++
  check_value_constraints entity spec.

(** [DefNamespace::fits_spec_term]: [fits_spec_term_with] without a
    context. *)
Definition fits_spec_term (entity : HDict) (term : string) : M bool :=
  cat ← reads selected;
  match cat ≫= λ c, (λ _, c) <$> declaration c term with
  | Some c => mret (strict_fits c term entity None)
  | None =>
      resolved ← reads (λ ns, resolve_spec_term ns term);
      match resolved with
      | Some (TDef name) => entity_is_a entity name
      | Some (TSpec spec) => reads (λ ns, is_nil (explain_plain entity spec (specs ns)))
      | None => mret false
      end
  end.

Definition fits_of (candidate : HDict) (of_type enclosing_lib : string) (specs : gmap string Spec)
    : M bool :=
  match (if contains_str "::" of_type then None else specs !! (enclosing_lib +:+ "::" +:+ of_type)) with
  | Some local => mret (is_nil (explain_plain candidate local specs))
  | None => fits_spec_term candidate of_type
  end.

(** Where a query slot leads: the entities reached, a violation to report,
    or nothing to check. *)
Inductive Reached : Type :=
| Found (l : list HDict)
| Unanswerable (i : FitIssue)
| NoQuery.

Definition reach (entity : HDict) (s : Slot) (specs : gmap string Spec) (ctx : QueryContext)
    : Reached :=
  match str_meta s "via", str_meta s "inverse" with
  | Some via, _ =>
      let '(tag, transitive) := split_via via in
      Found (traverse_refs (ctx_fuel ctx) entity tag transitive (ctx_forward ctx))
  | None, Some inverse =>
      match resolve_inverse_via inverse specs with
      | Some (tag, transitive) =>
          match ctx_inverse ctx with
          | Some reverse => Found (traverse_refs_inverse (ctx_fuel ctx) entity tag transitive reverse)
          | None => Unanswerable (violation s "query" ("inverse query " +:+ quoted inverse +:+
                      " needs a reverse index, and this caller supplied none"))
          end
      | None => Unanswerable (violation s "query" ("inverse query names " +:+ quoted inverse +:+
                  ", which is not a forward query slot in this namespace"))
      end
  | None, None => NoQuery
  end.

Definition unreached_detail (s : Slot) : string :=
  match str_meta s "via", str_meta s "inverse", str_meta s "of" with
  | Some via, _, Some of_type => "no " +:+ quoted of_type +:+ " reachable via " +:+ quoted via
  | Some via, _, None => "no entities reachable via " +:+ quoted via
  | None, Some inv, Some of_type => "no " +:+ quoted of_type +:+ " reaches this entity through " +:+ quoted inv
  | None, Some inv, None => "no entities reach this entity through " +:+ quoted inv
  | None, None, _ => ""
  end.

(** [check_query_slots], one slot. *)
Definition check_query_slot (entity : HDict) (spec : Spec) (specs : gmap string Spec)
    (ctx : QueryContext) (s : Slot) : M (list FitIssue) :=
  if negb (slot_is_query s) then mret []
  else match reach entity s specs ctx with
  | NoQuery => mret []
  | Unanswerable i => mret [i]
  | Found found =>
      matching ← match str_meta s "of" with
                 | Some of_type => filter_m (λ c, fits_of c of_type (spec_lib spec) specs) found
                 | None => mret found
                 end;
      mret (if is_nil matching && negb (is_maybe s)
            then [violation s "query" (unreached_detail s)] else [])
  end.
Definition check_query_slots (entity : HDict) (spec : Spec) (specs : gmap string Spec)
    (ctx : QueryContext) : M (list FitIssue) :=
  collect_m (check_query_slot entity spec specs ctx) (spec_slots spec).

Definition explain_against_spec_with_specs (entity : HDict) (spec : Spec)
    (specs : gmap string Spec) (ctx : option QueryContext) : M (list FitIssue) :=
  queries ← match ctx with
            | Some ctx => check_query_slots entity spec specs ctx
            | None => mret []
            end;
  mret (explain_plain entity spec specs ++ queries).

(** [DefNamespace::fits_spec_term_with]. *)
Definition fits_spec_term_with (entity : HDict) (term : string) (ctx : option QueryContext)
    : M bool :=
  cat ← reads selected;
  match cat ≫= λ c, (λ _, c) <$> declaration c term with
  | Some c => mret (strict_fits c term entity (ctx_forward <$> ctx))
  | None =>
      resolved ← reads (λ ns, resolve_spec_term ns term);
      match resolved with
      | Some (TDef name) => entity_is_a entity name
      | Some (TSpec spec) =>
          sps ← reads specs;
          issues ← explain_against_spec_with_specs entity spec sps ctx;
          mret (is_nil issues)
      | None => mret false
      end
  end.

(** [synthetic_spec_for_def]. *)
Definition marker_slot (name : string) : Slot := mkSlot name None ∅ None true false [].
Definition synthetic_spec_for_def (def_name qname : string) : M (option Spec) :=
  d ← reads (λ ns, get_def ns def_name);
  match d with
  | None => mret None
  | Some d =>
      mandatory ← mandatory_tags def_name;
      mret (Some (mkSpec qname def_name (def_lib d) None ∅ (marker_slot <$> hash_elems mandatory)
                    false (def_doc d)))
  end.

(** [xeto::fits_explain] and [xeto::fits]. *)
Definition fits_explain (entity : HDict) (spec_qname : string) (ctx : option QueryContext)
    : M (list FitIssue) :=
  resolved ← reads (λ ns, resolve_spec_term ns spec_qname);
  match resolved with
  | Some (TSpec spec) =>
      sps ← reads specs;
      explain_against_spec_with_specs entity spec sps ctx
  | Some (TDef name) =>
      syn ← synthetic_spec_for_def name spec_qname;
      match syn with
      | Some spec => explain_against_spec_with_specs entity spec ∅ ctx
      | None => Namespace.fits_explain entity name
      end
  | None => mret [UnknownType spec_qname]
  end.
Definition fits (entity : HDict) (spec_qname : string) (ctx : option QueryContext) : M bool :=
  issues ← fits_explain entity spec_qname ctx;
  mret (is_nil issues).
End model.

(** ** The namespace as the interface the graph uses *)

Section instance.
Context `{HashOrder, Casing, StrictCatalog, RegexCrate, FloatText}.

Definition namespace_ontology : Ontology := {|
  DefNamespace := Namespace.t;
  Filter.resolve_spec_term ns term := bool_decide (is_Some (Namespace.resolve_spec_term ns term));
  Filter.fits_spec_term_with ns entity term ctx := (fits_spec_term_with entity term ctx ns).1;
  Filter.validate_entity ns entity := (Namespace.validate_entity entity ns).1
|}.
End instance.
End Fitting.
