(* ===== verification/NamespaceFacts.v ===== *)
(** * The namespace: memos, membership, indexes

    Three groups of facts.  The memos never change an answer: every method
    that reads through them returns what a plain function of the namespace
    does ([answers]).  Membership of an entity in a type is reachability in
    the hierarchy.  The derived indexes describe the definitions. *)

From Stdlib Require Import Ascii.
From S2P Require Import Prelude Floats Kinds Text Taxonomy Xeto Filter Namespace Fitting.

Module NamespaceFacts.
Import Namespace TaxonomyFacts.

Section facts.
Context `{HashOrderLaws, Casing, StrictCatalog, RegexCrate, FloatText}.
Implicit Types ns : t.

(** ** Answers through memos *)

Record good (ns : t) : Prop := {
  good_tree : wf (taxonomy ns);
  good_memo : memo_ok (mandatory_defs ns) (taxonomy ns)
}.

(** A function of the namespace that no memo can change. *)
Definition stable {A} (p : t → A) : Prop :=
  ∀ ns tx, same_tree tx (taxonomy ns) → p (set_taxonomy tx ns) = p ns.

(** The computation returns the value of the function, and changes nothing
    but memos. *)
Definition answers {A} (m : M A) (p : t → A) : Prop :=
  stable p ∧ ∀ ns, good ns → ∃ tx,
    m ns = (p ns, set_taxonomy tx ns) ∧ same_tree tx (taxonomy ns) ∧ good (set_taxonomy tx ns).

Lemma set_taxonomy_self ns : set_taxonomy (taxonomy ns) ns = ns.
Proof. by destruct ns. Qed.

Lemma answers_reads {A} (p : t → A) : stable p → answers (reads p) p.
Proof.
  intros Hp. split; [done|]. intros ns Hg. exists (taxonomy ns). unfold reads.
  by rewrite set_taxonomy_self.
Qed.

Lemma answers_ret {A} (a : A) : answers (mret a) (λ _, a).
Proof. by apply (answers_reads (λ _, a)). Qed.

Lemma answers_bind {A B} (m : M A) (k : A → M B) p q :
  answers m p → (∀ a, answers (k a) (q a)) → answers (m ≫= k) (λ ns, q (p ns) ns).
Proof.
  intros [Hp Hm] Hk. split.
  - intros ns tx Hs. destruct (Hk (p ns)) as [Hq _]. rewrite (Hp ns tx Hs). by apply Hq.
  - intros ns Hg. destruct (Hm ns Hg) as (tx & Hr & Hs & Hg').
    destruct (Hk (p ns)) as [Hq Hka]. destruct (Hka _ Hg') as (tx' & Hr' & Hs' & Hg'').
    exists tx'. unfold mbind, M_bind. rewrite Hr, Hr'. simpl in *. split_and!.
    + by rewrite (Hq ns tx Hs).
    + by etrans.
    + done.
Qed.

Lemma answers_ext {A} (m : M A) p q : (∀ ns, p ns = q ns) → answers m p → answers m q.
Proof.
  intros Hpq [Hp Hm]. split.
  - intros ns tx Hs. rewrite <-!Hpq. by apply Hp.
  - intros ns Hg. rewrite <-Hpq. by apply Hm.
Qed.

Lemma answers_all_m {A} (f : A → M bool) (p : A → t → bool) l :
  (∀ a, a ∈ l → answers (f a) (p a)) → answers (all_m f l) (λ ns, forallb (λ a, p a ns) l).
Proof.
  induction l as [|a l IH]; intros Hf; simpl; [apply answers_ret|].
  eapply answers_ext; [|eapply (answers_bind _ _ (p a)
    (λ b ns, if b then forallb (λ a, p a ns) l else false)); [apply Hf; left|]].
  - intros ns. cbv beta. by destruct (p a ns).
  - intros []; [apply IH; intros; apply Hf; by right|apply answers_ret].
Qed.

Lemma answers_filter_m {A} (f : A → M bool) (p : A → t → bool) l :
  (∀ a, a ∈ l → answers (f a) (p a)) →
  answers (filter_m f l) (λ ns, List.filter (λ a, p a ns) l).
Proof.
  induction l as [|a l IH]; intros Hf; simpl; [apply answers_ret|].
  eapply answers_ext; [|eapply (answers_bind _ _ (p a) (λ b ns,
    if b then a :: List.filter (λ a, p a ns) l else List.filter (λ a, p a ns) l));
    [apply Hf; left|]].
  - intros ns. cbv beta. by destruct (p a ns).
  - intros b. eapply (answers_ext _ (λ ns, if b then a :: _ else _));
      [|eapply (answers_bind _ _ _ (λ r _, if b then a :: r else r));
        [apply IH; intros; apply Hf; by right|intros; apply answers_ret]].
    by intros ns.
Qed.

Lemma answers_collect_m {A B} (f : A → M (list B)) (p : A → t → list B) l :
  (∀ a, a ∈ l → answers (f a) (p a)) →
  answers (collect_m f l) (λ ns, concat ((λ a, p a ns) <$> l)).
Proof.
  induction l as [|a l IH]; intros Hf; cbn [collect_m]; [exact (answers_ret [])|].
  apply (answers_ext _ (λ ns, p a ns ++ concat ((λ a, p a ns) <$> l))); [done|].
  eapply (answers_bind _ _ (p a) (λ b ns, b ++ concat ((λ a, p a ns) <$> l))); [apply Hf; left|].
  intros b. eapply (answers_bind _ _ (λ ns, concat ((λ a, p a ns) <$> l)) (λ r _, b ++ r));
    [apply IH; intros; apply Hf; by right|intros; apply answers_ret].
Qed.

Lemma answers_run {A} (m : M A) p ns : answers m p → good ns → (m ns).1 = p ns.
Proof. intros [_ Hm] Hg. destruct (Hm ns Hg) as (tx & -> & _). done. Qed.

(** What depends on the hierarchy only, or not on the taxonomy at all, is
    stable. *)
Lemma stable_const {A} (p : t → A) : (∀ ns tx, p (set_taxonomy tx ns) = p ns) → stable p.
Proof. by intros Hp ns tx _. Qed.
Lemma stable_has_type name : stable (λ ns, has_type ns name).
Proof. intros ns tx [Hp _]. unfold has_type, TaxonomyTree.contains. simpl. by rewrite Hp. Qed.
Lemma stable_resolve term : stable (λ ns, resolve_spec_term ns term).
Proof.
  intros ns tx Hs. unfold resolve_spec_term. simpl.
  pose proof (stable_has_type (bare_name term) ns tx Hs) as H1'.
  pose proof (stable_has_type (to_lowercase (bare_name term)) ns tx Hs) as H2'.
  cbv beta in H1', H2'. by rewrite H1', H2'.
Qed.

Lemma is_subtype_loop_same fuel a b parent queue visited :
  same_tree a b →
  TaxonomyTree.is_subtype_loop fuel a parent queue visited =
  TaxonomyTree.is_subtype_loop fuel b parent queue visited.
Proof.
  intros [Hp _]. revert queue visited. induction fuel as [|fuel IH]; intros [|c queue] visited; try done.
  simpl. rewrite Hp. repeat case_decide; auto.
Qed.
Lemma stable_is_a name supertype : stable (λ ns, is_a ns name supertype).
Proof.
  intros ns tx Hs. unfold is_a, TaxonomyTree.is_subtype.
  change (taxonomy (set_taxonomy tx ns)) with tx. case_decide; [done|].
  rewrite (is_subtype_loop_same _ tx (taxonomy ns)) by done. destruct Hs as [Hp _]. by rewrite Hp.
Qed.

(** ** The methods over the memos of the taxonomy *)

Definition mandatory_of (name : string) (ns : t) : gset string :=
  TaxonomyTree.mandatory_set (taxonomy ns) name (mandatory_defs ns).

Lemma good_set_taxonomy ns tx :
  good ns → same_tree tx (taxonomy ns) → memo_ok (mandatory_defs ns) tx → good (set_taxonomy tx ns).
Proof.
  intros [[Hi Hr] _] [Hp Hc] Hm. split; [|done]. split; simpl; rewrite Hp, ?Hc; auto.
Qed.

Lemma mandatory_tags_answers name : answers (mandatory_tags name) (mandatory_of name).
Proof.
  split.
  - intros ns tx Hs. unfold mandatory_of. simpl. by rewrite (mandatory_set_proper _ _ Hs _ _ eq_refl _ _ eq_refl).
  - intros ns Hg. destruct (mandatory_tags_spec (mandatory_defs ns) (taxonomy ns) name) as
      (tx & Hr & Hs & Hm); [apply Hg|]. exists tx. unfold mandatory_tags. rewrite Hr.
    split_and!; [done|done|]. by apply good_set_taxonomy.
Qed.

Lemma any_is_subtype_answers tags name :
  answers (any_is_subtype tags name) (λ ns, existsb (λ tag, is_a ns tag name) tags).
Proof.
  split.
  - intros ns tx Hs. induction tags as [|x tags IH]; [done|]. simpl. f_equal; [|done].
    by apply (stable_is_a x name).
  - intros ns Hg. destruct (any_is_subtype_spec (mandatory_defs ns) (taxonomy ns) tags name) as
      (tx & Hr & Hs & Hm); [apply Hg..|]. exists tx. unfold any_is_subtype. rewrite Hr.
    split_and!; [done|done|]. by apply good_set_taxonomy.
Qed.

(** The step of a method that first asks whether a type is known. *)
Lemma answers_known {A} name (yes no : M A) p q :
  answers yes p → answers no q →
  answers (known ← reads (λ ns, has_type ns name); if known : bool then yes else no)
    (λ ns, if has_type ns name then p ns else q ns).
Proof.
  intros Hy Hn. apply (answers_bind _ _ _ (λ (b : bool) ns, if b then p ns else q ns));
    [apply answers_reads, stable_has_type|]. by intros [].
Qed.

Lemma fits_answers entity name :
  answers (fits entity name)
    (λ ns, if has_type ns name
           then forallb (HDict.has entity) (hash_elems (mandatory_of name ns)) else false).
Proof.
  apply answers_known; [|apply answers_ret].
  apply (answers_bind _ _ _ (λ (m : gset string) _, forallb (HDict.has entity) (hash_elems m)));
    [apply mandatory_tags_answers|intros; apply answers_ret].
Qed.

Lemma fits_explain_answers entity name :
  answers (fits_explain entity name)
    (λ ns, if has_type ns name
           then (λ tag, MissingMarker tag name) <$>
                List.filter (HDict.missing entity) (hash_elems (mandatory_of name ns))
           else [UnknownType name]).
Proof.
  apply answers_known; [|apply answers_ret].
  apply (answers_bind _ _ _ (λ (m : gset string) _, (λ tag, MissingMarker tag name) <$>
    List.filter (HDict.missing entity) (hash_elems m)));
    [apply mandatory_tags_answers|intros; apply answers_ret].
Qed.

(** Membership as a function of the namespace. *)
Fixpoint member (levels : nat) (entity : HDict) (name : string) (ns : t) : bool :=
  if has_type ns name then
    match levels, conjunct_parts ns name with
    | S levels, Some parts =>
        negb (bool_decide (parts = [])) && forallb (λ part, member levels entity part ns) parts
    | _, _ => existsb (λ tag, is_a ns tag name) (marker_tags entity)
    end
  else false.

Lemma entity_is_a_depth_answers levels entity name :
  answers (entity_is_a_depth levels entity name) (member levels entity name).
Proof.
  revert name. induction levels as [|levels IH]; intros name; simpl.
  all: apply answers_known; [|apply answers_ret].
  - apply (answers_bind _ _ (λ ns, conjunct_parts ns name)
      (λ _ ns, existsb (λ tag, is_a ns tag name) (marker_tags entity)));
      [by apply answers_reads, stable_const|]. intros parts. apply any_is_subtype_answers.
  - apply (answers_bind _ _ (λ ns, conjunct_parts ns name) (λ parts ns,
      match parts with
      | Some parts =>
          negb (bool_decide (parts = [])) && forallb (λ part, member levels entity part ns) parts
      | None => existsb (λ tag, is_a ns tag name) (marker_tags entity)
      end)); [by apply answers_reads, stable_const|].
    intros [parts|]; [|apply any_is_subtype_answers]. case_decide as Hp.
    + subst. apply (answers_ext _ (λ _, false)); [done|apply answers_ret].
    + rewrite bool_decide_false by done. apply answers_all_m. auto.
Qed.

Lemma entity_is_a_answers entity name :
  answers (entity_is_a entity name) (member MAX_CONJUNCT_DEPTH entity name).
Proof. apply entity_is_a_depth_answers. Qed.

Lemma validate_entity_answers entity :
  answers (validate_entity entity) (λ ns, concat ((λ tag,
    match HDict.get entity tag with
    | Some KMarker =>
        if contains ns tag
        then missing_marker_issue (ref_val <$> HDict.id entity) tag <$>
             List.filter (HDict.missing entity) (hash_elems (mandatory_of tag ns))
        else []
    | _ => []
    end) <$> HDict.tag_names entity)).
Proof.
  apply (answers_collect_m _ (λ tag ns,
    match HDict.get entity tag with
    | Some KMarker =>
        if contains ns tag
        then missing_marker_issue (ref_val <$> HDict.id entity) tag <$>
             List.filter (HDict.missing entity) (hash_elems (mandatory_of tag ns))
        else []
    | _ => []
    end)).
  intros tag _. apply (answers_bind _ _ (λ ns, contains ns tag) (λ (b : bool) ns,
    match HDict.get entity tag with
    | Some KMarker =>
        if b
        then missing_marker_issue (ref_val <$> HDict.id entity) tag <$>
             List.filter (HDict.missing entity) (hash_elems (mandatory_of tag ns))
        else []
    | _ => []
    end)); [by apply answers_reads, stable_const|].
  intros b. destruct (HDict.get entity tag) as [[]|]; try apply answers_ret.
  destruct b; [|apply answers_ret].
  apply (answers_bind _ _ _ (λ (m : gset string) _,
    missing_marker_issue (ref_val <$> HDict.id entity) tag <$>
    List.filter (HDict.missing entity) (hash_elems m)));
    [apply mandatory_tags_answers|intros; apply answers_ret].
Qed.

(** ** The derived indexes *)

(** The indexes hold exactly the entries of a list of definitions. *)
Record indexed (ds : list Def) (ns : t) : Prop := {
  ix_edges x y : edge (TaxonomyTree.parents (taxonomy ns)) x y ↔
    ∃ d, d ∈ ds ∧ def_symbol d = x ∧ y ∈ def_is d;
  ix_types x : has_type ns x = true ↔ ∃ d, d ∈ ds ∧ (x = def_symbol d ∨ x ∈ def_is d);
  ix_mandatory x : x ∈ mandatory_defs ns ↔
    ∃ d, d ∈ ds ∧ def_symbol d = x ∧ def_mandatory d = true;
  ix_conjuncts x ps : conjunct_parts ns x = Some ps ↔
    (∃ d, d ∈ ds ∧ def_symbol d = x) ∧ contains_char "-"%char x = true ∧ ps = split_on "-"%char x;
  ix_normalized : ConjunctIndex.wf (conjuncts ns);
  ix_tag_on x s : s ∈ targets (tag_on_index ns) x ↔
    ∃ d, d ∈ ds ∧ def_symbol d = s ∧ x ∈ def_tag_on d;
  ix_good : good ns
}.

(** A component of a conjunct is not one. *)
Lemma conjunct_flat ds ns x ps p :
  indexed ds ns → conjunct_parts ns x = Some ps → p ∈ ps → conjunct_parts ns p = None.
Proof.
  intros Hi (_ & _ & ->)%(ix_conjuncts _ _ Hi) Hp%split_on_no_sep.
  destruct (conjunct_parts ns p) eqn:Hc; [|done]. apply (ix_conjuncts _ _ Hi) in Hc as (_ & ? & _). congruence.
Qed.

Lemma targets_push_entry k v (m : gmap string (list string)) x y :
  y ∈ targets (push_entry k v m) x ↔ y ∈ targets m x ∨ (x = k ∧ y = v).
Proof.
  unfold targets, push_entry. destruct (decide (k = x)) as [->|?]; simplify_map_eq; [|naive_solver].
  rewrite elem_of_app, list_elem_of_singleton. naive_solver.
Qed.

Lemma index_tag_on_spec ton symbol ts x y :
  y ∈ targets (index_tag_on ton symbol ts) x ↔ y ∈ targets ton x ∨ (x ∈ ts ∧ y = symbol).
Proof.
  unfold index_tag_on. revert ton. induction ts as [|u ts IH]; intros ton; cbn [foldl].
  - rewrite elem_of_nil. naive_solver.
  - rewrite IH, targets_push_entry, elem_of_cons. naive_solver.
Qed.

Lemma index_conjunct_spec cj symbol x ps :
  ConjunctIndex.parts (index_conjunct cj symbol) !! x = Some ps ↔
  (x = symbol ∧ contains_char "-"%char symbol = true ∧ ps = split_on "-"%char symbol) ∨
  ((x ≠ symbol ∨ contains_char "-"%char symbol = false) ∧ ConjunctIndex.parts cj !! x = Some ps).
Proof.
  unfold index_conjunct. destruct (contains_char _ symbol); [|naive_solver].
  cbn [ConjunctIndex.register ConjunctIndex.parts]. rewrite lookup_insert_Some. naive_solver.
Qed.

Lemma index_conjunct_wf cj symbol : ConjunctIndex.wf cj → ConjunctIndex.wf (index_conjunct cj symbol).
Proof. unfold index_conjunct. destruct (contains_char _ _); [apply ConjunctIndex.register_wf|done]. Qed.

Lemma exists_snoc {A} (l : list A) (a : A) (P : A → Prop) :
  (∃ x, x ∈ l ++ [a] ∧ P x) ↔ (∃ x, x ∈ l ∧ P x) ∨ P a.
Proof.
  setoid_rewrite elem_of_app. setoid_rewrite list_elem_of_singleton. naive_solver.
Qed.

(** Indexing one more definition. *)
Lemma index_def_indexed ds ns d : indexed ds ns → indexed (ds ++ [d]) (index_def ns d).
Proof.
  intros [He Ht Hm Hc Hn Hto [Hwf _]]. unfold index_def.
  destruct (add_type_spec (taxonomy ns) (def_symbol d) (def_is d)) as (H1' & _ & H3').
  split; cbn [taxonomy mandatory_defs conjuncts tag_on_index set_indexes]; intros *;
    rewrite ?exists_snoc.
  - rewrite H1', He. naive_solver.
  - unfold has_type in *. cbn [taxonomy set_indexes]. rewrite H3', !orb_true_iff, Ht, !bool_decide_eq_true.
    naive_solver.
  - destruct (def_mandatory d) eqn:Hd; rewrite ?elem_of_union, ?elem_of_singleton, Hm;
      naive_solver congruence.
  - unfold conjunct_parts, ConjunctIndex.decompose in *. cbn [conjuncts set_indexes].
    rewrite index_conjunct_spec, Hc. destruct (decide (x = def_symbol d)) as [->|]; [|naive_solver].
    destruct (contains_char _ (def_symbol d)) eqn:Hch; naive_solver.
  - by apply index_conjunct_wf.
  - rewrite index_tag_on_spec, Hto. naive_solver.
  - split; cbn [taxonomy mandatory_defs set_indexes]; [by apply add_wf|].
    unfold TaxonomyTree.add. destruct (foldl _ _ _). apply memo_ok_empty.
Qed.

Lemma new_indexes_indexed ns :
  indexed [] (set_indexes TaxonomyTree.new ConjunctIndex.new ∅ ∅ ∅ ns).
Proof.
  assert (Hno : ∀ P : Def → Prop, (∃ d, d ∈ [] ∧ P d) ↔ False)
    by (intros P; split; [by intros (d & ?%elem_of_nil & _)|done]).
  split; cbn [taxonomy mandatory_defs conjuncts tag_on_index set_indexes]; intros *; rewrite ?Hno.
  - unfold edge. rewrite targets_empty. apply elem_of_nil.
  - unfold has_type. rewrite contains_true. cbn. rewrite lookup_empty. split; [by intros []|done].
  - apply elem_of_empty.
  - unfold conjunct_parts, ConjunctIndex.decompose. cbn. rewrite lookup_empty. naive_solver.
  - apply ConjunctIndex.new_conjuncts_wf.
  - rewrite targets_empty. apply elem_of_nil.
  - split; [apply new_wf|apply memo_ok_empty].
Qed.

(** Registering a definition indexes it, and stores it under its symbol. *)
Lemma set_defs_indexed ds ns m : indexed ds ns → indexed ds (set_defs m ns).
Proof. intros [? ? ? ? ? ? [? ?]]. by split. Qed.
Lemma fold_index_indexed ds ds' ns :
  indexed ds ns → indexed (ds ++ ds') (foldl index_def ns ds').
Proof.
  revert ds ns. induction ds' as [|d ds' IH]; intros ds ns Hi; cbn [foldl]; [by rewrite app_nil_r|].
  rewrite cons_middle, app_assoc. by apply IH, index_def_indexed.
Qed.
Lemma fold_register_indexed ds ds' ns :
  indexed ds ns → indexed (ds ++ ds') (foldl register_def_basic ns ds').
Proof.
  revert ds ns. induction ds' as [|d ds' IH]; intros ds ns Hi; cbn [foldl]; [by rewrite app_nil_r|].
  rewrite cons_middle, app_assoc. apply IH, set_defs_indexed. by apply index_def_indexed.
Qed.

(** The choice index touches no other. *)
Lemma choice_index_indexed ds ns symbol :
  indexed ds ns → indexed ds (register_def_choice_index ns symbol).
Proof.
  intros Hi. unfold register_def_choice_index. destruct (defs ns !! symbol); [|done].
  destruct Hi as [? ? ? ? ? ? [? ?]]. by split.
Qed.
Lemma fold_choice_indexed ds ns ss :
  indexed ds ns → indexed ds (foldl register_def_choice_index ns ss).
Proof. revert ns. induction ss as [|x ss IH]; intros ns Hi; cbn [foldl]; auto using choice_index_indexed. Qed.

Lemma fold_choice_defs ns ss : defs (foldl register_def_choice_index ns ss) = defs ns.
Proof.
  revert ns. induction ss as [|x ss IH]; intros ns; cbn [foldl]; [done|]. rewrite IH.
  unfold register_def_choice_index. by destruct (defs ns !! x).
Qed.
Lemma fold_index_defs ns ds : defs (foldl index_def ns ds) = defs ns.
Proof. revert ns. induction ds as [|d ds IH]; intros ns; cbn [foldl]; [done|]. by rewrite IH. Qed.
Lemma fold_index_choice ns ds : choice_index (foldl index_def ns ds) = choice_index ns.
Proof. revert ns. induction ds as [|d ds IH]; intros ns; cbn [foldl]; [done|]. by rewrite IH. Qed.

(** An option of a choice: a definition one of whose supertypes is defined as
    a choice. *)
Definition option_of (ns : t) (p s : string) : Prop :=
  ∃ d pd, defs ns !! s = Some d ∧ p ∈ def_is d ∧ defs ns !! p = Some pd ∧ def_kind pd = DChoice.

Lemma choice_fold_spec (dm : gmap string Def) symbol is_ (ci : gmap string (list string)) p s :
  s ∈ targets (foldl (λ ci parent,
     match dm !! parent with
     | Some pd => if decide (def_kind pd = DChoice) then push_entry parent symbol ci else ci
     | None => ci
     end) ci is_) p ↔
  s ∈ targets ci p ∨
  (s = symbol ∧ p ∈ is_ ∧ ∃ pd, dm !! p = Some pd ∧ def_kind pd = DChoice).
Proof.
  revert ci. induction is_ as [|u is_ IH]; intros ci; cbn [foldl].
  { rewrite elem_of_nil. naive_solver. }
  rewrite IH, elem_of_cons. destruct (dm !! u) as [pd|] eqn:Hu; [case_decide|].
  - rewrite targets_push_entry. naive_solver.
  - naive_solver.
  - naive_solver congruence.
Qed.

Lemma fold_choice_spec ns ss p s :
  s ∈ targets (choice_index (foldl register_def_choice_index ns ss)) p ↔
  s ∈ targets (choice_index ns) p ∨ (s ∈ ss ∧ option_of ns p s).
Proof.
  revert ns. induction ss as [|x ss IH]; intros ns; cbn [foldl].
  { rewrite elem_of_nil. naive_solver. }
  rewrite IH, elem_of_cons. unfold register_def_choice_index, option_of.
  destruct (defs ns !! x) as [d|] eqn:Hx; [|naive_solver congruence].
  cbn [choice_index set_indexes defs]. rewrite choice_fold_spec. naive_solver.
Qed.

(** *** Exact namespaces *)

(** The indexes hold the entries of the definitions and nothing else; the
    choice index may be behind. *)
Record tight (ns : t) : Prop := {
  ex_keyed s d : defs ns !! s = Some d → def_symbol d = s;
  ex_indexed : indexed (hash_values (defs ns)) ns
}.
Record exact (ns : t) : Prop := {
  ex_tight : tight ns;
  ex_choices p s : s ∈ targets (choice_index ns) p ↔ option_of ns p s
}.

(** Rebuilding makes the indexes those of the definitions. *)
Lemma rebuild_exact ns :
  (∀ s d, defs ns !! s = Some d → def_symbol d = s) → exact (rebuild_derived_indexes ns).
Proof.
  intros Hk. unfold rebuild_derived_indexes.
  set (ns0 := set_indexes TaxonomyTree.new ConjunctIndex.new ∅ ∅ ∅ ns).
  assert (Hd : defs (foldl register_def_choice_index (foldl index_def ns0 (hash_values (defs ns)))
    (def_symbol <$> hash_values (defs ns))) = defs ns) by by rewrite fold_choice_defs, fold_index_defs.
  split; [split|].
  - rewrite Hd. exact Hk.
  - rewrite Hd. apply fold_choice_indexed, (fold_index_indexed []), new_indexes_indexed.
  - intros p s. rewrite fold_choice_spec, fold_index_choice. unfold option_of.
    rewrite Hd, fold_index_defs. cbn [choice_index ns0 set_indexes defs].
    rewrite targets_empty, elem_of_nil, list_elem_of_fmap.
    setoid_rewrite elem_of_hash_values. split; [naive_solver|].
    intros (d & pd & Hs & ?). right. split; [|eauto]. exists d. split; [by rewrite (Hk s)|eauto].
Qed.

(** Which definitions the indexes hold matters, not their order. *)
Lemma indexed_ext ds ds' ns : (∀ d, d ∈ ds ↔ d ∈ ds') → indexed ds ns → indexed ds' ns.
Proof.
  intros Heq [? ? ? ? ? ? ?]. split; intros *; try setoid_rewrite <-Heq; auto.
Qed.

Lemma fold_register_lookup ns ds s :
  NoDup (def_symbol <$> ds) →
  ∀ d, defs (foldl register_def_basic ns ds) !! s = Some d ↔
    (d ∈ ds ∧ def_symbol d = s) ∨ (s ∉ def_symbol <$> ds ∧ defs ns !! s = Some d).
Proof.
  revert ns. induction ds as [|x ds IH]; intros ns Hnd d; cbn [foldl].
  { cbn. setoid_rewrite elem_of_nil. naive_solver. }
  rewrite fmap_cons in *. apply NoDup_cons in Hnd as [Hx Hnd]. rewrite IH by done.
  cbn [register_def_basic defs set_defs index_def set_indexes].
  rewrite lookup_insert_Some, elem_of_cons, not_elem_of_cons.
  destruct (decide (s = def_symbol x)) as [->|Hne]; [|naive_solver].
  split; [|naive_solver]. intros [[? ?]|[? [[_ ->]|[? _]]]]; [left; auto|left; auto|done].
Qed.

(** Libraries of new symbols keep the indexes tight. *)
Lemma register_lib_tight ns lib :
  tight ns → (∀ s d, lib_defs lib !! s = Some d → def_symbol d = s ∧ defs ns !! s = None) →
  tight (register_lib ns lib).
Proof.
  intros [Hk Hi] Hnew. unfold register_lib. set (ls := hash_values (lib_defs lib)).
  set (ns0 := set_libs _ _ ns).
  assert (Hls : ∀ d, d ∈ ls → lib_defs lib !! def_symbol d = Some d ∧ defs ns !! def_symbol d = None).
  { intros d (s & Hs)%elem_of_hash_values. by destruct (Hnew s d Hs) as [-> ?]. }
  assert (Hnd : NoDup (def_symbol <$> ls)).
  { apply NoDup_fmap_2_strong; [|apply NoDup_hash_values].
    - intros x y [Hx _]%Hls [Hy _]%Hls Heq. congruence.
    - intros s1 s2 d H1' H2'. destruct (Hnew _ _ H1') as [<- _], (Hnew _ _ H2') as [<- _]. done. }
  assert (Hdefs : ∀ s d, defs (foldl register_def_choice_index (foldl register_def_basic ns0 ls)
    (def_symbol <$> ls)) !! s = Some d ↔
    (d ∈ ls ∧ def_symbol d = s) ∨ (s ∉ def_symbol <$> ls ∧ defs ns !! s = Some d)).
  { intros s d. rewrite fold_choice_defs. by apply (fold_register_lookup ns0). }
  split.
  - intros s d [[_ ?]|[_ ?]]%Hdefs; auto.
  - apply (indexed_ext (hash_values (defs ns) ++ ls)).
    + intros d. rewrite elem_of_app, !elem_of_hash_values. setoid_rewrite Hdefs. split.
      * intros [(s & Hs)|Hd]; [|eauto]. exists s. right. split; [|done].
        intros (x & -> & Hx)%list_elem_of_fmap. destruct (Hls x Hx). congruence.
      * intros (s & [[? ?]|[_ ?]]); eauto.
    + apply fold_choice_indexed, fold_register_indexed. destruct Hi as [? ? ? ? ? ? [? ?]]. by split.
Qed.

(** Unloading a library removes its definitions and specs and leaves the
    indexes of the rest. *)
Lemma unload_lib_spec ns name ns' :
  (∀ s d, defs ns !! s = Some d → def_symbol d = s) →
  unload_lib ns name = (ns', Ok ()) →
  exact ns' ∧
  defs ns' = filter (λ kv, def_lib kv.2 ≠ name) (defs ns) ∧
  libs ns' = delete name (libs ns).
Proof.
  intros Hk. unfold unload_lib. destruct (dependent ns name); [done|].
  assert (Hgo : ∀ n, (∀ s d, defs n !! s = Some d → def_symbol d = s) →
    exact (rebuild_derived_indexes n) ∧ defs (rebuild_derived_indexes n) = defs n ∧
    libs (rebuild_derived_indexes n) = libs n).
  { intros n Hn. split; [by apply rebuild_exact|]. unfold rebuild_derived_indexes.
    rewrite fold_choice_defs, fold_index_defs. split; [done|].
    assert (Hl1 : ∀ l m, libs (foldl register_def_choice_index m l) = libs m).
    { induction l as [|x l IH]; intros m; cbn [foldl]; [done|]. rewrite IH.
      unfold register_def_choice_index. by destruct (defs m !! x). }
    assert (Hl2 : ∀ l m, libs (foldl index_def m l) = libs m).
    { induction l as [|x l IH]; intros m; cbn [foldl]; [done|]. by rewrite IH. }
    by rewrite Hl1, Hl2. }
  set (n := set_libs _ _ _). assert (Hnk : ∀ s d, defs n !! s = Some d → def_symbol d = s).
  { cbn. intros s d [Hs _]%map_lookup_filter_Some. by apply Hk. }
  specialize (Hgo n Hnk). destruct (lib_sources ns !! name) as [[]|]; intros [= <-]; exact Hgo.
Qed.
End facts.
End NamespaceFacts.
