(* ===== verification/FittingFacts.v ===== *)
(** * Fitting: memos, markers and traversals

    Fitting through the memos of the namespace returns what the plain
    functions below do; the marker and traversal loops compute what their
    documentation says, with the fuel they are given. *)

From Stdlib Require Import Ascii.
From S2P Require Import Prelude Floats Kinds Text Taxonomy Xeto Filter Namespace Fitting NamespaceFacts.

Module FittingFacts.
Import Namespace Fitting NamespaceFacts.

Section answers.
Context `{HashOrderLaws, Casing, StrictCatalog, RegexCrate, FloatText}.
Implicit Types ns : t.

(** ** Fitting as functions of the namespace *)

Definition strict_for (ns : t) (term : string) : option SCatalog :=
  selected ns ≫= λ c, (λ _, c) <$> declaration c term.

Definition term_fits (entity : HDict) (term : string) (ns : t) : bool :=
  match strict_for ns term with
  | Some c => strict_fits c term entity None
  | None =>
      match Namespace.resolve_spec_term ns term with
      | Some (TDef name) => member MAX_CONJUNCT_DEPTH entity name ns
      | Some (TSpec spec) => is_nil (explain_plain entity spec (specs ns))
      | None => false
      end
  end.

Definition of_fits (candidate : HDict) (of_type lib : string) (sps : gmap string Spec) (ns : t) : bool :=
  match (if contains_str "::" of_type then None else sps !! (lib +:+ "::" +:+ of_type)) with
  | Some local => is_nil (explain_plain candidate local sps)
  | None => term_fits candidate of_type ns
  end.

Definition counted (s : Slot) (spec : Spec) (sps : gmap string Spec) (found : list HDict) (ns : t)
    : list HDict :=
  match str_meta s "of" with
  | Some of_type => List.filter (λ c, of_fits c of_type (spec_lib spec) sps ns) found
  | None => found
  end.

Definition query_issues (entity : HDict) (spec : Spec) (sps : gmap string Spec)
    (ctx : QueryContext) (s : Slot) (ns : t) : list FitIssue :=
  if negb (slot_is_query s) then []
  else match reach entity s sps ctx with
  | NoQuery => []
  | Unanswerable i => [i]
  | Found found =>
      if is_nil (counted s spec sps found ns) && negb (is_maybe s)
      then [violation s "query" (unreached_detail s)] else []
  end.

Definition spec_issues (entity : HDict) (spec : Spec) (sps : gmap string Spec)
    (ctx : option QueryContext) (ns : t) : list FitIssue :=
  explain_plain entity spec sps ++
  match ctx with
  | Some ctx => concat ((λ s, query_issues entity spec sps ctx s ns) <$> spec_slots spec)
  | None => []
  end.

Definition term_fits_with (entity : HDict) (term : string) (ctx : option QueryContext) (ns : t)
    : bool :=
  match strict_for ns term with
  | Some c => strict_fits c term entity (ctx_forward <$> ctx)
  | None =>
      match Namespace.resolve_spec_term ns term with
      | Some (TDef name) => member MAX_CONJUNCT_DEPTH entity name ns
      | Some (TSpec spec) => is_nil (spec_issues entity spec (specs ns) ctx ns)
      | None => false
      end
  end.

Lemma answers_strict {A} term (yes : SCatalog → M A) (no : M A) (p : SCatalog → t → A) q :
  (∀ c, answers (yes c) (p c)) → answers no q →
  answers (cat ← reads selected;
           match cat ≫= λ c, (λ _, c) <$> declaration c term with Some c => yes c | None => no end)
    (λ ns, match strict_for ns term with Some c => p c ns | None => q ns end).
Proof.
  intros Hy Hn. apply (answers_bind _ _ _ (λ cat ns,
    match cat ≫= λ c, (λ _, c) <$> declaration c term with Some c => p c ns | None => q ns end));
    [by apply answers_reads, stable_const|].
  intros cat. by destruct (cat ≫= _).
Qed.

Lemma answers_resolved {A} term (k : option SpecTerm → M A) (p : option SpecTerm → t → A) :
  (∀ r, answers (k r) (p r)) →
  answers (r ← reads (λ ns, Namespace.resolve_spec_term ns term); k r)
    (λ ns, p (Namespace.resolve_spec_term ns term) ns).
Proof. intros Hk. apply answers_bind; [apply answers_reads, stable_resolve|done]. Qed.

Lemma fits_spec_term_answers entity term :
  answers (fits_spec_term entity term) (term_fits entity term).
Proof.
  apply (answers_strict _ _ _ (λ c _, strict_fits c term entity None));
    [intros; apply answers_ret|].
  apply (answers_resolved _ _ (λ r ns,
    match r with
    | Some (TDef name) => member MAX_CONJUNCT_DEPTH entity name ns
    | Some (TSpec spec) => is_nil (explain_plain entity spec (specs ns))
    | None => false
    end)).
  intros [[spec|name]|]; [|apply entity_is_a_answers|apply answers_ret].
  by apply answers_reads, stable_const.
Qed.

Lemma fits_of_answers candidate of_type lib sps :
  answers (fits_of candidate of_type lib sps) (of_fits candidate of_type lib sps).
Proof.
  unfold fits_of, of_fits.
  destruct (if contains_str "::" of_type then None else sps !! (lib +:+ "::" +:+ of_type));
    [apply answers_ret|apply fits_spec_term_answers].
Qed.

Lemma check_query_slot_answers entity spec sps ctx s :
  answers (check_query_slot entity spec sps ctx s) (query_issues entity spec sps ctx s).
Proof.
  unfold check_query_slot, query_issues. destruct (negb (slot_is_query s)); [apply answers_ret|].
  destruct (reach entity s sps ctx) as [found|i|]; [|apply answers_ret..].
  apply (answers_bind _ _ (counted s spec sps found) (λ (matching : list HDict) _,
    if is_nil matching && negb (is_maybe s)
    then [violation s "query" (unreached_detail s)] else [])); [|intros; apply answers_ret].
  unfold counted. destruct (str_meta s "of") as [of_type|]; [|apply answers_ret].
  apply (answers_filter_m _ (λ c, of_fits c of_type (spec_lib spec) sps)).
  intros; apply fits_of_answers.
Qed.

Lemma explain_answers entity spec sps ctx :
  answers (explain_against_spec_with_specs entity spec sps ctx) (spec_issues entity spec sps ctx).
Proof.
  apply (answers_bind _ _ (λ ns, match ctx with
    | Some ctx => concat ((λ s, query_issues entity spec sps ctx s ns) <$> spec_slots spec)
    | None => []
    end) (λ queries _, explain_plain entity spec sps ++ queries)); [|intros; apply answers_ret].
  destruct ctx as [ctx|]; [|apply answers_ret].
  apply (answers_collect_m _ (λ s, query_issues entity spec sps ctx s)).
  intros; apply check_query_slot_answers.
Qed.

(** Filter evaluation of a spec term does not depend on the memos. *)
Lemma fits_spec_term_with_answers entity term ctx :
  answers (Fitting.fits_spec_term_with entity term ctx) (term_fits_with entity term ctx).
Proof.
  apply (answers_strict _ _ _ (λ c _, strict_fits c term entity (ctx_forward <$> ctx)));
    [intros; apply answers_ret|].
  apply (answers_resolved _ _ (λ r ns,
    match r with
    | Some (TDef name) => member MAX_CONJUNCT_DEPTH entity name ns
    | Some (TSpec spec) => is_nil (spec_issues entity spec (specs ns) ctx ns)
    | None => false
    end)).
  intros [[spec|name]|]; [|apply entity_is_a_answers|apply answers_ret].
  apply (answers_bind _ _ specs (λ (sps : gmap string Spec) ns, is_nil (spec_issues entity spec sps ctx ns)));
    [by apply answers_reads, stable_const|].
  intros sps. apply (answers_bind _ _ _ (λ (issues : list FitIssue) _, is_nil issues));
    [apply explain_answers|intros; apply answers_ret].
Qed.

(** [fits_spec_term] is [fits_spec_term_with] without a context. *)
Lemma term_fits_without_context entity term ns :
  term_fits_with entity term None ns = term_fits entity term ns.
Proof.
  unfold term_fits_with, term_fits. destruct (strict_for ns term); [done|].
  destruct (Namespace.resolve_spec_term ns term) as [[]|]; [|done..].
  unfold spec_issues. by rewrite app_nil_r.
Qed.
End answers.

(** ** Inherited markers *)

(** The base of a spec, when the map has it. *)
Definition base_step (sps : gmap string Spec) (a b : Spec) : Prop :=
  ∃ name, spec_base a = Some name ∧ sps !! name = Some b.

Section markers.
Context (sps : gmap string Spec).

Definition keys_left (visited : gset string) : gmap string Spec :=
  filter (λ kv, kv.1 ∉ visited) sps.

Lemma keys_left_shrinks visited k s :
  sps !! k = Some s → k ∉ visited →
  size (keys_left ({[k]} ∪ visited)) < size (keys_left visited).
Proof.
  intros Hk Hv. apply map_subset_size. split.
  - apply map_subseteq_spec. intros i x [Hi Hx]%map_lookup_filter_Some.
    apply map_lookup_filter_Some. set_solver.
  - intros Hsub. assert (Hin : keys_left visited !! k = Some s) by (by apply map_lookup_filter_Some).
    apply (map_subseteq_spec _ _) with (1:=Hsub) in Hin.
    apply map_lookup_filter_Some in Hin as [_ Hin]. set_solver.
Qed.

(** The loop has collected the markers of the visited names, and a visited
    name's base is visited or is the one the loop stands at. *)
Definition collected (visited acc : gset string) (base : option string) : Prop :=
  ∀ v s, v ∈ visited → sps !! v = Some s →
    (∀ m, m ∈ Spec.mandatory_markers s → m ∈ acc) ∧
    (∀ b, spec_base s = Some b → b ∈ visited ∨ base = Some b).

Lemma collected_closed visited acc name s a m :
  collected visited acc (Some name) → name ∈ visited → sps !! name = Some s →
  rtc (base_step sps) s a → m ∈ Spec.mandatory_markers a → m ∈ acc.
Proof.
  intros Hc Hn Hs Hr Hm. assert (Hv : ∃ v, v ∈ visited ∧ sps !! v = Some s) by eauto. clear Hs.
  induction Hr as [s|s b a (k & Hb & Hk) _ IH].
  - destruct Hv as (v & Hv & Hs). destruct (Hc v s Hv Hs). auto.
  - apply IH; [done|]. destruct Hv as (v & Hv & Hs). destruct (Hc v s Hv Hs) as [_ Hbase].
    exists k. split; [|done]. destruct (Hbase k Hb) as [|[= ->]]; done.
Qed.

Lemma inherited_markers_spec fuel base visited acc m :
  size (keys_left visited) < fuel → collected visited acc base →
  m ∈ inherited_markers fuel sps base visited acc ↔
  m ∈ acc ∨ ∃ b s a, base = Some b ∧ sps !! b = Some s ∧ rtc (base_step sps) s a ∧
    m ∈ Spec.mandatory_markers a.
Proof.
  revert base visited acc. induction fuel as [|fuel IH]; intros base visited acc Hfuel Hc; [lia|].
  simpl. destruct base as [name|]; [|naive_solver]. case_decide as Hv.
  { split; [by left|]. intros [?|(b & s & a & [= <-] & Hs & Hr & Hm)]; [done|].
    by eapply collected_closed. }
  destruct (sps !! name) as [s|] eqn:Hs; [|naive_solver].
  rewrite IH.
  - rewrite elem_of_union, elem_of_list_to_set. split.
    + intros [[?|?]|(b & s' & a & Hb & Hs' & Hr & Hm)]; [right|by left|right].
      * exists name, s, s. split_and!; [done|done|apply rtc_refl|done].
      * exists name, s, a. split_and!; [done|done| |done].
        eapply rtc_l; [|done]. by exists b.
    + intros [?|(b & s' & a & [= <-] & Hs' & Hr & Hm)]; [auto|].
      simplify_eq. apply rtc_inv in Hr as [->|(s' & (b & Hb & Hs2) & Hr)]; [auto|].
      right. eauto 10.
  - pose proof (keys_left_shrinks visited name s Hs Hv). lia.
  - intros v s' [->%elem_of_singleton|Hvv]%elem_of_union Hs'; simplify_eq.
    + split; [intros x Hx; set_solver|]. intros b Hb. auto.
    + destruct (Hc v s' Hvv Hs') as [H1 H2]. split; [intros x Hx; set_solver|].
      intros b Hb. destruct (H2 b Hb) as [|[= ->]]; [left; set_solver|left; set_solver].
Qed.

(** The markers required are those of the spec and of all its bases. *)
Lemma elem_of_all_mandatory spec m :
  m ∈ all_mandatory spec sps ↔
  ∃ a, rtc (base_step sps) spec a ∧ m ∈ Spec.mandatory_markers a.
Proof.
  unfold all_mandatory. rewrite inherited_markers_spec.
  - rewrite elem_of_list_to_set. split.
    + intros [?|(b & s & a & Hb & Hs & Hr & Hm)].
      * exists spec. split; [apply rtc_refl|done].
      * exists a. split; [|done]. eapply rtc_l; [|done]. by exists b.
    + intros (a & Hr & Hm). apply rtc_inv in Hr as [->|(s & (b & Hb & Hs) & Hr)]; [by left|].
      right. eauto 10.
  - apply Nat.lt_succ_r, map_size_filter.
  - intros v s Hv. set_solver.
Qed.
End markers.

(** ** Traversals *)

(** One entity points at another through a tag. *)
Definition points (store : gmap string HDict) (tag : string) (e e' : HDict) : Prop :=
  ∃ r, e !! tag = Some (KRef r) ∧ store !! ref_val r = Some e'.

Section traverse.
Context (store : gmap string HDict).

Definition entries_left (visited : gset string) : gmap string HDict :=
  filter (λ kv, kv.1 ∉ visited) store.

Lemma entries_left_visit visited k e :
  store !! k = Some e → k ∉ visited →
  size (entries_left visited) = S (size (entries_left ({[k]} ∪ visited))).
Proof.
  intros Hk Hv.
  assert (Heq : entries_left visited = <[k := e]> (entries_left ({[k]} ∪ visited))).
  { apply map_eq. intros i. apply option_eq. intros x. unfold entries_left.
    rewrite lookup_insert_Some, !map_lookup_filter_Some. simpl. split.
    - intros [Hi Hx]. destruct (decide (k = i)) as [->|Hne]; [left; split; congruence|right].
      set_solver.
    - intros [[<- <-]|[Hne [Hi Hx]]]; set_solver. }
  rewrite Heq. apply map_size_insert_None. apply map_lookup_filter_None. right. set_solver.
Qed.

Context (resolve : HRef → option HDict) (tag : string).
Context (Hresolve : ∀ r, resolve r = store !! ref_val r).

Lemma traverse_loop_once fuel queue visited :
  match queue with [] => True | [r] => ref_val r ∉ visited ∧ 0 < fuel | _ => False end →
  traverse_loop fuel resolve tag false queue visited =
  match queue with [r] => option_list (store !! ref_val r) | _ => [] end.
Proof.
  destruct queue as [|r [|]]; try done; [by destruct fuel|]. intros [Hv Hf].
  destruct fuel as [|fuel]; [lia|]. simpl. rewrite decide_False by done. rewrite Hresolve.
  destruct (store !! ref_val r) as [e|]; simpl; [|by destruct fuel].
  assert (Hq : match HDict.get e tag with Some (KRef _) => [] | _ => [] end = @nil HRef)
    by (by destruct (HDict.get e tag) as [[]|]).
  rewrite Hq. by destruct fuel.
Qed.

(** The entities already visited. *)
Definition seen (visited : gset string) (x : HDict) : Prop :=
  ∃ v, v ∈ visited ∧ store !! v = Some x.

(** What visited entities point at is visited or queued. *)
Definition chained (queue : list HRef) (visited : gset string) : Prop :=
  ∀ v e r, v ∈ visited → store !! v = Some e → e !! tag = Some (KRef r) →
    ref_val r ∈ visited ∨ ref_val r ∈ ref_val <$> queue.

Lemma chained_empty queue : chained queue ∅.
Proof. by intros v e r ?%elem_of_empty. Qed.

Lemma chained_reach queue visited e x :
  chained queue visited → seen visited e → rtc (points store tag) e x →
  seen visited x ∨ ∃ r h, r ∈ queue ∧ store !! ref_val r = Some h ∧ rtc (points store tag) h x.
Proof.
  intros Hc Hse Hr. revert Hse. induction Hr as [e|e z x (r & Hr1 & Hr2) Hr IH]; [by left|].
  intros (v & Hv & He). destruct (Hc v e r Hv He Hr1) as [Hz|Hz].
  - apply IH. by exists (ref_val r).
  - right. apply list_elem_of_fmap in Hz as (q & Hq & Hin). exists q, z.
    split_and!; [done|by rewrite <-Hq|done].
Qed.

(** What the queue still leads to. *)
Abbreviation ahead queue x :=
  (∃ r h, r ∈ queue ∧ store !! ref_val r = Some h ∧ rtc (points store tag) h x).

Definition next_queue (e : HDict) (queue : list HRef) : list HRef :=
  match HDict.get e tag with Some (KRef next) => next :: queue | _ => queue end.

Lemma elem_of_next_queue e queue q :
  q ∈ next_queue e queue ↔ e !! tag = Some (KRef q) ∨ q ∈ queue.
Proof. unfold next_queue, HDict.get. destruct (e !! tag) as [[]|]; set_solver. Qed.

Lemma ahead_visit r e queue x :
  store !! ref_val r = Some e → ahead (r :: queue) x ↔ x = e ∨ ahead (next_queue e queue) x.
Proof.
  intros He. setoid_rewrite elem_of_cons. setoid_rewrite elem_of_next_queue. split.
  - intros (q & h & [->|Hq] & Hh & Hr); [|eauto 10]. simplify_eq.
    apply rtc_inv in Hr as [->|(z & (r' & Hr1 & Hr2) & Hr)]; [by left|eauto 10].
  - intros [->|(q & h & [Hq|Hq] & Hh & Hr)]; [|  |eauto 10].
    + exists r, e. split_and!; [by left|done|apply rtc_refl].
    + exists r, e. split_and!; [by left|done|]. eapply rtc_l; [by exists q|done].
Qed.

Lemma chained_visit r queue queue' visited :
  (∀ q, q ∈ queue → q ∈ queue') →
  (∀ e q, store !! ref_val r = Some e → e !! tag = Some (KRef q) → q ∈ queue') →
  chained (r :: queue) visited → chained queue' ({[ref_val r]} ∪ visited).
Proof.
  intros Hq Hn Hc v e r' [->%elem_of_singleton|Hv]%elem_of_union He Hr'.
  - right. apply list_elem_of_fmap. eauto.
  - destruct (Hc v e r' Hv He Hr') as [|Hin]; [set_solver|].
    rewrite fmap_cons in Hin. apply elem_of_cons in Hin as [->|Hin]; [set_solver|].
    right. apply list_elem_of_fmap in Hin as (q & -> & Hin). apply list_elem_of_fmap. eauto.
Qed.

Lemma seen_visit r visited x :
  seen ({[ref_val r]} ∪ visited) x ↔ store !! ref_val r = Some x ∨ seen visited x.
Proof. unfold seen. setoid_rewrite elem_of_union. setoid_rewrite elem_of_singleton. naive_solver. Qed.

(** The transitive traversal reaches what it has not seen yet. *)
Lemma traverse_loop_spec fuel queue visited x :
  length queue + size (entries_left visited) ≤ fuel → chained queue visited →
  x ∈ traverse_loop fuel resolve tag true queue visited ∨ seen visited x ↔
  seen visited x ∨ ahead queue x.
Proof.
  revert queue visited. induction fuel as [|fuel IH]; intros [|r queue] visited Hfuel Hc; simpl in *.
  1,3: set_solver. { lia. }
  case_decide as Hv.
  { assert (Hc' : chained queue visited).
    { intros v e r' Hvv He Hr'. destruct (Hc v e r' Hvv He Hr') as [|Hin]; [by left|].
      rewrite fmap_cons in Hin. apply elem_of_cons in Hin as [->|]; auto. }
    rewrite IH by (done || lia). setoid_rewrite elem_of_cons. split; [naive_solver|].
    intros [?|(q & h & [->|Hq] & Hh & Hr)]; [by left| |naive_solver].
    eapply chained_reach; [done| |done]. by exists (ref_val r). }
  rewrite Hresolve. destruct (store !! ref_val r) as [e|] eqn:He.
  - pose proof (entries_left_visit visited (ref_val r) e He Hv) as Hsz.
    fold (next_queue e queue).
    assert (Hlen : length (next_queue e queue) ≤ S (length queue))
      by (unfold next_queue; destruct (HDict.get e tag) as [[]|]; simpl; lia).
    specialize (IH (next_queue e queue) ({[ref_val r]} ∪ visited) ltac:(lia)).
    rewrite seen_visit, He in IH. rewrite elem_of_cons, (ahead_visit r e) by done.
    destruct IH as [IH1 IH2].
    { eapply chained_visit; [| |done]; intros *; rewrite elem_of_next_queue; naive_solver. }
    split; [|naive_solver].
    intros [[->|Hx]|Hx]; [by right; left| |by left]. naive_solver.
  - specialize (IH queue ({[ref_val r]} ∪ visited)).
    assert (Hsz : size (entries_left ({[ref_val r]} ∪ visited)) ≤ size (entries_left visited)).
    { apply map_subseteq_size, map_subseteq_spec. intros i y [Hi Hy]%map_lookup_filter_Some.
      apply map_lookup_filter_Some. set_solver. }
    rewrite seen_visit, He in IH. setoid_rewrite elem_of_cons. destruct IH as [IH1 IH2]; [lia| |].
    { eapply chained_visit; [| |done]; [done|]. intros. congruence. }
    split; [naive_solver|]. intros [?|(q & h & [->|Hq] & Hh & Hr)]; [by right|congruence|naive_solver].
Qed.

Lemma elem_of_traverse_refs fuel entity transitive x :
  size store < fuel →
  x ∈ traverse_refs fuel entity tag transitive resolve ↔
  if transitive then tc (points store tag) entity x else points store tag entity x.
Proof.
  intros Hfuel. unfold traverse_refs, HDict.get.
  assert (Hleft : size (entries_left ∅) ≤ size store) by apply map_size_filter.
  destruct transitive.
  - set (queue := match entity !! tag with Some (KRef r) => [r] | _ => [] end).
    assert (Hq : ∀ q, q ∈ queue ↔ entity !! tag = Some (KRef q)).
    { intros q. subst queue. destruct (entity !! tag) as [k|]; [destruct k|];
        rewrite ?list_elem_of_singleton, ?elem_of_nil; naive_solver. }
    assert (Hlen : length queue ≤ 1) by (subst queue; destruct (entity !! tag) as [[]|]; simpl; lia).
    pose proof (traverse_loop_spec fuel queue ∅ x) as Hspec.
    assert (Hno : ¬ seen ∅ x) by (intros (v & ?%elem_of_empty & _); done).
    setoid_rewrite Hq in Hspec. split.
    + intros Hx. apply or_introl with (B:=seen ∅ x) in Hx. apply Hspec in Hx; [|lia|apply chained_empty].
      destruct Hx as [?|(r & h & Hr1 & Hr2 & Hr)]; [done|].
      eapply tc_rtc_r; [|done]. apply tc_once. by exists r.
    + intros Htc. destruct Hspec as [_ Hspec]; [lia|apply chained_empty|].
      destruct Hspec as [?|?]; [|done|done]. right.
      inversion Htc as [? ? (r & Hr1 & Hr2)|? y ? (r & Hr1 & Hr2) Htc']; subst.
      * exists r, x. split_and!; [done|done|apply rtc_refl].
      * exists r, y. split_and!; [done|done|by apply tc_rtc].
  - assert (Hone : traverse_loop fuel resolve tag false
      (match entity !! tag with Some (KRef r) => [r] | _ => [] end) ∅ =
      match entity !! tag with Some (KRef r) => option_list (store !! ref_val r) | _ => [] end).
    { rewrite traverse_loop_once; destruct (entity !! tag) as [[]|]; try done.
      split; [apply not_elem_of_empty|lia]. }
    rewrite Hone. unfold points. destruct (entity !! tag) as [k|]; [destruct k|];
      try (split; [by intros ?%elem_of_nil|by intros (? & ? & ?)]).
    split.
    + intros Hx. exists v. split; [done|]. destruct (store !! ref_val v); [|by apply elem_of_nil in Hx].
      by apply list_elem_of_singleton in Hx as ->.
    + intros (r & [= ->] & Hr). rewrite Hr. left.
Qed.
End traverse.

(** The id an entity points at through a tag.  Its own [id] is no pointer: the
    reverse edges of a graph leave it out. *)
Definition target_of (tag : string) (e : HDict) : option string :=
  if decide (tag = "id") then None
  else match e !! tag with Some (KRef r) => Some (ref_val r) | _ => None end.

(** The entities that point at an id, and at an entity. *)
Definition source (store : gmap string HDict) (tag k : string) (x : HDict) : Prop :=
  (∃ j, store !! j = Some x) ∧ target_of tag x = Some k.
Definition pointed_by (store : gmap string HDict) (tag : string) (e x : HDict) : Prop :=
  ∃ i, e !! "id" = Some (KRef i) ∧ source store tag (ref_val i) x.

#[global] Instance pointing_dec tag (kv : string * HDict) (visited : gset string) :
  Decision (∃ v, target_of tag kv.2 = Some v ∧ v ∈ visited).
Proof.
  destruct (target_of tag kv.2) as [v|] eqn:Ht; [destruct (decide (v ∈ visited))|].
  - left. by exists v.
  - right. intros (w & [= ->] & Hw). done.
  - right. by intros (w & ? & _).
Defined.

Section traverse_inverse.
Context (store : gmap string HDict) (reverse : HRef → string → list HDict) (tag : string).
Context (Hreverse : ∀ i, reverse i tag ≡ₚ
  (map_to_list (filter (λ kv, target_of tag kv.2 = Some (ref_val i)) store)).*2).
Abbreviation R := (pointed_by store tag).
Abbreviation src := (source store tag).

Lemma elem_of_reverse i x : x ∈ reverse i tag ↔ src (ref_val i) x.
Proof.
  rewrite Hreverse, list_elem_of_fmap. split.
  - intros ([j y] & -> & Hin). apply elem_of_map_to_list, map_lookup_filter_Some in Hin as [??].
    split; [by exists j|done].
  - intros [[j Hj] Ht]. exists (j, x). split; [done|].
    by apply elem_of_map_to_list, map_lookup_filter_Some.
Qed.

(** The entities that point at no visited id. *)
Definition sources_left (visited : gset string) : gmap string HDict :=
  filter (λ kv, ¬ (∃ v, target_of tag kv.2 = Some v ∧ v ∈ visited)) store.
Lemma sources_left_visit visited i :
  ref_val i ∉ visited →
  size (sources_left visited) =
  length (reverse i tag) + size (sources_left ({[ref_val i]} ∪ visited)).
Proof.
  intros Hv. set (m1 := filter (λ kv, target_of tag kv.2 = Some (ref_val i)) store).
  assert (Hdis : m1 ##ₘ sources_left ({[ref_val i]} ∪ visited)).
  { apply map_disjoint_spec. intros k a b [Ha1 Ha]%map_lookup_filter_Some
      [Hb1 Hb]%map_lookup_filter_Some. simpl in *. simplify_eq. apply Hb. exists (ref_val i). set_solver. }
  rewrite (Permutation_length (Hreverse i)), length_fmap, length_map_to_list,
    <-map_size_disj_union by done.
  f_equal. apply map_eq. intros j. apply option_eq. intros x.
  rewrite lookup_union_Some by done. unfold sources_left. subst m1.
  rewrite !map_lookup_filter_Some. simpl. split.
  - intros [Hj Hno]. destruct (decide (target_of tag x = Some (ref_val i))) as [|Hne]; [by left|right].
    split; [done|]. intros (v & Hv1 & [->%elem_of_singleton|Hv2]%elem_of_union); [done|]. eauto.
  - intros [[Hj Ht]|[Hj Hno]]; (split; [done|]); intros (v & Hv1 & Hv2).
    + congruence.
    + apply Hno. exists v. set_solver.
Qed.

Lemma length_push_sources visited queue sources :
  length (push_sources visited queue sources) ≤ length queue + length sources.
Proof.
  unfold push_sources. revert queue. induction sources as [|x l IH]; intros queue; simpl; [lia|].
  etrans; [apply IH|]. destruct (HDict.get x "id") as [k|]; [destruct k|]; try lia.
  case_decide; simpl; lia.
Qed.

Lemma elem_of_push_sources visited queue sources q :
  q ∈ push_sources visited queue sources ↔
  q ∈ queue ∨ ∃ x, x ∈ sources ∧ x !! "id" = Some (KRef q) ∧ ref_val q ∉ visited.
Proof.
  unfold push_sources, HDict.get. revert queue. induction sources as [|x l IH]; intros queue; cbn [foldl].
  { split; [by left|]. intros [?|(x & ?%elem_of_nil & _)]; done. }
  rewrite IH. clear IH. setoid_rewrite elem_of_cons.
  destruct (x !! "id") as [k|] eqn:Hx; [destruct k|]; try naive_solver.
  case_decide; rewrite ?elem_of_cons; naive_solver.
Qed.

(** What visited ids have given, and what the queue still leads to. *)
Definition given (visited : gset string) (x : HDict) : Prop := ∃ v, v ∈ visited ∧ src v x.
Abbreviation upcoming queue x :=
  (∃ q y, q ∈ queue ∧ src (ref_val q) y ∧ rtc R y x).
Definition spread (queue : list HRef) (visited : gset string) : Prop :=
  ∀ y i, given visited y → y !! "id" = Some (KRef i) →
    ref_val i ∈ visited ∨ ref_val i ∈ ref_val <$> queue.

Lemma spread_reach queue visited y x :
  spread queue visited → given visited y → rtc R y x → given visited x ∨ upcoming queue x.
Proof.
  intros Hs Hg Hr. revert Hg. induction Hr as [y|y z x (i & Hi & Hz) Hr IH]; [by left|].
  intros Hg. destruct (Hs y i Hg Hi) as [Hv|Hq].
  - apply IH. by exists (ref_val i).
  - right. apply list_elem_of_fmap in Hq as (q & Hq & Hin). exists q, z.
    split_and!; [done|by rewrite <-Hq|done].
Qed.

Lemma spread_visit q queue visited :
  spread (q :: queue) visited →
  spread (push_sources ({[ref_val q]} ∪ visited) queue (reverse q tag)) ({[ref_val q]} ∪ visited).
Proof.
  intros Hs y i (v & [->%elem_of_singleton|Hv]%elem_of_union & Hy) Hi.
  - destruct (decide (ref_val i ∈ {[ref_val q]} ∪ visited)) as [|Hn]; [by left|right].
    apply list_elem_of_fmap. exists i. split; [done|]. apply elem_of_push_sources. right.
    exists y. split; [by apply elem_of_reverse|done].
  - destruct (Hs y i) as [?|Hin]; [by exists v|done|left; set_solver|].
    rewrite fmap_cons in Hin. apply elem_of_cons in Hin as [->|Hin]; [left; set_solver|right].
    apply list_elem_of_fmap in Hin as (r & -> & Hr). apply list_elem_of_fmap. exists r.
    split; [done|]. apply elem_of_push_sources. by left.
Qed.

Lemma upcoming_visit visited q queue x :
  spread (q :: queue) visited →
  upcoming (q :: queue) x ∨ given visited x ↔
  src (ref_val q) x ∨ given visited x ∨
  upcoming (push_sources ({[ref_val q]} ∪ visited) queue (reverse q tag)) x.
Proof.
  intros Hs. setoid_rewrite elem_of_cons. setoid_rewrite elem_of_push_sources. split.
  - intros [(r & y & [->|Hr] & Hy & Hyx)|?]; [|eauto 10|auto].
    assert (Hs' : spread (push_sources ({[ref_val q]} ∪ visited) queue (reverse q tag))
      ({[ref_val q]} ∪ visited)) by by apply spread_visit.
    destruct (spread_reach _ _ y x Hs') as [Hg|Hu]; [|done| |].
    + exists (ref_val q). set_solver.
    + destruct Hg as (v & [->%elem_of_singleton|Hv]%elem_of_union & Hsv); [by left|].
      right. left. by exists v.
    + right. right. setoid_rewrite elem_of_push_sources in Hu. done.
  - intros [Hx|[?|(r & y & [Hr|(z & Hz & Hid & Hnv)] & Hy & Hyx)]]; [|auto|eauto 10|].
    + left. exists q, x. split_and!; [by left|done|apply rtc_refl].
    + left. exists q, z. apply elem_of_reverse in Hz. split_and!; [by left|done|].
      eapply rtc_l; [|done]. by exists r.
Qed.

Lemma given_visit q visited x :
  given ({[ref_val q]} ∪ visited) x ↔ src (ref_val q) x ∨ given visited x.
Proof. unfold given. setoid_rewrite elem_of_union. setoid_rewrite elem_of_singleton. naive_solver. Qed.

(** The transitive traversal gives what points, in any number of steps, at
    the ids it starts from. *)
Lemma inverse_loop_spec fuel queue visited x :
  length queue + size (sources_left visited) ≤ fuel → spread queue visited →
  x ∈ inverse_loop fuel reverse tag true queue visited ∨ given visited x ↔
  upcoming queue x ∨ given visited x.
Proof.
  revert queue visited. induction fuel as [|fuel IH]; intros [|q queue] visited Hfuel Hs; simpl in *.
  1,3: setoid_rewrite elem_of_nil; naive_solver. { lia. }
  case_decide as Hv.
  - assert (Hs' : spread queue visited).
    { intros y i Hy Hi. destruct (Hs y i Hy Hi) as [|Hin]; [by left|].
      rewrite fmap_cons in Hin. apply elem_of_cons in Hin as [->|]; auto. }
    rewrite IH by (done || lia). setoid_rewrite elem_of_cons. split; [naive_solver|].
    intros [(r & y & [->|Hr] & Hy & Hyx)|?]; [|eauto 10|auto].
    destruct (spread_reach _ _ y x Hs'); [by exists (ref_val q)|done|auto|auto].
  - rewrite elem_of_app, elem_of_reverse, (upcoming_visit visited) by done.
    pose proof (sources_left_visit visited q Hv) as Hsz.
    pose proof (length_push_sources ({[ref_val q]} ∪ visited) queue (reverse q tag)) as Hlen.
    specialize (IH (push_sources ({[ref_val q]} ∪ visited) queue (reverse q tag))
      ({[ref_val q]} ∪ visited) ltac:(lia) (spread_visit _ _ _ Hs)).
    rewrite given_visit in IH. destruct IH as [IH1 IH2]. split.
    + intros [[?|?]|?]; [auto| |auto]. destruct IH1 as [?|[?|?]]; auto.
    + intros [?|[?|?]]; [auto|auto|]. destruct IH2 as [?|[?|?]]; auto.
Qed.

Lemma elem_of_traverse_refs_inverse fuel entity transitive x :
  size store < fuel →
  x ∈ traverse_refs_inverse fuel entity tag transitive reverse ↔
  if transitive then tc R entity x else R entity x.
Proof.
  intros Hfuel. unfold traverse_refs_inverse, HDict.get.
  assert (Hid : (∃ i, entity !! "id" = Some (KRef i)) ∨
    (∀ i, entity !! "id" ≠ Some (KRef i)) ∧
    match entity !! "id" with
    | Some (KRef start) => inverse_loop fuel reverse tag transitive [start] ∅
    | _ => []
    end = []).
  { destruct (entity !! "id") as [k|]; [destruct k|]; auto; left; eauto. }
  destruct Hid as [[i Hi]|[Hno ->]].
  2: { rewrite elem_of_nil. destruct transitive; (split; [done|]).
       - intros Htc. inversion Htc as [? ? (i & Hi & _)|? ? ? (i & Hi & _) _]; by destruct (Hno i).
       - intros (i & Hi & _). by destruct (Hno i). }
  rewrite Hi. destruct transitive.
  - pose proof (inverse_loop_spec fuel [i] ∅ x) as Hspec.
    assert (Hg : ¬ given ∅ x) by (intros (v & ?%elem_of_empty & _); done).
    assert (Hleft : size (sources_left ∅) ≤ size store) by apply map_size_filter.
    destruct Hspec as [H1 H2]; [simpl; lia|by intros y j (v & ?%elem_of_empty & _)|]. split.
    + intros Hx. destruct H1 as [(q & y & ->%list_elem_of_singleton & Hy & Hr)|?]; [auto| |done].
      eapply tc_rtc_r; [|done]. apply tc_once. by exists i.
    + intros Htc. destruct H2 as [?|?]; [|done|done]. left.
      inversion Htc as [? ? (j & Hj & Hsj)|? y ? (j & Hj & Hsj) Htc']; simplify_eq.
      * exists i, x. split_and!; [left|by simplify_eq|apply rtc_refl].
      * exists i, y. split_and!; [left|by simplify_eq|by apply tc_rtc].
  - destruct fuel as [|fuel]; [lia|]. simpl. rewrite decide_False by apply not_elem_of_empty.
    rewrite app_nil_r, elem_of_reverse. split; [by exists i|]. intros (j & Hj & Hsj). by simplify_eq.
Qed.

End traverse_inverse.

(** What a query context answers about a finite store. *)
Record context_of (store : gmap string HDict) (reverse : HRef → string → list HDict)
    (ctx : QueryContext) : Prop := {
  ctx_forward_spec r : ctx_forward ctx r = store !! ref_val r;
  ctx_inverse_spec : ctx_inverse ctx = Some reverse;
  ctx_reverse_spec tag i : reverse i tag ≡ₚ
    (map_to_list (filter (λ kv, target_of tag kv.2 = Some (ref_val i)) store)).*2;
  ctx_fuel_enough : size store < ctx_fuel ctx
}.
End FittingFacts.
