(* ===== verification/SpecSemantics.v ===== *)
(** * What it means to fit a spec

    A declarative reading of structural fitting: an entity satisfies a spec
    when it carries the markers of the spec and of all its bases, when its
    tags have the types and meet the constraints of the slots, and when each
    query slot leads somewhere.  The checks of [Fitting] report an issue
    exactly when one of these fails. *)

From Stdlib Require Import Ascii.
From S2P Require Import Prelude Floats Kinds Text Taxonomy Xeto Filter Namespace Fitting NamespaceFacts FittingFacts.

Module SpecSemantics.
Import Namespace Fitting NamespaceFacts FittingFacts.

(** A list of reports is empty when each is. *)
Lemma nil_option {A B} (o : option A) (f : A → bool) (i : A → B) :
  match o with Some a => if f a then [i a] else [] | None => [] end = [] ↔
  ∀ a, o = Some a → f a = false.
Proof.
  destruct o as [a|]; [|naive_solver]. destruct (f a) eqn:Hf; split; [done| |naive_solver|done].
  intros Ha. specialize (Ha a eq_refl). congruence.
Qed.
Lemma nil_if {A} (b : bool) (i : A) : (if b then [i] else []) = [] ↔ b = false.
Proof. by destruct b. Qed.
Lemma nil_concat {A B} (f : A → list B) l : concat (f <$> l) = [] ↔ ∀ a, a ∈ l → f a = [].
Proof.
  rewrite <-is_nil_true, is_nil_concat, forallb_forall. setoid_rewrite is_nil_true.
  by setoid_rewrite <-list_elem_of_In.
Qed.

(** ** The conditions on one slot *)

Definition typed (e : HDict) (s : Slot) : Prop :=
  slot_is_marker s = false → slot_is_query s = false → is_maybe s = false →
  ∀ ty v, slot_type_ref s = Some ty → e !! slot_name s = Some v → ty ∈ checked_types →
    kind_type_name v = ty.

Record number_within (s : Slot) (num : Number) : Prop := {
  nw_min x : num_meta s "minVal" = Some x → F64.float_lt (num_val num) x = false;
  nw_max x : num_meta s "maxVal" = Some x → F64.float_gt (num_val num) x = false;
  nw_unitless : has_meta s "unitless" = true → num_unit num = None;
  nw_unit u : str_meta s "unit" = Some u → num_unit num = Some u
}.
Record size_within (s : Slot) (n : N) : Prop := {
  sw_min x : num_meta s "minSize" = Some x → F64.float_lt (F64.of_usize n) x = false;
  sw_max x : num_meta s "maxSize" = Some x → F64.float_gt (F64.of_usize n) x = false
}.

Section semantics.
Context `{HashOrderLaws, Casing, StrictCatalog, RegexCrate, FloatText}.

Record text_within (s : Slot) (text : string) : Prop := {
  tw_size : size_within s (str_len text);
  tw_nonempty : has_meta s "nonEmpty" = true → all_whitespace text = false;
  tw_pattern p : str_meta s "pattern" = Some p →
    ∃ re, regex_new p = Ok re ∧ regex_is_match re text = true
}.

Definition within (e : HDict) (s : Slot) : Prop :=
  slot_is_marker s = false → slot_is_query s = false →
  match e !! slot_name s with
  | Some (KNumber num) => number_within s num
  | Some (KStr text) => text_within s text
  | Some (KList items) => size_within s (Prelude.len items)
  | _ => True
  end.

Lemma typed_spec e s : check_slot_type e s = [] ↔ typed e s.
Proof.
  unfold check_slot_type, typed, type_ok, HDict.get.
  destruct (slot_is_marker s), (slot_is_query s), (is_maybe s); simpl; try naive_solver.
  destruct (slot_type_ref s) as [ty|], (e !! slot_name s) as [v|]; try naive_solver.
  case_decide; [case_bool_decide|]; split; naive_solver.
Qed.

Lemma number_within_spec s num : number_issues s num = [] ↔ number_within s num.
Proof.
  unfold number_issues. rewrite !app_nil, !nil_option. split.
  - intros (H1' & H2' & H3' & H4'). split; [done|done| |].
    + intros Hm. destruct (num_unit num) as [u|]; [|done]. rewrite (H3' u eq_refl) in Hm. done.
    + intros u Hu. rewrite Hu in H4'. destruct (num_unit num); [|done]. by case_decide; subst.
  - intros [H1' H2' H3' H4']. split_and!; [done|done| |].
    { intros u Hu. destruct (has_meta s "unitless"); [|done]. by rewrite H3' in Hu. }
    destruct (str_meta s "unit") as [u|]; [|done]. rewrite (H4' u eq_refl). by rewrite decide_True.
Qed.

Lemma size_within_spec s what n : size_issues s what n = [] ↔ size_within s n.
Proof.
  unfold size_issues. rewrite app_nil, !nil_option. split; [by intros [??]|by intros [??]].
Qed.

Lemma text_within_spec s text : string_issues s text = [] ↔ text_within s text.
Proof.
  unfold string_issues, pattern_issues. rewrite !app_nil, size_within_spec, nil_if.
  assert (Hp : match str_meta s "pattern" with
    | Some pattern =>
        match regex_new pattern with
        | Ok re => if regex_is_match re text then []
                   else [violation s "pattern" (quoted text +:+ " does not match pattern " +:+
                                                quoted pattern)]
        | Err e => [violation s "pattern" ("invalid regex pattern " +:+ quoted pattern +:+ ": " +:+
                                           regex_error_text e)]
        end
    | None => []
    end = [] ↔ ∀ p, str_meta s "pattern" = Some p →
      ∃ re, regex_new p = Ok re ∧ regex_is_match re text = true).
  { destruct (str_meta s "pattern") as [p|]; [|naive_solver].
    destruct (regex_new p) as [re|err] eqn:Hre; [destruct (regex_is_match re text) eqn:Hm|];
      split; naive_solver congruence. }
  rewrite Hp. clear Hp. split.
  - intros (H1' & H2' & H3'). split; [done| |done]. intros Hn. by rewrite Hn in H2'.
  - intros [H1' H2' H3']. split_and!; [done| |done]. destruct (has_meta s "nonEmpty"); auto.
Qed.

Lemma within_spec e s : check_slot_value e s = [] ↔ within e s.
Proof.
  unfold check_slot_value, within, HDict.get.
  destruct (slot_is_marker s), (slot_is_query s); simpl; try naive_solver.
  assert (Htt : ∀ P : Prop, (false = false → false = false → P) ↔ P) by naive_solver.
  rewrite Htt. destruct (e !! slot_name s) as [k|]; [|done].
  destruct k; try done; [apply number_within_spec|apply text_within_spec|apply size_within_spec].
Qed.

(** ** Satisfying a spec *)

Record satisfies_plain (e : HDict) (spec : Spec) (sps : gmap string Spec) : Prop := {
  sp_markers a m : rtc (base_step sps) spec a → m ∈ Spec.mandatory_markers a → is_Some (e !! m);
  sp_typed s : s ∈ spec_slots spec → typed e s;
  sp_within s : s ∈ spec_slots spec → within e s
}.

Lemma explain_plain_spec e spec sps : explain_plain e spec sps = [] ↔ satisfies_plain e spec sps.
Proof.
  unfold explain_plain, check_slot_types, check_value_constraints.
  rewrite !app_nil, !nil_concat. setoid_rewrite typed_spec. setoid_rewrite within_spec.
  assert (Hm : check_mandatory_markers e spec sps = [] ↔
    ∀ a m, rtc (base_step sps) spec a → m ∈ Spec.mandatory_markers a → is_Some (e !! m)).
  { unfold check_mandatory_markers.
    rewrite <-is_nil_true, is_nil_fmap, is_nil_filter, forallb_forall.
    setoid_rewrite <-list_elem_of_In. unfold HDict.missing, HDict.has.
    setoid_rewrite negb_involutive. setoid_rewrite bool_decide_eq_true.
    setoid_rewrite elem_of_hash_elems. setoid_rewrite elem_of_all_mandatory. naive_solver. }
  rewrite Hm. split; [by intros (?&?&?)|by intros [? ? ?]].
Qed.

(** A candidate a query slot counts: any, or one that fits the type the slot
    names, looked up first in the library of the spec. *)
Definition term_satisfied (e : HDict) (term : string) (ns : t) : Prop :=
  match strict_for ns term with
  | Some c => strict_fits c term e None = true
  | None =>
      match Namespace.resolve_spec_term ns term with
      | Some (TDef name) => member MAX_CONJUNCT_DEPTH e name ns = true
      | Some (TSpec spec) => satisfies_plain e spec (specs ns)
      | None => False
      end
  end.
Definition of_satisfied (c : HDict) (s : Slot) (lib : string) (sps : gmap string Spec) (ns : t) : Prop :=
  ∀ of_type, str_meta s "of" = Some of_type →
    match (if contains_str "::" of_type then None else sps !! (lib +:+ "::" +:+ of_type)) with
    | Some local => satisfies_plain c local sps
    | None => term_satisfied c of_type ns
    end.

(** The entities a path leads to. *)
Definition leads {A} (R : A → A → Prop) (transitive : bool) (x y : A) : Prop :=
  if transitive then tc R x y else R x y.

Definition query_met (store : gmap string HDict) (e : HDict) (s : Slot) (spec : Spec)
    (sps : gmap string Spec) (ns : t) : Prop :=
  match str_meta s "via", str_meta s "inverse" with
  | Some via, _ =>
      is_maybe s = true ∨ ∃ x, leads (points store (split_via via).1) (split_via via).2 e x ∧
        of_satisfied x s (spec_lib spec) sps ns
  | None, Some inverse =>
      ∃ tag transitive, resolve_inverse_via inverse sps = Some (tag, transitive) ∧
        (is_maybe s = true ∨ ∃ x, leads (pointed_by store tag) transitive e x ∧
           of_satisfied x s (spec_lib spec) sps ns)
  | None, None => True
  end.

Record satisfies (store : gmap string HDict) (e : HDict) (spec : Spec) (sps : gmap string Spec)
    (ns : t) : Prop := {
  sat_plain : satisfies_plain e spec sps;
  sat_queries s : s ∈ spec_slots spec → slot_is_query s = true → query_met store e s spec sps ns
}.

Lemma term_satisfied_spec e term ns : term_fits e term ns = true ↔ term_satisfied e term ns.
Proof.
  unfold term_fits, term_satisfied. destruct (strict_for ns term); [done|].
  destruct (Namespace.resolve_spec_term ns term) as [[spec|name]|]; [|done|done].
  by rewrite is_nil_true, explain_plain_spec.
Qed.

Lemma counted_spec s spec sps found ns x :
  x ∈ counted s spec sps found ns ↔ x ∈ found ∧ of_satisfied x s (spec_lib spec) sps ns.
Proof.
  unfold counted, of_satisfied, of_fits. destruct (str_meta s "of") as [of_type|]; [|naive_solver].
  rewrite list_elem_of_In, List.filter_In, <-list_elem_of_In.
  assert (Hr : ∀ P : string → Prop, (∀ o, Some of_type = Some o → P o) ↔ P of_type) by naive_solver.
  rewrite Hr. clear Hr.
  destruct (if contains_str "::" of_type then None else _) as [local|].
  - by rewrite is_nil_true, explain_plain_spec.
  - by rewrite term_satisfied_spec.
Qed.

Section store.
Context (store : gmap string HDict) (reverse : HRef → string → list HDict) (ctx : QueryContext).
Context (Hctx : context_of store reverse ctx).

(** A query slot is met when its traversal finds something that counts. *)
Lemma found_spec s spec sps ns found (R : HDict → Prop) detail :
  (∀ x, x ∈ found ↔ R x) →
  (if is_nil (counted s spec sps found ns) && negb (is_maybe s)
   then [violation s "query" detail] else []) = [] ↔
  is_maybe s = true ∨ ∃ x, R x ∧ of_satisfied x s (spec_lib spec) sps ns.
Proof.
  intros HR. rewrite nil_if. setoid_rewrite <-HR. setoid_rewrite <-counted_spec.
  destruct (is_maybe s); [rewrite andb_false_r; naive_solver|]. rewrite andb_true_r.
  destruct (counted s spec sps found ns) as [|x l]; simpl; split; try done.
  - intros [?|(x & ?%elem_of_nil)]; done.
  - intros _. right. exists x. left.
Qed.

Lemma query_issues_spec e spec sps s ns :
  query_issues e spec sps ctx s ns = [] ↔ (slot_is_query s = true → query_met store e s spec sps ns).
Proof.
  unfold query_issues, reach, query_met. destruct (slot_is_query s); simpl; [|naive_solver].
  assert (Htt : ∀ P : Prop, (true = true → P) ↔ P) by naive_solver. rewrite Htt. clear Htt.
  destruct (str_meta s "via") as [via|].
  - destruct (split_via via) as [tag tr]. apply found_spec. intros x.
    eapply elem_of_traverse_refs; apply Hctx.
  - destruct (str_meta s "inverse") as [inverse|]; [|done].
    destruct (resolve_inverse_via inverse sps) as [[tag tr]|]; [|naive_solver].
    rewrite (ctx_inverse_spec _ _ _ Hctx).
    rewrite (found_spec _ _ _ _ _ (leads (pointed_by store tag) tr e)); [naive_solver|].
    intros x. eapply elem_of_traverse_refs_inverse; apply Hctx.
Qed.

(** Fitting reports nothing exactly for the entities that satisfy the
    spec. *)
Lemma spec_issues_spec e spec sps ns :
  spec_issues e spec sps (Some ctx) ns = [] ↔ satisfies store e spec sps ns.
Proof.
  unfold spec_issues. rewrite app_nil, explain_plain_spec, nil_concat.
  setoid_rewrite query_issues_spec. split; [by intros []|by intros []].
Qed.

Lemma fits_term_spec e term spec ns :
  good ns → strict_for ns term = None →
  Namespace.resolve_spec_term ns term = Some (TSpec spec) →
  (Fitting.fits_spec_term_with e term (Some ctx) ns).1 = true ↔
  satisfies store e spec (specs ns) ns.
Proof.
  intros Hg Hs Hr. rewrite (answers_run _ _ ns (fits_spec_term_with_answers e term (Some ctx)) Hg).
  unfold term_fits_with. by rewrite Hs, Hr, is_nil_true, spec_issues_spec.
Qed.
End store.
End semantics.
End SpecSemantics.
