(* ===== verification/NamespaceInv.v ===== *)
(** * The namespace as a state machine

    The operations that change a namespace as a step relation, the invariant
    they keep, and what it gives: deriving from a catalog, unloading and
    membership in terms of what was registered. *)

From Stdlib Require Import Ascii.
From S2P Require Import Prelude Floats Kinds Text Taxonomy Xeto Filter Namespace Fitting NamespaceFacts FittingFacts.

Module NamespaceInv.
Import Namespace TaxonomyFacts NamespaceFacts.

Section invariant.
Context `{HashOrderLaws, Casing, StrictCatalogLaws, RegexCrate, FloatText}.
Implicit Types ns : t.

(** ** The invariant *)

(** The indexes cover the definitions, each under its symbol. *)
Record defs_ok (ns : t) : Prop := {
  do_keyed s d : defs ns !! s = Some d → def_symbol d = s;
  do_indexed : ∃ ds, indexed ds ns ∧ ∀ s d, defs ns !! s = Some d → d ∈ ds
}.

(** Each spec is under its qualified name and listed for its library; only a
    derived namespace shadows specs. *)
Record specs_ok (ns : t) : Prop := {
  so_keyed q s : specs ns !! q = Some s → spec_qname s = q;
  so_listed q s : specs ns !! q = Some s → q ∈ targets (spec_libs ns) (spec_lib s);
  so_shadowed q s : shadowed ns !! q = Some (Some s) → spec_qname s = q;
  so_unselected : selected ns = None → shadowed ns = ∅
}.

Record ok (ns : t) : Prop := { ok_defs : defs_ok ns; ok_specs : specs_ok ns }.

Lemma ok_good ns : ok ns → good ns.
Proof. intros [[_ (ds & Hi & _)] _]. apply Hi. Qed.

(** Two namespaces that differ in the registry of specs, and in memos. *)
Definition same_defs (a b : t) : Prop :=
  defs a = defs b ∧ libs a = libs b ∧ taxonomy a = taxonomy b ∧ conjuncts a = conjuncts b ∧
  mandatory_defs a = mandatory_defs b ∧ tag_on_index a = tag_on_index b ∧
  choice_index a = choice_index b ∧ lib_sources a = lib_sources b.
Definition same_registry (a b : t) : Prop :=
  specs a = specs b ∧ spec_libs a = spec_libs b ∧ selected a = selected b ∧ shadowed a = shadowed b.
#[global] Instance same_defs_equiv : Equivalence same_defs.
Proof.
  unfold same_defs. split; red; intros; destruct_and?; split_and!; congruence.
Qed.
#[global] Instance same_registry_equiv : Equivalence same_registry.
Proof.
  unfold same_registry. split; red; intros; destruct_and?; split_and!; congruence.
Qed.

Lemma indexed_same ds a b : same_defs a b → indexed ds a → indexed ds b.
Proof.
  intros (Hd & _ & Ht & Hc & Hm & Hto & _ & _) [? ? ? ? ? ? []]. unfold has_type, conjunct_parts in *.
  split; unfold has_type, conjunct_parts; rewrite <-?Ht, <-?Hm, <-?Hc, <-?Hto; try done.
  split; rewrite <-?Ht, <-?Hm; done.
Qed.
Lemma defs_ok_same a b : same_defs a b → defs_ok a → defs_ok b.
Proof.
  intros Hs [Hk (ds & Hi & Hin)]. pose proof Hs as (Hd & _). split; [rewrite <-Hd; exact Hk|].
  exists ds. split; [by eapply indexed_same|rewrite <-Hd; exact Hin].
Qed.
Lemma tight_same a b : same_defs a b → tight a → tight b.
Proof.
  intros Hs [Hk Hi]. pose proof Hs as (Hd & _).
  split; rewrite <-Hd; [exact Hk|by eapply indexed_same].
Qed.
Lemma register_specs_same sps ns : same_defs ns (foldl register_spec ns sps).
Proof.
  revert ns. induction sps as [|s sps IH]; intros ns; cbn [foldl]; [done|]. by etrans; [|apply IH].
Qed.
Lemma specs_ok_same a b : same_registry a b → specs_ok a → specs_ok b.
Proof.
  intros (Hs & Hl & Hc & Hh) [H1' H2' H3' H4'].
  split; rewrite <-?Hs, <-?Hl, <-?Hc, <-?Hh; done.
Qed.

(** Memos. *)
Lemma indexed_memo ds ns tx :
  same_tree tx (taxonomy ns) → good (set_taxonomy tx ns) → indexed ds ns →
  indexed ds (set_taxonomy tx ns).
Proof.
  intros [Hp Hc] Hg [He Ht Hm Hcj Hn Hto _].
  split; cbn [taxonomy mandatory_defs tag_on_index set_taxonomy]; try done.
  - intros x y. unfold edge. rewrite Hp. apply He.
  - intros x. rewrite <-Ht. unfold has_type, TaxonomyTree.contains. cbn [taxonomy set_taxonomy].
    by rewrite Hp.
Qed.
Lemma ok_memo ns tx :
  same_tree tx (taxonomy ns) → good (set_taxonomy tx ns) → ok ns → ok (set_taxonomy tx ns).
Proof.
  intros Hs Hg [[Hk (ds & Hi & Hin)] Hsp]. split.
  - split; [exact Hk|]. exists ds. split; [by apply indexed_memo|exact Hin].
  - by apply (specs_ok_same ns).
Qed.
Lemma answers_ok {A} (m : M A) p ns : answers m p → ok ns → ok (m ns).2.
Proof.
  intros [_ Hm] Hok. destruct (Hm ns (ok_good _ Hok)) as (tx & -> & Hs & Hg). by apply ok_memo.
Qed.

(** A copy has empty memos, and answers like the original. *)
Lemma clone_good ns : ok ns → good (clone ns).
Proof.
  intros Hok. apply good_set_taxonomy; [by apply ok_good|done|apply memo_ok_empty].
Qed.
Lemma answers_clone {A} (m : M A) p ns : answers m p → ok ns → (m ns).1 = (m (clone ns)).1.
Proof.
  intros Hm Hok. rewrite !(answers_run m p) by auto using ok_good, clone_good.
  destruct Hm as [Hp _]. symmetry. by apply Hp.
Qed.

(** ** Libraries *)

Lemma registry_choice ns ss : same_registry ns (foldl register_def_choice_index ns ss).
Proof.
  revert ns. induction ss as [|x ss IH]; intros ns; cbn [foldl]; [done|].
  etrans; [|apply IH]. unfold register_def_choice_index. by destruct (defs ns !! x).
Qed.
Lemma registry_basic ns ds : same_registry ns (foldl register_def_basic ns ds).
Proof.
  revert ns. induction ds as [|d ds IH]; intros ns; cbn [foldl]; [done|].
  etrans; [|apply IH]. done.
Qed.
Lemma registry_index ns ds : same_registry ns (foldl index_def ns ds).
Proof.
  revert ns. induction ds as [|d ds IH]; intros ns; cbn [foldl]; [done|].
  etrans; [|apply IH]. done.
Qed.

(** The definitions a list of definitions leaves. *)
Lemma fold_register_defs ns ds s d :
  defs (foldl register_def_basic ns ds) !! s = Some d →
  (d ∈ ds ∧ def_symbol d = s) ∨ defs ns !! s = Some d.
Proof.
  revert ns. induction ds as [|x ds IH]; intros ns; cbn [foldl]; [by right|].
  intros [[Hin Hs]|Hr]%IH; [left; split; [by right|done]|].
  cbn [register_def_basic defs set_defs index_def set_indexes] in Hr.
  apply lookup_insert_Some in Hr as [[<- ->]|[_ ?]]; [left; split; [left|done]|by right].
Qed.

Lemma set_libs_indexed ds ns ls src : indexed ds ns → indexed ds (set_libs ls src ns).
Proof. intros [? ? ? ? ? ? [? ?]]. by split. Qed.

Lemma register_lib_ok ns lib : ok ns → ok (register_lib ns lib).
Proof.
  intros [[Hk (ds & Hi & Hin)] Hsp]. unfold register_lib.
  set (ns0 := set_libs _ _ ns). set (ls := hash_values (lib_defs lib)).
  assert (Hdefs : ∀ s d, defs (foldl register_def_choice_index (foldl register_def_basic ns0 ls)
    (def_symbol <$> ls)) !! s = Some d → (d ∈ ls ∧ def_symbol d = s) ∨ defs ns !! s = Some d).
  { intros s d. rewrite fold_choice_defs. apply (fold_register_defs ns0). }
  split; [split|].
  - intros s d [[_ Hs]|Hs]%Hdefs; [done|by apply Hk].
  - exists (ds ++ ls). split; [by apply fold_choice_indexed, fold_register_indexed, set_libs_indexed|].
    intros s d [[Hd _]|Hs]%Hdefs; apply elem_of_app; [by right|left; by eapply Hin].
  - apply (specs_ok_same (foldl register_def_basic ns0 ls)); [apply registry_choice|].
    apply (specs_ok_same ns0); [apply registry_basic|]. by apply (specs_ok_same ns).
Qed.

(** ** Specs *)

Lemma register_spec_ok ns s : ok ns → ok (register_spec ns s).
Proof.
  intros [Hd [H1' H2' H3' H4']]. split; [by apply (defs_ok_same ns)|].
  split; cbn [specs spec_libs shadowed selected register_spec set_specs]; try done.
  - intros q x [[<- <-]|[_ ?]]%lookup_insert_Some; auto.
  - intros q x [[<- <-]|[_ ?]]%lookup_insert_Some; rewrite targets_push_entry; auto.
Qed.

Lemma specs_unindex ns q : specs (unindex_spec ns q) = delete q (specs ns).
Proof.
  unfold unindex_spec. destruct (specs ns !! q) as [s|] eqn:Hq; [|by rewrite delete_id].
  by destruct (spec_libs ns !! spec_lib s).
Qed.
Lemma unindex_frame ns q :
  same_defs ns (unindex_spec ns q) ∧ selected (unindex_spec ns q) = selected ns ∧
  shadowed (unindex_spec ns q) = shadowed ns.
Proof.
  unfold unindex_spec. destruct (specs ns !! q) as [s|]; [|done].
  by destruct (spec_libs ns !! spec_lib s).
Qed.

Lemma unindex_listed ns q q' l :
  q' ≠ q → q' ∈ targets (spec_libs ns) l → q' ∈ targets (spec_libs (unindex_spec ns q)) l.
Proof.
  intros Hne Hin. unfold unindex_spec. destruct (specs ns !! q) as [s|]; [|done].
  destruct (spec_libs ns !! spec_lib s) as [names|] eqn:Hl; [|done].
  cbn [spec_libs set_specs]. unfold targets in *.
  destruct (decide (spec_lib s = l)) as [<-|Hsl].
  - rewrite Hl in Hin. simpl in Hin.
    assert (Hf : q' ∈ filter (λ n, n ≠ q) names) by by apply list_elem_of_filter.
    case_decide as Hnil; [rewrite Hnil in Hf; by apply elem_of_nil in Hf|]. by rewrite lookup_insert_eq.
  - case_decide; [by rewrite lookup_delete_ne|by rewrite lookup_insert_ne].
Qed.

Lemma unindex_ok ns q : ok ns → ok (unindex_spec ns q).
Proof.
  intros [Hd [H1' H2' H3' H4']]. destruct (unindex_frame ns q) as (Hf & Hsel & Hsh).
  split; [by apply (defs_ok_same ns)|].
  split; rewrite ?Hsel, ?Hsh, ?specs_unindex; try done.
  - intros q' x [_ ?]%lookup_delete_Some. auto.
  - intros q' x [? ?]%lookup_delete_Some. apply unindex_listed; auto.
Qed.

(** ** Deriving from a catalog *)

(** The spec a name has apart from the selected catalog. *)
Definition base_spec (ns : t) (q : string) : option Spec :=
  match shadowed ns !! q with Some original => original | None => specs ns !! q end.

Definition restore_one (ns : t) (kv : string * option Spec) : t :=
  let ns := unindex_spec ns kv.1 in
  match kv.2 with Some s => register_spec ns s | None => ns end.

Lemma restore_shadowed_eq ns :
  restore_shadowed ns = foldl restore_one (set_selected None ∅ ns) (hash_iter (shadowed ns)).
Proof. unfold restore_shadowed. generalize (set_selected None ∅ ns) as n.
  induction (hash_iter (shadowed ns)) as [|[q o] l IH]; intros n; [done|]. apply IH.
Qed.

Lemma restore_one_frame ns kv :
  same_defs ns (restore_one ns kv) ∧ selected (restore_one ns kv) = selected ns ∧
  shadowed (restore_one ns kv) = shadowed ns.
Proof.
  destruct (unindex_frame ns kv.1) as (Hf & Hsel & Hsh). unfold restore_one.
  by destruct kv as [q [s|]].
Qed.
Lemma restore_one_ok ns kv : ok ns → ok (restore_one ns kv).
Proof.
  intros Hok%(unindex_ok _ kv.1). unfold restore_one. destruct (kv.2); [by apply register_spec_ok|done].
Qed.
Lemma restore_one_specs ns q o :
  (∀ s, o = Some s → spec_qname s = q) →
  ∀ k, specs (restore_one ns (q, o)) !! k = if decide (k = q) then o else specs ns !! k.
Proof.
  intros Ho k. unfold restore_one. cbn [fst snd].
  destruct o as [s|]; cbn [specs register_spec set_specs]; rewrite specs_unindex.
  - rewrite (Ho s) by done. case_decide; subst; [by rewrite lookup_insert_eq|].
    by rewrite lookup_insert_ne, lookup_delete_ne.
  - case_decide; subst; [by rewrite lookup_delete_eq|by rewrite lookup_delete_ne].
Qed.

Lemma fold_restore_specs l ns :
  NoDup l.*1 → (∀ q s, (q, Some s) ∈ l → spec_qname s = q) →
  ∀ k, specs (foldl restore_one ns l) !! k =
       match list_to_map (M:=gmap string (option Spec)) l !! k with
       | Some o => o | None => specs ns !! k end.
Proof.
  revert ns. induction l as [|[q o] l IH]; intros ns Hnd Hk k; cbn [foldl]; [done|].
  apply NoDup_cons in Hnd as [Hq Hnd]. rewrite IH; [|done|intros q' s' Hin; apply Hk; by right].
  rewrite restore_one_specs by (intros s ->; apply Hk; left). cbn [list_to_map].
  change (list_to_map ((q, o) :: l)) with (<[q := o]> (list_to_map l : gmap string (option Spec))).
  case_decide as Hkq; subst.
  - rewrite lookup_insert_eq. rewrite (not_elem_of_list_to_map_1 (M:=gmap string) l q) by done. done.
  - by rewrite lookup_insert_ne.
Qed.

Lemma fold_restore_frame l ns :
  same_defs ns (foldl restore_one ns l) ∧ selected (foldl restore_one ns l) = selected ns ∧
  shadowed (foldl restore_one ns l) = shadowed ns.
Proof.
  revert ns. induction l as [|kv l IH]; intros ns; cbn [foldl]; [done|].
  destruct (IH (restore_one ns kv)) as (Hf & -> & ->), (restore_one_frame ns kv) as (Hg & -> & ->).
  split_and!; [by etrans|done|done].
Qed.
Lemma fold_restore_ok l ns : ok ns → ok (foldl restore_one ns l).
Proof. revert ns. induction l as [|kv l IH]; intros ns Hok; cbn [foldl]; auto using restore_one_ok. Qed.

Lemma unselect_ok ns : ok ns → ok (set_selected None ∅ ns).
Proof.
  intros [Hd [H1' H2' H3' H4']]. split; [by apply (defs_ok_same ns)|].
  split; cbn [specs spec_libs shadowed selected set_selected]; try done.
Qed.

(** Restoring gives every name the spec it has apart from the catalog. *)
Lemma restore_spec ns :
  ok ns →
  ok (restore_shadowed ns) ∧ same_defs ns (restore_shadowed ns) ∧
  selected (restore_shadowed ns) = None ∧ shadowed (restore_shadowed ns) = ∅ ∧
  ∀ k, specs (restore_shadowed ns) !! k = base_spec ns k.
Proof.
  intros Hok. rewrite restore_shadowed_eq. set (l := hash_iter (shadowed ns)).
  destruct (fold_restore_frame l (set_selected None ∅ ns)) as (Hf & Hsel & Hsh).
  split_and!; [by apply fold_restore_ok, unselect_ok|by etrans|done|done|].
  intros k. rewrite fold_restore_specs.
  - unfold base_spec. cbn [specs set_selected].
    assert (Hl : (list_to_map l : gmap string (option Spec)) = shadowed ns).
    { rewrite <-(list_to_map_to_list (shadowed ns)). subst l.
      apply list_to_map_proper; [apply NoDup_hash_keys|apply hash_iter_perm]. }
    by rewrite Hl.
  - apply NoDup_hash_keys.
  - intros q s Hin. apply (so_shadowed _ (ok_specs _ Hok)). subst l.
    rewrite hash_iter_perm in Hin. by apply elem_of_map_to_list.
Qed.

Lemma select_frame ns s :
  same_defs ns (select_declaration ns s) ∧ selected (select_declaration ns s) = selected ns ∧
  shadowed (select_declaration ns s) = <[spec_qname s := specs ns !! spec_qname s]> (shadowed ns) ∧
  specs (select_declaration ns s) = <[spec_qname s := s]> (specs ns).
Proof.
  destruct (unindex_frame ns (spec_qname s)) as (Hf & Hsel & Hsh). unfold select_declaration.
  cbn [selected shadowed specs register_spec set_specs set_selected].
  rewrite Hsh, specs_unindex. split_and!; [done|done|done|]. by rewrite insert_delete_eq.
Qed.

Lemma fold_select_spec l ns :
  NoDup (spec_qname <$> l) →
  same_defs ns (foldl select_declaration ns l) ∧
  ∀ k, shadowed (foldl select_declaration ns l) !! k =
         (if decide (k ∈ spec_qname <$> l) then Some (specs ns !! k) else shadowed ns !! k) ∧
       ∀ s, specs (foldl select_declaration ns l) !! k = Some s ↔
         (s ∈ l ∧ spec_qname s = k) ∨ (k ∉ spec_qname <$> l ∧ specs ns !! k = Some s).
Proof.
  revert ns. induction l as [|d l IH]; intros ns Hnd; cbn [foldl].
  { split; [done|]. intros k. split; [by rewrite decide_False by apply not_elem_of_nil|].
    intros s. cbn. setoid_rewrite elem_of_nil. naive_solver. }
  rewrite fmap_cons in *. apply NoDup_cons in Hnd as [Hd Hnd].
  destruct (select_frame ns d) as (Hf & _ & Hsh & Hsp). destruct (IH (select_declaration ns d) Hnd) as [Hf' Hk].
  split; [by etrans|]. intros k. destruct (Hk k) as [-> Hs]. rewrite Hsh, Hsp in *. split.
  - destruct (decide (k = spec_qname d)) as [->|Hne].
    + rewrite decide_False, lookup_insert_eq, decide_True by (done || left). done.
    + rewrite !lookup_insert_ne by done.
      destruct (decide (k ∈ spec_qname <$> l)); [by rewrite decide_True by (by right)|].
      rewrite decide_False; [done|]. by apply not_elem_of_cons.
  - intros s. rewrite Hs, lookup_insert_Some, not_elem_of_cons, elem_of_cons.
    destruct (decide (k = spec_qname d)) as [->|Hne]; [|naive_solver].
    split; [|naive_solver]. intros [[? ?]|[? [[_ ->]|[? _]]]]; [left; auto|left; auto|done].
Qed.

(** The catalog may be recorded before its declarations are. *)
Lemma select_selected ns c s :
  select_declaration (set_selected (Some c) (shadowed ns) ns) s =
  set_selected (Some c) (shadowed (select_declaration ns s)) (select_declaration ns s).
Proof.
  unfold select_declaration, unindex_spec. cbn [specs set_selected spec_libs].
  destruct (specs ns !! spec_qname s) as [x|]; [|done]. by destruct (spec_libs ns !! spec_lib x).
Qed.
Lemma fold_select_selected ns c l :
  foldl select_declaration (set_selected (Some c) (shadowed ns) ns) l =
  set_selected (Some c) (shadowed (foldl select_declaration ns l)) (foldl select_declaration ns l).
Proof.
  revert ns. induction l as [|s l IH]; intros ns; cbn [foldl]; [done|].
  by rewrite select_selected, IH.
Qed.

Lemma select_ok ns s : selected ns ≠ None → ok ns → ok (select_declaration ns s).
Proof.
  intros Hsel Hok. pose proof (unindex_ok _ (spec_qname s) Hok) as Hu.
  unfold select_declaration. apply register_spec_ok.
  destruct (unindex_frame ns (spec_qname s)) as (_ & Hus & Hush).
  destruct Hu as [Hd [H1' H2' H3' H4']]. split; [by eapply defs_ok_same, Hd|].
  split; cbn [specs spec_libs shadowed selected set_selected]; [done|done| |].
  - intros q x [[<- Hx]|[_ Hx]]%lookup_insert_Some; [|by apply H3'].
    by apply (so_keyed _ (ok_specs _ Hok)).
  - rewrite Hus. by intros ?.
Qed.
Lemma fold_select_ok l ns :
  selected ns ≠ None → ok ns → ok (foldl select_declaration ns l).
Proof.
  revert ns. induction l as [|s l IH]; intros ns Hsel Hok; cbn [foldl]; [done|].
  apply IH; [|by apply select_ok]. by destruct (select_frame ns s) as (_ & -> & _).
Qed.

Lemma base_spec_unshadowed ns : shadowed ns = ∅ → ∀ q, base_spec ns q = specs ns !! q.
Proof. intros Hs q. unfold base_spec. by rewrite Hs, lookup_empty. Qed.

(** What a derivation starts from: the namespace without its selection. *)
Lemma unselected_spec ns :
  ok ns →
  let ns0 := if selected ns then restore_shadowed ns else ns in
  ok ns0 ∧ same_defs ns ns0 ∧ shadowed ns0 = ∅ ∧ ∀ k, specs ns0 !! k = base_spec ns k.
Proof.
  intros Hok. cbv zeta. destruct (selected ns) eqn:Hsel.
  - destruct (restore_spec ns Hok) as (? & ? & _ & ? & ?). done.
  - assert (Hsh : shadowed ns = ∅) by by apply (so_unselected _ (ok_specs _ Hok)).
    split_and!; [done|done|done|]. intros k. by rewrite base_spec_unshadowed.
Qed.

Lemma with_catalog_spec ns c :
  ok ns →
  ok (with_catalog ns c) ∧ same_defs ns (with_catalog ns c) ∧ selected (with_catalog ns c) = Some c ∧
  ∀ q, specs (with_catalog ns c) !! q =
         match declaration c q with Some s => Some s | None => base_spec ns q end ∧
       base_spec (with_catalog ns c) q = base_spec ns q.
Proof.
  intros Hok. destruct (unselected_spec ns Hok) as (Hok0 & Hf0 & Hsh0 & Hsp0).
  unfold with_catalog. set (ns0 := if selected ns then restore_shadowed ns else ns) in *.
  destruct (fold_select_spec (declarations c) ns0) as [Hf Hk]; [apply declarations_nodup|].
  assert (Hdecl : ∀ q, match declaration c q with
    | Some s => s ∈ declarations c ∧ spec_qname s = q
    | None => q ∉ spec_qname <$> declarations c end).
  { intros q. destruct (declaration c q) as [s|] eqn:Hq; [by apply declaration_spec|].
    intros (s & -> & Hs)%list_elem_of_fmap.
    assert (declaration c (spec_qname s) = Some s) by by apply declaration_spec. congruence. }
  split_and!.
  - rewrite <-fold_select_selected. apply fold_select_ok; [done|].
    destruct Hok0 as [Hd [H1' H2' H3' H4']]. split; [by eapply defs_ok_same, Hd|].
    by split; cbn [specs spec_libs shadowed selected set_selected].
  - by etrans.
  - done.
  - intros q. cbn [specs set_selected]. unfold base_spec at 2. cbn [shadowed specs set_selected].
    specialize (Hdecl q). destruct (Hk q) as [-> Hs]. split.
    + destruct (declaration c q) as [s|]; [apply Hs; by left|]. rewrite <-Hsp0.
      apply option_eq. intros s. rewrite Hs. split; [|by right].
      intros [[Hin <-]|[_ ?]]; [|done]. destruct Hdecl. by apply list_elem_of_fmap_2.
    + rewrite Hsh0, lookup_empty, <-Hsp0. case_decide as Hq; [done|].
      apply option_eq. intros s. rewrite Hs. split; [|by right].
      intros [[Hin <-]|[_ ?]]; [|done]. destruct Hq. by apply list_elem_of_fmap_2.
Qed.

(** What a declaration displaces. *)
Lemma displaced_by ns c q s :
  ok ns → selected ns = None → declaration c q = Some s →
  shadowed (with_catalog ns c) !! q = Some (specs ns !! q).
Proof.
  intros Hok Hsel Hd. unfold with_catalog. rewrite Hsel. cbn [shadowed set_selected].
  destruct (fold_select_spec (declarations c) ns) as [_ Hk]; [apply declarations_nodup|].
  destruct (Hk q) as [-> _]. rewrite decide_True; [done|].
  apply declaration_spec in Hd as [Hin <-]. by apply list_elem_of_fmap_2.
Qed.

(** Deriving again from another catalog gives what deriving from it at first
    gives. *)
Lemma with_catalog_rederive ns c1 c2 :
  ok ns →
  specs (with_catalog (with_catalog ns c1) c2) = specs (with_catalog ns c2) ∧
  same_defs (with_catalog (with_catalog ns c1) c2) (with_catalog ns c2).
Proof.
  intros Hok. destruct (with_catalog_spec ns c1 Hok) as (Hok1 & Hf1 & _ & Hq1).
  destruct (with_catalog_spec ns c2 Hok) as (_ & Hf2 & _ & Hq2).
  destruct (with_catalog_spec _ c2 Hok1) as (_ & Hf3 & _ & Hq3). split.
  - apply map_eq. intros q. destruct (Hq1 q) as [_ Hb], (Hq2 q) as [-> _], (Hq3 q) as [-> _]. by rewrite Hb.
  - etrans; [symmetry; exact Hf3|]. etrans; [symmetry; exact Hf1|done].
Qed.

(** ** Unloading *)

Lemma fold_delete_lookup {A} (m : gmap string A) qs k :
  foldl (λ m q, delete q m) m qs !! k = if decide (k ∈ qs) then None else m !! k.
Proof.
  revert m. induction qs as [|q qs IH]; intros m; cbn [foldl]; [by rewrite decide_False by set_solver|].
  rewrite IH. destruct (decide (k ∈ qs)), (decide (k ∈ q :: qs)); try set_solver.
  - assert (k = q) as -> by set_solver. by rewrite lookup_delete_eq.
  - apply lookup_delete_ne. set_solver.
Qed.

(** The specs left when a library's are gone. *)
Definition unlisted (ns : t) (name : string) : gmap string Spec :=
  match spec_libs ns !! name with
  | Some qnames => foldl (λ sp q, delete q sp) (specs ns) qnames
  | None => specs ns
  end.
Lemma lookup_unlisted ns name q :
  unlisted ns name !! q = if decide (q ∈ targets (spec_libs ns) name) then None else specs ns !! q.
Proof.
  unfold unlisted, targets. destruct (spec_libs ns !! name) as [qs|]; simpl.
  - apply fold_delete_lookup.
  - done.
Qed.

Lemma registry_rebuild ns : same_registry ns (rebuild_derived_indexes ns).
Proof.
  unfold rebuild_derived_indexes. etrans; [|apply registry_choice].
  etrans; [|apply registry_index]. done.
Qed.

Lemma tight_defs_ok ns : tight ns → defs_ok ns.
Proof.
  intros [Hk Hi]. split; [done|]. eexists. split; [exact Hi|].
  intros s d Hd. apply elem_of_hash_values. eauto.
Qed.

Lemma unload_specs ns name ns' :
  unload_lib ns name = (ns', Ok ()) →
  specs ns' = unlisted ns name ∧ spec_libs ns' = delete name (spec_libs ns) ∧
  selected ns' = selected ns ∧ shadowed ns' = shadowed ns.
Proof.
  unfold unload_lib. destruct (dependent ns name); [done|]. fold (unlisted ns name).
  set (n := set_libs _ _ _). destruct (registry_rebuild n) as (H1' & H2' & H3' & H4').
  destruct (lib_sources ns !! name) as [[]|]; intros [= <-]; rewrite <-H1', <-H2', <-H3', <-H4'; done.
Qed.

Lemma unload_refused ns name ns' e : unload_lib ns name = (ns', Err e) → ns' = ns.
Proof.
  unfold unload_lib. destruct (dependent ns name); [by intros [=]|].
  destruct (lib_sources ns !! name) as [[]|]; by intros [=].
Qed.
Lemma dependent_none ns name :
  (∀ n l, libs ns !! n = Some l → name ∉ lib_depends l) → dependent ns name = None.
Proof.
  intros Hno. unfold dependent. destruct (List.find _ _) as [[n l]|] eqn:Hf; [|done].
  apply List.find_some in Hf as [Hin%list_elem_of_In Hb]. apply elem_of_hash_iter in Hin.
  apply andb_true_iff in Hb as [_ Hb%bool_decide_eq_true]. by destruct (Hno n l Hin).
Qed.

Lemma unload_lib_ok ns name : ok ns → ok (unload_lib ns name).1.
Proof.
  intros Hok. destruct (unload_lib ns name) as [ns' r] eqn:Hu. simpl. destruct r as [[]|e].
  - split; [eapply tight_defs_ok, ex_tight, unload_lib_spec; [apply Hok|done]|].
    destruct (unload_specs _ _ _ Hu) as (H1' & H2' & H3' & H4').
    destruct (ok_specs _ Hok) as [Hk Hl Hs Hn]. split; rewrite ?H1', ?H2', ?H3', ?H4'; try done.
    + intros q s. rewrite lookup_unlisted. case_decide; [done|]. apply Hk.
    + intros q s. rewrite lookup_unlisted. case_decide as Hq; [done|]. intros Hqs.
      apply Hl in Hqs. unfold targets in *. destruct (decide (spec_lib s = name)) as [<-|].
      * done.
      * by rewrite lookup_delete_ne.
  - by rewrite (unload_refused _ _ _ _ Hu).
Qed.

(** ** Explanations *)

(** The spec made of a definition, as a function of the namespace. *)
Definition synthetic (name qname : string) (ns : t) : option Spec :=
  (λ d, mkSpec qname name (def_lib d) None ∅ (Fitting.marker_slot <$> hash_elems (mandatory_of name ns))
          false (def_doc d)) <$> get_def ns name.

Definition explained (entity : HDict) (qname : string) (ctx : option QueryContext) (ns : t)
    : list FitIssue :=
  match Namespace.resolve_spec_term ns qname with
  | Some (TSpec spec) => FittingFacts.spec_issues entity spec (specs ns) ctx ns
  | Some (TDef name) =>
      match synthetic name qname ns with
      | Some spec => FittingFacts.spec_issues entity spec ∅ ctx ns
      | None =>
          if has_type ns name
          then (λ tag, MissingMarker tag name) <$>
               List.filter (HDict.missing entity) (hash_elems (mandatory_of name ns))
          else [UnknownType name]
      end
  | None => [UnknownType qname]
  end.

Lemma synthetic_answers name qname :
  answers (Fitting.synthetic_spec_for_def name qname) (synthetic name qname).
Proof.
  apply (answers_ext _ (λ ns, match get_def ns name with
    | Some d => Some (mkSpec qname name (def_lib d) None ∅
        (Fitting.marker_slot <$> hash_elems (mandatory_of name ns)) false (def_doc d))
    | None => None end)); [intros ns; unfold synthetic; by destruct (get_def ns name)|].
  apply (answers_bind _ _ (λ ns, get_def ns name) (λ d ns, match d with
    | Some d => Some (mkSpec qname name (def_lib d) None ∅
        (Fitting.marker_slot <$> hash_elems (mandatory_of name ns)) false (def_doc d))
    | None => None end)); [by apply answers_reads, stable_const|].
  intros [d|]; [|apply answers_ret].
  apply (answers_bind _ _ _ (λ (m : gset string) _, Some (mkSpec qname name (def_lib d) None ∅
    (Fitting.marker_slot <$> hash_elems m) false (def_doc d))));
    [apply mandatory_tags_answers|intros; apply answers_ret].
Qed.

Lemma explained_answers entity qname ctx :
  answers (Fitting.fits_explain entity qname ctx) (explained entity qname ctx).
Proof.
  apply (FittingFacts.answers_resolved _ _ (λ r ns,
    match r with
    | Some (TSpec spec) => FittingFacts.spec_issues entity spec (specs ns) ctx ns
    | Some (TDef name) =>
        match synthetic name qname ns with
        | Some spec => FittingFacts.spec_issues entity spec ∅ ctx ns
        | None =>
            if has_type ns name
            then (λ tag, MissingMarker tag name) <$>
                 List.filter (HDict.missing entity) (hash_elems (mandatory_of name ns))
            else [UnknownType name]
        end
    | None => [UnknownType qname]
    end)).
  intros [[spec|name]|]; [| |apply answers_ret].
  - apply (answers_bind _ _ specs (λ (sps : gmap string Spec) ns,
      FittingFacts.spec_issues entity spec sps ctx ns)); [by apply answers_reads, stable_const|].
    intros sps. apply FittingFacts.explain_answers.
  - apply (answers_bind _ _ _ (λ (syn : option Spec) ns,
      match syn with
      | Some spec => FittingFacts.spec_issues entity spec ∅ ctx ns
      | None => if has_type ns name
          then (λ tag, MissingMarker tag name) <$>
               List.filter (HDict.missing entity) (hash_elems (mandatory_of name ns))
          else [UnknownType name]
      end)); [apply synthetic_answers|].
    intros [spec|]; [apply FittingFacts.explain_answers|apply fits_explain_answers].
Qed.

(** ** Steps *)

Inductive step : t → t → Prop :=
| step_register_lib ns lib : step ns (register_lib ns lib)
| step_register_spec ns s : step ns (register_spec ns s)
| step_unload_lib ns name : step ns (unload_lib ns name).1
| step_with_catalog ns c : step ns (with_catalog ns c)
| step_set_lib_source ns name source : step ns (set_lib_source ns name source)
| step_clone ns : step ns (clone ns)
| step_mandatory_tags ns name : step ns (mandatory_tags name ns).2
| step_fits ns e name : step ns (fits e name ns).2
| step_fits_explain ns e name : step ns (fits_explain e name ns).2
| step_entity_is_a ns e name : step ns (entity_is_a e name ns).2
| step_validate_entity ns e : step ns (validate_entity e ns).2
| step_fits_spec_term ns e term ctx : step ns (Fitting.fits_spec_term_with e term ctx ns).2
| step_explain ns e qname ctx : step ns (Fitting.fits_explain e qname ctx ns).2.

Definition reachable (ns : t) : Prop := rtc step new ns.

Lemma new_ok : ok new.
Proof.
  split.
  - split; [done|]. exists []. split; [|done]. exact (new_indexes_indexed new).
  - by split.
Qed.

Lemma step_ok ns ns' : step ns ns' → ok ns → ok ns'.
Proof.
  intros [] Hok; eauto using register_lib_ok, register_spec_ok, unload_lib_ok, answers_ok,
    mandatory_tags_answers, fits_answers, fits_explain_answers, entity_is_a_answers,
    validate_entity_answers, FittingFacts.fits_spec_term_with_answers, explained_answers.
  - by apply with_catalog_spec.
  - destruct Hok as [Hd Hs]. split; [|by apply (specs_ok_same ns0)].
    destruct Hd as [Hk (ds & Hi & Hin)]. split; [done|]. exists ds. split; [by apply set_libs_indexed|done].
  - apply ok_memo; [done| |done]. by apply clone_good.
Qed.

Lemma reachable_ok ns : reachable ns → ok ns.
Proof. apply (rtc_ind_r ok); eauto using new_ok, step_ok. Qed.

(** The loaders are sequences of these steps. *)
Lemma register_libs_steps ls ns : rtc step ns (foldl register_lib ns ls).
Proof.
  revert ns. induction ls as [|l ls IH]; intros ns; cbn [foldl]; [apply rtc_refl|].
  eapply rtc_l; [apply step_register_lib|apply IH].
Qed.
Lemma register_specs_steps sps ns : rtc step ns (foldl register_spec ns sps).
Proof.
  revert ns. induction sps as [|s sps IH]; intros ns; cbn [foldl]; [apply rtc_refl|].
  eapply rtc_l; [apply step_register_spec|apply IH].
Qed.
Lemma load_trio_steps {E} (loaded : result E (list Lib)) ns : rtc step ns (load_trio_str loaded ns).1.
Proof. destruct loaded; [apply register_libs_steps|apply rtc_refl]. Qed.
Lemma load_xeto_steps {E} (loaded : result E (Lib * list Spec)) name source ns :
  rtc step ns (load_xeto loaded name source ns).1.
Proof.
  destruct loaded as [[lib sps]|]; [|apply rtc_refl]. cbn [load_xeto fst].
  eapply rtc_l; [apply step_register_lib|]. eapply rtc_r; [apply register_specs_steps|].
  apply step_set_lib_source.
Qed.
Lemma load_bundled_steps {E} (loaded : result E (list Lib)) ns :
  load_bundled_h4 loaded = Ok ns → reachable ns.
Proof.
  destruct loaded as [ls|]; [|done]. cbn. intros [= <-]. unfold reachable. generalize new.
  induction ls as [|l ls IH]; intros ns; cbn [foldl]; [apply rtc_refl|].
  eapply rtc_l; [apply step_register_lib|]. eapply rtc_l; [apply step_set_lib_source|]. apply IH.
Qed.
Lemma load_bundled_xeto_steps {E} (b : string * result E (Lib * list Spec)) ns :
  rtc step ns (load_bundled_xeto ns b).
Proof.
  destruct b as [name [[lib sps]|]]; [|apply rtc_refl]. cbn [load_bundled_xeto].
  eapply rtc_r; [|apply step_set_lib_source].
  case_bool_decide; [apply register_specs_steps|].
  eapply rtc_l; [apply step_register_lib|apply register_specs_steps].
Qed.

(** What registering libraries leaves in the registry of libraries. *)
Lemma register_lib_libs ns lib :
  libs (register_lib ns lib) = <[lib_name lib := lib]> (libs ns) ∧
  lib_sources (register_lib ns lib) = lib_sources ns.
Proof.
  assert (Hc : ∀ l m, libs (foldl register_def_choice_index m l) = libs m ∧
    lib_sources (foldl register_def_choice_index m l) = lib_sources m).
  { induction l as [|x l IH]; intros m; cbn [foldl]; [done|]. destruct (IH (register_def_choice_index m x)) as [-> ->].
    unfold register_def_choice_index. by destruct (defs m !! x). }
  assert (Hb : ∀ l m, libs (foldl register_def_basic m l) = libs m ∧
    lib_sources (foldl register_def_basic m l) = lib_sources m).
  { induction l as [|x l IH]; intros m; cbn [foldl]; [done|]. by destruct (IH (register_def_basic m x)) as [-> ->]. }
  unfold register_lib. destruct (Hc (def_symbol <$> hash_values (lib_defs lib)) (foldl register_def_basic
    (set_libs (<[lib_name lib := lib]> (libs ns)) (lib_sources ns) ns) (hash_values (lib_defs lib)))) as [-> ->].
  destruct (Hb (hash_values (lib_defs lib))
    (set_libs (<[lib_name lib := lib]> (libs ns)) (lib_sources ns) ns)) as [-> ->]. done.
Qed.
Lemma register_libs_libs ls ns n l :
  libs (foldl register_lib ns ls) !! n = Some l → l ∈ ls ∨ libs ns !! n = Some l.
Proof.
  revert ns. induction ls as [|x ls IH]; intros ns; cbn [foldl]; [by right|].
  intros [?|Hl]%IH; [left; by right|]. destruct (register_lib_libs ns x) as [Hx _]. rewrite Hx in Hl.
  apply lookup_insert_Some in Hl as [[_ <-]|[_ ?]]; [left; left|by right].
Qed.
Lemma register_libs_sources ls ns : lib_sources (foldl register_lib ns ls) = lib_sources ns.
Proof.
  revert ns. induction ls as [|x ls IH]; intros ns; cbn [foldl]; [done|].
  rewrite IH. apply register_lib_libs.
Qed.

(** ** Membership *)

(** The entity carries a marker that is, in the hierarchy, a kind of the
    type. *)
Definition marked (ns : t) (e : HDict) (name : string) : Prop :=
  has_type ns name = true ∧
  ∃ tag, e !! tag = Some KMarker ∧ rtc (edge (TaxonomyTree.parents (taxonomy ns))) tag name.

Lemma elem_of_marker_tags e tag : tag ∈ marker_tags e ↔ e !! tag = Some KMarker.
Proof.
  unfold marker_tags. rewrite list_elem_of_omap. split.
  - intros ([k v] & Hin & Hv). apply HDict.elem_of_iter in Hin. destruct v; naive_solver.
  - intros Ht. exists (tag, KMarker). split; [by apply HDict.elem_of_iter|done].
Qed.

Lemma marked_spec ns e name :
  existsb (λ tag, is_a ns tag name) (marker_tags e) = true ↔
  ∃ tag, e !! tag = Some KMarker ∧ rtc (edge (TaxonomyTree.parents (taxonomy ns))) tag name.
Proof.
  rewrite existsb_exists. setoid_rewrite <-list_elem_of_In. setoid_rewrite elem_of_marker_tags.
  by setoid_rewrite is_subtype_spec.
Qed.

Lemma conjunct_parts_ok ns name ps :
  ok ns → conjunct_parts ns name = Some ps →
  ps = split_on "-"%char name ∧ ps ≠ [] ∧ ∀ p, p ∈ ps → conjunct_parts ns p = None.
Proof.
  intros [[_ (ds & Hi & _)] _] Hp. apply (ix_conjuncts _ _ Hi) in Hp as (_ & _ & ->).
  split_and!; [done|apply split_on_ne|]. intros p Hp. apply split_on_no_sep in Hp.
  destruct (conjunct_parts ns p) as [qs|] eqn:Hq; [|done].
  apply (ix_conjuncts _ _ Hi) in Hq as (_ & Hc & _). congruence.
Qed.

(** What a spelling resolves to. *)
Lemma resolved_conjunct ns name c :
  ok ns → ConjunctIndex.resolve_normalized (conjuncts ns) name = Some c →
  has_type ns c = true ∧ is_Some (conjunct_parts ns c) ∧
  ConjunctIndex.normalize c = ConjunctIndex.normalize name ∧
  ∀ d, is_Some (conjunct_parts ns d) → ConjunctIndex.normalize d = ConjunctIndex.normalize name → d = c.
Proof.
  intros [[_ (ds & Hi & _)] _] Hc.
  apply ConjunctIndex.resolve_normalized_spec in Hc as (Hp & Hn & Hu); [|apply Hi].
  split_and!; [|done|done|done]. destruct Hp as [ps Hp].
  apply (ix_conjuncts _ _ Hi) in Hp as [(d & Hd & <-) _]. apply (ix_types _ _ Hi). eauto.
Qed.

(** The tags declared on a type or on one of its supertypes. *)
Lemma elem_of_tags_for ns name x :
  x ∈ tags_for ns name ↔
  ∃ y, rtc (edge (TaxonomyTree.parents (taxonomy ns))) name y ∧ x ∈ targets (tag_on_index ns) y.
Proof.
  assert (Hfold : ∀ l acc, x ∈ foldl (λ tags sup, list_to_set (targets (tag_on_index ns) sup) ∪ tags) acc l
    ↔ x ∈ (acc : gset string) ∨ ∃ y, y ∈ l ∧ x ∈ targets (tag_on_index ns) y).
  { induction l as [|y l IH]; intros acc; cbn [foldl]; [setoid_rewrite elem_of_nil; naive_solver|].
    rewrite IH, elem_of_union, elem_of_list_to_set. setoid_rewrite elem_of_cons. naive_solver. }
  unfold tags_for. rewrite Hfold, elem_of_list_to_set. unfold TaxonomyTree.supertypes_of.
  destruct (walk_from_spec (TaxonomyTree.parents (taxonomy ns)) name) as [_ Hup].
  setoid_rewrite Hup. split.
  - intros [?|(y & Hy & ?)]; [exists name; split; [apply rtc_refl|done]|exists y].
    split; [by apply tc_rtc|done].
  - intros (y & Hr & Hx). apply rtc_tc in Hr as [<-|Hr]; [by left|right; eauto].
Qed.

(** Membership: of a conjunct, in each of its parts; of any other type,
    through a marker.  The depth limit never cuts anything short. *)
Lemma member_spec ns n e name :
  ok ns →
  member (S n) e name ns = true ↔
  has_type ns name = true ∧
  match conjunct_parts ns name with
  | Some ps => ∀ p, p ∈ ps → marked ns e p
  | None => marked ns e name
  end.
Proof.
  intros Hok. cbn [member]. destruct (has_type ns name) eqn:Ht; [|naive_solver].
  destruct (conjunct_parts ns name) as [ps|] eqn:Hp.
  - destruct (conjunct_parts_ok ns name ps Hok Hp) as (_ & Hne & Hps).
    rewrite bool_decide_false by done. simpl. rewrite forallb_forall.
    setoid_rewrite <-list_elem_of_In.
    assert (Hm : ∀ p, p ∈ ps → member n e p ns = true ↔ marked ns e p).
    { intros p Hin. unfold marked. rewrite <-marked_spec.
      destruct n; cbn [member]; rewrite ?(Hps p Hin); destruct (has_type ns p); naive_solver. }
    split; [intros Ha; split; [done|]|intros [_ Ha]]; intros p Hin; by apply Hm, Ha.
  - rewrite marked_spec. unfold marked. naive_solver.
Qed.
End invariant.
End NamespaceInv.
