(* ===== verification/Controlled.v ===== *)
(** * Controlled filter evaluation

    [haystack-core/src/filter/controlled.rs]: the evaluation of filters over
    an environment the application supplies, which charges every step, may
    stop the evaluation with an error, answers references with the records a
    caller may see, and hides parts of the catalog.

    The environment is the interface [QueryEnvironment], a state with the
    operations of the source's trait.  Evaluation is a computation of the
    monad [C]: it may stop with the environment's error ([Err]), and it is
    [None] when a loop runs out of the fuel [fuel], which the theorems show
    not to happen for a finite store. *)

From Stdlib Require Import Ascii.
From S2P Require Import Prelude Floats Kinds Text Taxonomy Xeto Filter Namespace Fitting.

Inductive CatalogKind : Type := CDefinition | CLibrary | CSpec.
#[export] Instance CatalogKind_eq_dec : EqDecision CatalogKind.
Proof. solve_decision. Defined.

(** [trait QueryEnvironment]; the [&mut self] operations return the
    environment with their result. *)
Class QueryEnvironment : Type := {
  Env : Type;
  EnvError : Type;
  env_work : N → Env → result EnvError unit * Env;
  env_retain : N → Env → result EnvError unit * Env;
  env_depth : N → Env → result EnvError unit * Env;
  env_comparison : Kind → Kind → Env → result EnvError unit * Env;
  env_forward : HRef → Env → result EnvError (option HDict) * Env;
  env_inverse : HRef → string → Env → result EnvError (list HDict) * Env;
  env_catalog_visible : CatalogKind → string → Env → result EnvError bool * Env;
  env_regex_source_limit : Env → N;
  env_regex_size_limit : Env → N;
  env_regex_limit_error : Env → EnvError
}.

(** What [fit_entity] of the strict catalog returns. *)
Inductive FitError (E : Type) : Type :=
| FitInvalid
| FitControl (e : E).
Arguments FitInvalid {E}.
Arguments FitControl {E} e.

(** [Catalog::fit_entity] over the environment. *)
Class StrictFit `{StrictCatalog, QueryEnvironment} : Type :=
  fit_entity : SCatalog → string → HDict → Env → result (FitError EnvError) unit * Env.

Module Controlled.
Section model.
Context `{HashOrder, Casing, StrictCatalog, RegexCrate, FloatText}.
Context {QE : QueryEnvironment} {SF : StrictFit}.
Context (fuel : nat).
Import Namespace.

(** ** Computations *)

Definition C (A : Type) : Type := Env → option (result EnvError A * Env).
#[global] Instance C_ret : MRet C := λ A a env, Some (Ok a, env).
#[global] Instance C_bind : MBind C := λ A B k m env,
  match m env with
  | Some (Ok a, env') => k a env'
  | Some (Err e, env') => Some (Err e, env')
  | None => None
  end.
(** An operation of the environment. *)
Definition op {A} (f : Env → result EnvError A * Env) : C A := λ env, Some (f env).
Definition stop {A} (f : Env → EnvError) : C A := λ env, Some (Err (f env), env).
Definition asks {A} (f : Env → A) : C A := λ env, Some (Ok (f env), env).
(** No fuel left. *)
Definition exhausted {A} : C A := λ _, None.

Definition work (n : N) : C unit := op (env_work n).
Definition retain (n : N) : C unit := op (env_retain n).
Definition depth_check (d : N) : C unit := op (env_depth d).

(** [a? && b?] and [a? || b?]. *)
Definition and_then (a b : C bool) : C bool := x ← a; if x : bool then b else mret false.
Definition or_else (a b : C bool) : C bool := x ← a; if x : bool then mret true else b.

(** A loop that returns [false] on the first body that does. *)
Fixpoint all_c {A} (f : A → C bool) (l : list A) : C bool :=
  match l with
  | [] => mret true
  | a :: l => and_then (f a) (all_c f l)
  end.
(** A loop that threads a value. *)
Fixpoint fold_c {A S} (f : S → A → C S) (s : S) (l : list A) : C S :=
  match l with
  | [] => mret s
  | a :: l => s ← f s a; fold_c f s l
  end.

(** ** The catalog *)

Definition visible_def (ns : t) (name : string) : C bool :=
  work 1;;
  match get_def ns name with
  | None => mret false
  | Some d => and_then (op (env_catalog_visible CDefinition name))
                       (op (env_catalog_visible CLibrary (def_lib d)))
  end.

Definition visible_spec (s : Spec) : C bool :=
  and_then (op (env_catalog_visible CSpec (spec_qname s)))
           (op (env_catalog_visible CLibrary (spec_lib s))).

Definition catalog_term_available (ns : option t) (term : string) : C bool :=
  work (saturating_add (str_len term) 1);;
  retain (saturating_mul (str_len term) 4);;
  match ns with
  | None => mret false
  | Some ns =>
      match resolve_spec_term ns term with
      | Some (TDef name) => visible_def ns name
      | Some (TSpec s) => visible_spec s
      | None => mret false
      end
  end.

(** ** Paths *)

(** [resolve_path]: the entity that owns the last segment. *)
Fixpoint walk (entity : HDict) (path : Path) : C (option HDict) :=
  match path with
  | [] | [_] => mret (Some entity)
  | tag :: rest =>
      work 1;;
      match HDict.get entity tag with
      | Some (KRef id) =>
          next ← op (env_forward id);
          match next with
          | Some entity => walk entity rest
          | None => mret None
          end
      | _ => mret None
      end
  end.
Definition resolve_path (entity : HDict) (path : Path) : C (option HDict) :=
  if decide (path = []) then mret None else walk entity path.

(** ** Membership *)

Definition push_parents (todo is_ : list string) : C (list string) :=
  fold_c (λ todo parent, work 1;; retain 64;; mret (parent :: todo)) todo is_.

(** The walk up from one marker tag; the stack is a list, top first. *)
Fixpoint climb (n : nat) (ns : t) (wanted : string) (todo : list string) (seen : gset string)
    : C bool :=
  match todo with
  | [] => mret false
  | name :: todo =>
      match n with
      | 0 => exhausted
      | S n =>
          work 1;;
          if decide (name ∈ seen) then climb n ns wanted todo seen
          else
            retain 64;;
            let seen := {[name]} ∪ seen in
            visible ← visible_def ns name;
            if negb visible then climb n ns wanted todo seen
            else if decide (name = wanted) then mret true
            else
              todo ← match get_def ns name with
                     | Some d => push_parents todo (def_is d)
                     | None => mret todo
                     end;
              climb n ns wanted todo seen
      end
  end.

(** The loop over the tags of the entity. *)
Fixpoint any_marker (ns : t) (wanted : string) (tags : list (string * Kind)) : C bool :=
  match tags with
  | [] => mret false
  | (tag, value) :: tags =>
      work 1;;
      match value with
      | KMarker =>
          retain 64;;
          or_else (climb fuel ns wanted [tag] ∅) (any_marker ns wanted tags)
      | _ => any_marker ns wanted tags
      end
  end.

Fixpoint member_of (n : nat) (entity : HDict) (wanted : string) (ns : t) (depth : N) : C bool :=
  match n with
  | 0 => exhausted
  | S n =>
      depth_check depth;;
      visible ← visible_def ns wanted;
      if negb visible then mret false
      else match conjunct_parts ns wanted with
      | Some parts =>
          if decide (parts = []) then mret false
          else all_c (λ part, work 1;; member_of n entity part ns (depth + 1)%N) parts
      | None => any_marker ns wanted (HDict.iter entity)
      end
  end.

(** ** Slots *)

Definition slot_type_matches (v : Kind) (name : option string) : bool :=
  match name with Some type_ref => Fitting.type_ok type_ref v | None => true end.

(** The loop over a lower and an upper bound. *)
Definition bounds (slot : Slot) (lo hi : string) (x : F64.f64) : C bool :=
  all_c (λ kl : string * bool,
    work 1;;
    mret (match slot_meta slot !! kl.1 with
          | Some (KNumber bound) =>
              if kl.2 then negb (F64.float_lt x (num_val bound))
              else negb (F64.float_gt x (num_val bound))
          | _ => true
          end)) [(lo, true); (hi, false)].

Definition number_constraints (number : Number) (slot : Slot) : C bool :=
  and_then (bounds slot "minVal" "maxVal" (num_val number))
    (if Fitting.has_meta slot "unitless" && bool_decide (is_Some (num_unit number)) then mret false
     else match slot_meta slot !! "unit" with
     | Some (KStr unit) =>
         work (saturating_add (str_len unit) 1);;
         mret (bool_decide (num_unit number = Some unit))
     | _ => mret true
     end).

Definition size_constraints (size : N) (slot : Slot) : C bool :=
  bounds slot "minSize" "maxSize" (F64.of_usize size).

(** [reserve_regex_construction]. *)
Definition reserve_regex_construction (pattern : string) : C unit :=
  source_limit ← asks env_regex_source_limit;
  if decide (source_limit < str_len pattern)%N then stop env_regex_limit_error
  else
    work (saturating_add (str_len pattern) 1);;
    size_limit ← asks env_regex_size_limit;
    let classes := count_bytes (λ b, bool_decide (b = "\"%char) || bool_decide (b = "["%char)) pattern in
    let parser := saturating_add (saturating_add 16384 (saturating_mul (str_len pattern) 1024))
                    (saturating_mul classes (512 * 1024)) in
    let compiler := saturating_add (1024 * 1024) (saturating_mul size_limit 16) in
    retain (saturating_add parser compiler).

Definition pattern_constraint (text pattern : string) : C bool :=
  work (saturating_mul (saturating_add (str_len pattern) 1) (saturating_add (str_len text) 1));;
  reserve_regex_construction pattern;;
  size_limit ← asks env_regex_size_limit;
  retain (saturating_mul size_limit 2);;
  size_limit ← asks env_regex_size_limit;
  match regex_with_limit size_limit pattern with
  | Ok re => mret (regex_is_match re text)
  | Err (RegexSyntax _) => mret false
  | Err _ => stop env_regex_limit_error
  end.

Definition text_constraints (text : string) (slot : Slot) : C bool :=
  work (saturating_add (str_len text) 1);;
  if Fitting.has_meta slot "nonEmpty" && all_whitespace text then mret false
  else match slot_meta slot !! "pattern" with
  | Some (KStr pattern) => pattern_constraint text pattern
  | _ => mret true
  end.

Definition constraints (value : Kind) (slot : Slot) : C bool :=
  match value with
  | KNumber number => number_constraints number slot
  | KStr text => and_then (size_constraints (str_len text) slot) (text_constraints text slot)
  | KList items => size_constraints (Prelude.len items) slot
  | _ => mret true
  end.

(** ** Query slots *)

(** The tag to follow, whether transitively, and whether backwards. *)
Inductive Plan : Type :=
| Follow (tag : string) (transitive inverse : bool)
| Refused
| NoPlan.

Fixpoint find_query_slot (slot_name' : string) (slots : list Slot) : C (option string) :=
  match slots with
  | [] => mret None
  | c :: slots =>
      work 1;;
      if bool_decide (slot_name c = slot_name') && slot_is_query c
      then mret (Fitting.str_meta c "via") else find_query_slot slot_name' slots
  end.

Definition plan_query (ns : t) (slot : Slot) : C Plan :=
  match Fitting.str_meta slot "via", Fitting.str_meta slot "inverse" with
  | Some via, _ => let '(tag, transitive) := Fitting.split_via via in mret (Follow tag transitive false)
  | None, Some reference =>
      match rsplit_once "." reference with
      | None => mret Refused
      | Some (name, slot_name') =>
          match get_spec ns name with
          | None => mret Refused
          | Some s =>
              visible ← visible_spec s;
              if negb visible then mret Refused
              else
                via ← find_query_slot slot_name' (spec_slots s);
                match via with
                | None => mret Refused
                | Some via =>
                    let '(tag, transitive) := Fitting.split_via via in
                    mret (Follow tag transitive true)
                end
          end
      end
  | None, None => mret NoPlan
  end.

(** The reference an entity continues a traversal with. *)
Definition continuation (tag : string) (inverse : bool) (e : HDict) : option HRef :=
  if inverse then HDict.id e
  else match HDict.get e tag with Some (KRef r) => Some r | _ => None end.

Definition from_val (val : string) : HRef := mkHRef val None.

Section query.
(** [fits_term] on a reached entity, at a depth. *)
Context (fits_term : HDict → string → N → C bool).
Context (ns : t) (enclosing : Spec) (slot : Slot) (depth : N).

Definition of_matches (reached : HDict) : C bool :=
  match Fitting.str_meta slot "of" with
  | Some of_type =>
      retain (saturating_add (saturating_add (str_len (spec_lib enclosing)) (str_len of_type)) 2);;
      let local := spec_lib enclosing +:+ "::" +:+ of_type in
      let resolved := if negb (contains_str "::" of_type) && bool_decide (is_Some (get_spec ns local))
                      then local else of_type in
      fits_term reached resolved (depth + 1)%N
  | None => mret true
  end.

(** The loop over the entities one reference leads to. *)
Definition visit_reached (tag : string) (transitive inverse : bool) (seen : gset string)
    (acc : list HRef * bool) (reached : HDict) : C (list HRef * bool) :=
  work 1;;
  is_match ← of_matches reached;
  let matching := acc.2 || is_match in
  if transitive then
    match continuation tag inverse reached with
    | Some next =>
        if decide (ref_val next ∈ seen) then mret (acc.1, matching)
        else retain (saturating_add (str_len (ref_val next)) 96);;
             mret (from_val (ref_val next) :: acc.1, matching)
    | None => mret (acc.1, matching)
    end
  else mret (acc.1, matching).

Fixpoint traverse (n : nat) (tag : string) (transitive inverse : bool) (todo : list HRef)
    (seen : gset string) (matching : bool) : C bool :=
  match todo with
  | [] => mret matching
  | id :: todo =>
      match n with
      | 0 => exhausted
      | S n =>
          work 1;;
          if decide (ref_val id ∈ seen) then traverse n tag transitive inverse todo seen matching
          else
            retain (saturating_add (str_len (ref_val id)) 64);;
            let seen := {[ref_val id]} ∪ seen in
            reached ← (if inverse then op (env_inverse id tag)
                       else e ← op (env_forward id);
                            match e with
                            | Some e => retain 32;; mret [e]
                            | None => mret []
                            end);
            '(todo, matching) ← fold_c (visit_reached tag transitive inverse seen) (todo, matching) reached;
            if transitive then traverse n tag transitive inverse todo seen matching
            else mret matching
      end
  end.

Definition query_slot (entity : HDict) : C bool :=
  depth_check depth;;
  plan ← plan_query ns slot;
  match plan with
  | NoPlan => mret true
  | Refused => mret false
  | Follow tag transitive inverse =>
      work (saturating_add (str_len tag) 1);;
      todo ← match continuation tag inverse entity with
             | Some id => retain (saturating_add (str_len (ref_val id)) 96);;
                          mret [from_val (ref_val id)]
             | None => mret []
             end;
      matching ← traverse fuel tag transitive inverse todo ∅ false;
      mret (matching || is_maybe slot)
  end.
End query.

(** ** Specs *)

(** The loop over the chain of bases. *)
Fixpoint base_markers (n : nat) (entity : HDict) (ns : t) (current : option Spec)
    (seen : gset string) : C bool :=
  match current with
  | None => mret true
  | Some base =>
      match n with
      | 0 => exhausted
      | S n =>
          work 1;;
          if decide (spec_qname base ∈ seen) then mret true
          else
            retain 64;;
            let seen := {[spec_qname base]} ∪ seen in
            visible ← visible_spec base;
            if negb visible then mret false
            else
              and_then
                (all_c (λ slot, work 1;;
                   mret (negb (slot_is_marker slot && negb (is_maybe slot)
                               && HDict.missing entity (slot_name slot)))) (spec_slots base))
                (base_markers n entity ns (spec_base base ≫= get_spec ns) seen)
      end
  end.

(** [fits_spec]; [query] evaluates a query slot. *)
Definition fits_spec (query : Spec → Slot → HDict → N → C bool) (entity : HDict) (spec : Spec)
    (ns : t) (queries : bool) (depth : N) : C bool :=
  depth_check depth;;
  and_then (base_markers fuel entity ns (Some spec) ∅)
    (all_c (λ slot,
       work 1;;
       if slot_is_query slot
       then (if queries then query spec slot entity (depth + 1)%N else mret true)
       else if slot_is_marker slot then mret true
       else match HDict.get entity (slot_name slot) with
       | None => mret true
       | Some value =>
           if negb (is_maybe slot) && negb (slot_type_matches value (slot_type_ref slot))
           then mret false else constraints value slot
       end) (spec_slots spec)).

(** [fits_selected]: the chain of declared bases, then the strict fitter. *)
Fixpoint selected_visible (n : nat) (catalog : SCatalog) (ns : t) (next : option string) : C bool :=
  match next with
  | None => mret true
  | Some name =>
      match n with
      | 0 => exhausted
      | S n =>
          work 1;;
          match get_spec ns name with
          | None => mret false
          | Some s =>
              visible ← visible_spec s;
              if negb visible then mret false
              else selected_visible n catalog ns (declaration catalog name ≫= spec_base)
          end
      end
  end.
Definition fits_selected (entity : HDict) (term : string) (catalog : SCatalog) (ns : t) : C bool :=
  and_then (selected_visible fuel catalog ns (Some term))
    (λ env, let '(r, env') := fit_entity catalog term entity env in
            Some (match r with
                  | Ok _ => Ok true
                  | Err FitInvalid => Ok false
                  | Err (FitControl e) => Err e
                  end, env')).

(** [fits_term] with what evaluates query slots.  With [queries] off no query
    slot is evaluated, so [fits_reached], which is what query slots use, gives
    it a body that is never called. *)
Definition fits_term_with (query : Spec → Slot → HDict → N → C bool) (entity : HDict)
    (term : string) (ns : t) (queries : bool) (depth : N) : C bool :=
  depth_check depth;;
  available ← catalog_term_available (Some ns) term;
  if negb available then mret false
  else match selected ns ≫= λ c, (λ _, c) <$> declaration c term with
  | Some c => fits_selected entity term c ns
  | None =>
      match resolve_spec_term ns term with
      | Some (TDef name) => member_of fuel entity name ns (depth + 1)%N
      | Some (TSpec spec) => fits_spec query entity spec ns queries (depth + 1)%N
      | None => mret false
      end
  end.
Definition fits_reached (ns : t) (entity : HDict) (term : string) (depth : N) : C bool :=
  fits_term_with (λ _ _ _ _, mret true) entity term ns false depth.
Definition fits_term (entity : HDict) (term : string) (ns : t) (queries : bool) (depth : N) : C bool :=
  fits_term_with (λ spec slot entity depth, query_slot (fits_reached ns) ns spec slot depth entity)
    entity term ns queries depth.

(** ** Filters *)

Definition last_tag (path : Path) : string := default "" (last path).

Fixpoint matches_at (node : FilterNode) (entity : HDict) (ns : option t) (depth : N) : C bool :=
  depth_check depth;;
  work 1;;
  match node with
  | Has path =>
      owner ← resolve_path entity path;
      mret (match owner with Some e => HDict.has e (last_tag path) | None => false end)
  | Missing path =>
      owner ← resolve_path entity path;
      mret (match owner with Some e => HDict.missing e (last_tag path) | None => true end)
  | Cmp path op' val =>
      owner ← resolve_path entity path;
      match owner ≫= λ e, last path ≫= HDict.get e with
      | Some actual => op (env_comparison actual val);; mret (compare actual op' val)
      | None => mret false
      end
  | And l r => and_then (matches_at l entity ns (depth + 1)%N) (matches_at r entity ns (depth + 1)%N)
  | Or l r => or_else (matches_at l entity ns (depth + 1)%N) (matches_at r entity ns (depth + 1)%N)
  | SpecMatch term =>
      match ns with
      | Some ns => fits_term entity term ns true (depth + 1)%N
      | None => mret false
      end
  end.
Definition matches_controlled (node : FilterNode) (entity : HDict) (ns : option t) : C bool :=
  matches_at node entity ns 1.
End model.
End Controlled.
