(* ===== verification/ControlledFacts.v ===== *)
(** * Controlled evaluation agrees with plain evaluation

    In an environment that grants everything ([grants]) and answers from a
    finite store, the controlled evaluator returns, without running out of
    fuel, what the plain evaluator of [Filter.v] returns over the same store.
    [yields m a] says that of a computation: it returns [a] and leaves the
    environment granting. *)

From Stdlib Require Import Ascii.
From S2P Require Import Prelude Floats Kinds Text Taxonomy Xeto Filter Namespace Fitting NamespaceFacts FittingFacts Controlled.

(** ** A generic traversal *)

Section spread.
Context (succ : string → list HDict) (cont : HDict → option string).

(** From an entity one continues to the entities its reference leads to. *)
Definition onward (y x : HDict) : Prop := ∃ k, cont y = Some k ∧ x ∈ succ k.
Definition led_to (todo : list string) (x : HDict) : Prop :=
  ∃ k y, k ∈ todo ∧ y ∈ succ k ∧ rtc onward y x.
Definition came_from (seen : gset string) (x : HDict) : Prop := ∃ k, k ∈ seen ∧ x ∈ succ k.
Definition covered (todo : list string) (seen : gset string) : Prop :=
  ∀ y k, came_from seen y → cont y = Some k → k ∈ seen ∨ k ∈ todo.

Lemma covered_empty todo : covered todo ∅.
Proof. by intros y k (v & ?%elem_of_empty & _). Qed.

Lemma covered_reach todo seen y x :
  covered todo seen → came_from seen y → rtc onward y x → came_from seen x ∨ led_to todo x.
Proof.
  intros Hc Hy Hr. revert Hy. induction Hr as [y|y z x (k & Hk & Hz) Hr IH]; [by left|].
  intros Hy. destruct (Hc y k Hy Hk); [apply IH; by exists k|right; by exists k, z].
Qed.

Lemma covered_skip k todo seen : k ∈ seen → covered (k :: todo) seen → covered todo seen.
Proof.
  intros Hk Hc y j Hy Hj. destruct (Hc y j Hy Hj) as [|[->|]%elem_of_cons]; auto.
Qed.

Lemma covered_visit k todo todo' seen :
  (∀ j, j ∈ todo → j ∈ todo') →
  (∀ y j, y ∈ succ k → cont y = Some j → j ∈ {[k]} ∪ seen ∨ j ∈ todo') →
  covered (k :: todo) seen → covered todo' ({[k]} ∪ seen).
Proof.
  intros Hin Hnew Hc y j (v & [->%elem_of_singleton|Hv]%elem_of_union & Hy) Hj; [by eapply Hnew|].
  destruct (Hc y j) as [?|[->|?]%elem_of_cons]; [by exists v|done|set_solver..|auto].
Qed.

Lemma led_to_skip k todo seen x :
  k ∈ seen → covered (k :: todo) seen → led_to (k :: todo) x → came_from seen x ∨ led_to todo x.
Proof.
  intros Hk Hc (j & y & [->|Hj]%elem_of_cons & Hy & Hr); [|right; by exists j, y].
  eapply covered_reach; [by eapply covered_skip| |done]. by exists k.
Qed.

(** Visiting an id: what it leads to is reached now or from the new queue. *)
Lemma led_to_visit k todo todo' seen x :
  (∀ j, j ∈ todo' → j ∈ todo ∨ ∃ y, y ∈ succ k ∧ cont y = Some j) →
  covered todo' ({[k]} ∪ seen) → (∀ j, j ∈ todo → j ∈ todo') →
  led_to (k :: todo) x ∨ came_from seen x ↔
  x ∈ succ k ∨ came_from seen x ∨ led_to todo' x.
Proof.
  intros Hinv Hc Hin. split.
  - intros [(j & y & [->|Hj]%elem_of_cons & Hy & Hr)|?]; [| |auto].
    + destruct (covered_reach _ _ y x Hc) as [(v & Hv & Hx)|?]; [exists k; set_solver|done| |auto].
      apply elem_of_union in Hv as [->%elem_of_singleton|Hv]; [auto|]. right. left. by exists v.
    + right. right. exists j, y. auto.
  - intros [Hx|[?|(j & y & Hj & Hy & Hr)]]; [|auto|].
    + left. exists k, x. split_and!; [left|done|apply rtc_refl].
    + left. destruct (Hinv j Hj) as [Hj'|(z & Hz & Hzj)].
      * exists j, y. split_and!; [by right|done|done].
      * exists k, z. split_and!; [left|done|]. eapply rtc_l; [|done]. by exists j.
Qed.
End spread.

Module ControlledFacts.
Import Namespace NamespaceFacts FittingFacts Controlled.

Section facts.
Context `{HashOrderLaws, Casing, StrictCatalog, RegexLaws, FloatText}.
Context {QE : QueryEnvironment} {SF : StrictFit}.
Context (ctx : QueryContext) (reverse : HRef → string → list HDict) (Pm : Env → Prop).
Context (Stops : EnvError → Prop).

(** An operation of the environment answers [a], or stops the evaluation with
    an error of [Stops]. *)
Definition settles {A} (a : A) (r : result EnvError A) : Prop :=
  r = Ok a ∨ ∃ e, r = Err e ∧ Stops e.
Definition responds {A} (f : Env → result EnvError A * Env) (a : A) : Prop :=
  ∀ env, Pm env → ∃ r env', f env = (r, env') ∧ Pm env' ∧ settles a r.

(** The environment grants every charge it does not stop at, shows the whole
    catalog and answers references as the context does. *)
Record grants : Prop := {
  grant_work n : responds (env_work n) ();
  grant_retain n : responds (env_retain n) ();
  grant_depth n : responds (env_depth n) ();
  grant_comparison a b : responds (env_comparison a b) ();
  grant_forward r : responds (env_forward r) (ctx_forward ctx r);
  grant_inverse r tag : responds (env_inverse r tag) (reverse r tag);
  grant_visible k name : responds (env_catalog_visible k name) true
}.
Context (G : grants).

(** ** Computations that return *)

Definition yields {A} (m : C A) (a : A) : Prop :=
  ∀ env, Pm env → ∃ r env', m env = Some (r, env') ∧ Pm env' ∧ settles a r.

Lemma yields_ret {A} (a : A) : yields (mret a) a.
Proof. intros env Hp. exists (Ok a), env. split_and!; [done..|by left]. Qed.
Lemma yields_bind {A B} (m : C A) (k : A → C B) a b :
  yields m a → yields (k a) b → yields (m ≫= k) b.
Proof.
  intros Hm Hk env Hp. destruct (Hm env Hp) as (r & env' & Hr & Hp' & Hs). unfold mbind, C_bind.
  rewrite Hr. destruct Hs as [->|(e & -> & He)]; [by apply Hk|].
  exists (Err e), env'. split_and!; [done..|right; eauto].
Qed.
Lemma yields_op {A} (f : Env → result EnvError A * Env) (a : A) :
  responds f a → yields (op f) a.
Proof. intros Hf env Hp. destruct (Hf env Hp) as (r & env' & Hr & ?). unfold op. rewrite Hr. eauto. Qed.
Lemma yields_stop {A} (f : Env → EnvError) (a : A) :
  (∀ env, Pm env → Stops (f env)) → yields (stop f) a.
Proof. intros Hf env Hp. exists (Err (f env)), env. split_and!; [done..|right; eauto]. Qed.
Lemma yields_work n : yields (work n) ().
Proof. apply yields_op, G. Qed.
Lemma yields_retain n : yields (retain n) ().
Proof. apply yields_op, G. Qed.
Lemma yields_depth n : yields (depth_check n) ().
Proof. apply yields_op, G. Qed.
Lemma yields_and a b x y : yields a x → yields b y → yields (and_then a b) (x && y).
Proof. intros Ha Hb. eapply yields_bind; [exact Ha|]. destruct x; [exact Hb|apply yields_ret]. Qed.
Lemma yields_or a b x y : yields a x → yields b y → yields (or_else a b) (x || y).
Proof. intros Ha Hb. eapply yields_bind; [exact Ha|]. destruct x; [apply yields_ret|exact Hb]. Qed.
Lemma yields_all {A} (f : A → C bool) p (l : list A) :
  (∀ a, a ∈ l → yields (f a) (p a)) → yields (all_c f l) (forallb p l).
Proof.
  induction l as [|a l IH]; intros Hf; simpl; [apply yields_ret|].
  apply yields_and; [apply Hf; left|apply IH; intros; apply Hf; by right].
Qed.
Lemma yields_fold {A S} (f : S → A → C S) (g : S → A → S) (l : list A) s :
  (∀ s a, a ∈ l → yields (f s a) (g s a)) → yields (fold_c f s l) (foldl g s l).
Proof.
  revert s. induction l as [|a l IH]; intros s Hf; simpl; [apply yields_ret|].
  eapply yields_bind; [apply Hf; left|]. apply IH. intros; apply Hf; by right.
Qed.

(** Skips a charge. *)
Ltac charge :=
  eapply yields_bind; [first [apply yields_work | apply yields_retain | apply yields_depth]|].

(** ** The namespaces the agreement is about *)

(** The bases of a declared spec end within [n] steps. *)
Fixpoint rooted (n : nat) (c : SCatalog) (q : string) : Prop :=
  match declaration c q ≫= spec_base with
  | None => True
  | Some b => match n with 0 => False | S n => rooted n c b end
  end.
(** The selected catalog: the specs it declares and their bases are registered,
    the bases end, and no query slot of a spec that the catalog does not
    declare asks for a type that it does. *)
Record settled_catalog (ns : t) (c : SCatalog) : Prop := {
  sc_registered q s : declaration c q = Some s → is_Some (specs ns !! q);
  sc_based q s b : declaration c q = Some s → spec_base s = Some b → is_Some (specs ns !! b);
  sc_rooted q s : declaration c q = Some s → rooted (size (specs ns)) c q;
  sc_asks q s slot o : specs ns !! q = Some s → declaration c q = None → slot ∈ spec_slots s →
    Fitting.str_meta slot "of" = Some o →
    declaration c o = None ∧ declaration c (spec_lib s +:+ "::" +:+ o) = None
}.
Record plain (ns : t) : Prop := {
  pl_tight : tight ns;
  pl_closed s d p : defs ns !! s = Some d → p ∈ def_is d → is_Some (defs ns !! p);
  pl_catalog c : selected ns = Some c → settled_catalog ns c;
  pl_specs q s : specs ns !! q = Some s → spec_qname s = q ∧ NoDup (slot_name <$> spec_slots s)
}.

(** The fitter of the selected catalog answers in the environment what it
    answers over the context, or is stopped by the environment. *)
Definition strict_agrees (ns : t) : Prop := ∀ c term e,
  selected ns = Some c → is_Some (declaration c term) →
  ∀ env, Pm env → ∃ r env', fit_entity c term e env = (r, env') ∧ Pm env' ∧
    match r with
    | Ok _ => strict_fits c term e (Some (ctx_forward ctx)) = true
    | Err FitInvalid => strict_fits c term e (Some (ctx_forward ctx)) = false
    | Err (FitControl x) => Stops x
    end.

Context (ns : t) (Hplain : plain ns) (Hstrict : strict_agrees ns).
Abbreviation defined x := (bool_decide (is_Some (defs ns !! x))).

Lemma has_type_defined x : has_type ns x = defined x.
Proof.
  apply eq_true_iff_eq. rewrite bool_decide_eq_true.
  rewrite (ix_types _ _ (ex_indexed _ (pl_tight _ Hplain))).
  setoid_rewrite elem_of_hash_values. split.
  - intros (d & (s & Hs) & [->|Hx]).
    + rewrite (ex_keyed _ (pl_tight _ Hplain) s d Hs). eauto.
    + by eapply pl_closed.
  - intros (d & Hd). exists d. split; [eauto|left]. by rewrite (ex_keyed _ (pl_tight _ Hplain) x d Hd).
Qed.

Definition is_map : gmap string (list string) := def_is <$> defs ns.

Lemma edge_is_map x y : edge (TaxonomyTree.parents (taxonomy ns)) x y ↔ edge is_map x y.
Proof.
  rewrite (ix_edges _ _ (ex_indexed _ (pl_tight _ Hplain))). unfold edge, targets, is_map.
  rewrite lookup_fmap. setoid_rewrite elem_of_hash_values. split.
  - intros (d & (s & Hs) & Hx & Hy). rewrite (ex_keyed _ (pl_tight _ Hplain) s d Hs) in Hx. subst.
    by rewrite Hs.
  - destruct (defs ns !! x) as [d|] eqn:Hd; cbn; [|by intros ?%elem_of_nil]. intros Hy.
    exists d. split_and!; [eauto|by apply (ex_keyed _ (pl_tight _ Hplain))|done].
Qed.

Lemma is_a_reach x y : is_a ns x y = true ↔ rtc (edge is_map) x y.
Proof.
  unfold is_a. rewrite TaxonomyFacts.is_subtype_spec. apply rtc_iff, edge_is_map.
Qed.

Lemma parts_spec x ps :
  conjunct_parts ns x = Some ps ↔
  defined x = true ∧ contains_char "-"%char x = true ∧ ps = split_on "-"%char x.
Proof.
  rewrite (ix_conjuncts _ _ (ex_indexed _ (pl_tight _ Hplain))), bool_decide_eq_true.
  setoid_rewrite elem_of_hash_values.
  assert (Heq : (∃ d, (∃ k, defs ns !! k = Some d) ∧ def_symbol d = x) ↔ is_Some (defs ns !! x)).
  { split.
    - intros (d & (k & Hk) & <-). rewrite (ex_keyed _ (pl_tight _ Hplain) k d Hk). eauto.
    - intros (d & Hd). exists d. split; [eauto|]. by apply (ex_keyed _ (pl_tight _ Hplain)). }
  by rewrite Heq.
Qed.

Lemma parts_flat x ps p : conjunct_parts ns x = Some ps → p ∈ ps → conjunct_parts ns p = None.
Proof. eapply conjunct_flat, (pl_tight _ Hplain). Qed.

(** ** The catalog *)

Lemma visible_def_yields name : yields (visible_def ns name) (defined name).
Proof.
  unfold visible_def. charge. unfold get_def. destruct (defs ns !! name); simpl; [|apply yields_ret].
  apply (yields_and _ _ true true); apply yields_op, G.
Qed.
Lemma visible_spec_yields s : yields (visible_spec s) true.
Proof. apply (yields_and _ _ true true); apply yields_op, G. Qed.

Lemma resolve_defined term name :
  Namespace.resolve_spec_term ns term = Some (TDef name) → defined name = true.
Proof.
  unfold Namespace.resolve_spec_term. destruct (specs ns !! term); [done|].
  destruct (has_type ns (bare_name term)) eqn:H1'; [by intros [= <-]; rewrite <-has_type_defined|].
  destruct (has_type ns (to_lowercase (bare_name term))) eqn:H2'; [by intros [= <-]; rewrite <-has_type_defined|].
  destruct (ConjunctIndex.resolve_normalized _ _) as [c|] eqn:Hc; [|done]. intros [= <-].
  apply ConjunctIndex.resolve_normalized_spec in Hc as ((ps & Hps) & _);
    [|apply (ex_indexed _ (pl_tight _ Hplain))].
  by apply (parts_spec c ps) in Hps as (? & _).
Qed.

Lemma available_yields term :
  yields (catalog_term_available (Some ns) term)
    (bool_decide (is_Some (Namespace.resolve_spec_term ns term))).
Proof.
  unfold catalog_term_available. charge. charge.
  destruct (Namespace.resolve_spec_term ns term) as [[s|name]|] eqn:Hr; simpl.
  - apply visible_spec_yields.
  - pose proof (visible_def_yields name) as Hv. by rewrite (resolve_defined term name Hr) in Hv.
  - apply yields_ret.
Qed.

(** ** Membership *)

Context (fuel : nat).

Lemma push_parents_yields todo is_ : yields (push_parents todo is_) (rev is_ ++ todo).
Proof.
  unfold push_parents. revert todo. induction is_ as [|p is_ IH]; intros todo; simpl; [apply yields_ret|].
  rewrite <-app_assoc. eapply yields_bind; [charge; charge; apply yields_ret|]. apply IH.
Qed.

Lemma frontier_mono m queue queue' visited :
  (∀ q, q ∈ queue → q ∈ queue') → frontier m queue visited → frontier m queue' visited.
Proof. intros Hq Hf a b Ha Hab. destruct (Hf a b Ha Hab); auto. Qed.

(** The walk up finds the wanted type exactly when it is reachable. *)
Lemma climb_yields n wanted todo seen :
  length todo + pending is_map seen ≤ n → defined wanted = true → wanted ∉ seen →
  frontier is_map todo seen →
  ∃ b, yields (climb n ns wanted todo seen) b ∧
       (b = true ↔ ∃ q, q ∈ todo ∧ rtc (edge is_map) q wanted).
Proof.
  intros Hn Hw. revert todo seen Hn. induction n as [|n IH]; intros [|c todo] seen Hn Hws Hf; simpl in *.
  1,3: exists false; split; [apply yields_ret|]; split; [done|by intros (q & ?%elem_of_nil & _)].
  { lia. }
  setoid_rewrite elem_of_cons. destruct (decide (c ∈ seen)) as [Hc|Hc].
  { apply frontier_skip in Hf; [|done]. destruct (IH todo seen) as (b & Hb & Hbi); [lia|done..|].
    exists b. split; [by charge|]. rewrite Hbi. split; [naive_solver|].
    intros (q & [->|Hq] & Hr); [|eauto]. by destruct (frontier_reach _ _ _ _ _ Hf Hc Hr). }
  pose proof (pending_visit is_map seen c Hc) as Hpay. apply frontier_visit in Hf.
  assert (Hgo : ∀ todo', (∀ q, q ∈ todo ++ targets is_map c ↔ q ∈ todo') →
    length todo' = length todo + length (targets is_map c) → c ≠ wanted →
    ∃ b, yields (climb n ns wanted todo' ({[c]} ∪ seen)) b ∧
      (b = true ↔ ∃ q, (q = c ∨ q ∈ todo) ∧ rtc (edge is_map) q wanted)).
  { intros todo' Hin Hlen Hne. destruct (IH todo' ({[c]} ∪ seen)) as (b & Hb & Hbi);
      [lia|set_solver|eapply frontier_mono; [|done]; intros; by apply Hin|].
    exists b. split; [done|]. rewrite Hbi. setoid_rewrite <-Hin. setoid_rewrite elem_of_app. split.
    - intros (q & [Hq|Hq] & Hr); [eauto|]. exists c. split; [by left|]. by eapply rtc_l.
    - intros (q & [->|Hq] & Hr); [|eauto]. apply rtc_inv in Hr as [?|(z & Hz & Hr)]; [done|eauto]. }
  pose proof (visible_def_yields c) as Hvis. unfold get_def. destruct (defs ns !! c) as [d|] eqn:Hd.
  - assert (Ht : targets is_map c = def_is d) by (unfold targets, is_map; by rewrite lookup_fmap, Hd).
    destruct (decide (c = wanted)) as [->|Hne].
    + exists true. split; [|split; [intros _; exists wanted; split; [by left|apply rtc_refl]|done]].
      charge. charge. eapply yields_bind; [exact Hvis|]. apply yields_ret.
    + destruct (Hgo (rev (def_is d) ++ todo)) as (b & Hb & Hbi); [| |done|].
      { intros q. rewrite Ht, !elem_of_app, (list_elem_of_In (rev _)), <-in_rev, <-list_elem_of_In. tauto. }
      { rewrite length_app, length_rev, Ht. lia. }
      exists b. split; [|done]. charge. charge. eapply yields_bind; [exact Hvis|]. simpl.
      eapply yields_bind; [apply push_parents_yields|done].
  - assert (Ht : targets is_map c = []) by (unfold targets, is_map; by rewrite lookup_fmap, Hd).
    destruct (Hgo todo) as (b & Hb & Hbi); [by rewrite Ht, app_nil_r|rewrite Ht; simpl; lia| |].
    { intros ->. rewrite Hd in Hw. done. }
    exists b. split; [|done]. charge. charge. eapply yields_bind; [exact Hvis|]. done.
Qed.

(** Enough for the walk up from any tag. *)
Context (Hfuel : S (pending is_map ∅) ≤ fuel).

Lemma climb_from_tag wanted tag :
  defined wanted = true → yields (climb fuel ns wanted [tag] ∅) (is_a ns tag wanted).
Proof.
  intros Hw. destruct (climb_yields fuel wanted [tag] ∅) as (b & Hb & Hbi);
    [simpl; lia|done|set_solver|apply frontier_empty|].
  assert (Heq : is_a ns tag wanted = b); [|by rewrite Heq].
  apply eq_true_iff_eq. rewrite Hbi, is_a_reach. split.
  - intros Hr. exists tag. split; [left|done].
  - by intros (q & ->%list_elem_of_singleton & Hr).
Qed.

Lemma any_marker_yields wanted tags :
  defined wanted = true →
  yields (any_marker fuel ns wanted tags)
    (existsb (λ tag, is_a ns tag wanted)
       (omap (λ kv : string * Kind, match kv.2 with KMarker => Some kv.1 | _ => None end) tags)).
Proof.
  intros Hw. induction tags as [|[tag v] tags IH]; simpl; [apply yields_ret|]. charge.
  destruct v; try exact IH. charge. apply (yields_or _ _ _ _ (climb_from_tag wanted tag Hw) IH).
Qed.

(** One level of membership, for a type that is no conjunct. *)
Lemma member_simple n entity name depth :
  conjunct_parts ns name = None →
  yields (member_of fuel (S n) entity name ns depth)
    (if has_type ns name then existsb (λ tag, is_a ns tag name) (marker_tags entity) else false).
Proof.
  intros Hc. simpl. charge. eapply yields_bind; [apply visible_def_yields|].
  rewrite has_type_defined. destruct (defined name) eqn:Hd; simpl; [|apply yields_ret].
  rewrite Hc. by apply any_marker_yields.
Qed.

Lemma member_of_yields n entity name depth :
  yields (member_of fuel (S (S n)) entity name ns depth) (member MAX_CONJUNCT_DEPTH entity name ns).
Proof.
  destruct (conjunct_parts ns name) as [ps|] eqn:Hc.
  - remember (S n) as n'. simpl. charge. eapply yields_bind; [apply visible_def_yields|].
    rewrite has_type_defined. destruct (defined name) eqn:Hd; [|apply yields_ret]. cbn [negb].
    rewrite Hc. destruct (decide (ps = [])) as [->|Hne]; [apply yields_ret|].
    rewrite bool_decide_false by done. cbn [negb andb]. apply yields_all. intros p Hp. charge.
    subst n'. pose proof (parts_flat _ _ _ Hc Hp) as Hpc. rewrite Hpc. by apply member_simple.
  - pose proof (member_simple (S n) entity name depth Hc) as Hm.
    unfold MAX_CONJUNCT_DEPTH. cbn [member]. by rewrite Hc.
Qed.

(** ** Value constraints *)

(** The patterns a namespace's slots use are within the limits of the
    environment, or those limits stop the evaluation. *)
Definition pattern_granted (slot : Slot) : Prop :=
  ∀ pattern, Fitting.str_meta slot "pattern" = Some pattern →
    (∀ env, Pm env → env_regex_size_limit env ≤ DEFAULT_REGEX_LIMIT)%N ∧
    ((∀ env, Pm env → (str_len pattern ≤ env_regex_source_limit env)%N ∧
        ∀ n, regex_with_limit (env_regex_size_limit env) pattern ≠ Err (RegexTooBig n)) ∨
     (∀ env, Pm env → Stops (env_regex_limit_error env))).

Definition bound_ok (slot : Slot) (key : string) (lower : bool) (x : F64.f64) : bool :=
  match Fitting.num_meta slot key with
  | Some b => if lower then negb (F64.float_lt x b) else negb (F64.float_gt x b)
  | None => true
  end.

Lemma bounds_yields slot lo hi x :
  yields (bounds slot lo hi x) (bound_ok slot lo true x && bound_ok slot hi false x).
Proof.
  unfold bounds. rewrite <-(andb_true_r (bound_ok slot hi false x)).
  apply (yields_all _ (λ kl, bound_ok slot kl.1 kl.2 x) [(lo, true); (hi, false)]).
  intros [key lower] _. charge. simpl. unfold bound_ok, Fitting.num_meta.
  destruct (slot_meta slot !! key) as [[]|]; apply yields_ret.
Qed.

Lemma asks_yields {A B} (f : Env → A) (k : A → C B) b :
  (∀ env, Pm env → yields (k (f env)) b) → yields (asks f ≫= k) b.
Proof. intros Hk env Hp. unfold mbind, C_bind, asks. by apply Hk. Qed.

Lemma pattern_yields slot text pattern :
  pattern_granted slot → Fitting.str_meta slot "pattern" = Some pattern →
  yields (pattern_constraint text pattern)
    (match regex_new pattern with Ok re => regex_is_match re text | Err _ => false end).
Proof.
  intros Hg Hp. destruct (Hg pattern Hp) as [Hlim Hrest]. unfold pattern_constraint. charge.
  eapply (yields_bind _ _ ()).
  { unfold reserve_regex_construction. apply asks_yields. intros env Henv. case_decide as Hlen.
    { apply yields_stop. destruct Hrest as [Hin|]; [|done]. destruct (Hin env Henv). lia. }
    charge. apply asks_yields. intros env' _. apply yields_retain. }
  apply asks_yields. intros env1 _. charge. apply asks_yields. intros env Henv.
  destruct (regex_with_limit _ pattern) as [re|[m|n]] eqn:Hre.
  - apply regex_limit_match in Hre as (re' & -> & Hm); [|by apply Hlim]. rewrite Hm. apply yields_ret.
  - apply regex_limit_syntax in Hre as (m' & ->). apply yields_ret.
  - apply yields_stop. destruct Hrest as [Hin|]; [|done]. by destruct (proj2 (Hin env Henv) n).
Qed.

Definition value_issues (s : Slot) (v : Kind) : list FitIssue :=
  match v with
  | KNumber num => Fitting.number_issues s num
  | KStr text => Fitting.string_issues s text
  | KList items => Fitting.size_issues s "list length " (Prelude.len items)
  | _ => []
  end.

Lemma size_issues_nil s what n :
  is_nil (Fitting.size_issues s what n) =
  bound_ok s "minSize" true (F64.of_usize n) && bound_ok s "maxSize" false (F64.of_usize n).
Proof.
  unfold Fitting.size_issues, bound_ok. rewrite is_nil_app. f_equal.
  - destruct (Fitting.num_meta s "minSize"); [|done]. by destruct (F64.float_lt _ _).
  - destruct (Fitting.num_meta s "maxSize"); [|done]. by destruct (F64.float_gt _ _).
Qed.

Lemma number_issues_nil s num :
  is_nil (Fitting.number_issues s num) =
  (bound_ok s "minVal" true (num_val num) && bound_ok s "maxVal" false (num_val num)) &&
  (if Fitting.has_meta s "unitless" && bool_decide (is_Some (num_unit num)) then false
   else match Fitting.str_meta s "unit" with
   | Some unit => bool_decide (num_unit num = Some unit)
   | None => true
   end).
Proof.
  unfold Fitting.number_issues, bound_ok. rewrite !is_nil_app.
  destruct (Fitting.num_meta s "minVal") as [lo|]; [destruct (F64.float_lt _ lo)|]; simpl; try done;
  destruct (Fitting.num_meta s "maxVal") as [hi|]; [destruct (F64.float_gt _ hi)| |destruct (F64.float_gt _ hi)|];
    simpl; try done;
  destruct (num_unit num) as [u|]; destruct (Fitting.has_meta s "unitless"); simpl; try done;
  destruct (Fitting.str_meta s "unit") as [e|]; simpl; try done; case_decide; case_bool_decide; naive_solver.
Qed.

Lemma constraints_yields slot v :
  pattern_granted slot → yields (constraints v slot) (is_nil (value_issues slot v)).
Proof.
  intros Hg. destruct v; try apply yields_ret; unfold constraints, value_issues.
  - rewrite number_issues_nil. apply yields_and; [apply bounds_yields|].
    destruct (_ && _); [apply yields_ret|]. unfold Fitting.str_meta.
    destruct (slot_meta slot !! "unit") as [[]|]; try apply yields_ret. charge. apply yields_ret.
  - unfold Fitting.string_issues. rewrite is_nil_app, size_issues_nil.
    apply yields_and; [apply bounds_yields|]. unfold text_constraints. charge. rewrite is_nil_app.
    destruct (_ && _); [apply yields_ret|]. simpl. unfold Fitting.pattern_issues.
    pose proof (pattern_yields slot v) as Hpat. unfold Fitting.str_meta in *.
    destruct (slot_meta slot !! "pattern") as [k|] eqn:Hk; [|apply yields_ret].
    destruct k; try apply yields_ret. specialize (Hpat v0 Hg eq_refl).
    destruct (regex_new v0) as [re|]; [|exact Hpat]. by destruct (regex_is_match re v).
  - rewrite size_issues_nil. apply bounds_yields.
Qed.

(** ** Inherited markers *)

Definition markers_ok (entity : HDict) (s : Spec) : bool :=
  forallb (λ slot, negb (slot_is_marker slot && negb (is_maybe slot)
                         && HDict.missing entity (slot_name slot))) (spec_slots s).

Lemma markers_ok_true entity s :
  markers_ok entity s = true ↔
  ∀ m, m ∈ Spec.mandatory_markers s → HDict.missing entity m = false.
Proof.
  unfold markers_ok, Spec.mandatory_markers. rewrite forallb_forall. setoid_rewrite list_elem_of_fmap.
  setoid_rewrite list_elem_of_In. setoid_rewrite filter_In. split.
  - intros Hall m (slot & -> & Hin & Hm). specialize (Hall slot Hin). rewrite Hm in Hall.
    by apply negb_true_iff in Hall.
  - intros Hall slot Hin. destruct (slot_is_marker slot && negb (is_maybe slot)) eqn:Hm; [|done].
    simpl. apply negb_true_iff. apply Hall. eauto.
Qed.

(** The base of a spec in this namespace. *)
Lemma base_step_get a b :
  base_step (specs ns) a b ↔ spec_base a ≫= get_spec ns = Some b.
Proof. unfold base_step, get_spec. destruct (spec_base a); simpl; naive_solver. Qed.

(** The loop has checked the specs seen, and stands at their next base. *)
Definition checked (entity : HDict) (seen : gset string) (base : option Spec) : Prop :=
  ∀ v s, v ∈ seen → specs ns !! v = Some s →
    markers_ok entity s = true ∧
    ∀ b, base_step (specs ns) s b → spec_qname b ∈ seen ∨ base = Some b.

Lemma checked_closed entity seen b a :
  checked entity seen (Some b) → specs ns !! spec_qname b = Some b → spec_qname b ∈ seen →
  rtc (base_step (specs ns)) b a → markers_ok entity a = true.
Proof.
  intros Hc Hb Hin Hr. assert (Hv : ∃ v, v ∈ seen ∧ specs ns !! v = Some b) by eauto.
  revert Hv. clear Hb. assert (Hseen : spec_qname b ∈ seen) by done. remember b as b0 eqn:Hb0 in Hc, Hseen.
  clear Hb0 Hin. induction Hr as [s|s z a Hz _ IH]; intros (v & Hv & Hs).
  - by destruct (Hc v s Hv Hs).
  - apply IH. destruct (Hc v s Hv Hs) as [_ Hnext]. exists (spec_qname z).
    destruct Hz as (k & Hk & Hz). destruct (pl_specs _ Hplain k z Hz) as [Hq _].
    split; [|by rewrite Hq]. destruct (Hnext z) as [|[= ->]]; [by exists k|done|done].
Qed.

Lemma base_markers_yields n entity base seen :
  (∀ b, base = Some b → specs ns !! spec_qname b = Some b) →
  size (keys_left (specs ns) seen) < n → checked entity seen base →
  ∃ r, yields (base_markers n entity ns base seen) r ∧
    (r = true ↔ ∀ b a, base = Some b → rtc (base_step (specs ns)) b a → markers_ok entity a = true).
Proof.
  revert base seen. induction n as [|n IH]; intros base seen Hb Hn Hc; [lia|].
  destruct base as [b|]; simpl; [|exists true; split; [apply yields_ret|done]].
  specialize (Hb b eq_refl). destruct (decide (spec_qname b ∈ seen)) as [Hin|Hin].
  { exists true. split; [charge; apply yields_ret|]. split; [|done]. intros _ b' a [= <-] Hr.
    by eapply checked_closed. }
  assert (Hm : yields (all_c (λ slot, work 1;;
      mret (negb (slot_is_marker slot && negb (is_maybe slot) && HDict.missing entity (slot_name slot))))
    (spec_slots b)) (markers_ok entity b)).
  { apply yields_all. intros slot _. charge. apply yields_ret. }
  destruct (markers_ok entity b) eqn:Hmb.
  - destruct (IH (spec_base b ≫= get_spec ns) ({[spec_qname b]} ∪ seen)) as (r & Hr & Hri).
    + intros b' Hb'. apply base_step_get in Hb' as (k & _ & Hk).
      by destruct (pl_specs _ Hplain k b' Hk) as [-> _].
    + pose proof (keys_left_shrinks (specs ns) seen _ _ Hb Hin). lia.
    + intros v s [->%elem_of_singleton|Hv]%elem_of_union Hs; simplify_eq.
      * split; [done|]. intros b' Hb'%base_step_get. by right.
      * destruct (Hc v s Hv Hs) as [Hms Hnext]. split; [done|]. intros b' Hb'.
        destruct (Hnext b' Hb') as [|[= ->]]; left; set_solver.
    + exists r. split.
      * charge. charge. eapply yields_bind; [apply visible_spec_yields|]. simpl.
        by apply (yields_and _ _ true r).
      * rewrite Hri. split.
        -- intros Hall b' a [= <-] Hra. apply rtc_inv in Hra as [->|(z & Hz & Hra)]; [done|].
           apply (Hall z a); [by apply base_step_get|done].
        -- intros Hall b' a Hb' Hra. apply (Hall b a); [done|]. eapply rtc_l; [|done].
           by apply base_step_get.
  - exists false. split.
    + charge. charge. eapply yields_bind; [apply visible_spec_yields|]. simpl.
      eapply yields_bind; [exact Hm|]. apply yields_ret.
    + split; [done|]. intros Hall. rewrite <-Hmb. apply (Hall b b); [done|apply rtc_refl].
Qed.

Lemma markers_nil entity spec :
  is_nil (Fitting.check_mandatory_markers entity spec (specs ns)) = true ↔
  ∀ a, rtc (base_step (specs ns)) spec a → markers_ok entity a = true.
Proof.
  unfold Fitting.check_mandatory_markers. rewrite is_nil_fmap, is_nil_filter, forallb_forall.
  setoid_rewrite markers_ok_true. setoid_rewrite <-list_elem_of_In.
  setoid_rewrite elem_of_hash_elems. setoid_rewrite elem_of_all_mandatory. setoid_rewrite negb_true_iff.
  naive_solver.
Qed.

(** ** Query slots *)

Section traversal.
Context (fits_reached : HDict → string → N → C bool) (enclosing : Spec) (slot : Slot) (depth : N).
Context (okf : HDict → bool).
Context (Hok : ∀ e, yields (of_matches fits_reached ns enclosing slot depth e) (okf e)).
Context (tag : string) (inverse : bool).

Definition succ (k : string) : list HDict :=
  if inverse then reverse (from_val k) tag else option_list (ctx_forward ctx (from_val k)).
Definition cont (e : HDict) : option string := ref_val <$> continuation tag inverse e.
Abbreviation ids ks := (from_val <$> ks).

(** A bound on the references still to be followed. *)
Context (left : gset string → nat).
Context (Hleft : ∀ seen k, k ∉ seen → left ({[k]} ∪ seen) + length (succ k) ≤ left seen).

Definition push_conts (seen : gset string) (ks : list string) (reached : list HDict) : list string :=
  foldl (λ ks e, match cont e with
                 | Some k => if decide (k ∈ seen) then ks else k :: ks
                 | None => ks
                 end) ks reached.

Lemma length_push_conts seen ks reached :
  length (push_conts seen ks reached) ≤ length ks + length reached.
Proof.
  unfold push_conts. revert ks. induction reached as [|e l IH]; intros ks; simpl; [lia|].
  etrans; [apply IH|]. destruct (cont e); [case_decide|]; simpl; lia.
Qed.

Lemma elem_of_push_conts seen ks reached j :
  j ∈ push_conts seen ks reached ↔
  j ∈ ks ∨ ∃ e, e ∈ reached ∧ cont e = Some j ∧ j ∉ seen.
Proof.
  unfold push_conts. revert ks. induction reached as [|e l IH]; intros ks; cbn [foldl].
  { split; [by left|]. intros [?|(e & ?%elem_of_nil & _)]; done. }
  rewrite IH. setoid_rewrite elem_of_cons.
  destruct (cont e) as [k|] eqn:Hk; [case_decide|]; rewrite ?elem_of_cons; naive_solver.
Qed.

Lemma visit_reached_yields seen ks m reached :
  yields (fold_c (visit_reached fits_reached ns enclosing slot depth tag true inverse seen)
            (ids ks, m) reached)
    (ids (push_conts seen ks reached), m || existsb okf reached).
Proof.
  revert ks m. induction reached as [|e l IH]; intros ks m; simpl.
  { rewrite orb_false_r. apply yields_ret. }
  rewrite orb_assoc. eapply yields_bind; [|apply IH].
  unfold visit_reached. charge. eapply yields_bind; [apply Hok|]. cbn [fst snd]. unfold cont.
  destruct (continuation tag inverse e) as [r|]; simpl; [|apply yields_ret].
  destruct (decide (ref_val r ∈ seen)); [apply yields_ret|]. charge. apply yields_ret.
Qed.

Lemma visit_once_yields seen ks m reached :
  yields (fold_c (visit_reached fits_reached ns enclosing slot depth tag false inverse seen)
            (ids ks, m) reached) (ids ks, m || existsb okf reached).
Proof.
  revert ks m. induction reached as [|e l IH]; intros ks m; simpl.
  { rewrite orb_false_r. apply yields_ret. }
  rewrite orb_assoc. eapply yields_bind; [|apply IH].
  unfold visit_reached. charge. eapply yields_bind; [apply Hok|]. apply yields_ret.
Qed.

Lemma reached_yields k :
  yields (if inverse then op (env_inverse (from_val k) tag)
          else e ← op (env_forward (from_val k));
               match e with Some e => retain 32;; mret [e] | None => mret [] end) (succ k).
Proof.
  unfold succ. destruct inverse.
  - apply yields_op, G.
  - eapply yields_bind; [apply yields_op, G|].
    destruct (ctx_forward ctx (from_val k)); [charge|]; apply yields_ret.
Qed.

(** The transitive traversal reports a match exactly when one is reachable. *)
Lemma traverse_yields n ks seen m :
  length ks + left seen ≤ n → covered succ cont ks seen →
  (∀ x, came_from succ seen x → okf x = true → m = true) →
  ∃ b, yields (traverse fits_reached ns enclosing slot depth n tag true inverse (ids ks) seen m) b ∧
    (b = true ↔ m = true ∨ ∃ x, led_to succ cont ks x ∧ okf x = true).
Proof.
  revert ks seen m. induction n as [|n IH]; intros [|k ks] seen m Hn Hc Hm; simpl in *.
  1,3: exists m; split; [apply yields_ret|]; split; [by left|];
    intros [?|(x & (k & y & ?%elem_of_nil & _) & _)]; done.
  { lia. }
  destruct (decide (k ∈ seen)) as [Hk|Hk].
  { destruct (IH ks seen m) as (b & Hb & Hbi); [lia|by eapply covered_skip|done|].
    exists b. split; [by charge|]. rewrite Hbi. split.
    - intros [?|(x & (j & y & Hj & Hy) & Hx)]; [by left|right]. exists x. split; [|done].
      exists j, y. split; [by right|done].
    - intros [?|(x & Hl & Hx)]; [by left|].
      destruct (led_to_skip _ _ _ _ _ _ Hk Hc Hl) as [Hf|?]; [left; by eapply Hm|right; eauto]. }
  set (ks' := push_conts ({[k]} ∪ seen) ks (succ k)).
  assert (Hsub : ∀ j, j ∈ ks → j ∈ ks') by (intros; apply elem_of_push_conts; by left).
  assert (Hc' : covered succ cont ks' ({[k]} ∪ seen)).
  { eapply covered_visit; [exact Hsub| |exact Hc]. intros y j Hy Hj.
    destruct (decide (j ∈ {[k]} ∪ seen)); [by left|right]. apply elem_of_push_conts. eauto 10. }
  assert (Hvisit : ∀ x, led_to succ cont (k :: ks) x ∨ came_from succ seen x ↔
    x ∈ succ k ∨ came_from succ seen x ∨ led_to succ cont ks' x).
  { intros x. apply led_to_visit; [|done|done]. intros j [?|(e & ? & ? & _)]%elem_of_push_conts; eauto. }
  destruct (IH ks' ({[k]} ∪ seen) (m || existsb okf (succ k))) as (b & Hb & Hbi).
  - pose proof (length_push_conts ({[k]} ∪ seen) ks (succ k)). pose proof (Hleft seen k Hk).
    subst ks'. lia.
  - done.
  - intros x (v & [->%elem_of_singleton|Hv]%elem_of_union & Hx) Hox; apply orb_true_iff.
    + right. apply existsb_exists. exists x. split; [by apply list_elem_of_In|done].
    + left. eapply Hm; [by exists v|done].
  - exists b. split.
    + charge. charge. eapply yields_bind; [apply reached_yields|].
      eapply yields_bind; [apply visit_reached_yields|exact Hb].
    + rewrite Hbi, orb_true_iff, existsb_exists. setoid_rewrite <-list_elem_of_In. split.
      * intros [[?|(x & Hx & Hox)]|(x & Hl & Hox)]; [by left|right|].
        -- exists x. split; [|done]. exists k, x. split_and!; [left|done|apply rtc_refl].
        -- destruct (proj2 (Hvisit x)) as [?|Hf]; [by right; right|right; eauto|left; by eapply Hm].
      * intros [?|(x & Hl & Hox)]; [by left; left|].
        destruct (proj1 (Hvisit x) (or_introl Hl)) as [Hx|[Hf|Hl']]; [eauto|left; left; by eapply Hm|eauto].
Qed.

(** The traversal that stops after the first reference. *)
Lemma traverse_once_yields n ks :
  length ks ≤ 1 → length ks ≤ n →
  yields (traverse fits_reached ns enclosing slot depth n tag false inverse (ids ks) ∅ false)
    (existsb okf (concat (succ <$> ks))).
Proof.
  destruct ks as [|k [|]]; simpl; [intros; destruct n; apply yields_ret| |lia]. intros _ Hn.
  destruct n as [|n]; [lia|]. simpl. rewrite app_nil_r. charge.
  rewrite decide_False by apply not_elem_of_empty. charge.
  eapply yields_bind; [apply reached_yields|].
  eapply yields_bind; [apply (visit_once_yields _ [])|]. apply yields_ret.
Qed.
End traversal.

(** The store the environment answers from. *)
Context (store : gmap string HDict).
Context (Hforward : ∀ r, ctx_forward ctx r = store !! ref_val r).
Context (Hreverse : ∀ tag i, reverse i tag ≡ₚ
  (map_to_list (filter (λ kv, target_of tag kv.2 = Some (ref_val i)) store)).*2).
Context (Hinverse : ctx_inverse ctx = Some reverse).
Context (Hctx : size store < ctx_fuel ctx) (Hstore : size store < fuel).

(** What bounds a traversal of the store. *)
Definition store_left (tag : string) (inverse : bool) (seen : gset string) : nat :=
  if inverse then size (sources_left store tag seen) else size (entries_left store seen).

Lemma store_left_visit tag inverse seen k :
  k ∉ seen → store_left tag inverse ({[k]} ∪ seen) + length (succ tag inverse k) ≤
             store_left tag inverse seen.
Proof using Hforward Hreverse.
  clear -Hforward Hreverse. intros Hk. unfold store_left, succ. destruct inverse.
  - pose proof (sources_left_visit store reverse tag (Hreverse tag) seen (from_val k) Hk) as Hsz.
    cbn [ref_val from_val] in Hsz. lia.
  - rewrite Hforward. cbn [ref_val from_val]. destruct (store !! k) as [e|] eqn:He; simpl.
    + rewrite (entries_left_visit store seen k e) by done. lia.
    + assert (size (entries_left store ({[k]} ∪ seen)) ≤ size (entries_left store seen)); [|lia].
      apply map_subseteq_size, map_subseteq_spec. intros i y [Hi Hy]%map_lookup_filter_Some.
      apply map_lookup_filter_Some. set_solver.
Qed.

Lemma store_left_start tag inverse : store_left tag inverse ∅ ≤ size store.
Proof. unfold store_left. destruct inverse; apply map_size_filter. Qed.

(** The entities the plain evaluation reaches. *)
Definition found (entity : HDict) (tag : string) (transitive inverse : bool) : list HDict :=
  if inverse then Fitting.traverse_refs_inverse (ctx_fuel ctx) entity tag transitive reverse
  else Fitting.traverse_refs (ctx_fuel ctx) entity tag transitive (ctx_forward ctx).

Lemma elem_of_succ tag inverse k x :
  x ∈ succ tag inverse k ↔
  if inverse then source store tag k x else store !! k = Some x.
Proof.
  unfold succ. destruct inverse; [by rewrite (elem_of_reverse store reverse tag (Hreverse tag))|].
  rewrite Hforward. cbn [ref_val from_val]. destruct (store !! k); simpl.
  - rewrite list_elem_of_singleton. naive_solver.
  - rewrite elem_of_nil. naive_solver.
Qed.

Lemma onward_step tag inverse y x :
  onward (succ tag inverse) (cont tag inverse) y x ↔
  if inverse then pointed_by store tag y x else points store tag y x.
Proof.
  unfold onward, cont, continuation. setoid_rewrite elem_of_succ. unfold HDict.id, HDict.get.
  destruct inverse; unfold pointed_by, points.
  - destruct (y !! "id") as [v|]; [destruct v|]; simpl; naive_solver.
  - destruct (y !! tag) as [v|]; [destruct v|]; simpl; naive_solver.
Qed.

(** Where a traversal starts. *)
Definition starts (tag : string) (inverse : bool) (entity : HDict) : list string :=
  option_list (cont tag inverse entity).

Lemma elem_of_found entity tag transitive inverse x :
  x ∈ found entity tag transitive inverse ↔
  if transitive then led_to (succ tag inverse) (cont tag inverse) (starts tag inverse entity) x
  else x ∈ concat (succ tag inverse <$> starts tag inverse entity).
Proof.
  set (R := onward (succ tag inverse) (cont tag inverse)).
  assert (Hfound : x ∈ found entity tag transitive inverse ↔
    if transitive then tc R entity x else R entity x).
  { unfold found. destruct inverse.
    - rewrite (elem_of_traverse_refs_inverse store reverse tag (Hreverse tag)) by done.
      destruct transitive; [apply tc_iff; intros a b|]; by rewrite <-(onward_step tag true).
    - rewrite (elem_of_traverse_refs store (ctx_forward ctx) tag Hforward) by done.
      destruct transitive; [apply tc_iff; intros a b|]; by rewrite <-(onward_step tag false). }
  rewrite Hfound. unfold starts, led_to, R, onward. destruct (cont tag inverse entity) as [k|] eqn:Hk.
  - destruct transitive; simpl.
    + split.
      * intros Htc. inversion Htc as [? ? (j & Hj & Hx)|? y ? (j & Hj & Hy) Htc']; simplify_eq.
        -- exists k, x. split_and!; [left|done|apply rtc_refl].
        -- exists k, y. split_and!; [left|done|by apply tc_rtc].
      * intros (j & y & ->%list_elem_of_singleton & Hy & Hr). eapply tc_rtc_r; [|done].
        apply tc_once. by exists k.
    + rewrite app_nil_r. naive_solver.
  - destruct transitive; simpl; rewrite ?elem_of_nil; split; try done.
    + intros Htc. inversion Htc as [? ? (j & Hj & _)|? y ? (j & Hj & _) _]; congruence.
    + by intros (j & y & ?%elem_of_nil & _).
    + intros (j & Hj & _). congruence.
Qed.

Lemma find_query_slot_yields name slots :
  yields (find_query_slot name slots)
    (match List.find (λ c, bool_decide (slot_name c = name) && slot_is_query c) slots with
     | Some c => Fitting.str_meta c "via"
     | None => None
     end).
Proof.
  induction slots as [|c slots IH]; simpl; [apply yields_ret|]. charge.
  destruct (_ && _); [apply yields_ret|exact IH].
Qed.

(** With distinct slot names, the first query slot of a name is the first
    slot of that name. *)
Lemma find_named name slots :
  NoDup (slot_name <$> slots) →
  List.find (λ c, bool_decide (slot_name c = name) && slot_is_query c) slots =
  match List.find (λ c, bool_decide (slot_name c = name)) slots with
  | Some c => if slot_is_query c then Some c else None
  | None => None
  end.
Proof.
  induction slots as [|c slots IH]; simpl; [done|]. intros [Hc Hnd]%NoDup_cons.
  destruct (bool_decide (slot_name c = name)) eqn:Hn; simpl; [|by apply IH].
  apply bool_decide_eq_true in Hn. destruct (slot_is_query c); [done|]. specialize (IH Hnd).
  destruct (List.find (λ c, bool_decide (slot_name c = name)) slots) as [c'|] eqn:Hf; [|exact IH].
  apply find_some in Hf as [Hin Hn']. apply bool_decide_eq_true in Hn'. exfalso. apply Hc.
  apply list_elem_of_fmap. exists c'. split; [congruence|by apply list_elem_of_In].
Qed.

Definition plan_of (slot : Slot) : Plan :=
  match Fitting.str_meta slot "via", Fitting.str_meta slot "inverse" with
  | Some via, _ => let '(tag, transitive) := Fitting.split_via via in Follow tag transitive false
  | None, Some inv =>
      match Fitting.resolve_inverse_via inv (specs ns) with
      | Some (tag, transitive) => Follow tag transitive true
      | None => Refused
      end
  | None, None => NoPlan
  end.

Lemma plan_query_yields slot : yields (plan_query ns slot) (plan_of slot).
Proof.
  unfold plan_query, plan_of. destruct (Fitting.str_meta slot "via") as [via|].
  { destruct (Fitting.split_via via). apply yields_ret. }
  destruct (Fitting.str_meta slot "inverse") as [inv|]; [|apply yields_ret].
  unfold Fitting.resolve_inverse_via. destruct (rsplit_once "." inv) as [[name sn]|]; simpl; [|apply yields_ret].
  unfold get_spec. destruct (specs ns !! name) as [sp|] eqn:Hs; simpl; [|apply yields_ret].
  eapply yields_bind; [apply visible_spec_yields|]. simpl.
  eapply yields_bind; [apply find_query_slot_yields|].
  rewrite find_named by (by eapply pl_specs). destruct (List.find _ _) as [c|]; simpl; [|apply yields_ret].
  destruct (slot_is_query c); [|apply yields_ret].
  destruct (Fitting.str_meta c "via") as [via|]; simpl; [|apply yields_ret].
  destruct (Fitting.split_via via). apply yields_ret.
Qed.

(** What counts as reached for a slot. *)
Definition of_ok (enclosing : Spec) (slot : Slot) (e : HDict) : bool :=
  match Fitting.str_meta slot "of" with
  | Some of_type => of_fits e of_type (spec_lib enclosing) (specs ns) ns
  | None => true
  end.

(** The types a query slot asks for are not of the selected catalog. *)
Definition asks_plain (enclosing : Spec) (slot : Slot) : Prop :=
  ∀ o, Fitting.str_meta slot "of" = Some o →
    strict_for ns o = None ∧ strict_for ns (spec_lib enclosing +:+ "::" +:+ o) = None.
Lemma strict_for_None term :
  strict_for ns term = None ↔ ∀ c, selected ns = Some c → declaration c term = None.
Proof.
  unfold strict_for. destruct (selected ns) as [c|]; simpl; [|by split].
  destruct (declaration c term) eqn:Hd; simpl; split; try done.
  - intros Hn. by specialize (Hn c eq_refl); rewrite Hd in Hn.
  - intros _ c' [= <-]. done.
Qed.
Lemma strict_for_Some term c :
  strict_for ns term = Some c → selected ns = Some c ∧ is_Some (declaration c term).
Proof.
  unfold strict_for. destruct (selected ns) as [c'|]; [|done]. simpl.
  destruct (declaration c' term) eqn:Hd; [|done]. intros [= <-]. by rewrite Hd.
Qed.
Lemma spec_asks_plain term spec slot :
  specs ns !! term = Some spec → strict_for ns term = None → slot ∈ spec_slots spec → asks_plain spec slot.
Proof.
  rewrite strict_for_None. intros Hs Hn Hin o Ho. rewrite !strict_for_None. split; intros c Hc;
    by destruct (sc_asks _ _ (pl_catalog _ Hplain c Hc) _ _ _ _ Hs (Hn c Hc) Hin Ho).
Qed.

Section query.
Context (fits_reached : HDict → string → N → C bool).
Context (Hreached : ∀ e term depth, strict_for ns term = None →
  yields (fits_reached e term depth) (term_fits e term ns)).

Section slot.
Context (enclosing : Spec) (slot : Slot) (depth : N) (Hasks : asks_plain enclosing slot).

Lemma of_matches_yields e :
  yields (of_matches fits_reached ns enclosing slot depth e) (of_ok enclosing slot e).
Proof.
  unfold of_matches, of_ok. destruct (Fitting.str_meta slot "of") as [of_type|] eqn:Ho; [|apply yields_ret].
  destruct (Hasks of_type Ho) as [Hn Hl'].
  charge. unfold of_fits, get_spec. destruct (contains_str "::" of_type); simpl; [by apply Hreached|].
  destruct (specs ns !! (spec_lib enclosing +:+ "::" +:+ of_type)) as [local|] eqn:Hl; simpl;
    [|by apply Hreached].
  pose proof (Hreached e (spec_lib enclosing +:+ "::" +:+ of_type) (depth + 1)%N Hl') as Hr.
  unfold term_fits, Namespace.resolve_spec_term in Hr. by rewrite Hl', Hl in Hr.
Qed.

Lemma traverse_found entity tag transitive inverse :
  yields (traverse fits_reached ns enclosing slot depth fuel tag transitive inverse
            (from_val <$> starts tag inverse entity) ∅ false)
    (existsb (of_ok enclosing slot) (found entity tag transitive inverse)).
Proof.
  assert (Hlen : length (starts tag inverse entity) ≤ 1)
    by (unfold starts; destruct (cont tag inverse entity); simpl; lia).
  set (okf := of_ok enclosing slot).
  destruct transitive.
  - destruct (traverse_yields fits_reached enclosing slot depth okf
      of_matches_yields tag inverse (store_left tag inverse)
      (store_left_visit tag inverse) fuel (starts tag inverse entity) ∅ false) as (b & Hb & Hbi).
    + pose proof (store_left_start tag inverse). lia.
    + apply covered_empty.
    + by intros x (k & ?%elem_of_empty & _).
    + assert (Heq : existsb okf (found entity tag true inverse) = b); [|by rewrite Heq].
      apply eq_true_iff_eq. rewrite Hbi, existsb_exists. setoid_rewrite <-list_elem_of_In.
      setoid_rewrite elem_of_found. naive_solver.
  - pose proof (traverse_once_yields fits_reached enclosing slot depth okf
      of_matches_yields tag inverse fuel (starts tag inverse entity) Hlen) as Hy.
    assert (Heq : existsb okf (found entity tag false inverse) =
      existsb okf (concat (succ tag inverse <$> starts tag inverse entity))); [|rewrite Heq; apply Hy; lia].
    apply eq_true_iff_eq. rewrite !existsb_exists. setoid_rewrite <-list_elem_of_In.
    by setoid_rewrite elem_of_found.
Qed.

Lemma query_slot_yields entity :
  slot_is_query slot = true →
  yields (query_slot fuel fits_reached ns enclosing slot depth entity)
    (is_nil (query_issues entity enclosing (specs ns) ctx slot ns)).
Proof.
  intros Hq. unfold query_slot. charge. eapply yields_bind; [apply plan_query_yields|].
  unfold query_issues, plan_of, Fitting.reach. rewrite Hq. cbn [negb].
  assert (Hgo : ∀ tag transitive inverse,
    yields (work (saturating_add (str_len tag) 1);;
      todo ← match continuation tag inverse entity with
             | Some id => retain (saturating_add (str_len (ref_val id)) 96);;
                          mret [from_val (ref_val id)]
             | None => mret []
             end;
      matching ← traverse fits_reached ns enclosing slot depth fuel tag transitive inverse todo ∅ false;
      mret (matching || is_maybe slot))
    (is_nil (if is_nil (counted slot enclosing (specs ns) (found entity tag transitive inverse) ns)
                && negb (is_maybe slot)
             then [Fitting.violation slot "query" (Fitting.unreached_detail slot)] else []))).
  { intros tag transitive inverse. charge. eapply (yields_bind _ _ (from_val <$> starts tag inverse entity)).
    { unfold starts, cont. destruct (continuation tag inverse entity); simpl; [charge|]; apply yields_ret. }
    eapply yields_bind; [apply traverse_found|].
    assert (Hc : is_nil (counted slot enclosing (specs ns) (found entity tag transitive inverse) ns) =
      negb (existsb (of_ok enclosing slot) (found entity tag transitive inverse))).
    { unfold counted, of_ok. destruct (Fitting.str_meta slot "of") as [o|].
      - rewrite is_nil_filter. generalize (found entity tag transitive inverse) as l.
        induction l as [|e l IH]; simpl; [done|]. by rewrite IH, negb_orb.
      - by destruct (found entity tag transitive inverse). }
    rewrite Hc. destruct (existsb _ _), (is_maybe slot); apply yields_ret. }
  destruct (Fitting.str_meta slot "via") as [via|].
  { destruct (Fitting.split_via via) as [tag transitive]. apply (Hgo tag transitive false). }
  destruct (Fitting.str_meta slot "inverse") as [inv|]; [|apply yields_ret].
  destruct (Fitting.resolve_inverse_via inv (specs ns)) as [[tag transitive]|]; [|apply yields_ret].
  rewrite Hinverse. apply (Hgo tag transitive true).
Qed.
End slot.
End query.

(** ** The selected catalog *)

Lemma selected_visible_yields n m c q :
  settled_catalog ns c → is_Some (specs ns !! q) → rooted n c q → n < m →
  yields (selected_visible m c ns (Some q)) true.
Proof.
  intros Hc. revert m q. induction n as [|n IH]; intros [|m] q [sp Hq] Hr Hnm; try lia;
    cbn [selected_visible rooted] in *; charge; unfold get_spec; rewrite Hq;
    (eapply yields_bind; [apply visible_spec_yields|]); cbn [negb].
  - destruct (declaration c q ≫= spec_base); [done|destruct m; apply yields_ret].
  - destruct (declaration c q) as [s|] eqn:Hd; cbn [mbind option_bind] in *; [|destruct m; apply yields_ret].
    destruct (spec_base s) as [b|] eqn:Hb; [|destruct m; apply yields_ret].
    apply IH; [by eapply sc_based|done|lia].
Qed.

(** ** Specs and terms *)

Context (Hpatterns : ∀ q s slot, specs ns !! q = Some s → slot ∈ spec_slots s → pattern_granted slot).
Context (Hspecs : size (specs ns) < fuel) (Htwo : 2 ≤ fuel).

Lemma fits_selected_yields c entity term :
  selected ns = Some c → is_Some (declaration c term) →
  yields (fits_selected fuel entity term c ns) (strict_fits c term entity (Some (ctx_forward ctx))).
Proof.
  intros Hc Hd. pose proof (pl_catalog _ Hplain c Hc) as Hcat. destruct Hd as [s Hd].
  unfold fits_selected. rewrite <-(andb_true_l (strict_fits _ _ _ _)). apply yields_and.
  - eapply selected_visible_yields; [done|by eapply sc_registered|by eapply sc_rooted|done].
  - intros env Hp. destruct (Hstrict c term entity Hc ltac:(eauto) env Hp) as (r & env' & Hr & Hp' & Ha).
    rewrite Hr. eexists _, env'. split; [done|]. split; [done|].
    destruct r as [u|[|x]]; [left; by rewrite Ha|left; by rewrite Ha|right; eauto].
Qed.

Lemma forallb_split {A} (p q r : A → bool) l :
  (∀ a, a ∈ l → p a = q a && r a) → forallb p l = forallb q l && forallb r l.
Proof.
  induction l as [|a l IH]; intros Hp; simpl; [done|].
  rewrite Hp by left. rewrite IH by (intros; apply Hp; by right).
  destruct (q a), (r a), (forallb q l), (forallb r l); done.
Qed.

Lemma slot_type_issue entity slot v :
  HDict.get entity (slot_name slot) = Some v → slot_is_marker slot = false → slot_is_query slot = false →
  is_nil (Fitting.check_slot_type entity slot) =
  negb (negb (is_maybe slot) && negb (slot_type_matches v (slot_type_ref slot))).
Proof.
  intros Hv Hm Hq. unfold Fitting.check_slot_type, slot_type_matches. rewrite Hm, Hq. simpl.
  destruct (is_maybe slot); [done|]. rewrite Hv. destruct (slot_type_ref slot) as [ty|]; [|done].
  by destruct (Fitting.type_ok ty v).
Qed.

(** The check of one slot, in both evaluators. *)
Definition slot_ok (entity : HDict) (Q : Slot → bool) (slot : Slot) : bool :=
  is_nil (Fitting.check_slot_type entity slot) && is_nil (Fitting.check_slot_value entity slot) && Q slot.

Lemma slot_yields (query : Spec → Slot → HDict → N → C bool) entity spec queries depth Q slot :
  pattern_granted slot →
  (slot_is_query slot = true → yields (if queries : bool then query spec slot entity (depth + 1)%N
                                       else mret true) (Q slot)) →
  (slot_is_query slot = false → Q slot = true) →
  yields (work 1;;
    if slot_is_query slot
    then (if queries then query spec slot entity (depth + 1)%N else mret true)
    else if slot_is_marker slot then mret true
    else match HDict.get entity (slot_name slot) with
    | None => mret true
    | Some value =>
        if negb (is_maybe slot) && negb (slot_type_matches value (slot_type_ref slot))
        then mret false else constraints value slot
    end) (slot_ok entity Q slot).
Proof.
  intros Hg HQ HnQ. charge. unfold slot_ok. destruct (slot_is_query slot) eqn:Hq.
  - unfold Fitting.check_slot_type, Fitting.check_slot_value. rewrite Hq, !orb_true_r. simpl. by apply HQ.
  - rewrite HnQ, andb_true_r by done. destruct (slot_is_marker slot) eqn:Hm.
    { unfold Fitting.check_slot_type, Fitting.check_slot_value. rewrite Hm. apply yields_ret. }
    destruct (HDict.get entity (slot_name slot)) as [v|] eqn:Hv.
    + rewrite (slot_type_issue entity slot v) by done.
      destruct (_ && _); simpl; [apply yields_ret|].
      assert (Hval : Fitting.check_slot_value entity slot = value_issues slot v).
      { unfold Fitting.check_slot_value. rewrite Hm, Hq, Hv. by destruct v. }
      rewrite Hval. by apply constraints_yields.
    + unfold Fitting.check_slot_type, Fitting.check_slot_value. rewrite Hm, Hq, Hv. simpl.
      destruct (is_maybe slot), (slot_type_ref slot); apply yields_ret.
Qed.

Lemma fits_spec_yields (query : Spec → Slot → HDict → N → C bool) entity spec queries depth Q :
  specs ns !! spec_qname spec = Some spec →
  (∀ slot, slot ∈ spec_slots spec → slot_is_query slot = true →
     yields (if queries : bool then query spec slot entity (depth + 1)%N else mret true) (Q slot)) →
  (∀ slot, slot_is_query slot = false → Q slot = true) →
  yields (fits_spec fuel query entity spec ns queries depth)
    (is_nil (Fitting.explain_plain entity spec (specs ns)) && forallb Q (spec_slots spec)).
Proof.
  intros Hspec HQ HnQ. unfold fits_spec. charge.
  destruct (base_markers_yields fuel entity (Some spec) ∅) as (r & Hr & Hri).
  { by intros b [= <-]. }
  { pose proof (map_size_filter (λ kv, kv.1 ∉ (∅ : gset string)) (specs ns)) as Hsz.
    unfold keys_left. eapply Nat.le_lt_trans; [exact Hsz|done]. }
  { intros v s Hv. by apply not_elem_of_empty in Hv. }
  assert (Hrn : r = is_nil (Fitting.check_mandatory_markers entity spec (specs ns))).
  { apply eq_true_iff_eq. rewrite Hri, markers_nil. naive_solver. }
  unfold Fitting.explain_plain. rewrite !is_nil_app, <-Hrn, <-andb_assoc.
  apply yields_and; [exact Hr|].
  unfold Fitting.check_slot_types, Fitting.check_value_constraints. rewrite !is_nil_concat.
  rewrite <-andb_assoc. rewrite <-(forallb_split (λ s, is_nil (Fitting.check_slot_value entity s) && Q s)
    (λ s, is_nil (Fitting.check_slot_value entity s)) Q) by done.
  rewrite <-(forallb_split (slot_ok entity Q)) by (intros; unfold slot_ok; by rewrite andb_assoc).
  apply yields_all. intros slot Hslot. apply slot_yields; [by eapply Hpatterns|auto|auto].
Qed.

Lemma spec_keyed term spec :
  specs ns !! term = Some spec → specs ns !! spec_qname spec = Some spec.
Proof. intros Hs. by destruct (pl_specs _ Hplain term spec Hs) as [-> _]. Qed.

Lemma resolve_spec_registered term spec :
  Namespace.resolve_spec_term ns term = Some (TSpec spec) → specs ns !! term = Some spec.
Proof.
  unfold Namespace.resolve_spec_term. destruct (specs ns !! term); [by intros [= ->]|].
  destruct (has_type ns (bare_name term)); [done|]. destruct (has_type ns (to_lowercase _)); [done|].
  by destruct (ConjunctIndex.resolve_normalized _ _).
Qed.

(** A term, with what its query slots come to. *)
Lemma fits_term_with_yields (query : Spec → Slot → HDict → N → C bool) entity term queries depth
    (Q : Spec → Slot → bool) :
  (∀ spec slot depth, specs ns !! term = Some spec → strict_for ns term = None →
     slot ∈ spec_slots spec → slot_is_query slot = true →
     yields (if queries : bool then query spec slot entity depth else mret true) (Q spec slot)) →
  (∀ spec slot, slot_is_query slot = false → Q spec slot = true) →
  yields (fits_term_with fuel query entity term ns queries depth)
    (match strict_for ns term with
     | Some c => strict_fits c term entity (Some (ctx_forward ctx))
     | None =>
         match Namespace.resolve_spec_term ns term with
         | Some (TDef name) => member MAX_CONJUNCT_DEPTH entity name ns
         | Some (TSpec spec) =>
             is_nil (Fitting.explain_plain entity spec (specs ns)) && forallb (Q spec) (spec_slots spec)
         | None => false
         end
     end).
Proof.
  intros HQ HnQ. unfold fits_term_with. charge. eapply yields_bind; [apply available_yields|].
  fold (strict_for ns term). destruct (strict_for ns term) as [c|] eqn:Hsf.
  { apply strict_for_Some in Hsf as [Hc [s Hd]].
    destruct (sc_registered _ _ (pl_catalog _ Hplain c Hc) term s Hd) as [sp Hsp].
    unfold Namespace.resolve_spec_term. rewrite Hsp. simpl. apply fits_selected_yields; [done|eauto]. }
  destruct (Namespace.resolve_spec_term ns term) as [[spec|name]|] eqn:Hr; simpl; [| |apply yields_ret].
  - apply resolve_spec_registered in Hr. apply fits_spec_yields; [by eapply spec_keyed|auto|auto].
  - assert (Hf : S (S (fuel - 2)) = fuel) by lia.
    pose proof (member_of_yields (fuel - 2) entity name (depth + 1)%N) as Hm. by rewrite Hf in Hm.
Qed.

Lemma fits_reached_yields entity term depth :
  strict_for ns term = None →
  yields (fits_reached fuel ns entity term depth) (term_fits entity term ns).
Proof.
  intros Hn.
  pose proof (fits_term_with_yields (λ _ _ _ _, mret true) entity term false depth (λ _ _, true)) as Hy.
  unfold term_fits. rewrite Hn in Hy |- *.
  assert (Hall : ∀ l : list Slot, forallb (λ _, true) l = true) by (by induction l).
  destruct (Namespace.resolve_spec_term ns term) as [[spec|name]|]; [|apply Hy; intros; [apply yields_ret|done]..].
  rewrite <-(andb_true_r (is_nil _)), <-(Hall (spec_slots spec)). apply Hy; intros; [apply yields_ret|done].
Qed.

Lemma fits_term_yields entity term depth :
  yields (fits_term fuel entity term ns true depth) (term_fits_with entity term (Some ctx) ns).
Proof.
  unfold fits_term, term_fits_with.
  pose proof (fits_term_with_yields
    (λ spec slot entity depth, query_slot fuel (fits_reached fuel ns) ns spec slot depth entity)
    entity term true depth (λ spec slot, is_nil (query_issues entity spec (specs ns) ctx slot ns))) as Hy.
  specialize (Hy ltac:(intros sp slot d Hsp Hn Hin Hq; apply query_slot_yields;
                         [apply fits_reached_yields|by eapply spec_asks_plain|done])).
  specialize (Hy ltac:(intros sp slot Hq; unfold query_issues; by rewrite Hq)).
  destruct (strict_for ns term) as [c|]; [exact Hy|].
  destruct (Namespace.resolve_spec_term ns term) as [[spec|name]|] eqn:Hr; [|exact Hy..].
  unfold spec_issues. by rewrite is_nil_app, is_nil_concat.
Qed.

(** ** Filters *)

Lemma walk_yields entity path :
  path ≠ [] →
  ∃ owner, yields (walk entity path) owner ∧
    walk_path (ctx_forward ctx) entity path = owner ≫= λ e, last path ≫= HDict.get e.
Proof.
  revert entity. induction path as [|tag path IH]; intros entity Hne; [done|].
  destruct path as [|tag' path].
  { exists (Some entity). split; [apply yields_ret|done]. }
  cbn [walk walk_path]. destruct (HDict.get entity tag) as [v|] eqn:Hv.
  2: { exists None. split; [charge; apply yields_ret|done]. }
  destruct v; try (exists None; split; [charge; apply yields_ret|done]).
  destruct (ctx_forward ctx v) as [e|] eqn:He.
  - destruct (IH e) as (owner & Ho & Hw); [done|]. exists owner. split; [|exact Hw].
    charge. eapply yields_bind; [apply yields_op, G|]. rewrite He. exact Ho.
  - exists None. split; [|done]. charge.
    eapply yields_bind; [apply yields_op, G|]. rewrite He. apply yields_ret.
Qed.

(** The owner of the last segment, and the value found there. *)
Lemma resolve_path_yields entity path :
  ∃ owner, yields (Controlled.resolve_path entity path) owner ∧
    Filter.resolve_path path entity (Some ctx) = (owner ≫= λ e, last path ≫= HDict.get e) ∧
    ∀ e, owner = Some e → Filter.resolve_path path entity (Some ctx) = HDict.get e (last_tag path).
Proof.
  unfold Controlled.resolve_path.
  case_decide as Hp; [subst; exists None; split_and!; [apply yields_ret|done..]|].
  destruct (walk_yields entity path Hp) as (owner & Ho & Hw).
  assert (Heq : Filter.resolve_path path entity (Some ctx) = owner ≫= λ e, last path ≫= HDict.get e).
  { rewrite <-Hw. by destruct path as [|tag [|]]. }
  exists owner. split_and!; [done|done|]. intros e ->. rewrite Heq. simpl. unfold last_tag.
  destruct (last path) eqn:Hl; [done|]. by apply last_None in Hl.
Qed.

(** The agreement. *)
Lemma matches_at_yields node entity depth :
  good ns →
  yields (matches_at fuel node entity (Some ns) depth)
    (@matches_with_ns Fitting.namespace_ontology node entity (Some ctx) (Some ns)).
Proof.
  intros Hgood. revert depth.
  induction node as [path|path|path o v|l IHl r IHr|l IHl r IHr|term]; intros depth; simpl;
    (charge; charge).
  1-3: destruct (resolve_path_yields entity path) as (owner & Ho & Heq & Hval);
    (eapply yields_bind; [exact Ho|]).
  - destruct owner as [e|]; [rewrite (Hval e eq_refl)|rewrite Heq]; apply yields_ret.
  - destruct owner as [e|]; [rewrite (Hval e eq_refl)|rewrite Heq]; apply yields_ret.
  - rewrite Heq. destruct (owner ≫= _); [|apply yields_ret].
    eapply yields_bind; [apply yields_op, G|]. apply yields_ret.
  - by apply yields_and.
  - by apply yields_or.
  - rewrite (answers_run _ _ ns (fits_spec_term_with_answers entity term (Some ctx)) Hgood).
    apply fits_term_yields.
Qed.
End facts.
End ControlledFacts.
