(* ===== verification/ControlledSafety.v ===== *)
(** * Controlled evaluation under masking and stops

    Three facts that hold whatever the environment charges or hides.  Hiding
    records and catalog entries never makes a spec term match an entity it
    does not match in full view ([fits_term_sound]).  An error of the
    environment ends the evaluation with that error, and an evaluation that
    answers has met none ([matches_at_traced]).  And the meter changes no
    answer: an environment that shows what a free one shows gives the same
    answer or stops, and both end ([Unmetered.evaluate_tracks]). *)

From Stdlib Require Import Ascii.
From S2P Require Import Prelude Floats Kinds Text Taxonomy Xeto Filter Namespace Fitting NamespaceFacts FittingFacts NamespaceInv Controlled ControlledFacts.

Module ControlledSafety.
Import Namespace NamespaceFacts FittingFacts Controlled.

(** ** Masked views *)

Section masked.
Context `{HashOrderLaws, Casing, StrictCatalog, RegexLaws, FloatText}.
Context {QE : QueryEnvironment} {SF : StrictFit}.
Context (ctx : QueryContext) (reverse : HRef → string → list HDict) (View : Env → Prop).

(** The environment may refuse, stop or hide, but what it shows is there. *)
Record masks : Prop := {
  mask_work n env a env' : View env → env_work n env = (Ok a, env') → View env';
  mask_retain n env a env' : View env → env_retain n env = (Ok a, env') → View env';
  mask_depth n env a env' : View env → env_depth n env = (Ok a, env') → View env';
  mask_comparison x y env a env' : View env → env_comparison x y env = (Ok a, env') → View env';
  mask_forward r env o env' : View env → env_forward r env = (Ok o, env') →
    View env' ∧ ∀ e, o = Some e → ctx_forward ctx r = Some e;
  mask_inverse r tag env l env' : View env → env_inverse r tag env = (Ok l, env') →
    View env' ∧ ∀ e, e ∈ l → e ∈ reverse r tag;
  mask_visible k name env b env' : View env → env_catalog_visible k name env = (Ok b, env') → View env';
  mask_regex env : View env → (env_regex_size_limit env ≤ DEFAULT_REGEX_LIMIT)%N
}.
Context (Hmask : masks).

(** What holds of an answer, if there is one. *)
Definition returns {A} (m : C A) (P : A → Prop) : Prop :=
  ∀ env, View env →
    match m env with Some (Ok a, env') => View env' ∧ P a | _ => True end.

Lemma returns_ret {A} (a : A) (P : A → Prop) : P a → returns (mret a) P.
Proof. by intros HP env Hv. Qed.
Lemma returns_bind {A B} (m : C A) (k : A → C B) P Q :
  returns m P → (∀ a, P a → returns (k a) Q) → returns (m ≫= k) Q.
Proof.
  intros Hm Hk env Hv. specialize (Hm env Hv). unfold mbind, C_bind.
  destruct (m env) as [[[a|e] env']|]; [|done..]. destruct Hm as [Hv' HP]. by apply (Hk a HP env').
Qed.
Lemma returns_weaken {A} (m : C A) (P Q : A → Prop) :
  (∀ a, P a → Q a) → returns m P → returns m Q.
Proof.
  intros HPQ Hm env Hv. specialize (Hm env Hv). destruct (m env) as [[[a|e] env']|]; naive_solver.
Qed.
Lemma returns_op {A} (f : Env → result EnvError A * Env) (P : A → Prop) :
  (∀ env a env', View env → f env = (Ok a, env') → View env' ∧ P a) → returns (op f) P.
Proof.
  intros Hf env Hv. unfold op. destruct (f env) as [[a|e] env'] eqn:Hr; [|done]. by eapply Hf.
Qed.
Lemma returns_exhausted {A} (P : A → Prop) : returns exhausted P.
Proof. done. Qed.
Lemma returns_stop {A} f (P : A → Prop) : returns (stop f) P.
Proof. done. Qed.
Lemma returns_asks {A B} (f : Env → A) (k : A → C B) P :
  (∀ env, View env → returns (k (f env)) P) → returns (asks f ≫= k) P.
Proof. intros Hk env Hv. unfold mbind, C_bind, asks. by apply Hk. Qed.

Lemma charge_work {B} n (k : unit → C B) P : returns (k ()) P → returns (work n ≫= k) P.
Proof.
  intros Hk. apply (returns_bind _ _ (λ _, True)); [|by intros []].
  apply returns_op. intros env a env' Hv Hr. split; [|done]. by eapply mask_work.
Qed.
Lemma charge_retain {B} n (k : unit → C B) P : returns (k ()) P → returns (retain n ≫= k) P.
Proof.
  intros Hk. apply (returns_bind _ _ (λ _, True)); [|by intros []].
  apply returns_op. intros env a env' Hv Hr. split; [|done]. by eapply mask_retain.
Qed.
Lemma charge_level {B} n (k : unit → C B) P : returns (k ()) P → returns (depth_check n ≫= k) P.
Proof.
  intros Hk. apply (returns_bind _ _ (λ _, True)); [|by intros []].
  apply returns_op. intros env a env' Hv Hr. split; [|done]. by eapply mask_depth.
Qed.
Ltac charge := first [apply charge_work | apply charge_retain | apply charge_level].

Lemma visible_op k name : returns (op (env_catalog_visible k name)) (λ _, True).
Proof. apply returns_op. intros env a env' Hv Hr. split; [|done]. by eapply mask_visible. Qed.

Lemma returns_and a b (P Q : Prop) :
  returns a (λ x, x = true → P) → returns b (λ x, x = true → Q) →
  returns (and_then a b) (λ x, x = true → P ∧ Q).
Proof.
  intros Ha Hb. eapply returns_bind; [exact Ha|]. intros [] HP; [|by apply returns_ret].
  eapply returns_weaken; [|exact Hb]. naive_solver.
Qed.
Lemma returns_or a b (P : Prop) :
  returns a (λ x, x = true → P) → returns b (λ x, x = true → P) →
  returns (or_else a b) (λ x, x = true → P).
Proof.
  intros Ha Hb. eapply returns_bind; [exact Ha|]. intros [] HP; [|exact Hb].
  apply returns_ret. intros _. by apply HP.
Qed.
Lemma returns_all {A} (f : A → C bool) (P : A → Prop) l :
  (∀ a, a ∈ l → returns (f a) (λ x, x = true → P a)) →
  returns (all_c f l) (λ x, x = true → ∀ a, a ∈ l → P a).
Proof.
  induction l as [|a l IH]; intros Hf; simpl.
  { apply returns_ret. intros _ a Ha. by apply elem_of_nil in Ha. }
  eapply returns_weaken; [|apply returns_and; [apply Hf; left|apply IH; intros; apply Hf; by right]].
  intros x Hx Ht y [->|Hy]%elem_of_cons; destruct (Hx Ht); auto.
Qed.
Lemma returns_fold {A S} (f : S → A → C S) (I : S → Prop) (l : list A) s :
  I s → (∀ s a, a ∈ l → I s → returns (f s a) I) → returns (fold_c f s l) I.
Proof.
  revert s. induction l as [|a l IH]; intros s Hs Hf; simpl; [by apply returns_ret|].
  eapply returns_bind; [by apply Hf; [left|]|]. intros s' Hs'. apply IH; [done|].
  intros; apply Hf; [by right|done].
Qed.

(** ** Membership *)

(** What the fitter of the selected catalog accepts in the environment it
    accepts over the context. *)
Definition strict_sound (ns : t) : Prop := ∀ c term e env r env',
  selected ns = Some c → is_Some (declaration c term) → View env →
  fit_entity c term e env = (r, env') →
  match r with
  | Ok _ => View env' ∧ strict_fits c term e (Some (ctx_forward ctx)) = true
  | Err FitInvalid => View env'
  | Err (FitControl _) => True
  end.

Context (ns : t) (Hplain : ControlledFacts.plain ns) (Hstrict : strict_sound ns).
Context (fuel : nat).
Abbreviation R := (edge (ControlledFacts.is_map ns)).

Lemma visible_def_returns name : returns (visible_def ns name) (λ b, b = true → is_Some (defs ns !! name)).
Proof.
  unfold visible_def, get_def. charge. destruct (defs ns !! name); [|by apply returns_ret].
  eapply returns_weaken; [|apply (returns_and _ _ True True)]; [by eauto|..];
    (eapply returns_weaken; [|apply visible_op]); done.
Qed.

(** The walk up only meets types the tag leads to. *)
Lemma climb_returns n wanted todo seen (T : string → Prop) :
  (∀ x y, T x → R x y → T y) → (∀ q, q ∈ todo → T q) →
  returns (climb n ns wanted todo seen) (λ b, b = true → T wanted).
Proof.
  intros Hcl. revert todo seen. induction n as [|n IH]; intros [|c todo] seen Ht; simpl;
    try (by apply returns_ret); [apply returns_exhausted|].
  charge. destruct (decide (c ∈ seen)); [apply IH; intros; apply Ht; by right|]. charge.
  eapply returns_bind; [apply visible_def_returns|]. intros [] Hvis; simpl.
  2: { apply IH. intros; apply Ht; by right. }
  destruct (decide (c = wanted)) as [->|]; [apply returns_ret; intros _; apply Ht; left|].
  apply (returns_bind _ _ (λ l, ∀ q, q ∈ l → T q)); [|intros l Hl; by apply IH].
  unfold get_def. destruct (defs ns !! c) as [d|] eqn:Hd.
  - apply returns_fold; [intros q Hq; apply Ht; by right|].
    intros l p Hp Hl. charge. charge. apply returns_ret. intros q [->|Hq]%elem_of_cons; [|auto].
    apply (Hcl c); [apply Ht; left|]. unfold edge, targets, ControlledFacts.is_map.
    by rewrite lookup_fmap, Hd.
  - apply returns_ret. intros q Hq. apply Ht. by right.
Qed.

Lemma any_marker_returns wanted tags :
  returns (any_marker fuel ns wanted tags)
    (λ b, b = true → existsb (λ tag, is_a ns tag wanted)
       (omap (λ kv : string * Kind, match kv.2 with KMarker => Some kv.1 | _ => None end) tags) = true).
Proof.
  induction tags as [|[tag v] tags IH]; simpl; [by apply returns_ret|]. charge.
  destruct v; try exact IH. charge. apply returns_or; simpl.
  - eapply returns_weaken; [|apply (climb_returns _ _ _ _ (rtc R tag))].
    + intros b Hb Ht. apply orb_true_iff. left.
      apply (ControlledFacts.is_a_reach ns Hplain). auto.
    + intros x y Hx Hy. by eapply rtc_r.
    + intros q ->%list_elem_of_singleton. apply rtc_refl.
  - eapply returns_weaken; [|exact IH]. intros b Hb Ht. apply orb_true_iff. auto.
Qed.

Lemma member_of_returns n levels entity name depth :
  conjunct_parts ns name = None ∨ 0 < levels →
  returns (member_of fuel n entity name ns depth) (λ b, b = true → member levels entity name ns = true).
Proof.
  revert levels name depth. induction n as [|n IH]; intros levels name depth Hl;
    simpl; [apply returns_exhausted|].
  charge. eapply returns_bind; [apply visible_def_returns|].
  intros [] Hdef; simpl; [|by apply returns_ret].
  assert (Hty : has_type ns name = true).
  { rewrite (ControlledFacts.has_type_defined ns Hplain). apply bool_decide_eq_true. auto. }
  destruct (conjunct_parts ns name) as [ps|] eqn:Hc.
  - destruct Hl as [|Hl]; [done|]. destruct levels as [|levels]; [lia|]. cbn [member]. rewrite Hty, Hc.
    destruct (decide (ps = [])) as [->|Hne]; [by apply returns_ret|].
    rewrite bool_decide_false by done. cbn [negb andb].
    eapply returns_weaken; [|apply (returns_all _ (λ p, member levels entity p ns = true))].
    + intros b Hb Ht. apply forallb_forall. intros p Hp%list_elem_of_In. auto.
    + intros p Hp. charge. apply IH. left. by eapply (ControlledFacts.parts_flat ns Hplain).
  - eapply returns_weaken; [|apply any_marker_returns]. intros b Hb Ht.
    destruct levels; cbn [member]; rewrite Hty, ?Hc; auto.
Qed.

(** ** Slots *)

Lemma bounds_returns slot lo hi x :
  returns (bounds slot lo hi x)
    (λ b, b = true → ControlledFacts.bound_ok slot lo true x = true ∧
                     ControlledFacts.bound_ok slot hi false x = true).
Proof.
  unfold bounds. eapply returns_weaken; [|apply (returns_all _ (λ kl,
    ControlledFacts.bound_ok slot kl.1 kl.2 x = true))].
  - intros b Hb Ht. split; [apply (Hb Ht (lo, true))|apply (Hb Ht (hi, false))]; set_solver.
  - intros [key lower] _. charge. apply returns_ret. unfold ControlledFacts.bound_ok, Fitting.num_meta.
    simpl. by destruct (slot_meta slot !! key) as [[]|].
Qed.

Lemma pattern_returns slot text pattern :
  Fitting.str_meta slot "pattern" = Some pattern →
  returns (pattern_constraint text pattern)
    (λ b, b = true → is_nil (Fitting.pattern_issues slot text) = true).
Proof.
  intros Hp. unfold pattern_constraint. charge. apply (returns_bind _ _ (λ _, True)).
  { unfold reserve_regex_construction. apply returns_asks. intros env _.
    destruct (decide _); [apply returns_stop|]. charge. apply returns_asks. intros env1 _.
    apply returns_op. intros env' a env'' Hv Hr. split; [|done]. by eapply mask_retain. }
  intros _ _. apply returns_asks. intros env1 _. charge. apply returns_asks. intros env Hv.
  pose proof (mask_regex Hmask env Hv) as Hlim.
  destruct (regex_with_limit _ pattern) as [re|[m|n]] eqn:Hre; [|by apply returns_ret|apply returns_stop].
  apply returns_ret. intros Hm. unfold Fitting.pattern_issues. rewrite Hp.
  apply regex_limit_match in Hre as (re' & -> & Heq); [|done]. by rewrite Heq, Hm.
Qed.

Lemma constraints_returns slot v :
  returns (constraints v slot) (λ b, b = true → is_nil (ControlledFacts.value_issues slot v) = true).
Proof.
  destruct v; try (by apply returns_ret); unfold constraints, ControlledFacts.value_issues.
  - rewrite ControlledFacts.number_issues_nil. eapply returns_weaken;
      [|apply (returns_and _ _ (ControlledFacts.bound_ok slot "minVal" true (num_val v) = true ∧
                 ControlledFacts.bound_ok slot "maxVal" false (num_val v) = true)
        ((if Fitting.has_meta slot "unitless" && bool_decide (is_Some (num_unit v)) then false
          else match Fitting.str_meta slot "unit" with
          | Some unit => bool_decide (num_unit v = Some unit) | None => true end) = true));
       [apply bounds_returns|]].
    + intros b Hb Ht. destruct (Hb Ht) as [[-> ->] ->]. done.
    + destruct (_ && _); [by apply returns_ret|]. unfold Fitting.str_meta.
      destruct (slot_meta slot !! "unit") as [[]|]; try (by apply returns_ret). charge. by apply returns_ret.
  - unfold Fitting.string_issues. rewrite !is_nil_app, ControlledFacts.size_issues_nil.
    eapply returns_weaken;
      [|apply (returns_and _ _
          (ControlledFacts.bound_ok slot "minSize" true (F64.of_usize (str_len v)) = true ∧
           ControlledFacts.bound_ok slot "maxSize" false (F64.of_usize (str_len v)) = true)
          ((if Fitting.has_meta slot "nonEmpty" && all_whitespace v
          then [Fitting.violation slot "nonEmpty" "string is empty or whitespace only"] else []) = [] ∧
          is_nil (Fitting.pattern_issues slot v) = true)); [apply bounds_returns|]].
    + intros b Hb Ht. destruct (Hb Ht) as [[-> ->] [-> ->]]. done.
    + unfold text_constraints. charge. destruct (_ && _); [by apply returns_ret|].
      destruct (slot_meta slot !! "pattern") as [k|] eqn:Hk.
      2: { apply returns_ret. intros _. unfold Fitting.pattern_issues, Fitting.str_meta. by rewrite Hk. }
      destruct k; try (apply returns_ret; intros _; unfold Fitting.pattern_issues, Fitting.str_meta; by rewrite Hk).
      eapply returns_weaken; [|apply (pattern_returns slot)]; [by auto|].
      unfold Fitting.str_meta. by rewrite Hk.
  - rewrite ControlledFacts.size_issues_nil. eapply returns_weaken; [|apply bounds_returns].
    intros b Hb Ht. destruct (Hb Ht) as [-> ->]. done.
Qed.

Lemma visible_spec_returns s : returns (visible_spec s) (λ _, True).
Proof.
  apply (returns_weaken _ (λ x : bool, x = true → True ∧ True)); [done|].
  apply returns_and; (eapply returns_weaken; [|apply visible_op]); done.
Qed.

Lemma base_markers_returns n entity base seen :
  ControlledFacts.checked ns entity seen base →
  (∀ b, base = Some b → specs ns !! spec_qname b = Some b) →
  returns (base_markers n entity ns base seen)
    (λ x, x = true → ∀ b a, base = Some b → rtc (base_step (specs ns)) b a →
       ControlledFacts.markers_ok entity a = true).
Proof.
  revert base seen. induction n as [|n IH]; intros [b|] seen Hc Hb; simpl;
    try (by apply returns_ret); [apply returns_exhausted|].
  specialize (Hb b eq_refl). charge. destruct (decide (spec_qname b ∈ seen)) as [Hin|Hin].
  { apply returns_ret. intros _ b' a [= <-] Hr. by eapply (ControlledFacts.checked_closed ns Hplain). }
  charge. eapply returns_bind; [apply visible_spec_returns|]. intros [] _; simpl; [|by apply returns_ret].
  eapply (returns_bind _ _ (λ x, x = true → ControlledFacts.markers_ok entity b = true)).
  { eapply returns_weaken; [|apply (returns_all _ (λ slot, negb (slot_is_marker slot &&
      negb (is_maybe slot) && HDict.missing entity (slot_name slot)) = true))].
    - intros x Hx Ht. apply forallb_forall. intros slot Hs%list_elem_of_In. auto.
    - intros slot _. charge. by apply returns_ret. }
  intros [] Hm; [|by apply returns_ret]. specialize (Hm eq_refl).
  eapply returns_weaken; [|apply IH].
  - intros x Hx Ht b' a [= <-] Hr. apply rtc_inv in Hr as [->|(z & Hz & Hr)]; [done|].
    apply (Hx Ht z a); [by apply (ControlledFacts.base_step_get ns)|done].
  - intros v s [->%elem_of_singleton|Hv]%elem_of_union Hs; simplify_eq.
    + split; [done|]. intros b' Hb'%ControlledFacts.base_step_get. by right.
    + destruct (Hc v s Hv Hs) as [Hms Hnext]. split; [done|]. intros b' Hb'.
      destruct (Hnext b' Hb') as [|[= ->]]; left; set_solver.
  - intros b' Hb'. apply (ControlledFacts.base_step_get ns) in Hb' as (k & _ & Hk).
    by destruct (ControlledFacts.pl_specs _ Hplain k b' Hk) as [-> _].
Qed.

(** The slots of a spec that checks out. *)
Lemma fits_spec_returns (query : Spec → Slot → HDict → N → C bool) entity spec queries depth
    (Q : Slot → bool) :
  specs ns !! spec_qname spec = Some spec →
  (∀ slot, slot ∈ spec_slots spec → slot_is_query slot = true →
     returns (if queries : bool then query spec slot entity (depth + 1)%N else mret true)
       (λ b, b = true → Q slot = true)) →
  (∀ slot, slot_is_query slot = false → Q slot = true) →
  returns (fits_spec fuel query entity spec ns queries depth)
    (λ b, b = true → is_nil (Fitting.explain_plain entity spec (specs ns)) = true ∧
                     forallb Q (spec_slots spec) = true).
Proof.
  intros Hspec HQ HnQ. unfold fits_spec. charge.
  eapply returns_weaken; [|apply (returns_and _ _
    (∀ a, rtc (base_step (specs ns)) spec a → ControlledFacts.markers_ok entity a = true)
    (∀ slot, slot ∈ spec_slots spec → ControlledFacts.slot_ok entity Q slot = true))].
  - intros b Hb Ht. destruct (Hb Ht) as [Hm Hs]. unfold Fitting.explain_plain. rewrite !is_nil_app.
    apply (ControlledFacts.markers_nil ns) in Hm. rewrite Hm. unfold Fitting.check_slot_types,
      Fitting.check_value_constraints. rewrite !is_nil_concat. simpl.
    assert (Hall : ∀ f : Slot → bool, (∀ s, ControlledFacts.slot_ok entity Q s = true → f s = true) →
      forallb f (spec_slots spec) = true).
    { intros f Hf. apply forallb_forall. intros s Hin%list_elem_of_In. auto. }
    unfold ControlledFacts.slot_ok in Hall.
    rewrite !Hall; [done|..]; intros s; rewrite !andb_true_iff; naive_solver.
  - eapply returns_weaken; [|apply base_markers_returns].
    + intros b Hb Ht a Hr. by apply (Hb Ht spec a).
    + intros v s Hv. by apply not_elem_of_empty in Hv.
    + by intros b [= <-].
  - apply returns_all. intros slot Hin. charge. unfold ControlledFacts.slot_ok.
    destruct (slot_is_query slot) eqn:Hq.
    + eapply returns_weaken; [|by apply HQ]. intros b Hb Ht.
      unfold Fitting.check_slot_type, Fitting.check_slot_value. rewrite Hq, !orb_true_r. simpl. auto.
    + rewrite HnQ, andb_true_r by done. destruct (slot_is_marker slot) eqn:Hm.
      { apply returns_ret. intros _. unfold Fitting.check_slot_type, Fitting.check_slot_value. by rewrite Hm. }
      destruct (HDict.get entity (slot_name slot)) as [v|] eqn:Hv.
      * rewrite (ControlledFacts.slot_type_issue entity slot v) by done.
        destruct (_ && _); [by apply returns_ret|]. simpl.
        assert (Hval : Fitting.check_slot_value entity slot = ControlledFacts.value_issues slot v).
        { unfold Fitting.check_slot_value. rewrite Hm, Hq, Hv. by destruct v. }
        rewrite Hval. apply constraints_returns.
      * apply returns_ret. intros _. unfold Fitting.check_slot_type, Fitting.check_slot_value.
        rewrite Hm, Hq, Hv. simpl. by destruct (is_maybe slot), (slot_type_ref slot).
Qed.

(** ** Query slots *)

Context (store : gmap string HDict).
Context (Hforward : ∀ r, ctx_forward ctx r = store !! ref_val r).
Context (Hreverse : ∀ tag i, reverse i tag ≡ₚ
  (map_to_list (filter (λ kv, target_of tag kv.2 = Some (ref_val i)) store)).*2).
Context (Hinverse : ctx_inverse ctx = Some reverse) (Hctx : size store < ctx_fuel ctx).

Lemma find_query_slot_returns name slots :
  returns (find_query_slot name slots) (λ o, o =
    match List.find (λ c, bool_decide (slot_name c = name) && slot_is_query c) slots with
    | Some c => Fitting.str_meta c "via"
    | None => None
    end).
Proof.
  induction slots as [|c slots IH]; simpl; [by apply returns_ret|]. charge.
  destruct (_ && _); [by apply returns_ret|exact IH].
Qed.

Lemma plan_query_returns slot :
  returns (plan_query ns slot) (λ p, p = ControlledFacts.plan_of ns slot ∨ p = Refused).
Proof.
  unfold plan_query, ControlledFacts.plan_of. destruct (Fitting.str_meta slot "via") as [via|].
  { destruct (Fitting.split_via via). apply returns_ret. by left. }
  destruct (Fitting.str_meta slot "inverse") as [inv|]; [|by apply returns_ret; left].
  unfold Fitting.resolve_inverse_via.
  destruct (rsplit_once "." inv) as [[name sn]|]; simpl; [|by apply returns_ret; right].
  unfold get_spec. destruct (specs ns !! name) as [sp|] eqn:Hs; simpl; [|by apply returns_ret; right].
  eapply returns_bind; [apply visible_spec_returns|]. intros [] _; simpl; [|by apply returns_ret; right].
  eapply returns_bind; [apply find_query_slot_returns|]. intros o ->.
  rewrite (ControlledFacts.find_named) by (by eapply (ControlledFacts.pl_specs _ Hplain)).
  destruct (List.find _ _) as [c|]; simpl; [|by apply returns_ret; right].
  destruct (slot_is_query c); [|by apply returns_ret; right].
  destruct (Fitting.str_meta c "via") as [via|]; simpl; [|by apply returns_ret; right].
  destruct (Fitting.split_via via). apply returns_ret. by left.
Qed.

Section query.
Context (fits_reached : HDict → string → N → C bool).
Context (Hreached : ∀ e term depth, strict_for ns term = None →
  returns (fits_reached e term depth) (λ b, b = true → term_fits e term ns = true)).

Section slot.
Context (enclosing : Spec) (slot : Slot) (Hasks : ControlledFacts.asks_plain ns enclosing slot).

Lemma of_matches_returns depth e :
  returns (of_matches fits_reached ns enclosing slot depth e)
    (λ b, b = true → ControlledFacts.of_ok ns enclosing slot e = true).
Proof.
  unfold of_matches, ControlledFacts.of_ok.
  destruct (Fitting.str_meta slot "of") as [of_type|] eqn:Ho; [|by apply returns_ret].
  destruct (Hasks of_type Ho) as [Hn Hl'].
  charge. unfold of_fits, get_spec. destruct (contains_str "::" of_type); simpl; [by apply Hreached|].
  destruct (specs ns !! (spec_lib enclosing +:+ "::" +:+ of_type)) as [local|] eqn:Hl; simpl;
    [|by apply Hreached].
  eapply returns_weaken; [|by apply Hreached]. intros b Hb Ht. specialize (Hb Ht).
  unfold term_fits, Namespace.resolve_spec_term in Hb. by rewrite Hl', Hl in Hb.
Qed.

(** A traversal stays within what it can reach in full view. *)
Lemma traverse_returns depth n tag transitive inverse todo seen m (T : HDict → Prop) :
  let succ := ControlledFacts.succ ctx reverse tag inverse in
  let cont := ControlledFacts.cont tag inverse in
  (∀ y k x, T y → transitive = true → cont y = Some k → x ∈ succ k → T x) →
  (∀ id x, id ∈ todo → x ∈ succ (ref_val id) → T x) →
  (m = true → ∃ x, T x ∧ ControlledFacts.of_ok ns enclosing slot x = true) →
  returns (traverse fits_reached ns enclosing slot depth n tag transitive inverse todo seen m)
    (λ b, b = true → ∃ x, T x ∧ ControlledFacts.of_ok ns enclosing slot x = true).
Proof.
  intros succ cont HT. revert todo seen m. induction n as [|n IH]; intros [|id todo] seen m Htodo Hm; simpl;
    try (by apply returns_ret); [apply returns_exhausted|].
  assert (Hrest : ∀ id' x, id' ∈ todo → x ∈ succ (ref_val id') → T x).
  { intros id' x Hin. apply Htodo. by right. }
  charge. destruct (decide (ref_val id ∈ seen)); [by apply IH|]. charge.
  apply (returns_bind _ _ (λ l, ∀ x, x ∈ l → T x)).
  { destruct inverse.
    - apply returns_op. intros env l env' Hv Hr.
      destruct (mask_inverse Hmask _ _ _ _ _ Hv Hr) as [Hv' Hl]. split; [done|]. intros x Hx.
      apply (Htodo id); [left|]. apply Hl in Hx.
      apply (elem_of_reverse store reverse tag (Hreverse tag)) in Hx.
      by apply (elem_of_reverse store reverse tag (Hreverse tag)).
    - apply (returns_bind _ _ (λ o, ∀ e, o = Some e → T e)).
      + apply returns_op. intros env o env' Hv Hr.
        destruct (mask_forward Hmask _ _ _ _ Hv Hr) as [Hv' Ho]. split; [done|]. intros e He.
        apply (Htodo id); [left|]. apply Ho in He. rewrite Hforward in He.
        unfold succ, ControlledFacts.succ. rewrite Hforward. cbn. rewrite He. left.
      + intros [e|] Ho; [charge|]; apply returns_ret; intros x.
        * intros ->%list_elem_of_singleton. by apply Ho.
        * by intros ?%elem_of_nil. }
  intros l Hl.
  apply (returns_bind _ _ (λ acc, (∀ id' x, id' ∈ acc.1 → x ∈ succ (ref_val id') → T x) ∧
    (acc.2 = true → ∃ x, T x ∧ ControlledFacts.of_ok ns enclosing slot x = true))).
  - apply returns_fold; [done|]. intros [td mt] e He [Htd Hmt]. unfold visit_reached. charge.
    eapply returns_bind; [apply of_matches_returns|]. intros ok Hok.
    assert (Hm' : mt || ok = true → ∃ x, T x ∧ ControlledFacts.of_ok ns enclosing slot x = true).
    { rewrite orb_true_iff. intros [Hx|Hx]; [by apply Hmt|]. exists e. auto. }
    cbn [fst snd]. destruct transitive; [|by apply returns_ret].
    destruct (continuation tag inverse e) as [next|] eqn:Hc; [|by apply returns_ret].
    destruct (decide (ref_val next ∈ _)); [by apply returns_ret|]. charge. apply returns_ret.
    split; [|done]. intros id' x [->|Hin]%elem_of_cons Hx; [|eauto].
    apply (HT e (ref_val next) x); [auto|done| |exact Hx].
    unfold cont, ControlledFacts.cont. by rewrite Hc.
  - intros [td mt] [Htd Hmt]. destruct transitive; [by apply IH|by apply returns_ret].
Qed.

(** The traversal of a slot, against what the plain evaluation finds. *)
Lemma follow_returns depth entity tag transitive inverse :
  returns (work (saturating_add (str_len tag) 1);;
      todo ← match continuation tag inverse entity with
             | Some id => retain (saturating_add (str_len (ref_val id)) 96);;
                          mret [from_val (ref_val id)]
             | None => mret []
             end;
      matching ← traverse fits_reached ns enclosing slot depth fuel tag transitive inverse todo ∅ false;
      mret (matching || is_maybe slot))
    (λ b, b = true → is_maybe slot = true ∨
       is_nil (counted slot enclosing (specs ns)
         (ControlledFacts.found ctx reverse entity tag transitive inverse) ns) = false).
Proof.
  charge. apply (returns_bind _ _ (λ todo, todo = from_val <$> ControlledFacts.starts tag inverse entity)).
  { unfold ControlledFacts.starts, ControlledFacts.cont. destruct (continuation tag inverse entity); simpl;
      [charge|]; by apply returns_ret. }
  intros todo ->.
  pose proof (λ x, ControlledFacts.elem_of_found ctx reverse store Hforward Hreverse Hctx
    entity tag transitive inverse x) as Hfound.
  eapply returns_bind; [apply (traverse_returns _ _ _ _ _ _ _ _ (λ x,
    x ∈ ControlledFacts.found ctx reverse entity tag transitive inverse))|].
  - intros y k x Hy -> Hk Hx. apply Hfound. apply Hfound in Hy as (j & z & Hj & Hz & Hr).
    exists j, z. split_and!; [done|done|]. eapply rtc_r; [done|]. by exists k.
  - intros id x (k & -> & Hk)%list_elem_of_fmap Hx. apply Hfound. cbn [ref_val from_val] in Hx.
    destruct transitive.
    + exists k, x. split_and!; [done|done|apply rtc_refl].
    + apply elem_of_concat. eexists. split; [|exact Hx]. apply list_elem_of_fmap. eauto.
  - done.
  - intros b Hb. apply returns_ret. rewrite orb_true_iff. intros [Ht|?]; [right|by left].
    destruct (Hb Ht) as (x & Hx & Hok). apply not_true_iff_false. intros Hnil%is_nil_true.
    unfold counted, ControlledFacts.of_ok in *.
    destruct (Fitting.str_meta slot "of"); [|rewrite Hnil in Hx; by apply elem_of_nil in Hx].
    assert (Hin : x ∈ @nil HDict); [|by apply elem_of_nil in Hin].
    rewrite <-Hnil. apply list_elem_of_In, filter_In. split; [by apply list_elem_of_In|done].
Qed.

Lemma query_slot_returns depth entity :
  slot_is_query slot = true →
  returns (query_slot fuel fits_reached ns enclosing slot depth entity)
    (λ b, b = true → is_nil (query_issues entity enclosing (specs ns) ctx slot ns) = true).
Proof.
  intros Hq. unfold query_slot. charge. eapply returns_bind; [apply plan_query_returns|].
  intros p [Hp|Hp]; subst p; [|by apply returns_ret].
  unfold query_issues, ControlledFacts.plan_of, Fitting.reach. rewrite Hq. cbn [negb].
  assert (Hgo : ∀ tag transitive inverse, _) by exact (follow_returns depth entity).
  assert (Hend : ∀ l, (is_maybe slot = true ∨ is_nil (counted slot enclosing (specs ns) l ns) = false) →
    is_nil (if is_nil (counted slot enclosing (specs ns) l ns) && negb (is_maybe slot)
            then [Fitting.violation slot "query" (Fitting.unreached_detail slot)] else []) = true).
  { intros l [Hx|Hx]; rewrite Hx; [by rewrite andb_false_r|done]. }
  destruct (Fitting.str_meta slot "via") as [via|].
  { destruct (Fitting.split_via via) as [tag transitive].
    eapply returns_weaken; [|apply (Hgo tag transitive false)]. auto. }
  destruct (Fitting.str_meta slot "inverse") as [inv|]; [|by apply returns_ret].
  destruct (Fitting.resolve_inverse_via inv (specs ns)) as [[tag transitive]|]; [|by apply returns_ret].
  rewrite Hinverse. eapply returns_weaken; [|apply (Hgo tag transitive true)]. auto.
Qed.
End slot.
End query.

(** ** Terms *)

Lemma available_returns term : returns (catalog_term_available (Some ns) term) (λ _, True).
Proof.
  unfold catalog_term_available. charge. charge.
  destruct (Namespace.resolve_spec_term ns term) as [[s|name]|]; [apply visible_spec_returns| |by apply returns_ret].
  eapply returns_weaken; [|apply visible_def_returns]. done.
Qed.

Lemma selected_visible_returns n c next : returns (selected_visible n c ns next) (λ _, True).
Proof.
  revert next. induction n as [|n IH]; intros [name|]; simpl; try (by apply returns_ret); [apply returns_exhausted|].
  charge. destruct (get_spec ns name); [|by apply returns_ret].
  eapply returns_bind; [apply visible_spec_returns|]. intros [] _; simpl; [apply IH|by apply returns_ret].
Qed.
Lemma fits_selected_returns c entity term :
  selected ns = Some c → is_Some (declaration c term) →
  returns (fits_selected fuel entity term c ns)
    (λ b, b = true → strict_fits c term entity (Some (ctx_forward ctx)) = true).
Proof.
  intros Hc Hd. unfold fits_selected.
  eapply returns_bind; [apply selected_visible_returns|]. intros [] _; [|by apply returns_ret].
  intros env Hv. destruct (fit_entity c term entity env) as [r env'] eqn:Hr.
  pose proof (Hstrict c term entity env r env' Hc Hd Hv Hr) as Hs. destruct r as [u|[|x]]; [|by split|done].
  by destruct Hs.
Qed.

Lemma fits_term_with_returns (query : Spec → Slot → HDict → N → C bool) entity term queries depth
    (Q : Spec → Slot → bool) :
  (∀ spec slot depth, specs ns !! term = Some spec → strict_for ns term = None →
     slot ∈ spec_slots spec → slot_is_query slot = true →
     returns (if queries : bool then query spec slot entity depth else mret true)
       (λ b, b = true → Q spec slot = true)) →
  (∀ spec slot, slot_is_query slot = false → Q spec slot = true) →
  returns (fits_term_with fuel query entity term ns queries depth)
    (λ b, b = true → match strict_for ns term with
     | Some c => strict_fits c term entity (Some (ctx_forward ctx)) = true
     | None =>
         match Namespace.resolve_spec_term ns term with
         | Some (TDef name) => member MAX_CONJUNCT_DEPTH entity name ns = true
         | Some (TSpec spec) => is_nil (Fitting.explain_plain entity spec (specs ns)) = true ∧
                                forallb (Q spec) (spec_slots spec) = true
         | None => False
         end
     end).
Proof.
  intros HQ HnQ. unfold fits_term_with. charge. eapply returns_bind; [apply available_returns|].
  intros [] _; simpl; [|by apply returns_ret].
  fold (strict_for ns term). destruct (strict_for ns term) as [c|] eqn:Hsf.
  { apply ControlledFacts.strict_for_Some in Hsf as [Hc Hd]. by apply fits_selected_returns. }
  destruct (Namespace.resolve_spec_term ns term) as [[spec|name]|] eqn:Hr; [| |by apply returns_ret].
  - apply ControlledFacts.resolve_spec_registered in Hr.
    apply fits_spec_returns; [by eapply (ControlledFacts.spec_keyed ns Hplain)|auto|auto].
  - eapply returns_weaken; [|apply (member_of_returns fuel MAX_CONJUNCT_DEPTH); right;
      unfold MAX_CONJUNCT_DEPTH; lia]. done.
Qed.

Lemma fits_reached_returns entity term depth :
  strict_for ns term = None →
  returns (fits_reached fuel ns entity term depth) (λ b, b = true → term_fits entity term ns = true).
Proof.
  intros Hn. unfold fits_reached, term_fits. rewrite Hn.
  eapply returns_weaken; [|apply (fits_term_with_returns _ _ _ _ _ (λ _ _, true));
    [intros; by apply returns_ret|done]].
  intros b Hb Ht. specialize (Hb Ht). rewrite Hn in Hb.
  destruct (Namespace.resolve_spec_term ns term) as [[]|]; naive_solver.
Qed.

(** Masking never adds a match. *)
Lemma fits_term_sound entity term depth :
  returns (fits_term fuel entity term ns true depth)
    (λ b, b = true → term_fits_with entity term (Some ctx) ns = true).
Proof.
  unfold fits_term, term_fits_with.
  eapply returns_weaken; [|apply (fits_term_with_returns _ _ _ _ _
    (λ spec slot, is_nil (query_issues entity spec (specs ns) ctx slot ns)))].
  - intros b Hb Ht. specialize (Hb Ht). destruct (strict_for ns term) as [c|]; [exact Hb|].
    destruct (Namespace.resolve_spec_term ns term) as [[spec|name]|]; [|done..].
    unfold spec_issues. rewrite is_nil_app, is_nil_concat. by destruct Hb as [-> ->].
  - intros spec slot d Hsp Hn Hin Hq. apply query_slot_returns; [apply fits_reached_returns| |done].
    by eapply (ControlledFacts.spec_asks_plain ns Hplain).
  - intros spec slot Hq. unfold query_issues. by rewrite Hq.
Qed.

(** Filters without negation: paths, comparisons, spec terms, and, or. *)
Fixpoint positive (node : FilterNode) : bool :=
  match node with
  | Missing _ => false
  | And l r | Or l r => positive l && positive r
  | _ => true
  end.

Lemma walk_returns entity path :
  path ≠ [] →
  returns (walk entity path) (λ owner, ∀ e, owner = Some e →
    walk_path (ctx_forward ctx) entity path = last path ≫= HDict.get e).
Proof.
  revert entity. induction path as [|tag path IH]; intros entity Hne; [done|].
  destruct path as [|tag' path]; [apply returns_ret; by intros e [= <-]|].
  cbn [walk walk_path]. charge. destruct (HDict.get entity tag) as [v|]; [|by apply returns_ret].
  destruct v; try (by apply returns_ret).
  apply (returns_bind _ _ (λ o, ∀ e, o = Some e → ctx_forward ctx v = Some e)).
  { apply returns_op. intros env o env' Hv Hr. by apply (mask_forward Hmask _ _ _ _ Hv Hr). }
  intros [e|] Ho; [|by apply returns_ret]. rewrite (Ho e eq_refl). simpl. by apply IH.
Qed.

Lemma resolve_path_returns entity path :
  returns (Controlled.resolve_path entity path) (λ owner, ∀ e, owner = Some e →
    Filter.resolve_path path entity (Some ctx) = HDict.get e (last_tag path) ∧
    last path ≫= HDict.get e = HDict.get e (last_tag path)).
Proof.
  unfold Controlled.resolve_path. case_decide as Hp; [by apply returns_ret|].
  eapply returns_weaken; [|by apply walk_returns]. intros owner Ho e He.
  assert (Hl : last path ≫= HDict.get e = HDict.get e (last_tag path)).
  { unfold last_tag. destruct (last path) eqn:Hl; [done|]. by apply last_None in Hl. }
  split; [|done]. rewrite <-Hl, <-(Ho e He). by destruct path as [|tag [|]].
Qed.

Lemma matches_at_sound node entity depth :
  positive node = true →
  returns (matches_at fuel node entity (Some ns) depth)
    (λ b, b = true →
       @matches_with_ns Fitting.namespace_ontology node entity (Some ctx) (Some ns) = true).
Proof.
  revert depth. induction node as [path|path|path o v|l IHl r IHr|l IHl r IHr|term];
    intros depth; simpl; intros Hpos; try done; (charge; charge).
  - eapply returns_bind; [apply resolve_path_returns|]. intros [e|] Ho; apply returns_ret; [|done].
    destruct (Ho e eq_refl) as [-> _]. done.
  - eapply returns_bind; [apply resolve_path_returns|]. intros [e|] Ho; simpl; [|by apply returns_ret].
    destruct (Ho e eq_refl) as [-> ->]. destruct (HDict.get e (last_tag path)); [|by apply returns_ret].
    apply (returns_bind _ _ (λ _, True)); [|intros; by apply returns_ret].
    apply returns_op. intros env a env' Hv Hr. split; [|done]. by eapply mask_comparison.
  - apply andb_true_iff in Hpos as [Hl Hr].
    eapply returns_weaken; [|apply returns_and; [by apply IHl|by apply IHr]].
    intros b Hb Ht. by destruct (Hb Ht) as [-> ->].
  - apply andb_true_iff in Hpos as [Hl Hr]. apply returns_or.
    + eapply returns_weaken; [|by apply IHl]. intros b Hb Ht. by rewrite Hb.
    + eapply returns_weaken; [|by apply IHr]. intros b Hb Ht. rewrite Hb by done. apply orb_true_r.
  - rewrite (answers_run _ _ ns (fits_spec_term_with_answers entity term (Some ctx))).
    + apply fits_term_sound.
    + apply (ex_indexed _ (ControlledFacts.pl_tight _ Hplain)).
Qed.
End masked.

(** ** Stops *)

Section traced.
Context `{HashOrder, Casing, StrictCatalog, RegexCrate, FloatText}.
Context {QE : QueryEnvironment} {SF : StrictFit}.

(** An environment that remembers the errors its operations return. *)
Definition logs_op {A} (log : Env → list EnvError) (f : Env → result EnvError A * Env) : Prop :=
  ∀ env, match f env with
         | (Ok _, env') => log env' = log env
         | (Err e, env') => log env' = log env ++ [e]
         end.
Record logs (log : Env → list EnvError) : Prop := {
  logs_work n : logs_op log (env_work n);
  logs_retain n : logs_op log (env_retain n);
  logs_depth n : logs_op log (env_depth n);
  logs_comparison a b : logs_op log (env_comparison a b);
  logs_forward r : logs_op log (env_forward r);
  logs_inverse r tag : logs_op log (env_inverse r tag);
  logs_visible k name : logs_op log (env_catalog_visible k name);
  logs_strict c term entity env :
    match fit_entity c term entity env with
    | (Ok _, env') | (Err FitInvalid, env') => log env' = log env
    | (Err (FitControl e), env') => log env' = log env ++ [e]
    end
}.

Context (log : Env → list EnvError) (L : logs log).

(** An answer comes without an error, an error is the last one logged or the
    limit on patterns. *)
Definition traced {A} (m : C A) : Prop :=
  ∀ env, match m env with
         | Some (Ok _, env') => log env' = log env
         | Some (Err e, env') =>
             log env' = log env ++ [e] ∨ (log env' = log env ∧ e = env_regex_limit_error env')
         | None => True
         end.

Lemma traced_ret {A} (a : A) : traced (mret a).
Proof. by intros env. Qed.
Lemma traced_bind {A B} (m : C A) (k : A → C B) :
  traced m → (∀ a, traced (k a)) → traced (m ≫= k).
Proof.
  intros Hm Hk env. specialize (Hm env). unfold mbind, C_bind.
  destruct (m env) as [[[a|e] env']|]; [|done..]. specialize (Hk a env').
  destruct (k a env') as [[[b|e] env'']|]; rewrite <-?Hm; done.
Qed.
Lemma traced_op {A} (f : Env → result EnvError A * Env) : logs_op log f → traced (op f).
Proof. intros Hf env. specialize (Hf env). unfold op. destruct (f env) as [[a|e] env']; auto. Qed.
Lemma traced_stop {A} : traced (@stop _ A env_regex_limit_error).
Proof. intros env. by right. Qed.
Lemma traced_asks {A} (f : Env → A) : traced (asks f).
Proof. by intros env. Qed.
Lemma traced_exhausted {A} : traced (@exhausted _ A).
Proof. by intros env. Qed.
Lemma traced_work n : traced (work n).
Proof. apply traced_op, L. Qed.
Lemma traced_retain n : traced (retain n).
Proof. apply traced_op, L. Qed.
Lemma traced_depth n : traced (depth_check n).
Proof. apply traced_op, L. Qed.
Lemma traced_visible k name : traced (op (env_catalog_visible k name)).
Proof. apply traced_op, L. Qed.
Lemma traced_and a b : traced a → traced b → traced (and_then a b).
Proof. intros Ha Hb. apply traced_bind; [done|]. intros []; [done|apply traced_ret]. Qed.
Lemma traced_or a b : traced a → traced b → traced (or_else a b).
Proof. intros Ha Hb. apply traced_bind; [done|]. intros []; [apply traced_ret|done]. Qed.
Lemma traced_all {A} (f : A → C bool) l : (∀ a, traced (f a)) → traced (all_c f l).
Proof. intros Hf. induction l; simpl; [apply traced_ret|by apply traced_and]. Qed.
Lemma traced_fold {A S} (f : S → A → C S) l s : (∀ s a, traced (f s a)) → traced (fold_c f s l).
Proof.
  intros Hf. revert s. induction l as [|a l IH]; intros s; simpl; [apply traced_ret|].
  apply traced_bind; [apply Hf|intros; apply IH].
Qed.

Create HintDb traced.
#[local] Hint Resolve traced_ret traced_op traced_stop traced_asks traced_exhausted traced_work
  traced_retain traced_depth traced_visible traced_and traced_or traced_all traced_fold
  logs_forward logs_inverse logs_comparison : traced.

(** Follows the structure of a computation. *)
Ltac trace :=
  repeat first
    [ solve [eauto with traced] | apply traced_bind | apply traced_all | apply traced_and
    | apply traced_or | apply traced_fold | case_match | progress intros ].

Lemma visible_def_traced ns name : traced (visible_def ns name).
Proof. unfold visible_def. trace. Qed.
Lemma visible_spec_traced s : traced (visible_spec s).
Proof. unfold visible_spec. trace. Qed.
#[local] Hint Resolve visible_def_traced visible_spec_traced : traced.

Lemma available_traced ns term : traced (catalog_term_available ns term).
Proof. unfold catalog_term_available. trace. Qed.
Lemma walk_traced entity path : traced (walk entity path).
Proof.
  revert entity. induction path as [|tag path IH]; intros entity; [apply traced_ret|].
  destruct path; [apply traced_ret|]. cbn [walk]. trace.
Qed.
Lemma climb_traced n ns wanted todo seen : traced (climb n ns wanted todo seen).
Proof.
  revert todo seen. induction n as [|n IH]; intros [|c todo] seen; simpl; trace.
Qed.
#[local] Hint Resolve available_traced walk_traced climb_traced : traced.

Lemma any_marker_traced fuel ns wanted tags : traced (any_marker fuel ns wanted tags).
Proof. induction tags as [|[tag v] tags IH]; simpl; trace. Qed.
#[local] Hint Resolve any_marker_traced : traced.
Lemma member_of_traced fuel n entity wanted ns depth : traced (member_of fuel n entity wanted ns depth).
Proof. revert wanted depth. induction n as [|n IH]; intros wanted depth; simpl; trace. Qed.
Lemma constraints_traced v slot : traced (constraints v slot).
Proof.
  assert (Hb : ∀ lo hi x, traced (bounds slot lo hi x)) by (intros; unfold bounds; trace).
  assert (Hp : ∀ text pattern, traced (pattern_constraint text pattern)).
  { intros. unfold pattern_constraint, reserve_regex_construction. trace. }
  unfold constraints, number_constraints, size_constraints, text_constraints. trace.
Qed.
Lemma find_query_slot_traced name slots : traced (find_query_slot name slots).
Proof. induction slots as [|c slots IH]; simpl; trace. Qed.
#[local] Hint Resolve member_of_traced constraints_traced find_query_slot_traced : traced.
Lemma plan_query_traced ns slot : traced (plan_query ns slot).
Proof. unfold plan_query. trace. Qed.
#[local] Hint Resolve plan_query_traced : traced.

Section traced_query.
Context (fits : HDict → string → N → C bool) (Hfits : ∀ e term d, traced (fits e term d)).
#[local] Hint Resolve Hfits : traced.
Lemma visit_reached_traced ns enclosing slot depth tag transitive inverse seen acc e :
  traced (visit_reached fits ns enclosing slot depth tag transitive inverse seen acc e).
Proof. unfold visit_reached, of_matches. trace. Qed.
#[local] Hint Resolve visit_reached_traced : traced.
Lemma traverse_traced ns enclosing slot depth n tag transitive inverse todo seen m :
  traced (traverse fits ns enclosing slot depth n tag transitive inverse todo seen m).
Proof.
  revert todo seen m. induction n as [|n IH]; intros [|id todo] seen m; simpl; trace.
Qed.
#[local] Hint Resolve traverse_traced : traced.
Lemma query_slot_traced fuel ns enclosing slot depth entity :
  traced (query_slot fuel fits ns enclosing slot depth entity).
Proof. unfold query_slot. trace. Qed.
End traced_query.

Lemma base_markers_traced n entity ns base seen : traced (base_markers n entity ns base seen).
Proof. revert base seen. induction n as [|n IH]; intros [b|] seen; simpl; trace. Qed.
Lemma selected_visible_traced n catalog ns next : traced (selected_visible n catalog ns next).
Proof. revert next. induction n as [|n IH]; intros [name|]; simpl; trace. Qed.
#[local] Hint Resolve base_markers_traced selected_visible_traced : traced.
Lemma fits_selected_traced fuel entity term catalog ns : traced (fits_selected fuel entity term catalog ns).
Proof.
  unfold fits_selected. apply traced_and; [trace|]. intros env.
  pose proof (logs_strict log L catalog term entity env) as Hs.
  destruct (fit_entity catalog term entity env) as [[[]|[|e]] env']; auto.
Qed.
#[local] Hint Resolve fits_selected_traced : traced.
Lemma fits_term_with_traced fuel query entity term ns queries depth :
  (∀ spec slot e d, traced (query spec slot e d)) →
  traced (fits_term_with fuel query entity term ns queries depth).
Proof. intros Hq. unfold fits_term_with, fits_spec. trace. Qed.

Lemma matches_at_traced fuel node entity ns depth : traced (matches_at fuel node entity ns depth).
Proof.
  revert depth. induction node; intros depth; simpl.
  all: apply traced_bind; [apply traced_depth|intros _]; apply traced_bind; [apply traced_work|intros _].
  1-3: unfold resolve_path; trace.
  1-2: trace.
  destruct ns as [ns|]; [|apply traced_ret]. apply fits_term_with_traced. intros.
  apply query_slot_traced. intros. apply fits_term_with_traced. intros. apply traced_ret.
Qed.
End traced.

(** Any environment can be made to remember. *)
Definition remember {A E V} (f : V → result E A * V) (s : V * list E) : result E A * (V * list E) :=
  let '(env, log) := s in
  match f env with
  | (Ok a, env') => (Ok a, (env', log))
  | (Err e, env') => (Err e, (env', log ++ [e]))
  end.
Definition remembering (QE : QueryEnvironment) : QueryEnvironment := {|
  Env := Env * list EnvError;
  EnvError := EnvError;
  env_work n := remember (env_work n);
  env_retain n := remember (env_retain n);
  env_depth n := remember (env_depth n);
  env_comparison a b := remember (env_comparison a b);
  env_forward r := remember (env_forward r);
  env_inverse r tag := remember (env_inverse r tag);
  env_catalog_visible k name := remember (env_catalog_visible k name);
  env_regex_source_limit s := env_regex_source_limit s.1;
  env_regex_size_limit s := env_regex_size_limit s.1;
  env_regex_limit_error s := env_regex_limit_error s.1
|}.
Definition remembering_fit `{StrictCatalog} {QE : QueryEnvironment} (SF : StrictFit)
    : @StrictFit _ (remembering QE) := λ c term entity s,
  match SF c term entity s.1 with
  | (Err (FitControl e), env') => (Err (FitControl e), (env', s.2 ++ [e]))
  | (r, env') => (r, (env', s.2))
  end.
Lemma remembering_logs `{StrictCatalog} (QE : QueryEnvironment) (SF : StrictFit) :
  @logs _ (remembering QE) (remembering_fit SF) snd.
Proof.
  assert (Hop : ∀ A (f : Env → result EnvError A * Env),
    @logs_op (remembering QE) A snd (remember f)).
  { intros A f [env l]. unfold remember. by destruct (f env) as [[a|e] env']. }
  split; intros; try apply Hop. unfold fit_entity, remembering_fit.
  by destruct (SF c term entity env.1) as [[u|[|e]] env'].
Qed.
End ControlledSafety.

(** ** Evaluation without a meter *)

Module Unmetered.
Import Namespace NamespaceFacts FittingFacts Controlled.

(** What a caller is shown of records and of the catalog, and the limits on
    patterns. *)
Record Shown : Type := mkShown {
  sh_forward : HRef → option HDict;
  sh_inverse : HRef → string → list HDict;
  sh_visible : CatalogKind → string → bool;
  sh_source_limit : N;
  sh_size_limit : N
}.

(** The environment that shows it and charges nothing; its only error is that
    a pattern is over the limits. *)
Definition environment (sh : Shown) : QueryEnvironment := {|
  Env := unit;
  EnvError := unit;
  env_work _ _ := (Ok (), ());
  env_retain _ _ := (Ok (), ());
  env_depth _ _ := (Ok (), ());
  env_comparison _ _ _ := (Ok (), ());
  env_forward r _ := (Ok (sh_forward sh r), ());
  env_inverse r tag _ := (Ok (sh_inverse sh r tag), ());
  env_catalog_visible k name _ := (Ok (sh_visible sh k name), ());
  env_regex_source_limit _ := sh_source_limit sh;
  env_regex_size_limit _ := sh_size_limit sh;
  env_regex_limit_error _ := ()
|}.

Section evaluate.
Context `{HashOrder, Casing, StrictCatalog, RegexCrate, FloatText}.
(** What the fitter of the selected catalog answers when nothing stops it. *)
Context (strict : SCatalog → string → HDict → bool) (sh : Shown).
Definition fitter : @StrictFit _ (environment sh) := λ c term e _,
  (if strict c term e then Ok () else Err FitInvalid, ()).
(** A filter over what is shown. *)
Definition evaluate (fuel : nat) (node : FilterNode) (row : HDict) (ns : t) : option (result unit bool) :=
  fst <$> matches_at (QE:=environment sh) (SF:=fitter) fuel node row (Some ns) 1 ().
End evaluate.

Section tracks.
Context `{HashOrderLaws, Casing, StrictCatalog, RegexCrate, FloatText}.
Context {QE : QueryEnvironment} {SF : StrictFit} (Pm : Env → Prop) (Stops : EnvError → Prop).
Context (strict : SCatalog → string → HDict → bool) (sh : Shown).
#[local] Instance unmetered_fit : @StrictFit _ (environment sh) := fitter strict sh.
Abbreviation responds := (ControlledFacts.responds Pm Stops).

(** An environment that shows the same, or stops. *)
Record follows : Prop := {
  fo_work n : responds (env_work n) ();
  fo_retain n : responds (env_retain n) ();
  fo_depth n : responds (env_depth n) ();
  fo_comparison a b : responds (env_comparison a b) ();
  fo_forward r : responds (env_forward r) (sh_forward sh r);
  fo_inverse r tag : responds (env_inverse r tag) (sh_inverse sh r tag);
  fo_visible k name : responds (env_catalog_visible k name) (sh_visible sh k name);
  fo_source env : Pm env → env_regex_source_limit env = sh_source_limit sh;
  fo_size env : Pm env → env_regex_size_limit env = sh_size_limit sh;
  fo_error env : Pm env → Stops (env_regex_limit_error env)
}.
(** Its fitter of the selected catalog answers [strict], or is stopped. *)
Definition fits_strictly (ns : t) : Prop := ∀ c term e,
  selected ns = Some c → is_Some (declaration c term) →
  ∀ env, Pm env → ∃ r env', fit_entity c term e env = (r, env') ∧ Pm env' ∧
    match r with
    | Ok _ => strict c term e = true
    | Err FitInvalid => strict c term e = false
    | Err (FitControl x) => Stops x
    end.
Context (Fo : follows).

(** The unmetered computation returns, a value of [P] if any, and the other
    returns the same unless it is stopped. *)
Definition tracks {A} (P : A → Prop) (m : @C QE A) (m' : @C (environment sh) A) : Prop :=
  ∃ v, m' () = Some (v, ()) ∧ (∀ a, v = Ok a → P a) ∧
    ∀ env, Pm env → ∃ r env', m env = Some (r, env') ∧ Pm env' ∧
      ((∃ e, r = Err e ∧ Stops e) ∨ ∃ a, v = Ok a ∧ r = Ok a).
Abbreviation follow m m' := (tracks (λ _, True) m m').

Lemma tracks_ret {A} (P : A → Prop) a : P a → tracks P (mret a) (mret a).
Proof.
  intros HP. exists (Ok a). split_and!; [done|by intros ? [= <-]|]. intros env Hp.
  exists (Ok a), env. split_and!; [done..|right; eauto].
Qed.
Lemma tracks_bind {A B} (P : A → Prop) (Q : B → Prop) m m' k k' :
  tracks P m m' → (∀ a, P a → tracks Q (k a) (k' a)) → tracks Q (m ≫= k) (m' ≫= k').
Proof.
  intros ([a|u] & Hm' & HP & Hm) Hk; unfold tracks, mbind, C_bind; rewrite Hm'.
  - destruct (Hk a (HP a eq_refl)) as (w & Hk' & HQ & Hrun). exists w. split_and!; [done..|].
    intros env Hp. destruct (Hm env Hp) as (r & env' & -> & Hp' & [(e & -> & He)|(a' & [= <-] & ->)]); [|eauto].
    exists (Err e), env'. split_and!; [done..|left; eauto].
  - exists (Err u). split_and!; [done..|]. intros env Hp.
    destruct (Hm env Hp) as (r & env' & -> & Hp' & [(e & -> & He)|(a' & [=] & _)]).
    exists (Err e), env'. split_and!; [done..|left; eauto].
Qed.
Lemma tracks_seq {A B} (Q : B → Prop) (m : C A) m' k k' :
  follow m m' → (∀ a, tracks Q (k a) (k' a)) → tracks Q (m ≫= k) (m' ≫= k').
Proof. intros Hm Hk. by eapply tracks_bind. Qed.
Lemma tracks_op {A} (P : A → Prop) (f : @Env QE → _)
    (f' : @Env (environment sh) → result (@EnvError (environment sh)) A * @Env (environment sh)) a :
  f' () = (Ok a, ()) → responds f a → P a → tracks P (op f) (op f').
Proof.
  intros Hf' Hf HP. exists (Ok a). unfold op. rewrite Hf'. split_and!; [done|by intros ? [= <-]|].
  intros env Hp. destruct (Hf env Hp) as (r & env' & -> & Hp' & Hs). exists r, env'. split_and!; [done..|].
  destruct Hs as [->|]; [right; eauto|by left].
Qed.
Lemma tracks_stop {A} (P : A → Prop) : tracks P (stop env_regex_limit_error) (stop env_regex_limit_error).
Proof.
  exists (Err ()). split_and!; [done..|]. intros env Hp. eexists _, env. split_and!; [done..|].
  left. eexists. split; [done|by apply Fo].
Qed.
Lemma tracks_asks {A} (P : A → Prop) (f : @Env QE → A) (f' : @Env (environment sh) → A) :
  (∀ env, Pm env → f env = f' ()) → P (f' ()) → tracks P (asks f) (asks f').
Proof.
  intros Hf HP. exists (Ok (f' ())). split_and!; [done|by intros ? [= <-]|]. intros env Hp.
  exists (Ok (f env)), env. split_and!; [done..|]. rewrite Hf by done. right; eauto.
Qed.
Lemma tracks_work n : follow (work n) (work n).
Proof. by eapply tracks_op; [|apply Fo|]. Qed.
Lemma tracks_retain n : follow (retain n) (retain n).
Proof. by eapply tracks_op; [|apply Fo|]. Qed.
Lemma tracks_depth n : follow (depth_check n) (depth_check n).
Proof. by eapply tracks_op; [|apply Fo|]. Qed.
Lemma tracks_visible k name :
  follow (op (env_catalog_visible k name)) (op (env_catalog_visible k name)).
Proof. by eapply tracks_op; [|apply Fo|]. Qed.
Lemma tracks_comparison a b : follow (op (env_comparison a b)) (op (env_comparison a b)).
Proof. by eapply tracks_op; [|apply Fo|]. Qed.
Lemma tracks_forward r : follow (op (env_forward r)) (op (env_forward r)).
Proof. by eapply tracks_op; [|apply Fo|]. Qed.
Lemma tracks_size : follow (asks env_regex_size_limit) (asks env_regex_size_limit).
Proof. apply tracks_asks; [apply Fo|done]. Qed.
Lemma tracks_source : follow (asks env_regex_source_limit) (asks env_regex_source_limit).
Proof. apply tracks_asks; [apply Fo|done]. Qed.
Lemma tracks_and a b a' b' : follow a a' → follow b b' → follow (and_then a b) (and_then a' b').
Proof. intros Ha Hb. eapply tracks_bind; [exact Ha|]. intros [] _; [done|by apply tracks_ret]. Qed.
Lemma tracks_or a b a' b' : follow a a' → follow b b' → follow (or_else a b) (or_else a' b').
Proof. intros Ha Hb. eapply tracks_bind; [exact Ha|]. intros [] _; [by apply tracks_ret|done]. Qed.
Lemma tracks_all {A} (f : A → C bool) f' l :
  (∀ a, a ∈ l → follow (f a) (f' a)) → follow (all_c f l) (all_c f' l).
Proof.
  induction l as [|a l IH]; intros Hf; simpl; [by apply tracks_ret|].
  apply tracks_and; [apply Hf; left|apply IH; intros; apply Hf; by right].
Qed.
(** A loop that adds at most one entry each time. *)
Lemma tracks_pushes {A E S} (f : list E * S → A → C (list E * S)) f' l s :
  (∀ s a, tracks (λ s', length s'.1 ≤ 1 + length s.1) (f s a) (f' s a)) →
  tracks (λ s', length s'.1 ≤ length l + length s.1) (fold_c f s l) (fold_c f' s l).
Proof.
  intros Hf. assert (Hgen : ∀ n s, length s.1 ≤ n →
    tracks (λ s', length s'.1 ≤ length l + n) (fold_c f s l) (fold_c f' s l)); [|by apply Hgen].
  clear s. induction l as [|a l IH]; intros n s Hs; simpl; [by apply tracks_ret|].
  eapply tracks_bind; [apply Hf|]. intros s' Hs'. simpl in Hs'. rewrite <-Nat.add_succ_r. apply IH. lia.
Qed.

Create HintDb tracks.
#[local] Hint Resolve tracks_stop tracks_work tracks_retain tracks_depth tracks_visible
  tracks_comparison tracks_forward tracks_size tracks_source : tracks.
#[local] Hint Extern 1 (tracks _ (mret _) (mret _)) => by apply tracks_ret : tracks.
(** Follows the structure of the two computations. *)
Ltac track :=
  repeat first
    [ solve [eauto with tracks nocore] | apply tracks_all | apply tracks_and | apply tracks_or
    | apply tracks_seq | case_match | progress intros ].

(** ** Everything but the loops *)

Lemma visible_def_tracks ns name : follow (visible_def ns name) (visible_def ns name).
Proof. unfold visible_def. track. Qed.
Lemma visible_spec_tracks s : follow (visible_spec s) (visible_spec s).
Proof. unfold visible_spec. track. Qed.
#[local] Hint Resolve visible_def_tracks visible_spec_tracks : tracks.
Lemma available_tracks ns term :
  follow (catalog_term_available ns term) (catalog_term_available ns term).
Proof. unfold catalog_term_available. track. Qed.
Lemma walk_tracks entity path : follow (walk entity path) (walk entity path).
Proof.
  revert entity. induction path as [|tag path IH]; intros entity; [by apply tracks_ret|].
  destruct path; [by apply tracks_ret|]. cbn [walk]. track.
Qed.
#[local] Hint Resolve available_tracks walk_tracks : tracks.
Lemma constraints_tracks v slot : follow (constraints v slot) (constraints v slot).
Proof.
  assert (Hb : ∀ lo hi x, follow (bounds slot lo hi x) (bounds slot lo hi x)) by (intros; unfold bounds; track).
  assert (Hp : ∀ text pattern, follow (pattern_constraint text pattern) (pattern_constraint text pattern)).
  { intros. unfold pattern_constraint, reserve_regex_construction. track. }
  unfold constraints, number_constraints, size_constraints, text_constraints. track.
Qed.
Lemma find_query_slot_tracks name slots :
  follow (find_query_slot name slots) (find_query_slot name slots).
Proof. induction slots as [|c slots IH]; simpl; track. Qed.
#[local] Hint Resolve constraints_tracks find_query_slot_tracks : tracks.
Lemma plan_query_tracks ns slot : follow (plan_query ns slot) (plan_query ns slot).
Proof. unfold plan_query. track. Qed.
#[local] Hint Resolve plan_query_tracks : tracks.

(** ** The loops end *)

Context (ns : t) (Hok : NamespaceInv.ok ns) (Hstrict : fits_strictly ns).
(** The chains of bases of the selected catalog end. *)
Definition grounded : Prop := ∀ c q s, selected ns = Some c → declaration c q = Some s →
  ControlledFacts.rooted (size (specs ns)) c q.
Context (Hroot : grounded).
(** What bounds the references a traversal still has to follow. *)
Context (left : string → bool → gset string → nat).
Definition steps_to (inverse : bool) (tag : string) (id : HRef) : list HDict :=
  if inverse then sh_inverse sh id tag else option_list (sh_forward sh id).
Context (Hleft : ∀ tag inverse seen id, ref_val id ∉ seen →
  left tag inverse ({[ref_val id]} ∪ seen) + length (steps_to inverse tag id) ≤ left tag inverse seen).
Context (fuel : nat) (Htwo : 2 ≤ fuel).
Context (Hup : 1 + pending (ControlledFacts.is_map ns) ∅ ≤ fuel).
Context (Hacross : ∀ tag inverse, left tag inverse ∅ < fuel) (Hbases : size (specs ns) < fuel).

Lemma push_parents_tracks todo is_ :
  tracks (λ l, length l = length is_ + length todo) (push_parents todo is_) (push_parents todo is_).
Proof.
  unfold push_parents. revert todo. induction is_ as [|p is_ IH]; intros todo; simpl; [by apply tracks_ret|].
  apply (tracks_bind (λ l, l = p :: todo)); [track|]. intros l ->.
  rewrite <-Nat.add_succ_r. apply (IH (p :: todo)).
Qed.

Lemma climb_tracks n wanted todo seen :
  length todo + pending (ControlledFacts.is_map ns) seen ≤ n →
  follow (climb n ns wanted todo seen) (climb n ns wanted todo seen).
Proof.
  revert todo seen. induction n as [|n IH]; intros [|c todo] seen Hn; simpl in *; try (by apply tracks_ret); [lia|].
  apply tracks_seq; [track|]. intros _. destruct (decide (c ∈ seen)) as [Hc|Hc]; [apply IH; lia|].
  apply tracks_seq; [track|]. intros _. apply tracks_seq; [track|]. intros vis.
  pose proof (pending_visit (ControlledFacts.is_map ns) seen c Hc) as Hpay.
  destruct vis; simpl; [|apply IH; lia]. destruct (decide (c = wanted)); [track|].
  apply (tracks_bind (λ l, length l ≤ length (targets (ControlledFacts.is_map ns) c) + length todo)).
  - unfold get_def, targets, ControlledFacts.is_map. rewrite lookup_fmap.
    destruct (defs ns !! c) as [d|]; simpl; [|by apply tracks_ret].
    destruct (push_parents_tracks todo (def_is d)) as (v & Hv & HP & Hrun). exists v.
    split_and!; [done| |done]. intros l Hl. rewrite (HP l Hl). done.
  - intros l Hl. apply IH. lia.
Qed.
Lemma any_marker_tracks wanted tags :
  follow (any_marker fuel ns wanted tags) (any_marker fuel ns wanted tags).
Proof.
  induction tags as [|[tag v] tags IH]; simpl; [by apply tracks_ret|].
  apply tracks_seq; [track|]. intros _. destruct v; try exact IH.
  apply tracks_seq; [track|]. intros _. apply tracks_or; [by apply climb_tracks|exact IH].
Qed.

Lemma member_of_tracks n entity name depth :
  (if conjunct_parts ns name then 1 else 0) < n →
  follow (member_of fuel n entity name ns depth) (member_of fuel n entity name ns depth).
Proof.
  revert name depth. induction n as [|n IH]; intros name depth Hn; [lia|]. cbn [member_of].
  apply tracks_seq; [track|]. intros _. apply tracks_seq; [track|]. intros vis.
  destruct vis; simpl; [|track]. destruct (conjunct_parts ns name) as [ps|] eqn:Hc; [|apply any_marker_tracks].
  destruct (decide (ps = [])); [track|]. apply tracks_all. intros p Hp.
  apply tracks_seq; [track|]. intros _. apply IH.
  destruct (NamespaceInv.do_indexed _ (NamespaceInv.ok_defs _ Hok)) as (ds & Hi & _).
  rewrite (conjunct_flat ds ns name ps p) by done. lia.
Qed.

Section query.
Context (fits : HDict → string → N → @C QE bool) (fits' : HDict → string → N → @C (environment sh) bool).
Context (Hfits : ∀ e term d, follow (fits e term d) (fits' e term d)).
Context (enclosing : Spec) (slot : Slot) (depth : N).
Lemma visit_reached_tracks tag transitive inverse seen acc e :
  tracks (λ s', length s'.1 ≤ 1 + length acc.1)
    (visit_reached fits ns enclosing slot depth tag transitive inverse seen acc e)
    (visit_reached fits' ns enclosing slot depth tag transitive inverse seen acc e).
Proof.
  unfold visit_reached, of_matches. apply tracks_seq; [track|]. intros _.
  apply tracks_seq; [track|]. intros ok. repeat case_match; try (apply tracks_ret; simpl; lia).
  apply tracks_seq; [track|]. intros _. apply tracks_ret. simpl. lia.
Qed.
Lemma reached_tracks inverse tag id :
  tracks (λ l, l = steps_to inverse tag id)
    (if inverse then op (env_inverse id tag)
     else e ← op (env_forward id); match e with Some e => retain 32;; mret [e] | None => mret [] end)
    (if inverse then op (env_inverse id tag)
     else e ← op (env_forward id); match e with Some e => retain 32;; mret [e] | None => mret [] end).
Proof.
  unfold steps_to. destruct inverse; [by eapply tracks_op; [|apply Fo|]|].
  apply (tracks_bind (λ o, o = sh_forward sh id)); [by eapply tracks_op; [|apply Fo|]|].
  intros o ->. destruct (sh_forward sh id); [|by apply tracks_ret]. apply tracks_seq; [track|].
  intros _. by apply tracks_ret.
Qed.
Lemma traverse_tracks n tag transitive inverse todo seen m :
  length todo + left tag inverse seen ≤ n →
  follow (traverse fits ns enclosing slot depth n tag transitive inverse todo seen m)
    (traverse fits' ns enclosing slot depth n tag transitive inverse todo seen m).
Proof.
  revert todo seen m. induction n as [|n IH]; intros [|id todo] seen m Hn; simpl in *;
    try (by apply tracks_ret); [lia|].
  apply tracks_seq; [track|]. intros _. destruct (decide (ref_val id ∈ seen)) as [Hin|Hin]; [apply IH; lia|].
  apply tracks_seq; [track|]. intros _. pose proof (Hleft tag inverse seen id Hin) as Hpay.
  eapply tracks_bind; [apply reached_tracks|]. intros l ->.
  eapply tracks_bind; [apply tracks_pushes; intros; apply visit_reached_tracks|].
  intros [td mt] Htd. simpl in Htd. destruct transitive; [apply IH; lia|track].
Qed.
Lemma query_slot_tracks entity :
  follow (query_slot fuel fits ns enclosing slot depth entity)
    (query_slot fuel fits' ns enclosing slot depth entity).
Proof.
  unfold query_slot. apply tracks_seq; [track|]. intros _. apply tracks_seq; [track|]. intros plan.
  destruct plan as [tag transitive inverse| |]; [|track..]. apply tracks_seq; [track|]. intros _.
  apply (tracks_bind (λ l, length l ≤ 1)).
  - destruct (continuation tag inverse entity); [|apply tracks_ret; simpl; lia].
    apply tracks_seq; [track|]. intros _. apply tracks_ret. simpl. lia.
  - intros todo Htodo. apply tracks_seq; [|track]. apply traverse_tracks.
    specialize (Hacross tag inverse). lia.
Qed.
End query.

Lemma base_markers_tracks n entity base seen :
  (∀ b, base = Some b → specs ns !! spec_qname b = Some b) → size (keys_left (specs ns) seen) < n →
  follow (base_markers n entity ns base seen) (base_markers n entity ns base seen).
Proof.
  revert base seen. induction n as [|n IH]; intros [b|] seen Hb Hn; simpl; try (by apply tracks_ret); [lia|].
  specialize (Hb b eq_refl). apply tracks_seq; [track|]. intros _.
  destruct (decide (spec_qname b ∈ seen)) as [Hin|Hin]; [track|].
  apply tracks_seq; [track|]. intros _. apply tracks_seq; [track|]. intros vis. destruct vis; simpl; [|track].
  apply tracks_and; [track|]. apply IH.
  - intros b' Hb'. destruct (spec_base b) as [k|]; [|done]. simpl in Hb'. unfold get_spec in Hb'.
    by rewrite (NamespaceInv.so_keyed _ (NamespaceInv.ok_specs _ Hok) k b' Hb').
  - pose proof (keys_left_shrinks (specs ns) seen (spec_qname b) b Hb Hin). lia.
Qed.

Lemma selected_visible_tracks n m c q :
  ControlledFacts.rooted n c q → n < m →
  follow (selected_visible m c ns (Some q)) (selected_visible m c ns (Some q)).
Proof.
  revert m q. induction n as [|n IH]; intros [|m] q Hr Hnm; try lia; cbn [selected_visible] in *;
    (apply tracks_seq; [track|]); intros _; (destruct (get_spec ns q); [|track]);
    (apply tracks_seq; [track|]); intros vis; (destruct vis; simpl; [|track]); cbn [ControlledFacts.rooted] in Hr;
    destruct (declaration c q ≫= spec_base) as [b|]; try done; try (destruct m; by apply tracks_ret).
  apply IH; [done|lia].
Qed.
Lemma fits_selected_tracks c entity term :
  selected ns = Some c → is_Some (declaration c term) →
  follow (fits_selected fuel entity term c ns) (fits_selected fuel entity term c ns).
Proof.
  intros Hc [s Hd]. unfold fits_selected. apply tracks_and.
  { eapply selected_visible_tracks; [by eapply Hroot|done]. }
  exists (Ok (strict c term entity)). split_and!; [|done|].
  - unfold fit_entity, unmetered_fit, fitter. by destruct (strict c term entity).
  - intros env Hp. destruct (Hstrict c term entity Hc ltac:(eauto) env Hp) as (r & env' & -> & Hp' & Hr).
    eexists _, env'. split; [done|]. split; [done|].
    destruct r as [u|[|x]]; [right; rewrite Hr; eauto..|left; eauto].
Qed.

Lemma fits_term_with_tracks query query' entity term queries depth :
  (∀ spec slot e d, follow (query spec slot e d) (query' spec slot e d)) →
  follow (fits_term_with fuel query entity term ns queries depth)
    (fits_term_with fuel query' entity term ns queries depth).
Proof.
  intros Hq. unfold fits_term_with. apply tracks_seq; [track|]. intros _.
  apply tracks_seq; [track|]. intros av. destruct av; simpl; [|track].
  fold (strict_for ns term). destruct (strict_for ns term) as [c|] eqn:Hsf.
  { apply ControlledFacts.strict_for_Some in Hsf as [Hc Hd]. by apply fits_selected_tracks. }
  destruct (resolve_spec_term ns term) as [[spec|name]|] eqn:Hr; [| |track].
  - apply ControlledFacts.resolve_spec_registered in Hr.
    unfold fits_spec. apply tracks_seq; [track|]. intros _. apply tracks_and; [|track].
    apply base_markers_tracks.
    + intros b [= <-]. by rewrite (NamespaceInv.so_keyed _ (NamespaceInv.ok_specs _ Hok) term spec Hr).
    + unfold keys_left. eapply Nat.le_lt_trans; [apply map_size_filter|done].
  - apply member_of_tracks. destruct (conjunct_parts ns name); lia.
Qed.

(** The evaluation ends, with or without a meter, and the meter changes no
    answer. *)
Lemma matches_at_tracks node entity depth :
  follow (matches_at fuel node entity (Some ns) depth) (matches_at fuel node entity (Some ns) depth).
Proof.
  revert depth. induction node; intros depth; simpl.
  all: apply tracks_seq; [track|intros _]; apply tracks_seq; [track|intros _].
  1-3: unfold resolve_path; track.
  1-2: track.
  apply fits_term_with_tracks. intros. apply query_slot_tracks. intros. apply fits_term_with_tracks.
  intros. by apply tracks_ret.
Qed.
Lemma evaluate_tracks node entity :
  ∃ v, evaluate strict sh fuel node entity ns = Some v ∧
    ∀ env, Pm env → ∃ r env', matches_at fuel node entity (Some ns) 1 env = Some (r, env') ∧ Pm env' ∧
      ((∃ e, r = Err e ∧ Stops e) ∨ ∃ a, v = Ok a ∧ r = Ok a).
Proof.
  destruct (matches_at_tracks node entity 1) as (v & Hv & _ & Hrun). exists v. split; [|done].
  exact (f_equal (fmap fst) Hv).
Qed.
End tracks.
End Unmetered.
