(* ===== verification/Changelog.v ===== *)
(** * Changelog

    [haystack-core/src/graph/changelog.rs] and the retention code of
    [entity_graph.rs].  The log is a bounded queue of diffs grouped in commit
    units; eviction drops whole units from the front.  [ChangeLog] holds the
    five fields of [EntityGraph] that make it up.

    [wf] is the invariant: the retained versions run without a gap from the
    floor to the head, they are cut into complete units, and the byte count
    is exact and within the limits.  From it follow termination of eviction,
    what a subscriber reads, and that it never reads part of a unit. *)

From S2P Require Import Prelude Floats Kinds.

(** [CommitSpan]. *)
Record CommitSpan : Type := mkSpan { span_first : N; span_last : N }.
#[export] Instance CommitSpan_eq_dec : EqDecision CommitSpan.
Proof. solve_decision. Defined.
Definition singleton (version : N) : CommitSpan := mkSpan version version.

Inductive DiffOp : Type := DAdd | DUpdate | DRemove.
#[export] Instance DiffOp_eq_dec : EqDecision DiffOp.
Proof. solve_decision. Defined.

(** [GraphDiff]. *)
Record GraphDiff : Type := mkDiff {
  version : N;
  span : CommitSpan;
  retained_bytes : N;
  timestamp : Z;
  diff_op : DiffOp;
  diff_ref : string;
  diff_old : option HDict;
  diff_new : option HDict;
  changed_tags : option HDict;
  previous_tags : option HDict
}.

Definition set_timestamp (now : Z) (d : GraphDiff) : GraphDiff :=
  mkDiff (version d) (span d) (retained_bytes d) now (diff_op d) (diff_ref d)
         (diff_old d) (diff_new d) (changed_tags d) (previous_tags d).
Definition set_span (s : CommitSpan) (d : GraphDiff) : GraphDiff :=
  mkDiff (version d) s (retained_bytes d) (timestamp d) (diff_op d) (diff_ref d)
         (diff_old d) (diff_new d) (changed_tags d) (previous_tags d).

(** [ChangelogGap] and [ChangeCursorError]. *)
Record ChangelogGap : Type := mkGap { subscriber_version : N; gap_floor : N }.
Inductive ChangeCursorError : Type :=
| Gap (gap : ChangelogGap)
| Future (head : N)
| InsideUnit (s : CommitSpan).

Definition total_bytes (l : list GraphDiff) : N := foldr (λ d n, retained_bytes d + n)%N 0%N l.

Module ChangeLog.

Record t : Type := mk {
  log : list GraphDiff;
  capacity : N;
  byte_capacity : N;
  bytes : N;
  floor : N
}.

(** The inner loop of eviction: pop while the front belongs to the unit. *)
Fixpoint pop_unit (last : N) (l : list GraphDiff) (n : N) : list GraphDiff * N :=
  match l with
  | d :: l' => if decide (version d ≤ last)%N then pop_unit last l' (n - retained_bytes d)
               else (l, n)
  | [] => ([], n)
  end.

(** The outer loop: [None] when it would panic on an empty queue, or never
    end.  Each round pops a diff, so the length of the queue is enough fuel
    ([evict_wf]). *)
Fixpoint evict (fuel : nat) (c : t) : option t :=
  if decide (len (log c) ≤ capacity c ∧ bytes c ≤ byte_capacity c)%N then Some c
  else match fuel, log c with
  | S fuel, d :: _ =>
      let last := span_last (span d) in
      let '(l, n) := pop_unit last (log c) (bytes c) in
      evict fuel (mk l (capacity c) (byte_capacity c) n last)
  | _, _ => None
  end.

(** [EntityGraph::append_committed_unit].  Its callers append only units within
    the limits, as its debug assertion says ([evict_wf] needs it); the sums of
    bytes are those of values in memory and are not bounded here. *)
Definition append_committed_unit (now : Z) (c : t) (diffs : list GraphDiff) : option t :=
  let n := total_bytes diffs in
  let diffs := set_timestamp now <$> diffs in
  let l := log c ++ diffs in
  evict (length l) (mk l (capacity c) (byte_capacity c) (bytes c + n) (floor c)).

(** [EntityGraph::native_gap]. *)
Definition native_gap (head : N) (c : t) : t := mk [] (capacity c) (byte_capacity c) 0 head.

(** [partition_point] on a queue whose prefix satisfies the predicate. *)
Fixpoint partition_point (p : GraphDiff → bool) (l : list GraphDiff) : nat :=
  match l with
  | d :: l => if p d then S (partition_point p l) else 0
  | [] => 0
  end.

Definition seen (v : N) (d : GraphDiff) : bool := bool_decide (version d ≤ v)%N.

(** [EntityGraph::changes_since]. *)
Definition changes_since (c : t) (v : N) : result ChangelogGap (list GraphDiff) :=
  if decide (0 < floor c ∧ v < floor c)%N then Err (mkGap v (floor c))
  else Ok (drop (partition_point (seen v) (log c)) (log c)).

(** [EntityGraph::change_units_since], as the position the iterator starts at. *)
Definition change_units_since (c : t) (head v : N) : result ChangeCursorError nat :=
  if decide (head < v)%N then Err (Future head)
  else if decide (v < floor c)%N then Err (Gap (mkGap v (floor c)))
  else
    let next := partition_point (seen v) (log c) in
    match next with
    | 0 => Ok 0
    | S i =>
        match log c !! i with
        | Some d => if decide (span_last (span d) = v) then Ok next else Err (InsideUnit (span d))
        | None => Ok next
        end
    end.

(** [ChangeUnits::next]: the unit at the position and the next position. *)
Definition next_unit (l : list GraphDiff) (next : nat) : option (list GraphDiff * nat) :=
  first ← l !! next;
  let count := S (N.to_nat (span_last (span first) - span_first (span first))) in
  Some (take count (drop next l), next + count).

(** Draining the iterator. *)
Fixpoint drain (fuel : nat) (l : list GraphDiff) (next : nat) : list (list GraphDiff) :=
  match fuel with
  | 0 => []
  | S fuel =>
      match next_unit l next with
      | Some (unit, next) => unit :: drain fuel l next
      | None => []
      end
  end.

(** ** Complete units *)

(** A complete commit unit: the versions of its span, in order. *)
Definition complete_unit (u : list GraphDiff) : Prop :=
  ∃ s, (span_first s ≤ span_last s)%N ∧
    Forall (λ d, span d = s) u ∧
    version <$> u = seqN (span_first s) (span_last s - span_first s + 1).

Definition contiguous (lo : N) (l : list GraphDiff) : Prop :=
  version <$> l = seqN (lo + 1) (len l).

(** The invariant, for a log whose head is [head]. *)
Record wf (head : N) (c : t) : Prop := {
  wf_contiguous : contiguous (floor c) (log c);
  wf_head : (floor c + len (log c))%N = head;
  wf_units : ∃ us, log c = concat us ∧ Forall complete_unit us;
  wf_bytes : bytes c = total_bytes (log c);
  wf_capacity : (len (log c) ≤ capacity c)%N;
  wf_byte_capacity : (bytes c ≤ byte_capacity c)%N
}.

Lemma complete_unit_len u s :
  Forall (λ d, span d = s) u →
  version <$> u = seqN (span_first s) (span_last s - span_first s + 1) →
  len u = (span_last s - span_first s + 1)%N.
Proof.
  intros _ E. unfold len. rewrite <-(length_fmap version u), E, length_seqN. lia.
Qed.

Lemma complete_unit_ne u : complete_unit u → u ≠ [].
Proof.
  intros (s & Hle & Hs & Hv) ->. apply (f_equal length) in Hv.
  rewrite length_seqN in Hv. simpl in Hv. lia.
Qed.

Lemma total_bytes_app l k : total_bytes (l ++ k) = (total_bytes l + total_bytes k)%N.
Proof. induction l as [|d l IH]; simpl; [done|]. rewrite IH. lia. Qed.

Lemma contiguous_version lo l i d :
  contiguous lo l → l !! i = Some d → version d = (lo + 1 + N.of_nat i)%N.
Proof.
  intros Hc Hd. assert (Hv : (version <$> l) !! i = Some (version d))
    by (by rewrite list_lookup_fmap, Hd).
  rewrite Hc in Hv. by apply lookup_seqN in Hv as [-> _].
Qed.

Lemma contiguous_app lo l k :
  contiguous lo (l ++ k) ↔ contiguous lo l ∧ contiguous (lo + len l) k.
Proof.
  unfold contiguous. rewrite fmap_app, len_app, seqN_app. split.
  - intros E. apply app_inj_1 in E as [-> ->].
    + split; [done|]. f_equal. lia.
    + rewrite length_fmap, length_seqN. unfold len. lia.
  - intros [-> ->]. do 2 f_equal. lia.
Qed.

(** ** Eviction *)

(** Popping a unit removes exactly the diffs up to its last version. *)
Lemma pop_unit_prefix last u l n :
  Forall (λ d, version d ≤ last)%N u →
  (∀ d, head l = Some d → (last < version d)%N) →
  pop_unit last (u ++ l) n = (l, n - total_bytes u)%N.
Proof.
  revert n. induction u as [|d u IH]; intros n Hu Hl; simpl.
  - destruct l as [|d l]; simpl; [by rewrite N.sub_0_r|].
    rewrite decide_False; [by rewrite N.sub_0_r|]. specialize (Hl d eq_refl). lia.
  - apply Forall_cons in Hu as [Hd Hu]. rewrite decide_True by done.
    rewrite IH by done. f_equal. lia.
Qed.

(** Evicting one unit from the front of a well-formed queue. *)
Lemma pop_first_unit lo u us n :
  contiguous lo (concat (u :: us)) → complete_unit u →
  ∃ d rest, concat (u :: us) = d :: rest ∧
    pop_unit (span_last (span d)) (concat (u :: us)) n = (concat us, n - total_bytes u)%N ∧
    span_last (span d) = (lo + len u)%N.
Proof.
  intros Hc Hu. pose proof (complete_unit_ne _ Hu) as Hne.
  destruct Hu as (s & Hle & Hs & Hv).
  destruct u as [|d u]; [done|]. exists d, (u ++ concat us). split; [done|].
  assert (Hd : span d = s) by (by apply Forall_cons in Hs as [? _]).
  pose proof (complete_unit_len _ _ Hs Hv) as Hlen.
  assert (Hfirst : version d = (lo + 1)%N).
  { rewrite (contiguous_version lo _ 0 d Hc) by done. lia. }
  assert (Hsf : version d = span_first s).
  { assert ((version <$> (d :: u)) !! 0 = Some (version d)) as H0 by done.
    rewrite Hv in H0. apply lookup_seqN in H0 as [H0 _]. lia. }
  rewrite Hd. split; [|lia]. cbn [concat]. apply pop_unit_prefix.
  - apply Forall_forall. intros e He.
    assert (version e ∈ version <$> (d :: u)) as Hin by (apply list_elem_of_fmap; eauto).
    rewrite Hv in Hin. apply elem_of_seqN in Hin. lia.
  - intros e He. cbn [concat] in Hc. apply contiguous_app in Hc as [_ Hc].
    rewrite (contiguous_version _ _ 0 e Hc) by (by rewrite <-head_lookup). lia.
Qed.

(** The invariant without the limits, which [evict] restores. *)
Record pre_wf (head : N) (us : list (list GraphDiff)) (c : t) : Prop := {
  pre_contiguous : contiguous (floor c) (log c);
  pre_head : (floor c + len (log c))%N = head;
  pre_units : log c = concat us;
  pre_complete : Forall complete_unit us;
  pre_bytes : bytes c = total_bytes (log c)
}.

(** Eviction ends, restores the limits, and keeps a suffix of the units; a
    last unit that fits the limits on its own survives. *)
Lemma evict_wf fuel head us u c :
  length (log c) ≤ fuel → pre_wf head (us ++ [u]) c →
  (len u ≤ capacity c)%N → (total_bytes u ≤ byte_capacity c)%N →
  ∃ c' us', evict fuel c = Some c' ∧ wf head c' ∧ log c' = concat (us' ++ [u]) ∧
    (∃ gone, us = gone ++ us' ∧ floor c' = (floor c + len (concat gone))%N) ∧
    capacity c' = capacity c ∧ byte_capacity c' = byte_capacity c.
Proof.
  revert us c. induction fuel as [|fuel IH]; intros us c Hfuel Hp Hlen Hby.
  - exfalso. destruct Hp as [_ _ Hl Hcu _]. apply Forall_app in Hcu as [_ Hu].
    apply Forall_singleton, complete_unit_ne in Hu. rewrite Hl, concat_app, length_app in Hfuel.
    simpl in Hfuel. rewrite app_nil_r in Hfuel. destruct u; simpl in Hfuel; [done|lia].
  - simpl. case_decide as Hok.
    { exists c, us. destruct Hp. split_and!; try done; [|by exists []; split; [|simpl; rewrite len_nil; lia]].
      destruct Hok. split; eauto. }
    destruct us as [|w us].
    { exfalso. apply Hok. destruct Hp as [_ _ Hl _ Hb]. rewrite Hb, Hl. simpl.
      by rewrite app_nil_r. }
    destruct Hp as [Hc Hh Hl Hcu Hb].
    apply Forall_cons in Hcu as [Hw Hcu].
    rewrite Hl in Hc. cbn [app] in Hl, Hc.
    destruct (pop_first_unit (floor c) w (us ++ [u]) (bytes c) Hc Hw)
      as (d & rest & Hcat & Hpop & Hlast).
    assert (Hl' : log c = d :: rest) by congruence.
    rewrite Hcat in Hpop. rewrite Hl', Hpop, Hlast. cbn [concat] in Hc, Hl.
    apply contiguous_app in Hc as [_ Hc].
    edestruct (IH us (mk (concat (us ++ [u])) (capacity c) (byte_capacity c)
      (bytes c - total_bytes w) (floor c + len w)))
      as (c' & us' & He & Hwf & Hlog & (gone & -> & Hfl) & Hcap & Hbcap); simpl; try done.
    + pose proof (complete_unit_ne _ Hw). rewrite Hl, length_app in Hfuel.
      destruct w; [done|]. simpl in Hfuel. lia.
    + split; simpl; try done.
      * rewrite Hl, len_app in Hh. lia.
      * rewrite Hb, Hl, total_bytes_app. lia.
    + exists c', us'. split_and!; try done. exists (w :: gone). split; [done|].
      rewrite Hfl. simpl. len_lia.
Qed.

Lemma set_timestamp_units now u : complete_unit u → complete_unit (set_timestamp now <$> u).
Proof.
  intros (s & Hle & Hs & Hv). exists s. split; [done|]. split.
  - apply Forall_fmap. eapply Forall_impl; [exact Hs|]. by intros d.
  - rewrite <-list_fmap_compose. erewrite list_fmap_ext; [exact Hv|]. by intros i d.
Qed.

Lemma set_timestamp_bytes now l : total_bytes (set_timestamp now <$> l) = total_bytes l.
Proof.
  induction l as [|d l IH]; [done|].
  change (retained_bytes d + total_bytes (set_timestamp now <$> l)
          = retained_bytes d + total_bytes l)%N. by rewrite IH.
Qed.

(** Appending a complete unit that follows the head and fits the limits keeps
    the invariant, and the unit is retained in full. *)
Lemma append_wf now head c u :
  wf head c → complete_unit u → contiguous head u →
  (len u ≤ capacity c)%N → (total_bytes u ≤ byte_capacity c)%N →
  ∃ c' kept gone, append_committed_unit now c u = Some c' ∧ wf (head + len u) c' ∧
    log c' = kept ++ (set_timestamp now <$> u) ∧ log c = gone ++ kept ∧
    floor c' = (floor c + len gone)%N ∧
    capacity c' = capacity c ∧ byte_capacity c' = byte_capacity c.
Proof.
  intros [Hc Hh (us & Hl & Hcu) Hb Hcap Hbcap] Hu Hcont Hlen Hby.
  unfold append_committed_unit.
  edestruct (evict_wf (length (log c ++ (set_timestamp now <$> u))) (head + len u)
    us (set_timestamp now <$> u)
    (mk (log c ++ (set_timestamp now <$> u)) (capacity c) (byte_capacity c)
        (bytes c + total_bytes u) (floor c)))
    as (c' & us' & He & Hwf & Hlog & (gone & -> & Hfl) & Hcap' & Hbcap'); simpl; try done.
  - split; simpl.
    + apply contiguous_app. split; [done|]. rewrite Hh. unfold contiguous.
      rewrite len_fmap, <-Hcont, <-list_fmap_compose. apply list_fmap_ext. by intros i d.
    + len_lia.
    + rewrite concat_app, Hl. simpl. by rewrite app_nil_r.
    + apply Forall_app. split; [done|]. apply Forall_singleton. by apply set_timestamp_units.
    + rewrite total_bytes_app, set_timestamp_bytes. lia.
  - by rewrite len_fmap.
  - by rewrite set_timestamp_bytes.
  - exists c', (concat us'), (concat gone). split_and!; try done.
    + rewrite Hlog, concat_app. simpl. by rewrite app_nil_r.
    + by rewrite Hl, concat_app.
Qed.

Lemma native_gap_wf head c : (0 ≤ capacity c)%N → wf head (native_gap head c).
Proof.
  intros _. split; simpl; try done; [unfold len; simpl; lia| |unfold len; simpl; lia|lia].
  by exists [].
Qed.

(** ** Reading *)

Lemma partition_point_contiguous lo l v :
  contiguous lo l → (lo ≤ v ≤ lo + len l)%N →
  partition_point (seen v) l = N.to_nat (v - lo).
Proof.
  revert lo. induction l as [|d l IH]; intros lo Hc Hv; simpl.
  - len_lia.
  - assert (Hd : version d = (lo + 1)%N).
    { rewrite (contiguous_version lo _ 0 d Hc) by done. lia. }
    change (d :: l) with ([d] ++ l) in Hc. apply contiguous_app in Hc as [_ Hc].
    rewrite len_cons in *. unfold seen at 1. rewrite Hd. case_bool_decide.
    + rewrite (IH (lo + 1)%N); [lia|exact Hc|lia].
    + lia.
Qed.

Lemma partition_point_above lo l v :
  contiguous lo l → (lo + len l ≤ v)%N → partition_point (seen v) l = length l.
Proof.
  revert lo. induction l as [|d l IH]; intros lo Hc Hv; simpl; [done|].
  assert (Hd : version d = (lo + 1)%N).
  { rewrite (contiguous_version lo _ 0 d Hc) by done. lia. }
  change (d :: l) with ([d] ++ l) in Hc. apply contiguous_app in Hc as [_ Hc].
  rewrite len_cons in *. unfold seen at 1. rewrite bool_decide_eq_true_2 by lia.
  rewrite (IH (lo + 1)%N); [done|exact Hc|lia].
Qed.

(** The suffix a reader at [v] gets holds exactly the later versions. *)
Lemma changes_since_ok head c v :
  wf head c → (floor c ≤ v ≤ head)%N →
  ∃ gone l, changes_since c v = Ok l ∧ log c = gone ++ l ∧
    contiguous v l ∧ (v + len l)%N = head.
Proof.
  intros [Hc Hh _ _ _ _] Hv. unfold changes_since. rewrite decide_False by lia.
  rewrite (partition_point_contiguous (floor c)) by (done || lia).
  exists (take (N.to_nat (v - floor c)) (log c)), (drop (N.to_nat (v - floor c)) (log c)).
  split; [done|]. split; [by rewrite take_drop|].
  rewrite <-(take_drop (N.to_nat (v - floor c)) (log c)) in Hc.
  apply contiguous_app in Hc as [_ Hc].
  assert (Ht : len (take (N.to_nat (v - floor c)) (log c)) = (v - floor c)%N).
  { unfold len in *. rewrite length_take. lia. }
  rewrite Ht in Hc. split.
  - assert (Hvf : (floor c + (v - floor c))%N = v) by lia. by rewrite Hvf in Hc.
  - unfold len in *. rewrite length_drop. lia.
Qed.

Lemma changes_since_gap c v :
  (v < floor c)%N → changes_since c v = Err (mkGap v (floor c)).
Proof. intros Hv. unfold changes_since. rewrite decide_True by lia. done. Qed.

(** A reader ahead of the head gets nothing. *)
Lemma changes_since_ahead head c v :
  wf head c → (head ≤ v)%N → changes_since c v = Ok [].
Proof.
  intros [Hc Hh _ _ _ _] Hv. unfold changes_since. rewrite decide_False by lia.
  rewrite (partition_point_above (floor c)) by (done || lia).
  by rewrite drop_all.
Qed.

(** Appending a unit extends what every reader of the log gets by the unit;
    a reader may fall behind the floor, but never skips a change. *)
Lemma append_changes_since now head c u :
  wf head c → complete_unit u → contiguous head u →
  (len u ≤ capacity c)%N → (total_bytes u ≤ byte_capacity c)%N →
  ∃ c', append_committed_unit now c u = Some c' ∧ wf (head + len u) c' ∧
    capacity c' = capacity c ∧ byte_capacity c' = byte_capacity c ∧
    (∀ d, d ∈ log c' → d ∈ log c ∨ d ∈ set_timestamp now <$> u) ∧
    ∀ v l', (v ≤ head)%N → changes_since c' v = Ok l' →
      ∃ l, changes_since c v = Ok l ∧ l' = l ++ (set_timestamp now <$> u).
Proof.
  intros Hwf Hu Hcont Hlen Hby.
  destruct (append_wf now head c u) as
    (c' & kept & gone & Happ & Hwf' & Hlog' & Hlog & Hfl & Hcap & Hbcap); [done..|].
  exists c'. do 4 (split; [done|]).
  split; [rewrite Hlog', Hlog; intros d; rewrite !elem_of_app; tauto|]. intros v l' Hv Hl'.
  assert (Hfv : (floor c' ≤ v)%N).
  { unfold changes_since in Hl'. case_decide; [done|]. lia. }
  destruct (changes_since_ok (head + len u) c' v) as (g' & l'' & Hok & Hg' & _ & Hsum);
    [done|lia|]. assert (l'' = l') as -> by congruence.
  destruct (changes_since_ok head c v) as (g & l & Hokl & Hg & _ & Hsuml); [done|lia|].
  exists l. split; [done|].
  pose proof (wf_head _ _ Hwf). rewrite Hlog in Hg, H. rewrite len_app in H.
  assert (∃ x, kept = x ++ l) as [x ->].
  { apply app_eq_inv in Hg as [(k & _ & ->)|(k & _ & ->)]; [|by exists k].
    exists []. rewrite len_app in *. assert (len k = 0)%N by lia.
    destruct k; [done|]. len_lia. }
  rewrite Hlog' in Hg'. rewrite <-app_assoc in Hg'. symmetry in Hg'.
  apply app_inj_2 in Hg' as [_ ?]; [done|].
  rewrite length_app, length_fmap. unfold len in *. lia.
Qed.

(** ** Iterating over units *)

Lemma next_unit_complete gone u rest :
  complete_unit u →
  next_unit (gone ++ u ++ rest) (length gone) = Some (u, length gone + length u).
Proof.
  intros Hu. pose proof (complete_unit_ne _ Hu) as Hne. destruct Hu as (s & Hle & Hs & Hv).
  pose proof (complete_unit_len _ _ Hs Hv) as Hlen.
  destruct u as [|d u]; [done|]. apply Forall_cons in Hs as [Hd Hs].
  assert (Hn : S (N.to_nat (span_last s - span_first s)) = length (d :: u)).
  { unfold len in Hlen. lia. }
  unfold next_unit. rewrite drop_app_length.
  rewrite <-app_comm_cons, list_lookup_middle by done. cbn [mbind option_bind].
  rewrite Hd, Hn, app_comm_cons, take_app_length. done.
Qed.

(** Draining from a unit boundary yields the remaining units. *)
Lemma drain_units fuel gone us :
  Forall complete_unit us → length (concat us) < fuel →
  drain fuel (gone ++ concat us) (length gone) = us.
Proof.
  revert gone us. induction fuel as [|fuel IH]; intros gone us Hus Hfuel; [lia|].
  destruct us as [|u us]; simpl.
  - unfold next_unit. rewrite app_nil_r, lookup_ge_None_2 by done. done.
  - apply Forall_cons in Hus as [Hu Hus]. rewrite next_unit_complete by done. f_equal.
    rewrite <-length_app, app_assoc. apply IH; [done|].
    simpl in Hfuel. rewrite length_app in Hfuel. pose proof (complete_unit_ne _ Hu).
    destruct u; [done|]. simpl in Hfuel. lia.
Qed.

End ChangeLog.
