(* ===== verification/Graph.v ===== *)
(** * The entity graph: state and mutations

    [haystack-core/src/graph/entity_graph.rs].  [EntityGraph] is the struct,
    with the five changelog fields grouped in [ChangeLog.t] and the two
    mutexes as plain state.  Every operation takes and returns the whole
    graph; [None] stands for a panic (an [expect] that fails, an index that
    is missing, a narrowing that does not fit), so that the absence of panics
    is a theorem.  The wall clock and the random incarnation are arguments.

    [free_ids] is kept with the top of the stack first. *)

From S2P Require Import Prelude Floats Kinds Size Extern Bitmap Adjacency ValueIndex Filter Changelog.

(** A shared handle: its address is what [Arc::ptr_eq] compares. *)
Record Arc (A : Type) : Type := mkArc { arc_ptr : N; arc_val : A }.
Arguments mkArc {A}.
Arguments arc_ptr {A}.
Arguments arc_val {A}.
Definition ptr_eq {A} (a b : Arc A) : bool := bool_decide (arc_ptr a = arc_ptr b).

(** [ActivatedCatalog] ([haystack-core/src/xeto/catalog/activation.rs]) as the
    graph uses it: the namespace view it carries, and re-deriving it over
    another namespace. *)
Class Catalog `{Ontology} : Type := {
  ActivatedCatalog : Type;
  catalog_namespace : ActivatedCatalog → Arc DefNamespace;
  catalog_rebase : ActivatedCatalog → DefNamespace → ActivatedCatalog
}.

Definition no_catalog : @Catalog no_ontology := {|
  ActivatedCatalog := Empty_set;
  catalog_namespace c := match c with end;
  catalog_rebase c _ := c
|}.

(** [parse_filter] with its error displayed; implemented in
    [FilterParser.v]. *)
Class FilterSyntax : Type := parse_filter_text : string → result string FilterNode.

(** [GraphError]. *)
Inductive GraphError : Type :=
| MissingId
| InvalidId
| ImmutableId
| DuplicateRef (ref : string)
| NotFound (ref : string)
| FilterErr (msg : string)
| IdExhausted
| RevisionExhausted.

(** [CatalogChanged]. *)
Inductive CatalogChanged : Type := CatalogConflict.

(** [GraphState]. *)
Record GraphState : Type := mkState {
  state_incarnation : list Byte.byte; state_revision : N; state_catalog : N }.
#[export] Instance GraphState_eq_dec : EqDecision GraphState.
Proof. solve_decision. Defined.

Definition MAX_ENTITY_ID : N := u32_max.
Definition DEFAULT_QUERY_CACHE_CAPACITY : N := 256.
Definition MAX_AST_CACHE_SIZE : N := 10000.
Definition AUTO_INDEX_FIELDS : list string :=
  ["siteRef"; "equipRef"; "dis"; "curVal"; "area"; "geoCity"; "kind"; "unit"].
Definition DEFAULT_CHANGELOG_CAPACITY : N := 50000.
Definition DEFAULT_CHANGELOG_BYTES : N := (64 * 1024 * 1024)%N.

(** [query_cache_capacity_for]. *)
Definition query_cache_capacity_for (entity_count : N) : N :=
  N.max 256 (N.min 1024 (entity_count / 100)).

(** ** Query cache *)

Abbreviation CacheMap := (IndexMap (string * N) (list string)).
Abbreviation CacheLaws := (IndexMapLaws (string * N) (list string)).

Module QueryCache.
Section model.
Context `{CacheMap}.

Record t : Type := mk {
  entries : IndexMapT (string * N) (list string);
  capacity : N
}.

Definition new (cap : N) : t := mk im_new cap.

(** [QueryCache::get]: a hit moves the entry to the back. *)
Definition get (c : t) (filter : string) (version : N) : t * option (list string) :=
  let key := (filter, version) in
  match im_get_index_of key (entries c) with
  | None => (c, None)
  | Some idx =>
      let m := im_move_index idx (pred (length (im_list (entries c)))) (entries c) in
      (mk m (capacity c), im_get key m)
  end.

Definition clear (c : t) : t := mk im_new (capacity c).

(** [QueryCache::purge_stale]. *)
Definition purge_stale (c : t) (min_version : N) : t :=
  mk (im_retain (λ k _, bool_decide (min_version ≤ k.2)%N) (entries c)) (capacity c).

Definition full (c : t) : bool := bool_decide (capacity c ≤ len (im_list (entries c)))%N.

(** [QueryCache::insert]. *)
Definition insert (c : t) (filter : string) (version : N) (ref_vals : list string) : t :=
  let c := if full c then purge_stale c version else c in
  let c := if full c then mk (im_shift_remove_index 0 (entries c)) (capacity c) else c in
  mk (im_insert (filter, version) ref_vals (entries c)) (capacity c).
End model.
End QueryCache.

(** ** The graph *)

Module EntityGraph.
Section model.
Context `{HashOrder, Roaring, CacheMap, Catalog}.

Record t : Type := mk {
  entities : gmap string HDict;
  id_map : gmap string N;
  reverse_id : gmap N string;
  next_id : N;
  free_ids : list N;
  tag_index : TagBitmapIndex.t;
  adjacency : RefAdjacency.t;
  namespace : option (Arc DefNamespace);
  activated : option (Arc ActivatedCatalog);
  catalog_generation : N;
  incarnation : list Byte.byte;
  version : N;
  changelog : ChangeLog.t;
  query_cache : QueryCache.t;
  ast_cache : gmap string FilterNode;
  value_index : ValueIndex.t;
  index_generation : N
}.

(** Field updates. *)
Definition set_entities v g := mk v (id_map g) (reverse_id g) (next_id g) (free_ids g)
  (tag_index g) (adjacency g) (namespace g) (activated g) (catalog_generation g) (incarnation g)
  (version g) (changelog g) (query_cache g) (ast_cache g) (value_index g) (index_generation g).
Definition set_ids im ri ni fi g := mk (entities g) im ri ni fi
  (tag_index g) (adjacency g) (namespace g) (activated g) (catalog_generation g) (incarnation g)
  (version g) (changelog g) (query_cache g) (ast_cache g) (value_index g) (index_generation g).
Definition set_indexes ti ad vi g := mk (entities g) (id_map g) (reverse_id g) (next_id g)
  (free_ids g) ti ad (namespace g) (activated g) (catalog_generation g) (incarnation g)
  (version g) (changelog g) (query_cache g) (ast_cache g) vi (index_generation g).
Definition set_catalog ns ac gen qc g := mk (entities g) (id_map g) (reverse_id g) (next_id g)
  (free_ids g) (tag_index g) (adjacency g) ns ac gen (incarnation g)
  (version g) (changelog g) qc (ast_cache g) (value_index g) (index_generation g).
Definition set_log v c g := mk (entities g) (id_map g) (reverse_id g) (next_id g)
  (free_ids g) (tag_index g) (adjacency g) (namespace g) (activated g) (catalog_generation g)
  (incarnation g) v c (query_cache g) (ast_cache g) (value_index g) (index_generation g).
Definition set_query_cache qc g := mk (entities g) (id_map g) (reverse_id g) (next_id g)
  (free_ids g) (tag_index g) (adjacency g) (namespace g) (activated g) (catalog_generation g)
  (incarnation g) (version g) (changelog g) qc (ast_cache g) (value_index g) (index_generation g).
Definition set_ast_cache ac g := mk (entities g) (id_map g) (reverse_id g) (next_id g)
  (free_ids g) (tag_index g) (adjacency g) (namespace g) (activated g) (catalog_generation g)
  (incarnation g) (version g) (changelog g) (query_cache g) ac (value_index g)
  (index_generation g).
Definition set_value_index vi gen g := mk (entities g) (id_map g) (reverse_id g) (next_id g)
  (free_ids g) (tag_index g) (adjacency g) (namespace g) (activated g) (catalog_generation g)
  (incarnation g) (version g) (changelog g) (query_cache g) (ast_cache g) vi gen.

(** ** Construction *)

(** [EntityGraph::with_changelog_capacity]. *)
Definition with_changelog_capacity (inc : list Byte.byte) (capacity : N) : t :=
  mk ∅ ∅ ∅ 0 [] TagBitmapIndex.new RefAdjacency.new None None 0 inc 0
     (ChangeLog.mk [] (N.max capacity 1) DEFAULT_CHANGELOG_BYTES 0 0)
     (QueryCache.new DEFAULT_QUERY_CACHE_CAPACITY) ∅
     (foldl ValueIndex.index_field ValueIndex.new AUTO_INDEX_FIELDS) 0.

(** [EntityGraph::new]. *)
Definition new (inc : list Byte.byte) : t :=
  with_changelog_capacity inc DEFAULT_CHANGELOG_CAPACITY.

(** [EntityGraph::with_changelog_limits]. *)
Definition with_changelog_limits (inc : list Byte.byte) (capacity bytes : N) : t :=
  let g := with_changelog_capacity inc capacity in
  set_log (version g)
    (ChangeLog.mk [] (ChangeLog.capacity (changelog g)) (N.max bytes 1) 0 0) g.

(** [EntityGraph::renew_incarnation]; [inc] is the fresh random value. *)
Definition renew_incarnation (inc : list Byte.byte) (g : t) : t :=
  mk (entities g) (id_map g) (reverse_id g) (next_id g) (free_ids g) (tag_index g) (adjacency g)
    (namespace g) (activated g) (catalog_generation g) inc (version g) (changelog g)
    (query_cache g) (ast_cache g) (value_index g) (index_generation g).

(** [EntityGraph::with_namespace]. *)
Definition with_namespace (inc : list Byte.byte) (ns : Arc DefNamespace) : t :=
  set_catalog (Some ns) None 0 (QueryCache.new DEFAULT_QUERY_CACHE_CAPACITY) (new inc).

(** [EntityGraph::state]. *)
Definition state (g : t) : GraphState :=
  mkState (incarnation g) (version g) (catalog_generation g).

(** ** Catalog publication *)

(** [EntityGraph::publish_catalog]. *)
Definition publish_catalog (g : t) (next : Arc ActivatedCatalog) : t * result CatalogChanged N :=
  match checked_add u64_max (catalog_generation g) 1 with
  | None => (g, Err CatalogConflict)
  | Some generation =>
      (set_catalog (Some (catalog_namespace (arc_val next))) (Some next) generation
         (QueryCache.clear (query_cache g)) g, Ok generation)
  end.

(** [EntityGraph::compare_initialize_catalog]. *)
Definition compare_initialize_catalog (g : t) (expected : GraphState)
    (base : option (Arc DefNamespace)) (catalog : Arc ActivatedCatalog)
    : t * result CatalogChanged N :=
  let same_base := match namespace g, base with
    | None, None => true
    | Some current, Some base => ptr_eq current base
    | _, _ => false
    end in
  if bool_decide (is_Some (activated g))
     || bool_decide (incarnation g ≠ state_incarnation expected)
     || bool_decide (catalog_generation g ≠ state_catalog expected)
     || negb same_base
  then (g, Err CatalogConflict)
  else publish_catalog g catalog.

(** [EntityGraph::compare_activate_catalog]. *)
Definition compare_activate_catalog (g : t) (expected : GraphState)
    (old next : Arc ActivatedCatalog) : t * result CatalogChanged N :=
  if bool_decide (state g ≠ expected) || ptr_eq old next
     || negb (match activated g with Some current => ptr_eq current old | None => false end)
  then (g, Err CatalogConflict)
  else publish_catalog g next.

(** [EntityGraph::set_namespace]; [fresh] is the address of the handle that a
    managed graph allocates for the rebased observation. *)
Definition set_namespace (fresh : N) (g : t) (ns : Arc DefNamespace) : option t :=
  generation ← checked_add u64_max (catalog_generation g) 1;
  match activated g with
  | Some current =>
      let rebased := catalog_rebase (arc_val current) (arc_val ns) in
      Some (set_catalog (Some (catalog_namespace rebased)) (Some (mkArc fresh rebased)) generation
              (QueryCache.clear (query_cache g)) g)
  | None =>
      Some (set_catalog (Some ns) None generation (QueryCache.clear (query_cache g)) g)
  end.

(** [EntityGraph::compare_set_namespace]. *)
Definition compare_set_namespace (fresh : N) (g : t) (expected : N) (ns : Arc DefNamespace)
    : option (t * result CatalogChanged N) :=
  if decide (catalog_generation g ≠ expected) then Some (g, Err CatalogConflict)
  else g ← set_namespace fresh g ns; Some (g, Ok (catalog_generation g)).

(** ** Value index registration *)

(** The backfill of one entity, which indexes [id_map]. *)
Definition backfill_step (g : t) (field : string) (vi : option ValueIndex.t)
    (kv : string * HDict) : option ValueIndex.t :=
  vi ← vi;
  match HDict.get kv.2 field with
  | Some value => eid ← id_map g !! kv.1; Some (ValueIndex.add vi eid field value)
  | None => Some vi
  end.

(** [EntityGraph::index_field]. *)
Definition index_field (g : t) (field : string) : option t :=
  if ValueIndex.has_index (value_index g) field then Some g
  else
    generation ← checked_add u64_max (index_generation g) 1;
    vi ← foldl (backfill_step g field) (Some (ValueIndex.index_field (value_index g) field))
           (btree_iter (entities g));
    Some (set_value_index vi generation g).

(** One entity of [rebuild_value_index]. *)
Definition rebuild_step (g : t) (vi : ValueIndex.t) (kv : string * HDict) : ValueIndex.t :=
  match id_map g !! kv.1 with
  | Some eid => ValueIndex.index_values vi eid kv.2
  | None => vi
  end.

(** [EntityGraph::rebuild_value_index]. *)
Definition rebuild_value_index (g : t) : t :=
  set_value_index
    (foldl (rebuild_step g) (ValueIndex.clear (value_index g)) (btree_iter (entities g)))
    (index_generation g) g.

(** ** Mutations *)

(** [extract_ref_val]. *)
Definition extract_ref_val (entity : HDict) : result GraphError string :=
  match HDict.get entity "id" with
  | Some (KRef r) => Ok (ref_val r)
  | Some _ => Err InvalidId
  | None => Err MissingId
  end.

(** [index_tags] and [index_refs]. *)
Definition index_entity (g : t) (eid : N) (entity : HDict) : option t :=
  ti ← TagBitmapIndex.add (tag_index g) eid (HDict.tag_names entity);
  Some (set_indexes ti (RefAdjacency.index_refs (adjacency g) eid entity)
          (ValueIndex.index_values (value_index g) eid entity) g).

(** [EntityGraph::remove_indexing]. *)
Definition remove_indexing (g : t) (eid : N) (entity : HDict) : option t :=
  ti ← TagBitmapIndex.remove (tag_index g) eid (HDict.tag_names entity);
  Some (set_indexes ti (RefAdjacency.remove (adjacency g) eid)
          (ValueIndex.remove_values (value_index g) eid entity) g).

(** The id [add] assigns: recycled first, then fresh. *)
Definition alloc_id (g : t) : result GraphError (N * N * list N) :=
  match free_ids g with
  | recycled :: rest => Ok (recycled, next_id g, rest)
  | [] =>
      if decide (MAX_ENTITY_ID < next_id g)%N then Err IdExhausted
      else match checked_add usize_max (next_id g) 1 with
           | Some next => Ok (next_id g, next, [])
           | None => Err InvalidId
           end
  end.

(** Recording one diff, or the gap left by one too large to retain. *)
Definition log_diff (now : Z) (g : t) (revision : N) (diff : option GraphDiff) : option t :=
  match diff with
  | Some d =>
      c ← ChangeLog.append_committed_unit now (changelog g) [d];
      Some (set_log revision c g)
  | None => Some (set_log revision (ChangeLog.native_gap revision (changelog g)) g)
  end.

(** Growing the query cache with the graph. *)
Definition grow_cache (g : t) : t :=
  let target := query_cache_capacity_for (N.of_nat (size (entities g))) in
  let c := query_cache g in
  set_query_cache (QueryCache.mk (QueryCache.entries c)
    (if decide (QueryCache.capacity c < target)%N then target else QueryCache.capacity c)) g.

(** [EntityGraph::add]. *)
Definition add (now : Z) (g : t) (entity : HDict) : option (t * result GraphError string) :=
  match extract_ref_val entity with
  | Err e => Some (g, Err e)
  | Ok ref =>
      if bool_decide (is_Some (entities g !! ref)) then Some (g, Err (DuplicateRef ref))
      else match checked_add u64_max (version g) 1 with
      | None => Some (g, Err RevisionExhausted)
      | Some revision =>
          let log_bytes := ValueBudget.diff_bytes ref [entity]
                             (ChangeLog.byte_capacity (changelog g)) in
          match alloc_id g with
          | Err e => Some (g, Err e)
          | Ok (eid, next, free) =>
              let g := set_ids (<[ref := eid]> (id_map g)) (<[eid := ref]> (reverse_id g))
                         next free g in
              g ← index_entity g eid entity;
              let g := set_entities (<[ref := entity]> (entities g)) g in
              g ← log_diff now g revision
                    (n ← log_bytes;
                     Some (mkDiff revision (singleton revision) n 0 DAdd ref
                             None (Some entity) None None));
              Some (grow_cache g, Ok ref)
          end
      end
  end.

(** [EntityGraph::get]. *)
Definition get (g : t) (ref : string) : option HDict := entities g !! ref.

(** The closures [resolver] and [inverse] of [read_all], as the context a
    filter is evaluated in. *)
Definition resolver (g : t) (r : HRef) : option HDict := entities g !! ref_val r.
Definition inverse (g : t) (target : HRef) (tag : string) : list HDict :=
  omap (λ id, entities g !! id)
    (omap (λ eid, reverse_id g !! eid)
       (RefAdjacency.sources_to (adjacency g) (ref_val target) (Some tag))).
Definition query_ctx (g : t) : QueryContext :=
  mkQueryContext (resolver g) (Some (inverse g)) (S (size (entities g))).
(** [EntityGraph::namespace]. *)
Definition deref_namespace (g : t) : option DefNamespace := arc_val <$> namespace g.

(** The previous values of the tags a patch names. *)
Definition previous_of (old changes : HDict) : HDict :=
  foldl (λ prev '(name, _), match HDict.get old name with
           | Some v => HDict.set prev name v
           | None => prev
           end) HDict.new (HDict.iter changes).

(** A patch may name [id] only as a [Ref] of the same value. *)
Definition keeps_id (ref : string) (changes : HDict) : bool :=
  match HDict.get changes "id" with
  | Some (KRef r) => bool_decide (ref_val r = ref)
  | Some _ => false
  | None => true
  end.

(** [EntityGraph::update]. *)
Definition update (now : Z) (g : t) (ref : string) (changes : HDict)
    : option (t * result GraphError unit) :=
  match id_map g !! ref with
  | None => Some (g, Err (NotFound ref))
  | Some eid =>
      if negb (keeps_id ref changes) then Some (g, Err ImmutableId)
      else if HDict.is_empty changes then Some (g, Ok ())
      else match checked_add u64_max (version g) 1 with
      | None => Some (g, Err RevisionExhausted)
      | Some revision =>
          old ← entities g !! ref;
          let log_bytes := ValueBudget.patch_diff_bytes ref old changes
                             (ChangeLog.byte_capacity (changelog g)) in
          g ← remove_indexing (set_entities (delete ref (entities g)) g) eid old;
          let entity := HDict.merge old changes in
          g ← index_entity g eid entity;
          let g := set_entities (<[ref := entity]> (entities g)) g in
          g ← log_diff now g revision
                (n ← log_bytes;
                 Some (mkDiff revision (singleton revision) n 0 DUpdate ref
                         None None (Some changes) (Some (previous_of old changes))));
          Some (g, Ok ())
      end
  end.

(** [EntityGraph::remove]. *)
Definition remove (now : Z) (g : t) (ref : string) : option (t * result GraphError HDict) :=
  match id_map g !! ref with
  | None => Some (g, Err (NotFound ref))
  | Some eid =>
      match checked_add u64_max (version g) 1 with
      | None => Some (g, Err RevisionExhausted)
      | Some revision =>
          entity ← entities g !! ref;
          let log_bytes := ValueBudget.diff_bytes ref [entity]
                             (ChangeLog.byte_capacity (changelog g)) in
          let g := set_entities (delete ref (entities g))
                     (set_ids (delete ref (id_map g)) (delete eid (reverse_id g))
                        (next_id g) (free_ids g) g) in
          g ← remove_indexing g eid entity;
          let g := set_ids (id_map g) (reverse_id g) (next_id g) (eid :: free_ids g) g in
          g ← log_diff now g revision
                (n ← log_bytes;
                 Some (mkDiff revision (singleton revision) n 0 DRemove ref
                         (Some entity) None None None));
          Some (g, Ok entity)
      end
  end.

(** ** Change tracking *)

(** [EntityGraph::changes_since]. *)
Definition changes_since (g : t) (v : N) : result ChangelogGap (list GraphDiff) :=
  ChangeLog.changes_since (changelog g) v.

(** [EntityGraph::change_units_since]. *)
Definition change_units_since (g : t) (v : N) : result ChangeCursorError nat :=
  ChangeLog.change_units_since (changelog g) (version g) v.

(** ** Serialization *)

(** One row of [from_grid]: rows without a [Ref] id and repeated ids are
    skipped. *)
Definition from_grid_row (now : Z) (acc : option (result GraphError t)) (row : HDict)
    : option (result GraphError t) :=
  acc ← acc;
  match acc with
  | Err e => Some (Err e)
  | Ok g =>
      if bool_decide (is_Some (HDict.id row)) then
        '(g', r) ← add now g row;
        Some (match r with
              | Ok _ => Ok g'
              | Err (DuplicateRef _) => Ok g'
              | Err e => Err e
              end)
      else Some (Ok g)
  end.

(** [EntityGraph::from_grid]. *)
Definition from_grid (now : Z) (inc : list Byte.byte) (grid : HGrid)
    (namespace : option (Arc DefNamespace)) : option (result GraphError t) :=
  let g := match namespace with Some ns => with_namespace inc ns | None => new inc end in
  foldl (from_grid_row now) (Some (Ok g)) (grid_rows grid).
End model.
End EntityGraph.
