(* ===== verification/GraphInv.v ===== *)
(** * Invariant and abstraction of the entity graph

    The invariant of [EntityGraph]: the id maps are inverse bijections on the
    live rows, numeric ids below [next_id] are live or free and never both,
    the three secondary indexes describe exactly the live rows, the changelog
    is well formed up to the current version, and the caches hold valid
    answers.  [GraphSpec] is the abstract graph, a map and a revision; every
    mutation is shown to return (never to panic), to keep the invariant and
    to refine the abstract operation, on success and on every error.

    [replay] relates the changelog to the entities: applying the changes a
    subscriber reads to its snapshot yields the current entities. *)

From S2P Require Import Prelude Floats Kinds Size Extern Bitmap Adjacency ValueIndex Filter Changelog Graph.

(** ** The store *)

Section store.
Implicit Types (ents : gmap string HDict) (ids : gmap string N) (rev : gmap N string).

(** The entities by numeric id. *)
Definition rows_of ents rev : gmap N HDict := omap (λ ref, ents !! ref) rev.

(** The id tag of an entity is a [Ref] to its key. *)
Definition has_ref (ref : string) (e : HDict) : Prop :=
  ∃ r, e !! "id" = Some (KRef r) ∧ ref_val r = ref.

Record store_ok ents ids rev (next : N) (free : list N) : Prop := {
  store_ref ref e : ents !! ref = Some e → has_ref ref e;
  store_dom ref : is_Some (ents !! ref) ↔ is_Some (ids !! ref);
  store_rev ref id : ids !! ref = Some id ↔ rev !! id = Some ref;
  store_next id : (id < next)%N ↔ is_Some (rev !! id) ∨ id ∈ free;
  store_free : NoDup free;
  store_free_dead id : id ∈ free → rev !! id = None;
  store_bound : (next ≤ MAX_ENTITY_ID + 1)%N
}.

Lemma lookup_rows_of ents rev id :
  rows_of ents rev !! id = rev !! id ≫= λ ref, ents !! ref.
Proof. apply lookup_omap. Qed.

Lemma store_rows ents ids rev next free id ref :
  store_ok ents ids rev next free → rev !! id = Some ref →
  ∃ e, ents !! ref = Some e ∧ rows_of ents rev !! id = Some e.
Proof.
  intros Hs Hr. rewrite lookup_rows_of, Hr. simpl.
  destruct (proj2 (store_dom _ _ _ _ _ Hs ref)) as [e He]; [|by exists e].
  exists id. by apply (store_rev _ _ _ _ _ Hs).
Qed.

Lemma store_id ents ids rev next free ref e :
  store_ok ents ids rev next free → ents !! ref = Some e →
  ∃ id, ids !! ref = Some id ∧ rev !! id = Some ref ∧ rows_of ents rev !! id = Some e.
Proof.
  intros Hs He. destruct (proj1 (store_dom _ _ _ _ _ Hs ref)) as [id Hid]; [by exists e|].
  assert (rev !! id = Some ref) as Hr by by apply (store_rev _ _ _ _ _ Hs).
  exists id. split; [done|]. split; [done|]. by rewrite lookup_rows_of, Hr.
Qed.

Lemma store_id_inj ents ids rev next free ref id id' :
  store_ok ents ids rev next free →
  rev !! id = Some ref → rev !! id' = Some ref → id = id'.
Proof.
  intros Hs H1 H2. apply (store_rev _ _ _ _ _ Hs) in H1, H2. congruence.
Qed.

Lemma store_id_le ents ids rev next free ref id :
  store_ok ents ids rev next free → ids !! ref = Some id → (id ≤ MAX_ENTITY_ID)%N.
Proof.
  intros Hs Hid. apply (store_rev _ _ _ _ _ Hs) in Hid.
  assert (id < next)%N by (apply (store_next _ _ _ _ _ Hs); left; by exists ref).
  pose proof (store_bound _ _ _ _ _ Hs). lia.
Qed.

(** Replacing or adding the entity of a key changes its row only. *)
Lemma rows_of_insert ents rev id ref e :
  (∀ id', rev !! id' = Some ref → id' = id) →
  rows_of (<[ref := e]> ents) (<[id := ref]> rev) = <[id := e]> (rows_of ents rev).
Proof.
  intros Hinj. apply map_eq. intros i. rewrite lookup_rows_of, !lookup_insert.
  case_decide as Hi; [simpl; by rewrite lookup_insert_eq|].
  rewrite lookup_rows_of. destruct (rev !! i) as [ref'|] eqn:Hr; simpl; [|done].
  rewrite lookup_insert_ne; [done|]. intros ->. apply Hi. symmetry. by apply Hinj.
Qed.

Lemma rows_of_delete ents rev id ref :
  (∀ id', rev !! id' = Some ref → id' = id) →
  rows_of (delete ref ents) (delete id rev) = delete id (rows_of ents rev).
Proof.
  intros Hinj. apply map_eq. intros i. rewrite lookup_rows_of, !lookup_delete.
  case_decide as Hi; [done|].
  rewrite lookup_rows_of. destruct (rev !! i) as [ref'|] eqn:Hr; simpl; [|done].
  rewrite lookup_delete_ne; [done|]. intros ->. apply Hi. symmetry. by apply Hinj.
Qed.

Lemma store_empty : store_ok ∅ ∅ ∅ 0 [].
Proof.
  split.
  - intros ref e. by rewrite lookup_empty.
  - intros ref. by rewrite !lookup_empty.
  - intros ref id. by rewrite !lookup_empty.
  - intros id. rewrite lookup_empty, elem_of_nil. split; [lia|intros [[]|[]]; done].
  - constructor.
  - by intros id ?%elem_of_nil.
  - done.
Qed.

(** Allocating an id that is free or fresh. *)
Lemma store_insert ents ids rev next free next' free' ref id e :
  store_ok ents ids rev next free → ents !! ref = None → has_ref ref e →
  rev !! id = None →
  (∀ i, (i < next')%N ↔ (i < next)%N ∨ i = id) → (next' ≤ MAX_ENTITY_ID + 1)%N →
  NoDup free' → (∀ i, i ∈ free ↔ i ∈ free' ∨ (i = id ∧ i ∈ free)) → id ∉ free' →
  store_ok (<[ref := e]> ents) (<[ref := id]> ids) (<[id := ref]> rev) next' free'.
Proof.
  intros Hs Hnone Href Hrev Hnext Hbound Hnd Hfree Hid.
  assert (Hids : ids !! ref = None).
  { apply eq_None_not_Some. intros Hi. apply (store_dom _ _ _ _ _ Hs) in Hi.
    rewrite Hnone in Hi. by destruct Hi. }
  split; try done.
  - intros ref' e'. rewrite lookup_insert. case_decide; [by intros [= <-]; subst|].
    apply (store_ref _ _ _ _ _ Hs).
  - intros ref'. rewrite !lookup_insert. case_decide; [by split; eexists|].
    apply (store_dom _ _ _ _ _ Hs).
  - intros ref' id'. rewrite !lookup_insert. repeat case_decide; subst.
    + done.
    + split; [intros [= ->]; congruence|].
      intros Hr%(store_rev _ _ _ _ _ Hs). congruence.
    + split; [intros Hr%(store_rev _ _ _ _ _ Hs)|intros [= ->]]; congruence.
    + apply (store_rev _ _ _ _ _ Hs).
  - intros i. rewrite Hnext, (store_next _ _ _ _ _ Hs), lookup_insert.
    case_decide as Hi; [subst; split; [by left; eexists|by right]|].
    rewrite (Hfree i). split; [|tauto]. intros [[?|[?|[-> _]]]| ->]; tauto.
  - intros i Hi. rewrite lookup_insert_ne by (by intros ->).
    apply (store_free_dead _ _ _ _ _ Hs), Hfree. by left.
Qed.

Lemma store_set ents ids rev next free ref e :
  store_ok ents ids rev next free → is_Some (ents !! ref) → has_ref ref e →
  store_ok (<[ref := e]> ents) ids rev next free.
Proof.
  intros Hs Hsome Href. destruct Hs. split; try done.
  - intros ref' e'. rewrite lookup_insert. case_decide; [by intros [= <-]; subst|].
    apply store_ref0.
  - intros ref'. rewrite lookup_insert, <-store_dom0. case_decide; [subst|done].
    split; [done|]. by eexists.
Qed.

Lemma store_delete ents ids rev next free ref id :
  store_ok ents ids rev next free → ids !! ref = Some id →
  store_ok (delete ref ents) (delete ref ids) (delete id rev) next (id :: free).
Proof.
  intros Hs Hid. assert (Hr : rev !! id = Some ref) by by apply (store_rev _ _ _ _ _ Hs).
  split.
  - intros ref' e. rewrite lookup_delete. case_decide; [done|]. apply (store_ref _ _ _ _ _ Hs).
  - intros ref'. rewrite !lookup_delete. case_decide; [by split; intros []|].
    apply (store_dom _ _ _ _ _ Hs).
  - intros ref' id'. rewrite !lookup_delete. repeat case_decide; subst; [done|..].
    + split; [done|]. intros Hr'%(store_rev _ _ _ _ _ Hs). congruence.
    + split; [intros Hr'%(store_rev _ _ _ _ _ Hs)|done]. congruence.
    + apply (store_rev _ _ _ _ _ Hs).
  - intros i. rewrite (store_next _ _ _ _ _ Hs), lookup_delete, elem_of_cons.
    case_decide as Hi; [subst; split; [by right; left|by left; eexists]|].
    split; [tauto|]. intros [?|[->|?]]; tauto.
  - apply NoDup_cons. split; [|apply (store_free _ _ _ _ _ Hs)].
    intros Hin%(store_free_dead _ _ _ _ _ Hs). congruence.
  - intros i Hi. rewrite lookup_delete. case_decide; [done|].
    apply (store_free_dead _ _ _ _ _ Hs). apply elem_of_cons in Hi as [->|?]; [congruence|done].
  - apply (store_bound _ _ _ _ _ Hs).
Qed.

(** Live and free ids partition the allocated ones, so ids run out only when
    that many entities are live. *)
Lemma store_count ents ids rev next free :
  store_ok ents ids rev next free →
  (N.of_nat (size ents) + len free)%N = next.
Proof.
  intros Hs.
  assert (Hrev : dom rev ∪ list_to_set free = list_to_set (C := gset N) (seqN 0 next)).
  { apply set_eq. intros i. rewrite elem_of_union, elem_of_dom, !elem_of_list_to_set, elem_of_seqN.
    rewrite <-(store_next _ _ _ _ _ Hs). split; [intros ?; split; lia|intros []; lia]. }
  assert (Hsize : size (dom rev) = size ents).
  { assert (Hnd : NoDup (map_to_list rev).*2).
    { apply NoDup_fmap_2_strong; [|apply NoDup_map_to_list].
      intros [i r] [j r'] Hi Hj Heq. simpl in Heq. subst r'.
      rewrite elem_of_map_to_list in Hi, Hj. by rewrite (store_id_inj _ _ _ _ _ r i j Hs). }
    rewrite size_dom, <-length_map_to_list, <-(length_fmap snd), <-(size_dom ents).
    rewrite <-(size_list_to_set (C := gset string)) by done. f_equal.
    apply set_eq. intros r. rewrite elem_of_list_to_set, elem_of_dom, (store_dom _ _ _ _ _ Hs).
    rewrite list_elem_of_fmap. split.
    - intros ([i r'] & -> & Hi%elem_of_map_to_list). exists i. by apply (store_rev _ _ _ _ _ Hs).
    - intros [i Hi%(store_rev _ _ _ _ _ Hs)]. exists (i, r).
      split; [done|]. by apply elem_of_map_to_list. }
  rewrite <-Hsize. apply (f_equal size) in Hrev. rewrite size_union, !size_list_to_set in Hrev.
  - rewrite length_seqN in Hrev. unfold len. lia.
  - apply NoDup_seqN.
  - apply (store_free _ _ _ _ _ Hs).
  - intros i Hi%elem_of_dom Hf%elem_of_list_to_set%(store_free_dead _ _ _ _ _ Hs).
    rewrite Hf in Hi. by destruct Hi.
Qed.
End store.

(** ** The abstract graph *)

(** What the graph promises its clients: a map of entities and a revision
    that counts the mutations. *)
Module GraphSpec.
Record t : Type := mk { store : gmap string HDict; revision : N }.

Section spec.
Context `{HashOrder}.

(** Revisions and numeric ids are finite. *)
Definition next_revision (a : t) : option N := checked_add u64_max (revision a) 1.
Definition full (a : t) : bool := bool_decide (MAX_ENTITY_ID < N.of_nat (size (store a)))%N.

Definition add (a : t) (e : HDict) : t * result GraphError string :=
  match e !! "id" with
  | None => (a, Err MissingId)
  | Some (KRef r) =>
      if decide (is_Some (store a !! ref_val r)) then (a, Err (DuplicateRef (ref_val r)))
      else match next_revision a with
           | None => (a, Err RevisionExhausted)
           | Some v =>
               if full a then (a, Err IdExhausted)
               else (mk (<[ref_val r := e]> (store a)) v, Ok (ref_val r))
           end
  | Some _ => (a, Err InvalidId)
  end.

Definition update (a : t) (ref : string) (changes : HDict) : t * result GraphError unit :=
  match store a !! ref with
  | None => (a, Err (NotFound ref))
  | Some old =>
      if EntityGraph.keeps_id ref changes then
        if decide (changes = ∅) then (a, Ok ())
        else match next_revision a with
             | None => (a, Err RevisionExhausted)
             | Some v => (mk (<[ref := HDict.merge old changes]> (store a)) v, Ok ())
             end
      else (a, Err ImmutableId)
  end.

Definition remove (a : t) (ref : string) : t * result GraphError HDict :=
  match store a !! ref with
  | None => (a, Err (NotFound ref))
  | Some e =>
      match next_revision a with
      | None => (a, Err RevisionExhausted)
      | Some v => (mk (delete ref (store a)) v, Ok e)
      end
  end.
End spec.
End GraphSpec.

(** ** Logged changes *)

(** The dicts a change carries. *)
Definition diff_dicts (d : GraphDiff) : list HDict :=
  omap id [diff_old d; diff_new d; changed_tags d; previous_tags d].

(** A logged change carries what its operation needs, and its size is that
    of the dicts it carries. *)
Record diff_ok `{HashOrder} (d : GraphDiff) : Prop := {
  diff_shape :
    match diff_op d with
    | DAdd => ∃ e, diff_new d = Some e ∧ has_ref (diff_ref d) e ∧
        diff_old d = None ∧ changed_tags d = None ∧ previous_tags d = None
    | DRemove => ∃ e, diff_old d = Some e ∧ has_ref (diff_ref d) e ∧
        diff_new d = None ∧ changed_tags d = None ∧ previous_tags d = None
    | DUpdate => ∃ c p, changed_tags d = Some c ∧ previous_tags d = Some p ∧
        diff_old d = None ∧ diff_new d = None
    end;
  diff_size : ValueBudget.diff_bytes (diff_ref d) (diff_dicts d) (retained_bytes d)
              = Some (retained_bytes d)
}.

Lemma diff_ok_timestamp `{HashOrder} now d : diff_ok d → diff_ok (set_timestamp now d).
Proof. intros [Hs Hb]. by split. Qed.

Lemma previous_of_lookup `{HashOrderLaws} old changes k :
  EntityGraph.previous_of old changes !! k
  = match changes !! k with Some _ => old !! k | None => None end.
Proof.
  unfold EntityGraph.previous_of, HDict.get, HDict.set, HDict.new.
  assert (Hgen : ∀ (l : list (string * Kind)) (prev : HDict),
    foldl (λ prev '(name, _), match old !! name with
      | Some v => <[name := v]> prev | None => prev end) prev l !! k
    = if decide (k ∈ l.*1 ∧ is_Some (old !! k)) then old !! k else prev !! k).
  { induction l as [|[name v] l IH]; intros prev; cbn [foldl]; [by rewrite decide_False by set_solver|].
    rewrite IH. destruct (decide (k ∈ l.*1 ∧ is_Some (old !! k))) as [[Hin Hs]|Hno].
    - rewrite decide_True; [done|]. split; [|done]. rewrite fmap_cons. by right.
    - destruct (decide (k = name)) as [->|Hne].
      + destruct (old !! name) as [v'|] eqn:Ho.
        * rewrite decide_True, lookup_insert_eq; [done|]. split; [left|by eexists].
        * rewrite decide_False; [done|]. by intros [_ []].
      + rewrite decide_False.
        * destruct (old !! name); [by rewrite lookup_insert_ne|done].
        * intros [Hin Hs]. apply Hno. split; [|done]. rewrite fmap_cons in Hin. set_solver. }
  rewrite Hgen, lookup_empty.
  assert (Hk : k ∈ (HDict.iter changes).*1 ↔ is_Some (changes !! k)) by apply HDict.elem_of_tag_names.
  case_decide as Hd.
  - destruct Hd as [Hin%Hk _]. destruct (changes !! k); [done|by destruct Hin].
  - destruct (changes !! k) as [c|]; [|done]. destruct (old !! k) as [v|]; [|done].
    exfalso. apply Hd. split; [apply Hk|]; by eexists.
Qed.

(** ** The invariant *)

Module GraphInv.
Import EntityGraph.

Section inv.
Context {HO : HashOrder} {HL : HashOrderLaws} {RB : Roaring} {RL : RoaringLaws}.
Context {CM : CacheMap} {CL : CacheLaws} {ON : Ontology} {CA : Catalog} {FS : FilterSyntax}.
Implicit Types (g : EntityGraph.t) (e : HDict) (ref : string).

Definition rows g : gmap N HDict := rows_of (entities g) (reverse_id g).

(** The three indexes describe the same rows. *)
Definition indexed ti ad vi (rs : gmap N HDict) : Prop :=
  TagBitmapIndex.models ti rs ∧ RefAdjacency.models ad rs ∧ ValueIndex.models vi rs.

(** The references of the entities a filter selects, in key order. *)
Definition selects g (node : FilterNode) (kv : string * HDict) : Prop :=
  matches_with_ns node kv.2 (Some (query_ctx g)) (deref_namespace g) = true.
#[global] Instance selects_dec g node kv : Decision (selects g node kv).
Proof. unfold selects. apply _. Defined.
Definition selected g (node : FilterNode) : list string :=
  (filter (selects g node) (btree_iter (entities g))).*1.

(** A cached answer of the current version is the selection of its filter;
    older ones are never returned. *)
Definition cache_entry_ok g (entry : (string * N) * list string) : Prop :=
  let '((text, v), refs) := entry in
  (v ≤ version g)%N ∧
  (v = version g → ∃ node, parse_filter_text text = Ok node ∧
     unresolved_specs node (deref_namespace g) = [] ∧ refs ≡ₚ selected g node).

Record inv g : Prop := {
  inv_store : store_ok (entities g) (id_map g) (reverse_id g) (next_id g) (free_ids g);
  inv_indexed : indexed (tag_index g) (adjacency g) (value_index g) (rows g);
  inv_version : (version g ≤ u64_max)%N;
  inv_log : ChangeLog.wf (version g) (changelog g);
  inv_capacity : (1 ≤ ChangeLog.capacity (changelog g))%N;
  inv_bytes : (ChangeLog.byte_capacity (changelog g) ≤ usize_max)%N;
  inv_diffs d : d ∈ ChangeLog.log (changelog g) → diff_ok d;
  inv_cache entry : entry ∈ im_list (QueryCache.entries (query_cache g)) → cache_entry_ok g entry;
  inv_ast text node : ast_cache g !! text = Some node → parse_filter_text text = Ok node
}.

Definition abs g : GraphSpec.t := GraphSpec.mk (entities g) (version g).

(** *** Index maintenance *)

Lemma index_entity_indexed g rs eid e :
  indexed (tag_index g) (adjacency g) (value_index g) rs →
  rs !! eid = None → (eid ≤ u32_max)%N →
  ∃ ti ad vi, index_entity g eid e = Some (set_indexes ti ad vi g) ∧
    indexed ti ad vi (<[eid := e]> rs).
Proof.
  intros (Ht & Ha & Hv) Hnone Hle. unfold index_entity.
  destruct (ri_insert_models (tag_index g) rs eid e) as (ti & Hti & Hti'); [done..|].
  simpl in Hti. rewrite Hti. simpl. eexists _, _, _. split; [done|].
  split; [done|]. split; [by apply RefAdjacency.index_refs_models|].
  by apply ValueIndex.index_values_models.
Qed.

Lemma remove_indexing_indexed g rs eid e :
  indexed (tag_index g) (adjacency g) (value_index g) rs →
  rs !! eid = Some e → (eid ≤ u32_max)%N →
  ∃ ti ad vi, remove_indexing g eid e = Some (set_indexes ti ad vi g) ∧
    indexed ti ad vi (delete eid rs).
Proof.
  intros (Ht & Ha & Hv) Hsome Hle. unfold remove_indexing.
  destruct (ri_remove_models (tag_index g) rs eid e) as (ti & Hti & Hti'); [done..|].
  simpl in Hti. rewrite Hti. simpl. eexists _, _, _. split; [done|].
  split; [done|]. split; [by eapply RefAdjacency.remove_models|].
  by apply ValueIndex.remove_values_models.
Qed.

(** *** Logging *)

Lemma native_gap_no_changes head c v :
  (v < head)%N → ChangeLog.changes_since (ChangeLog.native_gap head c) v = Err (mkGap v head).
Proof. intros Hv. by apply ChangeLog.changes_since_gap. Qed.

(** One mutation is logged, or leaves a gap: the log stays well formed and a
    reader sees the old changes and the new one, or an error. *)
Lemma log_diff_spec now g diff :
  ChangeLog.wf (version g) (changelog g) →
  (1 ≤ ChangeLog.capacity (changelog g))%N →
  (∀ d, diff = Some d → Changelog.version d = (version g + 1)%N ∧
     span d = singleton (version g + 1) ∧
     (retained_bytes d ≤ ChangeLog.byte_capacity (changelog g))%N ∧ diff_ok d) →
  (∀ d, d ∈ ChangeLog.log (changelog g) → diff_ok d) →
  ∃ c, log_diff now g (version g + 1) diff = Some (set_log (version g + 1) c g) ∧
    ChangeLog.wf (version g + 1) c ∧ ChangeLog.capacity c = ChangeLog.capacity (changelog g) ∧
    ChangeLog.byte_capacity c = ChangeLog.byte_capacity (changelog g) ∧
    (∀ d, d ∈ ChangeLog.log c → diff_ok d) ∧
    ∀ v l', (v ≤ version g)%N → ChangeLog.changes_since c v = Ok l' →
      ∃ d l, diff = Some d ∧ ChangeLog.changes_since (changelog g) v = Ok l ∧
        l' = l ++ [set_timestamp now d].
Proof.
  intros Hwf Hcap Hd Hds. unfold log_diff. destruct diff as [d|].
  - destruct (Hd d) as (Hv & Hs & Hb & Hok); [done|].
    destruct (ChangeLog.append_changes_since now (version g) (changelog g) [d])
      as (c & Happ & Hwf' & Hc & Hbc & Hin & Hread); [done|..].
    + exists (singleton (version g + 1)). unfold singleton. simpl. split; [lia|].
      split; [by repeat constructor|]. rewrite Hv. simpl.
      rewrite N.sub_diag. by rewrite seqN_1.
    + unfold ChangeLog.contiguous. cbn. by rewrite seqN_1, Hv.
    + unfold len. simpl. lia.
    + simpl. lia.
    + exists c. rewrite Happ. simpl. do 4 (split; [done|]).
      split; [intros d' [?|[->|[]%elem_of_nil]%elem_of_cons]%Hin; auto using diff_ok_timestamp|].
      intros v l' Hle Hl'. destruct (Hread v l' Hle Hl') as (l & Hl & ->). eauto.
  - eexists. split; [done|]. split; [apply ChangeLog.native_gap_wf; lia|]. do 2 (split; [done|]).
    split; [by intros d ?%elem_of_nil|]. intros v l' Hle Hl'. rewrite native_gap_no_changes in Hl' by lia. done.
Qed.

(** *** Replay *)

(** The effect of a logged change on the entities. *)
Definition apply_diff (m : gmap string HDict) (d : GraphDiff) : gmap string HDict :=
  match diff_op d with
  | DAdd => match diff_new d with Some e => <[diff_ref d := e]> m | None => m end
  | DUpdate =>
      match changed_tags d with
      | Some c => alter (λ e, HDict.merge e c) (diff_ref d) m
      | None => m
      end
  | DRemove => delete (diff_ref d) m
  end.

(** [n] more changes: readers see them after the ones they saw before, and
    they have the effect of the mutations, or readers get an error. *)
Definition extends_by (n : N) g g' : Prop :=
  version g' = (version g + n)%N ∧
  ∀ v l', (v ≤ version g)%N → changes_since g' v = Ok l' →
    ∃ l ds, changes_since g v = Ok l ∧ l' = l ++ ds ∧ len ds = n ∧
      entities g' = foldl apply_diff (entities g) ds.
Definition extends g g' : Prop := extends_by 1 g g'.

Lemma extends_one g g' :
  version g' = (version g + 1)%N →
  (∀ v l', (v ≤ version g)%N → changes_since g' v = Ok l' →
    ∃ l d, changes_since g v = Ok l ∧ l' = l ++ [d] ∧ entities g' = apply_diff (entities g) d) →
  extends g g'.
Proof.
  intros Hv Hr. split; [done|]. intros v l' Hle Hl'.
  destruct (Hr v l' Hle Hl') as (l & d & Hl & -> & He). by exists l, [d].
Qed.

(** Assembling the invariant after a mutation: the version is new, so no
    cached answer is current. *)
Lemma commit_inv_gt g g' :
  inv g →
  store_ok (entities g') (id_map g') (reverse_id g') (next_id g') (free_ids g') →
  indexed (tag_index g') (adjacency g') (value_index g') (rows g') →
  (version g < version g')%N → (version g' ≤ u64_max)%N →
  ChangeLog.wf (version g') (changelog g') →
  ChangeLog.capacity (changelog g') = ChangeLog.capacity (changelog g) →
  ChangeLog.byte_capacity (changelog g') = ChangeLog.byte_capacity (changelog g) →
  (∀ d, d ∈ ChangeLog.log (changelog g') → diff_ok d) →
  QueryCache.entries (query_cache g') = QueryCache.entries (query_cache g) →
  ast_cache g' = ast_cache g →
  inv g'.
Proof.
  intros Hi Hs Hx Hv Hmax Hwf Hcap Hbc Hds Hq Ha. split; try done.
  - rewrite Hcap. apply (inv_capacity _ Hi).
  - rewrite Hbc. apply (inv_bytes _ Hi).
  - rewrite Hq. intros [[text v] refs] [Hle _]%(inv_cache _ Hi). simpl.
    split; [lia|]. intros ->. lia.
  - rewrite Ha. apply (inv_ast _ Hi).
Qed.

Lemma commit_inv g g' :
  inv g →
  store_ok (entities g') (id_map g') (reverse_id g') (next_id g') (free_ids g') →
  indexed (tag_index g') (adjacency g') (value_index g') (rows g') →
  version g' = (version g + 1)%N → (version g + 1 ≤ u64_max)%N →
  ChangeLog.wf (version g') (changelog g') →
  ChangeLog.capacity (changelog g') = ChangeLog.capacity (changelog g) →
  ChangeLog.byte_capacity (changelog g') = ChangeLog.byte_capacity (changelog g) →
  (∀ d, d ∈ ChangeLog.log (changelog g') → diff_ok d) →
  QueryCache.entries (query_cache g') = QueryCache.entries (query_cache g) →
  ast_cache g' = ast_cache g →
  inv g'.
Proof. intros Hi Hs Hx Hv Hmax. apply commit_inv_gt; [done..|lia|lia]. Qed.

(** Ids are found as long as fewer than [2^32] entities are live. *)
Lemma alloc_id_spec g :
  store_ok (entities g) (id_map g) (reverse_id g) (next_id g) (free_ids g) →
  if GraphSpec.full (abs g) then alloc_id g = Err IdExhausted
  else ∃ eid next free, alloc_id g = Ok (eid, next, free) ∧
    reverse_id g !! eid = None ∧ (eid ≤ u32_max)%N ∧
    (∀ i, (i < next)%N ↔ (i < next_id g)%N ∨ i = eid) ∧ (next ≤ MAX_ENTITY_ID + 1)%N ∧
    NoDup free ∧ (∀ i, i ∈ free_ids g ↔ i ∈ free ∨ (i = eid ∧ i ∈ free_ids g)) ∧ eid ∉ free.
Proof.
  intros Hs. pose proof (store_count _ _ _ _ _ Hs) as Hcount.
  pose proof (store_bound _ _ _ _ _ Hs) as Hbound.
  unfold GraphSpec.full, alloc_id. simpl.
  pose proof (store_free _ _ _ _ _ Hs) as Hnd. pose proof (store_next _ _ _ _ _ Hs) as Hnext.
  destruct (free_ids g) as [|eid free] eqn:Hf.
  - rewrite len_nil in Hcount. case_bool_decide as Hfull; [by rewrite decide_True by lia|].
    rewrite decide_False by lia.
    assert (Hc : checked_add usize_max (next_id g) 1 = Some (next_id g + 1)%N).
    { apply checked_add_Some. unfold MAX_ENTITY_ID, u32_max, usize_max in *. lia. }
    rewrite Hc. eexists _, _, _. split; [done|]. repeat split; try (intros; lia).
    + apply eq_None_not_Some. intros Hsome.
      assert (next_id g < next_id g)%N by (apply Hnext; by left). lia.
    + unfold MAX_ENTITY_ID in *. lia.
    + constructor.
    + intros ?%elem_of_nil. done.
    + intros [?%elem_of_nil|[_ ?%elem_of_nil]]; done.
    + by intros ?%elem_of_nil.
  - rewrite len_cons in Hcount. case_bool_decide as Hfull; [lia|].
    assert (Hlt : (eid < next_id g)%N) by (apply Hnext; right; left).
    apply NoDup_cons in Hnd as [Hnin Hnd].
    eexists _, _, _. split; [done|]. repeat split; try done.
    + apply (store_free_dead _ _ _ _ _ Hs). left.
    + unfold MAX_ENTITY_ID in *. lia.
    + intros. by left.
    + intros [?| ->]; done.
    + intros [->|?]%elem_of_cons; [right; split; [done|left]|by left].
    + intros [?|[-> _]]; [by right|left].
Qed.

(** *** Mutations *)

Lemma add_ok_spec now g e r v :
  inv g → e !! "id" = Some (KRef r) → entities g !! ref_val r = None →
  checked_add u64_max (version g) 1 = Some v → GraphSpec.full (abs g) = false →
  ∃ g', add now g e = Some (g', Ok (ref_val r)) ∧ inv g' ∧
    abs g' = GraphSpec.mk (<[ref_val r := e]> (entities g)) v ∧ extends g g'.
Proof.
  intros Hi Hid Hnone Hv Hfull. pose proof Hv as [-> Hmax]%checked_add_Some.
  pose proof (alloc_id_spec g (inv_store _ Hi)) as Halloc. rewrite Hfull in Halloc.
  destruct Halloc as (eid & next & free & Halloc & Hrev & Hle & Hnext & Hb & Hnd & Hfree & Hnin).
  set (ref := ref_val r) in *.
  assert (Hfresh : ∀ id', reverse_id g !! id' = Some ref → id' = eid).
  { intros id' Hr. destruct (store_rows _ _ _ _ _ id' ref (inv_store _ Hi) Hr) as (? & ? & _).
    congruence. }
  unfold add, extract_ref_val, HDict.get. rewrite Hid. fold ref.
  rewrite bool_decide_eq_false_2 by (rewrite Hnone; by intros []). rewrite Hv, Halloc.
  edestruct (index_entity_indexed
    (set_ids (<[ref := eid]> (id_map g)) (<[eid := ref]> (reverse_id g)) next free g)
    (rows g) eid e) as (ti & ad & vi & -> & Hx); simpl; [apply (inv_indexed _ Hi)| |done|].
  { unfold rows. by rewrite lookup_rows_of, Hrev. }
  match goal with |- context [log_diff now ?g1 _ ?d] => set (g1' := g1); set (diff := d) end.
  destruct (log_diff_spec now g1' diff) as (c & Hlog & Hwf & Hcap & Hbc & Hds & Hread).
  { apply (inv_log _ Hi). }
  { apply (inv_capacity _ Hi). }
  { intros d Hd. subst diff. apply bind_Some in Hd as (n & Hn & [= <-]). simpl.
    pose proof (ValueBudget.diff_bytes_le _ _ _ _ Hn). do 3 (split; [done|]). split.
    - exists e. split; [done|]. split; [by exists r|done].
    - by apply (ValueBudget.diff_bytes_limit _ _ _ _ _ Hn). }
  { apply (inv_diffs _ Hi). }
  change (version g1') with (version g) in *. rewrite Hlog. simpl.
  eexists. split; [done|]. split; [|split; [done|]].
  - eapply commit_inv; try done; simpl.
    + eapply store_insert; try done; [apply (inv_store _ Hi)|]. by exists r.
    + unfold rows. simpl. rewrite rows_of_insert by done. done.
  - apply extends_one; [done|]. simpl. intros v l' Hv' Hl'.
    destruct (Hread v l' Hv' Hl') as (d & l & Hd & Hl & ->).
    exists l, (set_timestamp now d). split; [done|]. split; [done|].
    subst diff. apply bind_Some in Hd as (n & Hn & [= <-]). done.
Qed.

(** Mutations leave the catalog alone. *)
Lemma log_diff_catalog now g v d g' :
  log_diff now g v d = Some g' → namespace g' = namespace g ∧ activated g' = activated g.
Proof.
  unfold log_diff. destruct d as [d|]; [|by intros [= <-]].
  intros (c & _ & [= <-])%bind_Some. done.
Qed.

Lemma add_catalog now g e g' r :
  add now g e = Some (g', r) → namespace g' = namespace g ∧ activated g' = activated g.
Proof.
  unfold add. destruct (extract_ref_val e) as [ref|]; [|by intros [= <- _]].
  destruct (bool_decide _); [by intros [= <- _]|].
  destruct (checked_add _ _ _); [|by intros [= <- _]].
  destruct (alloc_id g) as [[[eid next] free]|]; [|by intros [= <- _]].
  intros (g1 & H1 & H2)%bind_Some. apply bind_Some in H2 as (g2 & H2 & [= <- _]).
  unfold index_entity in H1. apply bind_Some in H1 as (ti & _ & [= <-]).
  by apply log_diff_catalog in H2.
Qed.

(** [add] refines the abstract operation, on success and on every error; an
    error leaves the graph as it was. *)
Lemma add_spec now g e :
  inv g →
  ∃ g' r, add now g e = Some (g', r) ∧ inv g' ∧ GraphSpec.add (abs g) e = (abs g', r) ∧
    (is_ok r = true → extends g g') ∧ (is_ok r = false → g' = g).
Proof.
  intros Hi. unfold GraphSpec.add. destruct (e !! "id") as [k|] eqn:Hid.
  2: { exists g, (Err MissingId). unfold add, extract_ref_val, HDict.get. by rewrite Hid. }
  destruct k; try (exists g, (Err InvalidId); unfold add, extract_ref_val, HDict.get;
    by rewrite Hid).
  destruct (decide (is_Some (GraphSpec.store (abs g) !! ref_val v))) as [Hdup|Hdup];
    simpl in Hdup.
  { eexists g, _. unfold add, extract_ref_val, HDict.get. rewrite Hid.
    by rewrite bool_decide_eq_true_2. }
  destruct (GraphSpec.next_revision (abs g)) as [rev|] eqn:Hrev; unfold GraphSpec.next_revision in Hrev;
    simpl in Hrev.
  2: { eexists g, _. unfold add, extract_ref_val, HDict.get. rewrite Hid.
    by rewrite bool_decide_eq_false_2, Hrev. }
  destruct (GraphSpec.full (abs g)) eqn:Hfull.
  { eexists g, _. unfold add, extract_ref_val, HDict.get. rewrite Hid.
    pose proof (alloc_id_spec g (inv_store _ Hi)) as Halloc. rewrite Hfull in Halloc.
    by rewrite bool_decide_eq_false_2, Hrev, Halloc. }
  destruct (add_ok_spec now g e v rev) as (g' & Hadd & Hi' & Habs & Hext); try done.
  { by apply eq_None_not_Some. }
  exists g', (Ok (ref_val v)). split; [done|]. split; [done|]. by rewrite Habs.
Qed.

Lemma keeps_id_merge ref old changes :
  has_ref ref old → keeps_id ref changes = true → has_ref ref (HDict.merge old changes).
Proof.
  intros (r & Hr & <-) Hk. unfold has_ref, keeps_id, HDict.get in *.
  rewrite HDict.merge_lookup, Hr. unfold HDict.patched.
  destruct (changes !! "id") as [k|]; [|by exists r].
  destruct k; try done. apply bool_decide_eq_true in Hk. by eexists.
Qed.

Lemma update_ok_spec now g ref old changes v :
  inv g → entities g !! ref = Some old → keeps_id ref changes = true → changes ≠ ∅ →
  checked_add u64_max (version g) 1 = Some v →
  ∃ g', update now g ref changes = Some (g', Ok ()) ∧ inv g' ∧
    abs g' = GraphSpec.mk (<[ref := HDict.merge old changes]> (entities g)) v ∧ extends g g'.
Proof.
  intros Hi Hold Hkeep Hne Hv. pose proof Hv as [-> Hmax]%checked_add_Some.
  pose proof (inv_store _ Hi) as Hs.
  destruct (store_id _ _ _ _ _ ref old Hs Hold) as (eid & Heid & Hrev & Hrow).
  assert (Hle : (eid ≤ u32_max)%N) by (by eapply store_id_le).
  assert (Hinj : ∀ id', reverse_id g !! id' = Some ref → id' = eid).
  { intros id' Hr. by eapply store_id_inj. }
  unfold update. rewrite Heid, Hkeep. simpl.
  unfold HDict.is_empty. rewrite bool_decide_eq_false_2 by done. rewrite Hv, Hold. simpl.
  destruct (remove_indexing_indexed (set_entities (delete ref (entities g)) g) (rows g) eid old)
    as (ti & ad & vi & -> & Hx); [apply (inv_indexed _ Hi)|done|done|]. simpl.
  match goal with |- context [index_entity ?g1 _ _] => set (g1' := g1) end.
  destruct (index_entity_indexed g1' (delete eid (rows g)) eid (HDict.merge old changes))
    as (ti' & ad' & vi' & -> & Hx'); [done|by rewrite lookup_delete_eq|done|].
  rewrite insert_delete_eq in Hx'. simpl.
  match goal with |- context [log_diff now ?g2 _ ?d] => set (g2' := g2); set (diff := d) end.
  destruct (log_diff_spec now g2' diff) as (c & Hlog & Hwf & Hcap & Hbc & Hds & Hread).
  { apply (inv_log _ Hi). }
  { apply (inv_capacity _ Hi). }
  { intros d Hd. subst diff. apply bind_Some in Hd as (n & Hn & [= <-]). simpl.
    pose proof (ValueBudget.patch_diff_bytes_le _ _ _ _ _ Hn). do 3 (split; [done|]). split.
    - by eexists _, _.
    - eapply ValueBudget.patch_as_diff; [apply previous_of_lookup|apply (inv_bytes _ Hi)|exact Hn|done]. }
  { apply (inv_diffs _ Hi). }
  change (version g2') with (version g) in *. rewrite Hlog. simpl.
  assert (Hents : <[ref := HDict.merge old changes]> (delete ref (entities g))
                  = <[ref := HDict.merge old changes]> (entities g)) by apply insert_delete_eq.
  eexists. split; [done|]. split; [|split; [unfold abs; simpl; by rewrite Hents|]].
  - eapply commit_inv; try done; simpl; rewrite ?Hents.
    + apply store_set; [done|by exists old|]. eapply keeps_id_merge; [|done].
      by apply (store_ref _ _ _ _ _ Hs).
    + unfold rows. simpl. rewrite Hents. rewrite <-(insert_id (reverse_id g) eid ref) by done.
      rewrite rows_of_insert by done. done.
  - apply extends_one; [done|]. simpl. intros v l' Hv' Hl'.
    destruct (Hread v l' Hv' Hl') as (d & l & Hd & Hl & ->).
    exists l, (set_timestamp now d). split; [done|]. split; [done|].
    subst diff. apply bind_Some in Hd as (n & Hn & [= <-]). unfold apply_diff. simpl.
    rewrite Hents. apply map_eq. intros k. rewrite lookup_insert, lookup_alter.
    case_decide; [|done]. subst k. by rewrite Hold.
Qed.

Lemma update_spec now g ref changes :
  inv g →
  ∃ g' r, update now g ref changes = Some (g', r) ∧ inv g' ∧
    GraphSpec.update (abs g) ref changes = (abs g', r) ∧
    (g' = g ∨ (r = Ok () ∧ extends g g')).
Proof.
  intros Hi. unfold GraphSpec.update. simpl.
  destruct (entities g !! ref) as [old|] eqn:Hold.
  2: { exists g, (Err (NotFound ref)). unfold update.
    destruct (id_map g !! ref) as [id|] eqn:Hid; [|by auto].
    destruct (proj2 (store_dom _ _ _ _ _ (inv_store _ Hi) ref)) as [e He]; [by eexists|].
    congruence. }
  destruct (store_id _ _ _ _ _ ref old (inv_store _ Hi) Hold) as (eid & Heid & _).
  destruct (keeps_id ref changes) eqn:Hk.
  2: { eexists g, _. unfold update. rewrite Heid, Hk. simpl. by auto. }
  destruct (decide (changes = ∅)) as [->|Hne].
  { eexists g, _. unfold update. rewrite Heid, Hk. simpl. by auto. }
  unfold GraphSpec.next_revision. simpl.
  destruct (checked_add u64_max (version g) 1) as [v|] eqn:Hv.
  2: { eexists g, _. unfold update. rewrite Heid, Hk, Hv. simpl. unfold HDict.is_empty.
    rewrite bool_decide_eq_false_2 by done. by auto. }
  destruct (update_ok_spec now g ref old changes v) as (g' & Hu & Hi' & Habs & Hext); try done.
  exists g', (Ok ()). rewrite Habs. do 3 (split; [done|]). by right.
Qed.

Lemma remove_ok_spec now g ref e v :
  inv g → entities g !! ref = Some e → checked_add u64_max (version g) 1 = Some v →
  ∃ g', remove now g ref = Some (g', Ok e) ∧ inv g' ∧
    abs g' = GraphSpec.mk (delete ref (entities g)) v ∧ extends g g'.
Proof.
  intros Hi He Hv. pose proof Hv as [-> Hmax]%checked_add_Some.
  pose proof (inv_store _ Hi) as Hs.
  destruct (store_id _ _ _ _ _ ref e Hs He) as (eid & Heid & Hrev & Hrow).
  assert (Hle : (eid ≤ u32_max)%N) by (by eapply store_id_le).
  unfold remove. rewrite Heid, Hv, He. simpl.
  match goal with |- context [remove_indexing ?g1 _ _] => set (g1' := g1) end.
  destruct (remove_indexing_indexed g1' (rows g) eid e)
    as (ti & ad & vi & -> & Hx); [apply (inv_indexed _ Hi)|done|done|]. simpl.
  match goal with |- context [log_diff now ?g2 _ ?d] => set (g2' := g2); set (diff := d) end.
  destruct (log_diff_spec now g2' diff) as (c & Hlog & Hwf & Hcap & Hbc & Hds & Hread).
  { apply (inv_log _ Hi). }
  { apply (inv_capacity _ Hi). }
  { intros d Hd. subst diff. apply bind_Some in Hd as (n & Hn & [= <-]). simpl.
    pose proof (ValueBudget.diff_bytes_le _ _ _ _ Hn). do 3 (split; [done|]). split.
    - exists e. split; [done|]. split; [by apply (store_ref _ _ _ _ _ Hs)|done].
    - by apply (ValueBudget.diff_bytes_limit _ _ _ _ _ Hn). }
  { apply (inv_diffs _ Hi). }
  change (version g2') with (version g) in *. rewrite Hlog. simpl.
  eexists. split; [done|]. split; [|split; [done|]].
  - eapply commit_inv; try done; simpl.
    + by apply store_delete.
    + unfold rows. simpl. rewrite rows_of_delete; [done|].
      intros id' Hr. by eapply store_id_inj.
  - apply extends_one; [done|]. simpl. intros v l' Hv' Hl'.
    destruct (Hread v l' Hv' Hl') as (d & l & Hd & Hl & ->).
    exists l, (set_timestamp now d). split; [done|]. split; [done|].
    subst diff. apply bind_Some in Hd as (n & Hn & [= <-]). done.
Qed.

Lemma remove_spec now g ref :
  inv g →
  ∃ g' r, remove now g ref = Some (g', r) ∧ inv g' ∧
    GraphSpec.remove (abs g) ref = (abs g', r) ∧
    (is_ok r = true → extends g g') ∧ (is_ok r = false → g' = g).
Proof.
  intros Hi. unfold GraphSpec.remove. simpl.
  destruct (entities g !! ref) as [e|] eqn:He.
  2: { exists g, (Err (NotFound ref)). unfold remove.
    destruct (id_map g !! ref) as [id|] eqn:Hid; [|by auto].
    destruct (proj2 (store_dom _ _ _ _ _ (inv_store _ Hi) ref)) as [e' He']; [by eexists|].
    congruence. }
  unfold GraphSpec.next_revision. simpl.
  destruct (store_id _ _ _ _ _ ref e (inv_store _ Hi) He) as (eid & Heid & _).
  destruct (checked_add u64_max (version g) 1) as [v|] eqn:Hv.
  2: { eexists g, _. unfold remove. rewrite Heid, Hv. by auto. }
  destruct (remove_ok_spec now g ref e v) as (g' & Hr & Hi' & Habs & Hext); try done.
  exists g', (Ok e). rewrite Habs. by auto.
Qed.

(** *** Value index registration *)

(** The rows in key order of their references. *)
Definition to_row g (kv : string * HDict) : N * HDict := (default 0%N (id_map g !! kv.1), kv.2).

Lemma to_row_perm g :
  inv g → to_row g <$> btree_iter (entities g) ≡ₚ map_to_list (rows g).
Proof.
  intros Hi. pose proof (inv_store _ Hi) as Hs.
  apply NoDup_Permutation; [|apply NoDup_map_to_list|].
  - apply NoDup_fmap_2_strong; [|rewrite btree_iter_perm; apply NoDup_map_to_list].
    intros [r1 e1] [r2 e2] H1%elem_of_btree_iter H2%elem_of_btree_iter [= Hid <-].
    simpl in Hid.
    destruct (store_id _ _ _ _ _ _ _ Hs H1) as (i1 & Hi1 & _).
    destruct (store_id _ _ _ _ _ _ _ Hs H2) as (i2 & Hi2 & _).
    rewrite Hi1, Hi2 in Hid. simpl in Hid. subst i2.
    apply (store_rev _ _ _ _ _ Hs) in Hi1, Hi2. congruence.
  - intros [id e]. rewrite list_elem_of_fmap, elem_of_map_to_list. split.
    + intros ([ref e'] & [= -> ->] & Hin%elem_of_btree_iter). simpl.
      destruct (store_id _ _ _ _ _ _ _ Hs Hin) as (id & Hid & _ & Hrow). by rewrite Hid.
    + unfold rows. rewrite lookup_rows_of. intros (ref & Hr & He)%bind_Some.
      exists (ref, e). rewrite elem_of_btree_iter. split; [|done]. unfold to_row. simpl.
      apply (store_rev _ _ _ _ _ Hs) in Hr. by rewrite Hr.
Qed.

Lemma ids_in_iter g :
  inv g → Forall (λ kv, is_Some (id_map g !! kv.1)) (btree_iter (entities g)).
Proof.
  intros Hi. apply Forall_forall. intros [ref e] Hin%elem_of_btree_iter. simpl.
  apply (store_dom _ _ _ _ _ (inv_store _ Hi)). by exists e.
Qed.

Lemma backfill_fill g f l vi :
  Forall (λ kv, is_Some (id_map g !! kv.1)) l →
  foldl (backfill_step g f) (Some vi) l =
  Some (foldl (ValueIndex.fill_step (ValueIndex.field_part f)) vi (to_row g <$> l)).
Proof.
  revert vi. induction l as [|[ref e] l IH]; intros vi Hl; [done|].
  apply Forall_cons in Hl as [[id Hid] Hl]. rewrite fmap_cons. cbn [foldl].
  rewrite <-IH by done. f_equal.
  unfold backfill_step, ValueIndex.fill_step, ValueIndex.field_part, to_row, HDict.get.
  simpl in *. destruct (e !! f) as [v|]; simpl; [|done].
  by rewrite Hid, ValueIndex.add_step_add.
Qed.

Lemma rebuild_fill g l vi :
  Forall (λ kv, is_Some (id_map g !! kv.1)) l →
  foldl (rebuild_step g) vi l =
  foldl (ValueIndex.fill_step HDict.iter) vi (to_row g <$> l).
Proof.
  revert vi. induction l as [|[ref e] l IH]; intros vi Hl; [done|].
  apply Forall_cons in Hl as [[id Hid] Hl]. rewrite fmap_cons. cbn [foldl].
  rewrite <-IH by done. f_equal.
  unfold rebuild_step, ValueIndex.fill_step, to_row. simpl in *. rewrite Hid. simpl.
  by rewrite ValueIndex.index_values_steps.
Qed.

(** Operations that leave the entities, their indexes but the value index,
    the log and the catalog alone keep the invariant. *)
Lemma set_value_index_inv g vi gen :
  inv g → ValueIndex.models vi (rows g) → inv (set_value_index vi gen g).
Proof. intros [Hs (Ht & Ha & _) Hv Hl Hc Hb Hd Hq Hast] Hvi. by split. Qed.

Lemma index_field_spec g f :
  inv g →
  (index_generation g < u64_max)%N ∨ ValueIndex.has_index (value_index g) f = true →
  ∃ g', index_field g f = Some g' ∧ inv g' ∧ abs g' = abs g ∧ changelog g' = changelog g ∧
    ∀ f', ValueIndex.has_index (value_index g') f' =
          ValueIndex.has_index (value_index g) f' || bool_decide (f' = f).
Proof.
  intros Hi Hgen. unfold index_field.
  destruct (ValueIndex.has_index (value_index g) f) eqn:Hf.
  { exists g. do 4 (split; [done|]). intros f'.
    destruct (bool_decide (f' = f)) eqn:Hff; [|by rewrite orb_false_r].
    apply bool_decide_eq_true in Hff as ->. by rewrite Hf. }
  destruct Hgen as [Hgen|]; [|done].
  assert (Hg : checked_add u64_max (index_generation g) 1 = Some (index_generation g + 1)%N)
    by (apply checked_add_Some; split; [done|lia]).
  rewrite Hg. cbn [mbind option_bind]. rewrite backfill_fill by by apply ids_in_iter.
  eexists. split; [done|]. split; [|split; [done|split; [done|]]].
  - apply set_value_index_inv; [done|]. destruct (inv_indexed _ Hi) as (_ & _ & Hv).
    apply ValueIndex.backfill_models; [done| |by apply to_row_perm].
    apply eq_None_not_Some. by eapply bool_decide_eq_false_1.
  - intros f'. simpl. unfold ValueIndex.has_index. apply eq_true_iff_eq.
    rewrite orb_true_iff, !bool_decide_eq_true, ValueIndex.fill_indexed.
    rewrite ValueIndex.index_field_indexes. destruct (decide (f = f')) as [->|Hne].
    + split; [by right|by eexists].
    + split; [by left|]. by intros [?| ->].
Qed.

Lemma rebuild_spec g :
  inv g → inv (rebuild_value_index g) ∧ abs (rebuild_value_index g) = abs g.
Proof.
  intros Hi. split; [|done]. unfold rebuild_value_index. apply set_value_index_inv; [done|].
  rewrite rebuild_fill by by apply ids_in_iter. apply ValueIndex.rebuild_models.
  by apply to_row_perm.
Qed.

(** *** Construction and catalogs *)

Lemma with_changelog_capacity_inv inc cap : inv (with_changelog_capacity inc cap).
Proof.
  assert (Hrows : rows (with_changelog_capacity inc cap) = ∅) by apply omap_empty.
  split; rewrite ?Hrows; simpl.
  - apply store_empty.
  - split; [apply TagBitmapIndex.new_models|]. split; [apply RefAdjacency.new_models_adj|].
    apply (ValueIndex.new_models_fields AUTO_INDEX_FIELDS).
  - unfold u64_max. lia.
  - split; simpl; try done; [by exists []|unfold len; simpl; lia].
  - lia.
  - unfold DEFAULT_CHANGELOG_BYTES, usize_max. lia.
  - by intros d ?%elem_of_nil.
  - intros entry. rewrite im_new_list. by intros ?%elem_of_nil.
  - intros text node. by rewrite lookup_empty.
Qed.

(** Changing the catalog drops every cached answer. *)
Lemma set_catalog_inv g ns ac gen :
  inv g → inv (set_catalog ns ac gen (QueryCache.clear (query_cache g)) g).
Proof.
  intros [Hs Hx Hv Hl Hc Hb Hd Hq Hast]. split; try done. simpl.
  intros entry. rewrite im_new_list. by intros ?%elem_of_nil.
Qed.

Lemma with_changelog_limits_inv inc cap bytes :
  (bytes ≤ usize_max)%N → inv (with_changelog_limits inc cap bytes).
Proof.
  intros Hbytes. destruct (with_changelog_capacity_inv inc cap) as [Hs Hx Hv Hl Hc Hb Hd Hq Hast].
  split; try done; simpl.
  - split; simpl; try done; [by exists []|unfold len; simpl; lia|lia].
  - unfold usize_max in *. lia.
Qed.

Lemma with_namespace_inv inc ns : inv (with_namespace inc ns).
Proof.
  destruct (with_changelog_capacity_inv inc DEFAULT_CHANGELOG_CAPACITY) as [Hs Hx Hv Hl Hc Hb Hd Hq Hast].
  split; try done. simpl. intros entry. rewrite im_new_list. by intros ?%elem_of_nil.
Qed.
End inv.
End GraphInv.
