(* ===== verification/Prepared.v ===== *)
(** * Prepared batches

    [haystack-core/src/graph/prepared.rs] with the [prepare_changes] and
    [apply_prepared] of the three indexes.  [prepare_batch] checks a list of
    operations against the graph without changing it and builds the new
    rows, diffs and index entries; [apply_prepared] publishes them.  The
    capacities of the collections and the sizes of the Rust structs, which
    only decide what is charged to the budget, are parameters. *)

From S2P Require Import Prelude Floats Kinds Size Extern Bitmap Adjacency ValueIndex Filter Changelog Graph.

(** [IndexChange]. *)
Record IndexChange : Type := mkIndexChange {
  ic_id : N; ic_before : option HDict; ic_after : option HDict }.

(** The two rows of a change, the old one to be removed first. *)
Definition change_rows (c : IndexChange) : list (HDict * bool) :=
  match ic_before c with Some row => [(row, false)] | None => [] end ++
  match ic_after c with Some row => [(row, true)] | None => [] end.

(** [Layout::array] for elements of the given size, aligned to 8 bytes. *)
Definition layout_array (size n : N) : option N :=
  if decide (size ≠ 0%N ∧ (2 ^ 63 - 8) / size < n)%N then None else Some (size * n)%N.

(** [checked_ilog2().unwrap_or(0)]. *)
Definition ilog2_or_0 (n : N) : N := if decide (n = 0%N) then 0%N else N.log2 n.

Abbreviation charge := ValueBudget.charge.

(** The structs whose size is charged. *)
Record Layouts : Type := mkLayouts { size_change : N; size_diff : N; size_index_change : N }.

(** What [capacity()] answers for the graph's collections. *)
Record Capacities : Type := mkCapacities {
  cap_id_map : N; cap_reverse_id : N; cap_changelog : N; cap_free_ids : N;
  cap_bitmaps : N; cap_forward : N; cap_reverse : N }.

(** ** Tags *)

Module PreparedTags.
Section model.
Context `{HashOrder, Roaring}.

(** The bitmap being prepared for a tag: taken from the index, with its cost,
    the first time. *)
Definition fetch (idx : TagBitmapIndex.t) (tag : string)
    (st : gmap string RoaringBitmap * ValueBudget.t)
    : result unit (RoaringBitmap * ValueBudget.t) :=
  let '(entries, b) := st in
  match entries !! tag with
  | Some bm => Ok (bm, b)
  | None =>
      match TagBitmapIndex.has_tag idx tag with
      | Some current =>
          let? b := charge (rb_len current)
            (saturating_add (saturating_mul (rb_serialized_size current) 4) 256) b in
          Ok (current, b)
      | None => Ok (rb_new, b)
      end
  end.

Definition prepare_tag (idx : TagBitmapIndex.t) (eid : N) (add : bool)
    (st : gmap string RoaringBitmap * ValueBudget.t) (tag : string)
    : result unit (gmap string RoaringBitmap * ValueBudget.t) :=
  let '(entries, b) := st in
  let? b := charge (saturating_add (str_len tag) 1) (saturating_add (str_len tag) 64) b in
  let? (bm, b) := fetch idx tag (entries, b) in
  Ok (<[tag := if add then rb_insert eid bm else rb_remove eid bm]> entries, b).

Definition prepare_change (idx : TagBitmapIndex.t)
    (st : gmap string RoaringBitmap * ValueBudget.t) (c : IndexChange)
    : result unit (gmap string RoaringBitmap * ValueBudget.t) :=
  let? eid := ok_or (u32_try_from (ic_id c)) () in
  try_fold (λ st '(row, add),
    try_fold (prepare_tag idx eid add) st (HDict.tag_names row)) st (change_rows c).

(** [TagBitmapIndex::prepare_changes]. *)
Definition prepare_changes (cap : N) (idx : TagBitmapIndex.t) (changes : list IndexChange)
    (b : ValueBudget.t) : result unit (gmap string RoaringBitmap * ValueBudget.t) :=
  let? (entries, b) := try_fold (prepare_change idx) (∅, b) changes in
  let n := N.of_nat (size (TagBitmapIndex.bitmaps idx)) in
  let additional := N.of_nat (size entries) in
  if decide (cap - n < additional)%N then
    let? b := charge n (saturating_mul (saturating_add n additional) 256) b in
    Ok (entries, b)
  else Ok (entries, b).

Definition apply_entry (bms : gmap string RoaringBitmap) (entry : string * RoaringBitmap)
    : gmap string RoaringBitmap :=
  if rb_is_empty entry.2 then delete entry.1 bms else <[entry.1 := entry.2]> bms.

(** [TagBitmapIndex::apply_prepared]. *)
Definition apply_prepared (idx : TagBitmapIndex.t) (entries : gmap string RoaringBitmap)
    : TagBitmapIndex.t :=
  TagBitmapIndex.mk (foldl apply_entry (TagBitmapIndex.bitmaps idx) (hash_iter entries)).
End model.
End PreparedTags.

(** ** References *)

Module PreparedAdjacency.
Section model.
Context `{HashOrder}.

(** Prepared edges, the outgoing ones of the change at hand, and the budget. *)
Record t : Type := mk {
  forward : gmap N (list (string * string));
  reverse : gmap string (list (string * N));
  outgoing : list (string * string);
  budget : ValueBudget.t
}.

Definition fetch (adj : RefAdjacency.t) (target : string) (rev : gmap string (list (string * N)))
    (b : ValueBudget.t) : result unit (list (string * N) * ValueBudget.t) :=
  match rev !! target with
  | Some incoming => Ok (incoming, b)
  | None =>
      match RefAdjacency.reverse adj !! target with
      | Some current =>
          let? b := try_fold (λ b '(name, _), charge 1 (saturating_add (str_len name) 64) b)
                      b current in
          Ok (current, b)
      | None => Ok ([], b)
      end
  end.

Definition prepare_edge (adj : RefAdjacency.t) (id : N) (add : bool) (st : t)
    (kv : string * Kind) : result unit t :=
  let '(tag, value) := kv in
  let? b := charge (saturating_add (str_len tag) 1) 0 (budget st) in
  match value with
  | KRef target =>
      if decide (tag = "id") then Ok (mk (forward st) (reverse st) (outgoing st) b)
      else
        let? b := charge (saturating_add (str_len (ref_val target)) 1)
          (saturating_add (saturating_add (str_len tag) (str_len (ref_val target))) 128) b in
        let? (incoming, b) := fetch adj (ref_val target) (reverse st) b in
        if add : bool then
          Ok (mk (forward st) (<[ref_val target := incoming ++ [(tag, id)]]> (reverse st))
                (outgoing st ++ [(tag, ref_val target)]) b)
        else
          let? b := charge (saturating_mul (len incoming) (saturating_add (str_len tag) 1)) 0 b in
          Ok (mk (forward st)
                (<[ref_val target :=
                     filter (λ '(name, i), ¬ (name = tag ∧ i = id)) incoming]> (reverse st))
                (outgoing st) b)
  | _ => Ok (mk (forward st) (reverse st) (outgoing st) b)
  end.

Definition prepare_change (adj : RefAdjacency.t) (st : t) (c : IndexChange) : result unit t :=
  let? st := try_fold (λ st '(row, add),
               try_fold (prepare_edge adj (ic_id c) add) st (HDict.iter row))
               (mk (forward st) (reverse st) [] (budget st)) (change_rows c) in
  Ok (mk (<[ic_id c := outgoing st]> (forward st)) (reverse st) (outgoing st) (budget st)).

(** Growth of one of the two maps. *)
Definition charge_growth (n cap additional : N) (b : ValueBudget.t) : result unit ValueBudget.t :=
  if decide (cap - n < additional)%N
  then charge n (saturating_mul (saturating_add n additional) 512) b else Ok b.

(** [RefAdjacency::prepare_changes]. *)
Definition prepare_changes (cap_forward cap_reverse : N) (adj : RefAdjacency.t)
    (changes : list IndexChange) (b : ValueBudget.t) : result unit t :=
  let? st := try_fold (prepare_change adj) (mk ∅ ∅ [] b) changes in
  let? b := charge_growth (N.of_nat (size (RefAdjacency.forward adj))) cap_forward
              (N.of_nat (size (forward st))) (budget st) in
  let? b := charge_growth (N.of_nat (size (RefAdjacency.reverse adj))) cap_reverse
              (N.of_nat (size (reverse st))) b in
  Ok (mk (forward st) (reverse st) (outgoing st) b).

(** Replacing the entries of a map of lists, dropping the empty ones. *)
Definition apply_entry {K A} `{Countable K} (m : gmap K (list A)) (entry : K * list A)
    : gmap K (list A) :=
  if decide (entry.2 = []) then delete entry.1 m else <[entry.1 := entry.2]> m.

(** [RefAdjacency::apply_prepared]. *)
Definition apply_prepared (adj : RefAdjacency.t) (p : t) : RefAdjacency.t :=
  RefAdjacency.mk (foldl apply_entry (RefAdjacency.forward adj) (hash_iter (forward p)))
                  (foldl apply_entry (RefAdjacency.reverse adj) (hash_iter (reverse p))).
End model.
End PreparedAdjacency.

(** ** Values *)

Module PreparedValues.
Abbreviation slots := (gmap (string * OrderableKind.t) (list N)).

Section model.
Context `{HashOrder}.

Definition fetch (possible_additions : N) (tr : gmap OrderableKind.t (list N))
    (slot : string * OrderableKind.t) (entries : slots) (b : ValueBudget.t)
    : result unit (list N * ValueBudget.t) :=
  match entries !! slot with
  | Some ids => Ok (ids, b)
  | None =>
      let current := edges tr slot.2 in
      let? capacity := ok_or (checked_add usize_max (len current) possible_additions) () in
      let? bytes := ok_or (bytes ← layout_array 8 capacity; checked_add usize_max bytes 64) () in
      let? b := charge (len current) bytes b in
      Ok (current, b)
  end.

Definition prepare_value (vi : ValueIndex.t) (possible_additions id : N) (add : bool)
    (st : slots * ValueBudget.t) (kv : string * Kind) : result unit (slots * ValueBudget.t) :=
  let '(entries, b) := st in
  let '(field, value) := kv in
  let? b := charge (saturating_add (str_len field) 1) 0 b in
  match ValueIndex.indexes vi !! field with
  | None => Ok (entries, b)
  | Some tr =>
      let key_bytes := match value with KStr text => str_len text | _ => 8%N end in
      let? b := charge 1
        (saturating_add (saturating_mul (saturating_add (str_len field) key_bytes) 2) 256) b in
      match OrderableKind.from_kind value with
      | None => Ok (entries, b)
      | Some key =>
          let comparisons := (ilog2_or_0 (N.of_nat (size tr)) + 1)%N in
          let? b := charge (saturating_mul (saturating_mul
            (saturating_add key_bytes (str_len field)) comparisons) 4) 0 b in
          let? (ids, b) := fetch possible_additions tr (field, key) entries b in
          if add : bool then Ok (<[(field, key) := ids ++ [id]]> entries, b)
          else
            let? b := charge (len ids) 0 b in
            Ok (<[(field, key) := filter (λ i, i ≠ id) ids]> entries, b)
      end
  end.

Definition prepare_change (vi : ValueIndex.t) (possible_additions : N)
    (st : slots * ValueBudget.t) (c : IndexChange) : result unit (slots * ValueBudget.t) :=
  try_fold (λ st '(row, add),
    try_fold (prepare_value vi possible_additions (ic_id c) add) st (HDict.iter row))
    st (change_rows c).

(** [ValueIndex::prepare_changes]. *)
Definition prepare_changes (vi : ValueIndex.t) (changes : list IndexChange) (b : ValueBudget.t)
    : result unit (slots * ValueBudget.t) :=
  let? b := charge (len changes) 0 b in
  let possible_additions := len (filter (λ c, is_Some (ic_after c)) changes) in
  try_fold (prepare_change vi possible_additions) (∅, b) changes.

(** [None] is the failed [expect]: the field is no longer indexed. *)
Definition apply_entry (vi : option ValueIndex.t) (entry : (string * OrderableKind.t) * list N)
    : option ValueIndex.t :=
  vi ← vi;
  let '((field, key), ids) := entry in
  tr ← ValueIndex.indexes vi !! field;
  Some (ValueIndex.mk (<[field := PreparedAdjacency.apply_entry tr (key, ids)]>
          (ValueIndex.indexes vi))).

(** [ValueIndex::apply_prepared], in the order of the tree; the order of the
    entries does not matter, and any enumeration stands for it. *)
Definition apply_prepared (vi : ValueIndex.t) (entries : slots) : option ValueIndex.t :=
  foldl apply_entry (Some vi) (map_to_list entries).
End model.
End PreparedValues.

(** ** Plans *)

(** [EntityOperation]. *)
Inductive EntityOperation : Type :=
| OAdd (row : HDict)
| OPatch (id : string) (changes : HDict)
| ORemove (id : string).

(** [EntityOperation::target]. *)
Definition target (op : EntityOperation) : result GraphError string :=
  match op with
  | OAdd row =>
      match HDict.get row "id" with
      | Some (KRef r) => Ok (ref_val r)
      | Some _ => Err InvalidId
      | None => Err MissingId
      end
  | OPatch id _ => Ok id
  | ORemove id => Ok id
  end.

(** [BatchLimits] and its default. *)
Record BatchLimits : Type := mkBatchLimits {
  max_operations : N; max_work : N; max_retained_bytes : N; max_value_depth : N }.
Definition default_limits : BatchLimits :=
  mkBatchLimits 128 1000000 (16 * 1024 * 1024) 32.

(** [BatchError]. *)
Inductive BatchError : Type :=
| BEmpty
| DuplicateTarget
| BLimit
| BConflict
| BEntity (e : GraphError).

(** [PreparedChange]. *)
Record PreparedChange : Type := mkPreparedChange {
  pc_id : string;
  pc_op : DiffOp;
  pc_before : option HDict;
  pc_after : option HDict;
  pc_changed : bool;
  pc_numeric : N;
  pc_map_keys : option (string * string)
}.

(** [map_err(|_| BatchError::Limit)]. *)
Definition limited {A} (r : result unit A) : result BatchError A := map_err (λ _, BLimit) r.

(** [plan_buffer_bytes]. *)
Definition plan_buffer_bytes (sz : Layouts) (operations : N) : result BatchError N :=
  try_fold (λ total size,
    let? bytes := ok_or (layout_array size operations) BLimit in
    ok_or (checked_add usize_max total bytes) BLimit)
    0%N [size_change sz; size_diff sz; 8%N; size_index_change sz].

Module PreparedBatch.
Section model.
Context {HO : HashOrder} {RB : Roaring} {CM : CacheMap} {ON : Ontology} {CA : Catalog}.
Implicit Types (g : EntityGraph.t).

(** [PreparedBatch]. *)
Record t : Type := mk {
  state : GraphState;
  index_generation : N;
  after_revision : N;
  retained : N;
  changes : list PreparedChange;
  diffs : list GraphDiff;
  tags : gmap string RoaringBitmap;
  adjacency : PreparedAdjacency.t;
  values : PreparedValues.slots;
  free_ids_consumed : nat;
  freed_ids : list N;
  next_id : N
}.

(** [PreparedBatch::span]. *)
Definition span_of (p : t) : option CommitSpan := span <$> head (diffs p).

(** The ids a plan has taken from the free list, the ids it has freed (the
    last one first) and the next fresh one. *)
Record Ids : Type := mkIds { consumed : nat; freed : list N; next : N }.

(** The id of an addition: freed by the plan, recycled, or fresh. *)
Definition plan_id g (ids : Ids) : result BatchError (N * Ids) :=
  match freed ids with
  | id :: rest => Ok (id, mkIds (consumed ids) rest (next ids))
  | [] =>
      match EntityGraph.free_ids g !! consumed ids with
      | Some id => Ok (id, mkIds (S (consumed ids)) [] (next ids))
      | None =>
          if decide (MAX_ENTITY_ID < next ids)%N then Err (BEntity IdExhausted)
          else
            let? next' := ok_or (checked_add usize_max (next ids) 1) (BEntity IdExhausted) in
            Ok (next ids, mkIds (consumed ids) [] next')
      end
  end.

(** What one operation amounts to. *)
Record Planned : Type := mkPlanned {
  p_op : DiffOp; p_after : option HDict; p_numeric : N; p_changed : bool;
  p_delta : option (HDict * HDict)
}.

(** The previous values of the patched tags, charged one by one. *)
Definition plan_previous (old : HDict) (st : HDict * ValueBudget.t) (kv : string * Kind)
    : result unit (HDict * ValueBudget.t) :=
  let '(previous, b) := st in
  match HDict.get old kv.1 with
  | Some v =>
      let? b := charge (saturating_add (str_len kv.1) 1) (saturating_add (str_len kv.1) 64) b in
      let? b := ValueBudget.value b v 2 in
      Ok (HDict.set previous kv.1 v, b)
  | None => Ok (previous, b)
  end.

(** The three kinds of operation; [None] is the panic of [self.id_map[id]]. *)
Definition plan_add g (id : string) (before : option HDict) (row : HDict) (ids : Ids)
    (b : ValueBudget.t) : result BatchError (Planned * Ids * ValueBudget.t) :=
  if bool_decide (is_Some before) then Err (BEntity (DuplicateRef id))
  else
    let? b := limited (ValueBudget.dict b row 1) in
    let? (numeric, ids) := plan_id g ids in
    Ok (mkPlanned DAdd (Some row) numeric true None, ids, b).

Definition plan_patch g (id : string) (before : option HDict) (changes : HDict) (ids : Ids)
    (b : ValueBudget.t) : option (result BatchError (Planned * Ids * ValueBudget.t)) :=
  let! old := Some (ok_or before (BEntity (NotFound id))) in
  if negb (EntityGraph.keeps_id id changes) then Some (Err (BEntity ImmutableId))
  else
    let! b := Some (limited (ValueBudget.dict b changes 1)) in
    let! b := Some (limited (ValueBudget.dict b old 1)) in
    let after := HDict.merge old changes in
    let! b := Some (limited (ValueBudget.dict b after 1)) in
    let! (previous, b) :=
      Some (limited (try_fold (plan_previous old) (HDict.new, b) (HDict.iter changes))) in
    let! b := Some (limited (ValueBudget.dict b changes 1)) in
    numeric ← EntityGraph.id_map g !! id;
    Some (Ok (mkPlanned DUpdate (Some after) numeric (negb (HDict.is_empty changes))
                (Some (changes, previous)), ids, b)).

Definition plan_remove g (id : string) (before : option HDict) (ids : Ids) (b : ValueBudget.t)
    : option (result BatchError (Planned * Ids * ValueBudget.t)) :=
  if negb (bool_decide (is_Some before)) then Some (Err (BEntity (NotFound id)))
  else
    numeric ← EntityGraph.id_map g !! id;
    Some (Ok (mkPlanned DRemove None numeric true None,
              mkIds (consumed ids) (numeric :: freed ids) (next ids), b)).

Definition plan_operation g (op : EntityOperation) (id : string) (before : option HDict)
    (ids : Ids) (b : ValueBudget.t)
    : option (result BatchError (Planned * Ids * ValueBudget.t)) :=
  match op with
  | OAdd row => Some (plan_add g id before row ids b)
  | OPatch _ changes => plan_patch g id before changes ids b
  | ORemove _ => plan_remove g id before ids b
  end.

(** The size of the changelog entry; [None] is the failed [expect]. *)
Definition plan_bytes g (id : string) (before : option HDict) (pl : Planned)
    (op : EntityOperation) : option (result BatchError N) :=
  let limit := ChangeLog.byte_capacity (EntityGraph.changelog g) in
  let rows o := match o with Some row => [row] | None => [] end in
  match p_op pl, op with
  | DAdd, _ => Some (ok_or (ValueBudget.diff_bytes id (rows (p_after pl)) limit) BLimit)
  | DRemove, _ => Some (ok_or (ValueBudget.diff_bytes id (rows before) limit) BLimit)
  | DUpdate, OPatch _ changes =>
      old ← before;
      Some (ok_or (ValueBudget.patch_diff_bytes id old changes limit) BLimit)
  | DUpdate, _ => None
  end.

(** The state of the loop. *)
Record Plan : Type := mkPlan {
  pl_budget : ValueBudget.t;
  pl_seen : gset string;
  pl_changes : list PreparedChange;
  pl_diffs : list GraphDiff;
  pl_ids : Ids;
  pl_revision : N
}.

Definition plan_diff (revision bytes : N) (id : string) (before : option HDict) (pl : Planned)
    : GraphDiff :=
  mkDiff revision (singleton revision) bytes 0 (p_op pl) id
    (if decide (p_op pl = DRemove) then before else None)
    (if decide (p_op pl = DAdd) then p_after pl else None)
    (fst <$> p_delta pl) (snd <$> p_delta pl).

Definition plan_change (id : string) (before : option HDict) (pl : Planned) : PreparedChange :=
  mkPreparedChange id (p_op pl) before (p_after pl) (p_changed pl) (p_numeric pl)
    (if decide (p_op pl = DAdd) then Some (id, id) else None).

(** Numbering and logging a changed operation. *)
Definition plan_log g (op : EntityOperation) (id : string) (before : option HDict)
    (pl : Planned) (revision : N) (diffs : list GraphDiff) (b : ValueBudget.t)
    : option (result BatchError (N * list GraphDiff * ValueBudget.t)) :=
  if p_changed pl then
    let! revision := Some (ok_or (checked_add u64_max revision 1) (BEntity RevisionExhausted)) in
    let! bytes := plan_bytes g id before pl op in
    let! b := Some (limited (charge 1 bytes b)) in
    Some (Ok (revision, diffs ++ [plan_diff revision bytes id before pl], b))
  else Some (Ok (revision, diffs, b)).

(** One operation of [prepare_batch]. *)
Definition plan_step g (st : Plan) (op : EntityOperation) : option (result BatchError Plan) :=
  let! id := Some (map_err BEntity (target op)) in
  let! b := Some (limited (charge (saturating_add (str_len id) 1)
              (saturating_add (saturating_mul (str_len id) 4) 1024) (pl_budget st))) in
  if decide (id ∈ pl_seen st) then Some (Err DuplicateTarget)
  else
    let before := EntityGraph.entities g !! id in
    let! b := Some (match before with
                    | Some row => limited (ValueBudget.dict b row 1)
                    | None => Ok b
                    end) in
    let! (pl, ids, b) := plan_operation g op id before (pl_ids st) b in
    let! (revision, diffs, b) := plan_log g op id before pl (pl_revision st) (pl_diffs st) b in
    Some (Ok (mkPlan b ({[id]} ∪ pl_seen st) (pl_changes st ++ [plan_change id before pl])
                diffs ids revision)).

Fixpoint plan_steps g (st : Plan) (ops : list EntityOperation) : option (result BatchError Plan) :=
  match ops with
  | [] => Some (Ok st)
  | op :: ops => let! st := plan_step g st op in plan_steps g st ops
  end.

(** All diffs share the span of the unit. *)
Definition share_span (revision : N) (diffs : list GraphDiff) : list GraphDiff :=
  match diffs with
  | first :: _ => set_span (mkSpan (version first) revision) <$> diffs
  | [] => []
  end.

Definition checked_bytes (diffs : list GraphDiff) : option N :=
  foldl (λ acc d, acc ≫= λ n, checked_add usize_max n (retained_bytes d)) (Some 0%N) diffs.

(** Growth of a collection that lacks room for [additional] elements. *)
Definition charge_growth (n cap additional work bytes : N) (b : ValueBudget.t)
    : result BatchError ValueBudget.t :=
  if decide (cap - n < additional)%N then limited (charge work bytes b) else Ok b.

(** The charge for the units that publication will discard. *)
Fixpoint charge_evictions (cap bcap count retained : N) (log : list GraphDiff)
    (b : ValueBudget.t) : result BatchError ValueBudget.t :=
  match log with
  | [] => Ok b
  | d :: log =>
      if decide (count ≤ cap ∧ retained ≤ bcap ∧ version d = span_first (span d))%N then Ok b
      else
        let? b := limited (charge 1 0 b) in
        charge_evictions cap bcap (count - 1) (retained - retained_bytes d) log b
  end.

Definition index_changes (changes : list PreparedChange) : list IndexChange :=
  (λ c, mkIndexChange (pc_numeric c) (pc_before c) (pc_after c))
    <$> filter (λ c, pc_changed c = true) changes.

Definition additions (changes : list PreparedChange) : N :=
  len (filter (λ c, pc_op c = DAdd) changes).

(** The growth of the collections of the graph itself. *)
Definition charge_collections (sz : Layouts) (caps : Capacities) g (n_diffs n_freed adds : N)
    (b : ValueBudget.t) : result BatchError ValueBudget.t :=
  let ids := N.of_nat (size (EntityGraph.id_map g)) in
  let revs := N.of_nat (size (EntityGraph.reverse_id g)) in
  let log := len (ChangeLog.log (EntityGraph.changelog g)) in
  let free := len (EntityGraph.free_ids g) in
  let? b := charge_growth ids (cap_id_map caps) adds
    (saturating_add ids adds) (saturating_mul (saturating_add ids adds) 256) b in
  let? b := charge_growth revs (cap_reverse_id caps) adds
    (saturating_add revs adds) (saturating_mul (saturating_add revs adds) 256) b in
  let? b := charge_growth log (cap_changelog caps) n_diffs
    log (saturating_mul (saturating_mul (saturating_add log n_diffs) (size_diff sz)) 2) b in
  charge_growth free (cap_free_ids caps) n_freed
    free (saturating_mul (saturating_mul (saturating_add free n_freed) 8) 2) b.

(** The index entries of the plan. *)
Definition prepare_indexes (caps : Capacities) g (cs : list IndexChange) (b : ValueBudget.t)
    : result unit (gmap string RoaringBitmap * PreparedAdjacency.t * PreparedValues.slots
                   * ValueBudget.t) :=
  let? (tags, b) := PreparedTags.prepare_changes (cap_bitmaps caps) (EntityGraph.tag_index g) cs b in
  let? adj := PreparedAdjacency.prepare_changes (cap_forward caps) (cap_reverse caps)
                (EntityGraph.adjacency g) cs b in
  let? (values, b) := PreparedValues.prepare_changes (EntityGraph.value_index g) cs
                        (PreparedAdjacency.budget adj) in
  Ok (tags, adj, values, b).

(** [prepare_batch] after the loop. *)
Definition finish (sz : Layouts) (caps : Capacities) g (st : Plan) : result BatchError t :=
  let log := EntityGraph.changelog g in
  let? bytes := ok_or (checked_bytes (pl_diffs st)) BLimit in
  if decide (ChangeLog.capacity log < len (pl_diffs st) ∨ ChangeLog.byte_capacity log < bytes)%N
  then Err BLimit
  else
    let diffs := share_span (pl_revision st) (pl_diffs st) in
    let? b := charge_collections sz caps g (len diffs) (len (freed (pl_ids st)))
                (additions (pl_changes st)) (pl_budget st) in
    let? (tags, adj, values, b) :=
      limited (prepare_indexes caps g (index_changes (pl_changes st)) b) in
    let? b := charge_evictions (ChangeLog.capacity log) (ChangeLog.byte_capacity log)
                (saturating_add (len (ChangeLog.log log)) (len diffs))
                (saturating_add (ChangeLog.bytes log) bytes) (ChangeLog.log log) b in
    Ok (mk (EntityGraph.state g) (EntityGraph.index_generation g) (pl_revision st)
          (ValueBudget.used_bytes b) (pl_changes st) diffs tags adj values
          (consumed (pl_ids st)) (freed (pl_ids st)) (next (pl_ids st))).

(** [EntityGraph::prepare_batch]. *)
Definition prepare_batch (sz : Layouts) (caps : Capacities) g (expected_revision : N)
    (operations : list EntityOperation) (limits : BatchLimits)
    : option (result BatchError t) :=
  if decide (expected_revision ≠ EntityGraph.version g) then Some (Err BConflict)
  else if decide (operations = []) then Some (Err BEmpty)
  else if decide (max_operations limits < len operations ∨ max_value_depth limits = 0
                  ∨ 64 < max_value_depth limits)%N then Some (Err BLimit)
  else
    let b := ValueBudget.new (max_work limits) (max_retained_bytes limits)
               (max_value_depth limits) in
    let! buffers := Some (plan_buffer_bytes sz (len operations)) in
    let! b := Some (limited (charge (len operations) buffers b)) in
    let! st := plan_steps g (mkPlan b ∅ [] [] (mkIds 0 [] (EntityGraph.next_id g))
                               (EntityGraph.version g)) operations in
    Some (finish sz caps g st).

(** ** Publication *)

(** The rows and ids of one change; [None] is a failed [expect]. *)
Definition publish_change (g : EntityGraph.t) (c : PreparedChange) : option EntityGraph.t :=
  let next := EntityGraph.next_id g in
  let free := EntityGraph.free_ids g in
  if negb (pc_changed c) then Some g
  else match pc_op c with
  | DAdd =>
      '(forward_key, reverse_key) ← pc_map_keys c;
      row ← pc_after c;
      Some (EntityGraph.set_entities (<[pc_id c := row]> (EntityGraph.entities g))
              (EntityGraph.set_ids (<[forward_key := pc_numeric c]> (EntityGraph.id_map g))
                 (<[pc_numeric c := reverse_key]> (EntityGraph.reverse_id g)) next free g))
  | DUpdate =>
      row ← pc_after c;
      Some (EntityGraph.set_entities (<[pc_id c := row]> (EntityGraph.entities g)) g)
  | DRemove =>
      Some (EntityGraph.set_entities (delete (pc_id c) (EntityGraph.entities g))
              (EntityGraph.set_ids (delete (pc_id c) (EntityGraph.id_map g))
                 (delete (pc_numeric c) (EntityGraph.reverse_id g)) next free g))
  end.

Fixpoint publish_changes (g : EntityGraph.t) (cs : list PreparedChange) : option EntityGraph.t :=
  match cs with
  | [] => Some g
  | c :: cs => g ← publish_change g c; publish_changes g cs
  end.

(** The free list with the consumed ids dropped and the freed ones on top. *)
Definition publish_free (p : t) (free : list N) : option (list N) :=
  if decide (length free < free_ids_consumed p) then None
  else Some (freed_ids p ++ drop (free_ids_consumed p) free).

(** Ids, indexes, revision, log and cache. *)
Definition publish (now : Z) (p : t) g : option EntityGraph.t :=
  g ← publish_changes g (changes p);
  free ← publish_free p (EntityGraph.free_ids g);
  vi ← PreparedValues.apply_prepared (EntityGraph.value_index g) (values p);
  let g := EntityGraph.set_ids (EntityGraph.id_map g) (EntityGraph.reverse_id g)
             (next_id p) free g in
  let g := EntityGraph.set_indexes
             (PreparedTags.apply_prepared (EntityGraph.tag_index g) (tags p))
             (PreparedAdjacency.apply_prepared (EntityGraph.adjacency g) (adjacency p)) vi g in
  log ← (if decide (diffs p = []) then Some (EntityGraph.changelog g)
         else ChangeLog.append_committed_unit now (EntityGraph.changelog g) (diffs p));
  Some (EntityGraph.grow_cache (EntityGraph.set_log (after_revision p) log g)).

(** [EntityGraph::apply_prepared]; [reserved] says whether every
    [try_reserve] succeeded. *)
Definition apply_prepared (now : Z) (reserved : bool) (g : EntityGraph.t) (p : t)
    : option (EntityGraph.t * result BatchError (option CommitSpan)) :=
  if bool_decide (EntityGraph.state g ≠ state p)
     || bool_decide (EntityGraph.index_generation g ≠ index_generation p)
  then Some (g, Err BConflict)
  else if negb reserved then Some (g, Err BLimit)
  else g' ← publish now p g; Some (g', Ok (span_of p)).
End model.
End PreparedBatch.
