(* ===== verification/PreparedFacts.v ===== *)
(** * Correctness of prepared batches

    A plan's index entries are read as an overlay on the live index: an
    entry of the plan hides the live one.  Preparing a change moves the
    overlay from the rows before it to the rows after it, and applying the
    plan makes the live index what the overlay showed.  On top of that:
    publishing a plan on the graph it was prepared for never panics, keeps
    the invariant, and has the effect of its operations done one by one,
    logged as a single commit unit. *)

From S2P Require Import Prelude Floats Kinds Size Extern Bitmap Adjacency ValueIndex Filter Changelog Graph GraphInv Prepared.

(** ** Sequences of row changes *)

Definition change_row (rs : gmap N HDict) (c : IndexChange) : gmap N HDict :=
  match ic_after c with Some row => <[ic_id c := row]> rs | None => delete (ic_id c) rs end.

(** Each change finds the row it expects. *)
Fixpoint changes_ok (rs : gmap N HDict) (cs : list IndexChange) : Prop :=
  match cs with
  | [] => True
  | c :: cs => rs !! ic_id c = ic_before c ∧ (ic_id c ≤ u32_max)%N ∧ changes_ok (change_row rs c) cs
  end.

(** A relation kept by every change is kept by all of them. *)
Lemma try_fold_changes {E St} (step : St → IndexChange → result E St)
    (R : St → gmap N HDict → Prop) cs st st' rs :
  (∀ st st' rs c, rs !! ic_id c = ic_before c → (ic_id c ≤ u32_max)%N →
     R st rs → step st c = Ok st' → R st' (change_row rs c)) →
  changes_ok rs cs → R st rs → try_fold step st cs = Ok st' →
  R st' (foldl change_row rs cs).
Proof.
  intros Hstep. revert st rs. induction cs as [|c cs IH]; intros st rs Hok HR; simpl.
  - by intros [= <-].
  - destruct Hok as (Hb & Hle & Hok). on_ok (step st c) as [st1|] Hs.
    apply IH; [done|]. by eapply Hstep.
Qed.

(** The two loops of a change: a delete and an insert of the row. *)
Lemma fold_change_rows {E St} (f : bool → St → HDict → result E St)
    (R : St → gmap N HDict → Prop) c st st' rs :
  (∀ st st' rs row, rs !! ic_id c = Some row → R st rs → f false st row = Ok st' →
     R st' (delete (ic_id c) rs)) →
  (∀ st st' rs row, rs !! ic_id c = None → R st rs → f true st row = Ok st' →
     R st' (<[ic_id c := row]> rs)) →
  rs !! ic_id c = ic_before c → R st rs →
  try_fold (λ st '(row, add), f add st row) st (change_rows c) = Ok st' →
  R st' (change_row rs c).
Proof.
  intros Hdel Hins Hb HR. unfold change_rows, change_row.
  destruct (ic_before c) as [old|] eqn:Eb, (ic_after c) as [new|] eqn:Ea; cbn [app try_fold].
  - on_ok (f false st old) as [st1|] E1.
    on_ok (f true st1 new) as [st2|] E2. intros [= <-].
    rewrite <-(insert_delete_eq rs). eapply Hins; [apply lookup_delete_eq| |done]. by eapply Hdel.
  - on_ok (f false st old) as [st1|] E1. intros [= <-]. by eapply Hdel.
  - on_ok (f true st new) as [st1|] E1. intros [= <-]. by eapply Hins.
  - intros [= <-]. by rewrite delete_id.
Qed.

(** A fallible fold refines a total one. *)
Lemma try_fold_refines {E St A B} (step : St → A → result E St) (f : B → A → B)
    (V : St → B) (l : list A) st st' :
  (∀ st st' a, step st a = Ok st' → V st' = f (V st) a) →
  try_fold step st l = Ok st' → V st' = foldl f (V st) l.
Proof.
  intros Hstep. revert st. induction l as [|a l IH]; intros st; simpl; [by intros [= <-]|].
  on_ok (step st a) as [st1|] Hs. intros H%IH. by rewrite H, (Hstep _ _ _ Hs).
Qed.

(** Applying the entries of a plan one by one: each decides its own key. *)
Lemma foldl_entries_lookup {K A B} `{Countable K} (step : gmap K B → K * A → gmap K B)
    (res : A → option B) (l : list (K * A)) m k :
  (∀ m e k, step m e !! k = if decide (e.1 = k) then res e.2 else m !! k) →
  NoDup l.*1 →
  foldl step m l !! k
  = match list_to_map (M := gmap K A) l !! k with Some a => res a | None => m !! k end.
Proof.
  intros Hstep. revert m. induction l as [|[k' a] l IH]; intros m Hnd; [done|].
  rewrite fmap_cons in Hnd. apply NoDup_cons in Hnd as [Hnotin Hnd]. cbn [foldl list_to_map foldr].
  rewrite IH, Hstep by done. cbn [fst snd]. destruct (decide (k' = k)) as [->|Hne].
  - change (foldr _ ∅ l) with (list_to_map (M := gmap K A) l).
    rewrite lookup_insert_eq, not_elem_of_list_to_map_1 by done. done.
  - by rewrite lookup_insert_ne.
Qed.

Lemma hash_entries_lookup `{HashOrderLaws} {K A B} `{Countable K}
    (step : gmap K B → K * A → gmap K B) (res : A → option B) (entries : gmap K A) m k :
  (∀ m e k, step m e !! k = if decide (e.1 = k) then res e.2 else m !! k) →
  foldl step m (hash_iter entries) !! k
  = match entries !! k with Some a => res a | None => m !! k end.
Proof.
  intros Hstep. rewrite (foldl_entries_lookup step res) by (done || apply NoDup_hash_keys).
  rewrite (list_to_map_proper _ (map_to_list entries)) by
    (first [apply NoDup_hash_keys | apply hash_iter_perm]).
  by rewrite list_to_map_to_list.
Qed.

(** ** Tags *)

Module PreparedTagsFacts.
Import PreparedTags.
Section facts.
Context {HO : HashOrder} {HL : HashOrderLaws} {RB : Roaring} {RL : RoaringLaws}.
Implicit Types (bms entries : gmap string RoaringBitmap) (rs : gmap N HDict).

(** The bitmaps describe the rows; unlike [TagBitmapIndex.models], some may
    be empty. *)
Definition describes bms rs : Prop :=
  ∀ tag id, id ∈ TagBitmapIndex.bits bms tag ↔ ∃ row, rs !! id = Some row ∧ is_Some (row !! tag).

(** Clearing a bit of a bitmap that need not exist. *)
Definition drop_bit (eid : N) bms (tag : string) : gmap string RoaringBitmap :=
  <[tag := rb_remove eid (default rb_new (bms !! tag))]> bms.

Lemma drop_bits eid tags bms tag id :
  id ∈ TagBitmapIndex.bits (foldl (drop_bit eid) bms tags) tag
  ↔ id ∈ TagBitmapIndex.bits bms tag ∧ ¬ (id = eid ∧ tag ∈ tags).
Proof.
  revert bms. induction tags as [|t tags IH]; intros bms; cbn [foldl]; [set_solver|].
  rewrite IH. unfold drop_bit. rewrite TagBitmapIndex.bits_insert. case_decide as E; [|set_solver].
  subst t. rewrite elem_of_rb_remove. unfold TagBitmapIndex.bits.
  destruct (bms !! tag); simpl; rewrite ?rb_iter_new; set_solver.
Qed.

Lemma fetch_overlay idx tag entries b bm b' :
  fetch idx tag (entries, b) = Ok (bm, b') →
  bm = default rb_new ((entries ∪ TagBitmapIndex.bitmaps idx) !! tag).
Proof.
  unfold fetch, TagBitmapIndex.has_tag. rewrite lookup_union.
  destruct (entries !! tag) as [bm0|].
  { intros [= <- <-]. by destruct (TagBitmapIndex.bitmaps idx !! tag). }
  destruct (TagBitmapIndex.bitmaps idx !! tag) as [bm0|]; [|by intros [= <- <-]].
  destruct (charge _ _ b); [|done]. by intros [= <- <-].
Qed.

Lemma prepare_tag_overlay idx eid add st st' tag :
  prepare_tag idx eid add st tag = Ok st' →
  st'.1 ∪ TagBitmapIndex.bitmaps idx
  = (if add then TagBitmapIndex.set_bit eid else drop_bit eid)
      (st.1 ∪ TagBitmapIndex.bitmaps idx) tag.
Proof.
  destruct st as [entries b]. unfold prepare_tag. destruct (charge _ _ b) as [b1|]; [|done].
  on_ok (fetch idx tag (entries, b1)) as [[bm b2]|] Hf.
  intros [= <-]. apply fetch_overlay in Hf as ->. cbn [fst].
  rewrite <-insert_union_l. unfold TagBitmapIndex.set_bit, drop_bit. by destruct add.
Qed.

Lemma prepare_change_describes idx st st' rs c :
  rs !! ic_id c = ic_before c → (ic_id c ≤ u32_max)%N →
  describes (st.1 ∪ TagBitmapIndex.bitmaps idx) rs →
  prepare_change idx st c = Ok st' →
  describes (st'.1 ∪ TagBitmapIndex.bitmaps idx) (change_row rs c).
Proof.
  intros Hb Hle Hd. unfold prepare_change. rewrite u32_try_from_le by done. cbn [ok_or].
  apply (fold_change_rows (λ add st row,
    try_fold (prepare_tag idx (ic_id c) add) st (HDict.tag_names row))
    (λ st rs, describes (st.1 ∪ TagBitmapIndex.bitmaps idx) rs)); try done; clear -HL RL.
  - intros st st' rs row Hrow Hd Hf. eapply try_fold_refines in Hf;
      [|intros ???; apply prepare_tag_overlay]. intros tag id.
    rewrite Hf, drop_bits, (Hd tag id), HDict.elem_of_tag_names. setoid_rewrite lookup_delete_Some. split.
    + intros [(row' & Hr & Ht) Hno]. exists row'. split; [split; [|done]|done].
      intros <-. apply Hno. split; [done|]. by simplify_eq.
    + intros (row' & [Hne Hr] & Ht). split; [by exists row'|]. by intros [-> _].
  - intros st st' rs row Hrow Hd Hf. eapply try_fold_refines in Hf;
      [|intros ???; apply prepare_tag_overlay]. intros tag id.
    rewrite Hf, TagBitmapIndex.add_bits, (Hd tag id), HDict.elem_of_tag_names.
    setoid_rewrite lookup_insert_Some. split.
    + intros [[-> Ht]|(row' & Hr & Ht)]; [naive_solver|].
      exists row'. split; [right; split; [congruence|done]|done].
    + intros (row' & [[<- <-]|[? Hr]] & Ht); naive_solver.
Qed.

Lemma apply_lookup idx entries tag :
  TagBitmapIndex.bitmaps (apply_prepared idx entries) !! tag
  = match entries !! tag with
    | Some bm => if rb_is_empty bm then None else Some bm
    | None => TagBitmapIndex.bitmaps idx !! tag
    end.
Proof.
  apply (hash_entries_lookup apply_entry (λ bm, if rb_is_empty bm then None else Some bm)).
  intros m [k bm] k'. unfold apply_entry. cbn [fst snd].
  destruct (rb_is_empty bm); [rewrite lookup_delete|rewrite lookup_insert]; by case_decide.
Qed.

(** Publishing the prepared bitmaps describes the rows after the changes. *)
Lemma prepared_tags_models cap idx rs cs b entries b' :
  TagBitmapIndex.models idx rs → changes_ok rs cs →
  prepare_changes cap idx cs b = Ok (entries, b') →
  TagBitmapIndex.models (apply_prepared idx entries) (foldl change_row rs cs).
Proof.
  intros [Hbits Hne] Hok. unfold prepare_changes.
  destruct (try_fold _ _ cs) as [[entries0 b0]|] eqn:Hf; [|done]. intros Hfin.
  assert (entries0 = entries) as ->.
  { case_decide; [|congruence]. destruct (charge _ _ b0); congruence. }
  apply (try_fold_changes (prepare_change idx)
    (λ st rs, describes (st.1 ∪ TagBitmapIndex.bitmaps idx) rs) cs _ _ rs) in Hf; [|..|done|].
  - split.
    + intros tag id. rewrite <-(Hf tag id). unfold TagBitmapIndex.bits. cbn [fst].
      rewrite apply_lookup, lookup_union. destruct (entries !! tag) as [bm|].
      * destruct (rb_is_empty bm) eqn:He; [|by destruct (TagBitmapIndex.bitmaps idx !! tag)].
        apply rb_is_empty_spec in He. destruct (TagBitmapIndex.bitmaps idx !! tag); simpl; by rewrite He.
      * by destruct (TagBitmapIndex.bitmaps idx !! tag).
    + intros tag bm. rewrite apply_lookup. destruct (entries !! tag) as [bm'|]; [|apply Hne].
      destruct (rb_is_empty bm') eqn:He; [done|]. intros [= <-] Hnil.
      apply rb_is_empty_spec in Hnil. congruence.
  - intros. by eapply prepare_change_describes.
  - cbn [fst]. by rewrite (left_id_L ∅ (∪)).
Qed.
End facts.
End PreparedTagsFacts.

(** ** References *)

Module PreparedAdjacencyFacts.
Import PreparedAdjacency.
Section facts.
Context {HO : HashOrder} {HL : HashOrderLaws}.
Implicit Types (rev : gmap string (list (string * N))) (rs : gmap N HDict) (adj : RefAdjacency.t).

(** The incoming edges describe the rows. *)
Definition describes rev rs : Prop :=
  (∀ tgt tag id, (tag, id) ∈ edges rev tgt ↔
     ∃ row, rs !! id = Some row ∧ (tag, tgt) ∈ RefAdjacency.refs_of row) ∧
  ∀ tgt, NoDup (edges rev tgt).

Definition link (id : N) rev (edge : string * string) : gmap string (list (string * N)) :=
  <[edge.2 := edges rev edge.2 ++ [(edge.1, id)]]> rev.
Definition cut (id : N) rev (edge : string * string) : gmap string (list (string * N)) :=
  <[edge.2 := filter (λ '(name, i), ¬ (name = edge.1 ∧ i = id)) (edges rev edge.2)]> rev.

Lemma link_all_add_all id es rev :
  foldl (link id) rev es = RefAdjacency.reverse (RefAdjacency.add_all id (RefAdjacency.mk ∅ rev) es).
Proof.
  generalize (∅ : gmap N (list (string * string))). revert rev.
  induction es as [|[tag tgt] es IH]; intros rev fwd; [done|].
  rewrite RefAdjacency.add_all_cons. cbn [foldl]. apply IH.
Qed.

Lemma cut_all_edges id es rev tgt :
  edges (foldl (cut id) rev es) tgt = edges (foldl (RefAdjacency.unlink id) rev es) tgt.
Proof.
  assert (Hgen : ∀ rev', (∀ t, edges rev t = edges rev' t) →
    edges (foldl (cut id) rev es) tgt = edges (foldl (RefAdjacency.unlink id) rev' es) tgt);
    [|by apply Hgen].
  revert rev. induction es as [|[tag tgt0] es IH]; intros rev rev' Heq; [apply Heq|].
  cbn [foldl]. apply IH. intros t. unfold cut. cbn [fst snd].
  rewrite RefAdjacency.edges_insert, RefAdjacency.unlink_edges.
  case_decide; [subst; by rewrite Heq|apply Heq].
Qed.

Lemma link_describes id row rev rs :
  describes rev rs → rs !! id = None →
  describes (foldl (link id) rev (RefAdjacency.refs_of row)) (<[id := row]> rs).
Proof.
  intros [Hin Hnd] Hid. rewrite link_all_add_all. split.
  - intros tgt tag id'. rewrite RefAdjacency.add_all_reverse. cbn. rewrite Hin.
    setoid_rewrite lookup_insert_Some. split.
    + intros [(row' & Hr & He)|[-> He]]; [|naive_solver].
      exists row'. split; [right; split; congruence|done].
    + intros (row' & [[<- <-]|[Hne Hr]] & He); [by right|left; eauto].
  - apply RefAdjacency.add_all_reverse_nodup; [apply RefAdjacency.NoDup_refs_of|done|].
    intros tgt tag _ (row' & Hr & _)%Hin. congruence.
Qed.

Lemma cut_describes id row rev rs :
  describes rev rs → rs !! id = Some row →
  describes (foldl (cut id) rev (RefAdjacency.refs_of row)) (delete id rs).
Proof.
  intros [Hin Hnd] Hid. split.
  - intros tgt tag id'. rewrite cut_all_edges, RefAdjacency.unlink_all_edges, Hin.
    setoid_rewrite lookup_delete_Some. split.
    + intros [(row' & Hr & He) Hno]. exists row'. split; [split; [|done]|done].
      intros <-. apply Hno. split; [done|]. by simplify_eq.
    + intros (row' & [Hne Hr] & He). split; [by exists row'|]. by intros [-> _].
  - intros tgt. rewrite cut_all_edges. by apply RefAdjacency.unlink_all_nodup.
Qed.

Lemma fetch_edges adj tgt rev b l b' :
  fetch adj tgt rev b = Ok (l, b') → l = edges (rev ∪ RefAdjacency.reverse adj) tgt.
Proof.
  unfold fetch, edges. rewrite lookup_union.
  destruct (rev !! tgt) as [l0|].
  { intros [= <- <-]. by destruct (RefAdjacency.reverse adj !! tgt). }
  destruct (RefAdjacency.reverse adj !! tgt) as [l0|]; [|by intros [= <- <-]].
  destruct (try_fold _ b l0); [|done]. by intros [= <- <-].
Qed.

(** What one tag does to the prepared edges. *)
Definition view adj (st : t) : gmap string (list (string * N)) * list (string * string) :=
  (reverse st ∪ RefAdjacency.reverse adj, outgoing st).
Definition edge_step (id : N) (add : bool)
    (v : gmap string (list (string * N)) * list (string * string)) (edge : string * string)
    : gmap string (list (string * N)) * list (string * string) :=
  if add then (link id v.1 edge, v.2 ++ [edge]) else (cut id v.1 edge, v.2).

Lemma prepare_edge_view adj id add st st' kv :
  prepare_edge adj id add st kv = Ok st' →
  forward st' = forward st ∧
  view adj st' = match RefAdjacency.ref_edge kv with
                 | Some edge => edge_step id add (view adj st) edge
                 | None => view adj st
                 end.
Proof.
  destruct kv as [tag v]. unfold prepare_edge, RefAdjacency.ref_edge.
  destruct (charge _ _ (budget st)) as [b1|]; [|done].
  destruct v as [| | | | | | | | | | | |r| | | | | | | | | |]; try by intros [= <-].
  destruct (decide (tag = "id")) as [->|Hid].
  { rewrite (decide_False (P := "id" ≠ "id")) by naive_solver. by intros [= <-]. }
  rewrite (decide_True (P := tag ≠ "id")) by done.
  destruct (charge _ _ b1) as [b2|]; [|done].
  on_ok (fetch adj (ref_val r) (reverse st) b2) as [[l b3]|] Hf.
  apply fetch_edges in Hf as ->. unfold view, edge_step, link, cut.
  destruct add; [intros [= <-]|destruct (charge _ 0 b3); [intros [= <-]|done]];
    cbn [forward reverse outgoing fst snd]; (split; [done|]);
    by rewrite <-insert_union_l.
Qed.

Lemma foldl_edge_step id add rev out es :
  foldl (edge_step id add) (rev, out) es
  = (foldl (if add then link id else cut id) rev es, if add then out ++ es else out).
Proof.
  revert rev out. induction es as [|e es IH]; intros rev out; cbn [foldl].
  { destruct add; by rewrite ?app_nil_r. }
  unfold edge_step at 2. destruct add; rewrite IH; [|done].
  cbn [fst snd]. by rewrite <-app_assoc.
Qed.

Lemma prepare_row_view adj id add st st' row :
  try_fold (prepare_edge adj id add) st (HDict.iter row) = Ok st' →
  forward st' = forward st ∧
  view adj st' = (foldl (if add then link id else cut id) (view adj st).1 (RefAdjacency.refs_of row),
                  if add then outgoing st ++ RefAdjacency.refs_of row else outgoing st).
Proof.
  unfold RefAdjacency.refs_of. generalize (HDict.iter row) as l. intros l Hf.
  rewrite <-foldl_edge_step. change ((view adj st).1, outgoing st) with (view adj st).
  revert st Hf. induction l as [|kv l IH]; intros st; cbn [try_fold omap list_omap].
  { by intros [= <-]. }
  on_ok (prepare_edge adj id add st kv) as [st1|] H1. intros H2.
  apply prepare_edge_view in H1 as [Hfw Hv]. apply IH in H2 as [Hfw' Hv'].
  split; [congruence|]. rewrite Hv', Hv. by destruct (RefAdjacency.ref_edge kv).
Qed.

(** The overlay of a plan describes the rows. *)
Definition overlay adj (st : t) rs : Prop :=
  describes (reverse st ∪ RefAdjacency.reverse adj) rs ∧
  ∀ id, edges (forward st ∪ RefAdjacency.forward adj) id
        ≡ₚ match rs !! id with Some row => RefAdjacency.refs_of row | None => [] end.

Lemma change_outgoing adj c st st' :
  try_fold (λ st '(row, add), try_fold (prepare_edge adj (ic_id c) add) st (HDict.iter row))
    st (change_rows c) = Ok st' →
  forward st' = forward st ∧
  outgoing st' = outgoing st ++ match ic_after c with
                                | Some row => RefAdjacency.refs_of row | None => [] end.
Proof.
  unfold change_rows. intros Hf.
  assert (Hold : ∃ st1, forward st1 = forward st ∧ outgoing st1 = outgoing st ∧
    try_fold (λ st '(row, add), try_fold (prepare_edge adj (ic_id c) add) st (HDict.iter row))
      st1 match ic_after c with Some row => [(row, true)] | None => [] end = Ok st').
  { destruct (ic_before c) as [old|]; [|by exists st]. cbn [app try_fold] in Hf.
    destruct (try_fold (prepare_edge _ _ false) st _) as [st1|] eqn:H1; [|done].
    apply prepare_row_view in H1 as [Hfw Hv]. injection Hv as _ Hv. by exists st1. }
  destruct Hold as (st1 & Hfw & Hout & Hnew). rewrite <-Hfw, <-Hout.
  destruct (ic_after c) as [new|]; cbn [try_fold] in Hnew.
  - destruct (try_fold (prepare_edge _ _ true) st1 _) as [st2|] eqn:H2; [|done].
    injection Hnew as <-. apply prepare_row_view in H2 as [Hfw2 Hv]. injection Hv as _ Hv. done.
  - injection Hnew as <-. by rewrite app_nil_r.
Qed.

Lemma prepare_change_edges adj st st' rs c :
  rs !! ic_id c = ic_before c → overlay adj st rs →
  prepare_change adj st c = Ok st' → overlay adj st' (change_row rs c).
Proof.
  intros Hb [Hrev Hfwd]. unfold prepare_change.
  destruct (try_fold _ _ (change_rows c)) as [st1|] eqn:Hf; [|done]. intros [= <-].
  pose proof (change_outgoing _ _ _ _ Hf) as [Hfw Hout]. cbn [forward outgoing] in Hfw, Hout.
  split; cbn [forward reverse].
  - revert Hf. apply (fold_change_rows (λ add st row,
      try_fold (prepare_edge adj (ic_id c) add) st (HDict.iter row))
      (λ st rs, describes (reverse st ∪ RefAdjacency.reverse adj) rs)); try done; clear -HL.
    + intros st st' rs row Hrow Hd [_ Hv]%prepare_row_view. injection Hv as Hv _. cbn in Hv.
      rewrite Hv. by apply cut_describes.
    + intros st st' rs row Hrow Hd [_ Hv]%prepare_row_view. injection Hv as Hv _. cbn in Hv.
      rewrite Hv. by apply link_describes.
  - intros id. rewrite Hfw, <-insert_union_l, RefAdjacency.edges_insert, Hout.
    unfold change_row. cbn [app]. case_decide as Hid.
    + subst id. destruct (ic_after c); [by rewrite lookup_insert_eq|by rewrite lookup_delete_eq].
    + rewrite Hfwd. by destruct (ic_after c);
        [rewrite lookup_insert_ne by done|rewrite lookup_delete_ne by done].
Qed.

Lemma apply_entries_edges {K A} `{Countable K} (m entries : gmap K (list A)) k :
  edges (foldl apply_entry m (hash_iter entries)) k = edges (entries ∪ m) k.
Proof.
  unfold edges. rewrite (hash_entries_lookup apply_entry
    (λ l, if decide (l = []) then None else Some l)).
  - rewrite lookup_union. destruct (entries !! k) as [l|]; [|by destruct (m !! k)].
    destruct (decide (l = [])) as [->|]; by destruct (m !! k).
  - intros m' [k' l] k''. unfold apply_entry. cbn [fst snd].
    case_decide; [rewrite lookup_delete|rewrite lookup_insert]; by case_decide.
Qed.

Lemma apply_entries_ne {K A} `{Countable K} (m entries : gmap K (list A)) :
  (∀ k, m !! k ≠ Some []) → ∀ k, foldl apply_entry m (hash_iter entries) !! k ≠ Some [].
Proof.
  intros Hne k. rewrite (hash_entries_lookup apply_entry
    (λ l, if decide (l = []) then None else Some l)).
  - destruct (entries !! k) as [l|]; [|apply Hne]. case_decide; congruence.
  - intros m' [k' l] k''. unfold apply_entry. cbn [fst snd].
    case_decide; [rewrite lookup_delete|rewrite lookup_insert]; by case_decide.
Qed.

(** Publishing the prepared edges describes the rows after the changes. *)
Lemma prepared_adjacency_models capf capr adj rs cs b p :
  RefAdjacency.models adj rs → changes_ok rs cs →
  prepare_changes capf capr adj cs b = Ok p →
  RefAdjacency.models (apply_prepared adj p) (foldl change_row rs cs).
Proof.
  intros [Hfwd Hfne Hrev Hnd Hrne] Hok. unfold prepare_changes.
  destruct (try_fold _ _ cs) as [st|] eqn:Hf; [|done].
  destruct (charge_growth _ capf _ _) as [b1|]; [|done].
  destruct (charge_growth _ capr _ _) as [b2|]; [|done]. intros [= <-].
  apply (try_fold_changes (prepare_change adj) (overlay adj) cs _ _ rs) in Hf
    as [[Hin' Hnd'] Hfwd']; [|intros; by eapply prepare_change_edges|done|].
  - split; cbn [apply_prepared RefAdjacency.forward RefAdjacency.reverse forward reverse].
    + intros id. by rewrite apply_entries_edges, Hfwd'.
    + by apply apply_entries_ne.
    + intros tgt tag id. by rewrite apply_entries_edges, Hin'.
    + intros tgt. by rewrite apply_entries_edges.
    + by apply apply_entries_ne.
  - split; cbn [forward reverse]; rewrite (left_id_L ∅ (∪)); done.
Qed.
End facts.
End PreparedAdjacencyFacts.

(** ** Values *)

Module PreparedValuesFacts.
Import PreparedValues.
Section facts.
Context {HO : HashOrder} {HL : HashOrderLaws}.
Implicit Types (vi sv : ValueIndex.t) (entries : slots) (rs : gmap N HDict).

Definition view vi entries (field : string) (key : OrderableKind.t) : list N :=
  match entries !! (field, key) with Some ids => ids | None => ValueIndex.bucket vi field key end.

(** The overlay shows the buckets of an index that was maintained row by
    row, and its entries are of registered fields. *)
Record shows vi entries sv : Prop := {
  shows_indexed field :
    is_Some (ValueIndex.indexes sv !! field) ↔ is_Some (ValueIndex.indexes vi !! field);
  shows_bucket field key : view vi entries field key = ValueIndex.bucket sv field key;
  shows_entries field key : is_Some (entries !! (field, key)) →
    is_Some (ValueIndex.indexes vi !! field)
}.

Lemma view_insert vi entries f k ids field key :
  view vi (<[(f, k) := ids]> entries) field key
  = if decide (f = field ∧ k = key) then ids else view vi entries field key.
Proof.
  unfold view. rewrite lookup_insert. case_decide as H1; case_decide as H2; naive_solver.
Qed.

Lemma fetch_view adds vi tr f k entries b ids b' :
  ValueIndex.indexes vi !! f = Some tr →
  fetch adds tr (f, k) entries b = Ok (ids, b') → ids = view vi entries f k.
Proof.
  intros Htr. unfold fetch, view, ValueIndex.bucket. rewrite Htr. cbn [default snd].
  destruct (entries !! (f, k)); [by intros [= <- <-]|].
  destruct (ok_or (checked_add _ _ _) _); [|done]. destruct (ok_or _ _); [|done].
  destruct (charge _ _ b); [|done]. by intros [= <- <-].
Qed.

Lemma prepare_value_shows vi sv adds id add st st' kv :
  prepare_value vi adds id add st kv = Ok st' → shows vi st.1 sv →
  shows vi st'.1 (if add then ValueIndex.add_step id sv kv else ValueIndex.remove_step id sv kv).
Proof.
  destruct st as [entries b], kv as [f v]. cbn [fst]. intros Hp [Hix Hbk Hen].
  rewrite ValueIndex.add_step_add, ValueIndex.remove_step_remove. cbn [fst snd].
  unfold prepare_value in Hp. destruct (charge _ _ b) as [b1|]; [|done].
  assert (Hskip : ¬ is_Some (ValueIndex.indexes vi !! f) ∨ OrderableKind.from_kind v = None →
    st' = (entries, b1) ∨ st'.1 = entries → shows vi st'.1
      (if add then ValueIndex.add sv id f v else ValueIndex.remove sv id f v)).
  { intros Hno Hst. assert (st'.1 = entries) as -> by by destruct Hst as [->|].
    assert (ValueIndex.add sv id f v = sv ∧ ValueIndex.remove sv id f v = sv) as [-> ->].
    { unfold ValueIndex.add, ValueIndex.remove. rewrite <-Hix in Hno.
      destruct (ValueIndex.indexes sv !! f) as [tr|]; [|done].
      destruct (OrderableKind.from_kind v); [|done]. by destruct Hno as [[]|]. }
    by destruct add. }
  destruct (ValueIndex.indexes vi !! f) as [tr|] eqn:Htr.
  2: { injection Hp as <-. apply Hskip; [left; by intros []|by right]. }
  destruct (charge _ _ b1) as [b2|]; [|done].
  destruct (OrderableKind.from_kind v) as [k|] eqn:Hk.
  2: { injection Hp as <-. apply Hskip; [by right|by right]. }
  clear Hskip. destruct (charge _ _ b2) as [b3|]; [|done].
  on_ok (fetch adds tr (f, k) entries b3) as [[ids b4]|] Hf.
  apply (fetch_view adds vi) in Hf as ->; [|done].
  assert (Hs : is_Some (ValueIndex.indexes sv !! f)) by (apply Hix; by eexists).
  destruct add; [injection Hp as <-|destruct (charge _ 0 b4); [injection Hp as <-|done]];
    cbn [fst]; split.
  - intros field. by rewrite ValueIndex.add_indexed.
  - intros field key. rewrite view_insert, ValueIndex.add_bucket, Hk, !Hbk.
    case_decide as H1; [destruct H1 as [-> ->]; by rewrite decide_True|].
    rewrite decide_False; [done|]. intros (-> & [= ->] & _). by apply H1.
  - intros field key. rewrite lookup_insert. case_decide as E; [|apply Hen].
    injection E as -> ->. intros _. by eexists.
  - intros field. by rewrite ValueIndex.remove_indexed.
  - intros field key. rewrite view_insert, ValueIndex.remove_bucket, Hk, !Hbk.
    case_decide as H1; [destruct H1 as [-> ->]; by rewrite decide_True|].
    rewrite decide_False; [done|]. intros (-> & [= ->]). by apply H1.
  - intros field key. rewrite lookup_insert. case_decide as E; [|apply Hen].
    injection E as -> ->. intros _. by eexists.
Qed.

Lemma prepare_row_shows vi adds id add l sv st st' :
  try_fold (prepare_value vi adds id add) st l = Ok st' → shows vi st.1 sv →
  shows vi st'.1 (foldl (if add then ValueIndex.add_step id else ValueIndex.remove_step id) sv l).
Proof.
  revert sv st. induction l as [|kv l IH]; intros sv st; cbn [try_fold foldl]; [by intros [= <-]|].
  on_ok (prepare_value vi adds id add st kv) as [st1|] H1. intros Hf Hs.
  apply (IH _ st1); [done|]. eapply prepare_value_shows in H1; [|done]. by destruct add.
Qed.

Definition overlay vi (st : slots * ValueBudget.t) rs : Prop :=
  ∃ sv, shows vi st.1 sv ∧ ValueIndex.models sv rs.

Lemma prepare_change_values vi adds st st' rs c :
  rs !! ic_id c = ic_before c → overlay vi st rs →
  prepare_change vi adds st c = Ok st' → overlay vi st' (change_row rs c).
Proof.
  intros Hb Ho. unfold prepare_change.
  apply (fold_change_rows (λ add st row,
    try_fold (prepare_value vi adds (ic_id c) add) st (HDict.iter row)) (overlay vi)); try done;
    clear -HL; intros st st' rs row Hrow (sv & Hs & Hm) Hf;
    eapply prepare_row_shows in Hf; try done; eexists; (split; [exact Hf|]).
  - rewrite <-ValueIndex.remove_values_steps. by apply ValueIndex.remove_values_models.
  - rewrite <-ValueIndex.index_values_steps. by apply ValueIndex.index_values_models.
Qed.

(** Publishing never meets an unregistered field and sets the buckets. *)
Lemma apply_entries l vi :
  NoDup l.*1 → (∀ f k ids, ((f, k), ids) ∈ l → is_Some (ValueIndex.indexes vi !! f)) →
  (∀ f tr k, ValueIndex.indexes vi !! f = Some tr → tr !! k ≠ Some []) →
  ∃ vi', foldl apply_entry (Some vi) l = Some vi' ∧
    (∀ f, is_Some (ValueIndex.indexes vi' !! f) ↔ is_Some (ValueIndex.indexes vi !! f)) ∧
    (∀ f k, ValueIndex.bucket vi' f k = view vi (list_to_map l) f k) ∧
    (∀ f tr k, ValueIndex.indexes vi' !! f = Some tr → tr !! k ≠ Some []).
Proof.
  revert vi. induction l as [|[[f k] ids] l IH]; intros vi Hnd Hix Hne; [by exists vi|].
  rewrite fmap_cons in Hnd. apply NoDup_cons in Hnd as [Hnotin Hnd].
  destruct (Hix f k ids) as [tr Htr]; [left|].
  cbn [foldl]. unfold apply_entry at 2. cbn [mbind option_bind]. rewrite Htr. cbn [option_bind].
  set (tr' := PreparedAdjacency.apply_entry tr (k, ids)).
  set (vi1 := ValueIndex.mk (<[f := tr']> (ValueIndex.indexes vi))).
  assert (Hix1 : ∀ f', is_Some (ValueIndex.indexes vi1 !! f') ↔ is_Some (ValueIndex.indexes vi !! f')).
  { intros f'. cbn. rewrite lookup_insert. case_decide; [subst|done]. rewrite Htr.
    by split; eexists. }
  assert (Htr' : ∀ k', tr' !! k' = if decide (k = k') then
                          (if decide (ids = []) then None else Some ids) else tr !! k').
  { intros k'. unfold tr', PreparedAdjacency.apply_entry. cbn [fst snd].
    destruct (decide (ids = [])); [rewrite lookup_delete|rewrite lookup_insert]; by case_decide. }
  destruct (IH vi1) as (vi' & Hf & Hi' & Hb' & Hne'); [done|..].
  - intros f' k' ids' Hin. apply Hix1. eapply Hix. by right.
  - intros f' t k'. cbn. rewrite lookup_insert. destruct (decide (f = f')); [|apply Hne].
    intros [= <-]. rewrite Htr'. destruct (decide (k = k')); [|by apply (Hne f)].
    destruct (decide (ids = [])); congruence.
  - exists vi'. split; [done|]. split; [intros f'; by rewrite Hi'|]. split; [|done].
    intros f' k'. rewrite Hb'.
    change (list_to_map (M := slots) ((f, k, ids) :: l))
      with (<[(f, k) := ids]> (list_to_map (M := slots) l)).
    rewrite view_insert. unfold view.
    assert (Hbk : ValueIndex.bucket vi1 f' k'
      = if decide (f = f' ∧ k = k') then ids else ValueIndex.bucket vi f' k').
    { unfold ValueIndex.bucket, edges. cbn. rewrite lookup_insert.
      destruct (decide (f = f')) as [<-|Hff]; cbn [default from_option].
      - rewrite Htr', Htr. cbn [default from_option].
        destruct (decide (k = k')) as [<-|Hkk]; [|by rewrite decide_False by naive_solver].
        rewrite (decide_True (P := f = f ∧ k = k)) by done.
        destruct (decide (ids = [])); by subst.
      - by rewrite decide_False by naive_solver. }
    rewrite Hbk. destruct (decide (f = f' ∧ k = k')) as [[<- <-]|]; [|done].
    by rewrite not_elem_of_list_to_map_1.
Qed.

(** Publishing the prepared buckets describes the rows after the changes,
    also on an index rebuilt in the meantime. *)
Lemma prepared_values_models vi0 vi rs cs b entries b' :
  ValueIndex.models vi0 rs → ValueIndex.models vi rs →
  (∀ f, is_Some (ValueIndex.indexes vi0 !! f) ↔ is_Some (ValueIndex.indexes vi !! f)) →
  changes_ok rs cs → prepare_changes vi0 cs b = Ok (entries, b') →
  ∃ vi', apply_prepared vi entries = Some vi' ∧ ValueIndex.models vi' (foldl change_row rs cs).
Proof.
  intros Hm0 Hm Hfields Hok. unfold prepare_changes.
  destruct (charge _ _ b) as [b0|]; [|done]. intros Hf.
  eapply (try_fold_changes _ (overlay vi0) cs _ _ rs) in Hf as (sv & [Hix Hbk Hen] & Hm');
    [|intros; by eapply prepare_change_values|done|].
  - destruct (apply_entries (map_to_list entries) vi) as (vi' & Ha & Hi' & Hb' & Hne').
    + apply NoDup_fst_map_to_list.
    + intros f k ids Hin%elem_of_map_to_list. apply Hfields, (Hen f k). by eexists.
    + intros f tr k Htr. by apply (ValueIndex.models_bucket_ne _ _ Hm f).
    + rewrite list_to_map_to_list in Hb'. cbn [fst] in Hbk. unfold view in Hbk, Hb'.
      exists vi'. split; [done|]. split.
      * intros field key id Hf. rewrite Hb'. apply Hi' in Hf.
        rewrite <-(ValueIndex.models_bucket _ _ Hm' field key id) by (by apply Hix, Hfields).
        rewrite <-Hbk. destruct (entries !! (field, key)); [done|].
        rewrite (ValueIndex.models_bucket _ _ Hm), (ValueIndex.models_bucket _ _ Hm0);
          [done|by apply Hfields|done].
      * intros field key. rewrite Hb'. specialize (Hbk field key).
        pose proof (ValueIndex.models_bucket_nodup _ _ Hm' field key) as Hnd. rewrite <-Hbk in Hnd.
        destruct (entries !! (field, key)); [done|]. apply (ValueIndex.models_bucket_nodup _ _ Hm).
      * done.
  - exists vi0. split; [|done]. split; cbn [fst]; [done| |].
    + intros field key. unfold view. by rewrite lookup_empty.
    + intros field key. rewrite lookup_empty. by intros [].
Qed.
End facts.
End PreparedValuesFacts.
