(* ===== verification/BatchFacts.v ===== *)
(** * Batches against the abstract graph

    The loop of [prepare_batch] is related to the abstract graph by an
    invariant on the plan so far ([plan_inv]): publishing its changes would
    give a well-formed store, its index changes lead from the live rows to
    the new ones, its diffs replay the change, and doing the operations one
    by one gives the same entities and revision.  From it: preparing never
    panics, an entity error is one the sequence of operations would meet,
    and publishing a plan does what its operations do one by one. *)

From S2P Require Import Prelude Floats Kinds Size Extern Bitmap Adjacency ValueIndex Filter Changelog Graph GraphInv Prepared PreparedFacts.

Module BatchFacts.
Import PreparedBatch EntityGraph GraphInv.

Section batch.
Context {HO : HashOrder} {HL : HashOrderLaws} {RB : Roaring} {RL : RoaringLaws}.
Context {CM : CacheMap} {CL : CacheLaws} {ON : Ontology} {CA : Catalog} {FS : FilterSyntax}.
Implicit Types (g : EntityGraph.t) (st : Plan) (op : EntityOperation) (pl : Planned).
Implicit Types (E : gmap string HDict) (im : gmap string N) (ri : gmap N string).

(** ** One operation of the abstract graph *)

Definition perform (a : GraphSpec.t) op : result GraphError GraphSpec.t :=
  match op with
  | OAdd row => let '(a, r) := GraphSpec.add a row in let? _ := r in Ok a
  | OPatch id changes => let '(a, r) := GraphSpec.update a id changes in let? _ := r in Ok a
  | ORemove id => let '(a, r) := GraphSpec.remove a id in let? _ := r in Ok a
  end.

(** ** Appending to a plan *)

Lemma changes_ok_snoc rs cs c :
  changes_ok rs cs → foldl change_row rs cs !! ic_id c = ic_before c → (ic_id c ≤ u32_max)%N →
  changes_ok rs (cs ++ [c]).
Proof.
  revert rs. induction cs as [|c0 cs IH]; intros rs; cbn [app changes_ok foldl]; [done|].
  intros (? & ? & Hok) Hb Hle. auto.
Qed.

Lemma publish_changes_snoc g cs c :
  publish_changes g (cs ++ [c]) = g1 ← publish_changes g cs; publish_change g1 c.
Proof.
  revert g. induction cs as [|c0 cs IH]; intros g; cbn [app publish_changes mbind option_bind].
  - by destruct (publish_change g c).
  - destruct (publish_change g c0); [apply IH|done].
Qed.

Lemma index_changes_snoc cs c :
  index_changes (cs ++ [c]) = index_changes cs ++
    (if pc_changed c then [mkIndexChange (pc_numeric c) (pc_before c) (pc_after c)] else []).
Proof.
  unfold index_changes. rewrite filter_app, fmap_app. f_equal.
  destruct (pc_changed c) eqn:Hc.
  - by rewrite filter_cons_True.
  - by rewrite filter_cons_False by (by rewrite Hc).
Qed.

(** The graph with the rows and ids of a plan. *)
Definition with_store g E im ri : EntityGraph.t :=
  set_entities E (set_ids im ri (next_id g) (free_ids g) g).
Definition planned_free g (ids : Ids) : list N := freed ids ++ drop (consumed ids) (free_ids g).

Record plan_inv g (ops : list EntityOperation) st E im ri : Prop := {
  pi_publish : publish_changes g (pl_changes st) = Some (with_store g E im ri);
  pi_store : store_ok E im ri (next (pl_ids st)) (planned_free g (pl_ids st));
  pi_consumed : consumed (pl_ids st) ≤ length (free_ids g);
  pi_rows_ok : changes_ok (rows g) (index_changes (pl_changes st));
  pi_rows : rows_of E ri = foldl change_row (rows g) (index_changes (pl_changes st));
  pi_spec : try_fold perform (abs g) ops = Ok (GraphSpec.mk E (pl_revision st));
  pi_head : pl_revision st = (version g + len (pl_diffs st))%N;
  pi_bound : (pl_revision st ≤ u64_max)%N;
  pi_versions : ChangeLog.contiguous (version g) (pl_diffs st);
  pi_diffs : Forall diff_ok (pl_diffs st);
  pi_replay : foldl apply_diff (entities g) (pl_diffs st) = E;
  pi_unseen id : id ∉ pl_seen st → E !! id = entities g !! id ∧ im !! id = id_map g !! id;
  pi_quiet : pl_diffs st = [] →
    E = entities g ∧ im = id_map g ∧ ri = reverse_id g ∧
    pl_ids st = mkIds 0 [] (next_id g) ∧ index_changes (pl_changes st) = []
}.

Lemma with_store_id g : with_store g (entities g) (id_map g) (reverse_id g) = g.
Proof. by destruct g. Qed.

(** What planning relies on. *)
Record plannable g : Prop := {
  plannable_store : store_ok (entities g) (id_map g) (reverse_id g) (next_id g) (free_ids g);
  plannable_version : (version g ≤ u64_max)%N;
  plannable_bytes : (ChangeLog.byte_capacity (changelog g) ≤ usize_max)%N
}.

Lemma plan_start g b :
  plannable g →
  plan_inv g [] (mkPlan b ∅ [] [] (mkIds 0 [] (next_id g)) (version g))
    (entities g) (id_map g) (reverse_id g).
Proof.
  intros Hi. split; cbn; try done.
  - by rewrite with_store_id.
  - apply (plannable_store _ Hi).
  - lia.
  - len_lia.
  - apply (plannable_version _ Hi).
Qed.

(** A changed operation extends the plan. *)
Lemma plan_push g ops st E im ri op id pl ids b bytes E' im' ri' :
  let rev := (pl_revision st + 1)%N in
  let before := entities g !! id in
  let d := plan_diff rev bytes id before pl in
  plan_inv g ops st E im ri → p_changed pl = true →
  publish_change (with_store g E im ri) (plan_change id before pl) = Some (with_store g E' im' ri') →
  store_ok E' im' ri' (next ids) (planned_free g ids) → consumed ids ≤ length (free_ids g) →
  rows_of E ri !! p_numeric pl = before → (p_numeric pl ≤ u32_max)%N →
  rows_of E' ri' = change_row (rows_of E ri) (mkIndexChange (p_numeric pl) before (p_after pl)) →
  (rev ≤ u64_max)%N →
  perform (GraphSpec.mk E (pl_revision st)) op = Ok (GraphSpec.mk E' rev) →
  diff_ok d → apply_diff E d = E' →
  (∀ i, i ≠ id → E' !! i = E !! i ∧ im' !! i = im !! i) →
  plan_inv g (ops ++ [op])
    (mkPlan b ({[id]} ∪ pl_seen st) (pl_changes st ++ [plan_change id before pl])
       (pl_diffs st ++ [d]) ids rev) E' im' ri'.
Proof.
  intros rev before d Hp Hch Hpub Hst Hcons Hbef Hle Hrows Hrev Hperf Hok Hrep Hother.
  split; cbn [pl_changes pl_ids pl_revision pl_diffs pl_seen]; try done.
  - rewrite publish_changes_snoc, (pi_publish _ _ _ _ _ _ Hp). done.
  - rewrite index_changes_snoc. cbn [plan_change pc_changed pc_numeric pc_before pc_after].
    rewrite Hch. apply changes_ok_snoc; [apply (pi_rows_ok _ _ _ _ _ _ Hp)| |done].
    by rewrite <-(pi_rows _ _ _ _ _ _ Hp).
  - rewrite index_changes_snoc. cbn [plan_change pc_changed pc_numeric pc_before pc_after].
    rewrite Hch, foldl_app, <-(pi_rows _ _ _ _ _ _ Hp). done.
  - rewrite try_fold_app, (pi_spec _ _ _ _ _ _ Hp). cbn [try_fold]. by rewrite Hperf.
  - rewrite len_app, len_cons, len_nil. unfold rev. rewrite (pi_head _ _ _ _ _ _ Hp). lia.
  - apply ChangeLog.contiguous_app. split; [apply (pi_versions _ _ _ _ _ _ Hp)|].
    unfold ChangeLog.contiguous. cbn. rewrite seqN_1. unfold rev.
    by rewrite (pi_head _ _ _ _ _ _ Hp).
  - apply Forall_app. split; [apply (pi_diffs _ _ _ _ _ _ Hp)|by apply Forall_singleton].
  - rewrite foldl_app, (pi_replay _ _ _ _ _ _ Hp). done.
  - intros i Hi. destruct (Hother i) as [-> ->]; [set_solver|].
    apply (pi_unseen _ _ _ _ _ _ Hp). set_solver.
  - intros Hnil. by apply app_nil in Hnil as [_ ?].
Qed.

(** An empty patch leaves the plan as it was. *)
Lemma plan_skip g ops st E im ri op id pl b :
  plan_inv g ops st E im ri → p_changed pl = false →
  perform (GraphSpec.mk E (pl_revision st)) op = Ok (GraphSpec.mk E (pl_revision st)) →
  plan_inv g (ops ++ [op])
    (mkPlan b ({[id]} ∪ pl_seen st)
       (pl_changes st ++ [plan_change id (entities g !! id) pl])
       (pl_diffs st) (pl_ids st) (pl_revision st)) E im ri.
Proof.
  intros Hp Hch Hperf.
  assert (Hic : index_changes (pl_changes st ++ [plan_change id (entities g !! id) pl])
                = index_changes (pl_changes st)).
  { rewrite index_changes_snoc. cbn. by rewrite Hch, app_nil_r. }
  destruct Hp. split; cbn [pl_changes pl_ids pl_revision pl_diffs pl_seen]; rewrite ?Hic; try done.
  - rewrite publish_changes_snoc, pi_publish0. cbn [mbind option_bind].
    unfold publish_change. cbn. by rewrite Hch.
  - rewrite try_fold_app, pi_spec0. cbn [try_fold]. by rewrite Hperf.
  - intros i Hi. apply pi_unseen0. set_solver.
Qed.

(** ** Outcomes of planning *)

(** The code returns; a result satisfies [P]; an entity error satisfies [F]. *)
Definition outcome {A} (P : A → Prop) (F : GraphError → Prop) (r : option (result BatchError A)) : Prop :=
  match r with
  | None => False
  | Some (Ok a) => P a
  | Some (Err (BEntity e)) => F e
  | Some (Err _) => True
  end.

Lemma outcome_bind {A B} (P : A → Prop) (Q : B → Prop) F r (k : A → option (result BatchError B)) :
  outcome P F r → (∀ a, P a → outcome Q F (k a)) → outcome Q F (let! a := r in k a).
Proof. destruct r as [[a|[]]|]; cbn; auto. Qed.

Lemma outcome_limited {A} (P : A → Prop) F (r : result unit A) :
  (∀ a, r = Ok a → P a) → outcome P F (Some (limited r)).
Proof. destruct r; cbn; auto. Qed.

Lemma outcome_try {A B} (Q : B → Prop) F (r : result unit A) (k : A → option (result BatchError B)) :
  (∀ a, r = Ok a → outcome Q F (k a)) →
  outcome Q F (match limited r with Ok a => k a | Err e => Some (Err e) end).
Proof. destruct r; cbn; auto. Qed.

Lemma outcome_impl {A} (P Q : A → Prop) F r :
  (∀ a, P a → Q a) → outcome P F r → outcome Q F r.
Proof. destruct r as [[a|[]]|]; cbn; auto. Qed.

(** The id planned for an addition is the one [add] would allocate next. *)
Lemma plan_id_alloc g E im ri ids :
  store_ok E im ri (next ids) (planned_free g ids) → consumed ids ≤ length (free_ids g) →
  let vg := set_entities E (set_ids im ri (next ids) (planned_free g ids) g) in
  match plan_id g ids with
  | Ok (n, ids') => consumed ids' ≤ length (free_ids g) ∧
      alloc_id vg = Ok (n, next ids', planned_free g ids')
  | Err e => e = BEntity IdExhausted ∧ alloc_id vg = Err IdExhausted
  end.
Proof.
  intros Hs Hc vg. unfold plan_id, alloc_id. cbn. unfold planned_free in *.
  destruct (freed ids) as [|id rest]; cbn [app].
  2: { by split. }
  destruct (free_ids g !! consumed ids) as [id|] eqn:Hid.
  - rewrite (drop_S _ _ _ Hid). cbn. split; [|done]. by apply lookup_lt_Some in Hid.
  - apply lookup_ge_None in Hid. rewrite drop_ge by done. case_decide as Hm; [done|].
    assert (Hn : checked_add usize_max (next ids) 1 = Some (next ids + 1)%N).
    { apply checked_add_Some. unfold MAX_ENTITY_ID, u32_max, usize_max in *. lia. }
    rewrite Hn. cbn. by rewrite drop_ge.
Qed.

Lemma plan_previous_ok old l prev b prev' b' :
  try_fold (plan_previous old) (prev, b) l = Ok (prev', b') →
  prev' = foldl (λ prev '(name, _), match HDict.get old name with
            | Some v => HDict.set prev name v | None => prev end) prev l.
Proof.
  intros Hf. change prev' with ((prev', b').1). change prev with ((prev, b).1) at 1.
  eapply try_fold_refines; [|exact Hf]. clear.
  intros [prev b] [prev' b'] [name v]. unfold plan_previous. cbn [fst].
  destruct (HDict.get old name) as [v0|]; [|by intros [= <- <-]].
  destruct (charge _ _ b); [|done]. destruct (ValueBudget.value _ _ _); [|done].
  by intros [= <- <-].
Qed.

(** A changed operation is numbered and logged. *)
Lemma plan_log_outcome g op id before pl rev diffs b F :
  p_changed pl = true → ((u64_max < rev + 1)%N → F RevisionExhausted) →
  (∃ r, plan_bytes g id before pl op = Some (ok_or r BLimit)) →
  outcome (λ '(rev', diffs', _), (rev + 1 ≤ u64_max)%N ∧ rev' = (rev + 1)%N ∧
    ∃ bytes, plan_bytes g id before pl op = Some (Ok bytes) ∧
      diffs' = diffs ++ [plan_diff (rev + 1) bytes id before pl]) F
    (plan_log g op id before pl rev diffs b).
Proof.
  intros Hch HF [r Hr]. unfold plan_log. rewrite Hch, Hr.
  destruct (checked_add u64_max rev 1) as [rev'|] eqn:Hrev; cbn [ok_or].
  2: { apply checked_add_None in Hrev. cbn. auto. }
  apply checked_add_Some in Hrev as [-> Hle].
  destruct r as [bytes|]; cbn [ok_or]; [|done].
  destruct (charge 1 bytes b) as [b'|]; cbn; [|done]. split; [done|]. split; [done|]. by exists bytes.
Qed.

(** ** The operations *)

(** What planning an operation must lead to. *)
Definition extended g ops st op id pl ids (x : N * list GraphDiff * ValueBudget.t) : Prop :=
  let '(rev, diffs, b) := x in
  ∃ E im ri, plan_inv g (ops ++ [op])
    (mkPlan b ({[id]} ∪ pl_seen st)
       (pl_changes st ++ [plan_change id (entities g !! id) pl]) diffs ids rev) E im ri.
(** The error [e] that planning reports for the one [e'] that the operation
    done on its own would meet: the same, unless both the ids and the revisions
    are exhausted, which [add] finds in the other order. *)
Definition reported (e e' : GraphError) : Prop :=
  e' = e ∨ e = IdExhausted ∧ e' = RevisionExhausted.
Definition fails E st op (e : GraphError) : Prop :=
  ∃ e', perform (GraphSpec.mk E (pl_revision st)) op = Err e' ∧ reported e e'.
Lemma fails_same (r : result GraphError GraphSpec.t) e : r = Err e → ∃ e', r = Err e' ∧ reported e e'.
Proof. intros ->. exists e. by split; [|left]. Qed.
Definition planned_ok g ops st E op id (b : ValueBudget.t) : Prop :=
  outcome (λ '(pl, ids, b),
    outcome (extended g ops st op id pl ids) (fails E st op)
      (plan_log g op id (entities g !! id) pl (pl_revision st) (pl_diffs st) b))
    (fails E st op) (plan_operation g op id (entities g !! id) (pl_ids st) b).

(** Revisions run out for the abstract graph too. *)
Lemma perform_exhausted E st op :
  (u64_max < pl_revision st + 1)%N →
  match op with
  | OAdd row => ∀ r, row !! "id" = Some (KRef r) → E !! ref_val r = None → fails E st op RevisionExhausted
  | OPatch id changes => is_Some (E !! id) → keeps_id id changes = true → changes ≠ ∅ →
      fails E st op RevisionExhausted
  | ORemove id => is_Some (E !! id) → fails E st op RevisionExhausted
  end.
Proof.
  intros Hrev%checked_add_None. unfold fails, perform, GraphSpec.add, GraphSpec.update,
    GraphSpec.remove, GraphSpec.next_revision. cbn [GraphSpec.store GraphSpec.revision].
  rewrite Hrev. destruct op as [row|id changes|id].
  - intros r Hid Hnone. rewrite Hid, Hnone. rewrite decide_False by (by intros []).
    eexists. split; [done|by left].
  - intros [old ->] Hk Hne. rewrite Hk, decide_False by done. eexists. split; [done|by left].
  - intros [old ->]. eexists. split; [done|by left].
Qed.

(** What an addition of a row that is not there does. *)
Lemma perform_add E v row r :
  row !! "id" = Some (KRef r) → E !! ref_val r = None →
  perform (GraphSpec.mk E v) (OAdd row)
  = let? v' := ok_or (checked_add u64_max v 1) RevisionExhausted in
    if GraphSpec.full (GraphSpec.mk E v) then Err IdExhausted
    else Ok (GraphSpec.mk (<[ref_val r := row]> E) v').
Proof.
  intros Hid HE. unfold perform, GraphSpec.add, GraphSpec.next_revision. rewrite Hid.
  cbn [GraphSpec.store GraphSpec.revision]. rewrite HE, decide_False by (by intros []).
  destruct (checked_add _ _ _); cbn [ok_or]; [|done]. by destruct (GraphSpec.full _).
Qed.

Lemma plan_add_ok g ops st E im ri row r b :
  plan_inv g ops st E im ri → row !! "id" = Some (KRef r) → ref_val r ∉ pl_seen st →
  planned_ok g ops st E (OAdd row) (ref_val r) b.
Proof.
  intros Hp Hid Hseen. unfold planned_ok, plan_operation, plan_add.
  destruct (pi_unseen _ _ _ _ _ _ Hp _ Hseen) as [HE Him].
  case_bool_decide as Hdup.
  { cbn. unfold fails, perform, GraphSpec.add. rewrite Hid. cbn. rewrite HE, decide_True by done.
    by eapply fails_same. }
  assert (Hnone : entities g !! ref_val r = None) by by apply eq_None_not_Some.
  rewrite Hnone in HE. destruct (limited (ValueBudget.dict b row 1)) as [b1|e] eqn:Hd.
  2: { unfold limited, map_err in Hd. destruct (ValueBudget.dict b row 1); [done|].
       by injection Hd as <-. }
  clear Hd. pose proof (pi_store _ _ _ _ _ _ Hp) as Hs.
  pose proof (plan_id_alloc g E im ri (pl_ids st) Hs (pi_consumed _ _ _ _ _ _ Hp)) as Halloc.
  set (vg := set_entities E (set_ids im ri (next (pl_ids st)) (planned_free g (pl_ids st)) g)) in *.
  pose proof (alloc_id_spec vg Hs) as Hspec.
  pose proof (perform_add E (pl_revision st) row r Hid HE) as Hperf.
  change (GraphSpec.full (GraphSpec.mk E (pl_revision st))) with (GraphSpec.full (abs vg)) in Hperf.
  cbv zeta in Halloc. destruct (plan_id g (pl_ids st)) as [[n ids]|e].
  2: { destruct Halloc as [-> Halloc]. cbn. unfold fails. rewrite Hperf.
    destruct (checked_add _ _ _); cbn [ok_or]; [|eexists; split; [done|by right]].
    destruct (GraphSpec.full (abs vg)); [by eapply fails_same|]. destruct Hspec as (? & ? & ? & Ha & _).
    congruence. }
  destruct Halloc as [Hcons Halloc]. destruct (GraphSpec.full (abs vg)); [congruence|].
  destruct Hspec as (n' & nx & fr & Ha & Hri & Hle & Hnx & Hb & Hnd & Hfr & Hnin).
  rewrite Halloc in Ha. injection Ha as <- <- <-. cbn in Hri, Hnx, Hfr.
  cbn [outcome]. eapply outcome_impl; [|apply plan_log_outcome; [done| |]].
  - intros [[rev' diffs] b2] (Hrev & -> & bytes & Hbytes & ->).
    exists (<[ref_val r := row]> E), (<[ref_val r := n]> im), (<[n := ref_val r]> ri).
    eapply plan_push; try done.
    + eapply store_insert; try done. by exists r.
    + cbn. by rewrite lookup_rows_of, Hri, Hnone.
    + cbn. unfold change_row. cbn. apply rows_of_insert. intros id' Hr.
      destruct (store_rows _ _ _ _ _ _ _ Hs Hr) as (? & ? & _). congruence.
    + rewrite Hperf, (proj2 (checked_add_Some _ _ _ _) (conj eq_refl Hrev)). done.
    + cbn in Hbytes. destruct (ValueBudget.diff_bytes _ _ _) as [n0|] eqn:Hn; [|done].
      injection Hbytes as ->. split; cbn.
      * exists row. split; [done|]. split; [by exists r|done].
      * by apply (ValueBudget.diff_bytes_limit _ _ _ _ _ Hn).
    + intros i Hi. by rewrite !lookup_insert_ne.
  - intros Hex. apply (perform_exhausted E st (OAdd row) Hex r); done.
  - by eexists.
Qed.

(** A row the plan has not touched is live under its old id. *)
Lemma plan_live g ops st E im ri id e :
  plan_inv g ops st E im ri → id ∉ pl_seen st → entities g !! id = Some e →
  ∃ n, id_map g !! id = Some n ∧ im !! id = Some n ∧ ri !! n = Some id ∧ E !! id = Some e ∧
    rows_of E ri !! n = Some e ∧ (n ≤ u32_max)%N ∧ ∀ n', ri !! n' = Some id → n' = n.
Proof.
  intros Hp Hseen He. destruct (pi_unseen _ _ _ _ _ _ Hp _ Hseen) as [HE Him].
  rewrite He in HE. pose proof (pi_store _ _ _ _ _ _ Hp) as Hs.
  destruct (store_id _ _ _ _ _ _ _ Hs HE) as (n & Hn & Hr & Hrow).
  exists n. rewrite <-Him. split_and!; try done.
  - by eapply store_id_le.
  - intros n' Hn'. by eapply store_id_inj.
Qed.

Lemma plan_patch_changed g ops st E im ri id n old changes b :
  plan_inv g ops st E im ri → id ∉ pl_seen st → entities g !! id = Some old →
  id_map g !! id = Some n → keeps_id id changes = true → changes ≠ ∅ →
  let op := OPatch id changes in
  let pl := mkPlanned DUpdate (Some (HDict.merge old changes)) n true
              (Some (changes, previous_of old changes)) in
  (ChangeLog.byte_capacity (changelog g) ≤ usize_max)%N →
  outcome (extended g ops st op id pl (pl_ids st)) (fails E st op)
    (plan_log g op id (entities g !! id) pl (pl_revision st) (pl_diffs st) b).
Proof.
  intros Hp Hseen Hold Hn Hk Hne op pl Hcap.
  destruct (plan_live _ _ _ _ _ _ _ _ Hp Hseen Hold) as (n' & Hn' & Him & Hri & HE & Hrow & Hle & Hinj).
  assert (n' = n) as -> by congruence. pose proof (pi_store _ _ _ _ _ _ Hp) as Hs.
  eapply outcome_impl; [|apply plan_log_outcome; [done| |]].
  - intros [[rev' diffs] b2] (Hrev & -> & bytes & Hbytes & ->).
    exists (<[id := HDict.merge old changes]> E), im, ri. eapply plan_push; try done.
    + apply store_set; [done|by eexists|]. eapply keeps_id_merge; [|done].
      by apply (store_ref _ _ _ _ _ Hs).
    + apply (pi_consumed _ _ _ _ _ _ Hp).
    + rewrite Hold. exact Hrow.
    + cbn. unfold change_row. cbn. rewrite <-(insert_id ri n id Hri) at 1.
      by rewrite rows_of_insert.
    + unfold perform, GraphSpec.update, GraphSpec.next_revision, op. cbn [GraphSpec.store].
      rewrite HE, Hk, decide_False by done. cbn [GraphSpec.revision].
      by rewrite (proj2 (checked_add_Some _ _ _ _) (conj eq_refl Hrev)).
    + cbn in Hbytes. rewrite Hold in Hbytes. cbn in Hbytes.
      destruct (ValueBudget.patch_diff_bytes _ _ _ _) as [n0|] eqn:Hn0; [|done].
      injection Hbytes as ->. split; cbn; [by eexists _, _|].
      by eapply ValueBudget.patch_as_diff; [apply previous_of_lookup|exact Hcap|exact Hn0|].
    + unfold apply_diff. cbn. apply map_eq. intros k. rewrite lookup_insert, lookup_alter.
      case_decide; [|done]. subst k. by rewrite HE.
    + intros i Hi. by rewrite lookup_insert_ne.
  - intros Hex. apply (perform_exhausted E st op Hex); [by eexists|done..].
  - rewrite Hold. by eexists.
Qed.

Lemma plan_patch_ok g ops st E im ri id changes b :
  plannable g → plan_inv g ops st E im ri → id ∉ pl_seen st →
  planned_ok g ops st E (OPatch id changes) id b.
Proof.
  intros Hi Hp Hseen. unfold planned_ok, plan_operation, plan_patch.
  destruct (pi_unseen _ _ _ _ _ _ Hp _ Hseen) as [HE Him].
  destruct (entities g !! id) as [old|] eqn:Hold; cbn [ok_or].
  2: { cbn. unfold fails, perform, GraphSpec.update. cbn. rewrite HE. by eapply fails_same. }
  destruct (plan_live _ _ _ _ _ _ _ _ Hp Hseen Hold) as (n & Hn & _).
  destruct (keeps_id id changes) eqn:Hk; cbn [negb].
  2: { cbn. unfold fails, perform, GraphSpec.update. cbn. rewrite HE, Hk. by eapply fails_same. }
  do 3 (apply outcome_try; intros ? _).
  apply outcome_try. intros [prev b'] ->%plan_previous_ok.
  apply outcome_try. intros b2 _.
  rewrite Hn. cbn [mbind option_bind outcome]. unfold HDict.is_empty.
  case_bool_decide as He; cbn [negb].
  - unfold plan_log. cbn [p_changed outcome]. eexists _, _, _. eapply plan_skip; try done.
    unfold perform, GraphSpec.update. cbn. by rewrite HE, Hk, decide_True.
  - rewrite <-Hold. eapply plan_patch_changed; try done. apply (plannable_bytes _ Hi).
Qed.

Lemma plan_remove_ok g ops st E im ri id b :
  plan_inv g ops st E im ri → id ∉ pl_seen st →
  planned_ok g ops st E (ORemove id) id b.
Proof.
  intros Hp Hseen. unfold planned_ok, plan_operation, plan_remove.
  destruct (pi_unseen _ _ _ _ _ _ Hp _ Hseen) as [HE Him].
  destruct (entities g !! id) as [e|] eqn:Hold.
  2: { rewrite bool_decide_eq_false_2 by (by intros []). cbn.
       unfold fails, perform, GraphSpec.remove. cbn. rewrite HE. by eapply fails_same. }
  rewrite bool_decide_eq_true_2 by by eexists. cbn [negb].
  destruct (plan_live _ _ _ _ _ _ _ _ Hp Hseen Hold) as (n & Hn & Him' & Hri & _ & Hrow & Hle & Hinj).
  rewrite Hn. cbn [mbind option_bind outcome]. rewrite <-Hold.
  pose proof (pi_store _ _ _ _ _ _ Hp) as Hs.
  eapply outcome_impl; [|apply plan_log_outcome; [done| |]].
  - intros [[rev' diffs] b2] (Hrev & -> & bytes & Hbytes & ->).
    exists (delete id E), (delete id im), (delete n ri). eapply plan_push; try done.
    + by apply store_delete.
    + apply (pi_consumed _ _ _ _ _ _ Hp).
    + rewrite Hold. exact Hrow.
    + cbn. by apply rows_of_delete.
    + unfold perform, GraphSpec.remove, GraphSpec.next_revision. cbn [GraphSpec.store].
      rewrite HE. cbn [GraphSpec.revision].
      by rewrite (proj2 (checked_add_Some _ _ _ _) (conj eq_refl Hrev)).
    + cbn in Hbytes. rewrite Hold in *. cbn in Hbytes.
      destruct (ValueBudget.diff_bytes _ _ _) as [n0|] eqn:Hn0; [|done].
      injection Hbytes as ->. split; cbn.
      * exists e. split; [done|]. split; [by apply (store_ref _ _ _ _ _ Hs)|done].
      * by apply (ValueBudget.diff_bytes_limit _ _ _ _ _ Hn0).
    + intros i Hi. by rewrite !lookup_delete_ne.
  - intros Hex. apply (perform_exhausted E st (ORemove id) Hex). by eexists.
  - by eexists.
Qed.

(** ** The loop *)

Lemma plan_step_ok g ops st E im ri op :
  plannable g → plan_inv g ops st E im ri →
  outcome (λ st', ∃ E' im' ri', plan_inv g (ops ++ [op]) st' E' im' ri') (fails E st op)
    (plan_step g st op).
Proof.
  intros Hi Hp. unfold plan_step. destruct (target op) as [id|e] eqn:Ht; cbn [map_err].
  2: { destruct op as [row| |]; [|done..]. cbn. unfold fails, perform, GraphSpec.add.
       unfold target, HDict.get in Ht. destruct (row !! "id") as [[]|]; try done; injection Ht as <-; by eapply fails_same. }
  apply outcome_try. intros b _.
  case_decide as Hseen; [done|].
  match goal with |- outcome _ _ (match ?x with _ => _ end) => destruct x as [b1|e] eqn:Hb end.
  2: { destruct (entities g !! id) as [row|]; [|done].
       destruct (ValueBudget.dict b row 1); [done|]. by injection Hb as <-. }
  assert (Hop : planned_ok g ops st E op id b1).
  { destruct op as [row|id' changes|id']; cbn in Ht.
    - unfold HDict.get in Ht. on_ok (row !! "id") as [k|] Hid. destruct k; try done.
      injection Ht as <-. by eapply plan_add_ok.
    - injection Ht as ->. by eapply plan_patch_ok.
    - injection Ht as ->. by eapply plan_remove_ok. }
  eapply outcome_bind; [exact Hop|]. intros [[pl ids] b2] Hlog.
  eapply outcome_bind; [exact Hlog|]. intros [[rev diffs] b3] Hex. exact Hex.
Qed.

Lemma plan_steps_ok g ops0 ops st E im ri :
  plannable g → plan_inv g ops0 st E im ri →
  outcome (λ st', ∃ E' im' ri', plan_inv g (ops0 ++ ops) st' E' im' ri')
    (λ e, ∃ e', try_fold perform (abs g) (ops0 ++ ops) = Err e' ∧ reported e e') (plan_steps g st ops).
Proof.
  intros Hi. revert ops0 st E im ri.
  induction ops as [|op ops IH]; intros ops0 st E im ri Hp; cbn [plan_steps].
  { rewrite app_nil_r. cbn. eauto. }
  pose proof (plan_step_ok g ops0 st E im ri op Hi Hp) as Hst.
  destruct (plan_step g st op) as [[st1|[]]|]; cbn in *; try done.
  - destruct Hst as (E' & im' & ri' & Hp'). specialize (IH _ _ _ _ _ Hp').
    by rewrite <-app_assoc in IH.
  - destruct Hst as (e' & He & Hrep). exists e'. split; [|done]. rewrite try_fold_app, (pi_spec _ _ _ _ _ _ Hp).
    cbn [try_fold]. by rewrite He.
Qed.

(** The rest of [prepare_batch] only fails on its limits. *)
Definition only_limit {A} (r : result BatchError A) : Prop :=
  match r with Ok _ => True | Err e => e = BLimit end.

Lemma only_limit_bind {A B} (r : result BatchError A) (k : A → result BatchError B) :
  only_limit r → (∀ a, only_limit (k a)) → only_limit (let? a := r in k a).
Proof. destruct r; cbn; auto. Qed.
Lemma only_limit_limited {A} (r : result unit A) : only_limit (limited r).
Proof. by destruct r. Qed.
Lemma only_limit_growth n cap adds work bytes b :
  only_limit (PreparedBatch.charge_growth n cap adds work bytes b).
Proof. unfold PreparedBatch.charge_growth. case_decide; [apply only_limit_limited|done]. Qed.
Lemma only_limit_evictions cap bcap count retained log b :
  only_limit (charge_evictions cap bcap count retained log b).
Proof.
  revert count retained b. induction log as [|d log IH]; intros count ret b; cbn; [done|].
  case_decide; [done|]. apply only_limit_bind; [apply only_limit_limited|]. intros. apply IH.
Qed.

Lemma finish_limits sz caps g st : only_limit (finish sz caps g st).
Proof.
  unfold finish. apply only_limit_bind; [by destruct (checked_bytes _)|]. intros bytes.
  case_decide; [done|]. apply only_limit_bind.
  { unfold charge_collections.
    repeat (apply only_limit_bind; [apply only_limit_growth|intros ?]). apply only_limit_growth. }
  intros b. apply only_limit_bind; [apply only_limit_limited|]. intros [[[tags adj] values] b1].
  apply only_limit_bind; [apply only_limit_evictions|done].
Qed.

(** [prepare_batch] returns; a plan comes from the loop's invariant, and an
    entity error is the one the operations would meet one by one. *)
Lemma prepare_outcome sz caps g v ops limits :
  plannable g →
  outcome (λ p, v = version g ∧ ∃ st E im ri, plan_inv g ops st E im ri ∧ finish sz caps g st = Ok p)
    (λ e, ∃ e', try_fold perform (abs g) ops = Err e' ∧ reported e e') (prepare_batch sz caps g v ops limits).
Proof.
  intros Hi. unfold prepare_batch. case_decide as Hv; [done|]. case_decide; [done|].
  case_decide; [done|].
  destruct (plan_buffer_bytes sz (len ops)) as [buffers|e] eqn:Hb.
  2: { assert (e = BLimit) as ->; [|done]. revert Hb. unfold plan_buffer_bytes. cbn [try_fold].
    repeat (destruct (layout_array _ _); cbn [ok_or]; [|congruence];
            destruct (checked_add _ _ _); cbn [ok_or]; [|congruence]). done. }
  apply outcome_try. intros b _.
  eapply outcome_bind; [exact (plan_steps_ok g [] ops _ _ _ _ Hi (plan_start g b Hi))|].
  intros st (E & im & ri & Hp). pose proof (finish_limits sz caps g st) as Hf.
  destruct (finish sz caps g st) as [p|e] eqn:Hfin; cbn in *; [|by subst].
  split; [by destruct (decide (v = version g))|]. by exists st, E, im, ri.
Qed.

(** ** Publication *)

(** The same rows, ids, log and registered fields; the value index may have
    been rebuilt, and the catalog and the caches may differ. *)
Record same_rows g0 g : Prop := {
  same_entities : entities g = entities g0;
  same_id_map : id_map g = id_map g0;
  same_reverse : reverse_id g = reverse_id g0;
  same_next : next_id g = next_id g0;
  same_free : free_ids g = free_ids g0;
  same_tags : tag_index g = tag_index g0;
  same_adjacency : adjacency g = adjacency g0;
  same_version : version g = version g0;
  same_log : changelog g = changelog g0;
  same_fields f :
    is_Some (ValueIndex.indexes (value_index g0) !! f)
    ↔ is_Some (ValueIndex.indexes (value_index g) !! f);
  same_buckets f k :
    ValueIndex.bucket (value_index g0) f k ≡ₚ ValueIndex.bucket (value_index g) f k;
  same_nonempty f tr k :
    ValueIndex.indexes (value_index g0) !! f = Some tr → tr !! k ≠ Some []
}.

Lemma same_rows_models g0 g rs :
  same_rows g0 g → ValueIndex.models (value_index g) rs → ValueIndex.models (value_index g0) rs.
Proof.
  intros Hsame [Hb Hnd Hne]. split.
  - intros f k id Hf. rewrite (same_buckets _ _ Hsame). apply Hb. by apply (same_fields _ _ Hsame).
  - intros f k. rewrite (same_buckets _ _ Hsame). apply Hnd.
  - apply (same_nonempty _ _ Hsame).
Qed.

Lemma same_rows_plannable g0 g : same_rows g0 g → inv g → plannable g0.
Proof.
  intros Hsame Hi. destruct Hsame as [He Hid Hr Hn Hf _ _ Hv Hl _ _ _].
  split; rewrite <-?He, <-?Hid, <-?Hr, <-?Hn, <-?Hf, <-?Hv, <-?Hl; apply Hi.
Qed.

Lemma publish_change_transfer g g' c E im ri h :
  publish_change (with_store g E im ri) c = Some h →
  ∃ E' im' ri', h = with_store g E' im' ri' ∧
    publish_change (with_store g' E im ri) c = Some (with_store g' E' im' ri').
Proof.
  unfold publish_change. destruct (pc_changed c); cbn [negb].
  2: { intros [= <-]. eauto. }
  destruct (pc_op c); cbn [with_store].
  - destruct (pc_map_keys c) as [[k1 k2]|]; cbn [mbind option_bind]; [|done].
    destruct (pc_after c); cbn [option_bind]; [|done]. intros [= <-].
    eexists _, _, _. split; [reflexivity|reflexivity].
  - destruct (pc_after c); cbn [mbind option_bind]; [|done]. intros [= <-].
    eexists _, _, _. split; [reflexivity|reflexivity].
  - intros [= <-]. eexists _, _, _. split; [reflexivity|reflexivity].
Qed.

Lemma publish_transfer g g' cs E im ri E' im' ri' :
  publish_changes (with_store g E im ri) cs = Some (with_store g E' im' ri') →
  publish_changes (with_store g' E im ri) cs = Some (with_store g' E' im' ri').
Proof.
  revert E im ri. induction cs as [|c cs IH]; intros E im ri; cbn [publish_changes].
  - intros Heq. injection Heq as -> -> ->. done.
  - intros (h & Hc & Hcs)%bind_Some.
    destruct (publish_change_transfer g g' c E im ri h Hc) as (E1 & im1 & ri1 & -> & ->).
    cbn [mbind option_bind]. by apply IH.
Qed.

Lemma checked_bytes_total diffs n : checked_bytes diffs = Some n → n = total_bytes diffs.
Proof.
  unfold checked_bytes. assert (Hgen : ∀ acc, foldl (λ acc d, acc ≫= λ n,
    checked_add usize_max n (retained_bytes d)) (Some acc) diffs = Some n →
    n = (acc + total_bytes diffs)%N).
  { induction diffs as [|d diffs IH]; intros acc; cbn [foldl total_bytes foldr].
    - intros [= <-]. lia.
    - cbn [mbind option_bind]. destruct (checked_add _ acc _) as [acc'|] eqn:Ha.
      + apply checked_add_Some in Ha as [-> _]. intros ->%IH. unfold total_bytes. lia.
      + intros Hn. exfalso. revert Hn. clear. induction diffs; cbn; [done|auto]. }
  intros H%Hgen. lia.
Qed.

(** The diffs of a plan form one complete unit. *)
Lemma share_span_unit v rev diffs :
  ChangeLog.contiguous v diffs → rev = (v + len diffs)%N → diffs ≠ [] →
  ChangeLog.complete_unit (share_span rev diffs) ∧ ChangeLog.contiguous v (share_span rev diffs) ∧
  total_bytes (share_span rev diffs) = total_bytes diffs.
Proof.
  intros Hc -> Hne. destruct diffs as [|first rest]; [done|]. clear Hne.
  assert (Hf : Changelog.version first = (v + 1)%N).
  { rewrite (ChangeLog.contiguous_version v _ 0 first Hc) by done. lia. }
  unfold share_span. rewrite Hf. set (l := first :: rest) in *.
  set (s := mkSpan (v + 1) (v + len l)).
  assert (Hvs : Changelog.version <$> (set_span s <$> l) = Changelog.version <$> l).
  { rewrite <-list_fmap_compose. apply list_fmap_ext. by intros i d. }
  assert (Hlen : (1 ≤ len l)%N) by (unfold l; len_lia).
  split; [|split].
  - exists s. cbn [span_first span_last s]. split; [lia|]. split.
    + apply Forall_fmap, Forall_true. by intros d.
    + rewrite Hvs, Hc. f_equal. lia.
  - unfold ChangeLog.contiguous. by rewrite Hvs, len_fmap, Hc.
  - clearbody s. clearbody l. clear. induction l as [|d l IH]; [done|].
    change (retained_bytes d + total_bytes (set_span s <$> l)
            = retained_bytes d + total_bytes l)%N. by rewrite IH.
Qed.

Lemma share_span_replay rev diffs m :
  foldl apply_diff m (share_span rev diffs) = foldl apply_diff m diffs.
Proof.
  destruct diffs as [|first rest]; [done|]. unfold share_span.
  generalize (mkSpan (Changelog.version first) rev) as s. intros s. generalize (first :: rest) as l.
  intros l. revert m. induction l as [|d l IH]; intros m; [done|]. cbn. apply IH.
Qed.

Lemma timestamps_replay now diffs m :
  foldl apply_diff m (set_timestamp now <$> diffs) = foldl apply_diff m diffs.
Proof. revert m. induction diffs as [|d l IH]; intros m; [done|]. cbn. apply IH. Qed.

Lemma share_span_ok rev diffs : Forall diff_ok diffs → Forall diff_ok (share_span rev diffs).
Proof.
  intros Hall. destruct diffs as [|first rest]; [done|]. unfold share_span.
  apply Forall_fmap. eapply Forall_impl; [exact Hall|]. intros d [Hs Hb]. by split.
Qed.
Lemma share_span_len rev diffs : len (share_span rev diffs) = len diffs.
Proof. destruct diffs; [done|]. unfold share_span. apply len_fmap. Qed.

Lemma grow_cache_inv g : inv g → inv (grow_cache g).
Proof. by intros [Hs Hx Hv Hl Hc Hb Hd Hq Hast]; split. Qed.

(** What a finished plan holds. *)
Lemma finish_plan sz caps g st p :
  finish sz caps g st = Ok p →
  (len (pl_diffs st) ≤ ChangeLog.capacity (changelog g))%N ∧
  (total_bytes (pl_diffs st) ≤ ChangeLog.byte_capacity (changelog g))%N ∧
  (∃ b b1 b2 b3 n tags adj vals, let cs := index_changes (pl_changes st) in
    PreparedTags.prepare_changes (cap_bitmaps caps) (tag_index g) cs b = Ok (tags, b1) ∧
    PreparedAdjacency.prepare_changes (cap_forward caps) (cap_reverse caps) (adjacency g) cs b1
      = Ok adj ∧
    PreparedValues.prepare_changes (value_index g) cs b2 = Ok (vals, b3) ∧
    p = PreparedBatch.mk (state g) (index_generation g) (pl_revision st) n (pl_changes st)
          (share_span (pl_revision st) (pl_diffs st)) tags adj vals
          (consumed (pl_ids st)) (freed (pl_ids st)) (next (pl_ids st))).
Proof.
  unfold finish. destruct (checked_bytes (pl_diffs st)) as [bytes|] eqn:Hb; cbn [ok_or]; [|done].
  apply checked_bytes_total in Hb as ->. case_decide as Hlim; [done|].
  destruct (charge_collections _ _ _ _ _ _ _) as [b|]; [|done]. unfold prepare_indexes.
  destruct (PreparedTags.prepare_changes _ _ _ b) as [[tags b1]|] eqn:Ht; cbn [limited map_err]; [|done].
  destruct (PreparedAdjacency.prepare_changes _ _ _ _ b1) as [adj|] eqn:Ha; cbn [map_err]; [|done].
  destruct (PreparedValues.prepare_changes _ _ _) as [[vals b3]|] eqn:Hv; cbn [map_err]; [|done].
  cbn [limited map_err].
  destruct (charge_evictions _ _ _ _ _ _) as [b4|]; [|done]. intros [= <-].
  split; [lia|]. split; [lia|]. by exists b, b1, (PreparedAdjacency.budget adj), b3,
    (ValueBudget.used_bytes b4), tags, adj, vals.
Qed.

(** A plan without changes publishes nothing. *)
Lemma prepare_nothing sz caps g st p :
  finish sz caps g st = Ok p → index_changes (pl_changes st) = [] →
  PreparedTags.apply_prepared (tag_index g) (tags p) = tag_index g ∧
  PreparedAdjacency.apply_prepared (adjacency g) (PreparedBatch.adjacency p) = adjacency g ∧
  ∀ vi, PreparedValues.apply_prepared vi (values p) = Some vi.
Proof.
  assert (Hnil : ∀ K A `{Countable K}, hash_iter (∅ : gmap K A) = []).
  { intros K A ? ?. apply Permutation_nil. rewrite hash_iter_perm. by rewrite map_to_list_empty. }
  intros Hf Hcs.
  destruct (finish_plan _ _ _ _ _ Hf) 
    as (_ & _ & b & b1 & b2 & b3 & n & tags & adj & vals & Ht & Ha & Hv & ->).
  rewrite Hcs in *. cbn [PreparedBatch.tags PreparedBatch.adjacency PreparedBatch.values].
  unfold PreparedTags.prepare_changes in Ht. cbn [try_fold] in Ht.
  assert (tags = ∅) as ->.
  { revert Ht. case_decide; [destruct (charge _ _ b)|]; intros; congruence. }
  unfold PreparedAdjacency.prepare_changes in Ha. cbn [try_fold] in Ha.
  destruct (PreparedAdjacency.charge_growth _ _ _ _); [|done].
  destruct (PreparedAdjacency.charge_growth _ _ _ _); [|done]. injection Ha as <-.
  unfold PreparedValues.prepare_changes in Hv. destruct (charge _ _ b2); [|done].
  cbn [try_fold] in Hv. injection Hv as <- _.
  unfold PreparedTags.apply_prepared, PreparedAdjacency.apply_prepared, PreparedValues.apply_prepared.
  cbn [PreparedAdjacency.forward PreparedAdjacency.reverse].
  rewrite !Hnil, map_to_list_empty. cbn [foldl]. split; [by destruct (tag_index g)|].
  split; [by destruct (adjacency g)|done].
Qed.

Lemma publish_store g0 g ops st E im ri :
  same_rows g0 g → plan_inv g0 ops st E im ri →
  publish_changes g (pl_changes st) = Some (with_store g E im ri).
Proof.
  intros Hsame Hp. pose proof (pi_publish _ _ _ _ _ _ Hp) as Hpub.
  rewrite <-(with_store_id g0) in Hpub at 1. apply (publish_transfer g0 g) in Hpub.
  rewrite <-(same_entities _ _ Hsame), <-(same_id_map _ _ Hsame), <-(same_reverse _ _ Hsame),
    with_store_id in Hpub. done.
Qed.

(** The unit of a plan is appended to the log. *)
Lemma publish_log now sz caps g0 g ops st E im ri p :
  inv g → same_rows g0 g → plan_inv g0 ops st E im ri → finish sz caps g0 st = Ok p →
  pl_diffs st ≠ [] →
  ∃ c, ChangeLog.append_committed_unit now (changelog g) (diffs p) = Some c ∧
    ChangeLog.wf (pl_revision st) c ∧
    ChangeLog.capacity c = ChangeLog.capacity (changelog g) ∧
    ChangeLog.byte_capacity c = ChangeLog.byte_capacity (changelog g) ∧
    (∀ d, d ∈ ChangeLog.log c → diff_ok d) ∧
    ∀ v l', (v ≤ version g)%N → ChangeLog.changes_since c v = Ok l' →
      ∃ l, ChangeLog.changes_since (changelog g) v = Ok l ∧
        l' = l ++ (set_timestamp now <$> diffs p).
Proof.
  intros Hi Hsame Hp Hf Hne.
  destruct (finish_plan _ _ _ _ _ Hf) as (Hlen & Hby & b & b1 & b2 & b3 & n & tags & adj & vals &
    _ & _ & _ & ->). cbn [diffs].
  destruct (share_span_unit (version g0) (pl_revision st) (pl_diffs st)) as (Hu & Hc & Hb);
    [apply Hp|apply Hp|done|].
  rewrite <-(same_version _ _ Hsame) in Hc. rewrite <-(same_log _ _ Hsame) in Hlen, Hby.
  destruct (ChangeLog.append_changes_since now (version g) (changelog g)
    (share_span (pl_revision st) (pl_diffs st)))
    as (c & Happ & Hwf & Hcap & Hbcap & Hin & Hread); [apply Hi|done|done| |by rewrite Hb|].
  { by rewrite share_span_len. }
  exists c. split; [done|]. split.
  { rewrite share_span_len, (same_version _ _ Hsame), <-(pi_head _ _ _ _ _ _ Hp) in Hwf. done. }
  do 2 (split; [done|]). split; [|done]. intros d [Hd|Hd]%Hin; [by apply (inv_diffs _ Hi)|].
  apply list_elem_of_fmap in Hd as (d' & -> & Hd'). apply diff_ok_timestamp.
  eapply Forall_forall; [|exact Hd']. apply share_span_ok, Hp.
Qed.

(** The indexes of a plan describe the new rows. *)
Lemma publish_indexes sz caps g0 g ops st E im ri p :
  inv g → same_rows g0 g → plan_inv g0 ops st E im ri → finish sz caps g0 st = Ok p →
  ∃ vi, PreparedValues.apply_prepared (value_index g) (values p) = Some vi ∧
    indexed (PreparedTags.apply_prepared (tag_index g) (tags p))
      (PreparedAdjacency.apply_prepared (adjacency g) (PreparedBatch.adjacency p)) vi
      (rows_of E ri).
Proof.
  intros Hi Hsame Hp Hf.
  destruct (finish_plan _ _ _ _ _ Hf) as (_ & _ & b & b1 & b2 & b3 & n & tags & adj & vals &
    Ht & Ha & Hv & ->). cbn [diffs PreparedBatch.values PreparedBatch.tags PreparedBatch.adjacency].
  destruct (inv_indexed _ Hi) as (Hti & Had & Hvi).
  assert (Hrows : rows g = rows g0).
  { unfold rows. by rewrite (same_entities _ _ Hsame), (same_reverse _ _ Hsame). }
  rewrite Hrows in *. pose proof (pi_rows_ok _ _ _ _ _ _ Hp) as Hok.
  rewrite (same_tags _ _ Hsame) in *. rewrite (same_adjacency _ _ Hsame) in *.
  destruct (PreparedValuesFacts.prepared_values_models (value_index g0) (value_index g) (rows g0)
    (index_changes (pl_changes st)) b2 vals b3) as (vi & Hvi' & Hm); try done.
  { by eapply same_rows_models. }
  { apply (same_fields _ _ Hsame). }
  exists vi. split; [done|]. rewrite (pi_rows _ _ _ _ _ _ Hp). split; [|split; [|done]].
  - by eapply PreparedTagsFacts.prepared_tags_models.
  - by eapply PreparedAdjacencyFacts.prepared_adjacency_models.
Qed.

(** The numbers of a finished plan. *)
Lemma publish_numbers sz caps g0 g ops st E im ri p :
  same_rows g0 g → plan_inv g0 ops st E im ri → finish sz caps g0 st = Ok p →
  publish_free p (free_ids g) = Some (planned_free g0 (pl_ids st)) ∧
  pl_revision st = (version g + len (diffs p))%N ∧
  after_revision p = pl_revision st ∧ PreparedBatch.next_id p = next (pl_ids st) ∧
  changes p = pl_changes st ∧ diffs p = share_span (pl_revision st) (pl_diffs st).
Proof.
  intros Hsame Hp (_ & _ & b & b1 & b2 & b3 & n & tags & adj & vals & _ & _ & _ & ->)%finish_plan.
  split_and!; try done.
  - unfold publish_free, planned_free. cbn. rewrite (same_free _ _ Hsame), decide_False; [done|].
    pose proof (pi_consumed _ _ _ _ _ _ Hp). lia.
  - cbn. by rewrite share_span_len, (same_version _ _ Hsame), (pi_head _ _ _ _ _ _ Hp).
Qed.

(** A graph that only grew its cache has no new changes. *)
Lemma grow_cache_extends g : extends_by 0 g (grow_cache g).
Proof.
  split; [cbn; lia|]. intros v l' Hv Hl'. exists l', []. split; [done|]. by rewrite app_nil_r.
Qed.

(** Publishing a plan has the effect of its operations one by one. *)
Lemma publish_ok now sz caps g0 g ops st E im ri p :
  inv g → same_rows g0 g → plan_inv g0 ops st E im ri → finish sz caps g0 st = Ok p →
  ∃ g', publish now p g = Some g' ∧ inv g' ∧ abs g' = GraphSpec.mk E (pl_revision st) ∧
    extends_by (len (diffs p)) g g' ∧ (diffs p = [] → g' = grow_cache g).
Proof.
  intros Hi Hsame Hp Hf. pose proof (publish_store _ _ _ _ _ _ _ Hsame Hp) as Hpub.
  destruct (publish_indexes _ _ _ _ _ _ _ _ _ _ Hi Hsame Hp Hf) as (vi & Hvi & Hx).
  destruct (publish_numbers _ _ _ _ _ _ _ _ _ _ Hsame Hp Hf) as (Hfree & Hhead & Hrev & Hnext & Hcs & Hds).
  unfold publish. rewrite Hcs, Hpub. cbn [mbind option_bind].
  cbn [with_store set_entities set_ids free_ids value_index].
  rewrite Hfree. cbn [mbind option_bind]. rewrite Hvi. cbn [mbind option_bind]. cbv zeta.
  rewrite Hrev, Hnext. destruct (decide (pl_diffs st = [])) as [Hnil|Hne].
  - assert (diffs p = []) as Hd by by rewrite Hds, Hnil.
    rewrite Hd in *. rewrite decide_True by done. cbn [mbind option_bind].
    destruct (pi_quiet _ _ _ _ _ _ Hp Hnil) as (-> & -> & -> & Hids & Hics).
    destruct (prepare_nothing _ _ _ _ _ Hf Hics) as (Hti & Had & Hnone).
    rewrite Hnone in Hvi. injection Hvi as <-. rewrite len_nil, N.add_0_r in Hhead.
    exists (grow_cache g). split.
    { f_equal. cbn in Hti, Had |- *. rewrite Hids, Hhead. unfold planned_free. cbn.
      rewrite (same_tags _ _ Hsame), (same_adjacency _ _ Hsame), Hti, Had. destruct Hsame as [He Hid Hr Hn Hfr Ht Ha _ _ _ _ _].
      rewrite <-He, <-Hid, <-Hr, <-Hn, <-Hfr, <-Ht, <-Ha. by destruct g. }
    split; [by apply grow_cache_inv|].
    split; [unfold abs; cbn; by rewrite Hhead, (same_entities _ _ Hsame)|].
    split; [apply grow_cache_extends|done].
  - assert (Hlt : (1 ≤ len (diffs p))%N).
    { rewrite Hds, share_span_len. destruct (pl_diffs st); [done|len_lia]. }
    rewrite decide_False by (intros Hd; rewrite Hd in Hlt; len_lia).
    destruct (publish_log now _ _ _ _ _ _ _ _ _ _ Hi Hsame Hp Hf Hne)
      as (c & Happ & Hwf & Hcap & Hbcap & Hstamp & Hread).
    change (ChangeLog.append_committed_unit now _ (diffs p))
      with (ChangeLog.append_committed_unit now (changelog g) (diffs p)). rewrite Happ. cbn [mbind option_bind].
    eexists. split; [done|]. split; [|split; [done|]].
    + apply (commit_inv_gt g); cbn; try done; [apply Hp|lia|apply Hp].
    + split; [|intros Hd; rewrite Hd in Hlt; len_lia]. split; [cbn; lia|]. cbn. intros v l' Hv Hl'.
      destruct (Hread v l' Hv Hl') as (l & Hl & ->). eexists l, _. split; [done|]. split; [done|].
      rewrite len_fmap. split; [done|]. rewrite timestamps_replay, (same_entities _ _ Hsame), Hds.
      by rewrite share_span_replay, (pi_replay _ _ _ _ _ _ Hp).
Qed.

(** ** Prepare and apply *)

Lemma prepared_state sz caps g v ops limits p :
  plannable g → prepare_batch sz caps g v ops limits = Some (Ok p) →
  PreparedBatch.state p = state g ∧ PreparedBatch.index_generation p = index_generation g.
Proof.
  intros Hi Hprep. pose proof (prepare_outcome sz caps g v ops limits Hi) as Ho.
  rewrite Hprep in Ho. destruct Ho as (_ & st & E & im & ri & _ & Hf).
  destruct (finish_plan _ _ _ _ _ Hf) as (_ & _ & b & b1 & b2 & b3 & n & tags & adj & vals &
    _ & _ & _ & ->). done.
Qed.

(** A plan of [g0] applied to a graph with the same rows: refused with the
    graph unchanged, or the operations done one by one, logged as a unit. *)
Lemma apply_spec now reserved sz caps g0 g v ops limits p :
  inv g → same_rows g0 g → prepare_batch sz caps g0 v ops limits = Some (Ok p) →
  ∃ g' r, apply_prepared now reserved g p = Some (g', r) ∧ inv g' ∧
    match r with
    | Ok s => s = span_of p ∧ try_fold perform (abs g) ops = Ok (abs g') ∧
        extends_by (len (diffs p)) g g' ∧ (diffs p = [] → g' = grow_cache g)
    | Err _ => g' = g
    end.
Proof.
  intros Hi Hsame Hprep. pose proof (same_rows_plannable _ _ Hsame Hi) as Hpl.
  pose proof (prepare_outcome sz caps g0 v ops limits Hpl) as Ho. rewrite Hprep in Ho.
  destruct Ho as (_ & st & E & im & ri & Hp & Hf). unfold apply_prepared.
  destruct (_ || _); [by eexists g, _|]. destruct reserved; cbn [negb]; [|by eexists g, _].
  destruct (publish_ok now sz caps g0 g ops st E im ri p Hi Hsame Hp Hf)
    as (g' & Hpub & Hi' & Habs & Hext & Hquiet).
  rewrite Hpub. cbn [mbind option_bind]. eexists g', _. split; [done|]. split; [done|].
  split; [done|]. rewrite Habs. split; [|done]. rewrite <-(pi_spec _ _ _ _ _ _ Hp).
  unfold abs. by rewrite (same_entities _ _ Hsame), (same_version _ _ Hsame).
Qed.

(** A plan of another revision, catalog, incarnation or registration is
    refused. *)
Lemma apply_stale now reserved sz caps g0 g v ops limits p :
  plannable g0 → prepare_batch sz caps g0 v ops limits = Some (Ok p) →
  state g ≠ state g0 ∨ index_generation g ≠ index_generation g0 →
  apply_prepared now reserved g p = Some (g, Err BConflict).
Proof.
  intros Hpl Hprep Hst. destruct (prepared_state _ _ _ _ _ _ _ Hpl Hprep) as [Hs Hg].
  unfold apply_prepared. rewrite Hs, Hg. destruct Hst as [Hst|Hst].
  - by rewrite bool_decide_eq_true_2.
  - by rewrite (bool_decide_eq_true_2 (_ ≠ index_generation g0)), orb_true_r.
Qed.

Lemma same_rows_refl g : inv g → same_rows g g.
Proof.
  intros Hi. split; try done. destruct (inv_indexed _ Hi) as (_ & _ & Hv).
  apply (ValueIndex.models_bucket_ne _ _ Hv).
Qed.

Lemma inv_plannable g : inv g → plannable g.
Proof. intros Hi. eapply same_rows_plannable; [by apply same_rows_refl|done]. Qed.
End batch.
End BatchFacts.
