(* ===== verification/Recovery.v ===== *)
(** * Capture and restoration of graph images

    [haystack-core/src/graph/recovery.rs]: [image] captures the entities and
    the retained changes of a graph under limits, and [restore] rebuilds a
    graph from an image, checking every change it accepts.  A restored graph
    satisfies the invariant whatever the image held; an image of a graph is
    restored to the same entities, state and log. *)

From S2P Require Import Prelude Floats Kinds Size Extern Bitmap Adjacency ValueIndex Filter Changelog Graph GraphInv.

(** [RecoveryLimits]. *)
Record RecoveryLimits : Type := mkRecoveryLimits {
  lim_rows : N; lim_changes : N; lim_bytes : N; lim_work : N }.

Inductive RecoveryError : Type := RInvalid | RLimit.

(** [RecoveryChange]. *)
Record RecoveryChange : Type := mkChange {
  rc_version : N;
  rc_span : CommitSpan;
  rc_timestamp : Z;
  rc_op : DiffOp;
  rc_id : string;
  rc_old : option HDict;
  rc_new : option HDict;
  rc_changed : option HDict;
  rc_previous : option HDict
}.

(** [From<&GraphDiff> for RecoveryChange]. *)
Definition change_from (d : GraphDiff) : RecoveryChange :=
  mkChange (version d) (span d) (timestamp d) (diff_op d) (diff_ref d)
    (diff_old d) (diff_new d) (changed_tags d) (previous_tags d).

(** [GraphImage]. *)
Record GraphImage : Type := mkImage {
  img_state : GraphState; img_rows : list HDict; img_floor : N; img_changes : list RecoveryChange }.

(** [RecoveryLimits::validate]. *)
Definition validate_limits (l : RecoveryLimits) : result RecoveryError unit :=
  if bool_decide (lim_rows l = 0%N) || bool_decide (100000 < lim_rows l)%N
     || bool_decide (lim_changes l = 0%N) || bool_decide (100000 < lim_changes l)%N
     || bool_decide (lim_bytes l = 0%N) || bool_decide (256 * 1024 * 1024 < lim_bytes l)%N
     || bool_decide (lim_work l = 0%N) || bool_decide (64000000 < lim_work l)%N
  then Err RLimit else Ok ().

(** [RecoveryLimits::budget]. *)
Definition recovery_budget (l : RecoveryLimits) : ValueBudget.t :=
  ValueBudget.new (lim_work l) (lim_bytes l) 64.

Section changes.
Context `{HashOrder}.

(** The row's [id] is a [Ref] of the given value. *)
Definition row_has_id (row : option HDict) (id : string) : bool :=
  match row with
  | Some row => match HDict.id row with Some r => bool_decide (ref_val r = id) | None => false end
  | None => false
  end.
Definition absent {A} (o : option A) : bool := match o with None => true | Some _ => false end.

(** The shape of a change, by its operation. *)
Definition change_valid (c : RecoveryChange) : bool :=
  match rc_op c with
  | DAdd => row_has_id (rc_new c) (rc_id c) && absent (rc_old c)
              && absent (rc_changed c) && absent (rc_previous c)
  | DRemove => row_has_id (rc_old c) (rc_id c) && absent (rc_new c)
              && absent (rc_changed c) && absent (rc_previous c)
  | DUpdate => absent (rc_new c) && absent (rc_old c)
              && negb (absent (rc_changed c)) && negb (absent (rc_previous c))
  end.

(** [RecoveryChange::into_diff]. *)
Definition into_diff (c : RecoveryChange) (limit : N) : result RecoveryError GraphDiff :=
  if negb (change_valid c) || bool_decide (rc_id c = "") || bool_decide (4096 < str_len (rc_id c))%N
  then Err RInvalid
  else
    let? bytes := ok_or (ValueBudget.diff_bytes (rc_id c)
                    (omap id [rc_old c; rc_new c; rc_changed c; rc_previous c]) limit) RLimit in
    Ok (mkDiff (rc_version c) (rc_span c) bytes (rc_timestamp c) (rc_op c) (rc_id c)
          (rc_old c) (rc_new c) (rc_changed c) (rc_previous c)).

(** The loop state of [restore] over the changes. *)
Record replay_state : Type := mkReplay {
  rs_budget : ValueBudget.t;
  rs_log : list GraphDiff;
  rs_bytes : N;
  rs_previous : N;
  rs_span : option CommitSpan
}.

(** The unit a change must belong to: a new one, or the one being read. *)
Definition check_span (revision : N) (span : option CommitSpan) (c : RecoveryChange)
    : result RecoveryError CommitSpan :=
  match span with
  | None =>
      if bool_decide (span_first (rc_span c) ≠ rc_version c)
         || bool_decide (span_last (rc_span c) < rc_version c)%N
         || bool_decide (revision < span_last (rc_span c))%N
      then Err RInvalid else Ok (rc_span c)
  | Some unit => if bool_decide (unit ≠ rc_span c) then Err RInvalid else Ok unit
  end.

Definition replay_change (limits : RecoveryLimits) (revision : N) (st : replay_state)
    (c : RecoveryChange) : result RecoveryError replay_state :=
  if decide (checked_add u64_max (rs_previous st) 1 ≠ Some (rc_version c)) then Err RInvalid
  else
    let? unit := check_span revision (rs_span st) c in
    let span := if decide (rc_version c = span_last (rc_span c)) then None else Some unit in
    let? diff := into_diff c (lim_bytes limits) in
    let? budget := map_err (λ _, RLimit) (ValueBudget.charge 1 (retained_bytes diff) (rs_budget st)) in
    let? bytes := ok_or (checked_add usize_max (rs_bytes st) (retained_bytes diff)) RLimit in
    Ok (mkReplay budget (rs_log st ++ [diff]) bytes (rc_version c) span).
End changes.

Module Recovery.
Import EntityGraph.

Section model.
Context `{HashOrder, Roaring, CacheMap, Catalog}.

(** Charging rows to a budget. *)
Definition charge_rows (b : ValueBudget.t) (rows : list HDict) : result RecoveryError ValueBudget.t :=
  map_err (λ _, RLimit) (try_fold (λ b row, ValueBudget.dict b row 0) b rows).

(** [EntityGraph::image]. *)
Definition image (g : t) (limits : RecoveryLimits) : result RecoveryError GraphImage :=
  let? _ := validate_limits limits in
  if bool_decide (lim_rows limits < N.of_nat (size (entities g)))%N
     || bool_decide (lim_changes limits < len (ChangeLog.log (changelog g)))%N
  then Err RLimit
  else
    let rows := (btree_iter (entities g)).*2 in
    let? b := charge_rows (recovery_budget limits) rows in
    let? _ := map_err (λ _, RLimit)
                (try_fold (λ b d, ValueBudget.charge 1 (retained_bytes d) b) b
                   (ChangeLog.log (changelog g))) in
    Ok (mkImage (state g) rows (ChangeLog.floor (changelog g))
          (change_from <$> ChangeLog.log (changelog g))).

(** One row of [restore]. *)
Definition restore_row (now : Z) (acc : option (result RecoveryError t)) (row : HDict)
    : option (result RecoveryError t) :=
  acc ← acc;
  match acc with
  | Err e => Some (Err e)
  | Ok g =>
      '(g, r) ← add now g row;
      Some (match r with Ok _ => Ok g | Err _ => Err RInvalid end)
  end.

(** The fields [restore] installs on the graph loaded from the rows. *)
Definition install (limits : RecoveryLimits) (image : GraphImage) (st : replay_state) (g : t) : t :=
  mk (entities g) (id_map g) (reverse_id g) (next_id g) (free_ids g) (tag_index g) (adjacency g)
     (namespace g) (activated g) (state_catalog (img_state image))
     (state_incarnation (img_state image)) (state_revision (img_state image))
     (ChangeLog.mk (rs_log st) (lim_changes limits) (lim_bytes limits) (rs_bytes st)
        (img_floor image))
     (QueryCache.clear (query_cache g)) (ast_cache g) (value_index g) (index_generation g).

(** The checks of [restore], up to the loading of the rows. *)
Definition check_image (limits : RecoveryLimits) (image : GraphImage)
    : result RecoveryError replay_state :=
  let? _ := validate_limits limits in
  if bool_decide (lim_rows limits < len (img_rows image))%N
     || bool_decide (lim_changes limits < len (img_changes image))%N
  then Err RLimit
  else if bool_decide (state_incarnation (img_state image) = replicate 16 Byte.x00)
     || bool_decide (state_catalog (img_state image) = 0%N)
     || bool_decide (state_revision (img_state image) < img_floor image)%N
  then Err RInvalid
  else
    let? b := charge_rows (recovery_budget limits) (img_rows image) in
    let? st := try_fold (replay_change limits (state_revision (img_state image)))
                 (mkReplay b [] 0 (img_floor image) None) (img_changes image) in
    if bool_decide (rs_previous st ≠ state_revision (img_state image))
       || bool_decide (is_Some (rs_span st))
    then Err RInvalid else Ok st.

(** [EntityGraph::restore]; [inc] is the random incarnation of the graph the
    rows are loaded into, replaced at the end. *)
Definition restore (now : Z) (inc : list Byte.byte) (image : GraphImage)
    (catalog : Arc ActivatedCatalog) (limits : RecoveryLimits) : option (result RecoveryError t) :=
  match check_image limits image with
  | Err e => Some (Err e)
  | Ok st =>
      let g := with_changelog_limits inc 1 1 in
      let g := set_catalog (Some (catalog_namespace (arc_val catalog))) (Some catalog)
                 (catalog_generation g) (query_cache g) g in
      r ← foldl (restore_row now) (Some (Ok g)) (img_rows image);
      Some (match r with Ok g => Ok (install limits image st g) | Err e => Err e end)
  end.
End model.
End Recovery.
