(* ===== verification/Query.v ===== *)
(** * Queries over the entity graph

    The read side of [haystack-core/src/graph/entity_graph.rs]: candidate
    bitmaps, [read_all] with its two caches, grids, reference traversal,
    validation and the hierarchy tree.  [read_all] takes and returns the
    graph, since it fills the caches behind the two mutexes. *)

From S2P Require Import Prelude Floats Kinds Extern Bitmap Adjacency ValueIndex Filter Changelog Graph.

(** [id as u32]. *)
Definition as_u32 (n : N) : N := (n `mod` 2 ^ 32)%N.

(** A loop that pushes the items it accepts until [limit] of them are
    collected. *)
Fixpoint collect_limited {A B} (limit : N) (f : A → option B) (l : list A) (results : list B)
    : list B :=
  match l with
  | [] => results
  | a :: l =>
      if decide (limit ≤ len results)%N then results
      else match f a with
           | Some b => collect_limited limit f l (results ++ [b])
           | None => collect_limited limit f l results
           end
  end.

(** [HierarchyNode]. *)
Inductive HierarchyNode : Type :=
| mkNode (node_entity : HDict) (node_children : list HierarchyNode) (node_depth : N).

Module GraphQuery.
Import EntityGraph.

Section model.
Context `{HashOrder, Roaring, CacheMap, Catalog, FilterSyntax}.

(** ** Candidates *)

Definition bitmap_of_ids (ids : list N) : RoaringBitmap :=
  foldl (λ bm id, rb_insert (as_u32 id) bm) rb_new ids.

(** The value-index lookup a comparison allows. *)
Definition cmp_ids (value_index : ValueIndex.t) (field : string) (op : CmpOp) (val : Kind)
    : option (list N) :=
  match op, val with
  | CEq, (KNumber _ | KStr _) => Some (ValueIndex.eq_lookup value_index field val)
  | _, (KNumber _ | KStr _) =>
      if match val with KNumber n => F64.is_zero (num_val n) | _ => false end then None
      else match op with
           | CLt => Some (ValueIndex.lt_lookup value_index field val)
           | CLe => Some (ValueIndex.le_lookup value_index field val)
           | CGt => Some (ValueIndex.gt_lookup value_index field val)
           | CGe => Some (ValueIndex.ge_lookup value_index field val)
           | _ => None
           end
  | _, _ => None
  end.

(** [bitmap_candidates]. *)
Fixpoint bitmap_candidates (ast : FilterNode) (tag_index : TagBitmapIndex.t)
    (value_index : ValueIndex.t) (universe : RoaringBitmap) : option RoaringBitmap :=
  match ast with
  | Has [tag] => TagBitmapIndex.has_tag tag_index tag
  | Missing [tag] =>
      (λ bm, TagBitmapIndex.negate bm universe) <$> TagBitmapIndex.has_tag tag_index tag
  | Cmp [field] op val =>
      if ValueIndex.has_index value_index field
      then bitmap_of_ids <$> cmp_ids value_index field op val
      else None
  | Has _ | Missing _ | Cmp _ _ _ => None
  | And lhs rhs =>
      let l := bitmap_candidates lhs tag_index value_index universe in
      let r := bitmap_candidates rhs tag_index value_index universe in
      match l, r with
      | Some a, Some b => Some (rb_and a b)
      | Some a, None => Some a
      | None, Some b => Some b
      | None, None => None
      end
  | Or lhs rhs =>
      let l := bitmap_candidates lhs tag_index value_index universe in
      let r := bitmap_candidates rhs tag_index value_index universe in
      match l, r with
      | Some a, Some b => Some (rb_or a b)
      | _, _ => None
      end
  | SpecMatch _ => None
  end.

(** ** Reading *)

(** [EntityGraph::reject_unresolved_specs]. *)
Definition unresolved_message (unresolved : list string) (has_namespace : bool) : string :=
  if has_namespace then
    "filter names " +:+ (if bool_decide (length unresolved = 1) then "a spec" else "specs") +:+
    " that this graph's namespace does not define: " +:+ join ", " unresolved
  else
    "filter contains spec-match terms (" +:+ join ", " unresolved +:+
    ") but this graph has no namespace: build it with EntityGraph::with_namespace".
Definition reject_unresolved_specs (ast : FilterNode) (ns : option DefNamespace)
    : result GraphError unit :=
  let unresolved := unresolved_specs ast ns in
  if decide (unresolved = []) then Ok ()
  else Err (FilterErr (unresolved_message unresolved (bool_decide (is_Some ns)))).

(** The ids of the live entities. *)
Definition universe (g : t) : RoaringBitmap := bitmap_of_ids (hash_values (id_map g)).

(** The entity behind a candidate id, when the filter accepts it. *)
Definition accept (g : t) (ast : FilterNode) (entity : HDict) : option HDict :=
  if matches_with_ns ast entity (Some (query_ctx g)) (deref_namespace g)
  then Some entity else None.
Definition accept_id (g : t) (ast : FilterNode) (eid : N) : option HDict :=
  ref ← reverse_id g !! eid; entity ← entities g !! ref; accept g ast entity.

(** The scan of [read_all], over the candidates or over every entity. *)
Definition scan (g : t) (ast : FilterNode) (limit : N) : list HDict :=
  let results :=
    match bitmap_candidates ast (tag_index g) (value_index g) (universe g) with
    | Some bitmap =>
        collect_limited limit (accept_id g ast) (TagBitmapIndex.iter_set_bits bitmap) []
    | None => collect_limited limit (accept g ast) (btree_iter (entities g)).*2 []
    end in
  if decide (limit < len results)%N then take (N.to_nat limit) results else results.

(** The parsed filter, from the AST cache or into it. *)
Definition parsed_filter (g : t) (filter_expr : string) : t * result GraphError FilterNode :=
  match ast_cache g !! filter_expr with
  | Some cached => (g, Ok cached)
  | None =>
      match parse_filter_text filter_expr with
      | Err e => (g, Err (FilterErr e))
      | Ok parsed =>
          let cache := if decide (MAX_AST_CACHE_SIZE ≤ N.of_nat (size (ast_cache g)))%N
                       then ∅ else ast_cache g in
          (set_ast_cache (<[filter_expr := parsed]> cache) g, Ok parsed)
      end
  end.

(** The reference an entity is cached under. *)
Definition entity_ref (e : HDict) : option string :=
  match HDict.get e "id" with Some (KRef r) => Some (ref_val r) | _ => None end.

(** [EntityGraph::read_all]. *)
Definition read_all (g : t) (filter_expr : string) (limit : N)
    : t * result GraphError (list HDict) :=
  let effective_limit := if decide (limit = 0%N) then usize_max else limit in
  let '(cache, hit) := QueryCache.get (query_cache g) filter_expr (version g) in
  let g := set_query_cache cache g in
  match hit with
  | Some cached_refs =>
      (g, Ok (collect_limited effective_limit (λ rv, entities g !! rv) cached_refs []))
  | None =>
      let '(g, ast) := parsed_filter g filter_expr in
      match ast with
      | Err e => (g, Err e)
      | Ok ast =>
          match reject_unresolved_specs ast (deref_namespace g) with
          | Err e => (g, Err e)
          | Ok _ =>
              let results := scan g ast effective_limit in
              let g :=
                if decide (limit = 0%N) then
                  set_query_cache (QueryCache.insert (query_cache g) filter_expr (version g)
                                     (omap entity_ref results)) g
                else g in
              (g, Ok results)
          end
      end
  end.

(** ** Grids *)

(** The columns of [EntityGraph::read]: the tag names collected in a
    [HashSet], then sorted. *)
Definition read_cols (results : list HDict) : list HCol :=
  let seen := foldl (λ seen entity,
                foldl (λ seen name, <[name := ()]> seen) seen (HDict.tag_names entity))
                (∅ : gmap string unit) results in
  HGrid.col_new <$> merge_sort String.le (hash_keys seen).

(** [EntityGraph::read]. *)
Definition read (g : t) (filter_expr : string) (limit : N) : t * result GraphError HGrid :=
  let '(g, r) := read_all g filter_expr limit in
  (g, let? results := r in
      if decide (results = []) then Ok HGrid.new
      else Ok (HGrid.from_parts HDict.new (read_cols results) results)).

(** The columns of [EntityGraph::entities_to_grid]: each name pushed when it
    is first seen, then sorted. *)
Definition push_name (acc : gset string * list string) (name : string)
    : gset string * list string :=
  let '(seen, col_set) := acc in
  if decide (name ∈ seen) then acc else ({[name]} ∪ seen, col_set ++ [name]).
Definition entities_to_grid (entities : list HDict) : HGrid :=
  if decide (entities = []) then HGrid.new
  else
    let '(_, col_set) := foldl (λ acc entity, foldl push_name acc (HDict.tag_names entity))
                           (∅, []) entities in
    HGrid.from_parts HDict.new (HGrid.col_new <$> merge_sort String.le col_set) entities.

(** [EntityGraph::to_grid]. *)
Definition to_grid (g : t) (filter_expr : string) : t * result GraphError HGrid :=
  if decide (filter_expr = "") then (g, Ok (entities_to_grid (btree_iter (entities g)).*2))
  else read g filter_expr 0.

(** ** References *)

(** [EntityGraph::refs_from]. *)
Definition refs_from (g : t) (ref : string) (ref_type : option string) : list string :=
  match id_map g !! ref with
  | Some eid => RefAdjacency.targets_from (adjacency g) eid ref_type
  | None => []
  end.

(** [EntityGraph::refs_to]. *)
Definition refs_to (g : t) (ref : string) (ref_type : option string) : list string :=
  omap (λ eid, reverse_id g !! eid) (RefAdjacency.sources_to (adjacency g) ref ref_type).

(** [EntityGraph::contains]. *)
Definition contains (g : t) (ref : string) : bool := bool_decide (is_Some (entities g !! ref)).

(** [EntityGraph::incoming_edges]. *)
Definition incoming_edges (g : t) (target : string) : list (string * string) :=
  omap (λ '(tag, numeric), source ← reverse_id g !! numeric; Some (tag, source))
    (edges (RefAdjacency.reverse (adjacency g)) target).

(** [EntityGraph::entities_after]: [range] from an excluded bound. *)
Definition entities_after (g : t) (after : option string) : list (string * HDict) :=
  match after with
  | None => btree_iter (entities g)
  | Some k => filter (λ kv, String.compare k kv.1 = Lt) (btree_iter (entities g))
  end.

(** [EntityGraph::ref_chain], with the entities pushed so far. *)
Fixpoint ref_chain_from (g : t) (current : string) (ref_tags : list string) (acc : list HDict)
    : list HDict :=
  match ref_tags with
  | [] => acc
  | tag :: ref_tags =>
      match entities g !! current with
      | None => acc
      | Some entity =>
          match HDict.get entity tag with
          | Some (KRef r) =>
              match entities g !! ref_val r with
              | Some target => ref_chain_from g (ref_val r) ref_tags (acc ++ [target])
              | None => acc
              end
          | _ => acc
          end
      end
  end.
Definition ref_chain (g : t) (ref : string) (ref_tags : list string) : list HDict :=
  ref_chain_from g ref ref_tags [].

(** [EntityGraph::site_for]. *)
Definition site_for (g : t) (ref : string) : option HDict :=
  entity ← entities g !! ref;
  if HDict.has entity "site" then Some entity
  else match HDict.get entity "siteRef" with
  | Some (KRef r) => entities g !! ref_val r
  | _ =>
      match HDict.get entity "equipRef" with
      | Some (KRef r) =>
          match entities g !! ref_val r with
          | Some equip =>
              match HDict.get equip "siteRef" with
              | Some (KRef sr) => entities g !! ref_val sr
              | _ => None
              end
          | None => None
          end
      | _ => None
      end
  end.

(** [EntityGraph::children]. *)
Definition children (g : t) (ref : string) : list HDict :=
  omap (λ r, entities g !! r) (refs_to g ref None).

(** [EntityGraph::equip_points]. *)
Definition equip_points (g : t) (equip_ref : string) (filter_expr : option string)
    : result GraphError (list HDict) :=
  let points := filter (λ e, HDict.has e "point" = true) (children g equip_ref) in
  match filter_expr with
  | Some expr =>
      let? ast := map_err FilterErr (parse_filter_text expr) in
      let? _ := reject_unresolved_specs ast (deref_namespace g) in
      Ok (filter (λ e, matches_with_ns ast e (Some (query_ctx g)) (deref_namespace g) = true)
            points)
  | None => Ok points
  end.

(** ** Validation *)

(** The issue of a tag that refers to a missing entity. *)
Definition dangling_issue (g : t) (entity : HDict) (tag : string * Kind) : option ValidationIssue :=
  match tag with
  | (name, KRef r) =>
      if decide (name = "id") then None
      else if bool_decide (is_Some (entities g !! ref_val r)) then None
      else Some (mkIssue (ref_val <$> HDict.id entity) "dangling_ref"
             ("tag '" +:+ name +:+ "' references '" +:+ ref_val r +:+
              "' which does not exist in the graph"))
  | _ => None
  end.

(** [EntityGraph::validate]. *)
Definition validate (g : t) : list ValidationIssue :=
  let es := (btree_iter (entities g)).*2 in
  match deref_namespace g with
  | Some ns => es ≫= validate_entity ns
  | None => []
  end ++ (es ≫= λ e, omap (dangling_issue g e) (HDict.iter e)).

(** ** Hierarchy *)

(** [EntityGraph::build_subtree] with [n = max_depth - depth] levels left; the
    second component is the visited set. *)
Fixpoint build_subtree (g : t) (n : nat) (ref : string) (entity : HDict) (depth : N)
    (visited : gset string) : HierarchyNode * gset string :=
  match n with
  | 0 => (mkNode entity [] depth, visited)
  | S n =>
      let '(nodes, visited) :=
        foldl (λ acc child,
          let '(nodes, visited) := acc in
          match HDict.id child with
          | None => (nodes, visited)
          | Some r =>
              if decide (ref_val r ∈ visited) then (nodes, visited)
              else
                let '(node, visited) :=
                  build_subtree g n (ref_val r) child (depth + 1) ({[ref_val r]} ∪ visited) in
                (nodes ++ [node], visited)
          end) ([], visited) (children g ref) in
      (mkNode entity nodes depth, visited)
  end.

(** [EntityGraph::hierarchy_tree]. *)
Definition hierarchy_tree (g : t) (root : string) (max_depth : N) : option HierarchyNode :=
  entity ← entities g !! root;
  Some (build_subtree g (N.to_nat max_depth) root entity 0 {[root]}).1.

Definition CLASSIFY_PRIORITY : list string :=
  ["sensor"; "cmd"; "sp"; "ahu"; "vav"; "boiler"; "chiller"; "meter"; "point"; "equip";
   "room"; "floor"; "zone"; "space"; "site"; "weather"; "device"; "network"].

(** [classify_entity]. *)
Definition classify_entity (entity : HDict) : option string :=
  head (filter (λ tag, HDict.has entity tag = true) CLASSIFY_PRIORITY).

(** [EntityGraph::classify]. *)
Definition classify (g : t) (ref : string) : option string :=
  entity ← entities g !! ref; classify_entity entity.
End model.
End GraphQuery.
