(* ===== verification/QueryFacts.v ===== *)
(** * Correctness of queries

    Candidate bitmaps contain every match, so [read_all] returns exactly the
    entities its filter selects: the acceleration structures and the two
    caches are invisible but for the order of the rows. *)

From S2P Require Import Prelude Floats Kinds Extern Bitmap Adjacency ValueIndex Filter Changelog Graph GraphInv Query.

Lemma as_u32_le n : (n ≤ u32_max)%N → as_u32 n = n.
Proof. intros Hn. unfold as_u32, u32_max in *. apply N.mod_small. lia. Qed.

(** A limited collection is a prefix of the unlimited one. *)
Lemma collect_limited_take {A B} limit (f : A → option B) l acc :
  (len acc ≤ limit)%N →
  collect_limited limit f l acc = acc ++ take (N.to_nat limit - length acc) (omap f l).
Proof.
  revert acc. induction l as [|a l IH]; intros acc Hacc; cbn [collect_limited omap list_omap].
  - by rewrite take_nil, app_nil_r.
  - case_decide as Hfull.
    + replace (N.to_nat limit - length acc) with 0 by (unfold len in *; lia).
      by rewrite take_0, app_nil_r.
    + destruct (f a) as [b|]; [|by apply IH].
      rewrite IH by (rewrite len_app; unfold len in *; simpl; lia).
      rewrite <-app_assoc, length_app. f_equal. simpl.
      replace (N.to_nat limit - length acc) with (S (N.to_nat limit - (length acc + 1)))
        by (unfold len in *; lia). done.
Qed.

Module QueryFacts.
Import EntityGraph GraphQuery GraphInv.

Section facts.
Context {HO : HashOrder} {HL : HashOrderLaws} {RB : Roaring} {RL : RoaringLaws}.
Context {CM : CacheMap} {CL : CacheLaws} {ON : Ontology} {CA : Catalog} {FS : FilterSyntax}.
Implicit Types (g : EntityGraph.t) (e : HDict) (ref : string).

(** ** Candidates *)

Lemma elem_of_bitmap_of_ids ids id :
  id ∈ rb_iter (bitmap_of_ids ids) ↔ ∃ i, i ∈ ids ∧ id = as_u32 i.
Proof.
  unfold bitmap_of_ids.
  assert (Hgen : ∀ bm, id ∈ rb_iter (foldl (λ bm id, rb_insert (as_u32 id) bm) bm ids) ↔
    id ∈ rb_iter bm ∨ ∃ i, i ∈ ids ∧ id = as_u32 i).
  { induction ids as [|i ids IH]; intros bm; simpl; [set_solver|].
    rewrite IH, elem_of_rb_insert. set_solver. }
  rewrite Hgen, rb_iter_new. set_solver.
Qed.

(** A value that satisfies a comparison is found under its key. *)
Lemma compare_eq_key actual val key :
  compare_eq actual val = true → OrderableKind.from_kind val = Some key →
  OrderableKind.from_kind actual = Some key.
Proof.
  destruct val; simpl; try done; intros Hc [= <-]; destruct actual; simpl in *; try done.
  - unfold Number_eqb in Hc. apply andb_true_iff in Hc as [Hb _].
    apply bool_decide_eq_true in Hb. by rewrite (F64.to_bits_inj _ _ Hb).
  - by apply bool_decide_eq_true in Hc as ->.
Qed.

(** The order of the keys agrees with the evaluator's, away from zero. *)
Lemma partial_cmp_key actual val key c :
  kind_partial_cmp actual val = Some c → OrderableKind.from_kind val = Some key →
  (∀ n, val = KNumber n → F64.is_zero (num_val n) = false) →
  ∃ k, OrderableKind.from_kind actual = Some k ∧ OrderableKind.cmp k key = c.
Proof.
  intros Hc Hkey Hz. destruct val; simpl in Hkey; try done; injection Hkey as <-;
    destruct actual; simpl in Hc; try done; eexists; (split; [done|]); simpl.
  - unfold Number_partial_cmp in Hc. case_decide; [|done]. unfold F64.total_cmp.
    specialize (Hz _ eq_refl). destruct c.
    + rewrite (F64.partial_eq_bits _ _ Hc Hz). apply Z.compare_refl.
    + apply Z.compare_lt_iff. by apply F64.partial_lt_total.
    + apply Z.compare_gt_iff. by apply F64.partial_gt_total.
  - congruence.
Qed.

(** The ids a comparison looks up include every row that satisfies it. *)
Lemma cmp_ids_complete vi rows field op val ids id row actual :
  ValueIndex.models vi rows → is_Some (ValueIndex.indexes vi !! field) →
  cmp_ids vi field op val = Some ids →
  rows !! id = Some row → row !! field = Some actual → compare actual op val = true →
  id ∈ ids.
Proof.
  intros M Hf Hids Hrow Hact Hcmp.
  assert (Hb : ∀ k, OrderableKind.from_kind actual = Some k → id ∈ ValueIndex.bucket vi field k).
  { intros k Hk. apply (ValueIndex.models_bucket _ _ M); [done|].
    exists row. split; [done|]. by exists actual. }
  assert (∃ key, OrderableKind.from_kind val = Some key) as [key Hkey]
    by (destruct op, val; simpl in Hids; try done; by eexists).
  destruct (decide (op = CEq)) as [->|Hop].
  { assert (ids = ValueIndex.eq_lookup vi field val) as ->
      by (destruct val; simpl in Hids; try done; congruence).
    rewrite (ValueIndex.elem_of_eq_lookup _ _ _ key) by done. apply Hb.
    by eapply compare_eq_key. }
  assert (Hz : ∀ n, val = KNumber n → F64.is_zero (num_val n) = false).
  { intros n ->. destruct (F64.is_zero (num_val n)) eqn:E; [|done].
    destruct op; simpl in Hids; try done; by rewrite E in Hids. }
  assert (Hrange : ∀ P, (∀ c, kind_partial_cmp actual val = Some c → P c = true) →
    is_Some (kind_partial_cmp actual val) → id ∈ ValueIndex.range_lookup P vi field val).
  { intros P HP [c Hc]. destruct (partial_cmp_key _ _ _ _ Hc Hkey Hz) as (k & Hk & Hcmpk).
    apply (ValueIndex.elem_of_range_lookup _ _ _ _ key); [done|done|].
    exists k. rewrite Hcmpk. auto. }
  unfold compare in Hcmp.
  destruct op; try done; unfold ordered_cmp in Hcmp;
    destruct (kind_partial_cmp actual val) as [c|] eqn:Hc; try done;
    destruct val; simpl in Hids; try done; rewrite ?(Hz _ eq_refl) in Hids; simpl in Hids; try done; injection Hids as <-;
    (apply Hrange; [intros c' [= <-]; by destruct c|by eexists]).
Qed.

(** Candidates contain every match. *)
Lemma candidates_complete g ast bm id e :
  inv g → rows g !! id = Some e →
  bitmap_candidates ast (tag_index g) (value_index g) (universe g) = Some bm →
  matches_with_ns ast e (Some (query_ctx g)) (deref_namespace g) = true →
  id ∈ TagBitmapIndex.iter_set_bits bm.
Proof.
  intros Hi Hrow. destruct (inv_indexed _ Hi) as ([Htags _] & _ & Hvals).
  assert (Hids : ∃ ref, id_map g !! ref = Some id).
  { unfold rows in Hrow. rewrite lookup_rows_of in Hrow.
    apply bind_Some in Hrow as (ref & Hr & _). exists ref.
    by apply (store_rev _ _ _ _ _ (inv_store _ Hi)). }
  assert (Hle : (id ≤ u32_max)%N).
  { destruct Hids as [ref Hr]. exact (store_id_le _ _ _ _ _ _ _ (inv_store _ Hi) Hr). }
  unfold TagBitmapIndex.iter_set_bits.
  revert bm. induction ast as [p|p|p op val|l IHl r IHr|l IHl r IHr|s]; intros bm; cbn [bitmap_candidates].
  - destruct p as [|tag [|]]; try done. intros Htag Hm. simpl in Hm.
    apply bool_decide_eq_true in Hm. unfold TagBitmapIndex.has_tag in Htag.
    assert (id ∈ TagBitmapIndex.bits (TagBitmapIndex.bitmaps (tag_index g)) tag) as Hb
      by (apply Htags; by exists e).
    unfold TagBitmapIndex.bits in Hb. by rewrite Htag in Hb.
  - destruct p as [|tag [|]]; try done. intros (b & Htag & ->)%fmap_Some Hm. simpl in Hm.
    apply negb_true_iff, bool_decide_eq_false in Hm. unfold TagBitmapIndex.has_tag in Htag.
    unfold TagBitmapIndex.negate. apply elem_of_rb_sub. split.
    + destruct Hids as [ref Hr]. apply elem_of_bitmap_of_ids. exists id.
      rewrite as_u32_le by done. split; [|done]. apply elem_of_hash_values. by exists ref.
    + intros Hb. apply Hm.
      assert (id ∈ TagBitmapIndex.bits (TagBitmapIndex.bitmaps (tag_index g)) tag) as Hb'
        by (unfold TagBitmapIndex.bits; by rewrite Htag).
      apply Htags in Hb' as (row & Hr & Hs). by simplify_eq.
  - destruct p as [|field [|]]; try done.
    destruct (ValueIndex.has_index (value_index g) field) eqn:Hf; [|done].
    apply bool_decide_eq_true in Hf. intros (ids & Hcmp & ->)%fmap_Some Hm. simpl in Hm.
    on_ok (HDict.get e field) as [actual|] Hact.
    apply elem_of_bitmap_of_ids. exists id. rewrite as_u32_le by done. split; [|done].
    by eapply cmp_ids_complete.
  - intros Hbm [Hml Hmr]%andb_true_iff.
    destruct (bitmap_candidates l _ _ _) as [a|], (bitmap_candidates r _ _ _) as [b|];
      simplify_eq; rewrite ?elem_of_rb_and; auto.
  - intros Hbm Hm%orb_true_iff.
    destruct (bitmap_candidates l _ _ _) as [a|], (bitmap_candidates r _ _ _) as [b|];
      simplify_eq. rewrite elem_of_rb_or. destruct Hm; auto.
  - done.
Qed.

(** ** Scanning *)

(** What a filter selects, by a plain evaluation over all entities. *)
Definition matching g (ast : FilterNode) : list HDict :=
  (filter (selects g ast) (btree_iter (entities g))).*2.

Definition hit g (ast : FilterNode) (eid : N) : option (string * HDict) :=
  ref ← reverse_id g !! eid; e ← entities g !! ref; (λ e, (ref, e)) <$> accept g ast e.

Definition scan_full g (ast : FilterNode) : list HDict :=
  match bitmap_candidates ast (tag_index g) (value_index g) (universe g) with
  | Some bm => omap (accept_id g ast) (rb_iter bm)
  | None => omap (accept g ast) (btree_iter (entities g)).*2
  end.

Lemma scan_take g ast limit : scan g ast limit = take (N.to_nat limit) (scan_full g ast).
Proof.
  unfold scan, scan_full, TagBitmapIndex.iter_set_bits.
  assert (Htake : ∀ l : list HDict,
    (if decide (limit < len (take (N.to_nat limit) l))%N
     then take (N.to_nat limit) (take (N.to_nat limit) l) else take (N.to_nat limit) l)
    = take (N.to_nat limit) l).
  { intros l. case_decide; [|done]. by rewrite take_take, Nat.min_id. }
  destruct (bitmap_candidates _ _ _ _); rewrite collect_limited_take by len_lia;
    rewrite app_nil_l, length_nil, Nat.sub_0_r; apply Htake.
Qed.

Lemma hit_Some g ast eid ref e :
  hit g ast eid = Some (ref, e) ↔
  reverse_id g !! eid = Some ref ∧ entities g !! ref = Some e ∧ selects g ast (ref, e).
Proof.
  unfold hit, accept, selects. rewrite bind_Some. setoid_rewrite bind_Some.
  setoid_rewrite fmap_Some. simpl. split.
  - intros (ref' & Hr & e' & He & e'' & Hm & [= -> ->]).
    destruct (matches_with_ns _ _ _ _) eqn:E; [|done]. injection Hm as ->. done.
  - intros (Hr & He & Hm). exists ref. split; [done|]. exists e. split; [done|].
    exists e. by rewrite Hm.
Qed.

Lemma accept_id_hit g ast eid : accept_id g ast eid = snd <$> hit g ast eid.
Proof.
  unfold accept_id, hit. destruct (reverse_id g !! eid); simpl; [|done].
  destruct (entities g !! s) as [e|]; simpl; [|done]. by destruct (accept g ast e).
Qed.

Lemma hits_perm g ast bm :
  inv g → bitmap_candidates ast (tag_index g) (value_index g) (universe g) = Some bm →
  omap (hit g ast) (rb_iter bm) ≡ₚ filter (selects g ast) (btree_iter (entities g)).
Proof.
  intros Hi Hbm. apply NoDup_Permutation.
  - apply NoDup_omap.
    + intros i j [ref e] _ _ [H1 _]%hit_Some [H2 _]%hit_Some.
      by eapply store_id_inj; [apply (inv_store _ Hi)|..].
    + apply NoDup_sorted_lt, rb_iter_sorted.
  - apply NoDup_filter. rewrite btree_iter_perm. apply NoDup_map_to_list.
  - intros [ref e]. rewrite list_elem_of_omap, list_elem_of_filter, elem_of_btree_iter.
    setoid_rewrite hit_Some. split.
    + intros (eid & _ & _ & He & Hs). done.
    + intros [Hs He].
      destruct (store_id _ _ _ _ _ _ _ (inv_store _ Hi) He) as (eid & _ & Hr & Hrow).
      exists eid. split; [|done]. by eapply candidates_complete.
Qed.

Lemma accept_filter g ast (l : list (string * HDict)) :
  omap (accept g ast) l.*2 = (filter (selects g ast) l).*2.
Proof.
  induction l as [|[ref e] l IH]; [done|]. rewrite filter_cons, fmap_cons. cbn [omap list_omap].
  unfold accept at 1. cbn [snd]. case_decide as Hs; unfold selects in Hs; cbn [snd] in Hs.
  - rewrite Hs, fmap_cons. f_equal. exact IH.
  - apply not_true_is_false in Hs. rewrite Hs. exact IH.
Qed.

(** The scan finds what plain evaluation selects. *)
Lemma scan_full_perm g ast : inv g → scan_full g ast ≡ₚ matching g ast.
Proof.
  intros Hi. unfold scan_full, matching.
  destruct (bitmap_candidates _ _ _ _) as [bm|] eqn:Hbm.
  - rewrite <-(hits_perm g ast bm) by done. rewrite omap_fmap_Some.
    rewrite (omap_ext_in (accept_id g ast) (λ a, snd <$> hit g ast a)); [done|].
    intros a _. apply accept_id_hit.
  - by rewrite accept_filter.
Qed.

Lemma matching_length g ast : inv g → (len (matching g ast) ≤ MAX_ENTITY_ID + 1)%N.
Proof.
  intros Hi. pose proof (store_count _ _ _ _ _ (inv_store _ Hi)).
  pose proof (store_bound _ _ _ _ _ (inv_store _ Hi)).
  unfold matching. rewrite len_fmap.
  pose proof (length_filter (selects g ast) (btree_iter (entities g))) as Hf.
  rewrite (Permutation_length (btree_iter_perm (entities g))), length_map_to_list in Hf.
  unfold len in *. lia.
Qed.

(** The limit of an unlimited query never cuts. *)
Definition apply_limit {A} (limit : N) (l : list A) : list A :=
  if decide (limit = 0%N) then l else take (N.to_nat limit) l.

Lemma take_effective_limit g ast limit full :
  inv g → full ≡ₚ matching g ast →
  take (N.to_nat (if decide (limit = 0%N) then usize_max else limit)) full = apply_limit limit full.
Proof.
  intros Hi Hperm. unfold apply_limit. case_decide; [|done]. apply take_ge.
  rewrite (Permutation_length Hperm). pose proof (matching_length g ast Hi) as Hlen.
  unfold len, MAX_ENTITY_ID, u32_max, usize_max in *. lia.
Qed.

(** ** The query cache *)

Definition cached (c : QueryCache.t) : list ((string * N) * list string) :=
  im_list (QueryCache.entries c).

(** A lookup returns a stored answer and only reorders the entries. *)
Lemma cache_get_spec c text v c' r :
  QueryCache.get c text v = (c', r) →
  cached c' ≡ₚ cached c ∧ QueryCache.capacity c' = QueryCache.capacity c ∧
  (∀ refs, r = Some refs → ((text, v), refs) ∈ cached c).
Proof.
  unfold QueryCache.get, cached. rewrite im_get_index_of_list.
  destruct (key_index (text, v) (im_list (QueryCache.entries c))) as [i|] eqn:Hk;
    [|by intros [= <- <-]].
  intros [= <- <-]. simpl.
  assert (Hm := im_move_index_list i (QueryCache.entries c) (key_index_lt _ _ _ Hk)).
  rewrite im_get_list, Hm. split; [apply move_to_back_perm|]. split; [done|].
  intros refs Hrefs%assoc_elem. by rewrite move_to_back_perm in Hrefs.
Qed.

(** An insertion adds one entry and drops some. *)
Lemma cache_insert_elem c text v refs x :
  x ∈ cached (QueryCache.insert c text v refs) → x = ((text, v), refs) ∨ x ∈ cached c.
Proof.
  unfold QueryCache.insert, cached. simpl. rewrite im_insert_list.
  intros [?|Hx]%elem_of_assoc_insert; [by left|right].
  assert (Hpurge : ∀ y, y ∈ im_list (QueryCache.entries (if QueryCache.full c
    then QueryCache.purge_stale c v else c)) → y ∈ im_list (QueryCache.entries c)).
  { intros y. destruct (QueryCache.full c); [|done]. simpl. rewrite im_retain_list.
    by intros [_ ?]%list_elem_of_filter. }
  apply Hpurge. destruct (QueryCache.full (if QueryCache.full c then _ else c)); [|done].
  simpl in Hx. rewrite im_shift_remove_index_list in Hx.
  eapply elem_of_submseteq; [exact Hx|]. apply sublist_submseteq, sublist_delete.
Qed.

(** The cache keeps its keys apart and within its capacity. *)
Record cache_ok (c : QueryCache.t) : Prop := {
  cache_keys : NoDup (cached c).*1;
  cache_bound : (len (cached c) ≤ QueryCache.capacity c)%N
}.

Lemma cache_get_ok c text v : cache_ok c → cache_ok (QueryCache.get c text v).1.
Proof.
  intros [Hk Hb]. destruct (QueryCache.get c text v) as [c' r] eqn:Hget.
  apply cache_get_spec in Hget as (Hperm & Hcap & _). cbn [fst]. split.
  - by rewrite Hperm.
  - unfold len in *. by rewrite (Permutation_length Hperm), Hcap.
Qed.

(** Making room: fewer entries than the capacity are left. *)
Lemma cache_room c v :
  cache_ok c → (1 ≤ QueryCache.capacity c)%N →
  let c1 := if QueryCache.full c then QueryCache.purge_stale c v else c in
  let c2 := if QueryCache.full c1
            then QueryCache.mk (im_shift_remove_index 0 (QueryCache.entries c1)) (QueryCache.capacity c1)
            else c1 in
  NoDup (cached c2).*1 ∧ QueryCache.capacity c2 = QueryCache.capacity c ∧
  (len (cached c2) < QueryCache.capacity c)%N.
Proof.
  intros [Hk Hb] Hcap c1 c2.
  assert (H1 : NoDup (cached c1).*1 ∧ QueryCache.capacity c1 = QueryCache.capacity c ∧
               (len (cached c1) ≤ QueryCache.capacity c)%N).
  { unfold c1. destruct (QueryCache.full c); [|done].
    unfold cached, len in *. simpl. rewrite im_retain_list. split; [|split; [done|]].
    - eapply sublist_NoDup; [exact Hk|]. apply fmap_sublist, sublist_filter.
    - pose proof (length_filter (λ kv, bool_decide (v ≤ kv.1.2)%N = true)
        (im_list (QueryCache.entries c))). lia. }
  destruct H1 as (Hk1 & Hc1 & Hb1). unfold c2. destruct (QueryCache.full c1) eqn:Hf.
  - unfold cached, len in *. simpl. rewrite im_shift_remove_index_list.
    destruct (im_list (QueryCache.entries c1)) as [|x l] eqn:Hl; simpl in *; [split_and!; [done..|lia]|].
    apply NoDup_cons in Hk1 as [_ Hk1]. split_and!; [done..|lia].
  - apply bool_decide_eq_false in Hf. unfold cached in *. split_and!; [done..|lia].
Qed.

(** An insertion keeps the bound and is found by the next lookup. *)
Lemma cache_insert_spec c text v refs :
  cache_ok c → (1 ≤ QueryCache.capacity c)%N →
  let c' := QueryCache.insert c text v refs in
  cache_ok c' ∧ QueryCache.capacity c' = QueryCache.capacity c ∧
  (QueryCache.get c' text v).2 = Some refs.
Proof.
  intros Hok Hcap. destruct (cache_room c v Hok Hcap) as (Hk & Hc & Hb). unfold QueryCache.insert.
  set (c1 := if QueryCache.full c then QueryCache.purge_stale c v else c) in *.
  set (c2 := if QueryCache.full c1 then _ else c1) in *. cbn [QueryCache.capacity].
  pose proof (im_insert_list (text, v) refs (QueryCache.entries c2)) as Hins.
  assert (Hk' : NoDup (im_list (im_insert (text, v) refs (QueryCache.entries c2))).*1)
    by (rewrite Hins; by apply assoc_insert_keys).
  split; [|split; [done|]].
  - split; unfold cached in *; cbn [QueryCache.entries QueryCache.capacity]; [done|].
    rewrite Hins, Hc. unfold len in *.
    pose proof (length_assoc_insert (text, v) refs (im_list (QueryCache.entries c2))). lia.
  - unfold QueryCache.get. cbn [QueryCache.entries]. rewrite im_get_index_of_list.
    assert (Hget : assoc (text, v) (im_list (im_insert (text, v) refs (QueryCache.entries c2)))
                   = Some refs) by (rewrite Hins; apply assoc_insert_assoc).
    destruct (key_index (text, v) _) as [i|] eqn:Hi.
    + cbn [snd]. rewrite im_get_list, im_move_index_list by (by eapply key_index_lt).
      rewrite assoc_NoDup, move_to_back_perm by (by rewrite move_to_back_perm).
      by apply assoc_elem.
    + apply key_index_None in Hi. congruence.
Qed.

(** ** Reading *)

Lemma set_caches_inv g qc ac :
  inv g → (∀ x, x ∈ cached qc → cache_entry_ok g x) →
  (∀ text node, ac !! text = Some node → parse_filter_text text = Ok node) →
  inv (set_query_cache qc (set_ast_cache ac g)).
Proof. intros [Hs Hx Hv Hl Hc Hb Hd Hq Ha] Hqc Hac. by split. Qed.

(** Two graphs that differ in the contents of their caches only. *)
Definition same_but_caches g g' : Prop :=
  ∃ qc ac, g' = set_query_cache qc (set_ast_cache ac g).

Lemma same_but_caches_refl g : same_but_caches g g.
Proof. exists (query_cache g), (ast_cache g). by destruct g. Qed.

Lemma parsed_filter_spec g text :
  inv g →
  ∃ ac, (parsed_filter g text).1 = set_ast_cache ac g ∧
    (∀ t node, ac !! t = Some node → parse_filter_text t = Ok node) ∧
    (parsed_filter g text).2 = map_err FilterErr (parse_filter_text text).
Proof.
  intros Hi. pose proof (inv_ast _ Hi) as Ha. unfold parsed_filter.
  assert (Hsame : g = set_ast_cache (ast_cache g) g) by by destruct g.
  destruct (ast_cache g !! text) as [node|] eqn:Hc; simpl.
  { exists (ast_cache g). rewrite (Ha _ _ Hc). by rewrite <-Hsame. }
  destruct (parse_filter_text text) as [node|msg] eqn:Hp; simpl.
  - eexists. split; [done|]. split; [|done]. intros t node'. rewrite lookup_insert.
    case_decide; [intros [= <-]; by subst|]. case_decide; [by rewrite lookup_empty|]. apply Ha.
  - exists (ast_cache g). by rewrite <-Hsame.
Qed.

(** The references of the selected entities are those of the rows. *)
Lemma entity_refs_selected g ast results :
  inv g → results ≡ₚ matching g ast → omap entity_ref results ≡ₚ selected g ast.
Proof.
  intros Hi ->. unfold matching, selected.
  assert (Hall : ∀ kv, kv ∈ filter (selects g ast) (btree_iter (entities g)) →
    entity_ref kv.2 = Some kv.1).
  { intros [ref e] [_ Hin%elem_of_btree_iter]%list_elem_of_filter. simpl.
    destruct (store_ref _ _ _ _ _ (inv_store _ Hi) _ _ Hin) as (r & Hr & <-).
    unfold entity_ref, HDict.get. by rewrite Hr. }
  induction (filter _ _) as [|kv l IH]; [done|]. rewrite !fmap_cons. cbn [omap list_omap].
  rewrite Hall by left. constructor. apply IH. intros kv' Hin. apply Hall. by right.
Qed.

Lemma cached_entities g ast refs :
  refs ≡ₚ selected g ast → omap (λ rv, entities g !! rv) refs ≡ₚ matching g ast.
Proof.
  intros ->. unfold matching, selected.
  assert (Hall : ∀ kv, kv ∈ filter (selects g ast) (btree_iter (entities g)) →
    entities g !! kv.1 = Some kv.2).
  { by intros [ref e] [_ Hin%elem_of_btree_iter]%list_elem_of_filter. }
  induction (filter _ _) as [|kv l IH]; [done|]. rewrite !fmap_cons. cbn [omap list_omap].
  rewrite Hall by left. constructor. apply IH. intros kv' Hin. apply Hall. by right.
Qed.

(** What a read answers: a parse error, the unresolved terms, or the
    entities that plain evaluation selects. *)
Definition read_answer g (text : string) (limit : N) (r : result GraphError (list HDict)) : Prop :=
  match parse_filter_text text with
  | Err msg => r = Err (FilterErr msg)
  | Ok ast =>
      let unresolved := unresolved_specs ast (deref_namespace g) in
      (unresolved ≠ [] ∧
       r = Err (FilterErr (unresolved_message unresolved (bool_decide (is_Some (deref_namespace g)))))) ∨
      (unresolved = [] ∧ ∃ full, full ≡ₚ matching g ast ∧ r = Ok (apply_limit limit full))
  end.

Lemma read_all_spec g text limit :
  inv g →
  inv (read_all g text limit).1 ∧ same_but_caches g (read_all g text limit).1 ∧
  read_answer g text limit (read_all g text limit).2.
Proof.
  intros Hi. unfold read_all.
  destruct (QueryCache.get (query_cache g) text (version g)) as [c hit] eqn:Hget.
  apply cache_get_spec in Hget as (Hperm & _ & Hhit).
  assert (Hc : ∀ x, x ∈ cached c → cache_entry_ok g x).
  { intros x Hx. apply (inv_cache _ Hi). by rewrite Hperm in Hx. }
  assert (Hg1 : inv (set_query_cache c g)).
  { replace (set_query_cache c g) with (set_query_cache c (set_ast_cache (ast_cache g) g))
      by by destruct g. apply set_caches_inv; [done|done|]. apply (inv_ast _ Hi). }
  destruct hit as [refs|].
  { split; [done|]. split; [exists c, (ast_cache g); by destruct g|]. cbn [snd].
    destruct (inv_cache _ Hi _ (Hhit refs eq_refl)) as [_ Hok].
    destruct (Hok eq_refl) as (ast & Hp & Hu & Hrefs).
    unfold read_answer. rewrite Hp. right. split; [done|].
    apply cached_entities in Hrefs. eexists. split; [exact Hrefs|]. f_equal.
    rewrite collect_limited_take by (rewrite len_nil; case_decide; lia).
    rewrite app_nil_l, length_nil, Nat.sub_0_r. cbn [entities set_query_cache].
    by rewrite (take_effective_limit g ast). }
  destruct (parsed_filter_spec (set_query_cache c g) text Hg1) as (ac & Hg2 & Hac & Hast).
  destruct (parsed_filter (set_query_cache c g) text) as [g2 ast]. simpl in Hg2, Hast. subst g2 ast.
  assert (Hi2 : inv (set_ast_cache ac (set_query_cache c g))).
  { apply (set_caches_inv g c ac); done. }
  assert (Hsame2 : same_but_caches g (set_ast_cache ac (set_query_cache c g)))
    by by exists c, ac.
  unfold read_answer. destruct (parse_filter_text text) as [ast|msg] eqn:Hp; simpl; [|done].
  unfold reject_unresolved_specs. change (deref_namespace (set_ast_cache _ _)) with (deref_namespace g).
  destruct (decide (unresolved_specs ast (deref_namespace g) = [])) as [Hu|Hu]; cbn [fst snd].
  2: { split; [done|]. split; [done|]. left. done. }
  set (g2 := set_ast_cache ac (set_query_cache c g)) in *.
  assert (Hfull : scan_full g2 ast ≡ₚ matching g ast) by exact (scan_full_perm g2 ast Hi2).
  rewrite scan_take, (take_effective_limit g ast) by done.
  split; [|split; [|right; split; [done|]; by eexists]].
  - case_decide as Hl; [|done]. change (set_query_cache ?q g2) with (set_query_cache q (set_ast_cache ac g)).
    apply set_caches_inv; [done| |done].
    intros x [->|Hx]%cache_insert_elem; [|by apply Hc]. split; [done|]. intros _.
    exists ast. split; [done|]. split; [done|]. unfold apply_limit. rewrite decide_True by done.
    by apply entity_refs_selected.
  - case_decide; [|done]. by eexists _, ac.
Qed.

(** ** References *)

(** An entity refers to a target through a tag other than [id]. *)
Definition refers g (src tag tgt : string) : Prop :=
  ∃ e r, entities g !! src = Some e ∧ e !! tag = Some (KRef r) ∧ ref_val r = tgt ∧ tag ≠ "id".

Lemma refers_rows g src tag tgt :
  inv g →
  refers g src tag tgt ↔
  ∃ id row, reverse_id g !! id = Some src ∧ rows g !! id = Some row ∧
    (tag, tgt) ∈ RefAdjacency.refs_of row.
Proof.
  intros Hi. setoid_rewrite RefAdjacency.elem_of_refs_of. split.
  - intros (e & r & He & Htag & <- & Hne).
    destruct (store_id _ _ _ _ _ _ _ (inv_store _ Hi) He) as (id & _ & Hr & Hrow). eauto 10.
  - intros (id & row & Hr & Hrow & Hne & r & Htag & <-).
    unfold rows in Hrow. rewrite lookup_rows_of, Hr in Hrow. simpl in Hrow.
    by exists row, r.
Qed.

Lemma elem_of_refs_to g src tgt rt :
  inv g →
  src ∈ refs_to g tgt rt ↔ ∃ tag, refers g src tag tgt ∧ RefAdjacency.ref_type_ok rt tag.
Proof.
  intros Hi. destruct (inv_indexed _ Hi) as (_ & Ha & _). unfold refs_to.
  rewrite list_elem_of_omap.
  setoid_rewrite (RefAdjacency.elem_of_sources_to _ _ _ _ _ Ha).
  setoid_rewrite refers_rows; [|done..]. split.
  - intros (id & (row & tag & Hrow & Hin & Hok) & Hr). by exists tag; split; [exists id, row|].
  - intros (tag & (id & row & Hr & Hrow & Hin) & Hok). by exists id; split; [exists row, tag|].
Qed.

Lemma elem_of_refs_from g src tgt rt :
  inv g →
  tgt ∈ refs_from g src rt ↔ ∃ tag, refers g src tag tgt ∧ RefAdjacency.ref_type_ok rt tag.
Proof.
  intros Hi. destruct (inv_indexed _ Hi) as (_ & Ha & _).
  pose proof (inv_store _ Hi) as Hs. unfold refs_from.
  setoid_rewrite refers_rows; [|done..].
  destruct (id_map g !! src) as [eid|] eqn:Hid.
  - assert (Hr : reverse_id g !! eid = Some src) by by apply (store_rev _ _ _ _ _ Hs).
    destruct (store_rows _ _ _ _ _ _ _ Hs Hr) as (e & He & Hrow).
    rewrite (RefAdjacency.targets_from_perm _ _ _ _ e Ha Hrow), list_elem_of_fmap. split.
    + intros ([tag tgt'] & -> & [Hok Hin]%list_elem_of_filter). exists tag.
      split; [by exists eid, e|done].
    + intros (tag & (id & row & Hr' & Hrow' & Hin) & Hok).
      assert (id = eid) as -> by by eapply store_id_inj.
      assert (row = e) as -> by (unfold rows in Hrow'; congruence).
      exists (tag, tgt). split; [done|]. apply list_elem_of_filter. done.
  - split; [by intros ?%elem_of_nil|].
    intros (tag & (id & row & Hr & _) & _). apply (store_rev _ _ _ _ _ Hs) in Hr. congruence.
Qed.

Lemma elem_of_incoming_edges g src tag tgt :
  inv g → (tag, src) ∈ incoming_edges g tgt ↔ refers g src tag tgt.
Proof.
  intros Hi. destruct (inv_indexed _ Hi) as (_ & Ha & _). unfold incoming_edges.
  rewrite refers_rows by done. rewrite list_elem_of_omap. split.
  - intros ([tag' id] & Hin & (src' & Hr & [= <- <-])%bind_Some).
    apply (RefAdjacency.models_reverse _ _ Ha) in Hin as (row & Hrow & Hin).
    by exists id, row.
  - intros (id & row & Hr & Hrow & Hin). exists (tag, id).
    rewrite Hr. split; [|done]. apply (RefAdjacency.models_reverse _ _ Ha). by exists row.
Qed.

Lemma elem_of_children g e tgt :
  inv g →
  e ∈ children g tgt ↔ ∃ src tag, entities g !! src = Some e ∧ refers g src tag tgt.
Proof.
  intros Hi. unfold children. rewrite list_elem_of_omap. setoid_rewrite elem_of_refs_to; [|done].
  split; [intros (src & (tag & Href & _) & He)|intros (src & tag & He & Href)]; eauto 10.
  exists src. split; [|done]. exists tag. by split.
Qed.

(** ** Validation *)

(** Without a namespace, exactly the dangling references are reported. *)
Lemma validate_nil g :
  namespace g = None →
  validate g = [] ↔
  ∀ src tag tgt, refers g src tag tgt → is_Some (entities g !! tgt).
Proof.
  intros Hns. unfold validate, deref_namespace. rewrite Hns. cbn [fmap option_fmap option_map app].
  assert (Hiff : (btree_iter (entities g)).*2 ≫= (λ e, omap (dangling_issue g e) (HDict.iter e)) = []
    ↔ ∀ src e tag k, entities g !! src = Some e → e !! tag = Some k →
        dangling_issue g e (tag, k) = None).
  { rewrite list_nil_iff. setoid_rewrite list_elem_of_bind.
    setoid_rewrite list_elem_of_fmap. setoid_rewrite list_elem_of_omap. split.
    - intros Hno src e tag k He Hk. on_ok (dangling_issue g e (tag, k)) as [i|] Hd.
      destruct (Hno i). exists e. split; [|by exists (src, e); rewrite elem_of_btree_iter].
      exists (tag, k). by rewrite HDict.elem_of_iter.
    - intros Hall i (e & ([tag k] & Hk & Hi) & [src e'] & -> & Hin).
      apply elem_of_btree_iter in Hin. apply HDict.elem_of_iter in Hk.
      cbn [snd] in Hi, Hk. pose proof (Hall src e' tag k Hin Hk). congruence. }
  rewrite Hiff. split.
  - intros Hall src tag tgt (e & r & He & Hk & <- & Hne). specialize (Hall src e tag _ He Hk).
    unfold dangling_issue in Hall. rewrite decide_False in Hall by done.
    by case_bool_decide.
  - intros Hall src e tag k He Hk. unfold dangling_issue. destruct k; try done.
    case_decide as Hid; [done|]. case_bool_decide as Hs; [done|]. destruct Hs.
    apply (Hall src tag). by exists e, v.
Qed.

(** ** Pages *)

(** Resuming after a key continues right behind it. *)
Lemma entities_after_spec g before k e after :
  btree_iter (entities g) = before ++ (k, e) :: after →
  entities_after g (Some k) = after.
Proof.
  intros Hsplit. unfold entities_after. rewrite Hsplit.
  pose proof (btree_iter_sorted (entities g)) as Hsort.
  pose proof (NoDup_btree_keys (entities g)) as Hnd. rewrite Hsplit in Hsort, Hnd.
  rewrite fmap_app, fmap_cons in Hnd. apply NoDup_app in Hnd as (_ & Hb & [Hk _]%NoDup_cons).
  apply StronglySorted_app in Hsort as (Hbef & _ & Haft).
  apply StronglySorted_cons in Haft as [Haft _].
  assert (Hle : ∀ a b : string, String.le a b → a ≠ b → String.compare a b = Lt).
  { intros a b Hle Hne. destruct (String.compare a b) eqn:Hc; [|done|].
    - by apply OrderableKind.string_compare_eq in Hc.
    - unfold String.le in Hle. unfold String.leb in Hle. by rewrite Hc in Hle. }
  assert (Hafter : filter (λ kv, String.compare k kv.1 = Lt) after = after).
  { apply list_filter_all. intros [k' e'] Hin. cbn. rewrite Forall_forall in Haft.
    apply Hle; [apply (Haft _ Hin)|]. intros ->. apply Hk, list_elem_of_fmap. by exists (k', e'). }
  assert (Hbefore : filter (λ kv, String.compare k kv.1 = Lt) before = []).
  { apply list_filter_none. intros [k' e'] Hin Hlt. cbn in Hlt.
    pose proof (Hbef (k', e') (k, e) Hin ltac:(left)) as Hkk. assert (k' ≠ k).
    { intros ->. apply (Hb k); [|left]. apply list_elem_of_fmap. by exists (k, e'). }
    pose proof (Hle k' k Hkk ltac:(done)) as Hc. rewrite String.compare_antisym, Hlt in Hc. done. }
  rewrite filter_app, filter_cons_False, Hbefore, Hafter; [done|].
  cbn. intros Hlt. by rewrite (proj2 (OrderableKind.string_compare_eq k k) eq_refl) in Hlt.
Qed.

(** ** Grids *)

Lemma elem_of_col_seen (results : list HDict) (seen : gmap string unit) name :
  is_Some (foldl (λ seen entity,
    foldl (λ seen name, <[name := ()]> seen) seen (HDict.tag_names entity)) seen results !! name) ↔
  is_Some (seen !! name) ∨ ∃ e, e ∈ results ∧ is_Some (e !! name).
Proof.
  assert (Hrow : ∀ names (seen : gmap string unit),
    is_Some (foldl (λ seen name, <[name := ()]> seen) seen names !! name) ↔
    is_Some (seen !! name) ∨ name ∈ names).
  { induction names as [|n names IH]; intros s; simpl; [set_solver|].
    rewrite IH, lookup_insert, elem_of_cons. case_decide; [subst|naive_solver].
    split; [by right; left|by left; eexists]. }
  revert seen. induction results as [|e results IH]; intros seen; cbn [foldl]; [set_solver|].
  rewrite IH, Hrow, HDict.elem_of_tag_names. set_solver.
Qed.

Lemma push_names_spec names seen cols :
  NoDup cols → (∀ n, n ∈ seen ↔ n ∈ cols) →
  let '(seen', cols') := foldl push_name (seen, cols) names in
  NoDup cols' ∧ (∀ n, n ∈ seen' ↔ n ∈ cols') ∧ (∀ n, n ∈ cols' ↔ n ∈ cols ∨ n ∈ names).
Proof.
  revert seen cols. induction names as [|n names IH]; intros seen cols Hnd Hs; cbn [foldl].
  { split; [done|]. split; [done|]. set_solver. }
  unfold push_name at 2. case_decide as Hin.
  - specialize (IH seen cols Hnd Hs). destruct (foldl push_name _ _) as [s' c'].
    destruct IH as (? & ? & Hc). split; [done|]. split; [done|]. set_solver.
  - specialize (IH ({[n]} ∪ seen) (cols ++ [n])).
    destruct (foldl push_name _ _) as [s' c']. destruct IH as (? & ? & Hc).
    + apply NoDup_app. split; [done|]. split; [set_solver|apply NoDup_singleton].
    + set_solver.
    + split; [done|]. split; [done|]. set_solver.
Qed.

Lemma push_rows_spec (results : list HDict) seen cols :
  NoDup cols → (∀ n, n ∈ seen ↔ n ∈ cols) →
  let '(seen', cols') :=
    foldl (λ acc entity, foldl push_name acc (HDict.tag_names entity)) (seen, cols) results in
  NoDup cols' ∧ (∀ n, n ∈ cols' ↔ n ∈ cols ∨ ∃ e, e ∈ results ∧ is_Some (e !! n)).
Proof.
  revert seen cols. induction results as [|e results IH]; intros seen cols Hnd Hs; cbn [foldl].
  { split; [done|]. set_solver. }
  pose proof (push_names_spec (HDict.tag_names e) seen cols Hnd Hs) as Hrow.
  destruct (foldl push_name _ _) as [s' c']. destruct Hrow as (Hnd' & Hs' & Hc').
  specialize (IH s' c' Hnd' Hs'). destruct (foldl _ (s', c') results) as [s'' c''].
  destruct IH as [? Hc'']. split; [done|]. intros n. rewrite Hc'', Hc', HDict.elem_of_tag_names.
  set_solver.
Qed.

(** The two ways columns are computed agree. *)
Lemma entities_to_grid_cols (results : list HDict) :
  entities_to_grid results =
  if decide (results = []) then HGrid.new
  else HGrid.from_parts HDict.new (read_cols results) results.
Proof.
  unfold entities_to_grid, read_cols. case_decide; [done|].
  pose proof (push_rows_spec results ∅ []) as Hp.
  destruct (foldl _ (∅, []) results) as [seen cols].
  destruct Hp as [Hnd Hcols]; [constructor|set_solver|]. do 2 f_equal.
  apply (StronglySorted_unique String.le); try (apply StronglySorted_merge_sort; apply _).
  rewrite !merge_sort_Permutation. apply NoDup_Permutation; [done|apply NoDup_hash_keys|].
  intros n. rewrite Hcols, elem_of_hash_keys, elem_of_col_seen, lookup_empty. set_solver.
Qed.

(** The columns are the tag names of the rows, sorted, each once. *)
Lemma read_cols_spec (results : list HDict) :
  let names := col_name <$> read_cols results in
  StronglySorted String.le names ∧ NoDup names ∧
  ∀ n, n ∈ names ↔ ∃ e, e ∈ results ∧ is_Some (e !! n).
Proof.
  unfold read_cols. cbn. rewrite <-list_fmap_compose.
  rewrite (list_fmap_ext _ id) by done. rewrite list_fmap_id.
  split; [apply StronglySorted_merge_sort; apply _|]. rewrite merge_sort_Permutation.
  split; [apply NoDup_hash_keys|]. intros n.
  rewrite merge_sort_Permutation, elem_of_hash_keys, elem_of_col_seen, lookup_empty. set_solver.
Qed.
End facts.
End QueryFacts.
