(* ===== verification/GraphValidation.v ===== *)
(** * The ontology over a graph

    The query context of a graph answers about its entities: forward lookups
    are those of the entity map, reverse ones are the entities that point at
    an id through a tag. *)

From S2P Require Import Prelude Floats Kinds Extern Bitmap Adjacency ValueIndex Filter Text Taxonomy Xeto Namespace Fitting NamespaceFacts FittingFacts Changelog Graph GraphInv Query QueryFacts.

Module OntologyGraph.
Import EntityGraph GraphInv QueryFacts.

Section context.
Context {HO : HashOrder} {HL : HashOrderLaws} {RB : Roaring} {RL : RoaringLaws}.
Context {CM : CacheMap} {CL : CacheLaws} {ON : Ontology} {CA : Catalog} {FS : FilterSyntax}.
Implicit Types (g : EntityGraph.t) (e : HDict).

Lemma refers_target g src tag tgt :
  refers g src tag tgt ↔ ∃ e, entities g !! src = Some e ∧ FittingFacts.target_of tag e = Some tgt.
Proof.
  unfold refers, FittingFacts.target_of. split.
  - intros (e & r & He & Htag & <- & Hne). exists e. by rewrite decide_False, Htag.
  - intros (e & He & Ht). case_decide; [done|].
    destruct (e !! tag) as [k|] eqn:Hk; [destruct k|]; try done. simplify_eq. by exists e, v.
Qed.

Lemma sources_to_nodup g tgt tag :
  inv g → NoDup (RefAdjacency.sources_to (adjacency g) tgt (Some tag)).
Proof.
  intros Hi. destruct (inv_indexed _ Hi) as (_ & Ha & _).
  pose proof (RefAdjacency.models_reverse_nodup _ _ Ha tgt) as Hnd.
  unfold RefAdjacency.sources_to, edges in *.
  destruct (RefAdjacency.reverse (adjacency g) !! tgt) as [l|]; [|constructor]. simpl in Hnd.
  apply NoDup_fmap_2_strong; [|by apply NoDup_filter].
  intros [t1 i1] [t2 i2] [H1 _]%list_elem_of_filter [H2 _]%list_elem_of_filter Heq.
  simpl in *. by subst.
Qed.

(** A list of keys of a submap, looked up in the whole map. *)
Lemma omap_lookup_keys {A} (m m' : gmap string A) :
  m' ⊆ m → omap (λ k, m !! k) (map_to_list m').*1 = (map_to_list m').*2.
Proof.
  intros Hsub.
  assert (Hl : ∀ kv, kv ∈ map_to_list m' → m !! kv.1 = Some kv.2).
  { intros [k v] Hkv%elem_of_map_to_list. by eapply map_subseteq_spec. }
  induction (map_to_list m') as [|[k v] l IH]; [done|]. simpl.
  pose proof (Hl (k, v) ltac:(left)) as Hk. simpl in Hk. rewrite Hk. f_equal. apply IH. intros kv Hkv. apply Hl. by right.
Qed.

Lemma NoDup_omap_inj {A B} (f : A → option B) l :
  (∀ x y b, f x = Some b → f y = Some b → x = y) → NoDup l → NoDup (omap f l).
Proof.
  intros Hinj. induction 1 as [|a l Ha Hl IH]; simpl; [constructor|].
  destruct (f a) as [b|] eqn:Hb; [|done]. constructor; [|done].
  rewrite list_elem_of_omap. intros (a' & Hin & Hb'). by rewrite (Hinj a a' b) in Ha.
Qed.

Lemma inverse_perm g i tag :
  inv g →
  inverse g i tag ≡ₚ
  (map_to_list (filter (λ kv, FittingFacts.target_of tag kv.2 = Some (ref_val i)) (entities g))).*2.
Proof.
  intros Hi. rewrite <-(omap_lookup_keys (entities g)) by apply map_filter_subseteq.
  unfold inverse. apply omap_Permutation, NoDup_Permutation.
  - apply NoDup_omap_inj, sources_to_nodup; [|done].
    intros x y b Hx Hy. by eapply store_id_inj; [apply inv_store|..].
  - apply NoDup_fst_map_to_list.
  - intros src. pose proof (elem_of_refs_to g src (ref_val i) (Some tag) Hi) as Hr.
    unfold GraphQuery.refs_to in Hr. rewrite Hr, list_elem_of_fmap. setoid_rewrite refers_target. split.
    + intros (tag' & (e & He & Ht) & Hok). simpl in Hok. subst tag'. exists (src, e).
      split; [done|]. by apply elem_of_map_to_list, map_lookup_filter_Some.
    + intros ([k e] & -> & [Hk Ht]%elem_of_map_to_list%map_lookup_filter_Some).
      exists tag. split; [by exists e|done].
Qed.

Lemma query_ctx_of g :
  inv g → FittingFacts.context_of (entities g) (inverse g) (query_ctx g).
Proof.
  intros Hi. split; simpl; [done|done| |lia]. intros tag i. by apply inverse_perm.
Qed.
End context.
End OntologyGraph.

(** ** Validation of a graph against a namespace

    [haystack-core/src/ontology/graph_validation.rs]: every entity is checked
    for the mandatory markers of the types it claims, references to missing
    entities are listed, and the counts summed up.  [None] is an arithmetic
    overflow of the subtractions. *)

Record ValidationSummary : Type := mkSummary {
  total_entities : N;
  valid : N;
  with_warnings : N;
  with_errors : N;
  untyped : N
}.
Record ValidationReport : Type := mkReport {
  entity_issues : gmap string (list FitIssue);
  dangling_refs : list (string * string * string);
  spec_coverage : F64.f64;
  summary : ValidationSummary
}.

Module GraphValidation.
Import Namespace.

Section model.
Context {HO : HashOrder} {RB : Roaring} {CM : CacheMap} {ON : Ontology} {CA : Catalog}.
Context `{Casing, StrictCatalog}.

(** A loop over a list with a body that reads the memos. *)
Fixpoint fold_m {A B} (f : B → A → M B) (acc : B) (l : list A) : M B :=
  match l with
  | [] => mret acc
  | a :: l => acc ← f acc a; fold_m f acc l
  end.

(** The entry of the local cache of mandatory tags. *)
Definition cached_tags (cache : gmap string (gset string)) (tag : string)
    : M (gset string * gmap string (gset string)) :=
  match cache !! tag with
  | Some tags => mret (tags, cache)
  | None => tags ← mandatory_tags tag; mret (tags, <[tag := tags]> cache)
  end.

(** The variables of the loop over the tags of an entity. *)
Record Claims : Type := mkClaims {
  is_typed : bool;
  issues : list FitIssue;
  mandatory_cache : gmap string (gset string)
}.
Definition claim (entity : HDict) (c : Claims) (tv : string * Kind) : M Claims :=
  known ← reads (λ ns, contains ns tv.1);
  match tv.2 with
  | KMarker =>
      if known : bool then
        r ← cached_tags (mandatory_cache c) tv.1;
        mret (mkClaims true
          (issues c ++ ((λ tag, MissingMarker tag tv.1) <$>
                        List.filter (HDict.missing entity) (hash_elems r.1))) r.2)
      else mret c
  | _ => mret c
  end.

Definition dangling_of (id_set : gset string) (id : string) (entity : HDict)
    : list (string * string * string) :=
  omap (λ tv : string * Kind,
    if decide (tv.1 = "id") then None
    else match tv.2 with
    | KRef r => if decide (ref_val r ∈ id_set) then None else Some (id, tv.1, ref_val r)
    | _ => None
    end) (HDict.iter entity).

(** The variables of the loop over the entities. *)
Record Acc : Type := mkAcc {
  acc_issues : gmap string (list FitIssue);
  acc_dangling : list (string * string * string);
  typed_count : N;
  error_count : N;
  acc_cache : gmap string (gset string)
}.
Definition validate_one (id_set : gset string) (acc : Acc) (entity : HDict) : M Acc :=
  match HDict.id entity with
  | None => mret acc
  | Some r =>
      c ← fold_m (claim entity) (mkClaims false [] (acc_cache acc)) (HDict.iter entity);
      let failed := negb (is_nil (issues c)) in
      mret (mkAcc
        (if failed then <[ref_val r := issues c]> (acc_issues acc) else acc_issues acc)
        (acc_dangling acc ++ dangling_of id_set (ref_val r) entity)
        (if is_typed c then typed_count acc + 1 else typed_count acc)%N
        (if failed then error_count acc + 1 else error_count acc)%N
        (mandatory_cache c))
  end.

(** [EntityGraph::all]. *)
Definition all (g : EntityGraph.t) : list HDict := (btree_iter (EntityGraph.entities g)).*2.
Definition ids_of (l : list HDict) : gset string :=
  list_to_set (omap (λ e, ref_val <$> HDict.id e) l).

Definition checked_minus (a b : N) : option N := if decide (b ≤ a)%N then Some (a - b)%N else None.

Definition validate_graph (g : EntityGraph.t) : M (option ValidationReport) :=
  let l := all g in
  let total := Prelude.len l in
  acc ← fold_m (validate_one (ids_of l)) (mkAcc ∅ [] 0 0 ∅) l;
  mret (
    untyped ← checked_minus total (typed_count acc);
    no_error ← checked_minus total (error_count acc);
    valid ← checked_minus no_error untyped;
    Some (mkReport (acc_issues acc) (acc_dangling acc)
      (if decide (total = 0)%N then F64.from_bits 0 else F64.div_counts (typed_count acc) total)
      (mkSummary total valid 0 (error_count acc) untyped))).
End model.

(** ** What a report says *)

Section facts.
Context {HO : HashOrder} {HL : HashOrderLaws} {RB : Roaring} {RL : RoaringLaws}.
Context {CM : CacheMap} {CL : CacheLaws} {ON : Ontology} {CA : Catalog} {FS : FilterSyntax}.
Context `{Casing, StrictCatalog, RegexCrate, FloatText}.
Import NamespaceFacts.
Implicit Types (ns : Namespace.t) (e : HDict).

Lemma answers_fold_m {A B} (f : B → A → M B) (p : B → A → t → B) l acc :
  (∀ acc a, answers (f acc a) (p acc a)) →
  answers (fold_m f acc l) (λ ns, foldl (λ acc a, p acc a ns) acc l).
Proof.
  intros Hf. revert acc. induction l as [|a l IH]; intros acc; cbn [fold_m foldl]; [apply answers_ret|].
  apply (answers_bind _ _ (p acc a) (λ acc ns, foldl (λ acc a, p acc a ns) acc l)); auto.
Qed.

(** The markers of an entity that are defined, and what the definitions ask
    for that it lacks. *)
Definition claims_tag ns (tv : string * Kind) : bool :=
  match tv.2 with KMarker => contains ns tv.1 | _ => false end.
Definition issues_of ns e : list FitIssue :=
  concat ((λ tv, if claims_tag ns tv
                 then (λ tag, MissingMarker tag tv.1) <$>
                      List.filter (HDict.missing e) (hash_elems (mandatory_of tv.1 ns))
                 else []) <$> HDict.iter e).
Definition typed ns e : bool := existsb (claims_tag ns) (HDict.iter e).
Definition failing ns e : bool := negb (is_nil (issues_of ns e)).

Definition tags_through (cache : gmap string (gset string)) (tag : string) ns
    : gset string * gmap string (gset string) :=
  match cache !! tag with
  | Some tags => (tags, cache)
  | None => (mandatory_of tag ns, <[tag := mandatory_of tag ns]> cache)
  end.
Definition claim_through e (c : Claims) (tv : string * Kind) ns : Claims :=
  if claims_tag ns tv then
    let r := tags_through (mandatory_cache c) tv.1 ns in
    mkClaims true (issues c ++ ((λ tag, MissingMarker tag tv.1) <$>
                     List.filter (HDict.missing e) (hash_elems r.1))) r.2
  else c.

Lemma claim_answers e c tv : answers (claim e c tv) (claim_through e c tv).
Proof.
  apply (answers_bind _ _ (λ ns, contains ns tv.1) (λ (b : bool) ns,
    if match tv.2 with KMarker => b | _ => false end then
      let r := tags_through (mandatory_cache c) tv.1 ns in
      mkClaims true (issues c ++ ((λ tag, MissingMarker tag tv.1) <$>
                       List.filter (HDict.missing e) (hash_elems r.1))) r.2
    else c)); [by apply answers_reads, stable_const|].
  intros b. destruct (tv.2); try apply answers_ret. destruct b; [|apply answers_ret].
  apply (answers_bind _ _ (tags_through (mandatory_cache c) tv.1) (λ r _,
    mkClaims true (issues c ++ ((λ tag, MissingMarker tag tv.1) <$>
                     List.filter (HDict.missing e) (hash_elems r.1))) r.2));
    [|intros; apply answers_ret].
  unfold cached_tags, tags_through. destruct (mandatory_cache c !! tv.1); [apply answers_ret|].
  apply (answers_bind _ _ _ (λ tags _, (tags, <[tv.1 := tags]> (mandatory_cache c))));
    [apply mandatory_tags_answers|intros; apply answers_ret].
Qed.

Definition one_through (id_set : gset string) (acc : Acc) e ns : Acc :=
  match HDict.id e with
  | None => acc
  | Some r =>
      let c := foldl (λ c tv, claim_through e c tv ns) (mkClaims false [] (acc_cache acc)) (HDict.iter e) in
      let failed := negb (is_nil (issues c)) in
      mkAcc
        (if failed then <[ref_val r := issues c]> (acc_issues acc) else acc_issues acc)
        (acc_dangling acc ++ dangling_of id_set (ref_val r) e)
        (if is_typed c then typed_count acc + 1 else typed_count acc)%N
        (if failed then error_count acc + 1 else error_count acc)%N
        (mandatory_cache c)
  end.
Lemma one_answers id_set acc e : answers (validate_one id_set acc e) (one_through id_set acc e).
Proof.
  unfold validate_one, one_through. destruct (HDict.id e) as [r|]; [|apply answers_ret].
  apply (answers_bind _ _ (λ ns, foldl (λ c tv, claim_through e c tv ns) (mkClaims false [] (acc_cache acc))
    (HDict.iter e)) (λ c _, let failed := negb (is_nil (issues c)) in
      mkAcc
        (if failed then <[ref_val r := issues c]> (acc_issues acc) else acc_issues acc)
        (acc_dangling acc ++ dangling_of id_set (ref_val r) e)
        (if is_typed c then typed_count acc + 1 else typed_count acc)%N
        (if failed then error_count acc + 1 else error_count acc)%N
        (mandatory_cache c))); [|intros; apply answers_ret].
  apply answers_fold_m. intros; apply claim_answers.
Qed.

(** The local cache holds what the namespace answers. *)
Definition cache_right ns (cache : gmap string (gset string)) : Prop :=
  ∀ tag tags, cache !! tag = Some tags → tags = mandatory_of tag ns.

Lemma tags_through_spec ns cache tag :
  cache_right ns cache →
  ∃ cache', tags_through cache tag ns = (mandatory_of tag ns, cache') ∧ cache_right ns cache'.
Proof.
  intros Hc. unfold tags_through. destruct (cache !! tag) as [tags|] eqn:Ht.
  - exists cache. by rewrite (Hc tag tags Ht).
  - eexists. split; [done|]. intros x y [[<- <-]|[_ ?]]%lookup_insert_Some; auto.
Qed.

Lemma fold_claims_spec ns e l c :
  cache_right ns (mandatory_cache c) →
  let c' := foldl (λ c tv, claim_through e c tv ns) c l in
  is_typed c' = is_typed c || existsb (claims_tag ns) l ∧
  issues c' = issues c ++ concat ((λ tv, if claims_tag ns tv
                 then (λ tag, MissingMarker tag tv.1) <$>
                      List.filter (HDict.missing e) (hash_elems (mandatory_of tv.1 ns))
                 else []) <$> l) ∧
  cache_right ns (mandatory_cache c').
Proof.
  revert c. induction l as [|tv l IH]; intros c Hc; cbn [foldl existsb].
  { cbv zeta. by rewrite orb_false_r, app_nil_r. }
  cbv zeta. rewrite fmap_cons. cbn [concat]. unfold claim_through at 2 4 6.
  destruct (claims_tag ns tv).
  - destruct (tags_through_spec ns _ tv.1 Hc) as (cache' & -> & Hc'). cbv zeta. cbn [fst snd].
    destruct (IH (mkClaims true (issues c ++ ((λ tag, MissingMarker tag tv.1) <$>
      List.filter (HDict.missing e) (hash_elems (mandatory_of tv.1 ns)))) cache') Hc') as (-> & -> & ?).
    cbn [is_typed issues]. rewrite orb_true_r, app_assoc. done.
  - destruct (IH c Hc) as (-> & -> & ?). by rewrite orb_false_l.
Qed.

(** One entity of the graph. *)
Lemma one_through_spec ns id_set acc e r :
  HDict.id e = Some r → cache_right ns (acc_cache acc) →
  let acc' := one_through id_set acc e ns in
  acc_issues acc' = (if failing ns e then <[ref_val r := issues_of ns e]> (acc_issues acc) else acc_issues acc) ∧
  acc_dangling acc' = acc_dangling acc ++ dangling_of id_set (ref_val r) e ∧
  typed_count acc' = (if typed ns e then typed_count acc + 1 else typed_count acc)%N ∧
  error_count acc' = (if failing ns e then error_count acc + 1 else error_count acc)%N ∧
  cache_right ns (acc_cache acc').
Proof.
  intros Hr Hc. unfold one_through. rewrite Hr.
  destruct (fold_claims_spec ns e (HDict.iter e) (mkClaims false [] (acc_cache acc)) Hc) as (H1' & H2' & H3').
  cbv zeta. cbn [acc_issues acc_dangling typed_count error_count acc_cache]. rewrite H1', H2'. done.
Qed.

Lemma fold_one_spec ns id_set kvs acc :
  NoDup kvs.*1 → (∀ k e, (k, e) ∈ kvs → has_ref k e) →
  (∀ k, k ∈ kvs.*1 → acc_issues acc !! k = None) → cache_right ns (acc_cache acc) →
  let acc' := foldl (λ acc e, one_through id_set acc e ns) acc kvs.*2 in
  (∀ k l, acc_issues acc' !! k = Some l ↔
     (∃ e, (k, e) ∈ kvs ∧ failing ns e = true ∧ l = issues_of ns e) ∨ acc_issues acc !! k = Some l) ∧
  acc_dangling acc' = acc_dangling acc ++ concat ((λ kv, dangling_of id_set kv.1 kv.2) <$> kvs) ∧
  typed_count acc' = (typed_count acc + Prelude.len (List.filter (typed ns) kvs.*2))%N ∧
  error_count acc' = (error_count acc + Prelude.len (List.filter (failing ns) kvs.*2))%N.
Proof.
  revert acc. induction kvs as [|[k e] kvs IH]; intros acc Hnd Hid Hfresh Hc; cbv zeta.
  { cbn. rewrite app_nil_r, !N.add_0_r. split_and!; [|done..]. intros k l.
    split; [by right|]. intros [(e & ?%elem_of_nil & _)|?]; done. }
  rewrite fmap_cons in Hnd, Hfresh. apply NoDup_cons in Hnd as [Hk Hnd].
  destruct (Hid k e ltac:(left)) as (r & Hr & Hrk).
  assert (Hide : HDict.id e = Some r) by (unfold HDict.id; by rewrite Hr).
  destruct (one_through_spec ns id_set acc e r Hide Hc) as (H1' & H2' & H3' & H4' & H5').
  rewrite Hrk in *. rewrite !fmap_cons. cbn [foldl snd fst List.filter concat].
  destruct (IH (one_through id_set acc e ns) Hnd) as (IH1 & -> & -> & ->);
    [intros k' e' Hin; apply Hid; by right| |done|].
  { intros k' Hk'. rewrite H1'. destruct (failing ns e); [rewrite lookup_insert_ne by (by intros <-)|];
      apply Hfresh; by right. }
  rewrite H2', H3', H4', app_assoc. split_and!; [|done|destruct (typed ns e)|destruct (failing ns e)];
    rewrite ?len_cons; try lia.
  specialize (Hfresh k ltac:(left)). intros k' l. rewrite IH1, H1'. split.
  - intros [(e' & Hin & ?)|Hl]; [left; exists e'; split; [by right|done]|].
    destruct (failing ns e) eqn:Hfe; [|by right].
    apply lookup_insert_Some in Hl as [[<- <-]|[_ ?]]; [left; exists e; split; [left|done]|by right].
  - intros [(e' & [[= -> ->]|Hin]%elem_of_cons & Hf & ->)|Hl]; [right|left; eauto|right].
    + by rewrite Hf, lookup_insert_eq.
    + destruct (failing ns e); [|done]. rewrite lookup_insert_ne; [done|]. intros <-. congruence.
Qed.

(** Elements of the parts of a report. *)
Lemma elem_of_issues_of ns e i :
  i ∈ issues_of ns e ↔ ∃ claimed tag, i = MissingMarker tag claimed ∧
    e !! claimed = Some KMarker ∧ contains ns claimed = true ∧
    tag ∈ mandatory_of claimed ns ∧ e !! tag = None.
Proof.
  assert (Hmiss : ∀ tag, HDict.missing e tag = true ↔ e !! tag = None).
  { intros tag. unfold HDict.missing, HDict.has. rewrite negb_true_iff, bool_decide_eq_false.
    destruct (e !! tag); naive_solver. }
  unfold issues_of. rewrite list_elem_of_In, in_concat. setoid_rewrite <-list_elem_of_In.
  setoid_rewrite list_elem_of_fmap. split.
  - intros (l & ([tag v] & -> & Hin) & Hi). apply HDict.elem_of_iter in Hin.
    unfold claims_tag in Hi. cbn [fst snd] in Hi.
    destruct v; try (by apply elem_of_nil in Hi). destruct (contains ns tag) eqn:Hc; [|by apply elem_of_nil in Hi].
    apply list_elem_of_fmap in Hi as (x & -> & Hx%list_elem_of_In).
    apply List.filter_In in Hx as [Hx%list_elem_of_In%elem_of_hash_elems Hm%Hmiss].
    by exists tag, x.
  - intros (claimed & tag & -> & Hcl & Hc & Ht & Hm). eexists. split.
    + exists (claimed, KMarker). split; [done|by apply HDict.elem_of_iter].
    + unfold claims_tag. cbn [fst snd]. rewrite Hc. apply list_elem_of_fmap. exists tag. split; [done|].
      apply list_elem_of_In, List.filter_In. split; [by apply list_elem_of_In, elem_of_hash_elems|].
      by apply Hmiss.
Qed.

(** An entity that fails claims a type. *)
Lemma failing_typed ns e : failing ns e = true → typed ns e = true.
Proof.
  unfold failing, typed, issues_of. rewrite is_nil_concat, negb_true_iff.
  induction (HDict.iter e) as [|tv l IH]; [done|]. cbn [forallb existsb].
  destruct (claims_tag ns tv); simpl; auto.
Qed.
Lemma len_filter_le {A} (f h : A → bool) l :
  (∀ a, f a = true → h a = true) →
  (Prelude.len (List.filter f l) ≤ Prelude.len (List.filter h l) ≤ Prelude.len l)%N.
Proof.
  intros Hfh. induction l as [|a l IH]; [done|]. cbn [List.filter]. specialize (Hfh a).
  destruct (f a), (h a); rewrite ?len_cons; [lia|naive_solver|lia|lia].
Qed.
Lemma len_filter_negb {A} (f : A → bool) l :
  (Prelude.len (List.filter f l) + Prelude.len (List.filter (λ a, negb (f a)) l) = Prelude.len l)%N.
Proof. induction l as [|a l IH]; [done|]. cbn [List.filter]. destruct (f a); cbn [negb]; rewrite ?len_cons; lia. Qed.

Lemma checked_minus_le a b : (b ≤ a)%N → checked_minus a b = Some (a - b)%N.
Proof. intros Hab. unfold checked_minus. by rewrite decide_True. Qed.

Lemma elem_of_ids_of g id :
  GraphInv.inv g → id ∈ ids_of (all g) ↔ is_Some (EntityGraph.entities g !! id).
Proof.
  intros Hi. unfold ids_of, all. rewrite elem_of_list_to_set, list_elem_of_omap.
  setoid_rewrite list_elem_of_fmap.
  pose proof (store_ref _ _ _ _ _ (GraphInv.inv_store _ Hi)) as Href. split.
  - intros (e & ([k e'] & -> & Hin) & Hid). apply elem_of_btree_iter in Hin. cbn [snd] in Hid.
    destruct (Href _ _ Hin) as (r & Hr & <-). unfold HDict.id in Hid. rewrite Hr in Hid.
    injection Hid as <-. eauto.
  - intros [e He]. exists e. split; [exists (id, e); split; [done|by apply elem_of_btree_iter]|].
    destruct (Href _ _ He) as (r & Hr & <-). unfold HDict.id. by rewrite Hr.
Qed.

Lemma elem_of_dangling_of g id e d :
  GraphInv.inv g → EntityGraph.entities g !! id = Some e →
  d ∈ dangling_of (ids_of (all g)) id e ↔
  ∃ tag tgt, d = (id, tag, tgt) ∧ QueryFacts.refers g id tag tgt ∧ EntityGraph.entities g !! tgt = None.
Proof.
  intros Hi He. unfold dangling_of. rewrite list_elem_of_omap. split.
  - intros ([tag v] & Hin & Hd). cbn [fst snd] in Hd. case_decide; [done|].
    destruct v; try done. case_decide as Hids; [done|]. injection Hd as <-.
    apply HDict.elem_of_iter in Hin. rewrite elem_of_ids_of in Hids by done.
    exists tag, (ref_val v). split_and!; [done|by exists e, v|by apply eq_None_not_Some].
  - intros (tag & tgt & -> & (e' & r & He' & Ht & <- & Hne) & Hnone). simplify_eq.
    exists (tag, KRef r). split; [by apply HDict.elem_of_iter|]. cbn [fst snd].
    rewrite decide_False by done. rewrite decide_False; [done|].
    rewrite elem_of_ids_of, Hnone by done. by intros [].
Qed.

(** The report of a graph: it exists, so no subtraction overflows, and says
    what it is documented to. *)
Lemma validate_graph_spec g ns :
  GraphInv.inv g → good ns →
  ∃ report, (validate_graph g ns).1 = Some report ∧
    (∀ id l, entity_issues report !! id = Some l ↔
       ∃ e, EntityGraph.entities g !! id = Some e ∧ failing ns e = true ∧ l = issues_of ns e) ∧
    (∀ id tag tgt, (id, tag, tgt) ∈ dangling_refs report ↔
       QueryFacts.refers g id tag tgt ∧ EntityGraph.entities g !! tgt = None) ∧
    total_entities (summary report) = Prelude.len (all g) ∧
    with_errors (summary report) = Prelude.len (List.filter (failing ns) (all g)) ∧
    untyped (summary report) = Prelude.len (List.filter (λ e, negb (typed ns e)) (all g)) ∧
    (valid (summary report) + with_errors (summary report) + untyped (summary report) =
     total_entities (summary report))%N.
Proof.
  intros Hi Hg. set (kvs := btree_iter (EntityGraph.entities g)).
  assert (Hrun : (fold_m (validate_one (ids_of (all g))) (mkAcc ∅ [] 0 0 ∅) (all g) ns).1 =
    foldl (λ acc e, one_through (ids_of (all g)) acc e ns) (mkAcc ∅ [] 0 0 ∅) kvs.*2).
  { refine (answers_run _ _ ns (answers_fold_m (validate_one (ids_of (all g))) (one_through (ids_of (all g)))
      (all g) _ _) Hg). intros; apply one_answers. }
  destruct (fold_one_spec ns (ids_of (all g)) kvs (mkAcc ∅ [] 0 0 ∅)) as (H1' & H2' & H3' & H4');
    [apply NoDup_btree_keys| |done|done|].
  { intros k e Hin%elem_of_btree_iter. by apply (store_ref _ _ _ _ _ (GraphInv.inv_store _ Hi)). }
  unfold validate_graph. unfold mbind, M_bind. destruct (fold_m _ _ _ ns) as [acc ns'].
  cbn [fst] in Hrun. subst acc. unfold mret, M_ret. cbn [fst]. rewrite H3', H4'. cbn [typed_count error_count].
  change kvs.*2 with (all g) in *. rewrite !N.add_0_l.
  pose proof (len_filter_le (failing ns) (typed ns) (all g) (failing_typed ns)) as Hle.
  pose proof (len_filter_negb (typed ns) (all g)) as Hneg.
  repeat (rewrite checked_minus_le by lia; cbn [mbind option_bind]).
  eexists. split; [done|].
  cbn [entity_issues dangling_refs summary total_entities valid with_errors untyped]. split_and!; [| |done|done|lia|lia].
  - intros id l. rewrite H1'. cbn [acc_issues]. rewrite lookup_empty. subst kvs.
    setoid_rewrite elem_of_btree_iter. naive_solver.
  - intros id tag tgt. rewrite H2'. cbn [acc_dangling app].
    rewrite list_elem_of_In, in_concat. setoid_rewrite <-list_elem_of_In. setoid_rewrite list_elem_of_fmap. split.
    + intros (l & ([k e] & -> & Hin%elem_of_btree_iter) & Hd). cbn [fst snd] in Hd.
      apply elem_of_dangling_of in Hd as (tag' & tgt' & [= -> -> ->] & ?); done.
    + intros [Href Hnone]. pose proof Href as (e & _ & He & _). eexists. split.
      * exists (id, e). split; [done|by apply elem_of_btree_iter].
      * apply elem_of_dangling_of; [done|done|]. by exists tag, tgt.
Qed.
End facts.
End GraphValidation.
