(* ===== verification/Hierarchy.v ===== *)
(** * Hierarchy trees

    [EntityGraph::hierarchy_tree] follows inbound references depth first with
    a visited set.  The tree it builds is well formed (every node is an
    entity that refers to its parent, at its depth, within the depth limit),
    holds no entity twice even when the references form cycles, and, when the
    depth limit does not cut, holds every entity that leads to the root. *)

From S2P Require Import Prelude Floats Kinds Extern Bitmap Adjacency ValueIndex Filter Changelog Graph GraphInv Query QueryFacts.

(** The entities of a tree, parents first. *)
Fixpoint node_entities (node : HierarchyNode) : list HDict :=
  match node with
  | mkNode e cs _ => e :: concat (map node_entities cs)
  end.

(** Induction over a tree and its children. *)
Lemma HierarchyNode_nested_ind (P : HierarchyNode → Prop)
  (Hnode : ∀ e cs depth, Forall P cs → P (mkNode e cs depth)) : ∀ node, P node.
Proof.
  fix rec 1. intros [e cs depth]. apply Hnode.
  induction cs as [|c cs IH]; constructor; [apply rec|apply IH].
Qed.

Module HierarchyFacts.
Import EntityGraph GraphQuery GraphInv QueryFacts.

Section facts.
Context {HO : HashOrder} {HL : HashOrderLaws} {RB : Roaring} {RL : RoaringLaws}.
Context {CM : CacheMap} {CL : CacheLaws} {ON : Ontology} {CA : Catalog} {FS : FilterSyntax}.
Context (g : EntityGraph.t) (Hi : inv g).

Definition tree_refs (node : HierarchyNode) : list string := omap entity_ref (node_entities node).
Definition forest_refs (nodes : list HierarchyNode) : list string := concat (tree_refs <$> nodes).

(** A tree of the graph rooted at [ref], [depth] levels below the top. *)
Inductive tree_ok (max : N) : string → N → HierarchyNode → Prop :=
| tree_ok_node ref e cs depth :
    entities g !! ref = Some e → (depth ≤ max)%N →
    (∀ c, c ∈ cs → ∃ ref' tag, refers g ref' tag ref ∧ tree_ok max ref' (depth + 1) c) →
    tree_ok max ref depth (mkNode e cs depth).

(** The loop body of [build_subtree]. *)
Definition visit (n : nat) (depth : N) (acc : list HierarchyNode * gset string) (child : HDict)
    : list HierarchyNode * gset string :=
  let '(nodes, visited) := acc in
  match HDict.id child with
  | None => (nodes, visited)
  | Some r =>
      if decide (ref_val r ∈ visited) then (nodes, visited)
      else
        let '(node, visited) :=
          build_subtree g n (ref_val r) child (depth + 1) ({[ref_val r]} ∪ visited) in
        (nodes ++ [node], visited)
  end.

Lemma build_subtree_S n ref e depth visited :
  build_subtree g (S n) ref e depth visited =
  let '(nodes, visited) := foldl (visit n depth) ([], visited) (children g ref) in
  (mkNode e nodes depth, visited).
Proof. reflexivity. Qed.

Lemma entity_ref_of ref e : entities g !! ref = Some e → entity_ref e = Some ref.
Proof.
  intros He. destruct (store_ref _ _ _ _ _ (inv_store _ Hi) _ _ He) as (r & Hr & <-).
  unfold entity_ref, HDict.get. by rewrite Hr.
Qed.

Lemma child_id child ref :
  child ∈ children g ref →
  ∃ src tag r, HDict.id child = Some r ∧ ref_val r = src ∧ entities g !! src = Some child ∧
    refers g src tag ref.
Proof.
  intros (src & tag & He & Href)%elem_of_children; [|done].
  destruct (store_ref _ _ _ _ _ (inv_store _ Hi) _ _ He) as (r & Hr & Hsrc).
  exists src, tag, r. split; [by apply HDict.id_lookup|]. done.
Qed.

Lemma tree_refs_node ref e cs depth :
  entities g !! ref = Some e → tree_refs (mkNode e cs depth) = ref :: forest_refs cs.
Proof.
  intros He. unfold tree_refs, forest_refs. cbn [node_entities omap list_omap].
  rewrite (entity_ref_of ref e He). f_equal.
  induction cs as [|c cs IH]; [done|].
  change (tree_refs <$> c :: cs) with (tree_refs c :: (tree_refs <$> cs)). cbn [map concat].
  rewrite omap_app. f_equal. exact IH.
Qed.

Definition unvisited (visited : gset string) : nat := size (dom (entities g) ∖ visited).

Lemma unvisited_insert ref visited :
  is_Some (entities g !! ref) → ref ∉ visited →
  unvisited visited = S (unvisited ({[ref]} ∪ visited)).
Proof.
  intros Hs Hn. unfold unvisited.
  assert (Heq : dom (entities g) ∖ visited = {[ref]} ∪ (dom (entities g) ∖ ({[ref]} ∪ visited))).
  { apply set_eq. intros x. rewrite elem_of_union, !elem_of_difference, elem_of_union,
      elem_of_singleton, elem_of_dom.
    destruct (decide (x = ref)) as [->|]; naive_solver. }
  rewrite Heq, size_union by set_solver. by rewrite size_singleton.
Qed.

Lemma unvisited_mono v v' : v ⊆ v' → unvisited v' ≤ unvisited v.
Proof. intros Hv. unfold unvisited. apply subseteq_size. set_solver. Qed.

(** What a list of subtrees built for the children of [ref] satisfies, with
    [vis] visited before and [vis'] after. *)
Record forest_ok (max depth : N) (n : nat) (ref : string) (vis : gset string)
    (nodes : list HierarchyNode) (vis' : gset string) : Prop := {
  forest_nodup : NoDup (forest_refs nodes);
  forest_new r : r ∈ forest_refs nodes → r ∉ vis;
  forest_visited r : r ∈ vis' ↔ r ∈ vis ∨ r ∈ forest_refs nodes;
  forest_trees c : c ∈ nodes → ∃ ref' tag, refers g ref' tag ref ∧ tree_ok max ref' (depth + 1) c;
  forest_closed : unvisited vis ≤ n → ∀ r src tag,
    r ∈ forest_refs nodes → refers g src tag r → src ∈ vis'
}.

Definition subtree_ok (max depth : N) (n : nat) : Prop :=
  ∀ ref e vis, entities g !! ref = Some e → ref ∈ vis →
    ∃ nodes vis', build_subtree g n ref e depth vis = (mkNode e nodes depth, vis') ∧
      forest_ok max depth n ref vis nodes vis' ∧
      (unvisited vis ≤ n → ∀ src tag, refers g src tag ref → src ∈ vis').

Lemma forest_refs_app a b : forest_refs (a ++ b) = forest_refs a ++ forest_refs b.
Proof. unfold forest_refs. by rewrite fmap_app, concat_app. Qed.
Lemma forest_refs_singleton c : forest_refs [c] = tree_refs c.
Proof. unfold forest_refs. cbn. by rewrite app_nil_r. Qed.

Lemma forest_ok_nil max depth n ref vis : forest_ok max depth n ref vis [] vis.
Proof.
  split; unfold forest_refs; cbn.
  - constructor.
  - by intros r ?%elem_of_nil.
  - intros r. rewrite elem_of_nil. tauto.
  - by intros c ?%elem_of_nil.
  - by intros _ r src tag ?%elem_of_nil.
Qed.

(** A child that was not visited adds its subtree to the forest. *)
Lemma forest_ok_snoc max depth n ref vis nodes vis1 src tag c cs v' :
  (depth + 1 + N.of_nat n ≤ max)%N → refers g src tag ref → entities g !! src = Some c →
  tree_refs (mkNode c cs (depth + 1)) = src :: forest_refs cs → src ∉ vis1 →
  forest_ok max depth (S n) ref vis nodes vis1 →
  forest_ok max (depth + 1) n src ({[src]} ∪ vis1) cs v' →
  (unvisited ({[src]} ∪ vis1) ≤ n → ∀ src' tag', refers g src' tag' src → src' ∈ v') →
  forest_ok max depth (S n) ref vis (nodes ++ [mkNode c cs (depth + 1)]) v'.
Proof.
  intros Hmax Href He Href_c Hvis [Fnd Fnew Fvis Ftree Fclosed] Hcs Hclosed.
  assert (Hv' : ∀ x, x ∈ v' ↔ x ∈ vis1 ∨ x = src ∨ x ∈ forest_refs cs).
  { intros x. rewrite (forest_visited _ _ _ _ _ _ _ Hcs). set_solver. }
  assert (Hcnew : ∀ x, x ∈ forest_refs cs → x ∉ vis ∧ x ∉ forest_refs nodes ∧ x ≠ src).
  { intros x Hx%(forest_new _ _ _ _ _ _ _ Hcs). set_solver. }
  split; rewrite ?forest_refs_app, ?forest_refs_singleton, ?Href_c.
  - apply NoDup_app. split; [done|]. split.
    + intros x Hx [->|Hx'%Hcnew]%elem_of_cons; [by apply Hvis, Fvis; right|by destruct Hx' as (_ & ? & _)].
    + constructor; [intros Hin%Hcnew; by destruct Hin as (_ & _ & ?)|apply (forest_nodup _ _ _ _ _ _ _ Hcs)].
  - intros x [Hx|[->|Hx%Hcnew]%elem_of_cons]%elem_of_app; [by apply Fnew| |by apply Hx].
    intros Hv. apply Hvis, Fvis. by left.
  - intros x. rewrite Hv', Fvis. set_solver.
  - intros x [Hx| ->%list_elem_of_singleton]%elem_of_app; [by apply Ftree|].
    exists src, tag. split; [done|]. constructor; [done|lia|].
    apply (forest_trees _ _ _ _ _ _ _ Hcs).
  - intros Hn x y t Hx Hxy. apply Hv'.
    assert (Hn' : unvisited ({[src]} ∪ vis1) ≤ n).
    { pose proof (unvisited_insert src vis1 ltac:(by eexists) Hvis).
      assert (Hsubv : vis ⊆ vis1) by (intros z Hz; apply Fvis; by left).
      pose proof (unvisited_mono vis vis1 Hsubv). lia. }
    apply elem_of_app in Hx as [Hx|[->|Hx]%elem_of_cons].
    + left. by eapply Fclosed.
    + apply Hv'. by eapply Hclosed.
    + apply Hv'. by eapply (forest_closed _ _ _ _ _ _ _ Hcs).
Qed.

(** Visiting the children one by one. *)
Lemma visit_all max depth n ref vis (l : list HDict) nodes vis1 :
  (depth + 1 + N.of_nat n ≤ max)%N → subtree_ok max (depth + 1) n →
  (∀ c, c ∈ l → c ∈ children g ref) →
  forest_ok max depth (S n) ref vis nodes vis1 →
  ∃ nodes' vis2, foldl (visit n depth) (nodes, vis1) l = (nodes', vis2) ∧
    forest_ok max depth (S n) ref vis nodes' vis2 ∧ vis1 ⊆ vis2 ∧
    ∀ c r, c ∈ l → HDict.id c = Some r → ref_val r ∈ vis2.
Proof.
  intros Hmax Hsub. revert nodes vis1.
  induction l as [|c l IH]; intros nodes vis1 Hl Hf; cbn [foldl].
  { eexists _, _. split; [done|]. split; [done|]. split; [done|]. by intros ? ? ?%elem_of_nil. }
  destruct (child_id c ref) as (src & tag & r & Hr & Hsrc & He & Href); [apply Hl; left|].
  assert (Hl' : ∀ c', c' ∈ l → c' ∈ children g ref) by (intros; apply Hl; by right).
  unfold visit at 2. rewrite Hr, Hsrc. case_decide as Hvis.
  { destruct (IH nodes vis1 Hl' Hf) as (ns & v2 & -> & Hok & Hinc & Hall).
    exists ns, v2. do 3 (split; [done|]). intros c' r' [->|Hc]%elem_of_cons Hr'; [|by eapply Hall].
    assert (r' = r) as -> by congruence. rewrite Hsrc. by apply Hinc. }
  destruct (Hsub src c ({[src]} ∪ vis1) He) as (cs & v' & Hb & Hcs & Hclosed); [set_solver|].
  rewrite Hb.
  assert (Hv' : vis1 ⊆ v' ∧ src ∈ v').
  { pose proof (forest_visited _ _ _ _ _ _ _ Hcs). set_solver. }
  destruct (IH (nodes ++ [mkNode c cs (depth + 1)]) v' Hl') as (ns & v2 & -> & Hok & Hinc & Hall).
  { eapply forest_ok_snoc; try done. by apply tree_refs_node. }
  exists ns, v2. split; [done|]. split; [done|].
  split; [set_solver|]. intros c' r' [->|Hc]%elem_of_cons Hr'; [|by eapply Hall].
  assert (r' = r) as -> by congruence. rewrite Hsrc. set_solver.
Qed.

Lemma subtree_spec max n depth :
  (depth + N.of_nat n ≤ max)%N → subtree_ok max depth n.
Proof.
  revert depth. induction n as [|n IH]; intros depth Hmax ref e vis He Hvis.
  - exists [], vis. split; [done|]. split.
    + apply forest_ok_nil.
    + intros Hn src tag (e' & r & He' & _). unfold unvisited in Hn.
      destruct (decide (src ∈ vis)) as [|Hno]; [done|]. exfalso.
      assert (Hin : src ∈ dom (entities g) ∖ vis).
      { apply elem_of_difference. split; [|done]. apply elem_of_dom. by eexists. }
      assert (size (dom (entities g) ∖ vis) = 0) as Hz by lia.
      apply size_empty_inv in Hz. set_solver.
  - rewrite build_subtree_S.
    destruct (visit_all max depth n ref vis (children g ref) [] vis)
      as (nodes & vis' & -> & Hok & Hinc & Hall); [lia|apply IH; lia|done|apply forest_ok_nil|].
    exists nodes, vis'. split; [done|]. split; [done|].
    intros _ src tag Href. pose proof Href as (c & _ & Hc & _).
    destruct (store_ref _ _ _ _ _ (inv_store _ Hi) _ _ Hc) as (r' & Hr' & <-).
    apply (Hall c); [|by apply HDict.id_lookup]. apply elem_of_children; [done|]. eauto.
Qed.

(** Everything that leads to the root by references. *)
Inductive leads_to (root : string) : string → Prop :=
| leads_refl : leads_to root root
| leads_step r src tag : leads_to root r → refers g src tag r → leads_to root src.

Lemma tree_ok_leads max top depth ref node :
  tree_ok max ref depth node → leads_to top ref →
  ∀ r, r ∈ tree_refs node → is_Some (entities g !! r) ∧ leads_to top r.
Proof.
  revert depth ref.
  induction node as [e cs d IH] using HierarchyNode_nested_ind. intros depth ref Hok Htop r.
  inversion Hok as [ref' e' cs' d' He _ Hcs]; subst.
  rewrite (tree_refs_node ref) by done. intros [->|Hin]%elem_of_cons; [by split; [eexists|]|].
  unfold forest_refs in Hin. apply elem_of_concat in Hin as (l & Hl & Hin).
  apply list_elem_of_fmap in Hl as (c & -> & Hc).
  destruct (Hcs c Hc) as (ref' & tag & Href & Hc').
  rewrite Forall_forall in IH. by eapply IH; [|exact Hc'|eapply leads_step|].
Qed.

Lemma hierarchy_tree_spec root max :
  match hierarchy_tree g root max with
  | None => entities g !! root = None
  | Some tree =>
      tree_ok max root 0 tree ∧ NoDup (tree_refs tree) ∧
      (∀ r, r ∈ tree_refs tree → is_Some (entities g !! r) ∧ leads_to root r) ∧
      (N.of_nat (size (entities g)) ≤ max + 1 →
       ∀ r, leads_to root r → r ∈ tree_refs tree)%N
  end.
Proof.
  unfold hierarchy_tree. on_ok (entities g !! root) as [e|] He.
  cbn [mbind option_bind].
  destruct (subtree_spec max (N.to_nat max) 0 ltac:(lia) root e {[root]} He)
    as (nodes & vis & -> & Hok & Hclosed); [set_solver|]. cbn [fst].
  assert (Hrefs : tree_refs (mkNode e nodes 0) = root :: forest_refs nodes)
    by by apply tree_refs_node.
  assert (Htree : tree_ok max root 0 (mkNode e nodes 0)).
  { constructor; [done|lia|]. apply (forest_trees _ _ _ _ _ _ _ Hok). }
  split; [done|]. rewrite Hrefs. split; [|split].
  - constructor; [|apply (forest_nodup _ _ _ _ _ _ _ Hok)].
    intros Hin%(forest_new _ _ _ _ _ _ _ Hok). set_solver.
  - rewrite <-Hrefs. apply (tree_ok_leads max root 0 root); [done|constructor].
  - intros Hsize. assert (Hun : unvisited {[root]} ≤ N.to_nat max).
    { assert (Hempty : unvisited ∅ = size (entities g)).
      { unfold unvisited. rewrite difference_empty_L. apply size_dom. }
      pose proof (unvisited_insert root ∅ ltac:(by eexists) ltac:(set_solver)) as Hins.
      rewrite (right_id_L ∅ (∪)) in Hins. lia. }
    intros r Hr. induction Hr as [|r src tag Hr IH Href]; [left|].
    assert (src ∈ vis) as Hv.
    { apply elem_of_cons in IH as [->|IH]; [by eapply Hclosed|].
      by eapply (forest_closed _ _ _ _ _ _ _ Hok). }
    apply (forest_visited _ _ _ _ _ _ _ Hok) in Hv as [?%elem_of_singleton|?]; set_solver.
Qed.
End facts.
End HierarchyFacts.
