(* ===== verification/System.v ===== *)
(** * The graph as a system

    Runs of the graph: a step relation with one rule per public operation
    (mutations, reads, index registration, catalog publication), its
    reachable states, and what holds along a run: the invariant, the absence
    of panics, and the replay of the changelog by a subscriber.  Grids are
    the exchange format: exporting and importing a graph gives it back. *)

From S2P Require Import Prelude Floats Kinds Size Extern Bitmap Adjacency ValueIndex Filter Changelog Graph GraphInv Prepared PreparedFacts BatchFacts Query QueryFacts.

Module System.
Import EntityGraph GraphQuery GraphInv QueryFacts BatchFacts.

Section system.
Context {HO : HashOrder} {HL : HashOrderLaws} {RB : Roaring} {RL : RoaringLaws}.
Context {CM : CacheMap} {CL : CacheLaws} {ON : Ontology} {CA : Catalog} {FS : FilterSyntax}.
Implicit Types (g : EntityGraph.t) (e : HDict) (ref : string).

(** ** Steps *)

(** A graph as it is first created. *)
Inductive initial : EntityGraph.t → Prop :=
| initial_new inc : initial (new inc)
| initial_capacity inc cap : initial (with_changelog_capacity inc cap)
| initial_limits inc cap bytes : (bytes ≤ usize_max)%N → initial (with_changelog_limits inc cap bytes)
| initial_namespace inc ns : initial (with_namespace inc ns).

(** One call of a public operation that returns.  A batch may have been
    prepared earlier; [steps_fresh] shows that the plans [apply_prepared]
    accepts are those of a graph with the same rows. *)
Inductive step : EntityGraph.t → EntityGraph.t → Prop :=
| step_add now g e g' r : add now g e = Some (g', r) → step g g'
| step_update now g ref c g' r : update now g ref c = Some (g', r) → step g g'
| step_remove now g ref g' r : remove now g ref = Some (g', r) → step g g'
| step_read g text limit : step g (read_all g text limit).1
| step_index_field g f g' : index_field g f = Some g' → step g g'
| step_rebuild g : step g (rebuild_value_index g)
| step_publish g next : step g (publish_catalog g next).1
| step_initialize g expected base c : step g (compare_initialize_catalog g expected base c).1
| step_activate g expected old next : step g (compare_activate_catalog g expected old next).1
| step_namespace fresh g ns g' : set_namespace fresh g ns = Some g' → step g g'
| step_renew inc g : step g (renew_incarnation inc g)
| step_batch sz caps g0 v ops limits p now reserved g g' r :
    same_rows g0 g → PreparedBatch.prepare_batch sz caps g0 v ops limits = Some (Ok p) →
    PreparedBatch.apply_prepared now reserved g p = Some (g', r) → step g g'.

Definition reachable g : Prop := ∃ g0, initial g0 ∧ rtc step g0 g.

(** A step leaves the entities, the version and the log alone, or is one
    mutation. *)
Definition quiet g g' : Prop :=
  entities g' = entities g ∧ version g' = version g ∧ changelog g' = changelog g.

Lemma quiet_refl g : quiet g g.
Proof. done. Qed.

Lemma publish_inv g next : inv g → inv (publish_catalog g next).1 ∧ quiet g (publish_catalog g next).1.
Proof.
  intros Hi. unfold publish_catalog. destruct (checked_add _ _ _); [|done].
  split; [by apply set_catalog_inv|done].
Qed.

Lemma set_namespace_inv fresh g ns g' :
  inv g → set_namespace fresh g ns = Some g' → inv g' ∧ quiet g g'.
Proof.
  intros Hi. unfold set_namespace. intros (gen & _ & Hg)%bind_Some.
  destruct (activated g); injection Hg as <-; (split; [by apply set_catalog_inv|done]).
Qed.

Lemma index_field_inv g f g' :
  inv g → index_field g f = Some g' → inv g' ∧ quiet g g'.
Proof.
  intros Hi Hf. destruct (decide (ValueIndex.has_index (value_index g) f = true)) as [Hh|Hh].
  - unfold index_field in Hf. rewrite Hh in Hf. by injection Hf as <-.
  - pose proof Hf as Hf'. unfold index_field in Hf'. apply not_true_is_false in Hh.
    rewrite Hh in Hf'. apply bind_Some in Hf' as (gen & [_ Hgen]%checked_add_Some & _).
    destruct (index_field_spec g f Hi) as (g2 & Hg2 & Hi2 & Habs & Hlog & _); [left; lia|].
    assert (g2 = g') as <- by congruence. injection Habs as He Hv. done.
Qed.

(** Besides the invariant: a step that keeps the revision and the index
    registration keeps the rows. *)
Definition fresh g g' : Prop :=
  (version g < version g')%N ∨
  version g' = version g ∧ (index_generation g ≤ index_generation g')%N ∧
  (index_generation g' = index_generation g → same_rows g g').

Lemma fresh_refl g : inv g → fresh g g.
Proof. intros Hi. right. do 2 (split; [done|]). intros _. by apply same_rows_refl. Qed.

Lemma extends_fresh g g' : extends g g' → fresh g g'.
Proof. intros [Hv _]. left. lia. Qed.

(** Only the catalog and the caches differ. *)
Lemma set_catalog_fresh g ns ac gen qc : inv g → fresh g (set_catalog ns ac gen qc g).
Proof. intros Hi. right. do 2 (split; [done|]). intros _. destruct (same_rows_refl g Hi). by split. Qed.

Lemma models_buckets vi vi' rs f k :
  ValueIndex.models vi rs → ValueIndex.models vi' rs →
  (∀ f, is_Some (ValueIndex.indexes vi !! f) ↔ is_Some (ValueIndex.indexes vi' !! f)) →
  ValueIndex.bucket vi f k ≡ₚ ValueIndex.bucket vi' f k.
Proof.
  intros H1 H2 Hf. apply NoDup_Permutation; [apply H1|apply H2|]. intros id.
  destruct (decide (is_Some (ValueIndex.indexes vi !! f))) as [Hs|Hs].
  - rewrite (ValueIndex.models_bucket _ _ H1), (ValueIndex.models_bucket _ _ H2); [done| |done].
    by apply Hf.
  - rewrite !ValueIndex.bucket_unindexed; [done| |done]. by rewrite <-Hf.
Qed.

Lemma rebuild_fresh g : inv g → fresh g (rebuild_value_index g).
Proof.
  intros Hi. right. do 2 (split; [done|]). intros _.
  destruct (inv_indexed _ Hi) as (_ & _ & Hv).
  destruct (inv_indexed _ (proj1 (rebuild_spec g Hi))) as (_ & _ & Hv').
  change (rows (rebuild_value_index g)) with (rows g) in Hv'.
  assert (Hf : ∀ f, is_Some (ValueIndex.indexes (value_index g) !! f) ↔
    is_Some (ValueIndex.indexes (value_index (rebuild_value_index g)) !! f)).
  { intros f. unfold rebuild_value_index. cbn [value_index set_value_index].
    rewrite rebuild_fill by by apply ids_in_iter.
    by rewrite ValueIndex.fill_indexed, ValueIndex.clear_indexed. }
  split; try done.
  - intros f k. by apply (models_buckets _ _ (rows g)).
  - apply (ValueIndex.models_bucket_ne _ _ Hv).
Qed.

Lemma publish_step g next :
  inv g → inv (publish_catalog g next).1 ∧ quiet g (publish_catalog g next).1 ∧
  fresh g (publish_catalog g next).1.
Proof.
  intros Hi. destruct (publish_inv g next Hi) as [? ?]. split; [done|]. split; [done|].
  unfold publish_catalog. destruct (checked_add _ _ _); [by apply set_catalog_fresh|by apply fresh_refl].
Qed.

Lemma index_field_fresh g f g' : inv g → index_field g f = Some g' → fresh g g'.
Proof.
  intros Hi. unfold index_field. destruct (ValueIndex.has_index _ f).
  { intros [= <-]. by apply fresh_refl. }
  intros (gen & [-> _]%checked_add_Some & (vi & _ & [= <-])%bind_Some)%bind_Some.
  right. cbn. split; [done|]. split; [lia|]. intros Hg. lia.
Qed.

Lemma step_spec g g' :
  inv g → step g g' → inv g' ∧ fresh g g' ∧ (quiet g g' ∨ ∃ n, extends_by n g g').
Proof.
  intros Hi Hs. destruct Hs as [now g e g' r Hop|now g ref c g' r Hop|now g ref g' r Hop|g text limit|
    g f g' Hop|g|g next|g expected base c|g expected old next|fresh g ns g' Hop|
    inc g|sz caps g0 v ops limits p now reserved g g' r Hsame Hprep Hop].
  - destruct (add_spec now g e Hi) as (g2 & r2 & Hop2 & Hi2 & _ & Hok & Herr).
    assert (g2 = g') as -> by congruence. split; [done|].
    destruct (is_ok r2); [|rewrite Herr by done; by split; [apply fresh_refl|left]].
    split; [by apply extends_fresh, Hok|right; exists 1%N; by apply Hok].
  - destruct (update_spec now g ref c Hi) as (g2 & r2 & Hop2 & Hi2 & _ & Hcase).
    assert (g2 = g') as -> by congruence. split; [done|].
    destruct Hcase as [->|[_ Hext]]; [by split; [apply fresh_refl|left]|].
    split; [by apply extends_fresh|by right; exists 1%N].
  - destruct (remove_spec now g ref Hi) as (g2 & r2 & Hop2 & Hi2 & _ & Hok & Herr).
    assert (g2 = g') as -> by congruence. split; [done|].
    destruct (is_ok r2); [|rewrite Herr by done; by split; [apply fresh_refl|left]].
    split; [by apply extends_fresh, Hok|right; exists 1%N; by apply Hok].
  - destruct (read_all_spec g text limit Hi) as (Hi' & (qc & ac & Hg) & _). split; [done|].
    rewrite Hg. split; [|by left]. right. do 2 (split; [done|]). intros _.
    destruct (same_rows_refl g Hi). by split.
  - destruct (index_field_inv g f g' Hi Hop). split; [done|]. split; [|by left].
    by eapply index_field_fresh.
  - destruct (rebuild_spec g Hi). split; [done|]. split; [by apply rebuild_fresh|by left].
  - destruct (publish_step g next Hi) as (? & ? & ?). auto.
  - unfold compare_initialize_catalog. destruct (_ || _); [by auto using fresh_refl, quiet_refl|].
    destruct (publish_step g c Hi) as (? & ? & ?). auto.
  - unfold compare_activate_catalog. destruct (_ || _); [by auto using fresh_refl, quiet_refl|].
    destruct (publish_step g next Hi) as (? & ? & ?). auto.
  - destruct (set_namespace_inv fresh g ns g' Hi Hop) as [? ?]. split; [done|]. split; [|by left].
    unfold set_namespace in Hop. apply bind_Some in Hop as (gen & _ & Hg).
    destruct (activated g); injection Hg as <-; by apply set_catalog_fresh.
  - split; [destruct Hi; by split|]. split; [|by left]. right. do 2 (split; [done|]). intros _.
    destruct (same_rows_refl g Hi). by split.
  - destruct (apply_spec now reserved sz caps g0 g v ops limits p Hi Hsame Hprep)
      as (g2 & r2 & Hop2 & Hi2 & Hr). assert (g2 = g') as -> by congruence. split; [done|].
    destruct r2 as [s|]; [|by subst; split; [apply fresh_refl|left]].
    destruct Hr as (_ & _ & Hext & Hquiet). split; [|right; by eexists].
    destruct (PreparedBatch.diffs p) as [|d ds].
    + rewrite Hquiet by done. right. do 2 (split; [done|]). intros _.
      destruct (same_rows_refl g Hi). by split.
    + left. destruct Hext as [-> _]. len_lia.
Qed.

Lemma step_inv g g' : inv g → step g g' → inv g' ∧ (quiet g g' ∨ ∃ n, extends_by n g g').
Proof. intros Hi Hs. destruct (step_spec g g' Hi Hs) as (? & _ & ?). auto. Qed.

Lemma initial_inv g : initial g → inv g.
Proof.
  intros [inc|inc cap|inc cap bytes Hb|inc ns].
  - apply with_changelog_capacity_inv.
  - apply with_changelog_capacity_inv.
  - by apply with_changelog_limits_inv.
  - apply with_namespace_inv.
Qed.

Lemma steps_inv g g' : inv g → rtc step g g' → inv g'.
Proof. intros Hi Hs. induction Hs as [|g g1 g' Hst _ IH]; [done|]. apply IH. by eapply step_inv. Qed.

Lemma reachable_inv g : reachable g → inv g.
Proof. intros (g0 & H0 & Hs). eapply steps_inv; [|done]. by apply initial_inv. Qed.

(** ** Plans along a run *)

Lemma same_rows_trans g1 g2 g3 : same_rows g1 g2 → same_rows g2 g3 → same_rows g1 g3.
Proof.
  intros [] []. split; try congruence; try done.
  - intros f. by rewrite same_fields0.
  - intros f k. by rewrite same_buckets0.
Qed.

Lemma fresh_trans g1 g2 g3 : fresh g1 g2 → fresh g2 g3 → fresh g1 g3.
Proof.
  intros [?|(Hv & Hg & Hs)] [?|(Hv' & Hg' & Hs')]; [left; lia..|].
  right. split; [congruence|]. split; [lia|]. intros Heq.
  eapply same_rows_trans; [apply Hs|apply Hs']; lia.
Qed.

(** A plan that is still accepted was prepared for the rows of the graph. *)
Lemma steps_fresh g g' : inv g → rtc step g g' → fresh g g'.
Proof.
  intros Hi Hs. induction Hs as [g|g g1 g' Hst _ IH]; [by apply fresh_refl|].
  destruct (step_spec g g1 Hi Hst) as (Hi1 & Hf & _). eapply fresh_trans; [done|]. by apply IH.
Qed.

(** A plan applied later in a run: it never panics, and it is refused with
    the graph unchanged or does its operations on the graph as it is. *)
Lemma delayed_plan_spec sz caps g0 g v ops limits p now reserved :
  inv g0 → rtc step g0 g →
  PreparedBatch.prepare_batch sz caps g0 v ops limits = Some (Ok p) →
  ∃ g' r, PreparedBatch.apply_prepared now reserved g p = Some (g', r) ∧
    rtc step g g' ∧
    match r with
    | Ok s => s = PreparedBatch.span_of p ∧ try_fold perform (abs g) ops = Ok (abs g') ∧
        extends_by (len (PreparedBatch.diffs p)) g g'
    | Err _ => g' = g
    end.
Proof.
  intros Hi0 Hs Hprep. pose proof (steps_inv _ _ Hi0 Hs) as Hi.
  destruct (decide (state g = state g0 ∧ index_generation g = index_generation g0)) as [[Hst Hg]|Hne].
  - injection Hst as _ Hv _. destruct (steps_fresh _ _ Hi0 Hs) as [|(_ & _ & Hsame)]; [lia|].
    specialize (Hsame Hg).
    destruct (apply_spec now reserved sz caps g0 g v ops limits p Hi Hsame Hprep)
      as (g' & r & Hop & Hi' & Hr).
    exists g', r. split; [done|]. split; [apply rtc_once; by eapply step_batch|].
    destruct r; [|done]. destruct Hr as (? & ? & ? & _). done.
  - exists g, (Err BConflict). split; [|by split; [apply rtc_refl|]].
    apply (apply_stale now reserved sz caps g0 g v ops limits); [by apply inv_plannable|done|].
    destruct (decide (state g = state g0)) as [Hs0|]; [right|by left]. intros Hg. by apply Hne.
Qed.

(** ** Replay *)

(** The subscriber at [g1] that reads the changes at [g2] and applies them. *)
Definition replays g1 g2 : Prop :=
  (version g1 ≤ version g2)%N ∧
  ∀ l, changes_since g2 (version g1) = Ok l →
    foldl apply_diff (entities g1) l = entities g2 ∧ (version g1 + len l)%N = version g2.

Lemma replays_refl g : inv g → replays g g.
Proof.
  intros Hi. split; [done|]. unfold changes_since.
  rewrite (ChangeLog.changes_since_ahead (version g)) by (apply inv_log, Hi || done).
  intros l [= <-]. rewrite len_nil. split; [done|lia].
Qed.

Lemma replays_step g1 g2 g3 : inv g2 → replays g1 g2 → step g2 g3 → replays g1 g3.
Proof.
  intros Hi [Hle Hr] Hs. destruct (step_inv g2 g3 Hi Hs) as [_ [(He & Hv & Hl)|[n [Hv Hext]]]].
  - unfold replays, changes_since. rewrite He, Hv, Hl. by split.
  - split; [lia|]. intros l Hl. destruct (Hext _ _ Hle Hl) as (l0 & ds & Hl0 & -> & Hn & He).
    destruct (Hr l0 Hl0) as [Hf Hlen]. rewrite foldl_app, Hf, len_app. split; [done|lia].
Qed.

Lemma replays_steps g1 g2 : inv g1 → rtc step g1 g2 → replays g1 g2.
Proof.
  intros Hi. revert g2. apply rtc_ind_r; [by apply replays_refl|]. intros g2 g3 Hs Hst IH.
  eapply replays_step; [by eapply steps_inv|done|done].
Qed.

(** Within a run the revision determines the entities. *)
Lemma steps_same_version g1 g2 :
  inv g1 → rtc step g1 g2 → version g2 = version g1 → entities g2 = entities g1.
Proof.
  intros Hi Hs Hv. destruct (replays_steps g1 g2 Hi Hs) as [_ Hr].
  assert (Hi2 : inv g2) by by eapply steps_inv. symmetry. apply (Hr []). unfold changes_since.
  apply (ChangeLog.changes_since_ahead (version g2)); [apply inv_log, Hi2|]. lia.
Qed.

(** ** The logs of a run *)

(** What a reader of the later graph is given starts with what it would have
    been given before. *)
Definition reads_on g1 g2 : Prop :=
  (version g1 ≤ version g2)%N ∧
  ∀ v l, (v ≤ version g1)%N → changes_since g2 v = Ok l →
    ∃ l0, changes_since g1 v = Ok l0 ∧ l0 `prefix_of` l.
Lemma steps_read_on g1 g2 : inv g1 → rtc step g1 g2 → reads_on g1 g2.
Proof.
  intros Hi. revert g2. apply rtc_ind_r; [split; [done|]; eauto|]. intros g2 g3 Hs Hst [Hle Hr].
  destruct (step_inv g2 g3 ltac:(by eapply steps_inv) Hst) as [_ [(_ & Hv & Hl)|[n [Hv Hext]]]].
  - unfold reads_on, changes_since. rewrite Hv, Hl. by split.
  - split; [lia|]. intros v l Hv1 Hl. destruct (Hext v l ltac:(lia) Hl) as (l0 & ds & Hl0 & -> & _).
    destruct (Hr v l0 Hv1 Hl0) as (l1 & Hl1 & Hp). exists l1. split; [done|]. by apply prefix_app_r.
Qed.

(** A retained change is what is read first after the revision before it. *)
Lemma retained_read g d :
  inv g → d ∈ ChangeLog.log (changelog g) →
  (0 < Changelog.version d ≤ version g)%N ∧
  ∃ l, changes_since g (Changelog.version d - 1) = Ok (d :: l).
Proof.
  intros Hi [i Hd]%list_elem_of_lookup. pose proof (inv_log _ Hi) as Hwf.
  pose proof (ChangeLog.contiguous_version _ _ _ _ (ChangeLog.wf_contiguous _ _ Hwf) Hd) as Hv.
  pose proof (ChangeLog.wf_head _ _ Hwf) as Hh. pose proof (lookup_lt_Some _ _ _ Hd) as Hlt.
  unfold len in Hh. split; [lia|]. unfold changes_since.
  destruct (ChangeLog.changes_since_ok (version g) (changelog g) (Changelog.version d - 1) Hwf ltac:(lia))
    as (gone & l & Hl & Hlog & Hc & Hlen). rewrite Hl.
  assert (Hg : length gone = i).
  { rewrite Hlog in Hh. rewrite length_app in Hh. unfold len in Hlen. lia. }
  rewrite Hlog in Hd. rewrite lookup_app_r, Hg, Nat.sub_diag in Hd by lia.
  destruct l as [|d' l]; [done|]. injection Hd as ->. by exists l.
Qed.

(** Two graphs of a run that retain the change of a revision retain the same
    one. *)
Lemma steps_agree g1 g2 d1 d2 :
  inv g1 → rtc step g1 g2 → d1 ∈ ChangeLog.log (changelog g1) → d2 ∈ ChangeLog.log (changelog g2) →
  Changelog.version d1 = Changelog.version d2 → d1 = d2.
Proof.
  intros Hi Hs H1 H2 Hv. destruct (retained_read g1 d1 Hi H1) as ([_ Hle] & l1 & Hl1).
  destruct (retained_read g2 d2 ltac:(by eapply steps_inv) H2) as (_ & l2 & Hl2).
  destruct (steps_read_on g1 g2 Hi Hs) as [_ Hr]. rewrite <-Hv in Hl2.
  destruct (Hr (Changelog.version d1 - 1)%N _ ltac:(lia) Hl2) as (l0 & Hl0 & k & Hk). rewrite Hl1 in Hl0. injection Hl0 as <-.
  by injection Hk as ->.
Qed.

(** ** Import *)

(** Rows load first come, first served. *)
Definition load (m : gmap string HDict) (row : HDict) : gmap string HDict :=
  match HDict.id row with
  | Some r => match m !! ref_val r with Some _ => m | None => <[ref_val r := row]> m end
  | None => m
  end.

Lemma from_grid_rows now g (rs : list HDict) :
  inv g → (version g + len rs ≤ u32_max + 1)%N → (N.of_nat (size (entities g)) ≤ version g)%N →
  ∃ g', foldl (from_grid_row now) (Some (Ok g)) rs = Some (Ok g') ∧ inv g' ∧
    entities g' = foldl load (entities g) rs.
Proof.
  revert g. induction rs as [|row rs IH]; intros g Hi Hlen Hsize; cbn [foldl]; [by eauto|].
  rewrite len_cons in Hlen. unfold from_grid_row at 2, load at 2. cbn [mbind option_bind].
  destruct (HDict.id row) as [r|] eqn:Hid.
  2: { rewrite bool_decide_eq_false_2 by (by intros []). apply IH; [done|lia|done]. }
  rewrite bool_decide_eq_true_2 by by eexists. apply HDict.id_lookup in Hid.
  destruct (add_spec now g row Hi) as (g' & r' & Hadd & Hi' & Hspec & _ & Herr).
  rewrite Hadd. unfold GraphSpec.add in Hspec. rewrite Hid in Hspec. simpl in Hspec.
  destruct (entities g !! ref_val r) as [old|] eqn:Hold; simpl.
  { rewrite decide_True in Hspec by by eexists. injection Hspec as _ _ <-.
    rewrite Herr by done. apply IH; [done|lia|done]. }
  rewrite decide_False in Hspec by (by intros []).
  unfold GraphSpec.next_revision in Hspec. simpl in Hspec.
  assert (Hrev : checked_add u64_max (version g) 1 = Some (version g + 1)%N).
  { apply checked_add_Some. split; [done|]. unfold u32_max, u64_max in *. lia. }
  assert (Hfull : GraphSpec.full (abs g) = false).
  { apply bool_decide_eq_false. simpl. unfold MAX_ENTITY_ID. lia. }
  rewrite Hrev, Hfull in Hspec. injection Hspec as He Hv <-. rewrite He.
  apply IH; [done|lia|]. rewrite <-He, <-Hv, map_size_insert_None by done. lia.
Qed.

(** Loading the rows of a map gives the map. *)
Lemma load_entities (l : list (string * HDict)) m :
  NoDup l.*1 → (∀ ref e, (ref, e) ∈ l → has_ref ref e ∧ m !! ref = None) →
  foldl load m l.*2 = list_to_map l ∪ m.
Proof.
  revert m. induction l as [|[ref e] l IH]; intros m Hnd Hl.
  { cbn. by rewrite (left_id_L ∅ (∪)). }
  rewrite !fmap_cons in *. cbn [foldl fst snd] in *.
  apply NoDup_cons in Hnd as [Href Hnd]. destruct (Hl ref e) as [(r & Hr & <-) Hnone]; [left|].
  unfold load at 2. rewrite (proj2 (HDict.id_lookup e r) Hr), Hnone.
  rewrite IH; [|done|].
  - cbn. rewrite <-insert_union_l, insert_union_r; [done|]. by apply not_elem_of_list_to_map.
  - intros ref' e' Hin. destruct (Hl ref' e') as [Hr' Hn']; [by right|]. split; [done|].
    rewrite lookup_insert_ne; [done|]. intros <-. apply Href. apply list_elem_of_fmap.
    by exists (ref_val r, e').
Qed.

Lemma grid_roundtrip_spec now inc ns g :
  inv g →
  ∃ grid g', to_grid g "" = (g, Ok grid) ∧ from_grid now inc grid ns = Some (Ok g') ∧
    inv g' ∧ entities g' = entities g.
Proof.
  intros Hi. unfold to_grid. rewrite decide_True by done.
  eexists. set (g0 := match ns with Some ns => with_namespace inc ns | None => new inc end).
  assert (Hi0 : inv g0).
  { destruct ns; [apply with_namespace_inv|apply with_changelog_capacity_inv]. }
  assert (Hg0 : entities g0 = ∅ ∧ version g0 = 0%N) by by destruct ns.
  assert (Hrows : grid_rows (entities_to_grid (btree_iter (entities g)).*2)
                  = (btree_iter (entities g)).*2).
  { rewrite entities_to_grid_cols. case_decide as Hnil; [by rewrite Hnil|done]. }
  pose proof (store_count _ _ _ _ _ (inv_store _ Hi)) as Hcount.
  pose proof (store_bound _ _ _ _ _ (inv_store _ Hi)) as Hbound.
  destruct (from_grid_rows now g0 (btree_iter (entities g)).*2 Hi0) as (g' & Hf & Hi' & He').
  - destruct Hg0 as [_ ->]. rewrite len_fmap. unfold len.
    rewrite (Permutation_length (btree_iter_perm _)), length_map_to_list.
    unfold MAX_ENTITY_ID in *. lia.
  - destruct Hg0 as [-> ->]. by rewrite map_size_empty.
  - exists g'. split; [done|]. split; [unfold from_grid; by rewrite Hrows|]. split; [done|].
    rewrite He', (proj1 Hg0), load_entities.
    + rewrite (right_id_L ∅ (∪)). rewrite <-(list_to_map_to_list (entities g)) at 2.
      apply list_to_map_proper; [apply NoDup_btree_keys|apply btree_iter_perm].
    + apply NoDup_btree_keys.
    + intros ref e Hin%elem_of_btree_iter. split; [|apply lookup_empty].
      by apply (store_ref _ _ _ _ _ (inv_store _ Hi)).
Qed.
End system.
End System.
