(* ===== verification/Application.v ===== *)
(** * The application layer: identities, limits, policies and budgets

    [haystack-app/src/types.rs], [policy.rs], [session.rs] and [budget.rs]:
    who asks, what a request may spend, what a policy lets it see, and the
    meter every request runs under.

    A metered computation is one of the monad [B]: it threads the [Budget] and
    may leave with a [ReadError].  What the code observes of the outside at
    each [check] - the clock, the cancellation tokens, the session - is the
    class [Ambient], a sequence of moments of which the one at [ticks] is the
    next to be observed; nothing is assumed of it.  Instants and durations are in
    nanoseconds. *)

From S2P Require Import Prelude Floats Kinds Xeto Controlled.

(** ** Identities *)

Inductive Principal : Type :=
| Anonymous
| Authenticated (subject : string) (permissions : list string)
| TrustedEmbedding (subject : string).
#[export] Instance Principal_eq_dec : EqDecision Principal.
Proof. solve_decision. Defined.

(** [Vec::sort] and [Vec::dedup] on strings. *)
Definition sort_strings (l : list string) : list string := merge_sort String.le l.
Fixpoint dedup (l : list string) : list string :=
  match l with
  | x :: (y :: _) as rest => if decide (x = y) then dedup rest else x :: dedup rest
  | _ => l
  end.

Module Principal.
(** [Principal::authenticated]. *)
Definition authenticated (subject : string) (permissions : list string) : Principal :=
  Authenticated subject (dedup (sort_strings permissions)).
(** [Principal::bytes]. *)
Definition bytes (p : Principal) : N :=
  match p with
  | Anonymous => 1
  | Authenticated subject permissions =>
      foldl (λ n p, saturating_add (saturating_add n (str_len p)) 32) (str_len subject) permissions
  | TrustedEmbedding subject => str_len subject
  end%N.
End Principal.

(** ** Requests *)

Inductive ReadOperation : Type :=
| OpRead | OpNav | OpDefinitions | OpLibraries | OpSpecs | OpSpec | OpChanges | OpHistory
| OpSubscriptions.
#[export] Instance ReadOperation_eq_dec : EqDecision ReadOperation.
Proof. solve_decision. Defined.

Inductive ReadQuery : Type :=
| QIds (ids : list string)
| QFilter (filter : string)
| QNav (parent : option string)
| QDefinitions (filter : option string)
| QLibraries
| QSpecs (library : option string)
| QSpec (name : string).

(** [ReadQuery::operation]. *)
Definition query_operation (q : ReadQuery) : ReadOperation :=
  match q with
  | QIds _ | QFilter _ => OpRead
  | QNav _ => OpNav
  | QDefinitions _ => OpDefinitions
  | QLibraries => OpLibraries
  | QSpecs _ => OpSpecs
  | QSpec _ => OpSpec
  end.

Inductive H4Codec : Type := Zinc | Json | JsonV3 | Trio.
Inductive OutputProfile : Type := Typed | H4 (codec : H4Codec) | Jeto.
#[export] Instance H4Codec_eq_dec : EqDecision H4Codec.
Proof. solve_decision. Defined.
#[export] Instance OutputProfile_eq_dec : EqDecision OutputProfile.
Proof. solve_decision. Defined.

Record ReadRequest : Type := mkRequest {
  rq_query : ReadQuery;
  rq_projection : list string;
  rq_page_size : N;
  rq_cursor : option string;
  rq_profile : OutputProfile
}.

(** ** Errors and limits *)

Inductive BudgetKind : Type :=
| BInput | BIds | BAst | BCandidates | BForward | BInverse | BValues | BWork | BRetained | BDepth
| BRows | BOutput | BRegex.
#[export] Instance BudgetKind_eq_dec : EqDecision BudgetKind.
Proof. solve_decision. Defined.

Inductive ReadError : Type :=
| NotReady
| Closed
| InvalidQuery (why : string)
| Unavailable
| Forbidden
| StaleCursor
| UnitTooLarge
| Capacity
| Cancelled
| Deadline
| BudgetExceeded (kind : BudgetKind)
| Projection
| InvalidLimits.
#[export] Instance ReadError_eq_dec : EqDecision ReadError.
Proof. solve_decision. Defined.

Definition millis (n : N) : N := (n * 1000000)%N.
Definition secs (n : N) : N := (n * 1000000000)%N.
Definition MIB : N := (1024 * 1024)%N.

Module ReadLimits.
Record t : Type := mk {
  max_input_bytes : N; max_ids : N; max_ast_nodes : N; max_ast_depth : N; max_candidates : N;
  max_forward_edges : N; max_inverse_edges : N; max_value_nodes : N; max_work : N;
  max_retained_bytes : N; max_value_depth : N; max_rows : N; max_output_bytes : N;
  max_regex_source_bytes : N; max_regex_bytes : N; max_concurrent : N; max_queued : N;
  max_duration : N; cursor_capacity : N; max_cursor_bytes : N; cursor_ttl : N
}.

(** [ReadLimits::default]. *)
Definition default : t := {|
  max_input_bytes := 65536; max_ids := 512; max_ast_nodes := 256; max_ast_depth := 32;
  max_candidates := 10000; max_forward_edges := 4096; max_inverse_edges := 4096;
  max_value_nodes := 100000; max_work := 4000000; max_retained_bytes := 16 * MIB;
  max_value_depth := 64; max_rows := 1000; max_output_bytes := MIB;
  max_regex_source_bytes := 65536; max_regex_bytes := 256 * 1024; max_concurrent := 8;
  max_queued := 16; max_duration := secs 5; cursor_capacity := 128;
  max_cursor_bytes := 4 * MIB; cursor_ttl := secs 60 |}%N.

(** [ReadLimits::validate]. *)
Definition validate (l : t) : result ReadError unit :=
  if ((max_input_bytes l =? 0) || (MIB <? max_input_bytes l)
     || (max_ast_depth l =? 0) || (64 <? max_ast_depth l)
     || (max_value_depth l =? 0) || (64 <? max_value_depth l)
     || (max_rows l =? 0) || (10000 <? max_rows l)
     || (max_concurrent l =? 0) || (1024 <? max_concurrent l)
     || (4096 <? max_queued l)
     || (max_duration l =? 0) || (secs 60 <? max_duration l)
     || (cursor_ttl l =? 0) || (secs 3600 <? cursor_ttl l)
     || (4096 <? cursor_capacity l)
     || (256 * MIB <? max_retained_bytes l)
     || (256 * MIB <? max_cursor_bytes l)
     || (16 * MIB <? max_output_bytes l)
     || (MIB <? max_regex_source_bytes l)
     || (16 * MIB <? max_regex_bytes l))%N
  then Err InvalidLimits else Ok ().
End ReadLimits.

(** ** Policies *)

Record FunctionIdentity : Type := mkFunction {
  fn_qname : string; fn_library_version : string; fn_catalog : string; fn_revision : string;
  fn_source_path : string; fn_source_sha256 : string }.

(** [trait PolicySnapshot], an immutable snapshot of decisions. *)
Record PolicySnapshot : Type := mkPolicy {
  scope_key : string;
  p_function : FunctionIdentity → bool;
  p_operation : ReadOperation → bool;
  p_entity : string → bool;
  p_tag : string → string → bool;
  p_reference : string → bool;
  p_reference_display : string → bool;
  p_catalog : CatalogKind → string → bool;
  p_nominal_provenance : NominalScalar → bool
}.

(** [AllowAll]. *)
Definition AllowAll : PolicySnapshot :=
  mkPolicy "explicit-allow-all-v1" (λ _, true) (λ _, true) (λ _, true) (λ _ _, true) (λ _, true)
    (λ _, true) (λ _ _, true) (λ _, true).

(** ** The meter *)

Module Meter.

Module Usage.
Record t : Type := mk {
  input : N; work : N; retained : N; values : N; candidates : N; forward : N; inverse : N }.
Definition default : t := mk 0 0 0 0 0 0 0.

(** The counter a charge of a kind goes to, with its limit; the other kinds
    have none. *)
Definition counter (l : ReadLimits.t) (u : t) (k : BudgetKind) : option (N * N * (N → t)) :=
  match k with
  | BInput => Some (input u, ReadLimits.max_input_bytes l,
      λ n, mk n (work u) (retained u) (values u) (candidates u) (forward u) (inverse u))
  | BWork => Some (work u, ReadLimits.max_work l,
      λ n, mk (input u) n (retained u) (values u) (candidates u) (forward u) (inverse u))
  | BRetained => Some (retained u, ReadLimits.max_retained_bytes l,
      λ n, mk (input u) (work u) n (values u) (candidates u) (forward u) (inverse u))
  | BValues => Some (values u, ReadLimits.max_value_nodes l,
      λ n, mk (input u) (work u) (retained u) n (candidates u) (forward u) (inverse u))
  | BCandidates => Some (candidates u, ReadLimits.max_candidates l,
      λ n, mk (input u) (work u) (retained u) (values u) n (forward u) (inverse u))
  | BForward => Some (forward u, ReadLimits.max_forward_edges l,
      λ n, mk (input u) (work u) (retained u) (values u) (candidates u) n (inverse u))
  | BInverse => Some (inverse u, ReadLimits.max_inverse_edges l,
      λ n, mk (input u) (work u) (retained u) (values u) (candidates u) (forward u) n)
  | _ => None
  end.
End Usage.

(** What one [check] observes: the clock at its three readings, the tokens
    and the flags of the session, and the clock after it. *)
Record Moment : Type := mkMoment {
  at_deadline : N;
  cancelled : bool;
  owner_cancelled : bool;
  at_fence : N;
  session_closed : bool;
  at_session : N;
  acknowledged : bool;
  owner_sealed : bool;
  at_wait : N
}.
(** The moments of the checks, and apart from them those a filter parser
    observes through its callback, with the one after an interrupted parse. *)
Class Ambient : Type := {
  moments : nat → Moment;
  parsing : nat → Moment;
  interrupted : Moment
}.

(** [SessionFence] and the [expires] of the session it guards. *)
Record SessionFence : Type := mkFence { fence_expires : option N }.

(** [Budget]: the limits, the deadline, the fence, the address of the catalog
    a typed request is pinned to and what is spent; [ticks] counts the
    observations. *)
Record Budget : Type := mkBudget {
  limits : ReadLimits.t;
  deadline : N;
  session : option SessionFence;
  typed_catalog : option N;
  usage : Usage.t;
  ticks : nat
}.
Definition set_usage (u : Usage.t) (b : Budget) : Budget :=
  mkBudget (limits b) (deadline b) (session b) (typed_catalog b) u (ticks b).
Definition tick (b : Budget) : Budget :=
  mkBudget (limits b) (deadline b) (session b) (typed_catalog b) (usage b) (S (ticks b)).

(** [Budget::new]. *)
Definition new_budget (l : ReadLimits.t) (deadline : N) : Budget :=
  mkBudget l deadline None None Usage.default 0.

Definition B (A : Type) : Type := Budget → result ReadError A * Budget.
#[export] Instance B_ret : MRet B := λ A a b, (Ok a, b).
#[export] Instance B_bind : MBind B := λ A C k m b,
  match m b with
  | (Ok a, b') => k a b'
  | (Err e, b') => (Err e, b')
  end.
Definition throw {A} (e : ReadError) : B A := λ b, (Err e, b).
Definition asks {A} (f : Budget → A) : B A := λ b, (Ok (f b), b).
(** The loops of the code: over a list, with and without a value. *)
Fixpoint each {A} (f : A → B unit) (l : list A) : B unit :=
  match l with
  | [] => mret ()
  | a :: l => f a;; each f l
  end.
Fixpoint fold {A S} (f : S → A → B S) (s : S) (l : list A) : B S :=
  match l with
  | [] => mret s
  | a :: l => s ← f s a; fold f s l
  end.
(** A loop that returns [false] on the first body that does. *)
Fixpoint all_b {A} (f : A → B bool) (l : list A) : B bool :=
  match l with
  | [] => mret true
  | a :: l => x ← f a; if x : bool then all_b f l else mret false
  end.

Module Session.
(** [SubscriptionSession::is_active]. *)
Definition is_active (f : SessionFence) (m : Moment) : bool :=
  negb (session_closed m) &&
  match fence_expires f with Some e => negb (e <=? at_session m)%N | None => true end.
(** [SessionFence::check]. *)
Definition fence_check (f : SessionFence) (m : Moment) : result ReadError unit :=
  if match fence_expires f with Some e => (e <=? at_fence m)%N | None => false end
     || (negb (is_active f m) && negb (acknowledged m))
  then Err Forbidden else Ok ().
End Session.

Section budget.
Context `{Ambient}.

(** What a moment means for the holder of a budget. *)
Definition verdict (b : Budget) (m : Moment) : result ReadError unit :=
  if (deadline b <=? at_deadline m)%N then Err Deadline
  else if cancelled m || owner_cancelled m then Err Cancelled
  else match session b with
       | Some fence => Session.fence_check fence m
       | None => Ok ()
       end.

(** [Budget::check]. *)
Definition check : B unit := λ b, (verdict b (moments (ticks b)), tick b).

(** [Budget::work_remaining] and [Budget::retained_remaining]. *)
Definition work_remaining (b : Budget) : N := ReadLimits.max_work (limits b) - Usage.work (usage b).
Definition retained_remaining (b : Budget) : N :=
  ReadLimits.max_retained_bytes (limits b) - Usage.retained (usage b).

(** [Budget::charge]. *)
Definition spend (k : BudgetKind) (amount : N) : B unit := λ b,
  match Usage.counter (limits b) (usage b) k with
  | None => (Err (BudgetExceeded k), b)
  | Some (used, limit, set) =>
      if decide (limit - used < amount)%N then (Err (BudgetExceeded k), b)
      else (Ok (), set_usage (set (used + amount)%N) b)
  end.
Definition charge (k : BudgetKind) (amount : N) : B unit := check;; spend k amount.

(** [Budget::depth]. *)
Definition within_depth (d : N) : B unit := λ b,
  if decide (ReadLimits.max_value_depth (limits b) < d)%N
  then (Err (BudgetExceeded BDepth), b) else (Ok (), b).
Definition depth (d : N) : B unit := check;; within_depth d.

(** [Budget::copy_string]. *)
Definition copy_string (s : string) : B string :=
  charge BWork (saturating_add (str_len s) 1);;
  charge BRetained (saturating_add (str_len s) 32);;
  mret s.

(** [Budget::wait_quantum]: how long to wait for a lock. *)
Definition wait_quantum : B N := λ b,
  match check b with
  | (Ok _, b') => (Ok (N.min (deadline b - at_wait (moments (ticks b))) (millis 5)), b')
  | (Err e, b') => (Err e, b')
  end.
End budget.
End Meter.
