(* ===== verification/MeterFacts.v ===== *)
(** * Reasoning about metered computations

    [meets max m a c] says of a computation run under a budget whose depth
    limit is [max]: it returns [a] and spends at most [c]; it leaves with an
    error only where the outside stopped it, or where the budget has no room
    for [c]. *)

From S2P Require Import Prelude Floats Kinds Size Application.

Module MeterFacts.
Import Meter.

(** ** Costs *)

Record cost : Type := mkCost { c_work : N; c_retained : N; c_values : N; c_deep : N }.
Definition free : cost := mkCost 0 0 0 0.
Definition plus (x y : cost) : cost :=
  mkCost (c_work x + c_work y) (c_retained x + c_retained y) (c_values x + c_values y)
    (N.max (c_deep x) (c_deep y)).
Definition works (n : N) : cost := mkCost n 0 0 0.
Definition retains (n : N) : cost := mkCost 0 n 0 0.
Definition counts (n : N) : cost := mkCost 0 0 n 0.
Definition reaches (d : N) : cost := mkCost 0 0 0 d.
Definition copies (s : string) : cost :=
  mkCost (saturating_add (str_len s) 1) (saturating_add (str_len s) 32) 0 0.
Declare Scope cost_scope.
Delimit Scope cost_scope with cost.
Bind Scope cost_scope with cost.
Infix "+" := plus : cost_scope.

Definition le (x y : cost) : Prop :=
  (c_work x ≤ c_work y ∧ c_retained x ≤ c_retained y ∧ c_values x ≤ c_values y ∧
   c_deep x ≤ c_deep y)%N.
Infix "⊑" := le (at level 70).

Definition total {A} (f : A → cost) (l : list A) : cost := foldr (λ a c, plus (f a) c) free l.
Definition total_map {A} (f : string → A → cost) (m : gmap string A) : cost :=
  map_fold (λ k v c, plus (f k v) c) free m.

Ltac cost_solve :=
  repeat match goal with x : cost |- _ => destruct x end;
  unfold le, plus, free, works, retains, counts, reaches, copies in *; simpl in *;
  try f_equal; lia.

#[export] Instance le_refl : Reflexive le.
Proof. intros x. cost_solve. Qed.
#[export] Instance le_trans : Transitive le.
Proof. intros x y z. cost_solve. Qed.
Lemma plus_assoc x y z : plus x (plus y z) = plus (plus x y) z.
Proof. cost_solve. Qed.
Lemma plus_comm x y : plus x y = plus y x.
Proof. cost_solve. Qed.
Lemma plus_free_r x : plus x free = x.
Proof. cost_solve. Qed.
Lemma plus_free_l x : plus free x = x.
Proof. cost_solve. Qed.
Lemma free_le x : free ⊑ x.
Proof. cost_solve. Qed.
Lemma le_plus_l x y : x ⊑ plus x y.
Proof. cost_solve. Qed.
Lemma le_plus_r x y : y ⊑ plus x y.
Proof. cost_solve. Qed.
#[export] Instance plus_mono : Proper (le ==> le ==> le) plus.
Proof. intros x x' Hx y y' Hy. cost_solve. Qed.

Lemma total_permutation {A} (f : A → cost) l k : l ≡ₚ k → total f l = total f k.
Proof.
  induction 1 as [|a l k _ IH|a b l|l k j _ IH1 _ IH2]; simpl; [done|by rewrite IH| |congruence].
  by rewrite !plus_assoc, (plus_comm (f b)).
Qed.
Lemma total_hash `{HashOrderLaws} {A} (f : string → A → cost) (m : gmap string A) :
  total (uncurry f) (hash_iter m) = total_map f m.
Proof.
  rewrite (total_permutation _ _ _ (hash_iter_perm m)). unfold total_map. rewrite map_fold_foldr.
  unfold total. induction (map_to_list m) as [|[k v] l IH]; [done|]. simpl. by rewrite IH.
Qed.
Lemma total_mono {A} (f g : A → cost) l : (∀ a, f a ⊑ g a) → total f l ⊑ total g l.
Proof. intros Hfg. induction l; simpl; [done|]. by rewrite IHl, (Hfg a). Qed.

(** ** Budgets *)

(** Room for a cost. *)
Definition room (b : Budget) (c : cost) : Prop :=
  (Usage.work (usage b) + c_work c ≤ ReadLimits.max_work (limits b) ∧
   Usage.retained (usage b) + c_retained c ≤ ReadLimits.max_retained_bytes (limits b) ∧
   Usage.values (usage b) + c_values c ≤ ReadLimits.max_value_nodes (limits b) ∧
   c_deep c ≤ ReadLimits.max_value_depth (limits b))%N.

(** The same request, not yet past its limits. *)
Record same_request (b b' : Budget) : Prop := {
  same_limits : limits b' = limits b;
  same_deadline : deadline b' = deadline b;
  same_session : session b' = session b;
  same_catalog : typed_catalog b' = typed_catalog b;
  same_ticks : ticks b ≤ ticks b'
}.

(** Later, with at most [c] more spent. *)
Record after (b : Budget) (c : cost) (b' : Budget) : Prop := {
  af_same : same_request b b';
  af_input : Usage.input (usage b') = Usage.input (usage b);
  af_candidates : Usage.candidates (usage b') = Usage.candidates (usage b);
  af_forward : Usage.forward (usage b') = Usage.forward (usage b);
  af_inverse : Usage.inverse (usage b') = Usage.inverse (usage b);
  af_work : (Usage.work (usage b) ≤ Usage.work (usage b') ≤ Usage.work (usage b) + c_work c)%N;
  af_retained :
    (Usage.retained (usage b) ≤ Usage.retained (usage b') ≤ Usage.retained (usage b) + c_retained c)%N;
  af_values :
    (Usage.values (usage b) ≤ Usage.values (usage b') ≤ Usage.values (usage b) + c_values c)%N
}.

#[export] Instance same_request_refl : Reflexive same_request.
Proof. by split. Qed.
#[export] Instance same_request_trans : Transitive same_request.
Proof. intros a b c [] []. split; congruence || lia. Qed.

Lemma after_refl b c : after b c b.
Proof. split; first [done | lia]. Qed.
Lemma after_trans b c b1 c1 b2 : after b c b1 → after b1 c1 b2 → after b (plus c c1) b2.
Proof.
  intros [] []. split; simpl; first [by etrans | congruence | lia].
Qed.
Lemma after_mono b c c' b' : c ⊑ c' → after b c b' → after b c' b'.
Proof. intros (? & ? & ? & ?) []. split; first [done | lia]. Qed.
Lemma room_mono b c c' : c ⊑ c' → room b c' → room b c.
Proof. intros (? & ? & ? & ?) (? & ? & ? & ?). repeat split; lia. Qed.
Lemma room_after b c b1 c1 : after b c b1 → room b (plus c c1) → room b1 c1.
Proof.
  intros [[Hl _ _ _ _]] (? & ? & ? & ?). unfold room. rewrite Hl. simpl in *. repeat split; lia.
Qed.

Section logic.
Context `{Ambient}.

(** The outside stopped the request at a moment it observed. *)
Definition stopped (b b' : Budget) (e : ReadError) : Prop :=
  ∃ t, ticks b ≤ t < ticks b' ∧ verdict b (moments t) = Err e.

Lemma verdict_same b b' m : same_request b b' → verdict b' m = verdict b m.
Proof. intros [Hl Hd Hs Hc Ht]. unfold verdict. by rewrite Hd, Hs. Qed.

Definition outcome {A} (b : Budget) (a : A) (c : cost) (rb : result ReadError A * Budget) : Prop :=
  after b c rb.2 ∧
  match rb.1 with
  | Ok x => x = a
  | Err e => stopped b rb.2 e ∨ (∃ k, e = BudgetExceeded k) ∧ ¬ room b c
  end.

Context (max : N).
Definition meets {A} (m : B A) (a : A) (c : cost) : Prop :=
  ∀ b, ReadLimits.max_value_depth (limits b) = max → outcome b a c (m b).

Lemma meets_weaken {A} (m : B A) a c c' : c ⊑ c' → meets m a c → meets m a c'.
Proof.
  intros Hc Hm b Hb. destruct (Hm b Hb) as [Ha Hr]. split; [by eapply after_mono|].
  destruct (m b).1; [done|]. destruct Hr as [|[? Hn]]; [by left|right]. split; [done|].
  intros Hroom. by apply Hn, (room_mono _ c c').
Qed.

Lemma meets_ret {A} (a : A) : meets (mret a) a free.
Proof. intros b _. split; [apply after_refl|done]. Qed.

Lemma meets_bind {A C} (m : B A) (k : A → B C) a x c c' :
  meets m a c → meets (k a) x c' → meets (m ≫= k) x (plus c c').
Proof.
  intros Hm Hk b Hb. specialize (Hm b Hb). unfold mbind, B_bind. destruct (m b) as [[y|e] b1];
    destruct Hm as [Ha Hr]; simpl in Ha, Hr; subst.
  - assert (Hb1 : ReadLimits.max_value_depth (limits b1) = max)
      by by rewrite (same_limits _ _ (af_same _ _ _ Ha)).
    destruct (Hk b1 Hb1) as [Ha' Hr']. destruct (k a b1) as [r b2]; simpl in *.
    split; [by eapply after_trans|]. simpl. destruct r as [|e]; [done|].
    destruct Hr' as [(t & Ht & Hv)|[Hk' Hn]].
    + left. exists t. pose proof (same_ticks _ _ (af_same _ _ _ Ha)).
      pose proof (same_ticks _ _ (af_same _ _ _ Ha')). split; [lia|].
      by rewrite <-(verdict_same b b1); [|apply Ha].
    + right. split; [done|]. intros Hroom. by eapply Hn, room_after.
  - split; simpl; [eapply after_mono; [apply le_plus_l|done]|].
    destruct Hr as [|[? Hn]]; [by left|right; split; [done|]].
    intros Hroom. eapply Hn, room_mono; [apply le_plus_l|done].
Qed.

Lemma meets_check : meets check () free.
Proof.
  intros b _. unfold check. split; simpl.
  { split; simpl; [split; simpl; first [done | lia]|first [done | lia]..]. }
  destruct (verdict b (moments (ticks b))) as [[]|e] eqn:Hv; [done|]. left. exists (ticks b). simpl.
  split; [lia|done].
Qed.

Lemma meets_asks {A C} (f : Budget → A) (k : A → B C) x c :
  (∀ b, ReadLimits.max_value_depth (limits b) = max → meets (k (f b)) x c) →
  meets (asks f ≫= k) x c.
Proof. intros Hk b Hb. by apply (Hk b Hb b Hb). Qed.

(** A charge. *)
Definition price (k : BudgetKind) (n : N) : cost :=
  match k with BWork => works n | BRetained => retains n | BValues => counts n | _ => free end.
Lemma meets_charge k n :
  k = BWork ∨ k = BRetained ∨ k = BValues → meets (charge k n) () (price k n).
Proof.
  intros Hk. unfold charge. rewrite <-(plus_free_l (price k n)). eapply meets_bind; [apply meets_check|].
  intros b _. unfold spend. destruct Hk as [Hk|[Hk|Hk]]; subst k; simpl; case_decide as Hd;
    (split; simpl; [first [apply after_refl | split; simpl; first [by split | lia]]|]);
    first [done | right; split; [eauto|]; unfold room; simpl; lia].
Qed.

Lemma meets_depth d : meets (depth d) () (reaches d).
Proof.
  unfold depth. rewrite <-(plus_free_l (reaches d)). eapply meets_bind; [apply meets_check|].
  intros b Hb. unfold within_depth. case_decide; (split; [apply after_refl|]); simpl; [|done].
  right. split; [eauto|]. unfold room. simpl. lia.
Qed.

(** No level left. *)
Lemma meets_too_deep {A} (m : B A) d a : (max < d)%N → meets (depth d;; m) a (reaches d).
Proof.
  intros Hd b Hb. destruct (meets_depth d b Hb) as [Ha Hr]. unfold mbind, B_bind.
  destruct (depth d b) as [[[]|e] b'] eqn:Hdb; simpl in *; [|done].
  exfalso. revert Hdb. unfold depth, mbind, B_bind, check, within_depth. simpl.
  destruct (verdict b (moments (ticks b))) as [[]|]; [|done].
  rewrite decide_True; [done|]. simpl. lia.
Qed.

Lemma meets_copy s : meets (copy_string s) s (copies s).
Proof.
  eapply meets_weaken; [|eapply meets_bind; [apply meets_charge; auto|eapply meets_bind;
    [apply meets_charge; auto|apply meets_ret]]]. cost_solve.
Qed.

Lemma meets_ret_any {A} (a : A) c : meets (mret a) a c.
Proof. eapply meets_weaken; [apply free_le|apply meets_ret]. Qed.

(** Loops. *)
Lemma meets_each {A} (f : A → B unit) c (l : list A) :
  (∀ a, a ∈ l → meets (f a) () (c a)) → meets (each f l) () (total c l).
Proof.
  induction l as [|a l IH]; intros Hf; simpl; [apply meets_ret|].
  eapply meets_bind; [apply Hf; left|apply IH; intros; apply Hf; by right].
Qed.
Lemma meets_fold {A S} (f : S → A → B S) g c (l : list A) s :
  (∀ s a, a ∈ l → meets (f s a) (g s a) (c a)) → meets (fold f s l) (foldl g s l) (total c l).
Proof.
  revert s. induction l as [|a l IH]; intros s Hf; simpl; [apply meets_ret|].
  eapply meets_bind; [apply Hf; left|apply IH; intros; apply Hf; by right].
Qed.
Lemma meets_all {A} (f : A → B bool) g c (l : list A) :
  (∀ a, a ∈ l → meets (f a) (g a) (c a)) → meets (all_b f l) (forallb g l) (total c l).
Proof.
  induction l as [|a l IH]; intros Hf; simpl; [apply meets_ret|].
  eapply meets_bind; [apply Hf; left|]. destruct (g a).
  - apply IH. intros; apply Hf; by right.
  - apply meets_ret_any.
Qed.

(** What a quiet outside and enough room give. *)
Lemma meets_run {A} (m : B A) a c b :
  meets m a c → ReadLimits.max_value_depth (limits b) = max →
  (∀ t, verdict b (moments t) = Ok ()) → room b c →
  ∃ b', m b = (Ok a, b') ∧ after b c b'.
Proof.
  intros Hm Hb Hq Hr. destruct (Hm b Hb) as [Ha Ho]. destruct (m b) as [[x|e] b']; simpl in *.
  - subst. eauto.
  - destruct Ho as [(t & _ & Hv)|[_ Hn]]; [|done]. by rewrite Hq in Hv.
Qed.
End logic.

(** ** Stopped or right

    A weaker judgement for computations of no fixed cost: under the limits [L]
    they return [a], or stop with an error of [halts]. *)
Definition halts (e : ReadError) : Prop :=
  match e with BudgetExceeded _ | Deadline | Cancelled | Forbidden => True | _ => False end.

Section delivers.
Context `{Ambient} (L : ReadLimits.t).
Definition delivers {A} (m : B A) (a : A) : Prop :=
  ∀ b, limits b = L → ∃ r b', m b = (r, b') ∧ limits b' = L ∧
    (r = Ok a ∨ ∃ e, r = Err e ∧ halts e).

Lemma delivers_ret {A} (a : A) : delivers (mret a) a.
Proof. intros b Hb. exists (Ok a), b. split_and!; [done..|by left]. Qed.
Lemma delivers_bind {A C} (m : B A) (k : A → B C) a c :
  delivers m a → delivers (k a) c → delivers (m ≫= k) c.
Proof.
  intros Hm Hk b Hb. destruct (Hm b Hb) as (r & b' & Hr & Hb' & Hs). unfold mbind, B_bind. rewrite Hr.
  destruct Hs as [->|(e & -> & He)]; [by apply Hk|]. exists (Err e), b'. split_and!; [done..|right; eauto].
Qed.
Lemma verdict_halts b m e : verdict b m = Err e → halts e.
Proof.
  unfold verdict, Session.fence_check. repeat case_match; intros [= <-]; done.
Qed.
Lemma meets_delivers {A} (m : B A) a c :
  meets (ReadLimits.max_value_depth L) m a c → delivers m a.
Proof.
  intros Hm b Hb. destruct (Hm b) as [Ha Ho]; [by rewrite Hb|]. destruct (m b) as [r b']. simpl in Ha.
  exists r, b'. split_and!; [done|by rewrite (same_limits _ _ (af_same _ _ _ Ha))|].
  simpl in Ho. destruct r as [x|e]; [left; by subst|right; exists e; split; [done|]].
  destruct Ho as [(t & _ & Hv)|[[k ->] _]]; [by eapply verdict_halts|done].
Qed.
Lemma delivers_check : delivers check ().
Proof. eapply meets_delivers, meets_check. Qed.
Lemma delivers_depth d : delivers (depth d) ().
Proof. eapply meets_delivers, meets_depth. Qed.
Lemma delivers_copy s : delivers (copy_string s) s.
Proof. eapply meets_delivers, meets_copy. Qed.
Lemma delivers_charge k n : delivers (charge k n) ().
Proof.
  unfold charge. eapply delivers_bind; [apply delivers_check|]. intros b Hb. unfold spend.
  destruct (Usage.counter (limits b) (usage b) k) as [[[used limit] set]|].
  - case_decide; eexists _, _; (split_and!; [done..|]); [right|left]; eauto. by exists (BudgetExceeded k).
  - eexists _, _. split_and!; [done..|]. right. by exists (BudgetExceeded k).
Qed.
Lemma delivers_fold {A S} (f : S → A → B S) g (l : list A) s :
  (∀ s a, a ∈ l → delivers (f s a) (g s a)) → delivers (fold f s l) (foldl g s l).
Proof.
  revert s. induction l as [|a l IH]; intros s Hf; simpl; [apply delivers_ret|].
  eapply delivers_bind; [apply Hf; left|apply IH; intros; apply Hf; by right].
Qed.
Lemma delivers_each {A} (f : A → B unit) (l : list A) :
  (∀ a, a ∈ l → delivers (f a) ()) → delivers (each f l) ().
Proof.
  induction l as [|a l IH]; intros Hf; simpl; [apply delivers_ret|].
  eapply delivers_bind; [apply Hf; left|apply IH; intros; apply Hf; by right].
Qed.
End delivers.

Lemma levels_0 max d : ValueBudget.levels max d = 0 → (max < d)%N.
Proof. unfold ValueBudget.levels. by case_decide. Qed.
Lemma levels_S max d n : ValueBudget.levels max d = S n → n = ValueBudget.levels max (d + 1).
Proof.
  unfold ValueBudget.levels. case_decide; [done|]. intros [= <-]. case_decide; lia.
Qed.
End MeterFacts.
