(* ===== verification/Units.v ===== *)
(** * Units

    [haystack-core/src/kinds/units.rs]: the registry of units read from the
    bundled table (an argument here), found by name first and by symbol
    second.  The conversion factors, which are floating-point constants, and
    [convert] are not modelled; the set of units that have a factor is an
    argument of the predicates that ask for it. *)

From Stdlib Require Import Ascii.
From S2P Require Import Prelude Text.

Record UnitDef : Type := mkUnit { unit_name : string; unit_symbols : list string; unit_quantity : string }.
#[export] Instance UnitDef_eq_dec : EqDecision UnitDef.
Proof. solve_decision. Defined.

Module Units.
Record t : Type := mk { by_name : gmap string UnitDef; by_symbol : gmap string UnitDef }.
Definition empty : t := mk ∅ ∅.

(** [str::lines]. *)
Definition strip_cr (s : string) : string :=
  match strip_suffix (ascii_of_nat 13) s with Some s => s | None => s end.
Definition lines (s : string) : list string :=
  let parts := split_on (ascii_of_nat 10) s in
  strip_cr <$> match last parts with Some "" => removelast parts | _ => parts end.

Definition starts_with (pre s : string) : bool := String.prefix pre s.
Fixpoint ends_with (suf s : string) : bool :=
  bool_decide (s = suf) || match s with EmptyString => false | String _ s => ends_with suf s end.

(** One line of the table, with the quantity the lines before it set; [None]
    where the slice of a heading is out of range. *)
Definition parse_line (st : t * string) (line : string) : option (t * string) :=
  let '(reg, quantity) := st in
  let line := trim line in
  if bool_decide (line = "") || starts_with "//" line then Some st
  else if starts_with "-- " line && ends_with " --" line
  then if decide (String.length line < 6) then None
       else Some (reg, String.substring 3 (String.length line - 6) line)
  else match split_on "," line with
  | [] => Some st
  | first :: rest =>
      let name := trim first in
      let symbols := List.filter (λ s, negb (bool_decide (s = ""))) (trim <$> rest) in
      let unit := mkUnit name symbols quantity in
      Some (mk (<[name := unit]> (by_name reg))
               (foldl (λ m sym, <[sym := unit]> m) (by_symbol reg) symbols), quantity)
  end.

(** [parse_units]. *)
Fixpoint parse_lines (st : t * string) (ls : list string) : option t :=
  match ls with
  | [] => Some st.1
  | l :: ls => st ← parse_line st l; parse_lines st ls
  end.
Definition parse_units (data : string) : option t := parse_lines (empty, "") (lines data).

(** [unit_for]. *)
Definition unit_for (reg : t) (s : string) : option UnitDef :=
  match by_name reg !! s with Some u => Some u | None => by_symbol reg !! s end.
(** [quantity]. *)
Definition quantity (reg : t) (s : string) : option string := unit_quantity <$> unit_for reg s.
(** [has_conversion_factor] and [compatible]. *)
Definition has_conversion_factor (reg : t) (factors : gset string) (s : string) : bool :=
  match unit_for reg s with Some u => bool_decide (unit_name u ∈ factors) | None => false end.
Definition compatible (reg : t) (factors : gset string) (a b : string) : bool :=
  match unit_for reg a, unit_for reg b with
  | Some ua, Some ub =>
      if negb (bool_decide (unit_name ua ∈ factors)) || negb (bool_decide (unit_name ub ∈ factors))
      then false else bool_decide (unit_quantity ua = unit_quantity ub)
  | _, _ => false
  end.

(** ** Facts *)

(** Every unit of the registry is under its name or one of its symbols. *)
Record wf (reg : t) : Prop := {
  wf_name s u : by_name reg !! s = Some u → unit_name u = s;
  wf_symbol s u : by_symbol reg !! s = Some u → s ∈ unit_symbols u
}.
Lemma wf_empty : wf empty.
Proof. by split. Qed.

Lemma insert_symbols_lookup (m : gmap string UnitDef) u syms s v :
  foldl (λ m sym, <[sym := u]> m) m syms !! s = Some v →
  (v = u ∧ s ∈ syms) ∨ m !! s = Some v.
Proof.
  revert m. induction syms as [|x syms IH]; intros m; cbn; [by right|].
  intros [[-> Hs]|Hm]%IH; [left; split; [done|by right]|].
  destruct (decide (x = s)) as [->|Hne].
  - rewrite lookup_insert_eq in Hm. injection Hm as <-. left. split; [done|left].
  - rewrite lookup_insert_ne in Hm by done. by right.
Qed.

Lemma parse_line_wf st line st' : wf st.1 → parse_line st line = Some st' → wf st'.1.
Proof.
  intros [Hn Hs]. destruct st as [reg quantity]. unfold parse_line. cbv zeta beta iota.
  destruct (_ || _); [by intros [= <-]|]. destruct (_ && _); [case_decide; [done|by intros [= <-]]|].
  destruct (split_on "," (trim line)) as [|first rest]; intros [= <-]; [by split|]. cbn.
  set (u := mkUnit _ _ _). split; cbn.
  - intros s v. destruct (decide (trim first = s)) as [<-|Hne].
    + rewrite lookup_insert_eq. by intros [= <-].
    + rewrite lookup_insert_ne by done. apply Hn.
  - intros s v [[-> Hin]|Hm]%insert_symbols_lookup; [exact Hin|by apply Hs].
Qed.
Lemma parse_units_wf data reg : parse_units data = Some reg → wf reg.
Proof.
  unfold parse_units. generalize (lines data). intros ls.
  assert (Hgen : ∀ st reg, wf st.1 → parse_lines st ls = Some reg → wf reg).
  { induction ls as [|l ls IH]; intros st reg' Hst; cbn; [by intros [= <-]|].
    intros (st' & Hl & Hrest)%bind_Some. eapply IH; [|done]. by eapply parse_line_wf. }
  intros Hp. apply (Hgen (empty, "")); [exact wf_empty|done].
Qed.
(** A unit is found by what it is called. *)
Lemma unit_for_called reg s u :
  wf reg → unit_for reg s = Some u → unit_name u = s ∨ s ∈ unit_symbols u.
Proof.
  intros [Hn Hs]. unfold unit_for. destruct (by_name reg !! s) eqn:Hb.
  - intros [= <-]. left. by apply Hn.
  - intros Hu. right. by apply Hs.
Qed.
End Units.
