(* ===== verification/Sanitize.v ===== *)
(** * Masking records

    [haystack-app/src/sanitize.rs]: the copy of a record that a policy lets a
    caller see, made under the caller's budget.  A tag the policy hides, and a
    tag whose value mentions anywhere a record the policy hides, is left out;
    hidden tags inside nested values are left out of the copy; displays of
    references are kept where the policy says so.

    The recursion over values is bounded by the depth limit of the budget:
    [n] is the number of levels left, [S (max - depth)], so that the code's
    own depth check has failed when none is left.

    The pure functions [shown] and [mask] at the end say what is copied. *)

From S2P Require Import Prelude Floats Kinds Size Text Xeto Controlled Application.

Module Sanitize.
Import Meter.

Section model.
Context `{HashOrder, Ambient}.
Context (p : PolicySnapshot).

(** [scalar_bytes]. *)
Definition scalar_bytes (v : Kind) : N :=
  match v with
  | KStr s => str_len s
  | KRef r => saturating_add (str_len (ref_val r))
                (match ref_dis r with Some s => str_len s | None => 0 end)
  | KUri s => str_len s
  | KSymbol s => str_len s
  | KNumber n => match num_unit n with Some u => str_len u | None => 0 end
  | KDateTime d => str_len (dt_tz d)
  | KXStr x => saturating_add (str_len (xstr_type x)) (str_len (xstr_val x))
  | KBuf l => len l
  | KNominal n =>
      saturating_add (saturating_add (saturating_add (str_len (nom_spec n)) (str_len (nom_catalog n)))
        (str_len (nom_revision n))) (str_len (nom_text n))
  | _ => 0
  end%N.

(** [catalog_reference]. *)
Definition catalog_reference (tag : string) (v : Kind) : option (string * string) :=
  if negb (bool_decide (tag = "spec") || bool_decide (tag = "of")) then None
  else match v with
  | KRef r =>
      '(library, name) ← split_once "::" (ref_val r);
      if bool_decide (library ≠ "") && bool_decide (name ≠ "")
      then Some (ref_val r, library) else None
  | _ => None
  end.

Definition ref_allowed (own_id : bool) (r : HRef) : bool :=
  own_id || (p_entity p (ref_val r) && p_reference p (ref_val r)).
Definition nominal_allowed (n : NominalScalar) : bool :=
  p_catalog p CSpec (nom_spec n)
  && match split_once "::" (nom_spec n) with
     | Some (lib, _) => p_catalog p CLibrary lib
     | None => false
     end
  && p_nominal_provenance p n.
Definition catalog_allowed (qname library : string) : bool :=
  p_catalog p CSpec qname && p_catalog p CLibrary library.

(** [member_visible], over the [visible] of the levels left. *)
Definition member_visible_with (visible : Kind → B bool) (d : N) (tag : string) (v : Kind) : B bool :=
  match catalog_reference tag v with
  | Some (qname, library) =>
      depth d;;
      charge BValues 1;;
      charge BWork (saturating_add (str_len qname) 1);;
      mret (catalog_allowed qname library)
  | None => visible v
  end.
(** [visit_dict]. *)
Definition visit_dict_with (visible : Kind → B bool) (d : N) (dict : HDict) : B bool :=
  all_b (λ '(tag, v),
    charge BWork (saturating_add (str_len tag) 1);;
    member_visible_with visible d tag v) (HDict.iter dict).

(** [visible]. *)
Fixpoint visible_at (n : nat) (own_id : bool) (d : N) (v : Kind) : B bool :=
  depth d;;
  match n with
  | 0 => throw (BudgetExceeded BDepth)
  | S n =>
      charge BValues 1;;
      charge BWork (saturating_add (scalar_bytes v) 1);;
      match v with
      | KRef r => mret (ref_allowed own_id r)
      | KNominal x => mret (nominal_allowed x)
      | KList items => all_b (visible_at n false (d + 1)) items
      | KDict dict => visit_dict_with (visible_at n false (d + 1)) (d + 1) dict
      | KGrid g =>
          meta ← visit_dict_with (visible_at n false (d + 1)) (d + 1) (grid_meta g);
          if negb meta then mret false else
          cols ← all_b (λ c,
            charge BWork (saturating_add (str_len (col_name c)) 1);;
            visit_dict_with (visible_at n false (d + 1)) (d + 1) (col_meta c)) (grid_cols g);
          if negb cols then mret false else
          all_b (visit_dict_with (visible_at n false (d + 1)) (d + 1)) (grid_rows g)
      | _ => mret true
      end
  end.
Definition levels_from (d : N) (b : Budget) : nat :=
  ValueBudget.levels (ReadLimits.max_value_depth (limits b)) d.
Definition visible (own_id : bool) (d : N) (v : Kind) : B bool :=
  n ← asks (levels_from d); visible_at n own_id d v.
Definition member_visible (tag : string) (v : Kind) (own_id : bool) (d : N) : B bool :=
  member_visible_with (visible own_id d) d tag v.

(** [copy_dict] and [copy_value]. *)
Fixpoint copy_dict_at (n : nat) (owner : string) (d : N) (dict : HDict) : B HDict :=
  depth d;;
  match n with
  | 0 => throw (BudgetExceeded BDepth)
  | S n =>
      fold (λ out '(tag, v),
        charge BWork (saturating_add (str_len tag) 1);;
        if negb (p_tag p owner tag) then mret out else
        charge BRetained 512;;
        name ← copy_string tag;
        value ← copy_value_at n owner (d + 1) v;
        mret (HDict.set out name value)) HDict.new (HDict.iter dict)
  end
with copy_value_at (n : nat) (owner : string) (d : N) (v : Kind) : B Kind :=
  depth d;;
  match n with
  | 0 => throw (BudgetExceeded BDepth)
  | S n =>
      charge BValues 1;;
      charge BRetained 128;;
      match v with
      | KRef r =>
          display ← (if p_reference_display p (ref_val r)
                     then match ref_dis r with
                          | Some s => s ← copy_string s; mret (Some s)
                          | None => mret None
                          end
                     else mret None);
          val ← copy_string (ref_val r);
          mret (KRef (mkHRef val display))
      | KList items =>
          out ← fold (λ out v, v ← copy_value_at n owner (d + 1) v; mret (out ++ [v])) [] items;
          mret (KList out)
      | KDict dict => copy ← copy_dict_at n owner (d + 1) dict; mret (KDict copy)
      | KGrid g =>
          meta ← copy_dict_at n owner (d + 1) (grid_meta g);
          cols ← fold (λ cols c,
            charge BWork 1;;
            if negb (p_tag p owner (col_name c)) then mret cols else
            charge BRetained 256;;
            name ← copy_string (col_name c);
            meta ← copy_dict_at n owner (d + 1) (col_meta c);
            mret (cols ++ [mkHCol name meta])) [] (grid_cols g);
          rows ← fold (λ rows row,
            charge BRetained 128;;
            row ← copy_dict_at n owner (d + 1) row;
            mret (rows ++ [row])) [] (grid_rows g);
          mret (KGrid (HGrid.from_parts meta cols rows))
      | _ =>
          charge BWork (saturating_add (scalar_bytes v) 1);;
          charge BRetained (scalar_bytes v);;
          mret v
      end
  end.
Definition copy_value (owner : string) (d : N) (v : Kind) : B Kind :=
  n ← asks (levels_from d); copy_value_at n owner d v.

(** [measure]. *)
Fixpoint measure_at (n : nat) (d : N) (v : Kind) : B unit :=
  depth d;;
  match n with
  | 0 => throw (BudgetExceeded BDepth)
  | S n =>
      let measure_dict := λ dict,
        each (λ '(tag, v), charge BWork (str_len tag);; measure_at n (d + 1) v) (HDict.iter dict) in
      charge BValues 1;;
      charge BWork (saturating_add (scalar_bytes v) 1);;
      match v with
      | KList items => each (measure_at n (d + 1)) items
      | KDict dict => measure_dict dict
      | KGrid g =>
          each measure_dict (grid_meta g :: (col_meta <$> grid_cols g) ++ grid_rows g)
      | _ => mret ()
      end
  end.
Definition measure (d : N) (v : Kind) : B unit := n ← asks (levels_from d); measure_at n d v.

Definition is_own_id (id tag : string) (v : Kind) : bool :=
  bool_decide (tag = "id") && match v with KRef r => bool_decide (ref_val r = id) | _ => false end.

(** [record]. *)
Definition record (id : string) (raw : HDict) : B (option HDict) :=
  check;;
  if negb (p_entity p id) then mret None else
  charge BRetained 128;;
  out ← fold (λ out '(tag, v),
    charge BWork (saturating_add (str_len tag) 1);;
    if negb (p_tag p id tag) then mret out else
    seen ← member_visible tag v (is_own_id id tag v) 1;
    if negb seen then mret out else
    name ← copy_string tag;
    charge BRetained 512;;
    value ← copy_value id 1 v;
    mret (HDict.set out name value)) HDict.new (HDict.iter raw);
  mret (Some out).
End model.

(** ** What is copied *)

Section spec.
Context (p : PolicySnapshot).

(** Every record, declaration and nominal type a value mentions is allowed. *)
Fixpoint shown (own_id : bool) (v : Kind) : bool :=
  let shown_dict := λ d, map_fold (λ tag v acc,
    (match catalog_reference tag v with
     | Some (qname, library) => catalog_allowed p qname library
     | None => shown false v
     end) && acc) true d in
  match v with
  | KRef r => ref_allowed p own_id r
  | KNominal x => nominal_allowed p x
  | KList items => forallb (shown false) items
  | KDict d => shown_dict d
  | KGrid g => shown_dict (grid_meta g)
      && forallb (λ c, shown_dict (col_meta c)) (grid_cols g)
      && forallb shown_dict (grid_rows g)
  | _ => true
  end.
Definition member_shown (tag : string) (v : Kind) (own_id : bool) : bool :=
  match catalog_reference tag v with
  | Some (qname, library) => catalog_allowed p qname library
  | None => shown own_id v
  end.

(** The copy without the tags hidden from the reader of [owner] and without
    hidden displays. *)
Definition mask_ref (r : HRef) : HRef :=
  mkHRef (ref_val r) (if p_reference_display p (ref_val r) then ref_dis r else None).
Fixpoint mask (owner : string) (v : Kind) : Kind :=
  let mask_dict := λ d, map_fold (λ tag v acc,
    if p_tag p owner tag then <[tag := mask owner v]> acc else acc) ∅ d in
  match v with
  | KRef r => KRef (mask_ref r)
  | KList items => KList (List.map (mask owner) items)
  | KDict d => KDict (mask_dict d)
  | KGrid g => KGrid (mkHGrid (mask_dict (grid_meta g))
      (omap (λ c, if p_tag p owner (col_name c)
                  then Some (mkHCol (col_name c) (mask_dict (col_meta c))) else None) (grid_cols g))
      (List.map mask_dict (grid_rows g)))
  | _ => v
  end.

(** The record a caller sees. *)
Definition mask_row (id : string) (raw : HDict) : HDict :=
  map_imap (λ tag v,
    if p_tag p id tag && member_shown tag v (is_own_id id tag v)
    then Some (mask id v) else None) raw.
Definition masked (id : string) (raw : HDict) : option HDict :=
  if p_entity p id then Some (mask_row id raw) else None.
End spec.
End Sanitize.
