(* ===== verification/SanitizeFacts.v ===== *)
(** * Masking is exact

    [record] returns the masked copy of a row, or is stopped; it spends no
    more than [record_cost], which depends on the row alone, so it returns for
    every caller with that much left. *)

From S2P Require Import Prelude Floats Kinds Size Text Xeto Controlled Application MeterFacts Sanitize.

Module SanitizeFacts.
Import Meter MeterFacts Sanitize.

(** ** Costs *)

Fixpoint visible_cost (d : N) (v : Kind) : cost :=
  let dict_cost := λ m, map_fold (λ tag v acc,
    plus (plus (works (saturating_add (str_len tag) 1)) (visible_cost (d + 1) v)) acc) free m in
  plus (mkCost (saturating_add (scalar_bytes v) 1) 0 1 d)
  match v with
  | KList items => total (visible_cost (d + 1)) items
  | KDict m => dict_cost m
  | KGrid g => plus (plus (dict_cost (grid_meta g))
      (total (λ c, plus (works (saturating_add (str_len (col_name c)) 1)) (dict_cost (col_meta c)))
         (grid_cols g)))
      (total dict_cost (grid_rows g))
  | _ => free
  end.
Definition entry_cost (d : N) (tag : string) (v : Kind) : cost :=
  plus (works (saturating_add (str_len tag) 1)) (visible_cost d v).

(** One entry of a copied dict, before its value. *)
Definition tag_cost (tag : string) : cost :=
  plus (works (saturating_add (str_len tag) 1)) (plus (retains 512) (copies tag)).
Fixpoint copy_cost (d : N) (v : Kind) : cost :=
  let dict_cost := λ m, plus (reaches (d + 1)) (map_fold (λ tag v acc,
    plus (plus (tag_cost tag) (copy_cost (d + 1 + 1) v)) acc) free m) in
  plus (mkCost 0 128 1 d)
  match v with
  | KRef r => plus (match ref_dis r with Some s => copies s | None => free end) (copies (ref_val r))
  | KList items => total (copy_cost (d + 1)) items
  | KDict m => dict_cost m
  | KGrid g => plus (plus (dict_cost (grid_meta g))
      (total (λ c, plus (plus (works 1) (plus (retains 256) (copies (col_name c))))
                        (dict_cost (col_meta c))) (grid_cols g)))
      (total (λ row, plus (retains 128) (dict_cost row)) (grid_rows g))
  | _ => mkCost (saturating_add (scalar_bytes v) 1) (scalar_bytes v) 0 0
  end.
Definition copy_dict_cost (d : N) (m : HDict) : cost :=
  plus (reaches d) (total_map (λ tag v, plus (tag_cost tag) (copy_cost (d + 1) v)) m).

(** A row. *)
Definition row_cost (raw : HDict) : cost :=
  plus (retains 128)
    (total_map (λ tag v, plus (entry_cost 1 tag v) (plus (plus (copies tag) (retains 512)) (copy_cost 1 v)))
       raw).

Section facts.
Context `{HashOrderLaws, Ambient}.
Context (p : PolicySnapshot) (max : N).
Abbreviation meets := (meets max).

(** ** Building dicts *)

(** A dict built by a loop that keeps some of the entries. *)
Definition kept (keep : string → Kind → bool) (f : Kind → Kind) (m : HDict) : HDict :=
  map_imap (λ tag v, if keep tag v then Some (f v) else None) m.
Lemma kept_iter (keep : string → Kind → bool) (f : Kind → Kind) m :
  foldl (λ (out : HDict) (kv : string * Kind), if keep kv.1 kv.2 then HDict.set out kv.1 (f kv.2) else out) HDict.new (HDict.iter m)
  = kept keep f m.
Proof.
  apply map_eq. intros tag. unfold kept. rewrite map_lookup_imap.
  assert (Hgen : ∀ (l : list (string * Kind)) out, NoDup l.*1 →
    foldl (λ (out : HDict) (kv : string * Kind), if keep kv.1 kv.2 then HDict.set out kv.1 (f kv.2) else out) out l !! tag =
    match list_to_map (M:=HDict) l !! tag with
    | Some v => if keep tag v then Some (f v) else out !! tag
    | None => out !! tag
    end).
  { induction l as [|[k v] l IH]; intros out Hnd; [done|]. apply NoDup_cons in Hnd as [Hk Hnd]. simpl.
    rewrite IH by done. destruct (decide (k = tag)) as [->|Hne].
    - rewrite lookup_insert_eq, (not_elem_of_list_to_map_1 l tag) by done.
      destruct (keep tag v); [|done]. by apply lookup_insert_eq.
    - rewrite lookup_insert_ne by done.
      replace ((if keep k v then HDict.set out k (f v) else out) !! tag) with (out !! tag); [done|].
      destruct (keep k v); [|done]. unfold HDict.set. by rewrite lookup_insert_ne. }
  rewrite Hgen by apply NoDup_hash_keys.
  rewrite (list_to_map_proper _ (map_to_list m)) by (first [apply NoDup_hash_keys | apply hash_iter_perm]).
  rewrite list_to_map_to_list. destruct (m !! tag); [|done]. cbn. by destruct (keep tag k).
Qed.
Lemma kept_fold (keep : string → Kind → bool) (f : Kind → Kind) m :
  map_fold (λ tag v acc, if keep tag v then <[tag := f v]> acc else acc) ∅ m = kept keep f m.
Proof.
  apply map_eq. intros tag. unfold kept. rewrite map_lookup_imap. revert tag.
  apply (map_fold_weak_ind (λ (out m : HDict), ∀ tag,
    out !! tag = m !! tag ≫= (λ v, if keep tag v then Some (f v) else None))); [done|].
  intros k v m' out Hk IH tag. destruct (decide (k = tag)) as [->|Hne].
  - rewrite lookup_insert_eq. cbn. destruct (keep tag v); [by rewrite lookup_insert_eq|].
    by rewrite IH, Hk.
  - rewrite lookup_insert_ne by done. destruct (keep k v); [rewrite lookup_insert_ne by done|]; apply IH.
Qed.

(** ** What dicts show *)

Definition shown_dict (m : HDict) : bool :=
  map_fold (λ tag v acc, member_shown p tag v false && acc) true m.
Lemma shown_dict_iter m :
  forallb (λ kv, member_shown p kv.1 kv.2 false) (HDict.iter m) = shown_dict m.
Proof.
  unfold shown_dict. rewrite map_fold_foldr. unfold HDict.iter.
  assert (Hp : ∀ l k : list (string * Kind), l ≡ₚ k →
    forallb (λ kv, member_shown p kv.1 kv.2 false) l = forallb (λ kv, member_shown p kv.1 kv.2 false) k).
  { induction 1; simpl; [done|congruence| |congruence]. by rewrite !andb_assoc, (andb_comm (member_shown _ _ _ _)). }
  rewrite (Hp _ _ (hash_iter_perm m)). induction (map_to_list m) as [|[k v] l IH]; [done|]. simpl.
  by rewrite IH.
Qed.
Lemma shown_dict_spec m :
  shown_dict m = true ↔ ∀ tag v, m !! tag = Some v → member_shown p tag v false = true.
Proof.
  rewrite <-shown_dict_iter, forallb_forall. setoid_rewrite <-list_elem_of_In. split.
  - intros Hall tag v Hv. apply (Hall (tag, v)). by apply HDict.elem_of_iter.
  - intros Hall [tag v] Hv%HDict.elem_of_iter. by apply Hall.
Qed.

(** ** Visibility *)

Lemma catalog_reference_ref tag v qname library :
  catalog_reference tag v = Some (qname, library) → ∃ r, v = KRef r ∧ qname = ref_val r.
Proof.
  unfold catalog_reference. destruct (negb _); [done|]. destruct v; try done.
  destruct (split_once "::" (ref_val v)) as [[l n]|]; [|done]. cbn. destruct (_ && _); [|done].
  intros [= <- <-]. eauto.
Qed.

Lemma member_visible_meets vis own d tag v :
  meets (vis v) (shown p own v) (visible_cost d v) →
  meets (member_visible_with p vis d tag v) (member_shown p tag v own) (visible_cost d v).
Proof.
  intros Hv. unfold member_visible_with, member_shown.
  destruct (catalog_reference tag v) as [[qname library]|] eqn:Hc; [|done].
  apply catalog_reference_ref in Hc as (r & -> & ->). eapply meets_weaken; [|
    eapply meets_bind; [apply meets_depth|eapply meets_bind; [apply meets_charge; auto|
      eapply meets_bind; [apply meets_charge; auto|apply meets_ret]]]].
  cbn. unfold saturating_add. cost_solve.
Qed.

Lemma visit_dict_meets vis d m :
  (∀ v, meets (vis v) (shown p false v) (visible_cost d v)) →
  meets (visit_dict_with p vis d m) (shown_dict m) (total_map (entry_cost d) m).
Proof.
  intros Hv. rewrite <-total_hash, <-shown_dict_iter. unfold visit_dict_with.
  apply (meets_all _ _ (λ kv, member_shown p kv.1 kv.2 false) (uncurry (entry_cost d))).
  intros [tag v] _. cbn. eapply meets_bind; [apply meets_charge; auto|].
  by apply member_visible_meets.
Qed.

Lemma visible_at_meets n own d v :
  n = ValueBudget.levels max d →
  meets (visible_at p n own d v) (shown p own v) (visible_cost d v).
Proof.
  revert own d v. induction n as [|n IH]; intros own d v Hn.
  { eapply meets_weaken; [|apply meets_too_deep, levels_0; done]. destruct v; cbn; cost_solve. }
  pose proof (levels_S _ _ _ (eq_sym Hn)) as Hn'.
  assert (Hrec : ∀ v, meets (visible_at p n false (d + 1) v) (shown p false v) (visible_cost (d + 1) v))
    by (intros; by apply IH).
  cbn [visible_at]. set (rest := match v with KRef _ => _ | _ => _ end).
  assert (Hbase : ∀ x c, meets rest x c →
    visible_cost d v = plus (mkCost (saturating_add (scalar_bytes v) 1) 0 1 d) c →
    meets (depth d;; charge BValues 1;; charge BWork (saturating_add (scalar_bytes v) 1);; rest) x
      (visible_cost d v)).
  { intros x c Hr ->. eapply meets_weaken; [|eapply meets_bind; [apply meets_depth|eapply meets_bind;
      [apply meets_charge; auto|eapply meets_bind; [apply meets_charge; auto|exact Hr]]]]. cost_solve. }
  subst rest. destruct v; try (eapply Hbase; [apply meets_ret|done]).
  - eapply Hbase; [|done]. by apply meets_all.
  - eapply Hbase; [by apply visit_dict_meets|]. done.
  - eapply Hbase; [|done]. rewrite <-plus_assoc. eapply meets_bind; [by apply visit_dict_meets|].
    change (shown p own (KGrid v)) with (shown_dict (grid_meta v)
      && forallb (λ c, shown_dict (col_meta c)) (grid_cols v) && forallb shown_dict (grid_rows v)).
    destruct (shown_dict (grid_meta v)); cbn [negb andb].
    2: apply meets_ret_any.
    eapply meets_bind.
    { apply (meets_all _ _ (λ c, shown_dict (col_meta c))). intros c _.
      eapply meets_bind; [apply meets_charge; auto|]. by apply visit_dict_meets. }
    destruct (forallb _ _); cbn [negb andb].
    2: apply meets_ret_any.
    apply meets_all. intros row _. by apply visit_dict_meets.
Qed.

Lemma member_visible_at_1 tag v own :
  meets (member_visible p tag v own 1) (member_shown p tag v own) (visible_cost 1 v).
Proof.
  apply member_visible_meets. unfold visible. apply meets_asks. intros b Hb.
  apply visible_at_meets. unfold levels_from. by rewrite Hb.
Qed.

(** ** Copies *)

Definition mask_dict (owner : string) (m : HDict) : HDict :=
  kept (λ tag _, p_tag p owner tag) (mask p owner) m.
Lemma mask_dict_eq owner m :
  map_fold (λ tag v acc, if p_tag p owner tag then <[tag := mask p owner v]> acc else acc) ∅ m
  = mask_dict owner m.
Proof. apply (kept_fold (λ tag _, p_tag p owner tag)). Qed.

Lemma copy_entry_meets owner n d out tag v :
  (meets (copy_value_at p n owner d v) (mask p owner v) (copy_cost d v)) →
  meets (charge BWork (saturating_add (str_len tag) 1);;
         if negb (p_tag p owner tag) then mret out else
         charge BRetained 512;;
         name ← copy_string tag;
         value ← copy_value_at p n owner d v;
         mret (HDict.set out name value))
    (if p_tag p owner tag then HDict.set out tag (mask p owner v) else out)
    (plus (tag_cost tag) (copy_cost d v)).
Proof.
  intros Hv. unfold tag_cost. rewrite <-!plus_assoc.
  eapply meets_bind; [apply meets_charge; auto|]. destruct (p_tag p owner tag); cbn [negb].
  2: apply meets_ret_any.
  eapply meets_bind; [apply meets_charge; auto|]. eapply meets_bind; [apply meets_copy|].
  rewrite <-(plus_free_r (copy_cost d v)). eapply meets_bind; [exact Hv|apply meets_ret].
Qed.

Lemma copy_dict_meets owner n d m :
  S n = ValueBudget.levels max d →
  (∀ v, meets (copy_value_at p n owner (d + 1) v) (mask p owner v) (copy_cost (d + 1) v)) →
  meets (copy_dict_at p (S n) owner d m) (mask_dict owner m) (copy_dict_cost d m).
Proof.
  intros Hn Hv. cbn [copy_dict_at]. unfold copy_dict_cost. eapply meets_bind; [apply meets_depth|].
  rewrite <-total_hash. unfold mask_dict. rewrite <-kept_iter.
  apply (meets_fold _ _ (λ (out : HDict) (kv : string * Kind), if p_tag p owner kv.1 then HDict.set out kv.1 (mask p owner kv.2) else out)).
  intros out [tag v] _. by apply copy_entry_meets.
Qed.

Lemma copy_dict_deep owner d m :
  0 = ValueBudget.levels max d → meets (copy_dict_at p 0 owner d m) (mask_dict owner m) (copy_dict_cost d m).
Proof.
  intros Hn. eapply meets_weaken; [|apply meets_too_deep, levels_0; done]. unfold copy_dict_cost.
  apply le_plus_l.
Qed.

Lemma foldl_snoc {A C} (f : A → C) (l : list A) out : foldl (λ out a, out ++ [f a]) out l = out ++ List.map f l.
Proof.
  revert out. induction l as [|a l IH]; intros out; simpl; [by rewrite app_nil_r|].
  by rewrite IH, <-app_assoc.
Qed.
Lemma foldl_snoc_omap {A C} (f : A → option C) (l : list A) out :
  foldl (λ out a, match f a with Some c => out ++ [c] | None => out end) out l = out ++ omap f l.
Proof.
  revert out. induction l as [|a l IH]; intros out; simpl; [by rewrite app_nil_r|].
  rewrite IH. destruct (f a); [by rewrite <-app_assoc|done].
Qed.

(** The parts of a grid. *)
Section grid.
Context (owner : string) (n : nat) (d : N).
Context (Hdict : ∀ m, meets (copy_dict_at p n owner d m) (mask_dict owner m) (copy_dict_cost d m)).

Definition mask_col (c : HCol) : option HCol :=
  if p_tag p owner (col_name c) then Some (mkHCol (col_name c) (mask_dict owner (col_meta c))) else None.
Definition col_cost (c : HCol) : cost :=
  plus (plus (works 1) (plus (retains 256) (copies (col_name c)))) (copy_dict_cost d (col_meta c)).

Lemma copy_cols_meets cols :
  meets (fold (λ cols c,
      charge BWork 1;;
      if negb (p_tag p owner (col_name c)) then mret cols else
      charge BRetained 256;;
      name ← copy_string (col_name c);
      meta ← copy_dict_at p n owner d (col_meta c);
      mret (cols ++ [mkHCol name meta])) [] cols)
    (omap mask_col cols) (total col_cost cols).
Proof.
  rewrite <-(app_nil_l (omap mask_col cols)), <-foldl_snoc_omap. apply meets_fold. intros out c _.
  unfold col_cost, mask_col. rewrite <-!plus_assoc. eapply meets_bind; [apply meets_charge; auto|].
  destruct (p_tag p owner (col_name c)); cbn [negb]; [|apply meets_ret_any].
  eapply meets_bind; [apply meets_charge; auto|]. eapply meets_bind; [apply meets_copy|].
  rewrite <-(plus_free_r (copy_dict_cost _ _)). eapply meets_bind; [apply Hdict|apply meets_ret].
Qed.

Lemma copy_rows_meets rows :
  meets (fold (λ rows row, charge BRetained 128;; row ← copy_dict_at p n owner d row; mret (rows ++ [row]))
           [] rows)
    (List.map (mask_dict owner) rows) (total (λ row, plus (retains 128) (copy_dict_cost d row)) rows).
Proof.
  rewrite <-(app_nil_l (List.map _ rows)), <-foldl_snoc. apply meets_fold. intros out row _.
  eapply meets_bind; [apply meets_charge; auto|]. rewrite <-(plus_free_r (copy_dict_cost _ _)).
  eapply meets_bind; [apply Hdict|apply meets_ret].
Qed.
End grid.

Lemma mask_grid owner g :
  mask p owner (KGrid g) = KGrid (mkHGrid (mask_dict owner (grid_meta g))
    (omap (mask_col owner) (grid_cols g)) (List.map (mask_dict owner) (grid_rows g))).
Proof.
  cbn [mask]. rewrite mask_dict_eq. do 2 f_equal.
  - apply omap_ext_in. intros c _. unfold mask_col. by rewrite mask_dict_eq.
  - apply List.map_ext. intros row. apply mask_dict_eq.
Qed.

Lemma copy_ref_meets r :
  meets (display ← (if p_reference_display p (ref_val r)
                    then match ref_dis r with
                         | Some s => s ← copy_string s; mret (Some s)
                         | None => mret None
                         end
                    else mret None);
         val ← copy_string (ref_val r);
         mret (KRef (mkHRef val display)))
    (KRef (mask_ref p r))
    (plus (match ref_dis r with Some s => copies s | None => free end) (copies (ref_val r))).
Proof.
  eapply (meets_bind _ _ _ (ref_dis (mask_ref p r))).
  - unfold mask_ref. cbn. destruct (p_reference_display p (ref_val r)); [|apply meets_ret_any].
    destruct (ref_dis r); [|apply meets_ret]. rewrite <-(plus_free_r (copies s)).
    eapply meets_bind; [apply meets_copy|apply meets_ret].
  - rewrite <-(plus_free_r (copies (ref_val r))). eapply meets_bind; [apply meets_copy|apply meets_ret].
Qed.

Lemma copy_meets n owner :
  (∀ d m, n = ValueBudget.levels max d →
     meets (copy_dict_at p n owner d m) (mask_dict owner m) (copy_dict_cost d m)) ∧
  (∀ d v, n = ValueBudget.levels max d →
     meets (copy_value_at p n owner d v) (mask p owner v) (copy_cost d v)).
Proof.
  induction n as [|n [IHd IHv]]; split; intros d v Hn.
  - by apply copy_dict_deep.
  - eapply meets_weaken; [|apply meets_too_deep, levels_0; done]. destruct v; cbn; cost_solve.
  - apply copy_dict_meets; [done|]. intros v'. apply IHv. by apply levels_S.
  - pose proof (levels_S _ _ _ (eq_sym Hn)) as Hn'. cbn [copy_value_at].
    set (rest := match v with KRef _ => _ | _ => _ end).
    assert (Hbase : ∀ c, meets rest (mask p owner v) c → plus (mkCost 0 128 1 d) c ⊑ copy_cost d v →
      meets (depth d;; charge BValues 1;; charge BRetained 128;; rest) (mask p owner v) (copy_cost d v)).
    { intros c Hr Hc. eapply meets_weaken; [exact Hc|]. eapply meets_weaken; [|eapply meets_bind;
        [apply meets_depth|eapply meets_bind; [apply meets_charge; auto|eapply meets_bind;
          [apply meets_charge; auto|exact Hr]]]]. clear. cost_solve. }
    subst rest. destruct v; try (eapply Hbase; [eapply meets_bind; [apply meets_charge; auto|
      eapply meets_bind; [apply meets_charge; auto|apply meets_ret]]|cbn; cost_solve]).
    + eapply Hbase; [apply copy_ref_meets|reflexivity].
    + apply (Hbase (total (copy_cost (d + 1)) v)); [|reflexivity]. rewrite <-(plus_free_r (total _ _)). eapply meets_bind; [|apply meets_ret].
      rewrite <-(app_nil_l (List.map _ _)), <-foldl_snoc. apply meets_fold. intros out x _.
      rewrite <-(plus_free_r (copy_cost _ _)). eapply meets_bind; [by apply IHv|apply meets_ret].
    + eapply Hbase; [eapply meets_bind; [by apply IHd|]|].
      * cbn [mask]. rewrite mask_dict_eq. apply meets_ret.
      * rewrite plus_free_r. reflexivity.
    + eapply Hbase.
      * eapply meets_bind; [by apply IHd|]. eapply meets_bind; [apply copy_cols_meets; intros; by apply IHd|].
        eapply meets_bind; [apply copy_rows_meets; intros; by apply IHd|].
        rewrite mask_grid. apply meets_ret.
      * rewrite plus_free_r, (plus_assoc (copy_dict_cost _ _)). reflexivity.
Qed.

Lemma copy_value_1 owner v : meets (copy_value p owner 1 v) (mask p owner v) (copy_cost 1 v).
Proof.
  unfold copy_value. apply meets_asks. intros b Hb. apply copy_meets. unfold levels_from. by rewrite Hb.
Qed.

(** ** Records *)

Lemma record_meets id raw : meets (record p id raw) (masked p id raw) (row_cost raw).
Proof.
  unfold record, masked. rewrite <-(plus_free_l (row_cost raw)).
  eapply meets_bind; [apply meets_check|]. destruct (p_entity p id); cbn [negb]; [|apply meets_ret_any].
  unfold row_cost. eapply meets_bind; [apply meets_charge; auto|].
  rewrite <-(plus_free_r (total_map _ _)). eapply meets_bind; [|apply meets_ret]. rewrite <-total_hash.
  change (mask_row p id raw) with
    (kept (λ tag v, p_tag p id tag && member_shown p tag v (is_own_id id tag v)) (mask p id) raw).
  rewrite <-kept_iter.
  apply (meets_fold _ _ (λ (out : HDict) (kv : string * Kind), if p_tag p id kv.1 && member_shown p kv.1 kv.2 (is_own_id id kv.1 kv.2)
    then HDict.set out kv.1 (mask p id kv.2) else out)).
  intros out [tag v] _. cbn [fst snd uncurry]. unfold entry_cost. rewrite <-!plus_assoc.
  eapply meets_bind; [apply meets_charge; auto|].
  destruct (p_tag p id tag); cbn [negb andb]; [|apply meets_ret_any].
  eapply meets_bind; [apply member_visible_at_1|].
  destruct (member_shown p tag v _); cbn [negb]; [|apply meets_ret_any].
  eapply meets_bind; [apply meets_copy|]. eapply meets_bind; [apply meets_charge; auto|].
  rewrite <-(plus_free_r (copy_cost _ _)). eapply meets_bind; [apply copy_value_1|apply meets_ret].
Qed.

(** ** Disclosure *)

(** [part t v t' x]: the value [v], which stands under the tag [t] (or in a
    list), holds [x] under [t'], at any depth. *)
Inductive part : option string → Kind → option string → Kind → Prop :=
| part_here t v : part t v t v
| part_item t items v t' x : v ∈ items → part None v t' x → part t (KList items) t' x
| part_dict t m k v t' x : m !! k = Some v → part (Some k) v t' x → part t (KDict m) t' x
| part_meta t g k v t' x :
    grid_meta g !! k = Some v → part (Some k) v t' x → part t (KGrid g) t' x
| part_col t g c k v t' x : c ∈ grid_cols g →
    col_meta c !! k = Some v → part (Some k) v t' x → part t (KGrid g) t' x
| part_row t g row k v t' x : row ∈ grid_rows g →
    row !! k = Some v → part (Some k) v t' x → part t (KGrid g) t' x.

(** What a caller may learn from a value under a tag. *)
Definition permitted (own : HRef → Prop) (t : option string) (x : Kind) : Prop :=
  match x with
  | KRef r =>
      (own r ∨ (p_entity p (ref_val r) = true ∧ p_reference p (ref_val r) = true) ∨
       (∃ tag qname library, t = Some tag ∧ catalog_reference tag x = Some (qname, library) ∧
          catalog_allowed p qname library = true)) ∧
      (∀ s, ref_dis r = Some s → p_reference_display p (ref_val r) = true)
  | KNominal n => nominal_allowed p n = true
  | _ => True
  end.

Definition shown_under (t : option string) (own : bool) (v : Kind) : bool :=
  match t with Some tag => member_shown p tag v own | None => shown p own v end.

Lemma shown_under_cases t own v :
  shown_under t own v = true → shown p own v = true ∨
  ∃ tag qname library, t = Some tag ∧ catalog_reference tag v = Some (qname, library) ∧
    catalog_allowed p qname library = true.
Proof.
  destruct t as [tag|]; [|by left]. cbn. unfold member_shown.
  destruct (catalog_reference tag v) as [[q l]|] eqn:Hc; [|by left]. right. eauto 10.
Qed.

Lemma catalog_reference_mask owner tag r :
  catalog_reference tag (mask p owner (KRef r)) = catalog_reference tag (KRef r).
Proof. done. Qed.

Lemma mask_dict_lookup owner m k y :
  mask_dict owner m !! k = Some y →
  ∃ v, m !! k = Some v ∧ p_tag p owner k = true ∧ y = mask p owner v.
Proof.
  unfold mask_dict, kept. rewrite map_lookup_imap. destruct (m !! k) as [v|]; [|done]. cbn.
  destruct (p_tag p owner k) eqn:Hk; [|done]. intros [= <-]. eauto.
Qed.

Lemma permitted_here owner t own v :
  shown_under t own v = true →
  permitted (λ r, own = true ∧ ∃ r', v = KRef r' ∧ ref_val r = ref_val r') t (mask p owner v).
Proof.
  intros Hs. apply shown_under_cases in Hs. destruct v; try done.
  - destruct Hs as [Hs|(tag & q & l & _ & (r & [=] & _)%catalog_reference_ref & _)]. exact Hs.
  - cbn. split.
    + destruct Hs as [Hs|(tag & q & l & -> & Hc & Ha)]; [|right; right; exists tag, q, l; done].
      cbn in Hs. unfold ref_allowed in Hs. apply orb_true_iff in Hs as [->|Hs]; [left; eauto|].
      right; left. by apply andb_true_iff.
    + unfold mask_ref. cbn. intros s Hd. by destruct (p_reference_display p (ref_val v)).
Qed.

(** Nested values are shown without an exception for the own id. *)
Lemma shown_not_own t own v :
  shown_under t own v = true → (∀ r, v ≠ KRef r) → shown p own v = true.
Proof.
  intros [?|(tag & q & l & _ & (r & -> & _)%catalog_reference_ref & _)]%shown_under_cases Hv; [done|].
  by destruct (Hv r).
Qed.

Lemma permitted_weaken (P Q : HRef → Prop) t x :
  (∀ r, P r → Q r) → permitted P t x → permitted Q t x.
Proof. intros HPQ. destruct x; try done. cbn. intros [[?|?] ?]; auto. Qed.

(** What is learnt from a value under [t] at a place under [t'], the own id
    being excepted. *)
Definition own_of (own : bool) (t t' : option string) (v : Kind) (r : HRef) : Prop :=
  own = true ∧ t' = t ∧ ∃ r', v = KRef r' ∧ ref_val r = ref_val r'.
Definition fair (owner : string) (own : HRef → Prop) (t t' : option string) (x : Kind) : Prop :=
  (∀ k, t' = Some k → t = Some k ∨ p_tag p owner k = true) ∧ permitted own t' x.

Lemma fair_nested owner t1 t' v x :
  fair owner (own_of false t1 t' v) t1 t' x → (∀ k, t1 = Some k → p_tag p owner k = true) →
  ∀ Q t, fair owner Q t t' x.
Proof.
  intros [Ht Hp] Ht1 Q t. split.
  - intros k Hk. right. destruct (Ht k Hk); auto.
  - eapply permitted_weaken; [|exact Hp]. by intros r [? _].
Qed.

Lemma fair_dict owner m k y t' x Q t :
  shown_dict m = true → mask_dict owner m !! k = Some y →
  (∀ own v, y = mask p owner v → shown_under (Some k) own v = true →
     fair owner (own_of own (Some k) t' v) (Some k) t' x) →
  fair owner Q t t' x.
Proof.
  intros Hs (v & Hv & Hk & ->)%mask_dict_lookup Hrec.
  apply (fair_nested owner (Some k) t' v); [|by intros ? [= <-]]. apply Hrec; [done|].
  by apply (proj1 (shown_dict_spec m) Hs).
Qed.

Lemma mask_grid_inv owner g v :
  KGrid g = mask p owner v → ∃ g0, v = KGrid g0 ∧ grid_meta g = mask_dict owner (grid_meta g0) ∧
    grid_cols g = omap (mask_col owner) (grid_cols g0) ∧
    grid_rows g = List.map (mask_dict owner) (grid_rows g0).
Proof. destruct v; try done. rewrite mask_grid. intros [= ->]. eauto. Qed.
Lemma shown_grid own g :
  shown p own (KGrid g) = true → shown_dict (grid_meta g) = true ∧
    (∀ c, c ∈ grid_cols g → shown_dict (col_meta c) = true) ∧
    (∀ row, row ∈ grid_rows g → shown_dict row = true).
Proof.
  intros [[Hm Hc]%andb_true_iff Hr]%andb_true_iff. rewrite forallb_forall in Hc, Hr.
  split_and!; [done|..]; intros ? ?%list_elem_of_In; auto.
Qed.

Lemma mask_discloses owner t y t' x :
  part t y t' x → ∀ own v, y = mask p owner v → shown_under t own v = true →
  fair owner (own_of own t t' v) t t' x.
Proof.
  induction 1 as [t v|t items v t' x Hin _ IH|t m k v t' x Hm _ IH|t g k v t' x Hm _ IH
    |t g c k v t' x Hc Hm _ IH|t g row k v t' x Hr Hm _ IH]; intros own w Heq Hs.
  - subst. split; [by left|]. eapply permitted_weaken; [|by eapply permitted_here].
    intros r [? ?]. by split_and!.
  - destruct w; try done. injection Heq as ->. apply shown_not_own in Hs; [|done].
    apply list_elem_of_In, in_map_iff in Hin as (v' & <- & Hin). cbn in Hs.
    rewrite forallb_forall in Hs. apply (fair_nested owner None t' v'); [|done]. apply IH; [done|]. by apply Hs.
  - destruct w; try done. injection Heq as ->. apply shown_not_own in Hs; [|done].
    rewrite mask_dict_eq in Hm. by eapply fair_dict.
  - apply mask_grid_inv in Heq as (g0 & -> & Hmeta & _). apply shown_not_own, shown_grid in Hs as (Hs & _); [|done].
    rewrite Hmeta in Hm. by eapply fair_dict.
  - apply mask_grid_inv in Heq as (g0 & -> & _ & Hcols & _).
    apply shown_not_own, shown_grid in Hs as (_ & Hs & _); [|done]. rewrite Hcols in Hc.
    apply list_elem_of_omap in Hc as (c' & Hc' & Hmc). unfold mask_col in Hmc.
    destruct (p_tag p owner (col_name c')); [|done]. simplify_eq/=.
    eapply fair_dict; [by apply (Hs c')|done|done].
  - apply mask_grid_inv in Heq as (g0 & -> & _ & _ & Hrows).
    apply shown_not_own, shown_grid in Hs as (_ & _ & Hs); [|done]. rewrite Hrows in Hr.
    apply list_elem_of_In, in_map_iff in Hr as (row' & <- & Hr).
    eapply fair_dict; [|done|done]. apply Hs. by apply list_elem_of_In.
Qed.

(** Everything in a masked record is allowed to its reader. *)
Lemma mask_row_discloses id raw tag v t x :
  mask_row p id raw !! tag = Some v → part (Some tag) v t x →
  (∀ k, t = Some k → p_tag p id k = true) ∧
  permitted (λ r, t = Some "id" ∧ ref_val r = id) t x.
Proof.
  unfold mask_row. rewrite map_lookup_imap. destruct (raw !! tag) as [w|] eqn:Hw; [|done]. cbn.
  destruct (p_tag p id tag) eqn:Ht; [|done]. destruct (member_shown p tag w _) eqn:Hs; [|done].
  intros [= <-] Hpart.
  destruct (mask_discloses id _ _ _ _ Hpart (is_own_id id tag w) w eq_refl Hs) as [Hk Hp].
  split; [intros k ->; destruct (Hk k eq_refl) as [[= ->]|]; done|].
  eapply permitted_weaken; [|exact Hp]. intros r (Hid & -> & r' & -> & Hr). unfold is_own_id in Hid.
  apply andb_true_iff in Hid as [->%bool_decide_eq_true Hid%bool_decide_eq_true].
  split; [done|congruence].
Qed.
End facts.
End SanitizeFacts.
