(* ===== verification/View.v ===== *)
(** * The view of a caller

    [View] of [haystack-app/src/sanitize.rs]: the environment in which the
    application evaluates filters.  It answers references and reverse
    references with the masked records of a graph and charges the caller's
    budget for every step.  [shown] is what it shows: the rows the policy
    allows, each as its reader sees it, and the visible catalog; [masked_ctx]
    is the store of those rows. *)

From S2P Require Import Prelude Floats Kinds Size Extern Bitmap Adjacency ValueIndex Filter Text Taxonomy Xeto Namespace Fitting FittingFacts Controlled ControlledFacts ControlledSafety Changelog Graph GraphInv Query QueryFacts GraphValidation Application MeterFacts Sanitize SanitizeFacts.

Module View.
Import Meter EntityGraph GraphQuery.

Section model.
Context {HO : HashOrder} {RB : Roaring} {CM : CacheMap} {ON : Ontology} {CA : Catalog} {FS : FilterSyntax}.
Context {AM : Ambient}.
Context (g : EntityGraph.t) (p : PolicySnapshot).

(** [View::entity]. *)
Definition entity (id : string) : B (option HDict) :=
  check;;
  if negb (p_entity p id) then mret None
  else match EntityGraph.get g id with
       | None => mret None
       | Some raw => Sanitize.record p id raw
       end.

(** [View::incoming]. *)
Definition incoming (target : HRef) (tag : option string) : B (list HDict) :=
  fold (λ result '(edge_tag, source),
    charge BInverse 1;;
    charge BWork 1;;
    if match tag with Some t => negb (bool_decide (edge_tag = t)) | None => false end
    then mret result else
    row ← entity source;
    match row with
    | None => mret result
    | Some row =>
        match HDict.get row edge_tag with
        | Some (KRef r) =>
            if decide (ref_val r = ref_val target)
            then charge BRetained 32;; mret (result ++ [row])
            else mret result
        | _ => mret result
        end
    end) [] (incoming_edges g (ref_val target)).

(** [QueryEnvironment for View]. *)
Definition forward (id : HRef) : B (option HDict) :=
  charge BForward 1;;
  if negb (p_reference p (ref_val id)) then mret None else entity (ref_val id).
Definition comparison (l r : Kind) : B unit := Sanitize.measure 1 l;; Sanitize.measure 1 r.
Definition catalog_visible (k : CatalogKind) (name : string) : B bool :=
  charge BWork (saturating_add (str_len name) 1);;
  mret (p_catalog p k name).
Definition environment : QueryEnvironment := {|
  Env := Budget;
  EnvError := ReadError;
  env_work n := charge BWork n;
  env_retain n := charge BRetained n;
  env_depth d := depth d;
  env_comparison l r := comparison l r;
  env_forward id := forward id;
  env_inverse target tag := incoming target (Some tag);
  env_catalog_visible k name := catalog_visible k name;
  env_regex_source_limit b := ReadLimits.max_regex_source_bytes (limits b);
  env_regex_size_limit b := ReadLimits.max_regex_bytes (limits b);
  env_regex_limit_error _ := BudgetExceeded BRegex
|}.

(** ** What it shows *)

Definition masked_store : gmap string HDict :=
  map_imap (λ id raw, Sanitize.masked p id raw) (entities g).
Definition relates (row : HDict) (tag tgt : string) : bool :=
  match row !! tag with Some (KRef r) => bool_decide (ref_val r = tgt) | _ => false end.
Definition masked_source (target : HRef) (tag : option string) (edge : string * string) : option HDict :=
  if match tag with Some t => negb (bool_decide (edge.1 = t)) | None => false end then None
  else row ← masked_store !! edge.2; if relates row edge.1 (ref_val target) then Some row else None.
Definition masked_inverse (target : HRef) (tag : string) : list HDict :=
  omap (masked_source target (Some tag)) (incoming_edges g (ref_val target)).
Definition masked_ctx : QueryContext :=
  mkQueryContext (λ r, masked_store !! ref_val r) (Some masked_inverse) (S (size (entities g))).

(** What the caller is shown: the masked rows it may refer to, those that refer
    to a row, and the catalog the policy lets through. *)
Definition shown (L : ReadLimits.t) : Unmetered.Shown := {|
  Unmetered.sh_forward r := if p_reference p (ref_val r) then masked_store !! ref_val r else None;
  Unmetered.sh_inverse := masked_inverse;
  Unmetered.sh_visible := p_catalog p;
  Unmetered.sh_source_limit := ReadLimits.max_regex_source_bytes L;
  Unmetered.sh_size_limit := ReadLimits.max_regex_bytes L
|}.

(** Rows that may be read may be referred to. *)
Definition coherent : Prop := ∀ id, p_entity p id = true → p_reference p id = true.
End model.

Section facts.
Context {HO : HashOrder} {HL : HashOrderLaws} {RB : Roaring} {RL : RoaringLaws}.
Context {CM : CacheMap} {CL : CacheLaws} {ON : Ontology} {CA : Catalog} {FS : FilterSyntax}.
Context {AM : Ambient}.
Context (g : EntityGraph.t) (p : PolicySnapshot) (L : ReadLimits.t).
Import MeterFacts.
Abbreviation delivers := (MeterFacts.delivers L).

Lemma masked_store_lookup id :
  masked_store g p !! id = entities g !! id ≫= Sanitize.masked p id.
Proof. unfold masked_store. by rewrite map_lookup_imap. Qed.

Lemma entity_delivers id : delivers (entity g p id) (masked_store g p !! id).
Proof.
  unfold entity. eapply delivers_bind; [apply delivers_check|].
  rewrite masked_store_lookup. unfold EntityGraph.get.
  destruct (p_entity p id) eqn:He; cbn [negb].
  - destruct (entities g !! id); [|apply delivers_ret]. eapply meets_delivers, SanitizeFacts.record_meets.
  - replace (entities g !! id ≫= Sanitize.masked p id) with (@None HDict); [apply delivers_ret|].
    destruct (entities g !! id); [|done]. cbn. unfold Sanitize.masked. by rewrite He.
Qed.

Lemma incoming_delivers target tag :
  delivers (incoming g p target tag)
    (omap (masked_source g p target tag) (incoming_edges g (ref_val target))).
Proof.
  unfold incoming. rewrite <-(app_nil_l (omap _ _)), <-SanitizeFacts.foldl_snoc_omap.
  apply delivers_fold. intros out [edge_tag source] _.
  eapply delivers_bind; [apply delivers_charge|]. eapply delivers_bind; [apply delivers_charge|].
  unfold masked_source. cbn [fst snd].
  destruct (match tag with Some _ => _ | None => _ end); [apply delivers_ret|].
  eapply delivers_bind; [apply entity_delivers|].
  destruct (masked_store g p !! source) as [row|]; [|apply delivers_ret]. unfold HDict.get, relates. cbn.
  destruct (row !! edge_tag) as [k|]; [destruct k|]; try apply delivers_ret.
  case_bool_decide; case_decide; try done; [|apply delivers_ret].
  eapply delivers_bind; [apply delivers_charge|apply delivers_ret].
Qed.

Lemma measure_at_delivers n d v :
  n = ValueBudget.levels (ReadLimits.max_value_depth L) d → delivers (Sanitize.measure_at n d v) ().
Proof.
  revert d v. induction n as [|n IH]; intros d v Hn.
  { eapply meets_delivers, (meets_too_deep _ _ d ()), levels_0. done. }
  apply eq_sym, levels_S in Hn. cbn [Sanitize.measure_at].
  assert (Hdict : ∀ m, delivers (each (λ '(tag, v), charge BWork (str_len tag);;
    Sanitize.measure_at n (d + 1) v) (HDict.iter m)) ()).
  { intros m. apply delivers_each. intros [tag x] _. eapply delivers_bind; [apply delivers_charge|by apply IH]. }
  eapply delivers_bind; [apply delivers_depth|]. eapply delivers_bind; [apply delivers_charge|].
  eapply delivers_bind; [apply delivers_charge|]. destruct v; try apply delivers_ret.
  - apply delivers_each. intros; by apply IH.
  - apply Hdict.
  - apply delivers_each. intros; apply Hdict.
Qed.
Lemma measure_delivers v : delivers (Sanitize.measure 1 v) ().
Proof.
  intros b Hb. unfold Sanitize.measure, mbind, B_bind, asks. apply measure_at_delivers; [|done].
  unfold Sanitize.levels_from. by rewrite Hb.
Qed.

(** ** The masked store is what the view answers about *)

Lemma mask_row_ref id raw tag r :
  Sanitize.mask_row p id raw !! tag = Some (KRef r) →
  ∃ r', raw !! tag = Some (KRef r') ∧ ref_val r' = ref_val r.
Proof.
  unfold Sanitize.mask_row. rewrite map_lookup_imap. destruct (raw !! tag) as [v|]; [|done]. cbn.
  destruct (_ && _); [|done]. destruct v; try done. intros [= <-]. eauto.
Qed.

Lemma incoming_edges_nodup tgt : GraphInv.inv g → NoDup (incoming_edges g tgt).
Proof.
  intros Hi. destruct (GraphInv.inv_indexed _ Hi) as (_ & Ha & _). unfold incoming_edges.
  apply NoDup_omap; [|exact (RefAdjacency.models_reverse_nodup _ _ Ha tgt)].
  intros [t1 i1] [t2 i2] [t s] _ _ (s1 & H1 & [= <- <-])%bind_Some (s2 & H2 & [= -> ->])%bind_Some.
  f_equal. by eapply GraphInv.store_id_inj; [apply GraphInv.inv_store|..].
Qed.

(** The source of an edge that survives masking. *)
Definition masked_key (i : HRef) (tag : string) (edge : string * string) : option string :=
  if bool_decide (edge.1 = tag)
     && match masked_store g p !! edge.2 with Some row => relates row tag (ref_val i) | None => false end
  then Some edge.2 else None.
Lemma masked_source_key i tag edge :
  masked_source g p i (Some tag) edge = masked_key i tag edge ≫= λ k, masked_store g p !! k.
Proof.
  destruct edge as [t src]. unfold masked_source, masked_key. cbn [fst snd].
  case_bool_decide; cbn [negb andb]; [subst|done].
  destruct (masked_store g p !! src) as [row|] eqn:HM; [|done]. cbn.
  destruct (relates row tag (ref_val i)); [|done]. cbn. by rewrite HM.
Qed.

Lemma relates_target row tag tgt :
  tag ≠ "id" → relates row tag tgt = true ↔ FittingFacts.target_of tag row = Some tgt.
Proof.
  intros Hid. unfold relates, FittingFacts.target_of. rewrite decide_False by done.
  destruct (row !! tag) as [v|]; [|done]. destruct v; try done. rewrite bool_decide_eq_true. naive_solver.
Qed.

Lemma masked_edge i tag src row :
  GraphInv.inv g → masked_store g p !! src = Some row →
  FittingFacts.target_of tag row = Some (ref_val i) → (tag, src) ∈ incoming_edges g (ref_val i).
Proof.
  intros Hi HM Ht. apply QueryFacts.elem_of_incoming_edges; [done|]. apply OntologyGraph.refers_target.
  rewrite masked_store_lookup in HM. apply bind_Some in HM as (raw & Hraw & Hm).
  exists raw. split; [done|]. unfold Sanitize.masked in Hm. destruct (p_entity p src); [|done].
  injection Hm as <-. unfold FittingFacts.target_of in *. case_decide; [done|].
  destruct (Sanitize.mask_row p src raw !! tag) as [x|] eqn:Hx; [|done]. destruct x; try done.
  apply mask_row_ref in Hx as (r' & -> & Hr). by rewrite Hr.
Qed.

Lemma elem_of_masked_keys i tag src :
  GraphInv.inv g →
  src ∈ omap (masked_key i tag) (incoming_edges g (ref_val i)) ↔
  ∃ row, masked_store g p !! src = Some row ∧ FittingFacts.target_of tag row = Some (ref_val i).
Proof.
  intros Hi. rewrite list_elem_of_omap. unfold masked_key. split.
  - intros ([t s] & He & Hk). cbn [fst snd] in Hk. case_bool_decide; [subst|done]. cbn in Hk.
    apply QueryFacts.elem_of_incoming_edges in He as (e0 & r0 & _ & _ & _ & Hid); [|done].
    destruct (masked_store g p !! s) as [row|] eqn:HM; [|done].
    destruct (relates row tag (ref_val i)) eqn:Hr; [|done]. injection Hk as ->.
    exists row. split; [done|]. by apply relates_target.
  - intros (row & HM & Ht). exists (tag, src). split; [by eapply masked_edge|]. cbn [fst snd].
    rewrite bool_decide_true, HM by done. cbn.
    assert (Hr : relates row tag (ref_val i) = true); [|by rewrite Hr].
    apply relates_target; [|done]. intros ->. done.
Qed.

Lemma masked_inverse_perm i tag :
  GraphInv.inv g →
  masked_inverse g p i tag ≡ₚ
  (map_to_list (filter (λ kv, FittingFacts.target_of tag kv.2 = Some (ref_val i)) (masked_store g p))).*2.
Proof.
  intros Hi. unfold masked_inverse.
  rewrite <-(OntologyGraph.omap_lookup_keys (masked_store g p)) by apply map_filter_subseteq.
  rewrite (omap_ext_in _ _ _ (λ e _, masked_source_key i tag e)), <-omap_compose.
  apply omap_Permutation, NoDup_Permutation.
  - apply NoDup_omap; [|by apply incoming_edges_nodup]. intros [t1 s1] [t2 s2] k _ _. unfold masked_key.
    do 2 (case_bool_decide; [|done]; subst). cbn. repeat case_match; naive_solver.
  - apply NoDup_fst_map_to_list.
  - intros src. rewrite elem_of_masked_keys by done. rewrite list_elem_of_fmap. split.
    + intros (row & HM & Ht). exists (src, row). split; [done|].
      by apply elem_of_map_to_list, map_lookup_filter_Some.
    + intros ([k row] & -> & [HM Ht]%elem_of_map_to_list%map_lookup_filter_Some). eauto.
Qed.

Lemma masked_ctx_of :
  GraphInv.inv g → FittingFacts.context_of (masked_store g p) (masked_inverse g p) (masked_ctx g p).
Proof.
  intros Hi. split; simpl; [done|done|intros; by apply masked_inverse_perm|].
  assert (size (masked_store g p) ≤ size (entities g)); [|lia].
  rewrite <-!size_dom. apply subseteq_size. intros id. rewrite !elem_of_dom, masked_store_lookup.
  intros (row & (raw & -> & _)%bind_Some). eauto.
Qed.

(** ** The view shows what the masked store holds *)

Lemma delivers_responds {A} (m : B A) (a : A) :
  delivers m a →
  ControlledFacts.responds (QE:=environment g p) (λ b : Budget, limits b = L) halts m a.
Proof. intros Hm b Hb. destruct (Hm b Hb) as (r & b' & Hr & Hb' & Hs). by exists r, b'. Qed.

Lemma view_follows :
  Unmetered.follows (QE:=environment g p) (λ b : Budget, limits b = L) halts (shown g p L).
Proof.
  split; intros; try (apply delivers_responds; cbn).
  - apply delivers_charge.
  - apply delivers_charge.
  - apply delivers_depth.
  - eapply delivers_bind; apply measure_delivers.
  - unfold forward. eapply delivers_bind; [apply delivers_charge|].
    destruct (p_reference p (ref_val r)); [apply entity_delivers|apply delivers_ret].
  - apply incoming_delivers.
  - unfold catalog_visible. eapply delivers_bind; [apply delivers_charge|apply delivers_ret].
  - cbn. congruence.
  - cbn. congruence.
  - done.
Qed.

(** A traversal of what is shown is bounded by the masked rows. *)
Lemma shown_left tag inverse seen id :
  GraphInv.inv g → ref_val id ∉ seen →
  ControlledFacts.store_left (masked_store g p) tag inverse ({[ref_val id]} ∪ seen)
    + length (Unmetered.steps_to (shown g p L) inverse tag id)
  ≤ ControlledFacts.store_left (masked_store g p) tag inverse seen.
Proof.
  intros Hi Hid. destruct (masked_ctx_of Hi) as [Hf _ Hrev _].
  pose proof (ControlledFacts.store_left_visit (masked_ctx g p) (masked_inverse g p)
    (masked_store g p) Hf Hrev tag inverse seen (ref_val id) Hid) as Hv.
  eapply Nat.le_trans; [|exact Hv]. apply Nat.add_le_mono_l. unfold Unmetered.steps_to, ControlledFacts.succ.
  destruct inverse; [done|]. cbn. destruct (p_reference p (ref_val id)); [done|]. apply Nat.le_0_l.
Qed.

(** When nothing of the catalog is hidden and rows that may be read may be
    referred to, it is the masked store. *)
Lemma shown_grants :
  coherent p → (∀ k name, p_catalog p k name = true) →
  ControlledFacts.grants (QE:=Unmetered.environment (shown g p L)) (masked_ctx g p) (masked_inverse g p)
    (λ _, True) (λ _, True).
Proof.
  intros Hco Hcat. split; intros; intros [] _; eexists _, (); (split; [reflexivity|split; [done|left]]);
    try reflexivity; cbn.
  - f_equal. destruct (p_reference p (ref_val r)) eqn:Hr; [done|].
    rewrite masked_store_lookup. destruct (entities g !! ref_val r); [|done]. cbn.
    unfold Sanitize.masked. destruct (p_entity p (ref_val r)) eqn:He; [|done].
    by rewrite (Hco _ He) in Hr.
  - by rewrite Hcat.
Qed.
End facts.
End View.
