(* ===== verification/Reading.v ===== *)
(** * The read service

    [haystack-app/src/service.rs], the part that answers a read: [normalize]
    turns a request into its identity, [validate_query] refuses filters over
    hidden catalog terms, [produce] and [catalog_page] build one page of rows
    after a position, and [execute_on_graph] puts them together with the table
    of cursors a caller continues from.  [output::grid] is the grid of a page.

    A computation that evaluates filters is one of [R]: metered, and [None]
    when the evaluator's fuel is exhausted.  What the code gets from outside
    the process (random nonces, the clock at the cursor table, how often a
    lock was missed) is a record [Outside]; the authentication code, Base64
    and the encodings of a page are parameters. *)

From Stdlib Require Import Ascii.
From S2P Require Import Prelude Floats Kinds Extern Bitmap Adjacency ValueIndex Filter FilterParser Text Taxonomy Xeto Namespace Fitting Controlled Changelog Graph Query Application Sanitize View.

(** ** Requests *)

Inductive NormalizedQuery : Type :=
| NIds (ids : list string)
| NFilter (node : option FilterNode)
| NNav (parent : option string)
| NDefinitions (filter : option string)
| NLibraries
| NSpecs (library : option string)
| NSpec (name : string).

Record RequestIdentity : Type := mkIdentity {
  ri_query : NormalizedQuery;
  ri_projection : list string;
  ri_page_size : N;
  ri_profile : OutputProfile;
  ri_principal : Principal;
  ri_scope : string
}.

(** The derived equality of filters and of identities. *)
Fixpoint node_eqb (a b : FilterNode) : bool :=
  match a, b with
  | Has p, Has q => bool_decide (p = q)
  | Missing p, Missing q => bool_decide (p = q)
  | Cmp p o v, Cmp q o' w => bool_decide (p = q) && bool_decide (o = o') && kind_eqb v w
  | And l r, And l' r' => node_eqb l l' && node_eqb r r'
  | Or l r, Or l' r' => node_eqb l l' && node_eqb r r'
  | SpecMatch s, SpecMatch s' => bool_decide (s = s')
  | _, _ => false
  end.
Definition query_eqb (a b : NormalizedQuery) : bool :=
  match a, b with
  | NIds l, NIds k => bool_decide (l = k)
  | NFilter None, NFilter None => true
  | NFilter (Some m), NFilter (Some n) => node_eqb m n
  | NNav p, NNav q => bool_decide (p = q)
  | NDefinitions f, NDefinitions f' => bool_decide (f = f')
  | NLibraries, NLibraries => true
  | NSpecs l, NSpecs l' => bool_decide (l = l')
  | NSpec n, NSpec n' => bool_decide (n = n')
  | _, _ => false
  end.
Definition identity_eqb (a b : RequestIdentity) : bool :=
  query_eqb (ri_query a) (ri_query b)
  && bool_decide (ri_projection a = ri_projection b)
  && bool_decide (ri_page_size a = ri_page_size b)
  && bool_decide (ri_profile a = ri_profile b)
  && bool_decide (ri_principal a = ri_principal b)
  && bool_decide (ri_scope a = ri_scope b).

(** [Stamp]: the state of the graph a cursor belongs to. *)
Record Stamp : Type := mkStamp {
  st_dataset : list Byte.byte; st_incarnation : list Byte.byte; st_entities : N; st_catalog : N }.
#[export] Instance Stamp_eq_dec : EqDecision Stamp.
Proof. solve_decision. Defined.

Record PreparedRead : Type := mkPrepared {
  pr_identity : RequestIdentity; pr_cursor : option string; pr_retained_estimate : N }.

Module Reading.
Import Meter.

(** ** Computations *)

Definition R (A : Type) : Type := Budget → option (result ReadError A * Budget).
#[export] Instance R_ret : MRet R := λ A a b, Some (Ok a, b).
#[export] Instance R_bind : MBind R := λ A C k m b,
  match m b with
  | Some (Ok a, b') => k a b'
  | Some (Err e, b') => Some (Err e, b')
  | None => None
  end.
Definition lift {A} (m : B A) : R A := λ b, Some (m b).
Definition fail {A} (e : ReadError) : R A := λ b, Some (Err e, b).
Fixpoint fold_r {A S} (f : S → A → R S) (s : S) (l : list A) : R S :=
  match l with
  | [] => mret s
  | a :: l => s ← f s a; fold_r f s l
  end.

(** ** Normalization *)

Definition opt_bytes (s : option string) : N := match s with Some s => str_len s | None => 0 end.
(** [request_bytes]. *)
Definition request_bytes (r : ReadRequest) : N :=
  let query := match rq_query r with
               | QIds ids => foldl (λ n id, saturating_add (saturating_add n (str_len id)) 32) 0%N ids
               | QFilter s | QSpec s => str_len s
               | QNav s | QDefinitions s | QSpecs s => opt_bytes s
               | QLibraries => 0%N
               end in
  foldl (λ n s, saturating_add (saturating_add n (str_len s)) 32)
    (saturating_add query (opt_bytes (rq_cursor r))) (rq_projection r).

Section normalize.
Context `{Ambient, Lexical}.
Context (p : PolicySnapshot).

(** The callback of the parser. *)
Definition parse_check (b : Budget) (i : nat) : result FilterError nat :=
  match verdict b (parsing i) with Ok _ => Ok (S i) | Err _ => Err Interrupted end.
(** [parse_filter_controlled] and the translation of its errors. *)
Definition parse_query (filter : string) : R (option FilterNode) := λ b,
  if decide (filter = "*") then Some (Ok None, b)
  else
    let l := limits b in
    match FilterParser.parse_filter_controlled (parse_check b) 0
            (mkLimits (ReadLimits.max_input_bytes l) (ReadLimits.max_ast_nodes l)
               (ReadLimits.max_ast_depth l)) filter with
    | None => None
    | Some (Ok ast) => Some (Ok (Some ast), b)
    | Some (Err Limit) => Some (Err (BudgetExceeded BAst), b)
    | Some (Err Interrupted) =>
        Some (match verdict b interrupted with Ok _ => Err Cancelled | Err e => Err e end, b)
    | Some (Err (Parse _ _)) => Some (Err (InvalidQuery "invalid filter"), b)
    end.

Definition normalize_query (q : ReadQuery) : R NormalizedQuery :=
  match q with
  | QIds ids => mret (NIds (dedup (sort_strings ids)))
  | QFilter filter => node ← parse_query (trim filter); mret (NFilter node)
  | QNav s => mret (NNav s)
  | QDefinitions f => mret (NDefinitions f)
  | QLibraries => mret NLibraries
  | QSpecs l => mret (NSpecs l)
  | QSpec s => mret (NSpec s)
  end.

(** [normalize]. *)
Definition normalize (r : ReadRequest) (principal : Principal) : R PreparedRead :=
  l ← lift (asks limits);
  if decide (rq_profile r = H4 Trio) then fail (InvalidQuery "codec cannot carry page metadata")
  else if (rq_page_size r =? 0)%N || (ReadLimits.max_rows l <? rq_page_size r)%N
  then fail (BudgetExceeded BRows)
  else if (ReadLimits.max_ids l <? len (rq_projection r))%N then fail (BudgetExceeded BInput)
  else if match rq_query r with QIds ids => (ReadLimits.max_ids l <? len ids)%N | _ => false end
  then fail (BudgetExceeded BIds)
  else
    let bytes := saturating_add (saturating_add (request_bytes r) (Principal.bytes principal))
                   (str_len (scope_key p)) in
    if (ReadLimits.max_input_bytes l <? bytes)%N then fail (BudgetExceeded BInput)
    else
      let estimate := saturating_add (saturating_mul bytes 512) 1024 in
      lift (charge BRetained estimate);;
      lift (charge BWork (saturating_add bytes 1));;
      query ← normalize_query (rq_query r);
      scope ← lift (copy_string (scope_key p));
      mret (mkPrepared
              (mkIdentity query (dedup (sort_strings (rq_projection r))) (rq_page_size r)
                 (rq_profile r) principal scope)
              (rq_cursor r) estimate).
End normalize.

(** ** Pages *)

Section rows.
Context `{Ambient}.

(** [project]: each wanted tag is moved out of the row. *)
Definition take_tag (st : HDict * HDict) (tag : string) : B (HDict * HDict) :=
  charge BWork 1;;
  let '(value, row) := HDict.remove_tag st.1 tag in
  match value with
  | Some value =>
      charge BRetained 512;;
      name ← copy_string tag;
      mret (row, HDict.set st.2 name value)
  | None => mret (row, st.2)
  end.
Definition project (row : HDict) (projection : list string) : B HDict :=
  if decide (projection = []) then mret row
  else st ← fold take_tag (row, HDict.new) projection; mret st.2.

(** [nav_row]. *)
Definition nav_row (row : HDict) : B HDict :=
  let '(id, row) := HDict.remove_tag row "id" in
  out ← match id with
        | Some (KRef id) =>
            s ← copy_string (ref_val id);
            mret (HDict.set (HDict.set HDict.new "navId" (KStr s)) "id" (KRef id))
        | _ => mret HDict.new
        end;
  let '(dis, _) := HDict.remove_tag row "dis" in
  charge BRetained 1536;;
  mret (match dis with Some dis => HDict.set out "dis" dis | None => out end).
End rows.

Section pages.
Context {HO : HashOrder} {RB : Roaring} {CM : CacheMap} {FS : FilterSyntax}.
Context {CS : Casing} {SC : StrictCatalog} {RX : RegexCrate} {FT : FloatText}.
#[local] Instance the_ontology : Ontology := Fitting.namespace_ontology.
Context {CA : Catalog} {AM : Ambient}.
Context (g : EntityGraph.t) (p : PolicySnapshot).
#[local] Instance env : QueryEnvironment := View.environment g p.
Context {SF : StrictFit}.
Context (fuel : nat).

Definition namespace : option Namespace.t := EntityGraph.deref_namespace g.
Definition term_available (ns : option Namespace.t) (term : string) : R bool :=
  Controlled.catalog_term_available ns term.
Definition matches (node : FilterNode) (row : HDict) : R bool :=
  Controlled.matches_controlled fuel node row namespace.

(** [validate_query]. *)
Fixpoint validate_ast (node : FilterNode) (d : N) : R unit :=
  lift (depth d);;
  lift (charge BWork 1);;
  match node with
  | SpecMatch term =>
      ok ← term_available namespace term;
      if ok : bool then mret () else fail (InvalidQuery "catalog term is unavailable")
  | And l r | Or l r => validate_ast l (d + 1);; validate_ast r (d + 1)
  | Cmp _ _ val => lift (Sanitize.measure 1 val)
  | _ => mret ()
  end.
Definition validate_query (q : NormalizedQuery) : R unit :=
  match q with
  | NFilter (Some node) => validate_ast node 1
  | _ => mret ()
  end.

(** The state of a page: its rows and the id of the last one. *)
Definition page_state : Type := list HDict * option string.

(** Whether a row is one the query asks for. *)
Definition wanted (q : NormalizedQuery) (row : HDict) : R bool :=
  match q with
  | NFilter (Some node) => matches node row
  | NNav None => mret (HDict.has row "site")
  | NNav (Some parent) =>
      lift (fold (λ found '(tag, v),
        charge BWork 1;;
        mret (if negb (bool_decide (tag = "id"))
                 && match v with KRef r => bool_decide (ref_val r = parent) | _ => false end
              then true else found)) false (HDict.iter row))
  | _ => mret true
  end.

(** The closure [accept] of [produce]: whether the page was full before this
    row. *)
Definition accept (ri : RequestIdentity) (st : page_state) (id : string) : R (bool * page_state) :=
  lift (charge BCandidates 1);;
  row ← lift (View.entity g p id);
  match row with
  | None => mret (false, st)
  | Some row =>
      matched ← wanted (ri_query ri) row;
      if negb matched then mret (false, st)
      else if decide (len st.1 = ri_page_size ri) then mret (true, st)
      else
        row ← (match ri_query ri with NNav _ => lift (nav_row row) | _ => mret row end);
        row ← lift (project row (ri_projection ri));
        lift (charge BRetained 128);;
        last ← lift (copy_string id);
        mret (false, (st.1 ++ [row], Some last))
  end.

(** The loop over candidates, ended by the first row past a full page. *)
Fixpoint scan (ri : RequestIdentity) (st : page_state) (ids : list string) : R (bool * page_state) :=
  match ids with
  | [] => mret (false, st)
  | id :: ids =>
      '(full, st) ← accept ri st id;
      if full : bool then mret (true, st) else scan ri st ids
  end.

Definition after_ok (after : option string) (id : string) : bool :=
  match after with Some a => bool_decide (String.compare a id = Lt) | None => true end.

(** ** Catalog pages *)

Inductive CatalogRow : Type :=
| CRDefinition (d : Def)
| CRLibrary (l : Lib)
| CRSpec (s : Spec) (detail : bool).

(** [catalog_visit]. *)
Definition catalog_visit (name : string) : B unit :=
  charge BCandidates 1;;
  charge BWork (saturating_add (str_len name) 1).

(** [BTreeMap::last_key_value] and [BTreeMap::pop_last]. *)
Definition last_key {V} (m : gmap string V) : option string := fst <$> last (btree_iter m).
Definition pop_last {V} (m : gmap string V) : gmap string V :=
  match last_key m with Some k => delete k m | None => m end.

(** [select_catalog]. *)
Definition select_catalog (selected : gmap string CatalogRow) (name : string) (item : CatalogRow)
    (allowed : bool) (after : option string) (limit : N) : B (gmap string CatalogRow) :=
  if negb allowed || negb (after_ok after name) then mret selected
  else if (limit <? N.of_nat (size selected))%N
          && match last_key selected with
             | Some l => negb (bool_decide (String.compare name l = Lt))
             | None => false
             end
  then mret selected
  else
    charge BRetained 128;;
    let selected := <[name := item]> selected in
    mret (if (limit + 1 <? N.of_nat (size selected))%N then pop_last selected else selected).

(** [put] and [text]. *)
Definition put (row : HDict) (tag : string) (v : Kind) : B HDict :=
  charge BRetained 512;;
  name ← copy_string tag;
  mret (HDict.set row name v).
Definition text (row : HDict) (tag value : string) : B HDict :=
  v ← copy_string value; put row tag (KStr v).

Definition is_primitive (ty : string) : bool :=
  bool_decide (ty ∈ ["Str"; "Number"; "Ref"; "Bool"; "Date"; "Time"; "DateTime"; "Uri"; "Coord"; "List";
                     "Dict"; "Grid"; "Marker"; "Query"]).

(** One slot of a spec's details. *)
Definition slot_row (ns : Namespace.t) (slot : Slot) : R Kind :=
  lift (charge BWork 1);;
  lift (charge BRetained 128);;
  entry ← lift (text HDict.new "name" (slot_name slot));
  entry ← (if slot_is_marker slot then lift (put entry "marker" KMarker) else mret entry);
  entry ← (if is_maybe slot then lift (put entry "maybe" KMarker) else mret entry);
  entry ← (if slot_is_query slot then lift (put entry "query" KMarker) else mret entry);
  entry ← (match slot_type_ref slot with
           | Some ty =>
               known ← (if is_primitive ty then mret true else term_available (Some ns) ty);
               if known : bool then lift (text entry "type" ty) else mret entry
           | None => mret entry
           end);
  mret (KDict entry).

(** [catalog_row]. *)
Definition catalog_row (ns : Namespace.t) (item : CatalogRow) : R HDict :=
  match item with
  | CRDefinition d =>
      symbol ← lift (copy_string (def_symbol d));
      row ← lift (put HDict.new "def" (KSymbol symbol));
      lib ← lift (copy_string (def_lib d));
      row ← lift (put row "lib" (KSymbol lib));
      lift (text row "doc" (def_doc d))
  | CRLibrary l =>
      row ← lift (text HDict.new "name" (lib_name l));
      lift (text row "version" (lib_version l))
  | CRSpec s detail =>
      row ← lift (text HDict.new "qname" (spec_qname s));
      row ← lift (text row "name" (spec_name s));
      row ← lift (text row "lib" (spec_lib s));
      row ← lift (text row "doc" (spec_doc s));
      row ← (match spec_base s with
             | Some base =>
                 known ← term_available (Some ns) base;
                 if known : bool then lift (text row "base" base) else mret row
             | None => mret row
             end);
      row ← (if spec_is_abstract s then lift (put row "abstract" KMarker) else mret row);
      if detail : bool then
        slots ← fold_r (λ slots slot, k ← slot_row ns slot; mret (slots ++ [k])) [] (spec_slots s);
        lift (put row "slots" (KList slots))
      else mret row
  end.

(** The declarations of a query, in the order of the hash map, each with
    whether the caller may see it. *)
Definition catalog_candidates (ns : Namespace.t) (q : NormalizedQuery) : list (string * CatalogRow * bool) :=
  match q with
  | NDefinitions filter =>
      (λ '(name, d), (name, CRDefinition d,
         p_catalog p CDefinition name && p_catalog p CLibrary (def_lib d)
         && match filter with Some f => bool_decide (is_Some (split_once f name)) | None => true end))
      <$> hash_iter (Namespace.defs ns)
  | NLibraries =>
      (λ '(name, l), (name, CRLibrary l, p_catalog p CLibrary name)) <$> hash_iter (Namespace.libs ns)
  | NSpecs lib =>
      (λ '(name, s), (name, CRSpec s false,
         p_catalog p CSpec name && p_catalog p CLibrary (spec_lib s)
         && match lib with Some lib => bool_decide (lib = spec_lib s) | None => true end))
      <$> hash_iter (Namespace.specs ns)
  | _ => []
  end.

Definition select_all (after : option string) (limit : N) (l : list (string * CatalogRow * bool))
    : B (gmap string CatalogRow) :=
  fold (λ selected '(name, item, allowed),
    catalog_visit name;;
    select_catalog selected name item allowed after limit) ∅ l.

(** [catalog_page]. *)
Definition catalog_page (ri : RequestIdentity) (after : option string)
    : R (list HDict * bool * option string) :=
  match namespace with
  | None =>
      match ri_query ri with
      | NSpec _ => fail Unavailable
      | _ => mret ([], true, None)
      end
  | Some ns =>
      selected ← (match ri_query ri with
        | NSpec name =>
            match Namespace.get_spec ns name with
            | Some s =>
                if p_catalog p CSpec name && p_catalog p CLibrary (spec_lib s)
                then lift (select_all after (ri_page_size ri) [(spec_qname s, CRSpec s true, true)])
                else fail Unavailable
            | None => fail Unavailable
            end
        | q => lift (select_all after (ri_page_size ri) (catalog_candidates ns q))
        end);
      let complete := (N.of_nat (size selected) <=? ri_page_size ri)%N in
      let selected := if complete then selected else pop_last selected in
      '(rows, last) ← fold_r (λ '(rows, _) '(name, item),
        row ← catalog_row ns item;
        row ← lift (project row (ri_projection ri));
        lift (charge BRetained 128);;
        last ← lift (copy_string name);
        mret (rows ++ [row], Some last)) ([], None) (btree_iter selected);
      mret (rows, complete, last)
  end.

(** [produce]. *)
Definition entity_page (ri : RequestIdentity) (after : option string)
    : R (list HDict * bool * option string) :=
  let ids := match ri_query ri with
             | NIds ids => List.filter (after_ok after) ids
             | _ => (GraphQuery.entities_after g after).*1
             end in
  '(more, (rows, last)) ← scan ri ([], None) ids;
  mret (rows, negb more, last).
Definition produce (ri : RequestIdentity) (after : option string)
    : R (list HDict * bool * option string) :=
  match ri_query ri with
  | NDefinitions _ | NLibraries | NSpecs _ | NSpec _ => catalog_page ri after
  | NNav (Some parent) =>
      if negb (p_entity p parent) || negb (GraphQuery.contains g parent)
      then mret ([], true, None)
      else
        lift (each (λ _, charge BInverse 1) (GraphQuery.incoming_edges g parent));;
        entity_page ri after
  | _ => entity_page ri after
  end.
End pages.

(** [output::grid]. *)
Definition page_grid `{HashOrder, Ambient} (rows : list HDict) (complete : bool) (cursor : option string)
    : B HGrid :=
  names ← fold (λ names row,
    fold (λ (names : gmap string unit) tag,
      charge BWork 1;;
      if bool_decide (is_Some (names !! tag)) then mret names
      else charge BRetained (saturating_add (str_len tag) 128);; mret (<[tag := ()]> names))
      names (HDict.tag_names row)) ∅ rows;
  cols ← fold (λ cols name,
    charge BRetained 256;;
    name ← copy_string name;
    mret (cols ++ [HGrid.col_new name])) [] (btree_iter names).*1;
  let meta := HDict.set HDict.new "complete" (KBool complete) in
  meta ← match cursor with
         | Some c => c ← copy_string c; mret (HDict.set meta "cursor" (KStr c))
         | None => mret meta
         end;
  charge BRetained 1024;;
  mret (HGrid.from_parts meta cols rows).
End Reading.
