(* ===== verification/ReadingFacts.v ===== *)
(** * Pages are exact

    A page of entities holds the first rows, in id order after the position
    asked for, that the caller may see and that the query wants when it is
    evaluated over what the policy shows of rows and catalog; successive pages
    hold all of them, each once. *)

From Stdlib Require Import Ascii.
From S2P Require Import Prelude Floats Kinds Extern Bitmap Adjacency ValueIndex Filter Text Taxonomy Xeto Namespace Fitting NamespaceFacts FittingFacts NamespaceInv Controlled ControlledFacts ControlledSafety Changelog Graph GraphInv Query QueryFacts Application MeterFacts Sanitize View Reading.

Module ReadingFacts.
Import Meter MeterFacts Reading.

(** ** Strictly sorted lists *)

Definition before (a b : string) : Prop := String.compare a b = Lt.
Lemma compare_antisym a b : String.compare a b = CompOpp (String.compare b a).
Proof. apply String.compare_antisym. Qed.
Lemma before_irrefl a : ¬ before a a.
Proof.
  unfold before. pose proof (compare_antisym a a) as Hc. intros Hlt. rewrite Hlt in Hc. done.
Qed.
Lemma le_before a b : String.le a b → a ≠ b → before a b.
Proof.
  intros Hle Hne. unfold before. destruct (String.compare a b) eqn:Hc; [|done|].
  - by apply OrderableKind.string_compare_eq in Hc.
  - unfold String.le, String.leb in Hle. by rewrite Hc in Hle.
Qed.
Lemma before_le a b : before a b → String.le a b.
Proof. unfold before, String.le, String.leb. by intros ->. Qed.
Lemma before_asym a b : before a b → ¬ before b a.
Proof. unfold before. intros Hab Hba. rewrite compare_antisym, Hba in Hab. done. Qed.
#[export] Instance before_dec : RelDecision before.
Proof. intros a b. unfold before. apply _. Defined.
#[export] Instance before_trans : Transitive before.
Proof.
  intros a b c Hab Hbc. apply le_before; [etrans; by apply before_le|]. intros ->.
  by eapply before_asym.
Qed.

Lemma after_ok_spec a id : after_ok (Some a) id = true ↔ before a id.
Proof. unfold after_ok. apply bool_decide_eq_true. Qed.

Lemma sorted_nodup_strict l : StronglySorted String.le l → NoDup l → StronglySorted before l.
Proof.
  induction 1 as [|a l Hl IH Ha]; intros Hnd; [constructor|].
  apply NoDup_cons in Hnd as [Hnot Hnd]. constructor; [by apply IH|].
  rewrite Forall_forall in *. intros b Hb. apply le_before; [by apply Ha|]. by intros ->.
Qed.

Lemma filter_after before_ k rest :
  StronglySorted before (before_ ++ k :: rest) →
  List.filter (after_ok (Some k)) (before_ ++ k :: rest) = rest.
Proof.
  intros Hs. apply StronglySorted_app in Hs as (Hbef & _ & [Hk _]%StronglySorted_cons).
  rewrite List.filter_app.
  replace (List.filter (after_ok (Some k)) before_) with (@nil string).
  - cbn [List.filter app]. destruct (after_ok (Some k) k) eqn:Hkk;
      [by apply after_ok_spec, before_irrefl in Hkk|].
    rewrite Forall_forall in Hk. clear Hkk. induction rest as [|b rest IH]; [done|]. cbn [List.filter].
    rewrite (proj2 (after_ok_spec k b)) by (apply Hk; left). f_equal. apply IH; [|intros; apply Hk; by right].
    intros x1 x2 Hx1 Hx2. apply Hbef; [done|]. apply elem_of_cons in Hx2 as [->|?]; [left|by do 2 right].
  - symmetry. assert (Hlt : ∀ b, b ∈ before_ → before b k) by (intros b Hb; apply Hbef; [done|left]).
    clear Hbef Hk. induction before_ as [|b l IH]; [done|]. cbn [List.filter].
    destruct (after_ok (Some k) b) eqn:Hb; [|apply IH; intros; apply Hlt; by right].
    apply after_ok_spec in Hb. by destruct (before_asym _ _ Hb (Hlt b ltac:(left))).
Qed.

(** ** Computations that give *)

Section gives.
Context `{Ambient} (L : ReadLimits.t).
Definition gives {A} (m : R A) (a : A) : Prop :=
  ∀ b, limits b = L → ∃ r b', m b = Some (r, b') ∧ limits b' = L ∧
    (r = Ok a ∨ ∃ e, r = Err e ∧ halts e).

Lemma gives_ret {A} (a : A) : gives (mret a) a.
Proof. intros b Hb. exists (Ok a), b. split_and!; [done..|by left]. Qed.
Lemma gives_bind {A C} (m : R A) (k : A → R C) a c : gives m a → gives (k a) c → gives (m ≫= k) c.
Proof.
  intros Hm Hk b Hb. destruct (Hm b Hb) as (r & b' & Hr & Hb' & Hs). unfold mbind, R_bind. rewrite Hr.
  destruct Hs as [->|(e & -> & He)]; [by apply Hk|]. exists (Err e), b'. split_and!; [done..|right; eauto].
Qed.
Lemma gives_lift {A} (m : B A) a : delivers L m a → gives (lift m) a.
Proof.
  intros Hm b Hb. destruct (Hm b Hb) as (r & b' & Hr & ?). exists r, b'. unfold lift. by rewrite Hr.
Qed.
Lemma gives_fold {A S} (f : S → A → R S) g (l : list A) s :
  (∀ s a, a ∈ l → gives (f s a) (g s a)) → gives (fold_r f s l) (foldl g s l).
Proof.
  revert s. induction l as [|a l IH]; intros s Hf; simpl; [apply gives_ret|].
  eapply gives_bind; [apply Hf; left|apply IH; intros; apply Hf; by right].
Qed.
Lemma gives_run {A} (m : R A) a b x b' :
  gives m a → limits b = L → m b = Some (Ok x, b') → x = a.
Proof.
  intros Hm Hb Hr. destruct (Hm b Hb) as (r & b1 & Hr' & _ & Hs). rewrite Hr in Hr'. simplify_eq.
  destruct Hs as [[= ->]|(e & [=] & _)]. done.
Qed.

(** ** Rows *)

Definition project_row (projection : list string) (row : HDict) : HDict :=
  if decide (projection = []) then row else filter (λ kv, kv.1 ∈ projection) row.
Definition taken (st : HDict * HDict) (tag : string) : HDict * HDict :=
  (delete tag st.1, match st.1 !! tag with Some v => <[tag := v]> st.2 | None => st.2 end).
Lemma taken_lookup tags st k :
  (foldl taken st tags).2 !! k =
  if decide (k ∈ tags) then match st.1 !! k with Some v => Some v | None => st.2 !! k end
  else st.2 !! k.
Proof.
  revert st. induction tags as [|tag tags IH]; intros [row out]; cbn [foldl].
  { rewrite decide_False; [done|]. by intros ?%elem_of_nil. }
  rewrite IH. unfold taken. cbn [fst snd]. destruct (decide (k = tag)) as [->|Hne].
  - rewrite (decide_True (P:=tag ∈ tag :: tags)) by left. rewrite lookup_delete_eq.
    destruct (row !! tag); [rewrite lookup_insert_eq|]; by case_decide.
  - rewrite lookup_delete_ne by done.
    replace (match row !! tag with Some v => <[tag:=v]> out | None => out end !! k) with (out !! k)
      by (destruct (row !! tag); [by rewrite lookup_insert_ne|done]).
    destruct (decide (k ∈ tags)) as [Hk|Hk].
    + rewrite decide_True; [done|by right].
    + rewrite decide_False; [done|]. by intros [?|?]%elem_of_cons.
Qed.

Lemma take_tag_delivers st tag : delivers L (take_tag st tag) (taken st tag).
Proof.
  unfold take_tag, taken, HDict.remove_tag. eapply delivers_bind; [apply delivers_charge|].
  destruct (st.1 !! tag); [|apply delivers_ret]. eapply delivers_bind; [apply delivers_charge|].
  eapply delivers_bind; [apply delivers_copy|apply delivers_ret].
Qed.

Lemma project_delivers row projection : delivers L (project row projection) (project_row projection row).
Proof.
  unfold project, project_row. case_decide as Hnil; [apply delivers_ret|].
  eapply delivers_bind; [apply delivers_fold; intros; apply take_tag_delivers|].
  replace (foldl taken _ _).2 with (filter (λ kv, kv.1 ∈ projection) row); [apply delivers_ret|].
  apply map_eq. intros k. rewrite taken_lookup, map_lookup_filter. cbn [fst snd].
  unfold HDict.new. rewrite lookup_empty.
  destruct (row !! k) as [v|]; cbn; [|by case_decide].
  case_decide; [by rewrite option_guard_True|by rewrite option_guard_False].
Qed.

Definition nav_of (row : HDict) : HDict :=
  let out := match row !! "id" with
             | Some (KRef id) => <["id" := KRef id]> {["navId" := KStr (ref_val id)]}
             | _ => ∅
             end in
  match row !! "dis" with Some dis => <["dis" := dis]> out | None => out end.
Lemma nav_row_delivers row : delivers L (nav_row row) (nav_of row).
Proof.
  unfold nav_row, nav_of, HDict.remove_tag. rewrite lookup_delete_ne by done.
  eapply (delivers_bind L _ _ (match row !! "id" with
             | Some (KRef id) => <["id" := KRef id]> {["navId" := KStr (ref_val id)]}
             | _ => ∅
             end)).
  - destruct (row !! "id") as [v|]; [destruct v|]; try apply delivers_ret.
    eapply delivers_bind; [apply delivers_copy|apply delivers_ret].
  - eapply delivers_bind; [apply delivers_charge|]. destruct (row !! "dis"); apply delivers_ret.
Qed.
End gives.

(** ** Entity pages *)

Section pages.
Context {HO : HashOrder} {HL : HashOrderLaws} {RB : Roaring} {RL : RoaringLaws}.
Context {CM : CacheMap} {CL : CacheLaws} {FS : FilterSyntax}.
Context {CS : Casing} {SC : StrictCatalog} {RX : RegexCrate} {RXL : RegexLaws} {FT : FloatText}.
#[local] Existing Instance Reading.the_ontology.
Context {CA : Catalog} {AM : Ambient}.
Context (g : EntityGraph.t) (p : PolicySnapshot).
#[local] Existing Instance Reading.env.
Context {SF : @StrictFit SC (Reading.env g p)} (fuel : nat) (L : ReadLimits.t).
Context (strict : SCatalog → string → HDict → bool).
Abbreviation M := (View.masked_store g p).

(** A filter over what the caller is shown; a pattern over the limits matches
    nothing. *)
Definition shown_matches (node : FilterNode) (row : HDict) : bool :=
  match namespace g with
  | Some ns => match Unmetered.evaluate strict (View.shown g p L) fuel node row ns with
               | Some (Ok b) => b
               | _ => false
               end
  | None => false
  end.

(** Whether the query wants a row, evaluated over what is shown. *)
Definition points_at (parent : string) (row : HDict) : bool :=
  existsb (λ kv, negb (bool_decide (kv.1 = "id"))
    && match kv.2 with KRef r => bool_decide (ref_val r = parent) | _ => false end) (map_to_list row).
Definition wants (q : NormalizedQuery) (row : HDict) : bool :=
  match q with
  | NFilter (Some node) => shown_matches node row
  | NNav None => HDict.has row "site"
  | NNav (Some parent) => points_at parent row
  | _ => true
  end.
(** The row as it is returned. *)
Definition final_row (ri : RequestIdentity) (row : HDict) : HDict :=
  project_row (ri_projection ri) (match ri_query ri with NNav _ => nav_of row | _ => row end).
Definition hit (ri : RequestIdentity) (id : string) : option (string * HDict) :=
  row ← M !! id; if wants (ri_query ri) row then Some (id, final_row ri row) else None.
Definition all_ids (ri : RequestIdentity) : list string :=
  match ri_query ri with NIds ids => ids | _ => (btree_iter (EntityGraph.entities g)).*1 end.
(** The whole answer, and the page after a position. *)
Definition answer (ri : RequestIdentity) : list (string * HDict) := omap (hit ri) (all_ids ri).
Definition rest_after (ri : RequestIdentity) (after : option string) : list (string * HDict) :=
  omap (hit ri) (List.filter (after_ok after) (all_ids ri)).
Definition page_of (ri : RequestIdentity) (after : option string) : list HDict * bool * option string :=
  let rest := rest_after ri after in
  let page := take (N.to_nat (ri_page_size ri)) rest in
  (page.*2, (len rest <=? ri_page_size ri)%N, last page.*1).

(** What is assumed: the invariants of the graph and of its namespace, that
    the chains of bases of its selected catalog end, that the fitter of that
    catalog answers [strict] unless the view stops it, and fuel for the loops. *)
Record readable (ns : Namespace.t) : Prop := {
  rd_inv : GraphInv.inv g;
  rd_namespace : namespace g = Some ns;
  rd_names : NamespaceInv.ok ns;
  rd_catalog : Unmetered.grounded ns;
  rd_strict : Unmetered.fits_strictly (QE:=View.environment g p) (SF:=SF) (λ b : Budget, limits b = L) halts strict ns;
  rd_fuel : 2 + pending (ControlledFacts.is_map ns) ∅ + size (EntityGraph.entities g)
              + size (Namespace.specs ns) ≤ fuel
}.
(** What is shown is the masked store: the policy hides nothing of the catalog
    and lets rows that may be read be referred to, the patterns are within the
    default limit, the fitter of the selected catalog answers over the masked
    store, and the namespace is one whose plain and controlled evaluation
    agree. *)
Record unveiled (ns : Namespace.t) : Prop := {
  un_plain : ControlledFacts.plain ns;
  un_coherent : View.coherent p;
  un_catalog k name : p_catalog p k name = true;
  un_regex : (ReadLimits.max_regex_bytes L ≤ DEFAULT_REGEX_LIMIT)%N;
  un_strict c term e : Namespace.selected ns = Some c → is_Some (declaration c term) →
    strict c term e = strict_fits c term e (Some (ctx_forward (View.masked_ctx g p)))
}.
Context (ns : Namespace.t) (Hr : readable ns).

Lemma size_masked : size M ≤ size (EntityGraph.entities g).
Proof.
  rewrite <-!size_dom. apply subseteq_size. intros id. rewrite !elem_of_dom, View.masked_store_lookup.
  intros (row & (raw & -> & _)%bind_Some). eauto.
Qed.

Lemma evaluation_exact node row b :
  limits b = L →
  ∃ v r b', Unmetered.evaluate strict (View.shown g p L) fuel node row ns = Some v ∧
    matches g p fuel node row b = Some (r, b') ∧ limits b' = L ∧
    ((∃ e, r = Err e ∧ halts e) ∨ ∃ a, v = Ok a ∧ r = Ok a).
Proof.
  destruct Hr as [Hi Hns Hok Hroot Hst Hfuel]. intros Hb. unfold matches. rewrite Hns.
  pose proof size_masked as Hsz.
  destruct (Unmetered.evaluate_tracks (QE:=View.environment g p) (SF:=SF) (λ b : Budget, limits b = L) halts
    strict (View.shown g p L) (View.view_follows g p L) ns Hok Hst Hroot (ControlledFacts.store_left M)
    ltac:(intros; by apply View.shown_left) fuel ltac:(lia) ltac:(lia)
    ltac:(intros tag inverse; pose proof (ControlledFacts.store_left_start M tag inverse); lia)
    ltac:(lia) node row) as (v & Hv & Hrun).
  destruct (Hrun b Hb) as (r & b' & Hr' & Hb' & Hs). by exists v, r, b'.
Qed.
Lemma matches_gives node row : gives L (matches g p fuel node row) (shown_matches node row).
Proof.
  intros b Hb. destruct (evaluation_exact node row b Hb) as (v & r & b' & Hv & Hrun & Hb' & Hs).
  exists r, b'. split_and!; [done..|]. unfold shown_matches. rewrite (rd_namespace _ Hr), Hv.
  destruct Hs as [?|(a & -> & ->)]; [by right|by left].
Qed.

(** Over the masked store it is plain evaluation. *)
Lemma shown_plain node row v :
  unveiled ns → Unmetered.evaluate strict (View.shown g p L) fuel node row ns = Some (Ok v) →
  v = matches_with_ns node row (Some (View.masked_ctx g p)) (Some ns).
Proof.
  intros [Hpl Hco Hcat Hrx Hst'] Hv. destruct Hr as [Hi Hns _ _ _ Hfuel]. pose proof size_masked as Hsz.
  destruct (View.masked_ctx_of g p Hi) as [Hf Hinv Hrev Hctx].
  destruct (ControlledFacts.matches_at_yields (QE:=Unmetered.environment (View.shown g p L))
    (SF:=Unmetered.fitter strict (View.shown g p L)) (View.masked_ctx g p) (View.masked_inverse g p)
    (λ _, True) (λ _, True) (View.shown_grants g p L Hco Hcat) ns Hpl) with (fuel := fuel) (store := M)
    (node := node) (entity := row) (depth := 1%N) (env := ()) as (r & [] & Hrun & _ & Hs);
    [|lia|done|done|done|done|lia| |lia|lia|apply Hpl|done|].
  - intros c term e Hc Hd [] _. unfold fit_entity, Unmetered.fitter. rewrite (Hst' c term e Hc Hd).
    eexists _, (). split; [reflexivity|]. split; [done|]. by destruct (strict_fits _ _ _ _).
  - intros q s slot _ _ pattern _. split; [intros u _; exact Hrx|by right].
  - unfold Unmetered.evaluate in Hv. rewrite Hrun in Hv. cbn in Hv. injection Hv as ->.
    destruct Hs as [[= ->]|(e & [=] & _)]. done.
Qed.

Lemma nav_wanted_delivers parent row :
  delivers L (fold (λ found '(tag, v),
        charge BWork 1;;
        mret (if negb (bool_decide (tag = "id"))
                 && match v with KRef r => bool_decide (ref_val r = parent) | _ => false end
              then true else found)) false (HDict.iter row)) (points_at parent row).
Proof.
  set (f := λ kv : string * Kind, negb (bool_decide (kv.1 = "id"))
    && match kv.2 with KRef r => bool_decide (ref_val r = parent) | _ => false end).
  replace (points_at parent row) with
    (foldl (λ found kv, if f kv then true else found) false (HDict.iter row)).
  - apply (delivers_fold L _ (λ found kv, if f kv then true else found)). intros found [tag v] _.
    eapply delivers_bind; [apply delivers_charge|apply delivers_ret].
  - assert (Hgen : ∀ l acc, foldl (λ found kv, if f kv then true else found) acc l = acc || existsb f l).
    { induction l as [|kv l IH]; intros acc; cbn; [by rewrite orb_false_r|].
      rewrite IH. by destruct (f kv), acc. }
    rewrite Hgen. cbn. unfold points_at. fold f. apply eq_true_iff_eq. rewrite !existsb_exists.
    setoid_rewrite <-list_elem_of_In. unfold HDict.iter. by setoid_rewrite (hash_iter_perm row).
Qed.

Lemma wanted_gives q row : gives L (wanted g p fuel q row) (wants q row).
Proof.
  destruct q as [|[node|]|[parent|]| | | |]; try apply gives_ret.
  - apply matches_gives.
  - apply gives_lift, nav_wanted_delivers.
Qed.

Lemma final_row_gives {A} ri row (k : HDict → R A) a :
  gives L (k (final_row ri row)) a →
  gives L (row ← (match ri_query ri with NNav _ => lift (nav_row row) | _ => mret row end);
           row ← lift (project row (ri_projection ri)); k row) a.
Proof.
  intros Hk. eapply (gives_bind _ _ _ (match ri_query ri with NNav _ => nav_of row | _ => row end)).
  - destruct (ri_query ri); try apply gives_ret. apply gives_lift, nav_row_delivers.
  - eapply gives_bind; [apply gives_lift, project_delivers|exact Hk].
Qed.

Definition accepted (ri : RequestIdentity) (st : page_state) (id : string) : bool * page_state :=
  match hit ri id with
  | None => (false, st)
  | Some (_, row) =>
      if decide (len st.1 = ri_page_size ri) then (true, st) else (false, (st.1 ++ [row], Some id))
  end.
Lemma accept_gives ri st id : gives L (accept g p fuel ri st id) (accepted ri st id).
Proof.
  unfold accept, accepted, hit. eapply gives_bind; [apply gives_lift, delivers_charge|].
  eapply gives_bind; [apply gives_lift, View.entity_delivers|].
  destruct (M !! id) as [row|]; [|apply gives_ret]. cbn.
  eapply gives_bind; [apply wanted_gives|]. destruct (wants (ri_query ri) row); cbn; [|apply gives_ret].
  case_decide; [apply gives_ret|]. apply final_row_gives.
  eapply gives_bind; [apply gives_lift, delivers_charge|].
  eapply gives_bind; [apply gives_lift, delivers_copy|apply gives_ret].
Qed.

(** The page the loop leaves. *)
Definition filled (ri : RequestIdentity) (st : page_state) (ids : list string) : bool * page_state :=
  let hits := omap (hit ri) ids in
  let room := N.to_nat (ri_page_size ri - len st.1) in
  (bool_decide (room < length hits),
   (st.1 ++ (take room hits).*2,
    match last (take room hits).*1 with Some id => Some id | None => st.2 end)).
Lemma scan_gives ri st ids :
  (len st.1 ≤ ri_page_size ri)%N → gives L (scan g p fuel ri st ids) (filled ri st ids).
Proof.
  revert st. induction ids as [|id ids IH]; intros st Hst; cbn [scan].
  { unfold filled. cbn. rewrite take_nil, app_nil_r. cbn. rewrite bool_decide_false by lia.
    destruct st. apply gives_ret. }
  eapply gives_bind; [apply accept_gives|]. unfold accepted, filled. cbn [omap list_omap].
  destruct (hit ri id) as [[id' row]|] eqn:Hh; [|apply IH; done].
  assert (id' = id) as ->.
  { unfold hit in Hh. apply bind_Some in Hh as (r & _ & Hh). by destruct (wants _ r); simplify_eq. }
  case_decide as Hfull.
  - replace (ri_page_size ri - len st.1)%N with 0%N by lia. cbn. rewrite app_nil_r.
    destruct st. apply gives_ret.
  - assert (Hroom : N.to_nat (ri_page_size ri - len st.1)
      = S (N.to_nat (ri_page_size ri - len (st.1 ++ [row])))) by (rewrite len_app, len_cons, len_nil; lia).
    specialize (IH (st.1 ++ [row], Some id)). unfold filled in IH. cbn [fst snd] in IH.
    rewrite Hroom. cbn [take fmap list_fmap length]. rewrite <-app_assoc in IH. cbn [app] in IH.
    set (n := N.to_nat (ri_page_size ri - len (st.1 ++ [row]))) in *.
    replace (bool_decide (S n < S (length (omap (hit ri) ids)))) with
      (bool_decide (n < length (omap (hit ri) ids))) by (apply bool_decide_ext; lia).
    rewrite last_cons. destruct (last (take n (omap (hit ri) ids)).*1); apply IH;
      rewrite len_app, len_cons, len_nil; lia.
Qed.

Lemma entity_ids ri after :
  match ri_query ri with
  | NIds ids => List.filter (after_ok after) ids
  | _ => (GraphQuery.entities_after g after).*1
  end = List.filter (after_ok after) (all_ids ri).
Proof.
  assert (Hall : (GraphQuery.entities_after g after).*1 =
    List.filter (after_ok after) (btree_iter (EntityGraph.entities g)).*1).
  { unfold GraphQuery.entities_after. destruct after as [a|].
    - induction (btree_iter (EntityGraph.entities g)) as [|[k e] l IH]; [done|]. cbn [fmap list_fmap fst List.filter].
      rewrite filter_cons. cbn [fst]. case_decide as Hlt.
      + rewrite (proj2 (after_ok_spec a k) Hlt). cbn. by f_equal.
      + destruct (after_ok (Some a) k) eqn:Hk; [by apply after_ok_spec in Hk|exact IH].
    - induction (btree_iter (EntityGraph.entities g)) as [|[k e] l IH]; [done|]. cbn. by f_equal. }
  unfold all_ids. destruct (ri_query ri); done.
Qed.

Lemma entity_page_gives ri after : gives L (entity_page g p fuel ri after) (page_of ri after).
Proof.
  unfold entity_page. rewrite entity_ids.
  eapply gives_bind; [apply scan_gives; change (0 ≤ ri_page_size ri)%N; lia|]. unfold filled, page_of, rest_after. cbn [fst snd].
  rewrite len_nil, N.sub_0_r, app_nil_l. set (hits := omap _ _).
  replace (len hits <=? ri_page_size ri)%N with (negb (bool_decide (N.to_nat (ri_page_size ri) < length hits))).
  - destruct (last _); apply gives_ret.
  - unfold len. case_bool_decide; cbn; symmetry; [apply N.leb_gt|apply N.leb_le]; lia.
Qed.

(** Queries over entities, and the empty answer for a parent one may not see. *)
Definition over_entities (q : NormalizedQuery) : bool :=
  match q with NIds _ | NFilter _ | NNav _ => true | _ => false end.
Definition reachable_parent (q : NormalizedQuery) : bool :=
  match q with NNav (Some parent) => bool_decide (is_Some (M !! parent)) | _ => true end.

Lemma produce_gives ri after :
  over_entities (ri_query ri) = true →
  gives L (produce g p fuel ri after)
    (if reachable_parent (ri_query ri) then page_of ri after else ([], true, None)).
Proof.
  intros Hq. pose proof (entity_page_gives ri after) as Hpage. unfold produce.
  destruct (ri_query ri) as [| |[parent|]| | | |] eqn:Hri; try done.
  cbn [reachable_parent]. rewrite View.masked_store_lookup. unfold GraphQuery.contains, Sanitize.masked.
  destruct (EntityGraph.entities g !! parent); cbn; [|rewrite orb_true_r; apply gives_ret].
  destruct (p_entity p parent); cbn; [|apply gives_ret].
  eapply gives_bind; [apply gives_lift, delivers_each; intros; apply delivers_charge|exact Hpage].
Qed.

(** ** All the pages *)

Lemma omap_split {A C} (f : A → option C) l h1 c h2 :
  omap f l = h1 ++ c :: h2 →
  ∃ l1 a l2, l = l1 ++ a :: l2 ∧ omap f l1 = h1 ∧ f a = Some c ∧ omap f l2 = h2.
Proof.
  revert h1. induction l as [|x l IH]; intros h1; cbn; [by destruct h1|].
  destruct (f x) as [y|] eqn:Hx.
  - destruct h1 as [|y' h1]; intros [= -> Hrest].
    + by exists [], x, l.
    + destruct (IH h1 Hrest) as (l1 & a & l2 & -> & Hl1 & Ha & Hl2).
      exists (x :: l1), a, l2. split_and!; [done| |done..]. cbn. rewrite Hx. by f_equal.
  - intros Hl. destruct (IH h1 Hl) as (l1 & a & l2 & -> & Hl1 & Ha & Hl2).
    exists (x :: l1), a, l2. split_and!; [done| |done..]. cbn. by rewrite Hx.
Qed.

Lemma filter_filter_after after k l :
  after_ok after k = true →
  List.filter (after_ok (Some k)) (List.filter (after_ok after) l) = List.filter (after_ok (Some k)) l.
Proof.
  intros Hk. induction l as [|x l IH]; [done|]. cbn [List.filter].
  destruct (after_ok after x) eqn:Hx; cbn [List.filter]; [by rewrite IH|].
  destruct (after_ok (Some k) x) eqn:Hkx; [|done]. exfalso. destruct after as [a|]; [|done].
  apply after_ok_spec in Hk, Hkx. assert (before a x) as Hax by (by etrans).
  apply after_ok_spec in Hax. congruence.
Qed.

Lemma filter_sorted f l : StronglySorted before l → StronglySorted before (List.filter f l).
Proof.
  induction 1 as [|a l Hl IH Ha]; cbn; [constructor|]. destruct (f a); [|done]. constructor; [done|].
  rewrite Forall_forall in *. intros x [Hx _]%list_elem_of_In%filter_In. apply Ha. by apply list_elem_of_In.
Qed.

Lemma hit_id ri id k row : hit ri id = Some (k, row) → k = id.
Proof. unfold hit. intros (r & _ & Hh)%bind_Some. by destruct (wants _ r); simplify_eq. Qed.

Lemma page_continues ri after rows complete k :
  StronglySorted before (all_ids ri) → page_of ri after = (rows, complete, Some k) →
  rows ++ (rest_after ri (Some k)).*2 = (rest_after ri after).*2.
Proof.
  intros Hs [= <- _ Hlast]. set (n := N.to_nat (ri_page_size ri)) in *.
  assert (Hlast' : ∃ h row, take n (rest_after ri after) = h ++ [(k, row)]).
  { rewrite fmap_last in Hlast. destruct (last (take n (rest_after ri after))) as [[k' row]|] eqn:Hl; [|done].
    apply last_Some in Hl as (h & ->). cbn in Hlast. simplify_eq. eauto. }
  destruct Hlast' as (h & row & Hpage).
  assert (Hrest : rest_after ri after = h ++ (k, row) :: drop n (rest_after ri after)).
  { rewrite <-(take_drop n (rest_after ri after)) at 1. by rewrite Hpage, <-app_assoc. }
  unfold rest_after in Hrest at 1. apply omap_split in Hrest as (l1 & a & l2 & Hl & Hl1 & Ha & Hl2).
  assert (k = a) as -> by by apply hit_id in Ha.
  assert (Hin : a ∈ List.filter (after_ok after) (all_ids ri)) by (rewrite Hl; apply elem_of_app; right; left).
  apply list_elem_of_In, filter_In in Hin as [_ Hok].
  assert (Hnext : rest_after ri (Some a) = drop n (rest_after ri after)).
  { unfold rest_after at 1. rewrite <-(filter_filter_after after a) by done. rewrite Hl, filter_after; [done|].
    rewrite <-Hl. by apply filter_sorted. }
  rewrite Hnext, <-fmap_app. by rewrite take_drop.
Qed.

Lemma page_complete ri after rows last :
  page_of ri after = (rows, true, last) → rows = (rest_after ri after).*2.
Proof.
  intros [= <- Hle _]. apply N.leb_le in Hle. rewrite take_ge; [done|]. unfold len in Hle. lia.
Qed.
Lemma page_progress ri after rows last :
  (0 < ri_page_size ri)%N → page_of ri after = (rows, false, last) →
  is_Some last ∧ len rows = ri_page_size ri.
Proof.
  intros Hn [= <- Hle <-]. apply N.leb_gt in Hle. unfold len in *.
  rewrite length_fmap, length_take. split; [|lia].
  apply last_is_Some. destruct (rest_after ri after); cbn in *; [lia|].
  by destruct (N.to_nat (ri_page_size ri)) eqn:Hz; [lia|].
Qed.

(** The requests of a caller that follows the positions it is given. *)
Inductive served (ri : RequestIdentity) : option string → list HDict → Prop :=
| served_last after b b' rows last : limits b = L →
    produce g p fuel ri after b = Some (Ok (rows, true, last), b') → served ri after rows
| served_more after b b' rows k more : limits b = L →
    produce g p fuel ri after b = Some (Ok (rows, false, Some k), b') → served ri (Some k) more →
    served ri after (rows ++ more).

Lemma served_exact ri after rows :
  over_entities (ri_query ri) = true → reachable_parent (ri_query ri) = true →
  StronglySorted before (all_ids ri) → served ri after rows → rows = (rest_after ri after).*2.
Proof.
  intros Hq Hp Hs. induction 1 as [after b b' rows last Hb Hrun|after b b' rows k more Hb Hrun _ IH];
    pose proof (produce_gives ri after Hq) as Hg; rewrite Hp in Hg;
    apply (gives_run _ _ _ _ _ _ Hg Hb) in Hrun.
  - by eapply page_complete.
  - rewrite IH. by eapply page_continues.
Qed.

Lemma all_ids_entities ri :
  (∀ ids, ri_query ri ≠ NIds ids) → StronglySorted before (all_ids ri).
Proof.
  intros Hq. unfold all_ids. assert (Hs : StronglySorted before (btree_iter (EntityGraph.entities g)).*1).
  { apply sorted_nodup_strict; [|apply NoDup_btree_keys].
    pose proof (btree_iter_sorted (EntityGraph.entities g)) as Hs. revert Hs. generalize (btree_iter (EntityGraph.entities g)).
    induction 1 as [|a l Hl IH Ha]; cbn; constructor; [done|].
    rewrite Forall_forall in Ha. apply Forall_forall. intros k (kv & -> & Hkv)%list_elem_of_fmap. by apply (Ha kv). }
  destruct (ri_query ri); try done. by destruct (Hq ids).
Qed.
Lemma rest_none ri : rest_after ri None = answer ri.
Proof.
  unfold rest_after, answer. f_equal. induction (all_ids ri) as [|a l IH]; [done|]. cbn. by f_equal.
Qed.
End pages.

(** ** Normalized ids *)

Lemma dedup_cons2 x y l :
  dedup (x :: y :: l) = if decide (x = y) then dedup (y :: l) else x :: dedup (y :: l).
Proof. done. Qed.
Lemma elem_of_dedup x l : x ∈ dedup l ↔ x ∈ l.
Proof.
  induction l as [|a l IH]; [done|]. destruct l as [|b l]; [done|].
  rewrite dedup_cons2. case_decide; rewrite ?elem_of_cons, IH, ?elem_of_cons; naive_solver.
Qed.
Lemma dedup_sorted l : StronglySorted String.le l → StronglySorted before (dedup l).
Proof.
  induction 1 as [|a l Hl IH Ha]; [constructor|]. destruct l as [|b l]; [repeat constructor|].
  rewrite dedup_cons2. case_decide as Hab; [done|]. constructor; [done|].
  rewrite Forall_forall in *. assert (Hb : before a b) by (apply le_before; [apply Ha; left|done]).
  intros x Hx. apply (proj1 (elem_of_dedup _ _)), elem_of_cons in Hx as [->|Hx]; [done|].
  apply le_before; [apply Ha; by right|]. intros ->. apply StronglySorted_cons in Hl as [Hbl _].
  rewrite Forall_forall in Hbl. pose proof (Hbl x Hx) as Hle.
  assert (String.le x b) by by apply before_le. apply Hab. by apply (anti_symm String.le).
Qed.
Lemma sort_dedup_strict l : StronglySorted before (dedup (sort_strings l)).
Proof. apply dedup_sorted, StronglySorted_merge_sort; apply _. Qed.
End ReadingFacts.
