(* ===== verification/CatalogPages.v ===== *)
(** * Catalog pages are exact

    [catalog_page] scans an unordered map and keeps, in a bounded ordered map,
    the first names after the position asked for.  Whatever the order of the
    scan, it keeps the least ones that are allowed, one more than the page
    holds. *)

From S2P Require Import Prelude Floats Kinds Extern Filter Text Taxonomy Xeto Namespace Fitting Controlled ControlledFacts ControlledSafety Graph Query Application MeterFacts Sanitize SanitizeFacts View Reading ReadingFacts.

Module CatalogPages.
Import Meter MeterFacts Reading ReadingFacts.

(** ** The greatest key *)

Section keys.
Context {V : Type}.
Implicit Types m sel G : gmap string V.

Lemma key_total a b : a ≠ b → before a b ∨ before b a.
Proof.
  intros Hne. destruct (String.le_total a b); [left|right]; by apply le_before.
Qed.

Lemma last_key_spec m l :
  last_key m = Some l ↔ is_Some (m !! l) ∧ ∀ k, is_Some (m !! k) → k = l ∨ before k l.
Proof.
  assert (Hgen : ∀ l, last_key m = Some l →
    is_Some (m !! l) ∧ ∀ k, is_Some (m !! k) → k = l ∨ before k l).
  { intros k0. unfold last_key. destruct (last (btree_iter m)) as [[k v]|] eqn:Hl; [|done].
    intros [= <-]. apply last_Some in Hl as (h & Hh). cbn.
    assert (Hm : ∀ x y, (x, y) ∈ btree_iter m ↔ m !! x = Some y) by (intros; apply elem_of_btree_iter).
    rewrite Hh in Hm. split; [exists v; apply Hm, elem_of_app; right; left|].
    intros k' (v' & Hv'). apply Hm, elem_of_app in Hv' as [Hin|[= -> _]%list_elem_of_singleton]; [|by left].
    destruct (decide (k' = k)) as [|Hne]; [by left|right]. apply le_before; [|done].
    pose proof (btree_iter_sorted m) as Hs. rewrite Hh in Hs.
    apply StronglySorted_app in Hs as (Hs & _). apply (Hs (k', v') (k, v) Hin). left. }
  split; [apply Hgen|]. intros [Hl Hmax]. destruct (last_key m) as [k|] eqn:Hk.
  - destruct (Hgen k eq_refl) as [Hk' Hmax']. destruct (Hmax k Hk') as [->|Hkl]; [done|].
    destruct (Hmax' l Hl) as [->|Hlk]; [done|]. by destruct (before_asym _ _ Hkl).
  - exfalso. unfold last_key in Hk. destruct (last (btree_iter m)) eqn:Hlast; [done|].
    apply last_None in Hlast. destruct Hl as (v & Hv%elem_of_btree_iter). rewrite Hlast in Hv.
    by apply elem_of_nil in Hv.
Qed.

(** ** The least part of a map *)

Record least (n : nat) G sel : Prop := {
  least_sub : sel ⊆ G;
  least_size : size sel = n `min` size G;
  least_before k k' : is_Some (sel !! k) → is_Some (G !! k') → sel !! k' = None → before k k'
}.

Lemma least_all n G sel : least n G sel → size sel < n → sel = G.
Proof.
  intros [Hsub Hsize _] Hlt. apply map_subseteq_size_eq; [done|]. lia.
Qed.

Lemma subseteq_Some sel G k : sel ⊆ G → is_Some (sel !! k) → is_Some (G !! k).
Proof. intros Hsub (v & Hv). exists v. by eapply lookup_weaken. Qed.

(** A name that comes after a full selection. *)
Lemma least_skip n G sel l name item :
  least n G sel → G !! name = None → size sel = n → last_key sel = Some l → ¬ before name l →
  least n (<[name := item]> G) sel.
Proof.
  intros [Hsub Hsize Hbef] Hname Hfull [Hl Hmax]%last_key_spec Hnb.
  assert (Hln : before l name).
  { destruct (key_total l name) as [|?]; [|done|done]. intros ->.
    destruct (subseteq_Some _ _ _ Hsub Hl) as (v & Hv). congruence. }
  split.
  - etrans; [exact Hsub|]. by apply insert_subseteq.
  - rewrite map_size_insert_None by done. lia.
  - intros k k' Hk Hk' Hnone. destruct (decide (k' = name)) as [->|Hne].
    + destruct (Hmax k Hk) as [->|]; [done|by etrans].
    + rewrite lookup_insert_ne in Hk' by done. by apply Hbef.
Qed.

(** A name that is inserted. *)
Lemma least_grow n G sel name item :
  least n G sel → G !! name = None → size sel < n →
  least n (<[name := item]> G) (<[name := item]> sel).
Proof.
  intros Hle Hname Hlt. pose proof (least_all _ _ _ Hle Hlt) as ->. split; [done| |].
  - rewrite map_size_insert_None by done. lia.
  - intros k k' _ (v & Hv) Hnone. congruence.
Qed.
Lemma least_replace n G sel l name item :
  least n G sel → G !! name = None → size sel = n → last_key sel = Some l → before name l →
  last_key (<[name := item]> sel) = Some l ∧
  least n (<[name := item]> G) (delete l (<[name := item]> sel)).
Proof.
  intros [Hsub Hsize Hbef] Hname Hfull Hlast Hnl. apply last_key_spec in Hlast as [Hl Hmax].
  assert (Hsel : sel !! name = None) by (by eapply lookup_weaken_None).
  assert (Hne : l ≠ name) by (intros ->; by destruct Hl as (? & ?); congruence).
  split.
  { apply last_key_spec. split; [by rewrite lookup_insert_ne|]. intros k Hk.
    destruct (decide (k = name)) as [->|Hkn]; [by right|]. rewrite lookup_insert_ne in Hk by done. by apply Hmax. }
  split.
  - etrans; [apply delete_subseteq|]. by apply insert_mono.
  - rewrite map_size_delete_Some by (by rewrite lookup_insert_ne).
    rewrite !map_size_insert_None by done. lia.
  - intros k k' Hk Hk' Hnone.
    assert (Hkl : before k l).
    { destruct (decide (k = l)) as [->|Hkl]; [by rewrite lookup_delete_eq in Hk; destruct Hk|].
      rewrite lookup_delete_ne in Hk by done. destruct (decide (k = name)) as [->|Hkn]; [done|].
      rewrite lookup_insert_ne in Hk by done. by destruct (Hmax k Hk). }
    destruct (decide (k' = l)) as [->|Hkl']; [done|]. rewrite lookup_delete_ne in Hnone by done.
    destruct (decide (k' = name)) as [->|Hkn']; [by rewrite lookup_insert_eq in Hnone|].
    rewrite lookup_insert_ne in Hnone, Hk' by done. etrans; [exact Hkl|]. by apply Hbef.
Qed.

(** Dropping the greatest key. *)
Lemma least_pop n G sel : least (S n) G sel → size sel = S n → least n G (pop_last sel).
Proof.
  intros [Hsub Hsize Hbef] Hfull. unfold pop_last. destruct (last_key sel) as [l|] eqn:Hlast.
  - apply last_key_spec in Hlast as [Hl Hmax]. split.
    + etrans; [apply delete_subseteq|done].
    + rewrite map_size_delete_Some by done. lia.
    + intros k k' Hk Hk' Hnone. destruct (decide (k = l)) as [->|Hkl];
        [by rewrite lookup_delete_eq in Hk; destruct Hk|].
      rewrite lookup_delete_ne in Hk by done. destruct (decide (k' = l)) as [->|Hkl'].
      * by destruct (Hmax k Hk).
      * rewrite lookup_delete_ne in Hnone by done. by apply Hbef.
  - exfalso. unfold last_key in Hlast. destruct (last (btree_iter sel)) eqn:He; [done|].
    apply last_None in He. pose proof (btree_iter_perm sel) as Hp. rewrite He in Hp.
    apply Permutation_nil in Hp. apply map_to_list_empty_iff in Hp. subst. by rewrite map_size_empty in Hfull.
Qed.

(** It is the first part of the enumeration in order. *)
Lemma least_iter n G sel : least n G sel → btree_iter sel = take n (btree_iter G).
Proof.
  intros [Hsub Hsize Hbef].
  assert (Hperm : btree_iter G ≡ₚ btree_iter sel ++ btree_iter (G ∖ sel)).
  { apply NoDup_Permutation.
    - apply (NoDup_fmap_1 fst), NoDup_btree_keys.
    - apply NoDup_app. split_and!; [apply (NoDup_fmap_1 fst), NoDup_btree_keys| |
        apply (NoDup_fmap_1 fst), NoDup_btree_keys].
      intros [k v] H1%elem_of_btree_iter [_ H2]%elem_of_btree_iter%lookup_difference_Some. congruence.
    - intros [k v]. rewrite elem_of_app, !elem_of_btree_iter, lookup_difference_Some. split.
      + intros Hv. destruct (sel !! k) as [v'|] eqn:Hk; [|by right]. left.
        pose proof (lookup_weaken _ _ _ _ Hk Hsub). congruence.
      + intros [Hv|[Hv _]]; [by eapply lookup_weaken|done]. }
  assert (Hsorted : btree_iter G = btree_iter sel ++ btree_iter (G ∖ sel)).
  { apply (StronglySorted_unique_strong key_le); [|apply btree_iter_sorted| |done].
    - intros [k1 v1] [k2 v2] H1 H2 Hle1 Hle2. rewrite <-Hperm in H2. apply elem_of_btree_iter in H1, H2.
      assert (k1 = k2) as -> by by apply (anti_symm String.le). congruence.
    - apply StronglySorted_app. split; [|split; apply btree_iter_sorted].
      intros [k1 v1] [k2 v2] H1%elem_of_btree_iter H2%elem_of_btree_iter.
      apply lookup_difference_Some in H2 as [H2 Hnone]. apply before_le, Hbef; eauto. }
  rewrite Hsorted. assert (Hlen : length (btree_iter sel) = size sel)
    by (by rewrite btree_iter_perm, length_map_to_list).
  destruct (decide (n ≤ size G)).
  - rewrite take_app_length'; [done|]. lia.
  - assert (G ∖ sel = ∅) as ->.
    { rewrite (least_all n G sel); [apply map_difference_diag|done|]. lia. }
    rewrite take_ge; [by rewrite app_nil_r|]. rewrite app_nil_r. lia.
Qed.
End keys.

(** ** The scan *)

Section scan.
Context `{Ambient} (L : ReadLimits.t) (after : option string) (limit : N).
Abbreviation candidate := (string * CatalogRow * bool)%type.

Definition choose (sel : gmap string CatalogRow) (c : candidate) : gmap string CatalogRow :=
  let '(name, item, allowed) := c in
  if negb allowed || negb (after_ok after name) then sel
  else if (limit <? N.of_nat (size sel))%N
          && match last_key sel with
             | Some l => negb (bool_decide (String.compare name l = Lt))
             | None => false
             end
  then sel
  else let sel := <[name := item]> sel in
       if (limit + 1 <? N.of_nat (size sel))%N then pop_last sel else sel.
Definition offer (G : gmap string CatalogRow) (c : candidate) : gmap string CatalogRow :=
  let '(name, item, allowed) := c in
  if allowed && after_ok after name then <[name := item]> G else G.

Lemma select_all_delivers l : delivers L (select_all after limit l) (foldl choose ∅ l).
Proof.
  apply delivers_fold. intros sel [[name item] allowed] _.
  eapply delivers_bind; [eapply delivers_bind; apply delivers_charge|].
  unfold select_catalog, choose. destruct (negb allowed || _); [apply delivers_ret|].
  destruct (_ && _); [apply delivers_ret|]. eapply delivers_bind; [apply delivers_charge|].
  apply delivers_ret.
Qed.

Lemma choose_least G sel c :
  least (S (N.to_nat limit)) G sel → G !! c.1.1 = None →
  least (S (N.to_nat limit)) (offer G c) (choose sel c).
Proof.
  destruct c as [[name item] allowed]. cbn [fst snd]. intros Hle Hname. unfold offer, choose.
  destruct allowed, (after_ok after name); cbn [negb orb andb]; try done.
  pose proof (least_size _ _ _ Hle) as Hsize.
  assert (Hsel : sel !! name = None) by (eapply lookup_weaken_None; [done|apply Hle]).
  destruct (limit <? N.of_nat (size sel))%N eqn:Hfull; cbn [andb].
  - apply N.ltb_lt in Hfull. assert (Heq : size sel = S (N.to_nat limit)) by lia.
    destruct (last_key sel) as [l|] eqn:Hlast.
    + case_bool_decide as Hlt; cbn [negb].
      * destruct (least_replace _ _ _ _ _ item Hle Hname Heq Hlast Hlt) as [Hl Hle'].
        rewrite map_size_insert_None by done. rewrite (proj2 (N.ltb_lt _ _)) by lia.
        unfold pop_last. by rewrite Hl.
      * by eapply least_skip.
    + exfalso. pose proof (least_pop _ _ _ Hle Heq) as Hpop. unfold pop_last in Hpop. rewrite Hlast in Hpop.
      apply least_size in Hpop. lia.
  - apply N.ltb_ge in Hfull. rewrite map_size_insert_None by done.
    rewrite (proj2 (N.ltb_ge _ _)) by lia. apply least_grow; [done..|]. lia.
Qed.

Lemma scan_least l G sel :
  least (S (N.to_nat limit)) G sel → NoDup (fst ∘ fst <$> l) →
  (∀ c, c ∈ l → G !! c.1.1 = None) →
  least (S (N.to_nat limit)) (foldl offer G l) (foldl choose sel l).
Proof.
  revert G sel. induction l as [|c l IH]; intros G sel Hle Hnd Hfresh; [done|]. cbn [foldl].
  apply NoDup_cons in Hnd as [Hc Hnd]. apply IH; [|done|].
  - apply choose_least; [done|]. apply Hfresh. left.
  - intros c' Hc'. assert (Hne : c.1.1 ≠ c'.1.1).
    { intros Heq. apply Hc. apply list_elem_of_fmap. exists c'. by split. }
    destruct c as [[name item] allowed]. cbn [fst snd] in *. unfold offer. destruct (_ && _).
    + rewrite lookup_insert_ne by done. apply Hfresh. by right.
    + apply Hfresh. by right.
Qed.

Lemma least_empty n : least n (∅ : gmap string CatalogRow) ∅.
Proof. split; [done|by rewrite map_size_empty; lia|by intros ? ? [? ?]]. Qed.

(** The candidates of a map. *)
Lemma offered_map `{HashOrderLaws} {A} (f : string → A → CatalogRow * bool) (m : gmap string A) :
  foldl offer ∅ ((λ '(name, a), (name, (f name a).1, (f name a).2)) <$> hash_iter m) =
  map_imap (λ name a, if (f name a).2 && after_ok after name then Some (f name a).1 else None) m.
Proof.
  apply map_eq. intros k. rewrite map_lookup_imap.
  assert (Hgen : ∀ (l : list (string * A)) (G : gmap string CatalogRow), NoDup l.*1 →
    foldl offer G ((λ '(name, a), (name, (f name a).1, (f name a).2)) <$> l) !! k =
    match list_to_map (M:=gmap string A) l !! k with
    | Some a => if (f k a).2 && after_ok after k then Some (f k a).1 else G !! k
    | None => G !! k
    end).
  { induction l as [|[name a] l IH]; intros G Hnd; [done|]. apply NoDup_cons in Hnd as [Hn Hnd]. cbn.
    rewrite IH by done. destruct (decide (name = k)) as [->|Hne].
    - rewrite lookup_insert_eq, (not_elem_of_list_to_map_1 l k) by done.
      destruct (_ && _); [by rewrite lookup_insert_eq|done].
    - rewrite lookup_insert_ne by done.
      replace ((if (f name a).2 && after_ok after name then <[name:=(f name a).1]> G else G) !! k) with (G !! k);
        [done|]. destruct (_ && _); [by rewrite lookup_insert_ne|done]. }
  rewrite Hgen by apply NoDup_hash_keys.
  rewrite (list_to_map_proper _ (map_to_list m)) by (first [apply NoDup_hash_keys | apply hash_iter_perm]).
  rewrite list_to_map_to_list. destruct (m !! k); [|done]. cbn. by destruct (_ && _).
Qed.
End scan.

(** ** Pages *)

Section pages.
Context {HO : HashOrder} {HL : HashOrderLaws} {RB : Roaring} {RL : RoaringLaws}.
Context {CM : CacheMap} {CL : CacheLaws} {FS : FilterSyntax}.
Context {CS : Casing} {SC : StrictCatalog} {RX : RegexCrate} {RXL : RegexLaws} {FT : FloatText}.
#[local] Existing Instance Reading.the_ontology.
Context {CA : Catalog} {AM : Ambient}.
Context (g : EntityGraph.t) (p : PolicySnapshot).
Context (L : ReadLimits.t) (ns : Namespace.t) (Hns : namespace g = Some ns).

(** Whether a term names a declaration the caller may see. *)
Definition known (term : string) : bool :=
  match Namespace.resolve_spec_term ns term with
  | Some (Namespace.TSpec s) => p_catalog p CSpec (spec_qname s) && p_catalog p CLibrary (spec_lib s)
  | Some (Namespace.TDef name) =>
      match Namespace.defs ns !! name with
      | Some d => p_catalog p CDefinition name && p_catalog p CLibrary (def_lib d)
      | None => false
      end
  | None => false
  end.
Definition put_if (b : bool) (tag : string) (v : Kind) (row : HDict) : HDict :=
  if b then <[tag := v]> row else row.
(** The rows of declarations. *)
Definition slot_of (slot : Slot) : Kind :=
  KDict
    (match slot_type_ref slot with
     | Some ty => put_if (is_primitive ty || known ty) "type" (KStr ty)
     | None => id
     end
    (put_if (slot_is_query slot) "query" KMarker
    (put_if (is_maybe slot) "maybe" KMarker
    (put_if (slot_is_marker slot) "marker" KMarker {["name" := KStr (slot_name slot)]})))).
Definition row_of (item : CatalogRow) : HDict :=
  match item with
  | CRDefinition d =>
      <["doc" := KStr (def_doc d)]> (<["lib" := KSymbol (def_lib d)]> {["def" := KSymbol (def_symbol d)]})
  | CRLibrary l => <["version" := KStr (lib_version l)]> {["name" := KStr (lib_name l)]}
  | CRSpec s detail =>
      put_if detail "slots" (KList (List.map slot_of (spec_slots s)))
      (put_if (spec_is_abstract s) "abstract" KMarker
      (match spec_base s with Some base => put_if (known base) "base" (KStr base) | None => id end
      (<["doc" := KStr (spec_doc s)]> (<["lib" := KStr (spec_lib s)]>
         (<["name" := KStr (spec_name s)]> {["qname" := KStr (spec_qname s)]})))))
  end.

Lemma put_delivers row tag v : delivers L (put row tag v) (<[tag := v]> row).
Proof.
  eapply delivers_bind; [apply delivers_charge|]. eapply delivers_bind; [apply delivers_copy|apply delivers_ret].
Qed.
Lemma text_delivers row tag v : delivers L (text row tag v) (<[tag := KStr v]> row).
Proof. eapply delivers_bind; [apply delivers_copy|apply put_delivers]. Qed.
Lemma put_if_gives b row tag v :
  gives L (if b : bool then lift (put row tag v) else mret row) (put_if b tag v row).
Proof. destruct b; [apply gives_lift, put_delivers|apply gives_ret]. Qed.

Lemma available_gives term : gives L (term_available g p (Some ns) term) (known term).
Proof.
  destruct (Unmetered.available_tracks (QE:=View.environment g p) _ _ (View.shown g p L)
    (View.view_follows g p L) (Some ns) term) as (v & Hv & _ & Hrun).
  assert (v = Ok (known term)) as ->.
  { unfold Controlled.catalog_term_available, Controlled.visible_def, Controlled.visible_spec,
      Controlled.and_then, Controlled.C_bind, mbind, Controlled.op, Namespace.get_def in Hv. cbn in Hv.
    unfold known. repeat case_match; simplify_eq/=; try done;
      by injection Hv as <-. }
  intros b Hb. destruct (Hrun b Hb) as (r & b' & Hr' & Hb' & Hs). exists r, b'.
  split_and!; [done..|]. destruct Hs as [?|(a & [= <-] & ->)]; [by right|by left].
Qed.

Lemma slot_row_gives slot : gives L (slot_row g p ns slot) (slot_of slot).
Proof.
  unfold slot_row, slot_of. eapply gives_bind; [apply gives_lift, delivers_charge|].
  eapply gives_bind; [apply gives_lift, delivers_charge|].
  eapply gives_bind; [apply gives_lift, text_delivers|]. do 3 (eapply gives_bind; [apply put_if_gives|]).
  set (row := put_if _ _ _ _).
  eapply (gives_bind _ _ _ (match slot_type_ref slot with
    | Some ty => put_if (is_primitive ty || known ty) "type" (KStr ty) | None => id end row)).
  - destruct (slot_type_ref slot) as [ty|]; [|apply gives_ret].
    eapply (gives_bind _ _ _ (is_primitive ty || known ty)).
    + destruct (is_primitive ty); [apply gives_ret|apply available_gives].
    + destruct (is_primitive ty || known ty); [apply gives_lift, text_delivers|apply gives_ret].
  - apply gives_ret.
Qed.

Lemma catalog_row_gives item : gives L (catalog_row g p ns item) (row_of item).
Proof.
  destruct item as [d|l|s detail]; cbn [catalog_row row_of].
  - do 2 (eapply gives_bind; [apply gives_lift, delivers_copy|];
      eapply gives_bind; [apply gives_lift, put_delivers|]). apply gives_lift, text_delivers.
  - eapply gives_bind; [apply gives_lift, text_delivers|]. apply gives_lift, text_delivers.
  - do 4 (eapply gives_bind; [apply gives_lift, text_delivers|]). set (row := insert "doc" _ _).
    eapply (gives_bind _ _ _ (match spec_base s with
      | Some base => put_if (known base) "base" (KStr base) | None => id end row)).
    { destruct (spec_base s) as [base|]; [|apply gives_ret].
      eapply gives_bind; [apply available_gives|].
      destruct (known base); [apply gives_lift, text_delivers|apply gives_ret]. }
    eapply gives_bind; [apply put_if_gives|]. destruct detail; [|apply gives_ret]. cbn [put_if].
    eapply gives_bind; [|apply gives_lift, put_delivers].
    rewrite <-(app_nil_l (List.map _ _)), <-SanitizeFacts.foldl_snoc. apply gives_fold. intros out slot _.
    eapply gives_bind; [apply slot_row_gives|apply gives_ret].
Qed.

(** The declarations a query asks for that the caller may see, after a
    position. *)
Definition declared (q : NormalizedQuery) (after : option string) : gmap string CatalogRow :=
  match q with
  | NDefinitions filter => map_imap (λ name d,
      if p_catalog p CDefinition name && p_catalog p CLibrary (def_lib d)
         && match filter with Some f => bool_decide (is_Some (split_once f name)) | None => true end
         && after_ok after name then Some (CRDefinition d) else None) (Namespace.defs ns)
  | NLibraries => map_imap (λ name l,
      if p_catalog p CLibrary name && after_ok after name then Some (CRLibrary l) else None)
      (Namespace.libs ns)
  | NSpecs lib => map_imap (λ name s,
      if p_catalog p CSpec name && p_catalog p CLibrary (spec_lib s)
         && match lib with Some lib => bool_decide (lib = spec_lib s) | None => true end
         && after_ok after name then Some (CRSpec s false) else None) (Namespace.specs ns)
  | NSpec name =>
      match Namespace.get_spec ns name with
      | Some s => if after_ok after (spec_qname s) then {[spec_qname s := CRSpec s true]} else ∅
      | None => ∅
      end
  | _ => ∅
  end.
Definition listing (q : NormalizedQuery) : bool :=
  match q with NDefinitions _ | NLibraries | NSpecs _ => true | _ => false end.

Lemma candidates_offered q after :
  listing q = true → foldl (offer after) ∅ (catalog_candidates p ns q) = declared q after.
Proof.
  destruct q as [| | |filter| |lib|]; try done; intros _; cbn [catalog_candidates declared].
  - apply (offered_map after (λ name d, (CRDefinition d, _))).
  - apply (offered_map after (λ name l, (CRLibrary l, _))).
  - apply (offered_map after (λ name s, (CRSpec s false, _))).
Qed.
Lemma candidates_nodup q : NoDup (fst ∘ fst <$> catalog_candidates p ns q).
Proof.
  assert (Hk : ∀ {A} (m : gmap string A) (f : string * A → string * CatalogRow * bool),
    (∀ kv, (f kv).1.1 = kv.1) → NoDup (fst ∘ fst <$> (f <$> hash_iter m))).
  { intros A m f Hf. rewrite <-list_fmap_compose. rewrite (list_fmap_ext _ fst).
    - apply NoDup_hash_keys.
    - intros _ kv _. cbn. apply Hf. }
  destruct q; cbn [catalog_candidates]; try apply NoDup_nil_2; apply Hk; by intros [].
Qed.

Definition catalog_page_of (ri : RequestIdentity) (after : option string)
    : list HDict * bool * option string :=
  let all := btree_iter (declared (ri_query ri) after) in
  let page := take (N.to_nat (ri_page_size ri)) all in
  ((λ kv, project_row (ri_projection ri) (row_of kv.2)) <$> page,
   (len all <=? ri_page_size ri)%N, last page.*1).

Lemma rows_gives ri (l : list (string * CatalogRow)) :
  gives L (fold_r (λ '(rows, _) '(name, item),
        row ← catalog_row g p ns item;
        row ← lift (project row (ri_projection ri));
        lift (charge BRetained 128);;
        last ← lift (copy_string name);
        mret (rows ++ [row], Some last)) ([], None) l)
    ((λ kv, project_row (ri_projection ri) (row_of kv.2)) <$> l, last l.*1).
Proof.
  set (f := λ kv : string * CatalogRow, project_row (ri_projection ri) (row_of kv.2)).
  assert (Hfold : ∀ (l : list (string * CatalogRow)) st,
    foldl (λ (st : list HDict * option string) kv, (st.1 ++ [f kv], Some kv.1)) st l =
    (st.1 ++ (f <$> l), match last l.*1 with Some k => Some k | None => st.2 end)).
  { clear. induction l as [|[k i] l IH]; intros [rows lst]; cbn [foldl]; [by rewrite app_nil_r|].
    rewrite IH. cbn [fst snd fmap list_fmap]. rewrite <-app_assoc, last_cons. by destruct (last l.*1). }
  replace (f <$> l, last l.*1) with
    (foldl (λ (st : list HDict * option string) kv, (st.1 ++ [f kv], Some kv.1)) ([], None) l)
    by (rewrite Hfold; cbn; by destruct (last _)).
  apply (gives_fold _ _ (λ (st : list HDict * option string) kv, (st.1 ++ [f kv], Some kv.1))).
  intros [rows lst] [name item] _. eapply gives_bind; [apply catalog_row_gives|].
  eapply gives_bind; [apply gives_lift, project_delivers|].
  eapply gives_bind; [apply gives_lift, delivers_charge|].
  eapply gives_bind; [apply gives_lift, delivers_copy|apply gives_ret].
Qed.

(** A page after the scan. *)
Lemma page_gives ri after sel :
  least (S (N.to_nat (ri_page_size ri))) (declared (ri_query ri) after) sel →
  gives L
    (let complete := (N.of_nat (size sel) <=? ri_page_size ri)%N in
     let sel := if complete then sel else pop_last sel in
     '(rows, last) ← fold_r (λ '(rows, _) '(name, item),
        row ← catalog_row g p ns item;
        row ← lift (project row (ri_projection ri));
        lift (charge BRetained 128);;
        last ← lift (copy_string name);
        mret (rows ++ [row], Some last)) ([], None) (btree_iter sel);
     mret (rows, complete, last))
    (catalog_page_of ri after).
Proof.
  intros Hle. cbv zeta. set (n := ri_page_size ri) in *. set (G := declared _ _) in *.
  pose proof (least_size _ _ _ Hle) as Hsize.
  assert (Hlen : len (btree_iter G) = N.of_nat (size G))
    by (unfold len; by rewrite btree_iter_perm, length_map_to_list).
  assert (Hiter : btree_iter (if (N.of_nat (size sel) <=? n)%N then sel else pop_last sel)
    = take (N.to_nat n) (btree_iter G)).
  { destruct (N.leb_spec (N.of_nat (size sel)) n).
    - pose proof (least_all _ _ _ Hle ltac:(lia)) as ->. rewrite take_ge; [done|]. unfold len in Hlen. lia.
    - apply least_iter, least_pop; [done|]. lia. }
  rewrite Hiter. eapply gives_bind; [apply rows_gives|]. unfold catalog_page_of. cbv zeta. fold n G.
  replace (len (btree_iter G) <=? n)%N with (N.of_nat (size sel) <=? n)%N; [apply gives_ret|].
  rewrite Hlen. destruct (N.leb_spec (N.of_nat (size sel)) n), (N.leb_spec (N.of_nat (size G)) n); lia || done.
Qed.

(** Listing definitions, libraries or specs. *)
Lemma catalog_page_gives ri after :
  listing (ri_query ri) = true → gives L (catalog_page g p ri after) (catalog_page_of ri after).
Proof.
  intros Hq. unfold catalog_page. rewrite Hns.
  pose proof (scan_least after (ri_page_size ri) (catalog_candidates p ns (ri_query ri)) ∅ ∅
    (least_empty _) (candidates_nodup _) ltac:(intros; apply lookup_empty)) as Hle.
  rewrite candidates_offered in Hle by done.
  eapply (gives_bind _ _ _ (foldl (choose after (ri_page_size ri)) ∅ (catalog_candidates p ns (ri_query ri)))).
  - destruct (ri_query ri); try done; apply gives_lift, select_all_delivers.
  - by apply page_gives.
Qed.

(** The details of one spec. *)
Lemma spec_page_gives ri after name s :
  ri_query ri = NSpec name → Namespace.get_spec ns name = Some s →
  p_catalog p CSpec name && p_catalog p CLibrary (spec_lib s) = true →
  gives L (catalog_page g p ri after) (catalog_page_of ri after).
Proof.
  intros Hq Hs Hvis. unfold catalog_page. rewrite Hns, Hq, Hs, Hvis.
  pose proof (scan_least after (ri_page_size ri) [(spec_qname s, CRSpec s true, true)] ∅ ∅
    (least_empty _) ltac:(apply NoDup_singleton) ltac:(intros; apply lookup_empty)) as Hle.
  replace (foldl (offer after) ∅ _) with (declared (ri_query ri) after) in Hle
    by (rewrite Hq; cbn; rewrite Hs; by destruct (after_ok after (spec_qname s))).
  eapply gives_bind; [apply gives_lift, select_all_delivers|]. by apply page_gives.
Qed.

Definition over_catalog (q : NormalizedQuery) : bool :=
  match q with NDefinitions _ | NLibraries | NSpecs _ | NSpec _ => true | _ => false end.
(** The declarations of a query that asks for one the caller may see. *)
Definition offered (q : NormalizedQuery) : bool :=
  match q with
  | NSpec name =>
      match Namespace.get_spec ns name with
      | Some s => p_catalog p CSpec name && p_catalog p CLibrary (spec_lib s)
      | None => false
      end
  | q => listing q
  end.
Lemma offered_gives ri after :
  offered (ri_query ri) = true → gives L (catalog_page g p ri after) (catalog_page_of ri after).
Proof.
  intros Ho. destruct (ri_query ri) as [| | | | | |name] eqn:Hq; try done;
    try (apply catalog_page_gives; by rewrite Hq).
  cbn in Ho. destruct (Namespace.get_spec ns name) as [s|] eqn:Hs; [|done]. by eapply spec_page_gives.
Qed.
Lemma hidden_unavailable ri after name b :
  ri_query ri = NSpec name → offered (NSpec name) = false →
  catalog_page g p ri after b = Some (Err Unavailable, b).
Proof.
  intros Hq Ho. unfold catalog_page. rewrite Hns, Hq. cbn in Ho.
  destruct (Namespace.get_spec ns name); [rewrite Ho|]; reflexivity.
Qed.
End pages.
End CatalogPages.
