(* ===== verification/ReadService.v ===== *)
(** * Reads and their cursors

    The cursor table and [execute_on_graph] of [haystack-app/src/service.rs]:
    a page that is not the last one leaves in the table where to continue, for
    which request and for which state of the graph, under a random nonce; the
    caller gets the nonce with a code of authentication.

    The cursor table is shared by all requests: a request sees it once when it
    looks its cursor up and once when it stores the next one, and other
    requests may have changed it in between, so the two tables are separate
    arguments. *)

From Stdlib Require Import Ascii.
From S2P Require Import Prelude Floats Kinds Extern Bitmap Adjacency ValueIndex Filter FilterParser Text Taxonomy Xeto Namespace Fitting Controlled Changelog Graph Query Application Sanitize View Reading.

#[export] Instance byte_countable : Countable Byte.byte.
Proof.
  apply (inj_countable Byte.to_N Byte.of_N). intros b. apply Byte.of_to_N.
Defined.
Abbreviation bytes := (list Byte.byte).

(** HMAC-SHA256 and unpadded URL-safe Base64. *)
Class CursorCrypto : Type := {
  hmac : bytes → bytes → bytes;
  base64_encode : bytes → string;
  base64_decode : string → option bytes
}.
Class CursorCryptoLaws `{CursorCrypto} : Prop := {
  hmac_length key msg : length (hmac key msg) = 32;
  base64_roundtrip l : base64_decode (base64_encode l) = Some l;
  base64_length l : length l = 48 → str_len (base64_encode l) = 64%N
}.

Record CursorRecord : Type := mkCursor {
  cr_identity : RequestIdentity;
  cr_stamp : Stamp;
  cr_after : string;
  cr_expires : N;
  cr_bytes : N
}.
Record CursorTable : Type := mkTable { entries : gmap bytes CursorRecord; table_bytes : N }.
Definition empty_table : CursorTable := mkTable ∅ 0.

(** [ReadPage]. *)
Record ReadPage (Out : Type) : Type := mkPage {
  pg_output : Out;
  pg_complete : bool;
  pg_cursor : option string;
  pg_row_count : N
}.
Arguments mkPage {Out}.
Arguments pg_output {Out}.
Arguments pg_complete {Out}.
Arguments pg_cursor {Out}.
Arguments pg_row_count {Out}.

(** What a request meets outside: how often it missed a lock, the clock at
    the cursor table, and the random nonce. *)
Record Outside : Type := mkOutside {
  lookup_misses : nat; lookup_now : N; graph_misses : nat; insert_misses : nat; insert_now : N;
  nonce : bytes }.

Module ReadService.
Import Meter Reading.

(** [ReadService] and its [Inner], without the locks. *)
Record t : Type := mk {
  dataset : bytes;
  policy : Principal → result ReadError PolicySnapshot;
  cursor_key : bytes;
  service_limits : ReadLimits.t
}.

Section cursors.
Context `{Ambient, CursorCrypto}.
Context (service : t) (out : Outside).

(** A lock that is waited for in quanta: [misses] times in vain. *)
Definition acquire (misses : nat) : B unit := each (λ _, wait_quantum;; mret ()) (seq 0 (S misses)).

(** [Inner::token]. *)
Definition token : B (bytes * string) :=
  charge BRetained 256;;
  mret (nonce out, base64_encode (nonce out ++ hmac (cursor_key service) (nonce out))).

(** [Inner::lookup]. *)
Definition lookup (token : string) (table : CursorTable) : B (RequestIdentity * Stamp * string) :=
  if negb (str_len token =? 64)%N then throw StaleCursor
  else
    charge BRetained 256;;
    match base64_decode token with
    | None => throw StaleCursor
    | Some l =>
        if negb (bool_decide (length l = 48)) then throw StaleCursor
        else if negb (bool_decide (hmac (cursor_key service) (take 16 l) = drop 16 l)) then throw StaleCursor
        else
          acquire (lookup_misses out);;
          match entries table !! take 16 l with
          | None => throw StaleCursor
          | Some record =>
              if (cr_expires record <=? lookup_now out)%N then throw StaleCursor
              else
                after ← copy_string (cr_after record);
                mret (cr_identity record, cr_stamp record, after)
          end
    end.

(** The entries that have not expired. *)
Definition live (now : N) (table : CursorTable) : CursorTable :=
  let kept := filter (λ kv, now < cr_expires kv.2)%N (entries table) in
  mkTable kept (map_fold (λ _ r n, cr_bytes r + n)%N 0%N kept).

(** [Inner::insert]; the expired entries are gone on every outcome after the
    lock. *)
Definition insert (identity : RequestIdentity) (stamp : Stamp) (after : string) (estimate : N)
    (table : CursorTable) (b : Budget) : result ReadError unit * CursorTable * Budget :=
  let bytes := saturating_add (saturating_add estimate (str_len after)) 512 in
  match (acquire (insert_misses out);; charge BWork (N.of_nat (size (entries table)))) b with
  | (Err e, b) => (Err e, table, b)
  | (Ok _, b) =>
      let table := live (insert_now out) table in
      if (ReadLimits.cursor_capacity (service_limits service) <=? N.of_nat (size (entries table)))%N
         || (ReadLimits.max_cursor_bytes (service_limits service) - table_bytes table <? bytes)%N
      then (Err Capacity, table, b)
      else match check b with
      | (Err e, b) => (Err e, table, b)
      | (Ok _, b) =>
          (Ok (),
           mkTable (<[nonce out := mkCursor identity stamp after
                       (insert_now out + ReadLimits.cursor_ttl (service_limits service)) bytes]>
                      (entries table)) (table_bytes table + bytes), b)
      end
  end.
End cursors.

Section execute.
Context {HO : HashOrder} {RB : Roaring} {CM : CacheMap} {FS : FilterSyntax} {LX : Lexical}.
Context {CS : Casing} {SC : StrictCatalog} {RX : RegexCrate} {FT : FloatText}.
#[local] Existing Instance Reading.the_ontology.
Context {CA : Catalog} {AM : Ambient} {CC : CursorCrypto}.
Context {SF : ∀ g p, @StrictFit SC (Reading.env g p)}.
Context (fuel : nat) {Out : Type}.
(** [output::encode] and [output::jeto] for the profile of the request. *)
Context (encode : EntityGraph.t → OutputProfile → HGrid → B Out).
Context (service : t) (out : Outside).

(** The stamp of a graph. *)
Definition stamp_of (g : EntityGraph.t) : Stamp :=
  mkStamp (dataset service) (EntityGraph.incarnation g) (EntityGraph.version g)
    (EntityGraph.catalog_generation g).

(** The guards before a request is looked at. *)
Definition admission (principal : Principal) (op : ReadOperation) : B PolicySnapshot :=
  l ← asks limits;
  if match principal with
     | Authenticated _ permissions => (ReadLimits.max_ids l <? len permissions)%N
     | _ => false
     end then throw (BudgetExceeded BInput)
  else if (ReadLimits.max_input_bytes l <? Principal.bytes principal)%N then throw (BudgetExceeded BInput)
  else
    check;;
    match policy service principal with
    | Err e => throw e
    | Ok p =>
        check;;
        if negb (p_operation p op) then throw Forbidden
        else if (ReadLimits.max_input_bytes l <? str_len (scope_key p))%N then throw (BudgetExceeded BInput)
        else mret p
    end.

Definition lookup_prior (prepared : PreparedRead) (table : CursorTable)
    : B (option (RequestIdentity * Stamp * string)) :=
  match pr_cursor prepared with
  | None => mret None
  | Some c =>
      prior ← lookup service out c table;
      if identity_eqb prior.1.1 (pr_identity prepared) then mret (Some prior) else throw StaleCursor
  end.

(** The read under the graph's lock, up to the encoded page. *)
Definition read_page (g : EntityGraph.t) (p : PolicySnapshot) (prepared : PreparedRead)
    (prior : option (RequestIdentity * Stamp * string))
    : R (ReadPage Out * option string) :=
  lift (acquire (graph_misses out));;
  if match prior with Some (_, old, _) => negb (bool_decide (old = stamp_of g)) | None => false end
  then fail StaleCursor
  else
    let identity := pr_identity prepared in
    let after := match prior with Some (_, _, id) => Some id | None => None end in
    validate_query g p (ri_query identity);;
    '(rows, complete, last) ← produce g p fuel identity after;
    pending ← (if complete : bool then mret None
               else (t ← lift (token service out); mret (Some t)));
    grid ← lift (page_grid rows complete (snd <$> pending));
    output ← lift (encode g (ri_profile identity) grid);
    if complete : bool then mret (mkPage output true None (len rows), None)
    else match last with
    | Some after => mret (mkPage output false (snd <$> pending) (len rows), Some after)
    | None => fail Unavailable
    end.

(** Before the lock: admission, normalization and the cursor. *)
Definition prepare (principal : Principal) (request : ReadRequest) (seen : CursorTable)
    : R (PolicySnapshot * PreparedRead * option (RequestIdentity * Stamp * string)) :=
  p ← lift (admission principal (query_operation (rq_query request)));
  prepared ← normalize p request principal;
  prior ← lift (lookup_prior prepared seen);
  mret (p, prepared, prior).

(** [Inner::execute_on_graph] on a request.  [seen] is the cursor table at the
    lookup, [table] the one at the insertion; the result is the latter's new
    state. *)
Definition execute_on_graph (g : EntityGraph.t) (principal : Principal) (request : ReadRequest)
    (seen table : CursorTable) (b : Budget)
    : option (result ReadError (ReadPage Out) * CursorTable * Budget) :=
  match prepare principal request seen b with
  | None => None
  | Some (Err e, b) => Some (Err e, table, b)
  | Some (Ok (p, prepared, prior), b) =>
      match read_page g p prepared prior b with
      | None => None
      | Some (Err e, b) => Some (Err e, table, b)
      | Some (Ok (page, None), b) => Some (Ok page, table, b)
      | Some (Ok (page, Some after), b) =>
          match insert service out (pr_identity prepared) (stamp_of g) after
                  (pr_retained_estimate prepared) table b with
          | (Err e, table, b) => Some (Err e, table, b)
          | (Ok _, table, b) => Some (Ok page, table, b)
          end
      end
  end.
End execute.
End ReadService.
