(* ===== verification/ReadServiceFacts.v ===== *)
(** * A read and its continuation

    What [execute_on_graph] returns when it succeeds: the page of the request
    as its text is parsed, over what the policy shows, after the position its
    cursor stands for, and a cursor for the rest where there is one.  The cursor
    table stays within its limits. *)

From Stdlib Require Import Ascii.
From S2P Require Import Prelude Floats Kinds Extern Bitmap Adjacency ValueIndex Filter FilterParser Text Taxonomy Xeto Namespace Fitting NamespaceFacts FittingFacts Controlled ControlledFacts ControlledSafety Changelog Graph GraphInv Query QueryFacts System Application MeterFacts Sanitize View Reading ReadingFacts CatalogPages ReadService.

Module ReadServiceFacts.
Import Meter MeterFacts Reading ReadingFacts ReadService.

(** ** Successful runs *)

Lemma b_bind_ok {A C} (m : B A) (k : A → B C) b x b' :
  (m ≫= k) b = (Ok x, b') → ∃ a b1, m b = (Ok a, b1) ∧ k a b1 = (Ok x, b').
Proof. unfold mbind, B_bind. destruct (m b) as [[a|e] b1]; [eauto|done]. Qed.
Lemma r_bind_ok {A C} (m : R A) (k : A → R C) b x b' :
  (m ≫= k) b = Some (Ok x, b') → ∃ a b1, m b = Some (Ok a, b1) ∧ k a b1 = Some (Ok x, b').
Proof. unfold mbind, R_bind. destruct (m b) as [[[a|e] b1]|]; [eauto|done..]. Qed.
Lemma lift_ok {A} (m : B A) b x b' : lift m b = Some (Ok x, b') → m b = (Ok x, b').
Proof. unfold lift. by intros [= ->]. Qed.

Section steady.
Context `{Ambient}.
(** The limits never change. *)
Definition steady {A} (m : B A) : Prop := ∀ b, limits (m b).2 = limits b.
Definition steady_r {A} (m : R A) : Prop := ∀ b r b', m b = Some (r, b') → limits b' = limits b.

Lemma steady_ret {A} (a : A) : steady (mret a).
Proof. done. Qed.
Lemma steady_throw {A} e : steady (throw (A:=A) e).
Proof. done. Qed.
Lemma steady_bind {A C} (m : B A) (k : A → B C) : steady m → (∀ a, steady (k a)) → steady (m ≫= k).
Proof.
  intros Hm Hk b. unfold mbind, B_bind. specialize (Hm b). destruct (m b) as [[a|e] b1]; [|done].
  rewrite (Hk a b1). exact Hm.
Qed.
Lemma steady_check : steady check.
Proof. done. Qed.
Lemma steady_asks {A} (f : Budget → A) : steady (asks f).
Proof. done. Qed.
Lemma steady_charge k n : steady (charge k n).
Proof.
  apply steady_bind; [apply steady_check|]. intros _ b. unfold spend.
  destruct (Usage.counter _ _ _) as [[[used limit] set]|]; [|done]. by case_decide.
Qed.
Lemma steady_depth d : steady (depth d).
Proof. apply steady_bind; [apply steady_check|]. intros _ b. unfold within_depth. by case_decide. Qed.
Lemma steady_copy s : steady (copy_string s).
Proof. repeat (apply steady_bind; [apply steady_charge|intros _]). apply steady_ret. Qed.
Lemma steady_each {A} (f : A → B unit) l : (∀ a, steady (f a)) → steady (each f l).
Proof. intros Hf. induction l; [apply steady_ret|]. cbn. apply steady_bind; [done|]. by intros _. Qed.
Lemma steady_wait : steady wait_quantum.
Proof. intros b. unfold wait_quantum, check. by destruct (verdict b (moments (ticks b))). Qed.
Lemma steady_acquire n : steady (acquire n).
Proof. apply steady_each. intros _. apply steady_bind; [apply steady_wait|]. intros _. apply steady_ret. Qed.

Lemma steady_r_ret {A} (a : A) : steady_r (mret a).
Proof. by intros b r b' [= _ ->]. Qed.
Lemma steady_r_fail {A} e : steady_r (fail (A:=A) e).
Proof. by intros b r b' [= _ ->]. Qed.
Lemma steady_r_lift {A} (m : B A) : steady m → steady_r (lift m).
Proof. intros Hm b r b' [= Hr]. pose proof (Hm b) as Hs. by rewrite Hr in Hs. Qed.
Lemma steady_r_bind {A C} (m : R A) (k : A → R C) :
  steady_r m → (∀ a, steady_r (k a)) → steady_r (m ≫= k).
Proof.
  intros Hm Hk b r b'. unfold mbind, R_bind. destruct (m b) as [[[a|e] b1]|] eqn:Hr; [| |done].
  - intros Hk'. rewrite (Hk a _ _ _ Hk'). by eapply Hm.
  - intros [= _ <-]. by eapply Hm.
Qed.

Lemma steady_normalize `{Lexical} p r principal : steady_r (normalize p r principal).
Proof.
  unfold normalize. apply steady_r_bind; [apply steady_r_lift, steady_asks|]. intros l.
  repeat (case_match; [apply steady_r_fail|]). cbv zeta.
  destruct (ReadLimits.max_input_bytes l <? _)%N; [apply steady_r_fail|].
  apply steady_r_bind; [apply steady_r_lift, steady_charge|intros _].
  apply steady_r_bind; [apply steady_r_lift, steady_charge|intros _].
  apply steady_r_bind.
  - unfold normalize_query. destruct (rq_query r); try apply steady_r_ret.
    apply steady_r_bind; [|intros; apply steady_r_ret]. intros b res b'. unfold parse_query.
    repeat case_match; by intros [= _ <-].
  - intros q. apply steady_r_bind; [apply steady_r_lift, steady_copy|]. intros; apply steady_r_ret.
Qed.
Lemma steady_admission service principal op : steady (admission service principal op).
Proof.
  unfold admission. apply steady_bind; [apply steady_asks|]. intros l.
  case_match; [apply steady_throw|].
  destruct (ReadLimits.max_input_bytes l <? _)%N; [apply steady_throw|].
  apply steady_bind; [apply steady_check|intros _]. destruct (policy service principal); [|apply steady_throw].
  apply steady_bind; [apply steady_check|intros _]. destruct (negb _); [apply steady_throw|].
  destruct (_ <? _)%N; [apply steady_throw|apply steady_ret].
Qed.
End steady.

(** ** Cursors *)

Section cursors.
Context {AM : Ambient} {CC : CursorCrypto} {CCL : CursorCryptoLaws}.

Lemma delivers_acquire L n : delivers L (acquire n) ().
Proof.
  apply delivers_each. intros _ _ b Hb. unfold wait_quantum, mbind, B_bind, mret, B_ret.
  destruct (delivers_check L b Hb) as (r & b' & Hr & Hb' & Hs). rewrite Hr.
  destruct Hs as [->|(e & -> & He)]; eexists _, b'; (split_and!; [done..|]); [by left|right; eauto].
Qed.

(** A token that was issued and whose record is still there leads to it. *)
Lemma lookup_issued L service out n table record :
  length n = 16 → entries table !! n = Some record → (lookup_now out < cr_expires record)%N →
  delivers L (lookup service out (base64_encode (n ++ hmac (cursor_key service) n)) table)
    (cr_identity record, cr_stamp record, cr_after record).
Proof.
  intros Hn Hrec Hexp. unfold lookup.
  assert (Hlen : length (n ++ hmac (cursor_key service) n) = 48)
    by (rewrite length_app, Hn, hmac_length; done).
  rewrite base64_length by done. cbn [negb N.eqb Pos.eqb].
  eapply delivers_bind; [apply delivers_charge|]. rewrite base64_roundtrip.
  rewrite bool_decide_true by done. cbn [negb].
  rewrite take_app_length', drop_app_length' by done. rewrite bool_decide_true by done. cbn [negb].
  eapply delivers_bind.
  { apply delivers_acquire. }
  rewrite Hrec. rewrite (proj2 (N.leb_gt _ _)) by done.
  eapply delivers_bind; [apply delivers_copy|apply delivers_ret].
Qed.

(** ** The table stays within its limits *)

Definition held (m : gmap bytes CursorRecord) : N := map_fold (λ _ r n, cr_bytes r + n)%N 0%N m.
Lemma held_delete m k r : m !! k = Some r → held m = (cr_bytes r + held (delete k m))%N.
Proof. intros Hk. unfold held. rewrite (map_fold_delete_L _ _ k r) by (done || (intros; lia)). done. Qed.
Lemma held_insert m k r : m !! k = None → held (<[k := r]> m) = (cr_bytes r + held m)%N.
Proof. intros Hk. unfold held. rewrite map_fold_insert_L by (done || (intros; lia)). done. Qed.
Lemma held_mono m1 m2 : m1 ⊆ m2 → (held m1 ≤ held m2)%N.
Proof.
  revert m2. induction m1 as [|k r m1 Hk IH] using map_ind; intros m2 Hsub.
  { unfold held at 1. rewrite map_fold_empty. lia. }
  rewrite held_insert by done. assert (Hr : m2 !! k = Some r)
    by (eapply lookup_weaken; [|exact Hsub]; apply lookup_insert_eq).
  rewrite (held_delete m2 k r) by done. specialize (IH (delete k m2)).
  enough (m1 ⊆ delete k m2) by (specialize (IH ltac:(done)); lia).
  rewrite map_subseteq_spec in *. intros k' r' Hr'. destruct (decide (k = k')) as [->|Hne]; [congruence|].
  rewrite lookup_delete_ne by done. apply Hsub. by rewrite lookup_insert_ne.
Qed.

Record table_ok (l : ReadLimits.t) (table : CursorTable) : Prop := {
  tab_held : (held (entries table) ≤ table_bytes table)%N;
  tab_bytes : (table_bytes table ≤ ReadLimits.max_cursor_bytes l)%N;
  tab_size : (N.of_nat (size (entries table)) ≤ ReadLimits.cursor_capacity l)%N
}.
Lemma table_ok_empty l : table_ok l empty_table.
Proof. split; cbn; [unfold held; rewrite map_fold_empty; lia|lia|rewrite map_size_empty; lia]. Qed.

Lemma live_ok l now table : table_ok l table → table_ok l (live now table).
Proof.
  intros [Hh Hb Hs]. unfold live.
  assert (Hsub : filter (λ kv, now < cr_expires kv.2)%N (entries table) ⊆ entries table)
    by apply map_filter_subseteq.
  pose proof (held_mono _ _ Hsub) as Hle. split; cbn.
  - reflexivity.
  - unfold held in Hle. etrans; [exact Hle|]. unfold held in Hh. lia.
  - apply map_subseteq_size in Hsub. lia.
Qed.

Lemma insert_outcome service out identity stamp after estimate table b r table' b' :
  insert service out identity stamp after estimate table b = (r, table', b') →
  table' = table ∨ table' = live (insert_now out) table ∨
  (r = Ok () ∧
   (N.of_nat (size (entries (live (insert_now out) table))) <
      ReadLimits.cursor_capacity (service_limits service))%N ∧
   ∃ n, (table_bytes (live (insert_now out) table) + n ≤
           ReadLimits.max_cursor_bytes (service_limits service))%N ∧
     table' = mkTable (<[nonce out := mkCursor identity stamp after
         (insert_now out + ReadLimits.cursor_ttl (service_limits service)) n]>
         (entries (live (insert_now out) table))) (table_bytes (live (insert_now out) table) + n)).
Proof.
  unfold insert. destruct ((acquire _;; charge _ _) b) as [[u|e] b1]; [|intros [= _ <- _]; by left].
  set (T := live (insert_now out) table). set (n := saturating_add _ 512).
  destruct (_ || _) eqn:Hfull; [intros [= _ <- _]; right; by left|].
  destruct (check b1) as [[u'|e] b2]; [|intros [= _ <- _]; right; by left].
  intros [= <- <- _]. right. right. apply orb_false_iff in Hfull as [H1%N.leb_gt H2%N.ltb_ge].
  split_and!; [done|done|]. exists n. split; [|done].
  assert (1 ≤ n)%N by (subst n; unfold saturating_add, usize_max; lia). lia.
Qed.

Lemma insert_ok_entry service out identity stamp after estimate table b u table' b' :
  insert service out identity stamp after estimate table b = (Ok u, table', b') →
  ∃ n, entries table' !! nonce out = Some (mkCursor identity stamp after
    (insert_now out + ReadLimits.cursor_ttl (service_limits service)) n).
Proof.
  unfold insert. destruct ((acquire _;; charge _ _) b) as [[?|?] b1]; [|done].
  destruct (_ || _); [done|]. destruct (check b1) as [[?|?] b2]; [|done].
  intros [= _ <- _]. eexists. cbn. apply lookup_insert_eq.
Qed.

Lemma insert_ok service out identity stamp after estimate table b r table' b' :
  table_ok (service_limits service) table →
  insert service out identity stamp after estimate table b = (r, table', b') →
  table_ok (service_limits service) table'.
Proof.
  intros Hok Hins. apply insert_outcome in Hins as [->|[->|(-> & Hcap & n & Hn & ->)]];
    [done|by apply live_ok|].
  destruct (live_ok _ (insert_now out) _ Hok) as [Hh Hb Hs]. set (T := live (insert_now out) table) in *.
  clearbody T. split; cbn; [| lia |].
  - set (r := mkCursor _ _ _ _ _). destruct (entries T !! nonce out) as [r0|] eqn:Hold.
    + rewrite <-(insert_delete_eq _ _ r), held_insert by apply lookup_delete_eq.
      pose proof (held_delete _ _ _ Hold). cbn. lia.
    + rewrite held_insert by done. cbn. lia.
  - destruct (entries T !! nonce out) eqn:Hold.
    + rewrite map_size_insert_Some by eauto. lia.
    + rewrite map_size_insert_None by done. lia.
Qed.
End cursors.

(** ** Reads *)

Section execute.
Context {HO : HashOrder} {HL : HashOrderLaws} {RB : Roaring} {RL : RoaringLaws}.
Context {CM : CacheMap} {CL : CacheLaws} {FS : FilterSyntax} {LX : Lexical}.
Context {CS : Casing} {SC : StrictCatalog} {RX : RegexCrate} {RXL : RegexLaws} {FT : FloatText}.
#[local] Existing Instance Reading.the_ontology.
Context {CA : Catalog} {AM : Ambient} {CC : CursorCrypto}.
Context {SF : ∀ g p, @StrictFit SC (Reading.env g p)}.
Context (fuel : nat) {Out : Type}.
Context (encode : EntityGraph.t → OutputProfile → HGrid → B Out).
Context (service : t) (out : Outside) (strict : SCatalog → string → HDict → bool).

(** Validation leaves the limits alone. *)
Lemma steady_measure `{Ambient} n d v : steady (Sanitize.measure_at n d v).
Proof.
  revert d v. induction n as [|n IH]; intros d v; cbn [Sanitize.measure_at];
    (apply steady_bind; [apply steady_depth|intros _]); [apply steady_throw|].
  do 2 (apply steady_bind; [apply steady_charge|intros _]).
  assert (Hdict : ∀ m, steady (each (λ '(tag, v), charge BWork (str_len tag);; Sanitize.measure_at n (d + 1) v)
    (HDict.iter m))).
  { intros m. apply steady_each. intros [tag x]. apply steady_bind; [apply steady_charge|by intros _]. }
  destruct v; try apply steady_ret; [by apply steady_each|apply Hdict|by apply steady_each].
Qed.
Lemma steady_available g p ns term : steady_r (term_available g p ns term).
Proof.
  assert (Hbind : ∀ {A C} (m : R A) (k : A → R C), steady_r m → (∀ a, steady_r (k a)) →
    steady_r (@mbind _ (@Controlled.C_bind (Reading.env g p)) A C k m)) by (intros; by apply steady_r_bind).
  assert (Hand : ∀ m1 m2 : R bool, steady_r m1 → steady_r m2 →
    steady_r (Controlled.and_then (QE:=Reading.env g p) m1 m2)).
  { intros m1 m2 H1' H2'. apply Hbind; [done|]. intros []; [done|apply steady_r_ret]. }
  assert (Hcat : ∀ k name, steady_r (Controlled.op (QE:=Reading.env g p) (View.catalog_visible p k name))).
  { intros k name. apply steady_r_lift, steady_bind; [apply steady_charge|intros _]. apply steady_ret. }
  assert (Hcharge : ∀ k n, steady_r (Controlled.op (QE:=Reading.env g p) (charge k n)))
    by (intros; apply steady_r_lift, steady_charge).
  unfold term_available, Controlled.catalog_term_available.
  apply Hbind; [apply Hcharge|intros _]. apply Hbind; [apply Hcharge|intros _].
  destruct ns as [ns|]; [|apply steady_r_ret].
  destruct (Namespace.resolve_spec_term ns term) as [[s|name]|]; [apply Hand; apply Hcat| |apply steady_r_ret].
  apply Hbind; [apply Hcharge|intros _]. destruct (Namespace.get_def ns name); [apply Hand; apply Hcat|apply steady_r_ret].
Qed.
Lemma steady_validate g p q : steady_r (validate_query g p q).
Proof.
  destruct q as [|[node|]| | | | |]; try apply steady_r_ret. cbn [validate_query]. generalize 1%N.
  induction node as [path|path|path o v|l IHl r IHr|l IHl r IHr|term]; intros d; cbn [validate_ast];
    (apply steady_r_bind; [apply steady_r_lift, steady_depth|intros _]);
    (apply steady_r_bind; [apply steady_r_lift, steady_charge|intros _]); try apply steady_r_ret.
  - apply steady_r_lift, steady_bind; [apply steady_asks|]. intros n. apply steady_measure.
  - apply steady_r_bind; [done|by intros _].
  - apply steady_r_bind; [done|by intros _].
  - apply steady_r_bind; [apply steady_available|]. intros []; [apply steady_r_ret|apply steady_r_fail].
Qed.

(** Where a request starts: at the beginning, or behind the last row of the
    page whose cursor it gives, provided the code of the cursor is the
    service's, and the cursor was for the same request and the same state of
    the graph and has not expired. *)
Definition genuine (c : string) (l : bytes) : Prop :=
  base64_decode c = Some l ∧ length l = 48 ∧ hmac (cursor_key service) (take 16 l) = drop 16 l.
Definition starts (g : EntityGraph.t) (cursor : option string) (seen : CursorTable)
    (identity : RequestIdentity) (after : option string) : Prop :=
  match cursor with
  | None => after = None
  | Some c => ∃ l record, genuine c l ∧ entries seen !! take 16 l = Some record ∧
      cr_stamp record = stamp_of service g ∧ (lookup_now out < cr_expires record)%N ∧
      identity_eqb (cr_identity record) identity = true ∧ after = Some (cr_after record)
  end.

(** What a page leaves behind: nothing, or a cursor to what follows. *)
Definition leaves (g : EntityGraph.t) (identity : RequestIdentity) (page : ReadPage Out)
    (last : option string) (table table' : CursorTable) : Prop :=
  if pg_complete page then pg_cursor page = None ∧ table' = table
  else ∃ k n, last = Some k ∧
    pg_cursor page = Some (base64_encode (nonce out ++ hmac (cursor_key service) (nonce out))) ∧
    entries table' !! nonce out = Some (mkCursor identity (stamp_of service g) k
      (insert_now out + ReadLimits.cursor_ttl (service_limits service)) n).

Lemma admission_ok principal op b p b' :
  admission service principal op b = (Ok p, b') →
  policy service principal = Ok p ∧ p_operation p op = true ∧ limits b' = limits b.
Proof.
  intros Hrun. assert (Hlim : limits b' = limits b).
  { pose proof (steady_admission service principal op b) as Hs. by rewrite Hrun in Hs. }
  revert Hrun. unfold admission. intros (l & b1 & _ & Hrun)%b_bind_ok. case_match; [done|].
  destruct (_ <? _)%N; [done|]. apply b_bind_ok in Hrun as (u & b2 & _ & Hrun).
  destruct (policy service principal) as [p'|e]; [|done]. apply b_bind_ok in Hrun as (u' & b3 & _ & Hrun).
  destruct (p_operation p' op) eqn:Hop; [|done]. cbn [negb] in Hrun. destruct (_ <? _)%N; [done|].
  by injection Hrun as <- <-.
Qed.

Lemma lookup_ok c seen b x b' :
  lookup service out c seen b = (Ok x, b') →
  ∃ l record, genuine c l ∧ entries seen !! take 16 l = Some record ∧
    (lookup_now out < cr_expires record)%N ∧ x = (cr_identity record, cr_stamp record, cr_after record) ∧
    limits b' = limits b.
Proof.
  unfold lookup. destruct (negb _); [done|]. intros (u & b1 & Hc & Hrun)%b_bind_ok.
  destruct (base64_decode c) as [l|] eqn:Hdec; [|done].
  destruct (bool_decide_reflect (length l = 48)) as [Hlen|]; [cbn [negb] in Hrun|done].
  destruct (bool_decide_reflect (hmac (cursor_key service) (take 16 l) = drop 16 l)) as [Hmac|];
    [cbn [negb] in Hrun|done].
  apply b_bind_ok in Hrun as (u' & b2 & Ha & Hrun).
  destruct (entries seen !! take 16 l) as [record|] eqn:Hrec; [|done].
  destruct (N.leb_spec (cr_expires record) (lookup_now out)); [done|].
  apply b_bind_ok in Hrun as (after & b3 & Hcopy & [= <- <-]).
  pose proof (steady_charge BRetained 256 b) as H1'. rewrite Hc in H1'.
  pose proof (steady_acquire (lookup_misses out) b1) as H2'. rewrite Ha in H2'.
  pose proof (steady_copy (cr_after record) b2) as H3'. rewrite Hcopy in H3'. cbn in *.
  exists l, record. split_and!; [done..| |congruence].
  unfold copy_string in Hcopy. apply b_bind_ok in Hcopy as (? & ? & _ & Hcopy).
  by apply b_bind_ok in Hcopy as (? & ? & _ & [= <- _]).
Qed.

Lemma lookup_prior_ok prepared seen b prior b' :
  lookup_prior service out prepared seen b = (Ok prior, b') →
  limits b' = limits b ∧
  match pr_cursor prepared with
  | None => prior = None
  | Some c => ∃ l record, genuine c l ∧ entries seen !! take 16 l = Some record ∧
      (lookup_now out < cr_expires record)%N ∧
      identity_eqb (cr_identity record) (pr_identity prepared) = true ∧
      prior = Some (cr_identity record, cr_stamp record, cr_after record)
  end.
Proof.
  unfold lookup_prior. destruct (pr_cursor prepared) as [c|]; [|by intros [= <- <-]].
  intros (x & b1 & Hl & Hrun)%b_bind_ok.
  apply lookup_ok in Hl as (l & record & Hd & Hrec & Hexp & -> & Hlim). cbn [fst] in Hrun.
  destruct (identity_eqb _ _) eqn:Hid; [|done]. injection Hrun as <- <-.
  split; [done|]. exists l, record. done.
Qed.

Lemma page_grid_rows rows complete cursor b grid b' :
  page_grid rows complete cursor b = (Ok grid, b') → grid_rows grid = rows.
Proof.
  unfold page_grid. intros (? & ? & _ & Hrun)%b_bind_ok. apply b_bind_ok in Hrun as (? & ? & _ & Hrun).
  apply b_bind_ok in Hrun as (? & ? & _ & Hrun). apply b_bind_ok in Hrun as (? & ? & _ & Hrun).
  by injection Hrun as <- _.
Qed.

(** The parser, under the limits [L] and whatever its checks saw, made [node] of
    the text. *)
Definition parsed (L : ReadLimits.t) (text : string) (node : FilterNode) : Prop :=
  ∃ b, limits b = L ∧
    FilterParser.parse_filter_controlled (parse_check b) 0
      (mkLimits (ReadLimits.max_input_bytes L) (ReadLimits.max_ast_nodes L) (ReadLimits.max_ast_depth L))
      text = Some (Ok node).
(** What a query is normalized to. *)
Definition asks_for (L : ReadLimits.t) (q : ReadQuery) (n : NormalizedQuery) : Prop :=
  match q with
  | QIds ids => n = NIds (dedup (sort_strings ids))
  | QFilter text =>
      if decide (trim text = "*") then n = NFilter None
      else ∃ node, n = NFilter (Some node) ∧ parsed L (trim text) node
  | QNav parent => n = NNav parent
  | QDefinitions f => n = NDefinitions f
  | QLibraries => n = NLibraries
  | QSpecs l => n = NSpecs l
  | QSpec s => n = NSpec s
  end.
(** The identity of a request. *)
Definition identifies (L : ReadLimits.t) (p : PolicySnapshot) (principal : Principal)
    (request : ReadRequest) (identity : RequestIdentity) : Prop :=
  ∃ query, asks_for L (rq_query request) query ∧
    identity = mkIdentity query (dedup (sort_strings (rq_projection request))) (rq_page_size request)
                 (rq_profile request) principal (scope_key p).

Lemma normalize_query_ok q b n b' :
  normalize_query q b = Some (Ok n, b') → asks_for (limits b) q n.
Proof.
  unfold normalize_query, asks_for. destruct q as [|text| | | | |]; try by intros [= <- _].
  intros (node & b1 & Hp & [= <- _])%r_bind_ok. unfold parse_query in Hp. case_decide; [by injection Hp as <- _|].
  destruct (FilterParser.parse_filter_controlled _ _ _ _) as [[ast|[]]|] eqn:Hparse; try done;
    [|by destruct (verdict b interrupted)].
  injection Hp as <- _. exists ast. split; [done|]. by exists b.
Qed.
Lemma normalize_ok p request principal b prepared b' :
  normalize p request principal b = Some (Ok prepared, b') →
  limits b' = limits b ∧ pr_cursor prepared = rq_cursor request ∧
  identifies (limits b) p principal request (pr_identity prepared).
Proof.
  intros Hrun. split; [by eapply (steady_normalize p)|]. revert Hrun. unfold normalize.
  intros (l & b1 & Hl%lift_ok & Hrun)%r_bind_ok. injection Hl as <- <-. case_decide; [done|].
  destruct ((rq_page_size request =? 0)%N || _); [done|]. destruct (_ <? _)%N; [done|].
  destruct (match rq_query request with QIds _ => _ | _ => _ end); [done|]. cbv zeta in Hrun.
  destruct (_ <? _)%N; [done|]. apply r_bind_ok in Hrun as ([] & b2 & Hb2%lift_ok & Hrun).
  apply r_bind_ok in Hrun as ([] & b3 & Hb3%lift_ok & Hrun). apply r_bind_ok in Hrun as (q & b4 & Hq & Hrun).
  apply r_bind_ok in Hrun as (scope & ? & Hcopy%lift_ok & [= <- _]). cbn. split; [done|].
  match type of Hb2 with charge ?k ?n ?c = _ => pose proof (steady_charge k n c) as H2' end.
  match type of Hb3 with charge ?k ?n ?c = _ => pose proof (steady_charge k n c) as H3' end.
  rewrite Hb2 in H2'. rewrite Hb3 in H3'. cbn in H2', H3'.
  apply normalize_query_ok in Hq. rewrite H3', H2' in Hq. exists q. split; [done|].
  unfold copy_string in Hcopy. apply b_bind_ok in Hcopy as (? & ? & _ & Hcopy).
  by apply b_bind_ok in Hcopy as (? & ? & _ & [= <- _]).
Qed.

(** The catalog terms of a filter. *)
Fixpoint terms_of (node : FilterNode) : list string :=
  match node with
  | SpecMatch term => [term]
  | And l r | Or l r => terms_of l ++ terms_of r
  | _ => []
  end.
(** Every term of the query names a declaration the caller may see. *)
Definition permits (p : PolicySnapshot) (ns : Namespace.t) (q : NormalizedQuery) : Prop :=
  match q with
  | NFilter (Some node) => ∀ term, term ∈ terms_of node → CatalogPages.known p ns term = true
  | _ => True
  end.
Lemma validate_ok g p ns q b u b' :
  namespace g = Some ns → validate_query g p q b = Some (Ok u, b') → permits p ns q.
Proof.
  intros Hns. destruct q as [|[node|]| | | | |]; try done. cbn [validate_query permits].
  generalize 1%N. revert b b' u.
  induction node as [path|path|path o v|l IHl r IHr|l IHl r IHr|term]; intros b b' u d Hrun term' Hin;
    cbn [terms_of] in Hin; try (by apply elem_of_nil in Hin); cbn [validate_ast] in Hrun;
    apply r_bind_ok in Hrun as (? & b1 & _ & Hrun); apply r_bind_ok in Hrun as (? & b2 & _ & Hrun);
    apply r_bind_ok in Hrun as (found & b3 & Hx & Hrun).
  1,2: apply elem_of_app in Hin as [Hin|Hin]; [by eapply IHl|by eapply IHr].
  apply list_elem_of_singleton in Hin as ->. rewrite Hns in Hx.
  pose proof (gives_run _ _ _ _ _ _ (CatalogPages.available_gives g p (limits b2) ns term) eq_refl Hx) as <-.
  by destruct found.
Qed.

(** The read under the lock. *)
Lemma read_page_ok g p ns prepared prior b x b' :
  readable g p fuel (limits b) strict ns → over_entities (ri_query (pr_identity prepared)) = true →
  read_page fuel encode service out g p prepared prior b = Some (Ok x, b') →
  (∀ i old k, prior = Some (i, old, k) → old = stamp_of service g) ∧
  permits p ns (ri_query (pr_identity prepared)) ∧
  ∃ rows last grid b1 b2,
    (if reachable_parent g p (ri_query (pr_identity prepared))
     then page_of g p fuel (limits b) strict (pr_identity prepared) (match prior with Some (_, _, k) => Some k | None => None end)
     else ([], true, None)) = (rows, pg_complete x.1, last) ∧
    pg_row_count x.1 = len rows ∧ grid_rows grid = rows ∧
    encode g (ri_profile (pr_identity prepared)) grid b1 = (Ok (pg_output x.1), b2) ∧
    (if pg_complete x.1 then pg_cursor x.1 = None ∧ x.2 = None
     else last = x.2 ∧ is_Some last ∧
       pg_cursor x.1 = Some (base64_encode (nonce out ++ hmac (cursor_key service) (nonce out)))).
Proof.
  intros Hr Hq. unfold read_page. intros (u & b0 & Hacq%lift_ok & Hrun)%r_bind_ok.
  assert (Hb0 : limits b0 = limits b) by (pose proof (steady_acquire (graph_misses out) b) as Hs; by rewrite Hacq in Hs).
  destruct (match prior with Some _ => _ | None => _ end) eqn:Hst; [done|].
  split; [intros i old k ->; cbn in Hst; by apply negb_false_iff, bool_decide_eq_true in Hst|].
  apply r_bind_ok in Hrun as (u' & b1 & Hval & Hrun).
  split; [eapply validate_ok; [apply Hr|exact Hval]|].
  apply r_bind_ok in Hrun as ([[rows complete] last] & b2 & Hprod & Hrun).
  assert (Hb1 : limits b1 = limits b).
  { rewrite <-Hb0. by apply (steady_validate g p) in Hval. }
  pose proof (produce_gives g p fuel (limits b) strict ns Hr (pr_identity prepared)
    (match prior with Some (_, _, k) => Some k | None => None end) Hq) as Hg.
  pose proof (gives_run _ _ _ _ _ _ Hg Hb1 Hprod) as Hpage.
  apply r_bind_ok in Hrun as (pending & b3 & Hpend & Hrun).
  apply r_bind_ok in Hrun as (grid & b4 & Hgrid%lift_ok & Hrun).
  apply r_bind_ok in Hrun as (output & b5 & Henc%lift_ok & Hrun).
  apply page_grid_rows in Hgrid. exists rows, last, grid, b4, b5.
  destruct complete.
  - injection Hrun as <- _. cbn. split_and!; done.
  - destruct last as [k|]; [|done]. injection Hrun as <- _. cbn. split_and!; try done.
    apply r_bind_ok in Hpend as (t & b6 & Ht%lift_ok & [= <- _]). unfold token in Ht.
    by apply b_bind_ok in Ht as (? & ? & _ & [= <- _]).
Qed.

Definition entity_query (q : ReadQuery) : bool :=
  match q with QIds _ | QFilter _ | QNav _ => true | _ => false end.
Lemma asks_for_entities L q n : asks_for L q n → entity_query q = true → over_entities n = true.
Proof.
  destruct q; try done; cbn; [by intros ->| |by intros ->]. case_decide; [by intros ->|by intros (? & -> & _)].
Qed.

(** A read that returns a page. *)
Lemma execute_ok g ns principal request seen table b page table' b' :
  entity_query (rq_query request) = true →
  (∀ p, policy service principal = Ok p → readable g p fuel (limits b) strict ns) →
  execute_on_graph fuel encode service out g principal request seen table b = Some (Ok page, table', b') →
  ∃ p identity after rows last grid b1 b2,
    policy service principal = Ok p ∧
    p_operation p (query_operation (rq_query request)) = true ∧
    identifies (limits b) p principal request identity ∧
    permits p ns (ri_query identity) ∧
    starts g (rq_cursor request) seen identity after ∧
    (if reachable_parent g p (ri_query identity)
     then page_of g p fuel (limits b) strict identity after else ([], true, None))
      = (rows, pg_complete page, last) ∧
    pg_row_count page = len rows ∧ grid_rows grid = rows ∧
    encode g (ri_profile identity) grid b1 = (Ok (pg_output page), b2) ∧
    leaves g identity page last table table'.
Proof.
  intros Hq Hr. unfold execute_on_graph.
  destruct (prepare _ _ _ _ _ b) as [[[[[p prepared] prior]|e] b0]|] eqn:Hprep; [|done..].
  apply r_bind_ok in Hprep as (p' & b1 & Hadm%lift_ok & Hprep).
  apply r_bind_ok in Hprep as (prepared' & b2 & Hnorm & Hprep).
  apply r_bind_ok in Hprep as (prior' & b3 & Hprior%lift_ok & [= -> -> -> ->]).
  apply admission_ok in Hadm as (Hpol & Hop & Hb1).
  destruct (normalize_ok _ _ _ _ _ _ Hnorm) as (Hb2 & Hcur & Hid).
  apply lookup_prior_ok in Hprior as (Hb3 & Hprior). rewrite Hcur in Hprior.
  pose proof (Hr p Hpol) as Hread. assert (Hb0 : limits b0 = limits b) by congruence.
  rewrite <-Hb0 in Hread. rewrite Hb1 in Hid.
  destruct (read_page _ _ _ _ g p prepared prior b0) as [[[[pg next]|e] b4]|] eqn:Hpage; [|done..].
  apply (read_page_ok g p ns) in Hpage as (Hstamp & Hperm & rows & last & grid & b5 & b6 & Hrows & Hcount & Hgrid & Henc & Hnext);
    [|done|destruct Hid as (q & Ha & ->); by eapply asks_for_entities]. cbn [fst snd] in *. intros Hrun.
  rewrite Hb0 in Hrows.
  set (after := match prior with Some (_, _, k) => Some k | None => None end) in *.
  assert (Hpg : pg = page ∧ leaves g (pr_identity prepared) page last table table').
  { unfold leaves. destruct next as [k|].
    - destruct (insert _ _ _ _ _ _ _ _) as [[[u|e] t'] b7] eqn:Hins; [|done]. injection Hrun as -> -> _.
      destruct (pg_complete page); [by destruct Hnext|]. split; [done|]. destruct Hnext as (-> & _ & ->).
      apply insert_ok_entry in Hins as (n & Hn). by exists k, n.
    - injection Hrun as -> -> _. destruct (pg_complete page); [by destruct Hnext|].
      destruct Hnext as (-> & [? ?] & _). done. }
  destruct Hpg as [-> Hleaves].
  exists p, (pr_identity prepared), after, rows, last, grid, b5, b6.
  split_and!; try done. unfold starts, after. destruct (rq_cursor request) as [c|]; [|by rewrite Hprior].
  destruct Hprior as (l & record & Hd & Hrec & Hexp & Heq & ->). exists l, record.
  split_and!; try done. by eapply Hstamp.
Qed.
End execute.
End ReadServiceFacts.
