(* ===== verification/Command.v ===== *)
(** * Simulated commands: requests, schemas and the store

    [haystack-app/src/command.rs] and the data of [command/state.rs]: the
    request of a caller, the schema a writable point gives its values, the
    seventeen levels of a point and the store of all points with the count of
    the bytes it retains.

    Durations and readings of the simulator's clock are in nanoseconds.  A
    step the code would panic on (an index out of range, a subtraction below
    zero) is [None]. *)

From stdpp Require Import pretty.
From S2P Require Import Prelude Floats Kinds Text Units Xeto Controlled Changelog Graph Application.

(** ** Errors *)

(** [ApiError] of [typed_http.rs]. *)
Inductive ApiError : Type :=
| ApiInvalidArgs | ApiUnsupportedVersion | ApiUnsupportedMediaType | ApiNotAcceptable
| ApiNotImplemented | ApiInvalidPath
| ApiUnknownFunction (name : string)
| ApiAmbiguousFunction (name : string) (candidates : list string)
| ApiMethodNotAllowed | ApiSchemaMethodNotAllowed | ApiUnknownEntity | ApiPermission
| ApiAuthRequired | ApiAuthRejected | ApiAuthMalformed | ApiTimeout | ApiCommandUnknown
| ApiUnavailable | ApiInternal.
#[export] Instance ApiError_eq_dec : EqDecision ApiError.
Proof. solve_decision. Defined.

(** [ApiError::status]. *)
Definition api_status (e : ApiError) : N :=
  match e with
  | ApiInvalidArgs | ApiUnsupportedVersion | ApiAuthMalformed | ApiAmbiguousFunction _ _ => 400
  | ApiMethodNotAllowed | ApiSchemaMethodNotAllowed => 405
  | ApiAuthRequired => 401
  | ApiAuthRejected | ApiPermission => 403
  | ApiInvalidPath | ApiUnknownEntity | ApiUnknownFunction _ => 404
  | ApiNotAcceptable => 406
  | ApiUnsupportedMediaType => 415
  | ApiNotImplemented => 501
  | ApiTimeout | ApiCommandUnknown => 504
  | ApiUnavailable => 503
  | ApiInternal => 500
  end%N.

(** [From<ReadError> for ApiError]. *)
Definition api_error (e : ReadError) : ApiError :=
  match e with
  | Forbidden => ApiPermission
  | Deadline => ApiTimeout
  | Projection => ApiNotAcceptable
  | InvalidQuery _ | BudgetExceeded _ | UnitTooLarge | StaleCursor => ApiInvalidArgs
  | InvalidLimits => ApiInternal
  | _ => ApiUnavailable
  end.

(** ** Configuration *)

Inductive CommandAction : Type := Inspect | SetValue | Relinquish.
#[export] Instance CommandAction_eq_dec : EqDecision CommandAction.
Proof. solve_decision. Defined.

(** [trait CommandPolicySnapshot]. *)
Record CommandSnapshot : Type := mkCommandPolicy {
  c_scope_key : string;
  c_action : CommandAction → bool;
  c_point : string → CommandAction → bool
}.
(** [AllowAllSimulatedCommands]. *)
Definition AllowAllSimulatedCommands : CommandSnapshot :=
  mkCommandPolicy "allow-local-simulation-v1" (λ _, true) (λ _ _, true).

Inductive SimulatedCommandMode : Type := InspectOnly | Writable.
#[export] Instance SimulatedCommandMode_eq_dec : EqDecision SimulatedCommandMode.
Proof. solve_decision. Defined.

Module CommandLimits.
Record t : Type := mk {
  max_points : N; max_pending : N; max_retained_bytes : N; max_value_bytes : N; max_who_bytes : N;
  max_duration : N; maintenance_interval : N }.

(** [CommandLimits::default]. *)
Definition default : t := {|
  max_points := 128; max_pending := 32; max_retained_bytes := 16 * 1024 * 1024;
  max_value_bytes := 4096; max_who_bytes := 256; max_duration := secs 3600;
  maintenance_interval := millis 100 |}%N.

(** [CommandLimits::validate]. *)
Definition validate (l : t) : result ReadError unit :=
  if ((max_points l =? 0) || (4096 <? max_points l)
     || (max_pending l =? 0) || (1024 <? max_pending l)
     || (max_retained_bytes l =? 0) || (512 * 1024 * 1024 <? max_retained_bytes l)
     || (max_value_bytes l =? 0) || (65536 <? max_value_bytes l)
     || (max_who_bytes l =? 0) || (1024 <? max_who_bytes l)
     || (max_duration l =? 0) || (secs 86400 <? max_duration l)
     || (maintenance_interval l =? 0) || (secs 1 <? maintenance_interval l))%N
  then Err InvalidLimits else Ok ().
End CommandLimits.

(** [Duration::MAX], for [checked_add]. *)
Definition duration_max : N := (secs u64_max + 999999999)%N.

Module SimulatorClock.
(** [ClockSource]: the start of a real clock, or the ticks of a manual one. *)
Inductive t : Type := Realtime (start : N) | Manual (ticks : N).
(** [SimulatorClock::advance]. *)
Definition advance (duration : N) (c : t) : result ReadError t :=
  match c with
  | Realtime _ => Err (InvalidQuery "clock is not manual")
  | Manual ticks =>
      if (u64_max <? duration)%N then Err (InvalidQuery "clock overflow")
      else match checked_add u64_max ticks duration with
           | Some ticks => Ok (Manual ticks)
           | None => Err (InvalidQuery "clock overflow")
           end
  end.
(** [SimulatorClock::now]; [instant] is the reading of the machine's clock. *)
Definition now (instant : N) (c : t) : N :=
  match c with
  | Realtime start => (instant - start)%N
  | Manual ticks => ticks
  end.
End SimulatorClock.

(** ** Attempts *)

Module CommandAttempt.
(** The atomic cell: 0 open, 1 dispatched, 2 abandoned. *)
Definition compare_exchange (cell current new : N) : N * result N N :=
  if decide (cell = current) then (new, Ok cell) else (cell, Err cell).
(** [CommandAttempt::classify]. *)
Definition classify (cell : N) (error : ApiError) : N * ApiError :=
  let '(cell, r) := compare_exchange cell 0 2 in
  (cell, match r with
         | Ok _ => error
         | Err seen => if decide (seen = 2%N) then error else ApiCommandUnknown
         end).
(** [CommandAttempt::dispatch]. *)
Definition dispatch (cell : N) : N * result ApiError unit :=
  let '(cell, r) := compare_exchange cell 0 1 in
  (cell, match r with Ok _ => Ok () | Err _ => Err ApiUnavailable end).
End CommandAttempt.

(** ** Requests *)

Record CommandRequest : Type := mkCommand {
  cq_id : string;
  cq_level : option N;
  cq_value : option Kind;
  cq_who : option string;
  cq_duration : option N
}.
Definition is_null (v : Kind) : bool := match v with KNull => true | _ => false end.

Module CommandRequest.
(** [CommandRequest::inspect], [set] and [relinquish]. *)
Definition inspect (id : string) : CommandRequest := mkCommand id None None None None.
Definition set (id : string) (level : N) (value : Kind) : CommandRequest :=
  mkCommand id (Some level) (Some value) None None.
Definition relinquish (id : string) (level : N) : CommandRequest :=
  mkCommand id (Some level) None None None.
(** [CommandRequest::with_who] and [with_duration]. *)
Definition with_who (who : string) (r : CommandRequest) : CommandRequest :=
  mkCommand (cq_id r) (cq_level r) (cq_value r) (Some who) (cq_duration r).
Definition with_duration (d : N) (r : CommandRequest) : CommandRequest :=
  mkCommand (cq_id r) (cq_level r) (cq_value r) (cq_who r) (Some d).
(** [CommandRequest::action]. *)
Definition action (r : CommandRequest) : CommandAction :=
  match cq_level r with
  | None => Inspect
  | Some _ =>
      match cq_value r with
      | None => Relinquish
      | Some v => if is_null v then Relinquish else SetValue
      end
  end.
End CommandRequest.

(** ** Schemas *)

(** [f64::is_finite]. *)
Definition is_finite (a : F64.f64) : bool := bool_decide (F64.magnitude a < 0x7FF0000000000000)%Z.

Record Schema : Type := mkSchema {
  sch_kind : string; sch_unit : option string; sch_default : option Kind }.
(** The derived [PartialEq]. *)
Definition option_eqb {A} (f : A → A → bool) (a b : option A) : bool :=
  match a, b with
  | Some a, Some b => f a b
  | None, None => true
  | _, _ => false
  end.
Definition schema_eqb (a b : Schema) : bool :=
  bool_decide (sch_kind a = sch_kind b) && bool_decide (sch_unit a = sch_unit b)
  && option_eqb kind_eqb (sch_default a) (sch_default b).

Module Schema.
Section schema.
Context (reg : Units.t).

(** [Schema::normalize]. *)
Definition normalize (s : Schema) (v : Kind) (limit : N) : result ApiError Kind :=
  match v with
  | KBool _ => if bool_decide (sch_kind s = "Bool") then Ok v else Err ApiInvalidArgs
  | KStr t =>
      if bool_decide (sch_kind s = "Str") && (str_len t <=? limit)%N then Ok v
      else Err ApiInvalidArgs
  | KNumber n =>
      if bool_decide (sch_kind s = "Number") && is_finite (num_val n)
         && match num_unit n with
            | Some u => (str_len u <=? 128)%N && (str_len u <=? limit)%N
            | None => true
            end
         && match num_unit n with
            | None => true
            | Some u =>
                match Units.unit_for reg u with
                | Some unit => bool_decide ((sch_unit s ≫= Units.unit_for reg) = Some unit)
                | None => false
                end
            end
      then Ok (KNumber (mkNumber (num_val n) (sch_unit s))) else Err ApiInvalidArgs
  | _ => Err ApiInvalidArgs
  end.

Definition is_marker (v : option Kind) : bool :=
  match v with Some v => kind_eqb v KMarker | None => false end.

(** The unit of a row: only numbers have one, and it is a unit that is known. *)
Definition read_unit (row : HDict) (kind : string) : result ApiError (option string) :=
  match row !! "unit" with
  | None => Ok None
  | Some (KStr s) =>
      if bool_decide (kind = "Number") && (str_len s <=? 128)%N
         && bool_decide (is_Some (Units.unit_for reg s))
      then Ok (Some s) else Err ApiInvalidArgs
  | Some _ => Err ApiInvalidArgs
  end.

(** [Schema::read]. *)
Definition read (row : HDict) (limit : N) : result ApiError Schema :=
  if negb (is_marker (row !! "point")) || negb (is_marker (row !! "writable"))
  then Err ApiNotImplemented
  else match row !! "kind" with
  | Some (KStr kind) =>
      if negb (bool_decide (kind ∈ ["Bool"; "Number"; "Str"])) then Err ApiNotImplemented
      else match read_unit row kind with
      | Err e => Err e
      | Ok unit =>
          let schema := mkSchema kind unit None in
          match row !! "writeDef" with
          | None | Some KNull => Ok schema
          | Some v =>
              match normalize schema v limit with
              | Err e => Err e
              | Ok v => Ok (mkSchema kind unit (Some v))
              end
          end
      end
  | _ => Err ApiInvalidArgs
  end.
End schema.
End Schema.

(** ** Slots and points *)

Record Slot : Type := mkSlot {
  sl_value : option Kind;
  sl_who : option string;
  sl_generation : N;
  sl_deadline : option N
}.

(** [value_bytes]. *)
Definition value_bytes (v : Kind) : N :=
  match v with
  | KStr s => str_len s + 64
  | KNumber n => from_option str_len 0 (num_unit n) + 64
  | _ => 64
  end%N.

Module Slot.
Definition default : Slot := mkSlot None None 0 None.
(** [Slot::bytes]. *)
Definition bytes (s : Slot) : N :=
  (128 + from_option str_len 0 (sl_who s) + from_option value_bytes 0 (sl_value s))%N.
(** The part of [Store::expire] on one slot: whether it was due, and what is
    left of it. *)
Definition due (now : N) (s : Slot) : bool :=
  match sl_deadline s with Some d => (d <=? now)%N | None => false end.
Definition expire (now : N) (s : Slot) : Slot :=
  if due now s then mkSlot None (sl_who s) (sl_generation s) None else s.
End Slot.

Definition sumN (l : list N) : N := foldr N.add 0%N l.
Definition maxN (l : list N) : N := foldr N.max 0%N l.

Record Point : Type := mkPoint {
  pt_schema : Schema;
  pt_graph : GraphState;
  pt_slots : list Slot;
  pt_effective : option Kind;
  pt_level : N
}.

Module Point.
(** [slots.iter().enumerate().find_map(..)], with the level. *)
Fixpoint first_value (level : N) (slots : list Slot) : option (Kind * N) :=
  match slots with
  | [] => None
  | s :: slots =>
      match sl_value s with
      | Some v => Some (v, level)
      | None => first_value (level + 1) slots
      end
  end.
(** [Point::resolve]. *)
Definition resolve (p : Point) : Point :=
  match first_value 1 (pt_slots p) with
  | Some (v, level) => mkPoint (pt_schema p) (pt_graph p) (pt_slots p) (Some v) level
  | None => mkPoint (pt_schema p) (pt_graph p) (pt_slots p) None 17
  end.
(** [Point::new]. *)
Definition new (schema : Schema) (graph : GraphState) : Point :=
  resolve (mkPoint schema graph
    (replicate 16 Slot.default ++ [mkSlot (sch_default schema) None 0 None]) None 17).
(** [Point::bytes]. *)
Definition bytes (p : Point) (id : string) : N :=
  (str_len id + 512 + from_option str_len 0 (sch_unit (pt_schema p))
   + from_option value_bytes 0 (sch_default (pt_schema p))
   + sumN (Slot.bytes <$> pt_slots p)
   + maxN (value_bytes <$> omap sl_value (pt_slots p)))%N.
Definition set_slots (slots : list Slot) (p : Point) : Point :=
  mkPoint (pt_schema p) (pt_graph p) slots (pt_effective p) (pt_level p).
End Point.

(** ** The store *)

Module Store.
Record t : Type := mk { points : gmap string Point; bytes : N }.
Definition default : t := mk ∅ 0.

(** [usize] subtraction. *)
Definition checked_sub (a b : N) : option N := if decide (b ≤ a)%N then Some (a - b)%N else None.

(** The body of the loop of [Store::expire]. *)
Definition expire_point (now : N) (s : t) (entry : string * Point) : option t :=
  let '(id, p) := entry in
  let before := Point.bytes p id in
  let expired := existsb (Slot.due now) (pt_slots p) in
  let p := Point.set_slots (Slot.expire now <$> pt_slots p) p in
  if expired : bool then
    let p := Point.resolve p in
    rest ← checked_sub (bytes s) before;
    Some (mk (<[id := p]> (points s)) (rest + Point.bytes p id)%N)
  else Some (mk (<[id := p]> (points s)) (bytes s)).
(** [Store::expire]. *)
Fixpoint expire_points (now : N) (s : t) (entries : list (string * Point)) : option t :=
  match entries with
  | [] => Some s
  | e :: entries => s ← expire_point now s e; expire_points now s entries
  end.
Definition expire (now : N) (s : t) : option t := expire_points now s (btree_iter (points s)).
End Store.
