(* ===== verification/CommandExecute.v ===== *)
(** * Executing commands

    [SimulatedCommandService::execute], [maintain], [available] and [submit]
    of [haystack-app/src/command.rs] and [command/state.rs].

    A command is prepared against the graph, and then published in one
    critical section, under the lock of the store and the read lock of the
    graph; both are only tried, and a try that fails is charged and starts
    over.  The store is touched nowhere else, so the [World] a command runs in
    holds the store at its critical section; what other threads decide - the
    policies at each stage, the graph at each reading, the clock, the tries
    that fail, the attempt cell - is the [Scene] and the cell of the [World].

    The monad [K] threads the [World], leaves with an [ApiError], and is
    [None] where the code would panic or the loop runs out of fuel. *)

From stdpp Require Import pretty.
From S2P Require Import Prelude Floats Kinds Extern Bitmap Adjacency ValueIndex Filter Text Units Taxonomy Xeto Namespace Controlled Changelog Graph Application Sanitize Command.

(** What a check of the simulator sees after the check of the budget: the
    session and the flags of the service. *)
Record Glimpse : Type := mkGlimpse {
  gl_closed : bool; gl_now : N; gl_started : bool; gl_stopped : bool }.
Class Simulator : Type := glimpse : nat → Glimpse.

(** [SubscriptionSession], the closed flag apart. *)
Record SubscriptionSession : Type := mkSession {
  se_principal : Principal; se_expires : option N; se_scoped : bool }.
Module SubscriptionSession.
(** [SubscriptionSession::new]. *)
Definition new (p : Principal) (expires : option N) (scoped : bool) : result ReadError SubscriptionSession :=
  if match p with Authenticated _ permissions => (1024 <? len permissions)%N | _ => false end
  then Err InvalidLimits
  else if (65536 <? Principal.bytes p)%N then Err InvalidLimits
  else Ok (mkSession p expires scoped).
(** [SubscriptionSession::authenticated]. *)
Definition authenticated (p : Principal) (expires : N) : result ReadError SubscriptionSession :=
  match p with
  | Authenticated _ _ => new p (Some expires) true
  | _ => Err Forbidden
  end.
(** [SubscriptionSession::reason], whether there is one. *)
Definition is_active (s : SubscriptionSession) (closed : bool) (now : N) : bool :=
  negb closed && match se_expires s with Some e => negb (e <=? now)%N | None => true end.
(** [SubscriptionSession::matches]. *)
Definition matches (s : SubscriptionSession) (p : Principal) : bool := bool_decide (se_principal s = p).
End SubscriptionSession.

(** The calls of the policies: at the preparation, at each try to publish, at
    the disclosure check and at the end. *)
Inductive Stage : Type := AtPrepare | AtTry (i : nat) | AtDisclosure | AtEnd.
(** A try to publish: the store is locked, the graph is locked, or neither. *)
Inductive Busy : Type := StoreBusy | GraphBusy | Free.

Section scene.
Context {RB : Roaring} {CM : CacheMap} {FS : FilterSyntax} {ON : Ontology} {CA : Catalog}.

Record Scene : Type := mkScene {
  sc_command : Stage → result ReadError CommandSnapshot;
  sc_read : Stage → result ReadError PolicySnapshot;
  sc_native : bool;
  sc_misses : nat;
  sc_prepared : EntityGraph.t;
  sc_busy : nat → Busy;
  sc_published : EntityGraph.t;
  sc_expire_at : N;
  sc_set_at : N;
  sc_disclosure : Glimpse;
  sc_current : option GraphState
}.

(** The parts of [CommandInner] that do not change. *)
Record CommandService : Type := mkService {
  cs_mode : SimulatedCommandMode; cs_limits : CommandLimits.t }.

(** What a command reads and writes. *)
Record World : Type := mkWorld {
  w_budget : Meter.Budget;
  w_store : Store.t;
  w_attempt : option N;
  w_pending : N
}.
Definition set_budget (b : Meter.Budget) (w : World) : World :=
  mkWorld b (w_store w) (w_attempt w) (w_pending w).
Definition set_store (s : Store.t) (w : World) : World :=
  mkWorld (w_budget w) s (w_attempt w) (w_pending w).
Definition set_attempt (a : option N) (w : World) : World :=
  mkWorld (w_budget w) (w_store w) a (w_pending w).
Definition set_pending (n : N) (w : World) : World :=
  mkWorld (w_budget w) (w_store w) (w_attempt w) n.
End scene.

Module Simulate.
Import Meter.

Definition K (A : Type) : Type := World → option (result ApiError A * World).
#[export] Instance K_ret : MRet K := λ A a w, Some (Ok a, w).
#[export] Instance K_bind : MBind K := λ A C k m w,
  match m w with
  | Some (Ok a, w) => k a w
  | Some (Err e, w) => Some (Err e, w)
  | None => None
  end.
Definition fail {A} (e : ApiError) : K A := λ w, Some (Err e, w).
Definition gets {A} (f : World → A) : K A := λ w, Some (Ok (f w), w).
Definition modify (f : World → World) : K unit := λ w, Some (Ok (), f w).
(** A step the code would panic on. *)
Definition must {A} (o : option A) : K A := λ w, match o with Some a => Some (Ok a, w) | None => None end.
(** The [?] on an [ApiError] and on a [ReadError]. *)
Definition try {A} (r : result ApiError A) : K A := λ w, Some (r, w).
Definition or_read {A} (r : result ReadError A) : K A :=
  try (match r with Ok a => Ok a | Err e => Err (api_error e) end).
Definition guard (ok : bool) (e : ApiError) : K unit := if ok then mret () else fail e.
(** A metered computation, with errors of the application interface or of a
    read. *)
Definition lift_api {A} (m : Budget → result ApiError A * Budget) : K A := λ w,
  let '(r, b) := m (w_budget w) in Some (r, set_budget b w).
Definition lift {A} (m : B A) : K A :=
  lift_api (λ b, let '(r, b) := m b in
                 (match r with Ok a => Ok a | Err e => Err (api_error e) end, b)).
Fixpoint fold_k {A S} (f : S → A → K S) (s : S) (l : list A) : K S :=
  match l with
  | [] => mret s
  | a :: l => s ← f s a; fold_k f s l
  end.

(** [SimulatedCommandService::transport]. *)
Definition transport (p : Principal) (a : CommandAction) : bool :=
  match p with
  | Anonymous => false
  | TrustedEmbedding _ => true
  | Authenticated _ permissions =>
      existsb (λ q, bool_decide (q = "admin")
                    || bool_decide (q = if bool_decide (a = Inspect) then "read" else "write"))
        permissions
  end.

(** The subject a principal acts as. *)
Definition subject (p : Principal) : option string :=
  match p with
  | Authenticated s _ | TrustedEmbedding s => Some s
  | Anonymous => None
  end.

(** The tags that make the schema of a point. *)
Definition schema_tags : list string := ["point"; "writable"; "kind"; "unit"; "writeDef"].

(** [SimulatedCommandService::available]. *)
Definition available (mode : SimulatedCommandMode) (snapshot : result ReadError CommandSnapshot)
    (p : Principal) : bool :=
  match snapshot with
  | Err _ => false
  | Ok policy =>
      existsb (λ a, transport p a && c_action policy a
                    && (bool_decide (a = Inspect) || bool_decide (mode = Writable)))
        [Inspect; SetValue; Relinquish]
  end.

Section simulate.
Context {HO : HashOrder} {RB : Roaring} {CM : CacheMap} {FS : FilterSyntax} {ON : Ontology} {CA : Catalog}.
Context {AM : Ambient} {SI : Simulator}.
Context (reg : Units.t) (service : CommandService) (scene : Scene).

(** [Budget::check_catalog]. *)
Definition check_catalog (g : EntityGraph.t) : B unit :=
  pinned ← asks typed_catalog;
  match pinned with
  | Some expected =>
      if match EntityGraph.activated g with
         | Some current => bool_decide (arc_ptr current = expected)
         | None => false
         end then mret () else throw Unavailable
  | None => mret ()
  end.

(** [SimulatedCommandService::check]. *)
Definition check_command (session : SubscriptionSession) : K unit :=
  k ← gets (λ w, ticks (w_budget w));
  lift check;;
  let seen := glimpse k in
  guard (se_scoped session && SubscriptionSession.is_active session (gl_closed seen) (gl_now seen))
    ApiPermission;;
  guard (gl_started seen && negb (gl_stopped seen) && negb (owner_sealed (moments k))) ApiUnavailable.

(** The guards on the request itself. *)
Definition well_formed (request : CommandRequest) : bool :=
  let l := cs_limits service in
  negb (bool_decide (cq_id request = "")
     || (CommandLimits.max_value_bytes l <? str_len (cq_id request))%N
     || match cq_level request with Some n => negb ((1 <=? n) && (n <=? 17))%N | None => false end
     || match cq_duration request with
        | Some d =>
            (d =? 0)%N || (CommandLimits.max_duration l <? d)%N
            || negb (bool_decide (cq_level request = Some 8%N))
            || negb (bool_decide (CommandRequest.action request = SetValue))
        | None => false
        end).

(** The preparation up to the policies: who the command is attributed to. *)
Definition authorize (principal : Principal) (session : SubscriptionSession)
    (request : CommandRequest) (expected : option string)
    : K (CommandSnapshot * PolicySnapshot * string) :=
  let action := CommandRequest.action request in
  let id := cq_id request in
  check_command session;;
  guard (SubscriptionSession.matches session principal) ApiPermission;;
  guard (transport principal action) ApiPermission;;
  guard (bool_decide (action = Inspect) || bool_decide (cs_mode service = Writable)) ApiNotImplemented;;
  guard (well_formed request) ApiInvalidArgs;;
  command ← or_read (sc_command scene AtPrepare);
  policy ← or_read (sc_read scene AtPrepare);
  guard (negb ((1024 <? str_len (c_scope_key command)) || (1024 <? str_len (scope_key policy)))%N)
    ApiUnavailable;;
  guard (c_action command action) ApiPermission;;
  guard (match expected with Some s => bool_decide (s = scope_key policy) | None => true end) ApiPermission;;
  guard (negb (bool_decide (action = Inspect)) || p_operation policy OpRead) ApiPermission;;
  guard (c_point command id action && p_entity policy id && p_tag policy id "id") ApiUnknownEntity;;
  guard (forallb (p_tag policy id) schema_tags) ApiUnknownEntity;;
  subject ← try (match subject principal with Some s => Ok s | None => Err ApiPermission end);
  let who := default subject (cq_who request) in
  guard (str_len who <=? CommandLimits.max_who_bytes (cs_limits service))%N ApiInvalidArgs;;
  mret (command, policy, who).

(** The schema of the point and the state of the graph it was read in. *)
Definition observe (id : string) : K (Schema * GraphState) :=
  lift (each (λ _, wait_quantum;; mret ()) (seq 0 (S (sc_misses scene))));;
  lift (check_catalog (sc_prepared scene));;
  row ← try (match EntityGraph.get (sc_prepared scene) id with
             | Some row => Ok row
             | None => Err ApiUnknownEntity
             end);
  schema ← try (Schema.read reg row (CommandLimits.max_value_bytes (cs_limits service)));
  mret (schema, EntityGraph.state (sc_prepared scene)).

(** Whether a change of the point leaves its schema alone. *)
Definition diff_keeps (id : string) (schema : Schema) (d : GraphDiff) : bool :=
  negb (bool_decide (diff_ref d = id))
  || negb (bool_decide (diff_op d = DRemove)
           || match changed_tags d with
              | Some tags => existsb (HDict.has tags) schema_tags
              | None => false
              end
           || match diff_new d with
              | Some row =>
                  match Schema.read reg row (CommandLimits.max_value_bytes (cs_limits service)) with
                  | Ok s => negb (schema_eqb s schema)
                  | Err _ => true
                  end
              | None => false
              end).
(** The guards on a point the store already has. *)
Definition still_bound (id : string) (p : Point) (schema : Schema) (observed : GraphState) : K unit :=
  let g := sc_published scene in
  guard (schema_eqb (pt_schema p) schema
         && bool_decide (state_incarnation (pt_graph p) = state_incarnation observed)
         && bool_decide (state_catalog (pt_graph p) = state_catalog observed)) ApiUnavailable;;
  start ← try (match ChangeLog.change_units_since (EntityGraph.changelog g) (EntityGraph.version g)
                       (state_revision (pt_graph p)) with
               | Ok n => Ok n
               | Err _ => Err ApiUnavailable
               end);
  let log := ChangeLog.log (EntityGraph.changelog g) in
  fold_k (λ _ unit,
      lift (charge BWork (len unit + 1)%N);;
      guard (forallb (diff_keeps id (pt_schema p)) unit) ApiUnavailable)
    () (ChangeLog.drain (length log) log start).

(** The slot a command leaves. *)
Definition write_slot (request : CommandRequest) (value : option Kind) (who : string) (slot : Slot)
    : result ApiError Slot :=
  match checked_add u64_max (sl_generation slot) 1 with
  | None => Err ApiUnavailable
  | Some generation =>
      match cq_duration request with
      | None => Ok (mkSlot value (Some who) generation None)
      | Some d =>
          match checked_add duration_max (sc_set_at scene) d with
          | None => Err ApiInvalidArgs
          | Some deadline => Ok (mkSlot value (Some who) generation (Some deadline))
          end
      end
  end.
(** The point a command leaves. *)
Definition write_point (request : CommandRequest) (value : option Kind) (who : string) (p : Point)
    : K Point :=
  match cq_level request with
  | None => mret (Point.resolve p)
  | Some level =>
      slot ← must (pt_slots p !! N.to_nat (level - 1));
      slot ← try (write_slot request value who slot);
      mret (Point.resolve (Point.set_slots (<[N.to_nat (level - 1) := slot]> (pt_slots p)) p))
  end.

(** The critical section. *)
Definition publish (session : SubscriptionSession) (request : CommandRequest) (schema : Schema)
    (observed : GraphState) (value : option Kind) (who : string) : K (list Slot) :=
  let id := cq_id request in
  let l := cs_limits service in
  lift (check_catalog (sc_published scene));;
  guard (bool_decide (EntityGraph.state (sc_published scene) = observed)) ApiUnavailable;;
  check_command session;;
  store ← gets w_store;
  store ← must (Store.expire (sc_expire_at scene) store);
  modify (set_store store);;
  match Store.points store !! id with
  | Some p => still_bound id p schema observed
  | None => guard (N.of_nat (size (Store.points store)) <? CommandLimits.max_points l)%N ApiUnavailable
  end;;
  let point := match Store.points store !! id with
               | Some p => mkPoint (pt_schema p) observed (pt_slots p) (pt_effective p) (pt_level p)
               | None => Point.new schema observed
               end in
  point ← write_point request value who point;
  let before := match Store.points store !! id with Some p => Point.bytes p id | None => 0%N end in
  total ← try (match checked_add usize_max (Store.bytes store - before) (Point.bytes point id) with
               | Some n => Ok n
               | None => Err ApiUnavailable
               end);
  guard (total <=? CommandLimits.max_retained_bytes l)%N ApiUnavailable;;
  check_command session;;
  (if bool_decide (CommandRequest.action request = Inspect) then mret ()
   else
     cell ← gets w_attempt;
     match cell with
     | None => fail ApiInternal
     | Some cell =>
         let '(cell, r) := CommandAttempt.dispatch cell in
         modify (set_attempt (Some cell));; try r
     end);;
  modify (set_store (Store.mk (<[id := point]> (Store.points store)) total));;
  mret (pt_slots point).

(** The loop around the critical section, with the authority it went through
    with. *)
Fixpoint tries (fuel : nat) (i : nat) (session : SubscriptionSession) (request : CommandRequest)
    (schema : Schema) (observed : GraphState) (value : option Kind) (who : string)
    (command : CommandSnapshot) (policy : PolicySnapshot)
    : K (list Slot * CommandSnapshot * PolicySnapshot) :=
  match fuel with
  | 0 => must None
  | S fuel =>
      check_command session;;
      command' ← or_read (sc_command scene (AtTry i));
      policy' ← or_read (sc_read scene (AtTry i));
      guard (bool_decide (c_scope_key command' = c_scope_key command)
             && bool_decide (scope_key policy' = scope_key policy)) ApiPermission;;
      match sc_busy scene i with
      | StoreBusy =>
          lift (wait_quantum);;
          lift (charge BWork 1);;
          tries fuel (S i) session request schema observed value who command policy
      | GraphBusy =>
          lift (charge BWork 1);;
          tries fuel (S i) session request schema observed value who command policy
      | Free =>
          slots ← publish session request schema observed value who;
          mret (slots, command', policy')
      end
  end.

(** The row of a level. *)
Definition level_dis (n : nat) : string :=
  match n with
  | 1 => "Emergency Override"
  | 8 => "Manual Override"
  | 17 => "Default"
  | n => "Level " +:+ pretty (N.of_nat n)
  end.
Definition level_row (index : nat) (slot : Slot) : HDict :=
  let row := HDict.set HDict.new "level" (KNumber (mkNumber (F64.of_usize (N.of_nat (index + 1))) None)) in
  let row := HDict.set row "levelDis" (KStr (level_dis (index + 1))) in
  let row := match sl_value slot with Some v => HDict.set row "val" v | None => row end in
  match sl_who slot with Some who => HDict.set row "who" (KStr who) | None => row end.
(** The grid of an inspection; the other actions answer an empty one. *)
Definition inspection (action : CommandAction) (id : string) (policy : PolicySnapshot) (slots : list Slot)
    : K HGrid :=
  if negb (bool_decide (action = Inspect)) then mret (mkHGrid ∅ [] [])
  else
    rows ← fold_k (λ rows '(index, slot),
        row ← lift (Sanitize.record policy id (level_row index slot));
        row ← try (match row with Some row => Ok row | None => Err ApiUnknownEntity end);
        mret (rows ++ [row])) [] (imap pair slots);
    mret (mkHGrid ∅ ((λ name, mkHCol name ∅) <$> ["level"; "levelDis"; "val"; "who"]) rows).

(** The closure [command_disclosure]. *)
Definition disclosure (session : SubscriptionSession) (read_scope command_scope : string)
    (observed : GraphState) : result ApiError unit :=
  let seen := sc_disclosure scene in
  if negb (SubscriptionSession.is_active session (gl_closed seen) (gl_now seen)) || gl_stopped seen
  then Err ApiPermission
  else match sc_read scene AtDisclosure with
  | Err e => Err (api_error e)
  | Ok policy =>
      if negb (bool_decide (scope_key policy = read_scope)) then Err ApiPermission
      else match sc_command scene AtDisclosure with
      | Err e => Err (api_error e)
      | Ok command =>
          if negb (bool_decide (c_scope_key command = command_scope)) then Err ApiPermission
          else if negb (bool_decide (sc_current scene = Some observed)) then Err ApiUnavailable
          else Ok ()
      end
  end.

(** The body of [SimulatedCommandService::execute], the counter apart. *)
Definition run {T} (fuel : nat) (principal : Principal) (session : SubscriptionSession)
    (request : CommandRequest) (expected : option string) (encode : HGrid → Budget → result ApiError T * Budget) : K T :=
  let action := CommandRequest.action request in
  let l := cs_limits service in
  '(command, policy, who) ← authorize principal session request expected;
  lift (charge BRetained (4096 + saturating_mul (CommandLimits.max_value_bytes l) 40
                          + saturating_mul (CommandLimits.max_who_bytes l) 34
                          + str_len (cq_id request))%N);;
  guard (sc_native scene) ApiUnavailable;;
  '(schema, observed) ← observe (cq_id request);
  value ← (if bool_decide (action = SetValue) then
             v ← try (match cq_value request with Some v => Ok v | None => Err ApiInvalidArgs end);
             v ← try (Schema.normalize reg schema v (CommandLimits.max_value_bytes l));
             mret (Some v)
           else mret None);
  '(slots, command', policy') ←
    tries fuel 0 session request schema observed value who command policy;
  grid ← inspection action (cq_id request) policy' slots;
  result ← lift_api (encode grid);
  check_command session;;
  try (disclosure session (scope_key policy) (c_scope_key command) observed);;
  current ← or_read (sc_read scene AtEnd);
  last ← or_read (sc_command scene AtEnd);
  guard (bool_decide (scope_key current = scope_key policy')
         && bool_decide (c_scope_key last = c_scope_key command')) ApiPermission;;
  mret result.

(** [SimulatedCommandService::execute]: the counter of pending commands is
    given back on every way out. *)
Definition execute {T} (fuel : nat) (principal : Principal) (session : SubscriptionSession)
    (request : CommandRequest) (expected : option string) (encode : HGrid → Budget → result ApiError T * Budget) : K T := λ w,
  if (w_pending w <? CommandLimits.max_pending (cs_limits service))%N then
    '(r, w) ← run fuel principal session request expected encode
                (set_pending (w_pending w + 1)%N w);
    Some (r, set_pending (w_pending w - 1)%N w)
  else Some (Err ApiUnavailable, w).

(** [SimulatedCommandService::maintain]: the lock is only tried. *)
Definition maintain (locked : bool) (now : N) (s : Store.t) : option Store.t :=
  if locked then Some s else Store.expire now s.
End simulate.

(** [CommandOutcome] and the end of [submit]. *)
Inductive CommandOutcome : Type :=
| Inspection (grid : HGrid)
| Accepted
| Rejected (e : ApiError)
| Unknown.
Definition conclude (inspect : bool) (result : result ApiError HGrid) (cell : N) : N * CommandOutcome :=
  match result with
  | Ok grid => (cell, if inspect then Inspection grid else Accepted)
  | Err e =>
      let '(cell, e) := CommandAttempt.classify cell e in
      (cell, if bool_decide (e = ApiCommandUnknown) then Unknown else Rejected e)
  end.

(** How [run_task] returns: with the result of the task, or because the caller
    stopped, and then before or after the task's critical section. *)
Inductive Race : Type := Awaited | StoppedBefore (e : ReadError) | StoppedAfter (e : ReadError).

(** [SimulatedCommandService::submit]; [admitted] is the admission with its
    budget.  The task goes on when the caller has stopped. *)
Definition submit {HO : HashOrder} {RB : Roaring} {CM : CacheMap} {FS : FilterSyntax} {ON : Ontology}
    {CA : Catalog} {AM : Ambient} {SI : Simulator}
    (reg : Units.t) (service : CommandService) (scene : Scene) (fuel : nat) (principal : Principal)
    (session : SubscriptionSession) (request : CommandRequest) (admitted : result ReadError Budget)
    (race : Race) (store : Store.t) (pending : N) : option (CommandOutcome * Store.t * N) :=
  if negb (SubscriptionSession.matches session principal)
  then Some (Rejected ApiPermission, store, pending)
  else match admitted with
  | Err e => Some (Rejected (api_error e), store, pending)
  | Ok b =>
      let inspect := bool_decide (CommandRequest.action request = Inspect) in
      let task cell :=
        '(r, w) ← execute reg service scene fuel principal session request None (λ grid b, (Ok grid, b))
                    (mkWorld b store (Some cell) pending);
        Some (r, default 0%N (w_attempt w), w) in
      match race with
      | StoppedBefore e =>
          let '(cell, outcome) := conclude inspect (Err (api_error e)) 0 in
          '(_, _, w) ← task cell;
          Some (outcome, w_store w, w_pending w)
      | StoppedAfter e =>
          '(_, cell, w) ← task 0%N;
          Some ((conclude inspect (Err (api_error e)) cell).2, w_store w, w_pending w)
      | Awaited =>
          '(r, cell, w) ← task 0%N;
          Some ((conclude inspect r cell).2, w_store w, w_pending w)
      end
  end.
End Simulate.
