(* ===== verification/CommandFacts.v ===== *)
(** * The store of the simulator

    What holds of every point and of the store ([Store.ok]), and what expiry
    does to them: a due slot loses its value and its deadline and keeps the
    rest, the effective value is the first one left, and the byte count stays
    exact. *)

From S2P Require Import Prelude Floats Kinds Text Units Xeto Controlled Changelog Graph Application Command.

(** ** Sums *)

Lemma sumN_le (l k : list N) : Forall2 N.le l k → (sumN l ≤ sumN k)%N.
Proof. unfold sumN. induction 1 as [|x y l k Hxy Hlk IH]; cbn; [done|lia]. Qed.
Lemma maxN_le (l : list N) n : Forall (λ x, x ≤ n)%N l → (maxN l ≤ n)%N.
Proof. unfold maxN. induction 1 as [|x l Hx Hl IH]; cbn; lia. Qed.
Lemma maxN_in (l : list N) n : n ∈ l → (n ≤ maxN l)%N.
Proof. unfold maxN. induction 1 as [x l|x y l Hin IH]; cbn; lia. Qed.

(** ** Values *)

(** A value of the kind and the unit of a schema. *)
Definition typed (s : Schema) (v : Kind) : Prop :=
  match v with
  | KBool _ => sch_kind s = "Bool"
  | KStr _ => sch_kind s = "Str"
  | KNumber n => sch_kind s = "Number" ∧ is_finite (num_val n) = true ∧ num_unit n = sch_unit s
  | _ => False
  end.
Lemma typed_not_null s v : typed s v → is_null v = false.
Proof. by destruct v. Qed.

Lemma normalize_typed reg s v limit v' :
  Schema.normalize reg s v limit = Ok v' → typed s v'.
Proof.
  destruct v; cbn; try done; intros Hn.
  - case_bool_decide; [|done]. by injection Hn as <-.
  - destruct (_ && _) eqn:Hc; [|done]. injection Hn as <-. cbn.
    rewrite !andb_true_iff in Hc. destruct Hc as [[[Hk%bool_decide_eq_true Hf] _] _]. done.
  - destruct (_ && _) eqn:Hc; [|done]. injection Hn as <-. cbn.
    rewrite andb_true_iff in Hc. by destruct Hc as [Hk%bool_decide_eq_true _].
Qed.

(** The schemas of rows: the default has the kind and unit of the schema. *)
Definition schema_ok (s : Schema) : Prop := ∀ v, sch_default s = Some v → typed s v.
Lemma read_schema_ok reg row limit s : Schema.read reg row limit = Ok s → schema_ok s.
Proof.
  unfold Schema.read. destruct (_ || _); [done|].
  destruct (row !! "kind") as [[]|]; try done.
  destruct (negb (bool_decide _)); [done|]. cbv zeta. destruct (Schema.read_unit _ _ _) as [unit|]; [|done].
  destruct (row !! "writeDef") as [d|]; [|by intros [= <-]].
  assert (Hgen : match Schema.normalize reg (mkSchema v unit None) d limit with
                 | Ok d => Ok (mkSchema v unit (Some d)) | Err e => Err e end = Ok s → schema_ok s).
  { destruct (Schema.normalize _ _ _ _) as [d'|] eqn:Hd; [|done].
    intros [= <-] x. cbn. intros [= <-]. apply normalize_typed in Hd. by destruct d'. }
  destruct d; try exact Hgen. by intros [= <-].
Qed.

(** ** Slots and points *)

Lemma slot_expire_bytes now s : (Slot.bytes (Slot.expire now s) ≤ Slot.bytes s)%N.
Proof. unfold Slot.expire. destruct (Slot.due now s); [|done]. unfold Slot.bytes. cbn. lia. Qed.
Lemma slot_expire_value now s v : sl_value (Slot.expire now s) = Some v → sl_value s = Some v.
Proof. unfold Slot.expire. by destruct (Slot.due now s). Qed.
Lemma slot_expire_idle now s : Slot.due now s = false → Slot.expire now s = s.
Proof. unfold Slot.expire. by intros ->. Qed.
Lemma slot_expire_due now now' s :
  (now' ≤ now)%N → Slot.due now' (Slot.expire now s) = false.
Proof.
  intros Hle. unfold Slot.expire. destruct (Slot.due now s) eqn:Hd; [done|].
  unfold Slot.due in *. destruct (sl_deadline s); [|done]. apply N.leb_gt in Hd.
  apply N.leb_gt. lia.
Qed.
Lemma slot_expire_twice now now' s :
  (now ≤ now')%N → Slot.expire now' (Slot.expire now s) = Slot.expire now' s.
Proof.
  intros Hle. unfold Slot.expire at 2. destruct (Slot.due now s) eqn:Hd; [|done].
  unfold Slot.expire, Slot.due in *. cbn. destruct (sl_deadline s) as [d|]; [|done].
  apply N.leb_le in Hd. by rewrite (proj2 (N.leb_le _ _)) by lia.
Qed.

(** What expiry makes of a point. *)
Definition expired (now : N) (p : Point) : Point :=
  if existsb (Slot.due now) (pt_slots p)
  then Point.resolve (Point.set_slots (Slot.expire now <$> pt_slots p) p) else p.

(** A point that keeps its promises. *)
Record point_ok (p : Point) : Prop := {
  pt_schema_ok : schema_ok (pt_schema p);
  pt_length : length (pt_slots p) = 17;
  pt_resolved : Point.resolve p = p;
  pt_typed i s v : pt_slots p !! i = Some s → sl_value s = Some v → typed (pt_schema p) v;
  pt_timed i s : pt_slots p !! i = Some s → sl_deadline s ≠ None → i = 7 ∧ sl_value s ≠ None;
  pt_generation i s : pt_slots p !! i = Some s → (sl_generation s ≤ u64_max)%N
}.

Lemma resolve_slots p : pt_slots (Point.resolve p) = pt_slots p.
Proof. unfold Point.resolve. by destruct (Point.first_value _ _) as [[]|]. Qed.
Lemma resolve_schema p : pt_schema (Point.resolve p) = pt_schema p.
Proof. unfold Point.resolve. by destruct (Point.first_value _ _) as [[]|]. Qed.
Lemma resolve_graph p : pt_graph (Point.resolve p) = pt_graph p.
Proof. unfold Point.resolve. by destruct (Point.first_value _ _) as [[]|]. Qed.
Lemma resolve_resolve p : Point.resolve (Point.resolve p) = Point.resolve p.
Proof.
  unfold Point.resolve at 1. rewrite resolve_slots, resolve_schema, resolve_graph.
  unfold Point.resolve. by destruct (Point.first_value 1 (pt_slots p)) as [[]|].
Qed.
Lemma resolve_bytes p id : Point.bytes (Point.resolve p) id = Point.bytes p id.
Proof. unfold Point.bytes. by rewrite resolve_slots, resolve_schema. Qed.

(** [resolve] finds the value of the first level that has one. *)
Lemma first_value_spec lvl slots :
  match Point.first_value lvl slots with
  | Some (v, n) => ∃ i s, slots !! i = Some s ∧ sl_value s = Some v ∧ n = (lvl + N.of_nat i)%N ∧
      (∀ j t, j < i → slots !! j = Some t → sl_value t = None)
  | None => ∀ j t, slots !! j = Some t → sl_value t = None
  end.
Proof.
  revert lvl. induction slots as [|s slots IH]; intros lvl; cbn; [done|].
  destruct (sl_value s) as [v|] eqn:Hs.
  - exists 0, s. split; [done|split; [done|split; [lia|intros j t Hj; lia]]].
  - specialize (IH (lvl + 1)%N). destruct (Point.first_value _ _) as [[v n]|].
    + destruct IH as (i & t & Ht & Hv & -> & Hb). exists (S i), t.
      split; [done|split; [done|split; [lia|]]].
      intros [|j] t' Hj; cbn; [by intros [= <-]|]. apply Hb. lia.
    + intros [|j] t; cbn; [by intros [= <-]|apply IH].
Qed.

Lemma expired_slots now p : pt_slots (expired now p) = Slot.expire now <$> pt_slots p.
Proof.
  unfold expired. destruct (existsb _ _) eqn:He; [by rewrite resolve_slots|].
  symmetry. rewrite <- (list_fmap_id (pt_slots p)) at 2. apply list_fmap_ext.
  intros i s Hs. apply slot_expire_idle. apply not_true_is_false. intros Hd.
  rewrite <- not_true_iff_false, existsb_exists in He. apply He.
  exists s. split; [|done]. apply list_elem_of_In. by eapply list_elem_of_lookup_2.
Qed.
Lemma expired_schema now p : pt_schema (expired now p) = pt_schema p.
Proof. unfold expired. by destruct (existsb _ _); [rewrite resolve_schema|]. Qed.
Lemma expired_graph now p : pt_graph (expired now p) = pt_graph p.
Proof. unfold expired. by destruct (existsb _ _); [rewrite resolve_graph|]. Qed.

Lemma point_bytes_mono p q id :
  pt_schema q = pt_schema p →
  Forall2 (λ s t, (Slot.bytes s ≤ Slot.bytes t)%N ∧
                  (∀ v, sl_value s = Some v → sl_value t = Some v)) (pt_slots q) (pt_slots p) →
  (Point.bytes q id ≤ Point.bytes p id)%N.
Proof.
  intros Hs HF. unfold Point.bytes. rewrite Hs.
  assert (sumN (Slot.bytes <$> pt_slots q) ≤ sumN (Slot.bytes <$> pt_slots p))%N as Hsum.
  { apply sumN_le, Forall2_fmap_2. eapply Forall2_impl; [exact HF|by intros s t []]. }
  assert (maxN (value_bytes <$> omap sl_value (pt_slots q))
          ≤ maxN (value_bytes <$> omap sl_value (pt_slots p)))%N as Hmax.
  { apply maxN_le, Forall_fmap, Forall_forall. cbn. intros v Hv.
    apply maxN_in, list_elem_of_fmap. exists v. split; [done|].
    apply list_elem_of_omap in Hv as (s & Hin & Hv). apply list_elem_of_lookup_1 in Hin as [i Hi].
    destruct (Forall2_lookup_l _ _ _ _ _ HF Hi) as (t & Ht & _ & Hval).
    apply list_elem_of_omap. exists t. split; [by eapply list_elem_of_lookup_2|by apply Hval]. }
  lia.
Qed.
Lemma expired_bytes now p id : (Point.bytes (expired now p) id ≤ Point.bytes p id)%N.
Proof.
  apply point_bytes_mono; [apply expired_schema|]. rewrite expired_slots.
  apply Forall2_fmap_l, Forall_Forall2_diag, Forall_forall. intros s _. cbn.
  split; [apply slot_expire_bytes|intros v; apply slot_expire_value].
Qed.

Lemma expired_ok now p : point_ok p → point_ok (expired now p).
Proof.
  intros [Hs Hl Hr Ht Hd Hg].
  assert (Hsl : ∀ i s, pt_slots (expired now p) !! i = Some s →
            ∃ t, pt_slots p !! i = Some t ∧ s = Slot.expire now t).
  { intros i s. rewrite expired_slots, list_lookup_fmap, fmap_Some. naive_solver. }
  split; rewrite ?expired_schema; try done.
  - by rewrite expired_slots, length_fmap.
  - unfold expired. destruct (existsb _ _); [apply resolve_resolve|done].
  - intros i s v (t & Hi & ->)%Hsl Hv%slot_expire_value. by eapply Ht.
  - intros i s (t & Hi & ->)%Hsl. unfold Slot.expire. destruct (Slot.due now t); [done|by apply Hd].
  - intros i s (t & Hi & ->)%Hsl. unfold Slot.expire.
    destruct (Slot.due now t); cbn; by eapply Hg.
Qed.

Lemma lookup_new_slots {A} (x y : A) n i s :
  (replicate n x ++ [y]) !! i = Some s → s = x ∨ (i = n ∧ s = y).
Proof.
  intros [Hi|[Hlen Hi]]%lookup_app_Some.
  - apply lookup_replicate in Hi. naive_solver.
  - rewrite length_replicate in *. apply list_lookup_singleton_Some in Hi as [Hz ->].
    right. split; [lia|done].
Qed.
Lemma new_point_ok schema graph : schema_ok schema → point_ok (Point.new schema graph).
Proof.
  intros Hs.
  assert (Hsl : ∀ i s, pt_slots (Point.new schema graph) !! i = Some s →
            s = Slot.default ∨ (i = 16 ∧ s = mkSlot (sch_default schema) None 0 None)).
  { intros i s. unfold Point.new. rewrite resolve_slots. apply lookup_new_slots. }
  assert (Hsch : pt_schema (Point.new schema graph) = schema) by apply resolve_schema.
  split; rewrite ?Hsch; try done.
  - unfold Point.new. by rewrite resolve_slots.
  - apply resolve_resolve.
  - intros i s v [->|[_ ->]]%Hsl; [done|]. apply Hs.
  - by intros i s [->|[_ ->]]%Hsl.
  - intros i s [->|[_ ->]]%Hsl; cbn; unfold u64_max; lia.
Qed.

(** A point whose slot at [i] is replaced by one that fits. *)
Lemma replace_ok p graph i s :
  point_ok p →
  (∀ v, sl_value s = Some v → typed (pt_schema p) v) →
  (sl_deadline s ≠ None → i = 7 ∧ sl_value s ≠ None) → (sl_generation s ≤ u64_max)%N →
  point_ok (Point.resolve (mkPoint (pt_schema p) graph (<[i := s]> (pt_slots p)) (pt_effective p)
              (pt_level p))).
Proof.
  intros [Hsc Hl Hr Ht Hd Hg] Hv Htm Hgn. set (q := mkPoint _ _ _ _ _).
  assert (Hsl : ∀ j t, pt_slots (Point.resolve q) !! j = Some t →
            (j = i ∧ t = s) ∨ pt_slots p !! j = Some t).
  { intros j t. rewrite resolve_slots. cbn. intros [(-> & -> & _)|[_ ?]]%list_lookup_insert_Some; auto. }
  split; rewrite ?resolve_schema; cbn [pt_schema q]; try done.
  - rewrite resolve_slots. cbn. by rewrite length_insert.
  - apply resolve_resolve.
  - intros j t v [[-> ->]|Hj]%Hsl; [apply Hv|by apply (Ht j)].
  - intros j t [[-> ->]|Hj]%Hsl; [exact Htm|by apply Hd].
  - intros j t [[-> ->]|Hj]%Hsl; [done|by apply (Hg j)].
Qed.
Lemma rebind_ok p graph :
  point_ok p →
  point_ok (Point.resolve (mkPoint (pt_schema p) graph (pt_slots p) (pt_effective p) (pt_level p))).
Proof.
  intros [Hsc Hl Hr Ht Hd Hg].
  split; rewrite ?resolve_schema, ?resolve_slots; try done. apply resolve_resolve.
Qed.

(** ** The store *)

(** The bytes of all points. *)
Definition weight (m : gmap string Point) : N := map_fold (λ id p n, Point.bytes p id + n)%N 0%N m.
Lemma weight_delete m id p :
  m !! id = Some p → weight m = (Point.bytes p id + weight (delete id m))%N.
Proof.
  intros Hp. unfold weight.
  rewrite (map_fold_delete_L (λ id p n, Point.bytes p id + n)%N 0%N id p m); [done|intros; lia|done].
Qed.
Lemma weight_insert m id p :
  weight (<[id := p]> m) = (Point.bytes p id + weight (delete id m))%N.
Proof. rewrite (weight_delete _ id p) by apply lookup_insert_eq. by rewrite delete_insert_eq. Qed.
Lemma weight_replace m id p :
  weight (<[id := p]> m)
  = (weight m - from_option (λ p, Point.bytes p id) 0 (m !! id) + Point.bytes p id)%N.
Proof.
  rewrite weight_insert. destruct (m !! id) as [q|] eqn:Hq; cbn.
  - rewrite (weight_delete _ _ _ Hq). lia.
  - rewrite delete_id by done. lia.
Qed.
Lemma weight_le m m' :
  (∀ id p', m' !! id = Some p' → ∃ p, m !! id = Some p ∧ (Point.bytes p' id ≤ Point.bytes p id)%N) →
  (weight m' ≤ weight m)%N.
Proof.
  revert m. induction m' as [|id p' m' Hid IH] using map_ind; intros m Hle.
  { unfold weight at 1. rewrite map_fold_empty. lia. }
  destruct (Hle id p' (lookup_insert_eq _ _ _)) as (p & Hp & Hb).
  rewrite weight_insert, (weight_delete _ _ _ Hp), delete_id by done.
  apply N.add_le_mono; [done|]. apply IH. intros id' q Hq.
  assert (id' ≠ id) by congruence.
  destruct (Hle id' q) as (q' & Hq' & Hbq); [by rewrite lookup_insert_ne|].
  exists q'. by rewrite lookup_delete_ne.
Qed.

(** The store expiry leaves, as a function. *)
Definition swept (now : N) (s : Store.t) : Store.t :=
  let points := expired now <$> Store.points s in Store.mk points (weight points).

Lemma expire_point_exact now s id p :
  Store.bytes s = weight (Store.points s) → Store.points s !! id = Some p →
  Store.expire_point now s (id, p)
  = Some (Store.mk (<[id := expired now p]> (Store.points s))
            (weight (<[id := expired now p]> (Store.points s)))).
Proof.
  intros Hb Hp. unfold Store.expire_point. cbv zeta beta iota.
  destruct (existsb (Slot.due now) (pt_slots p)) eqn:He.
  - unfold Store.checked_sub. rewrite Hb.
    rewrite decide_True by (rewrite (weight_delete _ _ _ Hp); lia). cbn.
    rewrite weight_replace, Hp. cbn. unfold expired. by rewrite He.
  - assert (expired now p = p) as Hx by (unfold expired; by rewrite He).
    assert (Point.set_slots (pt_slots p) p = p) as Hself by (by destruct p).
    f_equal. rewrite <- (expired_slots now p), Hx, Hself, insert_id by done. by rewrite Hb.
Qed.
Lemma expire_points_exact now es s :
  NoDup es.*1 → Store.bytes s = weight (Store.points s) →
  (∀ id p, (id, p) ∈ es → Store.points s !! id = Some p) →
  ∃ s', Store.expire_points now s es = Some s' ∧ Store.bytes s' = weight (Store.points s') ∧
    ∀ id, Store.points s' !! id
      = (if decide (id ∈ es.*1) then expired now <$> Store.points s !! id else Store.points s !! id).
Proof.
  revert s. induction es as [|[id p] es IH]; intros s Hnd Hb Hin; cbn [Store.expire_points].
  { exists s. split; [done|split; [done|]]. intros id'. by rewrite decide_False by (by inversion 1). }
  apply NoDup_cons in Hnd as [Hid Hnd].
  assert (Hp : Store.points s !! id = Some p) by (apply Hin; left).
  rewrite (expire_point_exact now s id p) by done. cbn [mbind option_bind].
  destruct (IH (Store.mk (<[id := expired now p]> (Store.points s))
                 (weight (<[id := expired now p]> (Store.points s))))) as (s' & Hs' & Hb' & Hl); [done|done| |].
  { intros id' p' Hin'. cbn. rewrite lookup_insert_ne; [apply Hin; by right|].
    intros ->. apply Hid, list_elem_of_fmap. by exists (id', p'). }
  exists s'. split; [done|split; [done|]]. intros id'. rewrite Hl. cbn.
  destruct (decide (id' = id)) as [->|Hne].
  - rewrite decide_False by done. rewrite decide_True by left. by rewrite lookup_insert_eq, Hp.
  - rewrite lookup_insert_ne by done. destruct (decide (id' ∈ es.*1)) as [Hy|Hn].
    + by rewrite decide_True by (by right).
    + by rewrite decide_False by (by rewrite elem_of_cons; intros [?|?]).
Qed.
(** With an exact count, expiry never underflows and leaves an exact count. *)
Lemma expire_exact now s :
  Store.bytes s = weight (Store.points s) → Store.expire now s = Some (swept now s).
Proof.
  intros Hb. unfold Store.expire.
  destruct (expire_points_exact now (btree_iter (Store.points s)) s) as ([pts bs] & -> & Hb' & Hl);
    [apply NoDup_btree_keys|done|by intros id p ?%elem_of_btree_iter|].
  cbn in *. f_equal. unfold swept.
  assert (pts = expired now <$> Store.points s) as Heq.
  { apply map_eq. intros id. rewrite Hl, lookup_fmap. destruct (Store.points s !! id) as [p|] eqn:Hp.
    - rewrite decide_True; [done|]. apply list_elem_of_fmap. exists (id, p).
      split; [done|by apply elem_of_btree_iter].
    - by destruct (decide _). }
  by rewrite Hb', Heq.
Qed.

(** The invariant of the store. *)
Record store_ok (l : CommandLimits.t) (s : Store.t) : Prop := {
  st_points id p : Store.points s !! id = Some p → point_ok p;
  st_bytes : Store.bytes s = weight (Store.points s);
  st_retained : (Store.bytes s ≤ CommandLimits.max_retained_bytes l)%N;
  st_count : (N.of_nat (size (Store.points s)) ≤ CommandLimits.max_points l)%N
}.

Lemma default_ok l : store_ok l Store.default.
Proof. split; cbn; [by intros ??; rewrite lookup_empty|done|lia|]. rewrite map_size_empty. lia. Qed.

Lemma swept_ok l now s : store_ok l s → store_ok l (swept now s).
Proof.
  intros [Hp Hb Hr Hc]. split; cbn; [|done| |].
  - intros id p. rewrite lookup_fmap, fmap_Some. intros (q & Hq & ->). apply expired_ok. by eapply Hp.
  - etrans; [|exact Hr]. rewrite Hb. apply weight_le. intros id p.
    rewrite lookup_fmap, fmap_Some. intros (q & Hq & ->). exists q. split; [done|apply expired_bytes].
  - by rewrite map_size_fmap.
Qed.
Lemma swept_points now s id :
  Store.points (swept now s) !! id = expired now <$> Store.points s !! id.
Proof. cbn. apply lookup_fmap. Qed.

(** Storing a point. *)
Definition stored (id : string) (p : Point) (s : Store.t) : Store.t :=
  Store.mk (<[id := p]> (Store.points s)) (weight (<[id := p]> (Store.points s))).
Lemma stored_ok l id p s :
  store_ok l s → point_ok p →
  (weight (<[id := p]> (Store.points s)) ≤ CommandLimits.max_retained_bytes l)%N →
  (Store.points s !! id = None → N.of_nat (size (Store.points s)) < CommandLimits.max_points l)%N →
  store_ok l (stored id p s).
Proof.
  intros [Hp Hb Hr Hc] Hok Hw Hroom. split; cbn; [|done|done|].
  - intros id' q. destruct (decide (id = id')) as [->|Hne].
    + rewrite lookup_insert_eq. by intros [= <-].
    + rewrite lookup_insert_ne by done. apply Hp.
  - destruct (Store.points s !! id) as [q|] eqn:Hq.
    + rewrite map_size_insert_Some by (by rewrite Hq). done.
    + rewrite map_size_insert_None by done. specialize (Hroom eq_refl). lia.
Qed.

(** A resolved point is determined by its schema, its graph and its slots. *)
Lemma point_determined p q :
  Point.resolve p = p → Point.resolve q = q → pt_schema p = pt_schema q → pt_graph p = pt_graph q →
  pt_slots p = pt_slots q → p = q.
Proof.
  intros <- <-. rewrite !resolve_schema, !resolve_graph, !resolve_slots. intros Hs Hg Hl.
  unfold Point.resolve. rewrite Hs, Hg, Hl. by destruct (Point.first_value _ _) as [[]|].
Qed.
(** Expiring early does not change what expires later. *)
Lemma expired_twice now now' p :
  (now ≤ now')%N → Point.resolve p = p → expired now' (expired now p) = expired now' p.
Proof.
  intros Hle Hr.
  assert (Hres : ∀ t q, Point.resolve q = q → Point.resolve (expired t q) = expired t q).
  { intros t q Hq. unfold expired. destruct (existsb _ _); [apply resolve_resolve|done]. }
  apply point_determined; rewrite ?expired_schema, ?expired_graph; auto.
  rewrite !expired_slots, <- list_fmap_compose. apply list_fmap_ext. intros i s _.
  by apply slot_expire_twice.
Qed.
Lemma swept_twice l now now' s :
  store_ok l s → (now ≤ now')%N → swept now' (swept now s) = swept now' s.
Proof.
  intros Hok Hle. unfold swept. cbn.
  assert (expired now' <$> (expired now <$> Store.points s) = expired now' <$> Store.points s) as ->; [|done].
  rewrite <- map_fmap_compose. apply map_fmap_ext. intros id p Hp. cbn.
  apply expired_twice; [done|]. eapply pt_resolved, st_points; eauto.
Qed.
