(* ===== verification/CommandRuns.v ===== *)
(** * Runs of a command

    Total correctness of the computations of [CommandExecute.v] by a
    weakest-precondition calculus: [wp m Q w] says that [m] returns from [w],
    without a panic and within its fuel, with a result and a world that
    satisfy [Q]. *)

From S2P Require Import Prelude Floats Kinds Extern Bitmap Adjacency ValueIndex Filter Text Units Taxonomy Xeto Namespace Controlled Changelog Graph Application MeterFacts Sanitize Command CommandExecute CommandFacts.

Import Meter Simulate.

(** ** The calculus *)

Definition wp {A} (m : K A) (Q : result ApiError A → World → Prop) (w : World) : Prop :=
  match m w with Some (r, w') => Q r w' | None => False end.

Lemma runs_bind {A C} (m : K A) (k : A → K C) Q w :
  wp m (λ r w', match r with Ok a => wp (k a) Q w' | Err e => Q (Err e) w' end) w →
  wp (m ≫= k) Q w.
Proof. unfold wp, mbind, K_bind. destruct (m w) as [[[a|e] w']|]; auto. Qed.
Lemma runs_mono {A} (m : K A) (Q R : result ApiError A → World → Prop) w :
  wp m Q w → (∀ r w', Q r w' → R r w') → wp m R w.
Proof. unfold wp. destruct (m w) as [[r w']|]; auto. Qed.
Lemma wp_guard_bind {C} ok e (k : unit → K C) Q w :
  (ok = true → wp (k ()) Q w) → Q (Err e) w → wp (guard ok e ≫= k) Q w.
Proof. intros Hk He. apply runs_bind. destruct ok; [by apply Hk|exact He]. Qed.
Lemma wp_try_bind {A C} (r : result ApiError A) (k : A → K C) Q w :
  (∀ a, r = Ok a → wp (k a) Q w) → (∀ e, r = Err e → Q (Err e) w) → wp (try r ≫= k) Q w.
Proof. intros Hk He. apply runs_bind. destruct r; [by apply Hk|by apply He]. Qed.

(** The parts of the world others can see. *)
Record same (w w' : World) : Prop := {
  same_store : w_store w' = w_store w;
  same_attempt : w_attempt w' = w_attempt w;
  same_pending : w_pending w' = w_pending w
}.
#[export] Instance same_refl : Reflexive same.
Proof. by intros []. Qed.
#[export] Instance same_trans : Transitive same.
Proof. intros w1 w2 w3 [] []. split; congruence. Qed.

(** A computation whose worlds before and after are related, for a preorder. *)
Definition keeps (R : World → World → Prop) {A} (m : K A) : Prop := ∀ w, wp m (λ _ w', R w w') w.
(** A computation that leaves the shared parts alone. *)
Abbreviation calm := (keeps same).

Lemma wp_and {A} (m : K A) Q R w : wp m Q w → wp m R w → wp m (λ r w', Q r w' ∧ R r w') w.
Proof. unfold wp. destruct (m w) as [[]|]; auto. Qed.
Lemma wp_calm_bind {A C} (m : K A) (k : A → K C) Q w :
  calm m → (∀ a w', same w w' → wp (k a) Q w') → (∀ e w', same w w' → Q (Err e) w') →
  wp (m ≫= k) Q w.
Proof. intros Hm Hk He. apply runs_bind. eapply runs_mono; [apply Hm|]. intros [a|e] w' Hw; auto. Qed.

Section keeps.
Context (R : World → World → Prop) `{!PreOrder R}.

Lemma keeps_ret {A} (a : A) : keeps R (mret a).
Proof. intros w. cbn. reflexivity. Qed.
Lemma keeps_fail {A} e : keeps R (@fail A e).
Proof. intros w. cbn. reflexivity. Qed.
Lemma keeps_try {A} (r : result ApiError A) : keeps R (try r).
Proof. intros w. cbn. reflexivity. Qed.
Lemma keeps_gets {A} (f : World → A) : keeps R (gets f).
Proof. intros w. cbn. reflexivity. Qed.
Lemma keeps_guard ok e : keeps R (guard ok e).
Proof. destruct ok; [apply keeps_ret|apply keeps_fail]. Qed.
Lemma keeps_bind {A C} (m : K A) (k : A → K C) :
  keeps R m → (∀ a, keeps R (k a)) → keeps R (m ≫= k).
Proof.
  intros Hm Hk w. apply runs_bind. eapply runs_mono; [apply Hm|]. intros [a|e] w' Hw; [|done].
  eapply runs_mono; [apply Hk|]. intros r w'' Hw'. by etrans.
Qed.
Lemma keeps_fold_k {A S} (f : S → A → K S) s l :
  (∀ s a, keeps R (f s a)) → keeps R (fold_k f s l).
Proof.
  intros Hf. revert s. induction l as [|a l IH]; intros s; [apply keeps_ret|].
  apply keeps_bind; [apply Hf|exact IH].
Qed.
End keeps.
#[export] Instance same_preorder : PreOrder same.
Proof. split; apply _. Qed.

Lemma calm_lift_api {A} (m : Budget → result ApiError A * Budget) : calm (lift_api m).
Proof. intros w. unfold wp, lift_api. by destruct (m (w_budget w)) as [r b]. Qed.
Lemma calm_lift {A} (m : B A) : calm (lift m).
Proof. apply calm_lift_api. Qed.

(** And the budget is of the same request, its checks behind those made. *)
Record close (w w' : World) : Prop := {
  close_same : same w w';
  close_request : MeterFacts.same_request (w_budget w) (w_budget w')
}.
#[local] Existing Instance MeterFacts.same_request_refl.
#[local] Existing Instance MeterFacts.same_request_trans.
#[export] Instance close_preorder : PreOrder close.
Proof. split; [by intros w|]. intros w1 w2 w3 [] []. split; by etrans. Qed.
Lemma keeps_close {A} (m : K A) : keeps close m → calm m.
Proof. intros Hm w. eapply runs_mono; [apply Hm|]. by intros r w' []. Qed.

(** Metered computations that only make checks and spend. *)
Definition timely {A} (m : B A) : Prop := ∀ b, MeterFacts.same_request b (m b).2.
Lemma close_lift {A} (m : B A) : timely m → keeps close (lift m).
Proof.
  intros Hm w. specialize (Hm (w_budget w)). unfold wp, lift, lift_api.
  by destruct (m (w_budget w)) as [r b].
Qed.

Create HintDb timely.
Ltac keeps_step :=
  first [ apply keeps_bind; [typeclasses eauto| |intros] | apply keeps_guard; typeclasses eauto
        | apply keeps_try; typeclasses eauto | apply close_lift; by eauto with timely
        | apply calm_lift | apply calm_lift_api
        | apply keeps_gets; typeclasses eauto | apply keeps_ret; typeclasses eauto
        | apply keeps_fail; typeclasses eauto | apply keeps_fold_k; [typeclasses eauto|intros] ].
Ltac keeps_solve := repeat keeps_step.

Section runs.
Context {HO : HashOrder} {RB : Roaring} {CM : CacheMap} {FS : FilterSyntax} {ON : Ontology} {CA : Catalog}.
Context {AM : Ambient} {SI : Simulator}.
Context (reg : Units.t) (service : CommandService) (scene : Scene).

Lemma timely_check : timely check.
Proof. intros b. split; try done; cbn; lia. Qed.
Lemma timely_charge k n : timely (charge k n).
Proof.
  intros b. unfold charge, mbind, B_bind, check. destruct (verdict _ _); [|apply timely_check]. unfold spend.
  destruct (Usage.counter _ _ _) as [[[? ?] ?]|]; [|apply timely_check].
  case_decide; split; try done; cbn; lia.
Qed.
Lemma timely_wait : timely wait_quantum.
Proof. intros b. unfold wait_quantum, check. destruct (verdict _ _); split; try done; cbn; lia. Qed.
Lemma timely_waits {A} (l : list A) : timely (each (λ _, wait_quantum;; mret ()) l).
Proof.
  induction l as [|a l IH]; intros b; [done|]. cbn. unfold mbind, B_bind.
  pose proof (timely_wait b). destruct (wait_quantum b) as [[q|e] b']; cbn in *; [|done]. by etrans.
Qed.
Lemma timely_catalog g : timely (check_catalog g).
Proof.
  intros b. unfold check_catalog, mbind, B_bind, asks. destruct (typed_catalog b); [|done].
  by destruct (match EntityGraph.activated g with Some _ => _ | None => _ end).
Qed.
#[local] Hint Resolve timely_check timely_charge timely_wait timely_waits timely_catalog : timely.

(** The pinned catalog is that of the request. *)
Lemma catalog_same g b b0 :
  MeterFacts.same_request b0 b → (check_catalog g b).1 = Ok () → (check_catalog g b0).1 = Ok ().
Proof.
  intros Hb. unfold check_catalog, mbind, B_bind, asks. rewrite (MeterFacts.same_catalog _ _ Hb).
  destruct (typed_catalog b0); [|done]. by destruct (match EntityGraph.activated _ with Some _ => _ | None => _ end).
Qed.

Lemma close_check session : keeps close (check_command session).
Proof. unfold check_command. keeps_solve. Qed.
Lemma calm_check session : calm (check_command session).
Proof. apply keeps_close, close_check. Qed.
Lemma wp_close_bind {A C} (m : K A) (k : A → K C) Q w :
  keeps close m → (∀ a w', close w w' → wp (k a) Q w') → (∀ e w', close w w' → Q (Err e) w') →
  wp (m ≫= k) Q w.
Proof. intros Hm Hk He. apply runs_bind. eapply runs_mono; [apply Hm|]. intros [a|e] w' Hw; auto. Qed.
Lemma calm_inspection action id policy slots : calm (inspection action id policy slots).
Proof. unfold inspection. destruct (negb _); keeps_solve. destruct a. keeps_solve. Qed.

(** The check leaves the counters as they are. *)
Lemma check_usage b : usage (check b).2 = usage b ∧ limits (check b).2 = limits b.
Proof. done. Qed.
Lemma wait_usage b : usage (wait_quantum b).2 = usage b ∧ limits (wait_quantum b).2 = limits b.
Proof. unfold wait_quantum, check. by destruct (verdict _ _). Qed.
Definition work_left (w : World) : nat := N.to_nat (work_remaining (w_budget w)).

(** A charge that succeeds takes from the work that is left. *)
Lemma charge_work_wp w :
  wp (lift (charge BWork 1))
    (λ r w', same w w' ∧ ∀ a, r = Ok a → work_left w' < work_left w) w.
Proof.
  unfold wp, lift, lift_api, charge, mbind, B_bind, check.
  destruct (verdict _ _) as [[]|e]; [|by split].
  unfold spend. cbn. case_decide as Hd; [by split|]. split; [done|]. intros _ _.
  unfold work_left, work_remaining. cbn. lia.
Qed.
(** What a check of the simulator saw at a moment when it passed. *)
Record vetted (b : Budget) (session : SubscriptionSession) (k : nat) : Prop := {
  ve_budget : verdict b (moments k) = Ok ();
  ve_scoped : se_scoped session = true;
  ve_active : SubscriptionSession.is_active session (gl_closed (glimpse k)) (gl_now (glimpse k)) = true;
  ve_started : gl_started (glimpse k) = true;
  ve_running : gl_stopped (glimpse k) = false;
  ve_open : owner_sealed (moments k) = false
}.
Lemma check_command_wp b session w :
  MeterFacts.same_request b (w_budget w) →
  wp (check_command session)
    (λ r w', close w w' ∧ work_left w' = work_left w ∧
       (∀ a, r = Ok a → ticks (w_budget w') = S (ticks (w_budget w)) ∧ vetted b session (ticks (w_budget w)))) w.
Proof.
  intros Hb. unfold check_command. apply runs_bind. cbn. apply runs_bind.
  assert (Hc : close w (set_budget (tick (w_budget w)) w)) by (split; [done|apply timely_check]).
  unfold wp at 1, lift, lift_api, check. destruct (verdict _ _) as [[]|e] eqn:Hv; [|by split_and!].
  rewrite (MeterFacts.verdict_same _ _ _ Hb) in Hv.
  apply wp_guard_bind; [intros [H1 H2]%andb_true_iff|by split_and!].
  unfold guard. destruct (_ && _) eqn:H3; [|by split_and!]. split_and!; [done..|]. intros _ _. split; [done|].
  rewrite !andb_true_iff, !negb_true_iff in H3. by destruct H3 as [[H3 H4] H5].
Qed.
Lemma check_work_wp session w :
  wp (check_command session) (λ r w', same w w' ∧ work_left w' = work_left w) w.
Proof.
  eapply runs_mono; [by apply (check_command_wp (w_budget w))|]. by intros r w' ([] & ? & _).
Qed.
Lemma wait_work_wp w :
  wp (lift wait_quantum) (λ r w', same w w' ∧ work_left w' = work_left w) w.
Proof.
  unfold wp, lift, lift_api. destruct (wait_usage (w_budget w)) as [Hu Hl].
  destruct (wait_quantum _) as [r b]. cbn in *. split; [done|].
  unfold work_left, work_remaining. cbn. by rewrite Hu, Hl.
Qed.

(** ** The critical section *)

(** The slot a command leaves in the place of [old]. *)
Definition next_slot (request : CommandRequest) (value : option Kind) (who : string) (old : Slot) : Slot :=
  mkSlot value (Some who) (sl_generation old + 1)
    ((λ d, sc_set_at scene + d)%N <$> cq_duration request).
(** The slots it leaves. *)
Definition next_slots (request : CommandRequest) (value : option Kind) (who : string) (slots : list Slot)
    : list Slot :=
  match cq_level request with
  | Some level => alter (next_slot request value who) (N.to_nat (level - 1)) slots
  | None => slots
  end.
(** The point a command starts from and the one it leaves. *)
Definition base_point (id : string) (schema : Schema) (observed : GraphState) (s : Store.t) : Point :=
  match Store.points s !! id with
  | Some p => mkPoint (pt_schema p) observed (pt_slots p) (pt_effective p) (pt_level p)
  | None => Point.new schema observed
  end.
Definition next_point (request : CommandRequest) (schema : Schema) (observed : GraphState)
    (value : option Kind) (who : string) (s : Store.t) : Point :=
  let p := base_point (cq_id request) schema observed s in
  Point.resolve (Point.set_slots (next_slots request value who (pt_slots p)) p).
(** The store a command leaves. *)
Definition commanded (request : CommandRequest) (schema : Schema) (observed : GraphState)
    (value : option Kind) (who : string) (s : Store.t) : Store.t :=
  let s := swept (sc_expire_at scene) s in
  stored (cq_id request) (next_point request schema observed value who s) s.

(** What a dispatch does to the cell. *)
Definition dispatched (action : CommandAction) (a a' : option N) : Prop :=
  if bool_decide (action = Inspect) then a' = a else a = Some 0%N ∧ a' = Some 1%N.

(** The request was checked, and the value is one of the schema. *)
Record sound (request : CommandRequest) (schema : Schema) (value : option Kind) : Prop := {
  so_level n : cq_level request = Some n → (1 ≤ n ≤ 17)%N;
  so_duration d : cq_duration request = Some d → cq_level request = Some 8%N ∧ value ≠ None;
  so_schema : schema_ok schema;
  so_value v : value = Some v → typed schema v
}.

Lemma write_slot_spec request value who old :
  match write_slot scene request value who old with
  | Ok s => s = next_slot request value who old ∧ (sl_generation s ≤ u64_max)%N
  | Err _ => True
  end.
Proof.
  unfold write_slot, next_slot. destruct (checked_add u64_max _ 1) as [g|] eqn:Hg; [|done].
  apply checked_add_Some in Hg as [-> Hg]. destruct (cq_duration request) as [d|]; [|done].
  destruct (checked_add duration_max _ d) as [t|] eqn:Ht; [|done].
  by apply checked_add_Some in Ht as [-> _].
Qed.

Lemma write_point_wp request value who p w :
  (∀ n, cq_level request = Some n → (1 ≤ n ≤ 17)%N) → length (pt_slots p) = 17 →
  wp (write_point scene request value who p)
    (λ r w', w' = w ∧ match r with
       | Ok q => q = Point.resolve (Point.set_slots (next_slots request value who (pt_slots p)) p) ∧
           (∀ n old, cq_level request = Some n → pt_slots p !! N.to_nat (n - 1) = Some old →
              (sl_generation old + 1 ≤ u64_max)%N)
       | Err _ => True
       end) w.
Proof.
  intros Hlv Hlen. unfold write_point, next_slots. destruct (cq_level request) as [n|].
  - destruct (lookup_lt_is_Some_2 (pt_slots p) (N.to_nat (n - 1))) as [old Hold].
    { specialize (Hlv n eq_refl). lia. }
    apply runs_bind. unfold wp at 1, must. rewrite Hold. apply wp_try_bind; [|by split].
    intros s Hs. pose proof (write_slot_spec request value who old) as Hw. rewrite Hs in Hw.
    destruct Hw as [-> Hg]. split; [done|]. split.
    + do 2 f_equal. apply list_eq. intros i.
      destruct (decide (i = N.to_nat (n - 1))) as [->|Hi].
      * rewrite list_lookup_insert_eq by (by eapply lookup_lt_Some). by rewrite list_lookup_alter_eq, Hold.
      * by rewrite list_lookup_insert_ne, list_lookup_alter_ne by done.
    + intros n' old' [= <-]. rewrite Hold. by intros [= <-].
  - split; [done|]. split; [by destruct p|done].
Qed.

Lemma typed_transfer a b v : schema_eqb a b = true → typed b v → typed a v.
Proof.
  unfold schema_eqb. rewrite !andb_true_iff. intros [[Hk%bool_decide_eq_true Hu%bool_decide_eq_true] _].
  destruct v; cbn; rewrite ?Hk, ?Hu; done.
Qed.

(** The schema of the point that is already there agrees with the one read. *)
Definition agrees (id : string) (schema : Schema) (s : Store.t) : Prop :=
  ∀ p, Store.points s !! id = Some p → schema_eqb (pt_schema p) schema = true.

Lemma base_point_ok l id schema observed s :
  store_ok l s → schema_ok schema → point_ok (base_point id schema observed s).
Proof.
  intros Hs Hsc. unfold base_point. destruct (Store.points s !! id) as [p|] eqn:Hp; [|by apply new_point_ok].
  destruct (st_points _ _ Hs _ _ Hp) as [Hx Hl Hr Ht Hd Hg]. split; try done; cbn.
  unfold Point.resolve in *. cbn. destruct (Point.first_value _ _) as [[v n]|];
    destruct p as [sch gr sl eff lv]; cbn in *; by injection Hr as <- <-.
Qed.
Lemma base_point_typed l id schema observed s v :
  store_ok l s → agrees id schema s → typed schema v → typed (pt_schema (base_point id schema observed s)) v.
Proof.
  intros Hs Ha Hv. unfold base_point. destruct (Store.points s !! id) as [p|] eqn:Hp.
  - apply (typed_transfer _ schema); [cbn; by apply Ha|done].
  - unfold Point.new. by rewrite resolve_schema.
Qed.

Lemma next_point_ok l request schema observed value who s :
  store_ok l s → sound request schema value → agrees (cq_id request) schema s →
  (∀ n old, cq_level request = Some n →
     pt_slots (base_point (cq_id request) schema observed s) !! N.to_nat (n - 1) = Some old →
     (sl_generation old + 1 ≤ u64_max)%N) →
  point_ok (next_point request schema observed value who s).
Proof.
  intros Hs [Hlv Hdu Hsc Hv] Ha Hg. unfold next_point.
  pose proof (base_point_ok l (cq_id request) schema observed s Hs Hsc) as Hb.
  assert (Htv : ∀ v, value = Some v → typed (pt_schema (base_point (cq_id request) schema observed s)) v)
    by (intros v Hval; eapply base_point_typed; eauto).
  revert Hg Hb Htv. generalize (base_point (cq_id request) schema observed s). intros p Hg Hb Htv.
  unfold next_slots, Point.set_slots. destruct (cq_level request) as [n|] eqn:Hn.
  - destruct (lookup_lt_is_Some_2 (pt_slots p) (N.to_nat (n - 1))) as [old Hold].
    { rewrite (pt_length _ Hb). specialize (Hlv n eq_refl). lia. }
    replace (alter _ _ _) with (<[N.to_nat (n - 1) := next_slot request value who old]> (pt_slots p)).
    2:{ apply list_eq. intros i. destruct (decide (i = N.to_nat (n - 1))) as [->|Hi].
        - rewrite list_lookup_insert_eq by (by eapply lookup_lt_Some). by rewrite list_lookup_alter_eq, Hold.
        - by rewrite list_lookup_insert_ne, list_lookup_alter_ne by done. }
    apply replace_ok; [done|exact Htv| |by eapply Hg].
    cbn. destruct (cq_duration request) as [d|]; [|done]. intros _.
    destruct (Hdu d eq_refl) as [[= ->] Hval]. by split.
  - by apply rebind_ok.
Qed.

(** The point that is already there is one of the schema just read, on the
    same incarnation and catalog, and no change since it was written touched
    its schema; or there is room for another point. *)
Definition bound_to (id : string) (schema : Schema) (observed : GraphState) (s : Store.t) : Prop :=
  match Store.points s !! id with
  | Some p =>
      schema_eqb (pt_schema p) schema = true ∧
      state_incarnation (pt_graph p) = state_incarnation observed ∧
      state_catalog (pt_graph p) = state_catalog observed ∧
      let c := EntityGraph.changelog (sc_published scene) in
      ∃ start, ChangeLog.change_units_since c (EntityGraph.version (sc_published scene))
                 (state_revision (pt_graph p)) = Ok start ∧
        Forall (λ unit, forallb (diff_keeps reg service id (pt_schema p)) unit = true)
          (ChangeLog.drain (length (ChangeLog.log c)) (ChangeLog.log c) start)
  | None => (N.of_nat (size (Store.points s)) < CommandLimits.max_points (cs_limits service))%N
  end.
Lemma bound_agrees id schema observed s : bound_to id schema observed s → agrees id schema s.
Proof. unfold bound_to, agrees. intros Hb p Hp. rewrite Hp in Hb. by destruct Hb. Qed.

(** The guards of the critical section, from the check [m] on: the pinned
    catalog, the state of the graph, the session and the service at its
    beginning and again right before the dispatch, and the point. *)
Record entered (session : SubscriptionSession) (id : string) (b : Budget) (schema : Schema)
    (observed : GraphState) (m : nat) (s : Store.t) : Prop := {
  en_catalog : (check_catalog (sc_published scene) b).1 = Ok ();
  en_state : EntityGraph.state (sc_published scene) = observed;
  en_checks : ∃ k1 k2, m ≤ k1 ∧ k1 < k2 ∧ vetted b session k1 ∧ vetted b session k2;
  en_point : bound_to id schema observed s
}.
(** The guards of the try that got there: neither lock was taken, its own
    check passed, and the policies were still of the scopes they had. *)
Definition cleared (session : SubscriptionSession) (id : string) (b : Budget) (command : CommandSnapshot)
    (policy : PolicySnapshot) (schema : Schema) (observed : GraphState) (m : nat) (s : Store.t) : Prop :=
  ∃ i command' policy' k,
    sc_busy scene i = Free ∧ m ≤ k ∧ vetted b session k ∧
    sc_command scene (AtTry i) = Ok command' ∧ sc_read scene (AtTry i) = Ok policy' ∧
    c_scope_key command' = c_scope_key command ∧ scope_key policy' = scope_key policy ∧
    entered session id b schema observed (S k) s.

(** What a critical section may do: nothing, only the expiry, or the command;
    the last one, and no other, when it succeeds, and then its guards [G] were
    passed. *)
Definition acts (G : nat → Store.t → Prop) (request : CommandRequest) (schema : Schema)
    (observed : GraphState) (value : option Kind) (who : string) {A} (r : result ApiError A)
    (w w' : World) : Prop :=
  w_pending w' = w_pending w ∧
  match r with
  | Err _ =>
      w_attempt w' = w_attempt w ∧
      (w_store w' = w_store w ∨ w_store w' = swept (sc_expire_at scene) (w_store w))
  | Ok _ =>
      dispatched (CommandRequest.action request) (w_attempt w) (w_attempt w') ∧
      G (ticks (w_budget w)) (swept (sc_expire_at scene) (w_store w)) ∧
      w_store w' = commanded request schema observed value who (w_store w)
  end ∧ store_ok (cs_limits service) (w_store w').

(** The scan of the changes since a point was written. *)
Lemma scan_wp (f : list GraphDiff → bool) units w :
  wp (fold_k (λ (_ : ()) unit, lift (charge BWork (len unit + 1)%N);; guard (f unit) ApiUnavailable) () units)
    (λ r w', close w w' ∧ ∀ a, r = Ok a → Forall (λ unit, f unit = true) units) w.
Proof.
  revert w. induction units as [|u units IH]; intros w; [by split; [|constructor]|]. cbn [fold_k].
  apply runs_bind. apply wp_close_bind; [apply close_lift; eauto with timely| |].
  2:{ intros e w' Hw. by split. }
  intros _ w1 Hw1. unfold guard. destruct (f u) eqn:Hu; [|by split].
  apply (runs_mono _ _ (λ r w', close w w' ∧ ∀ a, r = Ok a → Forall (λ unit, f unit = true) (u :: units))
           _ (IH w1)).
  intros r w' [Hw' Hall]. split; [by etrans|]. intros a Ha. constructor; eauto.
Qed.
Lemma bound_wp id schema observed s w :
  wp (match Store.points s !! id with
      | Some p => still_bound reg service scene id p schema observed
      | None => guard (N.of_nat (size (Store.points s)) <? CommandLimits.max_points (cs_limits service))%N
                  ApiUnavailable
      end)
    (λ r w', close w w' ∧ ∀ a, r = Ok a → bound_to id schema observed s) w.
Proof.
  unfold bound_to. destruct (Store.points s !! id) as [p|] eqn:Hp.
  - unfold still_bound. apply wp_guard_bind; [|by split]. intros Hg.
    rewrite !andb_true_iff, !bool_decide_eq_true in Hg. destruct Hg as [[Hg Hi] Hc].
    apply wp_try_bind; [intros start Hs|by split].
    destruct (ChangeLog.change_units_since _ _ _) as [n|] eqn:Hn; [|done]. injection Hs as <-.
    eapply runs_mono; [apply scan_wp|]. intros r w' [Hw Hall]. split; [done|]. intros a Ha.
    split_and!; [done..|]. exists n. split; [done|]. by eapply Hall.
  - unfold guard. destruct (_ <? _)%N eqn:Hlt; cbn; split; try reflexivity; [|done].
    intros _ _. by apply N.ltb_lt.
Qed.

Section acting.
Context (request : CommandRequest) (schema : Schema) (observed : GraphState).
Context (value : option Kind) (who : string) (session : SubscriptionSession) (b0 : Budget).
Abbreviation acting G := (acts G request schema observed value who).
Abbreviation entered_here := (entered session (cq_id request) b0 schema observed).

Lemma acts_untouched {A} G e w w' :
  store_ok (cs_limits service) (w_store w) → same w w' → acting G (@Err ApiError A e) w w'.
Proof. intros Hok [Hs Ha Hp]. split; [done|]. rewrite Hs. auto. Qed.
Lemma acts_swept {A} G e w w1 w' :
  store_ok (cs_limits service) (w_store w) → same w w1 →
  same (set_store (swept (sc_expire_at scene) (w_store w)) w1) w' → acting G (@Err ApiError A e) w w'.
Proof.
  intros Hok [_ Ha1 Hp1] [Hs Ha Hp]. cbn in *. split; [congruence|]. rewrite Hs.
  split; [|by apply swept_ok]. split; [congruence|by right].
Qed.

(** The end of the critical section: the dispatch and the new store. *)
Lemma commit_wp w p store total :
  wp ((if bool_decide (CommandRequest.action request = Inspect) then mret ()
       else
         cell ← gets w_attempt;
         match cell with
         | None => fail ApiInternal
         | Some cell =>
             let '(cell, r) := CommandAttempt.dispatch cell in
             modify (set_attempt (Some cell));; try r
         end);;
      modify (set_store (Store.mk (<[cq_id request := p]> (Store.points store)) total));;
      mret (pt_slots p))
    (λ r w', match r with
       | Ok slots => slots = pt_slots p ∧
           dispatched (CommandRequest.action request) (w_attempt w) (w_attempt w') ∧
           w_store w' = Store.mk (<[cq_id request := p]> (Store.points store)) total ∧
           w_pending w' = w_pending w
       | Err _ => same w w'
       end) w.
Proof.
  unfold dispatched. case_bool_decide as Ha.
  - cbn. done.
  - apply runs_bind. unfold gets, wp, mbind, K_bind.
    destruct w as [b st [cell|] pd]; [|done]. cbn. unfold CommandAttempt.dispatch, CommandAttempt.compare_exchange.
    case_decide as Hc; [subst; cbn; done|]. cbn. done.
Qed.

Lemma acts_committed w w' total (slots : list Slot) :
  let s := swept (sc_expire_at scene) (w_store w) in
  let p := next_point request schema observed value who s in
  store_ok (cs_limits service) (w_store w) → sound request schema value →
  entered_here (ticks (w_budget w)) s →
  (∀ n old, cq_level request = Some n →
     pt_slots (base_point (cq_id request) schema observed s) !! N.to_nat (n - 1) = Some old →
     (sl_generation old + 1 ≤ u64_max)%N) →
  total = (Store.bytes s - from_option (λ p, Point.bytes p (cq_id request)) 0
             (Store.points s !! cq_id request) + Point.bytes p (cq_id request))%N →
  (total ≤ CommandLimits.max_retained_bytes (cs_limits service))%N →
  dispatched (CommandRequest.action request) (w_attempt w) (w_attempt w') →
  w_store w' = Store.mk (<[cq_id request := p]> (Store.points s)) total →
  w_pending w' = w_pending w → acting entered_here (Ok slots) w w'.
Proof.
  intros s p Hok Hso Hen Hgen -> Hmax Hd Hst Hpd. pose proof (en_point _ _ _ _ _ _ _ Hen) as Hbound.
  assert (Hs : store_ok (cs_limits service) s) by (by apply swept_ok).
  rewrite (st_bytes _ _ Hs), <- weight_replace in Hmax, Hst.
  split; [done|]. rewrite Hst. split; [done|].
  apply (stored_ok _ (cq_id request) p s Hs); [|done|].
  - eapply next_point_ok; [done..|by eapply bound_agrees|done].
  - intros Hnone. unfold bound_to in Hbound. by rewrite Hnone in Hbound.
Qed.

Lemma publish_wp w :
  store_ok (cs_limits service) (w_store w) → sound request schema value →
  MeterFacts.same_request b0 (w_budget w) →
  wp (publish reg service scene session request schema observed value who)
    (λ r w', acting entered_here r w w') w.
Proof.
  intros Hok Hso Hb0. unfold publish.
  pose proof (λ e w' Hw, @acts_untouched (list Slot) entered_here e w w' Hok Hw) as Hno.
  apply runs_bind. unfold wp at 1, lift at 1, lift_api at 1.
  pose proof (timely_catalog (sc_published scene) (w_budget w)) as Hrb.
  destruct (check_catalog (sc_published scene) (w_budget w)) as [[[]|e] b1] eqn:Hcat; [|by apply Hno].
  assert (Hcat0 : (check_catalog (sc_published scene) b0).1 = Ok ())
    by (eapply catalog_same; [exact Hb0|by rewrite Hcat]).
  assert (Hc1 : close w (set_budget b1 w)) by (by split).
  apply wp_guard_bind; [intros Hst%bool_decide_eq_true|by apply Hno].
  apply runs_bind. eapply runs_mono; [apply (check_command_wp b0); by etrans; [|apply Hc1]|].
  intros [[]|e] w2 (Hc2 & _ & Hv1); [|apply Hno; etrans; [apply Hc1|apply Hc2]].
  destruct (Hv1 () eq_refl) as [Ht1 Hvet1]. assert (Hw : close w w2) by (by etrans).
  set (s1 := swept (sc_expire_at scene) (w_store w)).
  pose proof (λ e w', @acts_swept (list Slot) entered_here e w w2 w' Hok (close_same _ _ Hw)) as Hsw.
  assert (Hs1 : store_ok (cs_limits service) s1) by (by apply swept_ok).
  apply runs_bind. unfold gets, wp at 1. rewrite (same_store _ _ (close_same _ _ Hw)).
  apply runs_bind. unfold must, wp at 1. rewrite (expire_exact _ _ (st_bytes _ _ Hok)). fold s1.
  apply runs_bind. unfold modify, wp at 1.
  apply runs_bind. eapply runs_mono; [apply bound_wp|].
  intros [[]|e] w3 [Hw3 Hb]; [specialize (Hb () eq_refl)|by apply Hsw, close_same].
  change (match Store.points s1 !! cq_id request with
          | Some p => mkPoint (pt_schema p) observed (pt_slots p) (pt_effective p) (pt_level p)
          | None => Point.new schema observed end)
    with (base_point (cq_id request) schema observed s1).
  apply runs_bind. eapply runs_mono; [apply write_point_wp; [apply (so_level _ _ _ Hso)|]|].
  { eapply pt_length, base_point_ok; [exact Hs1|apply Hso]. }
  intros [p|e] w4 [-> Hp]; [|by apply Hsw, close_same]. destruct Hp as [-> Hgen].
  fold (next_point request schema observed value who s1).
  apply wp_try_bind; [|intros e _; by apply Hsw, close_same].
  intros total Htot. destruct (checked_add _ _ _) as [t|] eqn:Hadd; [|done].
  injection Htot as ->. apply checked_add_Some in Hadd as [Htotal _].
  apply wp_guard_bind; [intros Hmax%N.leb_le|by apply Hsw, close_same].
  apply runs_bind. eapply runs_mono; [apply (check_command_wp b0)|].
  { etrans; [exact Hb0|]. etrans; [apply (close_request _ _ Hw)|]. apply (close_request _ _ Hw3). }
  intros [[]|e] w5 (Hc5 & _ & Hv2); [|apply Hsw; etrans; [apply Hw3|apply Hc5]].
  destruct (Hv2 () eq_refl) as [_ Hvet2].
  assert (Hw5 : same (set_store s1 w2) w5) by (etrans; [apply Hw3|apply Hc5]).
  eapply runs_mono; [apply commit_wp|]. intros [slots|e] w6 H6; [|apply Hsw; by etrans].
  destruct H6 as (-> & Hd & Hst6 & Hpd). eapply acts_committed; try done.
  - split; [done..| |done]. exists (ticks (w_budget (set_budget b1 w))), (ticks (w_budget w3)).
    split_and!; [apply Hc1| |done..].
    pose proof (MeterFacts.same_ticks _ _ (close_request _ _ Hw3)) as Hle. cbn in Hle. cbn in Ht1 |- *. lia.
  - assert (w_attempt w5 = w_attempt w) as <- by
      (by rewrite (same_attempt _ _ Hw5), <- (same_attempt _ _ (close_same _ _ Hw))). exact Hd.
  - by rewrite Hpd, (same_pending _ _ Hw5), <- (same_pending _ _ (close_same _ _ Hw)).
Qed.

Abbreviation cleared_by command policy := (cleared session (cq_id request) b0 command policy schema observed).
Lemma cleared_earlier command policy m m' s :
  m ≤ m' → cleared_by command policy m' s → cleared_by command policy m s.
Proof.
  intros Hle (i & c & p & k & Hb & Hk & H). exists i, c, p, k. split; [done|]. split; [lia|done].
Qed.
Lemma acts_close {A} command policy (r : result ApiError A) w w1 w' :
  close w w1 → acting (cleared_by command policy) r w1 w' → acting (cleared_by command policy) r w w'.
Proof.
  intros [[Hs Ha Hp] Hb] (Hp' & Hr & Hok). split; [congruence|]. split; [|done].
  rewrite Hs, Ha in Hr. destruct r as [a|e]; [|done]. destruct Hr as (? & Hcl & ?).
  split_and!; [done| |done]. eapply cleared_earlier; [|done]. apply Hb.
Qed.

(** The try that is not hindered. *)
Lemma acts_cleared {A C} i command policy command' policy' k (r : result ApiError A) (r' : result ApiError C) w w1 w' :
  sc_busy scene i = Free → sc_command scene (AtTry i) = Ok command' → sc_read scene (AtTry i) = Ok policy' →
  c_scope_key command' = c_scope_key command → scope_key policy' = scope_key policy →
  ticks (w_budget w) = k → ticks (w_budget w1) = S k → vetted b0 session k → close w w1 →
  (∀ e, r' = Err e → ∃ e', r = Err e') → (∀ a, r' = Ok a → ∃ x, r = Ok x) →
  acting entered_here r w1 w' → acting (cleared_by command policy) r' w w'.
Proof.
  intros Hf Hc Hp Hck Hpk Hk Hk1 Hv [[Hs Ha Hpd] _] Hfail Hsucc (Hp' & Hr & Hok). split; [congruence|]. split; [|done].
  rewrite Hs, Ha in Hr. destruct r' as [a|e].
  - destruct (Hsucc a eq_refl) as [x ->]. destruct Hr as (? & Hen & ?). split_and!; [done| |done].
    rewrite Hk1 in Hen. exists i, command', policy', k. split_and!; try done. lia.
  - by destruct (Hfail e eq_refl) as [e' ->].
Qed.

(** The loop ends within the work that is left, and only its last round acts. *)
Lemma tries_wp fuel i command policy w :
  work_left w < fuel → store_ok (cs_limits service) (w_store w) → sound request schema value →
  MeterFacts.same_request b0 (w_budget w) →
  wp (tries reg service scene fuel i session request schema observed value who command policy)
    (λ r w', acting (cleared_by command policy) r w w') w.
Proof.
  revert i w. induction fuel as [|fuel IH]; intros i w Hfuel Hok Hso Hb0; [lia|].
  pose (Q := λ (r : result ApiError (list Slot * CommandSnapshot * PolicySnapshot)) (w' : World),
    acting (cleared_by command policy) r w w').
  change (wp (tries reg service scene (S fuel) i session request schema observed value who command policy)
            Q w). cbn [tries].
  assert (Herr : ∀ e w', close w w' → Q (Err e) w') by (intros e w' []; by apply acts_untouched).
  apply runs_bind. eapply runs_mono; [by apply (check_command_wp b0)|].
  intros [[]|e] w1 (Hw1 & Hleft & Hv); [destruct (Hv () eq_refl) as [Ht Hvet]|by exact (Herr e _ Hw1)].
  unfold or_read.
  apply wp_try_bind; [intros command' Hc|intros e _; exact (Herr e w1 Hw1)].
  apply wp_try_bind; [intros policy' Hp|intros e _; exact (Herr e w1 Hw1)].
  apply wp_guard_bind; [intros [Hck%bool_decide_eq_true Hpk%bool_decide_eq_true]%andb_true_iff|exact (Herr _ w1 Hw1)].
  assert (Hagain : ∀ w2, close w w2 → work_left w2 = work_left w →
    wp (lift (charge BWork 1);;
        tries reg service scene fuel (S i) session request schema observed value who command policy)
      Q w2).
  { intros w2 Hw2 Hl2. apply runs_bind. eapply runs_mono; [apply wp_and;
      [apply charge_work_wp|apply (close_lift (charge BWork 1)); eauto with timely]|].
    intros [[]|e] w3 [[_ Hlt] Hw3]; [|exact (Herr e w3 ltac:(by etrans))].
    assert (Hw : close w w3) by (by etrans).
    eapply runs_mono; [apply IH|].
    - specialize (Hlt () eq_refl). lia.
    - by rewrite (same_store _ _ (close_same _ _ Hw)).
    - done.
    - etrans; [exact Hb0|apply Hw].
    - intros r w' Ha. by eapply acts_close. }
  destruct (sc_busy scene i) eqn:Hbusy.
  - apply runs_bind. eapply runs_mono; [apply wp_and; [apply wait_work_wp|apply (close_lift wait_quantum); eauto with timely]|].
    intros [q|e] w2 [[_ Hl2] Hw2].
    + apply Hagain; [by etrans|congruence].
    + exact (Herr e w2 ltac:(by etrans)).
  - by apply Hagain.
  - destruct (sc_command scene (AtTry i)) as [c0|] eqn:Hsc; [|done]. injection Hc as <-.
    destruct (sc_read scene (AtTry i)) as [p0|] eqn:Hsp; [|done]. injection Hp as <-.
    apply runs_bind. eapply runs_mono; [apply publish_wp; [by rewrite (same_store _ _ (close_same _ _ Hw1))|done|]|].
    { etrans; [exact Hb0|apply Hw1]. }
    intros [slots|e] w2 Ha; (eapply acts_cleared; try done); by eauto.
Qed.
End acting.

(** ** The whole command *)

(** The guards a command passed before it could act: at some check of the
    request [b], its budget, its session and the service, and then its
    principal, itself and the policies it was prepared under. *)
Record authorized (b : Budget) (principal : Principal) (session : SubscriptionSession)
    (request : CommandRequest) (expected : option string) (command : CommandSnapshot)
    (policy : PolicySnapshot) (who : string) : Prop := {
  au_check : vetted b session (ticks b);
  au_session : se_principal session = principal;
  au_transport : transport principal (CommandRequest.action request) = true;
  au_mode : CommandRequest.action request = Inspect ∨ cs_mode service = Writable;
  au_request : well_formed service request = true;
  au_command : sc_command scene AtPrepare = Ok command;
  au_policy : sc_read scene AtPrepare = Ok policy;
  au_keys : (str_len (c_scope_key command) ≤ 1024 ∧ str_len (scope_key policy) ≤ 1024)%N;
  au_action : c_action command (CommandRequest.action request) = true;
  au_scope s : expected = Some s → s = scope_key policy;
  au_read : CommandRequest.action request = Inspect → p_operation policy OpRead = true;
  au_point : c_point command (cq_id request) (CommandRequest.action request) = true;
  au_entity : p_entity policy (cq_id request) = true ∧ p_tag policy (cq_id request) "id" = true;
  au_tags : Forall (λ tag, p_tag policy (cq_id request) tag = true) schema_tags;
  au_who : ∃ s, subject principal = Some s ∧ who = default s (cq_who request) ∧
    (str_len who ≤ CommandLimits.max_who_bytes (cs_limits service))%N
}.

Lemma authorize_wp principal session request expected w :
  wp (authorize service scene principal session request expected)
    (λ r w', close w w' ∧
       ∀ command policy who, r = Ok (command, policy, who) →
         ticks (w_budget w) < ticks (w_budget w') ∧
         authorized (w_budget w) principal session request expected command policy who) w.
Proof.
  unfold authorize. apply runs_bind. eapply runs_mono; [by apply (check_command_wp (w_budget w))|].
  intros [[]|e] w' (Hw & _ & Hv); [|by split]. destruct (Hv () eq_refl) as [Ht Hvet]. clear Hv.
  assert (Hbad : ∀ (e : ApiError), close w w' ∧ ∀ command policy who,
            @Err ApiError (CommandSnapshot * PolicySnapshot * string) e = Ok (command, policy, who) →
            ticks (w_budget w) < ticks (w_budget w') ∧
            authorized (w_budget w) principal session request expected command policy who) by done.
  apply wp_guard_bind; [intros Hse%bool_decide_eq_true|apply Hbad].
  apply wp_guard_bind; [intros Htr|apply Hbad].
  apply wp_guard_bind; [intros Hmo|apply Hbad].
  apply wp_guard_bind; [intros Hwf|apply Hbad].
  unfold or_read. destruct (sc_command scene AtPrepare) as [command|e] eqn:Hc; [|apply Hbad].
  apply wp_try_bind; [intros ? [= <-]|by intros e _; apply Hbad].
  destruct (sc_read scene AtPrepare) as [policy|e] eqn:Hp; [|apply Hbad].
  apply wp_try_bind; [intros ? [= <-]|by intros e _; apply Hbad].
  apply wp_guard_bind; [intros [Hk1%N.ltb_ge Hk2%N.ltb_ge]%negb_true_iff%orb_false_iff|apply Hbad].
  apply wp_guard_bind; [intros Hca|apply Hbad].
  apply wp_guard_bind; [intros Hex|apply Hbad].
  apply wp_guard_bind; [intros Hrd|apply Hbad].
  apply wp_guard_bind; [intros [[Hpt Hen]%andb_true_iff Hid]%andb_true_iff|apply Hbad].
  apply wp_guard_bind; [intros Htags|apply Hbad].
  apply wp_try_bind; [intros s Hs|by intros e _; apply Hbad].
  apply wp_guard_bind; [intros Hlen%N.leb_le|apply Hbad].
  split; [done|]. intros ? ? who [= <- <- <-]. split; [lia|]. split; try done.
  - apply orb_true_iff in Hmo as [H%bool_decide_eq_true|H%bool_decide_eq_true]; auto.
  - intros s' ->. by apply bool_decide_eq_true in Hex.
  - intros Ha. by rewrite (bool_decide_eq_true_2 _ Ha) in Hrd.
  - apply Forall_forall. intros tag Hin. rewrite forallb_forall in Htags.
    by apply Htags, list_elem_of_In.
  - exists s. split; [|by split]. destruct (subject principal); [by injection Hs as ->|done].
Qed.

(** What a command publishes is what was read, and what it was asked. *)
Record intent (b : Budget) (request : CommandRequest) (schema : Schema) (observed : GraphState)
    (value : option Kind) : Prop := {
  in_row : ∃ row, EntityGraph.get (sc_prepared scene) (cq_id request) = Some row ∧
    Schema.read reg row (CommandLimits.max_value_bytes (cs_limits service)) = Ok schema;
  in_observed : EntityGraph.state (sc_prepared scene) = observed;
  in_catalog : (check_catalog (sc_prepared scene) b).1 = Ok ();
  in_value :
    match CommandRequest.action request with
    | SetValue => ∃ v v', cq_value request = Some v ∧ value = Some v' ∧
        Schema.normalize reg schema v (CommandLimits.max_value_bytes (cs_limits service)) = Ok v'
    | _ => value = None
    end
}.

Lemma observe_wp id w :
  wp (observe reg service scene id)
    (λ r w', close w w' ∧ ∀ schema observed, r = Ok (schema, observed) →
       (∃ row, EntityGraph.get (sc_prepared scene) id = Some row ∧
          Schema.read reg row (CommandLimits.max_value_bytes (cs_limits service)) = Ok schema) ∧
       EntityGraph.state (sc_prepared scene) = observed ∧
       ∀ b0, MeterFacts.same_request b0 (w_budget w) → (check_catalog (sc_prepared scene) b0).1 = Ok ()) w.
Proof.
  unfold observe. apply wp_close_bind; [apply close_lift; eauto with timely| |by split]. intros _ w1 Hw1.
  apply runs_bind. pose proof (close_lift (check_catalog (sc_prepared scene)) ltac:(eauto with timely) w1) as Hw2.
  unfold wp, lift, lift_api in Hw2 |- *. pose proof (catalog_same (sc_prepared scene) (w_budget w1)) as Hcat.
  destruct (check_catalog (sc_prepared scene) (w_budget w1)) as [[[]|e] b1]; cbn in Hw2.
  2:{ split; [by etrans|done]. }
  set (w2 := set_budget b1 w1) in *. fold (@lift). assert (Hw : close w w2) by (by etrans).
  change (wp (row ← try (match EntityGraph.get (sc_prepared scene) id with
             | Some row => Ok row
             | None => Err ApiUnknownEntity
             end);
          schema ← try (Schema.read reg row (CommandLimits.max_value_bytes (cs_limits service)));
          mret (schema, EntityGraph.state (sc_prepared scene)))
    (λ r w', close w w' ∧ ∀ schema observed, r = Ok (schema, observed) →
       (∃ row, EntityGraph.get (sc_prepared scene) id = Some row ∧
          Schema.read reg row (CommandLimits.max_value_bytes (cs_limits service)) = Ok schema) ∧
       EntityGraph.state (sc_prepared scene) = observed ∧
       ∀ b0, MeterFacts.same_request b0 (w_budget w) → (check_catalog (sc_prepared scene) b0).1 = Ok ()) w2).
  apply wp_try_bind; [intros row Hrow|by split].
  destruct (EntityGraph.get _ _) as [row'|] eqn:Hg; [|done]. injection Hrow as ->.
  apply wp_try_bind; [intros schema Hs|by split].
  split; [done|]. intros ? ? [= <- <-]. split_and!; [by exists row|done|].
  intros b0 Hb0. apply Hcat; [|done]. etrans; [exact Hb0|apply Hw1].
Qed.

Lemma well_formed_level request n :
  well_formed service request = true → cq_level request = Some n → (1 ≤ n ≤ 17)%N.
Proof.
  unfold well_formed. intros Hw Hn. rewrite Hn in Hw. apply negb_true_iff in Hw.
  rewrite !orb_false_iff in Hw. destruct Hw as [[_ Hl%negb_false_iff] _].
  apply andb_true_iff in Hl as [?%N.leb_le ?%N.leb_le]. lia.
Qed.
Lemma well_formed_duration request d :
  well_formed service request = true → cq_duration request = Some d →
  cq_level request = Some 8%N ∧ CommandRequest.action request = SetValue ∧ (0 < d)%N ∧
  (d ≤ CommandLimits.max_duration (cs_limits service))%N.
Proof.
  unfold well_formed. intros Hw Hd. rewrite Hd in Hw. apply negb_true_iff in Hw.
  rewrite !orb_false_iff in Hw. destruct Hw as [_ [[[Hz Hm] Hl%negb_false_iff] Ha%negb_false_iff]].
  apply bool_decide_eq_true in Hl, Ha. apply N.eqb_neq in Hz. apply N.ltb_ge in Hm.
  split; [done|split; [done|split; [lia|done]]].
Qed.

Lemma intent_sound b principal session request expected command policy who schema observed value :
  authorized b principal session request expected command policy who →
  intent b request schema observed value → sound request schema value.
Proof.
  intros Hau [(row & _ & Hread) _ _ Hv]. split.
  - intros n. apply well_formed_level, Hau.
  - intros d Hd. destruct (well_formed_duration request d) as (Hl & Ha & _); [apply Hau|done|].
    rewrite Ha in Hv. destruct Hv as (v & v' & _ & -> & _). done.
  - by eapply read_schema_ok.
  - intros v ->. destruct (CommandRequest.action request); try done.
    destruct Hv as (u & v' & _ & [= <-] & Hn). by eapply normalize_typed.
Qed.

(** The command of a request that starts with the budget [b] was performed on
    the store [s]: every guard of the preparation, then of the try that
    published, then of the critical section was passed, and the store is the
    one it was asked for. *)
Definition performed (b : Budget) (principal : Principal) (session : SubscriptionSession)
    (request : CommandRequest) (expected : option string) (s s' : Store.t) : Prop :=
  ∃ command policy schema observed value who,
    authorized b principal session request expected command policy who ∧
    sc_native scene = true ∧
    intent b request schema observed value ∧
    cleared session (cq_id request) b command policy schema observed (S (ticks b))
      (swept (sc_expire_at scene) s) ∧
    s' = commanded request schema observed value who s.

(** What a command that returns did: without success, nothing or the expiry;
    otherwise - and always when it succeeds - what it was asked, once.  The
    counter of pending commands is as before. *)
Definition effect (principal : Principal) (session : SubscriptionSession) (request : CommandRequest)
    (expected : option string) {T} (r : result ApiError T) (w w' : World) : Prop :=
  w_pending w' = w_pending w ∧ store_ok (cs_limits service) (w_store w') ∧
  ((∃ e, r = Err e) ∧ w_attempt w' = w_attempt w ∧
   (w_store w' = w_store w ∨ w_store w' = swept (sc_expire_at scene) (w_store w))
   ∨ dispatched (CommandRequest.action request) (w_attempt w) (w_attempt w') ∧
     performed (w_budget w) principal session request expected (w_store w) (w_store w')).

(** An inspection leaves every point with the levels it had, and may only add
    its own point with the levels of a new one. *)
Definition only_inspected (id : string) (s s' : Store.t) : Prop :=
  (∀ id' p, Store.points s !! id' = Some p →
     ∃ p', Store.points s' !! id' = Some p' ∧ pt_slots p' = pt_slots p ∧ pt_effective p' = pt_effective p) ∧
  (∀ id' p', Store.points s !! id' = None → Store.points s' !! id' = Some p' →
     id' = id ∧ ∃ schema observed, pt_slots p' = pt_slots (Point.new schema observed)).
Lemma performed_inspects b principal session request expected s s' :
  CommandRequest.action request = Inspect → store_ok (cs_limits service) s →
  performed b principal session request expected s s' →
  only_inspected (cq_id request) (swept (sc_expire_at scene) s) s'.
Proof.
  intros Ha Hok (command & policy & schema & observed & value & who & _ & _ & _ & _ & ->).
  assert (Hlv : cq_level request = None).
  { unfold CommandRequest.action in Ha. destruct (cq_level request); [|done]. by repeat case_match. }
  assert (Hs : store_ok (cs_limits service) (swept (sc_expire_at scene) s)) by (by apply swept_ok).
  unfold commanded, stored, next_point, next_slots. rewrite Hlv. cbn [Store.points].
  revert Hs. generalize (swept (sc_expire_at scene) s). clear s Hok. intros s Hs.
  assert (Hslots : ∀ q, pt_slots (Point.resolve (Point.set_slots (pt_slots q) q)) = pt_slots q)
    by (intros q; by rewrite resolve_slots).
  split; cbn [Store.points]; intros id' p Hp.
  - destruct (decide (id' = cq_id request)) as [->|Hne].
    + rewrite lookup_insert_eq. eexists. split; [done|]. rewrite Hslots. unfold base_point. rewrite Hp. split; [done|].
      pose proof (pt_resolved _ (st_points _ _ Hs _ _ Hp)) as Hr. unfold Point.resolve in Hr |- *. cbn.
      destruct (Point.first_value 1 (pt_slots p)) as [[v n]|]; rewrite <- Hr; done.
    + rewrite lookup_insert_ne by done. by exists p.
  - intros Hp'. destruct (decide (id' = cq_id request)) as [->|Hne].
    + rewrite lookup_insert_eq in Hp'. injection Hp' as <-. split; [done|]. exists schema, observed.
      rewrite Hslots. unfold base_point. by rewrite Hp.
    + rewrite lookup_insert_ne in Hp' by done. congruence.
Qed.

Section running.
Context (principal : Principal) (session : SubscriptionSession) (request : CommandRequest).
Context (expected : option string) {T : Type}.

Lemma effect_untouched e w w' :
  store_ok (cs_limits service) (w_store w) → same w w' →
  effect principal session request expected (@Err ApiError T e) w w'.
Proof.
  intros Hok [Hs Ha Hp]. split; [done|]. rewrite Hs. split; [done|]. left. split; [by exists e|auto].
Qed.
(** What follows the publication changes nothing that others see. *)
Lemma effect_after {A} (r : result ApiError A) (m : K T) w w' :
  (∃ a, r = Ok a) → calm m → effect principal session request expected r w w' →
  wp m (λ r' w'', effect principal session request expected r' w w'') w'.
Proof.
  intros [a ->] Hm (Hp & Hok & [[[e He] _]|Hc]); [done|].
  eapply runs_mono; [apply Hm|]. intros r' w'' [Hs Ha Hp']. split; [congruence|].
  rewrite Hs. split; [done|]. right. by rewrite Ha.
Qed.

Lemma acts_effect {A} (r : result ApiError A) command policy schema observed value who w w1 w' :
  close w w1 → ticks (w_budget w) < ticks (w_budget w1) →
  authorized (w_budget w) principal session request expected command policy who →
  sc_native scene = true → intent (w_budget w) request schema observed value →
  acts (cleared session (cq_id request) (w_budget w) command policy schema observed)
    request schema observed value who r w1 w' →
  effect principal session request expected r w w'.
Proof.
  intros [[Hs Ha Hp] _] Ht Hau Hna Hin (Hp' & Hr & Hok). split; [congruence|split; [done|]].
  rewrite Hs, Ha in Hr. destruct r as [a|e].
  - right. destruct Hr as (Hd & Hcl & Hst). split; [done|]. exists command, policy, schema, observed, value, who.
    split_and!; try done. eapply cleared_earlier; [|exact Hcl]. lia.
  - left. destruct Hr as [Ha' Hst]. split; [by exists e|done].
Qed.

Lemma value_wp schema w :
  wp (if bool_decide (CommandRequest.action request = SetValue) then
        v ← try (match cq_value request with Some v => Ok v | None => Err ApiInvalidArgs end);
        v ← try (Schema.normalize reg schema v (CommandLimits.max_value_bytes (cs_limits service)));
        mret (Some v)
      else mret None : K (option Kind))
    (λ r w', w' = w ∧ ∀ value, r = Ok value →
       match CommandRequest.action request with
       | SetValue => ∃ v v', cq_value request = Some v ∧ value = Some v' ∧
           Schema.normalize reg schema v (CommandLimits.max_value_bytes (cs_limits service)) = Ok v'
       | _ => value = None
       end) w.
Proof.
  case_bool_decide as Ha; [rewrite Ha|].
  - destruct (cq_value request) as [v|]; [|by split].
    apply wp_try_bind; [intros ? [= <-]|by split].
    apply wp_try_bind; [intros v' Hv'|by split]. split; [done|]. intros value [= <-]. by exists v, v'.
  - split; [done|]. intros value [= <-]. by destruct (CommandRequest.action request).
Qed.

Lemma run_wp fuel (encode : HGrid → Budget → result ApiError T * Budget) w :
  N.to_nat (ReadLimits.max_work (limits (w_budget w))) < fuel →
  store_ok (cs_limits service) (w_store w) →
  wp (run reg service scene fuel principal session request expected encode)
    (λ r w', effect principal session request expected r w w') w.
Proof.
  intros Hfuel Hok. unfold run.
  assert (Herr : ∀ e w', close w w' → effect principal session request expected (@Err ApiError T e) w w')
    by (intros e w' []; by apply effect_untouched).
  apply runs_bind. eapply runs_mono; [apply authorize_wp|].
  intros [[[command policy] who]|e] w1 [Hw1 Hau]; [|by apply Herr]. destruct (Hau _ _ _ eq_refl) as [Ht1 Hau1].
  apply wp_close_bind; [apply close_lift; eauto with timely| |intros e w2 Hw2; apply Herr; by etrans].
  intros _ w2 Hw2. assert (Hw02 : close w w2) by (by etrans).
  apply wp_guard_bind; [intros Hna|by apply Herr].
  apply runs_bind. eapply runs_mono; [apply observe_wp|].
  intros [[schema observed]|e] w3 [Hw3 Hob]; [|apply Herr; by etrans].
  destruct (Hob _ _ eq_refl) as (Hrow & Hst & Hcat). specialize (Hcat _ (close_request _ _ Hw02)).
  assert (Hw : close w w3) by (by etrans).
  apply runs_bind. eapply runs_mono; [apply value_wp|].
  intros [value|e] w4 [-> Hval]; [|by apply Herr]. specialize (Hval _ eq_refl).
  assert (Hin : intent (w_budget w) request schema observed value) by (by split).
  apply runs_bind. eapply runs_mono; [apply (tries_wp _ _ _ _ _ session (w_budget w))|].
  - unfold work_left, work_remaining. rewrite (MeterFacts.same_limits _ _ (close_request _ _ Hw)). lia.
  - by rewrite (same_store _ _ (close_same _ _ Hw)).
  - by eapply intent_sound.
  - apply Hw.
  - intros r w5 Ha.
    assert (He : effect principal session request expected r w w5).
    { eapply acts_effect; try done. pose proof (MeterFacts.same_ticks _ _ (close_request _ _ Hw2)).
      pose proof (MeterFacts.same_ticks _ _ (close_request _ _ Hw3)). lia. }
    destruct r as [[[slots command'] policy']|e].
    + eapply effect_after; [by eexists| |exact He]. unfold or_read.
      apply keeps_bind; [apply _|apply calm_inspection|intros grid]. unfold check_command. keeps_solve.
    + destruct He as (Hp & Hok' & Hr). split; [done|split; [done|]].
      destruct Hr as [[_ Hr]|Hr]; [left; split; [by exists e|done]|by right].
Qed.

Lemma execute_wp fuel (encode : HGrid → Budget → result ApiError T * Budget) w :
  N.to_nat (ReadLimits.max_work (limits (w_budget w))) < fuel →
  store_ok (cs_limits service) (w_store w) →
  wp (execute reg service scene fuel principal session request expected encode)
    (λ r w', effect principal session request expected r w w' ∧
       ((w_pending w < CommandLimits.max_pending (cs_limits service))%N ∨ (∃ e, r = Err e) ∧ w' = w)) w.
Proof.
  intros Hfuel Hok. unfold wp, execute. destruct (_ <? _)%N eqn:Hpend.
  - pose proof (run_wp fuel encode (set_pending (w_pending w + 1) w) Hfuel Hok) as Hrun.
    unfold wp in Hrun. destruct (run _ _ _ _ _ _ _ _ _ _) as [[r w']|]; [|done]. cbn.
    destruct Hrun as (Hp & Hok' & Hr). split; [|left; by apply N.ltb_lt]. split; [|done]. cbn in *. lia.
  - split; [by apply effect_untouched|right]. split; [by eexists|done].
Qed.
End running.

(** ** No command of its own says that its outcome is unknown *)

Definition frank {A} (m : K A) : Prop := ∀ w, wp m (λ r _, r ≠ Err ApiCommandUnknown) w ∨ m w = None.
Lemma frank_bind {A C} (m : K A) (k : A → K C) : frank m → (∀ a, frank (k a)) → frank (m ≫= k).
Proof.
  intros Hm Hk w. destruct (Hm w) as [H|H]; unfold wp, mbind, K_bind in *.
  - destruct (m w) as [[[a|e] w']|]; [by apply Hk|left; congruence|done].
  - rewrite H. by right.
Qed.
Lemma frank_try {A} (r : result ApiError A) : r ≠ Err ApiCommandUnknown → frank (try r).
Proof. intros Hr w. by left. Qed.
Lemma frank_ret {A} (a : A) : frank (mret a).
Proof. intros w. by left. Qed.
Lemma frank_gets {A} (f : World → A) : frank (gets f).
Proof. intros w. by left. Qed.
Lemma frank_modify f : frank (modify f).
Proof. intros w. by left. Qed.
Lemma frank_must {A} (o : option A) : frank (must o).
Proof. intros w. destruct o; [by left|by right]. Qed.
Lemma frank_guard ok e : e ≠ ApiCommandUnknown → frank (guard ok e).
Proof. intros He w. left. destruct ok; cbn; congruence. Qed.
Lemma frank_lift_api {A} (m : Budget → result ApiError A * Budget) :
  (∀ b, (m b).1 ≠ Err ApiCommandUnknown) → frank (lift_api m).
Proof.
  intros Hm w. left. specialize (Hm (w_budget w)). unfold wp, lift_api.
  by destruct (m (w_budget w)).
Qed.
Lemma api_error_frank e : api_error e ≠ ApiCommandUnknown.
Proof. by destruct e. Qed.
Lemma frank_lift {A} (m : B A) : frank (lift m).
Proof.
  apply frank_lift_api. intros b. destruct (m b) as [[a|e] b']; cbn; [done|].
  intros [= H]. by apply (api_error_frank e).
Qed.
Lemma frank_or_read {A} (r : result ReadError A) : frank (or_read r).
Proof.
  apply frank_try. destruct r as [a|e]; [done|]. intros [= H]. by apply (api_error_frank e).
Qed.
Lemma frank_fold_k {A S} (f : S → A → K S) s l : (∀ s a, frank (f s a)) → frank (fold_k f s l).
Proof.
  intros Hf. revert s. induction l as [|a l IH]; intros s; [apply frank_ret|].
  apply frank_bind; [apply Hf|exact IH].
Qed.
Ltac frank_step :=
  first [ apply frank_or_read | apply frank_guard; done | apply frank_lift | apply frank_gets
        | apply frank_ret | apply frank_modify | apply frank_must | apply frank_fold_k; intros
        | apply frank_bind; [|intros]
        | apply frank_try; first [ done | repeat case_match; congruence ] ].
Ltac frank_solve := repeat frank_step.

Lemma normalize_frank s v limit : Schema.normalize reg s v limit ≠ Err ApiCommandUnknown.
Proof. unfold Schema.normalize. repeat case_match; congruence. Qed.
Lemma read_frank row limit : Schema.read reg row limit ≠ Err ApiCommandUnknown.
Proof.
  unfold Schema.read. destruct (_ || _); [done|]. destruct (row !! "kind") as [[]|]; try done.
  destruct (negb _); [done|].
  assert (Hu : Schema.read_unit reg row v ≠ Err ApiCommandUnknown)
    by (unfold Schema.read_unit; repeat case_match; congruence).
  destruct (Schema.read_unit reg row v) as [unit|e]; [|intros [= ->]; by destruct Hu]. cbv zeta.
  pose proof (λ d, normalize_frank (mkSchema v unit None) d limit) as Hn.
  destruct (row !! "writeDef") as [d|]; [|done]. specialize (Hn d).
  destruct d; try done; (destruct (Schema.normalize _ _ _ _) as [|e]; [done|]);
    intros [= ->]; by destruct Hn.
Qed.
Lemma frank_check session : frank (check_command session).
Proof. unfold check_command. frank_solve. Qed.
Lemma frank_bound id p schema observed : frank (still_bound reg service scene id p schema observed).
Proof. unfold still_bound. frank_solve. Qed.
Lemma frank_write request value who p : frank (write_point scene request value who p).
Proof.
  unfold write_point. destruct (cq_level request); frank_solve.
  apply frank_try. unfold write_slot. repeat case_match; congruence.
Qed.
Lemma frank_publish session request schema observed value who :
  frank (publish reg service scene session request schema observed value who).
Proof.
  unfold publish.
  do 6 (apply frank_bind; [first [apply frank_check | frank_step]|intros]).
  apply frank_bind; [destruct (Store.points _ !! _); [apply frank_bound|frank_step]|intros].
  apply frank_bind; [apply frank_write|intros].
  do 3 (apply frank_bind; [first [apply frank_check | frank_step]|intros]).
  apply frank_bind; [|intros; frank_solve].
  case_bool_decide; [frank_step|]. apply frank_bind; [frank_step|intros [cell|]].
  - unfold CommandAttempt.dispatch, CommandAttempt.compare_exchange. case_decide; frank_solve.
  - by apply (frank_try (Err ApiInternal)).
Qed.
Lemma frank_tries fuel i session request schema observed value who command policy :
  frank (tries reg service scene fuel i session request schema observed value who command policy).
Proof.
  revert i. induction fuel as [|fuel IH]; intros i; [apply frank_must|]. cbn [tries].
  apply frank_bind; [apply frank_check|intros]. do 3 (apply frank_bind; [frank_step|intros]).
  destruct (sc_busy scene i).
  - do 2 (apply frank_bind; [frank_step|intros]). apply IH.
  - apply frank_bind; [frank_step|intros]. apply IH.
  - apply frank_bind; [apply frank_publish|intros]. frank_step.
Qed.
Lemma frank_inspection action id policy slots : frank (inspection action id policy slots).
Proof. unfold inspection. destruct (negb _); frank_solve. destruct a. frank_solve. Qed.
Lemma frank_disclosure session rs cs observed : frank (try (disclosure scene session rs cs observed)).
Proof.
  apply frank_try. unfold disclosure. repeat case_match; try congruence;
    intros [= Hx]; by eapply api_error_frank.
Qed.
Lemma frank_execute {T} fuel principal session request expected
    (encode : HGrid → Budget → result ApiError T * Budget) :
  (∀ grid b, (encode grid b).1 ≠ Err ApiCommandUnknown) →
  frank (execute reg service scene fuel principal session request expected encode).
Proof.
  intros Henc.
  assert (Hrun : frank (run reg service scene fuel principal session request expected encode)).
  { unfold run. apply frank_bind; [unfold authorize; apply frank_bind; [apply frank_check|intros]; frank_solve|].
    intros [[command policy] who]. do 2 (apply frank_bind; [frank_step|intros]).
    apply frank_bind; [unfold observe; do 3 (apply frank_bind; [frank_step|intros]);
                       apply frank_bind; [apply frank_try, read_frank|intros]; frank_solve|].
    intros [schema observed]. apply frank_bind.
    { case_bool_decide; [|frank_step]. apply frank_bind; [frank_step|intros].
      apply frank_bind; [apply frank_try, normalize_frank|intros]. frank_step. }
    intros value. apply frank_bind; [apply frank_tries|]. intros [[slots command'] policy'].
    apply frank_bind; [apply frank_inspection|intros grid].
    apply frank_bind; [apply frank_lift_api, Henc|intros result].
    apply frank_bind; [apply frank_check|intros]. apply frank_bind; [apply frank_disclosure|intros].
    frank_solve. }
  intros w. unfold execute, wp. destruct (_ <? _)%N; [|by left].
  destruct (Hrun (set_pending (w_pending w + 1) w)) as [H|H]; unfold wp in H.
  - destruct (run _ _ _ _ _ _ _ _ _ _) as [[r w']|]; [by left|done].
  - rewrite H. by right.
Qed.
End runs.
