(* ===== verification/Shared.v ===== *)
(** * The shared graph and its subscribers

    [haystack-core/src/graph/shared.rs] and [subscriber.rs]: writers run
    closures under the write lock and announce the outcome on two broadcast
    channels when the guard is dropped; a [GraphSubscriber] waits for an
    announcement and fetches the changes since the version it has consumed.

    The lock makes what a writer does under it one step; it sends its
    announcements one by one after it has released the lock, when others may
    already be at work.  An interleaving of writers and a subscriber is a
    sequence of such write sections, of sends, of wake-ups and of fetches (the
    subscriber holds no lock between the two).  [SharedFacts.v] proves for
    every such sequence that the subscriber's copy follows the graph and that
    it never sleeps on a stale copy once the announcements are out.  The
    broadcast channel is tokio's, an interface here. *)

From S2P Require Import Prelude Floats Kinds Size Extern Bitmap Adjacency ValueIndex Filter Changelog Graph GraphInv Prepared BatchFacts Recovery Query QueryFacts System.

(** ** Broadcast channels *)

(** What receiving can return: a message, the notice that messages were
    dropped, or the end of the channel. *)
Inductive Recv (A : Type) : Type :=
| Received (v : A)
| Lagged
| Closed.
Arguments Received {A} v.
Arguments Lagged {A}.
Arguments Closed {A}.

(** [tokio::sync::broadcast].  [bc_recv] returns [None] when there is nothing
    to receive: [recv] then waits and [try_recv] fails.  [bc_len] is
    [Receiver::len], the number of messages the receiver has yet to see;
    [bc_of] relates a channel and its receivers. *)
Class Broadcast : Type := {
  channel : Type → Type;
  receiver : Type → Type;
  bc_channel {A} : N → channel A;
  bc_send {A} : A → channel A → channel A;
  bc_subscribe {A} : channel A → receiver A;
  bc_recv {A} : channel A → receiver A → option (Recv A * receiver A);
  bc_len {A} : channel A → receiver A → nat;
  bc_of {A} : channel A → receiver A → Prop
}.

(** Every message sent after a subscription reaches the receiver or makes it
    lag, and receiving makes progress. *)
Class BroadcastLaws `{Broadcast} : Prop := {
  bc_subscribe_of {A} (ch : channel A) : bc_of ch (bc_subscribe ch);
  bc_send_of {A} (ch : channel A) rx v : bc_of ch rx → bc_of (bc_send v ch) rx;
  bc_recv_of {A} (ch : channel A) rx r rx' :
    bc_of ch rx → bc_recv ch rx = Some (r, rx') → bc_of ch rx';
  bc_send_ready {A} (ch : channel A) rx v :
    bc_of ch rx → is_Some (bc_recv (bc_send v ch) rx);
  bc_recv_len {A} (ch : channel A) rx r rx' :
    bc_recv ch rx = Some (r, rx') → bc_len ch rx' < bc_len ch rx
}.

(** The messages sent so far and the number of them kept; a receiver is the
    number of messages it has passed. *)
Definition list_broadcast : Broadcast := {|
  channel A := (list A * N)%type;
  receiver _ := nat;
  bc_channel A capacity := ([], capacity);
  bc_send A v ch := (ch.1 ++ [v], ch.2);
  bc_subscribe A ch := length ch.1;
  bc_recv A ch rx :=
    if decide (N.of_nat rx < len ch.1 - ch.2)%N
    then Some (Lagged, N.to_nat (len ch.1 - ch.2))
    else v ← ch.1 !! rx; Some (Received v, S rx);
  bc_len A ch rx := length ch.1 - rx;
  bc_of A ch rx := rx ≤ length ch.1
|}.

Lemma list_broadcast_laws : @BroadcastLaws list_broadcast.
Proof.
  split; cbn; intros A [l cap]; cbn.
  - done.
  - intros rx v Hrx. rewrite length_app. cbn. lia.
  - intros rx r rx' Hrx. unfold len. case_decide.
    { intros [= _ <-]. lia. }
    intros (v & Hv%lookup_lt_Some & [= _ <-])%bind_Some. lia.
  - intros rx v Hrx. case_decide; [done|].
    destruct (lookup_lt_is_Some_2 (l ++ [v]) rx) as [w ->]; [|done].
    rewrite length_app. cbn. lia.
  - intros rx r rx'. unfold len. case_decide.
    { intros [= _ <-]. lia. }
    intros (v & Hv%lookup_lt_Some & [= _ <-])%bind_Some. lia.
Qed.

(** ** The shared graph *)

(** [GraphWake]. *)
Inductive GraphWake : Type :=
| WEntities (s : GraphState)
| WReset (s : GraphState)
| WCatalog (s : GraphState).

Definition BROADCAST_CAPACITY : N := 256.

Module SharedGraph.
Section model.
Context {HO : HashOrder} {RB : Roaring} {CM : CacheMap} {ON : Ontology} {CA : Catalog}.
Context {BC : Broadcast}.

Record t : Type := mk { inner : EntityGraph.t; tx : channel N; wakes : channel GraphWake }.

(** [SharedGraph::from_restored]. *)
Definition from_restored (g : EntityGraph.t) : t :=
  mk g (bc_channel BROADCAST_CAPACITY) (bc_channel BROADCAST_CAPACITY).

(** [SharedGraph::new]; [inc] is the fresh random incarnation. *)
Definition new (inc : list Byte.byte) (g : EntityGraph.t) : t :=
  from_restored (EntityGraph.renew_incarnation inc g).

(** A message for one of the two channels. *)
Inductive Send : Type := STx (revision : N) | SWake (wake : GraphWake).
Definition send (s : t) (m : Send) : t :=
  match m with
  | STx revision => mk (inner s) (bc_send revision (tx s)) (wakes s)
  | SWake wake => mk (inner s) (tx s) (bc_send wake (wakes s))
  end.

(** [Drop for WriteNotification], under the lock: the graph as it is released,
    and what has to be sent afterwards. *)
Definition release (inc : list Byte.byte) (before : GraphState) (g : EntityGraph.t)
    : EntityGraph.t * list Send :=
  let reset := bool_decide (EntityGraph.incarnation g ≠ state_incarnation before) in
  let g := if reset then EntityGraph.renew_incarnation inc g else g in
  let after := EntityGraph.state g in
  (g,
   (if reset || bool_decide (state_revision after ≠ state_revision before)
    then [STx (state_revision after); SWake (if reset then WReset after else WEntities after)]
    else []) ++
   (if negb reset && bool_decide (state_catalog after ≠ state_catalog before)
    then [SWake (WCatalog after)] else [])).

(** The whole of it, when no other thread acts in between. *)
Definition drop_write (inc : list Byte.byte) (before : GraphState) (s : t) : t :=
  let '(g, sends) := release inc before (inner s) in
  foldl send (mk g (tx s) (wakes s)) sends.

(** [SharedGraph::write] up to the release of the lock, with what is left to
    send; [None] is a closure that panics. *)
Definition write_section {R} (inc : list Byte.byte) (f : EntityGraph.t → option (EntityGraph.t * R))
    (s : t) : option (t * list Send * R) :=
  let before := EntityGraph.state (inner s) in
  '(g, r) ← f (inner s);
  let '(g, sends) := release inc before g in
  Some (mk g (tx s) (wakes s), sends, r).
(** [SharedGraph::write], when no other thread acts before it returns. *)
Definition write {R} (inc : list Byte.byte) (f : EntityGraph.t → option (EntityGraph.t * R))
    (s : t) : option (t * R) :=
  let before := EntityGraph.state (inner s) in
  '(g, r) ← f (inner s);
  Some (drop_write inc before (mk g (tx s) (wakes s)), r).

(** [SharedGraph::write_for]; [locked] says whether the lock was acquired. *)
Definition write_for {R} (inc : list Byte.byte) (locked : bool)
    (f : EntityGraph.t → option (EntityGraph.t * R)) (s : t) : option (t * option R) :=
  if locked then '(s, r) ← write inc f s; Some (s, Some r) else Some (s, None).

(** [SharedGraph::add], [update], [remove] and [set_namespace]. *)
Definition add (inc : list Byte.byte) (now : Z) (s : t) (entity : HDict) :=
  write inc (λ g, EntityGraph.add now g entity) s.
Definition update (inc : list Byte.byte) (now : Z) (s : t) (ref : string) (changes : HDict) :=
  write inc (λ g, EntityGraph.update now g ref changes) s.
Definition remove (inc : list Byte.byte) (now : Z) (s : t) (ref : string) :=
  write inc (λ g, EntityGraph.remove now g ref) s.
Definition set_namespace (inc : list Byte.byte) (fresh : N) (s : t) (ns : Arc DefNamespace) :=
  write inc (λ g, g ← EntityGraph.set_namespace fresh g ns; Some (g, ())) s.

(** [SharedGraph::publish_restored_with]; the callback acts on other state. *)
Definition publish_restored (locked : bool) (s : t) (expected : GraphState)
    (next : EntityGraph.t) : t * result RecoveryError unit :=
  if negb locked then (s, Err RLimit)
  else if bool_decide (EntityGraph.state (inner s) ≠ expected)
     || bool_decide (EntityGraph.incarnation next ≠ state_incarnation expected)
     || bool_decide (EntityGraph.catalog_generation next ≠ state_catalog expected)
     || bool_decide (EntityGraph.version next < state_revision expected)%N
  then (s, Err RInvalid)
  else
    let after := EntityGraph.state next in
    (foldl send (mk next (tx s) (wakes s))
       (if bool_decide (state_revision after ≠ state_revision expected)
        then [STx (state_revision after); SWake (WEntities after)] else []), Ok ()).

(** [SharedGraph::subscribe_with_version]. *)
Definition subscribe_with_version (s : t) : receiver N * N :=
  (bc_subscribe (tx s), EntityGraph.version (inner s)).

(** [SharedGraph::changes_since]. *)
Definition changes_since (s : t) (v : N) : result ChangelogGap (list GraphDiff) :=
  EntityGraph.changes_since (inner s) v.
End model.
End SharedGraph.

(** ** Subscribers *)

Module GraphSubscriber.
Section model.
Context {HO : HashOrder} {RB : Roaring} {CM : CacheMap} {ON : Ontology} {CA : Catalog}.
Context {BC : Broadcast}.

Record t : Type := mk { rx : receiver N; last_version : N }.

(** [GraphSubscriber::new] and [from_version]. *)
Definition new (s : SharedGraph.t) : t :=
  let '(rx, v) := SharedGraph.subscribe_with_version s in mk rx v.
Definition from_version (s : SharedGraph.t) (v : N) : t := mk (bc_subscribe (SharedGraph.tx s)) v.

(** The loop that drains the pending notifications; it ends at anything but a
    message.  [None] is fuel exhaustion. *)
Fixpoint drain {A} (fuel : nat) (ch : channel A) (rx : receiver A) : option (receiver A) :=
  match fuel with
  | 0 => None
  | S fuel =>
      match bc_recv ch rx with
      | Some (Received _, rx) => drain fuel ch rx
      | Some (_, rx) => Some rx
      | None => Some rx
      end
  end.

(** The first half of [next_batch]: it waits, sees the channel closed, or is
    woken and drains the channel. *)
Inductive Wake : Type :=
| Pending
| ChannelClosed
| Woken (sub : t).

Definition await_wake (s : SharedGraph.t) (sub : t) : option Wake :=
  let ch := SharedGraph.tx s in
  match bc_recv ch (rx sub) with
  | None => Some Pending
  | Some (Closed, _) => Some ChannelClosed
  | Some (_, rx') =>
      rx' ← drain (S (bc_len ch rx')) ch rx';
      Some (Woken (mk rx' (last_version sub)))
  end.

(** The second half: the changes since the version consumed. *)
Definition fetch (s : SharedGraph.t) (sub : t) : result ChangelogGap (list GraphDiff * t) :=
  let? diffs := SharedGraph.changes_since s (last_version sub) in
  Ok (diffs, mk (rx sub) (match last diffs with
                          | Some d => Changelog.version d
                          | None => last_version sub
                          end)).

(** [GraphSubscriber::next_batch]: woken in one state of the shared graph,
    the changes are fetched in a later one.  [Some None] is a call that still
    waits. *)
Definition next_batch (s s' : SharedGraph.t) (sub : t)
    : option (option (result ChangelogGap (list GraphDiff * t))) :=
  w ← await_wake s sub;
  Some (match w with
        | Pending => None
        | ChannelClosed => Some (Ok ([], sub))
        | Woken sub => Some (fetch s' sub)
        end).
End model.
End GraphSubscriber.
