(* ===== verification/SharedFacts.v ===== *)
(** * Writers and a subscriber

    Interleavings of writes with the wake-ups and fetches of one subscriber,
    which keeps a copy of the entities and applies the batches it fetches to
    it: the copy is always that of an earlier state of the graph, a fetch
    brings it up to date, and a stale copy always has a notification waiting
    or about to be sent. *)

From S2P Require Import Prelude Floats Kinds Size Extern Bitmap Adjacency ValueIndex Filter Changelog Graph GraphInv Prepared BatchFacts Recovery Query QueryFacts System Shared.

Module SharedFacts.
Import EntityGraph GraphInv System.

Section facts.
Context {HO : HashOrder} {HL : HashOrderLaws} {RB : Roaring} {RL : RoaringLaws}.
Context {CM : CacheMap} {CL : CacheLaws} {ON : Ontology} {CA : Catalog} {FS : FilterSyntax}.
Context {BC : Broadcast} {BL : BroadcastLaws}.
Implicit Types (g : EntityGraph.t) (s : SharedGraph.t) (sub : GraphSubscriber.t).

(** ** Announcements *)

Definition ready {A} (ch : channel A) (rx : receiver A) : Prop := is_Some (bc_recv ch rx).

Lemma send_ready {A} (ch : channel A) rx v : bc_of ch rx → ready (bc_send v ch) rx.
Proof. apply bc_send_ready. Qed.

(** The end of a write that found [before] and left [g]: nothing is sent when
    the state is the same, every receiver is woken when it is not, and a
    replaced graph gets a fresh incarnation. *)
Record announced (inc : list Byte.byte) (before : GraphState) g s s' : Prop := {
  ann_quiet : state g = before →
    SharedGraph.inner s' = g ∧ SharedGraph.tx s' = SharedGraph.tx s ∧
    SharedGraph.wakes s' = SharedGraph.wakes s;
  ann_silent : version g = state_revision before → incarnation g = state_incarnation before →
    SharedGraph.tx s' = SharedGraph.tx s;
  ann_revision rx : bc_of (SharedGraph.tx s) rx →
    version g ≠ state_revision before ∨ incarnation g ≠ state_incarnation before →
    ready (SharedGraph.tx s') rx;
  ann_wake rx : bc_of (SharedGraph.wakes s) rx → state g ≠ before →
    ready (SharedGraph.wakes s') rx;
  ann_reset :
    SharedGraph.inner s' = g ∧ incarnation g = state_incarnation before ∨
    SharedGraph.inner s' = renew_incarnation inc g ∧ incarnation g ≠ state_incarnation before;
  ann_of rx : bc_of (SharedGraph.tx s) rx → bc_of (SharedGraph.tx s') rx
}.

Lemma drop_write_spec inc before g s :
  announced inc before g s
    (SharedGraph.drop_write inc before (SharedGraph.mk g (SharedGraph.tx s) (SharedGraph.wakes s))).
Proof.
  unfold SharedGraph.drop_write, SharedGraph.release. cbn [SharedGraph.inner SharedGraph.tx SharedGraph.wakes].
  destruct before as [binc brev bcat].
  cbn [state_incarnation state_revision state_catalog EntityGraph.state].
  destruct (bool_decide_reflect (incarnation g ≠ binc)) as [Hr|Hr%dec_stable];
    [|destruct (bool_decide_reflect (version g ≠ brev)) as [Hm|Hm%dec_stable];
      destruct (bool_decide_reflect (catalog_generation g ≠ bcat)) as [Hc|Hc%dec_stable]];
    split; cbn -[EntityGraph.state]; intros; unfold EntityGraph.state in *; simplify_eq/=;
    try (by apply send_ready; repeat apply bc_send_of); try (by repeat apply bc_send_of);
    by auto || tauto.
Qed.

(** A write whose closure performs steps of the graph is steps of the graph. *)
Lemma write_steps {R} inc (f : EntityGraph.t → option (EntityGraph.t * R)) s s' r :
  SharedGraph.write inc f s = Some (s', r) →
  ∃ g, f (SharedGraph.inner s) = Some (g, r) ∧
    announced inc (state (SharedGraph.inner s)) g s s' ∧
    rtc step g (SharedGraph.inner s').
Proof.
  unfold SharedGraph.write. intros ([g r'] & Hf & [= <- <-])%bind_Some. exists g. split; [done|].
  pose proof (drop_write_spec inc (state (SharedGraph.inner s)) g s) as Ha. split; [done|].
  destruct (ann_reset _ _ _ _ _ Ha) as [[-> _]|[-> _]]; [done|]. apply rtc_once, step_renew.
Qed.

(** ** Subscribers *)

Lemma drain_of {A} fuel (ch : channel A) rx rx' :
  bc_of ch rx → GraphSubscriber.drain fuel ch rx = Some rx' → bc_of ch rx'.
Proof.
  revert rx. induction fuel as [|fuel IH]; intros rx Hof; cbn; [done|].
  destruct (bc_recv ch rx) as [[r rx1]|] eqn:Hr; [|by intros [= <-]].
  pose proof (bc_recv_of _ _ _ _ Hof Hr). destruct r; [by apply IH|by intros [= <-]..].
Qed.

(** Draining ends within as many rounds as there are messages. *)
Lemma drain_total {A} fuel (ch : channel A) rx :
  bc_len ch rx < fuel → is_Some (GraphSubscriber.drain fuel ch rx).
Proof.
  revert rx. induction fuel as [|fuel IH]; intros rx Hf; [lia|]. cbn.
  on_ok (bc_recv ch rx) as [[r rx1]|] Hr.
  pose proof (bc_recv_len _ _ _ _ Hr). destruct r; [apply IH; lia|done..].
Qed.

(** Waiting always has an outcome, and wakes when something is ready. *)
Lemma await_wake_total s sub :
  ∃ w, GraphSubscriber.await_wake s sub = Some w ∧
    (w = GraphSubscriber.Pending → ¬ ready (SharedGraph.tx s) (GraphSubscriber.rx sub)).
Proof.
  unfold GraphSubscriber.await_wake, ready.
  destruct (bc_recv (SharedGraph.tx s) (GraphSubscriber.rx sub)) as [[r rx1]|] eqn:Hr.
  2: { eexists. split; [done|]. by intros _ []. }
  destruct (drain_total (S (bc_len (SharedGraph.tx s) rx1)) (SharedGraph.tx s) rx1) as [rx2 Hd]; [lia|].
  destruct r; rewrite ?Hd; by eexists.
Qed.

Lemma await_wake_woken s sub sub' :
  bc_of (SharedGraph.tx s) (GraphSubscriber.rx sub) →
  GraphSubscriber.await_wake s sub = Some (GraphSubscriber.Woken sub') →
  bc_of (SharedGraph.tx s) (GraphSubscriber.rx sub') ∧
  GraphSubscriber.last_version sub' = GraphSubscriber.last_version sub.
Proof.
  intros Hof. unfold GraphSubscriber.await_wake.
  destruct (bc_recv _ _) as [[r rx1]|] eqn:Hr; [|done].
  pose proof (bc_recv_of _ _ _ _ Hof Hr).
  destruct r; [| |done]; intros (rx2 & Hd & [= <-])%bind_Some;
    (split; [by eapply drain_of|done]).
Qed.

(** The part of a write under the lock: it performs steps of the graph, touches
    no channel, and leaves a revision to be sent unless the revision and the
    incarnation are as they were. *)
Lemma section_steps {R} inc (f : EntityGraph.t → option (EntityGraph.t * R)) s s' sends r :
  SharedGraph.write_section inc f s = Some (s', sends, r) →
  SharedGraph.tx s' = SharedGraph.tx s ∧
  (∃ g, f (SharedGraph.inner s) = Some (g, r) ∧ rtc step g (SharedGraph.inner s')) ∧
  (version (SharedGraph.inner s') = version (SharedGraph.inner s) ∨ ∃ v, SharedGraph.STx v ∈ sends).
Proof.
  unfold SharedGraph.write_section, SharedGraph.release.
  intros ([g r'] & Hf & [= <- <- <-])%bind_Some. split; [done|]. split.
  - exists g. split; [done|]. case_bool_decide; [apply rtc_once, step_renew|done].
  - destruct (bool_decide_reflect (incarnation g ≠ incarnation (SharedGraph.inner s))) as [Hr|Hr]; cbn.
    { right. eexists. left. }
    case_bool_decide as Hv; [right; eexists; left|by left].
Qed.

(** ** Runs *)

(** The shared graph, what each writer that has released the lock has yet to
    send, the subscriber, whether it has been woken and not yet fetched, and
    its copy of the entities. *)
Record Run : Type := mkRun {
  shared : SharedGraph.t;
  due : list (list SharedGraph.Send);
  subscriber : GraphSubscriber.t;
  woken : bool;
  copy : gmap string HDict
}.

(** A closure that performs operations of the graph - all of them, or those
    before it failed. *)
Definition operates {R} (f : EntityGraph.t → option (EntityGraph.t * R)) : Prop :=
  ∀ g g' r, f g = Some (g', r) → rtc step g g'.

Inductive run_step : Run → Run → Prop :=
| run_write {R} inc (f : EntityGraph.t → option (EntityGraph.t * R)) s s' sends r d sub w m :
    operates f → SharedGraph.write_section inc f s = Some (s', sends, r) →
    run_step (mkRun s d sub w m) (mkRun s' (d ++ [sends]) sub w m)
| run_send s x l d1 d2 sub w m :
    run_step (mkRun s (d1 ++ (x :: l) :: d2) sub w m) (mkRun (SharedGraph.send s x) (d1 ++ l :: d2) sub w m)
| run_wake s d sub sub' m :
    GraphSubscriber.await_wake s sub = Some (GraphSubscriber.Woken sub') →
    run_step (mkRun s d sub false m) (mkRun s d sub' true m)
| run_drain s d sub r rx m :
    bc_recv (SharedGraph.tx s) (GraphSubscriber.rx sub) = Some (r, rx) →
    run_step (mkRun s d sub true m)
      (mkRun s d (GraphSubscriber.mk rx (GraphSubscriber.last_version sub)) true m)
| run_fetch s d sub sub' diffs m :
    GraphSubscriber.fetch s sub = Ok (diffs, sub') →
    run_step (mkRun s d sub true m) (mkRun s d sub' false (foldl apply_diff m diffs))
| run_resync s d sub w m :
    run_step (mkRun s d sub w m)
      (mkRun s d (GraphSubscriber.new s) false (entities (SharedGraph.inner s))).

(** A write that no other thread interrupts is its section and its sends. *)
Lemma sends_out s l d sub w m :
  rtc run_step (mkRun s (d ++ [l]) sub w m) (mkRun (foldl SharedGraph.send s l) (d ++ [[]]) sub w m).
Proof.
  revert s. induction l as [|x l IH]; intros s; [done|]. eapply rtc_l; [apply run_send|]. apply IH.
Qed.
Lemma write_runs {R} inc (f : EntityGraph.t → option (EntityGraph.t * R)) s s' r d sub w m :
  operates f → SharedGraph.write inc f s = Some (s', r) →
  rtc run_step (mkRun s d sub w m) (mkRun s' (d ++ [[]]) sub w m).
Proof.
  intros Hf. unfold SharedGraph.write, SharedGraph.drop_write. cbn [SharedGraph.inner SharedGraph.tx SharedGraph.wakes].
  intros ([g r'] & Hg & [= <- <-])%bind_Some.
  eapply rtc_l; [|apply sends_out]. eapply (run_write inc f); [done|].
  unfold SharedGraph.write_section. rewrite Hg. done.
Qed.

(** A subscriber that has just subscribed and copied the entities. *)
Definition run_start s : Run :=
  mkRun s [] (GraphSubscriber.new s) false (entities (SharedGraph.inner s)).

(** A writer has yet to send a revision. *)
Definition announcing (st : Run) : Prop := ∃ l v, l ∈ due st ∧ SharedGraph.STx v ∈ l.

Record following (st : Run) : Prop := {
  fol_of : bc_of (SharedGraph.tx (shared st)) (GraphSubscriber.rx (subscriber st));
  fol_past : ∃ g0, inv g0 ∧ rtc step g0 (SharedGraph.inner (shared st)) ∧
    version g0 = GraphSubscriber.last_version (subscriber st) ∧ entities g0 = copy st;
  fol_wake :
    (GraphSubscriber.last_version (subscriber st) < version (SharedGraph.inner (shared st)))%N →
    woken st = true ∨ ready (SharedGraph.tx (shared st)) (GraphSubscriber.rx (subscriber st)) ∨
    announcing st
}.

Lemma resync_following s d :
  inv (SharedGraph.inner s) →
  following (mkRun s d (GraphSubscriber.new s) false (entities (SharedGraph.inner s))).
Proof.
  intros Hi. split; cbn; [apply bc_subscribe_of| |lia].
  by exists (SharedGraph.inner s).
Qed.

(** Fetching brings the copy and the version up to date. *)
Lemma fetch_catches_up s sub g0 diffs sub' :
  inv g0 → rtc step g0 (SharedGraph.inner s) →
  version g0 = GraphSubscriber.last_version sub →
  GraphSubscriber.fetch s sub = Ok (diffs, sub') →
  foldl apply_diff (entities g0) diffs = entities (SharedGraph.inner s) ∧
  GraphSubscriber.last_version sub' = version (SharedGraph.inner s) ∧
  GraphSubscriber.rx sub' = GraphSubscriber.rx sub.
Proof.
  intros Hi Hs Hv. unfold GraphSubscriber.fetch, SharedGraph.changes_since.
  destruct (changes_since _ _) as [l|] eqn:Hl; [|done]. intros [= -> <-]. rewrite <-Hv in Hl |- *.
  destruct (replays_steps _ _ Hi Hs) as [Hle Hr]. destruct (Hr _ Hl) as [He Hlen].
  split; [done|]. split; [|done]. cbn. pose proof (steps_inv _ _ Hi Hs) as Hi'.
  destruct (last diffs) as [d|] eqn:Hd.
  - destruct (ChangeLog.changes_since_ok (version (SharedGraph.inner s))
      (changelog (SharedGraph.inner s)) (version g0)) as (gone & l & Hl' & _ & Hc & _).
    + apply Hi'.
    + split; [|done]. destruct (decide (version g0 < ChangeLog.floor (changelog (SharedGraph.inner s)))%N)
        as [Hlt|]; [|lia]. unfold changes_since in Hl. by rewrite ChangeLog.changes_since_gap in Hl.
    + unfold changes_since in Hl. assert (l = diffs) as -> by congruence.
      rewrite last_lookup in Hd. rewrite (ChangeLog.contiguous_version _ _ _ _ Hc Hd).
      apply lookup_lt_Some in Hd. unfold len in Hlen. lia.
  - apply last_None in Hd as ->. len_lia.
Qed.

(** Announcements that are still due when another is added or one is sent. *)
Lemma announcing_write s s' d sends sub w m :
  announcing (mkRun s d sub w m) → announcing (mkRun s' (d ++ [sends]) sub w m).
Proof. intros (l & v & Hl & Hv). exists l, v. split; [apply elem_of_app; by left|done]. Qed.
Lemma announcing_send s x l d1 d2 sub w m :
  announcing (mkRun s (d1 ++ (x :: l) :: d2) sub w m) →
  (∃ v, x = SharedGraph.STx v) ∨ ∀ s', announcing (mkRun s' (d1 ++ l :: d2) sub w m).
Proof.
  intros (k & v & [Hk|[->|Hk]%elem_of_cons]%elem_of_app & Hv).
  - right. intros s'. exists k, v. split; [apply elem_of_app; by left|done].
  - apply elem_of_cons in Hv as [<-|Hv]; [left; by eexists|]. right. intros s'. exists l, v.
    split; [apply elem_of_app; right; left|done].
  - right. intros s'. exists k, v. split; [apply elem_of_app; right; by right|done].
Qed.

Lemma following_write {R} inc (f : EntityGraph.t → option (EntityGraph.t * R)) s s' sends r d sub w m :
  operates f → SharedGraph.write_section inc f s = Some (s', sends, r) →
  following (mkRun s d sub w m) → following (mkRun s' (d ++ [sends]) sub w m).
Proof.
  intros Hf Hwr [Hof (g0 & Hi & Hs & Hv & Hc) Hw]. cbn in *.
  destruct (section_steps _ _ _ _ _ _ Hwr) as (Htx & (g & Hop & Hs') & Hsent). split; cbn.
  - by rewrite Htx.
  - exists g0. split; [done|]. split; [|done]. etrans; [done|]. etrans; [by eapply Hf|done].
  - intros Hlt. rewrite Htx. destruct Hsent as [He|[v Hsent]].
    + rewrite He in Hlt. destruct (Hw Hlt) as [?|[?|Ha]]; auto. right. right. by eapply announcing_write.
    + right. right. exists sends, v. split; [apply elem_of_app; right; left|done].
Qed.
Lemma following_send s x l d1 d2 sub w m :
  following (mkRun s (d1 ++ (x :: l) :: d2) sub w m) →
  following (mkRun (SharedGraph.send s x) (d1 ++ l :: d2) sub w m).
Proof.
  intros [Hof Hp Hw]. cbn in *. split; cbn.
  - destruct x; cbn; [by apply bc_send_of|done].
  - by destruct x.
  - intros Hlt. assert (Hlt' : (GraphSubscriber.last_version sub < version (SharedGraph.inner s))%N) by (by destruct x).
    destruct (Hw Hlt') as [?|[Hr|Ha]]; [by left| |].
    + right. left. destruct x; cbn; [by apply send_ready|done].
    + destruct (announcing_send _ _ _ _ _ _ _ _ Ha) as [[v ->]|Ha']; [|by right; right].
      right. left. cbn. by apply send_ready.
Qed.

Lemma following_step st st' : following st → run_step st st' → following st'.
Proof.
  intros Hfol Hst. destruct Hst as [R inc f s s' sends r d sub w m Hf Hwr|s x l d1 d2 sub w m
    |s d sub sub' m Hwk|s d sub r rx m Hrecv|s d sub sub' diffs m Hfe|s d sub w m].
  - by eapply following_write.
  - by apply following_send.
  - destruct Hfol as [Hof (g0 & Hi & Hs & Hv & Hc) Hw]. cbn in *.
    destruct (await_wake_woken _ _ _ Hof Hwk) as [Hof' Hl]. split; cbn; [done| |by left].
    exists g0. by rewrite Hl.
  - destruct Hfol as [Hof Hp Hw]. cbn in *. split; cbn; [by eapply bc_recv_of|done|by left].
  - destruct Hfol as [Hof (g0 & Hi & Hs & Hv & Hc) Hw]. cbn in *.
    destruct (fetch_catches_up _ _ _ _ _ Hi Hs Hv Hfe) as (He & Hl & Hrx). split; cbn.
    + by rewrite Hrx.
    + exists (SharedGraph.inner s). rewrite <-Hc, He, Hl. split; [by eapply steps_inv|done].
    + lia.
  - destruct Hfol as [_ (g0 & Hi & Hs & _) _]. apply resync_following. by eapply steps_inv.
Qed.

Lemma following_run s st :
  inv (SharedGraph.inner s) → rtc run_step (run_start s) st → following st.
Proof.
  intros Hi Hr. pose proof (resync_following s [] Hi : following (run_start s)) as Hf. revert Hf.
  induction Hr as [|st0 st1 st2 Hst _ IH]; [done|]. intros Hf. apply IH. by eapply following_step.
Qed.
End facts.
End SharedFacts.
