(* ===== verification/FilterParserFacts.v ===== *)
(** * Correctness of the filter parser

    [wp] is the weakest precondition of a parsing action: it does not run out
    of fuel, and if it succeeds the postcondition holds.  Every production
    consumes input, counts its AST nodes and its depth exactly, and stays
    within the limits, so parsing terminates and the limits hold of every
    result.  [render] prints a filter in the grammar; parsing it gives the
    filter back. *)

From Stdlib Require Import Ascii.
From S2P Require Import Prelude Floats Kinds Filter FilterParser Graph Query.

(** ** Measures of a filter *)

Fixpoint node_count (node : FilterNode) : N :=
  match node with
  | And l r | Or l r => 1 + node_count l + node_count r
  | _ => 1
  end.
Fixpoint node_depth (node : FilterNode) : N :=
  match node with
  | And l r | Or l r => 1 + N.max (node_depth l) (node_depth r)
  | _ => 1
  end.

(** A name of the grammar. *)
Definition is_name (s : string) : Prop := FilterParser.name_at s = Some s.
Definition is_path (p : Path) : Prop := p ≠ [] ∧ Forall is_name p.
(** A qualified spec name. *)
Definition is_spec (s : string) : Prop :=
  ∃ quals types, quals ≠ [] ∧ Forall is_name quals ∧ types ≠ [] ∧ Forall is_name types ∧
    s = join "." quals +:+ "::" +:+ join "-" types.

Fixpoint wf_node (node : FilterNode) : Prop :=
  match node with
  | Has p | Missing p | Cmp p _ _ => is_path p
  | And l r | Or l r => wf_node l ∧ wf_node r
  | SpecMatch s => is_spec s
  end.

(** ** Strings *)

Lemma length_drop_str n s : String.length (drop_str n s) = String.length s - n.
Proof.
  revert s. induction n as [|n IH]; intros [|c s]; simpl; auto.
Qed.

Lemma spaces_le s : FilterParser.spaces s ≤ String.length s.
Proof. induction s as [|c s IH]; simpl; [lia|]. destruct (_ || _); lia. Qed.

Lemma prefix_length p s : String.prefix p s = true → String.length p ≤ String.length s.
Proof.
  revert s. induction p as [|c p IH]; intros [|c' s]; simpl; try lia; try done.
  destruct (ascii_dec c c'); [|done]. intros Hp%IH. lia.
Qed.

Lemma name_chars_idem s : FilterParser.name_chars (FilterParser.name_chars s) = FilterParser.name_chars s.
Proof. induction s as [|c s IH]; simpl; [done|]. destruct (name_char c) eqn:E; simpl; [by rewrite E, IH|done]. Qed.

Lemma name_chars_length s : String.length (FilterParser.name_chars s) ≤ String.length s.
Proof. induction s as [|c s IH]; simpl; [lia|]. destruct (name_char c); simpl; lia. Qed.

Lemma name_at_Some s name :
  FilterParser.name_at s = Some name →
  is_name name ∧ 1 ≤ String.length name ≤ String.length s.
Proof.
  destruct s as [|c s]; simpl; [done|]. destruct (is_ascii_alphabetic c) eqn:E; [|done].
  intros [= <-]. unfold is_name. simpl. rewrite E, name_chars_idem. split; [done|].
  pose proof (name_chars_length s). lia.
Qed.

Lemma sapp_cons x a b : String x a +:+ b = String x (a +:+ b).
Proof. done. Qed.
Lemma sapp_assoc (a b c : string) : (a +:+ b) +:+ c = a +:+ (b +:+ c).
Proof. induction a as [|x a IH]; [done|]. by rewrite !sapp_cons, IH. Qed.

Lemma join_snoc sep l s :
  l ≠ [] → join sep (l ++ [s]) = join sep l +:+ sep +:+ s.
Proof.
  induction l as [|a l IH]; [done|]. intros _. destruct l as [|b l]; [done|].
  change (join sep ((a :: b :: l) ++ [s])) with (a +:+ sep +:+ join sep ((b :: l) ++ [s])).
  rewrite IH by done. cbn [join]. by rewrite !sapp_assoc.
Qed.

(** Specifications of parser actions. *)
Create HintDb parser_wp.

Module FilterParserFacts.
Import FilterParser.

Section wp.
Context {LX : Lexical} {LL : LexicalLaws} {C : Type}.
Context (check : C → result FilterError C) (limits : FilterParseLimits).
Notation t := (@FilterParser.t C).
Implicit Types (st : t).

Definition wp {A} (m : FilterParser.M A) st (Q : A → t → Prop) : Prop :=
  match m st with
  | Some (Ok (a, st')) => Q a st'
  | Some (Err _) => True
  | None => False
  end.

Lemma wp_bind {A B} (m : FilterParser.M A) (k : A → FilterParser.M B) st Q :
  wp m st (λ a st', wp (k a) st' Q) → wp (m ≫= k) st Q.
Proof. unfold wp, mbind, M_bind. by destruct (m st) as [[[a st']|e]|]. Qed.
Lemma wp_mono {A} (m : FilterParser.M A) st (P Q : A → t → Prop) :
  wp m st P → (∀ a st', P a st' → Q a st') → wp m st Q.
Proof. unfold wp. destruct (m st) as [[[a st']|e]|]; auto. Qed.
Lemma wp_seq {A B} (m : FilterParser.M A) (k : A → FilterParser.M B) st P Q :
  wp m st P → (∀ a st', P a st' → wp (k a) st' Q) → wp (m ≫= k) st Q.
Proof. intros Hm Hk. apply wp_bind. by eapply wp_mono. Qed.
Lemma wp_ret {A} (a : A) st Q : Q a st → wp (mret a) st Q.
Proof. done. Qed.
Lemma wp_err {A} msg st (Q : A → t → Prop) : wp (err msg) st Q.
Proof. done. Qed.
Lemma wp_gets {A B} (f : t → A) (k : A → FilterParser.M B) st Q :
  wp (k (f st)) st Q → wp (gets f ≫= k) st Q.
Proof. intros ?. by apply wp_bind. Qed.
Lemma wp_modify {B} f (k : unit → FilterParser.M B) st Q :
  wp (k ()) (f st) Q → wp (modify f ≫= k) st Q.
Proof. intros ?. by apply wp_bind. Qed.

(** Input moved forward by at least [k] bytes, nothing else changed but the
    callback's state. *)
Record moved (k : nat) st st' : Prop := {
  moved_rest : String.length (rest st') + k ≤ String.length (rest st);
  moved_pos : (pos st' + str_len (rest st') = pos st + str_len (rest st))%N;
  moved_depth : depth st' = depth st;
  moved_nodes : nodes st' = nodes st
}.

Lemma moved_refl st : moved 0 st st.
Proof. split; lia || done. Qed.
Lemma moved_trans k k' j st st' st'' :
  moved k st st' → moved k' st' st'' → j ≤ k + k' → moved j st st''.
Proof. intros [H1 H2 H3 H4] [H5 H6 H7 H8] Hj. split; lia || congruence. Qed.

(** The specifications of the reading primitives are hints: [wp_next] runs
    the next action by its specification and leaves the rest. *)
Ltac wp_next := eapply wp_seq; [solve [eauto with parser_wp]|].

Lemma run_check_wp st : wp (run_check check) st (λ _ st', moved 0 st st').
Proof. unfold wp, run_check. destruct (check (chk st)); [|done]. split; simpl; lia || done. Qed.
#[local] Hint Resolve run_check_wp : parser_wp.

Lemma advance_wp n k st : k ≤ n ≤ String.length (rest st) → wp (advance n) st (λ _ st', moved k st st').
Proof.
  intros Hn. split; simpl; try done; unfold str_len; rewrite length_drop_str; lia.
Qed.

Lemma skip_spaces_wp st : wp skip_spaces st (λ _ st', moved 0 st st').
Proof.
  apply wp_gets. apply advance_wp. pose proof (spaces_le (rest st)). lia.
Qed.
#[local] Hint Resolve skip_spaces_wp : parser_wp.

Lemma try_consume_str_wp s st :
  wp (try_consume_str s) st (λ b st', moved (if b : bool then String.length s else 0) st st').
Proof.
  apply wp_gets. destruct (String.prefix s (rest st)) eqn:Hp.
  - eapply wp_seq; [apply (advance_wp _ (String.length s))|done].
    apply prefix_length in Hp. lia.
  - apply wp_ret, moved_refl.
Qed.
#[local] Hint Resolve try_consume_str_wp : parser_wp.

Lemma consume_keyword_wp kw st :
  wp (consume_keyword kw) st (λ b st', moved (if b : bool then String.length kw else 0) st st').
Proof.
  apply wp_gets. destruct (keyword_here kw (rest st)) eqn:Hp.
  - eapply wp_seq; [apply (advance_wp _ (String.length kw))|done].
    apply andb_true_iff in Hp as [Hp _]. apply prefix_length in Hp. lia.
  - apply wp_ret, moved_refl.
Qed.
#[local] Hint Resolve consume_keyword_wp : parser_wp.

Lemma read_name_wp st :
  wp read_name st (λ n st', match n with
    | Some name => moved 1 st st' ∧ is_name name
    | None => moved 0 st st' end).
Proof.
  apply wp_gets. destruct (name_at (rest st)) as [name|] eqn:Hn.
  - apply name_at_Some in Hn as [Hname Hlen].
    eapply wp_seq; [apply (advance_wp _ 1); lia|]. intros [] st' Hm. by apply wp_ret.
  - apply wp_ret, moved_refl.
Qed.
#[local] Hint Resolve read_name_wp : parser_wp.

Lemma reserve_node_wp d st :
  wp (reserve_node check limits d) st (λ _ st',
    String.length (rest st') = String.length (rest st) ∧ rest st' = rest st ∧ pos st' = pos st ∧
    depth st' = depth st ∧ nodes st' = (nodes st + 1)%N ∧ (nodes st' ≤ max_nodes limits)%N ∧
    (d ≤ max_depth limits)%N).
Proof.
  unfold wp, reserve_node, mbind, M_bind, run_check, gets, fail, modify.
  destruct (check (chk st)); [|done]. simpl.
  destruct (bool_decide (_ ≤ _)%N || bool_decide (_ < _)%N) eqn:E; [done|]. simpl.
  apply orb_false_iff in E as [E1%bool_decide_eq_false E2%bool_decide_eq_false].
  do 5 (split; [done|]). lia.
Qed.
#[local] Hint Resolve reserve_node_wp : parser_wp.

Lemma enter_depth_wp st :
  wp (enter_depth check) st (λ _ st',
    rest st' = rest st ∧ pos st' = pos st ∧ depth st' = (depth st + 1)%N ∧
    nodes st' = nodes st ∧ (depth st' ≤ MAX_DEPTH)%N).
Proof.
  unfold wp, enter_depth, mbind, M_bind, run_check, gets, modify.
  destruct (check (chk st)); [|done]. simpl. case_decide; [done|]. simpl.
  do 4 (split; [done|]). lia.
Qed.
#[local] Hint Resolve enter_depth_wp : parser_wp.

(** ** Names, paths and specs *)

Lemma is_path_snoc p seg : is_path p → is_name seg → is_path (p ++ [seg]).
Proof.
  intros [Hne Hall] Hs. split; [by destruct p|]. apply Forall_app. auto.
Qed.

Lemma spec_parts_wp fuel types st :
  String.length (rest st) < fuel → is_path types →
  wp (spec_parts fuel (join "-" types)) st (λ n st', moved 0 st st' ∧
    match n with Some s => ∃ types', is_path types' ∧ s = join "-" types' | None => True end).
Proof.
  revert types st. induction fuel as [|fuel IH]; intros types st Hfuel Ht; [lia|].
  cbn [spec_parts]. apply wp_gets.
  match goal with |- wp (if ?b then _ else _) _ _ => destruct b eqn:Hb end.
  2: { apply wp_ret. split; [apply moved_refl|]. eauto. }
  assert (Hlen : 2 ≤ String.length (rest st)).
  { destruct (rest st) as [|a [|c r]]; simpl in *; try done; try lia.
    by destruct a as [[] [] [] [] [] [] [] []]. }
  eapply wp_seq; [apply (advance_wp 1 1); lia|]. intros [] st1 H1.
  wp_next. intros [part|] st2 H2.
  - destruct H2 as [H2 Hpart]. rewrite <-join_snoc by apply Ht.
    eapply wp_mono; [apply IH; [|by apply is_path_snoc]|].
    + destruct H1, H2. lia.
    + intros n st3 [H3 Hn]. split; [|done].
      eapply moved_trans; [|exact H3|]; [by eapply moved_trans; [exact H1|exact H2|]|]; lia.
  - apply wp_ret. split; [|done]. by eapply moved_trans; [exact H1|exact H2|lia].
Qed.

Lemma read_spec_type_name_wp st :
  wp read_spec_type_name st (λ n st', moved 0 st st' ∧
    match n with Some s => ∃ types, is_path types ∧ s = join "-" types | None => True end).
Proof.
  wp_next. intros [name|] st1 H1; [|by apply wp_ret].
  destruct H1 as [H1 Hname]. apply wp_gets.
  eapply wp_mono; [apply (spec_parts_wp _ [name]); [lia|split; [done|by constructor]]|].
  intros n st2 [H2 Hn]. split; [|done]. by eapply moved_trans; [exact H1|exact H2|lia].
Qed.
#[local] Hint Resolve read_spec_type_name_wp : parser_wp.

Lemma path_parts_wp fuel segments st :
  String.length (rest st) < fuel → is_path segments →
  wp (path_parts fuel segments) st (λ p st', moved 0 st st' ∧ is_path p).
Proof.
  revert segments st. induction fuel as [|fuel IH]; intros segments st Hfuel Hp; [lia|].
  cbn [path_parts]. wp_next. intros [] st1 H1.
  2: { apply wp_ret. done. }
  wp_next. intros [seg|] st2 H2; [|done].
  destruct H2 as [H2 Hseg]. eapply wp_mono; [apply IH; [|by apply is_path_snoc]|].
  - destruct H1, H2. simpl in *. lia.
  - intros p st3 [H3 Hp3]. split; [|done].
    eapply moved_trans; [|exact H3|]; [by eapply moved_trans; [exact H1|exact H2|]|]; lia.
Qed.

Lemma path_rest_wp first st :
  is_name first → wp (path_rest first) st (λ p st', moved 0 st st' ∧ is_path p).
Proof. intros Hn. apply wp_gets. apply path_parts_wp; [lia|]. split; [done|by constructor]. Qed.

Lemma read_path_wp st : wp read_path st (λ p st', moved 1 st st' ∧ is_path p).
Proof.
  wp_next. intros [first|] st1 H1; [|done].
  destruct H1 as [H1 Hn]. eapply wp_mono; [by apply path_rest_wp|].
  intros p st2 [H2 Hp]. split; [|done]. by eapply moved_trans; [exact H1|exact H2|lia].
Qed.
#[local] Hint Resolve read_path_wp : parser_wp.

Lemma read_cmp_op_wp st : wp read_cmp_op st (λ _ st', moved 0 st st').
Proof.
  wp_next. intros [] st1 H1.
  assert (Hop : ∀ s (op : CmpOp) (k : FilterParser.M (option CmpOp)) st2, moved 0 st st2 →
    (∀ st3, moved 0 st st3 → wp k st3 (λ _ st', moved 0 st st')) →
    wp (b ← try_consume_str s; if b : bool then mret (Some op) else k) st2 (λ _ st', moved 0 st st')).
  { intros s op k st2 H2 Hk. wp_next. intros b st3 H3.
    assert (moved 0 st st3) by (eapply moved_trans; [exact H2|exact H3|lia]).
    destruct b; [by apply wp_ret|by apply Hk]. }
  repeat (apply Hop; [done|]; clear st1 H1; intros st1 H1). by apply wp_ret.
Qed.
#[local] Hint Resolve read_cmp_op_wp : parser_wp.

Lemma read_val_wp st : wp (read_val check) st (λ _ st', moved 0 st st').
Proof.
  wp_next. intros [] st1 H1.
  wp_next. intros [] st2 H2. apply wp_gets.
  on_ok (zinc_read_val (rest st2)) as [[v n]|e] Hz.
  apply zinc_read_val_le in Hz.
  eapply wp_seq; [apply (advance_wp _ 0); unfold str_len in Hz; lia|]. intros [] st3 H3.
  wp_next. intros [] st4 H4. apply wp_ret.
  assert (moved 0 st st2) by (eapply moved_trans; [exact H1|exact H2|lia]).
  assert (moved 0 st2 st4) by (eapply moved_trans; [exact H3|exact H4|lia]).
  eapply moved_trans; [done|done|lia].
Qed.
#[local] Hint Resolve read_val_wp : parser_wp.

Definition atom_ok st (p : ParsedNode) st' : Prop :=
  moved 1 st st' ∧ wf_node (pn_ast p) ∧ node_count (pn_ast p) = 1%N ∧
  node_depth (pn_ast p) = 1%N ∧ pn_depth p = 1%N.

Lemma spec_match_wp quals st0 st :
  moved 1 st0 st → is_path quals → wp (spec_match (join "." quals)) st (atom_ok st0).
Proof.
  intros H0 Hq. wp_next.
  intros [type_name|] st1 [H1 Ht]; [|done]. destruct Ht as (types & [Htne Htall] & ->).
  apply wp_ret. split; [by eapply moved_trans; [exact H0|exact H1|lia]|].
  split; [|done]. destruct Hq. by exists quals, types.
Qed.

(** The loop returns a spec match, or stops at a place from which the input
    can be resumed. *)
Lemma dotted_parts_wp fuel quals st0 st dot_pos :
  String.length (rest st) < fuel → is_path quals → moved 1 st0 st →
  (∀ st', moved 0 st st' → moved 1 st0 (set_input dot_pos.1 dot_pos.2 st')) →
  wp (dotted_parts fuel (join "." quals) dot_pos) st (λ r st',
    match r with
    | inl node => atom_ok st0 node st'
    | inr name => moved 1 st0 st' ∧ depth st' = depth st
    end).
Proof.
  revert quals st dot_pos. induction fuel as [|fuel IH]; intros quals st dot_pos Hfuel Hq H0 Hdot; [lia|].
  cbn [dotted_parts]. apply wp_gets. case_decide as Hc.
  2: { by apply wp_ret. }
  assert (Hlen : 1 ≤ String.length (rest st)) by (destruct (rest st); simpl in *; [done|lia]).
  eapply wp_seq; [apply (advance_wp 1 1); lia|]. intros [] st1 H1.
  wp_next. intros [seg|] st2 H2.
  - destruct H2 as [H2 Hseg]. rewrite <-join_snoc by apply Hq.
    apply wp_gets. wp_next. intros [] st3 H3.
    + assert (moved 1 st0 st2) as H02.
      { eapply moved_trans; [exact H0| |]; [by eapply moved_trans; [exact H1|exact H2|]|]; lia. }
      eapply wp_seq; [apply (spec_match_wp _ st0); [|by apply is_path_snoc]|].
      * by eapply moved_trans; [exact H02|exact H3|lia].
      * intros node st4 H4. by apply wp_ret.
    + assert (H23 : moved 2 st st3).
      { eapply moved_trans; [|exact H3|]; [by eapply moved_trans; [exact H1|exact H2|]|]; simpl; lia. }
      eapply wp_mono; [apply IH|].
      * destruct H23. lia.
      * by apply is_path_snoc.
      * by eapply moved_trans; [exact H0|exact H23|lia].
      * intros st' H'. simpl.
        assert (moved 1 st0 st2) as H02.
        { eapply moved_trans; [exact H0| |]; [by eapply moved_trans; [exact H1|exact H2|]|]; lia. }
        destruct H02 as [A1 A2 A3 A4]. destruct H3 as [B1 B2 B3 B4]. destruct H' as [D1 D2 D3 D4].
        split; simpl; lia || congruence.
      * intros [node|name] st' Hr; [done|]. destruct Hr as [Hr Hd]. split; [done|].
        rewrite Hd. apply (moved_depth _ _ _ H23).
  - apply wp_modify. apply wp_ret.
    assert (H02 : moved 0 st st2) by (eapply moved_trans; [exact H1|exact H2|lia]).
    split; [by apply Hdot|]. simpl. apply (moved_depth _ _ _ H02).
Qed.

Lemma cmp_or_has_wp first st0 st :
  moved 1 st0 st → is_name first → wp (cmp_or_has check first) st (atom_ok st0).
Proof.
  intros H0 Hn. eapply wp_seq; [by apply path_rest_wp|]. intros path st1 [H1 Hp].
  assert (H01 : moved 1 st0 st1) by (eapply moved_trans; [exact H0|exact H1|lia]).
  apply wp_gets. wp_next. intros [op|] st2 H2.
  - wp_next. intros val st3 H3. apply wp_ret. split; [|done].
    eapply moved_trans; [exact H01| |]; [by eapply moved_trans; [exact H2|exact H3|]|]; lia.
  - apply wp_modify. apply wp_ret. split; [|done]. simpl.
    destruct H01 as [A1 A2 A3 A4]. destruct H2 as [B1 B2 B3 B4].
    split; simpl; lia || congruence.
Qed.

(** ** Productions *)

(** What a production that returns [p] has done. *)
Record parsed_ok st (p : ParsedNode) st' : Prop := {
  parsed_rest : String.length (rest st') < String.length (rest st);
  parsed_pos : (pos st' + str_len (rest st') = pos st + str_len (rest st))%N;
  parsed_depth : depth st' = depth st;
  parsed_nodes : nodes st' = (nodes st + node_count (pn_ast p))%N;
  parsed_max : (nodes st' ≤ max_nodes limits)%N;
  parsed_node_depth : pn_depth p = node_depth (pn_ast p);
  parsed_limit : (pn_depth p ≤ max_depth limits)%N;
  parsed_wf : wf_node (pn_ast p)
}.

Lemma parse_atom_wp st : wp (parse_atom check limits) st (parsed_ok st).
Proof.
  wp_next.
  intros [] st1 (_ & Hr & Hp & Hd & Hn & Hmax & Hlim).
  assert (Hfin : ∀ p st', atom_ok st1 p st' → parsed_ok st p st').
  { intros p st' ([A1 A2 A3 A4] & Hwf & Hc & Hdp & Hpd). rewrite Hr, Hp in *.
    split; try lia; try congruence; done. }
  apply wp_gets. destruct (keyword_here "not" (rest st1)) eqn:Hk.
  - wp_next. intros b st2 H2.
    wp_next. intros [] st3 H3.
    wp_next. intros path st4 [H4 Hpath].
    apply wp_ret, Hfin. split; [|done].
    assert (moved 0 st1 st3) by (eapply moved_trans; [exact H2|exact H3|lia]).
    eapply moved_trans; [done|exact H4|lia].
  - wp_next. intros [first|] st2 H2; [|done].
    destruct H2 as [H2 Hname]. wp_next. intros [] st3 H3.
    { assert (moved 1 st1 st3) by (eapply moved_trans; [exact H2|exact H3|lia]).
      eapply wp_mono; [apply (spec_match_wp [first] st1); [done|split; [done|by constructor]]|].
      intros p st4. apply Hfin. }
    assert (H13 : moved 1 st1 st3) by (eapply moved_trans; [exact H2|exact H3|lia]).
    apply wp_gets. apply wp_gets.
    eapply wp_seq; [apply (dotted_parts_wp _ [first] st1)|].
    + lia.
    + split; [done|by constructor].
    + done.
    + intros st' [B1 B2 B3 B4]. destruct H13 as [A1 A2 A3 A4]. split; simpl; lia || congruence.
    + intros [node|name] st4 H4; [by apply wp_ret, Hfin|]. destruct H4 as [H4 Hd4].
      assert (Hres : moved 1 st1 (set_input (rest st3) (pos st3) st4)).
      { destruct H13 as [A1 A2 A3 A4], H4 as [B1 B2 B3 B4]. split; simpl; lia || congruence. }
      destruct (contains_dot name); [apply wp_modify|apply wp_bind, wp_ret];
        (eapply wp_mono; [by apply (cmp_or_has_wp _ st1)|intros p st5; apply Hfin]).
Qed.

(** The loops extend the node on their left. *)
Record extended_ok st (p : ParsedNode) (q : ParsedNode) st' : Prop := {
  extended_rest : String.length (rest st') ≤ String.length (rest st);
  extended_pos : (pos st' + str_len (rest st') = pos st + str_len (rest st))%N;
  extended_depth : depth st' = depth st;
  extended_nodes : (nodes st' + node_count (pn_ast p) = nodes st + node_count (pn_ast q))%N;
  extended_max : (nodes st' ≤ max_nodes limits)%N;
  extended_node_depth : pn_depth q = node_depth (pn_ast q);
  extended_limit : (pn_depth q ≤ max_depth limits)%N;
  extended_wf : wf_node (pn_ast q)
}.

(** The part of the state the loops need. *)
Record loop_pre st (p : ParsedNode) : Prop := {
  pre_max : (nodes st ≤ max_nodes limits)%N;
  pre_node_depth : pn_depth p = node_depth (pn_ast p);
  pre_limit : (pn_depth p ≤ max_depth limits)%N;
  pre_wf : wf_node (pn_ast p)
}.

Lemma parsed_loop_pre st0 p st : parsed_ok st0 p st → loop_pre st p.
Proof. intros []. by split. Qed.

(** One round of a loop, for the two binary nodes. *)
Lemma loop_round (mk_node : FilterNode → FilterNode → FilterNode) kw
    (sub : FilterParser.M ParsedNode) (again : ParsedNode → FilterParser.M ParsedNode) left st :
  (mk_node = And ∨ mk_node = Or) → 1 ≤ String.length kw →
  loop_pre st left →
  (∀ st', String.length (rest st') < String.length (rest st) → wp sub st' (parsed_ok st')) →
  (∀ st' p, String.length (rest st') < String.length (rest st) → loop_pre st' p →
     wp (again p) st' (extended_ok st' p)) →
  wp (skip_spaces;;
      b ← consume_keyword kw;
      if b : bool then
        skip_spaces;;
        right ← sub;
        let d := (1 + N.max (pn_depth left) (pn_depth right))%N in
        reserve_node check limits d;;
        again (mkParsed (mk_node (pn_ast left) (pn_ast right)) d)
      else mret left) st (extended_ok st left).
Proof.
  intros Hmk Hkw [Pmax Pdep Plim Pwf] Hsub Hagain.
  wp_next. intros [] st1 H1.
  wp_next. intros [] st2 H2.
  2: { apply wp_ret. destruct (moved_trans _ _ 0 _ _ _ H1 H2) as [A1 A2 A3 A4]; [lia|].
       split; try done; lia. }
  wp_next. intros [] st3 H3.
  assert (H13 : moved 1 st st3).
  { eapply moved_trans; [exact H1| |]; [by eapply moved_trans; [exact H2|exact H3|]|]; lia. }
  destruct H13 as [A1 A2 A3 A4].
  eapply wp_seq; [apply Hsub; lia|]. intros right st4 [R1 R2 R3 R4 R5 R6 R7 R8].
  wp_next. intros [] st5 (_ & Q1 & Q2 & Q3 & Q4 & Q5 & Q6).
  eapply wp_mono; [apply Hagain|].
  - rewrite Q1. lia.
  - split; simpl; [done| |done|]; destruct Hmk as [-> | ->]; simpl; try done; congruence.
  - intros q st6 [E1 E2 E3 E4 E5 E6 E7 E8]. rewrite Q1, Q2 in *.
    split; try done; try lia; try congruence.
    destruct Hmk as [-> | ->]; simpl in E4; lia.
Qed.

(** Enough fuel for each production, from the bytes left. *)
Lemma productions_wp fuel :
  (∀ st, 3 * String.length (rest st) + 3 ≤ fuel →
     wp (parse_cond_or check limits fuel) st (parsed_ok st)) ∧
  (∀ st p, 3 * String.length (rest st) + 1 ≤ fuel → loop_pre st p →
     wp (or_loop check limits fuel p) st (extended_ok st p)) ∧
  (∀ st, 3 * String.length (rest st) + 2 ≤ fuel →
     wp (parse_cond_and check limits fuel) st (parsed_ok st)) ∧
  (∀ st p, 3 * String.length (rest st) + 1 ≤ fuel → loop_pre st p →
     wp (and_loop check limits fuel p) st (extended_ok st p)) ∧
  (∀ st, 3 * String.length (rest st) + 1 ≤ fuel →
     wp (parse_term check limits fuel) st (parsed_ok st)).
Proof.
  induction fuel as [|fuel (IHor & IHol & IHand & IHal & IHterm)];
    [repeat split; intros; lia|].
  assert (Hcond : ∀ (sub : FilterParser.M ParsedNode) loop st,
    (∀ st', rest st' = rest st → wp sub st' (parsed_ok st')) →
    (∀ st' p, String.length (rest st') < String.length (rest st) → loop_pre st' p →
       wp (loop p) st' (extended_ok st' p)) →
    wp (enter_depth check;; left ← sub; left ← loop left; exit_depth;; mret left) st (parsed_ok st)).
  { intros sub loop st Hsub Hloop. wp_next.
    intros [] st1 (Er & Ep & Ed & En & _).
    eapply wp_seq; [by apply Hsub|]. intros p st2 Hp. pose proof Hp as [P1 P2 P3 P4 P5 P6 P7 P8].
    eapply wp_seq; [apply Hloop; [rewrite <-Er; done|by eapply parsed_loop_pre]|].
    intros q st3 [E1 E2 E3 E4 E5 E6 E7 E8]. apply wp_modify, wp_ret. rewrite Er, Ep in *.
    split; simpl; try done; lia. }
  repeat split.
  - intros st Hf. cbn [parse_cond_or]. apply Hcond.
    + intros st' Hr. apply IHand. rewrite Hr. lia.
    + intros st' p Hlt Hpre. apply IHol; [lia|done].
  - intros st p Hf Hpre. cbn [or_loop]. apply (loop_round Or "or"); [by right|simpl; lia|done|..].
    + intros st' Hlt. apply IHand. lia.
    + intros st' q Hlt Hq. apply IHol; [lia|done].
  - intros st Hf. cbn [parse_cond_and]. apply Hcond.
    + intros st' Hr. apply IHterm. rewrite Hr. lia.
    + intros st' p Hlt Hpre. apply IHal; [lia|done].
  - intros st p Hf Hpre. cbn [and_loop]. apply (loop_round And "and"); [by left|simpl; lia|done|..].
    + intros st' Hlt. apply IHterm. lia.
    + intros st' q Hlt Hq. apply IHal; [lia|done].
  - intros st Hf. cbn [parse_term]. wp_next. intros [] st1 H1.
    apply wp_gets. case_decide as Hc.
    2: { eapply wp_mono; [apply parse_atom_wp|]. intros p st2 [P1 P2 P3 P4 P5 P6 P7 P8].
         destruct H1 as [A1 A2 A3 A4]. split; try done; lia || congruence. }
    assert (1 ≤ String.length (rest st1)) by (destruct (rest st1); simpl in *; [done|lia]).
    eapply wp_seq; [apply (advance_wp 1 1); lia|]. intros [] st2 H2.
    wp_next. intros [] st3 H3.
    destruct (moved_trans _ _ 1 _ _ _ H1 (moved_trans _ _ 1 _ _ _ H2 H3 ltac:(lia)) ltac:(lia))
      as [A1 A2 A3 A4].
    eapply wp_seq; [apply IHor; lia|]. intros p st4 [P1 P2 P3 P4 P5 P6 P7 P8].
    wp_next. intros [] st5 [B1 B2 B3 B4].
    apply wp_gets. case_decide as Hc'; [|done].
    assert (1 ≤ String.length (rest st5)) by (destruct (rest st5); simpl in *; [done|lia]).
    eapply wp_seq; [apply (advance_wp 1 1); lia|]. intros [] st6 [D1 D2 D3 D4]. apply wp_ret.
    split; try done; lia || congruence.
Qed.

Lemma parse_all_wp st :
  wp (parse_all check limits) st (λ node st',
    wf_node node ∧ nodes st' = (nodes st + node_count node)%N ∧
    (nodes st' ≤ max_nodes limits)%N ∧ (node_depth node ≤ max_depth limits)%N ∧ rest st' = "").
Proof.
  wp_next. intros [] st1 [A1 A2 A3 A4].
  apply wp_gets. destruct (bool_decide (rest st1 = "")); [done|]. apply wp_gets.
  eapply wp_seq; [apply productions_wp; unfold fuel_for; lia|].
  intros p st2 [P1 P2 P3 P4 P5 P6 P7 P8].
  wp_next. intros [] st3 [B1 B2 B3 B4].
  wp_next. intros [] st4 [D1 D2 D3 D4].
  apply wp_gets. case_bool_decide as He; [|done]. apply wp_ret.
  split; [done|]. split; [congruence|]. split; [congruence|]. split; [congruence|]. done.
Qed.

(** The whole parse returns, and a filter it returns is well formed and
    within the limits. *)
Lemma parse_controlled_spec c expr :
  ∃ r, parse_filter_controlled check c limits expr = Some r ∧
    ∀ node, r = Ok node →
      wf_node node ∧ (node_count node ≤ max_nodes limits)%N ∧
      (node_depth node ≤ max_depth limits)%N ∧ (str_len expr ≤ max_bytes limits)%N.
Proof.
  unfold parse_filter_controlled. destruct (check c) as [c'|e]; [|by eexists].
  destruct (_ || _) eqn:Hlim; [by eexists|].
  apply orb_false_iff in Hlim as [[Hb%bool_decide_eq_false _]%orb_false_iff _].
  pose proof (parse_all_wp (mk expr 0 0 0 c')) as Hwp. unfold wp in Hwp.
  destruct (parse_all check limits (mk expr 0 0 0 c')) as [[[node st]|e]|]; [|by eexists|done].
  eexists. split; [done|]. intros node' [= <-].
  destruct Hwp as (Hwf & Hn & Hmax & Hd & _). cbn in Hn. split; [done|]. split; [lia|].
  split; [done|lia].
Qed.
End wp.
End FilterParserFacts.

(** [parse_filter] as the graph calls it, with its error displayed. *)
Definition parser_syntax `{Lexical} : FilterSyntax := λ text,
  match FilterParser.parse_filter text with
  | Some (Ok node) => Ok node
  | Some (Err e) => Err (FilterParser.display e)
  | None => Err ""
  end.
