(* ===== verification/FilterPrint.v ===== *)
(** * Printing filters

    [render] prints a filter in the grammar of [filter/parser.rs], with the
    operands of [and] and [or] in parentheses; parsing the text gives the
    filter back.  The printer of scalar literals is the Zinc encoder, an
    interface like the reader. *)

From Stdlib Require Import Ascii.
From S2P Require Import Prelude Floats Kinds Filter FilterParser Query FilterParserFacts.

Definition op_text (op : CmpOp) : string :=
  match op with
  | CEq => "==" | CNe => "!=" | CLt => "<" | CLe => "<=" | CGt => ">" | CGe => ">="
  end.

(** The text after an operand: the end, or a closing parenthesis. *)
Definition closed (tail : string) : Prop := tail = "" ∨ ∃ s, tail = String ")"%char s.

(** Literals that the Zinc reader reads back from what the encoder prints. *)
Class Literals `{Lexical} : Type := zinc_print : Kind → string.
Definition readable `{Literals} (v : Kind) : Prop :=
  FilterParser.spaces (zinc_print v) = 0 ∧ zinc_print v ≠ "" ∧
  ∀ tail, closed tail →
    zinc_read_val (zinc_print v +:+ tail) = Ok (v, str_len (zinc_print v)).

Fixpoint render `{Literals} (node : FilterNode) : string :=
  match node with
  | Has p => join "->" p
  | Missing p => "not " +:+ join "->" p
  | Cmp p op v => join "->" p +:+ " " +:+ op_text op +:+ " " +:+ zinc_print v
  | And l r => "(" +:+ render l +:+ ") and (" +:+ render r +:+ ")"
  | Or l r => "(" +:+ render l +:+ ") or (" +:+ render r +:+ ")"
  | SpecMatch s => s
  end.

(** Filters that can be written: names are names, a path does not start with
    the keyword [not], and literals are readable. *)
Definition starts_plain (p : Path) : Prop :=
  ∃ first segs, p = first :: segs ∧ first ≠ "not" ∧ Forall is_name p.
Fixpoint printable `{Literals} (node : FilterNode) : Prop :=
  match node with
  | Has p => starts_plain p
  | Missing p => is_path p
  | Cmp p _ v => starts_plain p ∧ readable v
  | And l r | Or l r => printable l ∧ printable r
  | SpecMatch s => ∃ quals types, starts_plain quals ∧ is_path types ∧
      s = join "." quals +:+ "::" +:+ join "-" types
  end.

(** ** Scanning printed text *)

Definition head_not (P : ascii → bool) (s : string) : Prop :=
  match s with String c _ => P c = false | EmptyString => True end.

Lemma drop_str_app a b : drop_str (String.length a) (a +:+ b) = b.
Proof. induction a as [|c a IH]; [done|]. rewrite sapp_cons. exact IH. Qed.

Lemma length_sapp a b : String.length (a +:+ b) = String.length a + String.length b.
Proof. induction a as [|c a IH]; [done|]. rewrite sapp_cons. simpl. by rewrite IH. Qed.

Lemma str_len_app a b : str_len (a +:+ b) = (str_len a + str_len b)%N.
Proof. unfold str_len. rewrite length_sapp. lia. Qed.

Lemma prefix_app a b : String.prefix a (a +:+ b) = true.
Proof.
  induction a as [|c a IH]; [by destruct b|]. rewrite sapp_cons. cbn [String.prefix].
  by destruct (ascii_dec c c).
Qed.

Lemma name_chars_app a tail :
  FilterParser.name_chars a = a → head_not name_char tail →
  FilterParser.name_chars (a +:+ tail) = a.
Proof.
  intros Ha Ht. induction a as [|c a IH].
  - destruct tail as [|c tail]; [done|]. simpl in *. change ("" +:+ String c tail) with (String c tail).
    simpl. by rewrite Ht.
  - rewrite sapp_cons. simpl in *. destruct (name_char c); [|done]. injection Ha as Ha. by rewrite IH.
Qed.

Lemma name_at_app a tail :
  is_name a → head_not name_char tail → FilterParser.name_at (a +:+ tail) = Some a.
Proof.
  unfold is_name. destruct a as [|c a]; [done|]. rewrite sapp_cons. simpl.
  destruct (is_ascii_alphabetic c); [|done]. intros [= Ha] Ht. by rewrite name_chars_app.
Qed.

(** A name starts with a letter. *)
Lemma is_name_cons a : is_name a → ∃ c s, a = String c s ∧ is_ascii_alphabetic c = true ∧
  FilterParser.name_chars s = s.
Proof.
  unfold is_name. destruct a as [|c s]; [done|]. simpl.
  destruct (is_ascii_alphabetic c) eqn:E; [|done]. intros [= Hs]. by exists c, s.
Qed.

Lemma name_chars_name a : is_name a → FilterParser.name_chars a = a.
Proof.
  intros (c & s & -> & Hc & Hs)%is_name_cons. simpl. unfold name_char, is_ascii_alphanumeric.
  rewrite Hc. simpl. by rewrite Hs.
Qed.

Lemma all_ascii (P : ascii → bool) :
  forallb (λ n, P (ascii_of_N (N.of_nat n))) (seq 0 256) = true → ∀ c, P c = true.
Proof.
  intros Hall c. rewrite forallb_forall in Hall.
  specialize (Hall (N.to_nat (N_of_ascii c))). rewrite N2Nat.id, ascii_N_embedding in Hall.
  apply Hall. apply in_seq. pose proof (N_ascii_bounded c). lia.
Qed.

(** Facts about a character's class, by enumeration. *)
Lemma alphabetic_class c :
  is_ascii_alphabetic c = true →
  c ≠ " "%char ∧ c ≠ "009"%char ∧ c ≠ "("%char ∧ c ≠ "-"%char ∧ c ≠ "."%char.
Proof.
  intros Hc. repeat split; intros ->; vm_compute in Hc; done.
Qed.

Lemma name_char_alnum `{Lexical} c :
  name_char c = true →
  next_char (String c "") = Some (N_of_ascii c) ∧
  negb (FilterParser.is_alphanumeric (N_of_ascii c)) && bool_decide (N_of_ascii c ≠ N_of_ascii "_"%char)
  = false.
Proof.
  intros Hc. assert (Hlt : (N_of_ascii c < 128)%N).
  { pose proof (all_ascii (λ c, negb (name_char c) || (N_of_ascii c <? 128)%N)
      ltac:(vm_compute; reflexivity) c) as Hall. cbn beta in Hall.
    rewrite Hc in Hall. by apply N.ltb_lt. }
  split; [unfold next_char; by rewrite decide_True|].
  unfold FilterParser.is_alphanumeric. rewrite decide_True, ascii_N_embedding by done.
  unfold name_char in Hc. destruct (is_ascii_alphanumeric c); [done|]. simpl in *.
  apply bool_decide_eq_true in Hc as ->. apply bool_decide_eq_false_2. tauto.
Qed.

Lemma next_char_ascii c s s' : (N_of_ascii c < 128)%N → next_char (String c s) = next_char (String c s').
Proof. intros Hlt. unfold next_char. by rewrite !decide_True. Qed.

(** A keyword is not found at the front of another name. *)
Lemma prefix_of_name kw a tail :
  FilterParser.name_chars kw = kw → FilterParser.name_chars a = a → head_not name_char tail →
  String.prefix kw (a +:+ tail) = true → ∃ x, a = kw +:+ x.
Proof.
  revert a. induction kw as [|k kw IH]; intros a Hk Ha Ht Hp; [by exists a|].
  simpl in Hk. destruct (name_char k) eqn:Hkc; [|done]. injection Hk as Hk.
  destruct a as [|c a].
  - destruct tail as [|c tail]; [done|]. change ("" +:+ String c tail) with (String c tail) in Hp.
    cbn [String.prefix] in Hp. destruct (ascii_dec k c); [|done]. subst. simpl in Ht. congruence.
  - rewrite sapp_cons in Hp. cbn [String.prefix] in Hp. destruct (ascii_dec k c); [|done]. subst c.
    simpl in Ha. rewrite Hkc in Ha. injection Ha as Ha.
    destruct (IH a Hk Ha Ht Hp) as [x ->]. exists x. by rewrite sapp_cons.
Qed.

Lemma keyword_not_name `{Lexical} kw a tail :
  FilterParser.name_chars kw = kw → FilterParser.name_chars a = a → head_not name_char tail →
  a ≠ kw → FilterParser.keyword_here kw (a +:+ tail) = false.
Proof.
  intros Hk Ha Ht Hne. unfold FilterParser.keyword_here.
  destruct (String.prefix kw (a +:+ tail)) eqn:Hp; [|done]. simpl.
  destruct (prefix_of_name kw a tail Hk Ha Ht Hp) as [x ->].
  rewrite sapp_assoc, drop_str_app. destruct x as [|c x].
  { exfalso. apply Hne. clear. induction kw as [|k kw IH]; [done|]. by rewrite sapp_cons, IH. }
  assert (Hc : name_char c = true).
  { clear -Hk Ha. induction kw as [|k kw IH].
    - simpl in Ha. by destruct (name_char c).
    - rewrite sapp_cons in Ha. simpl in Hk, Ha. destruct (name_char k); [|done].
      injection Hk as Hk. injection Ha as Ha. auto. }
  rewrite sapp_cons. destruct (name_char_alnum c Hc) as [Hn Hf].
  assert (Hlt : (N_of_ascii c < 128)%N).
  { pose proof (all_ascii (λ c, negb (name_char c) || (N_of_ascii c <? 128)%N)
      ltac:(vm_compute; reflexivity) c) as Hall. cbn beta in Hall.
    rewrite Hc in Hall. by apply N.ltb_lt. }
  rewrite (next_char_ascii c _ "" Hlt), Hn. exact Hf.
Qed.

(** Items separated by a text, then a tail. *)
Definition seps (sep : string) (l : list string) (tail : string) : string :=
  foldr (λ s acc, sep +:+ s +:+ acc) tail l.

Lemma join_seps sep first l tail : join sep (first :: l) +:+ tail = first +:+ seps sep l tail.
Proof.
  revert first. induction l as [|a l IH]; intros first; [done|].
  change (join sep (first :: a :: l)) with (first +:+ sep +:+ join sep (a :: l)).
  rewrite !sapp_assoc, IH. done.
Qed.

Lemma seps_length sep l tail :
  1 ≤ String.length sep → length l ≤ String.length (seps sep l tail).
Proof.
  intros Hs. induction l as [|a l IH]; simpl; [lia|]. rewrite !length_sapp. lia.
Qed.

Lemma closed_stops tail : closed tail →
  head_not name_char tail ∧ FilterParser.spaces tail = 0 ∧ String.prefix "->" tail = false ∧
  String.prefix "::" tail = false ∧ FilterParser.peek_str tail ≠ Some "."%char.
Proof. by intros [->|[s ->]]. Qed.

Module FilterPrint.
Import FilterParser.

Section reads.
Context {LX : Lexical} {LT : Literals} {C : Type}.
Context (check : C → result FilterError C) (limits : FilterParseLimits).
Context (Hcheck : ∀ c, check c = Ok c).
Implicit Types (s tail : string).

(** The action reads the input from [s] to [s'] and returns [a]; only the
    position moves with it. *)
Definition reads {A} (m : @FilterParser.M C A) s (a : A) s' : Prop :=
  ∀ p d n c, ∃ p', m (mk s p d n c) = Some (Ok (a, mk s' p' d n c)).

Lemma reads_ret {A} (a : A) s : reads (mret a) s a s.
Proof. intros p d n c. by exists p. Qed.
Lemma reads_bind {A B} (m : FilterParser.M A) (k : A → FilterParser.M B) s a s1 b s2 :
  reads m s a s1 → reads (k a) s1 b s2 → reads (m ≫= k) s b s2.
Proof.
  intros Hm Hk p d n c. destruct (Hm p d n c) as [p1 H1]. destruct (Hk p1 d n c) as [p2 H2].
  exists p2. unfold mbind, M_bind. by rewrite H1.
Qed.
(** Reads with the first action of a sequence by the given proof. *)
Tactic Notation "reads_by" tactic3(tac) := eapply reads_bind; [tac|].

Lemma reads_gets {A B} (f : t → A) (k : A → FilterParser.M B) s a b s2 :
  (∀ p d n c, f (mk s p d n c) = a) → reads (k a) s b s2 → reads (gets f ≫= k) s b s2.
Proof. intros Hf Hk p d n c. unfold mbind, M_bind, gets. rewrite Hf. apply Hk. Qed.
Lemma reads_mark {B} (k : string * N → FilterParser.M B) s b s2 :
  (∀ p, reads (k (s, p)) s b s2) → reads (mark ≫= k) s b s2.
Proof. intros Hk p d n c. apply Hk. Qed.
Lemma reads_restore s0 p0 s : reads (restore (s0, p0)) s () s0.
Proof. intros p d n c. by exists p0. Qed.
Lemma reads_advance k s : reads (advance k) s () (drop_str k s).
Proof. intros p d n c. by eexists. Qed.
Lemma reads_peek s : reads peek s (peek_str s) s.
Proof. intros p d n c. by exists p. Qed.
Lemma reads_check s : reads (run_check check) s () s.
Proof. intros p d n c. exists p. unfold run_check. simpl. by rewrite Hcheck. Qed.

Lemma reads_spaces k s : spaces s = k → reads skip_spaces s () (drop_str k s).
Proof. intros <-. by eapply reads_gets; [intros; simpl|apply reads_advance]. Qed.
Lemma reads_no_spaces s : spaces s = 0 → reads skip_spaces s () s.
Proof. intros Hs. exact (reads_spaces 0 s Hs). Qed.
Lemma reads_one_space s : spaces s = 0 → reads skip_spaces (String " "%char s) () s.
Proof. intros Hs. apply (reads_spaces 1). simpl. by rewrite Hs. Qed.

Lemma reads_name a tail :
  is_name a → head_not name_char tail → reads read_name (a +:+ tail) (Some a) tail.
Proof.
  intros Ha Ht. eapply reads_gets; [intros; simpl; by apply name_at_app|].
  eapply reads_bind; [|apply reads_ret]. rewrite <-(drop_str_app a tail) at 2. apply reads_advance.
Qed.

Lemma reads_str x tail : reads (try_consume_str x) (x +:+ tail) true tail.
Proof.
  eapply (reads_gets _ _ _ true); [intros; apply prefix_app|].
  eapply reads_bind; [|apply reads_ret]. rewrite <-(drop_str_app x tail) at 2. apply reads_advance.
Qed.
Lemma reads_no_str x s : String.prefix x s = false → reads (try_consume_str x) s false s.
Proof. intros Hp. eapply (reads_gets _ _ _ false); [by intros|]. apply reads_ret. Qed.

(** ** Paths and specs *)

Lemma seps_head sep l tail :
  head_not name_char sep → sep ≠ "" → head_not name_char tail → head_not name_char (seps sep l tail).
Proof. intros Hs Hne Ht. destruct l as [|a l]; [done|]. by destruct sep. Qed.

Lemma reads_path_parts fuel segs l tail :
  length l < fuel → Forall is_name l → head_not name_char tail → String.prefix "->" tail = false →
  reads (path_parts fuel segs) (seps "->" l tail) (segs ++ l) tail.
Proof.
  revert segs fuel. induction l as [|a l IH]; intros segs [|fuel] Hf Hl Ht Hp;
    simpl in Hf; try lia; cbn [path_parts].
  - reads_by (by apply reads_no_str). rewrite app_nil_r. apply reads_ret.
  - apply Forall_cons in Hl as [Ha Hl]. cbn [seps foldr]. fold (seps "->" l tail).
    reads_by (apply (reads_str "->")).
    reads_by (apply reads_name; [done|by apply seps_head]).
    rewrite cons_middle, app_assoc. apply IH; [lia|done..].
Qed.

Lemma reads_path_rest first l tail :
  Forall is_name l → head_not name_char tail → String.prefix "->" tail = false →
  reads (path_rest first) (seps "->" l tail) (first :: l) tail.
Proof.
  intros Hl Ht Hp. eapply reads_gets; [by intros; simpl|].
  apply (reads_path_parts _ [first]); [|done..].
  pose proof (seps_length "->" l tail ltac:(simpl; lia)). simpl. lia.
Qed.

Lemma reads_spec_parts fuel types l tail :
  length l < fuel → types ≠ [] → Forall is_name l → closed tail →
  reads (spec_parts fuel (join "-" types)) (seps "-" l tail) (Some (join "-" (types ++ l))) tail.
Proof.
  revert types fuel. induction l as [|a l IH]; intros types [|fuel] Hf Hne Hl Ht;
    simpl in Hf; try lia; cbn [spec_parts].
  - eapply (reads_gets _ _ _ false); [by destruct Ht as [->|[s ->]]|].
    rewrite app_nil_r. apply reads_ret.
  - apply Forall_cons in Hl as [Ha Hl]. cbn [seps foldr]. fold (seps "-" l tail).
    destruct (is_name_cons a Ha) as (x & y & Hxy & Hx & _).
    eapply (reads_gets _ _ _ true); [by intros; rewrite Hxy|].
    reads_by (apply reads_advance).
    change (drop_str 1 ("-" +:+ ?z)) with z.
    eapply reads_bind; [apply reads_name; [done|apply seps_head; [done|done|by apply closed_stops]]|].
    rewrite cons_middle, app_assoc, <-join_snoc by done.
    apply IH; [lia| |done|done]. by destruct types.
Qed.

Lemma reads_spec_match qual type l tail :
  is_name type → Forall is_name l → closed tail →
  reads (spec_match qual) (type +:+ seps "-" l tail)
    (mkParsed (SpecMatch (qual +:+ "::" +:+ join "-" (type :: l))) 1) tail.
Proof.
  intros Hty Hl Ht.
  assert (Hr : reads read_spec_type_name (type +:+ seps "-" l tail)
                 (Some (join "-" (type :: l))) tail).
  { eapply reads_bind; [apply reads_name; [done|apply seps_head; [done|done|by apply closed_stops]]|].
    eapply reads_gets; [by intros; simpl|]. apply (reads_spec_parts _ [type]); [|done..].
    pose proof (seps_length "-" l tail ltac:(simpl; lia)). simpl. lia. }
  eapply reads_bind; [exact Hr|apply reads_ret].
Qed.

Lemma reads_dotted fuel quals dp l type ts tail :
  length l < fuel → quals ≠ [] → l ≠ [] → Forall is_name l →
  is_name type → Forall is_name ts → closed tail →
  reads (dotted_parts fuel (join "." quals) dp) (seps "." l ("::" +:+ type +:+ seps "-" ts tail))
    (inl (mkParsed (SpecMatch (join "." (quals ++ l) +:+ "::" +:+ join "-" (type :: ts))) 1)) tail.
Proof.
  revert quals fuel dp. induction l as [|a l IH]; intros quals [|fuel] dp Hf Hq Hne Hl Hty Hts Ht;
    simpl in Hf; try lia; [done|].
  cbn [dotted_parts seps foldr]. fold (seps "." l ("::" +:+ type +:+ seps "-" ts tail)).
  apply Forall_cons in Hl as [Ha Hl].
  eapply (reads_gets _ _ _ (Some "."%char)); [done|]. rewrite decide_True by done.
  reads_by (apply reads_advance). change (drop_str 1 ("." +:+ ?z)) with z.
  reads_by (apply reads_name; [done|by apply seps_head]).
  apply reads_mark. intros p. rewrite <-join_snoc by done.
  destruct l as [|b l].
  - reads_by (apply (reads_str "::")).
    reads_by (by apply reads_spec_match). apply reads_ret.
  - reads_by (by apply reads_no_str).
    replace (quals ++ a :: b :: l) with ((quals ++ [a]) ++ b :: l) by (by rewrite <-app_assoc).
    apply IH; try done; [simpl in *; lia|by destruct quals].
Qed.

Lemma reads_no_dot fuel name dp s :
  peek_str s ≠ Some "."%char → reads (dotted_parts (S fuel) name dp) s (inr name) s.
Proof.
  intros Hs. cbn [dotted_parts]. eapply reads_gets; [by intros; simpl|].
  rewrite decide_False by done. apply reads_ret.
Qed.

Lemma contains_dot_name a : is_name a → contains_dot a = false.
Proof.
  intros (c & s & -> & Hc & Hs)%is_name_cons. simpl.
  apply alphabetic_class in Hc as (_ & _ & _ & _ & Hdot).
  rewrite bool_decide_eq_false_2 by done. simpl. clear Hdot.
  induction s as [|x s IH]; simpl in *; [done|].
  destruct (name_char x) eqn:Hx; [|done]. injection Hs as Hs. rewrite IH by done.
  rewrite bool_decide_eq_false_2; [done|]. intros ->. by vm_compute in Hx.
Qed.

(** ** Comparisons *)

Lemma reads_no_op tail : closed tail → reads read_cmp_op tail None tail.
Proof. intros [->|[s ->]] p d n c; eexists; reflexivity. Qed.

Lemma reads_op op s : reads read_cmp_op (" " +:+ op_text op +:+ " " +:+ s) (Some op) (" " +:+ s).
Proof. intros p d n c. destruct op; eexists; reflexivity. Qed.

Lemma spaces_app a b : spaces a = 0 → a ≠ "" → spaces (a +:+ b) = 0.
Proof. destruct a as [|c a]; [done|]. rewrite sapp_cons. simpl. by destruct (_ || _). Qed.

Lemma reads_val v tail :
  readable v → closed tail → reads (read_val check) (" " +:+ zinc_print v +:+ tail) v tail.
Proof.
  intros (Hsp & Hne & Hread) Ht. reads_by (apply reads_check).
  reads_by (apply reads_one_space; by apply spaces_app).
  eapply reads_gets; [by intros; simpl|]. rewrite (Hread tail Ht).
  reads_by (apply reads_advance).
  unfold str_len. rewrite Nat2N.id, drop_str_app.
  eapply reads_bind; [apply reads_check|apply reads_ret].
Qed.

(** ** Atoms *)

(** A term that starts with a name other than [not] and is not a spec. *)
Lemma reads_plain first s p tail :
  is_name first → first ≠ "not" → head_not name_char s →
  String.prefix "::" s = false → peek_str s ≠ Some "."%char →
  reads (cmp_or_has check first) s p tail →
  reads (atom_body check) (first +:+ s) p tail.
Proof.
  intros Hf Hnot Hs Hcol Hdot Hr.
  eapply (reads_gets _ _ _ false).
  { intros. simpl. apply keyword_not_name; [done|by apply name_chars_name|done|done]. }
  reads_by (by apply reads_name).
  reads_by (by apply reads_no_str).
  apply reads_mark. intros p0. eapply reads_gets; [by intros; simpl|].
  reads_by (by apply reads_no_dot).
  cbn beta iota. rewrite contains_dot_name by done. by reads_by (apply reads_ret).
Qed.

Lemma seps_arrow_stops l tail :
  head_not name_char tail → String.prefix "::" tail = false → peek_str tail ≠ Some "."%char →
  head_not name_char (seps "->" l tail) ∧ String.prefix "::" (seps "->" l tail) = false ∧
  peek_str (seps "->" l tail) ≠ Some "."%char.
Proof. intros H1 H2 H3. by destruct l as [|a l]. Qed.

Lemma reads_has first l tail :
  starts_plain (first :: l) → closed tail →
  reads (atom_body check) (join "->" (first :: l) +:+ tail) (mkParsed (Has (first :: l)) 1) tail.
Proof.
  intros (f & segs & [= <- <-] & Hnot & [Hf Hl]%Forall_cons) Ht.
  destruct (closed_stops tail Ht) as (T1 & T2 & T3 & T4 & T5).
  destruct (seps_arrow_stops l tail T1 T4 T5) as (S1 & S2 & S3).
  rewrite join_seps. apply reads_plain; try done.
  reads_by (by apply reads_path_rest). apply reads_mark. intros p.
  reads_by (by apply reads_no_op).
  eapply reads_bind; [apply reads_restore|apply reads_ret].
Qed.

Lemma reads_cmp first l op v tail :
  starts_plain (first :: l) → readable v → closed tail →
  reads (atom_body check)
    ((join "->" (first :: l) +:+ " " +:+ op_text op +:+ " " +:+ zinc_print v) +:+ tail)
    (mkParsed (Cmp (first :: l) op v) 1) tail.
Proof.
  intros (f & segs & [= <- <-] & Hnot & [Hf Hl]%Forall_cons) Hv Ht.
  rewrite !sapp_assoc, join_seps.
  destruct (seps_arrow_stops l (" " +:+ op_text op +:+ " " +:+ zinc_print v +:+ tail))
    as (S1 & S2 & S3); [done..|].
  apply reads_plain; try done.
  reads_by (by apply reads_path_rest). apply reads_mark. intros p.
  reads_by (apply reads_op).
  eapply reads_bind; [by apply reads_val|apply reads_ret].
Qed.

Lemma reads_missing p tail :
  is_path p → closed tail →
  reads (atom_body check) (("not " +:+ join "->" p) +:+ tail) (mkParsed (Missing p) 1) tail.
Proof.
  intros [Hne Hp] Ht. destruct p as [|first l]; [done|]. apply Forall_cons in Hp as [Hf Hl].
  destruct (closed_stops tail Ht) as (T1 & T2 & T3 & T4 & T5).
  destruct (seps_arrow_stops l tail T1 T4 T5) as (S1 & S2 & S3).
  rewrite sapp_assoc, join_seps.
  change ("not " +:+ ?z) with ("not" +:+ String " "%char z).
  assert (Hk : keyword_here "not" ("not" +:+ String " "%char (first +:+ seps "->" l tail)) = true) by done.
  eapply (reads_gets _ _ _ true); [by intros|].
  eapply reads_bind.
  { eapply (reads_gets _ _ _ true); [by intros|].
    eapply reads_bind; [apply reads_advance|apply reads_ret]. }
  rewrite drop_str_app. reads_by (apply reads_one_space).
  { destruct (is_name_cons first Hf) as (c & r & -> & (? & ? & _)%alphabetic_class & _).
    rewrite sapp_cons. simpl. by rewrite !bool_decide_eq_false_2. }
  eapply reads_bind; [|apply reads_ret].
  reads_by (by apply reads_name). by apply reads_path_rest.
Qed.

Lemma reads_spec quals types tail :
  starts_plain quals → is_path types → closed tail →
  reads (atom_body check) ((join "." quals +:+ "::" +:+ join "-" types) +:+ tail)
    (mkParsed (SpecMatch (join "." quals +:+ "::" +:+ join "-" types)) 1) tail.
Proof.
  intros (first & l & -> & Hnot & [Hf Hl]%Forall_cons) [Htne Hty] Ht.
  destruct types as [|type ts]; [done|]. apply Forall_cons in Hty as [Hty Hts].
  set (tl := "::" +:+ type +:+ seps "-" ts tail).
  assert (Htext : (join "." (first :: l) +:+ "::" +:+ join "-" (type :: ts)) +:+ tail
                  = first +:+ seps "." l tl) by by rewrite !sapp_assoc, !join_seps.
  rewrite Htext.
  assert (Hhead : head_not name_char (seps "." l tl)) by (by apply seps_head).
  eapply (reads_gets _ _ _ false).
  { intros. simpl. apply keyword_not_name; [done|by apply name_chars_name|done|done]. }
  reads_by (by apply reads_name).
  destruct l as [|b l].
  - reads_by (apply (reads_str "::")). by apply reads_spec_match.
  - reads_by (by apply reads_no_str).
    apply reads_mark. intros p0. eapply reads_gets; [by intros; simpl|].
    eapply reads_bind; [apply (reads_dotted _ [first]); try done|apply reads_ret].
    pose proof (seps_length "." (b :: l) tl ltac:(simpl; lia)). simpl in *. lia.
Qed.

(** ** Productions *)

(** The production reads [node] from [s], stopping at [s']: it adds [e] nodes
    and needs [k] levels of depth. *)
Definition parses (k e : N) (m : @FilterParser.M C ParsedNode) s (node : FilterNode) s' : Prop :=
  ∀ p d n c, (n + e ≤ max_nodes limits)%N → (node_depth node ≤ max_depth limits)%N →
    (d + k ≤ MAX_DEPTH)%N →
    ∃ p', m (mk s p d n c)
          = Some (Ok (mkParsed node (node_depth node), mk s' p' d (n + e) c)).

Lemma run_bind {A B} (m : @FilterParser.M C A) (k : A → FilterParser.M B) st a st' :
  m st = Some (Ok (a, st')) → (m ≫= k) st = k a st'.
Proof. intros Hm. unfold mbind, M_bind. by rewrite Hm. Qed.

Lemma parses_weaken k k' e m s node s' :
  (k ≤ k')%N → parses k e m s node s' → parses k' e m s node s'.
Proof. intros Hk Hm p d n c Hn Hd Hd'. apply Hm; lia. Qed.

Lemma parses_skip {A} k e (m : @FilterParser.M C A) a (f : A → FilterParser.M ParsedNode) s s1 node s' :
  reads m s a s1 → parses k e (f a) s1 node s' → parses k e (m ≫= f) s node s'.
Proof.
  intros Hm Hf p d n c Hn Hd Hk. destruct (Hm p d n c) as [p1 H1].
  rewrite (run_bind _ _ _ _ _ H1). by apply Hf.
Qed.

Lemma reads_parses k s node s' :
  (∀ m, reads m s (mkParsed node (node_depth node)) s' → parses k 0 m s node s').
Proof.
  intros m Hm p d n c _ _ _. destruct (Hm p d n c) as [p' Hp]. exists p'. by rewrite N.add_0_r.
Qed.

Lemma parses_then k e e' (m : @FilterParser.M C ParsedNode)
    (f : ParsedNode → FilterParser.M ParsedNode) s l s1 node s' :
  parses k e m s l s1 → (node_depth l ≤ node_depth node)%N →
  parses k e' (f (mkParsed l (node_depth l))) s1 node s' →
  parses k (e + e') (m ≫= f) s node s'.
Proof.
  intros Hm Hle Hf p d n c Hn Hd Hk. destruct (Hm p d n c) as [p1 H1]; [lia..|].
  rewrite (run_bind _ _ _ _ _ H1). rewrite N.add_assoc. apply Hf; lia.
Qed.

Lemma reserve_run D s p d n c :
  (n + 1 ≤ max_nodes limits)%N → (D ≤ max_depth limits)%N →
  reserve_node check limits D (mk s p d n c) = Some (Ok ((), mk s p d (n + 1) c)).
Proof.
  intros Hn HD. unfold reserve_node, mbind, M_bind, run_check, gets, modify. simpl. rewrite Hcheck.
  simpl. by rewrite !bool_decide_eq_false_2 by lia.
Qed.

Lemma parses_reserve k e D (m : @FilterParser.M C ParsedNode) s node s' :
  (D ≤ node_depth node)%N → parses k e m s node s' →
  parses k (1 + e) (reserve_node check limits D;; m) s node s'.
Proof.
  intros HD Hm p d n c Hn Hd Hk.
  rewrite (run_bind _ _ _ _ _ (reserve_run D s p d n c ltac:(lia) ltac:(lia))).
  rewrite N.add_assoc. apply Hm; lia.
Qed.

(** A level of [condOr] or [condAnd] around an operand and its loop. *)
Lemma parses_level k e e' (sub : @FilterParser.M C ParsedNode)
    (loop : ParsedNode → FilterParser.M ParsedNode) s l s1 node s' :
  parses k e sub s l s1 → (node_depth l ≤ node_depth node)%N →
  parses k e' (loop (mkParsed l (node_depth l))) s1 node s' →
  parses (k + 1) (e + e')
    (enter_depth check;; left ← sub; left ← loop left; exit_depth;; mret left) s node s'.
Proof.
  intros Hsub Hle Hloop p d n c Hn Hd Hk.
  assert (Henter : enter_depth check (mk s p d n c) = Some (Ok ((), mk s p (d + 1) n c))).
  { unfold enter_depth, mbind, M_bind, run_check, gets, modify. simpl. rewrite Hcheck. simpl.
    by rewrite decide_False by lia. }
  rewrite (run_bind _ _ _ _ _ Henter).
  destruct (Hsub p (d + 1)%N n c) as [p1 H1]; [lia..|]. rewrite (run_bind _ _ _ _ _ H1).
  destruct (Hloop p1 (d + 1)%N (n + e)%N c) as [p2 H2]; [lia..|]. rewrite (run_bind _ _ _ _ _ H2).
  exists p2. unfold exit_depth, mbind, M_bind, modify, mret, M_ret. cbn.
  replace (d + 1 - 1)%N with d by lia. by rewrite N.add_assoc.
Qed.

Lemma reads_no_keyword kw s : keyword_here kw s = false → reads (consume_keyword kw) s false s.
Proof. intros Hk. eapply (reads_gets _ _ _ false); [by intros|]. apply reads_ret. Qed.
Lemma reads_keyword kw s :
  keyword_here kw (kw +:+ s) = true → reads (consume_keyword kw) (kw +:+ s) true s.
Proof.
  intros Hk. eapply (reads_gets _ _ _ true); [by intros|].
  reads_by (apply reads_advance). rewrite drop_str_app. apply reads_ret.
Qed.

(** The shape of the two loops. *)
Definition loop_body (mk_node : FilterNode → FilterNode → FilterNode) kw
    (sub : @FilterParser.M C ParsedNode) (again : ParsedNode → FilterParser.M ParsedNode)
    (left : ParsedNode) : FilterParser.M ParsedNode :=
  skip_spaces;;
  b ← consume_keyword kw;
  if b : bool then
    skip_spaces;;
    right ← sub;
    let d := (1 + N.max (pn_depth left) (pn_depth right))%N in
    reserve_node check limits d;;
    again (mkParsed (mk_node (pn_ast left) (pn_ast right)) d)
  else mret left.

Lemma loop_stops mk_node kw sub again k l s s' :
  reads skip_spaces s () s' → keyword_here kw s' = false →
  parses k 0 (loop_body mk_node kw sub again (mkParsed l (node_depth l))) s l s'.
Proof.
  intros Hs Hk. apply reads_parses. reads_by (exact Hs).
  reads_by (by apply reads_no_keyword). apply reads_ret.
Qed.

Lemma loop_goes mk_node kw sub again k e l r s0 s tail :
  (mk_node = And ∨ mk_node = Or) →
  reads skip_spaces s0 () (kw +:+ String " "%char s) → keyword_here kw (kw +:+ String " "%char s) = true →
  spaces s = 0 → parses k e sub s r tail →
  parses k 0 (again (mkParsed (mk_node l r) (node_depth (mk_node l r)))) tail (mk_node l r) tail →
  parses k (e + 1) (loop_body mk_node kw sub again (mkParsed l (node_depth l)))
    s0 (mk_node l r) tail.
Proof.
  intros Hmk Hsp Hkw Hs Hsub Hagain.
  assert (Hdep : node_depth (mk_node l r) = (1 + N.max (node_depth l) (node_depth r))%N)
    by by destruct Hmk as [-> | ->].
  eapply parses_skip; [exact Hsp|].
  eapply parses_skip; [by apply reads_keyword|].
  eapply parses_skip; [by apply reads_one_space|].
  replace (e + 1)%N with (e + (1 + 0))%N by lia.
  eapply parses_then; [exact Hsub|lia|]. cbn [pn_ast pn_depth]. rewrite <-Hdep.
  by apply parses_reserve.
Qed.

Definition atomic (node : FilterNode) : Prop :=
  match node with And _ _ | Or _ _ => False | _ => True end.

Lemma join_head sep p : Forall is_name p → p ≠ [] →
  ∃ c x, join sep p = String c x ∧ is_ascii_alphabetic c = true.
Proof.
  destruct p as [|a p]; [done|]. intros [(c & y & -> & Hc & _)%is_name_cons _]%Forall_cons _.
  destruct p as [|b p]; [by exists c, y|]. cbn [join]. rewrite sapp_cons. by eexists _, _.
Qed.

Lemma render_head node : printable node → ∃ c x, render node = String c x ∧
  c ≠ " "%char ∧ c ≠ "009"%char ∧ (atomic node → c ≠ "("%char).
Proof.
  assert (Hjoin : ∀ sep p y, Forall is_name p → p ≠ [] → ∃ c x, join sep p +:+ y = String c x ∧
    c ≠ " "%char ∧ c ≠ "009"%char ∧ c ≠ "("%char).
  { intros sep p y Hp Hne. destruct (join_head sep p Hp Hne) as (c & x & -> & Hc).
    apply alphabetic_class in Hc as (? & ? & ? & _). rewrite sapp_cons. by eexists _, _. }
  destruct node as [p|p|p op v|l r|l r|spec]; simpl.
  - intros (first & segs & -> & _ & Hp).
    destruct (Hjoin "->" (first :: segs) "" Hp ltac:(done)) as (c & x & Hc & ? & ? & ?).
    exists c, x. split; [|done]. rewrite <-Hc. clear.
    induction (join "->" (first :: segs)) as [|y z IH]; [done|]. rewrite sapp_cons. by f_equal.
  - intros _. by eexists _, _.
  - intros [(first & segs & -> & _ & Hp) _].
    destruct (Hjoin "->" (first :: segs) (" " +:+ op_text op +:+ " " +:+ zinc_print v) Hp ltac:(done))
      as (c & x & Hc & ? & ? & ?). by exists c, x.
  - intros _. by eexists _, _.
  - intros _. by eexists _, _.
  - intros (quals & types & (first & l & -> & _ & Hp) & _ & ->).
    destruct (Hjoin "." (first :: l) ("::" +:+ join "-" types) Hp ltac:(done))
      as (c & x & Hc & ? & ? & ?). by exists c, x.
Qed.

Lemma render_spaces node tail : printable node → spaces (render node +:+ tail) = 0.
Proof.
  intros (c & x & -> & H1 & H2 & _)%render_head. rewrite sapp_cons. simpl.
  by rewrite !bool_decide_eq_false_2.
Qed.

Lemma atom_reads node tail :
  atomic node → printable node → closed tail →
  reads (atom_body check) (render node +:+ tail) (mkParsed node 1) tail.
Proof.
  intros Ha Hp Ht. destruct node as [p|p|p op v|l r|l r|spec]; simpl in *; try done.
  - destruct Hp as (first & segs & -> & Hp). apply reads_has; [by exists first, segs|done].
  - by apply reads_missing.
  - destruct Hp as [(first & segs & -> & Hp) Hv]. apply reads_cmp; [by exists first, segs|done|done].
  - destruct Hp as (quals & types & Hq & Hty & ->). by apply reads_spec.
Qed.

Lemma term_atom f node tail k :
  atomic node → printable node → closed tail →
  parses k 1 (parse_term check limits (S f)) (render node +:+ tail) node tail.
Proof.
  intros Ha Hp Ht. cbn [parse_term].
  eapply parses_skip; [by apply reads_no_spaces, render_spaces|].
  destruct (render_head node Hp) as (c & x & Hr & _ & _ & Hc). rewrite Hr, sapp_cons.
  eapply parses_skip; [apply reads_peek|]. cbn [peek_str].
  rewrite decide_False by (intros [= Hx]; by apply Hc). rewrite <-sapp_cons, <-Hr.
  replace 1%N with (1 + 0)%N by lia. apply parses_reserve; [destruct node; simpl; lia|].
  apply reads_parses. replace (node_depth node) with 1%N by by destruct node.
  by apply atom_reads.
Qed.

Lemma term_paren f node tail k e :
  spaces (render node +:+ ")" +:+ tail) = 0 →
  parses k e (parse_cond_or check limits f) (render node +:+ ")" +:+ tail) node (")" +:+ tail) →
  parses k e (parse_term check limits (S f)) ("(" +:+ render node +:+ ")" +:+ tail) node tail.
Proof.
  intros Hsp Hin. cbn [parse_term].
  eapply parses_skip; [by apply reads_no_spaces|].
  eapply parses_skip; [apply reads_peek|]. cbn [peek_str].
  rewrite decide_True by done.
  eapply parses_skip; [apply reads_advance|]. change (drop_str 1 ("(" +:+ ?z)) with z.
  eapply parses_skip; [by apply reads_no_spaces|].
  replace e with (e + 0)%N by lia. eapply parses_then; [exact Hin|done|].
  apply reads_parses. reads_by (by apply reads_no_spaces).
  reads_by (apply reads_peek). cbn [peek_str].
  rewrite decide_True by done. reads_by (apply reads_advance). apply reads_ret.
Qed.

Lemma cond_or_S f :
  parse_cond_or check limits (S f) =
  (enter_depth check;; left ← parse_cond_and check limits f;
   left ← or_loop check limits f left; exit_depth;; mret left).
Proof. reflexivity. Qed.
Lemma cond_and_S f :
  parse_cond_and check limits (S f) =
  (enter_depth check;; left ← parse_term check limits f;
   left ← and_loop check limits f left; exit_depth;; mret left).
Proof. reflexivity. Qed.
Lemma and_loop_body f p :
  and_loop check limits (S f) p = loop_body And "and" (parse_term check limits f) (and_loop check limits f) p.
Proof. reflexivity. Qed.
Lemma or_loop_body f p :
  or_loop check limits (S f) p = loop_body Or "or" (parse_cond_and check limits f) (or_loop check limits f) p.
Proof. reflexivity. Qed.

Lemma closed_keyword kw tail : closed tail → kw = "and" ∨ kw = "or" → keyword_here kw tail = false.
Proof. by intros [->|[x ->]] [-> | ->]. Qed.

Lemma loop_closed mk_node kw sub again k l tail :
  closed tail → kw = "and" ∨ kw = "or" →
  parses k 0 (loop_body mk_node kw sub again (mkParsed l (node_depth l))) tail l tail.
Proof.
  intros Ht Hkw. apply loop_stops; [|by apply closed_keyword].
  apply reads_no_spaces. by apply closed_stops.
Qed.

(** [condAnd] around a single term. *)
Lemma cond_and_term f node s tail k e :
  closed tail → parses k e (parse_term check limits (S f)) s node tail →
  parses (k + 1) e (parse_cond_and check limits (S (S f))) s node tail.
Proof.
  intros Ht Hterm. rewrite cond_and_S. replace e with (e + 0)%N by lia.
  eapply parses_level; [exact Hterm|done|]. apply (loop_closed And "and" (parse_term check limits f) (and_loop check limits f));
    [done|by left].
Qed.

(** A filter that needs no parentheses inside. *)
Lemma cond_or_atom node f tail :
  atomic node → printable node → closed tail → 5 ≤ f →
  parses 2 1 (parse_cond_or check limits f) (render node +:+ tail) node tail.
Proof.
  intros Ha Hp Ht Hf. destruct f as [|[|[|f]]]; try lia. rewrite cond_or_S.
  replace 2%N with (0 + 1 + 1)%N by lia. replace 1%N with (1 + 0)%N at 3 by lia.
  eapply parses_level; [apply cond_and_term; [done|by apply term_atom]|done|].
  apply (loop_closed Or "or" (parse_cond_and check limits (S f)) (or_loop check limits (S f)));
    [done|by right].
Qed.

(** An operand in parentheses, given that it is parsed back before one. *)
Lemma term_operand node f k tail :
  printable node → (2 * node_depth node ≤ k)%N →
  (∀ rest, closed rest →
     parses (2 * node_depth node) (node_count node) (parse_cond_or check limits f)
       (render node +:+ rest) node rest) →
  parses k (node_count node) (parse_term check limits (S f)) ("(" +:+ render node +:+ ")" +:+ tail)
    node tail.
Proof.
  intros Hp Hk Hparse. apply term_paren; [by apply render_spaces|].
  apply (parses_weaken (2 * node_depth node)); [done|]. apply Hparse. right. by eexists.
Qed.

(** A printed filter is parsed back, before a closing parenthesis or the end. *)
Lemma cond_or_render node f tail :
  printable node → closed tail → 5 * N.to_nat (node_depth node) ≤ f →
  parses (2 * node_depth node) (node_count node) (parse_cond_or check limits f)
    (render node +:+ tail) node tail.
Proof.
  revert f tail.
  induction node as [p|p|p op v|l IHl r IHr|l IHl r IHr|spec]; intros f tail Hp Ht Hf;
    try (apply cond_or_atom; [done..|simpl in Hf; lia]); destruct Hp as [Hl Hr];
    cbn [node_depth] in *; destruct f as [|[|[|[|f]]]]; try lia.
  - set (K := (2 * N.max (node_depth l) (node_depth r))%N).
    set (T := String " "%char ("and" +:+ String " "%char ("(" +:+ render r +:+ ")" +:+ tail))).
    replace (render (And l r) +:+ tail) with ("(" +:+ render l +:+ ")" +:+ T)
      by (cbn [render]; by rewrite !sapp_assoc).
    replace (node_count (And l r)) with (node_count l + (node_count r + 1) + 0)%N by (simpl; lia).
    replace (2 * (1 + N.max (node_depth l) (node_depth r)))%N with (K + 1 + 1)%N by lia.
    rewrite cond_or_S. eapply (parses_level _ _ _ _ _ _ (And l r) tail).
    + rewrite cond_and_S. eapply (parses_level _ _ _ _ _ _ l T); [|simpl; lia|].
      * apply term_operand; [done|lia|]. intros rest Hrest. apply IHl; [done|done|lia].
      * apply (loop_goes And "and" _ (and_loop check limits (S f)) _ _ _ _ _
          ("(" +:+ render r +:+ ")" +:+ tail)); [by left|by apply reads_one_space|done|done| |].
        -- apply term_operand; [done|lia|]. intros rest Hrest. apply IHr; [done|done|lia].
        -- apply (loop_closed And "and" (parse_term check limits f) (and_loop check limits f));
             [done|by left].
    + done.
    + apply (loop_closed Or "or" (parse_cond_and check limits (S (S f))) (or_loop check limits (S (S f))));
        [done|by right].
  - set (K := (2 * N.max (node_depth l) (node_depth r))%N).
    set (T := "or" +:+ String " "%char ("(" +:+ render r +:+ ")" +:+ tail)).
    replace (render (Or l r) +:+ tail) with ("(" +:+ render l +:+ ")" +:+ String " "%char T)
      by (cbn [render]; by rewrite !sapp_assoc).
    replace (node_count (Or l r)) with (node_count l + 0 + (node_count r + 1))%N by (simpl; lia).
    replace (2 * (1 + N.max (node_depth l) (node_depth r)))%N with (K + 1 + 1)%N by lia.
    rewrite cond_or_S. eapply (parses_level _ _ _ _ _ _ l T); [|simpl; lia|].
    + rewrite cond_and_S. eapply (parses_level _ _ _ _ _ _ l (String " "%char T)); [|done|].
      * apply term_operand; [done|lia|]. intros rest Hrest. apply IHl; [done|done|lia].
      * apply (loop_stops And "and" (parse_term check limits (S f)) (and_loop check limits (S f)));
          [by apply reads_one_space|done].
    + apply (loop_goes Or "or" _ (or_loop check limits (S (S f))) _ _ _ _ _
        ("(" +:+ render r +:+ ")" +:+ tail)); [by right|by apply reads_no_spaces|done|done| |].
      * apply cond_and_term; [done|]. apply term_operand; [done|lia|]. intros rest Hrest.
        apply IHr; [done|done|lia].
      * apply (loop_closed Or "or" (parse_cond_and check limits (S f)) (or_loop check limits (S f)));
          [done|by right].
Qed.

Lemma node_depth_pos node : (1 ≤ node_depth node)%N.
Proof. destruct node; simpl; lia. Qed.

Lemma length_render node : printable node → 5 * N.to_nat (node_depth node) ≤ fuel_for (render node).
Proof.
  intros Hp. assert (9 * N.to_nat (node_depth node) ≤ 8 + String.length (render node)) as Hlen.
  { induction node as [p|p|p op v|l IHl r IHr|l IHl r IHr|spec];
      try (destruct (render_head _ Hp) as (c & x & -> & _); cbn [node_depth String.length]; lia);
      destruct Hp as [Hl Hr]; specialize (IHl Hl); specialize (IHr Hr);
      pose proof (node_depth_pos l); pose proof (node_depth_pos r);
      cbn [render node_depth]; rewrite !length_sapp; cbn [String.length]; lia. }
  unfold fuel_for. lia.
Qed.

Lemma parse_render node c :
  printable node → (node_count node ≤ max_nodes limits)%N → (node_depth node ≤ max_depth limits)%N →
  (str_len (render node) ≤ max_bytes limits)%N → (node_depth node ≤ 50)%N →
  parse_filter_controlled check c limits (render node) = Some (Ok node).
Proof.
  intros Hp Hn Hd Hb H50. unfold parse_filter_controlled. rewrite Hcheck.
  assert (Hpos : (1 ≤ node_count node)%N ∧ (1 ≤ node_depth node)%N) by (destruct node; simpl; lia).
  rewrite !bool_decide_eq_false_2 by lia. cbn [orb].
  assert (Happ : render node = render node +:+ "").
  { clear. induction (render node) as [|x y IH]; [done|]. rewrite sapp_cons. by f_equal. }
  assert (Hsp : spaces (render node) = 0) by (rewrite Happ; by apply render_spaces).
  unfold parse_all.
  destruct (reads_no_spaces _ Hsp 0%N 0%N 0%N c) as [p1 H1]. rewrite (run_bind _ _ _ _ _ H1).
  unfold at_end. unfold mbind at 1, M_bind at 1, gets at 1. cbn [rest].
  rewrite bool_decide_eq_false_2.
  2: { destruct (render_head node Hp) as (x & y & -> & _). done. }
  unfold mbind at 1, M_bind at 1, gets at 1. cbn [rest].
  destruct (cond_or_render node (fuel_for (render node)) "" Hp ltac:(by left)
    (length_render node Hp) p1 0%N 0%N c) as [p2 H2].
  { by rewrite N.add_0_l. }
  { done. }
  { unfold MAX_DEPTH. lia. }
  rewrite <-Happ in H2. rewrite (run_bind _ _ _ _ _ H2).
  destruct (reads_no_spaces "" eq_refl p2 0%N (0 + node_count node)%N c) as [p3 H3].
  rewrite (run_bind _ _ _ _ _ H3).
  destruct (reads_check "" p3 0%N (0 + node_count node)%N c) as [p4 H4].
  rewrite (run_bind _ _ _ _ _ H4). done.
Qed.
End reads.
End FilterPrint.
