(* ===== verification/RecoveryFacts.v ===== *)
(** * Correctness of recovery

    Soundness: whatever image it is given, [restore] never panics, and a
    graph it returns satisfies the invariant and holds what the image held.
    Completeness: the image of a graph is restored to a graph with the same
    entities, state and changelog, when the ids in the log are not empty and
    at most 4096 bytes long. *)

From S2P Require Import Prelude Floats Kinds Size Extern Bitmap Adjacency ValueIndex Filter Changelog Graph GraphInv Recovery.

Section changes.
Context {HO : HashOrder} {HL : HashOrderLaws}.

Lemma row_has_id_spec row id :
  row_has_id row id = true ↔ ∃ e, row = Some e ∧ has_ref id e.
Proof.
  unfold row_has_id, has_ref. destruct row as [e|]; [|naive_solver].
  destruct (HDict.id e) as [r|] eqn:Hid.
  - apply HDict.id_lookup in Hid. rewrite bool_decide_eq_true. naive_solver.
  - split; [done|]. intros (e' & [= <-] & r & Hr & _). apply HDict.id_lookup in Hr. congruence.
Qed.

Lemma absent_spec {A} (o : option A) : absent o = true ↔ o = None.
Proof. by destruct o. Qed.

(** The ids [into_diff] accepts. *)
Definition id_ok (d : GraphDiff) : Prop := diff_ref d ≠ "" ∧ (str_len (diff_ref d) ≤ 4096)%N.

Lemma into_diff_ok c limit d :
  into_diff c limit = Ok d →
  diff_ok d ∧ change_from d = c ∧ version d = rc_version c ∧ span d = rc_span c ∧
  (retained_bytes d ≤ limit)%N ∧ id_ok d.
Proof.
  unfold into_diff. destruct (change_valid c) eqn:Hv; [|done]. simpl.
  destruct (_ || _) eqn:Hid; [done|].
  apply orb_false_iff in Hid as [Hid1%bool_decide_eq_false Hid2%bool_decide_eq_false].
  destruct (ValueBudget.diff_bytes _ _ _) as [n|] eqn:Hn; [|done]. simpl. intros [= <-].
  pose proof (ValueBudget.diff_bytes_le _ _ _ _ Hn) as Hle.
  split; [|split; [by destruct c|do 3 (split; [done|]); split; simpl; [done|lia]]]. split; simpl.
  - unfold change_valid in Hv. destruct (rc_op c);
      rewrite ?andb_true_iff, ?row_has_id_spec, ?absent_spec, ?negb_true_iff in Hv.
    + destruct Hv as [[[(e & He & Hr) ?] ?] ?]. by exists e.
    + destruct Hv as [[[? ?] Hc] Hp]. destruct (rc_changed c), (rc_previous c); try done. by eexists _, _.
    + destruct Hv as [[[(e & He & Hr) ?] ?] ?]. by exists e.
  - by apply (ValueBudget.diff_bytes_limit _ _ _ _ _ Hn).
Qed.

(** A change of a well-formed log is accepted as it was. *)
Lemma into_diff_from d limit :
  diff_ok d → diff_ref d ≠ "" → (str_len (diff_ref d) ≤ 4096)%N → (retained_bytes d ≤ limit)%N →
  into_diff (change_from d) limit = Ok d.
Proof.
  intros [Hshape Hsize] Hne Hlen Hle. unfold into_diff.
  assert (Hv : change_valid (change_from d) = true).
  { unfold change_valid. simpl. destruct (diff_op d);
      rewrite ?andb_true_iff, ?row_has_id_spec, ?absent_spec.
    - destruct Hshape as (e & ? & ? & ? & ? & ?). eauto 10.
    - destruct Hshape as (c & p & -> & -> & -> & ->). done.
    - destruct Hshape as (e & ? & ? & ? & ? & ?). eauto 10. }
  rewrite Hv. cbn [negb orb].
  rewrite (bool_decide_eq_false_2 (rc_id (change_from d) = "")) by done.
  rewrite bool_decide_eq_false_2 by (simpl; lia). cbn [orb].
  change (omap id _) with (diff_dicts d). change (rc_id (change_from d)) with (diff_ref d).
  rewrite (ValueBudget.diff_bytes_limit _ _ _ limit _ Hsize) by done. by destruct d.
Qed.

(** ** Checking the changes of an image *)

(** What has been read of the current unit. *)
Definition unit_so_far (previous : N) (span_ : option CommitSpan) (part : list GraphDiff) : Prop :=
  match span_ with
  | None => part = []
  | Some s => Forall (λ d, span d = s) part ∧ version <$> part = seqN (span_first s) (len part) ∧
      (previous < span_last s)%N ∧ (previous + 1 = span_first s + len part)%N
  end.

Record replayed (limits : RecoveryLimits) (floor : N) (st : replay_state) : Prop := {
  rp_contiguous : ChangeLog.contiguous floor (rs_log st);
  rp_previous : rs_previous st = (floor + len (rs_log st))%N;
  rp_bytes : rs_bytes st = total_bytes (rs_log st);
  rp_diffs d : d ∈ rs_log st → diff_ok d ∧ id_ok d;
  rp_budget : (rs_bytes st + ValueBudget.bytes_left (rs_budget st) ≤ lim_bytes limits)%N;
  rp_units : ∃ us part, rs_log st = concat us ++ part ∧ Forall ChangeLog.complete_unit us ∧
    unit_so_far (rs_previous st) (rs_span st) part
}.

Lemma check_span_ok revision sp c s part previous :
  check_span revision sp c = Ok s → rc_version c = (previous + 1)%N →
  unit_so_far previous sp part →
  s = rc_span c ∧ Forall (λ d, span d = s) part ∧ version <$> part = seqN (span_first s) (len part) ∧
  (rc_version c ≤ span_last s)%N ∧ (rc_version c = span_first s + len part)%N.
Proof.
  intros Hs Hv Hu. unfold check_span in Hs. destruct sp as [u|].
  - destruct (bool_decide (u ≠ rc_span c)) eqn:E; [done|]. injection Hs as <-.
    apply bool_decide_eq_false, dec_stable in E as ->.
    destruct Hu as (H1 & H2 & H3 & H4). do 3 (split; [done|]). lia.
  - destruct (_ || _) eqn:E; [done|]. injection Hs as <-. simpl in Hu. subst part.
    apply orb_false_iff in E as [[E1 E2]%orb_false_iff E3].
    apply bool_decide_eq_false in E1, E2. apply dec_stable in E1.
    split; [done|]. split; [done|]. split; [done|]. len_lia.
Qed.

Lemma replay_change_ok limits revision floor st c st' :
  replayed limits floor st → replay_change limits revision st c = Ok st' →
  replayed limits floor st' ∧ ∃ d, rs_log st' = rs_log st ++ [d] ∧ change_from d = c.
Proof.
  intros [Hc Hp Hb Hd Hbud (us & part & Hlog & Hus & Hu)]. unfold replay_change.
  case_decide as Hver; [done|]. apply checked_add_Some in Hver as [Hver _].
  on_ok (check_span revision (rs_span st) c) as [s|] Hspan.
  destruct (check_span_ok _ _ _ _ _ _ Hspan Hver Hu) as (-> & P1 & P2 & P3 & P4).
  on_ok (into_diff c (lim_bytes limits)) as [d|] Hdiff.
  apply into_diff_ok in Hdiff as (Hok & Hfrom & Hdv & Hds & Hdb & Hidok).
  on_ok (ValueBudget.charge 1 (retained_bytes d) (rs_budget st)) as [b'|] Hch. simpl.
  on_ok (checked_add usize_max (rs_bytes st) (retained_bytes d)) as [n|] Hn. simpl.
  apply checked_add_Some in Hn as [-> _]. intros [= <-].
  unfold ValueBudget.charge in Hch. case_decide; [done|]. injection Hch as <-.
  split; [|by exists d]. split; simpl.
  - apply ChangeLog.contiguous_app. split; [done|]. unfold ChangeLog.contiguous.
    cbn. by rewrite seqN_1, Hdv, Hver, Hp.
  - len_lia.
  - rewrite ChangeLog.total_bytes_app. simpl. lia.
  - intros d' [?| ->%list_elem_of_singleton]%elem_of_app; auto.
  - lia.
  - assert (Hpart : version <$> (part ++ [d]) = seqN (span_first (rc_span c)) (len (part ++ [d]))).
    { rewrite fmap_app, P2, len_app, len_cons, len_nil. cbn.
      rewrite (seqN_app _ (len part) 1), seqN_1, Hdv, P4. done. }
    assert (Hall : Forall (λ d, span d = rc_span c) (part ++ [d])).
    { apply Forall_app. split; [done|]. by repeat constructor. }
    rewrite Hlog, <-app_assoc. case_decide as Hlast.
    + exists (us ++ [part ++ [d]]), []. rewrite concat_app. cbn. rewrite !app_nil_r.
      split; [done|]. split; [|done]. apply Forall_app. split; [done|]. constructor; [|done].
      exists (rc_span c). split; [lia|]. split; [done|].
      rewrite Hpart. f_equal. len_lia.
    + exists us, (part ++ [d]). split; [done|]. split; [done|].
      split; [done|]. split; [done|]. len_lia.
Qed.

Lemma replay_changes_ok limits revision floor cs st st' :
  replayed limits floor st → try_fold (replay_change limits revision) st cs = Ok st' →
  replayed limits floor st' ∧ ∃ ds, rs_log st' = rs_log st ++ ds ∧ change_from <$> ds = cs.
Proof.
  revert st. induction cs as [|c cs IH]; intros st Hr; simpl.
  - intros [= <-]. split; [done|]. exists []. by rewrite app_nil_r.
  - on_ok (replay_change limits revision st c) as [st1|] H1. intros H2.
    destruct (replay_change_ok _ _ _ _ _ _ Hr H1) as (Hr1 & d & Hd & Hc).
    destruct (IH st1 Hr1 H2) as (Hr' & ds & Hds & Hcs). split; [done|].
    exists (d :: ds). rewrite fmap_cons, Hc, Hcs, Hds, Hd. by rewrite <-app_assoc.
Qed.

(** ** Replaying a well-formed log *)

Definition restorable (d : GraphDiff) : Prop := diff_ok d ∧ id_ok d.

Definition charge_diffs (b : ValueBudget.t) (ds : list GraphDiff) : result unit ValueBudget.t :=
  try_fold (λ b d, ValueBudget.charge 1 (retained_bytes d) b) b ds.

(** One change of a unit, whose versions run on from [prev]. *)
Lemma replay_step limits revision b log n prev sp d b' s :
  restorable d → version d = (prev + 1)%N → span d = s →
  (prev + 1 ≤ u64_max)%N → (span_last s ≤ revision)%N → (prev + 1 ≤ span_last s)%N →
  (sp = None ∧ span_first s = (prev + 1)%N ∨ sp = Some s) →
  ValueBudget.charge 1 (retained_bytes d) b = Ok b' →
  (n + ValueBudget.bytes_left b ≤ lim_bytes limits)%N → (lim_bytes limits ≤ usize_max)%N →
  replay_change limits revision (mkReplay b log n prev sp) (change_from d)
  = Ok (mkReplay b' (log ++ [d]) (n + retained_bytes d) (prev + 1)
          (if decide (prev + 1 = span_last s)%N then None else Some s)) ∧
  (n + retained_bytes d + ValueBudget.bytes_left b' ≤ lim_bytes limits)%N.
Proof.
  intros (Hok & Hne & Hlen) Hv Hs Hu64 Hrev Hlast Hsp Hch Hbud Hus.
  pose proof Hch as Hch'. unfold ValueBudget.charge in Hch'. case_decide; [done|].
  injection Hch' as <-. split; [|simpl; lia]. unfold replay_change. simpl.
  assert (Hnext : checked_add u64_max prev 1 = Some (version d)) by (apply checked_add_Some; lia).
  rewrite decide_False by (rewrite Hnext; tauto).
  assert (Hspan : check_span revision sp (change_from d) = Ok s).
  { unfold check_span. simpl. rewrite Hs. destruct Hsp as [[-> Hf]| ->].
    - rewrite !bool_decide_eq_false_2; [done|lia|lia|]. rewrite Hf, Hv. tauto.
    - rewrite bool_decide_eq_false_2; [done|tauto]. }
  rewrite Hspan, into_diff_from by (done || lia). simpl. rewrite Hch. simpl.
  assert (Hadd : checked_add usize_max n (retained_bytes d) = Some (n + retained_bytes d)%N)
    by (apply checked_add_Some; lia).
  rewrite Hadd. simpl. by rewrite Hv, Hs.
Qed.

(** The rest of a unit, from a version inside it. *)
Lemma replay_unit limits revision s ds b b' log n prev sp :
  (∀ d, d ∈ ds → restorable d ∧ span d = s) →
  version <$> ds = seqN (prev + 1) (span_last s - prev) → (prev < span_last s)%N →
  (span_last s ≤ u64_max)%N → (span_last s ≤ revision)%N →
  (sp = None ∧ span_first s = (prev + 1)%N ∨ sp = Some s) →
  charge_diffs b ds = Ok b' →
  (n + ValueBudget.bytes_left b ≤ lim_bytes limits)%N → (lim_bytes limits ≤ usize_max)%N →
  try_fold (replay_change limits revision) (mkReplay b log n prev sp) (change_from <$> ds)
  = Ok (mkReplay b' (log ++ ds) (n + total_bytes ds) (span_last s) None) ∧
  (n + total_bytes ds + ValueBudget.bytes_left b' ≤ lim_bytes limits)%N.
Proof.
  revert b log n prev sp. induction ds as [|d ds IH]; intros b log n prev sp Hds Hv Hlt Hu64 Hrev Hsp Hch Hbud Hus.
  { exfalso. apply (f_equal length) in Hv. rewrite length_seqN in Hv. simpl in Hv. lia. }
  assert (Hseq : seqN (prev + 1) (span_last s - prev)
                 = (prev + 1)%N :: seqN (prev + 1 + 1) (span_last s - (prev + 1))).
  { replace (span_last s - prev)%N with (1 + (span_last s - (prev + 1)))%N by lia.
    by rewrite seqN_app, seqN_1. }
  rewrite fmap_cons, Hseq in Hv. injection Hv as Hvd Hvs.
  unfold charge_diffs in Hch. cbn [try_fold] in Hch.
  on_ok (ValueBudget.charge 1 (retained_bytes d) b) as [b1|] H1.
  destruct (Hds d) as [Hrd Hsd]; [left|].
  destruct (replay_step limits revision b log n prev sp d b1 s) as [Hstep Hbud1];
    [done|done|done|lia|lia|lia|done|done|done|done|].
  rewrite fmap_cons. cbn [try_fold total_bytes foldr]. fold (total_bytes ds). rewrite Hstep.
  destruct (decide (prev + 1 = span_last s)%N) as [Heq|Hne].
  - assert (ds = []) as ->.
    { apply (f_equal length) in Hvs. rewrite length_fmap, length_seqN in Hvs.
      destruct ds; [done|]. simpl in Hvs. lia. }
    injection Hch as <-. cbn [fmap list_fmap try_fold total_bytes foldr]. rewrite Heq, N.add_0_r. done.
  - destruct (IH b1 (log ++ [d]) (n + retained_bytes d)%N (prev + 1)%N (Some s)) as [Hrest Hbud2];
      try done; [|lia|by right|].
    + intros d' Hd'. apply Hds. by right.
    + rewrite Hrest, <-app_assoc, N.add_assoc. split; [done|lia].
Qed.

Lemma replay_units limits revision us b b' log n prev :
  Forall ChangeLog.complete_unit us → ChangeLog.contiguous prev (concat us) →
  (∀ d, d ∈ concat us → restorable d) →
  (prev + len (concat us) ≤ revision)%N → (revision ≤ u64_max)%N →
  charge_diffs b (concat us) = Ok b' →
  (n + ValueBudget.bytes_left b ≤ lim_bytes limits)%N → (lim_bytes limits ≤ usize_max)%N →
  try_fold (replay_change limits revision) (mkReplay b log n prev None) (change_from <$> concat us)
  = Ok (mkReplay b' (log ++ concat us) (n + total_bytes (concat us))
          (prev + len (concat us)) None).
Proof.
  intros Hus. revert b log n prev.
  induction Hus as [|u us Hu Hus IH]; intros b log n prev Hc Hr Hrev Hu64 Hch Hbud Hmax.
  { injection Hch as <-. cbn [concat fmap list_fmap try_fold total_bytes foldr].
    rewrite app_nil_r. do 2 f_equal; unfold len; simpl; lia. }
  cbn [concat] in *. destruct Hu as (s & Hle & Hall & Hv).
  apply ChangeLog.contiguous_app in Hc as [Hcu Hcus].
  pose proof (ChangeLog.complete_unit_len u s Hall Hv) as Hlen.
  assert (Hfirst : span_first s = (prev + 1)%N).
  { unfold ChangeLog.contiguous in Hcu. rewrite Hv in Hcu.
    apply (f_equal head) in Hcu.
    replace (span_last s - span_first s + 1)%N with (1 + (span_last s - span_first s))%N in Hcu by lia.
    replace (len u) with (1 + (span_last s - span_first s))%N in Hcu by lia.
    rewrite !seqN_app, !seqN_1 in Hcu. by injection Hcu. }
  unfold charge_diffs in Hch. rewrite try_fold_app in Hch.
  destruct (try_fold _ b u) as [b1|] eqn:Hch1; [|done].
  rewrite len_app in *.
  destruct (replay_unit limits revision s u b b1 log n prev None) as [Hunit Hbud1]; try done.
  - intros d Hd. split; [apply Hr, elem_of_app; by left|]. rewrite Forall_forall in Hall. auto.
  - rewrite Hv, Hfirst. f_equal. lia.
  - lia.
  - lia.
  - lia.
  - by left.
  - rewrite fmap_app, try_fold_app, Hunit. rewrite ChangeLog.total_bytes_app.
    replace (span_last s) with (prev + len u)%N by lia.
    rewrite (IH b1 (log ++ u) (n + total_bytes u)%N (prev + len u)%N).
    + by rewrite <-app_assoc, !N.add_assoc.
    + done.
    + intros d Hd. apply Hr, elem_of_app. by right.
    + lia.
    + done.
    + done.
    + done.
    + done.
Qed.
End changes.

Module RecoveryFacts.
Import EntityGraph GraphInv Recovery.

Section facts.
Context {HO : HashOrder} {HL : HashOrderLaws} {RB : Roaring} {RL : RoaringLaws}.
Context {CM : CacheMap} {CL : CacheLaws} {ON : Ontology} {CA : Catalog} {FS : FilterSyntax}.
Implicit Types (g : EntityGraph.t) (limits : RecoveryLimits).

Lemma validate_limits_ok limits :
  validate_limits limits = Ok () →
  (1 ≤ lim_rows limits ≤ 100000)%N ∧ (1 ≤ lim_changes limits)%N ∧
  (lim_bytes limits ≤ 256 * 1024 * 1024)%N.
Proof.
  unfold validate_limits. destruct (_ || _) eqn:E; [done|]. intros _.
  repeat (apply orb_false_iff in E as [E ?]).
  repeat match goal with H : bool_decide _ = false |- _ => apply bool_decide_eq_false in H end. lia.
Qed.

(** A budget never grows. *)
Lemma try_fold_budget {A} (step : ValueBudget.t → A → result unit ValueBudget.t) l b b' :
  (∀ b a b', step b a = Ok b' → (ValueBudget.bytes_left b' ≤ ValueBudget.bytes_left b)%N) →
  try_fold step b l = Ok b' → (ValueBudget.bytes_left b' ≤ ValueBudget.bytes_left b)%N.
Proof.
  intros Hs. revert b. induction l as [|a l IH]; intros b; simpl; [by intros [= <-]|].
  on_ok (step b a) as [b1|] H1. intros H2. apply Hs in H1. apply IH in H2. lia.
Qed.

Lemma charge_rows_left b rows b' :
  charge_rows b rows = Ok b' → (ValueBudget.bytes_left b' ≤ ValueBudget.bytes_left b)%N.
Proof.
  unfold charge_rows. destruct (try_fold _ b rows) as [b1|] eqn:Hf; [|done]. intros [= <-].
  eapply try_fold_budget; [|exact Hf]. intros b0 row b2. simpl. rewrite ValueBudget.dict_pay.
  destruct (ValueBudget.dict_cost _ _) as [[w y]|]; [|done].
  rewrite ValueBudget.pay_Some. unfold ValueBudget.charge. case_decide; [done|].
  intros [= <-]. simpl. lia.
Qed.

(** ** Loading rows *)

Lemma restore_row_err now e (rs : list HDict) :
  foldl (restore_row now) (Some (Err e)) rs = Some (Err e).
Proof. induction rs as [|row rs IH]; [done|]. exact IH. Qed.

(** Rows either load, each under a new key, or are rejected. *)
Lemma restore_rows_sound now (rs : list HDict) g :
  inv g →
  ∃ r, foldl (restore_row now) (Some (Ok g)) rs = Some r ∧
    ∀ g', r = Ok g' → inv g' ∧ (map_to_list (entities g')).*2 ≡ₚ rs ++ (map_to_list (entities g)).*2 ∧
      namespace g' = namespace g ∧ activated g' = activated g.
Proof.
  revert g. induction rs as [|row rs IH]; intros g Hi; cbn [foldl].
  { eexists. split; [done|]. intros g' [= <-]. done. }
  unfold restore_row at 2. cbn [mbind option_bind].
  destruct (add_spec now g row Hi) as (g1 & r & Hadd & Hi1 & Hspec & _ & Herr). rewrite Hadd.
  destruct r as [ref|e].
  2: { eexists. split; [apply restore_row_err|]. done. }
  destruct (IH g1 Hi1) as (r' & Hfold & Hr'). exists r'. split; [exact Hfold|].
  intros g' Hg'. destruct (Hr' g' Hg') as (Hi' & Hperm & Hns & Hac). split; [done|].
  unfold GraphSpec.add in Hspec. destruct (row !! "id") as [k|]; [|done]. destruct k; try done.
  destruct (decide _) as [|Hnew]; [done|]. destruct (GraphSpec.next_revision _); [|done].
  destruct (GraphSpec.full _); [done|]. injection Hspec as He _ _.
  split.
  - rewrite Hperm, <-He, map_to_list_insert by (by apply eq_None_not_Some). cbn.
    by rewrite Permutation_middle.
  - rewrite Hns, Hac. by apply (add_catalog now g row g1 (Ok ref)).
Qed.

(** Rows of distinct entities load. *)
Lemma restore_rows_complete now (l : list (string * HDict)) g :
  inv g → NoDup l.*1 → (∀ ref e, (ref, e) ∈ l → has_ref ref e ∧ entities g !! ref = None) →
  (version g + len l ≤ u32_max + 1)%N → (N.of_nat (size (entities g)) ≤ version g)%N →
  ∃ g', foldl (restore_row now) (Some (Ok g)) l.*2 = Some (Ok g') ∧
    inv g' ∧ entities g' = list_to_map l ∪ entities g.
Proof.
  revert g. induction l as [|[ref e] l IH]; intros g Hi Hnd Hl Hlen Hsize.
  { exists g. split; [done|]. split; [done|]. cbn. by rewrite (left_id_L ∅ (∪)). }
  rewrite !fmap_cons in *. cbn [foldl fst snd] in *. apply NoDup_cons in Hnd as [Href Hnd].
  rewrite len_cons in Hlen. destruct (Hl ref e) as [(r & Hr & <-) Hnone]; [left|].
  assert (Hrev : checked_add u64_max (version g) 1 = Some (version g + 1)%N).
  { apply checked_add_Some. split; [done|]. unfold u32_max, u64_max in *. lia. }
  assert (Hfull : GraphSpec.full (abs g) = false).
  { apply bool_decide_eq_false. simpl. unfold MAX_ENTITY_ID. lia. }
  destruct (add_ok_spec now g e r _ Hi Hr Hnone Hrev Hfull) as (g1 & Hadd & Hi1 & Habs & _).
  injection Habs as He Hv. unfold restore_row at 2. cbn [mbind option_bind]. rewrite Hadd.
  destruct (IH g1) as (g' & Hfold & Hi' & He').
  - done.
  - done.
  - intros ref' e' Hin. destruct (Hl ref' e') as [? ?]; [by right|]. split; [done|].
    rewrite He, lookup_insert_ne; [done|]. intros <-. apply Href. apply list_elem_of_fmap.
    by exists (ref_val r, e').
  - rewrite Hv. lia.
  - rewrite He, Hv, map_size_insert_None by done. lia.
  - exists g'. split; [exact Hfold|]. split; [done|]. rewrite He', He. cbn.
    rewrite <-insert_union_l, insert_union_r; [done|]. by apply not_elem_of_list_to_map.
Qed.

(** ** Soundness *)

Lemma check_image_ok limits img st :
  check_image limits img = Ok st →
  replayed limits (img_floor img) st ∧ change_from <$> rs_log st = img_changes img ∧
  rs_span st = None ∧ rs_previous st = state_revision (img_state img) ∧
  (1 ≤ lim_changes limits)%N ∧ (lim_bytes limits ≤ usize_max)%N ∧
  (len (img_changes img) ≤ lim_changes limits)%N ∧ (len (img_rows img) ≤ 100000)%N.
Proof.
  unfold check_image. on_ok (validate_limits limits) as [[]|] Hval.
  apply validate_limits_ok in Hval as (Hrows & Hch & Hby).
  destruct (_ || _) eqn:E1; [done|]. apply orb_false_iff in E1 as [E1 E2].
  apply bool_decide_eq_false in E1, E2.
  destruct (_ || _); [done|].
  destruct (charge_rows _ _) as [b|] eqn:Hb; [|done]. apply charge_rows_left in Hb. simpl in Hb.
  destruct (try_fold _ _ _) as [st'|] eqn:Hf; [|done].
  destruct (_ || _) eqn:E3; [done|]. intros [= <-].
  apply orb_false_iff in E3 as [E3 E4]. apply bool_decide_eq_false in E3, E4. apply dec_stable in E3.
  assert (H0 : replayed limits (img_floor img) (mkReplay b [] 0 (img_floor img) None)).
  { split; simpl.
    - done.
    - unfold len. simpl. lia.
    - done.
    - by intros d ?%elem_of_nil.
    - lia.
    - by exists [], []. }
  destruct (replay_changes_ok limits _ (img_floor img) _ _ _ H0 Hf) as (Hrep & ds & Hds & Hcs).
  simpl in Hds. subst ds. split; [done|]. split; [done|].
  split; [destruct (rs_span st'); [exfalso; apply E4; by eexists|done]|].
  split; [done|]. split; [lia|]. split; [unfold usize_max; lia|]. lia.
Qed.

Lemma install_inv limits img st g :
  inv g → check_image limits img = Ok st → (state_revision (img_state img) ≤ u64_max)%N →
  inv (install limits img st g).
Proof.
  intros [Hs Hx Hv Hl Hc Hb Hd Hq Ha] Hst Hrev.
  apply check_image_ok in Hst as ([Rc Rp Rb Rd Rbud (us & part & Rlog & Rus & Ru)] & Hcs & Hsp & Hprev
    & Hcap & Hbytes & Hlen & _).
  rewrite Hsp in Ru. simpl in Ru. subst part. rewrite app_nil_r in Rlog.
  split; try done; simpl.
  - split; simpl; try done; [lia|by exists us| |lia].
    rewrite <-Hcs, len_fmap in Hlen. lia.
  - intros d Hd'. by apply Rd.
  - intros entry. rewrite im_new_list. by intros ?%elem_of_nil.
Qed.

Lemma restore_sound now inc img cat limits :
  (state_revision (img_state img) ≤ u64_max)%N →
  ∃ r, restore now inc img cat limits = Some r ∧
    ∀ g, r = Ok g →
      inv g ∧ state g = img_state img ∧ activated g = Some cat ∧
      namespace g = Some (catalog_namespace (arc_val cat)) ∧
      (map_to_list (entities g)).*2 ≡ₚ img_rows img ∧
      ChangeLog.floor (changelog g) = img_floor img ∧
      change_from <$> ChangeLog.log (changelog g) = img_changes img.
Proof.
  intros Hrev. unfold restore. destruct (check_image limits img) as [st|e] eqn:Hst.
  2: { by eexists. }
  match goal with |- context [foldl _ (Some (Ok ?x)) _] => set (g0 := x) end.
  assert (Hi0 : inv g0).
  { destruct (with_changelog_limits_inv inc 1 1) as [Hs Hx Hv Hl Hc Hb Hd Hq Ha];
      [unfold usize_max; lia|]. split; try done. simpl. intros entry. rewrite im_new_list.
    by intros ?%elem_of_nil. }
  destruct (restore_rows_sound now (img_rows img) g0 Hi0) as (r & -> & Hr).
  cbn [mbind option_bind]. destruct r as [g1|e]; [|by eexists].
  eexists. split; [done|]. intros g [= <-].
  destruct (Hr g1 eq_refl) as (Hi1 & Hperm & Hns & Hac).
  split; [by apply install_inv|].
  split; [by destruct img as [[] ? ? ?]|].
  split; [done|]. split; [done|].
  split; [cbn; rewrite Hperm; cbn; by rewrite map_to_list_empty, app_nil_r|].
  split; [done|]. by apply check_image_ok in Hst as (_ & ? & _).
Qed.

(** ** Completeness *)

Lemma image_ok g limits img :
  image g limits = Ok img →
  img = mkImage (state g) (btree_iter (entities g)).*2 (ChangeLog.floor (changelog g))
          (change_from <$> ChangeLog.log (changelog g)) ∧
  validate_limits limits = Ok () ∧
  (N.of_nat (size (entities g)) ≤ lim_rows limits)%N ∧
  (len (ChangeLog.log (changelog g)) ≤ lim_changes limits)%N ∧
  ∃ b b', charge_rows (recovery_budget limits) (btree_iter (entities g)).*2 = Ok b ∧
    charge_diffs b (ChangeLog.log (changelog g)) = Ok b'.
Proof.
  unfold image, charge_diffs. destruct (validate_limits limits) as [[]|]; [|done].
  destruct (_ || _) eqn:E; [done|]. apply orb_false_iff in E as [E1 E2].
  apply bool_decide_eq_false in E1, E2.
  destruct (charge_rows _ _) as [b|]; [|done]. destruct (try_fold _ b _) as [b'|] eqn:Hd; [|done].
  intros [= <-]. split; [done|]. split; [done|]. split; [lia|]. split; [lia|]. by eexists _, _.
Qed.

Lemma len_entities g : len (btree_iter (entities g)).*2 = N.of_nat (size (entities g)).
Proof.
  rewrite len_fmap. unfold len.
  by rewrite (Permutation_length (btree_iter_perm _)), length_map_to_list.
Qed.

Lemma check_image_of g limits img :
  inv g → image g limits = Ok img →
  incarnation g ≠ replicate 16 Byte.x00 → catalog_generation g ≠ 0%N →
  (∀ d, d ∈ ChangeLog.log (changelog g) → id_ok d) →
  ∃ b, check_image limits img =
    Ok (mkReplay b (ChangeLog.log (changelog g)) (ChangeLog.bytes (changelog g)) (version g) None).
Proof.
  intros Hi Himg Hinc Hcat Hids.
  apply image_ok in Himg as (-> & Hval & Hrows & Hlen & b & b' & Hb & Hb').
  destruct (inv_log _ Hi) as [Wc Wh (us & Wu & Wus) Wb _ _].
  pose proof (validate_limits_ok _ Hval) as (_ & _ & Hby).
  pose proof (charge_rows_left _ _ _ Hb) as Hleft. simpl in Hleft.
  exists b'. unfold check_image. rewrite Hval. cbn [img_rows img_changes img_state img_floor].
  rewrite len_entities, len_fmap, !bool_decide_eq_false_2 by (done || simpl; lia). cbn [orb].
  rewrite Hb. rewrite Wu in Hb', Wc, Hids |- *.
  rewrite (replay_units limits _ us b b' [] 0 (ChangeLog.floor (changelog g))).
  - cbn [rs_previous rs_span]. rewrite <-Wu, Wh. simpl.
    rewrite !bool_decide_eq_false_2 by (tauto || by intros []). by rewrite Wb.
  - done.
  - done.
  - intros d Hd. split; [|by apply Hids]. apply (inv_diffs _ Hi). by rewrite Wu.
  - rewrite <-Wu. simpl. lia.
  - apply (inv_version _ Hi).
  - done.
  - lia.
  - unfold usize_max. lia.
Qed.

Lemma image_restore_spec now inc g cat limits img :
  inv g → image g limits = Ok img →
  incarnation g ≠ replicate 16 Byte.x00 → catalog_generation g ≠ 0%N →
  (∀ d, d ∈ ChangeLog.log (changelog g) → id_ok d) →
  ∃ g', restore now inc img cat limits = Some (Ok g') ∧ inv g' ∧ entities g' = entities g ∧
    state g' = state g ∧ ChangeLog.log (changelog g') = ChangeLog.log (changelog g) ∧
    ChangeLog.floor (changelog g') = ChangeLog.floor (changelog g) ∧
    ChangeLog.bytes (changelog g') = ChangeLog.bytes (changelog g).
Proof.
  intros Hi Himg Hinc Hcat Hids.
  destruct (check_image_of g limits img Hi Himg Hinc Hcat Hids) as [b Hck].
  pose proof Himg as (Himg' & Hval & Hrows & _)%image_ok.
  apply validate_limits_ok in Hval as (Hlr & _).
  unfold restore. rewrite Hck.
  match goal with |- context [foldl _ (Some (Ok ?x)) _] => set (g0 := x) end.
  assert (Hi0 : inv g0).
  { destruct (with_changelog_limits_inv inc 1 1) as [Hs Hx Hv Hl Hc Hb Hd Hq Ha];
      [unfold usize_max; lia|]. split; try done. simpl. intros entry. rewrite im_new_list.
    by intros ?%elem_of_nil. }
  assert (Hr : img_rows img = (btree_iter (entities g)).*2) by by rewrite Himg'.
  destruct (restore_rows_complete now (btree_iter (entities g)) g0 Hi0) as (g1 & Hf & Hi1 & He1).
  - apply NoDup_btree_keys.
  - intros ref e Hin%elem_of_btree_iter. split; [|apply lookup_empty].
    by apply (store_ref _ _ _ _ _ (inv_store _ Hi)).
  - simpl. rewrite <-(len_fmap snd), len_entities. unfold u32_max. lia.
  - simpl. by rewrite map_size_empty.
  - rewrite Hr, Hf. cbn [mbind option_bind]. eexists. split; [done|].
    split; [apply install_inv; [done|done|]|].
    { rewrite Himg'. simpl. apply (inv_version _ Hi). }
    split; [|split; [by rewrite Himg'|split; [done|split; [by rewrite Himg'|done]]]].
    simpl. rewrite He1. simpl. rewrite (right_id_L ∅ (∪)).
    rewrite <-(list_to_map_to_list (entities g)) at 2.
    apply list_to_map_proper; [apply NoDup_btree_keys|apply btree_iter_perm].
Qed.

(** A log that holds an id outside the accepted lengths is not restored. *)
Lemma image_not_restored now inc g cat limits img d :
  inv g → image g limits = Ok img → d ∈ ChangeLog.log (changelog g) → ¬ id_ok d →
  ∃ e, restore now inc img cat limits = Some (Err e).
Proof.
  intros Hi Himg Hd Hid. unfold restore.
  destruct (check_image limits img) as [st|e] eqn:Hck; [|by eexists]. exfalso. apply Hid.
  apply check_image_ok in Hck as (Hrep & Hcs & _).
  apply image_ok in Himg as (-> & _). cbn [img_changes] in Hcs.
  assert (Hin : change_from d ∈ change_from <$> rs_log st).
  { rewrite Hcs. apply list_elem_of_fmap. by exists d. }
  apply list_elem_of_fmap in Hin as (d' & Heq & Hd').
  destruct (rp_diffs _ _ _ Hrep d' Hd') as [_ Hok].
  assert (Href : diff_ref d = diff_ref d') by (by apply (f_equal rc_id) in Heq).
  unfold id_ok in *. by rewrite Href.
Qed.
End facts.
End RecoveryFacts.
