(* ===== verification/OntologyTheorems.v ===== *)
(** * What is proved of the ontology

    The properties of namespaces, of fitting and of filter evaluation over
    them, in the terms of the modelled operations. *)

From Stdlib Require Import Ascii.
From S2P Require Import Prelude Floats Kinds Extern Bitmap Adjacency ValueIndex Filter Text Taxonomy Xeto Namespace Fitting NamespaceFacts FittingFacts SpecSemantics NamespaceInv Controlled ControlledFacts ControlledSafety Changelog Graph GraphInv Query QueryFacts GraphValidation.

(** ** Evaluation over a graph *)

Section evaluation.
Import EntityGraph GraphInv.
Context {HO : HashOrder} {HL : HashOrderLaws} {RB : Roaring} {RL : RoaringLaws}.
Context {CM : CacheMap} {CL : CacheLaws} {FS : FilterSyntax}.
Context {CS : Casing} {SC : StrictCatalog} {SL : StrictCatalogLaws}.
Context {RX : RegexCrate} {RXL : RegexLaws} {FT : FloatText}.
#[local] Instance the_ontology : Ontology := Fitting.namespace_ontology.
Context {CA : Catalog}.
Implicit Types (g : EntityGraph.t) (e : HDict) (ns : Namespace.t).

(** C13.  What a spec term selects, for every term.  A term that the selected
    strict catalog declares is left to that catalog, with the entities of the
    graph to follow references in.  Any other term that names a spec selects
    the entities that satisfy it: the markers of the spec and of all its bases
    are there, the tags have the slots' types and meet their constraints, and
    every query slot that is not optional leads, through references or against
    them, to an entity of the kind it asks for - an optional one need not, but
    must name a traversal there is.  One that names a definition selects the
    entities with a marker under it or, for a conjunct, under each of its
    parts; and one that names nothing selects nothing. *)
Theorem spec_term_semantics g ns e term :
  inv g → NamespaceInv.ok ns →
  matches_with_ns (SpecMatch term) e (Some (query_ctx g)) (Some ns) = true ↔
  match FittingFacts.strict_for ns term with
  | Some c => strict_fits c term e (Some (ctx_forward (query_ctx g))) = true
  | None =>
      match Namespace.resolve_spec_term ns term with
      | Some (TSpec spec) => SpecSemantics.satisfies (entities g) e spec (Namespace.specs ns) ns
      | Some (TDef name) =>
          Namespace.has_type ns name = true ∧
          match Namespace.conjunct_parts ns name with
          | Some ps => ∀ p, p ∈ ps → NamespaceInv.marked ns e p
          | None => NamespaceInv.marked ns e name
          end
      | None => False
      end
  end.
Proof.
  intros Hi Hok.
  match goal with |- ?b = true ↔ _ =>
    change b with (Fitting.fits_spec_term_with e term (Some (query_ctx g)) ns).1 end.
  rewrite (NamespaceFacts.answers_run _ _ ns
    (FittingFacts.fits_spec_term_with_answers e term (Some (query_ctx g))) (NamespaceInv.ok_good _ Hok)).
  unfold FittingFacts.term_fits_with. destruct (FittingFacts.strict_for ns term) as [c|]; [done|].
  destruct (Namespace.resolve_spec_term ns term) as [[spec|name]|]; [|by apply NamespaceInv.member_spec|done].
  rewrite is_nil_true. eapply SpecSemantics.spec_issues_spec. by apply OntologyGraph.query_ctx_of.
Qed.


(** C15.  Hiding records or catalog entries, and stopping early, never make a
    filter match an entity it does not match in full view, for filters
    without negated paths and namespaces that are [plain] as for the
    agreement above: exact indexes, defined supertypes, specs under their own
    names with distinct slots and, for a selected strict catalog, registered
    declarations whose types other specs' query slots do not ask for.  The
    catalog's own fitter is assumed to accept through the environment only
    what it accepts over the graph ([strict_sound]). *)
Theorem controlled_masked_sound {QE : QueryEnvironment} {SF : StrictFit} fuel g ns node e
    (View : Env → Prop) env env' :
  inv g → ControlledFacts.plain ns → ControlledSafety.strict_sound (query_ctx g) View ns →
  ControlledSafety.masks (query_ctx g) (inverse g) View → View env →
  ControlledSafety.positive node = true →
  Controlled.matches_controlled fuel node e (Some ns) env = Some (Ok true, env') →
  matches_with_ns node e (Some (query_ctx g)) (Some ns) = true.
Proof.
  intros Hi Hpl Hst Hm HV Hpos Hr. destruct (OntologyGraph.query_ctx_of g Hi) as [Hf Hinv Hrev Hctx].
  pose proof (ControlledSafety.matches_at_sound (query_ctx g) (inverse g) View Hm ns Hpl Hst fuel
    (entities g) Hf Hrev Hinv Hctx node e 1 Hpos env HV) as Hs.
  unfold Controlled.matches_controlled in Hr. rewrite Hr in Hs. by apply Hs.
Qed.

(** A refusal of the environment ends the evaluation with that error:
    an evaluation that answers met none, and one that stops returns the only
    one it met, or the limit on patterns. *)
Theorem controlled_stop_propagates {QE : QueryEnvironment} {SF : StrictFit} log fuel node e
    (ons : option Namespace.t) env r env' :
  ControlledSafety.logs log →
  Controlled.matches_controlled fuel node e ons env = Some (r, env') →
  match r with
  | Ok _ => log env' = log env
  | Err err => log env' = log env ++ [err] ∨
               (log env' = log env ∧ err = env_regex_limit_error env')
  end.
Proof.
  intros L Hr. pose proof (ControlledSafety.matches_at_traced log L fuel node e ons 1 env) as Ht.
  unfold Controlled.matches_controlled in Hr. by rewrite Hr in Ht.
Qed.

(** C16.  [validate_graph] returns for every graph, no count underflows, and
    its report lists exactly the mandatory markers entities lack for the
    types they claim and exactly the references to missing entities; valid,
    failing and untyped entities add up to all of them. *)
Theorem validate_graph_correct g ns :
  inv g → NamespaceInv.ok ns →
  ∃ report, (GraphValidation.validate_graph g ns).1 = Some report ∧
    (∀ id issue, (∃ l, entity_issues report !! id = Some l ∧ issue ∈ l) ↔
       ∃ e claimed tag, entities g !! id = Some e ∧ issue = MissingMarker tag claimed ∧
         e !! claimed = Some KMarker ∧ Namespace.contains ns claimed = true ∧
         tag ∈ NamespaceFacts.mandatory_of claimed ns ∧ e !! tag = None) ∧
    (∀ id tag tgt, (id, tag, tgt) ∈ dangling_refs report ↔
       QueryFacts.refers g id tag tgt ∧ entities g !! tgt = None) ∧
    total_entities (summary report) = N.of_nat (size (entities g)) ∧
    (valid (summary report) + with_errors (summary report) + untyped (summary report) =
     total_entities (summary report))%N.
Proof.
  intros Hi Hok.
  destruct (GraphValidation.validate_graph_spec g ns Hi (NamespaceInv.ok_good _ Hok)) as
    (report & Hr & Hiss & Hd & Ht & _ & _ & Hsum).
  exists report. split_and!; [done| |done| |done].
  - intros id issue. setoid_rewrite Hiss. split.
    + intros (l & (e & He & Hf & ->) & (claimed & tag & Hx)%GraphValidation.elem_of_issues_of).
      by exists e, claimed, tag.
    + intros (e & claimed & tag & He & Hx).
      assert (Hin : issue ∈ GraphValidation.issues_of ns e)
        by (apply GraphValidation.elem_of_issues_of; eauto).
      exists (GraphValidation.issues_of ns e). split; [|done]. exists e. split_and!; [done| |done].
      unfold GraphValidation.failing. by destruct (GraphValidation.issues_of ns e); [apply elem_of_nil in Hin|].
  - rewrite Ht. unfold GraphValidation.all, Prelude.len.
    by rewrite length_fmap, btree_iter_perm, length_map_to_list.
Qed.
End evaluation.

(** ** The namespace *)

Section namespace.
Import Namespace NamespaceInv.
Context `{HashOrderLaws, Casing, StrictCatalogLaws, RegexCrate, FloatText}.
Implicit Types (e : HDict) (ns : t).

(** C17.  Every namespace reached from the empty one by registering and
    unloading libraries, registering specs, deriving from catalogs and asking
    questions satisfies the invariant: definitions and specs are under their
    names, the indexes cover the definitions, the hierarchy's two maps are
    inverse, and the memos hold right answers. *)
Theorem namespace_invariant ns : reachable ns → ok ns.
Proof. apply reachable_ok. Qed.

(** C18.  The memos are invisible: a namespace and its copy with empty memos
    answer every question alike, whatever was asked before. *)
Theorem memos_invisible ns e name ctx :
  ok ns →
  (mandatory_tags name ns).1 = (mandatory_tags name (clone ns)).1 ∧
  (entity_is_a e name ns).1 = (entity_is_a e name (clone ns)).1 ∧
  (validate_entity e ns).1 = (validate_entity e (clone ns)).1 ∧
  (Fitting.fits_spec_term_with e name ctx ns).1 = (Fitting.fits_spec_term_with e name ctx (clone ns)).1 ∧
  (Fitting.fits_explain e name ctx ns).1 = (Fitting.fits_explain e name ctx (clone ns)).1.
Proof.
  intros Hok. split_and!; eapply answers_clone; eauto using NamespaceFacts.mandatory_tags_answers,
    NamespaceFacts.entity_is_a_answers, NamespaceFacts.validate_entity_answers,
    FittingFacts.fits_spec_term_with_answers, explained_answers.
Qed.

(** C19.  The hierarchy: [is_a] is reachability through supertypes,
    [supertypes] and [all_subtypes] list the proper ones without repetition,
    the mandatory tags of a type are the mandatory definitions among its
    supertypes, and [tags_for] those declared on one of them. *)
Theorem hierarchy_semantics ns name x :
  ok ns →
  let up := edge (TaxonomyTree.parents (taxonomy ns)) in
  (is_a ns name x = true ↔ rtc up name x) ∧
  (NoDup (supertypes ns name) ∧ (x ∈ supertypes ns name ↔ tc up name x)) ∧
  (NoDup (TaxonomyTree.all_subtypes (taxonomy ns) name) ∧
   (x ∈ TaxonomyTree.all_subtypes (taxonomy ns) name ↔ tc up x name)) ∧
  (x ∈ (mandatory_tags name ns).1 ↔ x ∈ mandatory_defs ns ∧ rtc up name x) ∧
  (x ∈ tags_for ns name ↔ ∃ y, rtc up name y ∧ x ∈ targets (tag_on_index ns) y).
Proof.
  intros Hok%ok_good. cbv zeta. destruct (TaxonomyFacts.walk_from_spec
    (TaxonomyTree.parents (taxonomy ns)) name) as [Hnd Hup].
  destruct (TaxonomyFacts.walk_from_spec (TaxonomyTree.children (taxonomy ns)) name) as [Hnd' Hdown].
  split_and!; [apply TaxonomyFacts.is_subtype_spec|done|apply Hup|done| | |].
  - rewrite <-(TaxonomyFacts.tc_children_parents _ _ _ (NamespaceFacts.good_tree _ Hok)). apply Hdown.
  - rewrite (NamespaceFacts.answers_run _ _ ns (NamespaceFacts.mandatory_tags_answers name) Hok).
    apply TaxonomyFacts.elem_of_mandatory_set.
  - apply elem_of_tags_for.
Qed.

(** An entity is of a type when it carries a marker the hierarchy puts
    under it; of a conjunct, when it is of each of its parts.  The depth
    limit of the recursion is never reached. *)
Theorem entity_is_a_semantics ns e name :
  ok ns →
  (entity_is_a e name ns).1 = true ↔
  has_type ns name = true ∧
  match conjunct_parts ns name with
  | Some ps => ps = split_on "-"%char name ∧ ∀ p, p ∈ ps → marked ns e p
  | None => marked ns e name
  end.
Proof.
  intros Hok. rewrite (NamespaceFacts.answers_run _ _ ns (NamespaceFacts.entity_is_a_answers e name))
    by by apply ok_good.
  unfold MAX_CONJUNCT_DEPTH. rewrite member_spec by done.
  destruct (conjunct_parts ns name) as [ps|] eqn:Hp; [|done].
  destruct (conjunct_parts_ok ns name ps Hok Hp) as [-> _]. naive_solver.
Qed.

(** A spec term resolves to what its name says: a registered spec of
    that qualified name first, else a known type with its bare name, else
    one with the bare name in lower case, else the only conjunct spelled like
    it; it does not resolve when there is none of these. *)
Theorem resolve_spec_term_typed ns term :
  ok ns →
  match resolve_spec_term ns term with
  | Some (TSpec s) => specs ns !! term = Some s ∧ spec_qname s = term
  | Some (TDef d) =>
      specs ns !! term = None ∧ has_type ns d = true ∧
      (d = bare_name term ∨
       has_type ns (bare_name term) = false ∧ d = to_lowercase (bare_name term) ∨
       has_type ns (bare_name term) = false ∧ is_Some (conjunct_parts ns d) ∧
       ConjunctIndex.normalize d = ConjunctIndex.normalize (bare_name term) ∧
       ∀ c, is_Some (conjunct_parts ns c) →
         ConjunctIndex.normalize c = ConjunctIndex.normalize (bare_name term) → c = d)
  | None =>
      specs ns !! term = None ∧ has_type ns (bare_name term) = false ∧
      has_type ns (to_lowercase (bare_name term)) = false
  end.
Proof.
  intros Hok. unfold resolve_spec_term. destruct (specs ns !! term) as [s|] eqn:Hs.
  { split; [done|]. by apply (so_keyed _ (ok_specs _ Hok)). }
  destruct (has_type ns (bare_name term)) eqn:H1'; [auto|].
  destruct (has_type ns (to_lowercase (bare_name term))) eqn:H2'; [auto 10|].
  destruct (ConjunctIndex.resolve_normalized (conjuncts ns) (bare_name term)) as [d|] eqn:Hd; [|done].
  simpl. apply (resolved_conjunct ns _ d Hok) in Hd as (Ht & Hp & Hn & Hu). eauto 10.
Qed.

(** Unloading a library that is not bundled and that no other names
    among its dependencies removes its definitions, its specs and its
    record, and leaves indexes that describe exactly the definitions that
    remain; a refusal changes nothing. *)
Theorem unload_lib_exact ns name ns' r :
  ok ns → unload_lib ns name = (ns', r) →
  match r with
  | Ok _ =>
      NamespaceFacts.exact ns' ∧
      defs ns' = filter (λ kv, def_lib kv.2 ≠ name) (defs ns) ∧
      libs ns' = delete name (libs ns) ∧
      (∀ q s, specs ns' !! q = Some s → specs ns !! q = Some s ∧ spec_lib s ≠ name) ∧
      (∀ q s, specs ns !! q = Some s → q ∉ targets (spec_libs ns) name → specs ns' !! q = Some s)
  | Err _ => ns' = ns
  end.
Proof.
  intros Hok Hu. destruct r as [[]|err].
  - destruct (NamespaceFacts.unload_lib_spec ns name ns' (do_keyed _ (ok_defs _ Hok)) Hu) as (He & Hd & Hl).
    destruct (unload_specs _ _ _ Hu) as (Hs & _). rewrite Hs. split_and!; [done|done|done| |].
    + intros q s. rewrite lookup_unlisted. case_decide as Hq; [done|]. intros Hqs. split; [done|].
      intros <-. by apply Hq, (so_listed _ (ok_specs _ Hok)).
    + intros q s Hqs Hq. by rewrite lookup_unlisted, decide_False.
  - by eapply unload_refused.
Qed.

(** Deriving from a catalog gives each declared name its declaration
    and leaves every other; deriving again from another catalog restores what
    the first displaced, so that the result is that of the second alone. *)
Theorem with_catalog_rederived ns c1 c2 :
  ok ns →
  (∀ q, specs (with_catalog ns c2) !! q =
        match declaration c2 q with Some s => Some s | None => base_spec ns q end) ∧
  specs (with_catalog (with_catalog ns c1) c2) = specs (with_catalog ns c2) ∧
  same_defs (with_catalog (with_catalog ns c1) c2) ns.
Proof.
  intros Hok. destruct (with_catalog_spec ns c2 Hok) as (_ & Hsame & _ & Hq).
  destruct (with_catalog_rederive ns c1 c2 Hok) as [Hs Hf].
  split_and!; [apply Hq|done|]. by rewrite Hf, <-Hsame.
Qed.

(** The Trio loader keeps dependencies as they are written, with the
    prefix of library symbols, and [unload_lib] looks for the bare name: a
    library loaded from Trio never keeps another from being unloaded, even
    one it depends on. *)
Theorem trio_dependencies_ignored rows name :
  (∀ row d, row ∈ rows → d ∈ TrioLoader.symbol_list row "depends" → String.prefix "lib:" d = true) →
  String.prefix "lib:" name = false →
  (unload_lib (load_trio_str (E:=string) (Ok (TrioLoader.load_trio rows)) new).1 name).2 = Ok ().
Proof.
  intros Hdeps Hname. cbn [load_trio_str fst]. unfold unload_lib. rewrite dependent_none.
  - by rewrite register_libs_sources.
  - intros n l [Hl|Hl]%register_libs_libs Hin; [|done].
    destruct (TrioLoader.load_trio_depends _ _ _ Hl Hin) as (row & Hrow & Hd).
    pose proof (Hdeps _ _ Hrow Hd). congruence.
Qed.

(** [unload_lib] forgets the specs a catalog has displaced: the spec of
    an unloaded library comes back with the next catalog that does not
    declare its name. *)
Theorem displaced_spec_returns ns c1 c2 q s s1 ns1 :
  ok ns → selected ns = None → specs ns !! q = Some s →
  declaration c1 q = Some s1 → declaration c2 q = None →
  unload_lib (with_catalog ns c1) (spec_lib s) = (ns1, Ok ()) →
  libs (with_catalog ns1 c2) !! spec_lib s = None ∧ specs (with_catalog ns1 c2) !! q = Some s.
Proof.
  intros Hok Hsel Hs Hd1 Hd2 Hu.
  destruct (with_catalog_spec ns c1 Hok) as (Hok1 & _ & _ & Hq1).
  destruct (unload_specs _ _ _ Hu) as (_ & _ & _ & Hsh).
  destruct (NamespaceFacts.unload_lib_spec _ _ _ (do_keyed _ (ok_defs _ Hok1)) Hu) as (_ & _ & Hl).
  assert (Hok2 : ok ns1) by (pose proof (unload_lib_ok _ (spec_lib s) Hok1) as Ho; by rewrite Hu in Ho).
  destruct (with_catalog_spec ns1 c2 Hok2) as (_ & (_ & Hl2 & _) & _ & Hq2). split.
  - rewrite <-Hl2, Hl. apply lookup_delete_eq.
  - destruct (Hq2 q) as [-> _]. rewrite Hd2. unfold base_spec. rewrite Hsh.
    by rewrite (displaced_by ns c1 q s1 Hok Hsel Hd1), Hs.
Qed.
End namespace.

(** [effective_slots] returns for every spec, cyclic chains of bases
    included, and holds for each name the slots of the nearest spec of the
    chain that has the name. *)
Theorem effective_slots_nearest s specs :
  ∃ slots l, Spec.effective_slots s specs = Some slots ∧ Spec.lineage specs ∅ s l ∧
    ∀ name, List.filter (λ x, bool_decide (slot_name x = name)) slots = Spec.nearest l name.
Proof. apply Spec.effective_slots_spec. Qed.
