(* ===== verification/AppTheorems.v ===== *)
(** * What is proved of reads

    The properties of a read through the application layer: what a caller is
    shown, what it costs, that filters are evaluated over what is shown, that
    the pages of an answer add up to it, and that cursors lead where they
    were issued for. *)

From Stdlib Require Import Ascii.
From S2P Require Import Prelude Floats Kinds Extern Bitmap Adjacency ValueIndex Filter FilterParser Text Taxonomy Xeto Namespace Fitting NamespaceFacts FittingFacts Controlled ControlledFacts ControlledSafety Changelog Graph GraphInv Query QueryFacts Application MeterFacts Sanitize SanitizeFacts View Reading ReadingFacts CatalogPages ReadService ReadServiceFacts.

Import Meter MeterFacts.

(** ** Records *)

Section records.
Context {HO : HashOrder} {HL : HashOrderLaws} {AM : Ambient}.

(** C20.  Copying a record for a caller under a budget gives the masked
    record of the policy and spends at most the cost of the record; it fails
    only when a check saw the request expired, cancelled or its session ended,
    or when the budget has no room for that cost. *)
Theorem record_exact p id raw b :
  after b (SanitizeFacts.row_cost raw) (Sanitize.record p id raw b).2 ∧
  match (Sanitize.record p id raw b).1 with
  | Ok row => row = Sanitize.masked p id raw
  | Err e => stopped b (Sanitize.record p id raw b).2 e ∨
             (∃ k, e = BudgetExceeded k) ∧ ¬ room b (SanitizeFacts.row_cost raw)
  end.
Proof.
  exact (SanitizeFacts.record_meets p (ReadLimits.max_value_depth (limits b)) id raw b eq_refl).
Qed.

(** C21.  Whatever a copied record holds, at any depth of lists, dicts and
    grids, its reader may see: every tag is one the policy shows of the
    record, every reference is the record's own id, or one to a record that
    may be read and referred to, or names a visible declaration of the
    catalog, displays of references are shown only where allowed, and
    nominal scalars only with their provenance. *)
Theorem record_discloses p id raw b row b' tag v t x :
  Sanitize.record p id raw b = (Ok (Some row), b') →
  row !! tag = Some v → SanitizeFacts.part (Some tag) v t x →
  p_entity p id = true ∧ (∀ k, t = Some k → p_tag p id k = true) ∧
  SanitizeFacts.permitted p (λ r, t = Some "id" ∧ ref_val r = id) t x.
Proof.
  intros Hrun Hv Hpart.
  destruct (SanitizeFacts.record_meets p (ReadLimits.max_value_depth (limits b)) id raw b eq_refl)
    as [_ Hrow]. rewrite Hrun in Hrow. cbn in Hrow. unfold Sanitize.masked in Hrow.
  destruct (p_entity p id); [|done]. injection Hrow as ->. split; [done|].
  by eapply SanitizeFacts.mask_row_discloses.
Qed.
End records.

(** ** Queries *)

Section queries.
Context {HO : HashOrder} {HL : HashOrderLaws} {RB : Roaring} {RL : RoaringLaws}.
Context {CM : CacheMap} {CL : CacheLaws} {FS : FilterSyntax} {LX : Lexical}.
Context {CS : Casing} {SC : StrictCatalog} {RX : RegexCrate} {RXL : RegexLaws} {FT : FloatText}.
#[local] Existing Instance Reading.the_ontology.
Context {CA : Catalog} {AM : Ambient}.
Context (g : EntityGraph.t) (p : PolicySnapshot) {SF : @StrictFit SC (Reading.env g p)}.
Context (fuel : nat) (L : ReadLimits.t) (strict : SCatalog → string → HDict → bool) (ns : Namespace.t).
Import ReadingFacts.

(** C22.  A caller's filter is evaluated over what the policy shows the
    caller: the evaluation through the caller's view ends, and gives what
    evaluation without a meter gives over the masked rows that may be referred
    to and the declarations of the catalog that are visible, or stops because
    the request was stopped or its budget is spent.  Where the policy hides
    nothing of the catalog, shows only rows that may be referred to, and the
    namespace is one whose plain and controlled evaluation agree ([unveiled]),
    an answer is that of plain evaluation over the masked store. *)
Theorem view_evaluation node row b :
  readable g p fuel L strict ns → limits b = L →
  ∃ r b', Reading.matches g p fuel node row b = Some (r, b') ∧ limits b' = L ∧
    (r = Ok (shown_matches g p fuel L strict node row) ∨ ∃ e, r = Err e ∧ halts e) ∧
    (unveiled g p L strict ns → ∀ v, r = Ok v →
       v = matches_with_ns node row (Some (View.masked_ctx g p)) (Reading.namespace g)).
Proof.
  intros Hr Hb. destruct (evaluation_exact g p fuel L strict ns Hr node row b Hb)
    as (v & r & b' & Hv & Hrun & Hb' & Hs).
  exists r, b'. split_and!; [done..| |].
  - destruct Hs as [?|(a & -> & ->)]; [by right|left]. unfold shown_matches.
    by rewrite (rd_namespace _ _ _ _ _ _ Hr), Hv.
  - intros Hun w ->. destruct Hs as [(e & [=] & _)|(a & -> & [= ->])].
    rewrite (rd_namespace _ _ _ _ _ _ Hr). by eapply shown_plain.
Qed.


(** C29.  A page of definitions, libraries or specs holds, in the order of
    the names, the first declarations after the position asked for that the
    caller may see and that the query selects, each naming no other
    declaration but visible ones; the details of a spec the caller may not see
    are unavailable, as those of a spec that is not there; or the request was
    stopped. *)
Theorem catalog_page_exact ri after b :
  Reading.namespace g = Some ns → CatalogPages.over_catalog (ri_query ri) = true → limits b = L →
  ∃ r b', Reading.catalog_page g p ri after b = Some (r, b') ∧
    if CatalogPages.offered p ns (ri_query ri)
    then r = Ok (CatalogPages.catalog_page_of p ns ri after) ∨ ∃ e, r = Err e ∧ halts e
    else r = Err Unavailable.
Proof.
  intros Hns Hq Hb. destruct (CatalogPages.offered p ns (ri_query ri)) eqn:Ho.
  - destruct (CatalogPages.offered_gives g p L ns Hns ri after Ho b Hb) as (r & b' & Hrun & _ & Hres).
    by exists r, b'.
  - destruct (ri_query ri) as [| | | | | |name] eqn:Hri; try done.
    exists (Err Unavailable), b. split; [|done]. by eapply CatalogPages.hidden_unavailable.
Qed.
End queries.

(** ** Requests and cursors *)

Section requests.
Context {HO : HashOrder} {HL : HashOrderLaws} {RB : Roaring} {RL : RoaringLaws}.
Context {CM : CacheMap} {CL : CacheLaws} {FS : FilterSyntax} {LX : Lexical}.
Context {CS : Casing} {SC : StrictCatalog} {RX : RegexCrate} {RXL : RegexLaws} {FT : FloatText}.
#[local] Existing Instance Reading.the_ontology.
Context {CA : Catalog} {AM : Ambient} {CC : CursorCrypto}.
Context {SF : ∀ g p, @StrictFit SC (Reading.env g p)}.
Context (fuel : nat) {Out : Type}.
Context (encode : EntityGraph.t → OutputProfile → HGrid → B Out).
Context (service : ReadService.t) (out : Outside) (strict : SCatalog → string → HDict → bool).
Import ReadingFacts ReadServiceFacts.

(** C24.  A request over entities that succeeds was allowed by the policy of
    its principal; it is read as what its text says (a filter is what the
    parser makes of the trimmed text), for its principal, profile and scope;
    every catalog term of its filter is visible to the caller; it starts at the
    beginning, or behind the last row of the page whose cursor it gives, which
    carries the service's code, was issued for an equal request and the same
    state of the graph and has not expired; it returns exactly the page of its
    answer that starts there, encoded for its profile; and it leaves a cursor
    for what follows, or none when nothing does. *)
Theorem read_served g ns principal request seen table b page table' b' :
  entity_query (rq_query request) = true →
  (∀ p, ReadService.policy service principal = Ok p → readable g p fuel (limits b) strict ns) →
  ReadService.execute_on_graph fuel encode service out g principal request seen table b
    = Some (Ok page, table', b') →
  ∃ p identity after rows last grid b1 b2,
    ReadService.policy service principal = Ok p ∧
    p_operation p (query_operation (rq_query request)) = true ∧
    identifies (limits b) p principal request identity ∧
    permits p ns (ri_query identity) ∧
    starts service out g (rq_cursor request) seen identity after ∧
    (if reachable_parent g p (ri_query identity)
     then page_of g p fuel (limits b) strict identity after else ([], true, None))
      = (rows, pg_complete page, last) ∧
    pg_row_count page = len rows ∧ grid_rows grid = rows ∧
    encode g (ri_profile identity) grid b1 = (Ok (pg_output page), b2) ∧
    leaves service out g identity page last table table'.
Proof. apply execute_ok. Qed.

(** The cursor table never outgrows its limits: whatever a request
    does, the number of entries stays within the capacity and the bytes held
    within the maximum. *)
Theorem cursor_table_bounded g principal request seen table b r table' b' :
  table_ok (ReadService.service_limits service) table →
  ReadService.execute_on_graph fuel encode service out g principal request seen table b
    = Some (r, table', b') →
  table_ok (ReadService.service_limits service) table'.
Proof.
  intros Hok. unfold ReadService.execute_on_graph.
  destruct (ReadService.prepare _ _ _ _ _ b) as [[[[[p prepared] prior]|e] b0]|]; [|by intros [= _ <- _]|done].
  destruct (ReadService.read_page _ _ _ _ _ _ _ _ b0) as [[[[pg [k|]]|e] b1]|];
    [|by intros [= _ <- _]|by intros [= _ <- _]|done].
  destruct (ReadService.insert _ _ _ _ _ _ _ b1) as [[[u|e] t] b2] eqn:Hins;
    intros [= _ <- _]; by eapply insert_ok.
Qed.
End requests.

(** A token the service issued leads back, as long as its entry is in
    the table and has not expired, to the request, the state of the graph and
    the position it was issued for; only a stopped request or a spent budget
    keeps it from there. *)
Theorem cursor_roundtrip {AM : Ambient} {CC : CursorCrypto} {CCL : CursorCryptoLaws}
    service out issued b n tok b1 table record b2 :
  ReadService.token service issued b = (Ok (n, tok), b1) → length n = 16 →
  entries table !! n = Some record → (lookup_now out < cr_expires record)%N →
  ∃ r b', ReadService.lookup service out tok table b2 = (r, b') ∧
    (r = Ok (cr_identity record, cr_stamp record, cr_after record) ∨ ∃ e, r = Err e ∧ halts e).
Proof.
  intros Htok Hn Hrec Hexp.
  assert (Hn' : (n, tok) = (nonce issued,
            base64_encode (nonce issued ++ hmac (ReadService.cursor_key service) (nonce issued)))).
  { revert Htok. unfold ReadService.token, mbind, B_bind.
    destruct (charge BRetained 256 b) as [[[]|e] b0]; [|done]. by intros [= -> -> _]. }
  injection Hn' as -> ->.
  destruct (ReadServiceFacts.lookup_issued (limits b2) service out _ table record Hn Hrec Hexp b2 eq_refl)
    as (r & b' & Hrun & _ & Hres). by exists r, b'.
Qed.
