(* ===== verification/WireText.v ===== *)
(** * Numbers and identities as wire text

    The text the wire formats of [haystack-core/src/codecs] use for machine
    integers, identities and float bits: canonical decimals
    ([n.to_string()] against [parse]), fixed-width lower-case hexadecimal
    ([format!] with [02x] and [016x] against [from_str_radix]), and the test
    for control characters.  The lemmas say that reading inverts printing and
    that a strict reader accepts nothing but what is printed. *)

From Stdlib Require Import Ascii.
From stdpp Require Import pretty.
From S2P Require Import Prelude.

(** ** Reading digits *)

(** [char::to_digit]. *)
Definition to_digit (radix : N) (c : ascii) : option N :=
  let n := N_of_ascii c in
  let d := if bool_decide (48 ≤ n ≤ 57)%N then Some (n - 48)%N
           else if bool_decide (97 ≤ n ≤ 122)%N then Some (n - 87)%N
           else if bool_decide (65 ≤ n ≤ 90)%N then Some (n - 55)%N
           else None in
  d ← d; if bool_decide (d < radix)%N then Some d else None.

(** The loop of [from_str_radix] for an unsigned type with maximum [max]. *)
Fixpoint read_digits (radix max acc : N) (s : string) : option N :=
  match s with
  | EmptyString => Some acc
  | String c s =>
      d ← to_digit radix c;
      let n := (acc * radix + d)%N in
      if bool_decide (n ≤ max)%N then read_digits radix max n s else None
  end.

(** [uN::from_str_radix], and [str::parse] at radix ten: an optional plus
    sign and at least one digit. *)
Definition from_str_radix (radix max : N) (s : string) : option N :=
  match s with
  | EmptyString => None
  | String c s' =>
      if decide (c = "+"%char)
      then match s' with EmptyString => None | _ => read_digits radix max 0 s' end
      else read_digits radix max 0 s
  end.
Definition parse_u64 (s : string) : option N := from_str_radix 10 u64_max s.

(** [str::parse::<i64>]: the magnitude may reach one more below zero. *)
Definition i64_max : N := (2 ^ 63 - 1)%N.
Definition parse_i64 (s : string) : option Z :=
  match s with
  | String c s' =>
      if decide (c = "-"%char)
      then match s' with
           | EmptyString => None
           | _ => n ← read_digits 10 (2 ^ 63) 0 s'; Some (- Z.of_N n)%Z
           end
      else n ← from_str_radix 10 i64_max s; Some (Z.of_N n)
  | EmptyString => None
  end.
Definition is_i64 (z : Z) : Prop := (- 2 ^ 63 ≤ z < 2 ^ 63)%Z.

(** ** Hexadecimal *)

Definition hex_char (d : N) : ascii := ascii_of_N (if bool_decide (d < 10)%N then 48 + d else 87 + d).
(** [format!] with [0wx] for a number of at most [w] digits. *)
Fixpoint hex_digits (w : nat) (n : N) : string :=
  match w with
  | 0 => ""
  | S w => String (hex_char ((n / 16 ^ N.of_nat w) mod 16)) (hex_digits w n)
  end.

(** [c.is_ascii_digit() || (b'a'..=b'f').contains(&c)]. *)
Definition lower_hex (c : ascii) : bool :=
  let n := N_of_ascii c in bool_decide (48 ≤ n ≤ 57)%N || bool_decide (97 ≤ n ≤ 102)%N.
Fixpoint all_chars (f : ascii → bool) (s : string) : bool :=
  match s with EmptyString => true | String c s => f c && all_chars f s end.

(** ** Control characters *)

(** [s.chars().any(char::is_control)] on UTF-8: the bytes below 0x20, 0x7F,
    and U+0080 to U+009F, which are 0xC2 followed by 0x80 to 0x9F. *)
Fixpoint any_control (s : string) : bool :=
  match s with
  | EmptyString => false
  | String a s =>
      let b := N_of_ascii a in
      bool_decide (b < 32)%N || bool_decide (b = 127)%N ||
      match s with
      | String a2 _ =>
          let b2 := N_of_ascii a2 in bool_decide (b = 194)%N && bool_decide (128 ≤ b2 ≤ 159)%N
      | EmptyString => false
      end || any_control s
  end.

(** ** Decimals read back *)

Lemma to_digit_pretty d : (d < 10)%N → to_digit 10 (pretty_N_char d) = Some d.
Proof.
  intros Hd. assert (d = 0 ∨ d = 1 ∨ d = 2 ∨ d = 3 ∨ d = 4 ∨ d = 5 ∨ d = 6 ∨ d = 7 ∨ d = 8 ∨ d = 9)%N
    as Hc by lia. by repeat destruct Hc as [->|Hc]; try subst.
Qed.

Lemma read_digits_go max x s :
  (x ≤ max)%N → read_digits 10 max 0 (pretty_N_go x s) = read_digits 10 max x s.
Proof.
  revert s. induction (N.lt_wf_0 x) as [x _ IH]; intros s Hx.
  assert (x = 0 ∨ 0 < x)%N as [->|Hpos] by lia; [by rewrite pretty_N_go_0|].
  rewrite pretty_N_go_step, IH by (try apply N.div_lt; try lia;
    pose proof (N.div_le_upper_bound x 10 x); lia).
  cbn [read_digits]. rewrite to_digit_pretty by (apply N.mod_lt; lia). cbn [mbind option_bind].
  replace (x `div` 10 * 10 + x `mod` 10)%N with x by (pose proof (N.div_mod x 10); lia).
  by rewrite bool_decide_true.
Qed.

Lemma read_digits_pretty max n : (n ≤ max)%N → read_digits 10 max 0 (pretty n) = Some n.
Proof.
  intros Hn. unfold pretty, pretty_N. case_decide as H0; [subst|by rewrite read_digits_go].
  simpl. by rewrite bool_decide_true by lia.
Qed.

(** Printed numbers begin with a digit. *)
Lemma read_digits_head max n s c s' : read_digits 10 max n s ≠ None → s = String c s' → ∃ d, to_digit 10 c = Some d.
Proof. intros Hr ->. simpl in Hr. destruct (to_digit 10 c); eauto. done. Qed.

Lemma pretty_cons (n : N) : ∃ c s, pretty n = String c s ∧ ∃ d, to_digit 10 c = Some d.
Proof.
  pose proof (read_digits_pretty n n ltac:(lia)) as Hr.
  destruct (pretty n) as [|c s] eqn:E.
  - exfalso. revert E. unfold pretty, pretty_N. case_decide; [done|].
    rewrite pretty_N_go_step by lia. intros E.
    assert (∀ x s, pretty_N_go x s = "" → s = "") as Hgo.
    { intros x. induction (N.lt_wf_0 x) as [x _ IH]; intros s Hs.
      assert (x = 0 ∨ 0 < x)%N as [->|Hpos] by lia; [by rewrite pretty_N_go_0 in Hs|].
      rewrite pretty_N_go_step in Hs by done. by apply IH in Hs; [|apply N.div_lt; lia]. }
    by apply Hgo in E.
  - exists c, s. split; [done|]. by apply (read_digits_head n 0 (String c s) c s); [rewrite Hr|].
Qed.

Lemma from_str_radix_pretty max (n : N) : (n ≤ max)%N → from_str_radix 10 max (pretty n) = Some n.
Proof.
  intros Hn. destruct (pretty_cons n) as (c & s & E & d & Hd).
  rewrite <-(read_digits_pretty max n) by done. rewrite E. unfold from_str_radix.
  rewrite decide_False; [done|]. intros ->. by vm_compute in Hd.
Qed.

Lemma parse_u64_pretty (n : N) : (n ≤ u64_max)%N → parse_u64 (pretty n) = Some n.
Proof. apply from_str_radix_pretty. Qed.

Lemma parse_i64_pretty (z : Z) : is_i64 z → parse_i64 (pretty z) = Some z.
Proof.
  intros Hz. unfold is_i64 in Hz. destruct z as [|p|p].
  - done.
  - change (pretty (Z.pos p)) with (pretty (N.pos p)).
    pose proof (from_str_radix_pretty i64_max (N.pos p) ltac:(unfold i64_max; lia)) as Hf.
    destruct (pretty_cons (N.pos p)) as (c & s & E & d & Hd). rewrite E in *.
    unfold parse_i64. rewrite decide_False by (intros ->; by vm_compute in Hd). by rewrite Hf.
  - change (pretty (Z.neg p)) with (String "-" (pretty (N.pos p))).
    destruct (pretty_cons (N.pos p)) as (c & s & E & _). unfold parse_i64.
    rewrite decide_True by done. pose proof (read_digits_pretty (2 ^ 63) (N.pos p) ltac:(lia)) as Hr.
    rewrite E in *. by rewrite Hr.
Qed.

(** The width of a printed number. *)
Lemma pretty_N_go_length (k : nat) x s :
  (x < 10 ^ N.of_nat k)%N → (str_len (pretty_N_go x s) ≤ N.of_nat k + str_len s)%N.
Proof.
  revert x s. induction k as [|k IH]; intros x s Hx.
  - assert (x = 0%N) as -> by (simpl in Hx; lia). rewrite pretty_N_go_0. lia.
  - assert (x = 0 ∨ 0 < x)%N as [->|Hpos] by lia; [rewrite pretty_N_go_0; lia|].
    rewrite pretty_N_go_step by done. etrans; [apply IH|unfold str_len; simpl; lia].
    apply N.Div0.div_lt_upper_bound. rewrite Nat2N.inj_succ, N.pow_succ_r' in Hx. lia.
Qed.
Lemma pretty_u64_length (n : N) : (n ≤ u64_max)%N → (str_len (pretty n) ≤ 20)%N.
Proof.
  intros Hn. unfold pretty, pretty_N. case_decide; [done|].
  etrans; [apply (pretty_N_go_length 20)|]; [|done].
  unfold u64_max in Hn. change (10 ^ N.of_nat 20)%N with 100000000000000000000%N. lia.
Qed.

(** ** Hexadecimal read back *)

Lemma to_digit_hex d : (d < 16)%N → to_digit 16 (hex_char d) = Some d.
Proof.
  intros Hd. assert (d = 0 ∨ d = 1 ∨ d = 2 ∨ d = 3 ∨ d = 4 ∨ d = 5 ∨ d = 6 ∨ d = 7 ∨ d = 8 ∨ d = 9
    ∨ d = 10 ∨ d = 11 ∨ d = 12 ∨ d = 13 ∨ d = 14 ∨ d = 15)%N as Hc by lia.
  by repeat destruct Hc as [->|Hc]; try subst.
Qed.
Lemma lower_hex_char d : (d < 16)%N → lower_hex (hex_char d) = true.
Proof.
  intros Hd. assert (d = 0 ∨ d = 1 ∨ d = 2 ∨ d = 3 ∨ d = 4 ∨ d = 5 ∨ d = 6 ∨ d = 7 ∨ d = 8 ∨ d = 9
    ∨ d = 10 ∨ d = 11 ∨ d = 12 ∨ d = 13 ∨ d = 14 ∨ d = 15)%N as Hc by lia.
  by repeat destruct Hc as [->|Hc]; try subst.
Qed.
Lemma hex_char_digit c : lower_hex c = true → ∃ d, (d < 16)%N ∧ to_digit 16 c = Some d ∧ hex_char d = c.
Proof.
  intros Hc. exists (default 0%N (to_digit 16 c)). revert Hc.
  destruct c as [[] [] [] [] [] [] [] []]; intros Hc; first [by vm_compute in Hc|by vm_compute].
Qed.

Lemma hex_digits_length w n : String.length (hex_digits w n) = w.
Proof. induction w as [|w IH]; [done|]. simpl. by rewrite IH. Qed.
Lemma hex_digits_nonempty w n : 0 < w → hex_digits w n ≠ "".
Proof. intros Hw E. apply (f_equal String.length) in E. rewrite hex_digits_length in E. simpl in E. lia. Qed.
Lemma hex_digits_lower w n : all_chars lower_hex (hex_digits w n) = true.
Proof.
  induction w as [|w IH]; [done|]. cbn [hex_digits all_chars].
  rewrite lower_hex_char by (apply N.mod_lt; lia). exact IH.
Qed.

Lemma read_hex_mod max w n acc :
  (acc * 16 ^ N.of_nat w + n mod 16 ^ N.of_nat w ≤ max)%N →
  read_digits 16 max acc (hex_digits w n) = Some (acc * 16 ^ N.of_nat w + n mod 16 ^ N.of_nat w)%N.
Proof.
  revert acc. induction w as [|w IH]; intros acc Hmax.
  - simpl. f_equal. rewrite N.mod_1_r. lia.
  - rewrite Nat2N.inj_succ, N.pow_succ_r', (N.mul_comm 16 (16 ^ N.of_nat w)), N.Div0.mod_mul_r in *.
    cbn [hex_digits read_digits]. pose proof (N.mod_lt (n / 16 ^ N.of_nat w) 16 ltac:(lia)) as Hd.
    rewrite to_digit_hex by done. cbn [mbind option_bind].
    set (d := ((n / 16 ^ N.of_nat w) mod 16)%N) in *.
    assert (0 < 16 ^ N.of_nat w)%N by (apply N.neq_0_lt_0, N.pow_nonzero; lia).
    set (P := (16 ^ N.of_nat w)%N) in *. set (r := (n mod P)%N) in *.
    assert (Heq : (acc * (P * 16) + (r + P * d) = (acc * 16 + d) * P + r)%N) by lia.
    rewrite Heq in *. assert ((acc * 16 + d) * 1 ≤ (acc * 16 + d) * P)%N by (apply N.mul_le_mono_l; lia).
    rewrite bool_decide_true by lia. by rewrite IH.
Qed.

Lemma read_hex max w n acc :
  (n < 16 ^ N.of_nat w)%N → (acc * 16 ^ N.of_nat w + n ≤ max)%N →
  read_digits 16 max acc (hex_digits w n) = Some (acc * 16 ^ N.of_nat w + n)%N.
Proof. intros Hn Hmax. rewrite read_hex_mod; rewrite N.mod_small; done. Qed.

(** Reading fixes the leading digits of the result. *)
Lemma read_digits_bounds max s acc n :
  read_digits 16 max acc s = Some n →
  (acc * 16 ^ str_len s ≤ n < (acc + 1) * 16 ^ str_len s)%N.
Proof.
  revert acc. induction s as [|c s IH]; intros acc Hr.
  - injection Hr as <-. unfold str_len. simpl. lia.
  - cbn [read_digits] in Hr. destruct (to_digit 16 c) as [d|] eqn:Hd; [|done]. cbn [mbind option_bind] in Hr.
    case_bool_decide; [|done]. apply IH in Hr.
    assert (d < 16)%N.
    { unfold to_digit in Hd. destruct (if bool_decide _ then _ else _) as [d'|]; [|done].
      cbn [mbind option_bind] in Hd. by case_bool_decide; simplify_eq. }
    assert (str_len (String c s) = N.succ (str_len s)) as -> by (unfold str_len; simpl; lia).
    rewrite N.pow_succ_r'. nia.
Qed.

(** A strict reader of hexadecimal accepts only what is printed. *)
Lemma read_hex_canonical max s acc n :
  all_chars lower_hex s = true → read_digits 16 max acc s = Some n → hex_digits (String.length s) n = s.
Proof.
  revert acc. induction s as [|c s IH]; intros acc Hl Hr; [done|].
  cbn [all_chars] in Hl. apply andb_true_iff in Hl as [Hc Hl].
  destruct (hex_char_digit c Hc) as (d & Hd16 & Hd & Hch).
  cbn [read_digits] in Hr. rewrite Hd in Hr. cbn [mbind option_bind] in Hr.
  case_bool_decide; [|done]. cbn [String.length hex_digits]. f_equal; [|by eapply IH].
  pose proof (read_digits_bounds _ _ _ _ Hr) as Hb. fold (str_len s).
  assert (n / 16 ^ str_len s = acc * 16 + d)%N as ->.
  { symmetry. apply (N.div_unique _ _ _ (n - (acc * 16 + d) * 16 ^ str_len s)); lia. }
  replace ((acc * 16 + d) mod 16)%N with d; [done|].
  rewrite (N.add_comm (acc * 16)), N.Div0.mod_add, N.mod_small by done. done.
Qed.

(** Without a sign, the digits are all there is. *)
Lemma from_str_radix_hex max s :
  s ≠ "" → all_chars lower_hex s = true → from_str_radix 16 max s = read_digits 16 max 0 s.
Proof.
  destruct s as [|c s]; [done|]. intros _ Hl. unfold from_str_radix.
  rewrite decide_False; [done|]. intros ->. by vm_compute in Hl.
Qed.

#[global] Arguments hex_digits : simpl never.
