(* ===== verification/TypedPayload.v ===== *)
(** * The typed payload

    [haystack-core/src/codecs/typed.rs]: a value becomes a tree of wire values
    in which numbers are canonical text and dicts are in key order, the tree
    becomes a JSON document, and a document is read back under bounds on its
    size, depth and number of nodes, without duplicate fields.

    JSON text and the [serde] derives are the class [SerdeJson]: the document
    a byte string denotes is a [Doc], in which an object may repeat a key; the
    visitor [Seed] that turns it into a [Value] is modelled.  The calendar of
    [chrono] and standard Base64 are the classes [Chrono] and [Base64].  The
    code's nesting limit of 64 is the fuel of [to_wire]. *)

From Stdlib Require Import Ascii.
From stdpp Require Import pretty.
From S2P Require Import Prelude Floats Kinds Size Text WireText.

Abbreviation bytes := (list Byte.byte).

(** [PayloadLimits] and its default. *)
Record PayloadLimits : Type := mkPayloadLimits { max_bytes : N; max_depth : N; max_nodes : N }.
Definition default_payload_limits : PayloadLimits := mkPayloadLimits 1048576 64 100000.

Inductive TypedPayloadError : Type :=
| InvalidPayloadLimits
| ByteLimit (limit : N)
| Invalid (message : string)
| UnsupportedVersion (version : N).

(** ** The wire tree *)

Record WireColumnOf (A : Type) : Type := mkWireColumn { wc_name : string; wc_meta : list (string * A) }.
Arguments mkWireColumn {A}.
Arguments wc_name {A}.
Arguments wc_meta {A}.

(** [WireValue]; a [BTreeMap] is the list of its entries in key order. *)
#[warnings="-register-all"]
Inductive WireValue : Type :=
| WNull
| WNone
| WMarker
| WNa
| WRemove
| WBool (value : bool)
| WInt (value : string)
| WFloat (bits : string)
| WNumber (bits : string) (unit : option string)
| WStr (value : string)
| WRef (value : string) (display : option string)
| WUri (value : string)
| WSymbol (value : string)
| WDate (value : string)
| WTime (seconds nanos : N)
| WDateTime (seconds : string) (nanos : N) (offset : Z) (timezone : string)
| WCoord (lat lng : string)
| WXstr (name value : string)
| WBuf (base64 : string)
| WNominal (spec catalog revision value : string)
| WList (items : list WireValue)
| WDict (tags : list (string * WireValue))
| WGrid (meta : list (string * WireValue)) (cols : list (WireColumnOf WireValue))
    (rows : list (list (string * WireValue))).
Abbreviation WireTags := (list (string * WireValue)).
Abbreviation WireColumn := (WireColumnOf WireValue).

(** [Envelope]. *)
Record Envelope : Type := mkEnvelope { env_version : N; env_value : WireValue }.

(** ** JSON documents *)

(** What a byte string denotes: numbers are integers in the range of [i64] or
    [u64], or floats; an object is the list of its members. *)
#[warnings="-register-all"]
Inductive Doc : Type :=
| DNull
| DBool (b : bool)
| DInt (z : Z)
| DFloat (f : F64.f64)
| DStr (s : string)
| DArr (items : list Doc)
| DObj (members : list (string * Doc)).

(** [serde_json::Value]. *)
#[warnings="-register-all"]
Inductive Value : Type :=
| VNull
| VBool (b : bool)
| VInt (z : Z)
| VFloat (f : F64.f64)
| VStr (s : string)
| VArr (items : list Value)
| VObj (members : gmap string Value).

(** The derived serializers and the JSON text; [refusal] is the text of the
    error reported for a document that is not accepted under the limits. *)
Class SerdeJson : Type := {
  to_vec : Envelope → result string bytes;
  tokens : bytes → option Doc;
  refusal : PayloadLimits → bytes → string;
  from_value : Value → result string Envelope
}.

(** Finite floats. *)
Definition is_finite (f : F64.f64) : bool :=
  bool_decide (F64.magnitude f < 0x7FF0000000000000)%Z.

(** [Seed] as deserialization seed and as visitor: one node and its children,
    with the count of nodes so far. *)
Fixpoint seed (l : PayloadLimits) (depth : N) (d : Doc) (nodes : N) : result unit (Value * N) :=
  if bool_decide (max_depth l < depth)%N then Err ()
  else if bool_decide (max_nodes l ≤ nodes)%N then Err ()
  else
    let nodes := (nodes + 1)%N in
    match d with
    | DNull => Ok (VNull, nodes)
    | DBool b => Ok (VBool b, nodes)
    | DInt z => Ok (VInt z, nodes)
    | DFloat f => if is_finite f then Ok (VFloat f, nodes) else Err ()
    | DStr s => Ok (VStr s, nodes)
    | DArr items =>
        let? s := try_fold (λ s item,
          let? r := seed l (depth + 1) item s.2 in Ok (s.1 ++ [r.1], r.2)) ([], nodes) items in
        Ok (VArr s.1, s.2)
    | DObj members =>
        let? s := try_fold (λ s member,
          if bool_decide (is_Some (s.1 !! member.1)) then Err ()
          else let? r := seed l (depth + 1) member.2 s.2 in
               Ok (<[member.1 := r.1]> s.1, r.2)) (∅ : gmap string Value, nodes) members in
        Ok (VObj s.1, s.2)
    end.

(** [json.get("version")] as a [u32]. *)
Definition json_version (v : Value) : option N :=
  match v with
  | VObj members =>
      match members !! "version" with
      | Some (VInt z) => if bool_decide (0 ≤ z ≤ Z.of_N u32_max)%Z then Some (Z.to_N z) else None
      | _ => None
      end
  | _ => None
  end.

(** What is serialized is read back, whenever the limits let it. *)
Class SerdeJsonLaws `{SerdeJson} : Prop := {
  to_vec_tokens e b : to_vec e = Ok b → is_Some (tokens b);
  serde_roundtrip e b d l j n :
    to_vec e = Ok b → tokens b = Some d → seed l 0 d 0 = Ok (j, n) →
    (env_version e ≤ u32_max)%N → json_version j = Some (env_version e) ∧ from_value j = Ok e
}.

Section bounded_json.
Context `{SerdeJson}.

(** [bounded_json]. *)
Definition bounded_json (b : bytes) (l : PayloadLimits) : result TypedPayloadError Value :=
  if (max_bytes l =? 0)%N || (max_nodes l =? 0)%N || negb (bool_decide (1 ≤ max_depth l ≤ 64)%N)
  then Err InvalidPayloadLimits
  else if (max_bytes l <? len b)%N then Err (ByteLimit (max_bytes l))
  else match tokens b with
  | None => Err (Invalid (refusal l b))
  | Some d =>
      match seed l 0 d 0 with
      | Ok (v, _) => Ok v
      | Err _ => Err (Invalid (refusal l b))
      end
  end.
End bounded_json.

(** ** Scalars *)

(** The dates and instants of [chrono] among the numbers that stand for them,
    their text, and the split of an instant into seconds and nanoseconds;
    [instant_from] is [DateTime::from_timestamp(seconds, 0)] followed by
    [naive_utc().with_nanosecond(nanos)]. *)
Class Chrono : Type := {
  is_date : Z → Prop;
  date_text : Z → string;
  parse_date : string → option Z;
  is_instant : Z → Prop;
  timestamp : Z → Z;
  subsec_nanos : Z → N;
  instant_from : Z → N → option Z
}.
Class ChronoLaws `{Chrono} : Prop := {
  date_roundtrip d : is_date d → parse_date (date_text d) = Some d;
  parse_date_is t d : parse_date t = Some d → is_date d;
  timestamp_i64 i : is_instant i → is_i64 (timestamp i);
  instant_roundtrip i : is_instant i → instant_from (timestamp i) (subsec_nanos i) = Some i;
  instant_from_is s n i : instant_from s n = Some i → is_instant i
}.

Class Base64 : Type := { b64_encode : bytes → string; b64_decode : string → result string bytes }.
Class Base64Laws `{Base64} : Prop := { b64_roundtrip l : b64_decode (b64_encode l) = Ok l }.

(** [bits] and [parse_bits]. *)
Definition bits (f : F64.f64) : string := hex_digits 16 (Z.to_N (F64.to_bits f)).
Definition parse_bits (text : string) : result TypedPayloadError F64.f64 :=
  if negb (bool_decide (String.length text = 16)) || negb (all_chars lower_hex text)
  then Err (Invalid "float bits require 16 lowercase hexadecimal digits")
  else match from_str_radix 16 u64_max text with
  | Some n => Ok (F64.from_bits (Z.of_N n))
  | None => Err (Invalid "number too large to fit in target type")
  end.

(** [parse_int]. *)
Definition parse_int (text : string) : result TypedPayloadError Z :=
  match parse_i64 text with
  | None => Err (Invalid "integer outside signed 64-bit range or invalid decimal")
  | Some z =>
      if bool_decide (pretty z = text) then Ok z
      else Err (Invalid "integer must be canonical decimal (no plus, leading zeros or negative zero)")
  end.

(** [text.chars().any(char::is_whitespace)]. *)
Fixpoint any_whitespace (s : string) : bool :=
  match s with
  | EmptyString => false
  | String _ s' => bool_decide (is_Some (space_rest s)) || any_whitespace s'
  end.

(** [NominalScalar::new]. *)
Definition nominal_new (spec catalog revision text : string) : option NominalScalar :=
  let qualified := match split_once "::" spec with
    | Some (lib, name) =>
        negb (bool_decide (lib = "")) && negb (bool_decide (name = "")) &&
        negb (contains_char ":"%char name) && negb (contains_char ":"%char lib) &&
        negb (any_whitespace spec)
    | None => false
    end in
  if negb qualified || bool_decide (catalog = "") || bool_decide (revision = "") then None
  else Some (mkNominal spec catalog revision text).
Definition nominal_error : string :=
  "nominal scalar requires a qualified library::Spec and nonempty catalog identity/revision".

(** [NaiveTime::from_num_seconds_from_midnight_opt(seconds, 0)] followed by
    [with_nanosecond]. *)
Definition time_from (seconds nanos : N) : option NaiveTime :=
  if bool_decide (seconds < 86400)%N && bool_decide (nanos < 2000000000)%N
  then Some (mkTime (Z.of_N seconds) (Z.of_N nanos)) else None.

(** [FixedOffset::east_opt]. *)
Definition offset_ok (offset : Z) : bool := bool_decide (-86400 < offset < 86400)%Z.

(** ** Values to wire and back *)

(** Collecting fallible items: the first error ends it. *)
Fixpoint try_map {E A B} (f : A → result E B) (l : list A) : result E (list B) :=
  match l with
  | [] => Ok []
  | a :: l => let? b := f a in let? l := try_map f l in Ok (b :: l)
  end.

(** [!names.insert(name)] for some name. *)
Definition duplicated (names : list string) : bool := negb (bool_decide (NoDup names)).

Section wire.
Context {HO : HashOrder} {CH : Chrono} {B6 : Base64}.

(** [to_tags], over what is done with a value. *)
Definition to_tags (f : Kind → result TypedPayloadError WireValue) (d : HDict)
    : result TypedPayloadError WireTags :=
  let? l := try_map (λ tv, let? w := f tv.2 in Ok (tv.1, w)) (HDict.iter d) in
  Ok (merge_sort key_le l).

(** [to_wire] with [n] levels left. *)
Fixpoint to_wire (n : nat) (v : Kind) : result TypedPayloadError WireValue :=
  match n with
  | 0 => Err (Invalid "value nesting exceeds 64")
  | S n =>
      match v with
      | KNull => Ok WNull
      | KNone => Ok WNone
      | KMarker => Ok WMarker
      | KNA => Ok WNa
      | KRemove => Ok WRemove
      | KBool b => Ok (WBool b)
      | KInt z => Ok (WInt (pretty z))
      | KFloat f => Ok (WFloat (bits f))
      | KNumber x => Ok (WNumber (bits (num_val x)) (num_unit x))
      | KStr s => Ok (WStr s)
      | KRef r => Ok (WRef (ref_val r) (ref_dis r))
      | KUri s => Ok (WUri s)
      | KSymbol s => Ok (WSymbol s)
      | KDate d => Ok (WDate (date_text d))
      | KTime t => Ok (WTime (Z.to_N (time_secs t)) (Z.to_N (time_frac t)))
      | KDateTime t =>
          Ok (WDateTime (pretty (timestamp (dt_instant t))) (subsec_nanos (dt_instant t))
                (dt_offset t) (dt_tz t))
      | KCoord c => Ok (WCoord (bits (coord_lat c)) (bits (coord_lng c)))
      | KXStr x => Ok (WXstr (xstr_type x) (xstr_val x))
      | KBuf b => Ok (WBuf (b64_encode b))
      | KNominal s => Ok (WNominal (nom_spec s) (nom_catalog s) (nom_revision s) (nom_text s))
      | KList items => let? items := try_map (to_wire n) items in Ok (WList items)
      | KDict d => let? tags := to_tags (to_wire n) d in Ok (WDict tags)
      | KGrid g =>
          if duplicated (col_name <$> grid_cols g) then Err (Invalid "duplicate grid column")
          else
            let tags := to_tags (to_wire (Nat.pred n)) in
            let? meta := tags (grid_meta g) in
            let? cols := try_map (λ c,
              let? meta := tags (col_meta c) in Ok (mkWireColumn (col_name c) meta)) (grid_cols g) in
            let? rows := try_map tags (grid_rows g) in
            Ok (WGrid meta cols rows)
      end
  end.

(** [from_tags], over what is done with a value. *)
Definition from_tags (f : WireValue → result TypedPayloadError Kind) (tags : WireTags)
    : result TypedPayloadError HDict :=
  try_fold (λ d tw, let? v := f tw.2 in Ok (HDict.set d tw.1 v)) HDict.new tags.

(** [from_wire]. *)
Fixpoint from_wire (w : WireValue) : result TypedPayloadError Kind :=
  match w with
  | WNull => Ok KNull
  | WNone => Ok KNone
  | WMarker => Ok KMarker
  | WNa => Ok KNA
  | WRemove => Ok KRemove
  | WBool b => Ok (KBool b)
  | WInt s => let? z := parse_int s in Ok (KInt z)
  | WFloat s => let? f := parse_bits s in Ok (KFloat f)
  | WNumber s unit => let? f := parse_bits s in Ok (KNumber (mkNumber f unit))
  | WStr s => Ok (KStr s)
  | WRef s display => Ok (KRef (mkHRef s display))
  | WUri s => Ok (KUri s)
  | WSymbol s => Ok (KSymbol s)
  | WDate s => let? d := ok_or (parse_date s) (Invalid "invalid date") in Ok (KDate d)
  | WTime seconds nanos =>
      let? t := ok_or (time_from seconds nanos) (Invalid "invalid time seconds or nanoseconds") in
      Ok (KTime t)
  | WDateTime seconds nanos offset timezone =>
      if negb (offset_ok offset) then Err (Invalid "invalid datetime offset")
      else
        let? s := parse_int seconds in
        let? i := ok_or (instant_from s nanos) (Invalid "invalid datetime timestamp or nanoseconds") in
        Ok (KDateTime (mkDateTime i offset timezone))
  | WCoord lat lng =>
      let? a := parse_bits lat in let? b := parse_bits lng in Ok (KCoord (mkCoord a b))
  | WXstr name value => Ok (KXStr (mkXStr name value))
  | WBuf base64 =>
      let? b := map_err Invalid (b64_decode base64) in
      if bool_decide (b64_encode b = base64) then Ok (KBuf b) else Err (Invalid "noncanonical base64")
  | WNominal spec catalog revision value =>
      let? s := ok_or (nominal_new spec catalog revision value) (Invalid nominal_error) in
      Ok (KNominal s)
  | WList items => let? items := try_map from_wire items in Ok (KList items)
  | WDict tags => let? d := from_tags from_wire tags in Ok (KDict d)
  | WGrid meta cols rows =>
      let? cols := try_map (λ c,
        let? meta := from_tags from_wire (wc_meta c) in Ok (mkHCol (wc_name c) meta)) cols in
      if duplicated (col_name <$> cols) then Err (Invalid "duplicate grid column")
      else
        let? meta := from_tags from_wire meta in
        let? rows := try_map (from_tags from_wire) rows in
        Ok (KGrid (HGrid.from_parts meta cols rows))
  end.
End wire.

(** ** The codec *)

Module Typed.
Section codec.
Context {HO : HashOrder} {CH : Chrono} {B6 : Base64} {SJ : SerdeJson}.

(** [encode]. *)
Definition encode (v : Kind) : result TypedPayloadError bytes :=
  match ValueBudget.value (ValueBudget.new 4000000 (32 * 1024 * 1024) 64) v 0 with
  | Err _ => Err (Invalid "typed encoding input exceeds limits")
  | Ok _ =>
      let? w := to_wire (ValueBudget.levels 64 0) v in
      let? b := map_err Invalid (to_vec (mkEnvelope 1 w)) in
      let? _ := bounded_json b default_payload_limits in
      Ok b
  end.

(** [decode_with_limits] and [decode]. *)
Definition decode_with_limits (b : bytes) (l : PayloadLimits) : result TypedPayloadError Kind :=
  let? json := bounded_json b l in
  match json_version json with
  | None => Err (Invalid "version must be a u32")
  | Some version =>
      if negb (version =? 1)%N then Err (UnsupportedVersion version)
      else
        let? e := map_err Invalid (from_value json) in
        from_wire (env_value e)
  end.
Definition decode (b : bytes) : result TypedPayloadError Kind :=
  decode_with_limits b default_payload_limits.
End codec.
End Typed.
