(* ===== verification/TypedFacts.v ===== *)
(** * The typed payload read back

    Reading inverts writing: [from_wire] undoes [to_wire] on every value the
    Rust types admit, whatever order a dict is enumerated in ([wire_roundtrip]);
    and what is read is such a value ([from_wire_typed]).  [to_wire] refuses
    only what the code means to refuse ([to_wire_total]). *)

From Stdlib Require Import Ascii.
From stdpp Require Import pretty.
From S2P Require Import Prelude Floats Kinds Size Text WireText TypedPayload.

(** ** Values the Rust types admit *)

Section typed.
Context {CH : Chrono}.

Definition scalar_ok (v : Kind) : Prop :=
  match v with
  | KInt z => is_i64 z
  | KDate d => is_date d
  | KTime t => (0 ≤ time_secs t < 86400)%Z ∧ (0 ≤ time_frac t < 2000000000)%Z
  | KDateTime t => is_instant (dt_instant t) ∧ offset_ok (dt_offset t) = true
  | KNominal s => nominal_new (nom_spec s) (nom_catalog s) (nom_revision s) (nom_text s) = Some s
  | KList _ | KDict _ | KGrid _ => False
  | _ => True
  end.

Inductive typed : Kind → Prop :=
| typed_scalar v : scalar_ok v → typed v
| typed_list l : (∀ v, v ∈ l → typed v) → typed (KList l)
| typed_dict d : (∀ k v, d !! k = Some v → typed v) → typed (KDict d)
| typed_grid g :
    (∀ k v, grid_meta g !! k = Some v → typed v) →
    (∀ c k v, c ∈ grid_cols g → col_meta c !! k = Some v → typed v) →
    (∀ r k v, r ∈ grid_rows g → r !! k = Some v → typed v) →
    typed (KGrid g).

Definition typed_row (d : HDict) : Prop := ∀ k v, d !! k = Some v → typed v.

Lemma typed_list_inv l : typed (KList l) → ∀ v, v ∈ l → typed v.
Proof. by inversion 1. Qed.
Lemma typed_dict_inv d : typed (KDict d) → typed_row d.
Proof. by inversion 1. Qed.
Lemma typed_grid_inv g : typed (KGrid g) →
  typed_row (grid_meta g) ∧ (∀ c, c ∈ grid_cols g → typed_row (col_meta c)) ∧
  (∀ r, r ∈ grid_rows g → typed_row r).
Proof. inversion 1; [done|]. unfold typed_row. naive_solver. Qed.
End typed.

(** ** Loops over fallible bodies *)

Section loops.
Context {E A B : Type}.

Lemma try_map_Forall2 (f : A → result E B) l k :
  try_map f l = Ok k ↔ Forall2 (λ a b, f a = Ok b) l k.
Proof.
  revert k. induction l as [|a l IH]; intros k; simpl.
  - split; [by intros [= <-]|]. by inversion 1.
  - split.
    + destruct (f a) as [b|] eqn:Ha; [|done]. destruct (try_map f l) as [k'|] eqn:Hl; [|done].
      intros [= <-]. constructor; [done|]. by apply IH.
    + inversion 1; subst. by erewrite (proj2 (IH _)); [|done]; destruct (f a); simplify_eq.
Qed.

Lemma Forall2_impl_in {C} (P Q : A → C → Prop) l k :
  Forall2 P l k → (∀ a c, a ∈ l → P a c → Q a c) → Forall2 Q l k.
Proof.
  induction 1 as [|a c l k Hac _ IH]; intros HQ; constructor.
  - apply HQ; [left|done].
  - apply IH. intros a' c' Ha'. apply HQ. by right.
Qed.

Lemma try_map_inverse {C} (f : A → result E B) (g : B → result C A) l k :
  (∀ a b, a ∈ l → f a = Ok b → g b = Ok a) → try_map f l = Ok k → Forall2 (λ b a, g b = Ok a) k l.
Proof.
  intros Hfg Hl%try_map_Forall2. apply Forall2_flip.
  by eapply Forall2_impl_in; [exact Hl|intros a b Ha Hab; simpl; eauto].
Qed.

Lemma Forall2_lookups {C} (R : A → C → Prop) l k :
  Forall2 R l k → ∀ c, c ∈ k → ∃ a, a ∈ l ∧ R a c.
Proof.
  induction 1 as [|a c l k Hac _ IH]; intros c'; [by intros ?%elem_of_nil|].
  rewrite elem_of_cons. intros [->|Hc]; [exists a; split; [left|done]|].
  destruct (IH _ Hc) as (a' & ? & ?). exists a'. split; [by right|done].
Qed.
End loops.

(** [dict.set] over a list of entries. *)
Lemma foldl_set (kvs : list (string * Kind)) (m : HDict) :
  NoDup kvs.*1 → foldl (λ d kv, HDict.set d kv.1 kv.2) m kvs = list_to_map kvs ∪ m.
Proof.
  revert m. induction kvs as [|[k v] kvs IH]; intros m Hnd; simpl; [by rewrite map_empty_union|].
  inversion_clear Hnd as [|?? Hk Hnd']. rewrite IH by done. unfold HDict.set. simpl.
  rewrite <-insert_union_l. symmetry. apply insert_union_r. by apply not_elem_of_list_to_map_1.
Qed.

(** ** Dicts *)

Section tags.
Context {HO : HashOrder} {HL : HashOrderLaws}.

Lemma from_tags_entries (g : WireValue → result TypedPayloadError Kind) tags kvs m :
  Forall2 (λ kv tw, tw.1 = kv.1 ∧ g tw.2 = Ok kv.2) kvs tags →
  try_fold (λ d tw, let? v := g tw.2 in Ok (HDict.set d tw.1 v)) m tags =
  Ok (foldl (λ d kv, HDict.set d kv.1 kv.2) m kvs).
Proof.
  intros Hf. revert m. induction Hf as [|[k v] [t w] kvs tags [Hk Hv] _ IH]; intros m; simpl; [done|].
  simpl in Hk, Hv. subst t. rewrite Hv. apply IH.
Qed.

(** Writing a dict and reading it. *)
Lemma tags_roundtrip f g (d : HDict) tags :
  (∀ k v w, d !! k = Some v → f v = Ok w → g w = Ok v) →
  to_tags f d = Ok tags → from_tags g tags = Ok d.
Proof.
  intros Hfg. unfold to_tags, from_tags. destruct (try_map _ _) as [l|] eqn:Hl; [|done].
  intros [= <-]. apply try_map_Forall2 in Hl.
  assert (Hr : Forall2 (λ tw kv, tw.1 = kv.1 ∧ g tw.2 = Ok kv.2) l (HDict.iter d)).
  { apply Forall2_flip. eapply Forall2_impl_in; [exact Hl|].
    intros [k v] [t w] Hk%HDict.elem_of_iter Hw. simpl in *.
    destruct (f v) as [w'|] eqn:Hv; simplify_eq. eauto. }
  destruct (Permutation_Forall2 (Permutation_sym (merge_sort_Permutation key_le l)) Hr)
    as (kvs & Hp & Hkvs).
  rewrite (from_tags_entries g _ kvs) by by apply Forall2_flip.
  assert (Hnd : NoDup kvs.*1) by (rewrite <-Hp; apply NoDup_hash_keys).
  rewrite foldl_set by done. unfold HDict.new. rewrite (right_id_L ∅ (∪)). f_equal.
  rewrite (list_to_map_proper kvs (map_to_list d)); [apply list_to_map_to_list|done|].
  rewrite <-Hp. apply hash_iter_perm.
Qed.

(** What is read into a dict. *)
Lemma from_tags_values (P : Kind → Prop) (g : WireValue → result TypedPayloadError Kind) tags m d :
  (∀ t w v, (t, w) ∈ tags → g w = Ok v → P v) → (∀ k v, m !! k = Some v → P v) →
  try_fold (λ d tw, let? v := g tw.2 in Ok (HDict.set d tw.1 v)) m tags = Ok d →
  ∀ k v, d !! k = Some v → P v.
Proof.
  revert m. induction tags as [|[t w] tags IH]; intros m HP Hm; simpl; [by intros [= <-]|].
  destruct (g w) as [x|] eqn:Hg; [|done]. intros Hd. eapply IH; [| |exact Hd].
  - intros t' w' v' Hin. apply (HP t'). by right.
  - intros k v. unfold HDict.set. rewrite lookup_insert. case_decide; [|apply Hm].
    intros [= <-]. eapply HP; [left|done].
Qed.
End tags.

(** ** Scalars *)

Lemma parse_bits_bits f : parse_bits (bits f) = Ok f.
Proof.
  unfold parse_bits, bits. rewrite hex_digits_length, hex_digits_lower. cbn [negb orb]. rewrite bool_decide_true by done. cbn [negb orb].
  pose proof (F64.to_bits_bound f) as Hf.
  rewrite from_str_radix_hex, read_hex; [| | |apply hex_digits_nonempty; lia|apply hex_digits_lower].
  - f_equal. apply F64.to_bits_inj. unfold F64.from_bits. cbn [F64.to_bits].
    rewrite N.mul_0_l, N.add_0_l, Z2N.id by lia. apply Z.mod_small. lia.
  - change (16 ^ N.of_nat 16)%N with (2 ^ 64)%N. lia.
  - unfold u64_max. lia.
Qed.

Lemma parse_int_pretty z : is_i64 z → parse_int (pretty z) = Ok z.
Proof. intros Hz. unfold parse_int. rewrite parse_i64_pretty by done. by rewrite bool_decide_true. Qed.

Lemma read_digits_max radix max acc s n : read_digits radix max acc s = Some n → (acc ≤ max)%N → (n ≤ max)%N.
Proof.
  revert acc. induction s as [|c s IH]; intros acc; simpl; [by intros [= <-]|].
  destruct (to_digit radix c); [|done]. simpl. case_bool_decide; [|done]. eauto.
Qed.
Lemma parse_int_i64 s z : parse_int s = Ok z → is_i64 z.
Proof.
  unfold parse_int. destruct (parse_i64 s) as [y|] eqn:Hp; [|done].
  case_bool_decide; [|done]. intros [= <-]. revert Hp. unfold parse_i64, is_i64.
  destruct s as [|c s]; [done|]. case_decide.
  - destruct s as [|c' s]; [done|]. destruct (read_digits _ _ _ _) as [n|] eqn:Hr; [|done].
    apply read_digits_max in Hr; [|lia]. intros [= <-]. lia.
  - destruct (from_str_radix _ _ _) as [n|] eqn:Hr; [|done]. intros [= <-].
    assert (n ≤ i64_max)%N; [|unfold i64_max in *; lia]. revert Hr. unfold from_str_radix.
    case_decide; [destruct s; [done|]|]; intros Hr%read_digits_max; done.
Qed.

(** ** Values *)

Section wire.
Context {HO : HashOrder} {HL : HashOrderLaws} {CH : Chrono} {CL : ChronoLaws}.
Context {B6 : Base64} {BL : Base64Laws}.

(** The containers are where the recursion is. *)
Definition is_scalar (v : Kind) : bool :=
  match v with KList _ | KDict _ | KGrid _ => false | _ => true end.

Lemma scalar_roundtrip n v w :
  scalar_ok v → to_wire (S n) v = Ok w → from_wire w = Ok v.
Proof.
  intros Hs Hw. destruct v; try done; cbn [to_wire] in Hw; injection Hw as <-; cbn [from_wire];
    rewrite ?parse_bits_bits; try done.
  - simpl in Hs. by rewrite parse_int_pretty.
  - rewrite b64_roundtrip. simpl. by rewrite bool_decide_true.
  - simpl in Hs. by rewrite Hs.
  - by destruct v.
  - by destruct v.
  - simpl in Hs. by rewrite date_roundtrip.
  - destruct Hs as [H1 H2]. unfold time_from. rewrite !bool_decide_true by lia. simpl.
    rewrite !Z2N.id by lia. by destruct v.
  - destruct Hs as [H1 H2]. rewrite H2. simpl.
    rewrite parse_int_pretty, instant_roundtrip by auto using timestamp_i64. by destruct v.
  - by destruct v.
  - by destruct v.
Qed.

(** Writing a value and reading it. *)
Lemma wire_roundtrip n v w : typed v → to_wire n v = Ok w → from_wire w = Ok v.
Proof.
  revert v w. induction (lt_wf n) as [n _ IH]; intros v w Ht Hw. destruct n as [|n]; [done|].
  assert (Htags : ∀ m d tags, m < S n → typed_row d →
    to_tags (to_wire m) d = Ok tags → from_tags from_wire tags = Ok d).
  { intros m d tags Hm Hd. apply tags_roundtrip. intros k x y Hx. apply IH; [done|]. by eapply Hd. }
  destruct (is_scalar v) eqn:Hs.
  { apply (scalar_roundtrip n); [|done]. by inversion Ht; subst. }
  destruct v as [| | | | | | | | | | | | | | | | | | | |items|d|g]; try done; cbn [to_wire] in Hw.
  - destruct (try_map _ _) as [l|] eqn:Hl; [|done]. injection Hw as <-. cbn [from_wire].
    erewrite (proj2 (try_map_Forall2 from_wire l items)); [done|].
    eapply try_map_inverse; [|exact Hl]. intros a b Ha. apply IH; [lia|]. by eapply typed_list_inv.
  - destruct (to_tags _ _) as [tags|] eqn:Hd; [|done]. injection Hw as <-. cbn [from_wire].
    by erewrite Htags; [|..|exact Hd]; [|lia|by apply typed_dict_inv].
  - apply typed_grid_inv in Ht as (Hm & Hc & Hr).
    destruct (duplicated _) eqn:Hdup; [done|].
    destruct (to_tags _ _) as [meta|] eqn:Hmeta; [|done].
    destruct (try_map _ (grid_cols g)) as [cols|] eqn:Hcols; [|done].
    destruct (try_map _ (grid_rows g)) as [rows|] eqn:Hrows; [|done].
    injection Hw as <-. cbn [from_wire].
    erewrite (proj2 (try_map_Forall2 _ cols (grid_cols g))).
    2:{ eapply try_map_inverse; [|exact Hcols]. intros c wc Hin. cbn beta.
        destruct (to_tags _ (col_meta c)) as [tags|] eqn:Ht; [|done]. intros [= <-]. cbn [wc_meta wc_name].
        by erewrite Htags; [|..|exact Ht]; [by destruct c|lia|apply Hc]. }
    rewrite Hdup. erewrite Htags; [|..|exact Hmeta]; [|lia|done].
    erewrite (proj2 (try_map_Forall2 _ rows (grid_rows g))); [by destruct g|].
    eapply try_map_inverse; [|exact Hrows]. intros r tags Hin. apply Htags; [lia|by apply Hr].
Qed.
End wire.

(** ** What is read is typed *)

(** Induction over the wire tree. *)
Section wire_ind.
Context (P : WireValue → Prop).
Abbreviation all_tags := (Forall (λ tw : string * WireValue, P tw.2)).
Context (Hscalar : ∀ w, match w with WList _ | WDict _ | WGrid _ _ _ => False | _ => True end → P w).
Context (Hlist : ∀ items, Forall P items → P (WList items)).
Context (Hdict : ∀ tags, all_tags tags → P (WDict tags)).
Context (Hgrid : ∀ meta cols rows, all_tags meta → Forall (λ c, all_tags (wc_meta c)) cols →
  Forall all_tags rows → P (WGrid meta cols rows)).

Lemma wire_ind w : P w.
Proof using All.
  revert w. fix IH 1.
  assert (Htags : ∀ tags, all_tags tags) by
    (fix IHt 1; intros [|[t x] tags]; constructor; [exact (IH x)|exact (IHt tags)]).
  intros w.
  destruct w as [| | | | | | | | | | | | | | | | | | | |items|tags|meta cols rows];
    try (apply Hscalar; exact I).
  - apply Hlist. revert items. fix IHl 1. intros [|x items]; constructor; [exact (IH x)|exact (IHl items)].
  - apply Hdict, Htags.
  - apply Hgrid; [apply Htags| |].
    + revert cols. fix IHc 1. intros [|[name tags] cols]; constructor; [exact (Htags tags)|exact (IHc cols)].
    + revert rows. fix IHr 1. intros [|tags rows]; constructor; [exact (Htags tags)|exact (IHr rows)].
Qed.
End wire_ind.

Section read.
Context {CH : Chrono} {CL : ChronoLaws} {B6 : Base64}.

Lemma nominal_new_ok spec catalog revision text s :
  nominal_new spec catalog revision text = Some s →
  nominal_new (nom_spec s) (nom_catalog s) (nom_revision s) (nom_text s) = Some s.
Proof.
  intros Hs. assert (s = mkNominal spec catalog revision text) as ->; [|done].
  revert Hs. unfold nominal_new. destruct (negb _ || _ || _); congruence.
Qed.

Lemma from_tags_typed tags d :
  Forall (λ tw, ∀ v, from_wire tw.2 = Ok v → typed v) tags →
  from_tags from_wire tags = Ok d → typed_row d.
Proof.
  rewrite Forall_forall. intros Ht Hd. unfold typed_row. eapply (from_tags_values typed); [| |exact Hd].
  - intros t w v Hin. by apply (Ht (t, w)).
  - intros k v. unfold HDict.new. by rewrite lookup_empty.
Qed.

(** The scalars among the wire values. *)
Definition wire_scalar (w : WireValue) : bool :=
  match w with WList _ | WDict _ | WGrid _ _ _ => false | _ => true end.

Lemma from_wire_scalar w v : wire_scalar w = true → from_wire w = Ok v → typed v.
Proof.
  intros Hs Hv. apply typed_scalar. destruct w; try done; cbn [from_wire] in Hv; try (by simplify_eq);
    repeat match type of Hv with context [parse_bits ?s] => destruct (parse_bits s) end; try (by simplify_eq).
  - destruct (parse_int value) as [z|] eqn:Hz; simplify_eq. by eapply parse_int_i64.
  - destruct (parse_date value) as [d|] eqn:Hd; simplify_eq/=. by eapply parse_date_is.
  - unfold time_from in Hv. do 2 case_bool_decide; simplify_eq/=. lia.
  - destruct (offset_ok offset) eqn:Ho; [|done]. simpl in Hv. destruct (parse_int seconds) as [z|]; [|done].
    destruct (instant_from z nanos) as [i|] eqn:Hi; simplify_eq/=. split; [by eapply instant_from_is|done].
  - destruct (b64_decode base64); [|done]. simpl in Hv. by case_bool_decide; simplify_eq.
  - destruct (nominal_new _ _ _ _) as [s|] eqn:Hn; simplify_eq/=. by eapply nominal_new_ok.
Qed.

Lemma try_map_values {A B} (P : B → Prop) (f : A → result TypedPayloadError B) l k :
  Forall (λ a, ∀ b, f a = Ok b → P b) l → try_map f l = Ok k → ∀ b, b ∈ k → P b.
Proof.
  rewrite Forall_forall. intros HP Hk%try_map_Forall2 b Hb.
  destruct (Forall2_lookups _ _ _ Hk b Hb) as (a & Ha & Hab). by eapply HP.
Qed.

Lemma from_wire_typed w v : from_wire w = Ok v → typed v.
Proof.
  revert v. induction w as [w Hs|items Hi|tags Ht|meta cols rows Hm Hc Hr] using wire_ind;
    intros v; cbn [from_wire].
  - apply from_wire_scalar. by destruct w.
  - destruct (try_map _ _) as [l|] eqn:Hl; [|done]. intros [= <-]. apply typed_list.
    by eapply try_map_values.
  - destruct (from_tags _ _) as [d|] eqn:Hd; [|done]. intros [= <-]. apply typed_dict.
    by eapply from_tags_typed.
  - destruct (try_map _ cols) as [cs|] eqn:Hcs; [|done]. destruct (duplicated _); [done|].
    destruct (from_tags _ meta) as [m|] eqn:Hmeta; [|done].
    destruct (try_map _ rows) as [rs|] eqn:Hrs; [|done]. intros [= <-].
    apply typed_grid; cbn [grid_meta grid_cols grid_rows HGrid.from_parts].
    + by eapply from_tags_typed.
    + intros c k v Hin. revert k v. change (typed_row (col_meta c)). revert c Hin.
      eapply try_map_values; [|exact Hcs]. eapply Forall_impl; [exact Hc|]. intros c Hw col. cbn beta.
      destruct (from_tags _ (wc_meta c)) as [d|] eqn:Hd; [|done]. intros [= <-].
      exact (from_tags_typed _ _ Hw Hd).
    + intros r k v Hin. revert k v. change (typed_row r). revert r Hin.
      eapply try_map_values; [|exact Hrs]. eapply Forall_impl; [exact Hr|].
      intros tags Ht r. by apply from_tags_typed.
Qed.
End read.

(** ** What is refused *)

(** A cost that fits at some depth is the same with more levels left. *)
Lemma sum_cost_mono {A} (f g : A → ValueBudget.cost) l c :
  (∀ a c, a ∈ l → f a = Some c → g a = Some c) →
  ValueBudget.sum_cost f l = Some c → ValueBudget.sum_cost g l = Some c.
Proof.
  revert c. induction l as [|a l IH]; intros c Hfg; [done|]. simpl.
  destruct (f a) as [x|] eqn:Ha; [|done].
  destruct (ValueBudget.sum_cost f l) as [y|] eqn:Hl; [|by destruct x].
  rewrite (Hfg a x) by (left || done). unfold ValueBudget.sum_cost in IH |- *.
  rewrite (IH y); [done| |done]. intros b z Hb. apply Hfg. by right.
Qed.

Lemma add_cost_Some x y c :
  ValueBudget.add_cost x y = Some c → ∃ a b, x = Some a ∧ y = Some b ∧ c = (a.1 + b.1, a.2 + b.2)%N.
Proof. destruct x as [[]|], y as [[]|]; try done. intros [= <-]. eauto. Qed.
Lemma add_cost_mono x y x' y' c :
  (∀ a, x = Some a → x' = Some a) → (∀ a, y = Some a → y' = Some a) →
  ValueBudget.add_cost x y = Some c → ValueBudget.add_cost x' y' = Some c.
Proof.
  intros Hx Hy (a & b & Ha & Hb & ->)%add_cost_Some. rewrite (Hx a Ha), (Hy b Hb). by destruct a, b.
Qed.

Section levels.
Context {HO : HashOrder}.

Lemma cost_deeper n :
  (∀ d c, ValueBudget.dict_cost n d = Some c → ValueBudget.dict_cost (S n) d = Some c) ∧
  (∀ v c, ValueBudget.value_cost n v = Some c → ValueBudget.value_cost (S n) v = Some c).
Proof.
  induction n as [|n [IHd IHv]]; [done|]. split.
  - intros d c Hc. change (ValueBudget.dict_cost (S (S n)) d) with
      (ValueBudget.add_cost (Some (1, 128)%N) (ValueBudget.sum_cost (λ '(name, v),
        ValueBudget.add_cost (Some (saturating_add (str_len name) 1, saturating_add (str_len name) 64))
          (ValueBudget.value_cost (S n) v)) (HDict.iter d))).
    eapply add_cost_mono; [done| |exact Hc]. intros a. apply sum_cost_mono.
    intros [name v] b _. apply add_cost_mono; [done|]. apply IHv.
  - intros v c Hc. remember (S n) as m eqn:Hm. cbn [ValueBudget.value_cost]. subst m.
    eapply add_cost_mono; [done| |exact Hc]. destruct v; try done; intros a.
    + apply sum_cost_mono. intros x b _. apply IHv.
    + apply IHd.
    + apply add_cost_mono; [apply IHd|]. intros b. apply add_cost_mono; intros x; apply sum_cost_mono.
      * intros col y _. apply add_cost_mono; [done|apply IHd].
      * intros row y _. apply IHd.
Qed.

Lemma dict_cost_deeper n m d c :
  n ≤ m → ValueBudget.dict_cost n d = Some c → ValueBudget.dict_cost m d = Some c.
Proof. induction 1; [done|]. intros Hc. apply cost_deeper. auto. Qed.
Lemma value_cost_deeper n m v c :
  n ≤ m → ValueBudget.value_cost n v = Some c → ValueBudget.value_cost m v = Some c.
Proof. induction 1; [done|]. intros Hc. apply cost_deeper. auto. Qed.
End levels.

Section total.
Context {HO : HashOrder} {HL : HashOrderLaws} {CH : Chrono} {B6 : Base64}.

Definition refused : TypedPayloadError := Invalid "duplicate grid column".
(** Done, or refused for a repeated column. *)
Definition settled {A} (r : result TypedPayloadError A) : Prop := (∃ a, r = Ok a) ∨ r = Err refused.

Lemma settled_ok {A} (a : A) : settled (Ok a).
Proof. left. eauto. Qed.
Lemma settled_bind {A B} (r : result TypedPayloadError A) (k : A → result TypedPayloadError B) :
  settled r → (∀ a, settled (k a)) → settled (let? a := r in k a).
Proof. intros [[a ->]| ->] Hk; [apply Hk|by right]. Qed.
Lemma settled_try_map {A B} (f : A → result TypedPayloadError B) l :
  (∀ a, a ∈ l → settled (f a)) → settled (try_map f l).
Proof.
  induction l as [|a l IH]; intros Hf; simpl; [apply settled_ok|].
  apply settled_bind; [apply Hf; left|]. intros b.
  apply settled_bind; [apply IH; intros ? ?; apply Hf; by right|]. intros k. apply settled_ok.
Qed.

Lemma sum_cost_elem {A} (f : A → ValueBudget.cost) l c a :
  ValueBudget.sum_cost f l = Some c → a ∈ l → ∃ b, f a = Some b.
Proof.
  revert c. induction l as [|x l IH]; intros c Hc; [by intros ?%elem_of_nil|].
  cbn [ValueBudget.sum_cost foldr] in Hc. apply add_cost_Some in Hc as (y & z & Hy & Hz & _).
  rewrite elem_of_cons. intros [->|Ha]; [eauto|]. by eapply IH.
Qed.
Lemma dict_cost_elem n d c k v :
  ValueBudget.dict_cost n d = Some c → d !! k = Some v →
  ∃ b, ValueBudget.value_cost (Nat.pred n) v = Some b.
Proof.
  destruct n as [|n]; [done|]. cbn [ValueBudget.dict_cost Nat.pred]. intros (y & z & _ & Hz & _)%add_cost_Some Hk.
  eapply sum_cost_elem in Hz as [b Hb]; [|by apply HDict.elem_of_iter].
  cbn beta iota in Hb. apply add_cost_Some in Hb as (? & b' & _ & Hb & _). eauto.
Qed.

Lemma settled_to_tags f d : (∀ k v, d !! k = Some v → settled (f v)) → settled (to_tags f d).
Proof.
  intros Hf. apply settled_bind; [|intros; apply settled_ok]. apply settled_try_map.
  intros [k v] Hk%HDict.elem_of_iter. simpl.
  apply settled_bind; [by eapply Hf|]. intros w. apply settled_ok.
Qed.

(** The budget's depth check leaves nothing for the one of [to_wire] to
    refuse. *)
Lemma to_wire_settled n v c : ValueBudget.value_cost n v = Some c → settled (to_wire n v).
Proof.
  revert v c. induction (lt_wf n) as [n _ IH]; intros v c Hc. destruct n as [|n]; [done|].
  assert (Htags : ∀ d b, ValueBudget.dict_cost n d = Some b → settled (to_tags (to_wire (Nat.pred n)) d)).
  { intros d b Hb. apply settled_to_tags. intros k x Hx.
    destruct (dict_cost_elem _ _ _ _ _ Hb Hx) as [y Hy]. eapply IH; [|exact Hy]. lia. }
  destruct v as [| | | | | | | | | | | | | | | | | | | |items|d|g]; try apply settled_ok;
    cbn [ValueBudget.value_cost] in Hc; apply add_cost_Some in Hc as (x & y & _ & Hy & _); cbn [to_wire].
  - apply settled_bind; [|intros; apply settled_ok]. apply settled_try_map. intros v Hv.
    destruct (sum_cost_elem _ _ _ _ Hy Hv) as [b Hb]. by eapply IH; [lia|].
  - apply settled_bind; [|intros; apply settled_ok]. apply settled_to_tags. intros k v Hv.
    destruct (dict_cost_elem _ _ _ _ _ Hy Hv) as [b Hb]. eapply IH; [lia|].
    eapply value_cost_deeper; [|exact Hb]. lia.
  - destruct (duplicated _); [by right|].
    apply add_cost_Some in Hy as (m & z & Hm & Hz & _).
    apply add_cost_Some in Hz as (cc & rr & Hcols & Hrows & _).
    apply settled_bind; [by eapply Htags|]. intros meta.
    apply settled_bind.
    { apply settled_try_map. intros col Hcol. destruct (sum_cost_elem _ _ _ _ Hcols Hcol) as [b Hb].
      apply add_cost_Some in Hb as (? & b' & _ & Hb & _).
      apply settled_bind; [by eapply Htags|]. intros t. apply settled_ok. }
    intros cols. apply settled_bind; [|intros; apply settled_ok].
    apply settled_try_map. intros row Hrow. destruct (sum_cost_elem _ _ _ _ Hrows Hrow) as [b Hb].
    by eapply Htags.
Qed.
End total.

(** ** The codec *)

Section codec.
Context {HO : HashOrder} {HL : HashOrderLaws} {CH : Chrono} {CL : ChronoLaws}.
Context {B6 : Base64} {BL : Base64Laws} {SJ : SerdeJson} {SL : SerdeJsonLaws}.

Lemma decode_encoded v b : typed v → Typed.encode v = Ok b → Typed.decode b = Ok v.
Proof.
  intros Ht. unfold Typed.encode. destruct (ValueBudget.value _ v 0) as [u|]; [|done].
  destruct (to_wire _ v) as [w|] eqn:Hw; [|done].
  destruct (to_vec _) as [b'|] eqn:Hb; [|done]. cbn [map_err].
  destruct (bounded_json b' _) as [j|] eqn:Hj; [|done]. intros [= <-].
  unfold Typed.decode, Typed.decode_with_limits. rewrite Hj. revert Hj. unfold bounded_json.
  destruct (_ || _ || _); [done|]. destruct (_ <? _)%N; [done|].
  destruct (tokens b') as [d|] eqn:Hd; [|done].
  destruct (seed _ _ _ _) as [[j' n]|] eqn:Hs; [|done]. intros [= ->].
  destruct (serde_roundtrip _ _ _ _ _ _ Hb Hd Hs) as [Hv Hf]; [done|].
  rewrite Hv, Hf. simpl. by eapply wire_roundtrip.
Qed.
End codec.
