(* ===== verification/EntityWire.v ===== *)
(** * The entity protocol on the wire

    [haystack-core/src/codecs/entity.rs]: the messages of entity mutation,
    receipts and the change feed as values in a strict envelope.  The trait
    [EntityWire] is a class; each message type has its instance, [to_kind]
    refusing what is out of bounds and [from_kind] accepting a value only if
    every dict has exactly the expected fields and every number is canonical.
    [encode] and [decode] put the typed payload under it, [to_grid] and
    [from_grid] the one-cell grid, and [decode_grid] the scan that bounds the
    text of that grid before a general codec sees it.

    Arrays of sixteen bytes are byte lists; [usize] is 64 bits wide. *)

From Stdlib Require Import Ascii.
From stdpp Require Import pretty.
From S2P Require Import Prelude Floats Kinds Size Extern Bitmap Adjacency ValueIndex Filter Changelog Graph Prepared WireText TypedPayload.

Definition MAX_PAYLOAD_BYTES : N := 1048576.
Definition MAX_GRID_BYTES : N := (MAX_PAYLOAD_BYTES * 6 + 4096)%N.
Definition MAX_OPERATIONS : N := 128.

(** ** Messages *)

Record OperationIdentity : Type := mkOperationIdentity {
  oi_operation_id : string; oi_dataset : bytes; oi_incarnation : bytes }.
Record EntityBatchRequest : Type := mkBatchRequest {
  br_identity : OperationIdentity; br_expected_revision : N; br_operations : list EntityOperation }.

Inductive ReceiptQualification : Type :=
| EphemeralMemory | ProviderProtocol | PostgresDurable | SqliteDurable.
Record EntityReceipt : Type := mkReceipt {
  er_identity : OperationIdentity;
  er_before_revision : N;
  er_after_revision : N;
  er_span : option CommitSpan;
  er_qualification : ReceiptQualification
}.
Inductive RejectionReason : Type :=
| RInvalid | RForbidden | RConflict | RCapacity | RLimit | RCancelled | RDeadline | RProvider.
Inductive UnknownCause : Type :=
| UMissing | UPending | UProvider | UTransport | UInvalidAcknowledgement.
Inductive MutationOutcome : Type :=
| MCommitted (receipt : EntityReceipt)
| MRejected (identity : OperationIdentity) (reason : RejectionReason)
| MUnknown (identity : OperationIdentity) (cause : UnknownCause).
(** [MutationOutcome::identity]. *)
Definition outcome_identity (o : MutationOutcome) : OperationIdentity :=
  match o with MCommitted r => er_identity r | MRejected i _ | MUnknown i _ => i end.

Record ChangesRequest : Type := mkChangesRequest { ch_cursor : option string; ch_max_diffs : N }.
Record EntityDiff : Type := mkEntityDiff {
  ed_revision : N;
  ed_span : CommitSpan;
  ed_id : string;
  ed_operation : DiffOp;
  ed_changed : HDict;
  ed_previous : option HDict
}.
Record ChangesPage : Type := mkChangesPage {
  cp_dataset : bytes;
  cp_incarnation : bytes;
  cp_head : N;
  cp_floor : N;
  cp_position : N;
  cp_cursor : string;
  cp_complete : bool;
  cp_changes : list EntityDiff
}.

(** ** Pieces of the envelope *)

Abbreviation W := (result TypedPayloadError).
Definition invalid : TypedPayloadError := Invalid "invalid entity-v1 envelope".

Definition dict (entries : list (string * Kind)) : HDict :=
  foldl (λ d kv, HDict.set d kv.1 kv.2) HDict.new entries.
Definition kd (d : HDict) : Kind := KDict d.
Definition text (s : string) : Kind := KStr s.
Definition uint (n : N) : Kind := text (pretty n).

Definition string_of (d : HDict) (k : string) : W string :=
  match HDict.get d k with Some (KStr s) => Ok s | _ => Err invalid end.
Definition number (d : HDict) (k : string) : W N :=
  let? s := string_of d k in
  let? n := ok_or (parse_u64 s) invalid in
  if bool_decide (pretty n = s) then Ok n else Err invalid.
Definition value (d : HDict) (k : string) : W Kind := ok_or (HDict.get d k) invalid.

(** [hex] and [parse_hex]. *)
Fixpoint hex (id : bytes) : string :=
  match id with [] => "" | b :: id => hex_digits 2 (Byte.to_N b) +:+ hex id end.
Definition parse_hex (s : string) : W bytes :=
  if negb (bool_decide (String.length s = 32)) || negb (all_chars lower_hex s) then Err invalid
  else try_map (λ i, ok_or (n ← from_str_radix 16 255 (String.substring (i * 2) 2 s); Byte.of_N n) invalid)
         (seq 0 16).

Definition identity_kind (i : OperationIdentity) : W Kind :=
  if bool_decide (oi_operation_id i = "") || (128 <? str_len (oi_operation_id i))%N
     || any_control (oi_operation_id i)
  then Err invalid
  else Ok (kd (dict [("operationId", text (oi_operation_id i));
                     ("dataset", text (hex (oi_dataset i)));
                     ("incarnation", text (hex (oi_incarnation i)))])).

Definition span_kind (s : option CommitSpan) : Kind :=
  match s with
  | None => KNull
  | Some s => kd (dict [("first", uint (span_first s)); ("last", uint (span_last s))])
  end.

Definition checked_row (v : Kind) : W HDict :=
  match v with KDict d => Ok d | _ => Err invalid end.

Definition envelope (kind : string) (body : Kind) : Kind :=
  kd (dict [("schema", text "entity-v1"); ("type", text kind); ("body", body)]).

(** [validate_receipt]. *)
Definition validate_receipt (r : EntityReceipt) : W unit :=
  if (er_after_revision r <? er_before_revision r)%N ||
     match er_span r with
     | None => negb (er_after_revision r =? er_before_revision r)%N
     | Some s =>
         negb (bool_decide (checked_add u64_max (er_before_revision r) 1 = Some (span_first s)))
         || negb (span_last s =? er_after_revision r)%N
         || (span_last s <? span_first s)%N
     end
  then Err invalid else Ok ().

Definition reason_str (r : RejectionReason) : string :=
  match r with
  | RInvalid => "invalid" | RForbidden => "forbidden" | RConflict => "conflict"
  | RCapacity => "capacity" | RLimit => "limit" | RCancelled => "cancelled"
  | RDeadline => "deadline" | RProvider => "provider"
  end.
Definition parse_reason (s : string) : W RejectionReason :=
  if decide (s = "invalid") then Ok RInvalid
  else if decide (s = "forbidden") then Ok RForbidden
  else if decide (s = "conflict") then Ok RConflict
  else if decide (s = "capacity") then Ok RCapacity
  else if decide (s = "limit") then Ok RLimit
  else if decide (s = "cancelled") then Ok RCancelled
  else if decide (s = "deadline") then Ok RDeadline
  else if decide (s = "provider") then Ok RProvider
  else Err invalid.
Definition cause_str (c : UnknownCause) : string :=
  match c with
  | UMissing => "missing" | UPending => "pending" | UProvider => "provider"
  | UTransport => "transport" | UInvalidAcknowledgement => "invalidAcknowledgement"
  end.
Definition parse_cause (s : string) : W UnknownCause :=
  if decide (s = "missing") then Ok UMissing
  else if decide (s = "pending") then Ok UPending
  else if decide (s = "provider") then Ok UProvider
  else if decide (s = "transport") then Ok UTransport
  else if decide (s = "invalidAcknowledgement") then Ok UInvalidAcknowledgement
  else Err invalid.
Definition qualification_str (q : ReceiptQualification) : string :=
  match q with
  | EphemeralMemory => "ephemeralMemory" | ProviderProtocol => "providerProtocol"
  | PostgresDurable => "postgresDurable" | SqliteDurable => "sqliteDurable"
  end.
Definition parse_qualification (s : string) : W ReceiptQualification :=
  if decide (s = "ephemeralMemory") then Ok EphemeralMemory
  else if decide (s = "providerProtocol") then Ok ProviderProtocol
  else if decide (s = "postgresDurable") then Ok PostgresDurable
  else if decide (s = "sqliteDurable") then Ok SqliteDurable
  else Err invalid.
Definition diff_op_str (o : DiffOp) : string :=
  match o with DAdd => "add" | DUpdate => "patch" | DRemove => "remove" end.
Definition parse_diff_op (s : string) : W DiffOp :=
  if decide (s = "add") then Ok DAdd
  else if decide (s = "patch") then Ok DUpdate
  else if decide (s = "remove") then Ok DRemove
  else Err invalid.

(** [trait EntityWire]. *)
Class EntityWire (T : Type) : Type := {
  to_kind : T → W Kind;
  from_kind : Kind → W T
}.

(** ** The messages as values *)

Section wire.
Context {HO : HashOrder}.

Definition check_kind (v : Kind) : W unit :=
  match ValueBudget.value (ValueBudget.new 1000000 (8 * MAX_PAYLOAD_BYTES) 64) v 0 with
  | Ok _ => Ok ()
  | Err _ => Err invalid
  end.

Definition fields (v : Kind) (names : list string) : W HDict :=
  match v with
  | KDict d =>
      if negb (HDict.length d =? len names)%N
         || existsb (λ n, negb (bool_decide (n ∈ names))) (HDict.tag_names d)
      then Err invalid else Ok d
  | _ => Err invalid
  end.

Definition identity (v : Kind) : W OperationIdentity :=
  let? d := fields v ["operationId"; "dataset"; "incarnation"] in
  let? id := string_of d "operationId" in
  let? ds := string_of d "dataset" in
  let? ds := parse_hex ds in
  let? inc := string_of d "incarnation" in
  let? inc := parse_hex inc in
  let i := mkOperationIdentity id ds inc in
  let? _ := identity_kind i in
  Ok i.

Definition span_of (v : Kind) : W (option CommitSpan) :=
  match v with
  | KNull => Ok None
  | _ =>
      let? d := fields v ["first"; "last"] in
      let? first := number d "first" in
      let? last := number d "last" in
      if (first =? 0)%N || (last <? first)%N then Err invalid else Ok (Some (mkSpan first last))
  end.

Definition body (v : Kind) (kind : string) : W Kind :=
  let? d := fields v ["schema"; "type"; "body"] in
  let? schema := string_of d "schema" in
  if negb (bool_decide (schema = "entity-v1")) then Err invalid
  else
    let? type := string_of d "type" in
    if negb (bool_decide (type = kind)) then Err invalid else value d "body".

Definition row_budget : ValueBudget.t := ValueBudget.new 100000 (4 * MAX_PAYLOAD_BYTES) 48.

(** [measure_rows]. *)
Definition measure_rows (rows : list HDict) : W unit :=
  let? _ := map_err (λ _, invalid)
    (try_fold (λ b row, ValueBudget.dict b row 1) row_budget rows) in
  Ok ().

(** *** Batches *)

Definition target_of (op : EntityOperation) : W string :=
  let? id := map_err (λ _, invalid) (target op) in
  if bool_decide (id = "") || (1024 <? str_len id)%N then Err invalid else Ok id.

(** One round of the loop of [source_bytes]. *)
Definition charge_operation (b : ValueBudget.t) (op : EntityOperation) : W ValueBudget.t :=
  let? id := target_of op in
  map_err (λ _, invalid) (
    let? b := ValueBudget.charge (saturating_add (str_len id) 1) (saturating_add (str_len id) 1024) b in
    match op with
    | OAdd row => ValueBudget.dict b row 1
    | OPatch _ changes => ValueBudget.dict b changes 1
    | ORemove _ => Ok b
    end).

(** [EntityBatchRequest::source_bytes]. *)
Definition source_bytes (r : EntityBatchRequest) : W N :=
  if is_nil (br_operations r) || (MAX_OPERATIONS <? len (br_operations r))%N then Err invalid
  else
    let? _ := identity_kind (br_identity r) in
    let? b := try_fold charge_operation row_budget (br_operations r) in
    Ok (ValueBudget.used_bytes b).

Definition op_kind (op : EntityOperation) : W Kind :=
  let? _ := target_of op in
  Ok (kd match op with
         | OAdd row => dict [("operation", text "add"); ("row", kd row)]
         | OPatch id changes =>
             dict [("operation", text "patch"); ("id", text id); ("changes", kd changes)]
         | ORemove id => dict [("operation", text "remove"); ("id", text id)]
         end).
Definition op_of (v : Kind) : W EntityOperation :=
  match v with
  | KDict raw =>
      let? operation := string_of raw "operation" in
      if decide (operation = "add") then
        let? d := fields v ["operation"; "row"] in
        let? row := value d "row" in
        let? row := checked_row row in
        Ok (OAdd row)
      else if decide (operation = "patch") then
        let? d := fields v ["operation"; "id"; "changes"] in
        let? id := string_of d "id" in
        let? changes := value d "changes" in
        let? changes := checked_row changes in
        Ok (OPatch id changes)
      else if decide (operation = "remove") then
        let? d := fields v ["operation"; "id"] in
        let? id := string_of d "id" in
        Ok (ORemove id)
      else Err invalid
  | _ => Err invalid
  end.

Definition batch_to_kind (r : EntityBatchRequest) : W Kind :=
  let? _ := source_bytes r in
  let? ops := try_map op_kind (br_operations r) in
  let? identity := identity_kind (br_identity r) in
  Ok (envelope "batch" (kd (dict [
    ("identity", identity);
    ("expectedRevision", uint (br_expected_revision r));
    ("operations", KList ops)]))).
Definition batch_from_kind (v : Kind) : W EntityBatchRequest :=
  let? _ := check_kind v in
  let? b := body v "batch" in
  let? d := fields b ["identity"; "expectedRevision"; "operations"] in
  let? ops := value d "operations" in
  match ops with
  | KList ops =>
      if is_nil ops || (MAX_OPERATIONS <? len ops)%N then Err invalid
      else
        let? operations := try_map op_of ops in
        let? i := value d "identity" in
        let? i := identity i in
        let? expected := number d "expectedRevision" in
        let r := mkBatchRequest i expected operations in
        let? _ := batch_to_kind r in
        Ok r
  | _ => Err invalid
  end.
#[export] Instance EntityBatchRequest_wire : EntityWire EntityBatchRequest :=
  {| to_kind := batch_to_kind; from_kind := batch_from_kind |}.

(** *** Receipt requests *)

Definition receipt_request_to_kind (i : OperationIdentity) : W Kind :=
  let? k := identity_kind i in Ok (envelope "receiptRequest" k).
Definition receipt_request_from_kind (v : Kind) : W OperationIdentity :=
  let? _ := check_kind v in
  let? b := body v "receiptRequest" in
  identity b.
#[export] Instance OperationIdentity_wire : EntityWire OperationIdentity :=
  {| to_kind := receipt_request_to_kind; from_kind := receipt_request_from_kind |}.

(** *** Outcomes *)

Definition outcome_to_kind (o : MutationOutcome) : W Kind :=
  let? i := identity_kind (outcome_identity o) in
  let d := dict [("identity", i)] in
  let set (entries : list (string * Kind)) := foldl (λ d kv, HDict.set d kv.1 kv.2) d entries in
  let? d := match o with
    | MCommitted r =>
        let? _ := validate_receipt r in
        Ok (set [("outcome", text "committed");
                 ("beforeRevision", uint (er_before_revision r));
                 ("afterRevision", uint (er_after_revision r));
                 ("span", span_kind (er_span r));
                 ("qualification", text (qualification_str (er_qualification r)))])
    | MRejected _ reason =>
        Ok (set [("outcome", text "rejected"); ("reason", text (reason_str reason))])
    | MUnknown _ cause =>
        Ok (set [("outcome", text "unknown"); ("cause", text (cause_str cause))])
    end in
  Ok (envelope "outcome" (kd d)).
Definition outcome_from_kind (v : Kind) : W MutationOutcome :=
  let? _ := check_kind v in
  let? b := body v "outcome" in
  match b with
  | KDict d =>
      let? i := value d "identity" in
      let? id := identity i in
      let? outcome := string_of d "outcome" in
      if decide (outcome = "committed") then
        let? _ := fields b ["identity"; "outcome"; "beforeRevision"; "afterRevision"; "span";
                            "qualification"] in
        let? before := number d "beforeRevision" in
        let? after := number d "afterRevision" in
        let? s := value d "span" in
        let? s := span_of s in
        let? q := string_of d "qualification" in
        let? q := parse_qualification q in
        let r := mkReceipt id before after s q in
        let? _ := validate_receipt r in
        Ok (MCommitted r)
      else if decide (outcome = "rejected") then
        let? _ := fields b ["identity"; "outcome"; "reason"] in
        let? s := string_of d "reason" in
        let? reason := parse_reason s in
        Ok (MRejected id reason)
      else if decide (outcome = "unknown") then
        let? _ := fields b ["identity"; "outcome"; "cause"] in
        let? s := string_of d "cause" in
        let? cause := parse_cause s in
        Ok (MUnknown id cause)
      else Err invalid
  | _ => Err invalid
  end.
#[export] Instance MutationOutcome_wire : EntityWire MutationOutcome :=
  {| to_kind := outcome_to_kind; from_kind := outcome_from_kind |}.

(** *** Feed requests *)

Definition changes_request_to_kind (r : ChangesRequest) : W Kind :=
  if (ch_max_diffs r =? 0)%N || (MAX_OPERATIONS <? ch_max_diffs r)%N
     || match ch_cursor r with Some s => (1024 <? str_len s)%N | None => false end
  then Err invalid
  else Ok (envelope "changesRequest" (kd (dict [
    ("cursor", match ch_cursor r with Some s => text s | None => KNull end);
    ("maxDiffs", uint (ch_max_diffs r))]))).
Definition changes_request_from_kind (v : Kind) : W ChangesRequest :=
  let? _ := check_kind v in
  let? b := body v "changesRequest" in
  let? d := fields b ["cursor"; "maxDiffs"] in
  let? c := value d "cursor" in
  let? cursor := match c with KNull => Ok None | KStr s => Ok (Some s) | _ => Err invalid end in
  let? max := number d "maxDiffs" in
  let r := mkChangesRequest cursor max in
  let? _ := changes_request_to_kind r in
  Ok r.
#[export] Instance ChangesRequest_wire : EntityWire ChangesRequest :=
  {| to_kind := changes_request_to_kind; from_kind := changes_request_from_kind |}.

(** *** Feed pages *)

(** The rows of a page, as they are measured. *)
Definition page_rows (changes : list EntityDiff) : list HDict :=
  changes ≫= λ c, ed_changed c :: match ed_previous c with Some p => [p] | None => [] end.

Definition change_kind (c : EntityDiff) : Kind :=
  kd (dict [
    ("revision", uint (ed_revision c));
    ("span", span_kind (Some (ed_span c)));
    ("id", text (ed_id c));
    ("operation", text (diff_op_str (ed_operation c)));
    ("changed", kd (ed_changed c));
    ("previous", match ed_previous c with Some d => kd d | None => KNull end)]).

Definition page_to_kind (p : ChangesPage) : W Kind :=
  if (MAX_OPERATIONS <? len (cp_changes p))%N
     || existsb (λ c, bool_decide (ed_id c = "") || (1024 <? str_len (ed_id c))%N) (cp_changes p)
     || bool_decide (cp_cursor p = "") || (1024 <? str_len (cp_cursor p))%N
     || (cp_position p <? cp_floor p)%N || (cp_head p <? cp_position p)%N
  then Err invalid
  else
    let? _ := measure_rows (page_rows (cp_changes p)) in
    Ok (envelope "changesPage" (kd (dict [
      ("dataset", text (hex (cp_dataset p)));
      ("incarnation", text (hex (cp_incarnation p)));
      ("head", uint (cp_head p));
      ("floor", uint (cp_floor p));
      ("position", uint (cp_position p));
      ("cursor", text (cp_cursor p));
      ("complete", KBool (cp_complete p));
      ("changes", KList (change_kind <$> cp_changes p))]))).

(** One round of the loop over the changes of a page. *)
Definition change_of (floor position : N) (st : list EntityDiff * N * option CommitSpan) (item : Kind)
    : W (list EntityDiff * N * option CommitSpan) :=
  let '(changes, last, previous_span) := st in
  let? c := fields item ["revision"; "span"; "id"; "operation"; "changed"; "previous"] in
  let? s := value c "span" in
  let? s := span_of s in
  let? s := ok_or s invalid in
  let? revision := number c "revision" in
  if (revision <? span_first s)%N || (span_last s <? revision)%N || (revision <=? last)%N
     || (span_first s <=? floor)%N || (position <? span_last s)%N
     || match previous_span with
        | Some old => negb (bool_decide (old = s)) && (span_first s <=? span_last old)%N
        | None => false
        end
  then Err invalid
  else
    let? id := string_of c "id" in
    let? operation := string_of c "operation" in
    let? operation := parse_diff_op operation in
    let? changed := value c "changed" in
    let? changed := checked_row changed in
    let? previous := value c "previous" in
    let? previous := match previous with
                     | KNull => Ok None
                     | v => let? d := checked_row v in Ok (Some d)
                     end in
    Ok (changes ++ [mkEntityDiff revision s id operation changed previous], revision, Some s).

Definition page_from_kind (v : Kind) : W ChangesPage :=
  let? _ := check_kind v in
  let? b := body v "changesPage" in
  let? d := fields b ["dataset"; "incarnation"; "head"; "floor"; "position"; "cursor"; "complete";
                      "changes"] in
  let? items := value d "changes" in
  match items with
  | KList items =>
      if (MAX_OPERATIONS <? len items)%N then Err invalid
      else
        let? floor := number d "floor" in
        let? position := number d "position" in
        let? st := try_fold (change_of floor position) ([], 0%N, None) items in
        let '(changes, last, _) := st in
        let? ds := string_of d "dataset" in
        let? ds := parse_hex ds in
        let? inc := string_of d "incarnation" in
        let? inc := parse_hex inc in
        let? head := number d "head" in
        let? cursor := string_of d "cursor" in
        let? c := value d "complete" in
        let? complete := match c with KBool v => Ok v | _ => Err invalid end in
        let r := mkChangesPage ds inc head floor position cursor complete changes in
        let? _ := page_to_kind r in
        if (cp_position r <? last)%N
           || negb (bool_decide (cp_complete r = (cp_position r =? cp_head r)%N))
        then Err invalid else Ok r
  | _ => Err invalid
  end.
#[export] Instance ChangesPage_wire : EntityWire ChangesPage :=
  {| to_kind := page_to_kind; from_kind := page_from_kind |}.
End wire.

(** ** The messages as bytes and grids *)

(** [str::from_utf8]: well-formed byte sequences. *)
Definition in_range (lo hi b : N) : bool := bool_decide (lo ≤ b ≤ hi)%N.
Fixpoint utf8 (l : list N) : bool :=
  match l with
  | [] => true
  | a :: l1 =>
      if (a <? 0x80)%N then utf8 l1
      else match l1 with
      | [] => false
      | b :: l2 =>
          if in_range 0xC2 0xDF a then in_range 0x80 0xBF b && utf8 l2
          else match l2 with
          | [] => false
          | c :: l3 =>
              let cont := in_range 0x80 0xBF in
              if in_range 0xE0 0xEF a then
                (if (a =? 0xE0)%N then in_range 0xA0 0xBF b
                 else if (a =? 0xED)%N then in_range 0x80 0x9F b else cont b)
                && cont c && utf8 l3
              else match l3 with
              | [] => false
              | d :: l4 =>
                  in_range 0xF0 0xF4 a
                  && (if (a =? 0xF0)%N then in_range 0x90 0xBF b
                      else if (a =? 0xF4)%N then in_range 0x80 0x8F b else cont b)
                  && cont c && cont d && utf8 l4
              end
          end
      end
  end.
Definition from_utf8 (b : bytes) : W string :=
  if utf8 (Byte.to_N <$> b) then Ok (String.string_of_list_byte b) else Err invalid.
(** [str::as_bytes] and [String::into_bytes]. *)
Definition as_bytes (s : string) : bytes := String.list_byte_of_string s.

(** [trait Codec], of which a grid codec is used here. *)
Record Codec : Type := mkCodec {
  codec_encode_grid : HGrid → option string;
  codec_decode_grid : string → option HGrid
}.

(** The scan of [decode_grid]. *)
Record Scan : Type := mkScan {
  sc_quoted : bool; sc_escape : bool; sc_syntax : N; sc_strings : N; sc_depth : N }.
Definition scan_step (st : Scan) (b : Byte.byte) : W Scan :=
  let c := Byte.to_N b in
  let '(mkScan quoted escape syntax strings depth) := st in
  if quoted then
    if escape then Ok (mkScan quoted false syntax strings depth)
    else if (c =? 92)%N then Ok (mkScan quoted true syntax strings depth)
    else if (c =? 34)%N then Ok (mkScan false escape syntax strings depth)
    else Ok st
  else
    let syntax := (syntax + 1)%N in
    if (8192 <? syntax)%N then Err invalid
    else if (c =? 34)%N then
      let strings := (strings + 1)%N in
      if (64 <? strings)%N then Err invalid else Ok (mkScan true escape syntax strings depth)
    else if (c =? 91)%N || (c =? 123)%N then
      let depth := (depth + 1)%N in
      if (8 <? depth)%N then Err invalid else Ok (mkScan quoted escape syntax strings depth)
    else if (c =? 93)%N || (c =? 125)%N then
      if (depth =? 0)%N then Err invalid else Ok (mkScan quoted escape syntax strings (depth - 1))
    else Ok (mkScan quoted escape syntax strings depth).
Definition scan (b : bytes) : W unit :=
  let? st := try_fold scan_step (mkScan false false 0 0 0) b in
  if sc_quoted st || negb (sc_depth st =? 0)%N then Err invalid else Ok ().

Module Entity.
Section codec.
Context {HO : HashOrder} {CH : Chrono} {B6 : Base64} {SJ : SerdeJson}.
Context {T : Type} {WT : EntityWire T}.

(** [encode] and [decode]. *)
Definition encode (x : T) : W bytes := let? k := to_kind x in Typed.encode k.
Definition decode (b : bytes) : W T := let? k := Typed.decode b in from_kind k.

(** [to_grid] and [from_grid]. *)
Definition to_grid (x : T) : W HGrid :=
  let? b := encode x in
  let? payload := from_utf8 b in
  Ok (mkHGrid HDict.new [HGrid.col_new "payload"] [dict [("payload", text payload)]]).
Definition from_grid (g : HGrid) : W T :=
  match grid_cols g, grid_rows g with
  | [c], [row] =>
      if negb (HDict.is_empty (grid_meta g)) || negb (bool_decide (col_name c = "payload"))
         || negb (HDict.is_empty (col_meta c)) || negb (HDict.length row =? 1)%N
      then Err invalid
      else let? s := string_of row "payload" in decode (as_bytes s)
  | _, _ => Err invalid
  end.

(** [decode_grid] and [encode_grid]. *)
Definition decode_grid (b : bytes) (codec : Codec) : W T :=
  if (MAX_GRID_BYTES <? len b)%N then Err invalid
  else
    let? source := from_utf8 b in
    let? _ := scan b in
    let? g := ok_or (codec_decode_grid codec source) invalid in
    from_grid g.
Definition encode_grid (x : T) (codec : Codec) : W bytes :=
  let? g := to_grid x in
  let? s := ok_or (codec_encode_grid codec g) invalid in
  let b := as_bytes s in
  if (MAX_GRID_BYTES <? len b)%N then Err invalid else Ok b.
End codec.
End Entity.
