(* ===== verification/EntityWireFacts.v ===== *)
(** * Entity messages: what is accepted is what is written

    For every message type, [from_kind v = Ok x] exactly when [x] is a message
    the Rust types admit and [to_kind x = Ok v]: reading inverts writing, and
    nothing but the written form is accepted.  The class [EntityWireLaws]
    states it and [encode], [decode] and the grid layer are proved against it.

    That a written message passes the reader's own bound is an accounting
    argument: [under] bounds the cost of a value from the costs of its parts,
    and the bounds on the source of a message leave room for the envelope. *)

From Stdlib Require Import Ascii.
From stdpp Require Import pretty.
From S2P Require Import Prelude Floats Kinds Size Extern Bitmap Adjacency ValueIndex Filter Changelog Graph Prepared WireText TypedPayload TypedFacts EntityWire.

(** Splitting a sequence of fallible steps. *)
Tactic Notation "step" hyp(H) ident(x) ident(E) :=
  match type of H with
  | (match ?r with Ok _ => _ | Err _ => _ end) = Ok _ => destruct r as [x|] eqn:E; [|done]
  end.
(** Field names are distinct. *)
Ltac distinct := apply (bool_decide_unpack _); vm_compute; exact I.

(** ** Fields *)

Lemma dict_list_to_map entries : NoDup entries.*1 → dict entries = list_to_map entries.
Proof. intros Hnd. unfold dict. rewrite foldl_set by done. apply (right_id_L ∅ (∪)). Qed.

Section fields.
Context {HO : HashOrder} {HL : HashOrderLaws}.

Lemma fields_Ok v names d :
  NoDup names → fields v names = Ok d ↔ v = KDict d ∧ dom d = list_to_set names.
Proof.
  intros Hnd. assert (Hin : ∀ d : HDict, existsb (λ n, negb (bool_decide (n ∈ names))) (HDict.tag_names d)
    = false ↔ dom d ⊆ list_to_set names).
  { intros e. rewrite <-not_true_iff_false, existsb_exists. split.
    - intros Hx k Hk. apply elem_of_list_to_set. destruct (decide (k ∈ names)) as [|Hn]; [done|].
      exfalso. apply Hx. exists k. rewrite <-list_elem_of_In, HDict.elem_of_tag_names.
      apply elem_of_dom in Hk. by rewrite bool_decide_false.
    - intros Hs (k & Hk & Hn). rewrite <-list_elem_of_In, HDict.elem_of_tag_names, <-elem_of_dom in Hk.
      apply Hs, elem_of_list_to_set in Hk. by rewrite bool_decide_true in Hn. }
  assert (Hsize : size (list_to_set names : gset string) = length names) by by apply size_list_to_set.
  destruct v; try (split; [done|]; by intros [? _]). cbn [fields]. unfold HDict.length, len. split.
  - destruct (N.eqb_spec (N.of_nat (size v)) (N.of_nat (length names))) as [Hl|]; [|done]. cbn [negb orb].
    destruct (existsb _ _) eqn:He; [done|]. intros [= <-]. split; [done|].
    apply Hin in He. apply set_subseteq_size_eq; [done|]. rewrite size_dom. lia.
  - intros [[= ->] Hd]. assert (size d = length names) as -> by (rewrite <-size_dom, Hd; done).
    rewrite N.eqb_refl, (proj2 (Hin d)) by by rewrite Hd. done.
Qed.

Lemma fields_same d names e : fields (KDict d) names = Ok e → e = d.
Proof. cbn [fields]. destruct (_ || _); congruence. Qed.

Lemma fields_dict entries : NoDup entries.*1 → fields (kd (dict entries)) entries.*1 = Ok (dict entries).
Proof.
  intros Hnd. apply fields_Ok; [done|]. split; [done|]. rewrite dict_list_to_map by done.
  apply dom_list_to_map_L.
Qed.

(** A dict with exactly these fields, of which every value is known. *)
Lemma fields_exact v names d entries :
  NoDup names → fields v names = Ok d → entries.*1 = names →
  Forall (λ kv, d !! kv.1 = Some kv.2) entries → v = kd (dict entries).
Proof.
  intros Hnd Hf Hn Hv. subst names. apply fields_Ok in Hf as [-> Hd]; [|done]. unfold kd. f_equal.
  rewrite dict_list_to_map by done. apply map_eq. intros k.
  destruct (list_to_map entries !! k : option Kind) as [x|] eqn:Hx.
  - apply elem_of_list_to_map in Hx; [|done]. rewrite Forall_forall in Hv. exact (Hv _ Hx).
  - apply not_elem_of_list_to_map in Hx. apply not_elem_of_dom. rewrite Hd. by rewrite elem_of_list_to_set.
Qed.
End fields.

Lemma string_of_Ok d k s : string_of d k = Ok s ↔ d !! k = Some (text s).
Proof.
  unfold string_of, HDict.get, text. destruct (d !! k) as [[]|]; split; intros E; simplify_eq; done.
Qed.
Lemma value_Ok d k v : value d k = Ok v ↔ d !! k = Some v.
Proof. unfold value, HDict.get. destruct (d !! k); simpl; split; intros E; simplify_eq; done. Qed.
Lemma parse_u64_max s n : parse_u64 s = Some n → (n ≤ u64_max)%N.
Proof.
  unfold parse_u64, from_str_radix. destruct s as [|c s]; [done|].
  case_decide; [destruct s; [done|]|]; intros Hr%read_digits_max; done.
Qed.
Lemma number_Ok d k n : number d k = Ok n ↔ d !! k = Some (uint n) ∧ (n ≤ u64_max)%N.
Proof.
  unfold number. split.
  - destruct (string_of d k) as [s|] eqn:Hs; [|done]. apply string_of_Ok in Hs.
    destruct (parse_u64 s) as [m|] eqn:Hm; [|done]. cbn [ok_or]. case_bool_decide as E; [|done].
    intros [= <-]. unfold uint. rewrite E. split; [done|]. by eapply parse_u64_max.
  - intros [Hk Hn]. rewrite (proj2 (string_of_Ok d k (pretty n)) Hk), parse_u64_pretty by done.
    simpl. by rewrite bool_decide_true.
Qed.
Lemma checked_row_Ok v d : checked_row v = Ok d ↔ v = kd d.
Proof. unfold kd. destruct v; simpl; split; intros E; simplify_eq; done. Qed.

(** ** Identities in hexadecimal *)

Definition array16 (l : bytes) : Prop := length l = 16.

Lemma substring_hex s l i b :
  s = hex l → l !! i = Some b → String.substring (i * 2) 2 s = hex_digits 2 (Byte.to_N b).
Proof.
  intros ->. revert i. induction l as [|x l IH]; intros i; [done|].
  destruct i as [|i]; cbn [lookup list_lookup]; [intros [= ->]|intros Hi; rewrite <-(IH i Hi)];
    unfold hex_digits; simpl; [|done]. by destruct (hex l).
Qed.

Lemma hex_by_substrings s l :
  String.length s = 2 * length l →
  (∀ i b, l !! i = Some b → String.substring (i * 2) 2 s = hex_digits 2 (Byte.to_N b)) → s = hex l.
Proof.
  revert s. induction l as [|x l IH]; intros s Hlen Hs; [by destruct s|].
  destruct s as [|c1 [|c2 s]]; [simpl in Hlen; lia..|]. cbn [hex]. 
  specialize (Hs 0 x eq_refl) as H0. simpl in H0.
  assert (String.substring 0 0 s = "") as E by by destruct s. rewrite E in H0. rewrite <-H0.
  change (String c1 (String c2 EmptyString) +:+ hex l) with (String c1 (String c2 (hex l))). do 2 f_equal.
  apply IH; [simpl in Hlen; lia|]. intros i b Hi. exact (Hs (S i) b Hi).
Qed.

Lemma string_length_app s t : String.length (s +:+ t) = String.length s + String.length t.
Proof. induction s as [|c s IH]; [done|]. simpl. by rewrite <-IH. Qed.
Lemma hex_length l : String.length (hex l) = 2 * length l.
Proof.
  induction l as [|x l IH]; [done|]. cbn [hex]. rewrite string_length_app, hex_digits_length, IH. simpl. lia.
Qed.
Lemma all_chars_app f s t : all_chars f (s +:+ t) = all_chars f s && all_chars f t.
Proof.
  induction s as [|c s IH]; [done|]. change (String c s +:+ t) with (String c (s +:+ t)).
  cbn [all_chars]. by rewrite IH, andb_assoc.
Qed.
Lemma hex_lower l : all_chars lower_hex (hex l) = true.
Proof. induction l as [|x l IH]; [done|]. cbn [hex]. by rewrite all_chars_app, hex_digits_lower, IH. Qed.
Lemma all_chars_substring f s i n : all_chars f s = true → all_chars f (String.substring i n s) = true.
Proof.
  revert i n. induction s as [|c s IH]; intros i n; destruct i, n; simpl; try done;
    rewrite ?andb_true_iff; intros [Hc Hs]; try (split; [done|]); eauto.
Qed.
Lemma substring_length s i n :
  i + n ≤ String.length s → String.length (String.substring i n s) = n.
Proof.
  revert i n. induction s as [|c s IH]; intros i n Hl; destruct i, n; simpl in *; try lia;
    rewrite ?IH; lia.
Qed.

Lemma byte_of_hex b : from_str_radix 16 255 (hex_digits 2 (Byte.to_N b)) ≫= Byte.of_N = Some b.
Proof. by destruct b. Qed.

(** A strict reader: sixteen bytes, written one way. *)
Lemma parse_hex_Ok s l : parse_hex s = Ok l ↔ array16 l ∧ s = hex l.
Proof.
  unfold parse_hex, array16. split.
  - destruct (bool_decide _) eqn:Hlen; [|done]. apply bool_decide_eq_true in Hlen.
    destruct (all_chars lower_hex s) eqn:Hlow; [|done]. cbn [negb orb]. intros Hm%try_map_Forall2.
    pose proof (Forall2_length _ _ _ Hm) as Hl. rewrite length_seq in Hl. split; [done|].
    apply hex_by_substrings; [lia|]. intros i b Hi.
    destruct (Forall2_lookup_r _ _ _ _ _ Hm Hi) as (j & Hj & Hb). apply lookup_seq in Hj as [-> Hj].
    simpl in Hb. set (t := String.substring (i * 2) 2 s) in *.
    destruct (from_str_radix 16 255 t) as [n|] eqn:Hn; [|done]. simpl in Hb.
    destruct (Byte.of_N n) as [b'|] eqn:Hb'; [|done]. injection Hb as ->.
    apply Byte.to_of_N in Hb' as ->.
    assert (Ht : String.length t = 2) by (apply substring_length; lia).
    assert (Htl : all_chars lower_hex t = true) by by apply all_chars_substring.
    rewrite from_str_radix_hex in Hn; [|by intros Ht'; rewrite Ht' in Ht|done].
    symmetry. rewrite <-Ht. by eapply read_hex_canonical.
  - intros [Hl ->]. rewrite hex_length, hex_lower, Hl. cbn [negb orb]. rewrite bool_decide_true by done.
    cbn [negb orb]. apply try_map_Forall2. apply Forall2_same_length_lookup_2; [by rewrite length_seq|].
    intros i j b Hj Hi. apply lookup_seq in Hj as [-> _]. change (0 + i) with i.
    rewrite (substring_hex _ l i b eq_refl Hi).
    change (ok_or (from_str_radix 16 255 (hex_digits 2 (Byte.to_N b)) ≫= Byte.of_N) invalid = Ok b).
    by rewrite byte_of_hex.
Qed.

(** ** The cost of an envelope *)

Section accounting.
Context {HO : HashOrder} {HL : HashOrderLaws}.

(** The cost of a value is within a bound. *)
Definition within (c : ValueBudget.cost) (b : N * N) : Prop :=
  ∃ x, c = Some x ∧ (x.1 ≤ b.1)%N ∧ (x.2 ≤ b.2)%N.
Definition under (n : nat) (v : Kind) (b : N * N) : Prop := within (ValueBudget.value_cost n v) b.

Lemma within_add c d b e :
  within c b → within d e → within (ValueBudget.add_cost c d) (b.1 + e.1, b.2 + e.2)%N.
Proof.
  intros ([x1 x2] & -> & H1 & H2) ([y1 y2] & -> & H3 & H4).
  exists (x1 + y1, x2 + y2)%N. simpl in *. split; [done|lia].
Qed.
Lemma within_mono c b b' : within c b → (b.1 ≤ b'.1)%N → (b.2 ≤ b'.2)%N → within c b'.
Proof. intros (x & -> & H1 & H2) H3 H4. exists x. split; [done|lia]. Qed.
Lemma within_charge a k : within (Some (saturating_add a 1, saturating_add a k)) (a + 1, a + k)%N.
Proof. eexists. split; [done|]. simpl. unfold saturating_add. lia. Qed.

Definition total (bs : list (N * N)) : N * N := foldr (λ b s, (b.1 + s.1, b.2 + s.2)%N) (0, 0)%N bs.
Lemma within_sum {A} (f : A → ValueBudget.cost) l bs :
  Forall2 (λ a b, within (f a) b) l bs → within (ValueBudget.sum_cost f l) (total bs).
Proof.
  induction 1 as [|a b l bs Hab _ IH]; [by exists (0, 0)%N|].
  cbn [ValueBudget.sum_cost foldr total]. by apply (within_add _ _ b (total bs)).
Qed.

Lemma under_weaken n m v b b' : under n v b → n ≤ m → (b.1 ≤ b'.1)%N → (b.2 ≤ b'.2)%N → under m v b'.
Proof.
  intros (x & Hx & H1 & H2) Hn H3 H4. exists x. split; [by eapply value_cost_deeper|lia].
Qed.

Lemma under_text n s k : (str_len s ≤ k)%N → under (S n) (text s) (k + 1, k + 512)%N.
Proof.
  intros Hs. eapply within_mono; [apply (within_add _ _ (str_len s + 1, str_len s + 512)%N (0, 0)%N);
    [apply within_charge|by exists (0, 0)%N]| |]; simpl; lia.
Qed.
Lemma under_uint n x : (x ≤ u64_max)%N → under (S n) (uint x) (21, 532)%N.
Proof. intros Hx. by apply (under_text n _ 20), pretty_u64_length. Qed.
Lemma under_null n : under (S n) KNull (1, 512)%N.
Proof. by exists (1, 512)%N. Qed.
Lemma under_bool n b : under (S n) (KBool b) (1, 512)%N.
Proof. by exists (1, 512)%N. Qed.
Lemma under_row n d c :
  ValueBudget.dict_cost n d = Some c → under (S n) (kd d) (c.1 + 1, c.2 + 512)%N.
Proof.
  intros Hc. unfold under. cbn [ValueBudget.value_cost kd]. rewrite Hc.
  eapply within_mono; [apply (within_add _ _ (1, 512)%N c); [by exists (1, 512)%N|by exists c]| |];
    simpl; lia.
Qed.
Lemma under_list n items bs :
  Forall2 (under n) items bs → under (S n) (KList items) ((total bs).1 + 1, (total bs).2 + 512)%N.
Proof.
  intros Hf. unfold under. cbn [ValueBudget.value_cost]. eapply within_mono;
    [apply (within_add _ _ (1, 512)%N (total bs)); [by exists (1, 512)%N|by apply within_sum]| |];
    simpl; lia.
Qed.

(** A dict of known entries, each under its bound. *)
Definition entry_total (bs : list (string * (N * N))) : N * N :=
  foldr (λ b s, (str_len b.1 + 1 + b.2.1 + s.1, str_len b.1 + 64 + b.2.2 + s.2)%N) (2, 640)%N bs.
Lemma entry_total_cons k b bs : entry_total ((k, b) :: bs) =
  (str_len k + 1 + b.1 + (entry_total bs).1, str_len k + 64 + b.2 + (entry_total bs).2)%N.
Proof. done. Qed.
Lemma iter_dict entries : NoDup entries.*1 → HDict.iter (dict entries) ≡ₚ entries.
Proof.
  intros Hnd. rewrite dict_list_to_map by done. unfold HDict.iter. rewrite hash_iter_perm.
  by apply map_to_list_to_map.
Qed.
Lemma under_dict n entries bs :
  NoDup entries.*1 → Forall2 (λ kv b, kv.1 = b.1 ∧ under n kv.2 b.2) entries bs →
  under (S (S n)) (kd (dict entries)) (entry_total bs).
Proof.
  intros Hnd Hf. unfold under. cbn [ValueBudget.value_cost ValueBudget.dict_cost kd].
  rewrite (ValueBudget.sum_cost_perm _ _ _ (iter_dict _ Hnd)).
  set (cost := λ '(name, v), ValueBudget.add_cost _ _).
  assert (Hs : within (ValueBudget.sum_cost cost entries)
    ((entry_total bs).1 - 2, (entry_total bs).2 - 640)%N ∧ (2 ≤ (entry_total bs).1)%N ∧ (640 ≤ (entry_total bs).2)%N).
  { clear Hnd. induction Hf as [|[k v] [k' b] entries bs [Hk Hv] _ (IH & H1 & H2)]; [by split; [exists (0, 0)%N|]|].
    simpl in Hk. subst k'. rewrite entry_total_cons. set (t := entry_total bs) in *.
    cbn [ValueBudget.sum_cost foldr fst snd]. split; [|lia].
    eapply within_mono; [apply (within_add _ _ (str_len k + 1 + b.1, str_len k + 64 + b.2)%N (t.1 - 2, t.2 - 640)%N)|..].
    - apply (within_add _ _ (str_len k + 1, str_len k + 64)%N b); [apply within_charge|exact Hv].
    - exact IH.
    - simpl. lia.
    - simpl. lia. }
  destruct Hs as (Hs & H1 & H2).
  eapply within_mono; [eapply (within_add _ _ (1, 512)%N); [by exists (1, 512)%N|];
    eapply (within_add _ _ (1, 128)%N); [by exists (1, 128)%N|exact Hs]|..]; simpl; lia.
Qed.

Lemma check_kind_under v b :
  under 65 v b → (b.1 ≤ 1000000)%N → (b.2 ≤ 8 * MAX_PAYLOAD_BYTES)%N → check_kind v = Ok ().
Proof.
  intros ([w y] & Hc & H1 & H2) H3 H4. unfold check_kind. rewrite ValueBudget.value_pay.
  cbn [ValueBudget.max_depth ValueBudget.new]. change (ValueBudget.levels 64 0) with 65. rewrite Hc, ValueBudget.pay_Some.
  clear Hc. unfold ValueBudget.charge. rewrite decide_False; [done|].
  cbn [ValueBudget.work_left ValueBudget.bytes_left ValueBudget.new fst snd] in *. lia.
Qed.
End accounting.

(** Bounds of the entries of a dict, one by one. *)
Ltac each_entry :=
  repeat (eapply List.Forall2_cons; [split; [reflexivity|cbn [snd]]|]); [..|by apply List.Forall2_nil].
