(* ===== verification/EntityWireLaws.v ===== *)
(** * Entity messages: the laws of the wire

    The instances of [EntityWireLaws], one per message type of
    [haystack-core/src/codecs/entity.rs], and the byte and grid layers over
    them. *)

From Stdlib Require Import Ascii.
From stdpp Require Import pretty.
From S2P Require Import Prelude Floats Kinds Size Extern Bitmap Adjacency ValueIndex Filter Changelog Graph Prepared WireText TypedPayload TypedFacts EntityWire EntityWireFacts.

(** What a message type promises: a value is read as a message exactly when
    the message is one its Rust type and the protocol admit and is written as
    that value. *)
Class EntityWireLaws (T : Type) `{EntityWire T} (valid : T → Prop) : Prop :=
  from_kind_exact v (x : T) : from_kind v = Ok x ↔ valid x ∧ to_kind x = Ok v.

Section pieces.
Context {HO : HashOrder} {HL : HashOrderLaws}.

(** ** Identities, spans and the envelope *)

Definition identity_entries (i : OperationIdentity) : list (string * Kind) :=
  [("operationId", text (oi_operation_id i)); ("dataset", text (hex (oi_dataset i)));
   ("incarnation", text (hex (oi_incarnation i)))].
Definition identity_valid (i : OperationIdentity) : Prop :=
  array16 (oi_dataset i) ∧ array16 (oi_incarnation i).

Lemma identity_kind_inv i k :
  identity_kind i = Ok k → k = kd (dict (identity_entries i)) ∧ (str_len (oi_operation_id i) ≤ 128)%N.
Proof.
  unfold identity_kind. destruct (_ || _ || _) eqn:Hg; [done|]. intros [= <-]. split; [done|].
  apply orb_false_iff in Hg as [Hg _]. apply orb_false_iff in Hg as [_ Hg]. by apply N.ltb_ge in Hg.
Qed.

Lemma identity_exact v i : identity v = Ok i ↔ identity_valid i ∧ identity_kind i = Ok v.
Proof.
  unfold identity. split.
  - intros H. step H d Hd. step H s Hs. step H h1 H1. step H ds Hds. step H h2 H2. step H inc Hinc.
    step H k Hk. injection H as <-. apply parse_hex_Ok in Hds as [Ha1 ->], Hinc as [Ha2 ->].
    split; [done|]. rewrite Hk. destruct (identity_kind_inv _ _ Hk) as [-> _]. f_equal. symmetry.
    eapply fields_exact; [|exact Hd|done|]; [distinct|].
    apply string_of_Ok in Hs, H1, H2. by repeat constructor.
  - intros [[H1 H2] Hk]. pose proof (identity_kind_inv _ _ Hk) as [-> _].
    rewrite (fields_dict (identity_entries i)) by distinct.
    change (string_of (dict (identity_entries i)) "operationId") with (@Ok TypedPayloadError _ (oi_operation_id i)).
    change (string_of (dict (identity_entries i)) "dataset") with (@Ok TypedPayloadError _ (hex (oi_dataset i))).
    change (string_of (dict (identity_entries i)) "incarnation") with (@Ok TypedPayloadError _ (hex (oi_incarnation i))).
    cbv beta iota. rewrite (proj2 (parse_hex_Ok _ (oi_dataset i))) by done.
    rewrite (proj2 (parse_hex_Ok _ (oi_incarnation i))) by done.
    destruct i as [id ds inc]. cbv beta iota zeta. cbn [oi_operation_id oi_dataset oi_incarnation]. by rewrite Hk.
Qed.

Definition span_valid (s : option CommitSpan) : Prop :=
  match s with Some s => (0 < span_first s ≤ span_last s)%N ∧ (span_last s ≤ u64_max)%N | None => True end.
Lemma span_exact v s : span_of v = Ok s ↔ span_valid s ∧ v = span_kind s.
Proof.
  assert (Hd : ∀ d, span_of (KDict d) = Ok s ↔ span_valid s ∧ KDict d = span_kind s).
  { intros d. unfold span_of. split.
    - intros H. step H e He. step H a Ha. step H b Hb. apply number_Ok in Ha as [Ha Ha'], Hb as [Hb Hb'].
      destruct (N.eqb_spec a 0); [done|]. destruct (N.ltb_spec b a); [done|]. injection H as <-.
      split; [simpl; lia|]. cbn [span_kind]. eapply fields_exact; [|exact He|done|]; [distinct|].
      by repeat constructor.
    - intros [Hv E]. destruct s as [s|]; [|done]. cbn [span_kind] in E. rewrite E. destruct Hv as [H1 H2].
      set (entries := [("first", uint (span_first s)); ("last", uint (span_last s))]).
      rewrite (fields_dict entries) by distinct.
      rewrite !(proj2 (number_Ok _ _ (span_first s))) by (split; [done|lia]).
      rewrite !(proj2 (number_Ok _ _ (span_last s))) by (split; [done|lia]).
      destruct (N.eqb_spec (span_first s) 0); [lia|]. destruct (N.ltb_spec (span_last s) (span_first s)); [lia|].
      by destruct s. }
  destruct v; try apply Hd; destruct s as [s|]; simpl; split; intros E; try done; try (by destruct E as [_ E]).
Qed.

Definition envelope_entries (kind : string) (b : Kind) : list (string * Kind) :=
  [("schema", text "entity-v1"); ("type", text kind); ("body", b)].
Lemma body_exact v kind b : body v kind = Ok b ↔ v = envelope kind b.
Proof.
  unfold body. split.
  - intros H. step H d Hd. step H s Hs. apply string_of_Ok in Hs. case_bool_decide; [|done]. subst s.
    cbn [negb] in H. step H t Ht. apply string_of_Ok in Ht. case_bool_decide; [|done]. subst t.
    cbn [negb] in H. apply value_Ok in H.
    eapply fields_exact; [|exact Hd|done|]; [distinct|]. by repeat constructor.
  - intros ->. unfold envelope. rewrite (fields_dict (envelope_entries kind b)) by distinct.
    change (string_of (dict (envelope_entries kind b)) "schema") with (@Ok TypedPayloadError _ "entity-v1").
    change (string_of (dict (envelope_entries kind b)) "type") with (@Ok TypedPayloadError _ kind).
    simpl. by rewrite !bool_decide_true.
Qed.

(** ** Their costs *)

Lemma identity_under n i k :
  identity_valid i → identity_kind i = Ok k → under (S (S (S n))) k (300, 3000)%N.
Proof.
  intros [H1 H2] [-> Hid]%identity_kind_inv.
  assert (Hhex : ∀ l, array16 l → (str_len (hex l) ≤ 32)%N).
  { intros l Hl. unfold str_len. rewrite hex_length, Hl. done. }
  eapply under_weaken; [apply (under_dict (S n) _
    [("operationId", (128 + 1, 128 + 512)%N); ("dataset", (32 + 1, 32 + 512)%N);
     ("incarnation", (32 + 1, 32 + 512)%N)]); [distinct|]|lia|..]; [|done|done].
  each_entry; apply under_text; auto.
Qed.
Lemma span_under n s : span_valid s → under (S (S (S n))) (span_kind s) (100, 2000)%N.
Proof.
  intros Hs. destruct s as [s|]; [|eapply under_weaken; [apply (under_null 0)|lia|done|done]].
  destruct Hs as [H1 H2]. eapply under_weaken; [apply (under_dict (S n) _
    [("first", (21, 532)%N); ("last", (21, 532)%N)]); [distinct|]|lia|..]; [|done|done].
  each_entry; apply under_uint; lia.
Qed.
Lemma envelope_under n kind b w y :
  (str_len kind ≤ 20)%N → under (S n) b (w, y) →
  under (S (S (S n))) (envelope kind b) (w + 100, y + 2500)%N.
Proof.
  intros Hk Hb. eapply under_weaken; [apply (under_dict (S n) _
    [("schema", (9 + 1, 9 + 512)%N); ("type", (20 + 1, 20 + 512)%N); ("body", (w, y))]); [distinct|]|lia|..].
  - each_entry; [by apply under_text|by apply under_text|exact Hb].
  - unfold entry_total. simpl. unfold str_len. simpl. lia.
  - unfold entry_total. simpl. unfold str_len. simpl. lia.
Qed.
(** An envelope that leaves room is accepted by the reader's bound. *)
Lemma check_envelope n kind b w y :
  (str_len kind ≤ 20)%N → under (S n) b (w, y) → n ≤ 62 → (w ≤ 900000)%N → (y ≤ 8000000)%N →
  check_kind (envelope kind b) = Ok ().
Proof.
  intros Hk Hb Hn Hw Hy. eapply check_kind_under.
  - eapply under_weaken; [apply (envelope_under n _ _ _ _ Hk Hb)|lia|reflexivity|reflexivity].
  - simpl. lia.
  - simpl. unfold MAX_PAYLOAD_BYTES. lia.
Qed.

(** ** Receipt requests *)

#[export] Instance OperationIdentity_laws : EntityWireLaws OperationIdentity identity_valid.
Proof.
  intros v i. cbn [from_kind to_kind OperationIdentity_wire].
  unfold receipt_request_from_kind, receipt_request_to_kind. split.
  - intros H. step H u Hu. step H b Hb. apply body_exact in Hb as ->.
    apply identity_exact in H as [Hi Hk]. by rewrite Hk.
  - intros [Hi H]. step H k Hk. injection H as <-.
    rewrite (check_envelope 2 _ _ 300 3000) by (done || lia || by eapply identity_under).
    rewrite (proj2 (body_exact _ _ k)) by done. by apply identity_exact.
Qed.

(** ** Outcomes *)

Lemma reason_exact s r : parse_reason s = Ok r ↔ s = reason_str r.
Proof. unfold parse_reason. split; [repeat case_decide; by intros [= <-]|intros ->; by destruct r]. Qed.
Lemma cause_exact s c : parse_cause s = Ok c ↔ s = cause_str c.
Proof. unfold parse_cause. split; [repeat case_decide; by intros [= <-]|intros ->; by destruct c]. Qed.
Lemma qualification_exact s q : parse_qualification s = Ok q ↔ s = qualification_str q.
Proof. unfold parse_qualification. split; [repeat case_decide; by intros [= <-]|intros ->; by destruct q]. Qed.
Lemma diff_op_exact s o : parse_diff_op s = Ok o ↔ s = diff_op_str o.
Proof. unfold parse_diff_op. split; [repeat case_decide; by intros [= <-]|intros ->; by destruct o]. Qed.

Definition outcome_valid (o : MutationOutcome) : Prop :=
  identity_valid (outcome_identity o) ∧
  match o with MCommitted r => (er_after_revision r ≤ u64_max)%N | _ => True end.

(** A valid receipt: nothing was committed, or the units right after the
    revision before. *)
Lemma validate_receipt_Ok r :
  validate_receipt r = Ok () ↔
  match er_span r with
  | None => er_after_revision r = er_before_revision r
  | Some s => span_first s = (er_before_revision r + 1)%N ∧ (span_first s ≤ u64_max)%N ∧
              span_last s = er_after_revision r ∧ (span_first s ≤ span_last s)%N
  end.
Proof.
  unfold validate_receipt. destruct (er_span r) as [s|].
  - unfold checked_add. destruct (N.ltb_spec (er_after_revision r) (er_before_revision r));
      destruct (N.eqb_spec (span_last s) (er_after_revision r));
      destruct (N.ltb_spec (span_last s) (span_first s));
      repeat case_decide; repeat case_bool_decide; simplify_eq/=; split; intros; try done; try lia;
      destruct_and?; exfalso; try lia; congruence.
  - destruct (N.ltb_spec (er_after_revision r) (er_before_revision r));
      destruct (N.eqb_spec (er_after_revision r) (er_before_revision r)); simpl; split; intros; try done; lia.
Qed.

Lemma receipt_span r :
  validate_receipt r = Ok () → (er_after_revision r ≤ u64_max)%N →
  span_valid (er_span r) ∧ (er_before_revision r ≤ u64_max)%N.
Proof.
  rewrite validate_receipt_Ok. destruct (er_span r) as [s|]; simpl; [|intros ->]; [lia|done].
Qed.

Definition outcome_entries (i : Kind) (o : MutationOutcome) : list (string * Kind) :=
  ("identity", i) ::
  match o with
  | MCommitted r =>
      [("outcome", text "committed"); ("beforeRevision", uint (er_before_revision r));
       ("afterRevision", uint (er_after_revision r)); ("span", span_kind (er_span r));
       ("qualification", text (qualification_str (er_qualification r)))]
  | MRejected _ reason => [("outcome", text "rejected"); ("reason", text (reason_str reason))]
  | MUnknown _ cause => [("outcome", text "unknown"); ("cause", text (cause_str cause))]
  end.
Definition outcome_sound (o : MutationOutcome) : Prop :=
  match o with MCommitted r => validate_receipt r = Ok () | _ => True end.

Lemma outcome_to_kind_Ok o v :
  outcome_to_kind o = Ok v ↔
  ∃ i, identity_kind (outcome_identity o) = Ok i ∧ outcome_sound o ∧
       v = envelope "outcome" (kd (dict (outcome_entries i o))).
Proof.
  unfold outcome_to_kind. destruct (identity_kind _) as [i|] eqn:Hi; [|naive_solver].
  destruct o as [r|j reason|j cause]; simpl.
  - destruct (validate_receipt r) as [[]|] eqn:Hr; [|by split; [|intros (? & ? & ? & _)]].
    split; [intros [= <-]; by exists i|intros (i' & [= <-] & _ & ->); done].
  - split; [intros [= <-]; by exists i|intros (i' & [= <-] & _ & ->); done].
  - split; [intros [= <-]; by exists i|intros (i' & [= <-] & _ & ->); done].
Qed.

Lemma NoDup_outcome i o : NoDup (outcome_entries i o).*1.
Proof. destruct o; distinct. Qed.

Lemma outcome_read v o :
  outcome_from_kind v = Ok o → outcome_valid o ∧ outcome_to_kind o = Ok v.
Proof.
  unfold outcome_from_kind. intros H. step H u Hu. step H b Hb. apply body_exact in Hb as ->.
  destruct b; try done. step H i Hi. apply value_Ok in Hi. step H id Hid.
  apply identity_exact in Hid as [Hv Hk]. step H oc Hoc. apply string_of_Ok in Hoc.
  case_decide as D1; [subst oc|case_decide as D2; [subst oc|case_decide as D3; [subst oc|done]]]; step H d Hd;
    pose proof (fields_same _ _ _ Hd) as ->.
  - step H before H1. step H after H2. step H sv H3. step H s H4. step H qs H5. step H q H6. step H w H7.
    injection H as <-. destruct w. apply number_Ok in H1 as [H1 _], H2 as [H2 Hmax].
    apply value_Ok in H3. apply span_exact in H4 as [Hs ->]. apply string_of_Ok in H5.
    apply qualification_exact in H6 as ->.
    split; [done|]. apply outcome_to_kind_Ok. exists i. split; [done|]. split; [done|]. f_equal.
    eapply fields_exact; [|exact Hd|done|]; [distinct|]. by repeat constructor.
  - step H s H1. apply string_of_Ok in H1. step H r H2. apply reason_exact in H2 as ->. injection H as <-.
    split; [done|]. apply outcome_to_kind_Ok. exists i. split; [done|]. split; [done|]. f_equal.
    eapply fields_exact; [|exact Hd|done|]; [distinct|]. by repeat constructor.
  - step H s H1. apply string_of_Ok in H1. step H c H2. apply cause_exact in H2 as ->. injection H as <-.
    split; [done|]. apply outcome_to_kind_Ok. exists i. split; [done|]. split; [done|]. f_equal.
    eapply fields_exact; [|exact Hd|done|]; [distinct|]. by repeat constructor.
Qed.

(** The bound of an outcome. *)
Lemma outcome_under i o :
  outcome_valid o → outcome_sound o → identity_kind (outcome_identity o) = Ok i →
  under 5 (kd (dict (outcome_entries i o))) (2000, 20000)%N.
Proof.
  intros [Hi Hr] Hs Hk. pose proof (identity_under 0 _ _ Hi Hk) as Hid. destruct o as [r|j reason|j cause].
  - destruct (receipt_span r Hs Hr) as [Hspan Hbefore].
    eapply under_weaken; [apply (under_dict 3 _ [("identity", (300, 3000)%N); ("outcome", (9 + 1, 9 + 512)%N);
      ("beforeRevision", (21, 532)%N); ("afterRevision", (21, 532)%N); ("span", (100, 2000)%N);
      ("qualification", (16 + 1, 16 + 512)%N)]); [distinct|]|lia|..]; [|done|done].
    each_entry; [done|by apply under_text|by apply under_uint|by apply under_uint|by apply span_under|].
    apply under_text. by destruct (er_qualification r).
  - eapply under_weaken; [apply (under_dict 3 _ [("identity", (300, 3000)%N); ("outcome", (9 + 1, 9 + 512)%N);
      ("reason", (9 + 1, 9 + 512)%N)]); [distinct|]|lia|..]; [|done|done].
    each_entry; [done|by apply under_text|]. apply under_text. by destruct reason.
  - eapply under_weaken; [apply (under_dict 3 _ [("identity", (300, 3000)%N); ("outcome", (9 + 1, 9 + 512)%N);
      ("cause", (22 + 1, 22 + 512)%N)]); [distinct|]|lia|..]; [|done|done].
    each_entry; [done|by apply under_text|]. apply under_text. by destruct cause.
Qed.

Lemma outcome_written v o :
  outcome_valid o → outcome_to_kind o = Ok v → outcome_from_kind v = Ok o.
Proof.
  intros Hv (i & Hk & Hs & ->)%outcome_to_kind_Ok. unfold outcome_from_kind.
  rewrite (check_envelope 4 _ _ 2000 20000) by (done || lia || by apply outcome_under).
  rewrite (proj2 (body_exact _ _ (kd (dict (outcome_entries i o))))) by done. cbn [kd].
  rewrite (proj2 (value_Ok _ "identity" i)) by by destruct o.
  rewrite (proj2 (identity_exact i (outcome_identity o))) by by split; [apply Hv|].
  destruct Hv as [Hi Hr], o as [r|j reason|j cause]; cbn [outcome_identity] in *.
  - destruct (receipt_span r Hs Hr) as [Hspan Hbefore].
    rewrite (proj2 (string_of_Ok _ "outcome" "committed")) by done. rewrite decide_True by done.
    rewrite (fields_dict (outcome_entries i (MCommitted r))) by apply NoDup_outcome.
    rewrite (proj2 (number_Ok _ "beforeRevision" (er_before_revision r))) by done.
    rewrite (proj2 (number_Ok _ "afterRevision" (er_after_revision r))) by done.
    rewrite (proj2 (value_Ok _ "span" (span_kind (er_span r)))) by done.
    rewrite (proj2 (span_exact _ (er_span r))) by done.
    rewrite (proj2 (string_of_Ok _ "qualification" (qualification_str (er_qualification r)))) by done.
    rewrite (proj2 (qualification_exact _ (er_qualification r))) by done.
    destruct r as [ri rb ra rs rq]. cbv zeta.
    cbn [er_identity er_before_revision er_after_revision er_span er_qualification outcome_sound] in *. by rewrite Hs.
  - rewrite (proj2 (string_of_Ok _ "outcome" "rejected")) by done.
    rewrite decide_False by done. rewrite decide_True by done.
    rewrite (fields_dict (outcome_entries i (MRejected j reason))) by apply NoDup_outcome.
    rewrite (proj2 (string_of_Ok _ "reason" (reason_str reason))) by done.
    by rewrite (proj2 (reason_exact _ reason)).
  - rewrite (proj2 (string_of_Ok _ "outcome" "unknown")) by done.
    rewrite !decide_False by done. rewrite decide_True by done.
    rewrite (fields_dict (outcome_entries i (MUnknown j cause))) by apply NoDup_outcome.
    rewrite (proj2 (string_of_Ok _ "cause" (cause_str cause))) by done.
    by rewrite (proj2 (cause_exact _ cause)).
Qed.

#[export] Instance MutationOutcome_laws : EntityWireLaws MutationOutcome outcome_valid.
Proof. intros v o. split; [apply outcome_read|intros [? ?]; by apply outcome_written]. Qed.

(** ** Feed requests *)

Definition cursor_kind (c : option string) : Kind := match c with Some s => text s | None => KNull end.
Definition request_entries (r : ChangesRequest) : list (string * Kind) :=
  [("cursor", cursor_kind (ch_cursor r)); ("maxDiffs", uint (ch_max_diffs r))].
Lemma changes_request_Ok r v :
  changes_request_to_kind r = Ok v ↔
  (0 < ch_max_diffs r ≤ 128)%N ∧ (∀ s, ch_cursor r = Some s → (str_len s ≤ 1024)%N) ∧
  v = envelope "changesRequest" (kd (dict (request_entries r))).
Proof.
  unfold changes_request_to_kind, MAX_OPERATIONS.
  destruct (N.eqb_spec (ch_max_diffs r) 0), (N.ltb_spec 128 (ch_max_diffs r)); cbn [orb];
    try (split; [done|intros (? & _); lia]).
  destruct (ch_cursor r) as [s|] eqn:Hc.
  - destruct (N.ltb_spec 1024 (str_len s)).
    + split; [done|]. intros (_ & Hs & _). specialize (Hs s eq_refl). lia.
    + unfold request_entries, cursor_kind. rewrite Hc. split; [intros [= <-]|by intros (_ & _ & ->)].
      split; [lia|]. by split; [intros ? [= <-]|].
  - unfold request_entries, cursor_kind. rewrite Hc. split; [intros [= <-]|by intros (_ & _ & ->)].
    split; [lia|done].
Qed.

#[export] Instance ChangesRequest_laws : EntityWireLaws ChangesRequest (λ _, True).
Proof.
  intros v r. cbn [from_kind to_kind ChangesRequest_wire]. unfold changes_request_from_kind. split.
  - intros H. step H u Hu. step H b Hb. apply body_exact in Hb as ->. step H d Hd. step H c Hc.
    step H cursor Hcur. step H max Hmax. step H k Hk. injection H as <-. split; [done|].
    rewrite Hk. apply changes_request_Ok in Hk as (_ & _ & ->). do 2 f_equal. symmetry.
    apply value_Ok in Hc. apply number_Ok in Hmax as [Hmax _].
    eapply fields_exact; [|exact Hd|done|]; [distinct|]. repeat constructor; [|exact Hmax].
    cbn [fst snd ch_cursor]. rewrite Hc. by destruct c; simplify_eq.
  - intros [_ Hk]. pose proof Hk as (Hm & Hs & ->)%changes_request_Ok.
    rewrite (check_envelope 2 _ _ 2000 20000); [|done| |lia|lia|lia].
    2:{ eapply under_weaken; [apply (under_dict 1 _ [("cursor", (1024 + 1, 1024 + 512)%N); ("maxDiffs", (21, 532)%N)]);
          [distinct|]|lia|done|done]. each_entry; [|apply under_uint; unfold u64_max; lia].
        unfold cursor_kind. destruct (ch_cursor r) as [s|]; [by apply under_text, Hs|].
        eapply under_weaken; [apply (under_null 0)|lia|done|done]. }
    rewrite (proj2 (body_exact _ _ (kd (dict (request_entries r))))) by done.
    rewrite (fields_dict (request_entries r)) by distinct.
    rewrite (proj2 (value_Ok _ "cursor" (cursor_kind (ch_cursor r)))) by done.
    rewrite (proj2 (number_Ok _ "maxDiffs" (ch_max_diffs r))) by (split; [done|unfold u64_max; lia]).
    destruct r as [[s|] m]; cbn [cursor_kind ch_cursor text]; cbv zeta; cbn [ch_max_diffs]; by rewrite Hk.
Qed.
End pieces.

(** ** Batches and feed pages on the wire

    The laws of [EntityBatchRequest] and [ChangesPage] of
    [haystack-core/src/codecs/entity.rs], the messages that carry rows: the
    bounds on the rows at the source leave room for the envelope, and a page
    that is read has its changes in order within its floor and position. *)

Section laws.
Context {HO : HashOrder} {HL : HashOrderLaws}.

(** ** Costs of lists of rows *)

(** Items that cost little more than their sources. *)
Lemma items_within {A} n (f : A → ValueBudget.cost) l items c k1 k2 :
  ValueBudget.sum_cost f l = Some c →
  Forall2 (λ a v, ∀ x, f a = Some x → under n v (x.1 + k1, x.2 + k2)%N) l items →
  within (ValueBudget.sum_cost (ValueBudget.value_cost n) items) (c.1 + k1 * len l, c.2 + k2 * len l)%N.
Proof.
  intros Hc Hf. revert c Hc. induction Hf as [|a v l items Hav _ IH]; intros c Hc.
  - injection Hc as <-. exists (0, 0)%N. split; [done|simpl; lia].
  - cbn [ValueBudget.sum_cost foldr] in *. apply add_cost_Some in Hc as (x & y & Hx & Hy & ->).
    eapply within_mono; [apply (within_add _ _ _ _ (Hav x Hx) (IH y Hy))|..]; rewrite len_cons; simpl; lia.
Qed.
Lemma under_items {A} n (f : A → ValueBudget.cost) l items c k1 k2 :
  ValueBudget.sum_cost f l = Some c →
  Forall2 (λ a v, ∀ x, f a = Some x → under n v (x.1 + k1, x.2 + k2)%N) l items →
  under (S n) (KList items) (c.1 + k1 * len l + 1, c.2 + k2 * len l + 512)%N.
Proof.
  intros Hc Hf. unfold under. cbn [ValueBudget.value_cost]. eapply within_mono;
    [eapply (within_add _ _ (1, 512)%N); [by exists (1, 512)%N|by eapply items_within]|..]; simpl; lia.
Qed.

(** What was paid from the budget of rows. *)
Lemma pay_row_budget c b :
  ValueBudget.pay c row_budget = Ok b → ∃ x, c = Some x ∧ (x.1 ≤ 100000)%N ∧ (x.2 ≤ 4194304)%N.
Proof.
  destruct c as [[w y]|]; [|done]. rewrite ValueBudget.pay_Some. unfold ValueBudget.charge.
  case_decide as Hd; [done|]. intros _. exists (w, y). split; [done|].
  cbn [row_budget ValueBudget.new ValueBudget.work_left ValueBudget.bytes_left fst snd] in *.
  unfold MAX_PAYLOAD_BYTES in Hd. lia.
Qed.

(** ** Operations *)

Definition row_levels : nat := 48.
Definition op_cost (op : EntityOperation) : ValueBudget.cost :=
  match target_of op with
  | Ok id => ValueBudget.add_cost
      (Some (saturating_add (str_len id) 1, saturating_add (str_len id) 1024))
      match op with
      | OAdd row | OPatch _ row => ValueBudget.dict_cost row_levels row
      | ORemove _ => Some (0, 0)%N
      end
  | Err _ => None
  end.

Lemma charge_operation_pay b op b' :
  ValueBudget.max_depth b = 48%N → charge_operation b op = Ok b' → ValueBudget.pay (op_cost op) b = Ok b'.
Proof.
  intros Hb. unfold charge_operation, op_cost. destruct (target_of op) as [id|]; [|done].
  rewrite ValueBudget.pay_add, ValueBudget.pay_Some.
  destruct (ValueBudget.charge _ _ b) as [b1|] eqn:Hc; [|done]. apply ValueBudget.charge_depth in Hc.
  rewrite Hb in Hc. destruct op as [row|id' row|id']; rewrite ?ValueBudget.dict_pay, ?Hc, ?ValueBudget.pay_zero.
  - change (ValueBudget.levels 48 1) with row_levels. destruct (ValueBudget.pay _ b1); cbn [map_err]; congruence.
  - change (ValueBudget.levels 48 1) with row_levels. destruct (ValueBudget.pay _ b1); cbn [map_err]; congruence.
  - cbn [map_err]. congruence.
Qed.
Lemma charged_operations b ops b' :
  ValueBudget.max_depth b = 48%N → try_fold charge_operation b ops = Ok b' →
  ValueBudget.pay (ValueBudget.sum_cost op_cost ops) b = Ok b'.
Proof.
  revert b. induction ops as [|op ops IH]; intros b Hb; simpl; [intros [= <-]; apply ValueBudget.pay_zero|].
  destruct (charge_operation b op) as [b1|] eqn:Hc; [|done]. apply charge_operation_pay in Hc; [|done].
  intros Hr. rewrite ValueBudget.pay_add, Hc. apply IH; [|done].
  by rewrite (ValueBudget.pay_depth _ _ _ Hc).
Qed.

Definition op_entries (op : EntityOperation) : list (string * Kind) :=
  match op with
  | OAdd row => [("operation", text "add"); ("row", kd row)]
  | OPatch id changes => [("operation", text "patch"); ("id", text id); ("changes", kd changes)]
  | ORemove id => [("operation", text "remove"); ("id", text id)]
  end.
Lemma op_kind_Ok op v :
  op_kind op = Ok v ↔ is_ok (target_of op) = true ∧ v = kd (dict (op_entries op)).
Proof.
  unfold op_kind. destruct (target_of op); [|naive_solver]. destruct op; naive_solver.
Qed.
Lemma op_of_Ok v op : op_of v = Ok op ↔ v = kd (dict (op_entries op)).
Proof.
  split.
  - unfold op_of. destruct v as [| | | | | | | | | | | | | | | | | | | | |raw|]; try done.
    intros H. step H s Hs. apply string_of_Ok in Hs.
    case_decide as D1; [subst s|case_decide as D2; [subst s|case_decide as D3; [subst s|done]]]; step H d Hd;
      pose proof (fields_same _ _ _ Hd) as ->.
    + step H r Hr. apply value_Ok in Hr. step H row Hrow. apply checked_row_Ok in Hrow as ->. injection H as <-.
      eapply fields_exact; [|exact Hd|done|]; [distinct|]. by repeat constructor.
    + step H id Hid. apply string_of_Ok in Hid. step H r Hr. apply value_Ok in Hr.
      step H row Hrow. apply checked_row_Ok in Hrow as ->. injection H as <-.
      eapply fields_exact; [|exact Hd|done|]; [distinct|]. by repeat constructor.
    + step H id Hid. apply string_of_Ok in Hid. injection H as <-.
      eapply fields_exact; [|exact Hd|done|]; [distinct|]. by repeat constructor.
  - intros ->. unfold op_of, kd at 1. destruct op as [row|id row|id]; cbn [op_entries].
    + rewrite (proj2 (string_of_Ok _ "operation" "add")) by done. rewrite decide_True by done.
      rewrite (fields_dict (op_entries (OAdd row))) by distinct. done.
    + rewrite (proj2 (string_of_Ok _ "operation" "patch")) by done. rewrite decide_False, decide_True by done.
      rewrite (fields_dict (op_entries (OPatch id row))) by distinct. done.
    + rewrite (proj2 (string_of_Ok _ "operation" "remove")) by done. rewrite !decide_False, decide_True by done.
      rewrite (fields_dict (op_entries (ORemove id))) by distinct. done.
Qed.

Lemma target_length op id : target_of op = Ok id → (str_len id ≤ 1024)%N.
Proof.
  unfold target_of. destruct (target op) as [i|]; [|done]. simpl. destruct (_ || _) eqn:Hg; [done|].
  intros [= <-]. apply orb_false_iff in Hg as [_ Hg]. by apply N.ltb_ge in Hg.
Qed.
(** An operation in its envelope. *)
Lemma op_under op v x :
  op_kind op = Ok v → op_cost op = Some x → under 51 v (x.1 + 1200, x.2 + 5000)%N.
Proof.
  unfold op_cost. destruct (target_of op) as [id|] eqn:Ht; [|done].
  intros [_ ->]%op_kind_Ok (a & c & Ha & Hc & ->)%add_cost_Some. pose proof (target_length _ _ Ht) as Hid.
  assert (Hrow : ∀ row, ValueBudget.dict_cost row_levels row = Some c → under 49 (kd row) (c.1 + 1, c.2 + 512)%N)
    by (intros row; apply (under_row 48)).
  destruct op as [row|i row|i]; cbn [op_entries].
  - eapply under_weaken; [apply (under_dict 49 _ [("operation", (3 + 1, 3 + 512)%N); ("row", (c.1 + 1, c.2 + 512)%N)]);
      [distinct|]|lia|..]; [|unfold entry_total, str_len; simpl; lia..].
    each_entry; [by apply under_text|by apply Hrow].
  - unfold target_of in Ht. simpl in Ht. destruct (_ || _); [done|]. injection Ht as ->.
    eapply under_weaken; [apply (under_dict 49 _ [("operation", (5 + 1, 5 + 512)%N); ("id", (1024 + 1, 1024 + 512)%N);
      ("changes", (c.1 + 1, c.2 + 512)%N)]); [distinct|]|lia|..]; [|unfold entry_total, str_len; simpl; lia..].
    each_entry; [by apply under_text|by apply under_text|by apply Hrow].
  - unfold target_of in Ht. simpl in Ht. destruct (_ || _); [done|]. injection Ht as ->.
    eapply under_weaken; [apply (under_dict 49 _ [("operation", (6 + 1, 6 + 512)%N); ("id", (1024 + 1, 1024 + 512)%N)]);
      [distinct|]|lia|..]; [|unfold entry_total, str_len; simpl; lia..].
    each_entry; by apply under_text.
Qed.

(** ** Batches *)

Definition batch_valid (r : EntityBatchRequest) : Prop :=
  identity_valid (br_identity r) ∧ (br_expected_revision r ≤ u64_max)%N.
Definition batch_entries (i : Kind) (r : EntityBatchRequest) (ops : list Kind) : list (string * Kind) :=
  [("identity", i); ("expectedRevision", uint (br_expected_revision r)); ("operations", KList ops)].

Lemma source_bytes_Ok r n :
  source_bytes r = Ok n →
  br_operations r ≠ [] ∧ (len (br_operations r) ≤ 128)%N ∧
  ∃ x, ValueBudget.sum_cost op_cost (br_operations r) = Some x ∧ (x.1 ≤ 100000)%N ∧ (x.2 ≤ 4194304)%N.
Proof.
  unfold source_bytes, MAX_OPERATIONS. destruct (is_nil _) eqn:Hn; [done|]. cbn [orb].
  destruct (N.ltb_spec 128 (len (br_operations r))); [done|]. intros H'. step H' i Hi. step H' b Hb.
  split; [intros E; by rewrite E in Hn|]. split; [done|]. eapply pay_row_budget, charged_operations; [|exact Hb]. done.
Qed.

Lemma batch_to_kind_Ok r v :
  batch_to_kind r = Ok v →
  ∃ n i ops, source_bytes r = Ok n ∧ identity_kind (br_identity r) = Ok i ∧
    Forall2 (λ op k, op_kind op = Ok k) (br_operations r) ops ∧
    v = envelope "batch" (kd (dict (batch_entries i r ops))).
Proof.
  unfold batch_to_kind. intros H. step H n Hn. step H ops Hops. step H i Hi. injection H as <-.
  apply try_map_Forall2 in Hops. eauto 10.
Qed.

Lemma batch_read v r : batch_from_kind v = Ok r → batch_valid r ∧ batch_to_kind r = Ok v.
Proof.
  unfold batch_from_kind. intros H. step H u Hu. step H b Hb. apply body_exact in Hb as ->. step H d Hd.
  step H l Hl. apply value_Ok in Hl. destruct l as [| | | | | | | | | | | | | | | | | | | |ops| |]; try done.
  destruct (_ || _); [done|]. step H operations Hops. apply try_map_Forall2 in Hops. step H iv Hiv.
  apply value_Ok in Hiv. step H i Hi. apply identity_exact in Hi as [Hvalid Hik]. step H e He.
  apply number_Ok in He as [He Hmax]. step H k Hk. injection H as <-. split; [done|]. rewrite Hk.
  destruct (batch_to_kind_Ok _ _ Hk) as (n & i' & ops' & _ & Hi' & Hops' & ->). cbn [br_identity br_operations] in *.
  rewrite Hik in Hi'. injection Hi' as <-. do 2 f_equal. symmetry.
  assert (ops' = ops) as ->.
  { clear -HO HL Hops Hops'. revert ops' Hops'. induction Hops as [|k op ops operations Hk _ IH]; intros ops'; inversion 1; subst; [done|].
    apply op_of_Ok in Hk as ->. match goal with E : op_kind _ = Ok _ |- _ => apply op_kind_Ok in E as [_ ->] end.
    f_equal. by apply IH. }
  eapply fields_exact; [|exact Hd|done|]; [distinct|]. by repeat constructor.
Qed.

Lemma batch_written v r : batch_valid r → batch_to_kind r = Ok v → batch_from_kind v = Ok r.
Proof.
  intros [Hvalid Hmax] Hk. pose proof Hk as (n & i & ops & Hn & Hi & Hops & ->)%batch_to_kind_Ok.
  destruct (source_bytes_Ok _ _ Hn) as (Hne & Hlen & x & Hx & H1 & H2).
  assert (Hlen' : len ops = len (br_operations r)) by (unfold len; by rewrite (Forall2_length _ _ _ Hops)).
  unfold batch_from_kind. rewrite (check_envelope 53 _ _ 800000 7900000); [|done| |lia|lia|lia].
  2:{ eapply under_weaken; [apply (under_dict 52 _ [("identity", (300, 3000)%N); ("expectedRevision", (21, 532)%N);
        ("operations", (x.1 + 1200 * len (br_operations r) + 1, x.2 + 5000 * len (br_operations r) + 512)%N)]);
        [distinct|]|lia|..]; [|unfold entry_total, str_len; simpl; lia..].
      each_entry; [by eapply identity_under|by apply under_uint|].
      apply (under_items 51 op_cost); [done|]. eapply Forall2_impl; [exact Hops|].
      intros op k Hop y. by apply op_under. }
  rewrite (proj2 (body_exact _ _ (kd (dict (batch_entries i r ops))))) by done.
  rewrite (fields_dict (batch_entries i r ops)) by distinct.
  rewrite (proj2 (value_Ok _ "operations" (KList ops))) by done.
  assert (is_nil ops = false) as ->.
  { destruct Hops; [done|reflexivity]. }
  rewrite Hlen'. destruct (N.ltb_spec MAX_OPERATIONS (len (br_operations r))); [unfold MAX_OPERATIONS in *; lia|]. cbn [orb].
  rewrite (proj2 (try_map_Forall2 op_of ops (br_operations r))).
  2:{ apply Forall2_flip. eapply Forall2_impl; [exact Hops|]. intros op k [_ ->]%op_kind_Ok. by apply op_of_Ok. }
  rewrite (proj2 (value_Ok _ "identity" i)) by done.
  rewrite (proj2 (identity_exact i (br_identity r))) by done.
  rewrite (proj2 (number_Ok _ "expectedRevision" (br_expected_revision r))) by done.
  destruct r as [ri re ro]. cbv zeta. cbn [br_identity br_expected_revision br_operations] in *. by rewrite Hk.
Qed.

#[export] Instance EntityBatchRequest_laws : EntityWireLaws EntityBatchRequest batch_valid.
Proof. intros v r. split; [apply batch_read|intros [? ?]; by apply batch_written]. Qed.

(** ** Feed pages *)

(** The place of a change on a page: within its unit, after the changes
    before it, and its unit after the floor, up to the position, and the same
    as the one before or after it. *)
Definition in_place (floor position last : N) (prev : option CommitSpan) (c : EntityDiff) : Prop :=
  (span_first (ed_span c) ≤ ed_revision c ≤ span_last (ed_span c))%N ∧
  (last < ed_revision c)%N ∧ (floor < span_first (ed_span c))%N ∧
  (span_last (ed_span c) ≤ position)%N ∧
  ∀ old, prev = Some old → old = ed_span c ∨ (span_last old < span_first (ed_span c))%N.
Fixpoint follows (floor position last : N) (prev : option CommitSpan) (l : list EntityDiff) : Prop :=
  match l with
  | [] => True
  | c :: l => in_place floor position last prev c ∧
              follows floor position (ed_revision c) (Some (ed_span c)) l
  end.

Definition change_entries (c : EntityDiff) : list (string * Kind) :=
  [("revision", uint (ed_revision c)); ("span", span_kind (Some (ed_span c))); ("id", text (ed_id c));
   ("operation", text (diff_op_str (ed_operation c))); ("changed", kd (ed_changed c));
   ("previous", match ed_previous c with Some d => kd d | None => KNull end)].

Lemma place_guard floor position last prev c s (Hs : s = ed_span c) :
  ((ed_revision c <? span_first s)%N || (span_last s <? ed_revision c)%N || (ed_revision c <=? last)%N
   || (span_first s <=? floor)%N || (position <? span_last s)%N
   || match prev with
      | Some old => negb (bool_decide (old = s)) && (span_first s <=? span_last old)%N
      | None => false
      end) = false ↔ in_place floor position last prev c.
Proof.
  subst s. unfold in_place. rewrite !orb_false_iff, !N.ltb_ge, !N.leb_gt. destruct prev as [old|].
  - rewrite andb_false_iff, negb_false_iff, bool_decide_eq_true, N.leb_gt. naive_solver lia.
  - naive_solver lia.
Qed.

Lemma change_of_Ok floor position acc last prev item st :
  (position ≤ u64_max)%N →
  change_of floor position (acc, last, prev) item = Ok st ↔
  ∃ c, item = change_kind c ∧ in_place floor position last prev c ∧
       st = (acc ++ [c], ed_revision c, Some (ed_span c)).
Proof.
  intros Hpos. unfold change_of. split.
  - intros H. step H d Hd. step H sv Hsv. apply value_Ok in Hsv. step H so Hso. apply span_exact in Hso as [_ ->].
    step H s Hs. destruct so as [s'|]; [|done]. injection Hs as ->. step H rev Hrev.
    apply number_Ok in Hrev as [Hrev _]. destruct (_ || _) eqn:Hg; [done|]. step H id Hid. apply string_of_Ok in Hid.
    step H os Hos. apply string_of_Ok in Hos. step H op Hop. apply diff_op_exact in Hop as ->.
    step H cv Hcv. apply value_Ok in Hcv. step H ch Hch. apply checked_row_Ok in Hch as ->.
    step H pv Hpv. apply value_Ok in Hpv. step H pr Hpr. injection H as <-.
    eexists (mkEntityDiff rev s id op ch pr). split; [|split; [|done]].
    + eapply fields_exact; [|exact Hd|done|]; [distinct|]. repeat constructor; try done.
      cbn [fst snd ed_previous]. rewrite Hpv. f_equal.
      destruct pv; simpl in Hpr; simplify_eq; done.
    + by apply (place_guard floor position last prev (mkEntityDiff rev s id op ch pr) s eq_refl).
  - intros (c & -> & Hp & ->). unfold change_kind. rewrite (fields_dict (change_entries c)) by distinct.
    rewrite (proj2 (value_Ok _ "span" (span_kind (Some (ed_span c))))) by done.
    destruct (Hp) as (Hr1 & Hr2 & Hr3 & Hr4 & _).
    rewrite (proj2 (span_exact _ (Some (ed_span c)))) by (split; [simpl; lia|done]). cbn [ok_or].
    rewrite (proj2 (number_Ok _ "revision" (ed_revision c))) by (split; [done|lia]).
    rewrite (proj2 (place_guard floor position last prev c _ eq_refl)) by done.
    rewrite (proj2 (string_of_Ok _ "id" (ed_id c))) by done.
    rewrite (proj2 (string_of_Ok _ "operation" (diff_op_str (ed_operation c)))) by done.
    rewrite (proj2 (diff_op_exact _ (ed_operation c))) by done.
    rewrite (proj2 (value_Ok _ "changed" (kd (ed_changed c)))) by done.
    rewrite (proj2 (checked_row_Ok _ (ed_changed c))) by done.
    rewrite (proj2 (value_Ok _ "previous" (match ed_previous c with Some d => kd d | None => KNull end))) by done.
    destruct c as [rev s id op ch [pr|]]; done.
Qed.

Lemma changes_of_Ok floor position acc last prev items changes last' prev' :
  (position ≤ u64_max)%N →
  try_fold (change_of floor position) (acc, last, prev) items = Ok (changes, last', prev') →
  ∃ l, changes = acc ++ l ∧ items = change_kind <$> l ∧ follows floor position last prev l.
Proof.
  intros Hpos. revert acc last prev. induction items as [|item items IH]; intros acc last prev; cbn [try_fold].
  - intros [= <- <- <-]. exists []. by rewrite app_nil_r.
  - destruct (change_of floor position _ _) as [st|] eqn:Hst; [|done].
    apply change_of_Ok in Hst as (c & -> & Hp & ->); [|done].
    intros Hr. destruct (IH _ _ _ Hr) as (l & -> & -> & Hf). exists (c :: l). rewrite <-app_assoc. done.
Qed.
Lemma changes_written floor position acc last prev l :
  (position ≤ u64_max)%N → follows floor position last prev l →
  ∃ last' prev', try_fold (change_of floor position) (acc, last, prev) (change_kind <$> l) =
    Ok (acc ++ l, last', prev') ∧ (last' = last ∨ last' ≤ position)%N.
Proof.
  intros Hpos. revert acc last prev. induction l as [|c l IH]; intros acc last prev Hf; cbn [try_fold fmap list_fmap].
  - rewrite app_nil_r. eauto.
  - destruct Hf as [Hp Hf]. rewrite (proj2 (change_of_Ok floor position acc last prev _ _ Hpos)) by by exists c.
    destruct (IH (acc ++ [c]) _ _ Hf) as (last' & prev' & -> & Hl). exists last', prev'.
    rewrite <-app_assoc. split; [done|]. destruct Hp as (Hr & _ & _ & Hs & _). destruct Hl as [->|]; right; lia.
Qed.

(** *** The cost of a page *)

Definition diff_rows (c : EntityDiff) : list HDict :=
  ed_changed c :: match ed_previous c with Some p => [p] | None => [] end.

Lemma sum_cost_app {A} (f : A → ValueBudget.cost) l k :
  ValueBudget.sum_cost f (l ++ k) = ValueBudget.add_cost (ValueBudget.sum_cost f l) (ValueBudget.sum_cost f k).
Proof.
  induction l as [|a l IH]; [symmetry; apply ValueBudget.add_cost_0_l|].
  cbn [ValueBudget.sum_cost foldr app]. unfold ValueBudget.sum_cost in IH. rewrite IH.
  apply ValueBudget.add_cost_assoc.
Qed.
Lemma sum_cost_bind {A B} (f : B → ValueBudget.cost) (g : A → list B) l :
  ValueBudget.sum_cost f (l ≫= g) = ValueBudget.sum_cost (λ a, ValueBudget.sum_cost f (g a)) l.
Proof.
  induction l as [|a l IH]; [done|]. change ((a :: l) ≫= g) with (g a ++ (l ≫= g)). by rewrite sum_cost_app, IH.
Qed.

Lemma measure_rows_Ok rows u :
  measure_rows rows = Ok u →
  ∃ x, ValueBudget.sum_cost (ValueBudget.dict_cost row_levels) rows = Some x ∧
       (x.1 ≤ 100000)%N ∧ (x.2 ≤ 4194304)%N.
Proof.
  unfold measure_rows. rewrite (ValueBudget.try_fold_pay_depth 48 _ (ValueBudget.dict_cost row_levels)); [|done|].
  - destruct (ValueBudget.pay _ row_budget) as [b|] eqn:Hp; [|done]. intros _. by eapply pay_row_budget.
  - intros b a Hb. by rewrite ValueBudget.dict_pay, Hb.
Qed.

Lemma change_under m c x :
  (str_len (ed_id c) ≤ 1024)%N → (ed_revision c ≤ u64_max)%N → span_valid (Some (ed_span c)) →
  ValueBudget.sum_cost (ValueBudget.dict_cost (S (S m))) (diff_rows c) = Some x →
  under (S (S (S (S (S m))))) (change_kind c) (x.1 + 1400, x.2 + 7000)%N.
Proof.
  intros Hid Hrev Hspan Hx. unfold diff_rows in Hx. cbn [ValueBudget.sum_cost foldr] in Hx.
  apply add_cost_Some in Hx as (a & b & Ha & Hb & ->).
  assert (Hprev : under (S (S (S m))) (match ed_previous c with Some d => kd d | None => KNull end) (b.1 + 1, b.2 + 512)%N).
  { destruct (ed_previous c) as [d|].
    - cbn [foldr] in Hb. apply add_cost_Some in Hb as (y & z & Hy & [= <-] & ->).
      eapply under_weaken; [by apply (under_row (S (S m)))|lia|simpl; lia..].
    - eapply under_weaken; [apply (under_null (S (S m)))|lia|simpl; lia..]. }
  eapply under_weaken; [apply (under_dict (S (S (S m))) _ [("revision", (21, 532)%N); ("span", (100, 2000)%N);
    ("id", (1024 + 1, 1024 + 512)%N); ("operation", (6 + 1, 6 + 512)%N); ("changed", (a.1 + 1, a.2 + 512)%N);
    ("previous", (b.1 + 1, b.2 + 512)%N)]); [distinct|]|lia|..]; [|unfold entry_total, str_len; simpl; lia..].
  each_entry; [by apply under_uint|by apply span_under|by apply under_text| |by apply (under_row (S (S m)))|done].
  apply under_text. by destruct (ed_operation c).
Qed.

(** *** Pages *)

Definition page_valid (p : ChangesPage) : Prop :=
  array16 (cp_dataset p) ∧ array16 (cp_incarnation p) ∧ (cp_head p ≤ u64_max)%N ∧
  follows (cp_floor p) (cp_position p) 0 None (cp_changes p) ∧
  cp_complete p = (cp_position p =? cp_head p)%N.
Definition page_entries (p : ChangesPage) : list (string * Kind) :=
  [("dataset", text (hex (cp_dataset p))); ("incarnation", text (hex (cp_incarnation p)));
   ("head", uint (cp_head p)); ("floor", uint (cp_floor p)); ("position", uint (cp_position p));
   ("cursor", text (cp_cursor p)); ("complete", KBool (cp_complete p));
   ("changes", KList (change_kind <$> cp_changes p))].

Lemma page_to_kind_Ok p v :
  page_to_kind p = Ok v →
  v = envelope "changesPage" (kd (dict (page_entries p))) ∧
  (len (cp_changes p) ≤ 128)%N ∧ Forall (λ c, (str_len (ed_id c) ≤ 1024)%N) (cp_changes p) ∧
  (str_len (cp_cursor p) ≤ 1024)%N ∧ (cp_floor p ≤ cp_position p ≤ cp_head p)%N ∧
  ∃ x, ValueBudget.sum_cost (λ c, ValueBudget.sum_cost (ValueBudget.dict_cost row_levels) (diff_rows c))
         (cp_changes p) = Some x ∧ (x.1 ≤ 100000)%N ∧ (x.2 ≤ 4194304)%N.
Proof.
  unfold page_to_kind, MAX_OPERATIONS. destruct (_ || _) eqn:Hg; [done|]. intros H. step H u Hu.
  injection H as <-. rewrite !orb_false_iff, !N.ltb_ge in Hg. destruct Hg as (((((Hl & Hids) & _) & Hc) & Hf) & Hh).
  split; [done|]. split; [done|]. split.
  { apply Forall_forall. intros c Hin. rewrite <-not_true_iff_false, existsb_exists in Hids.
    destruct (N.le_gt_cases (str_len (ed_id c)) 1024) as [|Hgt]; [done|]. exfalso. apply Hids. exists c.
    rewrite <-list_elem_of_In. split; [done|]. apply orb_true_iff. right. by apply N.ltb_lt. }
  split; [done|]. split; [lia|]. apply measure_rows_Ok in Hu. unfold page_rows in Hu.
  by rewrite (sum_cost_bind _ diff_rows) in Hu.
Qed.

Lemma follows_bounds floor position last prev l :
  follows floor position last prev l →
  Forall (λ c, (0 < span_first (ed_span c) ≤ ed_revision c)%N ∧ (ed_revision c ≤ span_last (ed_span c) ≤ position)%N) l.
Proof.
  revert last prev. induction l as [|c l IH]; intros last prev; [constructor|].
  intros [(H1 & H2 & H3 & H4 & _) Hf]. constructor; [lia|]. by eapply IH.
Qed.

Lemma page_under p v :
  page_valid p → page_to_kind p = Ok v → under 54 (kd (dict (page_entries p))) (700000, 7000000)%N.
Proof.
  intros (Ha1 & Ha2 & Hmax & Hf & _) (-> & Hlen & Hids & Hcur & Hpos & x & Hx & H1 & H2)%page_to_kind_Ok.
  eapply under_weaken; [apply (under_dict 52 _ [("dataset", (32 + 1, 32 + 512)%N); ("incarnation", (32 + 1, 32 + 512)%N);
    ("head", (21, 532)%N); ("floor", (21, 532)%N); ("position", (21, 532)%N); ("cursor", (1024 + 1, 1024 + 512)%N);
    ("complete", (1, 512)%N);
    ("changes", (x.1 + 1400 * len (cp_changes p) + 1, x.2 + 7000 * len (cp_changes p) + 512)%N)]);
    [distinct|]|lia|..]; [|unfold entry_total, str_len; simpl; lia..].
  each_entry; [apply under_text; unfold str_len; rewrite hex_length, ?Ha1, ?Ha2; lia
    |apply under_text; unfold str_len; rewrite hex_length, ?Ha1, ?Ha2; lia
    |apply under_uint; lia..|by apply under_text|apply under_bool|].
  apply (under_items 51 _ _ _ _ _ _ Hx). apply follows_bounds in Hf. clear Hx Hlen.
  induction (cp_changes p) as [|c l IH]; [constructor|]. cbn [fmap list_fmap].
  inversion_clear Hids. inversion_clear Hf as [|?? Hc]. constructor; [|by apply IH].
  intros y Hy. apply (change_under 46); [done|lia|simpl; lia|done].
Qed.

Lemma page_read v p : page_from_kind v = Ok p → page_valid p ∧ page_to_kind p = Ok v.
Proof.
  unfold page_from_kind. intros H. step H u Hu. step H b Hb. apply body_exact in Hb as ->. step H d Hd.
  step H l Hl. apply value_Ok in Hl. destruct l as [| | | | | | | | | | | | | | | | | | | |items| |]; try done.
  destruct (_ <? _)%N; [done|]. step H floor Hfloor. apply number_Ok in Hfloor as [Hfloor _].
  step H position Hpos. apply number_Ok in Hpos as [Hpos Hpmax]. step H st Hst. destruct st as [[changes last] prev].
  apply changes_of_Ok in Hst as (l & -> & -> & Hf); [|done]. cbn [app] in *.
  step H h1 H1. apply string_of_Ok in H1. step H ds Hds. apply parse_hex_Ok in Hds as [Ha1 ->].
  step H h2 H2. apply string_of_Ok in H2. step H inc Hinc. apply parse_hex_Ok in Hinc as [Ha2 ->].
  step H head Hhead. apply number_Ok in Hhead as [Hhead Hmax]. step H cursor Hcur. apply string_of_Ok in Hcur.
  step H cv Hcv. apply value_Ok in Hcv. step H complete Hcomplete. step H k Hk.
  destruct (_ || _) eqn:Hg; [done|]. injection H as <-. apply orb_false_iff in Hg as [_ Hg].
  apply negb_false_iff, bool_decide_eq_true in Hg. split; [done|]. rewrite Hk.
  apply page_to_kind_Ok in Hk as [-> _]. do 2 f_equal. symmetry.
  eapply fields_exact; [|exact Hd|done|]; [distinct|]. repeat constructor; try done.
  cbn [fst snd cp_complete]. rewrite Hcv. by destruct cv; simplify_eq.
Qed.

Lemma page_written v p : page_valid p → page_to_kind p = Ok v → page_from_kind v = Ok p.
Proof.
  intros Hv Hk. pose proof (page_under _ _ Hv Hk) as Hu. destruct Hv as (Ha1 & Ha2 & Hmax & Hf & Hc).
  pose proof Hk as (-> & Hlen & _ & _ & Hpos & _)%page_to_kind_Ok. unfold page_from_kind.
  rewrite (check_envelope 53 _ _ 700000 7000000) by (done || lia).
  rewrite (proj2 (body_exact _ _ (kd (dict (page_entries p))))) by done.
  rewrite (fields_dict (page_entries p)) by distinct.
  rewrite (proj2 (value_Ok _ "changes" (KList (change_kind <$> cp_changes p)))) by done.
  rewrite len_fmap. destruct (N.ltb_spec MAX_OPERATIONS (len (cp_changes p))); [unfold MAX_OPERATIONS in *; lia|].
  rewrite (proj2 (number_Ok _ "floor" (cp_floor p))) by (split; [done|lia]).
  rewrite (proj2 (number_Ok _ "position" (cp_position p))) by (split; [done|lia]).
  assert (Hp64 : (cp_position p ≤ u64_max)%N) by lia.
  destruct (changes_written _ _ [] 0 None _ Hp64 Hf) as (last & prev & Hl & Hlast).
  rewrite Hl. cbn [app].
  rewrite (proj2 (string_of_Ok _ "dataset" (hex (cp_dataset p)))) by done.
  rewrite (proj2 (parse_hex_Ok _ (cp_dataset p))) by done.
  rewrite (proj2 (string_of_Ok _ "incarnation" (hex (cp_incarnation p)))) by done.
  rewrite (proj2 (parse_hex_Ok _ (cp_incarnation p))) by done.
  rewrite (proj2 (number_Ok _ "head" (cp_head p))) by done.
  rewrite (proj2 (string_of_Ok _ "cursor" (cp_cursor p))) by done.
  rewrite (proj2 (value_Ok _ "complete" (KBool (cp_complete p)))) by done.
  assert (Hp : p = mkChangesPage (cp_dataset p) (cp_incarnation p) (cp_head p) (cp_floor p) (cp_position p)
    (cp_cursor p) (cp_complete p) (cp_changes p)) by by destruct p.
  cbv zeta. rewrite <-Hp, Hk. destruct (N.ltb_spec (cp_position p) last); [lia|].
  by rewrite bool_decide_true.
Qed.

#[export] Instance ChangesPage_laws : EntityWireLaws ChangesPage page_valid.
Proof. intros v p. split; [apply page_read|intros [? ?]; by apply page_written]. Qed.
End laws.
