(* ===== verification/Feed.v ===== *)
(** * The change feed

    [haystack-app/src/feed.rs]: a page of the feed is traversed unit by unit
    from the position of a cursor, every change masked for the caller, and a
    unit is on the page entirely or not at all.  A cursor is the position with
    the identity of the dataset, the incarnation, the generation of the
    catalog and an expiry, under a code of authentication that also covers the
    caller and the scope of its policy.

    The clock of the service and how often the graph's lock was missed are
    the record [FeedScene]; the derived [Debug] text of a principal is the
    class [PrincipalText]. *)

From Stdlib Require Import Ascii.
From S2P Require Import Prelude Floats Kinds Size Extern Bitmap Adjacency ValueIndex Filter FilterParser Text Taxonomy Xeto Namespace Fitting Controlled Changelog Graph Prepared Query Application Sanitize View Reading ReadService WireText TypedPayload EntityWire.

Class PrincipalText : Type := { debug_principal : Principal → string }.

(** [u64::to_be_bytes] and [u64::from_be_bytes]. *)
Definition byte_of (n : N) : Byte.byte := default Byte.x00 (Byte.of_N (n mod 256)).
Fixpoint be_bytes (width : nat) (n : N) : bytes :=
  match width with
  | 0 => []
  | S w => byte_of (n / 256 ^ N.of_nat w) :: be_bytes w n
  end.
Definition from_be_bytes (l : bytes) : N := foldl (λ n b, n * 256 + Byte.to_N b)%N 0%N l.

(** What a request meets outside: how often it missed the lock and the
    readings of [feed_clock], in the order they are taken. *)
Record FeedScene : Type := mkFeedScene { fd_misses : nat; fd_clock : nat → N }.

(** [raw_diff]: a change as it was recorded. *)
Definition changed_of (d : GraphDiff) : HDict :=
  match diff_new d with
  | Some row => row
  | None => match changed_tags d with Some tags => tags | None => HDict.new end
  end.
Definition previous_of (d : GraphDiff) : option HDict :=
  match diff_old d with Some row => Some row | None => previous_tags d end.
Definition raw_diff (d : GraphDiff) : EntityDiff :=
  mkEntityDiff (version d) (span d) (diff_ref d) (diff_op d) (changed_of d) (previous_of d).

Module Feed.
Import Meter.

(** [MutationService], what the feed uses of it. *)
Record t : Type := mk {
  policy : Principal → result ReadError PolicySnapshot;
  dataset : bytes;
  cursor_key : bytes;
  cursor_ttl : N;
  page_bytes : N
}.

Section cursors.
Context {CC : CursorCrypto} {PT : PrincipalText} (service : t).

(** [mac]. *)
Definition mac (principal : Principal) (scope : string) (l : bytes) : bytes :=
  let who := as_bytes (debug_principal principal) in
  hmac (cursor_key service)
    (as_bytes "entity-feed-v1" ++ [Byte.x00] ++ as_bytes "typed-v1" ++ [Byte.x00] ++ l
     ++ be_bytes 8 (len who) ++ who ++ as_bytes scope).

(** The signed part of a cursor. *)
Definition cursor_payload (state : GraphState) (position expires : N) : bytes :=
  [Byte.x01] ++ dataset service ++ state_incarnation state ++ be_bytes 8 (state_catalog state)
  ++ be_bytes 8 position ++ be_bytes 8 expires.
Definition expiry (now : N) : N := N.min u64_max (now + cursor_ttl service).

(** [encode_cursor]. *)
Definition encode_cursor (principal : Principal) (scope : string) (state : GraphState) (now position : N)
    : string :=
  let l := cursor_payload state position (expiry now) in
  base64_encode (l ++ mac principal scope l).

(** [decode_cursor]. *)
Definition decode_cursor (cursor : string) (principal : Principal) (scope : string) (state : GraphState)
    (now : N) : result ReadError N :=
  if (128 <? str_len cursor)%N then Err StaleCursor
  else match base64_decode cursor with
  | None => Err StaleCursor
  | Some l =>
      if negb (bool_decide (length l = 89)) || negb (bool_decide (l !! 0 = Some Byte.x01))
      then Err StaleCursor
      else if negb (bool_decide (mac principal scope (take 57 l) = drop 57 l)) then Err StaleCursor
      else
        let number offset := from_be_bytes (take 8 (drop offset l)) in
        if negb (bool_decide (take 16 (drop 1 l) = dataset service))
           || negb (bool_decide (take 16 (drop 17 l) = state_incarnation state))
           || negb (number 33%nat =? state_catalog state)%N
           || (number 49%nat <=? now)%N
        then Err StaleCursor
        else Ok (number 41)
  end.
End cursors.

Section page.
Context {HO : HashOrder} {RB : Roaring} {CM : CacheMap} {ON : Ontology} {CA : Catalog} {AM : Ambient}.
Context {CH : Chrono} {B6 : Base64} {SJ : SerdeJson}.
Context {CC : CursorCrypto} {PT : PrincipalText}.
Context (service : t) (scene : FeedScene).
Context (principal : Principal) (request : ChangesRequest) (g : EntityGraph.t).

(** The changes of a unit the caller may see, masked. *)
Definition feed_change (p : PolicySnapshot) (changes : list EntityDiff) (d : GraphDiff)
    : B (list EntityDiff) :=
  charge BWork (saturating_add (str_len (diff_ref d)) 1);;
  if negb (p_entity p (diff_ref d)) || negb (p_tag p (diff_ref d) "id") then mret changes
  else
    changed ← Sanitize.record p (diff_ref d) (changed_of d);
    previous ← match previous_of d with
               | Some row => Sanitize.record p (diff_ref d) row
               | None => mret None
               end;
    id ← copy_string (diff_ref d);
    mret (changes ++ [mkEntityDiff (version d) (span d) id (diff_op d) (default HDict.new changed) previous]).
Definition feed_changes (p : PolicySnapshot) (unit : list GraphDiff) : B (list EntityDiff) :=
  fold (feed_change p) [] unit.

(** The page under construction. *)
Record Progress : Type := mkProgress {
  pg_used : N; pg_bound : N; pg_position : N; pg_changes : list EntityDiff; pg_readings : nat }.

Definition page_at (p : PolicySnapshot) (position : N) (readings : nat) (changes : list EntityDiff)
    : ChangesPage :=
  let state := EntityGraph.state g in
  mkChangesPage (dataset service) (state_incarnation state) (state_revision state)
    (ChangeLog.floor (EntityGraph.changelog g)) position
    (encode_cursor service principal (scope_key p) state (fd_clock scene readings) position)
    (position =? state_revision state)%N changes.

Definition unit_last (unit : list GraphDiff) : N :=
  match unit with d :: _ => span_last (span d) | [] => 0%N end.

(** The loop over the units. *)
Fixpoint feed_units (p : PolicySnapshot) (units : list (list GraphDiff)) (st : Progress) : B Progress :=
  match units with
  | [] => mret st
  | unit :: units =>
      check;;
      if (ch_max_diffs request - pg_used st <? len unit)%N then
        if (pg_used st =? 0)%N then throw UnitTooLarge else mret st
      else
        charge BWork (len unit);;
        charge BRetained (saturating_mul (total_bytes unit) 4);;
        changes ← feed_changes p unit;
        check;;
        match Entity.encode (page_at p (unit_last unit) (pg_readings st) changes) with
        | Err _ => throw UnitTooLarge
        | Ok b =>
            if (page_bytes service <? len b)%N then throw UnitTooLarge
            else if (page_bytes service - pg_bound st <? len b)%N
            then mret (mkProgress (pg_used st) (pg_bound st) (pg_position st) (pg_changes st)
                         (S (pg_readings st)))
            else feed_units p units
                   (mkProgress (pg_used st + len unit) (pg_bound st + len b) (unit_last unit)
                      (pg_changes st ++ changes) (S (pg_readings st)))
        end
  end.

(** The guards before the graph is looked at. *)
Definition feed_policy : B PolicySnapshot :=
  match to_kind request with
  | Err _ => throw (InvalidQuery "invalid changes request")
  | Ok _ =>
      l ← asks limits;
      if (ReadLimits.max_input_bytes l <? Principal.bytes principal)%N
         || match principal with
            | Authenticated _ permissions => (ReadLimits.max_ids l <? len permissions)%N
            | _ => false
            end
      then throw (BudgetExceeded BInput)
      else
        check;;
        match policy service principal with
        | Err e => throw e
        | Ok p =>
            check;;
            if negb (p_operation p OpChanges) then throw Forbidden
            else if (ReadLimits.max_input_bytes l <? str_len (scope_key p))%N
            then throw (BudgetExceeded BInput)
            else mret p
        end
  end.

(** [feed_page]. *)
Definition feed_page : B ChangesPage :=
  p ← feed_policy;
  ReadService.acquire (fd_misses scene);;
  let state := EntityGraph.state g in
  let log := ChangeLog.log (EntityGraph.changelog g) in
  position ← match ch_cursor request with
             | Some cursor =>
                 match decode_cursor service cursor principal (scope_key p) state (fd_clock scene 0) with
                 | Ok n => mret n
                 | Err e => throw e
                 end
             | None => mret (state_revision state)
             end;
  match EntityGraph.change_units_since g position with
  | Err _ => throw StaleCursor
  | Ok start =>
      st ← feed_units p (ChangeLog.drain (S (length log)) log start) (mkProgress 0 0 position [] 1);
      check;;
      let page := page_at p (pg_position st) (pg_readings st) (pg_changes st) in
      match Entity.encode page with
      | Err _ => throw UnitTooLarge
      | Ok b => if (page_bytes service <? len b)%N then throw UnitTooLarge else mret page
      end
  end.
End page.
End Feed.
