(* ===== verification/FeedFacts.v ===== *)
(** * The change feed: cursors and pages

    Cursors: eight big-endian bytes hold a [u64] exactly, so a cursor reads
    back to the position it was issued for, and only bytes of that form with
    the caller's code of authentication are accepted.

    Pages: the units the loop takes are a prefix of the complete units after
    the position; the changes of a page are those of the units, masked and in
    order, which is what the reader of a page on the wire requires
    ([units_follow]). *)

From Stdlib Require Import Ascii.
From S2P Require Import Prelude Floats Kinds Size Extern Bitmap Adjacency ValueIndex Filter FilterParser Text Taxonomy Xeto Namespace Fitting Controlled Changelog Graph GraphInv Prepared Query Application MeterFacts Sanitize SanitizeFacts View Reading ReadService ReadServiceFacts WireText TypedPayload TypedFacts EntityWire EntityWireFacts EntityWireLaws Feed.

Import Meter MeterFacts Feed.

(** ** Eight bytes *)

Lemma byte_of_N n : Byte.to_N (byte_of n) = (n mod 256)%N.
Proof.
  unfold byte_of. destruct (Byte.of_N (n mod 256)) as [b|] eqn:Hb; simpl; [by apply Byte.to_of_N in Hb|].
  apply Byte.of_N_None_iff in Hb. pose proof (N.mod_lt n 256). lia.
Qed.
Lemma byte_of_to_N b : byte_of (Byte.to_N b) = b.
Proof. by destruct b. Qed.
Lemma length_be_bytes w n : length (be_bytes w n) = w.
Proof. induction w as [|w IH]; [done|]. simpl. by rewrite IH. Qed.

Lemma from_be_mod w n acc :
  foldl (λ n b, n * 256 + Byte.to_N b)%N acc (be_bytes w n) =
  (acc * 256 ^ N.of_nat w + n mod 256 ^ N.of_nat w)%N.
Proof.
  revert acc. induction w as [|w IH]; intros acc; [simpl; rewrite N.mod_1_r; lia|].
  cbn [be_bytes foldl]. rewrite IH, byte_of_N, Nat2N.inj_succ, N.pow_succ_r',
    (N.mul_comm 256 (256 ^ N.of_nat w)), N.Div0.mod_mul_r. lia.
Qed.
Lemma from_be_bytes_be n : (n ≤ u64_max)%N → from_be_bytes (be_bytes 8 n) = n.
Proof.
  intros Hn. unfold from_be_bytes. rewrite from_be_mod. change (256 ^ N.of_nat 8)%N with (2 ^ 64)%N.
  unfold u64_max in Hn. rewrite N.mod_small; lia.
Qed.

(** The bytes are determined by the number. *)
Lemma from_be_bounds l acc :
  (acc * 256 ^ len l ≤ foldl (λ n b, n * 256 + Byte.to_N b)%N acc l < (acc + 1) * 256 ^ len l)%N.
Proof.
  revert acc. induction l as [|b l IH]; intros acc; [rewrite len_nil, N.pow_0_r; simpl; lia|]. cbn [foldl]. specialize (IH (acc * 256 + Byte.to_N b)%N).
  pose proof (Byte.to_N_bounded b). rewrite len_cons, N.add_1_l, N.pow_succ_r'. nia.
Qed.
Lemma be_from_be l acc : be_bytes (length l) (foldl (λ n b, n * 256 + Byte.to_N b)%N acc l) = l.
Proof.
  revert acc. induction l as [|b l IH]; intros acc; [done|]. cbn [length be_bytes foldl].
  f_equal; [|apply IH]. pose proof (from_be_bounds l (acc * 256 + Byte.to_N b)) as Hb. unfold len in Hb.
  set (n := foldl _ _ l) in *.
  assert (n / 256 ^ N.of_nat (length l) = acc * 256 + Byte.to_N b)%N as ->.
  { symmetry. apply (N.div_unique _ _ _ (n - (acc * 256 + Byte.to_N b) * 256 ^ N.of_nat (length l))); lia. }
  unfold byte_of. rewrite (N.add_comm (acc * 256)), N.Div0.mod_add, N.mod_small.
  - by rewrite Byte.of_to_N.
  - pose proof (Byte.to_N_bounded b). lia.
Qed.
Lemma be_from_be_bytes l : length l = 8 → be_bytes 8 (from_be_bytes l) = l.
Proof. intros <-. apply be_from_be. Qed.
Lemma from_be_bytes_max l : length l = 8 → (from_be_bytes l ≤ u64_max)%N.
Proof.
  intros Hl. pose proof (from_be_bounds l 0) as Hb. unfold len in Hb. rewrite Hl in Hb.
  unfold from_be_bytes, u64_max. change (256 ^ N.of_nat 8)%N with (2 ^ 64)%N in Hb. lia.
Qed.

(** ** Cursors *)

(** URL-safe Base64 without padding writes 89 bytes as 119 characters, and
    accepts only what it writes. *)
Class FeedCursorLaws `{CursorCrypto} : Prop := {
  base64_feed_length l : length l = 89 → str_len (base64_encode l) = 119%N;
  base64_canonical s l : base64_decode s = Some l → base64_encode l = s
}.

Section cursors.
Context {CC : CursorCrypto} {CCL : CursorCryptoLaws} {FCL : FeedCursorLaws} {PT : PrincipalText}.
Context (service : Feed.t) (state : GraphState).
Context (Hds : array16 (dataset service)) (Hinc : array16 (state_incarnation state)).

Lemma length_payload position expires : length (cursor_payload service state position expires) = 57.
Proof using Hds Hinc.
  unfold cursor_payload. rewrite !length_app, !length_be_bytes. unfold array16 in *. simpl. lia.
Qed.

(** The fields of a cursor of 89 bytes. *)
Lemma payload_fields position expires tag :
  (state_catalog state ≤ u64_max)%N → (position ≤ u64_max)%N → (expires ≤ u64_max)%N →
  let l := cursor_payload service state position expires ++ tag in
  take 57 l = cursor_payload service state position expires ∧ drop 57 l = tag ∧
  l !! 0 = Some Byte.x01 ∧ take 16 (drop 1 l) = dataset service ∧
  take 16 (drop 17 l) = state_incarnation state ∧
  from_be_bytes (take 8 (drop 33 l)) = state_catalog state ∧
  from_be_bytes (take 8 (drop 41 l)) = position ∧ from_be_bytes (take 8 (drop 49 l)) = expires.
Proof using Hds Hinc.
  intros H1 H2 H3 l. pose proof (length_payload position expires) as Hl.
  split; [by apply take_app_length'|]. split; [by apply drop_app_length'|].
  split; [done|]. subst l. unfold cursor_payload. rewrite <-!app_assoc.
  set (a := dataset service) in *. set (b := state_incarnation state) in *.
  assert (Hdrop : ∀ (x y : bytes) n k, length x = n → drop (n + k) (x ++ y) = drop k y).
  { intros x y n k <-. by rewrite drop_app_add. }
  assert (Htake : ∀ (x y : bytes) n, length x = n → take n (x ++ y) = x).
  { intros x y n <-. apply take_app_length. }
  unfold array16 in *. split; [by apply Htake|].
  rewrite (Hdrop [Byte.x01] _ 1 16), (Hdrop [Byte.x01] _ 1 32), (Hdrop [Byte.x01] _ 1 40), (Hdrop [Byte.x01] _ 1 48) by done.
  rewrite (Hdrop a _ 16 0), (Hdrop a _ 16 16), (Hdrop a _ 16 24), (Hdrop a _ 16 32) by done.
  rewrite drop_0, (Hdrop b _ 16 0), (Hdrop b _ 16 8), (Hdrop b _ 16 16), drop_0 by done.
  assert (Hbe : ∀ n, length (be_bytes 8 n) = 8) by (intros; apply length_be_bytes).
  rewrite (Hdrop (be_bytes 8 (state_catalog state)) _ 8 0), (Hdrop (be_bytes 8 (state_catalog state)) _ 8 8) by apply Hbe.
  rewrite drop_0, (Hdrop (be_bytes 8 position) _ 8 0), drop_0 by apply Hbe.
  rewrite !Htake by (done || apply Hbe). by rewrite !from_be_bytes_be.
Qed.

Lemma cursor_read principal scope issued now position :
  (state_catalog state ≤ u64_max)%N → (position ≤ u64_max)%N →
  decode_cursor service (encode_cursor service principal scope state issued position) principal scope state now
  = if (expiry service issued <=? now)%N then Err StaleCursor else Ok position.
Proof using Hds Hinc CCL FCL.
  intros Hcat Hpos. unfold encode_cursor, decode_cursor.
  set (l := cursor_payload service state position (expiry service issued)).
  assert (He : (expiry service issued ≤ u64_max)%N) by (unfold expiry; lia).
  assert (Hlen : length (l ++ mac service principal scope l) = 89).
  { rewrite length_app. unfold l. rewrite length_payload. unfold mac. by rewrite hmac_length. }
  rewrite base64_feed_length by done. cbn [N.ltb N.compare]. rewrite base64_roundtrip.
  destruct (payload_fields position (expiry service issued) (mac service principal scope l) Hcat Hpos He)
    as (F1 & F2 & F3 & F4 & F5 & F6 & F7 & F8). fold l in F1, F2, F3, F4, F5, F6, F7, F8.
  rewrite Hlen, F1, F2, F3, F4, F5, F6, F7, F8.
  rewrite !bool_decide_true by done. cbn [negb orb]. by rewrite N.eqb_refl.
Qed.

(** A cursor is accepted for no other position, whatever the state of the graph
    by then. *)
Lemma cursor_carries principal scope issued position principal' scope' state' now q :
  (state_catalog state ≤ u64_max)%N → (position ≤ u64_max)%N →
  decode_cursor service (encode_cursor service principal scope state issued position) principal' scope' state' now
    = Ok q → q = position.
Proof using Hds Hinc CCL.
  intros Hcat Hpos. unfold encode_cursor, decode_cursor. destruct (_ <? _)%N; [done|].
  rewrite base64_roundtrip. set (l := cursor_payload service state position (expiry service issued)).
  assert (He : (expiry service issued ≤ u64_max)%N) by (unfold expiry; lia).
  destruct (payload_fields position (expiry service issued) (mac service principal scope l) Hcat Hpos He)
    as (_ & _ & _ & _ & _ & _ & F7 & _). fold l in F7. rewrite F7.
  destruct (_ || _); [done|]. destruct (negb _); [done|]. destruct (_ || _); [done|]. by intros [= <-].
Qed.

Lemma cursor_accepted c principal scope now position :
  (state_catalog state ≤ u64_max)%N →
  decode_cursor service c principal scope state now = Ok position →
  ∃ expires, (now < expires ≤ u64_max)%N ∧ (position ≤ u64_max)%N ∧
    c = base64_encode (cursor_payload service state position expires ++
          mac service principal scope (cursor_payload service state position expires)).
Proof using Hds Hinc FCL.
  intros Hcat. unfold decode_cursor. destruct (_ <? _)%N; [done|].
  destruct (base64_decode c) as [l|] eqn:Hl; [|done]. apply base64_canonical in Hl as <-.
  destruct (bool_decide (length l = 89)) eqn:Hlen; [|done]. apply bool_decide_eq_true in Hlen.
  destruct (bool_decide (l !! 0 = _)) eqn:H0; [|done]. apply bool_decide_eq_true in H0. cbn [negb orb].
  destruct (bool_decide (mac _ _ _ _ = _)) eqn:Hmac; [|done]. apply bool_decide_eq_true in Hmac. cbn [negb].
  destruct (bool_decide (take 16 (drop 1 l) = _)) eqn:H1; [|done]. apply bool_decide_eq_true in H1.
  destruct (bool_decide (take 16 (drop 17 l) = _)) eqn:H2; [|done]. apply bool_decide_eq_true in H2.
  destruct (N.eqb_spec (from_be_bytes (take 8 (drop 33 l))) (state_catalog state)) as [H3|]; [|done].
  destruct (N.leb_spec (from_be_bytes (take 8 (drop 49 l))) now) as [|H4]; [done|]. intros [= <-].
  assert (H8 : ∀ n, n + 8 ≤ 89 → length (take 8 (drop n l)) = 8) by (intros; rewrite length_take, length_drop; lia).
  exists (from_be_bytes (take 8 (drop 49 l))).
  split; [split; [done|apply from_be_bytes_max, H8; lia]|]. split; [apply from_be_bytes_max, H8; lia|].
  assert (Hp : take 57 l = cursor_payload service state (from_be_bytes (take 8 (drop 41 l)))
                             (from_be_bytes (take 8 (drop 49 l)))).
  { unfold cursor_payload. rewrite <-H1, <-H2, <-H3, !be_from_be_bytes by (apply H8; lia).
    do 58 (destruct l as [|? l]; [simpl in Hlen; lia|]). cbn in H0 |- *. by injection H0 as ->. }
  rewrite <-Hp, Hmac. by rewrite take_drop.
Qed.
End cursors.

(** ** Units after a position *)

(** A boundary: the entry before it ends its unit. *)
Lemma unit_boundary us i d :
  Forall ChangeLog.complete_unit us → concat us !! i = Some d → span_last (span d) = version d →
  ∃ us1 us2, us = us1 ++ us2 ∧ length (concat us1) = S i.
Proof.
  revert i. induction us as [|u us IH]; intros i Hus Hi Hd; [done|].
  apply Forall_cons in Hus as [Hu Hus]. cbn [concat] in Hi.
  destruct (decide (i < length u)) as [Hlt|Hge].
  - rewrite lookup_app_l in Hi by done. exists [u], us. split; [done|]. cbn [concat]. rewrite app_nil_r.
    destruct Hu as (s & Hle & Hs & Hv). pose proof (ChangeLog.complete_unit_len _ _ Hs Hv) as Hlen.
    rewrite Forall_lookup in Hs. rewrite (Hs i d Hi) in Hd.
    assert (Hvi : (version <$> u) !! i = Some (version d)) by by rewrite list_lookup_fmap, Hi.
    rewrite Hv in Hvi. apply lookup_seqN in Hvi as [Hvi _]. unfold len in Hlen. lia.
  - rewrite lookup_app_r in Hi by lia. destruct (IH _ Hus Hi Hd) as (us1 & us2 & -> & Hl).
    exists (u :: us1), us2. split; [done|]. cbn [concat]. rewrite length_app. lia.
Qed.

(** What the iterator from a position yields: the complete units after it. *)
Lemma units_since head c v start :
  ChangeLog.wf head c → ChangeLog.change_units_since c head v = Ok start →
  ∃ gone us, ChangeLog.drain (S (length (ChangeLog.log c))) (ChangeLog.log c) start = us ∧
    ChangeLog.log c = concat gone ++ concat us ∧ Forall ChangeLog.complete_unit gone ∧
    Forall ChangeLog.complete_unit us ∧
    (ChangeLog.floor c + len (concat gone))%N = v ∧ (v + len (concat us))%N = head.
Proof.
  intros Hwf. pose proof Hwf as [Hc Hh (us & Hus & Hcomplete) _ _ _]. unfold ChangeLog.change_units_since.
  case_decide; [done|]. case_decide; [done|].
  rewrite (ChangeLog.partition_point_contiguous (ChangeLog.floor c)) by (done || lia).
  set (n := N.to_nat (v - ChangeLog.floor c)).
  assert (Hsplit : ∀ us1 us2, us = us1 ++ us2 → length (concat us1) = n → 
    ∃ gone ws, ChangeLog.drain (S (length (ChangeLog.log c))) (ChangeLog.log c) n = ws ∧
      ChangeLog.log c = concat gone ++ concat ws ∧ Forall ChangeLog.complete_unit gone ∧
      Forall ChangeLog.complete_unit ws ∧
      (ChangeLog.floor c + len (concat gone))%N = v ∧ (v + len (concat ws))%N = head).
  { intros us1 us2 -> Hlen. rewrite Hus in *. rewrite concat_app in *. apply Forall_app in Hcomplete as [Hc1 Hc2].
    exists us1, us2. split.
    { rewrite <-Hlen. apply ChangeLog.drain_units; [done|]. rewrite length_app. lia. }
    split; [done|]. split; [done|]. split; [done|]. rewrite len_app in Hh.
    assert (Hl1 : (ChangeLog.floor c + len (concat us1) = v)%N) by (unfold len; lia). split; [done|lia]. }
  destruct n as [|i] eqn:Hn.
  - intros [= <-]. by apply (Hsplit [] us).
  - assert (Hi : i < length (ChangeLog.log c)) by (unfold len in *; lia).
    destruct (lookup_lt_is_Some_2 _ _ Hi) as [d Hd]. rewrite Hd. case_decide as Hspan; [|done]. intros [= <-].
    pose proof (ChangeLog.contiguous_version _ _ _ _ Hc Hd) as Hv. rewrite Hus in Hd.
    destruct (unit_boundary us i d Hcomplete Hd) as (us1 & us2 & Heq & Hlen); [lia|].
    by apply (Hsplit us1 us2).
Qed.

(** ** Masked changes *)

Section masked.
Context (p : PolicySnapshot).

(** The change a caller sees, if it sees it. *)
Definition masked_change (d : GraphDiff) : option EntityDiff :=
  if p_entity p (diff_ref d) && p_tag p (diff_ref d) "id"
  then Some (mkEntityDiff (version d) (span d) (diff_ref d) (diff_op d)
               (default HDict.new (Sanitize.masked p (diff_ref d) (changed_of d)))
               (previous_of d ≫= Sanitize.masked p (diff_ref d)))
  else None.
Definition masked_unit (u : list GraphDiff) : list EntityDiff := omap masked_change u.

Lemma masked_place d c : masked_change d = Some c → ed_revision c = version d ∧ ed_span c = span d ∧ ed_id c = diff_ref d.
Proof. unfold masked_change. destruct (_ && _); [|done]. by intros [= <-]. Qed.

(** Where a page stands after some changes. *)
Definition last_of (last : N) (l : list EntityDiff) : N := foldl (λ _ c, ed_revision c) last l.
Definition span_of_last (prev : option CommitSpan) (l : list EntityDiff) : option CommitSpan :=
  foldl (λ _ c, Some (ed_span c)) prev l.
Lemma follows_app floor position last prev l k :
  follows floor position last prev (l ++ k) ↔
  follows floor position last prev l ∧ follows floor position (last_of last l) (span_of_last prev l) k.
Proof.
  revert last prev. induction l as [|c l IH]; intros last prev; simpl; [naive_solver|].
  rewrite IH. naive_solver.
Qed.

(** Standing at or before [lo]. *)
Definition stands (lo last : N) (prev : option CommitSpan) : Prop :=
  (last ≤ lo)%N ∧ ∀ old, prev = Some old → (span_last old ≤ lo)%N.

Lemma unit_follows floor position s u lo last prev :
  Forall (λ d, span d = s) u → version <$> u = seqN lo (len u) →
  (span_first s ≤ lo)%N → (lo + len u ≤ span_last s + 1)%N → (floor < span_first s)%N → (span_last s ≤ position)%N →
  (last < lo)%N → (∀ old, prev = Some old → old = s ∨ (span_last old < span_first s)%N) →
  follows floor position last prev (masked_unit u) ∧
  (last_of last (masked_unit u) < lo + len u)%N ∧
  (span_of_last prev (masked_unit u) = prev ∨ span_of_last prev (masked_unit u) = Some s).
Proof.
  revert lo last prev. induction u as [|d u IH]; intros lo last prev Hs Hv H1 H2 H3 H4 Hlast Hprev.
  - simpl. split; [done|]. split; [rewrite len_nil; lia|by left].
  - apply Forall_cons in Hs as [Hd Hs]. rewrite len_cons, seqN_app, seqN_1 in Hv. simpl in Hv.
    injection Hv as Hvd Hv. rewrite len_cons in *.
    assert (Hm : masked_unit (d :: u) = match masked_change d with Some c => c :: masked_unit u | None => masked_unit u end)
      by done.
    rewrite Hm. clear Hm. destruct (masked_change d) as [c|] eqn:Hc.
    + destruct (masked_place _ _ Hc) as (Hr & Hsp & _). rewrite Hd in Hsp. cbn [follows last_of span_of_last foldl].
      destruct (IH (lo + 1)%N (ed_revision c) (Some (ed_span c))) as (F & F1 & F2); try done; try lia.
      { intros old [= <-]. by left. }
      split; [split; [|done]|].
      * unfold in_place. rewrite Hsp, Hr, Hvd. split; [lia|]. repeat (split; [lia|]). done.
      * split; [unfold last_of in F1; lia|]. right. rewrite Hsp in F2 |- *. unfold span_of_last in F2.
        by destruct F2.
    + destruct (IH (lo + 1)%N last prev) as (F & F1 & F2); try done; try lia.
      split; [done|]. split; [lia|done].
Qed.

(** The span of a unit that begins after [lo]. *)
Lemma unit_start lo u :
  ChangeLog.complete_unit u → ChangeLog.contiguous lo u →
  ∃ s, Forall (λ d, span d = s) u ∧ span_first s = (lo + 1)%N ∧ span_last s = (lo + len u)%N.
Proof.
  intros Hu Hc. pose proof (ChangeLog.complete_unit_ne _ Hu) as Hne. destruct Hu as (s & Hle & Hs & Hv).
  pose proof (ChangeLog.complete_unit_len _ _ Hs Hv) as Hlen. exists s. split; [done|].
  destruct u as [|d u]; [done|]. pose proof (ChangeLog.contiguous_version _ _ 0 d Hc eq_refl) as Hd.
  assert (Hd' : (version <$> d :: u) !! 0 = Some (version d)) by done. rewrite Hv in Hd'.
  apply lookup_seqN in Hd' as [Hd' _]. lia.
Qed.

(** The changes of consecutive complete units are in order. *)
Lemma units_follow floor position us lo last prev :
  Forall ChangeLog.complete_unit us → ChangeLog.contiguous lo (concat us) →
  (floor ≤ lo)%N → (lo + len (concat us) ≤ position)%N → stands lo last prev →
  follows floor position last prev (us ≫= masked_unit).
Proof.
  revert lo last prev. induction us as [|u us IH]; intros lo last prev Hus Hc Hf Hp [Hl Hpr]; [done|].
  apply Forall_cons in Hus as [Hu Hus]. cbn [concat] in Hc, Hp. apply ChangeLog.contiguous_app in Hc as [Hc1 Hc2].
  rewrite len_app in Hp. destruct (unit_start lo u Hu Hc1) as (s & Hs & Hfirst & Hlast).
  destruct (unit_follows floor position s u (lo + 1) last prev) as (F & F1 & F2); try done; try lia.
  { intros old Hold. right. specialize (Hpr old Hold). lia. }
  change ((u :: us) ≫= masked_unit) with (masked_unit u ++ (us ≫= masked_unit)). apply follows_app. split; [done|].
  apply (IH (lo + len u)%N); [done|done|lia|lia|]. split; [lia|].
  intros old Hold. destruct F2 as [E|E]; rewrite E in Hold; [specialize (Hpr old Hold); lia|].
  injection Hold as <-. lia.
Qed.
End masked.

(** ** Running the feed *)

Section run.
Context {HO : HashOrder} {HL : HashOrderLaws} {RB : Roaring} {CM : CacheMap} {ON : Ontology} {CA : Catalog}.
Context {AM : Ambient} {CH : Chrono} {B6 : Base64} {SJ : SerdeJson} {CC : CursorCrypto} {PT : PrincipalText}.
Context (service : Feed.t) (scene : FeedScene).
Context (principal : Principal) (request : ChangesRequest) (g : EntityGraph.t) (L : ReadLimits.t).

Lemma delivers_Ok {A} (m : B A) a b x b' :
  delivers L m a → limits b = L → m b = (Ok x, b') → x = a ∧ limits b' = L.
Proof.
  intros Hm Hb Hrun. destruct (Hm b Hb) as (r & b1 & Hr & Hb1 & Hs). rewrite Hrun in Hr.
  injection Hr as <- <-. destruct Hs as [[= ->]|(e & ? & _)]; done.
Qed.

Lemma record_delivers p id raw : delivers L (Sanitize.record p id raw) (Sanitize.masked p id raw).
Proof using HL. eapply meets_delivers, SanitizeFacts.record_meets. Qed.

Lemma feed_changes_delivers p u : delivers L (feed_changes p u) (masked_unit p u).
Proof using HL.
  unfold feed_changes, masked_unit.
  assert (Heq : omap (masked_change p) u = foldl (λ l d,
    match masked_change p d with Some c => l ++ [c] | None => l end) [] u).
  { by rewrite SanitizeFacts.foldl_snoc_omap. }
  rewrite Heq. apply delivers_fold. intros l d _. unfold feed_change, masked_change.
  eapply delivers_bind; [apply delivers_charge|].
  destruct (p_entity p (diff_ref d)), (p_tag p (diff_ref d) "id"); cbn [negb orb andb]; try apply delivers_ret.
  eapply delivers_bind; [apply record_delivers|].
  eapply (delivers_bind _ _ _ (previous_of d ≫= Sanitize.masked p (diff_ref d))).
  { destruct (previous_of d); [apply record_delivers|apply delivers_ret]. }
  eapply delivers_bind; [apply delivers_copy|apply delivers_ret].
Qed.

(** The position after some units. *)
Definition position_after (position : N) (us : list (list GraphDiff)) : N :=
  foldl (λ _ u, unit_last u) position us.

Lemma feed_units_run p units st b st' b' :
  limits b = L → feed_units service scene principal request g p units st b = (Ok st', b') →
  limits b' = L ∧ ∃ taken rest, units = taken ++ rest ∧
    pg_changes st' = pg_changes st ++ (taken ≫= masked_unit p) ∧
    pg_position st' = position_after (pg_position st) taken ∧
    (len (concat taken) ≤ ch_max_diffs request - pg_used st)%N ∧
    (rest ≠ [] → taken = [] → pg_used st ≠ 0%N ∨ pg_bound st ≠ 0%N).
Proof using HL.
  revert st b. induction units as [|u units IH]; intros st b Hb Hrun; cbn [feed_units] in Hrun.
  { injection Hrun as <- <-. split; [done|]. exists [], [].
    split; [done|]. split; [by rewrite app_nil_r|]. split; [done|]. split; [exact (N.le_0_l _)|done]. }
  assert (Hstop : st' = st ∨ (∃ n, st' = mkProgress (pg_used st) (pg_bound st) (pg_position st) (pg_changes st) n) →
    limits b' = L → pg_used st ≠ 0%N ∨ pg_bound st ≠ 0%N →
    limits b' = L ∧ ∃ taken rest, u :: units = taken ++ rest ∧
      pg_changes st' = pg_changes st ++ (taken ≫= masked_unit p) ∧
      pg_position st' = position_after (pg_position st) taken ∧
      (len (concat taken) ≤ ch_max_diffs request - pg_used st)%N ∧
      (rest ≠ [] → taken = [] → pg_used st ≠ 0%N ∨ pg_bound st ≠ 0%N)).
  { intros Hst Hb' Hnz. split; [done|]. exists [], (u :: units).
    destruct Hst as [->|[n ->]]; (split; [done|]); (split; [by rewrite app_nil_r|]); (split; [done|]); (split; [exact (N.le_0_l _)|done]). }
  apply ReadServiceFacts.b_bind_ok in Hrun as ([] & b1 & Hcheck & Hrun). eapply delivers_Ok in Hcheck as [_ Hb1]; [|apply delivers_check|done].
  destruct (N.ltb_spec (ch_max_diffs request - pg_used st) (len u)) as [Hbig|Hfit].
  { destruct (N.eqb_spec (pg_used st) 0); [done|]. injection Hrun as <- <-. apply Hstop; eauto. }
  apply ReadServiceFacts.b_bind_ok in Hrun as ([] & b2 & H2 & Hrun). eapply delivers_Ok in H2 as [_ Hb2]; [|apply delivers_charge|done].
  apply ReadServiceFacts.b_bind_ok in Hrun as ([] & b3 & H3 & Hrun). eapply delivers_Ok in H3 as [_ Hb3]; [|apply delivers_charge|done].
  apply ReadServiceFacts.b_bind_ok in Hrun as (cs & b4 & H4 & Hrun). 
  eapply delivers_Ok in H4 as [E Hb4]; [|apply feed_changes_delivers|done]. subst cs.
  apply ReadServiceFacts.b_bind_ok in Hrun as ([] & b5 & H5 & Hrun). eapply delivers_Ok in H5 as [_ Hb5]; [|apply delivers_check|done].
  destruct (Entity.encode _) as [l|]; [|done]. destruct (N.ltb_spec (page_bytes service) (len l)) as [|Hsize]; [done|].
  destruct (N.ltb_spec (page_bytes service - pg_bound st) (len l)).
  { injection Hrun as <- <-. apply Hstop; [eauto|done|right; lia]. }
  apply IH in Hrun as (Hb' & taken & rest & -> & Hc & Hp & Hlen & _); [|done]. split; [done|].
  exists (u :: taken), rest. split; [done|].
  cbn [pg_changes pg_position pg_used] in *. change ((u :: taken) ≫= masked_unit p) with (masked_unit p u ++ (taken ≫= masked_unit p)).
  split; [by rewrite Hc, app_assoc|]. split; [done|]. cbn [concat]. rewrite len_app. split; [lia|done].
Qed.

(** ** A page *)

Lemma position_after_units position us :
  Forall ChangeLog.complete_unit us → ChangeLog.contiguous position (concat us) →
  position_after position us = (position + len (concat us))%N.
Proof.
  revert position. induction us as [|u us IH]; intros position Hus Hc; [simpl; rewrite len_nil; lia|].
  apply Forall_cons in Hus as [Hu Hus]. cbn [concat] in *. apply ChangeLog.contiguous_app in Hc as [Hc1 Hc2].
  rewrite len_app. unfold position_after in *. cbn [foldl].
  assert (unit_last u = position + len u)%N as ->; [|rewrite IH by done; lia].
  destruct (unit_start position u Hu Hc1) as (s & Hs & _ & Hlast). pose proof (ChangeLog.complete_unit_ne _ Hu).
  destruct u as [|d u]; [done|]. apply Forall_cons in Hs as [Hs _]. cbn [unit_last]. by rewrite Hs.
Qed.

(** The changes after one revision up to another. *)
Definition between (lo hi : N) (l : list GraphDiff) : list GraphDiff :=
  filter (λ d, lo < version d ≤ hi)%N l.
Lemma contiguous_bounds lo l d :
  ChangeLog.contiguous lo l → d ∈ l → (lo < version d ≤ lo + len l)%N.
Proof.
  intros Hc [i Hi]%list_elem_of_lookup. pose proof (ChangeLog.contiguous_version _ _ _ _ Hc Hi).
  apply lookup_lt_Some in Hi. unfold len. lia.
Qed.
Lemma between_middle lo gone l rest :
  ChangeLog.contiguous lo (gone ++ l ++ rest) →
  between (lo + len gone) (lo + len gone + len l) (gone ++ l ++ rest) = l.
Proof.
  intros Hc. pose proof Hc as [H1 H2]%ChangeLog.contiguous_app. apply ChangeLog.contiguous_app in H2 as [H2 H3].
  unfold between. rewrite !filter_app, list_filter_none, list_filter_all, list_filter_none, app_nil_r.
  - done.
  - intros d Hd. pose proof (contiguous_bounds _ _ _ H3 Hd). lia.
  - intros d Hd. pose proof (contiguous_bounds _ _ _ H2 Hd). lia.
  - intros d Hd. pose proof (contiguous_bounds _ _ _ H1 Hd). lia.
Qed.
Lemma between_split lo mid hi base l :
  ChangeLog.contiguous base l → (lo ≤ mid ≤ hi)%N → between lo hi l = between lo mid l ++ between mid hi l.
Proof.
  revert base. induction l as [|d l IH]; intros base Hc Hm; [done|].
  change (d :: l) with ([d] ++ l) in Hc. pose proof Hc as [H1 H2]%ChangeLog.contiguous_app.
  specialize (IH _ H2 Hm). unfold between in *. rewrite !filter_cons.
  destruct (decide (lo < version d ≤ mid)%N) as [Hd|Hd].
  - rewrite decide_True, (decide_False (P := (mid < _ ≤ _)%N)) by lia. cbn [app]. by rewrite IH.
  - destruct (decide (mid < version d ≤ hi)%N) as [Hd2|Hd2].
    + rewrite decide_True by lia. rewrite IH.
      assert (Hnil : filter (λ d, (lo < version d ≤ mid)%N) l = []).
      { apply list_filter_none. intros e He. pose proof (contiguous_bounds _ _ _ H2 He).
        pose proof (contiguous_bounds _ _ d H1 ltac:(left)). unfold len in *. simpl in *. lia. }
      by rewrite Hnil.
    + rewrite decide_False by lia. done.
Qed.

Lemma between_contiguous base l lo hi :
  ChangeLog.contiguous base l → (base ≤ lo ≤ hi)%N → (hi ≤ base + len l)%N →
  ChangeLog.contiguous lo (between lo hi l) ∧ (lo + len (between lo hi l))%N = hi.
Proof.
  intros Hc Hle Hhi. set (a := N.to_nat (lo - base)). set (n := N.to_nat (hi - lo)).
  assert (Hl : l = take a l ++ take n (drop a l) ++ drop n (drop a l)) by by rewrite !take_drop.
  assert (Hg : len (take a l) = (lo - base)%N) by (unfold len in *; rewrite length_take; lia).
  assert (Hm : len (take n (drop a l)) = (hi - lo)%N) by (unfold len in *; rewrite length_take, length_drop; lia).
  rewrite Hl in Hc. pose proof (between_middle base _ _ _ Hc) as Hb.
  apply ChangeLog.contiguous_app in Hc as [_ [Hc _]%ChangeLog.contiguous_app].
  rewrite Hg, Hm, <-Hl in Hb. rewrite Hg in Hc.
  replace (base + (lo - base))%N with lo in * by lia. replace (lo + (hi - lo))%N with hi in * by lia.
  rewrite Hb. split; [done|]. lia.
Qed.
Lemma contiguous_covers lo l v :
  ChangeLog.contiguous lo l → (lo < v ≤ lo + len l)%N → ∃ d, d ∈ l ∧ version d = v.
Proof.
  intros Hc Hv. destruct (lookup_lt_is_Some_2 l (N.to_nat (v - lo - 1))) as [d Hd]; [unfold len in *; lia|].
  exists d. split; [by eapply list_elem_of_lookup_2|].
  rewrite (ChangeLog.contiguous_version _ _ _ _ Hc Hd). lia.
Qed.

Lemma bind_masked p us : us ≫= masked_unit p = omap (masked_change p) (concat us).
Proof.
  induction us as [|u us IH]; [done|]. change ((u :: us) ≫= masked_unit p) with (masked_unit p u ++ (us ≫= masked_unit p)).
  cbn [concat]. by rewrite omap_app, IH.
Qed.

(** Units lie where their entries do. *)
Lemma unit_spans lo us d :
  Forall ChangeLog.complete_unit us → ChangeLog.contiguous lo (concat us) → d ∈ concat us →
  (lo < span_first (span d))%N ∧ (span_last (span d) ≤ lo + len (concat us))%N.
Proof.
  revert lo. induction us as [|u us IH]; intros lo Hus Hc Hd; [by apply elem_of_nil in Hd|].
  apply Forall_cons in Hus as [Hu Hus]. cbn [concat] in *. apply ChangeLog.contiguous_app in Hc as [Hc1 Hc2].
  rewrite len_app. apply elem_of_app in Hd as [Hd|Hd].
  - pose proof (unit_start lo u Hu Hc1) as (s & Hs & Hfirst & Hlast). rewrite Forall_forall in Hs.
    rewrite (Hs d Hd). lia.
  - specialize (IH _ Hus Hc2 Hd). lia.
Qed.

(** The guards let a caller through with its policy. *)
Lemma feed_policy_run b p b' :
  limits b = L → feed_policy service principal request b = (Ok p, b') →
  policy service principal = Ok p ∧ p_operation p OpChanges = true ∧ limits b' = L.
Proof using HL.
  intros Hb Hp. unfold feed_policy in Hp. destruct (to_kind request); [|done].
  apply ReadServiceFacts.b_bind_ok in Hp as (l & b2 & [= <- <-] & Hp).
  destruct (_ || _); [done|]. apply ReadServiceFacts.b_bind_ok in Hp as ([] & b3 & H3 & Hp).
  eapply delivers_Ok in H3 as [_ H3]; [|apply delivers_check|done].
  destruct (policy service principal) as [q|]; [|done]. apply ReadServiceFacts.b_bind_ok in Hp as ([] & b4 & H4 & Hp).
  eapply delivers_Ok in H4 as [_ H4]; [|apply delivers_check|done].
  destruct (p_operation q OpChanges) eqn:Hop; [|done]. cbn [negb] in Hp. destruct (_ <? _)%N; [done|].
  injection Hp as <- <-. done.
Qed.

(** What a page of the feed is. *)
Lemma feed_page_run b page b' :
  limits b = L → ChangeLog.wf (EntityGraph.version g) (EntityGraph.changelog g) →
  feed_page service scene principal request g b = (Ok page, b') →
  ∃ p position n l, policy service principal = Ok p ∧ p_operation p OpChanges = true ∧
    match ch_cursor request with
    | None => position = EntityGraph.version g
    | Some c => decode_cursor service c principal (scope_key p) (EntityGraph.state g) (fd_clock scene 0) = Ok position
    end ∧
    page = page_at service scene principal g p (cp_position page) n
             (omap (masked_change p) (between position (cp_position page) (ChangeLog.log (EntityGraph.changelog g)))) ∧
    follows (cp_floor page) (cp_position page) 0 None (cp_changes page) ∧
    (ChangeLog.floor (EntityGraph.changelog g) ≤ position ≤ cp_position page)%N ∧
    (cp_position page ≤ EntityGraph.version g)%N ∧
    (cp_position page - position ≤ ch_max_diffs request)%N ∧
    (position < EntityGraph.version g → position < cp_position page)%N ∧
    (∀ d, d ∈ ChangeLog.log (EntityGraph.changelog g) →
       (span_last (span d) ≤ cp_position page ∨ cp_position page < span_first (span d))%N) ∧
    Entity.encode page = Ok l ∧ (len l ≤ page_bytes service)%N.
Proof using HL.
  intros Hb Hwf Hrun. unfold feed_page in Hrun. apply ReadServiceFacts.b_bind_ok in Hrun as (p & b1 & Hp & Hrun).
  destruct (feed_policy_run _ _ _ Hb Hp) as (Hpol & Hop & Hb1). apply ReadServiceFacts.b_bind_ok in Hrun as ([] & b2 & H2 & Hrun).
  eapply delivers_Ok in H2 as [_ Hb2]; [|apply ReadServiceFacts.delivers_acquire|done].
  apply ReadServiceFacts.b_bind_ok in Hrun as (position & b3 & H3 & Hrun).
  assert (Hb3 : limits b3 = L ∧ match ch_cursor request with
    | None => position = EntityGraph.version g
    | Some c => decode_cursor service c principal (scope_key p) (EntityGraph.state g) (fd_clock scene 0) = Ok position
    end).
  { destruct (ch_cursor request); [|by injection H3 as <- <-].
    destruct (decode_cursor _ _ _ _ _ _); [|done]. by injection H3 as <- <-. }
  destruct Hb3 as [Hb3 Hposition]. unfold EntityGraph.change_units_since in Hrun.
  destruct (ChangeLog.change_units_since _ _ position) as [start|] eqn:Hstart; [|done].
  destruct (units_since _ _ _ _ Hwf Hstart) as (gone & us & Hus & Hlog & Hbefore & Hcomplete & Hgone & Hhead).
  apply ReadServiceFacts.b_bind_ok in Hrun as (st & b4 & H4 & Hrun). rewrite Hus in H4.
  apply feed_units_run in H4 as (Hb4 & taken & rest & -> & Hch & Hpos & Hmax & Hprog); [|done].
  cbn [pg_changes pg_position pg_used pg_bound app] in *.
  apply ReadServiceFacts.b_bind_ok in Hrun as ([] & b5 & H5 & Hrun).
  destruct (Entity.encode _) as [l|] eqn:Henc; [|done].
  destruct (N.ltb_spec (page_bytes service) (len l)); [done|]. injection Hrun as <- <-.
  pose proof (ChangeLog.wf_contiguous _ _ Hwf) as Hc. rewrite Hlog, concat_app in Hc.
  apply Forall_app in Hcomplete as [Ht Hrest]. rewrite concat_app, len_app in Hhead.
  pose proof Hc as [Hc1 Hc2]%ChangeLog.contiguous_app. rewrite Hgone in Hc2.
  apply ChangeLog.contiguous_app in Hc2 as [Hc2 Hc3].
  rewrite (position_after_units position taken Ht Hc2) in Hpos. rewrite Hpos in *.
  assert (Hbetween : between position (position + len (concat taken)) (ChangeLog.log (EntityGraph.changelog g)) = concat taken).
  { rewrite Hlog, concat_app, <-Hgone. by apply between_middle. }
  exists p, position, (pg_readings st), l. cbn [page_at cp_position cp_floor cp_changes].
  split; [done|]. split; [done|]. split; [done|].
  split; [by rewrite Hbetween, <-bind_masked, <-Hch|]. split.
  { rewrite Hch. eapply (units_follow p _ _ _ position); [done|done|lia|lia|]. by split; [lia|]. }
  split; [lia|]. split; [lia|]. split; [lia|]. split; [|split; [|done]].
  2:{ intros d. rewrite Hlog, concat_app, !elem_of_app. intros [Hd|[Hd|Hd]].
      - pose proof (unit_spans _ _ _ Hbefore Hc1 Hd). lia.
      - pose proof (unit_spans _ _ _ Ht Hc2 Hd). lia.
      - pose proof (unit_spans _ _ _ Hrest Hc3 Hd). lia. }
  intros Hlt. destruct rest as [|u rest]; [cbn [concat] in Hhead; rewrite len_nil in Hhead; lia|].
  destruct taken as [|t taken]; [destruct (Hprog ltac:(done) eq_refl); done|].
  apply Forall_cons in Ht as [Ht _]. apply ChangeLog.complete_unit_ne in Ht. cbn [concat]. rewrite len_app.
  destruct t; [done|]. rewrite len_cons. lia.
Qed.
End run.

(** ** The change feed on the wire

    Masking keeps values typed, so what the feed serves is what the typed
    payload can carry: the bytes of a page decode to that page.  With the
    laws of the wire this closes the way from the changelog to the client. *)

Import Meter Feed.

(** ** Masked values are typed *)

Section masked.
Context {CH : Chrono} {AM : Ambient} {HO : HashOrder} (p : PolicySnapshot).

Lemma mask_dict_typed owner m :
  (∀ k v, m !! k = Some v → typed (Sanitize.mask p owner v)) → typed_row (SanitizeFacts.mask_dict p owner m).
Proof.
  intros Hm k y Hy. apply SanitizeFacts.mask_dict_lookup in Hy as (v & Hv & _ & ->). eauto.
Qed.
Lemma mask_typed owner v : typed v → typed (Sanitize.mask p owner v).
Proof.
  induction 1 as [v Hs|l _ IH|d _ IH|g _ IHm _ IHc _ IHr].
  - destruct v; try done; by apply typed_scalar.
  - cbn [Sanitize.mask]. apply typed_list. intros v (x & -> & Hx)%list_elem_of_fmap. by apply IH.
  - cbn [Sanitize.mask]. rewrite SanitizeFacts.mask_dict_eq. apply typed_dict. by apply mask_dict_typed.
  - rewrite SanitizeFacts.mask_grid. apply typed_grid; cbn [grid_meta grid_cols grid_rows].
    + by apply mask_dict_typed.
    + intros c k v (c0 & Hc0 & Hm)%list_elem_of_omap. unfold SanitizeFacts.mask_col in Hm.
      destruct (p_tag _ _ _); [|done]. injection Hm as <-. cbn [col_meta].
      apply mask_dict_typed. intros k' v'. by apply IHc.
    + intros r k v (r0 & -> & Hr0)%list_elem_of_fmap. apply mask_dict_typed. intros k' v'. by apply IHr.
Qed.
Lemma mask_row_typed id raw : typed_row raw → typed_row (Sanitize.mask_row p id raw).
Proof.
  intros Hr k v. unfold Sanitize.mask_row. rewrite map_lookup_imap. destruct (raw !! k) as [x|] eqn:Hx; [|done].
  cbn. destruct (_ && _); [|done]. intros [= <-]. eapply mask_typed, Hr, Hx.
Qed.
Lemma masked_typed id raw row : typed_row raw → Sanitize.masked p id raw = Some row → typed_row row.
Proof. unfold Sanitize.masked. destruct (p_entity p id); [|done]. intros Hr [= <-]. by apply mask_row_typed. Qed.

(** A change whose rows are typed. *)
Definition typed_change (c : EntityDiff) : Prop :=
  typed_row (ed_changed c) ∧ ∀ row, ed_previous c = Some row → typed_row row.
Definition typed_diff (d : GraphDiff) : Prop :=
  typed_row (changed_of d) ∧ ∀ row, previous_of d = Some row → typed_row row.
Lemma masked_change_typed d c : typed_diff d → masked_change p d = Some c → typed_change c.
Proof.
  intros [Hc Hp]. unfold masked_change. destruct (_ && _); [|done]. intros [= <-]. split; cbn [ed_changed ed_previous].
  - destruct (Sanitize.masked p _ (changed_of d)) as [row|] eqn:Hm; [by eapply masked_typed|].
    intros k v. cbn. unfold HDict.new. by rewrite lookup_empty.
  - intros row. destruct (previous_of d) as [old|] eqn:Ho; [|done]. cbn. by apply masked_typed, Hp.
Qed.
End masked.

(** ** Messages are typed *)

(** One goal per entry. *)
Ltac entries := repeat (eapply List.Forall_cons; [cbn [snd]|]); [..|by apply List.Forall_nil].

Section typed.
Context {CH : Chrono}.

Lemma typed_entries entries :
  NoDup entries.*1 → Forall (λ kv, typed kv.2) entries → typed (kd (dict entries)).
Proof.
  intros Hnd Hf. apply typed_dict. intros k v. rewrite dict_list_to_map by done.
  rewrite <-elem_of_list_to_map by done. intros Hin. rewrite Forall_forall in Hf. exact (Hf _ Hin).
Qed.
Lemma typed_text s : typed (text s).
Proof. by apply typed_scalar. Qed.
Lemma typed_span s : typed (span_kind s).
Proof.
  destruct s as [s|]; [|by apply typed_scalar]. apply typed_entries; [distinct|].
  entries; apply typed_text.
Qed.
Lemma typed_envelope kind b : typed b → typed (envelope kind b).
Proof.
  intros Hb. apply typed_entries; [distinct|]. entries; [apply typed_text..|done].
Qed.
Lemma change_kind_typed c : typed_change c → typed (change_kind c).
Proof.
  intros [Hc Hp]. apply typed_entries; [distinct|].
  entries; [apply typed_text|apply typed_span|apply typed_text|apply typed_text|by apply typed_dict|].
  destruct (ed_previous c) as [d|]; [by apply typed_dict, Hp|by apply typed_scalar].
Qed.
Lemma page_typed `{HashOrder} page k :
  Forall typed_change (cp_changes page) → page_to_kind page = Ok k → typed k.
Proof.
  intros Hf Hk. unfold page_to_kind in Hk. destruct (_ || _); [done|]. step Hk u Hu. injection Hk as <-.
  apply typed_envelope, typed_entries; [distinct|].
  entries; [apply typed_text..|by apply typed_scalar|].
  apply typed_list. intros v (c & -> & Hc)%list_elem_of_fmap. apply change_kind_typed.
  rewrite Forall_forall in Hf. by apply Hf.
Qed.
End typed.

(** ** The bytes of a message *)

Section bytes.
Context {HO : HashOrder} {HL : HashOrderLaws} {CH : Chrono} {CL : ChronoLaws}.
Context {B6 : Base64} {BL : Base64Laws} {SJ : SerdeJson} {SL : SerdeJsonLaws}.
Context {T : Type} {WT : EntityWire T} {valid : T → Prop} {WL : EntityWireLaws T valid}.

Lemma decode_message x k b :
  valid x → to_kind x = Ok k → typed k → Entity.encode x = Ok b → Entity.decode b = Ok x.
Proof using HL CL BL SL WL.
  intros Hv Hk Ht. unfold Entity.encode, Entity.decode. rewrite Hk. intros Hb.
  rewrite (decode_encoded _ _ Ht Hb). by apply from_kind_exact.
Qed.

Lemma as_bytes_string b : as_bytes (String.string_of_list_byte b) = b.
Proof. apply String.list_byte_of_string_of_list_byte. Qed.
Lemma string_as_bytes s : String.string_of_list_byte (as_bytes s) = s.
Proof. apply String.string_of_list_byte_of_string. Qed.

Lemma grid_message x k g :
  valid x → to_kind x = Ok k → typed k → Entity.to_grid x = Ok g → Entity.from_grid g = Ok x.
Proof using HL CL BL SL WL.
  intros Hv Hk Ht. unfold Entity.to_grid. intros Hg. step Hg b Hb. step Hg s Hs. injection Hg as <-.
  unfold from_utf8 in Hs. destruct (utf8 _); [|done]. injection Hs as <-. unfold Entity.from_grid.
  cbn [grid_meta grid_cols grid_rows HGrid.col_new col_name col_meta].
  change (HDict.is_empty HDict.new) with true. rewrite bool_decide_true by done.
  change (HDict.is_empty ∅) with true.
  change (HDict.length _ =? 1)%N with true. cbn [negb orb].
  rewrite (proj2 (string_of_Ok _ "payload" (String.string_of_list_byte b))) by done.
  rewrite as_bytes_string. by eapply decode_message.
Qed.
End bytes.
