(* ===== verification/WireTheorems.v ===== *)
(** * What is proved of the wire and the feed

    The typed payload, the entity messages and the grids that carry them read
    back exactly; the feed serves the masked changes of whole units, in order,
    none lost and none twice while the graph goes on changing, and its cursors
    lead where they were issued. *)

From Stdlib Require Import Ascii.
From S2P Require Import Prelude Floats Kinds Size Extern Bitmap Adjacency ValueIndex Filter FilterParser Text Taxonomy Xeto Namespace Fitting Controlled Changelog Graph GraphInv Prepared Query QueryFacts System Application MeterFacts Sanitize SanitizeFacts View Reading ReadService ReadServiceFacts WireText TypedPayload TypedFacts EntityWire EntityWireFacts EntityWireLaws Feed FeedFacts.

Import Meter MeterFacts Feed.

(** ** The typed payload *)

Section payload.
Context {HO : HashOrder} {HL : HashOrderLaws} {CH : Chrono} {CL : ChronoLaws}.
Context {B6 : Base64} {BL : Base64Laws} {SJ : SerdeJson} {SL : SerdeJsonLaws}.

(** C28.  A value the Rust types admit is written to at most a megabyte of
    bytes that read back to exactly that value, whatever the order its dicts
    are enumerated in; or it is refused, because it exceeds the bounds on what
    is encoded, because a grid repeats a column, or because its document could
    not be written or is over the limits of a reader.  The nesting limit of
    the writer itself refuses nothing. *)
Theorem typed_payload_roundtrip v :
  typed v →
  match Typed.encode v with
  | Ok b => Typed.decode b = Ok v ∧ (len b ≤ 1048576)%N
  | Err e =>
      e = Invalid "typed encoding input exceeds limits" ∨ e = Invalid "duplicate grid column" ∨
      ∃ w, to_wire (ValueBudget.levels 64 0) v = Ok w ∧
        ((∃ m, to_vec (mkEnvelope 1 w) = Err m ∧ e = Invalid m) ∨
         ∃ b, to_vec (mkEnvelope 1 w) = Ok b ∧ bounded_json b default_payload_limits = Err e)
  end.
Proof.
  intros Ht. destruct (Typed.encode v) as [b|e] eqn:He.
  - split; [by apply decode_encoded|]. revert He. unfold Typed.encode.
    destruct (ValueBudget.value _ v 0); [|done]. intros H. step H w Hw. step H b' Hb. step H j Hj.
    injection H as ->. revert Hj. unfold bounded_json. destruct (_ || _ || _); [done|].
    destruct (N.ltb_spec (max_bytes default_payload_limits) (len b)); [done|]. intros _. assumption.
  - revert He. unfold Typed.encode. rewrite ValueBudget.value_pay.
    cbn [ValueBudget.max_depth ValueBudget.new].
    destruct (ValueBudget.pay _ _) as [u|] eqn:Hp; [|intros [= <-]; by left].
    destruct (ValueBudget.value_cost _ v) as [c|] eqn:Hc; [|done].
    destruct (to_wire_settled _ _ _ Hc) as [[w Hw]|Hw]; rewrite Hw; [|intros [= <-]; by right; left].
    intros He. right. right. exists w. split; [done|].
    destruct (to_vec _) as [b|m]; cbn [map_err] in He; [|injection He as <-; left; eauto].
    destruct (bounded_json b _) as [j|x] eqn:Hj; [done|]. injection He as ->. right. eauto.
Qed.
End payload.

(** ** Messages *)

(** C30.  Reading and writing the messages of the entity protocol are inverse:
    for batches, receipt requests, outcomes, feed requests and feed pages, a
    value is read as a message exactly when the message is written as that
    value and is one the protocol admits (identities of sixteen bytes,
    revisions of 64 bits, the changes of a page in order between its floor and
    its position, complete when the position is the head).  No written message
    exceeds the bounds of the reader, and no two values read as one message. *)
Theorem entity_messages_exact {HO : HashOrder} {HL : HashOrderLaws} v :
  (∀ r : EntityBatchRequest, from_kind v = Ok r ↔ batch_valid r ∧ to_kind r = Ok v) ∧
  (∀ i : OperationIdentity, from_kind v = Ok i ↔ identity_valid i ∧ to_kind i = Ok v) ∧
  (∀ o : MutationOutcome, from_kind v = Ok o ↔ outcome_valid o ∧ to_kind o = Ok v) ∧
  (∀ r : ChangesRequest, from_kind v = Ok r ↔ to_kind r = Ok v) ∧
  (∀ p : ChangesPage, from_kind v = Ok p ↔ page_valid p ∧ to_kind p = Ok v).
Proof.
  split; [intros r; apply from_kind_exact|]. split; [intros i; apply from_kind_exact|].
  split; [intros o; apply from_kind_exact|]. split; [|intros p; apply from_kind_exact].
  intros r. rewrite (from_kind_exact v r). naive_solver.
Qed.

(** A message sent through a grid codec arrives: when the codec reads
    back the grids it writes and the text passes the scan that bounds it, the
    bytes of a message decode to that message. *)
Theorem entity_grid_roundtrip {HO : HashOrder} {HL : HashOrderLaws} {CH : Chrono} {CL : ChronoLaws}
    {B6 : Base64} {BL : Base64Laws} {SJ : SerdeJson} {SL : SerdeJsonLaws}
    {T : Type} {WT : EntityWire T} {valid : T → Prop} {WL : EntityWireLaws T valid}
    (x : T) (k : Kind) (codec : Codec) (b : bytes) :
  valid x → to_kind x = Ok k → typed k →
  (∀ g s, codec_encode_grid codec g = Some s →
     codec_decode_grid codec s = Some g ∧ utf8 (Byte.to_N <$> as_bytes s) = true) →
  scan b = Ok () →
  Entity.encode_grid x codec = Ok b → Entity.decode_grid b codec = Ok x.
Proof.
  intros Hv Hk Ht Hcodec Hscan Henc. unfold Entity.encode_grid in Henc. step Henc g Hg.
  destruct (codec_encode_grid codec g) as [s|] eqn:Hs; [|done]. cbn [ok_or] in Henc.
  destruct (Hcodec g s Hs) as [Hd Hu].
  destruct (N.ltb_spec MAX_GRID_BYTES (len (as_bytes s))) as [|Hlen]; [done|]. injection Henc as <-.
  unfold Entity.decode_grid. destruct (N.ltb_spec MAX_GRID_BYTES (len (as_bytes s))); [lia|].
  unfold from_utf8. rewrite Hu, Hscan, string_as_bytes, Hd. cbn [ok_or]. by eapply grid_message.
Qed.

(** ** The feed *)

Section cursors.
Context {CC : CursorCrypto} {CCL : CursorCryptoLaws} {FCL : FeedCursorLaws} {PT : PrincipalText}.

(** A feed cursor reads back to the position it was issued for until it
    expires; and a cursor is accepted for a caller only if it is, character
    for character, the unexpired cursor of some position in this dataset,
    incarnation and catalog, under the code of authentication of this caller
    and scope. *)
Theorem feed_cursor_exact (service : Feed.t) (state : GraphState) principal scope now :
  array16 (dataset service) → array16 (state_incarnation state) → (state_catalog state ≤ u64_max)%N →
  (∀ issued position, (position ≤ u64_max)%N →
     decode_cursor service (encode_cursor service principal scope state issued position)
       principal scope state now
     = if (expiry service issued <=? now)%N then Err StaleCursor else Ok position) ∧
  (∀ c position, decode_cursor service c principal scope state now = Ok position →
     ∃ expires, (now < expires ≤ u64_max)%N ∧ (position ≤ u64_max)%N ∧
       c = base64_encode (cursor_payload service state position expires ++
             mac service principal scope (cursor_payload service state position expires))).
Proof.
  intros Hds Hinc Hcat. split.
  - intros issued position Hpos. by apply cursor_read.
  - intros c position. by apply cursor_accepted.
Qed.
End cursors.

Section feed.
Context {HO : HashOrder} {HL : HashOrderLaws} {RB : Roaring} {CM : CacheMap} {ON : Ontology} {CA : Catalog}.
Context {AM : Ambient} {CH : Chrono} {CL : ChronoLaws} {B6 : Base64} {BL : Base64Laws}.
Context {SJ : SerdeJson} {SL : SerdeJsonLaws}.
Context {CC : CursorCrypto} {CCL : CursorCryptoLaws} {FCL : FeedCursorLaws} {PT : PrincipalText}.
Context (service : Feed.t) (principal : Principal) (g : EntityGraph.t).

Abbreviation log := (ChangeLog.log (EntityGraph.changelog g)).

(** A graph and a service as their types have them: identities of sixteen
    bytes, revisions of 64 bits, a changelog in order with typed rows. *)
Record feed_ready : Prop := {
  ready_dataset : array16 (dataset service);
  ready_incarnation : array16 (EntityGraph.incarnation g);
  ready_version : (EntityGraph.version g ≤ u64_max)%N;
  ready_catalog : (EntityGraph.catalog_generation g ≤ u64_max)%N;
  ready_log : ChangeLog.wf (EntityGraph.version g) (EntityGraph.changelog g);
  ready_typed : Forall typed_diff log
}.

(** C31.  A page of the feed starts where its cursor says, or at the head
    without one, and holds exactly the masked changes up to its position: no
    unit of changes is cut, at most the number of changes asked for is
    covered, and the page gets further whenever there is something to get.
    Its bytes are within the limit and decode to that page at the client. *)
Theorem feed_page_exact scene request b page b' p :
  feed_ready → policy service principal = Ok p →
  feed_page service scene principal request g b = (Ok page, b') →
  ∃ position bytes,
    match ch_cursor request with
    | None => position = EntityGraph.version g
    | Some c => decode_cursor service c principal (scope_key p) (EntityGraph.state g) (fd_clock scene 0)
                = Ok position
    end ∧
    cp_changes page = omap (masked_change p) (between position (cp_position page) log) ∧
    (position ≤ cp_position page ≤ EntityGraph.version g)%N ∧
    (cp_position page - position ≤ ch_max_diffs request)%N ∧
    (position < EntityGraph.version g → position < cp_position page)%N ∧
    (∀ d, d ∈ log → span_last (span d) ≤ cp_position page ∨ cp_position page < span_first (span d))%N ∧
    Entity.encode page = Ok bytes ∧ (len bytes ≤ page_bytes service)%N ∧ Entity.decode bytes = Ok page.
Proof.
  intros [Hds Hinc Hver Hcat Hlog Htyped] Hpol Hrun.
  destruct (feed_page_run service scene principal request g (limits b) b page b' eq_refl Hlog Hrun)
    as (q & position & n & l & Hq & _ & Hpos & Hpage & Hf & Hle & Hhead & Hmax & Hprog & Hwhole & Henc & Hlen).
  rewrite Hpol in Hq. injection Hq as <-. exists position, l.
  split; [done|]. split; [by rewrite Hpage|]. do 4 (split; [done || lia|]).
  split; [done|]. split; [done|].
  pose proof Henc as Hk. unfold Entity.encode in Hk. step Hk k Hkind.
  eapply decode_message; [|exact Hkind| |done].
  - rewrite Hpage in Hf |- *. split; [done|]. split; [done|]. split; [done|]. done.
  - eapply page_typed; [|exact Hkind]. rewrite Hpage. cbn [page_at cp_changes]. apply Forall_forall.
    intros c (d & Hd & Hc)%list_elem_of_omap. eapply masked_change_typed; [|exact Hc].
    rewrite Forall_forall in Htyped. apply Htyped. by apply list_elem_of_filter in Hd as [_ Hd].
Qed.
End feed.

(** ** Following the feed *)

Section following.
Context {HO : HashOrder} {HL : HashOrderLaws} {RB : Roaring} {RL : RoaringLaws}.
Context {CM : CacheMap} {CML : CacheLaws} {ON : Ontology} {CA : Catalog} {FS : FilterSyntax}.
Context {AM : Ambient} {CH : Chrono} {B6 : Base64} {SJ : SerdeJson}.
Context {CC : CursorCrypto} {CCL : CursorCryptoLaws} {PT : PrincipalText}.
Context (service : Feed.t) (principal : Principal) (p : PolicySnapshot).
Implicit Types (g : EntityGraph.t).
Abbreviation log g := (ChangeLog.log (EntityGraph.changelog g)).

(** The pages a client gets that asks each time with the cursor of the page
    before, each with the graph it was served from; any operations of the graph
    run in between. *)
Inductive traversal g (prev : ChangesPage) : list (EntityGraph.t * ChangesPage) → Prop :=
| traversal_end : traversal g prev []
| traversal_next scene request b g' page b' pages :
    rtc System.step g g' → feed_ready service g' →
    ch_cursor request = Some (cp_cursor prev) →
    feed_page service scene principal request g' b = (Ok page, b') →
    traversal g' page pages →
    traversal g prev ((g', page) :: pages).

Abbreviation last_graph g pages := (List.last pages.*1 g).
Abbreviation last_page page pages := (List.last pages.*2 page).
Lemma last_default {A} (x d : A) l : List.last (x :: l) d = List.last l x.
Proof.
  revert x d. induction l as [|y l IH]; intros x d; [done|].
  change (List.last (x :: y :: l) d) with (List.last (y :: l) d). by rewrite !IH.
Qed.

Lemma traversal_run g prev pages :
  traversal g prev pages →
  rtc System.step g (last_graph g pages) ∧ ∀ g', g' ∈ pages.*1 → rtc System.step g g'.
Proof.
  induction 1 as [g prev|g prev scene request b g' page b' pages Hs _ _ _ _ [IH1 IH2]].
  { split; [apply rtc_refl|]. by intros g' ?%elem_of_nil. }
  change ((_ :: pages).*1) with (g' :: pages.*1). rewrite last_default.
  split; [by etrans|]. intros g2 [->|Hg2]%elem_of_cons; [done|]. etrans; [done|by apply IH2].
Qed.

(** The graphs that have seen a traversal: those that served it, and all that
    come after. *)
Definition witnesses g (pages : list (EntityGraph.t * ChangesPage)) g' : Prop :=
  g' ∈ g :: pages.*1 ∨ rtc System.step (last_graph g pages) g'.
(** The changes of the revisions after [lo] up to [hi]: one for each, retained
    by a graph that served, and the ones all these graphs retain. *)
Record recorded g (pages : list (EntityGraph.t * ChangesPage)) (lo hi : N) (ds : list GraphDiff) : Prop := {
  rec_contiguous : ChangeLog.contiguous lo ds;
  rec_length : (lo + len ds)%N = hi;
  rec_retained d : d ∈ ds → ∃ g', g' ∈ g :: pages.*1 ∧ d ∈ log g';
  rec_agreed g' d : witnesses g pages g' → d ∈ log g' → (lo < version d ≤ hi)%N → d ∈ ds
}.

Lemma recorded_one g lo hi :
  GraphInv.inv g → (ChangeLog.floor (EntityGraph.changelog g) ≤ lo ≤ hi)%N → (hi ≤ EntityGraph.version g)%N →
  recorded g [] lo hi (between lo hi (log g)).
Proof using HL RL CML.
  intros Hi Hlo Hhi. pose proof (GraphInv.inv_log _ Hi) as Hwf.
  destruct (between_contiguous _ _ lo hi (ChangeLog.wf_contiguous _ _ Hwf) Hlo) as [Hc Hl].
  { by rewrite (ChangeLog.wf_head _ _ Hwf). }
  split; [done..| |].
  - intros d [_ Hd]%list_elem_of_filter. exists g. split; [left|done].
  - intros g' d Hw Hd Hv. assert (Hs : rtc System.step g g').
    { destruct Hw as [->%list_elem_of_singleton|?]; [apply rtc_refl|done]. }
    destruct (contiguous_covers _ _ (version d) Hc ltac:(lia)) as (d0 & Hd0 & Hv0).
    pose proof Hd0 as [_ Hin]%list_elem_of_filter.
    by rewrite <-(System.steps_agree g g' d0 d Hi Hs Hin Hd Hv0).
Qed.
Lemma recorded_cons g g' page pages lo mid hi ds :
  GraphInv.inv g → rtc System.step g g' →
  (rtc System.step g' (last_graph g' pages) ∧ ∀ g2, g2 ∈ pages.*1 → rtc System.step g' g2) →
  recorded g [] lo mid (between lo mid (log g)) → recorded g' pages mid hi ds →
  recorded g ((g', page) :: pages) lo hi (between lo mid (log g) ++ ds).
Proof using HL RL CML.
  intros Hi Hs [Hrun Hall] H1 H2. set (ds1 := between lo mid (log g)) in *.
  assert (Hreach : ∀ g2, g2 ∈ g' :: pages.*1 → rtc System.step g g2).
  { intros g2 [->|Hg2]%elem_of_cons; [done|]. etrans; [done|by apply Hall]. }
  split.
  - apply ChangeLog.contiguous_app. rewrite (rec_length _ _ _ _ _ H1). split; [apply H1|apply H2].
  - rewrite len_app. pose proof (rec_length _ _ _ _ _ H1). pose proof (rec_length _ _ _ _ _ H2). lia.
  - change ((_ :: pages).*1) with (g' :: pages.*1). intros d [Hd|Hd]%elem_of_app.
    + exists g. split; [left|]. by apply list_elem_of_filter in Hd as [_ Hd].
    + destruct (rec_retained _ _ _ _ _ H2 d Hd) as (g2 & Hg2 & Hd2). exists g2. split; [by right|done].
  - unfold witnesses. change ((_ :: pages).*1) with (g' :: pages.*1). rewrite last_default.
    intros g2 d Hw Hd Hv. apply elem_of_app. destruct (decide (version d ≤ mid)%N) as [Hm|Hm].
    + left. apply (rec_agreed _ _ _ _ _ H1 g2 d); [|done|lia]. right. cbn [fmap list_fmap List.last].
      destruct Hw as [[->|Hg2]%elem_of_cons|Hl]; [apply rtc_refl|by apply Hreach|].
      etrans; [exact Hs|]. etrans; [exact Hrun|done].
    + right. destruct Hw as [[->|Hg2]%elem_of_cons|Hl]; [|by eapply (rec_agreed _ _ _ _ _ H2); [left| |lia]
                                                          |by eapply (rec_agreed _ _ _ _ _ H2); [right| |lia]].
      destruct (contiguous_covers _ _ (version d) (rec_contiguous _ _ _ _ _ H2)) as (d0 & Hd0 & Hv0).
      { rewrite (rec_length _ _ _ _ _ H2). lia. }
      destruct (rec_retained _ _ _ _ _ H2 d0 Hd0) as (g3 & Hg3 & Hd3).
      by rewrite (System.steps_agree g g3 d d0 Hi (Hreach _ Hg3) Hd Hd3 (eq_sym Hv0)).
Qed.

(** C32.  A client that follows the cursors while the graph goes on changing
    gets every masked change after its first position exactly once and in
    order.  The first position is that of the cursor it came with, or the head
    of the graph.  The changes of its pages together are the masked ones of a
    sequence of changes with one change for each revision from there to the
    position of the last page: each was retained by a graph that served a page,
    and whatever change of those revisions a graph of the traversal, or any
    later one, retains is in it.  A last page that says it is complete reaches
    the revision of the graph it was served from. *)
Theorem feed_traversal g scene request b first b' pages :
  GraphInv.inv g → feed_ready service g → policy service principal = Ok p →
  feed_page service scene principal request g b = (Ok first, b') → traversal g first pages →
  ∃ position ds,
    match ch_cursor request with
    | None => position = EntityGraph.version g
    | Some c => decode_cursor service c principal (scope_key p) (EntityGraph.state g) (fd_clock scene 0)
                = Ok position
    end ∧
    recorded g pages position (cp_position (last_page first pages)) ds ∧
    cp_changes first ++ (pages.*2 ≫= cp_changes) = omap (masked_change p) ds ∧
    (cp_complete (last_page first pages) = true →
     cp_position (last_page first pages) = EntityGraph.version (last_graph g pages)).
Proof using HL RL CML CCL.
  intros Hi Hready Hpol Hrun Ht. revert scene request b b' Hi Hready Hrun.
  induction Ht as [g prev|g prev scene' request' b1 g' page b1' pages Hs Hready' Hcur Hnext Ht IH];
    intros scene request b b' Hi Hready Hrun; pose proof Hready as [Hds Hinc Hver Hcat Hlog _];
    destruct (feed_page_run service scene principal request g (limits b) b _ b' eq_refl Hlog Hrun)
      as (q & position & n & l & Hq & _ & Hpos & Hpage & _ & Hle & Hhead & _);
    rewrite Hpol in Hq; injection Hq as <-; pose proof (recorded_one g _ _ Hi Hle Hhead) as Hone.
  - exists position, (between position (cp_position prev) (log g)). cbn [List.last fmap list_fmap].
    split; [done|]. split; [done|]. split; [rewrite app_nil_r; by rewrite Hpage at 1|].
    rewrite Hpage. by intros ?%N.eqb_eq.
  - destruct (IH scene' request' b1 b1' ltac:(by eapply System.steps_inv) Hready' Hnext)
      as (position' & ds & Hpos' & Hrec & Hall & Hcomplete).
    rewrite Hcur in Hpos'. rewrite Hpage in Hpos'. cbn [page_at cp_cursor] in Hpos'.
    apply cursor_carries in Hpos' as ->; [|done..|lia].
    exists position, (between position (cp_position prev) (log g) ++ ds). split; [done|].
    change (((g', page) :: pages).*1) with (g' :: pages.*1). change (((g', page) :: pages).*2) with (page :: pages.*2).
    rewrite !last_default. split; [by eapply recorded_cons; [|done|by eapply traversal_run|..]|]. split; [|done].
    change ((page :: pages.*2) ≫= cp_changes) with (cp_changes page ++ (pages.*2 ≫= cp_changes)).
    rewrite Hall, omap_app. f_equal. by rewrite Hpage at 1.
Qed.
End following.
