(* ===== verification/Mutation.v ===== *)
(** * Entity mutations

    [haystack-app/src/mutation.rs]: a batch of entity operations is submitted
    under an identity its caller chose.  The service checks it against the
    policy and the budget, plans it on the graph, reserves a receipt for the
    identity, and hands the plan to a provider, which publishes it, rejects it
    or keeps it; a resubmission of the identity is answered from its receipt.

    The modelled store is the ephemeral one, whose receipts are in memory.
    The locks make a lookup, a reservation and a publication one step each,
    so what a submission sees of the shared state is an argument of each of
    these parts: the table of receipts at the first lookup, the graph that is
    planned on, the world at the reservation.  [None] is a panic. *)

From Stdlib Require Import Ascii.
From Stdlib Require String.
From S2P Require Import Prelude Floats Kinds Size Extern Bitmap Adjacency ValueIndex Filter FilterParser Text Taxonomy Xeto Namespace Fitting Controlled Changelog Graph Prepared Query Application Sanitize View Reading ReadService Shared WireText TypedPayload EntityWire Feed.

(** ** Policies and limits *)

(** [MutationPolicy] and [AllowAllMutations]. *)
Record MutationPolicy : Type := mkMutationPolicy {
  authorize_intent : Principal → EntityBatchRequest → bool;
  authorize_change : Principal → PreparedChange → bool;
  authorize_reconcile : Principal → OperationIdentity → option EntityBatchRequest → bool
}.
Definition AllowAllMutations : MutationPolicy :=
  mkMutationPolicy (λ _ _, true) (λ _ _, true) (λ _ _ _, true).

(** [PolicyVersion]; a generation is the address of its [Arc]. *)
Record PolicyVersion : Type := mkPolicyVersion { pv_rules : MutationPolicy; pv_generation : N }.

Module MutationLimits.
Record t : Type := mk {
  batch : BatchLimits; receipt_capacity : N; receipt_bytes : N; page_bytes : N }.
Definition default : t := mk default_limits 1024 (64 * 1024 * 1024) MAX_PAYLOAD_BYTES.
Definition validate (l : t) : result ReadError unit :=
  let b := batch l in
  if (max_operations b =? 0)%N || (MAX_OPERATIONS <? max_operations b)%N
     || (max_work b =? 0)%N || (16000000 <? max_work b)%N
     || (max_retained_bytes b =? 0)%N || (64 * 1024 * 1024 <? max_retained_bytes b)%N
     || (max_value_depth b =? 0)%N || (48 <? max_value_depth b)%N
     || (receipt_capacity l =? 0)%N || (100000 <? receipt_capacity l)%N
     || (receipt_bytes l =? 0)%N || (256 * 1024 * 1024 <? receipt_bytes l)%N
     || (page_bytes l <? 8192)%N || (MAX_PAYLOAD_BYTES <? page_bytes l)%N
  then Err InvalidLimits else Ok ().
End MutationLimits.

(** ** Receipts *)

(** [PrincipalKey], [Binding], [Record] and [Receipts]. *)
Inductive PrincipalKey : Type :=
| PKAnonymous
| PKAuthenticated (subject : string)
| PKEmbedding (subject : string).
Definition principal_key (p : Principal) : PrincipalKey :=
  match p with
  | Anonymous => PKAnonymous
  | Authenticated subject _ => PKAuthenticated subject
  | TrustedEmbedding subject => PKEmbedding subject
  end.
Record Binding : Type := mkBinding { bd_principal : PrincipalKey; bd_identity : OperationIdentity }.

#[export] Instance PrincipalKey_eq_dec : EqDecision PrincipalKey.
Proof. solve_decision. Defined.
#[export] Instance OperationIdentity_eq_dec : EqDecision OperationIdentity.
Proof. solve_decision. Defined.
#[export] Instance Binding_eq_dec : EqDecision Binding.
Proof. solve_decision. Defined.
#[export] Instance Binding_countable : Countable Binding.
Proof.
  refine (inj_countable'
    (λ b, (match bd_principal b with
           | PKAnonymous => inl ()
           | PKAuthenticated s => inr (inl s)
           | PKEmbedding s => inr (inr s)
           end,
           (oi_operation_id (bd_identity b), oi_dataset (bd_identity b), oi_incarnation (bd_identity b))))
    (λ x : (unit + (string + string)) * (string * bytes * bytes),
       mkBinding (match x.1 with
                  | inl _ => PKAnonymous
                  | inr (inl s) => PKAuthenticated s
                  | inr (inr s) => PKEmbedding s
                  end)
         (mkOperationIdentity x.2.1.1 x.2.1.2 x.2.2)) _).
  by intros [[] []].
Defined.
#[export] Instance ReceiptQualification_eq_dec : EqDecision ReceiptQualification.
Proof. solve_decision. Defined.
#[export] Instance RejectionReason_eq_dec : EqDecision RejectionReason.
Proof. solve_decision. Defined.
#[export] Instance UnknownCause_eq_dec : EqDecision UnknownCause.
Proof. solve_decision. Defined.
#[export] Instance EntityReceipt_eq_dec : EqDecision EntityReceipt.
Proof. solve_decision. Defined.
#[export] Instance MutationOutcome_eq_dec : EqDecision MutationOutcome.
Proof. solve_decision. Defined.

Record Receipt : Type := mkReceiptRecord {
  rc_canonical : bytes; rc_request : EntityBatchRequest; rc_outcome : MutationOutcome }.
Record Receipts : Type := mkReceipts { rs_entries : gmap Binding Receipt; rs_bytes : N }.
Definition no_receipts : Receipts := mkReceipts ∅ 0.

(** The outcome of a bound identity, replaced in its slot. *)
Definition set_outcome (o : MutationOutcome) (r : Receipt) : Receipt :=
  mkReceiptRecord (rc_canonical r) (rc_request r) o.
Definition settle (b : Binding) (o : MutationOutcome) (t : Receipts) : Receipts :=
  mkReceipts (alter (set_outcome o) b (rs_entries t)) (rs_bytes t).

(** [batch_reason] and [read_reason]. *)
Definition batch_reason (e : BatchError) : RejectionReason :=
  match e with BConflict => RConflict | BLimit => RLimit | _ => RInvalid end.
Definition read_reason (e : ReadError) : RejectionReason :=
  match e with
  | Forbidden => RForbidden
  | Capacity => RCapacity
  | Cancelled => RCancelled
  | Deadline => RDeadline
  | Unavailable => RProvider
  | _ => RLimit
  end.

Module Mutation.
Import Meter.

(** [MutationInner], what is fixed of it: the dataset of its store, its
    limits and the qualification of its provider. *)
Record t : Type := mk {
  dataset : bytes; limits : MutationLimits.t; qualification : ReceiptQualification }.

(** [MutationService::with_provider]: its guards; [shares] says whether the
    store and the read service have one graph. *)
Definition with_provider (s : t) (shares : bool) : result ReadError t :=
  let? _ := MutationLimits.validate (limits s) in
  if negb shares then Err Forbidden else Ok s.

(** ** Prepared mutations *)

Section publish.
Context {HO : HashOrder} {RB : Roaring} {CM : CacheMap} {ON : Ontology} {CA : Catalog}.
Context {BC : Broadcast}.

(** [PreparedMutation]. *)
Record Prepared : Type := mkPrepared {
  pm_binding : Binding;
  pm_plan : PreparedBatch.t;
  pm_receipt : EntityReceipt;
  pm_deadline : N;
  pm_generation : N
}.

(** The state a service shares with its providers and other services: the
    graph and the receipts of the store, and the policy. *)
Record World : Type := mkWorld {
  w_graph : SharedGraph.t; w_receipts : Receipts; w_policy : PolicyVersion }.
Definition set_receipts (w : World) (t : Receipts) : World := mkWorld (w_graph w) t (w_policy w).

(** [MutationService::replace_policy]. *)
Definition replace_policy (rules : MutationPolicy) (fresh : N) (w : World) : World :=
  mkWorld (w_graph w) (w_receipts w) (mkPolicyVersion rules fresh).

(** What [stop] observes: the clock and the three tokens. *)
Record Pulse : Type := mkPulse {
  pl_now : N; pl_cancelled : bool; pl_owner_cancelled : bool; pl_owner_sealed : bool }.

(** [PreparedMutation::stop]. *)
Definition stop (m : Prepared) (p : Pulse) : option RejectionReason :=
  if (pm_deadline m <=? pl_now p)%N then Some RDeadline
  else if pl_cancelled p || pl_owner_cancelled p || pl_owner_sealed p then Some RCancelled
  else None.

(** A lock that is waited for, with a [stop] before each attempt: the first
    reason to give up.  The last attempt succeeds. *)
Definition Wait : Type := Pulse * list Pulse.
Definition interrupted (m : Prepared) (w : Wait) : option RejectionReason :=
  head (omap (stop m) (w.1 :: w.2)).

(** [PreparedMutation::reject]. *)
Definition reject (m : Prepared) (reason : RejectionReason) (w : World) : World * MutationOutcome :=
  let o := MRejected (er_identity (pm_receipt m)) reason in
  (set_receipts w (settle (pm_binding m) o (w_receipts w)), o).

(** What a publication meets outside, in its order; [ps_reserved] is the
    outcome of the reservations of [apply_prepared] and [ps_fresh] the
    incarnation a reset would get. *)
Record PublishScene : Type := mkPublishScene {
  ps_start : Pulse;
  ps_policy : Wait;
  ps_receipts : Wait;
  ps_graph : Wait;
  ps_final : Pulse;
  ps_time : Z;
  ps_reserved : bool;
  ps_fresh : bytes
}.

(** The closure under the write lock.  A receipt must be in its slot when the
    plan is applied. *)
Definition publish_on (sc : PublishScene) (m : Prepared) (t : Receipts) (g : EntityGraph.t)
    : option (EntityGraph.t * result RejectionReason Receipts) :=
  match stop m (ps_final sc) with
  | Some reason => Some (g, Err reason)
  | None =>
      '(g, r) ← PreparedBatch.apply_prepared (ps_time sc) (ps_reserved sc) g (pm_plan m);
      match r with
      | Err e => Some (g, Err (batch_reason e))
      | Ok _ =>
          _ ← rs_entries t !! pm_binding m;
          Some (g, Ok (settle (pm_binding m) (MCommitted (pm_receipt m)) t))
      end
  end.

(** The end of a publication that owns the receipts. *)
Definition refused (m : Prepared) (reason : RejectionReason) (w : World) : option (World * MutationOutcome) :=
  _ ← rs_entries (w_receipts w) !! pm_binding m;
  Some (reject m reason w).

(** [PreparedMutation::publish]. *)
Definition publish (sc : PublishScene) (m : Prepared) (w : World) : option (World * MutationOutcome) :=
  match stop m (ps_start sc) with
  | Some reason => Some (reject m reason w)
  | None =>
  match interrupted m (ps_policy sc) with
  | Some reason => Some (reject m reason w)
  | None =>
      if negb (pv_generation (w_policy w) =? pm_generation m)%N then Some (reject m RConflict w)
      else
  match interrupted m (ps_receipts sc) with
  | Some reason => Some (reject m reason w)
  | None =>
  match interrupted m (ps_graph sc) with
  | Some reason => refused m reason w
  | None =>
      '(g, r) ← SharedGraph.write (ps_fresh sc) (publish_on sc m (w_receipts w)) (w_graph w);
      let w := mkWorld g (w_receipts w) (w_policy w) in
      match r with
      | Ok t => Some (set_receipts w t, MCommitted (pm_receipt m))
      | Err reason => refused m reason w
      end
  end end end end.
End publish.

(** ** Submissions *)

(** A computation under a budget that ends with a reason to reject. *)
Definition R (A : Type) : Type := Budget → option (result RejectionReason A * Budget).
#[export] Instance R_ret : MRet R := λ A a b, Some (Ok a, b).
#[export] Instance R_bind : MBind R := λ A C k m b,
  match m b with
  | Some (Ok a, b') => k a b'
  | Some (Err e, b') => Some (Err e, b')
  | None => None
  end.
Definition refuse {A} (reason : RejectionReason) : R A := λ b, Some (Err reason, b).
Definition of_result {A} (r : result RejectionReason A) : R A := λ b, Some (r, b).
Definition lift {A} (m : B A) : R A := λ b, let '(r, b) := m b in Some (map_err read_reason r, b).

(** What a submission meets outside: how often it missed each lock, the
    receipts at its first lookup, the graph it plans on, whether its slot
    could be reserved, and the receipts at its last lookup. *)
Record SubmitScene `{HashOrder, Roaring, CacheMap, Ontology, Catalog} : Type := mkSubmitScene {
  sb_policy_misses : nat;
  sb_lookup_misses : nat;
  sb_seen : Receipts;
  sb_graph_misses : nat;
  sb_graph : EntityGraph.t;
  sb_reserve_misses : nat;
  sb_reserved : bool;
  sb_stored_misses : nat
}.
Arguments mkSubmitScene {_ _ _ _ _ _}.

Section submit.
Context {HO : HashOrder} {RB : Roaring} {CM : CacheMap} {ON : Ontology} {CA : Catalog} {AM : Ambient}.
Context {BC : Broadcast} {CH : Chrono} {B6 : Base64} {SJ : SerdeJson}.
Context (service : t) (sz : Layouts) (caps : Capacities).

(** [principal_bounds]. *)
Definition principal_bounds (principal : Principal) : B unit :=
  check;;
  l ← asks Meter.limits;
  if (ReadLimits.max_input_bytes l <? Principal.bytes principal)%N
     || match principal with
        | Authenticated _ permissions => (ReadLimits.max_ids l <? len permissions)%N
        | _ => false
        end
  then throw (BudgetExceeded BInput) else mret ().

(** [lookup], on the receipts it finds. *)
Definition lookup (misses : nat) (binding : Binding) (t : Receipts) : B (option Receipt) :=
  ReadService.acquire misses;; mret (rs_entries t !! binding).

(** [preflight_feed]: the changes of a plan must fit on a page. *)
Definition feed_preview (plan : PreparedBatch.t) : ChangesPage :=
  let state := PreparedBatch.state plan in
  let after := PreparedBatch.after_revision plan in
  mkChangesPage (dataset service) (state_incarnation state) after (state_revision state) after
    (String.string_of_list_ascii (replicate 1024 "x"%char)) true (raw_diff <$> PreparedBatch.diffs plan).
Definition preflight_feed (plan : PreparedBatch.t) : B unit :=
  if bool_decide (PreparedBatch.diffs plan = []) then mret ()
  else
    charge BRetained (saturating_mul (total_bytes (PreparedBatch.diffs plan)) 4);;
    match Entity.encode (feed_preview plan) with
    | Err _ => throw (BudgetExceeded BOutput)
    | Ok b => if (MutationLimits.page_bytes (limits service) <? len b)%N
              then throw (BudgetExceeded BOutput) else mret ()
    end.

Section request.
Context (sc : SubmitScene) (principal : Principal) (request : EntityBatchRequest).

Definition binding : Binding := mkBinding (principal_key principal) (br_identity request).

(** Up to the first lookup: bounds, the canonical bytes and the intent. *)
Definition authorize (rules : MutationPolicy) : R bytes :=
  lift (principal_bounds principal);;
  source ← of_result (map_err (λ _, RInvalid) (source_bytes request));
  lift (charge BRetained (saturating_add (saturating_mul source 8) 8192));;
  canonical ← of_result (map_err (λ _, RInvalid) (Entity.encode request));
  lift (charge BRetained (saturating_mul (len canonical) 8));;
  lift (ReadService.acquire (sb_policy_misses sc));;
  if negb (authorize_intent rules principal request) then refuse RForbidden
  else
    lift check;;
    if negb (bool_decide (oi_dataset (br_identity request) = dataset service)) then refuse RConflict
    else mret canonical.

(** The answer from a receipt the identity is bound to. *)
Definition replay (rules : MutationPolicy) (canonical : bytes) (r : Receipt)
    : result RejectionReason MutationOutcome :=
  if negb (authorize_reconcile rules principal (br_identity request) (Some (rc_request r)))
  then Err RForbidden
  else if bool_decide (rc_canonical r = canonical) then Ok (rc_outcome r) else Err RConflict.

(** The plan, authorized change by change. *)
Definition batch_limits (remaining : N) : BatchLimits :=
  let l := MutationLimits.batch (limits service) in
  mkBatchLimits (max_operations l) (max_work l) (N.min (max_retained_bytes l) (remaining / 4))
    (max_value_depth l).
Definition plan_on (g : EntityGraph.t) (l : BatchLimits) : R PreparedBatch.t := λ b,
  if negb (bool_decide (EntityGraph.incarnation g = oi_incarnation (br_identity request)))
  then Some (Err (batch_reason BConflict), b)
  else match PreparedBatch.prepare_batch sz caps g (br_expected_revision request) (br_operations request) l with
  | Some r => Some (map_err batch_reason r, b)
  | None => None
  end.
Fixpoint authorize_changes (rules : MutationPolicy) (cs : list PreparedChange) : R unit :=
  match cs with
  | [] => mret ()
  | c :: cs =>
      if negb (authorize_change rules principal c) then refuse RForbidden
      else lift check;; authorize_changes rules cs
  end.
Definition receipt_of (plan : PreparedBatch.t) : EntityReceipt :=
  mkReceipt (br_identity request) (state_revision (PreparedBatch.state plan))
    (PreparedBatch.after_revision plan) (PreparedBatch.span_of plan) (qualification service).
Definition draft (rules : MutationPolicy) : R PreparedBatch.t :=
  remaining ← lift (asks retained_remaining);
  lift (ReadService.acquire (sb_graph_misses sc));;
  plan ← plan_on (sb_graph sc) (batch_limits remaining);
  lift check;;
  lift (charge BRetained (PreparedBatch.retained plan));;
  authorize_changes rules (PreparedBatch.changes plan);;
  lift (preflight_feed plan);;
  match Entity.encode (MCommitted (receipt_of plan)) with
  | Err _ => refuse RLimit
  | Ok _ => mret plan
  end.

(** The reservation of the identity, under the lock of the receipts. *)
Definition receipt_charge (canonical : bytes) : N :=
  saturating_add
    (saturating_add (saturating_mul (len canonical) 32) (saturating_mul (Principal.bytes principal) 2)) 8192.
Definition pending : MutationOutcome := MUnknown (br_identity request) UPending.
Definition reserve (policy : PolicyVersion) (canonical : bytes) (plan : PreparedBatch.t) (t : Receipts)
    : R (MutationOutcome + Prepared * Receipts) :=
  lift (ReadService.acquire (sb_reserve_misses sc));;
  match rs_entries t !! binding with
  | Some r => o ← of_result (replay (pv_rules policy) canonical r); mret (inl o)
  | None =>
      if (MutationLimits.receipt_capacity (limits service) <=? N.of_nat (size (rs_entries t)))%N
         || (MutationLimits.receipt_bytes (limits service) - rs_bytes t <? receipt_charge canonical)%N
      then refuse RCapacity
      else if negb (sb_reserved sc) then refuse RCapacity
      else
        lift check;;
        deadline ← lift (asks deadline);
        mret (inr (mkPrepared binding plan (receipt_of plan) deadline (pv_generation policy),
                   mkReceipts (<[binding := mkReceiptRecord canonical request pending]> (rs_entries t))
                     (rs_bytes t + receipt_charge canonical)))
  end.

(** [prepare_and_submit] up to the provider, from the policy and the receipts
    of the world at the reservation: an answer, or a prepared mutation with
    the receipts that reserve its slot. *)
Definition prepare (w : World) : R (MutationOutcome + Prepared * Receipts) :=
  let rules := pv_rules (w_policy w) in
  canonical ← authorize rules;
  prior ← lift (lookup (sb_lookup_misses sc) binding (sb_seen sc));
  match prior with
  | Some r => o ← of_result (replay rules canonical r); mret (inl o)
  | None =>
      plan ← draft rules;
      reserve (w_policy w) canonical plan (w_receipts w)
  end.

(** The acknowledgement of a provider, checked against the receipt. *)
Definition invalid_acknowledgement : MutationOutcome :=
  MUnknown (br_identity request) UInvalidAcknowledgement.
Definition acknowledge (o : MutationOutcome) (t : Receipts) (b : Budget) : MutationOutcome * Budget :=
  if negb (bool_decide (outcome_identity o = br_identity request)) then (invalid_acknowledgement, b)
  else match o with
  | MUnknown _ _ => (o, b)
  | _ =>
      let '(stored, b) := lookup (sb_stored_misses sc) binding t b in
      (match stored with
       | Ok (Some r) => if bool_decide (rc_outcome r = o) then o else invalid_acknowledgement
       | _ => invalid_acknowledgement
       end, b)
  end.

(** [MutationInner::submit]; [commit] is the provider. *)
Definition submit (commit : Prepared → World → option (World * MutationOutcome)) (w : World) (b : Budget)
    : option (World * MutationOutcome * Budget) :=
  match prepare w b with
  | None => None
  | Some (Err reason, b) => Some (w, MRejected (br_identity request) reason, b)
  | Some (Ok (inl o), b) => Some (w, o, b)
  | Some (Ok (inr (m, t)), b) =>
      '(w, o) ← commit m (set_receipts w t);
      let '(o, b) := acknowledge o (w_receipts w) b in
      Some (w, o, b)
  end.
End request.

(** [EphemeralProvider]. *)
Definition ephemeral (ps : PublishScene) : Prepared → World → option (World * MutationOutcome) := publish ps.

(** [submit_admitted]: the answer of the worker, or uncertainty when it gave
    none. *)
Definition submit_admitted (belongs : bool) (request : EntityBatchRequest)
    (task : result ReadError MutationOutcome) : result ReadError MutationOutcome :=
  if negb belongs then Err Forbidden
  else match Entity.encode (br_identity request) with
  | Err _ => Err (InvalidQuery "invalid operation identity")
  | Ok _ => Ok (match task with Ok o => o | Err _ => MUnknown (br_identity request) UProvider end)
  end.

(** [MutationInner::reconcile]. *)
Definition reconcile (misses_policy misses : nat) (principal : Principal) (identity : OperationIdentity)
    (w : World) : B MutationOutcome :=
  principal_bounds principal;;
  match Entity.encode identity with
  | Err _ => throw (InvalidQuery "invalid receipt identity")
  | Ok _ =>
      ReadService.acquire misses_policy;;
      record ← lookup misses (mkBinding (principal_key principal) identity) (w_receipts w);
      if negb (authorize_reconcile (pv_rules (w_policy w)) principal identity (rc_request <$> record))
      then throw Forbidden
      else
        check;;
        mret (match record with Some r => rc_outcome r | None => MUnknown identity UMissing end)
  end.
End submit.
End Mutation.
