(* ===== verification/MutationFacts.v ===== *)
(** * Mutations as a system

    Runs of a mutation service: submissions that reserve an identity,
    publications and rejections of plans that providers keep as long as they
    like, replaced policies and other writers of the graph, in any order.
    [run_ok] holds along every run: a bound identity keeps its request, a
    receipt tells what the one conclusion of its plan did to the graph, and
    the receipts are within their limits. *)

From S2P Require Import Prelude Floats Kinds Size Extern Bitmap Adjacency ValueIndex Filter FilterParser Text Taxonomy Xeto Namespace Fitting Controlled Changelog Graph GraphInv Prepared PreparedFacts BatchFacts Query QueryFacts System Application MeterFacts Sanitize View Reading ReadService ReadServiceFacts Shared WireText TypedPayload EntityWire EntityWireFacts Feed Mutation.

Module MutationFacts.
Import EntityGraph GraphInv System Mutation.

Section facts.
Context {HO : HashOrder} {HL : HashOrderLaws} {RB : Roaring} {RL : RoaringLaws}.
Context {CM : CacheMap} {CL : CacheLaws} {ON : Ontology} {CA : Catalog} {FS : FilterSyntax}.
Context {AM : Meter.Ambient} {BC : Broadcast} {CH : Chrono} {B6 : Base64} {SJ : SerdeJson}.
Context (service : Mutation.t) (sz : Layouts) (caps : Capacities).
Implicit Types (w : World) (m : Prepared) (request : EntityBatchRequest).

Abbreviation graph w := (SharedGraph.inner (w_graph w)).
Abbreviation entries w := (rs_entries (w_receipts w)).

(** ** Publication *)

(** What a batch did: its operations one by one, between the revisions its
    receipt tells. *)
Record performed request (rec : EntityReceipt) (before after : GraphSpec.t) : Prop := {
  perf_identity : er_identity rec = br_identity request;
  perf_effect : try_fold BatchFacts.perform before (br_operations request) = Ok after;
  perf_expected : br_expected_revision request = GraphSpec.revision before;
  perf_before : er_before_revision rec = GraphSpec.revision before;
  perf_after : er_after_revision rec = GraphSpec.revision after;
  perf_receipt : validate_receipt rec = Ok ()
}.

(** A mutation was planned for its request on an earlier state of a graph. *)
Record planned m request (g : EntityGraph.t) : Prop := {
  pln_receipt : pm_receipt m = receipt_of service request (pm_plan m);
  pln_valid : validate_receipt (pm_receipt m) = Ok ();
  pln_plan : ∃ g0 l, inv g0 ∧ rtc System.step g0 g ∧
    PreparedBatch.prepare_batch sz caps g0 (br_expected_revision request) (br_operations request) l
      = Some (Ok (pm_plan m))
}.
Lemma planned_steps m request g g' : planned m request g → rtc System.step g g' → planned m request g'.
Proof.
  intros [Hr Hv (g0 & l & Hi & Hs & Hp)] Hs'. split; [done|done|]. exists g0, l.
  split; [done|]. split; [by etrans|done].
Qed.

Lemma write_inner {A} inc (f : EntityGraph.t → option (EntityGraph.t * A)) s :
  SharedGraph.write inc f s =
    '(g, r) ← f (SharedGraph.inner s);
    Some (SharedGraph.drop_write inc (state (SharedGraph.inner s))
            (SharedGraph.mk g (SharedGraph.tx s) (SharedGraph.wakes s)), r).
Proof. done. Qed.
Lemma drop_write_inner inc before g ch wk :
  let s := SharedGraph.drop_write inc before (SharedGraph.mk g ch wk) in
  abs (SharedGraph.inner s) = abs g ∧ rtc System.step g (SharedGraph.inner s).
Proof.
  unfold SharedGraph.drop_write, SharedGraph.release. cbn [SharedGraph.inner].
  destruct (bool_decide (incarnation g ≠ _)); cbn [SharedGraph.inner orb negb andb];
    repeat case_bool_decide; cbn [SharedGraph.inner];
    (split; [done|]); [apply rtc_once, step_renew..|done|done|done|done].
Qed.
Lemma drop_write_same inc (s : SharedGraph.t) :
  SharedGraph.drop_write inc (state (SharedGraph.inner s))
    (SharedGraph.mk (SharedGraph.inner s) (SharedGraph.tx s) (SharedGraph.wakes s)) = s.
Proof.
  unfold SharedGraph.drop_write, SharedGraph.release. cbn [SharedGraph.inner SharedGraph.tx SharedGraph.wakes].
  rewrite !(bool_decide_false (incarnation _ ≠ _)) by (intros H; by apply H). cbn [orb negb andb].
  rewrite !bool_decide_false by (intros H; by apply H). by destruct s.
Qed.

(** A plan that is applied was prepared for the revision it finds. *)
Lemma applied_revisions now reserved g p g' s :
  PreparedBatch.apply_prepared now reserved g p = Some (g', Ok s) →
  PreparedBatch.state p = state g ∧ version g' = PreparedBatch.after_revision p.
Proof.
  unfold PreparedBatch.apply_prepared. destruct (bool_decide_reflect (state g ≠ PreparedBatch.state p)) as [|Hs];
    [done|]. apply dec_stable in Hs. cbn [orb]. destruct (bool_decide _); [done|]. destruct reserved; [|done].
  cbn [negb]. intros (g1 & Hp & [= <- _])%bind_Some. split; [done|]. revert Hp.
  unfold PreparedBatch.publish. intros (? & _ & Hp)%bind_Some. apply bind_Some in Hp as (? & _ & Hp).
  apply bind_Some in Hp as (? & _ & Hp). apply bind_Some in Hp as (? & _ & [= <-]). done.
Qed.

(** A publication has ended with an outcome: the slot holds it, and it was
    rejected without effect, or performed. *)
Record concluded m request w w' (o : MutationOutcome) : Prop := {
  con_policy : w_policy w' = w_policy w;
  con_receipts : w_receipts w' = settle (pm_binding m) o (w_receipts w);
  con_steps : rtc System.step (graph w) (graph w');
  con_outcome :
    match o with
    | MCommitted rec => rec = pm_receipt m ∧ performed request rec (abs (graph w)) (abs (graph w'))
    | MRejected i _ => i = br_identity request ∧ w_graph w' = w_graph w
    | MUnknown _ _ => False
    end
}.
Lemma reject_concluded m reason request w :
  er_identity (pm_receipt m) = br_identity request →
  concluded m request w (reject m reason w).1 (reject m reason w).2.
Proof. intros Hi. by split. Qed.

(** A publication of a plan that was made for its request and has its slot
    returns. *)
Lemma publish_spec ps m w request r :
  planned m request (graph w) → entries w !! pm_binding m = Some r →
  ∃ w' o, publish ps m w = Some (w', o) ∧ concluded m request w w' o.
Proof.
  intros [Hrec Hval (g0 & l & Hi0 & Hs0 & Hprep)] Hslot.
  assert (Hrej : ∀ reason, ∃ w' o, Some (reject m reason w) = Some (w', o) ∧ concluded m request w w' o).
  { intros reason. eexists _, _. split; [done|]. apply (reject_concluded m reason). by rewrite Hrec. }
  unfold publish, refused. rewrite Hslot. cbn [mbind option_bind].
  destruct (stop m (ps_start ps)); [apply Hrej|]. destruct (interrupted m (ps_policy ps)); [apply Hrej|].
  destruct (negb _); [apply Hrej|]. destruct (interrupted m (ps_receipts ps)); [apply Hrej|].
  destruct (interrupted m (ps_graph ps)); [apply Hrej|]. rewrite write_inner. unfold publish_on.
  assert (Heta : mkWorld (w_graph w) (w_receipts w) (w_policy w) = w) by by destruct w.
  destruct (stop m (ps_final ps)) as [reason|].
  { cbn [mbind option_bind w_receipts]. rewrite drop_write_same, Heta, Hslot. apply Hrej. }
  destruct (delayed_plan_spec _ _ _ _ _ _ _ _ (ps_time ps) (ps_reserved ps) Hi0 Hs0 Hprep)
    as (g' & res & Happ & Hsteps & Hres).
  rewrite Happ. cbn [mbind option_bind]. destruct res as [s|e].
  - destruct Hres as (_ & Heff & _). destruct (applied_revisions _ _ _ _ _ _ Happ) as [Hst Hver].
    rewrite Hslot. cbn [mbind option_bind]. eexists _, _. split; [done|].
    destruct (drop_write_inner (ps_fresh ps) (state (graph w)) g' (SharedGraph.tx (w_graph w))
      (SharedGraph.wakes (w_graph w))) as [Habs Hdrop].
    split; [done|done|by etrans|]. split; [done|]. cbn [w_graph set_receipts]. rewrite Habs. rewrite Hrec in Hval |- *.
    assert (Hexp : br_expected_revision request = version g0).
    { unfold PreparedBatch.prepare_batch in Hprep. by case_decide. }
    destruct (BatchFacts.prepared_state _ _ _ _ _ _ _ (BatchFacts.inv_plannable _ Hi0) Hprep) as [Hst0 _].
    rewrite Hst0 in Hst. injection Hst as _ Hv _.
    split; try done; cbn.
    + by rewrite Hexp.
    + by rewrite Hst0.
  - rewrite Hres. cbn [mbind option_bind w_receipts]. rewrite drop_write_same, Heta, Hslot. apply Hrej.
Qed.

(** ** Reservation *)

Lemma R_bind_Ok {A C} (x : R A) (k : A → R C) b c b' :
  (x ≫= k) b = Some (Ok c, b') ↔ ∃ a b1, x b = Some (Ok a, b1) ∧ k a b1 = Some (Ok c, b').
Proof.
  unfold mbind, R_bind. destruct (x b) as [[[a|e] b1]|]; split; [eauto|by intros (? & ? & [= <- <-] & ?)|
    done|by intros (? & ? & [=] & ?)|done|by intros (? & ? & [=] & ?)].
Qed.
Lemma lift_Ok {A} (x : Meter.B A) b a b' : lift x b = Some (Ok a, b') → x b = (Ok a, b').
Proof. unfold lift. destruct (x b) as [[?|?] ?]; cbn; [by intros [= <- <-]|done]. Qed.
Lemma of_result_Ok {A} (r : result RejectionReason A) b a b' : of_result r b = Some (Ok a, b') → r = Ok a.
Proof. by intros [= -> _]. Qed.
Lemma mret_Ok {A} (x : A) b a b' : (mret x : R A) b = Some (Ok a, b') → x = a ∧ b = b'.
Proof. by intros [= <- <-]. Qed.

(** The next step of a computation that went well. *)
Ltac next H := apply R_bind_Ok in H as (? & ? & _ & H).
Tactic Notation "taking" hyp(H) "as" simple_intropattern(x) simple_intropattern(E) :=
  apply R_bind_Ok in H as (x & ? & E & H).

Section request.
Context (sc : SubmitScene) (principal : Principal) (request : EntityBatchRequest).
Abbreviation bound := (binding principal request).

Lemma replay_Ok rules canonical r o :
  replay principal request rules canonical r = Ok o → o = rc_outcome r ∧ rc_canonical r = canonical.
Proof. unfold replay. destruct (negb _); [done|]. case_bool_decide; [|done]. by intros [= <-]. Qed.

Lemma authorize_Ok rules b canonical b' :
  authorize service sc principal request rules b = Some (Ok canonical, b') → Entity.encode request = Ok canonical.
Proof.
  intros H. unfold authorize in H. do 3 next H. taking H as c Hc%of_result_Ok. do 2 next H.
  destruct (negb _); [done|]. next H. destruct (negb _); [done|].
  apply mret_Ok in H as [<- _]. by destruct (Entity.encode request); simplify_eq/=.
Qed.

Lemma encode_receipt rec b : Entity.encode (MCommitted rec) = Ok b → validate_receipt rec = Ok ().
Proof.
  unfold Entity.encode. intros H. step H k Hk. clear H. cbn [to_kind MutationOutcome_wire] in Hk.
  unfold outcome_to_kind in Hk. step Hk i Hi. step Hk d Hd. clear Hk. step Hd u Hu. by destruct u.
Qed.

Lemma draft_Ok rules b plan b' :
  draft service sz caps sc principal request rules b = Some (Ok plan, b') →
  validate_receipt (receipt_of service request plan) = Ok () ∧
  ∃ l, PreparedBatch.prepare_batch sz caps (sb_graph sc) (br_expected_revision request) (br_operations request) l
      = Some (Ok plan).
Proof.
  intros H. unfold draft in H. taking H as remaining _. next H. taking H as p Hp. do 4 next H.
  destruct (Entity.encode _) as [bytes|] eqn:He; [|done]. apply mret_Ok in H as [<- _].
  split; [by eapply encode_receipt|]. exists (batch_limits service remaining). revert Hp. unfold plan_on. destruct (negb _); [done|].
  destruct (PreparedBatch.prepare_batch _ _ _ _ _ _) as [[q|]|]; cbn; [by intros [= <- _]|done..].
Qed.

(** A reserved slot: the identity was free, there was room, and the plan was
    made for the request on the graph it saw. *)
Record reserved w m (t : Receipts) (canonical : bytes) : Prop := {
  res_canonical : Entity.encode request = Ok canonical;
  res_free : entries w !! bound = None;
  res_binding : pm_binding m = bound;
  res_table : t = mkReceipts (<[bound := mkReceiptRecord canonical request (pending request)]> (entries w))
                    (rs_bytes (w_receipts w) + receipt_charge principal canonical);
  res_capacity : (N.of_nat (size (entries w)) < MutationLimits.receipt_capacity (limits service))%N;
  res_bytes : (receipt_charge principal canonical
               ≤ MutationLimits.receipt_bytes (limits service) - rs_bytes (w_receipts w))%N;
  res_planned : planned m request (sb_graph sc)
}.
Lemma prepare_reserved w b m t b' :
  inv (sb_graph sc) → prepare service sz caps sc principal request w b = Some (Ok (inr (m, t)), b') →
  ∃ canonical, reserved w m t canonical.
Proof.
  intros Hi H. unfold prepare in H. taking H as canonical Hc%authorize_Ok. taking H as prior _.
  destruct prior as [r|]; [next H; by apply mret_Ok in H as [[=] _]|].
  taking H as plan Hp. apply draft_Ok in Hp as (Hval & l & Hprep).
  unfold reserve in H. next H. destruct (entries w !! bound) as [r|] eqn:Hr.
  { next H. by apply mret_Ok in H as [[=] _]. }
  destruct (N.leb_spec (MutationLimits.receipt_capacity (limits service)) (N.of_nat (size (entries w)))); [done|].
  destruct (N.ltb_spec (MutationLimits.receipt_bytes (limits service) - rs_bytes (w_receipts w))
    (receipt_charge principal canonical)); [done|]. cbn [orb] in H.
  destruct (negb _); [done|]. next H. taking H as deadline _. apply mret_Ok in H as [[= <- <-] _].
  exists canonical. split; try done. split; [done|done|]. exists (sb_graph sc), l. done.
Qed.

(** An answer that reserves nothing comes from a receipt for the same
    canonical request, as it was at the first lookup or is now. *)
Lemma prepare_answer w b o b' :
  prepare service sz caps sc principal request w b = Some (Ok (inl o), b') →
  ∃ r, (rs_entries (sb_seen sc) !! bound = Some r ∨ entries w !! bound = Some r) ∧
    o = rc_outcome r ∧ Entity.encode request = Ok (rc_canonical r).
Proof.
  intros H. unfold prepare in H. taking H as canonical Hc%authorize_Ok. taking H as prior Hp%lift_Ok.
  assert (Hseen : prior = rs_entries (sb_seen sc) !! bound).
  { unfold lookup in Hp. revert Hp. unfold mbind, Meter.B_bind.
    destruct (ReadService.acquire _ _) as [[[]|] ?]; [by intros [= <- _]|done]. }
  destruct prior as [r|].
  { taking H as o' Ho%of_result_Ok. apply mret_Ok in H as [[= <-] _]. apply replay_Ok in Ho as [-> <-].
    exists r. split; [by left|done]. }
  next H. unfold reserve in H. next H. destruct (entries w !! bound) as [r|] eqn:Hr.
  { taking H as o' Ho%of_result_Ok. apply mret_Ok in H as [[= <-] _]. apply replay_Ok in Ho as [-> <-].
    exists r. split; [by right|done]. }
  destruct (_ || _); [done|]. destruct (negb _); [done|]. do 2 next H. by apply mret_Ok in H as [[=] _].
Qed.
End request.

(** ** Runs *)

(** The conclusion of a plan - a publication or a rejection - as the graph saw
    it: the graph right before and right after, whatever was answered. *)
Record Applied : Type := mkApplied {
  ap_binding : Binding; ap_before : EntityGraph.t; ap_after : EntityGraph.t }.
(** The world, the plans that providers keep and, in their order, the
    conclusions so far. *)
Record Run : Type := mkRun { run_world : World; run_plans : list Prepared; run_applied : list Applied }.
Definition effect_of m w w' : Applied := mkApplied (pm_binding m) (graph w) (graph w').

Inductive run_step : Run → Run → Prop :=
| run_writes w plans done g :
    rtc System.step (graph w) (SharedGraph.inner g) →
    run_step (mkRun w plans done) (mkRun (mkWorld g (w_receipts w) (w_policy w)) plans done)
| run_policy rules fresh w plans done :
    run_step (mkRun w plans done) (mkRun (replace_policy rules fresh w) plans done)
| run_reserve sc principal request b b' m t w plans done :
    inv (sb_graph sc) → rtc System.step (sb_graph sc) (graph w) →
    prepare service sz caps sc principal request w b = Some (Ok (inr (m, t)), b') →
    run_step (mkRun w plans done) (mkRun (set_receipts w t) (m :: plans) done)
| run_publish ps m l1 l2 w w' o done :
    publish ps m w = Some (w', o) →
    run_step (mkRun w (l1 ++ m :: l2) done) (mkRun w' (l1 ++ l2) (done ++ [effect_of m w w']))
| run_reject reason m l1 l2 w done :
    run_step (mkRun w (l1 ++ m :: l2) done)
      (mkRun (reject m reason w).1 (l1 ++ l2) (done ++ [effect_of m w (reject m reason w).1]))
| run_drop m l1 l2 w done :
    run_step (mkRun w (l1 ++ m :: l2) done) (mkRun w (l1 ++ l2) done).

Definition run_start w : Run := mkRun w [] [].

(** What an outcome says of the graph before and after its conclusion. *)
Definition fulfils request (o : MutationOutcome) (a : Applied) : Prop :=
  match o with
  | MCommitted rec => performed request rec (abs (ap_before a)) (abs (ap_after a))
  | MRejected _ _ => ap_after a = ap_before a
  | MUnknown _ _ => False
  end.
(** What the receipt of an identity says is what happened to it. *)
Definition honest (done : list Applied) (plans : list Prepared) (b : Binding) (r : Receipt) : Prop :=
  match rc_outcome r with
  | MCommitted rec => er_identity rec = br_identity (rc_request r) ∧ (b ∈ ap_binding <$> done)
  | MRejected i _ => i = br_identity (rc_request r) ∧ (b ∈ ap_binding <$> done) ∧ (b ∉ pm_binding <$> plans)
  | MUnknown i c => c = UPending ∧ i = br_identity (rc_request r) ∧ (b ∉ ap_binding <$> done)
  end.

Record run_ok (run : Run) : Prop := {
  ok_graph : inv (graph (run_world run));
  ok_plans : NoDup (pm_binding <$> run_plans run);
  ok_plan m : m ∈ run_plans run → ∃ r, entries (run_world run) !! pm_binding m = Some r ∧
    rc_outcome r = pending (rc_request r) ∧ planned m (rc_request r) (graph (run_world run));
  ok_receipt b r : entries (run_world run) !! b = Some r →
    bd_identity b = br_identity (rc_request r) ∧ Entity.encode (rc_request r) = Ok (rc_canonical r) ∧
    honest (run_applied run) (run_plans run) b r;
  ok_once : NoDup (ap_binding <$> run_applied run);
  ok_applied a : a ∈ run_applied run → ∃ r, entries (run_world run) !! ap_binding a = Some r ∧
    fulfils (rc_request r) (rc_outcome r) a ∧
    (version (ap_after a) ≤ version (graph (run_world run)))%N;
  ok_order i j a a' : i < j → run_applied run !! i = Some a → run_applied run !! j = Some a' →
    (version (ap_after a) ≤ version (ap_before a'))%N;
  ok_size : (N.of_nat (size (entries (run_world run))) ≤ MutationLimits.receipt_capacity (limits service))%N;
  ok_bytes : (8192 * N.of_nat (size (entries (run_world run))) ≤ rs_bytes (w_receipts (run_world run))
              ≤ MutationLimits.receipt_bytes (limits service))%N
}.

Lemma start_ok w : inv (graph w) → w_receipts w = no_receipts → run_ok (run_start w).
Proof.
  intros Hi Hr. split; cbn; rewrite ?Hr; cbn; try done; try by constructor.
  - intros m Hm. by apply elem_of_nil in Hm.
  - intros a Ha. by apply elem_of_nil in Ha.
  - rewrite map_size_empty. lia.
  - rewrite map_size_empty. lia.
Qed.

(** The graph moves on. *)
Lemma ok_writes w plans done g :
  run_ok (mkRun w plans done) → rtc System.step (graph w) (SharedGraph.inner g) →
  run_ok (mkRun (mkWorld g (w_receipts w) (w_policy w)) plans done).
Proof.
  intros [Hi Hnd Hplan Hrec Honce Happ Hord Hsize Hbytes] Hs. cbn in *.
  assert (Hv : (version (graph w) ≤ version (SharedGraph.inner g))%N).
  { destruct (steps_fresh _ _ Hi Hs) as [|(Hv & _)]; lia. }
  split; cbn; try done.
  - by eapply steps_inv.
  - intros m Hm. destruct (Hplan m Hm) as (r & Hr & Ho & Hp). exists r. split; [done|]. split; [done|].
    by eapply planned_steps.
  - intros a Ha. destruct (Happ a Ha) as (r & Hr & Ho & Hle). exists r. do 2 (split; [done|]). lia.
Qed.

(** A plan is forgotten: its identity stays pending. *)
Lemma honest_less done plans plans' b r : plans' ⊆ plans → honest done plans b r → honest done plans' b r.
Proof.
  intros Hsub. unfold honest. destruct (rc_outcome r) as [rec|i why|i c]; [done| |done].
  intros (Hi & Hd & Hp). split; [done|]. split; [done|]. intros (m & -> & Hm)%list_elem_of_fmap.
  apply Hp, list_elem_of_fmap. eauto.
Qed.
Lemma app_less m (l1 l2 : list Prepared) : l1 ++ l2 ⊆ l1 ++ m :: l2.
Proof. intros x. rewrite !elem_of_app, elem_of_cons. tauto. Qed.
Lemma ok_drop m l1 l2 w done : run_ok (mkRun w (l1 ++ m :: l2) done) → run_ok (mkRun w (l1 ++ l2) done).
Proof.
  intros [Hi Hnd Hplan Hrec Honce Happ Hord Hsize Hbytes]. split; cbn in *; try done.
  - rewrite fmap_app in *. cbn in Hnd. apply NoDup_app in Hnd as (H1 & H12 & [_ H2]%NoDup_cons).
    apply NoDup_app. split; [done|]. split; [|done]. intros b Hb Hb2. apply (H12 b Hb). by right.
  - intros m' Hm'. by apply Hplan, app_less.
  - intros b r Hr. destruct (Hrec b r Hr) as (? & ? & Hh). split; [done|]. split; [done|].
    eapply honest_less; [apply app_less|done].
Qed.

Lemma settle_lookup b o t b' :
  rs_entries (settle b o t) !! b' = (if decide (b = b') then set_outcome o else id) <$> rs_entries t !! b'.
Proof.
  cbn. case_decide; [subst; by rewrite lookup_alter_eq|]. rewrite lookup_alter_ne by done. by rewrite option_fmap_id.
Qed.
Lemma settle_size b o t : size (rs_entries (settle b o t)) = size (rs_entries t).
Proof.
  cbn. rewrite <-!size_dom. f_equal. apply set_eq. intros x. rewrite !elem_of_dom.
  destruct (decide (b = x)) as [->|]; [by rewrite lookup_alter_eq, fmap_is_Some|by rewrite lookup_alter_ne].
Qed.

Lemma plan_alone m l1 l2 m' :
  NoDup (pm_binding <$> l1 ++ m :: l2) → m' ∈ l1 ++ l2 → pm_binding m' ≠ pm_binding m.
Proof.
  rewrite fmap_app. cbn. intros (_ & H12 & [Hn _]%NoDup_cons)%NoDup_app Hm' Heq.
  apply elem_of_app in Hm' as [Hm'|Hm'].
  - apply (H12 (pm_binding m')); [by apply list_elem_of_fmap_2|]. rewrite Heq. left.
  - apply Hn. rewrite <-Heq. by apply list_elem_of_fmap_2.
Qed.
Lemma effect_bound m w w' b done :
  pm_binding m ≠ b → b ∈ ap_binding <$> done ++ [effect_of m w w'] ↔ b ∈ ap_binding <$> done.
Proof.
  intros Hne. rewrite fmap_app, elem_of_app. split; [|by left]. intros [Hb|Hb]; [done|].
  apply list_elem_of_singleton in Hb as ->. done.
Qed.

(** The receipts of other identities, and of the concluded one. *)
Lemma honest_other m l1 l2 w w' done b r :
  pm_binding m ≠ b → honest done (l1 ++ m :: l2) b r → honest (done ++ [effect_of m w w']) (l1 ++ l2) b r.
Proof.
  intros Hne Hh. apply (honest_less _ _ (l1 ++ l2)) in Hh; [|apply app_less]. unfold honest in *.
  destruct (rc_outcome r) as [rec|i why|i c]; by rewrite effect_bound by done.
Qed.
Lemma honest_concluded m l1 l2 w w' o done r :
  NoDup (pm_binding <$> l1 ++ m :: l2) → concluded m (rc_request r) w w' o →
  honest (done ++ [effect_of m w w']) (l1 ++ l2) (pm_binding m) (set_outcome o r).
Proof.
  intros Hnd [_ _ _ Ho].
  assert (Hin : pm_binding m ∈ ap_binding <$> done ++ [effect_of m w w'])
    by (rewrite fmap_app; apply elem_of_app; right; left).
  unfold honest. destruct o as [rec|i why|i c]; cbn; [| |done].
  - split; [apply Ho|done].
  - split_and!; [apply Ho|done|]. intros (m' & Heq & Hm')%list_elem_of_fmap. by eapply plan_alone.
Qed.
Lemma concluded_fulfils m request w w' o : concluded m request w w' o → fulfils request o (effect_of m w w').
Proof.
  intros [_ _ _ Ho]. destruct o as [rec|i why|i c]; cbn; [apply Ho| |done]. destruct Ho as [_ Hg]. by rewrite Hg.
Qed.

(** The conclusions with the new one. *)
Lemma applied_concluded m w w' done :
  (∀ a, a ∈ done → (version (ap_after a) ≤ version (graph w))%N) →
  (∀ i j a a', i < j → done !! i = Some a → done !! j = Some a' →
     (version (ap_after a) ≤ version (ap_before a'))%N) →
  ∀ i j a a', i < j → (done ++ [effect_of m w w']) !! i = Some a →
    (done ++ [effect_of m w w']) !! j = Some a' →
    (version (ap_after a) ≤ version (ap_before a'))%N.
Proof.
  intros Hle Hord i j a a' Hij Ha Ha'.
  pose proof (lookup_lt_Some _ _ _ Ha') as Hj. rewrite length_app in Hj. cbn in Hj.
  rewrite lookup_app_l in Ha by lia. apply lookup_app_Some in Ha' as [Ha'|[Hlen Ha']]; [exact (Hord i j a a' Hij Ha Ha')|].
  apply list_lookup_singleton_Some in Ha' as [_ <-]. by eapply Hle, list_elem_of_lookup_2.
Qed.
Lemma once_concluded m w w' done :
  NoDup (ap_binding <$> done) → pm_binding m ∉ (ap_binding <$> done) →
  NoDup (ap_binding <$> done ++ [effect_of m w w']).
Proof.
  intros Hnd Hfree. rewrite fmap_app. apply NoDup_app. split; [done|]. split; [|apply NoDup_singleton].
  intros b Hb ->%list_elem_of_singleton. done.
Qed.

(** A plan is concluded: its slot and the list of performed batches agree. *)
Lemma ok_concluded m l1 l2 w w' o done r :
  run_ok (mkRun w (l1 ++ m :: l2) done) → entries w !! pm_binding m = Some r →
  concluded m (rc_request r) w w' o →
  run_ok (mkRun w' (l1 ++ l2) (done ++ [effect_of m w w'])).
Proof.
  intros Hok Hr Hcon. pose proof Hcon as [_ Ht Hs Ho]. pose proof (ok_plans _ (ok_drop _ _ _ _ _ Hok)) as Hnd.
  destruct Hok as [Hi Hnd0 Hplan Hrec Honce Happ Hord Hsize Hbytes]. cbn in *.
  assert (Hv : (version (graph w) ≤ version (graph w'))%N).
  { destruct (steps_fresh _ _ Hi Hs) as [|(Hv & _)]; lia. }
  destruct (Hplan m ltac:(apply elem_of_app; right; left)) as (r0 & Hr0 & Hpend & Hpln).
  rewrite Hr in Hr0. injection Hr0 as <-. destruct (Hrec _ _ Hr) as (Hid & Henc & Hh).
  unfold honest in Hh. rewrite Hpend in Hh. destruct Hh as (_ & _ & Hfree).
  split; cbn; rewrite ?Ht, ?settle_size; try done.
  - by eapply steps_inv.
  - intros m' Hm'. destruct (Hplan m' (app_less _ _ _ _ Hm')) as (r' & Hr' & Ho' & Hp'). exists r'.
    rewrite settle_lookup, decide_False, Hr' by (intros Heq; symmetry in Heq; revert Heq; by apply (plan_alone m l1 l2)).
    split; [done|]. split; [done|]. by eapply planned_steps.
  - intros b x. rewrite settle_lookup. destruct (entries w !! b) as [x0|] eqn:Hx0; [|done]. intros [= <-].
    destruct (Hrec _ _ Hx0) as (Hidx & Hencx & Hhx). destruct (decide (pm_binding m = b)) as [<-|Hne]; cbn.
    + rewrite Hr in Hx0. injection Hx0 as <-. split; [done|]. split; [done|]. by apply honest_concluded.
    + split; [done|]. split; [done|]. by apply honest_other.
  - by apply once_concluded.
  - intros a [Ha|Ha]%elem_of_app.
    + destruct (Happ a Ha) as (x & Hx & Hpx & Hle). exists x.
      rewrite settle_lookup, decide_False, Hx by (intros Heq; apply Hfree; rewrite Heq; by apply list_elem_of_fmap_2).
      split; [done|]. split; [done|]. lia.
    + apply list_elem_of_singleton in Ha as ->. cbn.
      exists (set_outcome o r). rewrite lookup_alter_eq, Hr. split; [done|]. split; [|done].
      by apply concluded_fulfils.
  - apply applied_concluded; [|done]. intros a Ha. by destruct (Happ a Ha) as (? & _ & _ & ?).
Qed.

(** A slot is reserved. *)
Lemma receipt_charge_pos principal canonical : (8192 ≤ receipt_charge principal canonical)%N.
Proof. unfold receipt_charge, saturating_add at 1, usize_max. lia. Qed.
Lemma ok_reserve sc principal request b b' m t w plans done :
  run_ok (mkRun w plans done) → inv (sb_graph sc) → rtc System.step (sb_graph sc) (graph w) →
  prepare service sz caps sc principal request w b = Some (Ok (inr (m, t)), b') →
  run_ok (mkRun (set_receipts w t) (m :: plans) done).
Proof.
  intros [Hi Hnd Hplan Hrec Honce Happ Hord Hsize Hbytes] Hi0 Hs Hp.
  apply prepare_reserved in Hp as (canonical & [Henc Hfree Hbind -> Hcap Hroom Hpln]); [|done]. cbn in *.
  pose proof (receipt_charge_pos principal canonical) as Hpos.
  split; cbn; try done.
  - apply NoDup_cons. split; [|done]. rewrite Hbind. intros (m' & Heq & Hm')%list_elem_of_fmap.
    destruct (Hplan m' Hm') as (r & Hr & _). congruence.
  - intros m' [->|Hm']%elem_of_cons.
    + rewrite Hbind, lookup_insert_eq. eexists. split; [done|]. split; [done|]. by eapply planned_steps.
    + destruct (Hplan m' Hm') as (r & Hr & Ho & Hp'). exists r. by rewrite lookup_insert_ne by congruence.
  - intros b0 r. destruct (decide (binding principal request = b0)) as [<-|Hne].
    + rewrite lookup_insert_eq. intros [= <-]. split; [done|]. split; [done|]. split; [done|]. split; [done|].
      intros (a & Heq & Ha)%list_elem_of_fmap. destruct (Happ a Ha) as (r & Hr & _). congruence.
    + rewrite lookup_insert_ne by done. intros Hr. destruct (Hrec _ _ Hr) as (Hid & He & Hh).
      split; [done|]. split; [done|]. unfold honest in *. destruct (rc_outcome r); [done| |done].
      destruct Hh as (? & ? & Hp). split; [done|]. split; [done|]. cbn. rewrite Hbind.
      intros [->|]%elem_of_cons; congruence.
  - intros a Ha. destruct (Happ a Ha) as (r & Hr & Ho & Hp). exists r. by rewrite lookup_insert_ne by congruence.
  - rewrite map_size_insert_None by done. lia.
  - rewrite map_size_insert_None by done. lia.
Qed.

(** ** The invariant of runs *)

Lemma run_step_ok run run' : run_ok run → run_step run run' → run_ok run'.
Proof.
  intros Hok Hs. destruct Hs as [w plans done g Hs|rules fresh w plans done|
    sc principal request b b' m t w plans done Hi Hs Hp|ps m l1 l2 w w' o done Hp|
    reason m l1 l2 w done|m l1 l2 w done].
  - by apply ok_writes.
  - by destruct Hok.
  - by eapply ok_reserve.
  - destruct (ok_plan _ Hok m) as (r & Hr & Ho & Hpln); [apply elem_of_app; right; left|].
    destruct (publish_spec ps m _ _ _ Hpln Hr) as (w2 & o2 & Hp2 & Hc). cbn in Hp2.
    rewrite Hp in Hp2. injection Hp2 as <- <-. by eapply ok_concluded.
  - destruct (ok_plan _ Hok m) as (r & Hr & Ho & [Hpr _ _]); [apply elem_of_app; right; left|].
    eapply ok_concluded; [done|done|]. apply reject_concluded. by rewrite Hpr.
  - by eapply ok_drop.
Qed.
Lemma steps_ok run run' : run_ok run → rtc run_step run run' → run_ok run'.
Proof. intros Hok Hs. induction Hs as [|r1 r2 r3 H12 _ IH]; [done|]. by eapply IH, run_step_ok. Qed.

(** A bound identity keeps its request; one that is settled, its outcome. *)
Definition settled (o : MutationOutcome) : bool := match o with MUnknown _ _ => false | _ => true end.
Definition keeps (r r' : Receipt) : Prop :=
  rc_canonical r' = rc_canonical r ∧ rc_request r' = rc_request r ∧
  (settled (rc_outcome r) = true → r' = r).
Lemma settle_keeps m l1 l2 w done o b r :
  run_ok (mkRun w (l1 ++ m :: l2) done) → entries w !! b = Some r →
  ∃ r', rs_entries (settle (pm_binding m) o (w_receipts w)) !! b = Some r' ∧ keeps r r'.
Proof.
  intros Hok Hr. rewrite settle_lookup, Hr. cbn. eexists. split; [done|].
  destruct (decide (pm_binding m = b)) as [<-|]; [|done]. split; [done|]. split; [done|].
  destruct (ok_plan _ Hok m) as (r0 & Hr0 & Ho & _); [apply elem_of_app; right; left|].
  cbn in Hr0. rewrite Hr in Hr0. injection Hr0 as <-. by rewrite Ho.
Qed.
Lemma step_keeps run run' b r :
  run_ok run → run_step run run' → entries (run_world run) !! b = Some r →
  ∃ r', entries (run_world run') !! b = Some r' ∧ keeps r r'.
Proof.
  intros Hok Hs Hr. destruct Hs as [w plans done g Hs|rules fresh w plans done|
    sc principal request b0 b' m t w plans done Hi Hs Hp|ps m l1 l2 w w' o done Hp|
    reason m l1 l2 w done|m l1 l2 w done]; cbn in *; try by exists r.
  - apply prepare_reserved in Hp as (canonical & [_ Hfree _ -> _ _ _]); [|done]. exists r. cbn.
    by rewrite lookup_insert_ne by congruence.
  - destruct (ok_plan _ Hok m) as (r0 & Hr0 & Ho & Hpln); [apply elem_of_app; right; left|].
    destruct (publish_spec ps m _ _ _ Hpln Hr0) as (w2 & o2 & Hp2 & [_ Ht _ _]). cbn in Hp2.
    rewrite Hp in Hp2. injection Hp2 as <- <-. rewrite Ht. by eapply settle_keeps.
  - by eapply settle_keeps.
Qed.
Lemma keeps_trans r1 r2 r3 : keeps r1 r2 → keeps r2 r3 → keeps r1 r3.
Proof.
  intros (? & ? & H12) (? & ? & H23). split; [congruence|]. split; [congruence|].
  intros Hs. pose proof (H12 Hs). subst. auto.
Qed.
Lemma steps_keep run run' b r :
  run_ok run → rtc run_step run run' → entries (run_world run) !! b = Some r →
  ∃ r', entries (run_world run') !! b = Some r' ∧ keeps r r'.
Proof.
  intros Hok Hs. revert r. induction Hs as [|r1 r2 r3 H12 _ IH]; intros r Hr; [by exists r|].
  destruct (step_keeps _ _ _ _ Hok H12 Hr) as (r' & Hr' & Hk).
  destruct (IH (run_step_ok _ _ Hok H12) _ Hr') as (r'' & Hr'' & Hk'). exists r''.
  split; [done|]. by eapply keeps_trans.
Qed.

(** ** Providers and submissions *)

(** What a provider may do with a plan: publish or reject it, keep it or drop
    it, while others go on. *)
Class ProviderLaws (commit : Prepared → World → option (World * MutationOutcome)) : Prop :=
  provider_acts m w plans done :
    run_ok (mkRun w (m :: plans) done) →
    ∃ w' o plans' done', commit m w = Some (w', o) ∧
      rtc run_step (mkRun w (m :: plans) done) (mkRun w' plans' done').
#[export] Instance ephemeral_laws ps : ProviderLaws (ephemeral ps).
Proof.
  intros m w plans done Hok. destruct (ok_plan _ Hok m) as (r & Hr & _ & Hp); [left|].
  destruct (publish_spec ps m _ _ _ Hp Hr) as (w' & o & Hpub & _). eexists w', o, _, _.
  split; [done|]. apply rtc_once. by eapply (run_publish ps m [] plans).
Qed.

(** Up to the provider a submission returns. *)
Definition total {A} (x : R A) : Prop := ∀ b, is_Some (x b).
Lemma total_bind {A C} (x : R A) (k : A → R C) : total x → (∀ a, total (k a)) → total (x ≫= k).
Proof. intros Hx Hk b. unfold mbind, R_bind. destruct (Hx b) as [[[a|e] b1] ->]; [apply Hk|done]. Qed.
Lemma total_lift {A} (x : Meter.B A) : total (lift x).
Proof. intros b. unfold lift. by destruct (x b). Qed.
Lemma total_refuse {A} reason : total (refuse reason : R A).
Proof. intros b. eexists. reflexivity. Qed.
Lemma total_result {A} (r : result RejectionReason A) : total (of_result r).
Proof. intros b. eexists. reflexivity. Qed.
Lemma total_ret {A} (a : A) : total (mret a : R A).
Proof. intros b. eexists. reflexivity. Qed.
Ltac total :=
  repeat first
    [ apply total_lift | apply total_refuse | apply total_result | apply total_ret
    | apply total_bind; [|intros ?]
    | match goal with
      | |- total (if ?c then _ else _) => destruct c
      | |- total (match ?x with _ => _ end) => destruct x
      end ].
Lemma total_changes principal rules cs : total (authorize_changes principal rules cs).
Proof. induction cs as [|c cs IH]; cbn; total; done. Qed.
Lemma total_plan request g l : inv g → total (plan_on sz caps request g l).
Proof.
  intros Hi b. unfold plan_on. destruct (negb _); [done|].
  pose proof (BatchFacts.prepare_outcome sz caps g (br_expected_revision request)
    (br_operations request) l (BatchFacts.inv_plannable _ Hi)) as Ho.
  by destruct (PreparedBatch.prepare_batch _ _ _ _ _ _).
Qed.
Lemma prepare_total sc principal request w b :
  inv (sb_graph sc) → is_Some (prepare service sz caps sc principal request w b).
Proof.
  intros Hi. revert b. change (total (prepare service sz caps sc principal request w)).
  unfold prepare, authorize, draft, reserve. total; first [apply total_changes|by apply total_plan].
Qed.

(** What a submission saw before it reserves its slot is from earlier in the
    run. *)
Record seen_in (sc : SubmitScene) (run : Run) : Prop := {
  seen_receipts : ∃ run0, run_ok run0 ∧ rtc run_step run0 run ∧ sb_seen sc = w_receipts (run_world run0);
  seen_graph : inv (sb_graph sc);
  seen_steps : rtc System.step (sb_graph sc) (graph (run_world run))
}.

(** An answer agrees with the receipt of the identity. *)
Definition answers principal request w (o : MutationOutcome) : Prop :=
  outcome_identity o = br_identity request ∧
  (settled o = true → ∃ r, entries w !! binding principal request = Some r ∧ rc_outcome r = o ∧
     Entity.encode request = Ok (rc_canonical r)).

Lemma honest_identity done plans b r :
  bd_identity b = br_identity (rc_request r) → honest done plans b r →
  outcome_identity (rc_outcome r) = bd_identity b.
Proof.
  intros Hb. unfold honest. destruct (rc_outcome r) as [rec|i why|i c]; cbn; rewrite Hb.
  - by intros [-> _].
  - by intros [-> _].
  - by intros (_ & -> & _).
Qed.
Lemma ok_identity run b r :
  run_ok run → entries (run_world run) !! b = Some r → outcome_identity (rc_outcome r) = bd_identity b.
Proof.
  intros Hok Hr. destruct (ok_receipt _ Hok b r Hr) as (Hb & _ & Hh). by eapply honest_identity.
Qed.

(** The answer of a receipt, also of an earlier one. *)
Lemma prepare_answers sc principal request b o b' run :
  run_ok run → seen_in sc run →
  prepare service sz caps sc principal request (run_world run) b = Some (Ok (inl o), b') →
  answers principal request (run_world run) o.
Proof.
  intros Hok [(run0 & Hok0 & Hs & Hseen) _ _] (r & Hr & -> & Henc)%prepare_answer. rewrite Hseen in Hr.
  assert (Hk : ∃ r', entries (run_world run) !! binding principal request = Some r' ∧ keeps r r').
  { destruct Hr as [Hr|Hr]; [by eapply steps_keep|]. by exists r. }
  split.
  - destruct Hr as [Hr|Hr]; [by apply (ok_identity run0) in Hr|by apply (ok_identity run) in Hr].
  - intros Hset. destruct Hk as (r' & Hr' & _ & _ & Heq). rewrite (Heq Hset) in Hr'. eauto.
Qed.

Lemma acknowledge_answers sc principal request o w canonical b :
  (∀ r, entries w !! binding principal request = Some r → rc_canonical r = canonical) →
  Entity.encode request = Ok canonical →
  answers principal request w (acknowledge sc principal request o (w_receipts w) b).1.
Proof.
  intros Hc Henc.
  assert (Hbad : answers principal request w (invalid_acknowledgement request)) by by split.
  unfold acknowledge. case_bool_decide as Hid; [|done]. cbn [negb].
  assert (Hstored : answers principal request w
    (let '(stored, b0) := lookup (sb_stored_misses sc) (binding principal request) (w_receipts w) b in
     (match stored with
      | Ok (Some r) => if bool_decide (rc_outcome r = o) then o else invalid_acknowledgement request
      | _ => invalid_acknowledgement request
      end, b0)).1).
  { unfold lookup, mbind, Meter.B_bind. destruct (ReadService.acquire _ _) as [[[]|] b1]; [|done]. cbn.
    destruct (entries w !! _) as [r|] eqn:Hr; [|done]. case_bool_decide as Ho; [|done].
    split; [done|]. intros _. exists r. split; [done|]. split; [done|]. by rewrite (Hc r eq_refl). }
  destruct o; [exact Hstored..|]. by split.
Qed.

(** A submission that reserves its slot. *)
Lemma submit_reserved commit sc principal request m t w plans done b b1 :
  ProviderLaws commit → run_ok (mkRun w plans done) → seen_in sc (mkRun w plans done) →
  prepare service sz caps sc principal request w b = Some (Ok (inr (m, t)), b1) →
  ∃ w' o, commit m (set_receipts w t) = Some (w', o) ∧
  (∃ plans' done', rtc run_step (mkRun w plans done) (mkRun w' plans' done')) ∧
  entries w !! binding principal request = None ∧
  ∀ b2, answers principal request w' (acknowledge sc principal request o (w_receipts w') b2).1.
Proof.
  intros HP Hok [_ Hi Hs] Hprep. cbn in Hs.
  pose proof (run_reserve sc principal request b b1 m t w plans done Hi Hs Hprep) as Hstep.
  pose proof (run_step_ok _ _ Hok Hstep) as Hok1.
  destruct (HP m _ plans done Hok1) as (w' & o & plans' & done' & Hcommit & Hrun).
  apply prepare_reserved in Hprep as (canonical & [Henc Hfree _ -> _ _ _]); [|done].
  exists w', o. split; [done|]. split; [exists plans', done'; by eapply rtc_l|]. split; [done|]. intros b2.
  apply (acknowledge_answers _ _ _ _ _ canonical); [|done]. intros r Hr.
  destruct (steps_keep _ _ (binding principal request) _ Hok1 Hrun (lookup_insert_eq _ _ _)) as (r' & Hr' & Hc & _).
  cbn in Hr'. rewrite Hr in Hr'. by injection Hr' as <-.
Qed.

(** [reconcile] answers from the receipt. *)
Lemma reconcile_Ok misses misses' principal identity w b o b' :
  reconcile misses misses' principal identity w b = (Ok o, b') →
  o = match entries w !! mkBinding (principal_key principal) identity with
      | Some r => rc_outcome r
      | None => MUnknown identity UMissing
      end.
Proof.
  unfold reconcile. intros (? & ? & _ & H)%ReadServiceFacts.b_bind_ok. destruct (Entity.encode identity); [|done].
  apply ReadServiceFacts.b_bind_ok in H as (? & ? & _ & H). apply ReadServiceFacts.b_bind_ok in H as (r & ? & Hr & H).
  destruct (negb _); [done|]. apply ReadServiceFacts.b_bind_ok in H as (? & ? & _ & [= <- _]).
  revert Hr. unfold lookup. intros (? & ? & _ & [= <- _])%ReadServiceFacts.b_bind_ok. done.
Qed.
End facts.
End MutationFacts.
