(* ===== verification/SubscriptionWire.v ===== *)
(** * The messages of state subscriptions

    [haystack-core/src/codecs/subscription.rs]: the requests a client makes
    about a watch and the outcomes it gets, as values in a strict envelope of
    their own.  They are instances of [EntityWire], so the byte and grid
    layers of the entity protocol carry them, and of its laws: a value is
    read as a message exactly when the message is written as that value and,
    of a delivery, its rows fit the reader's budget.

    The helpers of this module of the source and those of the entity protocol
    read alike and differ in the text of their one error, which [relabel]
    changes. *)

From Stdlib Require Import Ascii.
From stdpp Require Import pretty.
From S2P Require Import Prelude Floats Kinds Size Extern Bitmap Adjacency ValueIndex Filter Changelog Graph Prepared WireText TypedPayload TypedFacts EntityWire EntityWireFacts EntityWireLaws.

(** ** Messages *)

Record SubscriptionId : Type := mkSubscriptionId {
  sid_authority : bytes; sid_watch : bytes; sid_key : string }.
Record SubscriptionCreate : Type := mkSubscriptionCreate {
  sc_authority : bytes; sc_key : string; sc_ids : list string; sc_lease_ms : N }.
Inductive SubscriptionRequest : Type :=
| SDescribe
| SCreate (create : SubscriptionCreate)
| SPoll (watch : SubscriptionId)
| SResume (watch : SubscriptionId) (scope_generation acknowledged : N)
| SAcknowledge (watch : SubscriptionId) (scope_generation : N) (token : bytes) (through : N)
| SRenew (watch : SubscriptionId) (lease_ms : N)
| SReplace (watch : SubscriptionId) (expected_scope_generation : N) (ids : list string)
| SUnsubscribe (watch : SubscriptionId).

Inductive SubscriptionRejection : Type :=
| SRInvalid | SRForbidden | SRConflict | SRCapacity | SRLimit | SRPending.
Inductive SubscriptionResync : Type :=
| SYAuthority | SYSessionExpired | SYRevoked | SYLeaseExpired | SYGap | SYIncarnation | SYCatalog
| SYPolicy | SYScopeChanged | SYShutdown | SYOverflow | SYUnknown.
Record SubscriptionDelivery : Type := mkDelivery {
  dl_watch : SubscriptionId;
  dl_dataset : bytes;
  dl_incarnation : bytes;
  dl_catalog_generation : N;
  dl_scope_generation : N;
  dl_token : bytes;
  dl_from : N;
  dl_through : N;
  dl_initial : bool;
  dl_rows : list HDict;
  dl_removed : list string
}.
Inductive SubscriptionOutcome : Type :=
| SAuthority (authority dataset : bytes)
| SDelivery (delivery : SubscriptionDelivery)
| SIdle (watch : SubscriptionId) (scope_generation acknowledged : N)
| SAcknowledged (watch : SubscriptionId) (scope_generation : N) (token : bytes) (through : N)
| SRenewed (watch : SubscriptionId) (lease_ms : N)
| SClosed (watch : SubscriptionId)
| SRejected (reason : SubscriptionRejection)
| SResync (reason : SubscriptionResync)
| SUnknown.

#[export] Instance SubscriptionId_eq_dec : EqDecision SubscriptionId.
Proof. solve_decision. Defined.
#[export] Instance SubscriptionCreate_eq_dec : EqDecision SubscriptionCreate.
Proof. solve_decision. Defined.
#[export] Instance SubscriptionRequest_eq_dec : EqDecision SubscriptionRequest.
Proof. solve_decision. Defined.
#[export] Instance SubscriptionResync_eq_dec : EqDecision SubscriptionResync.
Proof. solve_decision. Defined.
#[export] Instance SubscriptionRejection_eq_dec : EqDecision SubscriptionRejection.
Proof. solve_decision. Defined.

Module SubWire.

Definition MAX_IDS : N := 1000.
Definition MAX_KEY_BYTES : N := 128.
Definition MAX_LEASE_MS : N := 3600000.

Definition invalid : TypedPayloadError := Invalid "invalid state subscription envelope".
Definition relabel {A} (r : W A) : W A := map_err (λ _, invalid) r.

(** [SubscriptionRequest::operation], [SubscriptionRequest::watch] and
    [SubscriptionOutcome::watch]. *)
Definition operation (r : SubscriptionRequest) : string :=
  match r with
  | SDescribe => "watchInfo"
  | SCreate _ | SReplace _ _ _ => "watchSub"
  | SPoll _ | SResume _ _ _ => "watchPoll"
  | SAcknowledge _ _ _ _ => "watchAck"
  | SRenew _ _ => "watchRenew"
  | SUnsubscribe _ => "watchUnsub"
  end.
Definition request_watch (r : SubscriptionRequest) : option SubscriptionId :=
  match r with
  | SDescribe | SCreate _ => None
  | SPoll w | SResume w _ _ | SAcknowledge w _ _ _ | SRenew w _ | SReplace w _ _ | SUnsubscribe w => Some w
  end.
Definition outcome_watch (o : SubscriptionOutcome) : option SubscriptionId :=
  match o with
  | SDelivery d => Some (dl_watch d)
  | SIdle w _ _ | SAcknowledged w _ _ _ | SRenewed w _ | SClosed w => Some w
  | _ => None
  end.

(** ** Bounds *)

Definition check_key (key : string) : W unit :=
  if bool_decide (key = "") || (MAX_KEY_BYTES <? str_len key)%N || any_control key
  then Err invalid else Ok ().
Definition check_id (id : string) : W unit :=
  if bool_decide (id = "") || (1024 <? str_len id)%N || any_control id then Err invalid else Ok ().
Definition check_lease (lease : N) : W unit :=
  if (lease =? 0)%N || (MAX_LEASE_MS <? lease)%N then Err invalid else Ok ().

(** One round of the loop of [ids_bytes] and of the closure of [parse_ids]. *)
Definition count_id (bytes : N) (id : string) : W N :=
  let? _ := check_id id in
  let bytes := saturating_add bytes (str_len id + 64) in
  if (65536 <? bytes)%N then Err invalid else Ok bytes.
Definition ids_bytes (ids : list string) (allow_empty : bool) : W N :=
  if (negb allow_empty && is_nil ids) || (MAX_IDS <? len ids)%N then Err invalid
  else try_fold count_id 0%N ids.

Definition watch_bytes (base : N) (w : option SubscriptionId) : W N :=
  match w with
  | Some w => let? _ := check_key (sid_key w) in Ok (base + str_len (sid_key w))%N
  | None => Ok base
  end.

(** [SubscriptionRequest::source_bytes]. *)
Definition request_bytes (r : SubscriptionRequest) : W N :=
  let? bytes := watch_bytes 512 (request_watch r) in
  let? bytes :=
    match r with
    | SCreate c =>
        let? _ := check_key (sc_key c) in
        let? _ := check_lease (sc_lease_ms c) in
        let? n := ids_bytes (sc_ids c) false in
        Ok (bytes + (str_len (sc_key c) + n))%N
    | SReplace _ scope ids =>
        if (scope =? 0)%N then Err invalid
        else let? n := ids_bytes ids true in Ok (bytes + n)%N
    | SRenew _ lease => let? _ := check_lease lease in Ok bytes
    | SResume _ scope _ | SAcknowledge _ scope _ _ => if (scope =? 0)%N then Err invalid else Ok bytes
    | _ => Ok bytes
    end in
  if (65536 <? bytes)%N then Err invalid else Ok bytes.

Section wire.
Context {HO : HashOrder}.

(** One round over the rows of a delivery, and one over its removed ids. *)
Definition count_row (st : ValueBudget.t * gset string) (row : HDict) : W (ValueBudget.t * gset string) :=
  let '(b, ids) := st in
  let? b := map_err (λ _, invalid) (ValueBudget.dict b row 1) in
  match HDict.get row "id" with
  | Some (KRef id) =>
      let? _ := check_id (ref_val id) in
      if decide (ref_val id ∈ ids) then Err invalid else Ok (b, {[ref_val id]} ∪ ids)
  | _ => Err invalid
  end.
Definition count_removed (ids : gset string) (id : string) : W (gset string) :=
  let? _ := check_id id in
  if decide (id ∈ ids) then Err invalid else Ok ({[id]} ∪ ids).

Definition delivery_bytes (bytes : N) (d : SubscriptionDelivery) : W N :=
  if (MAX_IDS <? len (dl_rows d))%N || (MAX_IDS <? len (dl_removed d))%N
     || (dl_scope_generation d =? 0)%N || (dl_through d <? dl_from d)%N
     || (dl_initial d && (negb (dl_from d =? dl_through d)%N || negb (is_nil (dl_removed d))))
  then Err invalid
  else
    let? st := try_fold count_row (row_budget, ∅) (dl_rows d) in
    let? _ := try_fold count_removed st.2 (dl_removed d) in
    Ok (saturating_add (saturating_add bytes (ValueBudget.used_bytes st.1))
          (foldr (λ id n, str_len id + 64 + n)%N 0%N (dl_removed d))).

(** [SubscriptionOutcome::source_bytes]. *)
Definition outcome_bytes (o : SubscriptionOutcome) : W N :=
  let? bytes := watch_bytes 1024 (outcome_watch o) in
  match o with
  | SDelivery d => delivery_bytes bytes d
  | SIdle _ scope _ | SAcknowledged _ scope _ _ => if (scope =? 0)%N then Err invalid else Ok bytes
  | SRenewed _ lease => let? _ := check_lease lease in Ok bytes
  | _ => Ok bytes
  end.

(** ** Pieces of the envelope *)

Definition hex_kind (value : bytes) : Kind := text (hex value).
Definition parse_hex (v : Kind) : W bytes :=
  match v with KStr s => relabel (EntityWire.parse_hex s) | _ => Err invalid end.
Definition fields (v : Kind) (names : list string) : W HDict :=
  match v with
  | KDict d =>
      if negb (HDict.length d =? len names)%N || negb (forallb (λ n, HDict.has d n) names)
      then Err invalid else Ok d
  | _ => Err invalid
  end.
Definition field (d : HDict) (k : string) : W Kind := relabel (value d k).
Definition string_field (d : HDict) (k : string) : W string := relabel (string_of d k).
Definition number (d : HDict) (k : string) : W N := relabel (EntityWire.number d k).
Definition hex_field (d : HDict) (k : string) : W bytes := let? v := field d k in parse_hex v.

Definition identity (i : SubscriptionId) : Kind :=
  kd (dict [("authority", hex_kind (sid_authority i)); ("watch", hex_kind (sid_watch i));
            ("key", text (sid_key i))]).
Definition parse_identity (v : Kind) : W SubscriptionId :=
  let? d := fields v ["authority"; "watch"; "key"] in
  let? key := string_field d "key" in
  let? _ := check_key key in
  let? a := hex_field d "authority" in
  let? w := hex_field d "watch" in
  Ok (mkSubscriptionId a w key).
Definition watch_field (d : HDict) : W SubscriptionId := let? v := field d "watch" in parse_identity v.

Definition ids_kind (ids : list string) : Kind := KList (text <$> ids).
Definition parse_id (st : N * list string) (v : Kind) : W (N * list string) :=
  match v with
  | KStr id => let? n := count_id st.1 id in Ok (n, st.2 ++ [id])
  | _ => Err invalid
  end.
Definition parse_ids (v : Kind) (allow_empty : bool) : W (list string) :=
  match v with
  | KList ids =>
      if (MAX_IDS <? len ids)%N || (negb allow_empty && is_nil ids) then Err invalid
      else let? st := try_fold parse_id (0%N, []) ids in Ok st.2
  | _ => Err invalid
  end.
Definition ids_field (d : HDict) (k : string) (allow_empty : bool) : W (list string) :=
  let? v := field d k in parse_ids v allow_empty.

Definition PROFILE : string := "state-subscription-v1".
Definition envelope (kind : string) (body : Kind) : Kind :=
  kd (dict [("profile", text PROFILE); ("type", text kind); ("body", body)]).
(** [open]. *)
Definition open_envelope (v : Kind) : W (string * Kind) :=
  let? d := fields v ["profile"; "type"; "body"] in
  let? p := string_field d "profile" in
  if negb (bool_decide (p = PROFILE)) then Err invalid
  else
    let? kind := string_field d "type" in
    let? body := field d "body" in
    Ok (kind, body).

(** ** Requests *)

(** The name of a request and the entries of its body. *)
Definition request_parts (r : SubscriptionRequest) : string * list (string * Kind) :=
  match r with
  | SDescribe => ("describe", [])
  | SCreate c =>
      ("create", [("authority", hex_kind (sc_authority c)); ("key", text (sc_key c));
                  ("ids", ids_kind (sc_ids c)); ("leaseMs", uint (sc_lease_ms c))])
  | SPoll w => ("poll", [("watch", identity w)])
  | SResume w scope acknowledged =>
      ("resume", [("watch", identity w); ("scopeGeneration", uint scope); ("acknowledged", uint acknowledged)])
  | SAcknowledge w scope token through =>
      ("acknowledge", [("watch", identity w); ("scopeGeneration", uint scope); ("token", hex_kind token);
                       ("through", uint through)])
  | SRenew w lease => ("renew", [("watch", identity w); ("leaseMs", uint lease)])
  | SReplace w scope ids =>
      ("replace", [("watch", identity w); ("scopeGeneration", uint scope); ("ids", ids_kind ids)])
  | SUnsubscribe w => ("unsubscribe", [("watch", identity w)])
  end.
Definition request_to_kind (r : SubscriptionRequest) : W Kind :=
  let? _ := request_bytes r in
  let '(kind, entries) := request_parts r in
  Ok (envelope kind (kd (dict entries))).

Definition request_body (kind : string) (body : Kind) : W SubscriptionRequest :=
  if decide (kind = "describe") then let? _ := fields body [] in Ok SDescribe
  else if decide (kind = "create") then
    let? d := fields body ["authority"; "key"; "ids"; "leaseMs"] in
    let? key := string_field d "key" in
    let? _ := check_key key in
    let? a := hex_field d "authority" in
    let? ids := ids_field d "ids" false in
    let? lease := number d "leaseMs" in
    Ok (SCreate (mkSubscriptionCreate a key ids lease))
  else if decide (kind = "poll" ∨ kind = "unsubscribe") then
    let? d := fields body ["watch"] in
    let? w := watch_field d in
    Ok (if decide (kind = "poll") then SPoll w else SUnsubscribe w)
  else if decide (kind = "resume") then
    let? d := fields body ["watch"; "scopeGeneration"; "acknowledged"] in
    let? w := watch_field d in
    let? scope := number d "scopeGeneration" in
    let? acknowledged := number d "acknowledged" in
    Ok (SResume w scope acknowledged)
  else if decide (kind = "acknowledge") then
    let? d := fields body ["watch"; "scopeGeneration"; "token"; "through"] in
    let? w := watch_field d in
    let? scope := number d "scopeGeneration" in
    let? token := hex_field d "token" in
    let? through := number d "through" in
    Ok (SAcknowledge w scope token through)
  else if decide (kind = "renew") then
    let? d := fields body ["watch"; "leaseMs"] in
    let? w := watch_field d in
    let? lease := number d "leaseMs" in
    Ok (SRenew w lease)
  else if decide (kind = "replace") then
    let? d := fields body ["watch"; "scopeGeneration"; "ids"] in
    let? w := watch_field d in
    let? scope := number d "scopeGeneration" in
    let? ids := ids_field d "ids" true in
    Ok (SReplace w scope ids)
  else Err invalid.
Definition request_from_kind (v : Kind) : W SubscriptionRequest :=
  let? (kind, body) := open_envelope v in
  let? r := request_body kind body in
  let? _ := request_bytes r in
  Ok r.
#[global] Instance SubscriptionRequest_wire : EntityWire SubscriptionRequest :=
  {| to_kind := request_to_kind; from_kind := request_from_kind |}.

(** ** Outcomes *)

Definition rejection_name (r : SubscriptionRejection) : string :=
  match r with
  | SRInvalid => "invalid" | SRForbidden => "forbidden" | SRConflict => "conflict"
  | SRCapacity => "capacity" | SRLimit => "limit" | SRPending => "pending"
  end.
Definition rejection (s : string) : W SubscriptionRejection :=
  if decide (s = "invalid") then Ok SRInvalid
  else if decide (s = "forbidden") then Ok SRForbidden
  else if decide (s = "conflict") then Ok SRConflict
  else if decide (s = "capacity") then Ok SRCapacity
  else if decide (s = "limit") then Ok SRLimit
  else if decide (s = "pending") then Ok SRPending
  else Err invalid.
Definition resync_name (r : SubscriptionResync) : string :=
  match r with
  | SYAuthority => "authority" | SYSessionExpired => "sessionExpired" | SYRevoked => "revoked"
  | SYLeaseExpired => "leaseExpired" | SYGap => "gap" | SYIncarnation => "incarnation"
  | SYCatalog => "catalog" | SYPolicy => "policy" | SYScopeChanged => "scopeChanged"
  | SYShutdown => "shutdown" | SYOverflow => "overflow" | SYUnknown => "unknown"
  end.
Definition resync (s : string) : W SubscriptionResync :=
  if decide (s = "authority") then Ok SYAuthority
  else if decide (s = "sessionExpired") then Ok SYSessionExpired
  else if decide (s = "revoked") then Ok SYRevoked
  else if decide (s = "leaseExpired") then Ok SYLeaseExpired
  else if decide (s = "gap") then Ok SYGap
  else if decide (s = "incarnation") then Ok SYIncarnation
  else if decide (s = "catalog") then Ok SYCatalog
  else if decide (s = "policy") then Ok SYPolicy
  else if decide (s = "scopeChanged") then Ok SYScopeChanged
  else if decide (s = "shutdown") then Ok SYShutdown
  else if decide (s = "overflow") then Ok SYOverflow
  else if decide (s = "unknown") then Ok SYUnknown
  else Err invalid.

Definition outcome_parts (o : SubscriptionOutcome) : string * list (string * Kind) :=
  match o with
  | SAuthority a d => ("authority", [("authority", hex_kind a); ("dataset", hex_kind d)])
  | SDelivery v =>
      ("delivery", [("watch", identity (dl_watch v)); ("dataset", hex_kind (dl_dataset v));
        ("incarnation", hex_kind (dl_incarnation v));
        ("catalogGeneration", uint (dl_catalog_generation v));
        ("scopeGeneration", uint (dl_scope_generation v)); ("token", hex_kind (dl_token v));
        ("from", uint (dl_from v)); ("through", uint (dl_through v)); ("initial", KBool (dl_initial v));
        ("rows", KList (kd <$> dl_rows v)); ("removed", ids_kind (dl_removed v))])
  | SIdle w scope acknowledged =>
      ("idle", [("watch", identity w); ("scopeGeneration", uint scope); ("acknowledged", uint acknowledged)])
  | SAcknowledged w scope token through =>
      ("acknowledged", [("watch", identity w); ("scopeGeneration", uint scope); ("token", hex_kind token);
                        ("through", uint through)])
  | SRenewed w lease => ("renewed", [("watch", identity w); ("leaseMs", uint lease)])
  | SClosed w => ("closed", [("watch", identity w)])
  | SRejected r => ("rejected", [("reason", text (rejection_name r))])
  | SResync r => ("resync", [("reason", text (resync_name r))])
  | SUnknown => ("unknown", [])
  end.
Definition outcome_to_kind (o : SubscriptionOutcome) : W Kind :=
  let? _ := outcome_bytes o in
  let '(kind, entries) := outcome_parts o in
  Ok (envelope kind (kd (dict entries))).

(** The rows of a delivery, measured before they are taken. *)
Definition measure_row_values (rows : list Kind) : W unit :=
  let? _ := map_err (λ _, invalid) (try_fold (λ b row, ValueBudget.value b row 1) row_budget rows) in
  Ok ().
Definition rows_field (d : HDict) : W (list HDict) :=
  let? v := field d "rows" in
  match v with
  | KList rows =>
      if (MAX_IDS <? len rows)%N then Err invalid
      else
        let? _ := measure_row_values rows in
        try_map (λ row, match row with KDict r => Ok r | _ => Err invalid end) rows
  | _ => Err invalid
  end.
Definition delivery_body (body : Kind) : W SubscriptionDelivery :=
  let? d := fields body ["watch"; "dataset"; "incarnation"; "catalogGeneration"; "scopeGeneration"; "token";
                         "from"; "through"; "initial"; "rows"; "removed"] in
  let? rows := rows_field d in
  let? v := field d "initial" in
  let? initial := match v with KBool b => Ok b | _ => Err invalid end in
  let? w := watch_field d in
  let? ds := hex_field d "dataset" in
  let? inc := hex_field d "incarnation" in
  let? catalog := number d "catalogGeneration" in
  let? scope := number d "scopeGeneration" in
  let? token := hex_field d "token" in
  let? from := number d "from" in
  let? through := number d "through" in
  let? removed := ids_field d "removed" true in
  Ok (mkDelivery w ds inc catalog scope token from through initial rows removed).

Definition outcome_body (kind : string) (body : Kind) : W SubscriptionOutcome :=
  if decide (kind = "authority") then
    let? d := fields body ["authority"; "dataset"] in
    let? a := hex_field d "authority" in
    let? ds := hex_field d "dataset" in
    Ok (SAuthority a ds)
  else if decide (kind = "delivery") then let? v := delivery_body body in Ok (SDelivery v)
  else if decide (kind = "idle") then
    let? d := fields body ["watch"; "scopeGeneration"; "acknowledged"] in
    let? w := watch_field d in
    let? scope := number d "scopeGeneration" in
    let? acknowledged := number d "acknowledged" in
    Ok (SIdle w scope acknowledged)
  else if decide (kind = "acknowledged") then
    let? d := fields body ["watch"; "scopeGeneration"; "token"; "through"] in
    let? w := watch_field d in
    let? scope := number d "scopeGeneration" in
    let? token := hex_field d "token" in
    let? through := number d "through" in
    Ok (SAcknowledged w scope token through)
  else if decide (kind = "renewed") then
    let? d := fields body ["watch"; "leaseMs"] in
    let? w := watch_field d in
    let? lease := number d "leaseMs" in
    Ok (SRenewed w lease)
  else if decide (kind = "closed") then
    let? d := fields body ["watch"] in
    let? w := watch_field d in
    Ok (SClosed w)
  else if decide (kind = "rejected") then
    let? d := fields body ["reason"] in
    let? s := string_field d "reason" in
    let? r := rejection s in
    Ok (SRejected r)
  else if decide (kind = "resync") then
    let? d := fields body ["reason"] in
    let? s := string_field d "reason" in
    let? r := resync s in
    Ok (SResync r)
  else if decide (kind = "unknown") then let? _ := fields body [] in Ok SUnknown
  else Err invalid.
Definition outcome_from_kind (v : Kind) : W SubscriptionOutcome :=
  let? (kind, body) := open_envelope v in
  let? o := outcome_body kind body in
  let? _ := outcome_bytes o in
  Ok o.
#[global] Instance SubscriptionOutcome_wire : EntityWire SubscriptionOutcome :=
  {| to_kind := outcome_to_kind; from_kind := outcome_from_kind |}.

(** ** Correlation *)

(** The answers a request can have. *)
Definition answers (r : SubscriptionRequest) (o : SubscriptionOutcome) : bool :=
  match r, o with
  | _, (SRejected _ | SResync _ | SUnknown) => true
  | SDescribe, SAuthority _ _ => true
  | SCreate _, (SDelivery _ | SClosed _ | SIdle _ _ _) => true
  | SPoll _, (SDelivery _ | SIdle _ _ _ | SClosed _) => true
  | SResume _ scope acknowledged, SDelivery d =>
      (dl_scope_generation d =? scope)%N && (dl_from d =? acknowledged)%N
  | SResume _ scope acknowledged, SIdle _ scope' acknowledged' =>
      (scope =? scope')%N && (acknowledged =? acknowledged')%N
  | SReplace _ expected _, SDelivery d =>
      dl_initial d && bool_decide (checked_add u64_max expected 1 = Some (dl_scope_generation d))
  | (SResume _ _ _ | SReplace _ _ _ | SAcknowledge _ _ _ _ | SRenew _ _), SClosed _ => true
  | SAcknowledge _ scope token through, SAcknowledged _ scope' token' through' =>
      (scope =? scope')%N && bool_decide (token = token') && (through =? through')%N
  | SRenew _ lease, SRenewed _ lease' => (lease =? lease')%N
  | SUnsubscribe _, SClosed _ => true
  | _, _ => false
  end.
Definition correlates (r : SubscriptionRequest) (o : SubscriptionOutcome) : bool :=
  match outcome_watch o with
  | None => true
  | Some actual =>
      match request_watch r, r with
      | Some expected, _ => bool_decide (actual = expected)
      | None, SCreate c =>
          bool_decide (sid_authority actual = sc_authority c) && bool_decide (sid_key actual = sc_key c)
      | None, _ => false
      end
  end.
(** [validate_for_request]. *)
Definition validate_for_request (o : SubscriptionOutcome) (r : SubscriptionRequest) : W unit :=
  let? _ := request_bytes r in
  let? _ := outcome_bytes o in
  if negb (correlates r o) then Err invalid
  else if answers r o then Ok () else Err invalid.
End wire.

(** ** Reading is the inverse of writing *)

Section laws.
Context {HO : HashOrder} {HL : HashOrderLaws}.

Lemma relabel_Ok {A} (r : W A) x : relabel r = Ok x ↔ r = Ok x.
Proof. destruct r; simpl; split; intros E; simplify_eq; done. Qed.

Lemma fields_agree v names d :
  NoDup names → fields v names = Ok d ↔ EntityWire.fields v names = Ok d.
Proof.
  intros Hnd. rewrite fields_Ok by done. assert (Hall : ∀ e : HDict,
    forallb (λ n, HDict.has e n) names = true ↔ (list_to_set names : gset string) ⊆ dom e).
  { intros e. rewrite forallb_forall. unfold HDict.has. split.
    - intros Hx k Hk%elem_of_list_to_set. apply elem_of_dom.
      apply list_elem_of_In, Hx, bool_decide_eq_true in Hk. done.
    - intros Hs k Hk. apply bool_decide_eq_true, elem_of_dom, Hs, elem_of_list_to_set.
      by apply list_elem_of_In. }
  assert (Hsize : size (list_to_set names : gset string) = length names) by by apply size_list_to_set.
  destruct v; try (split; [done|]; by intros [? _]). cbn [fields]. unfold HDict.length, len.
  destruct (N.eqb_spec (N.of_nat (size v)) (N.of_nat (length names))) as [Hl|Hl]; cbn [negb orb].
  - destruct (forallb _ _) eqn:Hf; cbn [negb].
    + apply Hall in Hf. split; [intros [= <-]|by intros [[= ->] _]]. split; [done|].
      symmetry. apply set_subseteq_size_eq; [done|]. rewrite size_dom. lia.
    + split; [done|]. intros [[= ->] Hd]. by rewrite (proj2 (Hall d)) in Hf by by rewrite Hd.
  - split; [done|]. intros [[= ->] Hd]. destruct Hl. by rewrite <-size_dom, Hd, Hsize.
Qed.
Lemma fields_entries names entries :
  entries.*1 = names → NoDup names → fields (kd (dict entries)) names = Ok (dict entries).
Proof. intros <- Hnd. by apply fields_agree, fields_dict. Qed.
Lemma fields_only v names d entries :
  NoDup names → fields v names = Ok d → entries.*1 = names →
  Forall (λ kv, d !! kv.1 = Some kv.2) entries → v = kd (dict entries).
Proof. intros Hnd Hf%fields_agree; [|done]. by eapply fields_exact. Qed.

Ltac expect_fields :=
  match goal with |- context [fields (kd (dict ?e)) ?names] =>
    rewrite (fields_entries names e eq_refl) by distinct end.

Lemma field_Ok d k v : field d k = Ok v ↔ d !! k = Some v.
Proof. unfold field. by rewrite relabel_Ok, value_Ok. Qed.
Lemma string_field_Ok d k s : string_field d k = Ok s ↔ d !! k = Some (text s).
Proof. unfold string_field. by rewrite relabel_Ok, string_of_Ok. Qed.
Lemma uint_field_Ok d k n : number d k = Ok n ↔ d !! k = Some (uint n) ∧ (n ≤ u64_max)%N.
Proof. unfold number. by rewrite relabel_Ok, number_Ok. Qed.
Lemma hex_value_Ok v l : parse_hex v = Ok l ↔ array16 l ∧ v = hex_kind l.
Proof.
  destruct v; try (split; [done|]; by intros [_ ?]). cbn [parse_hex]. rewrite relabel_Ok, parse_hex_Ok.
  unfold hex_kind, text. split; intros [? ?]; simplify_eq; done.
Qed.
Lemma hex_field_Ok d k l : hex_field d k = Ok l ↔ array16 l ∧ d !! k = Some (hex_kind l).
Proof.
  unfold hex_field. rewrite <-field_Ok. destruct (field d k) as [v|]; [|naive_solver].
  rewrite hex_value_Ok. naive_solver.
Qed.

Definition id_valid (i : SubscriptionId) : Prop := array16 (sid_authority i) ∧ array16 (sid_watch i).
Lemma identity_inj_exact v i :
  parse_identity v = Ok i ↔ id_valid i ∧ check_key (sid_key i) = Ok () ∧ v = identity i.
Proof.
  unfold parse_identity. split.
  - intros H. step H d Hd. step H key Hk. step H u Hu. step H a Ha. step H w Hw. injection H as <-.
    apply hex_field_Ok in Ha as [Ha Ha'], Hw as [Hw Hw']. apply string_field_Ok in Hk. destruct u.
    split; [done|]. split; [done|]. eapply fields_only; [|exact Hd|done|]; [distinct|]. by repeat constructor.
  - intros ([Ha Hw] & Hk & ->). unfold identity.
    expect_fields.
    rewrite (proj2 (string_field_Ok _ "key" (sid_key i))) by done. rewrite Hk.
    rewrite (proj2 (hex_field_Ok _ "authority" (sid_authority i))) by done.
    rewrite (proj2 (hex_field_Ok _ "watch" (sid_watch i))) by done. by destruct i.
Qed.
Lemma watch_field_Ok d i :
  watch_field d = Ok i ↔ id_valid i ∧ check_key (sid_key i) = Ok () ∧ d !! "watch" = Some (identity i).
Proof.
  unfold watch_field. rewrite <-field_Ok. destruct (field d "watch") as [v|]; [|naive_solver].
  rewrite identity_inj_exact. naive_solver.
Qed.

Lemma parse_id_fold n acc vs m out :
  try_fold parse_id (n, acc) vs = Ok (m, out) ↔
  ∃ ids, vs = text <$> ids ∧ out = acc ++ ids ∧ try_fold count_id n ids = Ok m.
Proof.
  revert n acc. induction vs as [|v vs IH]; intros n acc; simpl.
  - split.
    + intros [= <- <-]. exists []. by rewrite app_nil_r.
    + intros (ids & E & -> & H). symmetry in E. apply fmap_nil_inv in E as ->. injection H as <-. by rewrite app_nil_r.
  - split.
    + unfold parse_id at 1. destruct v; try done. rename v into s. cbn [fst snd]. destruct (count_id n s) as [n'|] eqn:Hc; [|done].
      intros (ids & -> & -> & H)%IH. exists (s :: ids). rewrite <-app_assoc. simpl. by rewrite Hc.
    + intros (ids & E & -> & H). destruct ids as [|id ids]; [done|]. simpl in E, H. injection E as -> ->.
      cbn [parse_id text fst snd]. destruct (count_id n id) as [n'|]; [|done]. apply IH. exists ids.
      by rewrite <-app_assoc.
Qed.
Lemma parse_ids_Ok v e ids : parse_ids v e = Ok ids ↔ v = ids_kind ids ∧ is_ok (ids_bytes ids e) = true.
Proof.
  unfold ids_kind, ids_bytes. assert (Hl : len (text <$> ids) = len ids) by by unfold len; rewrite length_fmap.
  assert (Hn : is_nil (text <$> ids) = is_nil ids) by by destruct ids. split.
  - destruct v; try done. rename v into vs. cbn [parse_ids].
    destruct (_ || _) eqn:Hg; [done|]. destruct (try_fold parse_id _ vs) as [[m out]|] eqn:Hf; [|done].
    intros [= <-]. apply parse_id_fold in Hf as (l & -> & -> & Hc). cbn [app snd] in *.
    split; [done|]. rewrite Hl, Hn, orb_comm in Hg. rewrite Hg. by rewrite Hc.
  - intros [-> Hc]. cbn [parse_ids]. rewrite Hl, Hn, orb_comm. destruct (_ || _); [done|].
    destruct (try_fold count_id 0%N ids) as [m|] eqn:Hf; [|done].
    by rewrite (proj2 (parse_id_fold 0 [] _ m ids)) by by exists ids.
Qed.
Lemma ids_field_Ok d k e ids :
  ids_field d k e = Ok ids ↔ d !! k = Some (ids_kind ids) ∧ is_ok (ids_bytes ids e) = true.
Proof.
  unfold ids_field. rewrite <-field_Ok. destruct (field d k) as [v|]; [|naive_solver].
  rewrite parse_ids_Ok. naive_solver.
Qed.

Lemma open_exact v kind b : open_envelope v = Ok (kind, b) ↔ v = envelope kind b.
Proof.
  unfold open_envelope. split.
  - intros H. step H d Hd. step H p Hp. apply string_field_Ok in Hp. case_bool_decide; [|done]. subst p.
    cbn [negb] in H. step H k Hk. step H x Hx. injection H as <- <-. apply string_field_Ok in Hk.
    apply field_Ok in Hx. eapply fields_only; [|exact Hd|done|]; [distinct|]. by repeat constructor.
  - intros ->. unfold envelope. 
    expect_fields.
    rewrite (proj2 (string_field_Ok _ "profile" PROFILE)) by done. rewrite bool_decide_true by done. cbn [negb].
    rewrite (proj2 (string_field_Ok _ "type" kind)) by done. by rewrite (proj2 (field_Ok _ "body" b)).
Qed.

Lemma rejection_exact s r : rejection s = Ok r ↔ s = rejection_name r.
Proof. unfold rejection. split; [repeat case_decide; by intros [= <-]|intros ->; by destruct r]. Qed.
Lemma resync_exact s r : resync s = Ok r ↔ s = resync_name r.
Proof. unfold resync. split; [repeat case_decide; by intros [= <-]|intros ->; by destruct r]. Qed.

(** What the Rust types say of a request and of an outcome, and that the rows
    of a delivery fit the budget they are measured with. *)
Definition u64 (n : N) : Prop := (n ≤ u64_max)%N.
Definition request_valid (r : SubscriptionRequest) : Prop :=
  match r with
  | SDescribe => True
  | SCreate c => array16 (sc_authority c) ∧ u64 (sc_lease_ms c)
  | SPoll w | SUnsubscribe w => id_valid w
  | SResume w scope acknowledged => id_valid w ∧ u64 scope ∧ u64 acknowledged
  | SAcknowledge w scope token through => id_valid w ∧ u64 scope ∧ array16 token ∧ u64 through
  | SRenew w lease => id_valid w ∧ u64 lease
  | SReplace w scope _ => id_valid w ∧ u64 scope
  end.
Definition delivery_valid (d : SubscriptionDelivery) : Prop :=
  id_valid (dl_watch d) ∧ array16 (dl_dataset d) ∧ array16 (dl_incarnation d) ∧
  u64 (dl_catalog_generation d) ∧ u64 (dl_scope_generation d) ∧ array16 (dl_token d) ∧
  u64 (dl_from d) ∧ u64 (dl_through d).
Definition readable (rows : list HDict) : Prop := measure_row_values (kd <$> rows) = Ok ().
Definition outcome_valid (o : SubscriptionOutcome) : Prop :=
  match o with
  | SAuthority a d => array16 a ∧ array16 d
  | SDelivery d => delivery_valid d ∧ readable (dl_rows d) ∧
      is_ok (ids_bytes (dl_removed d) true) = true
  | SIdle w scope acknowledged => id_valid w ∧ u64 scope ∧ u64 acknowledged
  | SAcknowledged w scope token through => id_valid w ∧ u64 scope ∧ array16 token ∧ u64 through
  | SRenewed w lease => id_valid w ∧ u64 lease
  | SClosed w => id_valid w
  | _ => True
  end.

Lemma rows_field_Ok d rows :
  rows_field d = Ok rows ↔
  d !! "rows" = Some (KList (kd <$> rows)) ∧ readable rows ∧ (len rows ≤ MAX_IDS)%N.
Proof.
  unfold rows_field. rewrite <-field_Ok. destruct (field d "rows") as [v|]; [|naive_solver].
  destruct v as [| | | | | | | | | | | | | | | | | | | |vs| |];
    try (split; [done|by intros [[= ?] _]]).
  assert (Hmap : ∀ l r, try_map (λ row, match row with KDict r => Ok r | _ => @Err TypedPayloadError _ invalid end) l
    = Ok r ↔ l = kd <$> r).
  { intros l r. rewrite try_map_Forall2. split.
    - induction 1 as [|k e l r Hk _ IH]; [done|]. destruct k; simplify_eq/=. done.
    - intros ->. apply Forall2_fmap_l, Forall_Forall2_diag, Forall_true. done. }
  unfold readable. split.
  - destruct (N.ltb_spec MAX_IDS (len vs)) as [|Hl]; [done|]. destruct (measure_row_values vs) as [[]|] eqn:Hm; [|done].
    intros ->%Hmap. unfold len in *. by rewrite length_fmap in Hl.
  - intros ([= ->] & Hr & Hl). unfold len in *. rewrite length_fmap.
    destruct (N.ltb_spec MAX_IDS (N.of_nat (length rows))); [lia|]. rewrite Hr. by apply Hmap.
Qed.
Lemma bool_field_Ok (v : Kind) b :
  match v with KBool b => Ok b | _ => @Err TypedPayloadError _ invalid end = Ok b ↔ v = KBool b.
Proof. destruct v; naive_solver. Qed.

(** Reading the fields of a body one by one. *)
Ltac read_all H :=
  repeat match type of H with
  | (match ?r with Ok _ => _ | Err _ => _ end) = Ok _ => let x := fresh "x" in let E := fresh "E" in
      destruct r as [x|] eqn:E; [|done]
  end.
Ltac fields_known :=
  repeat match goal with
  | E : number _ _ = Ok _ |- _ => apply uint_field_Ok in E as [E ?]
  | E : hex_field _ _ = Ok _ |- _ => apply hex_field_Ok in E as [? E]
  | E : string_field _ _ = Ok _ |- _ => apply string_field_Ok in E
  | E : watch_field _ = Ok _ |- _ => apply watch_field_Ok in E as (? & ? & E)
  | E : ids_field _ _ _ = Ok _ |- _ => apply ids_field_Ok in E as [E ?]
  | E : rows_field _ = Ok _ |- _ => apply rows_field_Ok in E as (E & ? & ?)
  | E : field _ _ = Ok _ |- _ => apply field_Ok in E
  | E : rejection _ = Ok _ |- _ => apply rejection_exact in E as ->
  | E : resync _ = Ok _ |- _ => apply resync_exact in E as ->
  | E : match ?v with KBool b => Ok b | _ => _ end = Ok _ |- _ => apply bool_field_Ok in E as ->
  end.
Ltac body_known :=
  match goal with E : fields _ _ = Ok _ |- _ = kd (dict _) =>
    eapply fields_only; [|exact E|done|]; [distinct|]; by repeat constructor end.

Lemma request_body_read kind b r :
  request_body kind b = Ok r →
  request_valid r ∧ kind = (request_parts r).1 ∧ b = kd (dict (request_parts r).2).
Proof.
  unfold request_body. intros H.
  repeat case_decide; subst; try done; read_all H; injection H as <-; fields_known;
    try match goal with K : _ ∨ _ |- _ => destruct K; subst; try done end;
    repeat case_decide; try done; cbn [request_parts request_valid fst snd];
    (split; [naive_solver|split; [done|body_known]]).
Qed.

Lemma delivery_body_read b d :
  delivery_body b = Ok d →
  delivery_valid d ∧ readable (dl_rows d) ∧ is_ok (ids_bytes (dl_removed d) true) = true ∧
  b = kd (dict (outcome_parts (SDelivery d)).2).
Proof.
  unfold delivery_body. intros H. read_all H. injection H as <-. fields_known.
  split; [unfold delivery_valid; cbn; tauto|]. split; [done|]. split; [done|]. cbn [outcome_parts snd]. body_known.
Qed.
Lemma outcome_body_read kind b o :
  outcome_body kind b = Ok o →
  outcome_valid o ∧ kind = (outcome_parts o).1 ∧ b = kd (dict (outcome_parts o).2).
Proof.
  unfold outcome_body. intros H. repeat case_decide; subst; try done; read_all H; injection H as <-.
  2: { match goal with E : delivery_body _ = _ |- _ => apply delivery_body_read in E as (? & ? & ? & ->) end.
       done. }
  all: fields_known; cbn [outcome_parts outcome_valid fst snd];
    (split; [naive_solver|split; [done|body_known]]).
Qed.

(** ** Writing, then reading *)

Lemma watch_bytes_Ok base w n : watch_bytes base (Some w) = Ok n → check_key (sid_key w) = Ok ().
Proof. simpl. by destruct (check_key _) as [[]|]. Qed.
Ltac expect :=
  repeat first
    [ expect_fields
    | match goal with
      | |- context [number (dict ?e) ?k] => erewrite (proj2 (uint_field_Ok (dict e) k _)) by (split; [reflexivity|done])
      | |- context [hex_field (dict ?e) ?k] => erewrite (proj2 (hex_field_Ok (dict e) k _)) by (split; [|reflexivity]; done)
      | |- context [string_field (dict ?e) ?k] => erewrite (proj2 (string_field_Ok (dict e) k _)) by reflexivity
      | |- context [watch_field (dict ?e)] => erewrite (proj2 (watch_field_Ok (dict e) _)) by (split; [|split; [|reflexivity]]; done)
      | |- context [ids_field (dict ?e) ?k ?b] => erewrite (proj2 (ids_field_Ok (dict e) k b _)) by (split; [reflexivity|done])
      | |- context [field (dict ?e) ?k] => erewrite (proj2 (field_Ok (dict e) k _)) by reflexivity
      end ].
Lemma request_body_written r n :
  request_valid r → request_bytes r = Ok n →
  request_body (request_parts r).1 (kd (dict (request_parts r).2)) = Ok r.
Proof.
  intros Hv Hb. unfold request_bytes in Hb.
  destruct r as [|c|w|w s a|w s t th|w l|w s ids|w]; cbn [request_watch] in Hb;
    cbn [request_parts request_body fst snd request_valid] in *; unfold request_body;
    repeat (rewrite decide_False by naive_solver); repeat (rewrite decide_True by naive_solver);
    try (destruct (watch_bytes _ (Some w)) as [n0|] eqn:Hw; [|done]; apply watch_bytes_Ok in Hw).
  - by expect.
  - destruct c as [a k ids l]. cbn [sc_authority sc_key sc_ids sc_lease_ms watch_bytes] in *.
    destruct (check_key k) as [[]|] eqn:Hk; [|done]. destruct (check_lease l); [|done].
    destruct (ids_bytes ids false) eqn:Hi; [|done]. destruct Hv as [Ha Hl].
    assert (is_ok (ids_bytes ids false) = true) by by rewrite Hi. expect. rewrite Hk. by expect.
  - by expect.
  - destruct Hv as (? & ? & ?). by expect.
  - destruct Hv as (? & ? & ? & ?). by expect.
  - destruct Hv as (? & ?). by expect.
  - destruct Hv as (? & ?). destruct (N.eqb s 0); [done|]. destruct (ids_bytes ids true) eqn:Hi; [|done].
    assert (is_ok (ids_bytes ids true) = true) by by rewrite Hi. by expect.
  - expect. by rewrite decide_False.
Qed.

Lemma delivery_body_written d n :
  outcome_valid (SDelivery d) → outcome_bytes (SDelivery d) = Ok n →
  delivery_body (kd (dict (outcome_parts (SDelivery d)).2)) = Ok d.
Proof.
  intros (Hv & Hr & Hi) Hb. unfold outcome_bytes in Hb. cbn [outcome_watch] in Hb.
  destruct (watch_bytes _ _) as [n0|] eqn:Hw; [|done]. apply watch_bytes_Ok in Hw.
  assert (Hl : (len (dl_rows d) ≤ MAX_IDS)%N).
  { unfold delivery_bytes in Hb. destruct (N.ltb_spec MAX_IDS (len (dl_rows d))); [done|lia]. }
  destruct Hv as (? & ? & ? & ? & ? & ? & ? & ?). unfold delivery_body. cbn [outcome_parts snd]. expect_fields.
  erewrite (proj2 (rows_field_Ok _ (dl_rows d))) by (split; [reflexivity|done]). expect. by destruct d.
Qed.
Lemma outcome_body_written o n :
  outcome_valid o → outcome_bytes o = Ok n →
  outcome_body (outcome_parts o).1 (kd (dict (outcome_parts o).2)) = Ok o.
Proof.
  intros Hv Hb. destruct o as [a d|d|w s a|w s t th|w l|w|r|r|];
    [|by pose proof (delivery_body_written d n Hv Hb) as E;
       change (outcome_body _ ?k) with (let? v := delivery_body k in Ok (SDelivery v)); rewrite E
     | | | | | | |];
    unfold outcome_bytes in Hb; cbn [outcome_watch] in Hb;
    cbn [outcome_parts fst snd outcome_valid] in *; unfold outcome_body;
    repeat (rewrite decide_False by naive_solver); repeat (rewrite decide_True by naive_solver);
    try (destruct (watch_bytes _ (Some w)) as [n0|] eqn:Hw; [|done]; apply watch_bytes_Ok in Hw).
  - destruct Hv as (? & ?). by expect.
  - destruct Hv as (? & ? & ?). by expect.
  - destruct Hv as (? & ? & ? & ?). by expect.
  - destruct Hv as (? & ?). by expect.
  - by expect.
  - expect. by rewrite (proj2 (rejection_exact _ r)).
  - expect. by rewrite (proj2 (resync_exact _ r)).
  - by expect.
Qed.

#[global] Instance SubscriptionRequest_laws : EntityWireLaws SubscriptionRequest request_valid.
Proof.
  intros v r. cbn [from_kind to_kind SubscriptionRequest_wire]. unfold request_from_kind, request_to_kind. split.
  - destruct (open_envelope v) as [[kind b]|] eqn:Ho; [|done]. apply open_exact in Ho as ->.
    destruct (request_body kind b) as [r'|] eqn:Hb; [|done].
    apply request_body_read in Hb as (Hv & -> & ->). destruct (request_bytes r') eqn:Hn; [|done].
    intros [= ->]. rewrite Hn. split; [done|]. by destruct (request_parts r).
  - intros [Hv H]. destruct (request_bytes r) as [n|] eqn:Hn; [|done].
    pose proof (request_body_written r n Hv Hn) as Hb. destruct (request_parts r) as [kind entries].
    injection H as <-. rewrite (proj2 (open_exact _ kind _) eq_refl). cbn [fst snd] in Hb. by rewrite Hb, Hn.
Qed.
#[global] Instance SubscriptionOutcome_laws : EntityWireLaws SubscriptionOutcome outcome_valid.
Proof.
  intros v o. cbn [from_kind to_kind SubscriptionOutcome_wire]. unfold outcome_from_kind, outcome_to_kind. split.
  - destruct (open_envelope v) as [[kind b]|] eqn:Ho; [|done]. apply open_exact in Ho as ->.
    destruct (outcome_body kind b) as [o'|] eqn:Hb; [|done].
    apply outcome_body_read in Hb as (Hv & -> & ->). destruct (outcome_bytes o') eqn:Hn; [|done].
    intros [= ->]. rewrite Hn. split; [done|]. by destruct (outcome_parts o).
  - intros [Hv H]. destruct (outcome_bytes o) as [n|] eqn:Hn; [|done].
    pose proof (outcome_body_written o n Hv Hn) as Hb. destruct (outcome_parts o) as [kind entries].
    injection H as <-. rewrite (proj2 (open_exact _ kind _) eq_refl). cbn [fst snd] in Hb. by rewrite Hb, Hn.
Qed.
End laws.
End SubWire.
