(* ===== verification/Subscription.v ===== *)
(** * State subscriptions

    [haystack-app/src/subscription.rs]: a session watches a set of ids.  The
    service keeps for every watch the rows its client has acknowledged and at
    most one delivery that is prepared and not yet acknowledged; a request
    captures the watched rows that the policy shows of the graph, prepares the
    next record of the watch with the answer, and publishes the record if the
    watch and the graph are still those it looked at.

    The watches of the service are shared by all requests, by the maintenance
    task and by the shutdown.  Entries are reference counted cells, so the
    state is a heap of entries by address and a registry of addresses; a
    request keeps its entry after the registry has let it go.  A request runs
    in rounds: it looks at its entry, computes an [Intent] from that and from
    a capture of the graph, and acts on the state it then meets, which other
    threads may have changed.  What a round observes of the outside is its
    scene.

    Watches of the typed compatibility API live in the same registry
    ([Status::Watch], [haystack-app/src/subscription/watch.rs]); their state
    and what maintenance and publication do with it are here, their requests
    are not. *)

From S2P Require Import Prelude Floats Kinds Size Extern Bitmap Adjacency ValueIndex Filter FilterParser Text Units Taxonomy Xeto Namespace Fitting Controlled Changelog Graph Prepared Query Application Sanitize View Reading ReadService Command CommandExecute WireText TypedPayload EntityWire SubscriptionWire.

(** ** Limits *)

Module SubscriptionLimits.
Record t : Type := mk {
  max_watches : N; max_watches_per_session : N; max_bindings : N; max_bindings_per_session : N;
  max_ids : N; max_view_bytes : N; max_delivery_bytes : N; max_retained_bytes : N;
  max_change_diffs : N; max_lease : N; maintenance_interval : N }.
(** [SubscriptionLimits::default]. *)
Definition default : t :=
  mk 128 32 1024 128 512 65536 262144 (128 * MIB) 10000 (secs 300) (millis 100).
(** [SubscriptionLimits::validate]. *)
Definition validate (l : t) : result ReadError unit :=
  if ((max_watches l =? 0) || (4096 <? max_watches l)
     || (max_watches_per_session l =? 0) || (max_watches l <? max_watches_per_session l)
     || (max_bindings l <? max_watches l) || (16384 <? max_bindings l)
     || (max_bindings_per_session l <? max_watches_per_session l)
     || (max_bindings l <? max_bindings_per_session l)
     || (max_ids l =? 0) || (SubWire.MAX_IDS <? max_ids l)
     || (max_view_bytes l =? 0) || (MAX_PAYLOAD_BYTES <? max_view_bytes l)
     || (max_delivery_bytes l =? 0) || (MAX_PAYLOAD_BYTES <? max_delivery_bytes l)
     || (512 * MIB <? max_retained_bytes l)
     || (max_change_diffs l =? 0) || (100000 <? max_change_diffs l)
     || (max_lease l =? 0) || (millis SubWire.MAX_LEASE_MS <? max_lease l)
     || (maintenance_interval l =? 0) || (secs 10 <? maintenance_interval l))%N
  then Err InvalidLimits else Ok ().
End SubscriptionLimits.

(** ** Sessions *)

(** [SubscriptionSession], with the address of its [SessionInner]. *)
Record Session : Type := mkSubSession {
  ss_addr : N; ss_id : bytes; ss_session : SubscriptionSession }.
Module SubSession.
(** [same_session]. *)
Definition same (s t : Session) : bool := (ss_addr s =? ss_addr t)%N.
(** [reason], on the flag and the clock it observes. *)
Definition reason (s : Session) (closed : bool) (now : N) : option SubscriptionResync :=
  if closed then Some SYRevoked
  else if match se_expires (ss_session s) with Some e => (e <=? now)%N | None => false end
  then Some SYSessionExpired else None.
End SubSession.

(** What [stopped] and [reason] observe. *)
Record Sight : Type := mkSight { sg_stopped : bool; sg_sealed : bool; sg_closed : bool; sg_now : N }.
(** [SubscriptionInner::stopped], then [SubscriptionSession::reason]. *)
Definition halted (v : Sight) (s : Session) : option SubscriptionResync :=
  if sg_stopped v || sg_sealed v then Some SYShutdown else SubSession.reason s (sg_closed v) (sg_now v).

(** ** Watches *)

Record ProjectedRow : Type := mkProjected { pj_row : HDict; pj_canonical : bytes }.
Abbreviation Projection := (gmap string ProjectedRow).
Record Ack : Type := mkAck { ack_scope : N; ack_token : bytes; ack_through : N }.
#[export] Instance Ack_eq_dec : EqDecision Ack.
Proof. solve_decision. Defined.
(** [Prepared]. *)
Record PreparedDelivery : Type := mkPreparedDelivery {
  pd_delivery : SubscriptionDelivery; pd_projection : Projection }.
Record Live : Type := mkLive {
  lv_ids : list string;
  lv_graph : GraphState;
  lv_policy : string;
  lv_scope : N;
  lv_acknowledged : N;
  lv_projection : Projection;
  lv_prepared : option PreparedDelivery;
  lv_last_ack : option Ack;
  lv_lease_until : N
}.
(** [watch::Member] and [watch::Live]. *)
Record Member : Type := mkMember { mb_active : bool; mb_enrolled : N }.
Record WatchLive : Type := mkWatchLive {
  wl_members : gmap string Member;
  wl_observed : GraphState;
  wl_policy : string;
  wl_projection : Projection;
  wl_poll_revision : N;
  wl_first_poll : bool;
  wl_lease : N;
  wl_lease_until : N
}.
Inductive Status : Type :=
| StPreparing
| StLive (live : Live)
| StWatch (live : WatchLive)
| StClosed
| StResync (reason : SubscriptionResync).
(** [Status::lease_until]. *)
Definition lease_until (s : Status) : option N :=
  match s with
  | StLive live => Some (lv_lease_until live)
  | StWatch live => Some (wl_lease_until live)
  | _ => None
  end.
(** [Record]. *)
Record WatchRecord : Type := mkWatchRecord { wr_revision : N; wr_status : Status }.
Record Entry : Type := mkEntry {
  en_identity : SubscriptionId;
  en_session : Session;
  en_canonical : bytes;
  en_base_reservation : N;
  en_reservation : N;
  en_legacy : bool;
  en_typed_watch : bool;
  en_connection : option bytes;
  en_active : bool;
  en_state : WatchRecord
}.
Definition set_state (r : WatchRecord) (active : bool) (reservation : N) (e : Entry) : Entry :=
  mkEntry (en_identity e) (en_session e) (en_canonical e) (en_base_reservation e) reservation
    (en_legacy e) (en_typed_watch e) (en_connection e) active r.
(** [Registry], and the cells its entries are in. *)
Record Registry : Type := mkRegistry {
  rg_entries : gmap bytes N; rg_bindings : gmap (bytes * string) bytes; rg_reserved : N }.
Record Watches : Type := mkWatches { ws_table : Registry; ws_heap : gmap N Entry }.
Definition no_registry : Registry := mkRegistry ∅ ∅ 0.

(** The entries of the registry. *)
Definition registered (w : Watches) : list Entry :=
  omap (λ '(_, addr), ws_heap w !! addr) (map_to_list (rg_entries (ws_table w))).
Definition binding_of (e : Entry) : bytes * string := (ss_id (en_session e), sid_key (en_identity e)).

(** [normalize]. *)
Definition normalize_ids (ids : list string) : list string := dedup (sort_strings ids).
(** [membership_bytes]; a [String] is 24 bytes. *)
Definition membership_bytes (ids : list string) : N :=
  foldl (λ total id, saturating_add (saturating_add total 24) (str_len id)) 64%N ids.
(** [watch::Live::membership_bytes] and [renew_at_publication]. *)
Definition watch_membership_bytes (l : WatchLive) : N :=
  foldl (λ n id, saturating_add (saturating_add n (str_len id)) 256) 64%N (btree_iter (wl_members l)).*1.
Definition renew_at_publication (now : N) (s : Session) (l : WatchLive) : WatchLive :=
  let until := (now + wl_lease l)%N in
  mkWatchLive (wl_members l) (wl_observed l) (wl_policy l) (wl_projection l) (wl_poll_revision l)
    (wl_first_poll l) (wl_lease l)
    (match se_expires (ss_session s) with Some e => N.min until e | None => until end).
(** [execution_overflow]. *)
Definition execution_overflow (e : ReadError) : bool :=
  match e with
  | BudgetExceeded (BWork | BRetained | BValues | BDepth | BRows | BOutput | BCandidates | BForward | BInverse)
    => true
  | _ => false
  end.
(** [same_projection]. *)
Definition same_projection (l r : Projection) : bool :=
  bool_decide (size l = size r) &&
  forallb (λ '(id, row), match r !! id with
                         | Some other => bool_decide (pj_canonical row = pj_canonical other)
                         | None => false
                         end) (btree_iter l).

Module Subscription.
Import Meter Reading.

(** [SubscriptionInner], what is fixed of it. *)
Record t : Type := mk { authority : bytes; dataset : bytes; limits : SubscriptionLimits.t }.
(** [StateSubscriptionService::new]: its guards. *)
Definition new (s : t) (shares : bool) : result ReadError t :=
  let? _ := SubscriptionLimits.validate (limits s) in
  if negb shares then Err Forbidden else Ok s.

Definition panic {A} : R A := λ _, None.

(** ** The registry *)

(** [SubscriptionInner::remove]. *)
Definition unbind (w : Watches) (watch : bytes) (e : Entry) : Registry :=
  let t := ws_table w in
  mkRegistry (delete watch (rg_entries t)) (delete (binding_of e) (rg_bindings t))
    (rg_reserved t - en_reservation e).
Definition remove (addr : N) (w : Watches) : Watches :=
  match ws_heap w !! addr with
  | None => w
  | Some e =>
      if bool_decide (rg_entries (ws_table w) !! sid_watch (en_identity e) = Some addr)
      then mkWatches (unbind w (sid_watch (en_identity e)) e) (ws_heap w) else w
  end.
(** [StateSubscriptionService::shutdown]: its table. *)
Definition shutdown (w : Watches) : Watches := mkWatches no_registry (ws_heap w).
(** [active_watches], [binding_count] and [retained_reservations]. *)
Definition active_watches (w : Watches) : nat := length (List.filter en_active (registered w)).
Definition binding_count (w : Watches) : nat := size (rg_entries (ws_table w)).
Definition retained_reservations (w : Watches) : N := rg_reserved (ws_table w).

(** What the maintenance observes of an entry. *)
Record Visit : Type := mkVisit { vs_closed : bool; vs_at : N; vs_locked : bool; vs_now : N }.
(** One entry: its new content, and whether it goes. *)
Definition maintain_entry (v : Visit) (e : Entry) : Entry * bool :=
  match SubSession.reason (en_session e) (vs_closed v) (vs_at v) with
  | Some _ => (e, true)
  | None =>
      if vs_locked v then (e, false)
      else
        let e := match lease_until (wr_status (en_state e)) with
                 | Some until =>
                     if (until <=? vs_now v)%N
                     then set_state (mkWatchRecord (saturating_add (wr_revision (en_state e)) 1)
                            (StResync SYLeaseExpired)) false (en_reservation e) e
                     else e
                 | None => e
                 end in
        (e, (en_legacy e || en_typed_watch e) && negb (en_active e))
  end.
(** [SubscriptionInner::maintain]; the order of the entries does not matter. *)
Definition maintain_at (visit : N → Visit) (w : Watches) (slot : bytes * N) : Watches :=
  match ws_heap w !! slot.2 with
  | None => w
  | Some e => let '(e, gone) := maintain_entry (visit slot.2) e in
              let w := mkWatches (ws_table w) (<[slot.2 := e]> (ws_heap w)) in
              if gone : bool then mkWatches (unbind w slot.1 e) (ws_heap w) else w
  end.
Definition maintain (busy : bool) (visit : N → Visit) (w : Watches) : Watches :=
  if busy then w else foldl (maintain_at visit) w (map_to_list (rg_entries (ws_table w))).

(** ** Captures *)

Section requests.
Context {HO : HashOrder} {RB : Roaring} {CM : CacheMap} {ON : Ontology} {CA : Catalog} {AM : Ambient}.
Context {CH : Chrono} {B6 : Base64} {SJ : SerdeJson}.
Context (service : t).

(** [Capture], of a state watch. *)
Record Capture : Type := mkCapture {
  cp_graph : GraphState; cp_policy : string; cp_projection : Projection }.
(** [CaptureError], and the computations that end with one. *)
Inductive CaptureError : Type := CRead (e : ReadError) | CResync (reason : SubscriptionResync).
Definition C (A : Type) : Type := Budget → result CaptureError A * Budget.
#[export] Instance C_ret : MRet C := λ A a b, (Ok a, b).
#[export] Instance C_bind : MBind C := λ A D k m b,
  match m b with
  | (Ok a, b') => k a b'
  | (Err e, b') => (Err e, b')
  end.
Definition metered {A} (m : B A) : C A := λ b, let '(r, b) := m b in (map_err CRead r, b).
Definition refuse {A} (e : CaptureError) : C A := λ b, (Err e, b).
Fixpoint fold_c {A S} (f : S → A → C S) (s : S) (l : list A) : C S :=
  match l with
  | [] => mret s
  | a :: l => s ← f s a; fold_c f s l
  end.

(** What a round observes until it acts: the flags, how often it missed the
    lock of the record, the clock at the lease, the policies at the capture
    and after it, the graph, a random token and the clock in [prepare]. *)
Record LookScene : Type := mkLook {
  lk_sight : Sight;
  lk_record_misses : nat;
  lk_lease_now : N;
  lk_policy : result ReadError PolicySnapshot;
  lk_graph_misses : nat;
  lk_graph : EntityGraph.t;
  lk_token : bytes;
  lk_now : N;
  lk_recheck : result ReadError PolicySnapshot
}.

(** The loop over the units of change since the last delivery. *)
Definition count_unit (diffs : N) (unit : list GraphDiff) : C N :=
  if (SubscriptionLimits.max_change_diffs (limits service) - diffs <? len unit)%N
  then refuse (CResync SYOverflow)
  else
    metered (charge BWork (saturating_add (len unit) 1));;
    mret (diffs + len unit)%N.
(** A watched id must still be shown. *)
Definition still_shown (p : PolicySnapshot) (u : unit) (id : string) : C unit :=
  metered (charge BWork (str_len id + 1));;
  if negb (p_entity p id) || negb (p_tag p id "id") then refuse (CResync SYPolicy) else mret ().
(** [reauthorize_projection]. *)
Definition reauthorize_row (p : PolicySnapshot) (u : unit) (stored : string * ProjectedRow) : C unit :=
  let '(id, row) := stored in
  metered (charge BWork (saturating_mul (len (pj_canonical row)) 4));;
  metered (charge BRetained (saturating_mul (len (pj_canonical row)) 8));;
  masked ← metered (Sanitize.record p id (pj_row row));
  match masked with
  | None => refuse (CResync SYPolicy)
  | Some masked =>
      match Typed.encode (KDict masked) with
      | Err _ => refuse (CResync SYPolicy)
      | Ok bytes => if bool_decide (pj_canonical row = bytes) then mret () else refuse (CResync SYPolicy)
      end
  end.
Definition reauthorize_projection (p : PolicySnapshot) (projection : Projection) : C unit :=
  fold_c (reauthorize_row p) () (btree_iter projection).

(** A capture for a watch that has a record: it continues from there. *)
Definition continue_from (g : EntityGraph.t) (p : PolicySnapshot) (previous : Live) : C unit :=
  let observed := EntityGraph.state g in
  if negb (bool_decide (state_incarnation observed = state_incarnation (lv_graph previous)))
  then refuse (CResync SYIncarnation)
  else if negb (state_catalog observed =? state_catalog (lv_graph previous))%N
  then refuse (CResync SYCatalog)
  else
    metered (Simulate.check_catalog g);;
    let from := match lv_prepared previous with
                | Some prepared => dl_through (pd_delivery prepared)
                | None => lv_acknowledged previous
                end in
    match EntityGraph.change_units_since g from with
    | Err _ => refuse (CResync SYGap)
    | Ok start =>
        let log := ChangeLog.log (EntityGraph.changelog g) in
        fold_c count_unit 0%N (ChangeLog.drain (S (length log)) log start);;
        fold_c (still_shown p) () (lv_ids previous);;
        reauthorize_projection p (lv_projection previous);;
        match lv_prepared previous with
        | Some prepared => reauthorize_projection p (pd_projection prepared)
        | None => mret ()
        end
    end.

(** One watched id. *)
Definition project (g : EntityGraph.t) (p : PolicySnapshot) (st : Projection * N) (id : string)
    : C (Projection * N) :=
  let '(projection, bytes) := st in
  metered (charge BWork (str_len id + 1));;
  if negb (p_entity p id) || negb (p_tag p id "id") then refuse (CResync SYPolicy)
  else
    before ← metered (asks retained_remaining);
    row ← metered (View.entity g p id);
    match row with
    | None => mret (projection, bytes)
    | Some row =>
        after ← metered (asks retained_remaining);
        let retained := (before - after)%N in
        metered (charge BWork (saturating_mul retained 2));;
        metered (charge BRetained (saturating_mul retained 8));;
        match Typed.encode (KDict row) with
        | Err _ => refuse (CResync SYOverflow)
        | Ok canonical =>
            let bytes := saturating_add (saturating_add (saturating_add bytes (len canonical)) (str_len id)) 512 in
            if (SubscriptionLimits.max_view_bytes (limits service) <? bytes)%N
            then refuse (CResync SYOverflow)
            else
              id ← metered (copy_string id);
              mret (<[id := mkProjected row canonical]> projection, bytes)
        end
    end.

(** [capture]. *)
Definition capture (sc : LookScene) (ids : list string) (previous : option Live) : C Capture :=
  match lk_policy sc with
  | Err e => refuse (CRead e)
  | Ok p =>
      if negb (p_operation p OpSubscriptions) || negb (p_operation p OpRead)
      then refuse (CResync SYPolicy)
      else if (1024 <? str_len (scope_key p))%N then refuse (CRead (BudgetExceeded BInput))
      else
        key ← metered (copy_string (scope_key p));
        if match previous with Some live => negb (bool_decide (lv_policy live = scope_key p)) | None => false end
        then refuse (CResync SYPolicy)
        else
          metered (ReadService.acquire (lk_graph_misses sc));;
          let g := lk_graph sc in
          match previous with
          | None => metered (Simulate.check_catalog g)
          | Some live => continue_from g p live
          end;;
          st ← fold_c (project g p) (∅, 0%N) ids;
          mret (mkCapture (EntityGraph.state g) key st.1)
  end.

(** ** Deliveries *)

(** The rows that differ from the acknowledged ones, and the ids that went. *)
Definition differs (initial : bool) (old : Projection) (kr : string * ProjectedRow) : bool :=
  initial || match old !! kr.1 with
             | None => true
             | Some o => negb (bool_decide (pj_canonical o = pj_canonical kr.2))
             end.
Definition changed_rows (initial : bool) (old new : Projection) : list HDict :=
  (λ kr, pj_row kr.2) <$> List.filter (differs initial old) (btree_iter new).
Definition removed_ids (initial : bool) (old new : Projection) : list string :=
  if initial then [] else List.filter (λ id, bool_decide (new !! id = None)) (btree_iter old).*1.

(** [delivery]. *)
Definition draft_delivery (token : bytes) (identity : SubscriptionId) (live : Live) (c : Capture)
    (initial : bool) : SubscriptionDelivery :=
  mkDelivery identity (dataset service) (state_incarnation (cp_graph c)) (state_catalog (cp_graph c))
    (lv_scope live) token
    (if initial then state_revision (cp_graph c) else lv_acknowledged live)
    (state_revision (cp_graph c)) initial
    (changed_rows initial (lv_projection live) (cp_projection c))
    (removed_ids initial (lv_projection live) (cp_projection c)).
Definition delivery (token : bytes) (identity : SubscriptionId) (live : Live) (c : Capture) (initial : bool)
    : B PreparedDelivery :=
  let encoded := foldr (λ '(_, row) n, saturating_add (len (pj_canonical row)) 512 + n)%N 0%N
                   (btree_iter (cp_projection c)) in
  charge BWork (saturating_mul encoded 4);;
  charge BRetained (saturating_add (saturating_mul encoded 12) 8192);;
  let d := draft_delivery token identity live c initial in
  match Entity.encode (SDelivery d) with
  | Err _ => throw (BudgetExceeded BOutput)
  | Ok bytes =>
      if (SubscriptionLimits.max_delivery_bytes (limits service) <? len bytes)%N
      then throw (BudgetExceeded BOutput)
      else mret (mkPreparedDelivery d (cp_projection c))
  end.

(** ** The next record of a watch *)

(** The first record, and changes to a record. *)
Definition first_live (now : N) (create : SubscriptionCreate) (ids : list string) (c : Capture) : Live :=
  mkLive ids (cp_graph c) (cp_policy c) 1 (state_revision (cp_graph c)) ∅ None None
    (now + millis (sc_lease_ms create)).
Definition set_graph (g : GraphState) (l : Live) : Live :=
  mkLive (lv_ids l) g (lv_policy l) (lv_scope l) (lv_acknowledged l) (lv_projection l) (lv_prepared l)
    (lv_last_ack l) (lv_lease_until l).
Definition set_prepared (d : PreparedDelivery) (l : Live) : Live :=
  mkLive (lv_ids l) (lv_graph l) (lv_policy l) (lv_scope l) (lv_acknowledged l) (lv_projection l) (Some d)
    (lv_last_ack l) (lv_lease_until l).
Definition set_lease (until : N) (l : Live) : Live :=
  mkLive (lv_ids l) (lv_graph l) (lv_policy l) (lv_scope l) (lv_acknowledged l) (lv_projection l)
    (lv_prepared l) (lv_last_ack l) until.
Definition restart (ids : list string) (scope : N) (c : Capture) (l : Live) : Live :=
  mkLive ids (lv_graph l) (lv_policy l) scope (state_revision (cp_graph c)) ∅ (lv_prepared l) None
    (lv_lease_until l).
Definition acknowledge (a : Ack) (p : Projection) (l : Live) : Live :=
  mkLive (lv_ids l) (lv_graph l) (lv_policy l) (lv_scope l) (ack_through a) p None (Some a) (lv_lease_until l).
Definition ack_of (d : SubscriptionDelivery) : Ack := mkAck (dl_scope_generation d) (dl_token d) (dl_through d).

Section prepare.
Context (sc : LookScene) (identity : SubscriptionId) (ids : list string) (c : Capture).

(** A new delivery becomes the prepared one and the answer. *)
Definition deliver (l : Live) (initial : bool) : B (Live * SubscriptionOutcome) :=
  d ← delivery (lk_token sc) identity l c initial;
  mret (set_prepared d l, SDelivery (pd_delivery d)).
(** [Create] of a known key, [Poll] and [Resume]. *)
Definition poll (l : Live) (resume : option (N * N)) : B (Live * SubscriptionOutcome) :=
  if match resume with
     | Some (scope, acknowledged) => negb (scope =? lv_scope l)%N || negb (acknowledged =? lv_acknowledged l)%N
     | None => false
     end
  then mret (l, SResync SYScopeChanged)
  else match lv_prepared l with
  | Some d => mret (l, SDelivery (pd_delivery d))
  | None =>
      if (state_revision (cp_graph c) =? lv_acknowledged l)%N
         && same_projection (lv_projection l) (cp_projection c)
      then mret (l, SIdle identity (lv_scope l) (lv_acknowledged l))
      else deliver l false
  end.
(** [Replace]. *)
Definition replace (l : Live) : B (Live * SubscriptionOutcome) :=
  match checked_add u64_max (lv_scope l) 1 with
  | None => throw Unavailable
  | Some scope => deliver (restart ids scope c l) true
  end.
(** [Acknowledge]. *)
Definition settle_ack (l : Live) (a : Ack) : Live * SubscriptionOutcome :=
  let done := SAcknowledged identity (ack_scope a) (ack_token a) (ack_through a) in
  if negb (ack_scope a =? lv_scope l)%N then (l, SRejected SRConflict)
  else if bool_decide (lv_last_ack l = Some a) then (l, done)
  else match lv_prepared l with
  | Some d => if bool_decide (ack_of (pd_delivery d) = a) then (acknowledge a (pd_projection d) l, done)
              else (l, SRejected SRConflict)
  | None => (l, SRejected SRConflict)
  end.
(** [Renew]. *)
Definition renew (l : Live) (lease_ms : N) : Live * SubscriptionOutcome :=
  if (SubscriptionLimits.max_lease (limits service) <? millis lease_ms)%N then (l, SRejected SRLimit)
  else (set_lease (lk_now sc + millis lease_ms) l, SRenewed identity lease_ms).

(** [prepare]: the next record and the answer; [None] is a panic. *)
Definition prepare (request : SubscriptionRequest) (record : WatchRecord)
    : R (WatchRecord * SubscriptionOutcome) :=
  match checked_add u64_max (wr_revision record) 1 with
  | None => fail Unavailable
  | Some revision =>
      let keep (m : B (Live * SubscriptionOutcome)) : R (WatchRecord * SubscriptionOutcome) :=
        r ← lift m; mret (mkWatchRecord revision (StLive r.1), r.2) in
      match wr_status record, request with
      | StPreparing, SCreate create =>
          keep (deliver (set_graph (cp_graph c) (first_live (lk_now sc) create ids c)) true)
      | StLive live, _ =>
          let l := set_graph (cp_graph c) live in
          match request with
          | SDescribe => panic
          | SReplace _ _ _ => keep (replace l)
          | SCreate _ | SPoll _ => keep (poll l None)
          | SResume _ scope acknowledged => keep (poll l (Some (scope, acknowledged)))
          | SAcknowledge _ scope token through => keep (mret (settle_ack l (mkAck scope token through)))
          | SRenew _ lease_ms => keep (mret (renew l lease_ms))
          | SUnsubscribe _ => mret (mkWatchRecord revision StClosed, SClosed identity)
          end
      | _, _ => panic
      end
  end.
End prepare.

(** ** Rounds *)

(** What a round has decided: to answer, to end the watch, or to publish. *)
Inductive Intent : Type :=
| IAnswer (o : SubscriptionOutcome)
| ITerminal (revision : N) (reason : SubscriptionResync)
| IPublish (revision : N) (observed : GraphState) (next : WatchRecord) (o : SubscriptionOutcome).

(** An error of the budget ends a watch that has a record. *)
Definition overrun (live : bool) (revision : N) (e : ReadError) : R Intent :=
  if live && execution_overflow e then mret (ITerminal revision SYOverflow) else fail e.

(** The ids a round captures, or its answer. *)
Definition round_ids (request : SubscriptionRequest) (live : option Live)
    : option (SubscriptionOutcome + list string) :=
  match request, live with
  | SCreate create, None => Some (inr (normalize_ids (sc_ids create)))
  | SReplace _ expected ids, Some live =>
      if negb (expected =? lv_scope live)%N then Some (inl (SRejected SRConflict))
      else if (SubscriptionLimits.max_ids (limits service) <? len ids)%N then Some (inl (SRejected SRLimit))
      else Some (inr (normalize_ids ids))
  | _, Some live => Some (inr (lv_ids live))
  | _, None => None
  end.

(** From the capture to the publication. *)
Definition propose (sc : LookScene) (request : SubscriptionRequest) (identity : SubscriptionId)
    (record : WatchRecord) (live : option Live) (ids : list string) : R Intent := λ b,
  let revision := wr_revision record in
  let known := bool_decide (is_Some live) in
  match capture sc ids live b with
  | (Err (CRead e), b) => overrun known revision e b
  | (Err (CResync reason), b) =>
      if known then Some (Ok (ITerminal revision reason), b)
      else Some (Ok (IAnswer (SRejected (if bool_decide (reason = SYPolicy) then SRForbidden else SRLimit))), b)
  | (Ok c, b) =>
      match prepare sc identity ids c request record b with
      | None => None
      | Some (Err e, b) =>
          if negb known && bool_decide (e = BudgetExceeded BOutput)
          then Some (Ok (IAnswer (SRejected SRLimit)), b)
          else overrun known revision e b
      | Some (Ok (next, o), b) =>
          match lk_recheck sc with
          | Err e => Some (Err e, b)
          | Ok p =>
              if negb (bool_decide (scope_key p = cp_policy c))
                 || negb (p_operation p OpSubscriptions) || negb (p_operation p OpRead)
              then Some (Ok (ITerminal revision SYPolicy), b)
              else Some (Ok (IPublish revision (cp_graph c) next o), b)
          end
      end
  end.

Definition lease_over (live : option Live) (now : N) : bool :=
  match live with Some l => (lv_lease_until l <=? now)%N | None => false end.

(** A round up to its action, on the entry it finds in its cell; [reserved]
    says whether the request has just created it. *)
Definition look (sc : LookScene) (session : Session) (request : SubscriptionRequest) (reserved : bool)
    (e : Entry) : R Intent :=
  match halted (lk_sight sc) session with
  | Some reason => mret (IAnswer (SResync reason))
  | None =>
      lift (ReadService.acquire (lk_record_misses sc));;
      let record := en_state e in
      let go (live : option Live) : R Intent := λ b,
        match charge BWork 1 b with
        | (Err err, b) => overrun (bool_decide (is_Some live)) (wr_revision record) err b
        | (Ok _, b) =>
            if lease_over live (lk_lease_now sc)
            then Some (Ok (ITerminal (wr_revision record) SYLeaseExpired), b)
            else match round_ids request live with
            | None => None
            | Some (inl o) => Some (Ok (IAnswer o), b)
            | Some (inr ids) => propose sc request (en_identity e) record live ids b
            end
        end in
      match wr_status record with
      | StClosed => mret (IAnswer (SClosed (en_identity e)))
      | StResync reason => mret (IAnswer (SResync reason))
      | StPreparing => if reserved then go None else mret (IAnswer (SRejected SRPending))
      | StLive live => go (Some live)
      | StWatch _ => fail Forbidden
      end
  end.

(** What an action observes: how often it missed the lock of the record, the
    state of the graph if its lock was free, whether the other two were taken,
    the flags, and the clock at the lease and at a renewal. *)
Record ActScene : Type := mkAct {
  ac_misses : nat;
  ac_graph : option GraphState;
  ac_registry_busy : bool;
  ac_record_busy : bool;
  ac_sight : Sight;
  ac_lease_now : N;
  ac_renew_now : N
}.

Definition set_entry (addr : N) (e : Entry) (w : Watches) : Watches :=
  mkWatches (ws_table w) (<[addr := e]> (ws_heap w)).

(** [terminal]. *)
Definition terminal (sc : ActScene) (addr revision : N) (reason : SubscriptionResync) (w : Watches)
    : R (Watches * bool) :=
  lift (ReadService.acquire (ac_misses sc));;
  match ws_heap w !! addr with
  | None => panic
  | Some e =>
      if negb (wr_revision (en_state e) =? revision)%N then mret (w, false)
      else match checked_add u64_max (wr_revision (en_state e)) 1 with
      | None => fail Unavailable
      | Some next =>
          mret (set_entry addr (set_state (mkWatchRecord next (StResync reason)) false (en_reservation e) e) w,
                true)
      end
  end.

Inductive Publication : Type := PDone | PRetry | PCapacity | PStopped (reason : SubscriptionResync).

(** What a record keeps reserved, and how it is when published. *)
Definition required (e : Entry) (next : WatchRecord) : N :=
  match wr_status next with
  | StLive live => saturating_add (en_base_reservation e) (membership_bytes (lv_ids live))
  | StWatch live => saturating_add (en_base_reservation e) (watch_membership_bytes live)
  | _ => en_reservation e
  end.
Definition published (sc : ActScene) (session : Session) (next : WatchRecord) : WatchRecord :=
  match wr_status next with
  | StWatch live => mkWatchRecord (wr_revision next)
                      (StWatch (renew_at_publication (ac_renew_now sc) session live))
  | _ => next
  end.
Definition is_live (s : Status) : bool := match s with StLive _ | StWatch _ => true | _ => false end.

(** [publish]. *)
Definition publish (sc : ActScene) (addr revision : N) (observed : GraphState) (next : WatchRecord)
    (session : Session) (w : Watches) : R (Watches * Publication) :=
  match ac_graph sc with
  | None => mret (w, PRetry)
  | Some state =>
      if negb (bool_decide (state = observed)) then mret (w, PRetry)
      else if ac_registry_busy sc then mret (w, PRetry)
      else match ws_heap w !! addr with
      | None => panic
      | Some e =>
          if negb (bool_decide (rg_entries (ws_table w) !! sid_watch (en_identity e) = Some addr))
          then mret (w, PStopped SYUnknown)
          else if ac_record_busy sc then mret (w, PRetry)
          else if negb (wr_revision (en_state e) =? revision)%N then mret (w, PRetry)
          else
            lift check;;
            match halted (ac_sight sc) session with
            | Some reason => mret (w, PStopped reason)
            | None =>
                if match lease_until (wr_status (en_state e)) with
                   | Some until => (until <=? ac_lease_now sc)%N
                   | None => false
                   end
                then mret (w, PRetry)
                else
                  let reserved := en_reservation e in
                  let growth := (required e next - reserved)%N in
                  let t := ws_table w in
                  if (SubscriptionLimits.max_retained_bytes (limits service) - rg_reserved t <? growth)%N
                  then mret (w, PCapacity)
                  else
                    let next := published sc session next in
                    mret (mkWatches (mkRegistry (rg_entries t) (rg_bindings t) (rg_reserved t + growth))
                            (<[addr := set_state next (is_live (wr_status next)) (reserved + growth) e]>
                               (ws_heap w)), PDone)
            end
      end
  end.

(** The end of a round: the state it leaves behind and, unless it starts
    over, its answer and whether that was published. *)
Definition act (sc : ActScene) (addr : N) (session : Session) (i : Intent) (w : Watches)
    : R (Watches * option (SubscriptionOutcome * bool)) :=
  match i with
  | IAnswer o => mret (w, Some (o, false))
  | ITerminal revision reason =>
      r ← terminal sc addr revision reason w;
      mret (r.1, if r.2 : bool then Some (SResync reason, false) else None)
  | IPublish revision observed next o =>
      r ← publish sc addr revision observed next session w;
      mret (r.1, match r.2 with
                 | PDone => Some (o, true)
                 | PRetry => None
                 | PCapacity => Some (SRejected SRCapacity, false)
                 | PStopped reason => Some (SResync reason, false)
                 end)
  end.

(** ** Requests *)

(** [admission]. *)
Definition admission (sight : Sight) (principal : Principal) (session : Session)
    (request : SubscriptionRequest) (legacy : bool) : B (option SubscriptionOutcome) :=
  if match principal with Authenticated _ permissions => (1024 <? len permissions)%N | _ => false end
  then throw (BudgetExceeded BInput)
  else match SubWire.request_bytes request with
  | Err _ => throw (InvalidQuery "invalid subscription request")
  | Ok source =>
      let bytes := saturating_add (Principal.bytes principal) source in
      l ← asks Meter.limits;
      if (ReadLimits.max_input_bytes l <? bytes)%N then throw (BudgetExceeded BInput)
      else
        charge BWork (saturating_mul bytes 16);;
        charge BRetained (saturating_mul bytes 8);;
        if negb (SubscriptionSession.matches (ss_session session) principal)
           || (negb legacy && negb (se_scoped (ss_session session)))
        then mret (Some (SRejected SRForbidden))
        else mret (SResync <$> halted sight session)
  end.

(** What the lookup of the entry observes: how often it missed the lock, a
    random watch and the address of a new cell. *)
Record LocateScene : Type := mkLocate { lc_misses : nat; lc_watch : bytes; lc_addr : N }.

(** The capacity a new watch needs. *)
Definition base_reservation (canonical : bytes) (principal : Principal) : N :=
  let l := limits service in
  saturating_add (saturating_add (saturating_add (saturating_add
    (saturating_mul (SubscriptionLimits.max_view_bytes l) 12)
    (saturating_mul (SubscriptionLimits.max_delivery_bytes l) 2))
    (saturating_mul (len canonical) 4)) (Principal.bytes principal)) 4096.
Definition count_of (f : Entry → bool) (w : Watches) : N := len (List.filter f (registered w)).
Definition own (session : Session) (e : Entry) : bool := SubSession.same (en_session e) session.
Definition over_capacity (session : Session) (reserve : N) (w : Watches) : bool :=
  let l := limits service in
  ((SubscriptionLimits.max_watches l <=? count_of en_active w)
   || (SubscriptionLimits.max_watches_per_session l <=? count_of (λ e, own session e && en_active e) w)
   || (SubscriptionLimits.max_bindings l <=? N.of_nat (size (rg_entries (ws_table w))))
   || (SubscriptionLimits.max_bindings_per_session l <=? count_of (own session) w)
   || (SubscriptionLimits.max_retained_bytes l - rg_reserved (ws_table w) <? reserve))%N.

(** The entry of a [Create]: the one its key is bound to, or a new one. *)
Definition find_or_reserve (sc : LocateScene) (principal : Principal) (session : Session)
    (create : SubscriptionCreate) (legacy : bool) (connection : option bytes) (canonical : bytes)
    (w : Watches) : R (SubscriptionOutcome + N * option Watches) :=
  let t := ws_table w in
  match rg_bindings t !! (ss_id session, sc_key create) with
  | Some watch =>
      match rg_entries t !! watch ≫= λ addr, pair addr <$> ws_heap w !! addr with
      | None => panic
      | Some (addr, e) =>
          if negb (own session e) || negb (bool_decide (en_canonical e = canonical))
             || negb (bool_decide (en_legacy e = legacy))
          then mret (inl (SRejected SRConflict)) else mret (inr (addr, None))
      end
  | None =>
      lift (charge BWork (saturating_add (N.of_nat (size (rg_entries t))) 1));;
      let base := base_reservation canonical principal in
      let reserve := saturating_add base (membership_bytes (sc_ids create)) in
      if over_capacity session reserve w then mret (inl (SRejected SRCapacity))
      else
        let identity := mkSubscriptionId (authority service) (lc_watch sc) (sc_key create) in
        let e := mkEntry identity session canonical base reserve legacy false connection true
                   (mkWatchRecord 0 StPreparing) in
        mret (inr (lc_addr sc, Some (mkWatches
          (mkRegistry (<[lc_watch sc := lc_addr sc]> (rg_entries t))
             (<[(ss_id session, sc_key create) := lc_watch sc]> (rg_bindings t)) (rg_reserved t + reserve))
          (<[lc_addr sc := e]> (ws_heap w)))))
  end.
Definition locate_create (sc : LocateScene) (principal : Principal) (session : Session)
    (create : SubscriptionCreate) (legacy : bool) (connection : option bytes) (w : Watches)
    : R (SubscriptionOutcome + N * option Watches) :=
  if negb (bool_decide (sc_authority create = authority service)) then mret (inl (SResync SYAuthority))
  else if (SubscriptionLimits.max_ids (limits service) <? len (sc_ids create))%N
          || (SubscriptionLimits.max_lease (limits service) <? millis (sc_lease_ms create))%N
  then mret (inl (SRejected SRLimit))
  else match Entity.encode (SCreate create) with
  | Err _ => fail (InvalidQuery "invalid subscription creation")
  | Ok canonical =>
      lift (charge BWork (saturating_mul (len canonical) 2));;
      lift (charge BRetained (saturating_mul (len canonical) 3));;
      lift (ReadService.acquire (lc_misses sc));;
      find_or_reserve sc principal session create legacy connection canonical w
  end.
(** The entry of another request. *)
Definition admitted_entry (session : Session) (watch : SubscriptionId) (legacy : bool) (e : Entry) : bool :=
  bool_decide (en_identity e = watch) && own session e && bool_decide (en_legacy e = legacy)
  && negb (en_typed_watch e).
Definition locate_watch (sc : LocateScene) (session : Session) (watch : SubscriptionId) (legacy : bool)
    (w : Watches) : R (SubscriptionOutcome + N * option Watches) :=
  if negb (bool_decide (sid_authority watch = authority service)) then mret (inl (SResync SYAuthority))
  else
    lift (ReadService.acquire (lc_misses sc));;
    match rg_entries (ws_table w) !! sid_watch watch with
    | None => mret (inl (SResync SYUnknown))
    | Some addr =>
        match ws_heap w !! addr with
        | None => panic
        | Some e =>
            mret (if admitted_entry session watch legacy e then inr (addr, None)
                  else inl (SRejected SRForbidden))
        end
    end.
Definition locate (sc : LocateScene) (principal : Principal) (session : Session)
    (request : SubscriptionRequest) (legacy : bool) (connection : option bytes) (w : Watches)
    : R (SubscriptionOutcome + N * option Watches) :=
  match request, SubWire.request_watch request with
  | SCreate create, _ => locate_create sc principal session create legacy connection w
  | _, Some watch => locate_watch sc session watch legacy w
  | _, None => panic
  end.

(** A round: what it sees and the state it acts on. *)
Record Round : Type := mkRound {
  ro_look : LookScene; ro_seen : Watches; ro_act : ActScene; ro_met : Watches }.

(** The loop, over the rounds there are; [None] is a panic, or that they were
    not enough. *)
Fixpoint attempts (addr : N) (session : Session) (request : SubscriptionRequest) (reserved : bool)
    (rounds : list Round) : R (Watches * SubscriptionOutcome * bool) :=
  match rounds with
  | [] => panic
  | r :: rounds =>
      match ws_heap (ro_seen r) !! addr with
      | None => panic
      | Some e =>
          i ← look (ro_look r) session request reserved e;
          a ← act (ro_act r) addr session i (ro_met r);
          match a.2 with
          | Some (o, done) => mret (a.1, o, done)
          | None => attempts addr session request reserved rounds
          end
      end
  end.

(** What a request meets: the flags and the policy at its admission, the
    watches at its lookup, its rounds, and the watches when a reservation it
    did not publish is dropped. *)
Record RequestScene : Type := mkRequestScene {
  rs_sight : Sight;
  rs_policy : result ReadError PolicySnapshot;
  rs_locate : LocateScene;
  rs_found : Watches;
  rs_rounds : list Round;
  rs_dropped : Watches
}.

(** A request about a watch, after its admission: the answer, and the states
    of the watches it leaves behind, in their order. *)
Definition execute_watch (sc : RequestScene) (principal : Principal) (session : Session)
    (request : SubscriptionRequest) (legacy : bool) (connection : option bytes) (b : Budget)
    : option (result ReadError SubscriptionOutcome * list Watches * Budget) :=
  match locate (rs_locate sc) principal session request legacy connection (rs_found sc) b with
  | None => None
  | Some (Err e, b) => Some (Err e, [], b)
  | Some (Ok (inl o), b) => Some (Ok o, [], b)
  | Some (Ok (inr (addr, created)), b) =>
      let reserved := bool_decide (is_Some created) in
      let before := match created with Some w => [w] | None => [] end in
      let drop := if reserved then [remove addr (rs_dropped sc)] else [] in
      match attempts addr session request reserved (rs_rounds sc) b with
      | None => None
      | Some (Err e, b) => Some (Err e, before ++ drop, b)
      | Some (Ok (w, o, done), b) =>
          Some (Ok o, before ++ [w] ++ (if done : bool then [] else drop), b)
      end
  end.
(** [SubscriptionInner::execute]. *)
Definition execute (sc : RequestScene) (principal : Principal) (session : Session)
    (request : SubscriptionRequest) (legacy : bool) (connection : option bytes) (b : Budget)
    : option (result ReadError SubscriptionOutcome * list Watches * Budget) :=
  match admission (rs_sight sc) principal session request legacy b with
  | (Err e, b) => Some (Err e, [], b)
  | (Ok (Some o), b) => Some (Ok o, [], b)
  | (Ok None, b) =>
      match request with
      | SDescribe =>
          Some (match rs_policy sc with
                | Err e => Err e
                | Ok p => Ok (if p_operation p OpSubscriptions
                              then SAuthority (authority service) (dataset service)
                              else SRejected SRForbidden)
                end, [], b)
      | _ => execute_watch sc principal session request legacy connection b
      end
  end.

(** [revalidate_delivery], on the outcome of the poll it makes. *)
Definition revalidate (d : SubscriptionDelivery) (o : SubscriptionOutcome) : SubscriptionOutcome :=
  match o with
  | SDelivery current =>
      if bool_decide (dl_token current = dl_token d)
         && (dl_scope_generation current =? dl_scope_generation d)%N
      then o else SResync SYScopeChanged
  | SResync _ | SRejected _ | SClosed _ => o
  | _ => SResync SYScopeChanged
  end.
End requests.
End Subscription.
