(* ===== verification/SubscriptionFacts.v ===== *)
(** * Subscriptions: what a client holds

    A client keeps the rows of the deliveries it has acknowledged.  [receive]
    is that client; the facts below say that a delivery takes the rows of the
    acknowledged projection to those of the captured one, and that a captured
    projection holds the rows the policy shows of the watched ids in the graph
    at the revision the delivery names.

    The second half is the service as a system: any number of requests, each
    in rounds that look at one state of the watches and act on a later one,
    with maintenance, removals and a shutdown in between. *)

From S2P Require Import Prelude Floats Kinds Size Extern Bitmap Adjacency ValueIndex Filter FilterParser Text Units Taxonomy Xeto Namespace Fitting Controlled Changelog Graph GraphInv Prepared Query Application MeterFacts Sanitize SanitizeFacts View Reading ReadService ReadServiceFacts Command CommandExecute WireText TypedPayload TypedFacts EntityWire EntityWireFacts EntityWireLaws Feed FeedFacts SubscriptionWire Subscription.

Module SubscriptionFacts.
Import Meter Reading Subscription.

(** ** The client *)

Definition row_id (row : HDict) : option string :=
  match row !! "id" with Some (KRef r) => Some (ref_val r) | _ => None end.
Abbreviation Rows := (gmap string HDict).
Definition place (m : Rows) (row : HDict) : Rows :=
  match row_id row with Some id => <[id := row]> m | None => m end.
(** What a delivery says: start over if it is initial, drop the removed ids,
    and take the rows. *)
Definition apply_delivery (d : SubscriptionDelivery) (m : Rows) : Rows :=
  foldl place (foldr delete (if dl_initial d then ∅ else m) (dl_removed d)) (dl_rows d).

(** A client holds what it has acknowledged and the delivery it has not. *)
Record Client : Type := mkClient { cl_rows : Rows; cl_pending : option SubscriptionDelivery }.
Definition new_client : Client := mkClient ∅ None.
Definition receive (c : Client) (o : SubscriptionOutcome) : Client :=
  match o with
  | SDelivery d => mkClient (cl_rows c) (Some d)
  | SAcknowledged _ scope token through =>
      match cl_pending c with
      | Some d => if bool_decide (ack_of d = mkAck scope token through)
                  then mkClient (apply_delivery d (cl_rows c)) None else c
      | None => c
      end
  | _ => c
  end.

(** ** Deliveries *)

Section deliveries.
Context {HO : HashOrder} {HL : HashOrderLaws} {CH : Chrono} {CL : ChronoLaws}.
Context {B6 : Base64} {BL : Base64Laws} {SJ : SerdeJson} {SL : SerdeJsonLaws}.

Definition rows_of (p : Projection) : Rows := pj_row <$> p.
(** Rows under their own ids, with their canonical bytes. *)
Definition projection_ok (p : Projection) : Prop :=
  ∀ id r, p !! id = Some r →
    row_id (pj_row r) = Some id ∧ typed_row (pj_row r) ∧
    Typed.encode (KDict (pj_row r)) = Ok (pj_canonical r).

Lemma encode_inj v w b : typed v → typed w → Typed.encode v = Ok b → Typed.encode w = Ok b → v = w.
Proof.
  intros Hv Hw Ev Ew. apply decode_encoded in Ev; [|done]. apply decode_encoded in Ew; [|done]. congruence.
Qed.

Lemma canonical_row p q id r s :
  projection_ok p → projection_ok q → p !! id = Some r → q !! id = Some s →
  pj_canonical r = pj_canonical s → pj_row r = pj_row s.
Proof.
  intros Hp Hq Hr Hs E. apply Hp in Hr as (_ & Tr & Er). apply Hq in Hs as (_ & Ts & Es).
  rewrite E in Er. assert (KDict (pj_row r) = KDict (pj_row s)) as [= ->]; [|done].
  eapply encode_inj; [by constructor|by constructor|done|done].
Qed.

Lemma foldr_delete_lookup (m : Rows) l id :
  foldr delete m l !! id = if decide (id ∈ l) then None else m !! id.
Proof.
  induction l as [|x l IH]; simpl; [done|]. destruct (decide (x = id)) as [->|Hne].
  - rewrite lookup_delete_eq, decide_True; [done|left].
  - rewrite lookup_delete_ne by done. rewrite IH. destruct (decide (id ∈ l)).
    + rewrite decide_True; [done|by right].
    + rewrite decide_False; [done|]. intros [?|?]%elem_of_cons; [by subst|done].
Qed.
Lemma foldl_place_lookup (m : Rows) (l : list (string * ProjectedRow)) id :
  NoDup l.*1 → (∀ k r, (k, r) ∈ l → row_id (pj_row r) = Some k) →
  foldl place m ((λ kr, pj_row kr.2) <$> l) !! id
  = match (list_to_map l : Projection) !! id with Some r => Some (pj_row r) | None => m !! id end.
Proof.
  revert m. induction l as [|[k r] l IH]; intros m Hnd Hid; simpl; [by rewrite lookup_empty|].
  inversion_clear Hnd as [|? ? Hk Hnd']. rewrite IH by (try done; intros; apply Hid; by right).
  unfold place. rewrite (Hid k r) by left. destruct (decide (k = id)) as [->|Hne].
  - rewrite lookup_insert_eq. rewrite (not_elem_of_list_to_map_1 (M:=gmap string)) by done. by rewrite lookup_insert_eq.
  - by rewrite !lookup_insert_ne.
Qed.

Lemma elem_of_filter_list {A} (f : A → bool) l x : x ∈ List.filter f l ↔ x ∈ l ∧ f x = true.
Proof. by rewrite !list_elem_of_In, filter_In. Qed.
Lemma NoDup_filter_keys {A} (f : string * A → bool) l : NoDup l.*1 → NoDup (List.filter f l).*1.
Proof.
  induction l as [|[k r] l IH]; [done|]. cbn [fmap list_fmap fst]. intros [Hk Hl]%NoDup_cons.
  cbn [List.filter]. destruct (f (k, r)); [|by apply IH]. cbn [fmap list_fmap fst]. apply NoDup_cons.
  split; [|by apply IH]. contradict Hk. apply list_elem_of_fmap in Hk as ([k' r'] & -> & [Hin _]%elem_of_filter_list).
  apply list_elem_of_fmap. by exists (k', r').
Qed.
Lemma changed_keys initial old new : NoDup (List.filter (differs initial old) (btree_iter new)).*1.
Proof. apply NoDup_filter_keys, NoDup_btree_keys. Qed.

(** The rows of a delivery, by id. *)
Lemma changed_lookup initial old new id :
  (list_to_map (List.filter (differs initial old) (btree_iter new)) : Projection) !! id
  = r ← new !! id; if differs initial old (id, r) then Some r else None.
Proof.
  apply option_eq. intros r. rewrite <-elem_of_list_to_map by apply changed_keys.
  rewrite elem_of_filter_list, elem_of_btree_iter, bind_Some. split.
  - intros [-> E]. exists r. by rewrite E.
  - intros (r' & -> & E). destruct (differs _ _ _) eqn:F; simplify_eq. done.
Qed.
Lemma removed_elem old new id :
  id ∈ removed_ids false old new ↔ is_Some (old !! id) ∧ new !! id = None.
Proof.
  unfold removed_ids. rewrite list_elem_of_In, filter_In, <-list_elem_of_In, bool_decide_eq_true.
  rewrite list_elem_of_fmap. split.
  - intros [([k r] & -> & Hk%elem_of_btree_iter) ?]. eauto.
  - intros [[r Hr] ?]. split; [|done]. exists (id, r). by rewrite elem_of_btree_iter.
Qed.

(** A delivery takes the acknowledged rows to the captured ones. *)
Lemma delivery_takes d old new m :
  projection_ok old → projection_ok new →
  dl_rows d = changed_rows (dl_initial d) old new → dl_removed d = removed_ids (dl_initial d) old new →
  (dl_initial d = false → m = rows_of old) → apply_delivery d m = rows_of new.
Proof.
  intros Ho Hn Hr Hd Hm. unfold apply_delivery. rewrite Hr, Hd. unfold changed_rows.
  apply map_eq. intros id. rewrite foldl_place_lookup; [|apply changed_keys|].
  2: { intros k r [Hin%elem_of_btree_iter _]%elem_of_filter_list. by apply Hn in Hin as (? & _). }
  rewrite changed_lookup, foldr_delete_lookup. unfold rows_of, differs. rewrite lookup_fmap. cbn [fst snd].
  destruct (dl_initial d) eqn:Hi; [destruct (new !! id); simpl; [done|]; by repeat case_match|].
  rewrite (Hm eq_refl). unfold rows_of. rewrite lookup_fmap.
  destruct (new !! id) as [r|] eqn:Hnew; cbn [orb fmap option_fmap option_map mbind option_bind].
  - destruct (old !! id) as [o|] eqn:Hold; [|done]. case_bool_decide as E; cbn [negb]; [|done].
    rewrite decide_False by (rewrite removed_elem; rewrite Hnew; by intros [_ ?]). simpl. f_equal.
    by apply (canonical_row old new id).
  - case_decide as Hdec; [done|]. destruct (old !! id) eqn:Hold; [|done]. destruct Hdec.
    apply removed_elem. rewrite Hold. eauto.
Qed.
End deliveries.

(** ** Captures *)

Lemma c_bind_inv {A D} (m : C A) (k : A → C D) b x b' :
  (m ≫= k) b = (Ok x, b') → ∃ a b1, m b = (Ok a, b1) ∧ k a b1 = (Ok x, b').
Proof. unfold mbind, C_bind. destruct (m b) as [[a|e] b1]; [|done]. eauto. Qed.
Lemma metered_Ok {A} (m : B A) b x b' : metered m b = (Ok x, b') ↔ m b = (Ok x, b').
Proof. unfold metered. destruct (m b) as [[a|e] b1]; simpl; split; intros E; simplify_eq; done. Qed.
Lemma subscription_delivers_Ok {A} `{Ambient} (m : B A) a b x b' :
  MeterFacts.delivers (Meter.limits b) m a → m b = (Ok x, b') → x = a.
Proof.
  intros Hm E. destruct (Hm b eq_refl) as (r & b1 & Hr & _ & Hs). rewrite E in Hr. injection Hr as <- <-.
  by destruct Hs as [[= ->]|(e & [=] & _)].
Qed.
Ltac b_step H x b E := apply ReadServiceFacts.b_bind_ok in H as (x & b & E & H).
Ltac r_step H x b E := apply ReadServiceFacts.r_bind_ok in H as (x & b & E & H).
Ltac c_step H x b E := apply c_bind_inv in H as (x & b & E & H).

Section captures.
Context {HO : HashOrder} {HL : HashOrderLaws} {RB : Roaring} {RL : RoaringLaws}.
Context {CM : CacheMap} {CML : CacheLaws} {ON : Ontology} {CA : Catalog} {FS : FilterSyntax} {AM : Ambient}.
Context {CH : Chrono} {CL : ChronoLaws} {B6 : Base64} {BL : Base64Laws} {SJ : SerdeJson} {SL : SerdeJsonLaws}.
Context (service : Subscription.t).

Definition shown (p : PolicySnapshot) (id : string) : Prop := p_entity p id = true ∧ p_tag p id "id" = true.
(** What a projection has of an id. *)
Definition shows (g : EntityGraph.t) (p : PolicySnapshot) (pj : Projection) (id : string) : Prop :=
  match View.masked_store g p !! id with
  | None => pj !! id = None
  | Some row => ∃ canonical, Typed.encode (KDict row) = Ok canonical ∧
                  pj !! id = Some (mkProjected row canonical)
  end.

Lemma project_Ok g p pj n id b pj' n' b' :
  project service g p (pj, n) id b = (Ok (pj', n'), b') →
  shown p id ∧ (∀ id', id' ≠ id → pj' !! id' = pj !! id') ∧ (pj !! id = None ∨ shows g p pj id → shows g p pj' id).
Proof.
  unfold project. intros H. c_step H u b1 E1. destruct (p_entity p id) eqn:He; [|done].
  destruct (p_tag p id "id") eqn:Ht; [|done]. cbn [negb orb] in H. c_step H before b2 E2. c_step H row b3 E3.
  apply metered_Ok, (subscription_delivers_Ok _ (View.masked_store g p !! id)) in E3; [|apply View.entity_delivers].
  split; [done|]. unfold shows. destruct row as [row|]; rewrite <-E3.
  - c_step H after b4 E4. c_step H u1 b5 E5. c_step H u2 b6 E6.
    destruct (Typed.encode (KDict row)) as [canonical|]; [|done].
    destruct (_ <? _)%N; [done|]. c_step H id' b7 E7.
    apply metered_Ok, (subscription_delivers_Ok _ id) in E7; [|apply MeterFacts.delivers_copy]. subst id'. injection H as <- _ _.
    split; [intros; by rewrite lookup_insert_ne|]. intros _. exists canonical. by rewrite lookup_insert_eq.
  - injection H as <- _ _. split; [done|]. by intros [?|?].
Qed.

Lemma projects_Ok g p ids pj n b pj' n' b' :
  (∀ id, pj !! id = None ∨ shows g p pj id) →
  fold_c (project service g p) (pj, n) ids b = (Ok (pj', n'), b') →
  (∀ id, id ∈ ids → shown p id ∧ shows g p pj' id) ∧ (∀ id, id ∉ ids → pj' !! id = pj !! id).
Proof.
  revert pj n b. induction ids as [|x ids IH]; intros pj n b H0 H; cbn [fold_c] in H.
  - injection H as <- _ _. split; [by intros id ?%elem_of_nil|done].
  - c_step H st b1 E. destruct st as [pj1 n1]. apply project_Ok in E as (Hs & Ho & Hx).
    destruct (IH pj1 n1 b1) as [IH1 IH2]; [|done|].
    { intros id. destruct (decide (id = x)) as [->|Hne]; [right; by apply Hx|].
      specialize (H0 id). unfold shows in *. by rewrite (Ho id Hne). }
    split.
    + intros id Hin. destruct (decide (id ∈ ids)) as [|Hni]; [by apply IH1|].
      apply elem_of_cons in Hin as [->|?]; [|done]. split; [done|]. specialize (Hx (H0 x)).
      unfold shows in *. by rewrite (IH2 x Hni).
    + intros id Hni. rewrite IH2 by (intros ?; apply Hni; by right). apply Ho. intros ->. apply Hni. left.
Qed.

(** A capture: the watched ids may be seen, and of each the projection has
    what the policy shows of it in the graph. *)
Record captured (g : EntityGraph.t) (p : PolicySnapshot) (ids : list string) (c : Capture) : Prop := {
  cd_graph : cp_graph c = EntityGraph.state g;
  cd_policy : cp_policy c = scope_key p;
  cd_shown id : id ∈ ids → shown p id ∧ shows g p (cp_projection c) id;
  cd_only id : id ∉ ids → cp_projection c !! id = None
}.
Lemma capture_Ok sc ids previous b c b' :
  capture service sc ids previous b = (Ok c, b') → ∃ p, lk_policy sc = Ok p ∧ captured (lk_graph sc) p ids c.
Proof.
  unfold capture. destruct (lk_policy sc) as [p|]; [|done]. intros H. exists p. split; [done|].
  destruct (negb _ || _); [done|]. destruct (_ <? _)%N; [done|]. c_step H key b1 E1.
  apply metered_Ok, (subscription_delivers_Ok _ (scope_key p)) in E1; [|apply MeterFacts.delivers_copy]. subst key.
  destruct (match previous with Some _ => _ | None => _ end); [done|]. c_step H u b2 E2. c_step H u' b3 E3.
  c_step H st b4 E4. injection H as <- _. destruct st as [pj n].
  apply projects_Ok in E4 as [H1 H2]; [|by left]. by split.
Qed.

(** The rows of a capture are those the policy shows. *)
Lemma captured_rows g p ids c id :
  captured g p ids c →
  rows_of (cp_projection c) !! id = if decide (id ∈ ids) then View.masked_store g p !! id else None.
Proof.
  intros Hc. unfold rows_of. rewrite lookup_fmap. case_decide as Hi.
  - destruct (cd_shown _ _ _ _ Hc id Hi) as [_ Hs]. unfold shows in Hs.
    destruct (View.masked_store g p !! id); [destruct Hs as (x & _ & ->)|rewrite Hs]; done.
  - by rewrite (cd_only _ _ _ _ Hc id Hi).
Qed.

(** Rows of values the Rust types admit. *)
Definition typed_graph (g : EntityGraph.t) : Prop := ∀ id row, EntityGraph.entities g !! id = Some row → typed_row row.

Lemma masked_row_id g p id row :
  GraphInv.inv g → shown p id → View.masked_store g p !! id = Some row → row_id row = Some id.
Proof.
  intros Hi [He Ht]. rewrite View.masked_store_lookup. intros (raw & Hraw & Hm)%bind_Some.
  destruct (GraphInv.store_ref _ _ _ _ _ (GraphInv.inv_store _ Hi) _ _ Hraw) as (r & Hr & Hv).
  unfold Sanitize.masked in Hm. rewrite He in Hm. injection Hm as <-. unfold row_id, Sanitize.mask_row.
  rewrite map_lookup_imap, Hr. cbn [mbind option_bind]. rewrite Ht. cbn [andb].
  assert (Sanitize.member_shown p "id" (KRef r) (Sanitize.is_own_id id "id" (KRef r)) = true) as ->.
  { unfold Sanitize.is_own_id. by rewrite !bool_decide_true. }
  cbn. by rewrite Hv.
Qed.
Lemma captured_ok g p ids c :
  GraphInv.inv g → typed_graph g → captured g p ids c → projection_ok (cp_projection c).
Proof.
  intros Hi Ht Hc id r Hr. destruct (decide (id ∈ ids)) as [Hin|Hni].
  2: by rewrite (cd_only _ _ _ _ Hc id Hni) in Hr.
  destruct (cd_shown _ _ _ _ Hc id Hin) as [Hs Hv]. unfold shows in Hv.
  destruct (View.masked_store g p !! id) as [row|] eqn:Hm; [|congruence].
  destruct Hv as (x & Hx & E). rewrite E in Hr. injection Hr as <-. cbn [pj_row pj_canonical].
  split; [by eapply masked_row_id|]. split; [|done]. rewrite View.masked_store_lookup in Hm.
  apply bind_Some in Hm as (raw & Hraw & Hm). eapply masked_typed; [by eapply Ht|done].
Qed.

(** ** Records *)

(** The graphs and the policies that requests have observed. *)
Context (world : EntityGraph.t → PolicySnapshot → Prop).

(** Exactly what a policy showed of the ids in a graph at a revision. *)
Definition exact (ids : list string) (revision : N) (rows : Rows) : Prop :=
  ∃ g p, world g p ∧ EntityGraph.version g = revision ∧ (∀ id, id ∈ ids → shown p id) ∧
    ∀ id, rows !! id = if decide (id ∈ ids) then View.masked_store g p !! id else None.
Lemma captured_exact g p ids c :
  world g p → captured g p ids c → exact ids (state_revision (cp_graph c)) (rows_of (cp_projection c)).
Proof.
  intros Hw Hc. exists g, p. split; [done|]. split; [by rewrite (cd_graph _ _ _ _ Hc)|]. split.
  - intros id Hid. by apply (cd_shown _ _ _ _ Hc).
  - intros id. by apply captured_rows.
Qed.

(** A prepared delivery: from the acknowledged rows to those of a capture. *)
Record delivery_ok (identity : SubscriptionId) (l : Live) (pd : PreparedDelivery) : Prop := {
  do_projection : projection_ok (pd_projection pd);
  do_watch : dl_watch (pd_delivery pd) = identity;
  do_scope : dl_scope_generation (pd_delivery pd) = lv_scope l;
  do_from : dl_from (pd_delivery pd) = lv_acknowledged l;
  do_rows : dl_rows (pd_delivery pd)
    = changed_rows (dl_initial (pd_delivery pd)) (lv_projection l) (pd_projection pd);
  do_removed : dl_removed (pd_delivery pd)
    = removed_ids (dl_initial (pd_delivery pd)) (lv_projection l) (pd_projection pd);
  do_exact : exact (lv_ids l) (dl_through (pd_delivery pd)) (rows_of (pd_projection pd));
  do_written : is_ok (SubWire.outcome_bytes (SDelivery (pd_delivery pd))) = true;
  do_fresh : lv_last_ack l ≠ Some (ack_of (pd_delivery pd))
}.
Record live_ok (identity : SubscriptionId) (l : Live) : Prop := {
  lo_projection : projection_ok (lv_projection l);
  lo_scope : (1 ≤ lv_scope l ≤ u64_max)%N;
  lo_prepared pd : lv_prepared l = Some pd → delivery_ok identity l pd;
  lo_exact : (∀ pd, lv_prepared l = Some pd → dl_initial (pd_delivery pd) = false) →
    exact (lv_ids l) (lv_acknowledged l) (rows_of (lv_projection l))
}.
(** The client that received the answers of a watch. *)
Record synced (l : Live) (c : Client) : Prop := {
  sy_pending : cl_pending c = pd_delivery <$> lv_prepared l;
  sy_rows : (∀ pd, lv_prepared l = Some pd → dl_initial (pd_delivery pd) = false) →
    cl_rows c = rows_of (lv_projection l)
}.
Definition status_ok (identity : SubscriptionId) (s : Status) (c : Client) : Prop :=
  match s with StLive l => live_ok identity l ∧ synced l c | _ => True end.

Lemma set_graph_ok identity l c gs :
  live_ok identity l → synced l c → live_ok identity (set_graph gs l) ∧ synced (set_graph gs l) c.
Proof.
  intros [? ? Hp ?] [? ?]. split; [|by split]. split; try done. intros pd H. destruct (Hp pd H). by split.
Qed.
Lemma set_lease_ok identity l c until :
  live_ok identity l → synced l c → live_ok identity (set_lease until l) ∧ synced (set_lease until l) c.
Proof.
  intros [? ? Hp ?] [? ?]. split; [|by split]. split; try done. intros pd H. destruct (Hp pd H). by split.
Qed.

Lemma delivery_Ok token identity l c initial b pd b' :
  delivery service token identity l c initial b = (Ok pd, b') →
  pd = mkPreparedDelivery (draft_delivery service token identity l c initial) (cp_projection c) ∧
  is_ok (Entity.encode (SDelivery (pd_delivery pd))) = true.
Proof.
  unfold delivery. intros H. b_step H u b1 E1. b_step H u' b2 E2.
  destruct (Entity.encode _) as [bytes|] eqn:E; [|done]. destruct (_ <? _)%N; [done|]. injection H as <- _.
  cbn [pd_delivery]. by rewrite E.
Qed.
Lemma encoded_bytes o : is_ok (Entity.encode o) = true → is_ok (SubWire.outcome_bytes o) = true.
Proof.
  unfold Entity.encode. cbn [to_kind SubWire.SubscriptionOutcome_wire]. unfold SubWire.outcome_to_kind.
  by destruct (SubWire.outcome_bytes o).
Qed.

(** Delivering keeps the record and its client in step. *)
Lemma deliver_ok sc identity l c g p (initial : bool) client b l' o b' :
  world g p → captured g p (lv_ids l) c → projection_ok (cp_projection c) →
  projection_ok (lv_projection l) → (1 ≤ lv_scope l ≤ u64_max)%N →
  (∀ a, lv_last_ack l = Some a → ack_token a ≠ lk_token sc) →
  (if initial then lv_acknowledged l = state_revision (cp_graph c)
   else exact (lv_ids l) (lv_acknowledged l) (rows_of (lv_projection l)) ∧ cl_rows client = rows_of (lv_projection l)) →
  deliver service sc identity c l initial b = (Ok (l', o), b') →
  live_ok identity l' ∧ synced l' (receive client o).
Proof.
  intros Hw Hc Hok Hpr Hsc Hfr Hini H. unfold deliver in H. b_step H pd b1 E. injection H as <- <- _.
  apply delivery_Ok in E as [-> He]. apply encoded_bytes in He. cbn [pd_delivery] in *.
  set (d := draft_delivery _ _ _ _ _ _) in *. split.
  - split; [done|done| |].
    + cbn [set_prepared lv_prepared]. intros pd [= <-]. split; try done; cbn [pd_delivery pd_projection set_prepared
        lv_acknowledged lv_ids lv_last_ack].
      * by destruct initial; cbn [draft_delivery dl_from d].
      * eapply captured_exact; done.
      * intros Ha. apply Hfr in Ha. by apply Ha.
    + cbn [set_prepared lv_prepared lv_ids lv_acknowledged lv_projection]. intros Hi. specialize (Hi _ eq_refl).
      cbn in Hi. subst initial. by apply Hini.
  - split; [done|]. cbn [set_prepared lv_prepared lv_projection receive cl_rows]. intros Hi.
    specialize (Hi _ eq_refl). cbn in Hi. subst initial. by apply Hini.
Qed.

Section steps.
Context (sc : LookScene) (identity : SubscriptionId) (g : EntityGraph.t) (p : PolicySnapshot) (c : Capture).
Context (client : Client).
Context (Hworld : world g p) (Hrows : projection_ok (cp_projection c)).
Implicit Types (l : Live) (o : SubscriptionOutcome).

(** The random token is not the one last acknowledged. *)
Definition fresh_token (l : Live) : Prop := ∀ a, lv_last_ack l = Some a → ack_token a ≠ lk_token sc.

Lemma poll_ok l resume b l' o b' :
  live_ok identity l → synced l client → captured g p (lv_ids l) c → fresh_token l →
  poll service sc identity c l resume b = (Ok (l', o), b') →
  live_ok identity l' ∧ synced l' (receive client o).
Proof.
  intros Hl Hs Hc Hf. unfold poll. case_match; [intros E; by injection E as <- <- _|].
  destruct (lv_prepared l) as [pd|] eqn:Hp.
  - intros E. injection E as <- <- _. split; [done|]. destruct Hs as [Hs1 Hs2]. split; cbn [receive cl_pending cl_rows]; [by rewrite Hp|done].
  - destruct (_ && _); [intros E; by injection E as <- <- _|].
    apply (deliver_ok sc identity l c g p false); try done; [apply (lo_projection _ _ Hl)|apply (lo_scope _ _ Hl)|].
    split; [apply (lo_exact _ _ Hl)|apply (sy_rows _ _ Hs)]; intros pd; by rewrite Hp.
Qed.
Lemma scope_replaced_ok ids l b l' o b' :
  live_ok identity l → captured g p ids c →
  Subscription.replace service sc identity ids c l b = (Ok (l', o), b') →
  live_ok identity l' ∧ synced l' (receive client o).
Proof.
  intros Hl Hc. unfold Subscription.replace, checked_add. case_decide as Hle; [|done].
  apply (deliver_ok sc identity (restart ids (lv_scope l + 1) c l) c g p true); try done.
  cbn [restart lv_scope]. pose proof (lo_scope _ _ Hl). lia.
Qed.
Lemma settle_ok l a :
  live_ok identity l → synced l client →
  let '(l', o) := settle_ack identity l a in live_ok identity l' ∧ synced l' (receive client o).
Proof.
  intros Hl Hs. unfold settle_ack. destruct (negb _); [done|].
  case_bool_decide as Ha.
  - split; [done|]. cbn [receive]. rewrite (sy_pending _ _ Hs).
    destruct (lv_prepared l) as [pd|] eqn:Hp; [|done]. cbn [fmap option_fmap option_map].
    case_bool_decide as E; [|done]. destruct (do_fresh _ _ _ (lo_prepared _ _ Hl _ Hp)). rewrite Ha, E. by destruct a.
  - destruct (lv_prepared l) as [pd|] eqn:Hp; [|done]. case_bool_decide as E; [|done]. subst a.
    pose proof (lo_prepared _ _ Hl _ Hp) as [H1 H2 H3 H4 H5 H6 H7 H8 H9]. split.
    + split; [done|apply (lo_scope _ _ Hl)|done|done].
    + cbn [receive]. rewrite (sy_pending _ _ Hs), Hp. cbn [fmap option_fmap option_map].
      rewrite bool_decide_true by done. split; [done|]. intros _. cbn [cl_rows acknowledge lv_projection].
      eapply delivery_takes; [apply (lo_projection _ _ Hl)|done|done|done|]. intros Hi.
      apply (sy_rows _ _ Hs). intros pd'. rewrite Hp. by intros [= <-].
Qed.

(** The next record of a watch is as good as the last, and its client in step
    with it. *)
Lemma prepare_ok request record ids b next o b' :
  status_ok identity (wr_status record) client →
  captured g p ids c →
  (∀ l, wr_status record = StLive l → fresh_token l ∧ (lv_ids l = ids ∨ ∃ w n i, request = SReplace w n i)) →
  prepare service sc identity ids c request record b = Some (Ok (next, o), b') →
  (wr_revision next = wr_revision record + 1)%N ∧ (wr_revision next ≤ u64_max)%N ∧
  status_ok identity (wr_status next) (receive client o).
Proof.
  intros Hok Hc Hl H. unfold prepare, checked_add in H. case_decide as Hle; [|done].
  assert (Hkeep : ∀ m : B (Live * SubscriptionOutcome),
    (∀ l o b1, m b = (Ok (l, o), b1) → live_ok identity l ∧ synced l (receive client o)) →
    (r ← lift m; mret (mkWatchRecord (wr_revision record + 1) (StLive r.1), r.2)) b = Some (Ok (next, o), b') →
    (wr_revision next = wr_revision record + 1)%N ∧ (wr_revision next ≤ u64_max)%N ∧
    status_ok identity (wr_status next) (receive client o)).
  { intros m Hm Hb. r_step Hb r b1 E. apply ReadServiceFacts.lift_ok in E. injection Hb as <- <- _.
    split; [done|]. split; [done|]. destruct r as [l o']. by eapply Hm. }
  destruct (wr_status record) as [|l| | |]; try done.
  - destruct request as [|create| | | | | |]; try done. eapply Hkeep, H. intros l o1 b1.
    apply (deliver_ok sc identity _ c g p true); done.
  - destruct (Hl l eq_refl) as [Hf Hids]. destruct Hok as [Hlo Hs].
    destruct (set_graph_ok identity l client (cp_graph c) Hlo Hs) as [Hlo' Hs'].
    set (l0 := set_graph _ l) in *.
    destruct request as [|create|w|w s a|w s t th|w lease|w s i|w]; try done.
    1-3: destruct Hids as [<-|(? & ? & ? & [=])]; eapply Hkeep, H; intros l1 o1 b1; by apply poll_ok.
    + eapply Hkeep, H. intros l1 o1 b1 E. injection E as E _. pose proof (settle_ok l0 (mkAck s t th) Hlo' Hs') as Hst.
      by rewrite E in Hst.
    + eapply Hkeep, H. intros l1 o1 b1 E. injection E as E _. unfold renew in E. destruct (_ <? _)%N; injection E as <- <-; [done|].
      by apply set_lease_ok.
    + eapply Hkeep, H. intros l1 o1 b1. by apply scope_replaced_ok.
    + injection H as <- <- _. done.
Qed.
End steps.
End captures.
End SubscriptionFacts.
