(* ===== verification/SubscriptionRuns.v ===== *)
(** * Subscriptions as a system

    Runs of the subscription service: watches are created, requests look and
    act in rounds, and the maintenance, removals and a shutdown come in
    between.  [sys_ok] holds along every run: the registry and its bindings
    agree, its reservations add up and are within the limits, every cell has
    only moved forward since any earlier state, and every client is in step
    with its watch. *)

From S2P Require Import Prelude Floats Kinds Size Extern Bitmap Adjacency ValueIndex Filter FilterParser Text Units Taxonomy Xeto Namespace Fitting Controlled Changelog Graph GraphInv Prepared Query Application MeterFacts Sanitize View Reading ReadService ReadServiceFacts Command CommandExecute WireText TypedPayload TypedFacts EntityWire EntityWireFacts EntityWireLaws Feed FeedFacts SubscriptionWire Subscription SubscriptionFacts.

Module SubscriptionRuns.
Import Meter Reading Subscription SubscriptionFacts.

(** ** Measures of the registry *)

Definition measure (f : Entry → N) (m : gmap bytes Entry) : N := map_fold (λ _ e n, f e + n)%N 0%N m.
Lemma measure_insert f m k e : m !! k = None → measure f (<[k := e]> m) = (f e + measure f m)%N.
Proof. intros Hk. unfold measure. rewrite map_fold_insert_L; [done| |done]. intros. lia. Qed.
Lemma measure_delete f m k e : m !! k = Some e → measure f m = (f e + measure f (delete k m))%N.
Proof. intros Hk. unfold measure. rewrite (map_fold_delete_L _ _ k e); [done| |done]. intros. lia. Qed.
Lemma measure_update f m k e e' :
  m !! k = Some e → (measure f (<[k := e']> m) + f e = measure f m + f e')%N.
Proof.
  intros Hk. rewrite (measure_delete f m k e), (measure_delete f (<[k := e']> m) k e') by
    (done || apply lookup_insert_eq). rewrite delete_insert_eq. lia.
Qed.
Lemma measure_le f g m : (∀ e, f e ≤ g e)%N → (measure f m ≤ measure g m)%N.
Proof.
  intros Hfg. unfold measure. induction m as [|k e m Hk IH] using map_ind; [done|].
  rewrite !map_fold_insert_L by (done || (intros; lia)). specialize (Hfg e). lia.
Qed.

Definition one (b : bool) : N := if b then 1 else 0.
(** The entries of the registry by watch. *)
Definition reg (w : Watches) : gmap bytes Entry := omap (λ a, ws_heap w !! a) (rg_entries (ws_table w)).
Lemma lookup_reg w k : reg w !! k = rg_entries (ws_table w) !! k ≫= λ a, ws_heap w !! a.
Proof. apply lookup_omap. Qed.

Lemma registered_reg w : registered w ≡ₚ (map_to_list (reg w)).*2.
Proof.
  unfold registered, reg. generalize (rg_entries (ws_table w)). intros m.
  induction m as [|k a m Hk IH] using map_ind; [by rewrite omap_empty, !map_to_list_empty|].
  rewrite map_to_list_insert by done. cbn [omap list_omap].
  destruct (ws_heap w !! a) as [e|] eqn:Ha.
  - erewrite omap_insert_Some by done. rewrite map_to_list_insert by (rewrite lookup_omap, Hk; done).
    cbn [fmap list_fmap snd]. by rewrite IH.
  - erewrite omap_insert_None by done. rewrite delete_id by (rewrite lookup_omap, Hk; done). exact IH.
Qed.
Lemma measure_size m : measure (λ _, 1%N) m = N.of_nat (size m).
Proof.
  induction m as [|k e m Hk IH] using map_ind; [done|].
  rewrite measure_insert, IH, map_size_insert_None by done. lia.
Qed.
Lemma reg_size w : (measure (λ _, 1) (reg w) ≤ N.of_nat (size (rg_entries (ws_table w))))%N.
Proof.
  rewrite measure_size. assert (size (reg w) ≤ size (rg_entries (ws_table w))); [|lia].
  rewrite <-!size_dom. apply subseteq_size. intros k. rewrite !elem_of_dom, lookup_reg.
  intros (x & (y & -> & _)%bind_Some). eauto.
Qed.
Lemma count_perm {A} (f : A → bool) l k : l ≡ₚ k → length (List.filter f l) = length (List.filter f k).
Proof. induction 1; simpl; repeat case_match; simpl; congruence. Qed.
Lemma count_reg f w : count_of f w = measure (λ e, one (f e)) (reg w).
Proof.
  unfold count_of, len. rewrite (count_perm f _ _ (registered_reg w)). unfold measure.
  rewrite map_fold_foldr. induction (map_to_list (reg w)) as [|[k e] l IH]; [done|].
  cbn [fmap list_fmap snd List.filter foldr uncurry]. rewrite <-IH. destruct (f e); cbn [one length]; lia.
Qed.

(** ** The invariant of the registry *)

Section registry.
Context (L : SubscriptionLimits.t).

(** The limits on what is registered. *)
Record within_limits (m : gmap bytes Entry) (reserved : N) : Prop := {
  wl_sum : reserved = measure en_reservation m;
  wl_retained : (reserved ≤ SubscriptionLimits.max_retained_bytes L)%N;
  wl_active : (measure (λ e, one (en_active e)) m ≤ SubscriptionLimits.max_watches L)%N;
  wl_own_active s :
    (measure (λ e, one (own s e && en_active e)) m ≤ SubscriptionLimits.max_watches_per_session L)%N;
  wl_bindings : (measure (λ _, 1) m ≤ SubscriptionLimits.max_bindings L)%N;
  wl_own s : (measure (λ e, one (own s e)) m ≤ SubscriptionLimits.max_bindings_per_session L)%N
}.
Record registry_ok (w : Watches) : Prop := {
  rk_entry k a : rg_entries (ws_table w) !! k = Some a →
    ∃ e, ws_heap w !! a = Some e ∧ sid_watch (en_identity e) = k;
  rk_binding b k : rg_bindings (ws_table w) !! b = Some k ↔ ∃ e, reg w !! k = Some e ∧ binding_of e = b;
  rk_limits : within_limits (reg w) (rg_reserved (ws_table w))
}.

Lemma reg_watch w k e : registry_ok w → reg w !! k = Some e → sid_watch (en_identity e) = k.
Proof.
  intros Hw. rewrite lookup_reg. intros (a & Ha & He)%bind_Some.
  destruct (rk_entry _ Hw k a Ha) as (e' & He' & Hk). congruence.
Qed.
(** A cell is registered under its own watch or not at all. *)
Lemma reg_cell w k a e :
  registry_ok w → ws_heap w !! a = Some e → rg_entries (ws_table w) !! k = Some a → k = sid_watch (en_identity e).
Proof. intros Hw He Ha. destruct (rk_entry _ Hw k a Ha) as (e' & He' & Hk). congruence. Qed.

Lemma reg_bindings w : registry_ok w → size (reg w) = size (rg_entries (ws_table w)).
Proof.
  intros Hw. rewrite <-!size_dom. f_equal. apply set_eq. intros k. rewrite !elem_of_dom, lookup_reg. split.
  - intros (e & (a & -> & _)%bind_Some). eauto.
  - intros [a Ha]. rewrite Ha. destruct (rk_entry _ Hw k a Ha) as (e & He & _). exists e. exact He.
Qed.
(** The same cell with other contents: no other owner, no more active. *)
Record succeeds (e e' : Entry) : Prop := {
  sc_identity : en_identity e' = en_identity e;
  sc_session : en_session e' = en_session e;
  sc_active : en_active e' = true → en_active e = true
}.
Lemma limits_update m k e e' n growth :
  within_limits m n → m !! k = Some e → succeeds e e' → en_reservation e' = (en_reservation e + growth)%N →
  (n + growth ≤ SubscriptionLimits.max_retained_bytes L)%N →
  within_limits (<[k := e']> m) (n + growth).
Proof.
  intros [H1 H2 H3 H4 H5 H6] Hk [Hi Hs Ha] Hr Hg.
  assert (Hle : ∀ f, (f e' ≤ f e)%N → (measure f (<[k := e']> m) ≤ measure f m)%N).
  { intros f Hf. pose proof (measure_update f m k e e' Hk). lia. }
  assert (Hone : (one (en_active e') ≤ one (en_active e))%N).
  { destruct (en_active e'); [by rewrite Ha|by destruct (en_active e)]. }
  assert (Hown : ∀ s, own s e' = own s e) by (intros s; unfold own; by rewrite Hs).
  split.
  - pose proof (measure_update en_reservation m k e e' Hk). lia.
  - done.
  - etrans; [|exact H3]. by apply Hle.
  - intros s. etrans; [|apply (H4 s)]. apply Hle. rewrite Hown. by destruct (own s e).
  - etrans; [|exact H5]. by apply Hle.
  - intros s. etrans; [|apply (H6 s)]. apply Hle. by rewrite Hown.
Qed.
Lemma limits_delete m k e n :
  within_limits m n → m !! k = Some e → within_limits (delete k m) (n - en_reservation e).
Proof.
  intros [H1 H2 H3 H4 H5 H6] Hk. assert (Hd : ∀ f, measure f m = (f e + measure f (delete k m))%N).
  { intros f. by apply measure_delete. }
  split.
  - rewrite H1, (Hd en_reservation). lia.
  - lia.
  - rewrite Hd in H3. lia.
  - intros s. specialize (H4 s). rewrite Hd in H4. lia.
  - rewrite Hd in H5. lia.
  - intros s. specialize (H6 s). rewrite Hd in H6. lia.
Qed.

(** *** Updates of a cell *)

Lemma reg_set w a e e' n :
  registry_ok w → ws_heap w !! a = Some e → en_identity e' = en_identity e →
  let k := sid_watch (en_identity e) in
  reg (mkWatches (mkRegistry (rg_entries (ws_table w)) (rg_bindings (ws_table w)) n) (<[a := e']> (ws_heap w)))
  = if decide (rg_entries (ws_table w) !! k = Some a) then <[k := e']> (reg w) else reg w.
Proof.
  intros Hw He Hi k. apply map_eq. intros j. rewrite lookup_reg. cbn [ws_table rg_entries ws_heap].
  destruct (rg_entries (ws_table w) !! j) as [a'|] eqn:Hj; cbn [mbind option_bind].
  - destruct (decide (a' = a)) as [->|Hne].
    + pose proof (reg_cell w j a e Hw He Hj) as ->. rewrite decide_True by done. by rewrite !lookup_insert_eq.
    + rewrite lookup_insert_ne by done. case_decide as Hd.
      * rewrite lookup_insert_ne by (intros <-; congruence). by rewrite lookup_reg, Hj.
      * by rewrite lookup_reg, Hj.
  - case_decide; [rewrite lookup_insert_ne by (intros <-; congruence)|]; by rewrite lookup_reg, Hj.
Qed.

(** A cell gets other contents. *)
Lemma update_ok w a e e' growth :
  registry_ok w → ws_heap w !! a = Some e → succeeds e e' →
  en_reservation e' = (en_reservation e + growth)%N →
  (growth = 0%N ∨ rg_entries (ws_table w) !! sid_watch (en_identity e) = Some a) →
  (rg_reserved (ws_table w) + growth ≤ SubscriptionLimits.max_retained_bytes L)%N →
  registry_ok (mkWatches (mkRegistry (rg_entries (ws_table w)) (rg_bindings (ws_table w))
                 (rg_reserved (ws_table w) + growth)) (<[a := e']> (ws_heap w))).
Proof.
  intros Hw He Hs Hr Hg Hle. pose proof (reg_set w a e e' (rg_reserved (ws_table w) + growth) Hw He
    (sc_identity _ _ Hs)) as Hreg. cbv zeta in Hreg. set (w' := mkWatches _ _) in *.
  assert (Hb : binding_of e' = binding_of e).
  { unfold binding_of. by rewrite (sc_identity _ _ Hs), (sc_session _ _ Hs). }
  split.
  - intros k a' Ha'. cbn [w' ws_table ws_heap rg_entries] in *. destruct (rk_entry _ Hw k a' Ha') as (x & Hx & Hk).
    destruct (decide (a' = a)) as [->|Hne].
    + exists e'. rewrite lookup_insert_eq, (sc_identity _ _ Hs). split; [done|]. congruence.
    + exists x. by rewrite lookup_insert_ne.
  - intros b k. cbn [w' ws_table rg_bindings]. rewrite (rk_binding _ Hw), Hreg. case_decide as Hd; [|done].
    assert (Hk : reg w !! sid_watch (en_identity e) = Some e) by by rewrite lookup_reg, Hd.
    destruct (decide (k = sid_watch (en_identity e))) as [->|Hne].
    + rewrite lookup_insert_eq, Hk. split; intros (x & [= <-] & <-); eauto.
    + by rewrite lookup_insert_ne.
  - rewrite Hreg. cbn [w' ws_table rg_reserved]. case_decide as Hd.
    + eapply limits_update; [apply (rk_limits _ Hw)| |done|done|done]. by rewrite lookup_reg, Hd.
    + destruct Hg as [->|]; [|done]. rewrite N.add_0_r. apply (rk_limits _ Hw).
Qed.
Lemma set_entry_ok w a e e' :
  registry_ok w → ws_heap w !! a = Some e → succeeds e e' → en_reservation e' = en_reservation e →
  registry_ok (set_entry a e' w).
Proof.
  intros Hw He Hs Hr. pose proof (update_ok w a e e' 0 Hw He Hs) as H. rewrite !N.add_0_r in H.
  specialize (H Hr (or_introl eq_refl) (wl_retained _ _ (rk_limits _ Hw))). unfold set_entry. by destruct (ws_table w).
Qed.

(** *** Removals *)

Lemma unbind_ok w k e : registry_ok w → reg w !! k = Some e → registry_ok (mkWatches (unbind w k e) (ws_heap w)).
Proof.
  intros Hw He. assert (Hreg : reg (mkWatches (unbind w k e) (ws_heap w)) = delete k (reg w)).
  { apply map_eq. intros j. rewrite lookup_reg. cbn [unbind ws_table rg_entries ws_heap].
    destruct (decide (j = k)) as [->|Hne]; [by rewrite !lookup_delete_eq|].
    by rewrite !lookup_delete_ne, lookup_reg. }
  split.
  - intros j a. cbn [unbind ws_table rg_entries ws_heap]. intros [_ Ha]%lookup_delete_Some. by apply (rk_entry _ Hw).
  - intros b j. rewrite Hreg. cbn [unbind ws_table rg_bindings].
    rewrite lookup_delete_Some, (rk_binding _ Hw). split.
    + intros [Hne (x & Hx & <-)]. exists x. rewrite lookup_delete_ne; [done|]. intros <-. congruence.
    + intros (x & [Hne Hx]%lookup_delete_Some & <-). split; [|eauto]. intros E. apply Hne.
      assert (H1 : rg_bindings (ws_table w) !! binding_of x = Some j) by (apply (rk_binding _ Hw); eauto).
      assert (H2 : rg_bindings (ws_table w) !! binding_of e = Some k) by (apply (rk_binding _ Hw); eauto).
      congruence.
  - rewrite Hreg. cbn [unbind ws_table rg_reserved]. by apply limits_delete; [apply (rk_limits _ Hw)|].
Qed.
Lemma remove_ok w a : registry_ok w → registry_ok (remove a w).
Proof.
  intros Hw. unfold remove. destruct (ws_heap w !! a) as [e|] eqn:He; [|done]. case_bool_decide as Hk; [|done].
  apply unbind_ok; [done|]. by rewrite lookup_reg, Hk.
Qed.
Lemma shutdown_ok w : registry_ok (shutdown w).
Proof.
  assert (Hreg : reg (shutdown w) = ∅) by (unfold reg; cbn; apply omap_empty). split.
  - intros k a. cbn. by rewrite lookup_empty.
  - intros b k. rewrite Hreg. cbn. rewrite lookup_empty. split; [done|]. by intros (e & ? & _).
  - rewrite Hreg. cbn [shutdown ws_table no_registry rg_reserved].
    split; intros; unfold measure; rewrite ?map_fold_empty; done || lia.
Qed.
End registry.

(** ** Cells move forward *)

(** Later contents of a cell: its owner is the same, and a revision names one
    record, but for the last revision there is. *)
Record evolves (e e' : Entry) : Prop := {
  ev_identity : en_identity e' = en_identity e;
  ev_session : en_session e' = en_session e;
  ev_canonical : en_canonical e' = en_canonical e;
  ev_legacy : en_legacy e' = en_legacy e;
  ev_typed : en_typed_watch e' = en_typed_watch e;
  ev_revision : (wr_revision (en_state e) ≤ wr_revision (en_state e'))%N;
  ev_record : wr_revision (en_state e') = wr_revision (en_state e) →
    en_state e' = en_state e ∨ wr_revision (en_state e) = u64_max
}.
#[export] Instance evolves_refl : Reflexive evolves.
Proof. intros e. split; try done. by left. Qed.
#[export] Instance evolves_trans : Transitive evolves.
Proof.
  intros a b c [H1 H2 H3 H4 H5 H6 H7] [K1 K2 K3 K4 K5 K6 K7]. split; try congruence; [lia|].
  intros E. destruct (H7 ltac:(lia)) as [Ha|]; [|by right]. destruct (K7 ltac:(lia)) as [Hb|Hb]; [|right; lia].
  left. congruence.
Qed.
Definition follows (w w' : Watches) : Prop :=
  ∀ a e, ws_heap w !! a = Some e → ∃ e', ws_heap w' !! a = Some e' ∧ evolves e e'.
#[export] Instance follows_refl : Reflexive follows.
Proof. intros w a e He. by exists e. Qed.
#[export] Instance follows_trans : Transitive follows.
Proof.
  intros w1 w2 w3 H12 H23 a e He. destruct (H12 a e He) as (e' & He' & Hev).
  destruct (H23 a e' He') as (e'' & He'' & Hev'). exists e''. split; [done|]. by etrans.
Qed.
Lemma follows_set w a e e' t :
  ws_heap w !! a = Some e → evolves e e' → follows w (mkWatches t (<[a := e']> (ws_heap w))).
Proof.
  intros He Hev x y Hy. destruct (decide (x = a)) as [->|Hne].
  - exists e'. cbn [ws_heap]. rewrite lookup_insert_eq. split; [done|]. congruence.
  - exists y. cbn [ws_heap]. by rewrite lookup_insert_ne.
Qed.
Lemma evolves_next e n st active reservation :
  n = (wr_revision (en_state e) + 1)%N → evolves e (set_state (mkWatchRecord n st) active reservation e).
Proof. intros ->. split; try done; cbn; [lia|]. intros E. lia. Qed.
Lemma remove_heap a w : ws_heap (remove a w) = ws_heap w.
Proof. unfold remove. repeat case_match; done. Qed.

(** What a watch is doing. *)
Definition is_open (s : Status) : bool :=
  match s with StPreparing | StLive _ | StWatch _ => true | _ => false end.

(** ** Maintenance *)

Section maintenance.
Context (L : SubscriptionLimits.t).

Lemma maintain_entry_spec v e :
  (wr_revision (en_state e) ≤ u64_max)%N →
  let e' := (maintain_entry v e).1 in
  succeeds e e' ∧ evolves e e' ∧ en_reservation e' = en_reservation e ∧
  (e' = e ∨ en_active e' = false ∧ en_state e' =
     mkWatchRecord (saturating_add (wr_revision (en_state e)) 1) (StResync SYLeaseExpired)).
Proof.
  intros Hle. unfold maintain_entry. destruct (SubSession.reason _ _ _); [by split_and!; try left|].
  destruct (vs_locked v); [by split_and!; try left|]. cbn [fst].
  destruct (lease_until _) as [until|]; [|by split_and!; try left].
  destruct (until <=? _)%N; [|by split_and!; try left].
  split; [by split|]. split; [|split; [done|by right]]. split; try done; cbn; unfold saturating_add, usize_max, u64_max in *; [lia|].
  intros E. right. lia.
Qed.
Lemma maintain_at_ok visit w k a e :
  registry_ok L w → ws_heap w !! a = Some e → rg_entries (ws_table w) !! k = Some a →
  (wr_revision (en_state e) ≤ u64_max)%N → registry_ok L (maintain_at visit w (k, a)).
Proof.
  intros Hw He Hk Hle. unfold maintain_at. cbn [fst snd]. rewrite He.
  destruct (maintain_entry_spec (visit a) e Hle) as (Hs & _ & Hr & _).
  destruct (maintain_entry _ e) as [e' gone]. cbn [fst] in *.
  pose proof (set_entry_ok L w a e e' Hw He Hs Hr) as Hw'. destruct gone; [|exact Hw'].
  apply (unbind_ok L (set_entry a e' w)); [done|]. rewrite lookup_reg. cbn. rewrite Hk. cbn. by rewrite lookup_insert_eq.
Qed.
Lemma maintain_at_heap visit w k a x :
  ws_heap (maintain_at visit w (k, a)) !! x
  = if decide (x = a) then (λ e, (maintain_entry (visit a) e).1) <$> ws_heap w !! a else ws_heap w !! x.
Proof.
  unfold maintain_at. cbn [fst snd]. destruct (ws_heap w !! a) as [e|] eqn:He; [|case_decide; [subst; by rewrite He|done]].
  cbn [fmap option_fmap option_map]. destruct (maintain_entry _ e) as [e' gone]. assert (ws_heap (if gone then mkWatches (unbind
    (mkWatches (ws_table w) (<[a:=e']> (ws_heap w))) k e') (<[a:=e']> (ws_heap w)) else
    mkWatches (ws_table w) (<[a:=e']> (ws_heap w))) = <[a:=e']> (ws_heap w)) as Hh by by destruct gone.
  cbn [ws_heap] in *. rewrite Hh. case_decide as Hx; [subst; by rewrite lookup_insert_eq|by rewrite lookup_insert_ne].
Qed.
Lemma maintain_at_entries visit w k a j :
  j ≠ k → rg_entries (ws_table (maintain_at visit w (k, a))) !! j = rg_entries (ws_table w) !! j.
Proof.
  intros Hj. unfold maintain_at. cbn [fst snd]. destruct (ws_heap w !! a); [|done].
  destruct (maintain_entry _ _) as [e' []]; [|done]. cbn. by rewrite lookup_delete_ne.
Qed.

(** Whatever holds of every cell, bounds its revision and survives the end of
    a lease survives the maintenance. *)
Context (P : N → Entry → Prop).
Hypothesis P_revision : ∀ a e, P a e → (wr_revision (en_state e) ≤ u64_max)%N.
Hypothesis P_maintain : ∀ a v e, P a e → P a (maintain_entry v e).1.
Definition cells (w : Watches) : Prop := ∀ a e, ws_heap w !! a = Some e → P a e.

Lemma maintain_at_cells visit w s : cells w → cells (maintain_at visit w s) ∧ follows w (maintain_at visit w s).
Proof.
  intros Hc. destruct s as [k a]. split.
  - intros x e. rewrite maintain_at_heap. case_decide as Hx; [|apply Hc]. subst x.
    intros (e0 & He0 & ->)%fmap_Some. by apply P_maintain, Hc.
  - intros x e He. rewrite maintain_at_heap. case_decide as Hx; [subst x|by exists e]. rewrite He.
    eexists. split; [done|]. apply maintain_entry_spec. by eapply P_revision, Hc.
Qed.
Lemma maintain_fold_ok visit l w :
  NoDup l.*1 → (∀ k a, (k, a) ∈ l → rg_entries (ws_table w) !! k = Some a) →
  registry_ok L w → cells w →
  let w' := foldl (maintain_at visit) w l in registry_ok L w' ∧ cells w' ∧ follows w w'.
Proof.
  revert w. induction l as [|[k a] l IH]; intros w Hnd Hin Hw Hc; [by split_and!|].
  cbn [fmap list_fmap fst] in Hnd. apply NoDup_cons in Hnd as [Hk Hnd]. cbn [foldl].
  destruct (maintain_at_cells visit w (k, a) Hc) as [Hc' Hf].
  assert (Hw' : registry_ok L (maintain_at visit w (k, a))).
  { assert (Ha : rg_entries (ws_table w) !! k = Some a) by (apply Hin; left).
    destruct (rk_entry _ _ Hw k a Ha) as (e & He & _). eapply maintain_at_ok; eauto. }
  destruct (IH (maintain_at visit w (k, a)) Hnd) as (H1 & H2 & H3); [|done|done|].
  - intros j x Hj. rewrite maintain_at_entries; [apply Hin; by right|]. intros ->. apply Hk.
    apply list_elem_of_fmap. by exists (k, x).
  - split; [done|]. split; [done|]. by etrans.
Qed.
Lemma maintain_ok busy visit w :
  registry_ok L w → cells w →
  let w' := maintain busy visit w in registry_ok L w' ∧ cells w' ∧ follows w w'.
Proof.
  intros Hw Hc. unfold maintain. destruct busy; [by split_and!|].
  apply maintain_fold_ok; try done; [apply NoDup_fst_map_to_list|].
  intros k a. by rewrite elem_of_map_to_list.
Qed.
End maintenance.

(** ** Actions *)

Section actions.
Context {HO : HashOrder} {RB : Roaring} {CM : CacheMap} {ON : Ontology} {CA : Catalog} {AM : Ambient}.
Context {CH : Chrono} {B6 : Base64} {SJ : SerdeJson}.
Context (service : Subscription.t).

(** What an action did to the watches: nothing, or it ended the watch it
    found at its revision, or it published at its revision. *)
Inductive acted (sc : ActScene) (addr : N) (session : Session) (w : Watches) :
    Intent → Watches → option (SubscriptionOutcome * bool) → Prop :=
| acted_nothing i a : (∀ o, a ≠ Some (o, true)) → acted sc addr session w i w a
| acted_terminal e reason :
    ws_heap w !! addr = Some e → (wr_revision (en_state e) + 1 ≤ u64_max)%N →
    acted sc addr session w (ITerminal (wr_revision (en_state e)) reason)
      (set_entry addr (set_state (mkWatchRecord (wr_revision (en_state e) + 1) (StResync reason)) false
         (en_reservation e) e) w)
      (Some (SResync reason, false))
| acted_publish e observed next o :
    let growth := (required e next - en_reservation e)%N in
    let t := ws_table w in
    ws_heap w !! addr = Some e →
    rg_entries t !! sid_watch (en_identity e) = Some addr →
    ac_graph sc = Some observed →
    halted (ac_sight sc) session = None →
    (match lease_until (wr_status (en_state e)) with Some until => ac_lease_now sc < until | None => True end)%N →
    (growth ≤ SubscriptionLimits.max_retained_bytes (limits service) - rg_reserved t)%N →
    acted sc addr session w (IPublish (wr_revision (en_state e)) observed next o)
      (mkWatches (mkRegistry (rg_entries t) (rg_bindings t) (rg_reserved t + growth))
         (<[addr := set_state (published sc session next) (is_live (wr_status (published sc session next)))
                      (en_reservation e + growth) e]> (ws_heap w)))
      (Some (o, true)).

Lemma act_acted sc addr session i w b w' a b' :
  act service sc addr session i w b = Some (Ok (w', a), b') → acted sc addr session w i w' a.
Proof.
  intros H. destruct i as [o|revision reason|revision observed next o]; cbn [act] in H.
  - injection H as <- <- _. apply acted_nothing. congruence.
  - r_step H r b1 E. injection H as <- <- _. unfold terminal in E. r_step E u b2 E2.
    destruct (ws_heap w !! addr) as [e|] eqn:He; [|done].
    destruct (N.eqb_spec (wr_revision (en_state e)) revision) as [<-|]; cbn [negb] in E.
    + unfold checked_add in E. case_decide as Hle; [|done]. injection E as <- _. by apply acted_terminal.
    + injection E as <- _. by apply acted_nothing.
  - r_step H r b1 E. injection H as <- <- _. unfold publish in E.
    destruct (ac_graph sc) as [st|] eqn:Hg; [|injection E as <- _; by apply acted_nothing].
    case_bool_decide as Hst; cbn [negb] in E; [subst st|injection E as <- _; by apply acted_nothing].
    destruct (ac_registry_busy sc); [injection E as <- _; by apply acted_nothing|].
    destruct (ws_heap w !! addr) as [e|] eqn:He; [|done].
    case_bool_decide as Hk; cbn [negb] in E; [|injection E as <- _; by apply acted_nothing].
    destruct (ac_record_busy sc); [injection E as <- _; by apply acted_nothing|].
    destruct (N.eqb_spec (wr_revision (en_state e)) revision) as [<-|]; cbn [negb] in E;
      [|injection E as <- _; by apply acted_nothing].
    r_step E u b2 E2. destruct (halted _ _) eqn:Hh; [injection E as <- _; by apply acted_nothing|].
    destruct (match lease_until _ with Some _ => _ | None => _ end) eqn:Hl;
      [injection E as <- _; by apply acted_nothing|].
    destruct (_ <? _)%N eqn:Hgr; [injection E as <- _; by apply acted_nothing|]. injection E as <- _.
    apply N.ltb_ge in Hgr. apply acted_publish; try done. destruct (lease_until _); [|done]. by apply N.leb_gt.
Qed.
End actions.

(** ** Rounds *)

Section rounds.
Context {HO : HashOrder} {HL : HashOrderLaws} {RB : Roaring} {RL : RoaringLaws}.
Context {CM : CacheMap} {CML : CacheLaws} {ON : Ontology} {CA : Catalog} {FS : FilterSyntax} {AM : Ambient}.
Context {CH : Chrono} {CL : ChronoLaws} {B6 : Base64} {BL : Base64Laws} {SJ : SerdeJson} {SL : SerdeJsonLaws}.
Context (service : Subscription.t).

(** What a round that will publish has done: it captured the ids of its
    record, or those the request asks for, and prepared the next record. *)
Record proposed (sc : LookScene) (request : SubscriptionRequest) (e : Entry) (revision : N)
    (observed : GraphState) (next : WatchRecord) (o : SubscriptionOutcome) : Prop := {
  pp_revision : revision = wr_revision (en_state e);
  pp_prepared : ∃ p ids c b b',
    lk_policy sc = Ok p ∧ captured (lk_graph sc) p ids c ∧ observed = cp_graph c ∧
    prepare service sc (en_identity e) ids c request (en_state e) b = Some (Ok (next, o), b') ∧
    match wr_status (en_state e) with
    | StPreparing => ∃ create, request = SCreate create ∧ ids = normalize_ids (sc_ids create)
    | StLive l => round_ids service request (Some l) = Some (inr ids)
    | _ => False
    end
}.
Lemma propose_intent sc request e live ids b i b' :
  (wr_status (en_state e) = match live with Some l => StLive l | None => StPreparing end) →
  round_ids service request live = Some (inr ids) →
  propose service sc request (en_identity e) (en_state e) live ids b = Some (Ok i, b') →
  match i with
  | IAnswer o => ∃ reason, o = SRejected reason
  | ITerminal revision _ => revision = wr_revision (en_state e)
  | IPublish revision observed next o => proposed sc request e revision observed next o
  end.
Proof.
  intros Hst Hids H. unfold propose in H.
  assert (Hgive : ∀ err b, overrun (bool_decide (is_Some live)) (wr_revision (en_state e)) err b = Some (Ok i, b') →
    i = ITerminal (wr_revision (en_state e)) SYOverflow).
  { intros err b0. unfold overrun. destruct (_ && _); [|done]. intros E. by injection E as <- _. }
  destruct (capture service sc ids live b) as [[c|[err|reason]] b1] eqn:Hc.
  - destruct (prepare service sc _ ids c request _ b1) as [[[[next o]|err] b2]|] eqn:Hp; [| |done].
    + destruct (lk_recheck sc) as [p'|]; [|done]. destruct (_ || _); injection H as <- _; [done|].
      apply capture_Ok in Hc as (p & Hpol & Hcap). split; [done|]. exists p, ids, c, b1, b2.
      split_and!; try done. rewrite Hst. destruct live as [l|]; [done|].
      destruct request; try done. injection Hids as <-. eauto.
    + destruct (_ && _); [injection H as <- _; eauto|]. by apply Hgive in H as ->.
  - by apply Hgive in H as ->.
  - destruct (bool_decide _); injection H as <- _; [done|eauto].
Qed.
Lemma look_intent sc session request reserved e b i b' :
  look service sc session request reserved e b = Some (Ok i, b') →
  match i with
  | IAnswer o => (∃ reason, o = SRejected reason) ∨ (∃ reason, o = SResync reason) ∨ o = SClosed (en_identity e)
  | ITerminal revision _ => revision = wr_revision (en_state e)
  | IPublish revision observed next o => proposed sc request e revision observed next o
  end.
Proof.
  intros H. unfold look in H. destruct (halted _ _) as [reason|]; [injection H as <- _; eauto|].
  r_step H u b1 E1.
  assert (Hgo : ∀ live, wr_status (en_state e) = match live with Some l => StLive l | None => StPreparing end →
    match charge BWork 1 b1 with
    | (Err err, b) => overrun (bool_decide (is_Some live)) (wr_revision (en_state e)) err b
    | (Ok _, b) =>
        if lease_over live (lk_lease_now sc)
        then Some (Ok (ITerminal (wr_revision (en_state e)) SYLeaseExpired), b)
        else match round_ids service request live with
        | None => None
        | Some (inl o) => Some (Ok (IAnswer o), b)
        | Some (inr ids) => propose service sc request (en_identity e) (en_state e) live ids b
        end
    end = Some (Ok i, b') →
    match i with
    | IAnswer o => ∃ reason, o = SRejected reason
    | ITerminal revision _ => revision = wr_revision (en_state e)
    | IPublish revision observed next o => proposed sc request e revision observed next o
    end).
  { intros live Hst. destruct (charge BWork 1 b1) as [[[]|err] b2].
    - destruct (lease_over live (lk_lease_now sc)); [intros E; by injection E as <- _|].
      destruct (round_ids service request live) as [[o|ids]|] eqn:Hids; [| |done].
      + intros E. injection E as <- _. unfold round_ids in Hids. destruct request, live; try done.
        repeat case_match; simplify_eq; eauto.
      + by apply propose_intent.
    - unfold overrun. destruct (_ && _); [|done]. intros E. by injection E as <- _. }
  destruct (wr_status (en_state e)) as [|l|wl| |reason] eqn:Hst.
  - destruct reserved; [|injection H as <- _; eauto]. specialize (Hgo None eq_refl H).
    destruct i; [left|..]; done.
  - specialize (Hgo (Some l) eq_refl H). destruct i; [left|..]; done.
  - done.
  - injection H as <- _. eauto.
  - injection H as <- _. eauto.
Qed.

(** The next record has the next revision and is of the state kind. *)
Lemma prepare_next sc identity ids c request record b next o b' :
  prepare service sc identity ids c request record b = Some (Ok (next, o), b') →
  wr_revision next = (wr_revision record + 1)%N ∧ ((∃ l, wr_status next = StLive l) ∨ wr_status next = StClosed).
Proof.
  unfold prepare, checked_add. case_decide as Hle; [|done]. intros H.
  assert (Hkeep : ∀ (m : B (Live * SubscriptionOutcome)) n,
    (r ← lift m; mret (mkWatchRecord n (StLive r.1), r.2)) b = Some (Ok (next, o), b') →
    wr_revision next = n ∧ ((∃ l, wr_status next = StLive l) ∨ wr_status next = StClosed)).
  { intros m n Hb. r_step Hb r b1 E. injection Hb as <- _ _. eauto. }
  destruct (wr_status record), request; try done; try (by eapply Hkeep). injection H as <- _ _. eauto.
Qed.
Lemma prepare_published sc identity ids c request record b next o b' asc session :
  prepare service sc identity ids c request record b = Some (Ok (next, o), b') →
  published asc session next = next ∧ is_live (wr_status next) = is_open (wr_status next).
Proof. intros [_ Hk]%prepare_next. unfold published. by destruct Hk as [[l ->]| ->]. Qed.

(** ** Creations *)

Abbreviation L := (limits service).

Lemma own_other s t e : ss_addr s ≠ ss_addr t → en_session e = t → own s e = false.
Proof. intros Hne <-. unfold own, SubSession.same. apply N.eqb_neq. congruence. Qed.
Lemma limits_insert m k e n :
  within_limits L m n → m !! k = None → en_active e = true →
  (n + en_reservation e ≤ SubscriptionLimits.max_retained_bytes L)%N →
  (measure (λ e, one (en_active e)) m < SubscriptionLimits.max_watches L)%N →
  (measure (λ x, one (own (en_session e) x && en_active x)) m < SubscriptionLimits.max_watches_per_session L)%N →
  (measure (λ _, 1) m < SubscriptionLimits.max_bindings L)%N →
  (measure (λ x, one (own (en_session e) x)) m < SubscriptionLimits.max_bindings_per_session L)%N →
  within_limits L (<[k := e]> m) (n + en_reservation e).
Proof.
  intros [H1 H2 H3 H4 H5 H6] Hk Ha Hr G1 G2 G3 G4.
  assert (Hsame : ∀ s, own s e = true → ∀ x, own s x = own (en_session e) x).
  { intros s. unfold own, SubSession.same. intros E%N.eqb_eq x. by rewrite E. }
  split; intros; rewrite ?measure_insert by done.
  - lia.
  - done.
  - rewrite Ha. cbn [one]. lia.
  - destruct (own s e) eqn:Ho; cbn [one andb]; [|apply H4]. rewrite Ha. cbn [one].
    assert (measure (λ x, one (own s x && en_active x)) m
      = measure (λ x, one (own (en_session e) x && en_active x)) m) as ->; [|lia].
    apply (anti_symm (≤)%N); apply measure_le; intros x; by rewrite (Hsame s Ho x).
  - lia.
  - destruct (own s e) eqn:Ho; cbn [one]; [|apply H6].
    assert (measure (λ x, one (own s x)) m = measure (λ x, one (own (en_session e) x)) m) as ->; [|lia].
    apply (anti_symm (≤)%N); apply measure_le; intros x; by rewrite (Hsame s Ho x).
Qed.

(** A new watch: a free cell with a first record that is registered. *)
Record created (sc : LocateScene) (session : Session) (key : string) (w : Watches) (e : Entry) (w' : Watches)
    : Prop := {
  cr_identity : en_identity e = mkSubscriptionId (authority service) (lc_watch sc) key;
  cr_session : en_session e = session;
  cr_state : en_state e = mkWatchRecord 0 StPreparing;
  cr_active : en_active e = true;
  cr_heap : ws_heap w' = <[lc_addr sc := e]> (ws_heap w)
}.
Lemma find_or_reserve_created sc principal session create legacy connection canonical w b addr w' b' :
  find_or_reserve service sc principal session create legacy connection canonical w b
    = Some (Ok (inr (addr, Some w')), b') →
  ws_heap w !! lc_addr sc = None → rg_entries (ws_table w) !! lc_watch sc = None → registry_ok L w →
  addr = lc_addr sc ∧ registry_ok L w' ∧ ∃ e, created sc session (sc_key create) w e w'.
Proof.
  intros H Ha Hk Hw. unfold find_or_reserve in H.
  destruct (rg_bindings _ !! _) as [watch|] eqn:Hb.
  { destruct (_ ≫= _) as [[a e]|]; [|done]. destruct (_ || _); injection H as H; congruence. }
  r_step H u b1 E1. set (reserve := saturating_add _ _) in H.
  destruct (over_capacity service session reserve w) eqn:Hcap; [injection H as H; congruence|].
  set (e := mkEntry _ _ _ _ _ _ _ _ _ _) in H. injection H as <- <- _. split; [done|].
  split; [|by exists e]. set (w' := mkWatches _ _).
  assert (Hnone : reg w !! lc_watch sc = None) by by rewrite lookup_reg, Hk.
  assert (Hreg : reg w' = <[lc_watch sc := e]> (reg w)).
  { apply map_eq. intros j. rewrite lookup_reg. cbn [w' ws_table rg_entries ws_heap].
    destruct (decide (j = lc_watch sc)) as [->|Hne].
    - rewrite !lookup_insert_eq. cbn. by rewrite lookup_insert_eq.
    - rewrite !lookup_insert_ne by done. rewrite lookup_reg.
      destruct (rg_entries (ws_table w) !! j) as [x|] eqn:Hx; [|done]. cbn.
      destruct (rk_entry _ _ Hw j x Hx) as (y & Hy & _). rewrite lookup_insert_ne; [done|]. congruence. }
  split.
  - intros j x. cbn [w' ws_table rg_entries ws_heap]. intros [[<- <-]|[Hne Hx]]%lookup_insert_Some.
    + exists e. by rewrite lookup_insert_eq.
    + destruct (rk_entry _ _ Hw j x Hx) as (y & Hy & Hj). exists y. rewrite lookup_insert_ne; [done|]. congruence.
  - intros bd j. rewrite Hreg. cbn [w' ws_table rg_bindings]. rewrite lookup_insert_Some. split.
    + intros [[<- <-]|[Hne (x & Hx & <-)%(rk_binding _ _ Hw)]].
      * exists e. by rewrite lookup_insert_eq.
      * exists x. rewrite lookup_insert_ne; [done|]. congruence.
    + intros (x & [[<- <-]|[Hne Hx]]%lookup_insert_Some & <-); [by left|]. right. split.
      * intros E. assert (rg_bindings (ws_table w) !! binding_of x = Some j) by (apply (rk_binding _ _ Hw); eauto).
        rewrite <-E in *. congruence.
      * apply (rk_binding _ _ Hw). eauto.
  - rewrite Hreg. cbn [w' ws_table rg_reserved]. unfold over_capacity in Hcap.
    rewrite !orb_false_iff, !N.leb_gt, N.ltb_ge, !count_reg in Hcap. destruct Hcap as [[[[C1 C2] C3] C4] C5].
    pose proof (rk_limits _ _ Hw) as Hlim. apply limits_insert; try done.
    + pose proof (wl_retained _ _ _ Hlim). cbn [e en_reservation]. lia.
    + pose proof (reg_size w). lia.
Qed.

(** ** Runs *)

(** The graphs and policies that are observed: graphs the store can be in,
    holding values the Rust types admit. *)
Context (world : EntityGraph.t → PolicySnapshot → Prop).
Hypothesis Hworld : ∀ g p, world g p → GraphInv.inv g ∧ typed_graph g.

(** The watches, their earlier states, and the clients of the cells. *)
Record Sys : Type := mkSys { sy_now : Watches; sy_past : list Watches; sy_clients : gmap N Client }.
Definition states (s : Sys) : list Watches := sy_now s :: sy_past s.
Definition advance (w : Watches) (s : Sys) : Sys := mkSys w (states s) (sy_clients s).
Definition hear (addr : N) (a : option (SubscriptionOutcome * bool)) (m : gmap N Client) : gmap N Client :=
  match a with Some (o, true) => alter (λ c, receive c o) addr m | _ => m end.

Inductive step (s : Sys) : Sys → Prop :=
| step_create sc principal session create legacy connection b addr w b' :
    locate_create service sc principal session create legacy connection (sy_now s) b
      = Some (Ok (inr (addr, Some w)), b') →
    ws_heap (sy_now s) !! lc_addr sc = None →
    rg_entries (ws_table (sy_now s)) !! lc_watch sc = None →
    step s (mkSys w (states s) (<[addr := new_client]> (sy_clients s)))
| step_round r addr session request reserved e b i b1 w a b2 :
    ro_seen r ∈ states s → ro_met r = sy_now s →
    ws_heap (ro_seen r) !! addr = Some e →
    (∀ p, lk_policy (ro_look r) = Ok p → world (lk_graph (ro_look r)) p) →
    (∀ l, wr_status (en_state e) = StLive l → fresh_token (ro_look r) l) →
    look service (ro_look r) session request reserved e b = Some (Ok i, b1) →
    act service (ro_act r) addr session i (ro_met r) b1 = Some (Ok (w, a), b2) →
    step s (mkSys w (states s) (hear addr a (sy_clients s)))
| step_maintain busy visit : step s (advance (maintain busy visit (sy_now s)) s)
| step_remove addr : step s (advance (remove addr (sy_now s)) s)
| step_shutdown : step s (advance (shutdown (sy_now s)) s).
Definition init : Sys := mkSys (mkWatches no_registry ∅) [] ∅.

(** A cell and its client. *)
Record entry_ok (e : Entry) (c : Client) : Prop := {
  eo_status : status_ok world (en_identity e) (wr_status (en_state e)) c;
  eo_revision : (wr_revision (en_state e) ≤ u64_max)%N;
  eo_active : en_active e = is_open (wr_status (en_state e));
  eo_authority : sid_authority (en_identity e) = authority service
}.
Definition cell_ok (m : gmap N Client) (a : N) (e : Entry) : Prop := ∃ c, m !! a = Some c ∧ entry_ok e c.
Record sys_ok (s : Sys) : Prop := {
  so_registry : registry_ok L (sy_now s);
  so_past w : w ∈ sy_past s → follows w (sy_now s);
  so_cells a e : ws_heap (sy_now s) !! a = Some e → cell_ok (sy_clients s) a e;
  so_before w a e : w ∈ sy_past s → ws_heap w !! a = Some e → ∃ c, entry_ok e c;
  so_tables w : w ∈ sy_past s → registry_ok L w
}.
Lemma so_states s w : sys_ok s → w ∈ states s → follows w (sy_now s).
Proof. intros Hs [->|Hw]%elem_of_cons; [done|by apply (so_past _ Hs)]. Qed.

Lemma so_entries s w a e : sys_ok s → w ∈ states s → ws_heap w !! a = Some e → ∃ c, entry_ok e c.
Proof.
  intros Hs [->|Hw]%elem_of_cons He; [|by eapply so_before].
  destruct (so_cells _ Hs _ _ He) as (c & _ & Hc). eauto.
Qed.
Lemma so_registries s w : sys_ok s → w ∈ states s → registry_ok L w.
Proof. intros Hs [->|Hw]%elem_of_cons; [apply (so_registry _ Hs)|by eapply so_tables]. Qed.

Lemma init_ok : sys_ok init.
Proof.
  split; [apply (shutdown_ok L (mkWatches no_registry ∅))|by intros w ?%elem_of_nil| | |by intros w ?%elem_of_nil].
  - intros a e. cbn. by rewrite lookup_empty.
  - by intros w a e ?%elem_of_nil.
Qed.

(** A step to a state that follows the last keeps the past in order. *)
Lemma next_ok s w m :
  sys_ok s → registry_ok L w → follows (sy_now s) w → (∀ a e, ws_heap w !! a = Some e → cell_ok m a e) →
  sys_ok (mkSys w (states s) m).
Proof.
  intros Hs Hw Hf Hc. split; [done| |done| |].
  - intros w0 Hw0. etrans; [by eapply so_states|done].
  - intros w0 a e. by apply so_entries.
  - intros w0. by apply so_registries.
Qed.
Lemma same_cells_ok s w :
  sys_ok s → registry_ok L w → ws_heap w = ws_heap (sy_now s) → sys_ok (advance w s).
Proof.
  intros Hs Hw Hh. apply next_ok; [done|done| |].
  - intros a e He. exists e. by rewrite Hh.
  - intros a e. rewrite Hh. apply (so_cells _ Hs).
Qed.
Lemma maintained_cell m a v e : cell_ok m a e → cell_ok m a (maintain_entry v e).1.
Proof.
  intros (c & Hc & He). exists c. split; [done|].
  destruct (maintain_entry_spec v e (eo_revision _ _ He)) as (Hs & _ & _ & [->|[Ha Hst]]); [done|].
  split; rewrite ?Hst, ?Ha, ?(sc_identity _ _ Hs); cbn; [done| |done|apply (eo_authority _ _ He)]. unfold saturating_add, usize_max, u64_max. lia.
Qed.

(** A published record is prepared from the very record it replaces. *)
Lemma publish_serial s sc addr e e0 revision observed next o request w :
  sys_ok s → w ∈ states s → ws_heap w !! addr = Some e → ws_heap (sy_now s) !! addr = Some e0 →
  proposed sc request e revision observed next o → wr_revision (en_state e0) = revision →
  evolves e e0 ∧ en_state e0 = en_state e.
Proof.
  intros Hs Hw He He0 [Hr (p & ids & c & b & b' & _ & _ & _ & Hp & _)] Hrev.
  destruct (so_states _ _ Hs Hw addr e He) as (e' & He' & Hev).
  assert (e' = e0) as -> by congruence. split; [done|].
  destruct (ev_record _ _ Hev) as [|Hmax]; [congruence|done|].
  unfold prepare, checked_add in Hp. rewrite Hmax in Hp. case_decide as Hle; [|done]. exfalso. revert Hle. by apply N.lt_nge.
Qed.

Lemma act_ok s r addr e0 session request reserved e b i b1 w a b2 :
  sys_ok s → ro_seen r ∈ states s → ro_met r = sy_now s → ws_heap (ro_seen r) !! addr = Some e →
  ws_heap (sy_now s) !! addr = Some e0 →
  (∀ p, lk_policy (ro_look r) = Ok p → world (lk_graph (ro_look r)) p) →
  (∀ l, wr_status (en_state e) = StLive l → fresh_token (ro_look r) l) →
  look service (ro_look r) session request reserved e b = Some (Ok i, b1) →
  act service (ro_act r) addr session i (ro_met r) b1 = Some (Ok (w, a), b2) →
  sys_ok (mkSys w (states s) (hear addr a (sy_clients s))).
Proof.
  intros Hs Hseen Hmet He He0 Hwd Hfr Hl%look_intent Ha%act_acted. rewrite Hmet in Ha.
  destruct (so_cells _ Hs addr e0 He0) as (cl & Hcl & Hok).
  destruct Ha as [i a Hno|e1 reason He1 Hle|e1 observed next o growth t He1 Hk Hg Hh Hlease Hgr].
  - assert (hear addr a (sy_clients s) = sy_clients s) as ->.
    { destruct a as [[o []]|]; [by destruct (Hno o)|done|done]. }
    apply next_ok; [done|apply (so_registry _ Hs)|done|apply (so_cells _ Hs)].
  - assert (e1 = e0) as -> by congruence. apply next_ok; [done| | |].
    + eapply set_entry_ok; [apply (so_registry _ Hs)|done| |done]. by split.
    + eapply follows_set; [done|]. by apply evolves_next.
    + intros x y. cbn [hear set_entry ws_heap]. intros [[<- <-]|[Hne Hy]]%lookup_insert_Some; [|by apply (so_cells _ Hs)].
      exists cl. split; [done|]. split; try done. apply (eo_authority _ _ Hok).
  - assert (e1 = e0) as -> by congruence. subst growth t.
    destruct (publish_serial s _ _ _ _ _ _ _ _ _ _ Hs Hseen He He0 Hl eq_refl) as [Hev Hst].
    destruct Hl as [Hrev (p & ids & c & b0 & b0' & Hpol & Hcap & -> & Hprep & Hids)].
    destruct (Hworld _ _ (Hwd p Hpol)) as [Hi Ht].
    pose proof (captured_ok _ _ _ _ Hi Ht Hcap) as Hpok.
    destruct (prepare_published _ _ _ _ _ _ _ _ _ _ (ro_act r) session Hprep) as [Hpub Hopen]. cbv zeta in *. rewrite Hpub, Hopen in *.
    destruct (prepare_ok service world (ro_look r) (en_identity e) (lk_graph (ro_look r)) p c cl (Hwd p Hpol) Hpok
      request (en_state e) ids b0 next o b0') as (Hn1 & Hn2 & Hn3); [| done| |done|].
    + rewrite <-(ev_identity _ _ Hev), <-Hst. apply (eo_status _ _ Hok).
    + intros l Hl. split; [by apply Hfr|]. rewrite Hl in Hids. unfold round_ids in Hids.
      destruct request; try (injection Hids as <-; by left). right. eauto.
    + assert (Hopen0 : en_active e0 = true).
      { rewrite (eo_active _ _ Hok), Hst. destruct (wr_status (en_state e)); try done. }
      apply next_ok; [done| | |].
      * eapply update_ok; [apply (so_registry _ Hs)|done| |done|by right|].
        -- by split.
        -- pose proof (wl_retained _ _ _ (rk_limits _ _ (so_registry _ Hs))). lia.
      * eapply follows_set; [done|]. destruct next as [n st]. apply evolves_next. cbn in Hn1. congruence.
      * intros x y. cbn [ws_heap]. intros [[<- <-]|[Hne Hy]]%lookup_insert_Some.
        -- exists (receive cl o). split; [cbn [hear]; by rewrite lookup_alter_eq, Hcl|].
           split; [cbn; by rewrite (ev_identity _ _ Hev)|done|done|apply (eo_authority _ _ Hok)].
        -- destruct (so_cells _ Hs x y Hy) as (c' & Hc' & Hy'). exists c'. split; [|done].
           cbn [hear]. by rewrite lookup_alter_ne.
Qed.
Lemma step_sys_ok s s' : sys_ok s → step s s' → sys_ok s'.
Proof.
  intros Hs Hstep. destruct Hstep as [sc principal session create legacy connection b addr w b' H Ha Hk
    |r addr session request reserved e b i b1 w a b2 Hseen Hmet He Hwd Hfr Hl Hact|busy visit|addr|].
  - unfold locate_create in H. destruct (negb _); [injection H as H; congruence|].
    destruct (_ || _); [injection H as H; congruence|]. destruct (Entity.encode _); [|done].
    r_step H u1 b1 E1. r_step H u2 b2 E2. r_step H u3 b3 E3.
    destruct (find_or_reserve_created _ _ _ _ _ _ _ _ _ _ _ _ H Ha Hk (so_registry _ Hs))
      as (-> & Hw & e & [H1 H2 H3 H4 H5]).
    apply next_ok; [done|done| |].
    + intros x y Hy. exists y. rewrite H5. rewrite lookup_insert_ne; [done|]. congruence.
    + intros x y. rewrite H5. intros [[<- <-]|[Hne Hy]]%lookup_insert_Some.
      * exists new_client. rewrite lookup_insert_eq. split; [done|]. by split; rewrite ?H3, ?H1.
      * destruct (so_cells _ Hs x y Hy) as (c' & Hc' & Hy'). exists c'. by rewrite lookup_insert_ne.
  - destruct (so_states _ _ Hs Hseen addr e He) as (e0 & He0 & _). by eapply act_ok.
  - destruct (maintain_ok L (cell_ok (sy_clients s))) with (busy := busy) (visit := visit) (w := sy_now s)
      as (H1 & H2 & H3); [| |apply (so_registry _ Hs)|exact (so_cells _ Hs)|by apply next_ok].
    + intros x y (c & _ & Hy). apply (eo_revision _ _ Hy).
    + intros x v y. apply maintained_cell.
  - apply same_cells_ok; [done|by apply remove_ok, so_registry|apply remove_heap].
  - apply same_cells_ok; [done|apply shutdown_ok|done].
Qed.
Lemma watches_reachable_ok s : rtc step init s → sys_ok s.
Proof.
  intros Hr. assert (H : ∀ s0, sys_ok s0 → rtc step s0 s → sys_ok s); [|eapply H; [apply init_ok|done]].
  clear Hr. intros s0 Hs0 Hr. induction Hr as [|s1 s2 s3 H12 _ IH]; [done|]. by eapply IH, step_sys_ok.
Qed.
End rounds.
End SubscriptionRuns.
