(* ===== verification/SubscriptionAnswers.v ===== *)
(** * Subscriptions: a request from admission to answer

    [execute] as a whole: every answer it gives is one the client accepts for
    its request, and it returns once its deadline has passed, in any
    interleaving, without a panic. *)

From S2P Require Import Prelude Floats Kinds Size Extern Bitmap Adjacency ValueIndex Filter FilterParser Text Units Taxonomy Xeto Namespace Fitting Controlled Changelog Graph GraphInv Prepared Query Application MeterFacts Sanitize SanitizeFacts View Reading ReadService ReadServiceFacts Command CommandExecute WireText TypedPayload TypedFacts EntityWire EntityWireFacts EntityWireLaws Feed FeedFacts SubscriptionWire Subscription SubscriptionFacts SubscriptionRuns.

Module SubscriptionAnswers.
Import Meter Reading Subscription SubscriptionFacts SubscriptionRuns.

Section answers.
Context {HO : HashOrder} {HL : HashOrderLaws} {RB : Roaring} {RL : RoaringLaws}.
Context {CM : CacheMap} {CML : CacheLaws} {ON : Ontology} {CA : Catalog} {FS : FilterSyntax} {AM : Ambient}.
Context {CH : Chrono} {CL : ChronoLaws} {B6 : Base64} {BL : Base64Laws} {SJ : SerdeJson} {SL : SerdeJsonLaws}.
Context (service : Subscription.t) (world : EntityGraph.t → PolicySnapshot → Prop).

(** ** Answers *)

Record answer_ok (identity : SubscriptionId) (request : SubscriptionRequest) (o : SubscriptionOutcome) : Prop := {
  ao_answers : SubWire.answers request o = true;
  ao_watch : SubWire.outcome_watch o = None ∨ SubWire.outcome_watch o = Some identity;
  ao_bytes : is_ok (SubWire.outcome_bytes o) = true
}.
Lemma answer_rejected identity request reason : answer_ok identity request (SRejected reason).
Proof. split; [by destruct request|by left|done]. Qed.
Lemma answer_resync identity request reason : answer_ok identity request (SResync reason).
Proof. split; [by destruct request|by left|done]. Qed.
#[local] Hint Resolve answer_rejected answer_resync : core.

Lemma watch_bytes_key n identity :
  SubWire.check_key (sid_key identity) = Ok () → SubWire.watch_bytes n (Some identity) = Ok (n + str_len (sid_key identity))%N.
Proof. intros Hk. simpl. by rewrite Hk. Qed.
Lemma answer_closed identity request :
  SubWire.check_key (sid_key identity) = Ok () → request ≠ SDescribe → answer_ok identity request (SClosed identity).
Proof.
  intros Hk Hr. split; [by destruct request|by right|]. unfold SubWire.outcome_bytes. cbn [SubWire.outcome_watch].
  by rewrite watch_bytes_key.
Qed.

Section prepare.
Context (sc : LookScene) (identity : SubscriptionId) (ids : list string) (c : Capture).
Hypothesis Hkey : SubWire.check_key (sid_key identity) = Ok ().

(** A new delivery. *)
Lemma deliver_answer l (initial : bool) b l' o b' :
  deliver service sc identity c l initial b = (Ok (l', o), b') →
  ∃ d, o = SDelivery d ∧ dl_watch d = identity ∧ dl_scope_generation d = lv_scope l ∧ dl_initial d = initial ∧
    (initial = false → dl_from d = lv_acknowledged l) ∧ is_ok (SubWire.outcome_bytes o) = true.
Proof.
  intros H. unfold deliver in H. b_step H pd b1 E. injection H as _ <- _.
  apply delivery_Ok in E as [-> He]. apply encoded_bytes in He. eexists. split; [done|]. split; [done|].
  split; [done|]. split; [done|]. split; [|done]. by intros ->.
Qed.

Lemma poll_answer l request resume b l' o b' :
  live_ok world identity l →
  match request with
  | SCreate _ | SPoll _ => resume = None
  | SResume _ scope acknowledged => resume = Some (scope, acknowledged)
  | _ => False
  end →
  poll service sc identity c l resume b = (Ok (l', o), b') → answer_ok identity request o.
Proof.
  intros Hl Hreq H. unfold poll in H.
  assert (Hres : match resume with
    | Some (scope, acknowledged) => scope = lv_scope l ∧ acknowledged = lv_acknowledged l
    | None => True end → ∀ d, dl_watch d = identity → dl_scope_generation d = lv_scope l →
      dl_from d = lv_acknowledged l → is_ok (SubWire.outcome_bytes (SDelivery d)) = true →
      answer_ok identity request (SDelivery d)).
  { intros Hr d Hw Hs Hf Hb. split; [|right; by cbn; f_equal|done].
    destruct request; try done. subst resume. destruct Hr as [-> ->]. cbn. by rewrite Hs, Hf, !N.eqb_refl. }
  destruct (match resume with Some _ => _ | None => _ end) eqn:Hg; [injection H as _ <- _; auto|].
  assert (Hr : match resume with
    | Some (scope, acknowledged) => scope = lv_scope l ∧ acknowledged = lv_acknowledged l
    | None => True end).
  { destruct resume as [[s a]|]; [|done]. apply orb_false_iff in Hg as [H1 H2].
    apply negb_false_iff, N.eqb_eq in H1, H2. done. }
  destruct (lv_prepared l) as [pd|] eqn:Hp.
  - injection H as _ <- _. destruct (lo_prepared _ _ _ Hl pd Hp). by apply Hres.
  - destruct (_ && _).
    + injection H as _ <- _. split; [|by right|].
      * destruct request; try done. subst resume. destruct Hr as [-> ->]. cbn. by rewrite !N.eqb_refl.
      * unfold SubWire.outcome_bytes. cbn [SubWire.outcome_watch]. rewrite watch_bytes_key by done.
        destruct (N.eqb_spec (lv_scope l) 0) as [E|]; [|done]. pose proof (lo_scope _ _ _ Hl). lia.
    + apply deliver_answer in H as (d & -> & H1 & H2 & H3 & H4 & H5). apply Hres; auto.
Qed.

Lemma subscription_prepare_answers request record b next o b' :
  match wr_status record with
  | StLive l => live_ok world identity l ∧ round_ids service request (Some l) = Some (inr ids)
  | _ => True
  end →
  is_ok (SubWire.request_bytes request) = true →
  prepare service sc identity ids c request record b = Some (Ok (next, o), b') →
  answer_ok identity request o.
Proof.
  intros Hl Hb H. unfold prepare, checked_add in H. case_decide as Hle; [|done].
  assert (Hkeep : ∀ m : B (Live * SubscriptionOutcome),
    (∀ l o b1, m b = (Ok (l, o), b1) → answer_ok identity request o) →
    (r ← lift m; mret (mkWatchRecord (wr_revision record + 1) (StLive r.1), r.2)) b = Some (Ok (next, o), b') →
    answer_ok identity request o).
  { intros m Hm Hr. r_step Hr r b1 E. apply ReadServiceFacts.lift_ok in E. injection Hr as _ <- _.
    destruct r. by eapply Hm. }
  assert (Hdl : ∀ d, SubWire.answers request (SDelivery d) = true → dl_watch d = identity →
    is_ok (SubWire.outcome_bytes (SDelivery d)) = true → answer_ok identity request (SDelivery d)).
  { intros d H1 H2 H3. split; [done|right; by cbn; f_equal|done]. }
  destruct (wr_status record) as [|l| | |]; try done.
  - destruct request as [|create| | | | | |]; try done. eapply Hkeep, H. intros l o1 b1 E.
    apply deliver_answer in E as (d & -> & H1 & H2 & H3 & H4 & H5). by apply Hdl.
  - destruct Hl as [Hl Hids]. set (l0 := set_graph _ l) in *.
    assert (Hl0 : live_ok world identity l0).
    { destruct Hl as [? ? Hp ?]. split; try done. intros pd E. destruct (Hp pd E). by split. }
    destruct request as [|create|w|w s a|w s t th|w lease|w s i|w]; try done.
    1-3: eapply Hkeep, H; intros l1 o1 b1 E; by eapply poll_answer.
    + eapply Hkeep, H. intros l1 o1 b1 E. injection E as E _.
      assert (Hack : answer_ok identity (SAcknowledge w s t th) (SAcknowledged identity s t th)).
      { split; [cbn; by rewrite !N.eqb_refl, bool_decide_true|by right|]. unfold SubWire.outcome_bytes.
        cbn [SubWire.outcome_watch]. rewrite watch_bytes_key by done. revert Hb. unfold SubWire.request_bytes.
        destruct (SubWire.watch_bytes _ _); [|done]. by destruct (s =? 0)%N. }
      unfold settle_ack in E. cbn [ack_scope ack_token ack_through] in E.
      repeat case_match; injection E as _ <-; auto.
    + eapply Hkeep, H. intros l1 o1 b1 E. injection E as E _. unfold renew in E.
      destruct (_ <? _)%N; injection E as _ <-; [auto|].
      split; [cbn; by rewrite N.eqb_refl|by right|]. unfold SubWire.outcome_bytes.
      cbn [SubWire.outcome_watch]. rewrite watch_bytes_key by done. revert Hb. unfold SubWire.request_bytes.
      destruct (SubWire.watch_bytes _ _); [|done]. by destruct (SubWire.check_lease lease).
    + eapply Hkeep, H. intros l1 o1 b1 E. unfold Subscription.replace, checked_add in E. case_decide as Hs; [|done].
      apply deliver_answer in E as (d & -> & H1 & H2 & H3 & H4 & H5). apply Hdl; [|done|done].
      cbn [round_ids] in Hids. destruct (N.eqb_spec s (lv_scope l)) as [->|]; [|done].
      cbn [SubWire.answers]. rewrite H3, H2. cbn [restart lv_scope l0 set_graph andb]. unfold checked_add.
      rewrite decide_True by done. by apply bool_decide_true.
    + injection H as _ <- _. by apply answer_closed.
Qed.
End prepare.

(** ** Rounds and requests *)

Lemma act_outcome sc addr session i w b w' o d b' :
  act service sc addr session i w b = Some (Ok (w', Some (o, d)), b') →
  match i with
  | IAnswer o' => o = o'
  | ITerminal _ reason => o = SResync reason
  | IPublish _ _ _ o' => o = o' ∨ (∃ reason, o = SRejected reason) ∨ ∃ reason, o = SResync reason
  end.
Proof.
  intros H. destruct i as [o'|revision reason|revision observed next o']; cbn [act] in H.
  - injection H as _ <- _ _. done.
  - r_step H r b1 E. injection H as _ H _. destruct (r.2); by simplify_eq.
  - r_step H r b1 E. injection H as _ H _. destruct (r.2); simplify_eq; eauto.
Qed.
Lemma round_answer r addr session request reserved e b i b1 w o d b2 :
  (∃ c, entry_ok service world e c) → SubWire.check_key (sid_key (en_identity e)) = Ok () →
  is_ok (SubWire.request_bytes request) = true → request ≠ SDescribe →
  look service (ro_look r) session request reserved e b = Some (Ok i, b1) →
  act service (ro_act r) addr session i (ro_met r) b1 = Some (Ok (w, Some (o, d)), b2) →
  answer_ok (en_identity e) request o.
Proof.
  intros (c & He) Hk Hb Hr Hl%look_intent Ha%act_outcome.
  destruct i as [o'|revision reason|revision observed next o'].
  - subst o'. destruct Hl as [[? ->]|[[? ->]| ->]]; [auto|auto|by apply answer_closed].
  - subst o. auto.
  - destruct Ha as [->|[[? ->]|[? ->]]]; [|auto|auto].
    destruct Hl as [_ (p & ids & cap & b0 & b0' & _ & _ & _ & Hp & Hids)].
    eapply subscription_prepare_answers; [done| |done|exact Hp]. pose proof (eo_status _ _ _ _ He) as Hs.
    destruct (wr_status (en_state e)) as [|l| | |]; try done. by destruct Hs as [Hs _].
Qed.

(** The watch a request is about. *)
Definition targets (request : SubscriptionRequest) (identity : SubscriptionId) : Prop :=
  match request with
  | SDescribe => False
  | SCreate c => sid_authority identity = sc_authority c ∧ sid_key identity = sc_key c
  | _ => SubWire.request_watch request = Some identity
  end.
Lemma targets_key request identity :
  targets request identity → is_ok (SubWire.request_bytes request) = true →
  SubWire.check_key (sid_key identity) = Ok ().
Proof.
  unfold targets, SubWire.request_bytes. destruct request as [|create|w|w ? ?|w ? ? ?|w ?|w ? ?|w]; try done;
    cbn [SubWire.request_watch].
  - intros [_ ->]. simpl. by destruct (SubWire.check_key _) as [[]|].
  - intros [= ->]. simpl. by destruct (SubWire.check_key _) as [[]|].
  - intros [= ->]. simpl. by destruct (SubWire.check_key _) as [[]|].
  - intros [= ->]. simpl. by destruct (SubWire.check_key _) as [[]|].
  - intros [= ->]. simpl. by destruct (SubWire.check_key _) as [[]|].
  - intros [= ->]. simpl. by destruct (SubWire.check_key _) as [[]|].
  - intros [= ->]. simpl. by destruct (SubWire.check_key _) as [[]|].
Qed.
Lemma answer_validates request identity o :
  targets request identity → is_ok (SubWire.request_bytes request) = true → answer_ok identity request o →
  SubWire.validate_for_request o request = Ok ().
Proof.
  intros Ht Hb [Ha Hw Ho]. unfold SubWire.validate_for_request.
  destruct (SubWire.request_bytes request); [|done]. destruct (SubWire.outcome_bytes o); [|done].
  assert (SubWire.correlates request o = true) as ->; [|cbn [negb]; by rewrite Ha].
  unfold SubWire.correlates. destruct Hw as [->| ->]; [done|].
  destruct request as [|c| | | | | |]; try done; cbn [targets] in Ht; rewrite ?Ht; try by apply bool_decide_true.
  cbn [SubWire.request_watch]. destruct Ht as [-> ->]. by rewrite !bool_decide_true.
Qed.

(** The cell a request has found or created is its own. *)
Lemma locate_targets s sc principal session request legacy connection w b addr created b' :
  sys_ok service world s → w ∈ states s →
  locate service sc principal session request legacy connection w b = Some (Ok (inr (addr, created)), b') →
  ∃ e, ws_heap (default w created) !! addr = Some e ∧ targets request (en_identity e).
Proof.
  intros Hs Hw H. unfold locate in H.
  assert (Hwatch : ∀ watch, locate_watch service sc session watch legacy w b = Some (Ok (inr (addr, created)), b') →
    ∃ e, ws_heap (default w created) !! addr = Some e ∧ en_identity e = watch).
  { intros watch E. unfold locate_watch in E. destruct (negb _); [injection E as E; congruence|].
    r_step E u b1 E1. destruct (rg_entries _ !! _) as [a|]; [|injection E as E; congruence].
    destruct (ws_heap w !! a) as [e|] eqn:He; [|done]. injection E as E _.
    destruct (admitted_entry _ _ _ _) eqn:Ha; [|congruence]. injection E as <- <-. exists e. split; [done|].
    unfold admitted_entry in Ha. rewrite !andb_true_iff, bool_decide_eq_true in Ha. tauto. }
  destruct request as [|create|w0|w0 ? ?|w0 ? ? ?|w0 ?|w0 ? ?|w0]; cbn [SubWire.request_watch] in H; try done.
  2-7: apply Hwatch in H as (e & He & <-); by exists e.
  unfold locate_create in H. case_bool_decide as Hau; cbn [negb] in H; [|injection H as H; congruence].
  destruct (_ || _); [injection H as H; congruence|]. destruct (Entity.encode _); [|done].
  r_step H u1 b1 E1. r_step H u2 b2 E2. r_step H u3 b3 E3. unfold find_or_reserve in H.
  destruct (rg_bindings _ !! _) as [watch|] eqn:Hb.
  - destruct (_ ≫= _) as [[cell e]|] eqn:Ha; [|done]. destruct (_ || _); [injection H as H; congruence|].
    injection H as <- <- _. apply bind_Some in Ha as (a' & Ha & Hp). apply fmap_Some in Hp as (e' & He & [= <- <-]).
    exists e. split; [done|]. destruct (so_entries _ _ _ _ _ _ Hs Hw He) as (c & Hc).
    apply (rk_binding _ _ (so_registries _ _ _ _ Hs Hw)) in Hb as (x & Hx & Hbx). rewrite lookup_reg, Ha in Hx.
    cbn in Hx. assert (x = e) as -> by congruence. injection Hbx as _ Hkey. split; [|done].
    rewrite (eo_authority _ _ _ _ Hc). done.
  - r_step H u4 b4 E4. destruct (over_capacity _ _ _ _); [injection H as H; congruence|].
    injection H as <- <- _. eexists. cbn [from_option id ws_heap]. rewrite lookup_insert_eq. split; [done|]. done.
Qed.

(** The rounds of a request come after its lookup. *)
Definition after_lookup (sc : RequestScene) (w : Watches) : Prop :=
  ∀ r, r ∈ rs_rounds sc → follows w (ro_seen r) ∧ follows w (ro_met r).
Definition observes (s : Sys) (sc : RequestScene) : Prop :=
  rs_found sc ∈ states s ∧ ∀ r, r ∈ rs_rounds sc → ro_seen r ∈ states s ∧ ro_met r ∈ states s.

Lemma attempts_answer s addr session request reserved rounds e0 b w o d b' :
  sys_ok service world s →
  (∀ r e, r ∈ rounds → ws_heap (ro_seen r) !! addr = Some e → en_identity e = en_identity e0) →
  (∀ r, r ∈ rounds → ro_seen r ∈ states s) →
  targets request (en_identity e0) → is_ok (SubWire.request_bytes request) = true →
  attempts service addr session request reserved rounds b = Some (Ok (w, o, d), b') →
  answer_ok (en_identity e0) request o.
Proof.
  intros Hs Hid Hin Ht Hb. revert b. induction rounds as [|r rounds IH]; intros b H; [done|].
  cbn [attempts] in H. destruct (ws_heap (ro_seen r) !! addr) as [e|] eqn:He; [|done].
  r_step H i b1 E1. r_step H a b2 E2. destruct a as [w1 [[o1 d1]|]]; cbn [fst snd] in H.
  - injection H as <- <- <- _. rewrite <-(Hid r e) by (left || done).
    assert (Hk : targets request (en_identity e)) by (by rewrite (Hid r e) by (left || done)).
    eapply round_answer; [|by eapply targets_key|done|by intros ->|done|done].
    eapply so_entries; [done|apply Hin; left|done].
  - eapply IH, H; intros; eauto using list_elem_of_further.
Qed.

(** Answers without a watch. *)
Lemma short_validates request o :
  is_ok (SubWire.request_bytes request) = true →
  (∃ reason, o = SRejected reason) ∨ (∃ reason, o = SResync reason) →
  SubWire.validate_for_request o request = Ok ().
Proof.
  intros Hb Ho. unfold SubWire.validate_for_request. destruct (SubWire.request_bytes request); [|done].
  destruct Ho as [[? ->]|[? ->]]; by destruct request.
Qed.
Lemma admission_Ok sight principal session request legacy b out b' :
  admission sight principal session request legacy b = (Ok out, b') →
  is_ok (SubWire.request_bytes request) = true ∧
  (∀ o, out = Some o → (∃ reason, o = SRejected reason) ∨ (∃ reason, o = SResync reason)).
Proof.
  unfold admission. destruct (match principal with Authenticated _ _ => _ | _ => _ end); [done|].
  destruct (SubWire.request_bytes request); [|done]. intros H. split; [done|]. intros o ->.
  b_step H l b1 E1. destruct (_ <? _)%N; [done|]. b_step H u2 b2 E2. b_step H u3 b3 E3.
  destruct (_ || _); injection H as H _; [simplify_eq; eauto|].
  destruct (halted _ _); [|done]. injection H as <-. eauto.
Qed.
Lemma locate_short sc principal session request legacy connection w b o b' :
  locate service sc principal session request legacy connection w b = Some (Ok (inl o), b') →
  (∃ reason, o = SRejected reason) ∨ (∃ reason, o = SResync reason).
Proof.
  intros H. unfold locate in H.
  assert (Hw : ∀ watch, locate_watch service sc session watch legacy w b = Some (Ok (inl o), b') →
    (∃ reason, o = SRejected reason) ∨ (∃ reason, o = SResync reason)).
  { intros watch E. unfold locate_watch in E. destruct (negb _); [injection E as <- _; eauto|].
    r_step E u b1 E1. destruct (rg_entries _ !! _) as [a|]; [|injection E as <- _; eauto].
    destruct (ws_heap w !! a) as [e|]; [|done]. injection E as E _. destruct (admitted_entry _ _ _ _); simplify_eq; eauto. }
  destruct request as [|create|w0|w0 ? ?|w0 ? ? ?|w0 ?|w0 ? ?|w0]; cbn [SubWire.request_watch] in H; eauto; try done.
  unfold locate_create in H. destruct (negb _); [injection H as <- _; eauto|].
  destruct (_ || _); [injection H as <- _; eauto|]. destruct (Entity.encode _); [|done].
  r_step H u1 b1 E1. r_step H u2 b2 E2. r_step H u3 b3 E3. unfold find_or_reserve in H.
  destruct (rg_bindings _ !! _).
  - destruct (_ ≫= _) as [[cell e]|]; [|done]. destruct (_ || _); injection H as H _; simplify_eq; eauto.
  - r_step H u4 b4 E4. destruct (over_capacity _ _ _ _); injection H as H _; simplify_eq; eauto.
Qed.

(** ** Time passes *)

#[local] Existing Instance MeterFacts.same_request_refl.
#[local] Existing Instance MeterFacts.same_request_trans.

(** A computation goes on with the request it was given, later. *)
Definition ahead {A} (m : B A) : Prop := ∀ b, MeterFacts.same_request b (m b).2.
Definition ahead_c {A} (m : C A) : Prop := ∀ b, MeterFacts.same_request b (m b).2.
Definition ahead_r {A} (m : R A) : Prop := ∀ b r b', m b = Some (r, b') → MeterFacts.same_request b b'.

Lemma ahead_ret {A} (a : A) : ahead (mret a).
Proof. intros b. reflexivity. Qed.
Lemma ahead_throw {A} e : ahead (throw (A:=A) e).
Proof. intros b. reflexivity. Qed.
Lemma ahead_bind {A D} (m : B A) (k : A → B D) : ahead m → (∀ a, ahead (k a)) → ahead (m ≫= k).
Proof.
  intros Hm Hk b. unfold mbind, B_bind. specialize (Hm b). destruct (m b) as [[a|e] b1]; [|done].
  etrans; [exact Hm|apply Hk].
Qed.
Lemma ahead_meets {A} (m : B A) a c : (∀ max, MeterFacts.meets max m a c) → ahead m.
Proof. intros Hm b. destruct (Hm _ b eq_refl) as [Ha _]. apply (MeterFacts.af_same _ _ _ Ha). Qed.
Lemma ahead_check : ahead check.
Proof. eapply ahead_meets. intros max. apply MeterFacts.meets_check. Qed.
Lemma ahead_spend k n : ahead (spend k n).
Proof. intros b. unfold spend. repeat case_match; reflexivity || by split. Qed.
Lemma ahead_charge k n : ahead (charge k n).
Proof. apply ahead_bind; [apply ahead_check|intros; apply ahead_spend]. Qed.
Lemma ahead_copy s : ahead (copy_string s).
Proof. eapply ahead_meets. intros max. apply MeterFacts.meets_copy. Qed.
Lemma ahead_asks {A} (f : Budget → A) : ahead (asks f).
Proof. intros b. reflexivity. Qed.
Lemma ahead_quantum : ahead wait_quantum.
Proof.
  intros b. unfold wait_quantum. pose proof (ahead_check b) as H. destruct (check b) as [[]]; exact H.
Qed.
Lemma ahead_acquire n : ahead (ReadService.acquire n).
Proof.
  unfold ReadService.acquire. generalize (seq 0 (S n)). intros l. induction l as [|x l IH]; [apply ahead_ret|].
  cbn [each]. apply ahead_bind; [apply ahead_bind; [apply ahead_quantum|intros; apply ahead_ret]|intros; apply IH].
Qed.
Lemma ahead_record p id raw : ahead (Sanitize.record p id raw).
Proof. eapply ahead_meets. intros max. apply SanitizeFacts.record_meets. Qed.
Lemma ahead_entity g p id : ahead (View.entity g p id).
Proof.
  unfold View.entity. apply ahead_bind; [apply ahead_check|intros]. repeat case_match;
    try apply ahead_ret. apply ahead_record.
Qed.
Lemma ahead_catalog g : ahead (Simulate.check_catalog g).
Proof. apply ahead_bind; [apply ahead_asks|intros]. repeat case_match; apply ahead_ret || apply ahead_throw. Qed.

Lemma ahead_metered {A} (m : B A) : ahead m → ahead_c (metered m).
Proof. intros Hm b. unfold metered. specialize (Hm b). by destruct (m b). Qed.
Lemma ahead_c_ret {A} (a : A) : ahead_c (mret a).
Proof. intros b. reflexivity. Qed.
Lemma ahead_refuse {A} e : ahead_c (refuse (A:=A) e).
Proof. intros b. reflexivity. Qed.
Lemma ahead_c_bind {A D} (m : C A) (k : A → C D) : ahead_c m → (∀ a, ahead_c (k a)) → ahead_c (m ≫= k).
Proof.
  intros Hm Hk b. unfold mbind, C_bind. specialize (Hm b). destruct (m b) as [[a|e] b1]; [|done].
  etrans; [exact Hm|apply Hk].
Qed.
Lemma ahead_fold {A S} (f : S → A → C S) l s : (∀ s a, ahead_c (f s a)) → ahead_c (fold_c f s l).
Proof.
  intros Hf. revert s. induction l as [|a l IH]; intros s; [apply ahead_c_ret|]. by apply ahead_c_bind.
Qed.
#[local] Hint Resolve ahead_ret ahead_throw ahead_bind ahead_charge ahead_copy ahead_asks ahead_acquire
  ahead_record ahead_entity ahead_catalog ahead_check ahead_metered ahead_c_ret ahead_refuse ahead_fold : ahead.
(** A computation, step by step. *)
Ltac ahead_step :=
  repeat (intros; first [ solve [auto 2 with ahead] | apply ahead_c_bind | apply ahead_bind | case_match ]).

Lemma ahead_capture sc ids previous : ahead_c (capture service sc ids previous).
Proof.
  assert (Hre : ∀ p q, ahead_c (reauthorize_projection p q)).
  { intros p q. apply ahead_fold. intros u [id row]. unfold reauthorize_row. ahead_step. }
  unfold capture. destruct (lk_policy sc) as [p|]; [|ahead_step]. destruct (_ || _); [ahead_step|].
  destruct (_ <? _)%N; [ahead_step|]. apply ahead_c_bind; [ahead_step|]. intros key.
  destruct (match previous with Some _ => _ | None => _ end); [ahead_step|].
  apply ahead_c_bind; [ahead_step|intros _]. apply ahead_c_bind; [|intros _; apply ahead_c_bind; [|ahead_step]].
  - destruct previous as [live|]; [|ahead_step]. unfold continue_from. do 2 (case_match; [ahead_step|]).
    apply ahead_c_bind; [ahead_step|intros _]. case_match; [|ahead_step]. apply ahead_c_bind; [|intros _].
    { apply ahead_fold. intros n u. unfold count_unit. ahead_step. }
    apply ahead_c_bind; [|intros _]. { apply ahead_fold. intros n u. unfold still_shown. ahead_step. }
    apply ahead_c_bind; [apply Hre|intros _]. case_match; [apply Hre|ahead_step].
  - apply ahead_fold. intros [pj n] id. unfold project. ahead_step.
Qed.

Lemma ahead_delivery token identity l c initial : ahead (delivery service token identity l c initial).
Proof.
  unfold delivery. apply ahead_bind; [ahead_step|intros _]. apply ahead_bind; [ahead_step|intros _].
  cbv zeta. destruct (Entity.encode _); [|ahead_step]. destruct (_ <? _)%N; ahead_step.
Qed.
Lemma ahead_deliver sc identity c l initial : ahead (deliver service sc identity c l initial).
Proof. apply ahead_bind; [apply ahead_delivery|ahead_step]. Qed.
Lemma ahead_poll sc identity c l resume : ahead (poll service sc identity c l resume).
Proof.
  unfold poll. destruct (match resume with Some _ => _ | None => _ end); [ahead_step|].
  destruct (lv_prepared l); [ahead_step|]. destruct (_ && _); [ahead_step|apply ahead_deliver].
Qed.
Lemma ahead_replace sc identity ids c l : ahead (Subscription.replace service sc identity ids c l).
Proof. unfold Subscription.replace. case_match; [apply ahead_deliver|ahead_step]. Qed.

Lemma ahead_lift {A D} (m : B A) (f : A → D) : ahead m → ahead_r (r ← lift m; mret (f r)).
Proof.
  intros Hm b r b'. unfold mbind, R_bind, lift. specialize (Hm b). destruct (m b) as [[a|e] b1];
    intros E; by injection E as _ <-.
Qed.
Lemma ahead_prepare sc identity ids c request record : ahead_r (prepare service sc identity ids c request record).
Proof.
  unfold prepare. destruct (checked_add _ _ _) as [n|]; [|intros b r b' E; by injection E as _ <-].
  assert (Hkeep : ∀ m, ahead m →
    ahead_r (r ← lift m; mret (mkWatchRecord n (StLive r.1), r.2 : SubscriptionOutcome))).
  { intros m Hm. by apply (ahead_lift m (λ r, (mkWatchRecord n (StLive r.1), r.2))). }
  destruct (wr_status record) as [|l| | |], request; try (intros ? ? ? ?; done);
    first [ apply Hkeep; first [apply ahead_deliver | apply ahead_poll | apply ahead_replace | apply ahead_ret]
          | intros b r b' E; by injection E as _ <- ].
Qed.

(** A prepared record, once there is a capture. *)
Lemma prepare_returns sc identity ids c request record b :
  match wr_status record with
  | StPreparing => ∃ create, request = SCreate create
  | StLive _ => request ≠ SDescribe
  | _ => False
  end → prepare service sc identity ids c request record b ≠ None.
Proof.
  unfold prepare. destruct (checked_add _ _ _); [|done]. destruct (wr_status record) as [|l| | |]; try done.
  - intros (create & ->). unfold mbind, R_bind, lift. by destruct (deliver _ _ _ _ _ _ _) as [[]].
  - intros Hr. destruct request; try done; unfold mbind, R_bind, lift;
      first [by destruct (poll _ _ _ _ _ _ _) as [[]] | by destruct (Subscription.replace _ _ _ _ _ _ _) as [[]] | done].
Qed.
Lemma overrun_returns live revision e b :
  ∃ r, overrun live revision e b = Some (r, b).
Proof. unfold overrun. destruct (_ && _); by eexists. Qed.
Lemma propose_returns sc request identity record live ids b :
  wr_status record = match live with Some l => StLive l | None => StPreparing end →
  request ≠ SDescribe → (live = None → ∃ create, request = SCreate create) →
  ∃ r b', propose service sc request identity record live ids b = Some (r, b') ∧ MeterFacts.same_request b b'.
Proof.
  intros Hst Hr Hc. unfold propose. pose proof (ahead_capture sc ids live b) as Hcap.
  destruct (capture service sc ids live b) as [[c|[e|reason]] b1]; cbn [snd] in Hcap.
  - destruct (prepare service sc identity ids c request record b1) as [[r b2]|] eqn:Hp.
    + apply ahead_prepare in Hp. assert (Hb : MeterFacts.same_request b b2) by by etrans.
      destruct r as [[next o]|e].
      * destruct (lk_recheck sc); [destruct (_ || _)|]; eauto.
      * destruct (_ && _); [by eauto|].
        destruct (overrun_returns (bool_decide (is_Some live)) (wr_revision record) e b2) as (r & ->). eauto.
    + exfalso. revert Hp. apply prepare_returns. rewrite Hst. destruct live; [done|by apply Hc].
  - destruct (overrun_returns (bool_decide (is_Some live)) (wr_revision record) e b1) as (r & ->). eauto.
  - destruct (bool_decide _); eauto.
Qed.

(** The lock of the record is waited for: the deadline is observed. *)
Lemma acquire_Ok n b u b' :
  ReadService.acquire n b = (Ok u, b') →
  (at_deadline (moments (ticks b)) < deadline b)%N ∧ ticks b < ticks b' ∧ MeterFacts.same_request b b'.
Proof.
  intros H. split; [|split; [|pose proof (ahead_acquire n b) as Ha; by rewrite H in Ha]].
  - unfold ReadService.acquire in H. cbn [seq each] in H. b_step H u1 b1 E1. b_step E1 q b2 E2.
    unfold wait_quantum, check in E2. destruct (verdict b _) eqn:Hv; [|done]. unfold verdict in Hv.
    destruct (N.leb_spec (deadline b) (at_deadline (moments (ticks b)))); [done|lia].
  - unfold ReadService.acquire in H. cbn [seq each] in H. b_step H u1 b1 E1. b_step E1 q b2 E2.
    injection E1 as _ <-. unfold wait_quantum, check in E2. destruct (verdict b _); [|done]. injection E2 as _ <-.
    assert (Ha : ahead (each (λ _ : nat, wait_quantum;; mret ()) (seq 1 n))).
    { generalize (seq 1 n). intros l. induction l as [|x l IH]; [apply ahead_ret|].
      cbn [each]. apply ahead_bind; [apply ahead_bind; [apply ahead_quantum|intros; apply ahead_ret]|intros; apply IH]. }
    specialize (Ha (tick b)). rewrite H in Ha. pose proof (MeterFacts.same_ticks _ _ Ha) as Ht. cbn in Ht. lia.
Qed.
Lemma look_returns sc session request reserved e b :
  request ≠ SDescribe → (reserved = true → ∃ create, request = SCreate create) →
  (∃ r b', look service sc session request reserved e b = Some (r, b') ∧
     match r with
     | Ok (IAnswer _) | Err _ => True
     | Ok _ => (at_deadline (moments (ticks b)) < deadline b)%N ∧ ticks b < ticks b' ∧
               MeterFacts.same_request b b'
     end).
Proof.
  intros Hr Hc. unfold look. destruct (halted _ _); [by eexists _, _|].
  unfold mbind, R_bind, lift. destruct (ReadService.acquire _ b) as [[u|err] b1] eqn:E1; [|by eexists _, _].
  apply acquire_Ok in E1 as (Hd & Ht & Hs1).
  assert (Hgo : ∀ live, wr_status (en_state e) = match live with Some l => StLive l | None => StPreparing end →
    (live = None → ∃ create, request = SCreate create) →
    ∃ r b', match charge BWork 1 b1 with
    | (Err err, b) => overrun (bool_decide (is_Some live)) (wr_revision (en_state e)) err b
    | (Ok _, b) =>
        if lease_over live (lk_lease_now sc)
        then Some (Ok (ITerminal (wr_revision (en_state e)) SYLeaseExpired), b)
        else match round_ids service request live with
        | None => None
        | Some (inl o) => Some (Ok (IAnswer o), b)
        | Some (inr ids) => propose service sc request (en_identity e) (en_state e) live ids b
        end
    end = Some (r, b') ∧ MeterFacts.same_request b1 b').
  { intros live Hst Hcr. pose proof (ahead_charge BWork 1 b1) as Hch.
    destruct (charge BWork 1 b1) as [[[]|err] b2]; cbn [snd] in Hch.
    - destruct (lease_over _ _); [eauto|].
      destruct (round_ids service request live) as [[o|ids]|] eqn:Hids; [eauto| |].
      + destruct (propose_returns sc request (en_identity e) (en_state e) live ids b2) as (r & b3 & -> & H3); try done.
        eexists _, _. split; [done|by etrans].
      + exfalso. unfold round_ids in Hids. destruct live as [l|].
        * destruct request; try done. repeat case_match; done.
        * by destruct (Hcr eq_refl) as (create & ->).
    - destruct (overrun_returns (bool_decide (is_Some live)) (wr_revision (en_state e)) err b2) as (r & ->). eauto. }
  assert (Hend : ∀ (r : result ReadError Intent) b', MeterFacts.same_request b1 b' →
    match r with
    | Ok (IAnswer _) | Err _ => True
    | Ok _ => (at_deadline (moments (ticks b)) < deadline b)%N ∧ ticks b < ticks b' ∧ MeterFacts.same_request b b'
    end).
  { intros r b' Hb'. pose proof (MeterFacts.same_ticks _ _ Hb'). destruct r as [[]|]; try done;
      (split; [done|split; [lia|by etrans]]). }
  destruct (wr_status (en_state e)) as [|l|wl| |reason] eqn:Hst; try by eexists _, _.
  - destruct reserved; [|by eexists _, _]. destruct (Hgo None eq_refl) as (r & b' & H1 & H2); [by intros _; apply Hc|].
    exists r, b'. split; [exact H1|by apply Hend].
  - destruct (Hgo (Some l) eq_refl) as (r & b' & H1 & H2); [done|]. exists r, b'. split; [exact H1|by apply Hend].
Qed.

Lemma act_returns sc addr session i w e b :
  ws_heap w !! addr = Some e →
  ∃ r b', act service sc addr session i w b = Some (r, b') ∧ MeterFacts.same_request b b'.
Proof.
  intros He. destruct i as [o|revision reason|revision observed next o]; cbn [act].
  - eexists _, _. split; [done|reflexivity].
  - unfold terminal, mbind, R_bind, lift. pose proof (ahead_acquire (ac_misses sc) b) as Ha.
    destruct (ReadService.acquire _ b) as [[u|err] b1]; cbn [snd] in Ha; [|by eexists _, _]. rewrite He.
    destruct (negb _); [by eexists _, _|]. destruct (checked_add _ _ _); by eexists _, _.
  - unfold publish, mbind, R_bind, lift. destruct (ac_graph sc); [|eexists _, _; by split].
    destruct (negb _); [eexists _, _; by split|]. destruct (ac_registry_busy sc); [eexists _, _; by split|].
    rewrite He. do 1 (destruct (negb _); [eexists _, _; by split|]).
    destruct (ac_record_busy sc); [eexists _, _; by split|]. destruct (negb _); [eexists _, _; by split|].
    pose proof (ahead_check b) as Ha. destruct (check b) as [[u|err] b1]; cbn [snd] in Ha; [|by eexists _, _].
    destruct (halted _ _); [by eexists _, _|].
    destruct (match lease_until _ with Some _ => _ | None => _ end); [by eexists _, _|].
    destruct (_ <? _)%N; by eexists _, _.
Qed.

(** As many rounds as there are moments before the deadline are enough. *)
Lemma attempts_return addr session request reserved rounds b n :
  request ≠ SDescribe → (reserved = true → ∃ create, request = SCreate create) →
  (∀ r, r ∈ rounds → is_Some (ws_heap (ro_seen r) !! addr) ∧ is_Some (ws_heap (ro_met r) !! addr)) →
  (∀ m, n ≤ m → (deadline b ≤ at_deadline (moments m))%N) → n - ticks b < length rounds →
  attempts service addr session request reserved rounds b ≠ None.
Proof.
  intros Hr Hc Hcells Hd. revert b Hd. induction rounds as [|r rounds IH]; intros b Hd Hn; [simpl in Hn; lia|].
  cbn [attempts]. destruct (Hcells r) as [[e He] [e' He']]; [left|]. rewrite He.
  destruct (look_returns (ro_look r) session request reserved e b Hr Hc) as (ri & b1 & Hl & Hi).
  unfold mbind, R_bind. rewrite Hl. destruct ri as [i|]; [|done].
  destruct (act_returns (ro_act r) addr session i (ro_met r) e' b1 He') as (ra & b2 & Ha & Hb2).
  rewrite Ha. destruct ra as [[w [[o d]|]]|]; [done| |done]. cbn [fst snd].
  destruct i as [o|revision reason|revision observed next o]; [cbn [act] in Ha; by injection Ha|..];
    destruct Hi as (Hlt & Ht & Hs); pose proof (MeterFacts.same_ticks _ _ Hb2);
    (destruct (decide (n ≤ ticks b)) as [Hle|]; [specialize (Hd _ Hle); lia|]);
    (apply IH; [intros; apply Hcells; by right| |cbn [length] in Hn; lia]);
    intros m Hm; rewrite (MeterFacts.same_deadline _ _ Hb2), (MeterFacts.same_deadline _ _ Hs); by apply Hd.
Qed.

Lemma ahead_admission sight principal session request legacy :
  ahead (admission sight principal session request legacy).
Proof.
  unfold admission. destruct (match principal with Authenticated _ _ => _ | _ => _ end); [ahead_step|].
  destruct (SubWire.request_bytes request); [|ahead_step]. cbv zeta. ahead_step.
Qed.
(** A lookup returns: a binding has its entry. *)
Lemma locate_returns L0 sc principal session request legacy connection w b :
  registry_ok L0 w → request ≠ SDescribe →
  ∃ r b', locate service sc principal session request legacy connection w b = Some (r, b') ∧
    MeterFacts.same_request b b' ∧
    match r with
    | Ok (inr (addr, created)) => is_Some (ws_heap (default w created) !! addr) ∧
        (is_Some created → ∃ create, request = SCreate create)
    | _ => True
    end.
Proof.
  intros Hw Hr.
  assert (Hlw : ∀ watch, ∃ r b', locate_watch service sc session watch legacy w b = Some (r, b') ∧
    MeterFacts.same_request b b' ∧
    match r with
    | Ok (inr (addr, created)) => is_Some (ws_heap (default w created) !! addr) ∧
        (is_Some created → ∃ create, request = SCreate create)
    | _ => True
    end).
  { intros watch. unfold locate_watch. destruct (negb _); [eexists _, _; by split_and!|].
    unfold mbind, R_bind, lift. pose proof (ahead_acquire (lc_misses sc) b) as Ha.
    destruct (ReadService.acquire _ b) as [[u|err] b1]; cbn [snd] in Ha; [|eexists _, _; by split_and!].
    destruct (rg_entries _ !! _) as [a|] eqn:Hk; [|eexists _, _; by split_and!].
    destruct (rk_entry _ _ Hw _ _ Hk) as (e & He & _). rewrite He.
    destruct (admitted_entry _ _ _ _); eexists _, _; split_and!; done || (cbn; by eauto) || by intros [? [=]]. }
  unfold locate. destruct request as [|create|w0|w0 ? ?|w0 ? ? ?|w0 ?|w0 ? ?|w0]; try done; try apply Hlw.
  unfold locate_create. destruct (negb _); [eexists _, _; by split_and!|].
  destruct (_ || _); [eexists _, _; by split_and!|]. destruct (Entity.encode _) as [canonical|]; [|eexists _, _; by split_and!].
  unfold mbind, R_bind, lift.
  pose proof (ahead_charge BWork (saturating_mul (len canonical) 2) b) as H1.
  destruct (charge BWork _ b) as [[[]|err] b1]; cbn [snd] in H1; [|eexists _, _; by split_and!].
  pose proof (ahead_charge BRetained (saturating_mul (len canonical) 3) b1) as H2.
  destruct (charge BRetained _ b1) as [[[]|err] b2]; cbn [snd] in H2; [|eexists _, _; split_and!; by try etrans].
  pose proof (ahead_acquire (lc_misses sc) b2) as H3.
  destruct (ReadService.acquire _ b2) as [[u|err] b3]; cbn [snd] in H3; [|eexists _, _; split_and!; [done| |done]; etrans; [|done]; by etrans].
  assert (Hb : MeterFacts.same_request b b3) by (etrans; [|done]; by etrans).
  unfold find_or_reserve. destruct (rg_bindings _ !! _) as [watch|] eqn:Hbd.
  - apply (rk_binding _ _ Hw) in Hbd as (e & He & _). rewrite lookup_reg in He.
    apply bind_Some in He as (a & Ha & He). rewrite Ha. cbn. rewrite He. cbn.
    destruct (_ || _); eexists _, _; split_and!; done || (cbn; by eauto) || by intros [? [=]].
  - unfold mbind, R_bind, lift. pose proof (ahead_charge BWork (saturating_add (N.of_nat (size (rg_entries (ws_table w)))) 1) b3) as H4.
    destruct (charge BWork _ b3) as [[[]|err] b4]; cbn [snd] in H4; [|eexists _, _; split_and!; [done|by etrans|done]].
    destruct (over_capacity _ _ _ _); eexists _, _; (split_and!; [done|by etrans|]); [done|]. cbn [from_option id ws_heap].
    split; [rewrite lookup_insert_eq; eauto|eauto].
Qed.
End answers.
End SubscriptionAnswers.
