(* ===== verification/ServiceTheorems.v ===== *)
(** * What is proved of the services

    The properties of the command simulator, of entity mutations and of state
    subscriptions, a module each. *)

From S2P Require Import Prelude Floats Kinds Size Extern Bitmap Adjacency ValueIndex Filter FilterParser Text Taxonomy Xeto Namespace Fitting Controlled Changelog Graph GraphInv Prepared BatchFacts Query QueryFacts System Application MeterFacts Units Sanitize SanitizeFacts View Reading ReadService ReadServiceFacts Command CommandExecute CommandFacts CommandRuns Shared WireText TypedPayload TypedFacts EntityWire EntityWireFacts EntityWireLaws Feed FeedFacts Mutation MutationFacts SubscriptionWire Subscription SubscriptionFacts SubscriptionRuns SubscriptionAnswers.

(** ** What is proved of commands

    The properties of the command simulator: the invariant of its store, the
    effect of a command on every path, what the outcome told to the caller
    means, and what expiry does. *)
Module CommandTheorems.
Import Meter Simulate.

Section commands.
Context {HO : HashOrder} {RB : Roaring} {CM : CacheMap} {FS : FilterSyntax} {ON : Ontology} {CA : Catalog}.
Context (reg : Units.t) (service : CommandService).

(** Enough fuel for the tries of a command: each that fails is charged. *)
Definition enough (fuel : nat) (b : Budget) : Prop := N.to_nat (ReadLimits.max_work (limits b)) < fuel.

(** The moves of the store: maintenance, and the critical sections of
    commands, each in an outside world of its own. *)
Inductive moves : Store.t → Store.t → Prop :=
| moves_maintain locked now s s' : maintain locked now s = Some s' → moves s s'
| moves_command (AM : Ambient) (SI : Simulator) scene fuel principal session request expected T
    (encode : HGrid → Budget → result ApiError T * Budget) w r w' :
    enough fuel (w_budget w) →
    execute reg service scene fuel principal session request expected encode w = Some (r, w') →
    moves (w_store w) (w_store w').

Lemma maintain_swept locked now s :
  store_ok (cs_limits service) s →
  ∃ s', maintain locked now s = Some s' ∧ store_ok (cs_limits service) s'.
Proof.
  intros Hok. unfold maintain. destruct locked; [by exists s|].
  exists (swept now s). split; [by apply expire_exact, (st_bytes _ _ Hok)|by apply swept_ok].
Qed.
Lemma execute_ran {AM : Ambient} {SI : Simulator} scene fuel principal session request expected {T}
    (encode : HGrid → Budget → result ApiError T * Budget) w :
  store_ok (cs_limits service) (w_store w) → enough fuel (w_budget w) →
  ∃ r w', execute reg service scene fuel principal session request expected encode w = Some (r, w') ∧
    effect reg service scene principal session request expected r w w' ∧
    ((w_pending w < CommandLimits.max_pending (cs_limits service))%N ∨ (∃ e, r = Err e) ∧ w' = w).
Proof.
  intros Hok Hfuel.
  pose proof (execute_wp reg service scene principal session request expected fuel encode w Hfuel Hok) as Hwp.
  unfold wp in Hwp. destruct (execute _ _ _ _ _ _ _ _ _ w) as [[r w']|]; [|done]. by exists r, w'.
Qed.

(** C25.  The store of the simulator, after any sequence of commands and
    maintenance: every point has seventeen levels, values of the kind and unit
    of its schema, a deadline only on the manual level and only with a value,
    and as effective value the first one from the top; the byte count is the
    exact sum and within the limit, as is the number of points; and neither
    maintenance nor a command, whatever it meets outside, panics or loops. *)
Theorem simulator_invariant s :
  rtc moves Store.default s →
  store_ok (cs_limits service) s ∧
  (∀ locked now, is_Some (maintain locked now s)) ∧
  (∀ (AM : Ambient) (SI : Simulator) scene fuel principal session request expected T
     (encode : HGrid → Budget → result ApiError T * Budget) w,
     w_store w = s → enough fuel (w_budget w) →
     is_Some (execute reg service scene fuel principal session request expected encode w)).
Proof.
  intros Hs. assert (Hok : store_ok (cs_limits service) s).
  { revert Hs. apply (rtc_ind_r (λ s, store_ok (cs_limits service) s)); [apply default_ok|].
    intros s1 s2 _ Hmove Hok. destruct Hmove as [locked now s1 s2 Hm|AM SI scene fuel principal session
      request expected T encode w r w' Hfuel Hrun].
    - destruct (maintain_swept locked now s1 Hok) as (s3 & Hm' & Hok'). congruence.
    - destruct (execute_ran scene fuel principal session request expected encode w Hok Hfuel)
        as (r0 & w0 & Hrun' & (_ & Hok' & _) & _). congruence. }
  split; [done|]. split.
  - intros locked now. destruct (maintain_swept locked now s Hok) as (s' & -> & _). eauto.
  - intros AM SI scene fuel principal session request expected T encode w <- Hfuel.
    destruct (execute_ran scene fuel principal session request expected encode w Hok Hfuel)
      as (r & w' & -> & _). eauto.
Qed.

(** The outcome of an error, by the cell. *)
Lemma conclude_open e :
  e ≠ ApiCommandUnknown → conclude false (Err e) 0 = (2%N, Rejected e).
Proof.
  intros He. change (conclude false (Err e) 0)
    with (2%N, if bool_decide (e = ApiCommandUnknown) then Unknown else Rejected e).
  by rewrite bool_decide_false.
Qed.
Lemma conclude_dispatched e : (conclude false (Err e) 1).2 = Unknown.
Proof. done. Qed.

Section one.
Context {AM : Ambient} {SI : Simulator} (scene : Scene).

(** C26.  A command returns, gives back its place among the pending ones and
    did one of two things.  Either it failed and changed nothing but slots
    that were due; or, and always when it succeeds, there was room for it
    among the pending ones, the attempt went from open to dispatched unless it
    only inspects, and it was performed: its preparation passed the check of
    budget, session and service, the principal, mode and shape guards, the
    bound on the scopes, and the policies' permissions on the action, the
    point, the entity and its schema, for an inspection the permission to
    read; the schema and the state were read from one graph under the pinned
    catalog; the try that published found both locks free, passed a later
    check and saw policies of the same scopes; in the critical section the
    catalog and the state were still those, two more checks passed, the second
    right before the dispatch, and a point already there was of that schema,
    incarnation and catalog with no change in the log touching its schema, or
    there was room for another point; and the store is the one with due slots
    expired in which the level asked for holds the normalized value, who sent
    it, the next generation and the deadline, and every other level and point
    is as it was. *)
Theorem command_effect fuel principal session request expected {T}
    (encode : HGrid → Budget → result ApiError T * Budget) w :
  store_ok (cs_limits service) (w_store w) → enough fuel (w_budget w) →
  ∃ r w', execute reg service scene fuel principal session request expected encode w = Some (r, w') ∧
    w_pending w' = w_pending w ∧ store_ok (cs_limits service) (w_store w') ∧
    ((∃ e, r = Err e) ∧ w_attempt w' = w_attempt w ∧
       (w_store w' = w_store w ∨ w_store w' = swept (sc_expire_at scene) (w_store w))
     ∨ (w_pending w < CommandLimits.max_pending (cs_limits service))%N ∧
       dispatched (CommandRequest.action request) (w_attempt w) (w_attempt w') ∧
       performed reg service scene (w_budget w) principal session request expected (w_store w) (w_store w')).
Proof.
  intros Hok Hfuel.
  destruct (execute_ran scene fuel principal session request expected encode w Hok Hfuel)
    as (r & w' & Hrun & (Hp & Hok' & Hcase) & Hroom). exists r, w'. split_and!; [done..|].
  destruct Hroom as [Hroom|[He ->]]; [|left; by auto]. destruct Hcase as [Hcase|Hcase]; auto.
Qed.

(** The state of the cell after an inspection. *)
Lemma conclude_inspected e cell :
  e ≠ ApiCommandUnknown → cell = 0%N ∨ cell = 2%N → (conclude true (Err e) cell).2 = Rejected e.
Proof.
  intros He Hc.
  assert ((conclude true (Err e) cell).2 = if bool_decide (e = ApiCommandUnknown) then Unknown else Rejected e)
    as -> by (by destruct Hc as [->| ->]).
  by rewrite bool_decide_false.
Qed.

(** An inspection leaves the cell, and writes no level. *)
Lemma inspection_ran fuel principal session request b store pending cell :
  CommandRequest.action request = Inspect → store_ok (cs_limits service) store → enough fuel b →
  ∃ r w', execute reg service scene fuel principal session request None (λ grid b, (Ok grid, b))
      (mkWorld b store (Some cell) pending) = Some (r, w') ∧
    w_attempt w' = Some cell ∧ w_pending w' = pending ∧ r ≠ Err ApiCommandUnknown ∧
    let expired := swept (sc_expire_at scene) store in
    let done := (∃ b', @Ok ReadError _ b = Ok b' ∧
                   performed reg service scene b' principal session request None store (w_store w')) ∧
                only_inspected (cq_id request) expired (w_store w') in
    match r with Ok _ => done | Err _ => w_store w' = store ∨ w_store w' = expired ∨ done end.
Proof.
  intros Hact Hok Hfuel.
  destruct (execute_ran scene fuel principal session request None (λ grid b, (Ok grid, b))
    (mkWorld b store (Some cell) pending) Hok Hfuel) as (r & w' & Hrun & (Hp & _ & Hcase) & _).
  unfold dispatched in Hcase. rewrite (bool_decide_true (CommandRequest.action request = Inspect)) in Hcase by done.
  destruct (frank_execute reg service scene fuel principal session request None (λ grid b, (Ok grid, b))
    ltac:(done) (mkWorld b store (Some cell) pending)) as [Hnu|Hno]; [|congruence].
  unfold wp in Hnu. rewrite Hrun in Hnu. exists r, w'. split; [done|].
  split; [by destruct Hcase as [(_ & ? & _)|[? _]]|].
  split_and!; [done..|]. destruct Hcase as [([e ->] & _ & [Hs|Hs])|[_ Hd]]; [by left|by right; left|].
  destruct r; [|right; right]; (split; [by exists b|by eapply performed_inspects]).
Qed.

(** C27.  What the caller is told is what happened, whether it waited or
    stopped before or after the critical section of its command, which goes on
    without it.  After [Rejected] a command that sets or releases a level
    changed nothing but slots that were due, and never will; after [Accepted]
    or [Unknown] it was performed, once.  An inspection is answered with its
    grid or rejected; either way it wrote no level, and at most its own point
    was added with the levels of a new one, or bound to the graph's state
    again. *)
Theorem outcome_honest fuel principal session request admitted race store pending :
  store_ok (cs_limits service) store →
  (∀ b, admitted = Ok b → enough fuel b) →
  ∃ outcome store', submit reg service scene fuel principal session request admitted race store pending
      = Some (outcome, store', pending) ∧
    let expired := swept (sc_expire_at scene) store in
    let done := ∃ b, admitted = Ok b ∧
      performed reg service scene b principal session request None store store' in
    if decide (CommandRequest.action request = Inspect) then
      match outcome with
      | Rejected _ => store' = store ∨ store' = expired ∨ done ∧ only_inspected (cq_id request) expired store'
      | Inspection _ => done ∧ only_inspected (cq_id request) expired store'
      | Accepted | Unknown => False
      end
    else
      match outcome with
      | Rejected _ => store' = store ∨ store' = expired
      | Accepted | Unknown => done
      | Inspection _ => False
      end.
Proof.
  intros Hok Hfuel. unfold submit.
  destruct (SubscriptionSession.matches session principal); cbn [negb].
  2:{ eexists _, _; split; [reflexivity|]. destruct (decide _); by left. }
  destruct admitted as [b|e]; [|eexists _, _; split; [reflexivity|]; destruct (decide _); by left].
  specialize (Hfuel b eq_refl).
  pose (task cell := execute_ran scene fuel principal session request None (λ grid b, (Ok grid, b))
    (mkWorld b store (Some cell) pending) Hok Hfuel).
  assert (Hfrank : frank (execute reg service scene fuel principal session request None
            (λ grid b, (Ok grid, b)))) by (by apply frank_execute).
  destruct (decide (CommandRequest.action request = Inspect)) as [Hact|Hact].
  - rewrite (bool_decide_true (CommandRequest.action request = Inspect)) by done.
    pose proof (λ cell, inspection_ran fuel principal session request b store pending cell Hact Hok Hfuel) as Hcell.
    destruct race as [|e|e].
    + destruct (Hcell 0%N) as (r & w' & -> & Ha & Hp & Hnu & Hr). cbn [mbind option_bind].
      eexists _, _. rewrite Hp, Ha. split; [reflexivity|]. destruct r as [grid|e]; [done|].
      by rewrite conclude_inspected by (congruence || by left).
    + destruct (conclude true (Err (api_error e)) 0) as [cell o] eqn:Hco.
      assert (o = Rejected (api_error e)) as ->.
      { change o with (cell, o).2. rewrite <- Hco. apply conclude_inspected; [apply api_error_frank|by left]. }
      destruct (Hcell cell) as (r & w' & -> & Ha & Hp & _ & Hr). cbn [mbind option_bind].
      eexists _, _. rewrite Hp. split; [reflexivity|]. destruct r; [by right; right|done].
    + destruct (Hcell 0%N) as (r & w' & -> & Ha & Hp & _ & Hr). cbn [mbind option_bind].
      eexists _, _. rewrite Hp, Ha. split; [reflexivity|].
      rewrite conclude_inspected by (apply api_error_frank || by left). destruct r; [by right; right|done].
  - rewrite (bool_decide_false (CommandRequest.action request = Inspect)) by done.
    unfold effect, dispatched in task. rewrite (bool_decide_false (CommandRequest.action request = Inspect)) in task by done.
    destruct race as [|e|e].
    + destruct (task 0%N) as (r & w' & Hrun & (Hp & _ & Hcase) & _). rewrite Hrun. cbn [mbind option_bind].
      destruct (Hfrank (mkWorld b store (Some 0%N) pending)) as [Hnu|Hno]; [|congruence].
      unfold wp in Hnu. rewrite Hrun in Hnu. eexists _, _. rewrite Hp. split; [reflexivity|].
      destruct Hcase as [((e & ->) & -> & Hs)|[[_ ->] Hd]].
      * cbn [from_option default w_attempt]. rewrite conclude_open by congruence. exact Hs.
      * destruct r as [grid|e]; [|rewrite conclude_dispatched]; by exists b.
    + rewrite conclude_open by apply api_error_frank.
      destruct (task 2%N) as (r & w' & -> & (Hp & _ & Hcase) & _). eexists _, _. cbn [mbind option_bind]. rewrite Hp.
      split; [reflexivity|]. destruct Hcase as [(_ & _ & Hs)|[[? _] _]]; [exact Hs|done].
    + destruct (task 0%N) as (r & w' & -> & (Hp & _ & Hcase) & _). eexists _, _. cbn [mbind option_bind]. rewrite Hp.
      split; [reflexivity|]. destruct Hcase as [(_ & -> & Hs)|[[_ ->] Hd]].
      * cbn [from_option default w_attempt]. rewrite conclude_open by apply api_error_frank. exact Hs.
      * cbn [from_option default]. rewrite conclude_dispatched. by exists b.
Qed.
End one.

(** Expiry clears exactly what is due: a slot whose deadline has come
    loses its value and its deadline and keeps who set it and its generation,
    every other slot and every schema is as it was; the effective value is
    the first one left; and expiring earlier or twice changes nothing of what
    expires in the end. *)
Theorem expiry_exact s now :
  store_ok (cs_limits service) s →
  ∃ s', Store.expire now s = Some s' ∧
    (∀ id, is_Some (Store.points s' !! id) ↔ is_Some (Store.points s !! id)) ∧
    (∀ id p p', Store.points s !! id = Some p → Store.points s' !! id = Some p' →
       pt_schema p' = pt_schema p ∧ pt_graph p' = pt_graph p ∧
       (∀ i slot, pt_slots p !! i = Some slot →
          pt_slots p' !! i = Some (if Slot.due now slot
                                   then mkSlot None (sl_who slot) (sl_generation slot) None else slot)) ∧
       Point.resolve p' = p') ∧
    (∀ now', (now ≤ now')%N → Store.expire now' s' = Store.expire now' s).
Proof.
  intros Hok. exists (swept now s).
  pose proof (swept_ok _ now _ Hok) as Hok'.
  split; [by apply expire_exact, (st_bytes _ _ Hok)|]. split; [|split].
  - intros id. rewrite swept_points. by rewrite fmap_is_Some.
  - intros id p p' Hp Hp'. rewrite swept_points, Hp in Hp'. injection Hp' as <-.
    rewrite expired_schema, expired_graph, expired_slots. split; [done|split; [done|split]].
    + intros i slot Hi. rewrite list_lookup_fmap, Hi. cbn. unfold Slot.expire. by destruct (Slot.due now slot).
    + apply pt_resolved, expired_ok. exact (st_points _ _ Hok _ _ Hp).
  - intros now' Hle. rewrite !expire_exact by first [apply (st_bytes _ _ Hok')|apply (st_bytes _ _ Hok)].
    f_equal. by eapply swept_twice.
Qed.
End commands.
End CommandTheorems.

(** ** What is proved of mutations

    Whatever submissions, publications, policies and other writers do, and in
    whatever order: an identity is performed at most once and exactly when its
    receipt says so, receipts never change their mind, and the answers of
    [submit] and [reconcile] are true. *)
Module MutationTheorems.
Import EntityGraph GraphInv Mutation MutationFacts.

Section mutations.
Context {HO : HashOrder} {HL : HashOrderLaws} {RB : Roaring} {RL : RoaringLaws}.
Context {CM : CacheMap} {CL : CacheLaws} {ON : Ontology} {CA : Catalog} {FS : FilterSyntax}.
Context {AM : Meter.Ambient} {BC : Broadcast} {CH : Chrono} {B6 : Base64} {SJ : SerdeJson}.
Context (service : Mutation.t) (sz : Layouts) (caps : Capacities).

Abbreviation graph w := (SharedGraph.inner (w_graph w)).
Abbreviation entries w := (rs_entries (w_receipts w)).
Abbreviation run_step := (run_step service sz caps).

(** A run of the service from a store that is new. *)
Definition runs (run : Run) : Prop :=
  ∃ w, inv (graph w) ∧ w_receipts w = no_receipts ∧ rtc run_step (run_start w) run.
Lemma runs_ok run : runs run → run_ok service sz caps run.
Proof. intros (w & Hi & Hr & Hs). eapply steps_ok; [|exact Hs]. by apply start_ok. Qed.

(** C33.  In every run, in whatever order slots are reserved, plans published,
    rejected or forgotten, policies replaced and the graph written by others:
    a kept plan can be published at any moment without a panic; every identity
    has its plan concluded at most once; it is settled exactly when its plan
    was concluded; and its receipt tells what that conclusion did to the
    graph, as the graphs right before and after it show: committed, its
    operations were done one by one between the revisions on the receipt, the
    first of them the one the caller expected; rejected, the graph is the same
    in every part.  Conclusions never overlap, and the receipts stay within
    their limits. *)
Theorem mutation_exactly_once run :
  runs run →
  (∀ ps m, m ∈ run_plans run → is_Some (publish ps m (run_world run))) ∧
  NoDup (ap_binding <$> run_applied run) ∧
  (∀ b r, entries (run_world run) !! b = Some r →
     (settled (rc_outcome r) = true ↔ b ∈ ap_binding <$> run_applied run)) ∧
  (∀ a, a ∈ run_applied run → ∃ r, entries (run_world run) !! ap_binding a = Some r ∧
     match rc_outcome r with
     | MCommitted rec => performed (rc_request r) rec (abs (ap_before a)) (abs (ap_after a))
     | MRejected _ _ => ap_after a = ap_before a
     | MUnknown _ _ => False
     end) ∧
  (∀ i j a a', i < j → run_applied run !! i = Some a → run_applied run !! j = Some a' →
     (version (ap_after a) ≤ version (ap_before a'))%N) ∧
  (N.of_nat (size (entries (run_world run))) ≤ MutationLimits.receipt_capacity (limits service))%N ∧
  (rs_bytes (w_receipts (run_world run)) ≤ MutationLimits.receipt_bytes (limits service))%N.
Proof.
  intros Hok%runs_ok. split; [|split; [|split; [|split; [|split; [|split]]]]]; try apply Hok.
  - intros ps m Hm. destruct (ok_plan _ _ _ _ Hok m Hm) as (r & Hr & _ & Hp).
    destruct (publish_spec _ _ _ ps m _ _ _ Hp Hr) as (w' & o & -> & _). done.
  - intros b r Hr. destruct (ok_receipt _ _ _ _ Hok b r Hr) as (_ & _ & Hh).
    unfold honest in Hh. destruct (rc_outcome r) as [rec|i why|i c]; cbn; split; try done; try (by intros; apply Hh).
    intros Hb. by destruct Hh as (_ & _ & []).
  - intros a Ha. destruct (ok_applied _ _ _ _ Hok a Ha) as (r & Hr & Hf & _). eauto.
Qed.

(** Receipts are final: at any later point of a run an identity is still
    bound to the same request, and once its outcome is committed or rejected
    it is that outcome forever. *)
Theorem receipts_final run run' b r :
  runs run → rtc run_step run run' → entries (run_world run) !! b = Some r →
  ∃ r', entries (run_world run') !! b = Some r' ∧
    rc_canonical r' = rc_canonical r ∧ rc_request r' = rc_request r ∧
    (settled (rc_outcome r) = true → rc_outcome r' = rc_outcome r).
Proof.
  intros Hok%runs_ok Hs Hr. destruct (steps_keep _ _ _ _ _ _ _ Hok Hs Hr) as (r' & Hr' & Hc & Hq & Hk).
  exists r'. split; [done|]. split; [done|]. split; [done|]. intros Hset. by rewrite Hk.
Qed.

(** C34.  A submission returns, whatever the provider does with its plan within
    the rules for providers, and is part of the run.  An identity that is
    already bound changes nothing.  The answer names the identity of the
    request; if it says that the batch was committed, so does the receipt of
    the identity, for this very request; if it says that the batch was
    rejected, so does the receipt, or nothing at all has changed. *)
Theorem submit_honest commit sc principal request w plans done b :
  ProviderLaws service sz caps commit →
  runs (mkRun w plans done) → seen_in service sz caps sc (mkRun w plans done) →
  ∃ w' o b', submit service sz caps sc principal request commit w b = Some (w', o, b') ∧
    (∃ plans' done', rtc run_step (mkRun w plans done) (mkRun w' plans' done')) ∧
    (is_Some (entries w !! binding principal request) → w' = w) ∧
    outcome_identity o = br_identity request ∧
    let receipt r := entries w' !! binding principal request = Some r ∧ rc_outcome r = o ∧
                     Entity.encode request = Ok (rc_canonical r) in
    match o with
    | MCommitted _ => ∃ r, receipt r
    | MRejected _ _ => w' = w ∨ ∃ r, receipt r
    | MUnknown _ _ => True
    end.
Proof.
  intros HP Hok%runs_ok Hseen. unfold submit.
  destruct (prepare_total service sz caps sc principal request w b (seen_graph _ _ _ _ _ Hseen))
    as [[[[o|[m t]]|reason] b1] Hprep]; rewrite Hprep.
  - eexists w, o, b1. split; [done|]. split; [by exists plans, done|]. split; [done|].
    apply (prepare_answers service sz caps sc principal request b o b1 (mkRun w plans done)) in Hprep
      as [Hid Hset]; [|done..].
    split; [done|]. destruct o; [by apply Hset|by left|done].
  - destruct (submit_reserved _ _ _ _ _ _ _ _ _ _ _ _ _ _ HP Hok Hseen Hprep)
      as (w' & o & Hc & Hrun & Hfree & Hans).
    rewrite Hc. cbn [mbind option_bind]. destruct (Hans b1) as [Hid Hset].
    destruct (acknowledge sc principal request o (w_receipts w') b1) as [o' b2].
    eexists w', o', b2. split; [done|]. split; [done|].
    split; [intros [? ?]; congruence|]. split; [done|].
    destruct o'; [by apply Hset|right; by apply Hset|done].
  - eexists w, _, b1. split; [done|]. split; [by exists plans, done|]. split; [done|]. split; [done|]. by left.
Qed.

(** What [reconcile] answers is true at that point of the run: committed
    if the batch was performed, with its receipt; rejected if the conclusion
    of its plan changed nothing and no plan of it is left; pending if none of
    its plans was concluded so far; missing if
    the identity was never bound. *)
Theorem reconcile_truthful run misses misses' principal identity b o b' :
  runs run → reconcile misses misses' principal identity (run_world run) b = (Ok o, b') →
  let bound := mkBinding (principal_key principal) identity in
  match o with
  | MCommitted rec => ∃ a request, a ∈ run_applied run ∧ ap_binding a = bound ∧
      performed request rec (abs (ap_before a)) (abs (ap_after a))
  | MRejected i _ =>
      i = identity ∧ (∃ a, a ∈ run_applied run ∧ ap_binding a = bound ∧ ap_after a = ap_before a) ∧
      (bound ∉ pm_binding <$> run_plans run)
  | MUnknown i c =>
      i = identity ∧ (bound ∉ ap_binding <$> run_applied run) ∧
      (c = UPending ∧ is_Some (entries (run_world run) !! bound) ∨
       c = UMissing ∧ entries (run_world run) !! bound = None)
  end.
Proof.
  intros Hok%runs_ok Hrec bound. apply reconcile_Ok in Hrec. fold bound in Hrec.
  destruct (entries (run_world run) !! bound) as [r|] eqn:Hr; subst o.
  - destruct (ok_receipt _ _ _ _ Hok _ _ Hr) as (Hb & _ & Hh). cbn in Hb. unfold honest in Hh.
    assert (Hfull : bound ∈ ap_binding <$> run_applied run → ∃ a, a ∈ run_applied run ∧ ap_binding a = bound ∧
              fulfils (rc_request r) (rc_outcome r) a).
    { intros (a & Ha & Hin)%list_elem_of_fmap. destruct (ok_applied _ _ _ _ Hok a Hin) as (x & Hx & Hf & _).
      rewrite <-Ha, Hr in Hx. injection Hx as <-. by exists a. }
    destruct (rc_outcome r) as [rec|i why|i c]; rewrite <-?Hb in Hh.
    + destruct (Hfull (proj2 Hh)) as (a & Ha & Hab & Hf). by exists a, (rc_request r).
    + destruct Hh as (-> & Hd & Hp). split_and!; [done| |done]. by apply Hfull.
    + destruct Hh as (-> & -> & Hd). split; [done|]. split; [done|]. by left.
  - split; [done|]. split; [|by right]. intros (a & Ha & Hin)%list_elem_of_fmap.
    destruct (ok_applied _ _ _ _ Hok a Hin) as (r & Hr' & _). congruence.
Qed.
End mutations.
End MutationTheorems.

(** ** Theorems about subscriptions

    The messages, what a client holds, how concurrent rounds publish, the
    registry and its limits, and a request as a whole. *)
Module SubscriptionTheorems.
Import Meter Reading Subscription SubscriptionFacts SubscriptionRuns SubscriptionAnswers.

(** C35.  Reading and writing the messages of state subscriptions are inverse: a
    value is read as a request exactly when the request is written as that
    value and its identities are sixteen bytes and its numbers 64 bits wide;
    and as an outcome when, besides, the rows of a delivery fit the reader's
    budget for values and its removed ids the bound on ids, which the writer
    does not check. *)
Theorem subscription_messages_exact {HO : HashOrder} {HL : HashOrderLaws} v :
  (∀ r : SubscriptionRequest, from_kind v = Ok r ↔ SubWire.request_valid r ∧ to_kind r = Ok v) ∧
  (∀ o : SubscriptionOutcome, from_kind v = Ok o ↔ SubWire.outcome_valid o ∧ to_kind o = Ok v).
Proof. split; intros; apply from_kind_exact. Qed.

Section runs.
Context {HO : HashOrder} {HL : HashOrderLaws} {RB : Roaring} {RL : RoaringLaws}.
Context {CM : CacheMap} {CML : CacheLaws} {ON : Ontology} {CA : Catalog} {FS : FilterSyntax} {AM : Ambient}.
Context {CH : Chrono} {CL : ChronoLaws} {B6 : Base64} {BL : Base64Laws} {SJ : SerdeJson} {SL : SerdeJsonLaws}.
Context (service : Subscription.t) (world : EntityGraph.t → PolicySnapshot → Prop).
Hypothesis Hworld : ∀ g p, world g p → GraphInv.inv g ∧ typed_graph g.

(** C36.  A client holds what it watches.  In every run, in any interleaving of
    requests, maintenance, removals and a shutdown, a client that keeps the
    rows of the deliveries whose acknowledgement it was told holds exactly the
    rows that a policy showed of the watched ids in a graph at the
    acknowledged revision; with the delivery that is prepared applied, those
    at the revision the delivery goes to. *)
Theorem subscription_replica s addr e l c :
  rtc (step service world) init s →
  ws_heap (sy_now s) !! addr = Some e → wr_status (en_state e) = StLive l → sy_clients s !! addr = Some c →
  match lv_prepared l with
  | None => cl_pending c = None ∧ exact world (lv_ids l) (lv_acknowledged l) (cl_rows c)
  | Some pd =>
      cl_pending c = Some (pd_delivery pd) ∧ dl_from (pd_delivery pd) = lv_acknowledged l ∧
      exact world (lv_ids l) (dl_through (pd_delivery pd)) (apply_delivery (pd_delivery pd) (cl_rows c)) ∧
      (dl_initial (pd_delivery pd) = false → exact world (lv_ids l) (lv_acknowledged l) (cl_rows c))
  end.
Proof.
  intros Hr He Hst Hc. pose proof (watches_reachable_ok service world Hworld s Hr) as Hs.
  destruct (so_cells _ _ _ Hs addr e He) as (c' & Hc' & Hok). assert (c' = c) as -> by congruence.
  pose proof (eo_status _ _ _ _ Hok) as Hlive. rewrite Hst in Hlive. destruct Hlive as [Hl [Hp Hrows]].
  destruct (lv_prepared l) as [pd|] eqn:Hpd.
  - destruct (lo_prepared _ _ _ Hl pd Hpd) as [H1 _ _ H4 H5 H6 H7 _ _].
    assert (Hap : apply_delivery (pd_delivery pd) (cl_rows c) = rows_of (pd_projection pd)).
    { eapply delivery_takes; [apply (lo_projection _ _ _ Hl)|done..|]. intros Hi. apply Hrows. intros pd' [= <-]. done. }
    rewrite Hap. split_and!; [done..|]. intros Hi. rewrite Hrows by (intros pd' [= <-]; done).
    apply (lo_exact _ _ _ Hl). rewrite Hpd. by intros pd' [= <-].
  - split; [done|]. rewrite Hrows by done. apply (lo_exact _ _ _ Hl). by rewrite Hpd.
Qed.

(** C37.  Publications are serial.  A round that looked at a watch in any
    earlier state of a run and now publishes finds the very record it looked
    at, in a registered cell, unexpired, with the graph still in the state it
    captured and the session neither closed nor expired: its new record is the
    one [prepare] makes of the current record and the current graph, one
    revision on.  Nothing else is written: the cell keeps its identity,
    session and every other field and takes the record, whether it is live and
    the bytes it grew by, if any; the registry keeps its entries and bindings
    and counts those bytes, for which it had room; every other cell is as it
    was. *)
Theorem subscription_serial s r addr session request reserved e b i b1 w o b2 :
  rtc (step service world) init s →
  ro_seen r ∈ states s → ro_met r = sy_now s → ws_heap (ro_seen r) !! addr = Some e →
  look service (ro_look r) session request reserved e b = Some (Ok i, b1) →
  act service (ro_act r) addr session i (ro_met r) b1 = Some (Ok (w, Some (o, true)), b2) →
  ∃ e0 next p ids c b3 b4,
    let t := ws_table (sy_now s) in
    let growth := (required e0 next - en_reservation e0)%N in
    ws_heap (sy_now s) !! addr = Some e0 ∧ en_state e0 = en_state e ∧
    rg_entries t !! sid_watch (en_identity e0) = Some addr ∧
    lk_policy (ro_look r) = Ok p ∧ captured (lk_graph (ro_look r)) p ids c ∧
    ac_graph (ro_act r) = Some (EntityGraph.state (lk_graph (ro_look r))) ∧
    halted (ac_sight (ro_act r)) session = None ∧
    match lease_until (wr_status (en_state e0)) with
    | Some until => (ac_lease_now (ro_act r) < until)%N
    | None => True
    end ∧
    prepare service (ro_look r) (en_identity e0) ids c request (en_state e0) b3 = Some (Ok (next, o), b4) ∧
    wr_revision next = (wr_revision (en_state e0) + 1)%N ∧
    (growth ≤ SubscriptionLimits.max_retained_bytes (limits service) - rg_reserved t)%N ∧
    w = mkWatches (mkRegistry (rg_entries t) (rg_bindings t) (rg_reserved t + growth))
          (<[addr := set_state next (is_live (wr_status next)) (en_reservation e0 + growth) e0]>
             (ws_heap (sy_now s))).
Proof.
  intros Hr Hseen Hmet He Hl%look_intent Ha%act_acted. pose proof (watches_reachable_ok service world Hworld s Hr) as Hs.
  rewrite Hmet in Ha. remember (Some (o, true)) as a eqn:Eo.
  destruct Ha as [i a Hno|e0 reason He0 Hle|e0 observed next o' growth t He0 Hk Hg Hh Hlease Hgr];
    [by destruct (Hno o)|done|]. injection Eo as ->.
  destruct (publish_serial service world s _ _ _ _ _ _ _ _ _ _ Hs Hseen He He0 Hl eq_refl) as [Hev Hst].
  destruct Hl as [_ (p & ids & c & b0 & b0' & Hpol & Hcap & -> & Hprep & _)].
  destruct (prepare_published _ _ _ _ _ _ _ _ _ _ _ (ro_act r) session Hprep) as [Hpub _]. rewrite Hpub.
  rewrite <-Hst, <-(ev_identity _ _ Hev) in Hprep. rewrite (cd_graph _ _ _ _ Hcap) in Hg.
  pose proof (prepare_next service _ _ _ _ _ _ _ _ _ _ Hprep) as [Hn _].
  exists e0, next, p, ids, c, b0, b0'. cbv zeta. split_and!; done.
Qed.

(** C38.  The registry stays within its limits.  In every run the active
    watches, the bindings, those of each session and the reserved bytes are
    within the configured limits, the reserved bytes are the sum of the
    reservations of the registered watches, and the bindings are exactly the
    sessions and keys of the registered watches. *)
Theorem subscription_registry s :
  rtc (step service world) init s →
  let w := sy_now s in let l := limits service in
  (N.of_nat (active_watches w) ≤ SubscriptionLimits.max_watches l)%N ∧
  (N.of_nat (binding_count w) ≤ SubscriptionLimits.max_bindings l)%N ∧
  (∀ session, (count_of (λ e, own session e && en_active e) w ≤ SubscriptionLimits.max_watches_per_session l)%N ∧
     (count_of (own session) w ≤ SubscriptionLimits.max_bindings_per_session l)%N) ∧
  retained_reservations w = measure en_reservation (reg w) ∧
  (retained_reservations w ≤ SubscriptionLimits.max_retained_bytes l)%N ∧
  (∀ session key watch, rg_bindings (ws_table w) !! (session, key) = Some watch ↔
     ∃ addr e, rg_entries (ws_table w) !! watch = Some addr ∧ ws_heap w !! addr = Some e ∧
       sid_watch (en_identity e) = watch ∧ binding_of e = (session, key)).
Proof.
  intros Hr w l. pose proof (so_registry _ _ _ (watches_reachable_ok service world Hworld s Hr)) as Hw. fold w in Hw.
  destruct (rk_limits _ _ Hw) as [H1 H2 H3 H4 H5 H6]. split_and!; [|..|done|done|].
  - change (N.of_nat (active_watches w)) with (count_of en_active w). by rewrite count_reg.
  - unfold binding_count. rewrite <-(reg_bindings (limits service)) by done. by rewrite <-measure_size.
  - intros session. rewrite !count_reg. auto.
  - intros session key watch. rewrite (rk_binding _ _ Hw). split.
    + intros (e & He & Hb). pose proof (reg_watch _ _ _ _ Hw He). rewrite lookup_reg in He.
      apply bind_Some in He as (addr & Ha & He). eauto 8.
    + intros (addr & e & Ha & He & _ & Hb). exists e. by rewrite lookup_reg, Ha.
Qed.

(** C39.  Clients accept their answers.  Whatever the service answers, after
    any run and in any interleaving, passes the check that adapters and
    clients make before they report an operation as successful: it is well
    formed, it is about the watch that was asked about, and it is one of the
    answers this request can have, with its own scope, token and revision. *)
Theorem subscription_answers_accepted s sc principal session request legacy connection b o ws b' :
  rtc (step service world) init s → observes s sc →
  (∀ b1 addr created b2,
     locate service (rs_locate sc) principal session request legacy connection (rs_found sc) b1
       = Some (Ok (inr (addr, created)), b2) → after_lookup sc (default (rs_found sc) created)) →
  execute service sc principal session request legacy connection b = Some (Ok o, ws, b') →
  SubWire.validate_for_request o request = Ok ().
Proof.
  intros Hr [Hf Hin] Hafter H. pose proof (watches_reachable_ok service world Hworld s Hr) as Hs. unfold execute in H.
  destruct (admission _ _ _ _ _ b) as [[out|] b1] eqn:Ha; [|done].
  apply admission_Ok in Ha as [Hb Hout].
  assert (Hshort : (∃ reason, o = SRejected reason) ∨ (∃ reason, o = SResync reason) →
    SubWire.validate_for_request o request = Ok ()) by by apply short_validates.
  destruct out as [o'|].
  { injection H as <- _ _. apply Hshort. by apply Hout. }
  destruct (decide (request = SDescribe)) as [->|Hne].
  { destruct (rs_policy sc) as [p|]; [|done]. destruct (p_operation p _); injection H as <- _ _; done. }
  assert (execute_watch service sc principal session request legacy connection b1 = Some (Ok o, ws, b')) as He
    by by destruct request.
  clear H. unfold execute_watch in He. rename He into H. destruct (locate _ _ _ _ _ _ _ _ b1) as [[[[o'|[addr created]]|] b2]|] eqn:Hl; [..|done|done].
  - injection H as <- _ _. apply Hshort. by eapply locate_short.
  - destruct (attempts _ _ _ _ _ _ b2) as [[[[[w o'] d]|] b3]|] eqn:Hat; [|done|done].
    injection H as <- _ _. destruct (locate_targets service world s _ _ _ _ _ _ _ _ _ _ _ Hs Hf Hl) as (e0 & He0 & Ht).
    eapply answer_validates; [exact Ht|done|].
    eapply (attempts_answer service world s); [done| |intros; by apply Hin|done|done|exact Hat].
    intros r e Hrr He. destruct (Hafter _ _ _ _ Hl r Hrr) as [Hfol _].
    destruct (Hfol addr e0 He0) as (e' & He' & Hev). rewrite <-(ev_identity _ _ Hev). congruence.
Qed.

(** C40.  A request returns.  When its rounds see states of a run that come
    after its lookup, and the clock has passed its deadline by the [n]-th
    observation, [n] rounds and one more are enough for an answer or an error,
    and nothing in between panics: a binding has its entry, a record that is
    being prepared belongs to a creation, and a held entry keeps its cell. *)
Theorem subscription_returns s sc principal session request legacy connection b n :
  rtc (step service world) init s → observes s sc →
  (∀ b1 addr created b2,
     locate service (rs_locate sc) principal session request legacy connection (rs_found sc) b1
       = Some (Ok (inr (addr, created)), b2) → after_lookup sc (default (rs_found sc) created)) →
  (∀ m, n ≤ m → (deadline b ≤ at_deadline (moments m))%N) → n < length (rs_rounds sc) →
  ∃ answer ws b', execute service sc principal session request legacy connection b = Some (answer, ws, b').
Proof.
  intros Hr [Hf _] Hafter Hd Hn. pose proof (watches_reachable_ok service world Hworld s Hr) as Hs. unfold execute.
  pose proof (ahead_admission (rs_sight sc) principal session request legacy b) as Hb1.
  destruct (admission _ _ _ _ _ b) as [[[o|]|] b1]; [eauto| |eauto]. cbn [snd] in Hb1.
  destruct (decide (request = SDescribe)) as [->|Hne]; [eauto|].
  assert (∃ answer ws b', execute_watch service sc principal session request legacy connection b1
    = Some (answer, ws, b')) as H; [|by destruct request]. unfold execute_watch.
  destruct (locate_returns service (limits service) (rs_locate sc) principal session request legacy connection
    (rs_found sc) b1) as (r & b2 & Hl & Hb2 & Hloc); [by eapply so_registries|done|]. rewrite Hl.
  destruct r as [[o|[addr created]]|]; [eauto| |eauto]. destruct Hloc as [[e0 He0] Hcr].
  destruct (attempts _ _ _ _ _ _ b2) as [[[[[w o] d]|] b3]|] eqn:Hat; [eauto|eauto|]. exfalso. revert Hat.
  eapply (attempts_return _ _ _ _ _ _ _ n); [done| | | |lia].
  - intros [? ?]%bool_decide_eq_true. eauto.
  - intros x Hx. destruct (Hafter _ _ _ _ Hl x Hx) as [H1 H2].
    destruct (H1 _ _ He0) as (? & ? & _), (H2 _ _ He0) as (? & ? & _). eauto.
  - intros m Hm. rewrite (MeterFacts.same_deadline _ _ Hb2), (MeterFacts.same_deadline _ _ Hb1). by apply Hd.
Qed.
End runs.
End SubscriptionTheorems.
