(* ===== verification/Demo.v ===== *)
(** * A concrete instance

    The interfaces instantiated with executable definitions and a small
    graph, a site with a piece of equipment and a point, on which the
    hypotheses of the theorems are evaluated. *)

From Stdlib Require Import Ascii.
From S2P Require Import Prelude Floats Kinds Size Extern Bitmap Adjacency ValueIndex Filter FilterParser Text Taxonomy Xeto Namespace Fitting Changelog Graph GraphInv Prepared PreparedFacts BatchFacts Recovery Query QueryFacts System Shared FilterParserFacts FilterPrint.

Module Demo.
Import EntityGraph GraphInv.

Definition ref (id : string) : Kind := KRef (mkHRef id None).

(** ** A namespace *)

#[export] Existing Instance canonical_order.
#[export] Existing Instance canonical_order_laws.
#[export] Existing Instance ascii_casing.
#[export] Existing Instance ascii_casing_laws.
#[export] Existing Instance literal_regex.
#[export] Existing Instance literal_regex_laws.
#[export] Instance float_digits : FloatText := λ _, "0".

(** Strict catalogs of one declaration, fitted by its markers. *)
Definition one_declaration : StrictCatalog := {|
  SCatalog := Spec;
  declarations c := [c];
  declaration c q := if decide (spec_qname c = q) then Some c else None;
  strict_fits c _ e _ := forallb (HDict.has e) (Spec.mandatory_markers c)
|}.
Lemma one_declaration_laws : @StrictCatalogLaws one_declaration.
Proof.
  split; simpl; [intros; apply NoDup_singleton|]. intros c q s. rewrite list_elem_of_singleton.
  case_decide; naive_solver.
Qed.
#[export] Existing Instance one_declaration.
#[export] Existing Instance one_declaration_laws.
#[export] Instance ontology : Ontology := Fitting.namespace_ontology.

(** Two libraries, as rows of a Trio file; the second depends on the
    first. *)
Definition sym (s : string) : Kind := KSymbol s.
Definition def_row (symbol lib : string) (is_ : list string) : HDict :=
  {[ "def" := sym symbol; "lib" := sym ("lib:" +:+ lib); "is" := KList (sym <$> is_) ]}.
Definition ph_rows : list HDict :=
  [ def_row "marker" "ph" []; def_row "lib" "ph" ["marker"]; def_row "lib:ph" "ph" ["lib"];
    <["mandatory" := KMarker]> (def_row "site" "ph" ["marker"]);
    <["mandatory" := KMarker]> (def_row "equip" "ph" ["marker"]);
    def_row "point" "ph" ["marker"]; def_row "hot" "ph" ["marker"]; def_row "water" "ph" ["marker"];
    def_row "hot-water" "ph" ["water"] ].
Definition acme_rows : list HDict :=
  [ <["depends" := KList [sym "lib:ph"]]> (def_row "lib:acme" "acme" ["lib"]);
    def_row "ahu" "acme" ["equip"] ].

Definition marker_slot (name : string) : Slot := mkSlot name None ∅ None true false [].
Definition query_slot (name : string) (meta : gmap string Kind) : Slot :=
  mkSlot name (Some "Query") meta None false true [].
Definition site_spec : Spec :=
  mkSpec "ph::Site" "Site" "ph" None ∅ [marker_slot "site"; mkSlot "dis" (Some "Str") ∅ None false false []]
    false "".
Definition equip_spec : Spec :=
  mkSpec "ph::Equip" "Equip" "ph" None ∅
    [marker_slot "equip"; query_slot "points" {[ "of" := KStr "Point"; "inverse" := KStr "ph::Point.equips" ]}]
    false "".
Definition point_spec : Spec :=
  mkSpec "ph::Point" "Point" "ph" None ∅
    [marker_slot "point"; query_slot "equips" {[ "of" := KStr "equip"; "via" := KStr "equipRef+" ]}]
    false "".
Definition ahu_spec : Spec :=
  mkSpec "acme::Ahu" "Ahu" "acme" (Some "ph::Equip") ∅ [marker_slot "ahu"] false "".

Definition ns : Namespace.t :=
  foldl Namespace.register_spec
    (foldl Namespace.register_lib Namespace.new (TrioLoader.load_trio (ph_rows ++ acme_rows)))
    [site_spec; equip_spec; point_spec; ahu_spec].

Definition catalog : @Catalog ontology := {|
  ActivatedCatalog := unit;
  catalog_namespace _ := mkArc 7 (ns : @DefNamespace ontology);
  catalog_rebase c _ := c
|}.

(** Scalars: the two boolean literals. *)
Definition lexical : Lexical := {|
  unicode_alphanumeric c := bool_decide (c < 128)%N && is_ascii_alphanumeric (ascii_of_N c);
  zinc_read_val s :=
    if String.prefix "true" s then Ok (KBool true, 4%N)
    else if String.prefix "false" s then Ok (KBool false, 5%N)
    else Err "expected a scalar"
|}.
Lemma lexical_laws : @LexicalLaws lexical.
Proof.
  intros s v n. simpl. destruct (String.prefix "true" s) eqn:Ht.
  - intros [= <- <-]. apply FilterParserFacts.prefix_length in Ht. unfold str_len. simpl in Ht. lia.
  - destruct (String.prefix "false" s) eqn:Hf; [|done]. intros [= <- <-].
    apply FilterParserFacts.prefix_length in Hf. unfold str_len. simpl in Hf. lia.
Qed.
Definition literals : @Literals lexical := λ v,
  match v with KBool true => "true" | KBool false => "false" | _ => "" end.
Lemma bool_readable b : @readable lexical literals (KBool b).
Proof.
  destruct b; (split; [done|]); (split; [done|]); intros tail Htail; destruct Htail as [->|[s ->]];
    reflexivity.
Qed.

#[export] Existing Instance set_roaring.
#[export] Existing Instance set_roaring_laws.
Definition cache_map : CacheMap := list_index_map (string * N) (list string).
Lemma cache_laws : @IndexMapLaws (string * N) (list string) _ cache_map.
Proof. apply list_index_map_laws. Qed.
#[export] Existing Instance cache_map.
#[export] Existing Instance cache_laws.
#[export] Existing Instance catalog.
#[export] Existing Instance lexical.
#[export] Existing Instance parser_syntax.
#[export] Existing Instance list_broadcast.
#[export] Existing Instance list_broadcast_laws.

(** ** A graph *)

Definition site : HDict := {[ "id" := ref "s"; "site" := KMarker; "dis" := KStr "Main" ]}.
Definition equip : HDict := {[ "id" := ref "e"; "equip" := KMarker; "siteRef" := ref "s" ]}.
Definition point : HDict := {[ "id" := ref "p"; "point" := KMarker; "equipRef" := ref "e" ]}.

Definition incarnation : list Byte.byte := replicate 16 Byte.x01.
Definition add_row (g : t) (row : HDict) : t :=
  match add 0 g row with Some (g, _) => g | None => g end.
Definition empty : t := with_changelog_capacity incarnation 4.
Definition graph : t := foldl add_row empty [site; equip; point].

Lemma add_row_step g row : rtc System.step g (add_row g row).
Proof.
  unfold add_row. destruct (add 0 g row) as [[g' r]|] eqn:Ha; [|apply rtc_refl].
  apply rtc_once. by eapply System.step_add.
Qed.
Lemma add_rows_reachable (rows : list HDict) g :
  System.reachable g → System.reachable (foldl add_row g rows).
Proof.
  revert g. induction rows as [|row rows IH]; intros g Hr; [done|]. cbn [foldl]. apply IH.
  destruct Hr as (g0 & H0 & Hs). exists g0. split; [done|]. etrans; [done|apply add_row_step].
Qed.
Lemma graph_reachable : System.reachable graph.
Proof.
  apply add_rows_reachable. exists empty. split; [apply System.initial_capacity|apply rtc_refl].
Qed.
Lemma graph_inv : inv graph.
Proof. apply System.reachable_inv, graph_reachable. Qed.
Lemma empty_inv : inv empty.
Proof. apply with_changelog_capacity_inv. Qed.

(** The graph answers. *)
Example demo_version : version graph = 3%N.
Proof. vm_compute. reflexivity. Qed.
Example demo_read : (GraphQuery.read_all graph "equipRef->siteRef->site" 0).2 = Ok [point].
Proof. vm_compute. reflexivity. Qed.
End Demo.
