(* ===== verification/Theorems.v ===== *)
(** * What the development proves

    The properties of the graph engine, each in the terms of the modelled
    operations.  Their proofs apply the lemmas of the component files; the
    concrete instances they are evaluated on are in [Witnesses.v]. *)

From S2P Require Import Prelude Floats Kinds Size Extern Bitmap Adjacency ValueIndex Filter FilterParser Changelog Graph GraphInv Prepared PreparedFacts BatchFacts Recovery Query QueryFacts Hierarchy System FilterParserFacts FilterPrint RecoveryFacts Shared SharedFacts.

(** ** Graph and queries *)

Section graph.
Import EntityGraph GraphQuery GraphInv QueryFacts.
Context {HO : HashOrder} {HL : HashOrderLaws} {RB : Roaring} {RL : RoaringLaws}.
Context {CM : CacheMap} {CL : CacheLaws} {ON : Ontology} {CA : Catalog} {FS : FilterSyntax}.
Implicit Types (g : EntityGraph.t) (e : HDict) (ref : string).

(** C1.  [read_all] answers like a plain evaluation of the parsed filter over
    every entity: a parse error, the rejection of exactly the spec terms that
    do not resolve, or the selected entities, cut to the limit.  The tag and
    value indexes and the two caches never change the answer, only the order
    of its rows; the read changes nothing but the caches and keeps the
    invariant. *)
Theorem read_all_correct g text limit :
  inv g →
  inv (read_all g text limit).1 ∧ same_but_caches g (read_all g text limit).1 ∧
  read_answer g text limit (read_all g text limit).2.
Proof. apply read_all_spec. Qed.

(** C2.  [add] returns without panicking, keeps the invariant and refines the
    abstract insertion: it succeeds exactly when the abstract graph does, with
    the same error otherwise (missing or non-reference id, duplicate, ids or
    revisions exhausted), and an error leaves the graph as it was. *)
Theorem add_refines now g e :
  inv g →
  ∃ g' r, add now g e = Some (g', r) ∧ inv g' ∧ GraphSpec.add (abs g) e = (abs g', r) ∧
    (is_ok r = true → extends g g') ∧ (is_ok r = false → g' = g).
Proof. apply add_spec. Qed.

(** C3.  [update] returns, keeps the invariant and refines the abstract patch:
    an unknown entity, a patch that would change the id and an exhausted
    revision are rejected in that order, an empty patch changes nothing, and
    any other patch merges into the entity and logs one change. *)
Theorem update_refines now g ref changes :
  inv g →
  ∃ g' r, update now g ref changes = Some (g', r) ∧ inv g' ∧
    GraphSpec.update (abs g) ref changes = (abs g', r) ∧
    (g' = g ∨ (r = Ok () ∧ extends g g')).
Proof. apply update_spec. Qed.

(** C4.  [remove] returns, keeps the invariant and refines the abstract
    deletion, returning the removed entity; an error leaves the graph as it
    was. *)
Theorem remove_refines now g ref :
  inv g →
  ∃ g' r, remove now g ref = Some (g', r) ∧ inv g' ∧
    GraphSpec.remove (abs g) ref = (abs g', r) ∧
    (is_ok r = true → extends g g') ∧ (is_ok r = false → g' = g).
Proof. apply remove_spec. Qed.

(** C5.  Every graph reached from a new one by any sequence of mutations,
    batches, reads, index registrations and catalog changes satisfies the
    invariant: the id maps are inverse bijections, the three indexes describe
    the live rows, the log is well formed and the caches hold right answers. *)
Theorem reachable_invariant g : System.reachable g → inv g.
Proof. apply System.reachable_inv. Qed.

(** C6.  A subscriber that holds the entities of an earlier state and applies
    the changes [changes_since] returns for its version obtains exactly the
    current entities, whatever operations ran in between; otherwise it is
    told of the gap. *)
Theorem subscriber_replay g1 g2 l :
  inv g1 → rtc System.step g1 g2 → changes_since g2 (version g1) = Ok l →
  foldl apply_diff (entities g1) l = entities g2 ∧ (version g1 + len l)%N = version g2.
Proof. intros Hi Hs Hl. destruct (System.replays_steps g1 g2 Hi Hs) as [_ Hr]. by apply Hr. Qed.

(** C7.  A batch prepared on a graph and applied at any later point of its
    run never panics.  It is refused with the graph unchanged, or all its
    operations take effect, as if they were done one by one on the graph as
    it then is, in as many revisions and one unit of changes. *)
Theorem batch_atomic sz caps g0 g v ops limits p now reserved :
  inv g0 → rtc System.step g0 g →
  PreparedBatch.prepare_batch sz caps g0 v ops limits = Some (Ok p) →
  ∃ g' r, PreparedBatch.apply_prepared now reserved g p = Some (g', r) ∧
    rtc System.step g g' ∧
    match r with
    | Ok s => s = PreparedBatch.span_of p ∧
        try_fold BatchFacts.perform (abs g) ops = Ok (abs g') ∧
        extends_by (len (PreparedBatch.diffs p)) g g'
    | Err _ => g' = g
    end.
Proof. apply System.delayed_plan_spec. Qed.

(** C8.  Preparing a batch never panics.  The entity error it reports is the
    very error the operations done one by one stop with - except that where
    both the ids and the revisions are exhausted it reports the first and the
    operations the second - and where the operations stop with an error there
    is no plan. *)
Theorem prepare_errors_genuine sz caps g v ops limits :
  inv g →
  ∃ r, PreparedBatch.prepare_batch sz caps g v ops limits = Some r ∧
    (∀ err, r = Err (BEntity err) →
       ∃ err', try_fold BatchFacts.perform (abs g) ops = Err err' ∧
         (err' = err ∨ err = IdExhausted ∧ err' = RevisionExhausted)) ∧
    (∀ err', try_fold BatchFacts.perform (abs g) ops = Err err' → ∃ be : BatchError, r = Err be).
Proof.
  intros Hi%BatchFacts.inv_plannable.
  pose proof (BatchFacts.prepare_outcome sz caps g v ops limits Hi) as Ho.
  destruct (PreparedBatch.prepare_batch sz caps g v ops limits) as [r|]; [|done].
  exists r. split_and!; [done|by intros err ->|].
  intros err' Hf. destruct r as [p|e]; [|by exists e].
  destruct Ho as (_ & st & E & im & ri & Hp & _). rewrite (BatchFacts.pi_spec _ _ _ _ _ _ Hp) in Hf. done.
Qed.

(** A plan is bound to the incarnation, the revision, the catalog
    generation and the index registration it was prepared for: on a graph
    that differs in one of them it is refused and nothing changes. *)
Theorem stale_plan_refused now reserved sz caps g0 g v ops limits p :
  inv g0 → PreparedBatch.prepare_batch sz caps g0 v ops limits = Some (Ok p) →
  state g ≠ state g0 ∨ index_generation g ≠ index_generation g0 →
  PreparedBatch.apply_prepared now reserved g p = Some (g, Err BConflict).
Proof. intros Hi. apply BatchFacts.apply_stale. by apply BatchFacts.inv_plannable. Qed.

(** The candidate bitmap of a filter contains every entity the filter
    accepts, for every shape of filter the planner accelerates. *)
Theorem candidates_contain_matches g ast bm id e :
  inv g → rows g !! id = Some e →
  bitmap_candidates ast (tag_index g) (value_index g) (universe g) = Some bm →
  matches_with_ns ast e (Some (query_ctx g)) (deref_namespace g) = true →
  id ∈ TagBitmapIndex.iter_set_bits bm.
Proof. apply candidates_complete. Qed.

(** [hierarchy_tree] returns a tree in which every node is an entity
    that refers to its parent, at its depth and within the limit, no entity
    occurs twice even if the references are cyclic, and nothing that leads to
    the root is missing unless the depth limit cuts it. *)
Theorem hierarchy_tree_correct g root max :
  inv g →
  match hierarchy_tree g root max with
  | None => entities g !! root = None
  | Some tree =>
      HierarchyFacts.tree_ok g max root 0 tree ∧ NoDup (HierarchyFacts.tree_refs tree) ∧
      (∀ r, r ∈ HierarchyFacts.tree_refs tree →
         is_Some (entities g !! r) ∧ HierarchyFacts.leads_to g root r) ∧
      (N.of_nat (size (entities g)) ≤ max + 1 →
       ∀ r, HierarchyFacts.leads_to g root r → r ∈ HierarchyFacts.tree_refs tree)%N
  end.
Proof. intros Hi. by apply HierarchyFacts.hierarchy_tree_spec. Qed.

(** Exporting a graph with [to_grid] and importing the grid with
    [from_grid] gives a graph with the same entities. *)
Theorem grid_roundtrip now inc ns g :
  inv g →
  ∃ grid g', to_grid g "" = (g, Ok grid) ∧ from_grid now inc grid ns = Some (Ok g') ∧
    inv g' ∧ entities g' = entities g.
Proof. apply System.grid_roundtrip_spec. Qed.

(** [refs_from], [refs_to] and [incoming_edges] agree with the
    reference tags of the entities, and so with each other. *)
Theorem references_agree g src tag tgt rt :
  inv g →
  (tgt ∈ refs_from g src rt ↔ src ∈ refs_to g tgt rt) ∧
  (src ∈ refs_to g tgt (Some tag) ↔ (tag, src) ∈ incoming_edges g tgt) ∧
  ((tag, src) ∈ incoming_edges g tgt ↔ refers g src tag tgt).
Proof.
  intros Hi. split; [by rewrite elem_of_refs_from, elem_of_refs_to|].
  split; [|by apply elem_of_incoming_edges].
  rewrite elem_of_refs_to, elem_of_incoming_edges by done. cbn. split.
  - by intros (tag' & Href & ->).
  - intros Href. by exists tag.
Qed.

(** Ids do not run out while fewer than [2^32] entities are live, no
    matter how many were added and removed before: recycling never loses an
    id. *)
Theorem ids_not_exhausted_early now g e :
  inv g → (N.of_nat (size (entities g)) ≤ MAX_ENTITY_ID)%N →
  ∃ g' r, add now g e = Some (g', r) ∧ r ≠ Err IdExhausted.
Proof.
  intros Hi Hsize. destruct (add_spec now g e Hi) as (g' & r & Hadd & _ & Hspec & _ & _).
  exists g', r. split; [done|]. intros ->.
  assert (Hfull : GraphSpec.full (abs g) = false) by (apply bool_decide_eq_false; cbn; lia).
  unfold GraphSpec.add in Hspec. destruct (e !! "id") as [[]|]; simplify_eq.
  case_decide; simplify_eq. destruct (GraphSpec.next_revision _); simplify_eq.
  by rewrite Hfull in Hspec.
Qed.

(** Registering a field indexes the existing entities and changes
    nothing else: the invariant holds with the new index, exactly the new
    field is added, and entities, revision and log stay. *)
Theorem index_field_correct g f :
  inv g → (index_generation g < u64_max)%N ∨ ValueIndex.has_index (value_index g) f = true →
  ∃ g', index_field g f = Some g' ∧ inv g' ∧ abs g' = abs g ∧ changelog g' = changelog g ∧
    ∀ f', ValueIndex.has_index (value_index g') f' =
          ValueIndex.has_index (value_index g) f' || bool_decide (f' = f).
Proof. apply index_field_spec. Qed.

(** Rebuilding the value indexes restores the invariant's index from
    the entities and leaves everything else alone; queries answer as before. *)
Theorem rebuild_value_index_correct g text limit :
  inv g →
  inv (rebuild_value_index g) ∧ abs (rebuild_value_index g) = abs g ∧
  read_answer g text limit (read_all (rebuild_value_index g) text limit).2.
Proof.
  intros Hi. destruct (rebuild_spec g Hi) as [Hi' Habs]. split; [done|]. split; [done|].
  by destruct (read_all_spec (rebuild_value_index g) text limit Hi') as (_ & _ & Hr).
Qed.

(** Without a namespace, [validate] reports nothing exactly when every
    reference of every entity leads to an entity. *)
Theorem validate_reports_dangling g :
  namespace g = None →
  validate g = [] ↔ ∀ src tag tgt, refers g src tag tgt → is_Some (entities g !! tgt).
Proof. apply validate_nil. Qed.

(** A query cache within its capacity stays within it under lookups and
    insertions, and an inserted answer is what the next lookup returns. *)
Theorem query_cache_bounded (c : QueryCache.t) text v refs text' v' :
  cache_ok c → (1 ≤ QueryCache.capacity c)%N →
  cache_ok (QueryCache.get c text' v').1 ∧
  cache_ok (QueryCache.insert c text v refs) ∧
  (QueryCache.get (QueryCache.insert c text v refs) text v).2 = Some refs.
Proof.
  intros Hok Hcap. split; [by apply cache_get_ok|].
  by destruct (cache_insert_spec c text v refs Hok Hcap) as (? & _ & ?).
Qed.

(** The columns of a result grid are the tag names of its rows, sorted
    and each once, and the two routines that compute them agree. *)
Theorem grid_columns (results : list HDict) :
  let names := col_name <$> read_cols results in
  (StronglySorted String.le names ∧ NoDup names ∧
   ∀ n, n ∈ names ↔ ∃ e, e ∈ results ∧ is_Some (e !! n)) ∧
  (results ≠ [] →
   entities_to_grid results = HGrid.from_parts HDict.new (read_cols results) results).
Proof.
  split; [apply read_cols_spec|]. intros Hne. rewrite entities_to_grid_cols.
  by rewrite decide_False.
Qed.

(** [compare_activate_catalog] is a compare-and-swap: it publishes the
    new catalog, with the next generation and an empty query cache, exactly
    when the state and the current catalog are the expected ones and the new
    one differs; otherwise nothing changes. *)
Theorem activate_catalog_cas g expected old next g' r :
  inv g → compare_activate_catalog g expected old next = (g', r) →
  inv g' ∧ entities g' = entities g ∧
  match r with
  | Ok n => state g = expected ∧ n = (catalog_generation g + 1)%N ∧
      catalog_generation g' = n ∧ activated g' = Some next ∧
      namespace g' = Some (catalog_namespace (arc_val next)) ∧
      ptr_eq old next = false ∧ (∃ current, activated g = Some current ∧ ptr_eq current old = true) ∧
      im_list (QueryCache.entries (query_cache g')) = []
  | Err _ => g' = g
  end.
Proof.
  intros Hi. unfold compare_activate_catalog. destruct (_ || _) eqn:Hguard.
  { by intros [= <- <-]. }
  apply orb_false_iff in Hguard as [[Hst Hne]%orb_false_iff Hcur].
  apply bool_decide_eq_false, dec_stable in Hst. apply negb_false_iff in Hcur.
  on_ok (activated g) as [current|] Hact.
  unfold publish_catalog. destruct (checked_add u64_max _ 1) as [gen|] eqn:Hg.
  2: { by intros [= <- <-]. }
  apply checked_add_Some in Hg as [-> _]. intros [= <- <-].
  split; [by apply set_catalog_inv|]. split; [done|]. split_and!; try done.
  - by exists current.
  - cbn. by rewrite im_new_list.
Qed.
(** The three indexes follow the rows together: indexing the entity of a
    new id never panics and takes indexes that describe the rows to indexes
    that describe the rows with the entity; removing it takes them back. *)
Theorem indexes_track_rows g rs eid e :
  indexed (tag_index g) (adjacency g) (value_index g) rs → (eid ≤ u32_max)%N →
  (rs !! eid = None →
   ∃ ti ad vi, index_entity g eid e = Some (EntityGraph.set_indexes ti ad vi g) ∧
     indexed ti ad vi (<[eid := e]> rs)) ∧
  (rs !! eid = Some e →
   ∃ ti ad vi, remove_indexing g eid e = Some (EntityGraph.set_indexes ti ad vi g) ∧
     indexed ti ad vi (delete eid rs)).
Proof.
  intros Hi Hle. split; intros Hr; [by apply index_entity_indexed|by apply remove_indexing_indexed].
Qed.

End graph.

(** ** Shared graph and subscribers *)

Section shared.
Import EntityGraph GraphInv SharedFacts.
Context {HO : HashOrder} {HL : HashOrderLaws} {RB : Roaring} {RL : RoaringLaws}.
Context {CM : CacheMap} {CL : CacheLaws} {ON : Ontology} {CA : Catalog} {FS : FilterSyntax}.
Context {BC : Broadcast} {BL : BroadcastLaws}.
Implicit Types (s : SharedGraph.t) (st : Run).

(** C9.  For every interleaving of writers, whose closures perform any
    operations of the graph and which send their announcements one by one
    after they have released the lock, with the two halves of [next_batch]:
    the copy a subscriber keeps is the entities of the version it has
    consumed; while it is behind, it has been woken, or a notification is
    waiting for it, or a writer has yet to send the revision - so once the
    announcements are out no update is lost; and a fetch that does not report
    a gap makes the copy equal to the current entities, at the current
    version. *)
Theorem subscriber_follows s st :
  inv (SharedGraph.inner s) → rtc run_step (run_start s) st →
  (∃ g0, inv g0 ∧ rtc System.step g0 (SharedGraph.inner (shared st)) ∧
     version g0 = GraphSubscriber.last_version (subscriber st) ∧ entities g0 = copy st) ∧
  (GraphSubscriber.last_version (subscriber st) < version (SharedGraph.inner (shared st)) →
   woken st = true ∨
   ready (SharedGraph.tx (shared st)) (GraphSubscriber.rx (subscriber st)) ∨
   ∃ l v, l ∈ due st ∧ SharedGraph.STx v ∈ l)%N ∧
  ∀ diffs sub', GraphSubscriber.fetch (shared st) (subscriber st) = Ok (diffs, sub') →
    foldl apply_diff (copy st) diffs = entities (SharedGraph.inner (shared st)) ∧
    GraphSubscriber.last_version sub' = version (SharedGraph.inner (shared st)).
Proof.
  intros Hi Hr. destruct (following_run s st Hi Hr) as [_ Hpast Hw]. split; [done|]. split; [done|].
  destruct Hpast as (g0 & Hi0 & Hs & Hv & <-). intros diffs sub' Hf.
  by destruct (fetch_catches_up _ _ _ _ _ Hi0 Hs Hv Hf) as (? & ? & _).
Qed.

(** A write announces what it did, whatever its closure: no channel is
    touched when the state (incarnation, revision, catalog generation) is as
    before; every revision receiver has something to receive when the
    revision or the incarnation differ, and every wake receiver when any part
    of the state does; the rows are the closure's, and a graph swapped in by
    it never keeps the incarnation it came with. *)
Theorem write_announced {R} inc (f : EntityGraph.t → option (EntityGraph.t * R)) s s' r rx wrx :
  SharedGraph.write inc f s = Some (s', r) →
  bc_of (SharedGraph.tx s) rx → bc_of (SharedGraph.wakes s) wrx →
  ∃ g, f (SharedGraph.inner s) = Some (g, r) ∧ abs (SharedGraph.inner s') = abs g ∧
    (state g = state (SharedGraph.inner s) →
     s' = SharedGraph.mk g (SharedGraph.tx s) (SharedGraph.wakes s)) ∧
    (version g ≠ version (SharedGraph.inner s) ∨ incarnation g ≠ incarnation (SharedGraph.inner s) →
     ready (SharedGraph.tx s') rx) ∧
    (state g ≠ state (SharedGraph.inner s) → ready (SharedGraph.wakes s') wrx) ∧
    (incarnation g ≠ incarnation (SharedGraph.inner s) → incarnation (SharedGraph.inner s') = inc).
Proof.
  intros (g & Hf & Ha & _)%write_steps Hrx Hwrx. exists g. split; [done|].
  destruct Ha as [Hq _ Hrev Hwake Hreset _].
  split; [by destruct Hreset as [[-> _]|[-> _]]|].
  split; [intros Hst; destruct (Hq Hst) as (<- & <- & <-); by destruct s'|].
  split; [by apply Hrev|]. split; [by apply Hwake|].
  intros Hne. by destruct Hreset as [[_ He]|[-> _]].
Qed.
End shared.

(** ** Recovery *)

Section recovery.
Import EntityGraph GraphInv Recovery.
Context {HO : HashOrder} {HL : HashOrderLaws} {RB : Roaring} {RL : RoaringLaws}.
Context {CM : CacheMap} {CL : CacheLaws} {ON : Ontology} {CA : Catalog} {FS : FilterSyntax}.
Implicit Types (g : EntityGraph.t) (limits : RecoveryLimits).

(** C10.  A graph restored from its own image has the same entities, state
    (incarnation, revision and catalog generation) and retained changes. *)
Theorem image_restore_roundtrip now inc g cat limits img :
  inv g → image g limits = Ok img →
  incarnation g ≠ replicate 16 Byte.x00 → catalog_generation g ≠ 0%N →
  (∀ d, d ∈ ChangeLog.log (changelog g) → id_ok d) →
  ∃ g', restore now inc img cat limits = Some (Ok g') ∧ inv g' ∧ entities g' = entities g ∧
    state g' = state g ∧ ChangeLog.log (changelog g') = ChangeLog.log (changelog g) ∧
    ChangeLog.floor (changelog g') = ChangeLog.floor (changelog g) ∧
    ChangeLog.bytes (changelog g') = ChangeLog.bytes (changelog g).
Proof. apply RecoveryFacts.image_restore_spec. Qed.

(** Restoring an untrusted image returns; a graph it returns satisfies
    the invariant and holds exactly the rows, the state and the changes of
    the image under the given catalog. *)
Theorem restore_validates now inc img cat limits :
  (state_revision (img_state img) ≤ u64_max)%N →
  ∃ r, restore now inc img cat limits = Some r ∧
    ∀ g, r = Ok g →
      inv g ∧ state g = img_state img ∧ activated g = Some cat ∧
      namespace g = Some (catalog_namespace (arc_val cat)) ∧
      (map_to_list (entities g)).*2 ≡ₚ img_rows img ∧
      ChangeLog.floor (changelog g) = img_floor img ∧
      change_from <$> ChangeLog.log (changelog g) = img_changes img.
Proof. apply RecoveryFacts.restore_sound. Qed.

(** [image] captures graphs that [restore] refuses: when a retained
    change is about an empty id, or one longer than 4096 bytes, the image is
    made and restoring it fails. *)
Theorem image_of_odd_ids_not_restored now inc g cat limits img d :
  inv g → image g limits = Ok img → d ∈ ChangeLog.log (changelog g) → ¬ id_ok d →
  ∃ e, restore now inc img cat limits = Some (Err e).
Proof. apply RecoveryFacts.image_not_restored. Qed.
End recovery.

(** ** Changelog *)

(** Appending a committed unit that fits the limits ends, keeps the log
    well formed and within its limits, retains the unit in full and drops
    only whole older units from the front. *)
Theorem append_unit_bounded now head (c : ChangeLog.t) u :
  ChangeLog.wf head c → ChangeLog.complete_unit u → ChangeLog.contiguous head u →
  (len u ≤ ChangeLog.capacity c)%N → (total_bytes u ≤ ChangeLog.byte_capacity c)%N →
  ∃ c' kept gone, ChangeLog.append_committed_unit now c u = Some c' ∧
    ChangeLog.wf (head + len u) c' ∧
    ChangeLog.log c' = kept ++ (set_timestamp now <$> u) ∧ ChangeLog.log c = gone ++ kept ∧
    ChangeLog.floor c' = (ChangeLog.floor c + len gone)%N ∧
    ChangeLog.capacity c' = ChangeLog.capacity c ∧
    ChangeLog.byte_capacity c' = ChangeLog.byte_capacity c.
Proof. apply ChangeLog.append_wf. Qed.

(** [changes_since] returns exactly the changes after a version the log
    still covers, nothing at the head, and the gap for a version below the
    floor. *)
Theorem changes_since_exact head (c : ChangeLog.t) v :
  ChangeLog.wf head c →
  match ChangeLog.changes_since c v with
  | Err gap => (v < ChangeLog.floor c)%N ∧ gap = mkGap v (ChangeLog.floor c)
  | Ok l =>
      (ChangeLog.floor c ≤ v)%N ∧
      (∃ gone, ChangeLog.log c = gone ++ l) ∧
      (v ≤ head → Changelog.version <$> l = seqN (v + 1) (head - v))%N
  end.
Proof.
  intros Hwf. destruct (decide (v < ChangeLog.floor c)%N) as [Hlt|Hge].
  { by rewrite ChangeLog.changes_since_gap. }
  destruct (decide (v ≤ head)%N) as [Hle|Hgt].
  - destruct (ChangeLog.changes_since_ok head c v) as (gone & l & -> & Hlog & Hc & Hsum);
      [done|lia|]. split; [lia|]. split; [by exists gone|]. intros _.
    rewrite Hc. f_equal. lia.
  - rewrite (ChangeLog.changes_since_ahead head) by (done || lia). split; [lia|].
    split; [exists (ChangeLog.log c); by rewrite app_nil_r|lia].
Qed.

(** Iterating over the units of a log from a unit boundary yields the
    units, whole, in order, and ends. *)
Theorem units_iterated_whole fuel gone us :
  Forall ChangeLog.complete_unit us → length (concat us) < fuel →
  ChangeLog.drain fuel (gone ++ concat us) (length gone) = us.
Proof. apply ChangeLog.drain_units. Qed.

(** ** Filters *)

(** C11.  Parsing the text of a filter gives the filter back, for every
    printable filter within the limits and at most 50 levels deep. *)
Theorem parse_print_roundtrip `{LX : Lexical} {LT : Literals} {C}
    (check : C → result FilterError C) (c : C) limits node :
  @LexicalLaws LX → (∀ c, check c = Ok c) → printable node →
  (node_count node ≤ max_nodes limits)%N → (node_depth node ≤ max_depth limits)%N →
  (str_len (render node) ≤ max_bytes limits)%N → (node_depth node ≤ 50)%N →
  FilterParser.parse_filter_controlled check c limits (render node) = Some (Ok node).
Proof. intros HLX Hcheck. by apply FilterPrint.parse_render. Qed.

(** C12.  The parser terminates on every input, and a filter it returns is
    well formed and within the byte, node and depth limits it was given. *)
Theorem parse_total_and_bounded `{LX : Lexical} {C}
    (check : C → result FilterError C) (c : C) limits expr :
  @LexicalLaws LX →
  ∃ r, FilterParser.parse_filter_controlled check c limits expr = Some r ∧
    ∀ node, r = Ok node →
      wf_node node ∧ (node_count node ≤ max_nodes limits)%N ∧
      (node_depth node ≤ max_depth limits)%N ∧ (str_len expr ≤ max_bytes limits)%N.
Proof. intros HLX. by apply FilterParserFacts.parse_controlled_spec. Qed.

(** The spec terms reported as unresolved are exactly those of the
    filter that the namespace does not define, each once; without a namespace
    all of them. *)
Theorem unresolved_specs_exact `{Ontology} node namespace :
  NoDup (unresolved_specs node namespace) ∧
  ∀ spec, spec ∈ unresolved_specs node namespace ↔
    spec ∈ spec_terms node ∧ known_term namespace spec = false.
Proof.
  destruct (collect_unresolved_spec node namespace []) as [Hnd Hin]; [constructor|].
  split; [done|]. intros spec. rewrite (Hin spec). set_solver.
Qed.

(** ** Indexes *)

Section indexes.
Context {HO : HashOrder} {HL : HashOrderLaws} {RB : Roaring} {RL : RoaringLaws}.

(** The tag index describes the rows: adding or removing a row's tags
    moves it from the rows without the row to the rows with it and back. *)
Theorem tag_index_tracks_rows (idx : TagBitmapIndex.t) rows id row :
  TagBitmapIndex.models idx rows → (id ≤ u32_max)%N →
  (rows !! id = None →
   ∃ idx', TagBitmapIndex.add idx id (HDict.tag_names row) = Some idx' ∧
     TagBitmapIndex.models idx' (<[id := row]> rows)) ∧
  (rows !! id = Some row →
   ∃ idx', TagBitmapIndex.remove idx id (HDict.tag_names row) = Some idx' ∧
     TagBitmapIndex.models idx' (delete id rows)).
Proof.
  intros Hm Hid. split; intros Hrow.
  - exact (ri_insert_models idx rows id row Hm Hrow Hid).
  - exact (ri_remove_models idx rows id row Hm Hrow Hid).
Qed.

(** The reference index describes the rows: indexing the references of
    a row adds exactly its edges in both directions, and removing an id drops
    exactly those. *)
Theorem adjacency_tracks_rows (adj : RefAdjacency.t) rows id row :
  RefAdjacency.models adj rows →
  (rows !! id = None →
   RefAdjacency.models (RefAdjacency.index_refs adj id row) (<[id := row]> rows)) ∧
  (rows !! id = Some row →
   RefAdjacency.models (RefAdjacency.remove adj id) (delete id rows)).
Proof.
  intros Hm. split; [by apply RefAdjacency.index_refs_models|by apply RefAdjacency.remove_models].
Qed.

(** The value index describes the rows: a bucket of a registered field
    holds exactly the rows with that value, each once, after indexing a row
    and after removing it. *)
Theorem value_index_tracks_rows (vi : ValueIndex.t) rows id row :
  ValueIndex.models vi rows →
  (rows !! id = None →
   ValueIndex.models (ValueIndex.index_values vi id row) (<[id := row]> rows)) ∧
  (rows !! id = Some row →
   ValueIndex.models (ValueIndex.remove_values vi id row) (delete id rows)).
Proof.
  intros Hm.
  split; [by apply ValueIndex.index_values_models|by apply ValueIndex.remove_values_models].
Qed.

(** The ordered lookups of the value index return exactly the rows
    whose indexed value stands in the asked relation to the given one. *)
Theorem value_lookups_exact (vi : ValueIndex.t) rows field val key id :
  ValueIndex.models vi rows → is_Some (ValueIndex.indexes vi !! field) →
  OrderableKind.from_kind val = Some key →
  let holding (P : comparison → Prop) :=
    ∃ row k, rows !! id = Some row ∧ ValueIndex.holds row field k ∧ P (OrderableKind.cmp k key) in
  (id ∈ ValueIndex.eq_lookup vi field val ↔ holding (λ c, c = Eq)) ∧
  (id ∈ ValueIndex.lt_lookup vi field val ↔ holding (λ c, c = Lt)) ∧
  (id ∈ ValueIndex.le_lookup vi field val ↔ holding (λ c, c ≠ Gt)) ∧
  (id ∈ ValueIndex.gt_lookup vi field val ↔ holding (λ c, c = Gt)) ∧
  (id ∈ ValueIndex.ge_lookup vi field val ↔ holding (λ c, c ≠ Lt)).
Proof.
  intros Hm Hix Hkey holding.
  assert (Hrange : ∀ (p : comparison → bool) (P : comparison → Prop),
    (∀ c, p c = true ↔ P c) →
    id ∈ ValueIndex.range_lookup p vi field val ↔ holding P).
  { intros p P Hp. rewrite (ValueIndex.elem_of_range_lookup _ _ _ _ key) by done.
    unfold holding. setoid_rewrite (ValueIndex.models_bucket _ _ Hm); [|done]. split.
    - intros (k & Hk & row & Hr & Hh). exists row, k. split; [done|]. split; [done|]. by apply Hp.
    - intros (row & k & Hr & Hh & Hk). exists k. split; [by apply Hp|]. by exists row. }
  split; [|split_and!; apply Hrange; intros []; split; congruence].
  rewrite (ValueIndex.elem_of_eq_lookup _ _ _ key) by done.
  rewrite (ValueIndex.models_bucket _ _ Hm) by done. unfold holding. split.
  - intros (row & Hr & Hh). exists row, key. split; [done|]. split; [done|].
    by apply OrderableKind.cmp_Eq.
  - intros (row & k & Hr & Hh & ->%OrderableKind.cmp_Eq). by exists row.
Qed.

End indexes.

(** The order of the value index, total on all bit patterns, agrees
    with the order filters use wherever that one is defined, except that it
    separates the two zeros; so range lookups, which the planner does not use
    for zero, find every match. *)
Theorem total_order_refines_partial (a b : F64.f64) c :
  F64.partial_cmp a b = Some c → c ≠ Eq ∨ F64.is_zero b = false → F64.total_cmp a b = c.
Proof.
  intros Hc Hz. unfold F64.total_cmp. destruct c.
  - destruct Hz as [?|Hz]; [done|]. rewrite (F64.partial_eq_bits a b Hc Hz). apply Z.compare_refl.
  - apply Z.compare_lt_iff. by apply F64.partial_lt_total.
  - apply Z.compare_gt_iff. by apply F64.partial_gt_total.
Qed.

(** ** Values *)

(** The recorded size of a change does not depend on the order in which
    the hash maps are enumerated, and never exceeds the limit it was computed
    under. *)
Theorem diff_size_deterministic (o1 o2 : HashOrder) id rows limit :
  @HashOrderLaws o1 → @HashOrderLaws o2 →
  @ValueBudget.diff_bytes o1 id rows limit = @ValueBudget.diff_bytes o2 id rows limit ∧
  ∀ n, @ValueBudget.diff_bytes o1 id rows limit = Some n → (n ≤ limit)%N.
Proof.
  intros L1 L2. split; [|apply ValueBudget.diff_bytes_le].
  rewrite !ValueBudget.diff_bytes_pay. do 3 f_equal. unfold ValueBudget.diff_cost. f_equal.
  apply ValueBudget.sum_cost_ext. intros d. by apply ValueBudget.cost_order.
Qed.

(** The size recorded for an update is what recovery recomputes from
    the two dicts the change carries. *)
Theorem update_size_recomputed {HO : HashOrder} {HL : HashOrderLaws} id old changes limit n limit' :
  (limit ≤ usize_max)%N → ValueBudget.patch_diff_bytes id old changes limit = Some n →
  (n ≤ limit')%N →
  ValueBudget.diff_bytes id [changes; EntityGraph.previous_of old changes] limit' = Some n.
Proof. apply ValueBudget.patch_as_diff. apply previous_of_lookup. Qed.

(** Merging a patch sets the tags it names, deletes those it marks with
    [Remove] and keeps the others, whatever order the patch is enumerated in;
    the previous values recorded with it are the old values of the named
    tags. *)
Theorem patch_semantics {HO : HashOrder} {HL : HashOrderLaws} (old changes : HDict) k :
  HDict.merge old changes !! k =
    match changes !! k with
    | Some KRemove => None
    | Some v => Some v
    | None => old !! k
    end ∧
  EntityGraph.previous_of old changes !! k =
    match changes !! k with Some _ => old !! k | None => None end.
Proof.
  split; [|apply previous_of_lookup]. rewrite HDict.merge_lookup. unfold HDict.patched.
  by destruct (changes !! k).
Qed.

(** [n] pairs of parentheses around a text. *)
Fixpoint parens (n : nat) (s : string) : string :=
  match n with 0 => s | S n => "(" +:+ parens n s +:+ ")" end.

(** Every pair of parentheses counts twice against [MAX_DEPTH]: 49
    nested pairs parse and the 50th is refused. *)
Theorem paren_depth_limit `{Lexical} :
  FilterParser.parse_filter (parens 49 "a") = Some (Ok (Has ["a"])) ∧
  FilterParser.parse_filter (parens 50 "a")
  = Some (Err (Parse 50 "filter expression exceeds maximum nesting depth")).
Proof. split; vm_compute; reflexivity. Qed.
