(* ===== verification/Witnesses.v ===== *)
(** * The properties at concrete inputs

    Each property of [Theorems.v] that has hypotheses, applied to the graph
    of [Demo.v] or to another concrete input on which the hypotheses are
    evaluated. *)

From Stdlib Require Import Ascii.
From S2P Require Import Prelude Floats Kinds Size Extern Bitmap Adjacency ValueIndex Filter FilterParser Changelog Graph GraphInv Prepared PreparedFacts BatchFacts Recovery Query QueryFacts Hierarchy System FilterParserFacts FilterPrint RecoveryFacts Shared SharedFacts Demo Theorems.

Module Witnesses.
Import EntityGraph GraphQuery GraphInv QueryFacts Demo.

Lemma read_all_correct_witness :
  (read_all graph "site or equipRef->equip" 0).2 = Ok [point; site] ∧
  read_answer graph "site or equipRef->equip" 0 (read_all graph "site or equipRef->equip" 0).2.
Proof.
  split; [vm_compute; reflexivity|].
  exact (proj2 (proj2 (read_all_correct graph "site or equipRef->equip" 0 graph_inv))).
Defined.

Lemma add_refines_witness :
  ∃ g' r, add 0 graph site = Some (g', r) ∧ inv g' ∧ GraphSpec.add (abs graph) site = (abs g', r) ∧
    (is_ok r = true → extends graph g') ∧ (is_ok r = false → g' = graph).
Proof. exact (add_refines 0 graph site graph_inv). Defined.

Lemma update_refines_witness :
  ∃ g' r, update 0 graph "s" {["dis" := KRemove]} = Some (g', r) ∧ inv g' ∧
    GraphSpec.update (abs graph) "s" {["dis" := KRemove]} = (abs g', r) ∧
    (g' = graph ∨ (r = Ok () ∧ extends graph g')).
Proof. exact (update_refines 0 graph "s" {["dis" := KRemove]} graph_inv). Defined.

Lemma remove_refines_witness :
  ∃ g' r, remove 0 graph "e" = Some (g', r) ∧ inv g' ∧
    GraphSpec.remove (abs graph) "e" = (abs g', r) ∧
    (is_ok r = true → extends graph g') ∧ (is_ok r = false → g' = graph).
Proof. exact (remove_refines 0 graph "e" graph_inv). Defined.

Lemma reachable_invariant_witness : inv graph.
Proof. exact (reachable_invariant graph graph_reachable). Defined.

(** The three additions of the demo graph, from the empty one. *)
Lemma add_steps (rows : list HDict) g :
  rtc System.step g (foldl add_row g rows).
Proof.
  revert g. induction rows as [|row rows IH]; intros g; [apply rtc_refl|]. cbn [foldl].
  unfold add_row at 2. destruct (add 0 g row) as [[g' r]|] eqn:Ha; [|apply IH].
  eapply rtc_l; [by eapply System.step_add|]. apply IH.
Qed.

Lemma subscriber_replay_witness :
  match changes_since graph (version empty) with
  | Ok l => foldl apply_diff (entities empty) l = entities graph ∧
      (version empty + len l)%N = version graph
  | Err _ => False
  end.
Proof.
  assert (Hok : is_ok (changes_since graph (version empty)) = true) by (vm_compute; reflexivity).
  destruct (changes_since graph (version empty)) as [l|] eqn:Hl; [|discriminate Hok].
  apply (subscriber_replay empty graph l empty_inv); [apply add_steps|exact Hl].
Defined.

(** A batch: a patch, a removal, and an addition that reuses the freed id. *)
Definition layouts : Layouts := mkLayouts 200 300 24.
Definition capacities : Capacities := mkCapacities 3 3 4 0 8 4 4.
Definition pump : HDict := {[ "id" := ref "q"; "equip" := KMarker; "siteRef" := ref "s" ]}.
Definition batch : list EntityOperation :=
  [OPatch "s" {["dis" := KStr "North"]}; ORemove "p"; OAdd pump].
Definition prepared (g : t) : option (result BatchError PreparedBatch.t) :=
  PreparedBatch.prepare_batch layouts capacities g 3 batch default_limits.

Lemma batch_atomic_witness :
  match prepared graph with
  | Some (Ok p) =>
      ∃ g' r, PreparedBatch.apply_prepared 0 true graph p = Some (g', r) ∧
        rtc System.step graph g' ∧
        match r with
        | Ok s => s = PreparedBatch.span_of p ∧
            try_fold BatchFacts.perform (abs graph) batch = Ok (abs g') ∧
            extends_by (len (PreparedBatch.diffs p)) graph g'
        | Err _ => g' = graph
        end
  | _ => False
  end.
Proof.
  assert (Hok : match prepared graph with Some (Ok _) => true | _ => false end = true)
    by (vm_compute; reflexivity).
  destruct (prepared graph) as [[p|]|] eqn:Hp; [|discriminate Hok..].
  exact (batch_atomic layouts capacities graph graph 3 batch default_limits p 0 true graph_inv
           (rtc_refl _ _) Hp).
Defined.

(** The batch is applied. *)
Example batch_applied :
  match prepared graph with
  | Some (Ok p) =>
      match PreparedBatch.apply_prepared 0 true graph p with
      | Some (g', Ok s) => s = Some (mkSpan 4 6) ∧ version g' = 6%N ∧
          id_map g' !! "q" = id_map graph !! "p" ∧
          (read_all g' "equip" 0).2 = Ok [equip; pump]
      | _ => False
      end
  | _ => False
  end.
Proof. vm_compute. done. Qed.

(** The second operation removes what is not there. *)
Lemma prepare_errors_genuine_witness :
  PreparedBatch.prepare_batch layouts capacities graph (version graph) [ORemove "p"; ORemove "nowhere"]
    default_limits = Some (Err (BEntity (NotFound "nowhere"))) ∧
  ∃ err', try_fold BatchFacts.perform (abs graph) [ORemove "p"; ORemove "nowhere"] = Err err' ∧
    (err' = NotFound "nowhere" ∨ NotFound "nowhere" = IdExhausted ∧ err' = RevisionExhausted).
Proof.
  split; [vm_compute; reflexivity|].
  destruct (prepare_errors_genuine layouts capacities graph (version graph) [ORemove "p"; ORemove "nowhere"]
           default_limits graph_inv) as (r & Hr & Herr & _).
  apply Herr. assert (Some r = Some (Err (BEntity (NotFound "nowhere")))) as [= ->]; [|reflexivity].
  rewrite <- Hr. vm_compute. reflexivity.
Defined.

Lemma stale_plan_refused_witness :
  match prepared graph with
  | Some (Ok p) =>
      PreparedBatch.apply_prepared 0 true (add_row graph pump) p
      = Some (add_row graph pump, Err BConflict)
  | _ => False
  end.
Proof.
  assert (Hok : match prepared graph with Some (Ok _) => true | _ => false end = true)
    by (vm_compute; reflexivity).
  destruct (prepared graph) as [[p|]|] eqn:Hp; [|discriminate Hok..].
  apply (stale_plan_refused 0 true layouts capacities graph (add_row graph pump) 3 batch
           default_limits p graph_inv Hp).
  left. vm_compute. discriminate.
Defined.

Lemma candidates_contain_matches_witness :
  match bitmap_candidates (And (Has ["equip"]) (Has ["siteRef"])) (tag_index graph)
          (value_index graph) (universe graph) with
  | Some bm => (1%N : N) ∈ TagBitmapIndex.iter_set_bits bm
  | None => False
  end.
Proof.
  destruct (bitmap_candidates _ _ _ _) as [bm|] eqn:Hbm; [|by vm_compute in Hbm].
  apply (candidates_contain_matches graph (And (Has ["equip"]) (Has ["siteRef"])) bm 1 equip graph_inv).
  - vm_compute. reflexivity.
  - exact Hbm.
  - vm_compute. reflexivity.
Defined.

Lemma hierarchy_tree_correct_witness :
  match hierarchy_tree graph "s" 5 with
  | None => entities graph !! "s" = None
  | Some tree =>
      HierarchyFacts.tree_ok graph 5 "s" 0 tree ∧ NoDup (HierarchyFacts.tree_refs tree) ∧
      (∀ r, r ∈ HierarchyFacts.tree_refs tree →
         is_Some (entities graph !! r) ∧ HierarchyFacts.leads_to graph "s" r) ∧
      (N.of_nat (size (entities graph)) ≤ 5 + 1 →
       ∀ r, HierarchyFacts.leads_to graph "s" r → r ∈ HierarchyFacts.tree_refs tree)%N
  end.
Proof. exact (hierarchy_tree_correct graph "s" 5 graph_inv). Defined.

Lemma grid_roundtrip_witness :
  ∃ grid g', to_grid graph "" = (graph, Ok grid) ∧
    from_grid 0 incarnation grid (Some (mkArc 1 ns)) = Some (Ok g') ∧
    inv g' ∧ entities g' = entities graph.
Proof. exact (grid_roundtrip 0 incarnation (Some (mkArc 1 ns)) graph graph_inv). Defined.

Lemma references_agree_witness :
  ("s" ∈ refs_from graph "e" None ↔ "e" ∈ refs_to graph "s" None) ∧
  ("e" ∈ refs_to graph "s" (Some "siteRef") ↔ ("siteRef", "e") ∈ incoming_edges graph "s") ∧
  (("siteRef", "e") ∈ incoming_edges graph "s" ↔ refers graph "e" "siteRef" "s").
Proof. exact (references_agree graph "e" "siteRef" "s" None graph_inv). Defined.

Lemma ids_not_exhausted_early_witness :
  ∃ g' r, add 0 graph pump = Some (g', r) ∧ r ≠ Err IdExhausted.
Proof. apply (ids_not_exhausted_early 0 graph pump graph_inv). vm_compute. discriminate. Defined.

Lemma index_field_correct_witness :
  ∃ g', index_field graph "point" = Some g' ∧ inv g' ∧ abs g' = abs graph ∧
    changelog g' = changelog graph ∧
    ∀ f', ValueIndex.has_index (value_index g') f' =
          ValueIndex.has_index (value_index graph) f' || bool_decide (f' = "point").
Proof.
  apply (index_field_correct graph "point" graph_inv). left. vm_compute. reflexivity.
Defined.

Lemma rebuild_value_index_correct_witness :
  inv (rebuild_value_index graph) ∧ abs (rebuild_value_index graph) = abs graph ∧
  read_answer graph "siteRef" 1 (read_all (rebuild_value_index graph) "siteRef" 1).2.
Proof. exact (rebuild_value_index_correct graph "siteRef" 1 graph_inv). Defined.

Lemma validate_reports_dangling_witness :
  validate graph = [] ↔
  ∀ src tag tgt, refers graph src tag tgt → is_Some (entities graph !! tgt).
Proof. apply (validate_reports_dangling graph). vm_compute. reflexivity. Defined.

Lemma query_cache_bounded_witness :
  let c := QueryCache.new 2 in
  cache_ok (QueryCache.get c "a" 0).1 ∧ cache_ok (QueryCache.insert c "site" 3 ["s"]) ∧
  (QueryCache.get (QueryCache.insert c "site" 3 ["s"]) "site" 3).2 = Some ["s"].
Proof.
  apply (query_cache_bounded (QueryCache.new 2) "site" 3 ["s"] "a" 0).
  - split; [constructor|vm_compute; discriminate].
  - vm_compute. discriminate.
Defined.

Lemma grid_columns_witness :
  let names := col_name <$> read_cols [site; equip] in
  (StronglySorted String.le names ∧ NoDup names ∧
   ∀ n, n ∈ names ↔ ∃ e, e ∈ [site; equip] ∧ is_Some (e !! n)) ∧
  ([site; equip] ≠ [] →
   entities_to_grid [site; equip]
   = HGrid.from_parts HDict.new (read_cols [site; equip]) [site; equip]).
Proof. exact (grid_columns [site; equip]). Defined.

(** A graph with a catalog. *)
Definition catalog_one : Arc ActivatedCatalog := mkArc 10 ().
Definition catalog_two : Arc ActivatedCatalog := mkArc 11 ().
Definition managed : t := (publish_catalog graph catalog_one).1.
Lemma managed_inv : inv managed.
Proof. apply set_catalog_inv, graph_inv. Qed.

Lemma activate_catalog_cas_witness :
  let '(g', r) := compare_activate_catalog managed (state managed) catalog_one catalog_two in
  inv g' ∧ entities g' = entities managed ∧
  match r with
  | Ok n => state managed = state managed ∧ n = (catalog_generation managed + 1)%N ∧
      catalog_generation g' = n ∧ activated g' = Some catalog_two ∧
      namespace g' = Some (catalog_namespace (arc_val catalog_two)) ∧
      ptr_eq catalog_one catalog_two = false ∧
      (∃ current, activated managed = Some current ∧ ptr_eq current catalog_one = true) ∧
      im_list (QueryCache.entries (query_cache g')) = []
  | Err _ => g' = managed
  end.
Proof.
  destruct (compare_activate_catalog managed (state managed) catalog_one catalog_two)
    as [g' r] eqn:Hc.
  exact (activate_catalog_cas managed (state managed) catalog_one catalog_two g' r managed_inv Hc).
Defined.

(** ** Recovery *)

Definition limits : RecoveryLimits := mkRecoveryLimits 100 100 1000000 1000000.

Lemma image_restore_roundtrip_witness :
  match Recovery.image managed limits with
  | Ok img =>
      ∃ g', Recovery.restore 0 incarnation img catalog_one limits = Some (Ok g') ∧ inv g' ∧
        entities g' = entities managed ∧ state g' = state managed ∧
        ChangeLog.log (changelog g') = ChangeLog.log (changelog managed) ∧
        ChangeLog.floor (changelog g') = ChangeLog.floor (changelog managed) ∧
        ChangeLog.bytes (changelog g') = ChangeLog.bytes (changelog managed)
  | Err _ => False
  end.
Proof.
  assert (Hok : is_ok (Recovery.image managed limits) = true) by (vm_compute; reflexivity).
  destruct (Recovery.image managed limits) as [img|] eqn:Himg; [|discriminate Hok].
  apply (image_restore_roundtrip 0 incarnation managed catalog_one limits img managed_inv Himg).
  - vm_compute. discriminate.
  - vm_compute. discriminate.
  - assert (Hids : forallb (λ d, bool_decide (diff_ref d ≠ "") &&
      bool_decide (str_len (diff_ref d) ≤ 4096)%N) (ChangeLog.log (changelog managed)) = true)
      by (vm_compute; reflexivity).
    intros d Hd. rewrite forallb_forall in Hids. apply list_elem_of_In in Hd.
    apply Hids, andb_true_iff in Hd as [H1 H2].
    split; [by apply bool_decide_eq_true in H1|by apply bool_decide_eq_true in H2].
Defined.

Definition demo_image : GraphImage :=
  mkImage (mkState incarnation 1 1) [site] 0
    [mkChange 1 (singleton 1) 0 DAdd "s" None (Some site) None None].
Lemma restore_validates_witness :
  ∃ r, Recovery.restore 0 incarnation demo_image catalog_one limits = Some r ∧
    ∀ g, r = Ok g →
      inv g ∧ state g = img_state demo_image ∧ activated g = Some catalog_one ∧
      namespace g = Some (catalog_namespace (arc_val catalog_one)) ∧
      (map_to_list (entities g)).*2 ≡ₚ img_rows demo_image ∧
      ChangeLog.floor (changelog g) = img_floor demo_image ∧
      change_from <$> ChangeLog.log (changelog g) = img_changes demo_image.
Proof.
  apply (restore_validates 0 incarnation demo_image catalog_one limits). vm_compute. discriminate.
Defined.

(** It is accepted. *)
Example demo_image_restored :
  match Recovery.restore 0 incarnation demo_image catalog_one limits with
  | Some (Ok g) => (read_all g "site" 0).2 = Ok [site]
  | _ => False
  end.
Proof. vm_compute. reflexivity. Qed.

(** An entity with an empty id. *)
Definition odd : t := add_row managed {["id" := ref ""]}.
Lemma odd_inv : inv odd.
Proof.
  unfold odd, add_row.
  destruct (add_spec 0 managed {["id" := ref ""]} managed_inv) as (g' & r & -> & Hi & _). exact Hi.
Qed.
Lemma image_of_odd_ids_not_restored_witness :
  match Recovery.image odd limits, last (ChangeLog.log (changelog odd)) with
  | Ok img, Some d => ∃ e, Recovery.restore 0 incarnation img catalog_one limits = Some (Err e)
  | _, _ => False
  end.
Proof.
  assert (Hok : is_ok (Recovery.image odd limits) = true) by (vm_compute; reflexivity).
  destruct (Recovery.image odd limits) as [img|] eqn:Himg; [|discriminate Hok].
  assert (Hlast : diff_ref <$> last (ChangeLog.log (changelog odd)) = Some "")
    by (vm_compute; reflexivity).
  destruct (last (ChangeLog.log (changelog odd))) as [d|] eqn:Hd; [|discriminate Hlast].
  apply (image_of_odd_ids_not_restored 0 incarnation odd catalog_one limits img d odd_inv Himg).
  - by apply last_Some_elem_of.
  - injection Hlast as Hid. intros [Hne _]. by apply Hne.
Defined.

(** ** Changelog *)

(** A log of two units, the first of two changes. *)
Definition change (v : N) (s : CommitSpan) : GraphDiff :=
  mkDiff v s 10 0 DRemove "x" None None None None.
Definition unit_one : list GraphDiff := [change 1 (mkSpan 1 2); change 2 (mkSpan 1 2)].
Definition unit_two : list GraphDiff := [change 3 (singleton 3)].
Definition log : ChangeLog.t := ChangeLog.mk (unit_one ++ unit_two) 3 100 30 0.
Lemma units_complete : Forall ChangeLog.complete_unit [unit_one; unit_two].
Proof.
  constructor; [|constructor; [|constructor]].
  - exists (mkSpan 1 2). split; [done|]. split; [by repeat constructor|done].
  - exists (singleton 3). split; [done|]. split; [by repeat constructor|done].
Qed.
Lemma log_wf : ChangeLog.wf 3 log.
Proof. split; try done. exists [unit_one; unit_two]. split; [done|apply units_complete]. Qed.

Lemma append_unit_bounded_witness :
  ∃ c' kept gone, ChangeLog.append_committed_unit 5 log [change 4 (singleton 4)] = Some c' ∧
    ChangeLog.wf (3 + len [change 4 (singleton 4)]) c' ∧
    ChangeLog.log c' = kept ++ (set_timestamp 5 <$> [change 4 (singleton 4)]) ∧
    ChangeLog.log log = gone ++ kept ∧ ChangeLog.floor c' = (ChangeLog.floor log + len gone)%N ∧
    ChangeLog.capacity c' = ChangeLog.capacity log ∧
    ChangeLog.byte_capacity c' = ChangeLog.byte_capacity log.
Proof.
  apply (append_unit_bounded 5 3 log [change 4 (singleton 4)] log_wf).
  - exists (singleton 4). split; [done|]. split; [by repeat constructor|done].
  - reflexivity.
  - vm_compute. discriminate.
  - vm_compute. discriminate.
Defined.

(** Evicting one diff of a unit evicts the unit. *)
Example whole_unit_evicted :
  (ChangeLog.log <$> ChangeLog.append_committed_unit 0 log [change 4 (singleton 4)])
  = Some (unit_two ++ [change 4 (singleton 4)]).
Proof. vm_compute. reflexivity. Qed.

Lemma changes_since_exact_witness :
  match ChangeLog.changes_since log 1 with
  | Err gap => (1 < ChangeLog.floor log)%N ∧ gap = mkGap 1 (ChangeLog.floor log)
  | Ok l =>
      (ChangeLog.floor log ≤ 1)%N ∧ (∃ gone, ChangeLog.log log = gone ++ l) ∧
      (1 ≤ 3 → Changelog.version <$> l = seqN (1 + 1) (3 - 1))%N
  end.
Proof. exact (changes_since_exact 3 log 1 log_wf). Defined.

Lemma units_iterated_whole_witness :
  ChangeLog.drain 4 ([] ++ concat [unit_one; unit_two]) (length (@nil GraphDiff))
  = [unit_one; unit_two].
Proof.
  apply (units_iterated_whole 4 [] [unit_one; unit_two] units_complete). vm_compute. lia.
Defined.

(** ** Filters *)

Definition node : FilterNode :=
  Or (And (Has ["site"]) (Missing ["siteRef"; "dis"])) (Cmp ["enabled"] CEq (KBool true)).
#[local] Existing Instance literals.

Lemma parse_print_roundtrip_witness :
  render node = "((site) and (not siteRef->dis)) or (enabled == true)" ∧
  FilterParser.parse_filter_controlled Ok () (mkLimits 100 10 10) (render node) = Some (Ok node).
Proof.
  split; [vm_compute; reflexivity|].
  apply (parse_print_roundtrip Ok () (mkLimits 100 10 10) node lexical_laws).
  - done.
  - split; [split|].
    + exists "site", []. split; [done|]. split; [done|]. by repeat constructor.
    + split; [done|]. by repeat constructor.
    + split; [|apply bool_readable]. exists "enabled", []. split; [done|]. split; [done|].
      by repeat constructor.
  - vm_compute. discriminate.
  - vm_compute. discriminate.
  - vm_compute. discriminate.
  - vm_compute. discriminate.
Defined.

Lemma parse_total_and_bounded_witness :
  ∃ r, FilterParser.parse_filter_controlled Ok () (mkLimits 20 3 2) "a and not b" = Some r ∧
    ∀ n, r = Ok n →
      wf_node n ∧ (node_count n ≤ 3)%N ∧ (node_depth n ≤ 2)%N ∧ (str_len "a and not b" ≤ 20)%N.
Proof. exact (parse_total_and_bounded Ok () (mkLimits 20 3 2) "a and not b" lexical_laws). Defined.

(** ** Indexes *)

Lemma tag_index_tracks_rows_witness :
  ((∅ : gmap N HDict) !! 0%N = None →
   ∃ idx', TagBitmapIndex.add TagBitmapIndex.new 0 (HDict.tag_names site) = Some idx' ∧
     TagBitmapIndex.models idx' (<[0%N := site]> ∅)) ∧
  ((∅ : gmap N HDict) !! 0%N = Some site →
   ∃ idx', TagBitmapIndex.remove TagBitmapIndex.new 0 (HDict.tag_names site) = Some idx' ∧
     TagBitmapIndex.models idx' (delete 0%N ∅)).
Proof.
  apply (tag_index_tracks_rows TagBitmapIndex.new ∅ 0 site TagBitmapIndex.new_models).
  vm_compute. discriminate.
Defined.

Lemma adjacency_tracks_rows_witness :
  ((∅ : gmap N HDict) !! 0%N = None →
   RefAdjacency.models (RefAdjacency.index_refs RefAdjacency.new 0 equip) (<[0%N := equip]> ∅)) ∧
  ((∅ : gmap N HDict) !! 0%N = Some equip →
   RefAdjacency.models (RefAdjacency.remove RefAdjacency.new 0) (delete 0%N ∅)).
Proof. exact (adjacency_tracks_rows RefAdjacency.new ∅ 0 equip RefAdjacency.new_models_adj). Defined.

Definition fields : ValueIndex.t := foldl ValueIndex.index_field ValueIndex.new ["dis"].
Lemma fields_models : ValueIndex.models fields ∅.
Proof. apply ValueIndex.new_models_fields. Qed.

Lemma value_index_tracks_rows_witness :
  ((∅ : gmap N HDict) !! 0%N = None →
   ValueIndex.models (ValueIndex.index_values fields 0 site) (<[0%N := site]> ∅)) ∧
  ((∅ : gmap N HDict) !! 0%N = Some site →
   ValueIndex.models (ValueIndex.remove_values fields 0 site) (delete 0%N ∅)).
Proof. exact (value_index_tracks_rows fields ∅ 0 site fields_models). Defined.

Definition indexed_site : ValueIndex.t := ValueIndex.index_values fields 0 site.
Lemma indexed_site_models : ValueIndex.models indexed_site (<[0%N := site]> ∅).
Proof. apply ValueIndex.index_values_models; [apply fields_models|apply lookup_empty]. Qed.

Lemma value_lookups_exact_witness :
  let holding (P : comparison → Prop) :=
    ∃ row k, (<[0%N := site]> ∅ : gmap N HDict) !! 0%N = Some row ∧
      ValueIndex.holds row "dis" k ∧ P (OrderableKind.cmp k (OrderableKind.Str "L")) in
  (0%N ∈ ValueIndex.eq_lookup indexed_site "dis" (KStr "L") ↔ holding (λ c, c = Eq)) ∧
  (0%N ∈ ValueIndex.lt_lookup indexed_site "dis" (KStr "L") ↔ holding (λ c, c = Lt)) ∧
  (0%N ∈ ValueIndex.le_lookup indexed_site "dis" (KStr "L") ↔ holding (λ c, c ≠ Gt)) ∧
  (0%N ∈ ValueIndex.gt_lookup indexed_site "dis" (KStr "L") ↔ holding (λ c, c = Gt)) ∧
  (0%N ∈ ValueIndex.ge_lookup indexed_site "dis" (KStr "L") ↔ holding (λ c, c ≠ Lt)).
Proof.
  apply (value_lookups_exact indexed_site (<[0%N := site]> ∅) "dis" (KStr "L")
           (OrderableKind.Str "L") 0 indexed_site_models).
  - eapply bool_decide_eq_true_1. vm_compute. reflexivity.
  - reflexivity.
Defined.

(** 1.0 and 2.0. *)
Definition one : F64.f64 := F64.from_bits 0x3FF0000000000000.
Definition two : F64.f64 := F64.from_bits 0x4000000000000000.
Lemma total_order_refines_partial_witness : F64.total_cmp one two = Lt.
Proof.
  apply (total_order_refines_partial one two Lt); [vm_compute; reflexivity|left; discriminate].
Defined.

(** ** Values *)

(** Another enumeration order. *)
Definition reverse_order : HashOrder := λ K V _ _ m, reverse (map_to_list m).
Lemma reverse_order_laws : @HashOrderLaws reverse_order.
Proof. intros K V ? ? m. apply reverse_Permutation. Qed.

Lemma diff_size_deterministic_witness :
  @ValueBudget.diff_bytes canonical_order "s" [site] 9000
  = @ValueBudget.diff_bytes reverse_order "s" [site] 9000 ∧
  ∀ n, @ValueBudget.diff_bytes canonical_order "s" [site] 9000 = Some n → (n ≤ 9000)%N.
Proof.
  exact (diff_size_deterministic canonical_order reverse_order "s" [site] 9000
           canonical_order_laws reverse_order_laws).
Defined.

Lemma update_size_recomputed_witness :
  match ValueBudget.patch_diff_bytes "s" site {["dis" := KRemove]} 9000 with
  | Some n => ValueBudget.diff_bytes "s" [{["dis" := KRemove]};
                EntityGraph.previous_of site {["dis" := KRemove]}] 9000 = Some n
  | None => False
  end.
Proof.
  assert (Hok : ValueBudget.patch_diff_bytes "s" site {["dis" := KRemove]} 9000 = Some 1675%N)
    by (vm_compute; reflexivity).
  rewrite Hok.
  apply (update_size_recomputed "s" site {["dis" := KRemove]} 9000 1675 9000).
  - vm_compute. discriminate.
  - exact Hok.
  - vm_compute. discriminate.
Defined.

Lemma patch_semantics_witness :
  HDict.merge site {["dis" := KRemove]} !! "dis" = None ∧
  EntityGraph.previous_of site {["dis" := KRemove]} !! "dis" = Some (KStr "Main").
Proof. exact (patch_semantics site {["dis" := KRemove]} "dis"). Defined.

(** ** Shared graph *)

(** A subscriber of the empty graph, after a site was added and it was
    woken. *)
Definition shared0 : SharedGraph.t := SharedGraph.from_restored empty.
Definition shared1 : SharedGraph.t :=
  match SharedGraph.add incarnation 0 shared0 site with Some (s, _) => s | None => shared0 end.
Definition woken1 : GraphSubscriber.t :=
  match GraphSubscriber.await_wake shared1 (GraphSubscriber.new shared0) with
  | Some (GraphSubscriber.Woken sub) => sub
  | _ => GraphSubscriber.new shared0
  end.
Definition run1 : SharedFacts.Run := SharedFacts.mkRun shared1 [[]] woken1 true ∅.

Lemma shared_add_returns :
  (if SharedGraph.add incarnation 0 shared0 site is Some _ then true else false) = true.
Proof. vm_compute. reflexivity. Qed.

Lemma run1_reached : rtc SharedFacts.run_step (SharedFacts.run_start shared0) run1.
Proof.
  destruct (SharedGraph.add incarnation 0 shared0 site) as [[s r]|] eqn:Hadd;
    [|pose proof shared_add_returns as Hok; rewrite Hadd in Hok; discriminate Hok].
  assert (Hs : shared1 = s) by (unfold shared1; by rewrite Hadd).
  eapply rtc_r.
  - unfold SharedFacts.run_start. unfold SharedGraph.add in Hadd.
    eapply (SharedFacts.write_runs incarnation); [|exact Hadd].
    intros g g' r' Hg. apply rtc_once. by eapply System.step_add.
  - unfold run1. rewrite Hs. apply SharedFacts.run_wake. rewrite <-Hs.
    vm_compute. reflexivity.
Qed.

Lemma subscriber_follows_witness :
  match GraphSubscriber.fetch shared1 woken1 with
  | Ok (diffs, sub) =>
      foldl apply_diff ∅ diffs = entities (SharedGraph.inner shared1) ∧
      GraphSubscriber.last_version sub = version (SharedGraph.inner shared1)
  | Err _ => False
  end.
Proof.
  assert (Hok : is_ok (GraphSubscriber.fetch shared1 woken1) = true) by (vm_compute; reflexivity).
  destruct (GraphSubscriber.fetch shared1 woken1) as [[diffs sub]|] eqn:Hf; [|discriminate Hok].
  exact (proj2 (proj2 (subscriber_follows shared0 run1 empty_inv run1_reached)) diffs sub Hf).
Defined.

Lemma write_announced_witness :
  match SharedGraph.add incarnation 0 shared0 site with
  | Some (s', r) =>
      SharedFacts.ready (SharedGraph.tx s') (bc_subscribe (SharedGraph.tx shared0))
  | None => False
  end.
Proof.
  destruct (SharedGraph.add incarnation 0 shared0 site) as [[s' r]|] eqn:Hadd.
  2: { pose proof shared_add_returns as Hok. rewrite Hadd in Hok. discriminate Hok. }
  destruct (write_announced incarnation (λ g, add 0 g site) shared0 s' r
              (bc_subscribe (SharedGraph.tx shared0)) (bc_subscribe (SharedGraph.wakes shared0)))
    as (g & Hg & Habs & Hsame & Hrev & Hwake & Hinc); [exact Hadd|apply bc_subscribe_of..|].
  apply Hrev. left. cbn beta in Hg.
  assert (Hv : version ∘ fst <$> add 0 (SharedGraph.inner shared0) site = Some 1%N)
    by (vm_compute; reflexivity).
  rewrite Hg in Hv. injection Hv as Hv. rewrite Hv. vm_compute. discriminate.
Defined.
Lemma indexes_track_rows_witness :
  ∃ ti ad vi, remove_indexing graph 0 site = Some (EntityGraph.set_indexes ti ad vi graph) ∧
    indexed ti ad vi (delete 0%N (rows graph)).
Proof.
  apply (indexes_track_rows graph (rows graph) 0 site); [apply graph_inv|done|vm_compute; reflexivity].
Defined.

End Witnesses.
