(* ===== verification/OntologyWitnesses.v ===== *)
(** * The ontology theorems on concrete inputs

    The namespace and the graph of [Demo] satisfy the hypotheses of the
    theorems of [OntologyTheorems]; the environments below grant, hide or
    refuse. *)

From Stdlib Require Import Ascii.
From S2P Require Import Prelude Floats Kinds Extern Bitmap Adjacency ValueIndex Filter Text Taxonomy Xeto Namespace Fitting NamespaceFacts FittingFacts SpecSemantics NamespaceInv Controlled ControlledFacts ControlledSafety Changelog Graph GraphInv Query QueryFacts GraphValidation OntologyTheorems Demo.

Module OntologyWitnesses.
Import EntityGraph GraphInv Demo.

(** ** The namespace *)

Lemma ns_reachable : NamespaceInv.reachable ns.
Proof.
  unfold NamespaceInv.reachable, ns.
  etrans; [apply NamespaceInv.register_libs_steps|apply NamespaceInv.register_specs_steps].
Qed.
Lemma ns_ok : NamespaceInv.ok ns.
Proof. apply NamespaceInv.reachable_ok, ns_reachable. Qed.

(** A library's symbols are new. *)
Definition fresh (n : Namespace.t) (lib : Lib) : Prop :=
  map_Forall (λ s d, def_symbol d = s ∧ Namespace.defs n !! s = None) (lib_defs lib).
#[local] Instance fresh_dec n lib : Decision (fresh n lib).
Proof. unfold fresh. apply _. Defined.
Fixpoint all_fresh (n : Namespace.t) (ls : list Lib) : bool :=
  match ls with
  | [] => true
  | l :: ls => bool_decide (fresh n l) && all_fresh (Namespace.register_lib n l) ls
  end.
Lemma all_fresh_tight ls n :
  NamespaceFacts.tight n → all_fresh n ls = true →
  NamespaceFacts.tight (foldl Namespace.register_lib n ls).
Proof.
  revert n. induction ls as [|l ls IH]; intros n Ht; cbn [all_fresh foldl]; [done|].
  intros [Hf%bool_decide_eq_true Hls]%andb_true_iff. apply IH; [|done].
  apply NamespaceFacts.register_lib_tight; [done|]. intros s d Hs. exact (Hf s d Hs).
Qed.

Lemma ns_tight : NamespaceFacts.tight ns.
Proof.
  unfold ns. eapply NamespaceInv.tight_same; [apply NamespaceInv.register_specs_same|].
  apply all_fresh_tight; [|vm_compute; reflexivity].
  split; [done|]. exact (NamespaceFacts.new_indexes_indexed Namespace.new).
Qed.
(** Every supertype is defined, and specs are under their names. *)
Definition closed (ds : gmap string Def) : bool :=
  bool_decide (map_Forall (λ _ d, Forall (λ p, is_Some (ds !! p)) (def_is d)) ds).
Definition named (sps : gmap string Spec) : bool :=
  bool_decide (map_Forall (λ q s, spec_qname s = q ∧ NoDup (slot_name <$> spec_slots s)) sps).
Lemma ns_plain : ControlledFacts.plain ns.
Proof.
  assert (Hc : closed (Namespace.defs ns) = true) by (vm_compute; reflexivity).
  assert (Hn : named (Namespace.specs ns) = true) by (vm_compute; reflexivity).
  apply bool_decide_eq_true in Hc, Hn. split.
  - exact ns_tight.
  - intros s d p Hs Hp. pose proof (Hc s d Hs) as Hd. rewrite Forall_forall in Hd. by apply Hd.
  - intros c Hsel. vm_compute in Hsel. discriminate Hsel.
  - intros q s Hs. exact (Hn q s Hs).
Qed.

(** The same namespace with a strict catalog that declares the air handler. *)
Definition ahu_strict : Spec :=
  mkSpec "acme::Ahu" "Ahu" "acme" (Some "ph::Equip") ∅ [marker_slot "ahu"; marker_slot "equip"] false "strict".
Definition strict_ns : Namespace.t := Namespace.with_catalog ns ahu_strict.
Lemma strict_ns_ok : NamespaceInv.ok strict_ns.
Proof. apply NamespaceInv.with_catalog_spec, ns_ok. Qed.
(** No query slot asks for what it declares. *)
Definition unasked (q0 : string) (s : Spec) : bool :=
  forallb (λ slot, match Fitting.str_meta slot "of" with
                   | Some o => bool_decide (o ≠ q0) && bool_decide (spec_lib s +:+ "::" +:+ o ≠ q0)
                   | None => true
                   end) (spec_slots s).
Lemma ahu_declared q s : declaration ahu_strict q = Some s → q = "acme::Ahu" ∧ s = ahu_strict.
Proof. cbn. case_decide as Hq; [|done]. by intros [= <-]. Qed.
Lemma ahu_undeclared q : q ≠ "acme::Ahu" → declaration ahu_strict q = None.
Proof. intros Hq. cbn. case_decide as Hd; [|done]. by destruct Hq. Qed.
Lemma ahu_settled : ControlledFacts.settled_catalog strict_ns ahu_strict.
Proof.
  assert (Hu : map_Forall (λ _ s, unasked "acme::Ahu" s = true) (Namespace.specs strict_ns))
    by (apply (bool_decide_unpack _); vm_compute; exact I). split.
  - intros q s [-> _]%ahu_declared. apply (bool_decide_unpack _). vm_compute. exact I.
  - intros q s b [_ ->]%ahu_declared [= <-]. apply (bool_decide_unpack _). vm_compute. exact I.
  - intros q s [-> _]%ahu_declared. vm_compute. exact I.
  - intros q s slot o Hs Hd Hin Ho. pose proof (Hu q s Hs) as Hf. unfold unasked in Hf.
    rewrite forallb_forall in Hf. specialize (Hf slot (proj1 (list_elem_of_In _ _) Hin)).
    rewrite Ho in Hf. apply andb_true_iff in Hf as [H1%bool_decide_eq_true H2%bool_decide_eq_true].
    split; apply ahu_undeclared; assumption.
Qed.
Lemma strict_ns_plain : ControlledFacts.plain strict_ns.
Proof.
  assert (Hc : closed (Namespace.defs strict_ns) = true) by (vm_compute; reflexivity).
  assert (Hn : named (Namespace.specs strict_ns) = true) by (vm_compute; reflexivity).
  apply bool_decide_eq_true in Hc, Hn. split.
  - eapply NamespaceInv.tight_same; [apply NamespaceInv.with_catalog_spec, ns_ok|exact ns_tight].
  - intros s d p Hs Hp. pose proof (Hc s d Hs) as Hd. rewrite Forall_forall in Hd. by apply Hd.
  - intros c Hsel. assert (c = ahu_strict) as -> by (vm_compute in Hsel; by injection Hsel as <-). exact ahu_settled.
  - intros q s Hs. exact (Hn q s Hs).
Qed.

(** ** Fitting on the graph *)

Lemma equip_term :
  FittingFacts.strict_for ns "ph::Equip" = None ∧
  Namespace.resolve_spec_term ns "ph::Equip" = Some (TSpec equip_spec).
Proof. split; vm_compute; reflexivity. Qed.
Lemma spec_term_semantics_witness :
  SpecSemantics.satisfies (entities graph) equip equip_spec (Namespace.specs ns) ns ∧
  ¬ SpecSemantics.satisfies (entities graph) site equip_spec (Namespace.specs ns) ns ∧
  (matches_with_ns (SpecMatch "acme::Ahu") site (Some (query_ctx graph)) (Some strict_ns) = true ↔
   strict_fits ahu_strict "acme::Ahu" site (Some (ctx_forward (query_ctx graph))) = true).
Proof.
  pose proof (spec_term_semantics graph ns equip "ph::Equip" graph_inv ns_ok) as He.
  pose proof (spec_term_semantics graph ns site "ph::Equip" graph_inv ns_ok) as Hs.
  rewrite (proj1 equip_term), (proj2 equip_term) in He, Hs. split; [|split].
  - apply He. vm_compute. reflexivity.
  - intros Hsat. apply Hs in Hsat. vm_compute in Hsat. discriminate Hsat.
  - pose proof (spec_term_semantics graph strict_ns site "acme::Ahu" graph_inv strict_ns_ok) as Hc.
    destruct (FittingFacts.strict_for strict_ns "acme::Ahu") as [c|] eqn:Hsf; [|vm_compute in Hsf; discriminate Hsf].
    assert (c = ahu_strict) as -> by (vm_compute in Hsf; by injection Hsf as <-). exact Hc.
Defined.

(** ** Controlled evaluation *)

(** An environment over the graph: it has a budget of work, hides a set of
    names, and remembers the errors it returns. *)
Definition charge (limit : option N) (n : N) (s : N * list string) : result string unit * (N * list string) :=
  let '(spent, log) := s in
  match limit with
  | Some l => if decide (spent + n ≤ l)%N then (Ok (), ((spent + n)%N, log))
              else (Err "work", (spent, log ++ ["work"]))
  | None => (Ok (), ((spent + n)%N, log))
  end.
Definition shown (hidden : gset string) (e : HDict) : bool :=
  match HDict.id e with Some r => bool_decide (ref_val r ∉ hidden) | None => true end.
Definition env_over (g : EntityGraph.t) (limit : option N) (hidden : gset string) : QueryEnvironment := {|
  Env := N * list string;
  EnvError := string;
  env_work n := charge limit n;
  env_retain n := charge limit n;
  env_depth _ s := (Ok (), s);
  env_comparison _ _ s := (Ok (), s);
  env_forward r s := (Ok (if decide (ref_val r ∈ hidden) then None else resolver g r), s);
  env_inverse r tag s := (Ok (List.filter (shown hidden) (inverse g r tag)), s);
  env_catalog_visible _ name s := (Ok (bool_decide (name ∉ hidden)), s);
  env_regex_source_limit _ := 1000%N;
  env_regex_size_limit _ := DEFAULT_REGEX_LIMIT;
  env_regex_limit_error _ := "pattern"
|}.
Abbreviation demo_env := (env_over graph).
Definition demo_fit (limit : option N) (hidden : gset string)
    : @StrictFit one_declaration (demo_env limit hidden) :=
  λ c term e s, (if strict_fits c term e None then Ok () else Err FitInvalid, s).
Lemma demo_strict_sound limit hidden ns' :
  @ControlledSafety.strict_sound _ (demo_env limit hidden) (demo_fit limit hidden) (query_ctx graph)
    (λ _, True) ns'.
Proof. intros c term e env r env' _ _ _ [= <- <-]. cbn. by destruct (forallb _ _). Qed.



(** A spec the catalog declares and one it does not, on an air handler. *)
Definition ahu : HDict := {[ "id" := ref "a"; "equip" := KMarker; "ahu" := KMarker; "siteRef" := ref "s" ]}.
Definition ahu_filter : FilterNode := Or (SpecMatch "acme::Ahu") (SpecMatch "ph::Equip").

(** An environment that hides the equipment's library still shows a site. *)
Lemma demo_masks g limit hidden :
  @ControlledSafety.masks (env_over g limit hidden) (query_ctx g) (inverse g) (λ _, True).
Proof.
  split; cbn -[inverse resolver]; try done.
  - intros r env o env' _ [= <- <-]. split; [done|]. intros e. by case_decide.
  - intros r tag env l env' _ [= <- <-]. split; [done|]. intros e He%list_elem_of_In.
    apply List.filter_In in He as [He _]. by apply list_elem_of_In.
Qed.
Lemma controlled_masked_sound_witness :
  let r := Controlled.matches_controlled (QE:=demo_env None {["ph::Site"]}) (SF:=demo_fit None {["ph::Site"]}) 100
             ahu_filter ahu (Some strict_ns) (0%N, []) in
  match r with
  | Some (Ok true, _) =>
      matches_with_ns ahu_filter ahu (Some (query_ctx graph)) (Some strict_ns) = true
  | _ => False
  end.
Proof.
  cbv zeta. destruct (Controlled.matches_controlled _ _ _ _ _) as [[[[|]|err] env']|] eqn:Hr;
    [|vm_compute in Hr; discriminate..].
  exact (controlled_masked_sound (QE:=demo_env None {["ph::Site"]}) (SF:=demo_fit None {["ph::Site"]}) 100 graph
    strict_ns ahu_filter ahu (λ _, True) (0%N, []) env' graph_inv strict_ns_plain (demo_strict_sound _ _ _)
    (demo_masks graph _ _) I eq_refl Hr).
Defined.

(** An environment with little to spend stops the evaluation. *)
Lemma demo_logs limit hidden : @ControlledSafety.logs _ (demo_env limit hidden) (demo_fit limit hidden) snd.
Proof.
  split; try (by intros).
  1-2: intros n [spent l]; cbn; destruct limit; [case_decide|]; done.
  intros c term entity env. unfold fit_entity, demo_fit. by destruct (strict_fits c term entity None).
Qed.
Lemma controlled_stop_propagates_witness :
  match Controlled.matches_controlled (QE:=demo_env (Some 3%N) ∅) (SF:=demo_fit (Some 3%N) ∅) 100
          (SpecMatch "ph::Site") site (Some ns) (0%N, []) with
  | Some (Err err, env') =>
      env'.2 = [err] ∨ (env'.2 = [] ∧ err = "pattern")
  | _ => False
  end.
Proof.
  destruct (Controlled.matches_controlled _ _ _ _ _) as [[[b|err] env']|] eqn:Hr;
    [vm_compute in Hr; discriminate| |vm_compute in Hr; discriminate].
  exact (controlled_stop_propagates (QE:=demo_env (Some 3%N) ∅) (SF:=demo_fit (Some 3%N) ∅) snd 100
    (SpecMatch "ph::Site") site (Some ns) (0%N, []) (Err err) env' (demo_logs _ _) Hr).
Defined.

(** ** Validation *)

Lemma validate_graph_correct_witness :
  ∃ report, (GraphValidation.validate_graph graph ns).1 = Some report ∧
    total_entities (summary report) = 3%N ∧
    (valid (summary report) + with_errors (summary report) + untyped (summary report) =
     total_entities (summary report))%N.
Proof.
  destruct (validate_graph_correct graph ns graph_inv ns_ok) as (report & Hr & _ & _ & Ht & Hsum).
  exists report. split; [exact Hr|]. split; [|exact Hsum]. rewrite Ht. vm_compute. reflexivity.
Defined.

(** ** The namespace *)

Lemma namespace_invariant_witness : NamespaceInv.ok ns.
Proof. exact (namespace_invariant ns ns_reachable). Defined.

Definition asked : Namespace.t := (Namespace.entity_is_a equip "equip" ns).2.
Lemma asked_ok : NamespaceInv.ok asked.
Proof. eapply NamespaceInv.step_ok; [apply NamespaceInv.step_entity_is_a|exact ns_ok]. Qed.
Lemma memos_invisible_witness :
  (Namespace.entity_is_a equip "equip" asked).1 =
  (Namespace.entity_is_a equip "equip" (Namespace.clone asked)).1 ∧
  TaxonomyTree.descendant_cache (Namespace.taxonomy asked) ≠
  TaxonomyTree.descendant_cache (Namespace.taxonomy (Namespace.clone asked)).
Proof.
  split; [|vm_compute; discriminate].
  exact (proj1 (proj2 (memos_invisible asked equip "equip" None asked_ok))).
Defined.

Lemma hierarchy_semantics_witness :
  rtc (edge (TaxonomyTree.parents (Namespace.taxonomy ns))) "ahu" "equip" ∧
  "marker" ∈ Namespace.supertypes ns "ahu" ∧ "ahu" ∈ TaxonomyTree.all_subtypes (Namespace.taxonomy ns) "equip".
Proof.
  destruct (hierarchy_semantics ns "ahu" "equip" ns_ok) as [Hi _].
  assert (Hr : rtc (edge (TaxonomyTree.parents (Namespace.taxonomy ns))) "ahu" "equip")
    by (apply Hi; vm_compute; reflexivity).
  split; [exact Hr|]. split.
  - apply (bool_decide_unpack _). vm_compute. exact I.
  - apply (bool_decide_unpack _). vm_compute. exact I.
Defined.

Definition boiler : HDict := {[ "id" := ref "b"; "hot" := KMarker; "water" := KMarker ]}.
Lemma entity_is_a_semantics_witness :
  (Namespace.entity_is_a boiler "hot-water" ns).1 = true ∧
  NamespaceInv.marked ns boiler "hot" ∧ NamespaceInv.marked ns boiler "water".
Proof.
  assert (Hm : (Namespace.entity_is_a boiler "hot-water" ns).1 = true) by (vm_compute; reflexivity).
  split; [exact Hm|]. apply (entity_is_a_semantics ns boiler "hot-water" ns_ok) in Hm as [_ Hp].
  destruct (Namespace.conjunct_parts ns "hot-water") as [ps|] eqn:Hc; [|vm_compute in Hc; discriminate].
  destruct Hp as [-> Hp]. split; apply Hp; apply (bool_decide_unpack _); vm_compute; exact I.
Defined.

Lemma resolve_spec_term_typed_witness :
  match Namespace.resolve_spec_term ns "acme::HotWater" with
  | Some (TDef d) => d = "hot-water" ∧ Namespace.has_type ns d = true
  | _ => False
  end.
Proof.
  pose proof (resolve_spec_term_typed ns "acme::HotWater" ns_ok) as Hr.
  destruct (Namespace.resolve_spec_term ns "acme::HotWater") as [[s|d]|] eqn:Hd;
    [vm_compute in Hd; discriminate| |vm_compute in Hd; discriminate].
  split; [|apply Hr]. vm_compute in Hd. congruence.
Defined.

Lemma unload_lib_exact_witness :
  match Namespace.unload_lib ns "acme" with
  | (ns', Ok _) => NamespaceFacts.exact ns' ∧ Namespace.libs ns' = delete "acme" (Namespace.libs ns)
  | _ => False
  end.
Proof.
  destruct (Namespace.unload_lib ns "acme") as [ns' [[]|e]] eqn:Hu.
  - destruct (unload_lib_exact ns "acme" ns' (Ok ()) ns_ok Hu) as (He & _ & Hl & _).
    split; [exact He|exact Hl].
  - assert (Ho : (Namespace.unload_lib ns "acme").2 = Ok ()) by (vm_compute; reflexivity).
    rewrite Hu in Ho. discriminate.
Defined.

(** Two catalogs that redefine two specs. *)
Definition site_decl : Spec := mkSpec "ph::Site" "Site" "ph" None ∅ [] false "strict".
Definition ahu_decl : Spec := mkSpec "acme::Ahu" "Ahu" "acme" None ∅ [] false "strict".
Lemma with_catalog_rederived_witness :
  Namespace.specs (Namespace.with_catalog (Namespace.with_catalog ns ahu_decl) site_decl) =
  Namespace.specs (Namespace.with_catalog ns site_decl) ∧
  Namespace.specs (Namespace.with_catalog ns site_decl) !! "acme::Ahu" = Some ahu_spec.
Proof.
  destruct (with_catalog_rederived ns ahu_decl site_decl ns_ok) as (Hq & Hs & _).
  split; [exact Hs|]. rewrite (Hq "acme::Ahu"). vm_compute. reflexivity.
Defined.

(** The second library depends on the first, which is unloaded all the
    same. *)
Lemma trio_dependencies_ignored_witness :
  (Namespace.unload_lib (Namespace.load_trio_str (E:=string)
     (Ok (TrioLoader.load_trio (ph_rows ++ acme_rows))) Namespace.new).1 "ph").2 = Ok () ∧
  Forall (λ l, lib_name l = "acme" → lib_depends l = ["lib:ph"]) (TrioLoader.load_trio (ph_rows ++ acme_rows)).
Proof.
  split.
  - apply (trio_dependencies_ignored (ph_rows ++ acme_rows) "ph"); [|reflexivity].
    assert (Hd : Forall (λ row, Forall (λ d, String.prefix "lib:" d = true) (TrioLoader.symbol_list row "depends"))
      (ph_rows ++ acme_rows)) by (apply (bool_decide_unpack _); vm_compute; exact I).
    intros row d Hrow Hin. rewrite Forall_forall in Hd. specialize (Hd row Hrow).
    rewrite Forall_forall in Hd. exact (Hd d Hin).
  - apply (bool_decide_unpack _). vm_compute. exact I.
Defined.

Lemma displaced_spec_returns_witness :
  let ns1 := (Namespace.unload_lib (Namespace.with_catalog ns ahu_decl) "acme").1 in
  Namespace.libs (Namespace.with_catalog ns1 site_decl) !! "acme" = None ∧
  Namespace.specs (Namespace.with_catalog ns1 site_decl) !! "acme::Ahu" = Some ahu_spec.
Proof.
  cbv zeta. destruct (Namespace.unload_lib (Namespace.with_catalog ns ahu_decl) "acme") as [ns1 [[]|e]] eqn:Hu.
  - apply (displaced_spec_returns ns ahu_decl site_decl "acme::Ahu" ahu_spec ahu_decl ns1 ns_ok);
      [vm_compute; reflexivity..|exact Hu].
  - assert (Ho : (Namespace.unload_lib (Namespace.with_catalog ns ahu_decl) "acme").2 = Ok ())
      by (vm_compute; reflexivity).
    rewrite Hu in Ho. discriminate.
Defined.
End OntologyWitnesses.
