(* ===== verification/AppWitnesses.v ===== *)
(** * Reads on concrete inputs

    A graph with a namespace, a policy that hides the equipment, a budget
    with a quiet outside, and a simple instance of the cursor codes. *)

From Stdlib Require Import Ascii.
From Stdlib Require String.
From S2P Require Import Prelude Floats Kinds Extern Bitmap Adjacency ValueIndex Filter FilterParser Text Taxonomy Xeto Namespace Fitting NamespaceFacts FittingFacts NamespaceInv Controlled ControlledFacts ControlledSafety Changelog Graph GraphInv Query QueryFacts System Application MeterFacts Sanitize SanitizeFacts View Reading ReadingFacts CatalogPages ReadService ReadServiceFacts AppTheorems Demo OntologyWitnesses.

Module AppWitnesses.
Import EntityGraph GraphInv Demo Meter MeterFacts ReadingFacts ReadServiceFacts.

(** ** The outside *)

Definition quiet : Moment := mkMoment 0 false false 0 false 0 false false 0.
#[export] Instance still : Ambient := {| moments _ := quiet; parsing _ := quiet; interrupted := quiet |}.
Definition budget : Budget := new_budget ReadLimits.default (secs 5).

(** The resident may not see the equipment; the guest does not see the spec of
    the air handler either. *)
Definition visitor (catalog : CatalogKind → string → bool) : PolicySnapshot :=
  mkPolicy "guest" (λ _, true) (λ _, true) (λ id, negb (bool_decide (id = "e"))) (λ _ _, true)
    (λ id, negb (bool_decide (id = "e"))) (λ _, true) catalog (λ _, true).
Definition resident : PolicySnapshot := visitor (λ _ _, true).
Definition guest : PolicySnapshot :=
  visitor (λ k name, negb (bool_decide (k = CSpec) && bool_decide (name = "acme::Ahu"))).

(** The graph has a namespace with a selected catalog. *)
Definition plot : EntityGraph.t := with_namespace incarnation (mkArc 7 (OntologyWitnesses.strict_ns : @DefNamespace ontology)).
Definition house : EntityGraph.t := foldl add_row plot [site; equip; point].
Lemma house_inv : inv house.
Proof.
  apply System.reachable_inv, add_rows_reachable. exists plot.
  split; [apply System.initial_namespace|apply rtc_refl].
Qed.

Definition fitted (c : Spec) (term : string) (e : HDict) : bool := strict_fits c term e None.
#[export] Instance guest_fit : ∀ g p, @StrictFit one_declaration (Reading.env g p) :=
  λ g p c term e b, (if fitted c term e then Ok () else Err FitInvalid, b).

Definition tall : nat := 200.
Abbreviation ns := OntologyWitnesses.strict_ns.
Definition fits_fuel (g : EntityGraph.t) : bool :=
  bool_decide (2 + pending (ControlledFacts.is_map ns) ∅ + size (entities g) + size (Namespace.specs ns) ≤ tall).
Lemma house_readable p : readable house p tall ReadLimits.default fitted ns.
Proof.
  split.
  - exact house_inv.
  - vm_compute. reflexivity.
  - exact OntologyWitnesses.strict_ns_ok.
  - intros c q s Hc Hd. exact (ControlledFacts.sc_rooted _ _ (ControlledFacts.pl_catalog _ OntologyWitnesses.strict_ns_plain c Hc) q s Hd).
  - intros c term e _ _ b Hb. unfold fit_entity, guest_fit.
    destruct (fitted c term e) eqn:Hf; eexists _, b; (split; [reflexivity|split; [exact Hb|reflexivity]]).
  - assert (Hf : fits_fuel house = true) by (vm_compute; reflexivity).
    exact (proj1 (bool_decide_eq_true _) Hf).
Qed.
Lemma resident_unveiled : unveiled house resident ReadLimits.default fitted ns.
Proof.
  split.
  - exact OntologyWitnesses.strict_ns_plain.
  - intros id. cbn. done.
  - done.
  - vm_compute. done.
  - done.
Qed.

(** ** Records *)

Definition record_of (raw : HDict) : result ReadError (option HDict) * Budget :=
  Sanitize.record guest "p" raw budget.
Lemma record_exact_witness :
  HashOrderLaws ∧ (record_of point).1 = Ok (Some (delete "equipRef" point)) ∧
  after budget (SanitizeFacts.row_cost point) (record_of point).2.
Proof.
  split; [apply _|]. split; [vm_compute; reflexivity|].
  exact (proj1 (record_exact guest "p" point budget)).
Defined.
Lemma record_discloses_witness :
  p_entity guest "p" = true ∧
  SanitizeFacts.permitted guest (λ r, Some "id" = Some "id" ∧ ref_val r = "p") (Some "id") (ref "p").
Proof.
  destruct (record_discloses guest "p" point budget (delete "equipRef" point) (record_of point).2
    "id" (ref "p") (Some "id") (ref "p")) as (He & _ & Hp).
  - vm_compute. reflexivity.
  - vm_compute. reflexivity.
  - apply SanitizeFacts.part_here.
  - split; [exact He|exact Hp].
Defined.

(** ** Queries *)

(** The point is reached, but not its equipment; the spec of the air handler,
    which the selected catalog fits, is there for the resident only. *)
Definition node : FilterNode := And (Has ["point"]) (Missing ["equipRef"; "equip"]).
Definition ahu_node : FilterNode := SpecMatch "acme::Ahu".
Definition handler : HDict := <["equip" := KMarker]> {["ahu" := KMarker]}.
Definition verdict_of {A} (r : option (result ReadError bool * A)) : option bool :=
  match r with Some (Ok b, _) => Some b | _ => None end.
Lemma answer_inj (a b : bool) : @Ok ReadError bool a = Ok b → a = b.
Proof. congruence. Qed.
Lemma view_evaluation_witness :
  verdict_of (Reading.matches house guest tall node (delete "equipRef" point) budget) = Some true ∧
  verdict_of (Reading.matches house guest tall ahu_node handler budget) = Some false ∧
  shown_matches house guest tall ReadLimits.default fitted ahu_node handler = false ∧
  verdict_of (Reading.matches house resident tall ahu_node handler budget) = Some true ∧
  matches_with_ns ahu_node handler (Some (View.masked_ctx house resident)) (Reading.namespace house) = true.
Proof.
  split; [vm_compute; reflexivity|]. split; [vm_compute; reflexivity|]. split.
  - destruct (view_evaluation house guest tall ReadLimits.default fitted ns ahu_node handler budget
                (house_readable guest) eq_refl) as (r & b' & Hrun & _ & Hres & _).
    assert (Hv : verdict_of (Reading.matches house guest tall ahu_node handler budget) = Some false)
      by (vm_compute; reflexivity).
    rewrite Hrun in Hv. destruct r as [v|e]; [|discriminate Hv]. injection Hv as ->.
    destruct Hres as [Heq|(e & Heq & _)]; [|discriminate Heq]. exact (eq_sym (answer_inj _ _ Heq)).
  - destruct (view_evaluation house resident tall ReadLimits.default fitted ns ahu_node handler budget
                (house_readable resident) eq_refl) as (r & b' & Hrun & _ & _ & Hplain).
    assert (Hv : verdict_of (Reading.matches house resident tall ahu_node handler budget) = Some true)
      by (vm_compute; reflexivity).
    split; [exact Hv|]. rewrite Hrun in Hv. destruct r as [v|e]; [|discriminate Hv].
    injection Hv as ->. symmetry. exact (Hplain resident_unveiled true eq_refl).
Defined.

(** The visible ids, one row to a page. *)
Definition ri : RequestIdentity :=
  mkIdentity (NFilter None) ["id"] 1 (H4 Json) (TrustedEmbedding "kiosk") "guest".

Definition lib_query : RequestIdentity :=
  mkIdentity NLibraries [] 1 (H4 Json) (TrustedEmbedding "kiosk") "guest".
Definition page_rows (r : option (result ReadError (list HDict * bool * option string) * Budget))
    : option (N * bool * option string) :=
  match r with Some (Ok (rows, complete, last), _) => Some (len rows, complete, last) | _ => None end.
Definition spec_query : RequestIdentity :=
  mkIdentity (NSpec "acme::Ahu") [] 1 (H4 Json) (TrustedEmbedding "kiosk") "guest".
Lemma catalog_page_exact_witness :
  page_rows (Reading.catalog_page house guest lib_query None budget) = Some (1%N, false, Some "acme") ∧
  (∃ r b', Reading.catalog_page house guest lib_query None budget = Some (r, b') ∧
    (r = Ok (CatalogPages.catalog_page_of guest ns lib_query None) ∨ ∃ e, r = Err e ∧ halts e)) ∧
  (∃ b', Reading.catalog_page house guest spec_query None budget = Some (Err Unavailable, b')) ∧
  page_rows (Reading.catalog_page house resident spec_query None budget) = Some (1%N, true, Some "acme::Ahu").
Proof.
  assert (Hns : Reading.namespace house = Some ns) by (vm_compute; reflexivity).
  split; [vm_compute; reflexivity|]. split_and!; [| |vm_compute; reflexivity].
  - exact (catalog_page_exact house guest ReadLimits.default ns lib_query None budget Hns eq_refl eq_refl).
  - destruct (catalog_page_exact house guest ReadLimits.default ns spec_query None budget Hns eq_refl eq_refl)
      as (r & b' & Hrun & Hr).
    destruct (CatalogPages.offered guest ns (ri_query spec_query)) eqn:Ho; [vm_compute in Ho; discriminate Ho|].
    exists b'. by rewrite <-Hr.
Defined.

(** ** Requests *)

(** A code that is always the same, and text that carries the bytes with
    sixteen characters of padding. *)
Definition pad : bytes := replicate 16 Byte.x41.
#[export] Instance plain_codes : CursorCrypto := {|
  hmac _ _ := replicate 32 Byte.x00;
  base64_encode l := String.string_of_list_byte (l ++ pad);
  base64_decode s := Some (take (String.length s - 16) (String.list_byte_of_string s))
|}.
Lemma text_length l : String.length (String.string_of_list_byte l) = length l.
Proof. induction l as [|b l IH]; [done|]. cbn. by f_equal. Qed.
#[export] Instance plain_laws : CursorCryptoLaws.
Proof.
  split.
  - done.
  - intros l. unfold base64_decode, base64_encode, plain_codes.
    rewrite text_length, String.list_byte_of_string_of_list_byte, length_app.
    change (length pad) with 16. by rewrite Nat.add_sub, take_app_length.
  - intros l Hl. unfold str_len, base64_encode, plain_codes. rewrite text_length, length_app, Hl. done.
Qed.

Definition service : ReadService.t :=
  ReadService.mk incarnation (λ _, Ok guest) [Byte.x07] ReadLimits.default.
Definition out : Outside := mkOutside 0 5 0 0 5 (replicate 16 Byte.x09).
Definition kiosk : Principal := TrustedEmbedding "kiosk".
Definition request : ReadRequest := mkRequest (QFilter "point or site") ["id"] 1 None (H4 Json).
Definition encode (g : EntityGraph.t) (profile : OutputProfile) (grid : HGrid) : B HGrid := mret grid.
Definition first_read := ReadService.execute_on_graph tall encode service out house kiosk request
  empty_table empty_table budget.
Definition summary (r : option (result ReadError (ReadPage HGrid) * CursorTable * Budget))
    : option (N * bool * nat) :=
  match r with
  | Some (Ok page, table, _) => Some (pg_row_count page, pg_complete page, size (entries table))
  | _ => None
  end.
Lemma first_summary : summary first_read = Some (1%N, false, 1).
Proof. vm_compute. reflexivity. Qed.
Lemma read_served_witness :
  ∃ page table' b', first_read = Some (Ok page, table', b') ∧
  ∃ p identity after rows last grid b1 b2,
    ReadService.policy service kiosk = Ok p ∧
    p_operation p OpRead = true ∧
    identifies ReadLimits.default p kiosk request identity ∧
    permits p ns (ri_query identity) ∧
    starts service out house (rq_cursor request) empty_table identity after ∧
    (if reachable_parent house p (ri_query identity)
     then page_of house p tall ReadLimits.default fitted identity after else ([], true, None))
      = (rows, pg_complete page, last) ∧
    pg_row_count page = len rows ∧ grid_rows grid = rows ∧
    encode house (ri_profile identity) grid b1 = (Ok (pg_output page), b2) ∧
    leaves service out house identity page last empty_table table'.
Proof.
  pose proof first_summary as Hs.
  destruct first_read as [[[[page|e] table'] b']|] eqn:Hrun; [|discriminate Hs..].
  exists page, table', b'. split; [reflexivity|].
  apply (read_served tall encode service out fitted house ns kiosk request empty_table empty_table budget page table' b').
  - reflexivity.
  - intros p _. apply house_readable.
  - exact Hrun.
Defined.
Lemma cursor_table_bounded_witness :
  match first_read with
  | Some (_, table', _) => table_ok ReadLimits.default table'
  | None => False
  end.
Proof.
  pose proof first_summary as Hs. destruct first_read as [[[r table'] b']|] eqn:Hrun; [|discriminate Hs].
  apply (cursor_table_bounded tall encode service out house kiosk request empty_table empty_table budget r table' b').
  - apply table_ok_empty.
  - exact Hrun.
Defined.
Definition stamp : Stamp := ReadService.stamp_of service house.
Definition stored : CursorRecord := mkCursor ri stamp "p" 100 1000.
Definition kept : CursorTable := mkTable {[ nonce out := stored ]} 1000.
Definition issued : string := base64_encode (nonce out ++ hmac [Byte.x07] (nonce out)).
Lemma cursor_roundtrip_witness :
  ∃ r b', ReadService.lookup service out issued kept budget = (r, b') ∧
    (r = Ok (ri, stamp, "p") ∨ ∃ e, r = Err e ∧ halts e).
Proof.
  apply (cursor_roundtrip service out out budget (nonce out) issued (ReadService.token service out budget).2
           kept stored budget).
  - vm_compute. reflexivity.
  - reflexivity.
  - vm_compute. reflexivity.
  - vm_compute. reflexivity.
Defined.
End AppWitnesses.
