(* ===== verification/WireWitnesses.v ===== *)
(** * The wire and the feed on concrete inputs

    Instances of the classes that stand for JSON, Base64, the calendar and the
    cursor codes, and a feed over the demonstration graph whose policy hides
    the equipment. *)

From Stdlib Require Import Ascii.
From Stdlib Require String.
From stdpp Require Import pretty countable.
From S2P Require Import Prelude Floats Kinds Size Extern Bitmap Adjacency ValueIndex Filter FilterParser Text Taxonomy Xeto Namespace Fitting NamespaceFacts FittingFacts NamespaceInv Controlled ControlledFacts Changelog Graph GraphInv Prepared Query QueryFacts System Application MeterFacts Sanitize SanitizeFacts View Reading ReadingFacts CatalogPages ReadService ReadServiceFacts WireText TypedPayload TypedFacts EntityWire EntityWireFacts EntityWireLaws Feed FeedFacts WireTheorems Demo OntologyWitnesses AppWitnesses.

Module WireWitnesses.
Import EntityGraph GraphInv Demo Meter MeterFacts.

(** ** A calendar of plain numbers *)

#[export] Instance numbers : Chrono := {|
  is_date := is_i64;
  date_text d := pretty d;
  parse_date s := to_option (parse_int s);
  is_instant i := is_i64 (i / 2000000000);
  timestamp i := (i / 2000000000)%Z;
  subsec_nanos i := Z.to_N (i mod 2000000000);
  instant_from s n :=
    if bool_decide (- 2 ^ 63 ≤ s < 2 ^ 63)%Z && bool_decide (n < 2000000000)%N
    then Some (s * 2000000000 + Z.of_N n)%Z else None
|}.
#[export] Instance numbers_laws : ChronoLaws.
Proof.
  split; unfold is_date, is_instant, parse_date, date_text, instant_from, timestamp, subsec_nanos, numbers.
  - intros d Hd. by rewrite parse_int_pretty.
  - intros t d. destruct (parse_int t) as [z|] eqn:Hz; [|done]. intros [= <-]. by eapply parse_int_i64.
  - done.
  - intros i Hi. unfold is_i64 in Hi. pose proof (Z.mod_pos_bound i 2000000000 ltac:(lia)).
    rewrite !bool_decide_true by lia. simpl. f_equal. rewrite Z2N.id by lia.
    pose proof (Z.div_mod i 2000000000 ltac:(lia)). lia.
  - intros s n i. case_bool_decide; [|done]. case_bool_decide; [|done]. intros [= <-]. unfold is_i64.
    rewrite Z.div_add_l, Z.div_small by lia. lia.
Qed.

(** ** Text that is its bytes *)

#[export] Instance raw64 : Base64 := {|
  b64_encode l := String.string_of_list_byte l;
  b64_decode s := Ok (String.list_byte_of_string s)
|}.
#[export] Instance raw64_laws : Base64Laws.
Proof. split. intros l. unfold b64_decode, b64_encode, raw64. by rewrite String.list_byte_of_string_of_list_byte. Qed.

(** ** Documents as coded trees *)

Definition leaf : Type := string + option string + N + Z + bool.
Definition st (s : string) : gen_tree leaf := GenLeaf (inl (inl (inl (inl s)))).
Definition os (s : option string) : gen_tree leaf := GenLeaf (inl (inl (inl (inr s)))).
Definition nt (n : N) : gen_tree leaf := GenLeaf (inl (inl (inr n))).
Definition zt (z : Z) : gen_tree leaf := GenLeaf (inl (inr z)).
Definition bt (b : bool) : gen_tree leaf := GenLeaf (inr b).

Fixpoint tree (w : WireValue) : gen_tree leaf :=
  let tags := λ l : WireTags, GenNode 0 (List.map (λ tw, GenNode 0 [st tw.1; tree tw.2]) l) in
  match w with
  | WNull => GenNode 0 []
  | WNone => GenNode 1 []
  | WMarker => GenNode 2 []
  | WNa => GenNode 3 []
  | WRemove => GenNode 4 []
  | WBool b => GenNode 5 [bt b]
  | WInt s => GenNode 6 [st s]
  | WFloat s => GenNode 7 [st s]
  | WNumber s u => GenNode 8 [st s; os u]
  | WStr s => GenNode 9 [st s]
  | WRef s d => GenNode 10 [st s; os d]
  | WUri s => GenNode 11 [st s]
  | WSymbol s => GenNode 12 [st s]
  | WDate s => GenNode 13 [st s]
  | WTime s n => GenNode 14 [nt s; nt n]
  | WDateTime s n o t => GenNode 15 [st s; nt n; zt o; st t]
  | WCoord a b => GenNode 16 [st a; st b]
  | WXstr a b => GenNode 17 [st a; st b]
  | WBuf s => GenNode 18 [st s]
  | WNominal a b c d => GenNode 19 [st a; st b; st c; st d]
  | WList items => GenNode 20 (List.map tree items)
  | WDict l => GenNode 21 [tags l]
  | WGrid m cs rs => GenNode 22 [tags m; GenNode 0 (List.map (λ c, GenNode 0 [st (wc_name c); tags (wc_meta c)]) cs);
                                 GenNode 0 (List.map tags rs)]
  end.

(** Reading the children of a node. *)
Definition children (t : gen_tree leaf) : list (gen_tree leaf) := match t with GenNode _ l => l | _ => [] end.
Definition untag (f : gen_tree leaf → WireValue) (t : gen_tree leaf) : string * WireValue :=
  match t with GenNode _ [GenLeaf (inl (inl (inl (inl s)))); v] => (s, f v) | _ => ("", WNull) end.
Definition uncol (f : gen_tree leaf → WireValue) (t : gen_tree leaf) : WireColumn :=
  match t with
  | GenNode _ [GenLeaf (inl (inl (inl (inl s)))); GenNode _ l] => mkWireColumn s (List.map (untag f) l)
  | _ => mkWireColumn "" []
  end.
Definition unrow (f : gen_tree leaf → WireValue) (t : gen_tree leaf) : WireTags := List.map (untag f) (children t).
Fixpoint untree (n : nat) (t : gen_tree leaf) : WireValue :=
  match n with
  | 0 => WNull
  | S n => let untree := untree n in
  match t with
  | GenNode 0 [] => WNull
  | GenNode 1 [] => WNone
  | GenNode 2 [] => WMarker
  | GenNode 3 [] => WNa
  | GenNode 4 [] => WRemove
  | GenNode 5 [GenLeaf (inr b)] => WBool b
  | GenNode 6 [GenLeaf (inl (inl (inl (inl s))))] => WInt s
  | GenNode 7 [GenLeaf (inl (inl (inl (inl s))))] => WFloat s
  | GenNode 8 [GenLeaf (inl (inl (inl (inl s)))); GenLeaf (inl (inl (inl (inr u))))] => WNumber s u
  | GenNode 9 [GenLeaf (inl (inl (inl (inl s))))] => WStr s
  | GenNode 10 [GenLeaf (inl (inl (inl (inl s)))); GenLeaf (inl (inl (inl (inr d))))] => WRef s d
  | GenNode 11 [GenLeaf (inl (inl (inl (inl s))))] => WUri s
  | GenNode 12 [GenLeaf (inl (inl (inl (inl s))))] => WSymbol s
  | GenNode 13 [GenLeaf (inl (inl (inl (inl s))))] => WDate s
  | GenNode 14 [GenLeaf (inl (inl (inr s))); GenLeaf (inl (inl (inr k)))] => WTime s k
  | GenNode 15 [GenLeaf (inl (inl (inl (inl s)))); GenLeaf (inl (inl (inr k))); GenLeaf (inl (inr o));
                GenLeaf (inl (inl (inl (inl z))))] => WDateTime s k o z
  | GenNode 16 [GenLeaf (inl (inl (inl (inl a)))); GenLeaf (inl (inl (inl (inl b))))] => WCoord a b
  | GenNode 17 [GenLeaf (inl (inl (inl (inl a)))); GenLeaf (inl (inl (inl (inl b))))] => WXstr a b
  | GenNode 18 [GenLeaf (inl (inl (inl (inl s))))] => WBuf s
  | GenNode 19 [GenLeaf (inl (inl (inl (inl a)))); GenLeaf (inl (inl (inl (inl b))));
                GenLeaf (inl (inl (inl (inl c)))); GenLeaf (inl (inl (inl (inl d))))] => WNominal a b c d
  | GenNode 20 items => WList (List.map untree items)
  | GenNode 21 [GenNode _ l] => WDict (List.map (untag untree) l)
  | GenNode 22 [GenNode _ m; GenNode _ cs; GenNode _ rs] =>
      WGrid (List.map (untag untree) m) (List.map (uncol untree) cs) (List.map (unrow untree) rs)
  | _ => WNull
  end end.

Fixpoint height (t : gen_tree leaf) : nat :=
  match t with GenLeaf _ => 0 | GenNode _ l => S (list_max (List.map height l)) end.
Lemma height_child t l k : t ∈ l → height t < height (GenNode k l).
Proof.
  intros Ht. cbn [height]. assert (height t ≤ list_max (List.map height l)); [|lia].
  pose proof (proj1 (list_max_le (List.map height l) _) (le_n _)) as Hf.
  rewrite Forall_forall in Hf. apply Hf, list_elem_of_fmap. eauto.
Qed.

Abbreviation tags_tree := (λ l : WireTags, GenNode 0 (List.map (λ tw, GenNode 0 [st tw.1; tree tw.2]) l)).
Lemma untag_tags n l :
  Forall (λ tw, height (tree tw.2) ≤ n → untree n (tree tw.2) = tw.2) l →
  height (tags_tree l) ≤ n → List.map (untag (untree n)) (List.map (λ tw, GenNode 0 [st tw.1; tree tw.2]) l) = l.
Proof.
  intros Hf Hh. rewrite List.map_map. rewrite <-(List.map_id l) at 2. apply List.map_ext_in.
  intros [t w] Hin%list_elem_of_In. rewrite Forall_forall in Hf. cbn [untag st fst snd]. f_equal.
  apply (Hf (t, w) Hin). cbn [snd].
  assert (Hc : height (tree w) < height (GenNode 0 [st t; tree w])) by (apply height_child; right; left).
  assert (Hd : height (GenNode 0 [st t; tree w]) < height (tags_tree l)); [|cbn beta in Hh; lia].
  apply height_child, list_elem_of_fmap. by exists (t, w).
Qed.

Lemma untree_tree w n : height (tree w) ≤ n → untree n (tree w) = w.
Proof.
  revert n. induction w as [w Hs|items Hi|tags Ht|meta cols rows Hm Hc Hr] using wire_ind; intros n Hn.
  - destruct n as [|n]; [destruct w; simpl in Hn; lia || done|]. by destruct w.
  - destruct n as [|n]; [simpl in Hn; lia|]. cbn [tree untree]. f_equal. rewrite List.map_map.
    rewrite <-(List.map_id items) at 2. apply List.map_ext_in. intros w Hw%list_elem_of_In.
    rewrite Forall_forall in Hi. apply Hi; [done|].
    assert (height (tree w) < height (tree (WList items))); [|lia].
    apply height_child, list_elem_of_fmap. eauto.
  - destruct n as [|n]; [simpl in Hn; lia|]. cbn [tree untree]. f_equal. apply untag_tags.
    + eapply Forall_impl; [exact Ht|]. intros tw Htw. apply Htw.
    + assert (height (tags_tree tags) < height (tree (WDict tags))); [|lia]. apply height_child. left.
  - destruct n as [|n]; [simpl in Hn; lia|].
    set (cts := GenNode 0 (List.map (λ c, GenNode 0 [st (wc_name c); tags_tree (wc_meta c)]) cols)).
    set (rts := GenNode 0 (List.map tags_tree rows)).
    assert (Hin : ∀ t, t ∈ [tags_tree meta; cts; rts] → height t ≤ n).
    { intros t Hin. apply (height_child _ _ 22) in Hin. change (GenNode 22 _) with (tree (WGrid meta cols rows)) in Hin. lia. }
    change (tree (WGrid meta cols rows)) with (GenNode 22 [tags_tree meta; cts; rts]). cbn [untree]. f_equal.
    + apply untag_tags; [|apply Hin; left]. eapply Forall_impl; [exact Hm|]. intros tw Htw. apply Htw.
    + unfold cts. rewrite List.map_map. rewrite <-(List.map_id cols) at 2. apply List.map_ext_in.
      intros c Hcin%list_elem_of_In. rewrite Forall_forall in Hc. cbn [uncol st]. destruct c as [name tags].
      f_equal. apply untag_tags; cbn [wc_meta].
      * eapply Forall_impl; [exact (Hc _ Hcin)|]. intros tw Htw. apply Htw.
      * assert (H1 : height (tags_tree tags) < height (GenNode 0 [st name; tags_tree tags])) by (apply height_child; right; left).
        assert (H2 : height (GenNode 0 [st name; tags_tree tags]) < height cts);
          [|pose proof (Hin cts ltac:(right; left)); lia].
        apply height_child, list_elem_of_fmap. by exists (mkWireColumn name tags).
    + unfold rts. rewrite List.map_map. rewrite <-(List.map_id rows) at 2. apply List.map_ext_in.
      intros r Hrin%list_elem_of_In. rewrite Forall_forall in Hr. cbn [unrow children]. apply untag_tags.
      * eapply Forall_impl; [exact (Hr _ Hrin)|]. intros tw Htw. apply Htw.
      * assert (H2 : height (tags_tree r) < height rts); [|pose proof (Hin rts ltac:(right; right; left)); lia].
        apply height_child, list_elem_of_fmap. eauto.
Qed.

Fixpoint bits_of (p : positive) : bytes :=
  match p with xH => [] | xO p => Byte.x30 :: bits_of p | xI p => Byte.x31 :: bits_of p end.
Definition of_bits (l : bytes) : positive :=
  foldr (λ b p, if bool_decide (b = Byte.x31) then xI p else xO p) xH l.
Lemma of_bits_of p : of_bits (bits_of p) = p.
Proof. induction p as [p IH|p IH|]; cbn; [by f_equal..|done]. Qed.

Definition coded (b : bytes) : option (N * gen_tree leaf) := decode (of_bits b).
#[export] Instance trees_json : SerdeJson := {|
  to_vec e := Ok (bits_of (encode (env_version e, tree (env_value e))));
  tokens b := match coded b with
    | Some (v, _) =>
        Some (DObj [("version", DInt (Z.of_N v)); ("value", DStr (String.string_of_list_byte b))])
    | None => None
    end;
  refusal _ _ := "document over its limits";
  from_value j := match j with
    | VObj m =>
        match m !! "value" with
        | Some (VStr s) =>
            match coded (String.list_byte_of_string s) with
            | Some (v, t) => Ok (mkEnvelope v (untree (height t) t))
            | None => Err "not a tree"
            end
        | _ => Err "no value"
        end
    | _ => Err "not an object"
    end
|}.
Lemma coded_envelope e : coded (bits_of (encode (env_version e, tree (env_value e)))) = Some (env_version e, tree (env_value e)).
Proof. unfold coded. by rewrite of_bits_of, decode_encode. Qed.
#[export] Instance trees_json_laws : SerdeJsonLaws.
Proof.
  split; unfold to_vec, tokens, from_value, trees_json.
  - intros e b [= <-]. rewrite coded_envelope. eauto.
  - intros e b d l j n [= <-]. rewrite coded_envelope. set (b := bits_of _). intros [= <-] Hs Hv.
    assert (Hj : j = VObj {[ "value" := VStr (String.string_of_list_byte b); "version" := VInt (Z.of_N (env_version e)) ]}).
    { cbn [seed try_fold fst snd] in Hs. repeat case_bool_decide; simplify_eq/=; try done.
      all: repeat case_bool_decide; simplify_eq/=; done. }
    subst j. split.
    + unfold json_version. rewrite lookup_insert_ne, lookup_singleton_eq by done.
      rewrite bool_decide_true by lia. by rewrite N2Z.id.
    + rewrite lookup_insert_eq, String.list_byte_of_string_of_list_byte. unfold b. rewrite coded_envelope. cbn.
      rewrite untree_tree by done. by destruct e.
Qed.

(** ** Cursor codes

    A code that is always the same, and text that carries the bytes with as
    much padding as Base64 needs more characters than bytes. *)
Definition padded (l : bytes) : string :=
  String.string_of_list_byte (l ++ replicate ((length l + 2) / 3) Byte.x41).
Definition unpadded (s : string) : option bytes :=
  let l := take (3 * String.length s / 4) (String.list_byte_of_string s) in
  if bool_decide (padded l = s) then Some l else None.
#[export] Instance feed_codes : CursorCrypto := {|
  hmac _ _ := replicate 32 Byte.x00; base64_encode := padded; base64_decode := unpadded |}.
Lemma padded_length l : String.length (padded l) = length l + (length l + 2) / 3.
Proof. unfold padded. by rewrite AppWitnesses.text_length, length_app, length_replicate. Qed.
Lemma padding n : 3 * (n + (n + 2) / 3) / 4 = n.
Proof.
  pose proof (Nat.div_mod (n + 2) 3 ltac:(lia)). pose proof (Nat.mod_upper_bound (n + 2) 3 ltac:(lia)).
  symmetry. apply (Nat.div_unique _ 4 _ (3 * ((n + 2) / 3) - n)); lia.
Qed.
#[export] Instance feed_codes_laws : CursorCryptoLaws.
Proof.
  split.
  - done.
  - intros l. unfold base64_decode, base64_encode, feed_codes, unpadded. rewrite padded_length.
    rewrite padding. unfold padded at 2. rewrite bool_decide_true; unfold padded;
    by rewrite String.list_byte_of_string_of_list_byte, take_app_length.
  - intros l Hl. unfold str_len, base64_encode, feed_codes. by rewrite padded_length, Hl.
Qed.
#[export] Instance feed_cursor_laws : FeedCursorLaws.
Proof.
  split.
  - intros l Hl. unfold str_len, base64_encode, feed_codes. by rewrite padded_length, Hl.
  - intros s l. unfold base64_decode, base64_encode, feed_codes, unpadded. case_bool_decide; [|done].
    by intros [= <-].
Qed.
#[export] Instance nobody : PrincipalText := {| debug_principal _ := "p" |}.

(** ** Payloads *)

(** A check that finds most typed values typed. *)
Fixpoint typedb (n : nat) (v : Kind) : bool :=
  match n with
  | 0 => false
  | S n =>
      let row (d : HDict) := forallb (λ kv, typedb n kv.2) (map_to_list d) in
      match v with
      | KInt z => bool_decide (- 2 ^ 63 ≤ z < 2 ^ 63)%Z
      | KDate _ | KTime _ | KDateTime _ | KNominal _ => false
      | KList l => forallb (typedb n) l
      | KDict d => row d
      | KGrid g => row (grid_meta g) && forallb (λ c, row (col_meta c)) (grid_cols g) && forallb row (grid_rows g)
      | _ => true
      end
  end.
Lemma typedb_sound n v : typedb n v = true → typed v.
Proof.
  revert v. induction n as [|n IH]; intros v; [done|]. cbn [typedb].
  assert (Hrow : ∀ d : HDict, forallb (λ kv, typedb n kv.2) (map_to_list d) = true → typed_row d).
  { intros d Hd k w Hk. apply IH. rewrite List.forallb_forall in Hd. apply (Hd (k, w)), list_elem_of_In.
    by apply elem_of_map_to_list. }
  destruct v; try (intros _; by apply typed_scalar); try done.
  - intros Hz%bool_decide_eq_true. apply typed_scalar. unfold scalar_ok, is_i64. lia.
  - intros Hl. apply typed_list. intros w Hw%list_elem_of_In. rewrite List.forallb_forall in Hl. auto.
  - intros Hd. by apply typed_dict, Hrow.
  - intros [[Hm Hc]%andb_true_iff Hr]%andb_true_iff. rewrite List.forallb_forall in Hc, Hr.
    apply typed_grid; [by apply Hrow| |].
    + intros c k w Hin%list_elem_of_In. apply Hrow, (Hc c Hin).
    + intros r k w Hin%list_elem_of_In. apply Hrow, (Hr r Hin).
Qed.

(** A dict with a grid inside. *)
Definition sheet : HGrid :=
  mkHGrid {[ "dis" := KStr "sheet" ]} [mkHCol "area" {[ "unit" := KStr "m" ]}] [{[ "area" := KInt (-7) ]}; ∅].
Definition parcel : Kind := KDict {[ "site" := KMarker; "rows" := KList [KGrid sheet; KBool true] ]}.
Definition sent : bytes := match Typed.encode parcel with Ok b => b | Err _ => [] end.
Lemma parcel_sent : Typed.encode parcel = Ok sent.
Proof. vm_compute. reflexivity. Qed.
Lemma typed_payload_roundtrip_witness : Typed.decode sent = Ok parcel ∧ (len sent ≤ 1048576)%N.
Proof.
  pose proof (typed_payload_roundtrip parcel (typedb_sound 5 parcel eq_refl)) as H.
  rewrite parcel_sent in H. exact H.
Defined.

(** ** A grid codec

    The one text of a one-row grid in quotes. *)
Definition payload_grid (s : string) : HGrid := mkHGrid ∅ [mkHCol "payload" ∅] [{[ "payload" := KStr s ]}].
Definition payload_of (g : HGrid) : option string :=
  match g with
  | mkHGrid m [mkHCol name cm] [row] =>
      match row !! "payload" with
      | Some (KStr s) =>
          if bool_decide (name = "payload") && bool_decide (size m = 0) && bool_decide (size cm = 0)
             && bool_decide (size row = 1)
          then Some s else None
      | _ => None
      end
  | _ => None
  end.
Lemma payload_of_grid g s : payload_of g = Some s → g = payload_grid s.
Proof.
  destruct g as [m [|[name cm] [|??]] [|row [|??]]]; try done. cbn [payload_of].
  destruct (row !! "payload") as [[| | | | | | | | | | |v| | | | | | | | | | |]|] eqn:Hrow; try done.
  repeat case_bool_decide; try done. intros [= ->]. unfold payload_grid. repeat f_equal; try done.
  1,2: by apply map_size_empty_inv.
  apply map_eq. intros k. destruct (decide (k = "payload")) as [->|Hk]; [by rewrite Hrow, lookup_singleton_eq|].
  rewrite lookup_singleton_ne by done. destruct (row !! k) as [v|] eqn:Hv; [|done]. exfalso.
  assert (Hd : delete "payload" row = ∅) by (apply map_size_empty_inv; rewrite map_size_delete_Some by eauto; lia).
  rewrite <-(lookup_delete_ne row "payload" k), Hd, lookup_empty in Hv by done. done.
Qed.
Definition quote : ascii := Ascii.ascii_of_N 34.
Definition quotes : Codec := {|
  codec_encode_grid g :=
    match payload_of g with
    | Some s =>
        let t := String.String quote (s +:+ String.String quote String.EmptyString) in
        if utf8 (Byte.to_N <$> as_bytes t) then Some t else None
    | None => None
    end;
  codec_decode_grid t :=
    match t with
    | String.String _ r => Some (payload_grid (String.substring 0 (String.length r - 1) r))
    | _ => None
    end
|}.
Lemma substring_app s t : String.substring 0 (String.length s) (s +:+ t) = s.
Proof.
  induction s as [|c s IH]; [by destruct t|]. change (String.String c s +:+ t) with (String.String c (s +:+ t)).
  cbn [String.substring String.length]. by rewrite IH.
Qed.
Lemma quotes_law g s :
  codec_encode_grid quotes g = Some s →
  codec_decode_grid quotes s = Some g ∧ utf8 (Byte.to_N <$> as_bytes s) = true.
Proof.
  cbn [codec_encode_grid codec_decode_grid quotes]. destruct (payload_of g) as [t|] eqn:Ht; [|done]. apply payload_of_grid in Ht as ->.
  destruct (utf8 _) eqn:Hu; [|done]. intros [= <-]. split; [|done].
  cbv beta iota. rewrite string_length_app. cbn [String.length]. rewrite Nat.add_sub, substring_app. reflexivity.
Qed.

Definition whole : ChangesRequest := mkChangesRequest None 5.
Definition whole_kind : Kind := match to_kind whole with Ok k => k | Err _ => KNull end.
Definition whole_bytes : bytes := match Entity.encode_grid whole quotes with Ok b => b | Err _ => [] end.
Lemma entity_messages_exact_witness : HashOrderLaws ∧ from_kind whole_kind = Ok whole.
Proof.
  split; [apply _|].
  destruct (entity_messages_exact whole_kind) as (_ & _ & _ & Hr & _).
  apply Hr. vm_compute. reflexivity.
Defined.
Lemma entity_grid_roundtrip_witness : Entity.decode_grid whole_bytes quotes = Ok whole.
Proof.
  apply (entity_grid_roundtrip whole whole_kind quotes whole_bytes).
  - exact I.
  - vm_compute. reflexivity.
  - apply (typedb_sound 5). vm_compute. reflexivity.
  - exact quotes_law.
  - vm_compute. reflexivity.
  - vm_compute. reflexivity.
Defined.

(** ** A feed *)

#[export] Existing Instance AppWitnesses.still.
Definition feeds : Feed.t := Feed.mk (λ _, Ok AppWitnesses.guest) incarnation [Byte.x07] 60 1048576.
Definition scene : FeedScene := mkFeedScene 0 (λ n, N.of_nat n).
Definition kiosk : Principal := TrustedEmbedding "kiosk".
Definition home : GraphState := EntityGraph.state AppWitnesses.house.
Definition origin : string := Feed.encode_cursor feeds kiosk "guest" home 0 0.
(** Two changes at a time, from the beginning. *)
Definition asked (cursor : string) : ChangesRequest := mkChangesRequest (Some cursor) 2.
Definition served (cursor : string) : result ReadError ChangesPage * Budget :=
  Feed.feed_page feeds scene kiosk (asked cursor) AppWitnesses.house AppWitnesses.budget.
Definition digest (r : result ReadError ChangesPage * Budget) : option (list string * N * bool) :=
  match r.1 with Ok page => Some (ed_id <$> cp_changes page, cp_position page, cp_complete page) | Err _ => None end.
Definition typed_diffb (d : GraphDiff) : bool :=
  typedb 5 (KDict (ed_changed (raw_diff d))) && match ed_previous (raw_diff d) with Some row => typedb 5 (KDict row) | None => true end.
Lemma typed_diffb_sound d : typed_diffb d = true → FeedFacts.typed_diff d.
Proof.
  intros [Hc Hp]%andb_true_iff. split; [by apply typed_dict_inv, (typedb_sound 5)|].
  intros row Hrow. cbn [raw_diff ed_previous] in Hp. rewrite Hrow in Hp. by apply typed_dict_inv, (typedb_sound 5).
Qed.
Lemma house_ready : feed_ready feeds AppWitnesses.house.
Proof.
  split; [reflexivity|reflexivity|vm_compute; discriminate|vm_compute; discriminate| |].
  - exact (inv_log _ AppWitnesses.house_inv).
  - assert (Hall : forallb typed_diffb (ChangeLog.log (EntityGraph.changelog AppWitnesses.house)) = true)
      by (vm_compute; reflexivity).
    apply Forall_forall. intros d Hd%list_elem_of_In. rewrite List.forallb_forall in Hall.
    by apply typed_diffb_sound, Hall.
Qed.

Lemma feed_cursor_exact_witness :
  Feed.decode_cursor feeds origin kiosk "guest" home 59 = Ok 0%N ∧
  Feed.decode_cursor feeds origin kiosk "guest" home 60 = Err StaleCursor.
Proof.
  destruct (feed_cursor_exact feeds home kiosk "guest" 59) as [Hr _]; [done|done|vm_compute; discriminate|].
  destruct (feed_cursor_exact feeds home kiosk "guest" 60) as [Hs _]; [done|done|vm_compute; discriminate|].
  split; [exact (Hr 0%N 0%N ltac:(done))|exact (Hs 0%N 0%N ltac:(done))].
Defined.

Definition page_of (r : result ReadError ChangesPage * Budget) : ChangesPage :=
  match r.1 with Ok page => page | Err _ => mkChangesPage [] [] 0 0 0 "" false [] end.
Definition first : ChangesPage := page_of (served origin).
Lemma first_digest : digest (served origin) = Some (["s"], 2%N, false).
Proof. vm_compute. reflexivity. Qed.
Lemma served_page c x page b :
  digest (served c) = Some x → page = page_of (served c) → b = (served c).2 →
  Feed.feed_page feeds scene kiosk (asked c) AppWitnesses.house AppWitnesses.budget = (Ok page, b).
Proof. unfold digest, page_of. fold (served c). intros Hs -> ->. by destruct (served c) as [[page|e] b']. Qed.
Definition rest : Budget := (served origin).2.

Lemma feed_page_exact_witness :
  ∃ bytes, Entity.encode first = Ok bytes ∧ (len bytes ≤ 1048576)%N ∧ Entity.decode bytes = Ok first.
Proof.
  destruct (feed_page_exact feeds kiosk AppWitnesses.house scene (asked origin) AppWitnesses.budget first
              rest AppWitnesses.guest house_ready eq_refl (served_page _ _ _ _ first_digest eq_refl eq_refl))
    as (position & bytes & _ & _ & _ & _ & _ & _ & He & Hl & Hd).
  exists bytes. split; [exact He|]. split; [exact Hl|exact Hd].
Defined.
(** A lamp is added before the client asks again. *)
Definition lamp : HDict := <["lamp" := KMarker]> {["id" := KRef (mkHRef "l" None)]}.
Definition furnished : EntityGraph.t := add_row AppWitnesses.house lamp.
Lemma furnished_step : rtc System.step AppWitnesses.house furnished.
Proof. apply add_row_step. Qed.
Lemma furnished_ready : feed_ready feeds furnished.
Proof.
  split; [reflexivity|reflexivity|vm_compute; discriminate|vm_compute; discriminate| |].
  - exact (inv_log _ (System.steps_inv _ _ AppWitnesses.house_inv furnished_step)).
  - assert (Hall : forallb typed_diffb (ChangeLog.log (EntityGraph.changelog furnished)) = true)
      by (vm_compute; reflexivity).
    apply Forall_forall. intros d Hd%list_elem_of_In. rewrite List.forallb_forall in Hall.
    by apply typed_diffb_sound, Hall.
Qed.
Definition later : result ReadError ChangesPage * Budget :=
  Feed.feed_page feeds scene kiosk (asked (cp_cursor first)) furnished AppWitnesses.budget.
Definition third : ChangesPage := page_of later.
Lemma later_digest : digest later = Some (["p"; "l"], 4%N, true).
Proof. vm_compute. reflexivity. Qed.
Lemma later_page : Feed.feed_page feeds scene kiosk (asked (cp_cursor first)) furnished AppWitnesses.budget = (Ok third, later.2).
Proof.
  pose proof later_digest as Hd. fold later. unfold third, page_of, digest in *. by destruct later as [[page|e] b'].
Qed.
Lemma feed_traversal_witness :
  cp_position third = EntityGraph.version furnished ∧
  ∃ position ds, Feed.decode_cursor feeds origin kiosk "guest" home 0 = Ok position ∧
    recorded AppWitnesses.house [(furnished, third)] position (cp_position third) ds ∧
    cp_changes first ++ (cp_changes third ++ []) = omap (masked_change AppWitnesses.guest) ds.
Proof.
  destruct (feed_traversal feeds kiosk AppWitnesses.guest AppWitnesses.house scene (asked origin) AppWitnesses.budget first
              rest [(furnished, third)] AppWitnesses.house_inv house_ready eq_refl
              (served_page _ _ _ _ first_digest eq_refl eq_refl))
    as (position & ds & Hpos & Hrec & Hall & Hend).
  - apply (traversal_next _ _ _ _ scene (asked (cp_cursor first)) AppWitnesses.budget furnished third later.2).
    + exact furnished_step.
    + exact furnished_ready.
    + reflexivity.
    + exact later_page.
    + apply traversal_end.
  - split; [apply Hend; vm_compute; reflexivity|]. exists position, ds.
    split; [exact Hpos|]. split; [exact Hrec|exact Hall].
Defined.
End WireWitnesses.
