(* ===== verification/ServiceWitnesses.v ===== *)
(** * The services on concrete inputs

    The properties of commands, mutations and subscriptions, applied. *)

From Stdlib Require Import Ascii.
From Stdlib Require String.
From S2P Require Import Prelude Floats Kinds Size Extern Bitmap Adjacency ValueIndex Filter FilterParser Text Taxonomy Xeto Namespace Fitting NamespaceInv Controlled Changelog Graph GraphInv Prepared BatchFacts Query QueryFacts System Application MeterFacts Units Sanitize View Reading ReadService Command CommandExecute CommandFacts CommandRuns Shared ServiceTheorems WireText TypedPayload TypedFacts EntityWire EntityWireFacts EntityWireLaws Feed Mutation MutationFacts SubscriptionWire Subscription SubscriptionFacts SubscriptionRuns SubscriptionAnswers Demo OntologyWitnesses AppWitnesses WireWitnesses.

(** ** Commands on concrete inputs

    A graph with a writable point, a simulator that is running, and commands
    on the manual level with a duration. *)
Module CommandWitnesses.
Import EntityGraph Demo Meter Simulate CommandTheorems.

(** ** The outside *)

Definition quiet : Moment := mkMoment 0 false false 0 false 0 false false 0.
#[export] Instance still : Ambient := {| moments _ := quiet; parsing _ := quiet; interrupted := quiet |}.
#[export] Instance running : Simulator := λ _, mkGlimpse false 0 true false.
Definition limits : ReadLimits.t :=
  ReadLimits.mk 65536 512 256 32 10000 4096 4096 100000 400 (16 * MIB) 64 1000 MIB 65536 (256 * 1024) 8 16
    (secs 5) 128 (4 * MIB) (secs 60).
Definition budget : Budget := new_budget limits (secs 5).
Definition fuel : nat := 401.
Lemma fuel_enough : enough fuel budget.
Proof. vm_compute. lia. Qed.

Definition newline : string := String (Ascii.ascii_of_nat 10) "".
Definition units_text : string := "-- temperature --" +:+ newline +:+ "fahrenheit, degF" +:+ newline.
Definition reg : Units.t := default Units.empty (Units.parse_units units_text).
Example reg_found : Units.unit_name <$> Units.unit_for reg "degF" = Some "fahrenheit".
Proof. vm_compute. reflexivity. Qed.

Definition degrees (n : N) (u : option string) : Kind := KNumber (mkNumber (F64.of_usize n) u).
Definition setpoint : HDict :=
  {[ "id" := ref "w"; "point" := KMarker; "writable" := KMarker; "kind" := KStr "Number";
     "unit" := KStr "degF"; "writeDef" := degrees 68 None ]}.
Definition room_graph : EntityGraph.t := add_row graph setpoint.

Definition service : CommandService := mkService Writable CommandLimits.default.
Definition scene : Scene :=
  mkScene (λ _, Ok AllowAllSimulatedCommands) (λ _, Ok AllowAll) true 0 room_graph
    (λ i, match i with 0 => StoreBusy | 1 => GraphBusy | _ => Free end) room_graph (secs 10) (secs 10)
    (mkGlimpse false 0 true false) (Some (state room_graph)).
Definition operator : Principal := Principal.authenticated "ann" ["write"; "read"].
Definition session : SubscriptionSession := mkSession operator (Some (secs 100)) true.
Definition request : CommandRequest :=
  CommandRequest.with_duration (secs 60) (CommandRequest.set "w" 8 (degrees 72 (Some "fahrenheit"))).

Definition world : World := mkWorld budget Store.default (Some 0%N) 0.
Definition encode (grid : HGrid) (b : Budget) : result ApiError HGrid * Budget := (Ok grid, b).
Definition ran := execute reg service scene fuel operator session request None encode world.
(** The effective value and level of the point, and the cell. *)
Definition seen (s : Store.t) : option (option Kind * N) :=
  (λ p, (pt_effective p, pt_level p)) <$> Store.points s !! "w".
Definition summary {A} (r : option (result ApiError A * World)) : option (bool * option (option Kind * N) * option N) :=
  match r with
  | Some (Ok _, w) => Some (true, seen (w_store w), w_attempt w)
  | Some (Err _, w) => Some (false, seen (w_store w), w_attempt w)
  | None => None
  end.
Lemma ran_summary : summary ran = Some (true, Some (Some (degrees 72 (Some "degF")), 8%N), Some 1%N).
Proof. vm_compute. reflexivity. Qed.

Lemma simulator_invariant_witness :
  ∃ r w, ran = Some (r, w) ∧ store_ok CommandLimits.default (w_store w) ∧
    is_Some (maintain false (secs 80) (w_store w)).
Proof.
  pose proof ran_summary as Hs. destruct ran as [[r w]|] eqn:Hran; [|discriminate Hs].
  exists r, w. split; [reflexivity|].
  destruct (simulator_invariant reg service (w_store w)) as (Hok & Hm & _).
  - apply rtc_once. change (moves reg service (w_store world) (w_store w)). unfold ran in Hran.
    eapply moves_command; [|exact Hran]. exact fuel_enough.
  - split; [exact Hok|apply Hm].
Defined.

Lemma command_effect_witness :
  summary ran = Some (true, Some (Some (degrees 72 (Some "degF")), 8%N), Some 1%N) ∧
  ∃ r w', ran = Some (r, w') ∧ w_pending w' = 0%N ∧ store_ok CommandLimits.default (w_store w') ∧
    ((∃ e, r = Err e) ∧ w_attempt w' = Some 0%N ∧
       (w_store w' = Store.default ∨ w_store w' = swept (secs 10) Store.default)
     ∨ (0 < CommandLimits.max_pending CommandLimits.default)%N ∧
       dispatched SetValue (Some 0%N) (w_attempt w') ∧
       performed reg service scene budget operator session request None Store.default (w_store w')).
Proof.
  split; [exact ran_summary|].
  exact (command_effect reg service scene fuel operator session request None encode world
           (default_ok _) fuel_enough).
Defined.

(** The caller stops before the command acts: it is told so, and it holds. *)
Definition abandoned := submit reg service scene fuel operator session request (Ok budget)
  (StoppedBefore Deadline) Store.default 0.
Definition told (r : option (CommandOutcome * Store.t * N)) : option (bool * option (option Kind * N)) :=
  match r with Some (Rejected _, s, _) => Some (true, seen s) | Some (_, s, _) => Some (false, seen s) | None => None end.
Lemma outcome_honest_witness :
  told abandoned = Some (true, None) ∧
  ∃ outcome store', abandoned = Some (outcome, store', 0%N) ∧
    match outcome with
    | Rejected _ => store' = Store.default ∨ store' = swept (secs 10) Store.default
    | Accepted | Unknown => ∃ b, @Ok ReadError _ budget = Ok b ∧
        performed reg service scene b operator session request None Store.default store'
    | Inspection _ => False
    end.
Proof.
  split; [vm_compute; reflexivity|].
  apply (outcome_honest reg service scene fuel operator session request (Ok budget) (StoppedBefore Deadline)
           Store.default 0%N).
  - apply default_ok.
  - intros b [= <-]. exact fuel_enough.
Defined.

(** The manual level expires a minute after it was set. *)
Definition store_after : Store.t := match ran with Some (_, w) => w_store w | None => Store.default end.
Lemma store_after_ok : store_ok CommandLimits.default store_after.
Proof.
  destruct (execute_ran reg service scene fuel operator session request None encode world
    (default_ok _) fuel_enough) as (r & w' & Hrun & (_ & Hok & _) & _).
  unfold store_after, ran. by rewrite Hrun.
Qed.
Definition seen_at (now : N) : option (option Kind * N) := Store.expire now store_after ≫= seen.
Lemma expiry_exact_witness :
  seen_at (secs 69) = Some (Some (degrees 72 (Some "degF")), 8%N) ∧
  seen_at (secs 70) = Some (Some (degrees 68 (Some "degF")), 17%N) ∧
  ∃ s', Store.expire (secs 70) store_after = Some s' ∧
    ∀ now', (secs 70 ≤ now')%N → Store.expire now' s' = Store.expire now' store_after.
Proof.
  split; [vm_compute; reflexivity|]. split; [vm_compute; reflexivity|].
  destruct (expiry_exact service store_after (secs 70) store_after_ok) as (s' & Hs & _ & _ & Hlater).
  exists s'. split; [exact Hs|exact Hlater].
Defined.
End CommandWitnesses.

(** ** Mutations on concrete inputs

    A batch that adds a room to the demonstration graph, submitted to a
    service that allows every mutation and publishes at once. *)
Module MutationWitnesses.
Import EntityGraph GraphInv Demo WireWitnesses Mutation MutationFacts MutationTheorems.
#[local] Existing Instance AppWitnesses.still.

Definition layouts : Layouts := mkLayouts 200 300 24.
Definition capacities : Capacities := mkCapacities 3 3 4 0 8 4 4.
Definition keeper : Mutation.t := Mutation.mk incarnation MutationLimits.default EphemeralMemory.
Definition world : World :=
  mkWorld (SharedGraph.from_restored AppWitnesses.house) no_receipts (mkPolicyVersion AllowAllMutations 1).

Definition clerk : Principal := TrustedEmbedding "clerk".
Definition order : OperationIdentity := mkOperationIdentity "order-1" incarnation incarnation.
Definition room : HDict := {[ "id" := ref "r"; "siteRef" := ref "s" ]}.
Definition batch : EntityBatchRequest := mkBatchRequest order 3 [OAdd room].
Definition calm : Pulse := mkPulse 0 false false false.
Definition smooth : PublishScene := mkPublishScene calm (calm, []) (calm, []) (calm, []) calm 0 true incarnation.
Definition setting (seen : Receipts) (g : EntityGraph.t) : SubmitScene := mkSubmitScene 0 0 seen 0 g 0 true 0.

Definition own_scene (w : World) : SubmitScene := setting (w_receipts w) (SharedGraph.inner (w_graph w)).
Definition prepared (w : World) : option (Prepared * Receipts) :=
  match prepare keeper layouts capacities (own_scene w) clerk batch w AppWitnesses.budget with
  | Some (Ok (inr mt), _) => Some mt
  | _ => None
  end.
Definition after_reserve : option (Prepared * World) := '(m, t) ← prepared world; Some (m, set_receipts world t).
Definition after_publish : option (Prepared * World * World * MutationOutcome) :=
  '(m, w) ← after_reserve; '(w', o) ← publish smooth m w; Some (m, w, w', o).
Definition committed_at (o : MutationOutcome) : option N :=
  match o with MCommitted rec => Some (er_after_revision rec) | _ => None end.
Lemma publishes : (λ x, committed_at x.2) <$> after_publish = Some (Some 4%N).
Proof. vm_compute. reflexivity. Qed.

(** The run that reserves and publishes the batch. *)
Definition done_by (m : Prepared) (w w' : World) : Run := mkRun w' [] [effect_of m w w'].
Definition finished : Run :=
  match after_publish with Some (m, w, w', o) => done_by m w w' | None => run_start world end.
Lemma start_runs : runs keeper layouts capacities (run_start world).
Proof. exists world. split; [exact AppWitnesses.house_inv|]. split; [reflexivity|apply rtc_refl]. Qed.
Lemma reserve_publish w m t b b' w' o :
  inv (SharedGraph.inner (w_graph w)) →
  prepare keeper layouts capacities (own_scene w) clerk batch w b = Some (Ok (inr (m, t)), b') →
  publish smooth m (set_receipts w t) = Some (w', o) →
  rtc (run_step keeper layouts capacities) (run_start w) (done_by m (set_receipts w t) w').
Proof.
  intros Hi Hprep Hpub. eapply rtc_l.
  - exact (run_reserve keeper layouts capacities (own_scene w) clerk batch b b' m t w [] [] Hi (rtc_refl _ _) Hprep).
  - apply rtc_once. exact (run_publish keeper layouts capacities smooth m [] [] _ _ _ [] Hpub).
Qed.
Lemma finished_steps : rtc (run_step keeper layouts capacities) (run_start world) finished.
Proof.
  pose proof publishes as Hp. unfold finished. destruct after_publish as [[[[m w] w'] o]|] eqn:Ha; [|discriminate Hp].
  unfold after_publish, after_reserve, prepared in Ha.
  destruct (prepare keeper _ _ _ _ _ _ _) as [[[[o2|[m2 t2]]|e] b2]|] eqn:Hrun; try discriminate Ha.
  cbn [mbind option_bind] in Ha.
  destruct (publish smooth m2 (set_receipts world t2)) as [[w1 o1]|] eqn:Hpub; [|discriminate Ha].
  injection Ha as <- <- <- <-. exact (reserve_publish world m2 t2 _ b2 w1 o1 AppWitnesses.house_inv Hrun Hpub).
Qed.
Lemma finished_runs : runs keeper layouts capacities finished.
Proof. exists world. split; [exact AppWitnesses.house_inv|]. split; [reflexivity|exact finished_steps]. Qed.
Lemma finished_one : length (run_applied finished) = 1 ∧ ap_binding <$> run_applied finished = [binding clerk batch].
Proof. vm_compute. done. Qed.

Lemma mutation_exactly_once_witness :
  ap_binding <$> run_applied finished = [binding clerk batch] ∧ NoDup (ap_binding <$> run_applied finished) ∧
  ∀ a, a ∈ run_applied finished → ∃ r, rs_entries (w_receipts (run_world finished)) !! ap_binding a = Some r ∧
    match rc_outcome r with
    | MCommitted rec => performed (rc_request r) rec (abs (ap_before a)) (abs (ap_after a))
    | MRejected _ _ => ap_after a = ap_before a
    | MUnknown _ _ => False
    end.
Proof.
  destruct (mutation_exactly_once keeper layouts capacities finished finished_runs) as (_ & Hn & _ & Hp & _).
  split; [exact (proj2 finished_one)|]. split; [exact Hn|exact Hp].
Defined.

(** The receipt of the batch, and an earlier and later point of the run. *)
Definition receipt_in (run : Run) : option Receipt := rs_entries (w_receipts (run_world run)) !! binding clerk batch.
Lemma receipt_committed : (λ r, committed_at (rc_outcome r)) <$> receipt_in finished = Some (Some 4%N).
Proof. vm_compute. reflexivity. Qed.
Definition later : Run := mkRun (replace_policy AllowAllMutations 2 (run_world finished)) (run_plans finished) (run_applied finished).
Lemma later_steps : rtc (run_step keeper layouts capacities) finished later.
Proof. apply rtc_once. unfold later. destruct finished as [w plans done]. apply run_policy. Qed.
Lemma receipts_final_witness :
  ∃ r r', receipt_in finished = Some r ∧ receipt_in later = Some r' ∧ rc_outcome r' = rc_outcome r.
Proof.
  pose proof receipt_committed as Hc. destruct (receipt_in finished) as [r|] eqn:Hr; [|discriminate Hc].
  destruct (receipts_final keeper layouts capacities finished later (binding clerk batch) r finished_runs later_steps Hr)
    as (r' & Hr' & _ & _ & Hk).
  exists r, r'. split; [reflexivity|]. split; [exact Hr'|]. apply Hk.
  cbn in Hc. destruct (rc_outcome r); [reflexivity|discriminate Hc..].
Defined.

(** A submission from the start, and again after it was committed. *)
Definition first_scene : SubmitScene := setting no_receipts AppWitnesses.house.
Lemma first_seen : seen_in keeper layouts capacities first_scene (run_start world).
Proof.
  split; [|exact AppWitnesses.house_inv|apply rtc_refl]. exists (run_start world).
  split; [apply start_ok; [exact AppWitnesses.house_inv|reflexivity]|]. split; [apply rtc_refl|reflexivity].
Qed.
Lemma submit_honest_witness :
  ∃ w' o b', submit keeper layouts capacities first_scene clerk batch (ephemeral smooth) world AppWitnesses.budget
    = Some (w', o, b') ∧ outcome_identity o = order.
Proof.
  destruct (submit_honest keeper layouts capacities (ephemeral smooth) first_scene clerk batch world [] []
    AppWitnesses.budget (ephemeral_laws keeper layouts capacities smooth) start_runs first_seen)
    as (w' & o & b' & Hs & _ & _ & Hid & _).
  exists w', o, b'. split; [exact Hs|exact Hid].
Defined.
Lemma submit_commits :
  (λ x, committed_at x.1.2) <$> submit keeper layouts capacities first_scene clerk batch (ephemeral smooth) world AppWitnesses.budget
  = Some (Some 4%N).
Proof. vm_compute. reflexivity. Qed.

Abbreviation asked_about run := (reconcile 0 0 clerk order (run_world run) AppWitnesses.budget).
Lemma reconciled : (match (asked_about finished).1 with Ok o => committed_at o | Err _ => None end) = Some 4%N.
Proof. vm_compute. reflexivity. Qed.
Lemma reconcile_truthful_witness :
  ∃ rec b, asked_about finished = (Ok (MCommitted rec), b) ∧
  ∃ a request, a ∈ run_applied finished ∧ ap_binding a = binding clerk batch ∧
    performed request rec (abs (ap_before a)) (abs (ap_after a)).
Proof.
  pose proof reconciled as Hc. destruct (asked_about finished) as [[[rec|? ?|? ?]|e] b] eqn:Hr; try discriminate Hc.
  exists rec, b. split; [reflexivity|].
  destruct (reconcile_truthful keeper layouts capacities finished 0 0 clerk order AppWitnesses.budget
    (MCommitted rec) b finished_runs Hr) as (a & request & Ha & Hb & Hx).
  exists a, request. split; [exact Ha|]. split; [exact Hb|exact Hx].
Defined.
End MutationWitnesses.

(** ** Subscriptions on concrete inputs

    A kiosk watches the site and the point of the demonstration graph as the
    guest sees them: it creates the watch, gets the initial delivery and
    acknowledges it.  The clock passes every deadline at the two thousandth
    observation. *)
Module SubscriptionWitnesses.
Import Meter Demo Subscription SubscriptionFacts SubscriptionRuns SubscriptionAnswers.
#[local] Existing Instance WireWitnesses.numbers.
#[local] Existing Instance WireWitnesses.numbers_laws.
#[local] Existing Instance WireWitnesses.raw64.
#[local] Existing Instance WireWitnesses.raw64_laws.
#[local] Existing Instance WireWitnesses.trees_json.
#[local] Existing Instance WireWitnesses.trees_json_laws.

Definition over : Moment := mkMoment (secs 9) false false 0 false 0 false false 0.
Definition waning : Ambient := {|
  moments n := if Nat.leb 2000 n then over else AppWitnesses.quiet;
  parsing _ := AppWitnesses.quiet; Meter.interrupted := AppWitnesses.quiet |}.
#[local] Existing Instance waning.

Definition service : Subscription.t := Subscription.mk (replicate 16 Byte.x02) incarnation SubscriptionLimits.default.
Definition kiosk : Principal := TrustedEmbedding "kiosk".
Definition session : Session := mkSubSession 1 (replicate 16 Byte.x03) (mkSession kiosk None true).
Definition watch : SubscriptionId := mkSubscriptionId (replicate 16 Byte.x02) (replicate 16 Byte.x04) "lobby".
Definition create : SubscriptionCreate := mkSubscriptionCreate (replicate 16 Byte.x02) "lobby" ["s"; "p"] 1000.
Definition token : bytes := replicate 16 Byte.x05.

Definition clear : Sight := mkSight false false false 0.
Definition looking : LookScene :=
  mkLook clear 0 0 (Ok AppWitnesses.guest) 0 AppWitnesses.house token 0 (Ok AppWitnesses.guest).
Definition acting : ActScene := mkAct 0 (Some (EntityGraph.state AppWitnesses.house)) false false clear 0 0.

(** What is observed: the house, by the guest. *)
Definition world (g : EntityGraph.t) (p : PolicySnapshot) : Prop := g = AppWitnesses.house ∧ p = AppWitnesses.guest.
Lemma world_ok g p : world g p → GraphInv.inv g ∧ typed_graph g.
Proof.
  intros [-> ->]. split; [exact AppWitnesses.house_inv|].
  assert (Hall : forallb (λ kv, WireWitnesses.typedb 5 (KDict kv.2)) (map_to_list (EntityGraph.entities AppWitnesses.house)) = true)
    by (vm_compute; reflexivity).
  intros id row Hrow. rewrite List.forallb_forall in Hall. apply typed_dict_inv, (WireWitnesses.typedb_sound 5).
  apply (Hall (id, row)), list_elem_of_In. by apply elem_of_map_to_list.
Qed.

(** ** Steps that compute *)

Section computing.
Context {HO : HashOrder} {RB : Roaring} {CM : CacheMap} {ON : Ontology} {CA : Catalog} {FS : FilterSyntax} {AM : Ambient}.
Context {CH : Chrono} {B6 : Base64} {SJ : SerdeJson}.
Context (service : Subscription.t) (world : EntityGraph.t → PolicySnapshot → Prop) (b : Budget).
Context (lc : LocateScene) (lk : LookScene) (ac : ActScene) (principal : Principal) (session : Session).
Hypothesis Hlook : ∀ p, lk_policy lk = Ok p → world (lk_graph lk) p.

Definition do_create (create : SubscriptionCreate) (s : Sys) : option Sys :=
  match locate_create service lc principal session create false None (sy_now s) b,
        ws_heap (sy_now s) !! lc_addr lc, rg_entries (ws_table (sy_now s)) !! lc_watch lc with
  | Some (Ok (inr (addr, Some w)), _), None, None => Some (mkSys w (states s) (<[addr := new_client]> (sy_clients s)))
  | _, _, _ => None
  end.
Lemma do_create_step create s s' : do_create create s = Some s' → step service world s s'.
Proof.
  unfold do_create. intros H. repeat (case_match; try done). simplify_eq. by eapply step_create.
Qed.
Definition unused (e : Entry) : bool :=
  match wr_status (en_state e) with
  | StLive l => match lv_last_ack l with Some a => bool_decide (ack_token a ≠ lk_token lk) | None => true end
  | _ => true
  end.
Definition round (request : SubscriptionRequest) (reserved : bool) (s : Sys)
    : option (Watches * option (SubscriptionOutcome * bool)) :=
  e ← ws_heap (sy_now s) !! lc_addr lc;
  if unused e then
    match look service lk session request reserved e b with
    | Some (Ok i, b1) =>
        match act service ac (lc_addr lc) session i (sy_now s) b1 with Some (Ok r, _) => Some r | _ => None end
    | _ => None
    end
  else None.
Definition do_round (request : SubscriptionRequest) (reserved : bool) (s : Sys) : option Sys :=
  '(w, a) ← round request reserved s; Some (mkSys w (states s) (hear (lc_addr lc) a (sy_clients s))).
Lemma unused_fresh e l : unused e = true → wr_status (en_state e) = StLive l → fresh_token lk l.
Proof.
  intros Hu Hst a Ha. unfold unused in Hu. rewrite Hst, Ha in Hu. by apply bool_decide_eq_true in Hu.
Qed.
(** A round of a request, at once. *)
Definition at_once (s : Sys) : Round := mkRound lk (sy_now s) ac (sy_now s).
Lemma round_inv request reserved s w a : round request reserved s = Some (w, a) →
  ∃ e i b1 b2, ws_heap (sy_now s) !! lc_addr lc = Some e ∧ unused e = true ∧
    look service lk session request reserved e b = Some (Ok i, b1) ∧
    act service ac (lc_addr lc) session i (sy_now s) b1 = Some (Ok (w, a), b2).
Proof. unfold round. intros (e & He & H)%bind_Some. repeat (case_match; try done). simplify_eq. eauto 10. Qed.
Lemma do_round_step request reserved s s' : do_round request reserved s = Some s' → step service world s s'.
Proof.
  intros ([w a] & (e & i & b1 & b2 & He & Hu & Hl & Ha)%round_inv & [= <-])%bind_Some.
  eapply (step_round service world s (at_once s)); [left|done|exact He|done| |exact Hl|exact Ha].
  intros l Hst. by eapply unused_fresh.
Qed.

(** A creation, its initial delivery and the acknowledgement of it. *)
Context (create : SubscriptionCreate) (acknowledgement : SubscriptionRequest).
Definition created_run : option Sys := do_create create init.
Definition delivered_run : option Sys := s ← created_run; do_round (SCreate create) true s.
Definition acknowledged_run : option Sys := s ← delivered_run; do_round acknowledgement false s.
Lemma created_reachable s : created_run = Some s → rtc (step service world) init s.
Proof. intros H. by eapply rtc_once, do_create_step. Qed.
Lemma delivered_reachable s : delivered_run = Some s → rtc (step service world) init s.
Proof. intros (s1 & H1 & H2)%bind_Some. eapply rtc_r; [by apply created_reachable|by eapply do_round_step]. Qed.
Lemma acknowledged_reachable s : acknowledged_run = Some s → rtc (step service world) init s.
Proof. intros (s1 & H1 & H2)%bind_Some. eapply rtc_r; [by apply delivered_reachable|by eapply do_round_step]. Qed.

(** A lookup that creates nothing, in a state that does not change. *)
Lemma steady_lookup s request rounds sight policy dropped b1 addr created b2 :
  (∀ c, request ≠ SCreate c) → (∀ r, r ∈ rounds → ro_seen r = sy_now s ∧ ro_met r = sy_now s) →
  let sc := mkRequestScene sight policy lc (sy_now s) rounds dropped in
  locate service (rs_locate sc) principal session request false None (rs_found sc) b1
    = Some (Ok (inr (addr, created)), b2) → after_lookup sc (default (rs_found sc) created).
Proof.
  intros Hne Hr sc Hl r Hin. cbn in Hl, Hin. destruct (Hr r Hin) as [-> ->].
  assert (created = None) as ->; [|split; apply follows_refl].
  assert (Hw : ∀ watch, locate_watch service lc session watch false (sy_now s) b1 = Some (Ok (inr (addr, created)), b2) →
    created = None).
  { intros watch E. unfold locate_watch in E. destruct (negb _); [done|]. r_step E u b3 E3.
    destruct (rg_entries _ !! _) as [a|]; [|done]. destruct (ws_heap (sy_now s) !! a) as [e|]; [|done].
    injection E as E _. destruct (admitted_entry _ _ _ _); by simplify_eq. }
  unfold locate in Hl. destruct request as [|c|w0|w0 ? ?|w0 ? ? ?|w0 ?|w0 ? ?|w0]; cbn [SubWire.request_watch] in Hl; eauto; [done|].
  by destruct (Hne c).
Qed.
End computing.

(** ** The run *)

Definition finding : LocateScene := mkLocate 0 (sid_watch watch) 0.
Abbreviation created_sys := (created_run service AppWitnesses.budget finding kiosk session create).
Abbreviation delivered_sys := (delivered_run service AppWitnesses.budget finding looking acting kiosk session create).
Abbreviation acknowledged_sys := (acknowledged_run service AppWitnesses.budget finding looking acting kiosk session create (SAcknowledge watch 1 token 3)).
Lemma looking_world p : lk_policy looking = Ok p → world (lk_graph looking) p.
Proof. by intros [= <-]. Qed.

(** What a cell and its client hold. *)
Definition digest (s : Sys) : option (N * option N * list string * bool) :=
  e ← ws_heap (sy_now s) !! 0%N; c ← sy_clients s !! 0%N;
  match wr_status (en_state e) with
  | StLive l => Some (lv_acknowledged l, dl_through ∘ pd_delivery <$> lv_prepared l, (map_to_list (cl_rows c)).*1,
                      bool_decide (cl_pending c = None))
  | _ => None
  end.
Lemma digest_inv o d : o ≫= digest = Some d →
  ∃ s e l c, o = Some s ∧ ws_heap (sy_now s) !! 0%N = Some e ∧ wr_status (en_state e) = StLive l ∧
    sy_clients s !! 0%N = Some c ∧
    d = (lv_acknowledged l, dl_through ∘ pd_delivery <$> lv_prepared l, (map_to_list (cl_rows c)).*1,
         bool_decide (cl_pending c = None)).
Proof.
  intros (s & -> & (e & He & (c & Hc & H)%bind_Some)%bind_Some)%bind_Some.
  destruct (wr_status (en_state e)) as [|l| | |] eqn:Hst; try done. injection H as <-. by exists s, e, l, c.
Qed.
Example delivered_digest : delivered_sys ≫= digest = Some (3%N, Some 3%N, [], false).
Proof. vm_compute. reflexivity. Qed.
Example acknowledged_digest : acknowledged_sys ≫= digest = Some (3%N, None, ["s"; "p"], true).
Proof. vm_compute. reflexivity. Qed.

(** ** Witnesses *)

Lemma subscription_messages_exact_witness :
  let v := match to_kind (SAcknowledge watch 1 token 3) with Ok v => v | Err _ => KNull end in
  (∀ r : SubscriptionRequest, from_kind v = Ok r ↔ SubWire.request_valid r ∧ to_kind r = Ok v) ∧
  from_kind v = Ok (SAcknowledge watch 1 token 3).
Proof.
  intros v. split; [exact (proj1 (SubscriptionTheorems.subscription_messages_exact v))|]. vm_compute. reflexivity.
Defined.

Lemma subscription_replica_witness :
  ∃ s e l c, acknowledged_sys = Some s ∧ ws_heap (sy_now s) !! 0%N = Some e ∧ wr_status (en_state e) = StLive l ∧
    sy_clients s !! 0%N = Some c ∧ (map_to_list (cl_rows c)).*1 = ["s"; "p"] ∧
    exact world (lv_ids l) (lv_acknowledged l) (cl_rows c).
Proof.
  destruct (digest_inv _ _ acknowledged_digest) as (s & e & l & c & Hs & He & Hst & Hc & Hd).
  pose proof (acknowledged_reachable service world AppWitnesses.budget finding looking acting kiosk session looking_world
    create (SAcknowledge watch 1 token 3) s Hs) as Hr.
  pose proof (SubscriptionTheorems.subscription_replica service world world_ok s 0%N e l c Hr He Hst Hc) as H.
  injection Hd as _ Hp Hrows _. exists s, e, l, c. split_and!; [exact Hs|exact He|exact Hst|exact Hc|symmetry; exact Hrows|].
  destruct (lv_prepared l); [discriminate Hp|exact (proj2 H)].
Defined.

(** The first delivery of the watch, published. *)
Example first_round :
  (s ← created_sys; r ← round service AppWitnesses.budget finding looking acting session (SCreate create) true s;
   match r.2 with Some (SDelivery d, true) => Some (length (dl_rows d), dl_initial d) | _ => None end)
  = Some (2, true).
Proof. vm_compute. reflexivity. Qed.
Lemma subscription_serial_witness :
  ∃ s e w o next growth, created_sys = Some s ∧ ws_heap (sy_now s) !! 0%N = Some e ∧
    round service AppWitnesses.budget finding looking acting session (SCreate create) true s = Some (w, Some (o, true)) ∧
    wr_revision next = (wr_revision (en_state e) + 1)%N ∧
    w = mkWatches (mkRegistry (rg_entries (ws_table (sy_now s))) (rg_bindings (ws_table (sy_now s)))
                     (rg_reserved (ws_table (sy_now s)) + growth))
          (<[0%N := set_state next (is_live (wr_status next)) (en_reservation e + growth) e]> (ws_heap (sy_now s))).
Proof.
  destruct (proj1 (bind_Some _ _ _) first_round) as (s & Hs & ([w a] & Hround & Ha)%bind_Some). cbn [snd] in Ha.
  destruct a as [[o [|]]|]; [|by destruct o|done].
  destruct (round_inv _ _ _ _ _ _ _ _ _ _ _ Hround) as (e & i & b1 & b2 & He & _ & Hl & Hact).
  pose proof (created_reachable service world AppWitnesses.budget finding kiosk session create s Hs) as Hr.
  destruct (SubscriptionTheorems.subscription_serial service world world_ok s (at_once looking acting s) 0%N session
    (SCreate create) true e _ i b1 w o b2 Hr ltac:(left) eq_refl He Hl Hact)
    as (e0 & next & p & ids & c & b3 & b4 & He0 & Hst & _ & _ & _ & _ & _ & _ & _ & Hrev & _ & Hw).
  assert (e0 = e) as -> by (change (ws_heap (sy_now s) !! 0%N = Some e) in He; congruence).
  eexists s, e, w, o, next, _.
  split; [exact Hs|]. split; [exact He|]. split; [exact Hround|]. split; [exact Hrev|exact Hw].
Defined.

Lemma subscription_registry_witness :
  ∃ s, delivered_sys = Some s ∧
    (N.of_nat (active_watches (sy_now s)) ≤ SubscriptionLimits.max_watches (limits service))%N ∧
    retained_reservations (sy_now s) = measure en_reservation (reg (sy_now s)).
Proof.
  destruct (digest_inv _ _ delivered_digest) as (s & _ & _ & _ & Hs & _).
  pose proof (delivered_reachable service world AppWitnesses.budget finding looking acting kiosk session looking_world create s Hs) as Hr.
  destruct (SubscriptionTheorems.subscription_registry service world world_ok s Hr) as (H1 & _ & _ & H4 & _).
  exists s. split; [exact Hs|]. split; [exact H1|exact H4].
Defined.

(** A poll of the acknowledged watch, with as many rounds as there are. *)
Definition polling (n : nat) (s : Sys) : RequestScene :=
  mkRequestScene clear (Ok AppWitnesses.guest) finding (sy_now s) (replicate n (at_once looking acting s)) (sy_now s).
Lemma polling_rounds n s r : r ∈ replicate n (at_once looking acting s) → ro_seen r = sy_now s ∧ ro_met r = sy_now s.
Proof. by intros [-> _]%elem_of_replicate. Qed.
Lemma polling_observes n s : observes s (polling n s).
Proof. split; [left|]. intros r [-> ->]%polling_rounds. split; left. Qed.
Lemma polling_after n s b1 addr created b2 :
  locate service finding kiosk session (SPoll watch) false None (sy_now s) b1 = Some (Ok (inr (addr, created)), b2) →
  after_lookup (polling n s) (default (sy_now s) created).
Proof. apply steady_lookup; [done|]. by apply polling_rounds. Qed.

Abbreviation poll n s := (execute service (polling n s) kiosk session (SPoll watch) false None AppWitnesses.budget).
Example polled :
  (s ← acknowledged_sys; r ← poll 1 s; match r.1.1 with Ok o => Some o | Err _ => None end)
  = Some (SIdle watch 1 3).
Proof. vm_compute. reflexivity. Qed.
Lemma subscription_answers_accepted_witness :
  ∃ s o ws b', acknowledged_sys = Some s ∧ poll 1 s = Some (Ok o, ws, b') ∧
    SubWire.validate_for_request o (SPoll watch) = Ok ().
Proof.
  destruct (proj1 (bind_Some _ _ _) polled) as (s & Hs & ([[r ws] b'] & Hp & Ho)%bind_Some). cbn [fst] in Ho.
  destruct r as [o|]; [|done]. pose proof (acknowledged_reachable service world AppWitnesses.budget finding looking acting kiosk session looking_world
    create (SAcknowledge watch 1 token 3) s Hs) as Hr.
  exists s, o, ws, b'. split; [exact Hs|]. split; [exact Hp|].
  exact (SubscriptionTheorems.subscription_answers_accepted service world world_ok s (polling 1 s) _ _ _ _ _ _ o ws b'
    Hr (polling_observes 1 s) (polling_after 1 s) Hp).
Defined.

Lemma waning_passes m : 2000 ≤ m → (deadline AppWitnesses.budget ≤ at_deadline (moments m))%N.
Proof. intros H%Nat.leb_le. unfold moments, waning. rewrite H. vm_compute. discriminate. Qed.
Lemma subscription_returns_witness :
  ∃ s answer ws b', acknowledged_sys = Some s ∧ poll 2001 s = Some (answer, ws, b').
Proof.
  destruct (digest_inv _ _ acknowledged_digest) as (s & _ & _ & _ & Hs & _).
  pose proof (acknowledged_reachable service world AppWitnesses.budget finding looking acting kiosk session looking_world
    create (SAcknowledge watch 1 token 3) s Hs) as Hr.
  exists s. destruct (SubscriptionTheorems.subscription_returns service world world_ok s (polling 2001 s) kiosk session
    (SPoll watch) false None AppWitnesses.budget 2000 Hr (polling_observes 2001 s) (polling_after 2001 s) waning_passes)
    as (answer & ws & b' & H).
  - cbn [rs_rounds polling]. rewrite length_replicate. apply Nat.lt_succ_diag_r.
  - exists answer, ws, b'. split; [exact Hs|exact H].
Defined.
End SubscriptionWitnesses.
